(* ===== verification/_CoqProject ===== *)
-Q . S2P
Prelude.v
Committee.v
Block.v
StakeAggregator.v
ThresholdClock.v
Commit.v
Store.v
LeaderScoring.v
DagState.v
DagInvariant.v
LeaderSchedule.v
BaseCommitter.v
CommitSafety.v
UniversalCommitter.v
Linearizer.v
BlockVerifier.v
TransactionConsumer.v
BlockManager.v
QuorumScan.v
RoundTracker.v
CommitVoteMonitor.v
Ancestor.v
TransactionCertifier.v
CommitSyncer.v
CommitObserver.v
Core.v
ProposalState.v
Proposal.v
CommitFinalizer.v
FinalizerSafety.v
Growth.v
BlockOrigin.v
CommitProgress.v
ScheduleProgress.v
CoreInvariant.v
ProposedBlock.v
CommitFrame.v
CoreCommit.v
CoreRun.v
CoreThread.v
AuthorityService.v
AuthorityNode.v
Network.v
Wire.v
FetchSafety.v
ServiceSafety.v
NetworkSafety.v
