(* ===== verification/Prelude.v ===== *)
(** A verification of the consensus core of the repository (src/consensus/core,
    src/consensus/config and src/consensus/types): Mysticeti, a DAG-based Byzantine fault
    tolerant consensus, as a validator runs it.

    * The program

    Validators make one block per round, each linking to a quorum of blocks of the previous
    round. A block that arrives is verified (block_verifier.rs), voted on
    (transaction_certifier.rs), held back until its ancestors are there (block_manager.rs) and
    put into the DAG (dag_state.rs), a cache of recent blocks over a store
    (storage/mem_store.rs). The DAG advances the round clock (threshold_clock.rs). The committers
    (base_committer.rs, universal_committer.rs) decide the leaders of a schedule
    (leader_schedule.rs) by the blocks that vote for and certify them; the linearizer
    (linearizer.rs) turns each committed leader into a sub-DAG with an index and a timestamp; the
    observer (commit_observer.rs) sends it to the finalizer (commit_finalizer.rs), which settles
    the fate of each transaction. Commits are scored (leader_scoring.rs) and after every 300 of
    them the schedule demotes the leaders that did badly. The core (core.rs) drives all of
    this, proposes the blocks of its own validator from the transactions that wait
    (transaction.rs) and the ancestors it selects (ancestor.rs, round_tracker.rs), and is driven
    by the commands of the core thread (core_thread.rs). Commands come from the network service
    (authority_service.rs), which takes the blocks of peers and answers their requests, and from
    the commit syncer (commit_syncer.rs), which fetches certified commits when the votes that
    were seen (commit_vote_monitor.rs) show that the validator is behind.

    * Conventions

    This file holds the shared vocabulary.
    - Machine integers: a Rust u32 or u64 is an [N]; the operators of the release profile
      wrap around (Cargo.toml sets no overflow-checks for profile.release), and the
      saturating and checked variants are written separately.
    - Panics: [outcome], the result of Rust code that may panic ([assert!], [expect],
      [unwrap], indexing out of range), with stdpp's do-notation; [result] for [Result].
      [debug_fatal!] only logs in a release build and is passed over.
    - Order: [isort], a stable insertion sort, stands for [slice::sort_by], [sort_by_key]
      and [sort], and for the ascending iteration of a BTreeMap or BTreeSet, which are a
      [gmap] or [gset].
    - State: structs are records, updated with [x <| field := v |>]; a method on &mut self
      returns the new record. Shared state behind Arc<RwLock> (the DAG state) is a field of the
      core that is passed on. What is sent on a channel is appended to a list in the sender.
      The readings of the clock are arguments.
    - Sums of stake over lists and finite sets, with the counting lemmas of quorum arguments.

    Library code is a class with the documented behaviour as its laws: [Crypto] (hashing,
    signing, encoding of blocks; Block.v), [CommitCodec] (encoding of commits; Commit.v),
    [LeaderRng] with [LeaderRngSpec] (the random number generator of the election;
    LeaderSchedule.v), [TransactionVerifier] (the verifier that the node passes in;
    BlockVerifier.v), [Decoder] with [DecoderSpec] (decoding of what peers send;
    CommitSyncer.v), and [Store] with [StoreSpec] (the storage trait; Store.v), which the
    in-memory store implements. [CertifiedCommitSink] with [SinkSpec] (CommitSyncer.v) states what
    the core promises to the commit syncer, whose schedule is proved against it; there is no
    instance for the core of Core.v, of which NetworkSafety.v shows the promises one fetch at a
    time.

    * Files

    Components, each after the source file of its name:
    - Committee.v: config/src/committee.rs; stakes and thresholds, intersection of quorums.
    - Block.v, Commit.v: types/src/block.rs, block.rs, commit.rs, context.rs, error.rs and
      parameters.rs; the data.
    - StakeAggregator.v, ThresholdClock.v, LeaderScoring.v, LeaderSchedule.v.
    - Store.v: the storage trait and mem_store.rs.
    - DagState.v: the operations of dag_state.rs. DagInvariant.v: their invariant, the map of
      known blocks that they refine, causal histories.
    - BaseCommitter.v, UniversalCommitter.v: the decision rules. CommitSafety.v: their safety
      in a universe of blocks with less than a third of Byzantine stake.
    - Linearizer.v, CommitObserver.v, CommitFinalizer.v, TransactionCertifier.v.
    - BlockVerifier.v, BlockManager.v, TransactionConsumer.v (transaction.rs).
    - QuorumScan.v (a loop that three components share), RoundTracker.v (round_tracker.rs and
      round_prober.rs), CommitVoteMonitor.v, Ancestor.v.
    - CommitSyncer.v: the schedule of fetches, the verification of fetched commits and the fetch
      from a peer in commit_syncer.rs. AuthorityService.v: the handlers of authority_service.rs
      and the count of its subscribers.
    - Core.v: the operations of core.rs. CoreThread.v: core_thread.rs. AuthorityNode.v: the
      start of a validator in authority_node.rs.

    Composition:
    - FinalizerSafety.v: the finalizers of two validators, with their certifiers.
    - ProposalState.v, Proposal.v: what the core reads when it proposes, and the ancestors it
      selects. Growth.v: a universe of blocks that grows by one block of an honest or a
      Byzantine authority.
    - CommitProgress.v, ScheduleProgress.v: the progress of consensus as a relation (decide the
      next leader, commit, renew the schedule), its determinism and that it never gets stuck.
    - BlockOrigin.v: where the blocks that enter the DAG come from.
    - CoreInvariant.v, ProposedBlock.v: the invariant of the core, and that its proposals are
      valid and keep the universe honest. CommitFrame.v, CoreCommit.v: commits in the core.
      CoreRun.v: every operation of the core.
    - Network.v: the validators of an epoch as a transition system. An honest validator takes
      the steps of its core thread and those of the tasks that share its state: votes on blocks,
      finalized commits that are recorded and flushed, garbage collection of votes, rounds from
      received blocks and probes, submitted transactions. Byzantine validators make any block that
      the verifiers of the honest ones accept.
    - FetchSafety.v: a fetch of the commit syncer from a validator of the network, against the
      histories of the honest validators. ServiceSafety.v: the network service of such a
      validator.
    - NetworkSafety.v: what holds in all reachable states of the network, and executions of it
      that commit, one of them with a validator that is left behind. Wire.v: an encoding of blocks
      and commits and a hash function with which these executions run; no part of the source.

    * What is shown

    - Agreement, end to end (NetworkSafety.v): in every reachable state of the network the
      commits of two honest validators are prefixes of one sequence. It rests on the agreement
      of decisions (CommitSafety.v, UniversalCommitter.v), of sub-DAGs (Linearizer.v) and of
      schedules (CommitProgress.v), and on the invariant that every operation of the core keeps
      (CoreCommit.v, CoreRun.v).
    - Catching up: the commit syncer loses no commit that it has scheduled (CommitSyncer.v); what
      a fetch accepts, from any peer, is history of an honest validator, and the core thread
      commits all of it (FetchSafety.v, NetworkSafety.v).
    - Absence of panics and termination: every event that the core thread handles returns; so
      does the handling of a block from the network (ServiceSafety.v, NetworkSafety.v) and of a
      request for blocks (AuthorityService.v), and the loops of the block manager, the linearizer
      and the finalizer.
    - Validity: blocks of honest validators pass the verification of all others; what
      verification accepts has the properties that the DAG relies on, and is signed by its author
      unless a signature is forged or a digest collides (BlockVerifier.v).
    - Time: the timestamps of commits never decrease and lie between those that honest authorities
      report (Linearizer.v).
    - Finalization: two validators report the same rejected transactions, and every commit
      leaves the finalizer three rounds later (FinalizerSafety.v, TransactionCertifier.v).
    - Functional descriptions, refinements and bounds of the single components; four defects
      that the proofs ran into are theorems of kind error, stated for all inputs that show them
      (ThresholdClock.v, Store.v, LeaderSchedule.v, AuthorityService.v).

    * Bounds

    Loops that the source leaves open run with fuel that is proved to be enough: the commit
    loop of the core with the number of blocks that can still be committed plus two
    ([CoreRun.fuel_enough]), traversals of the DAG and of suspended blocks with the number of
    entries, a loop over the first entry of a map with its size. Rounds are assumed to stay 454
    below the largest u32 ([CoreRun.rounds_safe]); at ten rounds per second that takes more than
    ten years, and epochs last a day. A universe of blocks is a function from references to
    blocks: two different blocks with the same reference do not occur, and no block refers to one
    that its honest author has yet to make ([CoreRun.unguessed]), which is what the hash
    function provides. Of what peers send it is assumed that blocks that verify exist in the
    universe ([FetchSafety.votes_sound]) and that no bytes collide with those of honest validators
    ([FetchSafety.answers_sound]). The core accepts committed blocks without their ancestors;
    that a fetched batch is committed as a whole is proved when the ancestors that garbage
    collection leaves out of a later commit are there ([FetchSafety.no_gap]).

    * Not modelled

    - Recovery from a store with blocks: [DagState_new], [CommitObserver_new] and
      [certifier_recover] are modelled with it, and are proved for the empty store only.
    - Other tasks around the core that wait on the network: synchronizer.rs, subscriber.rs,
      broadcaster.rs, leader_timeout.rs, proposed_block_handler.rs, and the stream of broadcast
      blocks in authority_service.rs. What they guarantee of what they hand to the core is
      [CoreThread.event_ok]. Timeouts and retries of the commit syncer are the sequence of its
      attempts.
    - network/ (gRPC and TLS over libraries), storage/rocksdb_store.rs (a third-party database
      behind the storage trait), metrics and logging, except where an index can panic, and the
      test builders.
    - The rest of the repository: the execution layer and Move, the validator around
      consensus, indexers, RPC, bridge, tools and SDKs are separate systems. *)

From stdpp Require Import base tactics numbers list gmap sorting fin_maps fin_sets.
From Stdlib Require Import ZifyBool.

Open Scope N_scope.

Create HintDb consensus discriminated.
Create Rewrite HintDb consensus.

(** * Machine integers *)

Definition u32_max : N := 2 ^ 32 - 1.
Definition u64_max : N := 2 ^ 64 - 1.

(** Wrapping addition, multiplication and subtraction (release profile). *)
Definition u32_add (a b : N) : N := (a + b) mod 2 ^ 32.
Definition u32_mul (a b : N) : N := (a * b) mod 2 ^ 32.
Definition u32_sub (a b : N) : N := (2 ^ 32 + a - b) mod 2 ^ 32.
Definition u64_add (a b : N) : N := (a + b) mod 2 ^ 64.
Definition u64_mul (a b : N) : N := (a * b) mod 2 ^ 64.
Definition u64_sub (a b : N) : N := (2 ^ 64 + a - b) mod 2 ^ 64.

(** [saturating_add] at the two widths; [saturating_sub] is [N.sub] itself, which
    truncates at zero. *)
Definition u32_saturating_add (a b : N) : N := N.min (a + b) u32_max.
Definition saturating_sub (a b : N) : N := a - b.

(** * Panicking computations *)

Inductive outcome (A : Type) : Type :=
| Ret (a : A)
| Panic.
Arguments Ret {A} a.
Arguments Panic {A}.

#[global] Instance outcome_ret : MRet outcome := λ A a, Ret a.
#[global] Instance outcome_bind : MBind outcome :=
  λ A B f m, match m with Ret a => f a | Panic => Panic end.
#[global] Instance outcome_fmap : FMap outcome :=
  λ A B f m, match m with Ret a => Ret (f a) | Panic => Panic end.

(** [Option::expect] / [unwrap], and [assert!]. *)
Definition expect {A} (o : option A) : outcome A :=
  match o with Some a => Ret a | None => Panic end.
Definition assert_that (b : bool) : outcome unit :=
  if b then Ret tt else Panic.

(** Indexing of a [Vec] by an authority index or a [usize]: panics out of range. *)
Definition vec_get {A} (l : list A) (i : N) : outcome A := expect (l !! N.to_nat i).
Definition vec_set {A} (l : list A) (i : N) (x : A) : outcome (list A) :=
  if decide (N.to_nat i < length l)%nat then Ret (<[N.to_nat i := x]> l) else Panic.

(** The result of a computation, to evaluate it on a concrete input. *)
Definition ret_or {A} (a : A) (o : outcome A) : A := match o with Ret x => x | Panic => a end.

(** A [for] loop that threads a state and may panic. *)
Fixpoint foldM {A B} (f : B → A → outcome B) (b : B) (l : list A) : outcome B :=
  match l with
  | [] => Ret b
  | a :: l => b' ← f b a; foldM f b' l
  end.

(** A [for] loop with an early [return]: [inl] continues with a new state, [inr]
    returns. *)
Fixpoint for_loop {A S R} (f : S → A → S + R) (s : S) (l : list A) : S + R :=
  match l with
  | [] => inl s
  | a :: l => match f s a with inl s' => for_loop f s' l | inr r => inr r end
  end.

(** The value of a computation that did not panic. *)
Definition no_panic {A} (m : outcome A) : Prop := m ≠ Panic.

(** * Results of fallible code: [Result<T, E>] *)

Inductive result (A E : Type) : Type :=
| Ok (a : A)
| Err (e : E).
Arguments Ok {A E} a.
Arguments Err {A E} e.

(** The [?] operator in code that may also panic. *)
Definition try_bind {A B E} (m : outcome (result A E)) (k : A → outcome (result B E))
    : outcome (result B E) :=
  r ← m; match r with Ok a => k a | Err e => Ret (Err e) end.
Notation "'let?' x := m 'in' k" := (try_bind m (λ x, k))
  (at level 10, x name, m at level 100, k at level 200).

(** * Stable sorting *)

Section Sort.
Context {A : Type} (leb : A → A → bool).

(** Inserts before the first element that is not strictly smaller, so that equal
    elements keep their order. *)
Fixpoint insert_sorted (x : A) (l : list A) : list A :=
  match l with
  | [] => [x]
  | y :: l' => if leb x y then x :: l else y :: insert_sorted x l'
  end.

Definition isort (l : list A) : list A := foldr insert_sorted [] l.

End Sort.

(** Ascending iteration over a [BTreeMap] and a [BTreeSet]. *)
Definition map_iter {K V} `{Countable K} (leb : K → K → bool) (m : gmap K V) : list (K * V) :=
  isort (λ a b, leb a.1 b.1) (map_to_list m).
Definition set_iter {K} `{Countable K} (leb : K → K → bool) (s : gset K) : list K :=
  isort leb (elements s).

(** * Sums *)

Fixpoint nsum (l : list N) : N :=
  match l with
  | [] => 0
  | x :: l => x + nsum l
  end.

(** Total weight of a finite set. *)
Definition set_sum {K} `{Countable K} (f : K → N) (s : gset K) : N :=
  nsum (f <$> elements s).

(** * Tactics *)

(** Splits every [x ← e; k] hypothesis that ended in [Ret] into its steps. *)
Lemma bind_Ret {A B} (m : outcome A) (f : A → outcome B) (b : B) :
  m ≫= f = Ret b ↔ ∃ a, m = Ret a ∧ f a = Ret b.
Proof. destruct m; cbn; naive_solver. Qed.

Lemma fmap_Ret {A B} (m : outcome A) (f : A → B) (b : B) :
  f <$> m = Ret b ↔ ∃ a, m = Ret a ∧ b = f a.
Proof. destruct m; cbn; naive_solver. Qed.

Lemma assert_that_Ret b u : assert_that b = Ret u ↔ b = true.
Proof. destruct b, u; cbn; naive_solver. Qed.

Lemma expect_Ret {A} (o : option A) a : expect o = Ret a ↔ o = Some a.
Proof. destruct o; cbn; naive_solver. Qed.

Lemma vec_get_Ret {A} (l : list A) i a : vec_get l i = Ret a ↔ l !! N.to_nat i = Some a.
Proof. apply expect_Ret. Qed.

Lemma vec_set_Ret {A} (l : list A) i a l' :
  vec_set l i a = Ret l' ↔ (N.to_nat i < length l)%nat ∧ l' = <[N.to_nat i := a]> l.
Proof. unfold vec_set. case_decide; naive_solver. Qed.

Ltac outcome_step :=
  match goal with
  | H : _ ≫= _ = Ret _ |- _ =>
      apply bind_Ret in H; destruct H as (? & ? & H)
  | H : _ <$> _ = Ret _ |- _ => apply fmap_Ret in H; destruct H as (? & ? & ?)
  | H : assert_that _ = Ret _ |- _ => apply assert_that_Ret in H
  | H : expect _ = Ret _ |- _ => apply expect_Ret in H
  | H : vec_get _ _ = Ret _ |- _ => apply vec_get_Ret in H
  | H : vec_set _ _ _ = Ret _ |- _ => apply vec_set_Ret in H; destruct H as [? ?]
  | H : Ret _ = Ret _ |- _ => injection H as H
  | H : Panic = Ret _ |- _ => discriminate H
  | H : mret _ = Ret _ |- _ => unfold mret, outcome_ret in H
  end.

Ltac outcome_inv := repeat (outcome_step; simplify_eq/=).

(** Linear arithmetic with division and remainder by constants. *)
Ltac lia_div := zify; Z.to_euclidean_division_equations; lia.

(** Case analysis on the innermost [if decide] / [match] of the goal or a hypothesis. *)
Ltac case_all := repeat (case_decide || case_bool_decide || case_match); simplify_eq/=.

(** * Facts about machine integers *)

Lemma u32_add_small a b : a + b < 2 ^ 32 → u32_add a b = a + b.
Proof. intros. unfold u32_add. by rewrite N.mod_small. Qed.

Lemma u64_add_small a b : a + b < 2 ^ 64 → u64_add a b = a + b.
Proof. intros. unfold u64_add. by rewrite N.mod_small. Qed.

Lemma u32_mul_small a b : a * b < 2 ^ 32 → u32_mul a b = a * b.
Proof. intros. unfold u32_mul. by rewrite N.mod_small. Qed.

Lemma u64_mul_small a b : a * b < 2 ^ 64 → u64_mul a b = a * b.
Proof. intros. unfold u64_mul. by rewrite N.mod_small. Qed.

Lemma u32_sub_small a b : b ≤ a → a < 2 ^ 32 → u32_sub a b = a - b.
Proof.
  intros. unfold u32_sub.
  replace (2 ^ 32 + a - b) with (a - b + 1 * 2 ^ 32) by lia.
  rewrite N.Div0.mod_add. apply N.mod_small. lia.
Qed.

(** * Facts about sums *)

Lemma nsum_app l k : nsum (l ++ k) = nsum l + nsum k.
Proof. induction l; simpl; lia. Qed.

#[global] Instance nsum_perm : Proper ((≡ₚ) ==> (=)) nsum.
Proof. induction 1; simpl; lia. Qed.

Lemma nsum_elem_le x l : x ∈ l → x ≤ nsum l.
Proof. induction 1; simpl; lia. Qed.

Section SetSum.
Context {K : Type} `{Countable K} (f : K → N).
Implicit Types X Y : gset K.

Lemma set_sum_empty : set_sum f ∅ = 0.
Proof. unfold set_sum. by rewrite elements_empty. Qed.

Lemma set_sum_union X Y : X ## Y → set_sum f (X ∪ Y) = set_sum f X + set_sum f Y.
Proof.
  intros. unfold set_sum. rewrite elements_disj_union by done.
  by rewrite fmap_app, nsum_app.
Qed.

Lemma set_sum_singleton x : set_sum f {[x]} = f x.
Proof. unfold set_sum. rewrite elements_singleton. simpl. lia. Qed.

Lemma set_sum_insert x X : x ∉ X → set_sum f ({[x]} ∪ X) = f x + set_sum f X.
Proof. intros. rewrite set_sum_union by set_solver. by rewrite set_sum_singleton. Qed.

Lemma set_sum_subseteq X Y : X ⊆ Y → set_sum f X ≤ set_sum f Y.
Proof.
  intros. rewrite (union_difference_L X Y) by done.
  rewrite set_sum_union by set_solver. lia.
Qed.

Lemma set_sum_elem x X : x ∈ X → f x ≤ set_sum f X.
Proof.
  intros. rewrite <- set_sum_singleton. apply set_sum_subseteq. set_solver.
Qed.

(** Inclusion and exclusion: the counting fact behind quorum intersection. *)
Lemma set_sum_inter X Y :
  set_sum f (X ∪ Y) + set_sum f (X ∩ Y) = set_sum f X + set_sum f Y.
Proof.
  replace (X ∪ Y) with (X ∪ (Y ∖ X)) by (apply set_eq; intros x; destruct (decide (x ∈ X)); set_solver).
  replace Y with (Y ∖ X ∪ X ∩ Y) at 3
    by (apply set_eq; intros x; destruct (decide (x ∈ X)); set_solver).
  rewrite !set_sum_union by set_solver. lia.
Qed.

Lemma set_sum_list_to_set l :
  NoDup l → set_sum f (list_to_set l) = nsum (f <$> l).
Proof.
  induction 1 as [|x l Hx _ IH]; cbn [list_to_set fmap list_fmap nsum].
  - apply set_sum_empty.
  - rewrite set_sum_insert by by rewrite elem_of_list_to_set. by rewrite IH.
Qed.
End SetSum.

(** * Facts about sorting *)

Section SortFacts.
Context {A : Type} (leb : A → A → bool).
Implicit Types l : list A.

Lemma insert_sorted_perm x l : insert_sorted leb x l ≡ₚ x :: l.
Proof.
  induction l as [|y l IH]; simpl; [done|].
  destruct (leb x y); [done|]. rewrite IH. constructor.
Qed.

Lemma isort_perm l : isort leb l ≡ₚ l.
Proof. induction l as [|x l IH]; simpl; [done|]. by rewrite insert_sorted_perm, IH. Qed.

Lemma elem_of_isort x l : x ∈ isort leb l ↔ x ∈ l.
Proof. by rewrite isort_perm. Qed.

Lemma length_isort l : length (isort leb l) = length l.
Proof. by rewrite isort_perm. Qed.

Context (leb_total : ∀ x y, leb x y = true ∨ leb y x = true).
Context (leb_trans : ∀ x y z, leb x y = true → leb y z = true → leb x z = true).

Lemma insert_sorted_sorted x l :
  StronglySorted leb l → StronglySorted leb (insert_sorted leb x l).
Proof.
  induction 1 as [|y l Hl IH Hy]; simpl; [by repeat constructor|].
  destruct (leb x y) eqn:Hxy.
  - constructor; [by constructor|]. constructor; [by apply Is_true_true|].
    eapply Forall_impl; [done|]. intros z Hz. apply Is_true_true.
    eapply leb_trans; [done|]. by apply Is_true_true.
  - constructor; [done|]. rewrite insert_sorted_perm. constructor; [|done].
    apply Is_true_true. destruct (leb_total x y); congruence.
Qed.

Lemma isort_sorted l : StronglySorted leb (isort leb l).
Proof. induction l; simpl; [constructor|]. by apply insert_sorted_sorted. Qed.

(** Stability: a property whose elements are all equivalent selects the same list
    before and after sorting. *)
Lemma insert_sorted_filter (P : A → bool) x l :
  (∀ y, P x = true → P y = true → leb x y = true) →
  filter P (insert_sorted leb x l) = filter P (x :: l).
Proof.
  intros HP. induction l as [|y l IH]; simpl; [done|].
  destruct (leb x y) eqn:Hxy; [done|].
  rewrite !filter_cons. rewrite filter_cons in IH. rewrite IH.
  repeat case_decide; try done.
  rewrite (HP y) in Hxy; by try apply Is_true_true.
Qed.

Lemma isort_stable (P : A → bool) l :
  (∀ x y, P x = true → P y = true → leb x y = true) →
  filter P (isort leb l) = filter P l.
Proof.
  intros HP. induction l as [|x l IH]; simpl; [done|].
  rewrite insert_sorted_filter by auto. rewrite !filter_cons. by rewrite IH.
Qed.
End SortFacts.

Lemma StronglySorted_map {A B} (R : A → A → Prop) (R' : B → B → Prop) (f : A → B) l :
  StronglySorted R l → (∀ x y, x ∈ l → y ∈ l → R x y → R' (f x) (f y)) → StronglySorted R' (f <$> l).
Proof.
  induction 1 as [|x l Hl IH Hx]; intros Hf; csimpl; constructor.
  - apply IH. intros y z Hy Hz. apply Hf; by right.
  - rewrite Forall_fmap, Forall_forall in *. intros y Hy. apply Hf; [left|by right|by apply Hx].
Qed.

Lemma seq_sorted i k : StronglySorted N.le (N.of_nat <$> seq i k).
Proof.
  revert i. induction k as [|k IH]; intros i; csimpl; constructor; [done|].
  rewrite Forall_fmap, Forall_forall. intros j Hj. apply elem_of_seq in Hj. cbn. lia.
Qed.

Lemma StronglySorted_impl {A} (R R' : A → A → Prop) l :
  (∀ x y, R x y → R' x y) → StronglySorted R l → StronglySorted R' l.
Proof. intros HR. induction 1; constructor; [done|]. eapply Forall_impl; [done|]. intros. by apply HR. Qed.

Section IterFacts.
Context {K V : Type} `{Countable K} (leb : K → K → bool).

Lemma elem_of_map_iter (m : gmap K V) k v : (k, v) ∈ map_iter leb m ↔ m !! k = Some v.
Proof. unfold map_iter. rewrite elem_of_isort. apply elem_of_map_to_list. Qed.

Lemma elem_of_set_iter (s : gset K) k : k ∈ set_iter leb s ↔ k ∈ s.
Proof. unfold set_iter. by rewrite elem_of_isort, elem_of_elements. Qed.

Lemma NoDup_set_iter (s : gset K) : NoDup (set_iter leb s).
Proof. unfold set_iter. rewrite isort_perm. apply NoDup_elements. Qed.

Lemma NoDup_map_iter (m : gmap K V) : NoDup (map_iter leb m).*1.
Proof. unfold map_iter. rewrite isort_perm. apply NoDup_fst_map_to_list. Qed.
End IterFacts.

(** * Facts about loops *)

Lemma mapM_elem {A B} (f : A → outcome B) l k y : mapM f l = Ret k → y ∈ k → ∃ x, x ∈ l ∧ f x = Ret y.
Proof.
  revert k. induction l as [|x l IH]; intros k Hk Hy; cbn [mapM] in Hk.
  - injection Hk as <-. by apply elem_of_nil in Hy.
  - destruct (f x) as [z|] eqn:Hz; [|done]. cbn [mbind outcome_bind] in Hk. destruct (mapM f l) as [zs|]; [|done].
    injection Hk as <-. apply elem_of_cons in Hy as [->|Hy]; [exists x; split; [left|done]|].
    destruct (IH zs eq_refl Hy) as (w & Hw & ?). exists w. split; [by right|done].
Qed.

Lemma mapM_Ret {A B} (f : A → outcome B) (g : A → B) l :
  (∀ x, x ∈ l → f x = Ret (g x)) → mapM f l = Ret (g <$> l).
Proof.
  induction l as [|x l IH]; intros Hf; simpl; [done|].
  rewrite (Hf x) by apply list_elem_of_here. simpl.
  rewrite IH by (intros; apply Hf; by apply list_elem_of_further). done.
Qed.

Lemma foldM_app {A B} (f : B → A → outcome B) b l k :
  foldM f b (l ++ k) = (b' ← foldM f b l; foldM f b' k).
Proof.
  revert b. induction l as [|a l IH]; intros b; simpl; [done|].
  destruct (f b a); simpl; [apply IH|done].
Qed.

(** An invariant of the loop body is an invariant of the loop. *)
Lemma foldM_inv {A B} (P : B → Prop) (f : B → A → outcome B) b l b' :
  P b → (∀ b a b', a ∈ l → P b → f b a = Ret b' → P b') → foldM f b l = Ret b' → P b'.
Proof.
  intros Hb Hstep. revert b Hb. induction l as [|a l IH]; intros b Hb Hf; simpl in *.
  - by outcome_inv.
  - apply bind_Ret in Hf as (b1 & Hb1 & Hf).
    apply (IH (λ b a b' Ha, Hstep b a b' (list_elem_of_further _ _ _ Ha)) b1); [|done].
    by eapply Hstep; [apply list_elem_of_here| |].
Qed.

#[export] Hint Rewrite @elem_of_isort @elem_of_set_iter @elem_of_map_iter : consensus.
