(* ===== verification/Committee.v ===== *)
(** The consensus committee (consensus/config/src/committee.rs): construction of
    the thresholds, lookups by authority index, and the quorum arithmetic on which
    every safety argument of the later files rests. *)

From stdpp Require Import base tactics numbers list gmap strings.
From S2P Require Import Prelude.

Open Scope N_scope.

(** * Data *)

(** An authority: the voting power, the host name used in logs and tables, and the
    key that verifies its blocks. The network address and the two keys that only the
    network layer reads are left out. *)
Record Authority := mkAuthority {
  authority_stake : N;
  authority_hostname : string;
  authority_protocol_key : list Byte.byte;
}.

Record Committee := mkCommittee {
  committee_epoch : N;
  committee_total_stake : N;
  committee_quorum_threshold : N;
  committee_validity_threshold : N;
  committee_authorities : list Authority;
}.

(** [AuthorityIndex] is a [u32]; these bounds are used to scan tables. *)
Definition AuthorityIndex_ZERO : N := 0.
Definition AuthorityIndex_MAX : N := u32_max.

(** * Operations *)

Definition Committee_new (epoch : N) (authorities : list Authority) : outcome Committee :=
  _ ← assert_that (negb (bool_decide (length authorities = 0%nat)));
  _ ← assert_that (bool_decide (N.of_nat (length authorities) < u32_max));
  let total_stake := foldl u64_add 0 (authority_stake <$> authorities) in
  _ ← assert_that (negb (bool_decide (total_stake = 0)));
  let quorum_threshold := u64_add (u64_mul 2 total_stake / 3) 1 in
  let validity_threshold := u64_add total_stake 2 / 3 in
  Ret (mkCommittee epoch total_stake quorum_threshold validity_threshold authorities).

Definition Committee_authority (c : Committee) (i : N) : outcome Authority :=
  vec_get (committee_authorities c) i.

Definition Committee_stake (c : Committee) (i : N) : outcome N :=
  a ← Committee_authority c i; Ret (authority_stake a).

Definition Committee_enumerate (c : Committee) : list (N * Authority) :=
  imap (λ i a, (N.of_nat i, a)) (committee_authorities c).

Definition Committee_size (c : Committee) : N := N.of_nat (length (committee_authorities c)).

Definition reached_quorum (c : Committee) (stake : N) : bool :=
  bool_decide (committee_quorum_threshold c ≤ stake).

Definition reached_validity (c : Committee) (stake : N) : bool :=
  bool_decide (committee_validity_threshold c ≤ stake).

Definition to_authority_index (c : Committee) (index : N) : option N :=
  if decide (index < Committee_size c) then Some index else None.

Definition is_valid_index (c : Committee) (index : N) : bool :=
  bool_decide (index < Committee_size c).

(** * Specification vocabulary *)

(** Stake of an index, zero outside the committee, and of a set of indices. *)
Definition stake_of (c : Committee) (i : N) : N :=
  from_option authority_stake 0 (committee_authorities c !! N.to_nat i).

Definition weight (c : Committee) (X : gset N) : N := set_sum (stake_of c) X.

(** The indices of the committee. *)
Definition members (c : Committee) : gset N :=
  list_to_set (N.of_nat <$> seq 0 (length (committee_authorities c))).

(** What [Committee_new] establishes when the stakes do not overflow. *)
Record committee_wf (c : Committee) : Prop := {
  wf_total : committee_total_stake c = nsum (authority_stake <$> committee_authorities c);
  wf_total_pos : 0 < committee_total_stake c;
  wf_total_bound : committee_total_stake c < 2 ^ 63;
  wf_size : Committee_size c < u32_max;
  wf_quorum : committee_quorum_threshold c = 2 * committee_total_stake c / 3 + 1;
  wf_validity : committee_validity_threshold c = (committee_total_stake c + 2) / 3;
}.

(** * Lemmas *)

Lemma foldl_u64_add l n :
  n + nsum l < 2 ^ 64 → foldl u64_add n l = n + nsum l.
Proof.
  revert n. induction l as [|x l IH]; intros n Hb; simpl in *; [lia|].
  rewrite u64_add_small by lia. rewrite IH; lia.
Qed.

Lemma Committee_stake_valid c i :
  is_valid_index c i = true → Committee_stake c i = Ret (stake_of c i).
Proof.
  unfold is_valid_index, Committee_size, Committee_stake, Committee_authority, vec_get, stake_of.
  rewrite bool_decide_eq_true. intros Hi.
  destruct (lookup_lt_is_Some_2 (committee_authorities c) (N.to_nat i)) as [a Ha]; [lia|].
  by rewrite Ha.
Qed.

Lemma valid_authority c i : is_valid_index c i = true → ∃ a, Committee_authority c i = Ret a.
Proof. intros Hs%Committee_stake_valid. apply bind_Ret in Hs as (a & Ha & _). by exists a. Qed.

Lemma Committee_stake_Ret c i s :
  Committee_stake c i = Ret s → is_valid_index c i = true ∧ s = stake_of c i.
Proof.
  intros Hs. unfold Committee_stake, Committee_authority in Hs. outcome_inv.
  match goal with H : _ !! _ = Some _ |- _ => rename H into Ha end.
  unfold is_valid_index, Committee_size, stake_of. rewrite Ha. split; [|done].
  apply lookup_lt_Some in Ha. rewrite bool_decide_eq_true. lia.
Qed.

Lemma elem_of_members c i : i ∈ members c ↔ is_valid_index c i = true.
Proof.
  unfold members, is_valid_index, Committee_size.
  rewrite elem_of_list_to_set, list_elem_of_fmap, bool_decide_eq_true.
  setoid_rewrite elem_of_seq. split.
  - intros (n & -> & Hn). lia.
  - intros Hi. exists (N.to_nat i). lia.
Qed.

Lemma stake_of_invalid c i : i ∉ members c → stake_of c i = 0.
Proof.
  rewrite elem_of_members. unfold is_valid_index, Committee_size, stake_of.
  rewrite bool_decide_eq_true. intros Hi.
  rewrite (proj2 (lookup_ge_None _ _)); [done|]. lia.
Qed.

Lemma stake_of_seq c :
  (stake_of c ∘ N.of_nat) <$> seq 0 (length (committee_authorities c))
    = authority_stake <$> committee_authorities c.
Proof.
  apply list_eq. intros i. rewrite !list_lookup_fmap.
  destruct (decide (i < length (committee_authorities c))%nat) as [Hi|Hi].
  - rewrite lookup_seq_lt by done. simpl. unfold stake_of.
    rewrite Nat2N.id. destruct (lookup_lt_is_Some_2 _ _ Hi) as [a Ha].
    by rewrite Ha.
  - rewrite lookup_seq_ge by lia. by rewrite (proj2 (lookup_ge_None _ _)) by lia.
Qed.

Lemma weight_members c : weight c (members c) = nsum (authority_stake <$> committee_authorities c).
Proof.
  unfold weight, members. rewrite set_sum_list_to_set.
  - by rewrite <- list_fmap_compose, stake_of_seq.
  - apply NoDup_fmap_2; [apply _|]. apply NoDup_seq.
Qed.

Lemma set_sum_ext {K} `{Countable K} (f : K → N) (X Y : gset K) :
  (∀ x, x ∈ X → x ∉ Y → f x = 0) → set_sum f X = set_sum f (X ∩ Y).
Proof.
  intros Hz. assert (set_sum f (X ∖ Y) = 0) as H0.
  { assert (∀ Z : gset K, Z ⊆ X ∖ Y → set_sum f Z = 0) as HZ; [|by apply HZ].
    intros Z. induction Z as [|z Z Hz' IH] using set_ind_L; intros Hsub.
    - apply set_sum_empty.
    - rewrite set_sum_insert by done. rewrite IH by set_solver.
      rewrite Hz by set_solver. lia. }
  replace X with (X ∩ Y ∪ X ∖ Y) at 1
    by (apply set_eq; intros x; destruct (decide (x ∈ Y)); set_solver).
  rewrite set_sum_union by set_solver. lia.
Qed.

Section WellFormed.
Context (c : Committee) (Hwf : committee_wf c).

Lemma weight_le_total X : weight c X ≤ committee_total_stake c.
Proof.
  unfold weight. rewrite (set_sum_ext _ X (members c)).
  - rewrite (wf_total c Hwf), <- weight_members. apply set_sum_subseteq. set_solver.
  - intros x _ Hx. by apply stake_of_invalid.
Qed.

Lemma weight_bound X : weight c X < 2 ^ 63.
Proof. pose proof (weight_le_total X). pose proof (wf_total_bound c Hwf). lia. Qed.

Lemma stake_of_le_total i : stake_of c i ≤ committee_total_stake c.
Proof. rewrite <- (set_sum_singleton (stake_of c) i). apply weight_le_total. Qed.

Lemma weight_inter X Y :
  weight c X + weight c Y ≤ committee_total_stake c + weight c (X ∩ Y).
Proof.
  pose proof (set_sum_inter (stake_of c) X Y). pose proof (weight_le_total (X ∪ Y)).
  unfold weight in *. lia.
Qed.

Lemma quorum_arith :
  committee_validity_threshold c + committee_total_stake c
    ≤ 2 * committee_quorum_threshold c.
Proof. rewrite (wf_quorum c Hwf), (wf_validity c Hwf). lia_div. Qed.

(** The members of a set whose stake exceeds another's are not all in it. *)
Lemma weight_lt_witness X B :
  weight c B < weight c X → ∃ i, i ∈ X ∧ i ∉ B.
Proof.
  intros Hlt. destruct (set_choose_or_empty (X ∖ B)) as [[i Hi]|He].
  - exists i. set_solver.
  - assert (X ⊆ B) as Hsub by (intros x Hx; destruct (decide (x ∈ B)); set_solver).
    pose proof (set_sum_subseteq (stake_of c) _ _ Hsub). unfold weight in *. lia.
Qed.

(** Two quorums share an authority outside any set of less than validity stake. *)
Lemma quorums_share_honest X Y B :
  reached_quorum c (weight c X) = true → reached_quorum c (weight c Y) = true →
  reached_validity c (weight c B) = false →
  ∃ i, i ∈ X ∧ i ∈ Y ∧ i ∉ B.
Proof.
  unfold reached_quorum, reached_validity.
  rewrite !bool_decide_eq_true, bool_decide_eq_false. intros HX HY HB.
  pose proof (weight_inter X Y). pose proof quorum_arith.
  destruct (weight_lt_witness (X ∩ Y) B) as (i & Hi & HiB); [lia|].
  exists i. set_solver.
Qed.
End WellFormed.

(** * Properties *)

(** C30. A committee built from authorities whose stakes sum below [2^63] has
    thresholds that did not wrap, and its quorum and validity thresholds make it
    Byzantine fault tolerant: any two sets of authorities that reach the quorum
    threshold overlap in a set that reaches the validity threshold, so whenever the
    faulty authorities hold less than validity stake some authority outside them is in
    both quorums; and the authorities outside such a faulty set reach quorum by
    themselves. *)
Theorem Committee_new_quorum_intersection epoch authorities c :
  Committee_new epoch authorities = Ret c →
  nsum (authority_stake <$> authorities) < 2 ^ 63 →
  committee_wf c ∧
  (∀ X Y : gset N,
    reached_quorum c (weight c X) = true → reached_quorum c (weight c Y) = true →
    reached_validity c (weight c (X ∩ Y)) = true) ∧
  (∀ X Y B : gset N,
    reached_quorum c (weight c X) = true → reached_quorum c (weight c Y) = true →
    reached_validity c (weight c B) = false →
    ∃ i, i ∈ X ∧ i ∈ Y ∧ i ∉ B) ∧
  (∀ B : gset N,
    reached_validity c (weight c B) = false →
    reached_quorum c (weight c (members c ∖ B)) = true).
Proof.
  intros Hnew Hb. unfold Committee_new in Hnew.
  rewrite (foldl_u64_add _ 0), N.add_0_l in Hnew by lia.
  repeat (apply bind_Ret in Hnew as ([] & ?%assert_that_Ret & Hnew)).
  injection Hnew as <-.
  rewrite ?negb_true_iff, ?bool_decide_eq_true, ?bool_decide_eq_false in *.
  set (c := mkCommittee _ _ _ _ _).
  assert (committee_wf c) as Hwf.
  { split; cbn; try lia.
    - unfold Committee_size; cbn. lia.
    - rewrite u64_mul_small by lia. apply u64_add_small. lia_div.
    - by rewrite u64_add_small by lia. }
  split; [done|]. split; [|split].
  - intros X Y. unfold reached_quorum, reached_validity. rewrite !bool_decide_eq_true.
    pose proof (weight_inter c Hwf X Y). pose proof (quorum_arith c Hwf). lia.
  - intros X Y B. by apply quorums_share_honest.
  - intros B. unfold reached_quorum, reached_validity.
    rewrite bool_decide_eq_true, bool_decide_eq_false. intros HB.
    pose proof (weight_members c) as Hm. rewrite <- (wf_total c Hwf) in Hm.
    assert (members c ∖ B ## B) as Hd by set_solver.
    pose proof (set_sum_union (stake_of c) _ _ Hd) as Hi.
    assert (weight c (members c) ≤ set_sum (stake_of c) (members c ∖ B ∪ B)).
    { apply set_sum_subseteq. intros x Hx. destruct (decide (x ∈ B)); set_solver. }
    rewrite (wf_quorum c Hwf). rewrite (wf_validity c Hwf) in HB.
    unfold weight in *. lia_div.
Qed.

(** Four authorities of stake 2500 each: three form a quorum. *)
Lemma Committee_new_quorum_intersection_witness :
  let auths := replicate 4 (mkAuthority 2500 "host" []) in
  ∃ c, Committee_new 1 auths = Ret c ∧ committee_quorum_threshold c = 6667 ∧
    committee_validity_threshold c = 3334 ∧
    ∃ i, i ∈ ({[0; 1; 2]} : gset N) ∧ i ∈ ({[1; 2; 3]} : gset N) ∧ i ∉ ({[1]} : gset N).
Proof.
  eexists. split; [vm_compute; reflexivity|]. split; [reflexivity|]. split; [reflexivity|].
  eapply (Committee_new_quorum_intersection 1 (replicate 4 (mkAuthority 2500 "host" [])));
    vm_compute; reflexivity.
Defined.

#[export] Hint Resolve weight_bound weight_le_total stake_of_le_total : consensus.
