(* ===== verification/Block.v ===== *)
(** Blocks of the DAG (consensus/types/src/block.rs, consensus/core/src/block.rs,
    consensus/core/src/context.rs, consensus/core/src/error.rs): references and
    their order, slots, the two block versions behind one accessor interface, signed
    and verified blocks, and the genesis blocks of a committee.

    Hashing, BCS encoding and signatures come from third-party crates; they are the
    fields of the class [Crypto], an argument of every definition that uses them. *)

From stdpp Require Import base tactics numbers list gmap strings.
From S2P Require Import Prelude.
From S2P Require Import Committee.

Open Scope N_scope.

(** * References and slots *)

(** A digest is the big-endian value of its 32 bytes: the derived lexicographic order
    on the byte array is the numeric order. *)
Definition Digest_MIN : N := 0.
Definition Digest_MAX : N := 2 ^ 256 - 1.

Record BlockRef := mkBlockRef {
  br_round : N;
  br_author : N;
  br_digest : N;
}.

#[global] Instance BlockRef_eq_dec : EqDecision BlockRef.
Proof. solve_decision. Defined.
#[global] Program Instance BlockRef_countable : Countable BlockRef :=
  inj_countable' (λ r, (br_round r, br_author r, br_digest r))
                 (λ '(r, a, d), mkBlockRef r a d) _.
Next Obligation. by intros []. Qed.

(** The derived order: round, then author, then digest. *)
Definition BlockRef_cmp (a b : BlockRef) : comparison :=
  match br_round a ?= br_round b with
  | Eq => match br_author a ?= br_author b with
          | Eq => br_digest a ?= br_digest b
          | o => o
          end
  | o => o
  end.
Definition BlockRef_leb (a b : BlockRef) : bool :=
  match BlockRef_cmp a b with Gt => false | _ => true end.
Definition BlockRef_ltb (a b : BlockRef) : bool :=
  match BlockRef_cmp a b with Lt => true | _ => false end.

Definition BlockRef_MIN : BlockRef := mkBlockRef 0 AuthorityIndex_ZERO Digest_MIN.
Definition BlockRef_MAX : BlockRef := mkBlockRef u32_max AuthorityIndex_MAX Digest_MAX.

(** Reference to a commit, and a vote on one. *)
Record CommitRef := mkCommitRef {
  cr_index : N;
  cr_digest : N;
}.
Abbreviation CommitVote := CommitRef.

#[global] Instance CommitRef_eq_dec : EqDecision CommitRef.
Proof. solve_decision. Defined.
#[global] Program Instance CommitRef_countable : Countable CommitRef :=
  inj_countable' (λ r, (cr_index r, cr_digest r)) (λ '(i, d), mkCommitRef i d) _.
Next Obligation. by intros []. Qed.

Definition CommitRef_leb (a b : CommitRef) : bool :=
  match cr_index a ?= cr_index b with
  | Lt => true
  | Eq => cr_digest a <=? cr_digest b
  | Gt => false
  end.

Record Slot := mkSlot {
  slot_round : N;
  slot_authority : N;
}.

#[global] Instance Slot_eq_dec : EqDecision Slot.
Proof. solve_decision. Defined.

Definition Slot_from (r : BlockRef) : Slot := mkSlot (br_round r) (br_author r).

Definition GENESIS_ROUND : N := 0.

(** * Blocks *)

Record Transaction := mkTransaction { transaction_data : list Byte.byte }.

Record BlockTransactionVotes := mkBlockTransactionVotes {
  btv_block_ref : BlockRef;
  btv_rejects : list N;
}.

Inductive MisbehaviorProof :=
| InvalidBlock (r : BlockRef).

Record MisbehaviorReport := mkMisbehaviorReport {
  report_target : N;
  report_proof : MisbehaviorProof;
}.

Record BlockV1 := mkBlockV1 {
  v1_epoch : N;
  v1_round : N;
  v1_author : N;
  v1_timestamp_ms : N;
  v1_ancestors : list BlockRef;
  v1_transactions : list Transaction;
  v1_commit_votes : list CommitVote;
  v1_misbehavior_reports : list MisbehaviorReport;
}.

Record BlockV2 := mkBlockV2 {
  v2_epoch : N;
  v2_round : N;
  v2_author : N;
  v2_timestamp_ms : N;
  v2_ancestors : list BlockRef;
  v2_transactions : list Transaction;
  v2_transaction_votes : list BlockTransactionVotes;
  v2_commit_votes : list CommitVote;
  v2_misbehavior_reports : list MisbehaviorReport;
}.

Inductive Block :=
| V1 (b : BlockV1)
| V2 (b : BlockV2).

(** The accessors of [BlockAPI], dispatched on the version. *)
Definition block_epoch (b : Block) : N := match b with V1 b => v1_epoch b | V2 b => v2_epoch b end.
Definition block_round (b : Block) : N := match b with V1 b => v1_round b | V2 b => v2_round b end.
Definition block_author (b : Block) : N := match b with V1 b => v1_author b | V2 b => v2_author b end.
Definition block_slot (b : Block) : Slot := mkSlot (block_round b) (block_author b).
Definition block_timestamp_ms (b : Block) : N :=
  match b with V1 b => v1_timestamp_ms b | V2 b => v2_timestamp_ms b end.
Definition block_ancestors (b : Block) : list BlockRef :=
  match b with V1 b => v1_ancestors b | V2 b => v2_ancestors b end.
Definition block_transactions (b : Block) : list Transaction :=
  match b with V1 b => v1_transactions b | V2 b => v2_transactions b end.
Definition block_transactions_data (b : Block) : list (list Byte.byte) :=
  transaction_data <$> block_transactions b.
Definition block_commit_votes (b : Block) : list CommitVote :=
  match b with V1 b => v1_commit_votes b | V2 b => v2_commit_votes b end.
Definition block_transaction_votes (b : Block) : list BlockTransactionVotes :=
  match b with V1 _ => [] | V2 b => v2_transaction_votes b end.
Definition block_misbehavior_reports (b : Block) : list MisbehaviorReport :=
  match b with V1 b => v1_misbehavior_reports b | V2 b => v2_misbehavior_reports b end.

Record SignedBlock := mkSignedBlock {
  sb_inner : Block;
  sb_signature : list Byte.byte;
}.

(** A verified block with its cached digest and serialized bytes. *)
Record VerifiedBlock := mkVerifiedBlock {
  vb_block : SignedBlock;
  vb_digest : N;
  vb_serialized : list Byte.byte;
}.

(** [Deref] to the inner block, and the accessors through it. *)
Definition vb_inner (b : VerifiedBlock) : Block := sb_inner (vb_block b).
Definition vb_round (b : VerifiedBlock) : N := block_round (vb_inner b).
Definition vb_author (b : VerifiedBlock) : N := block_author (vb_inner b).
Definition vb_timestamp_ms (b : VerifiedBlock) : N := block_timestamp_ms (vb_inner b).
Definition vb_ancestors (b : VerifiedBlock) : list BlockRef := block_ancestors (vb_inner b).
Definition vb_commit_votes (b : VerifiedBlock) : list CommitVote := block_commit_votes (vb_inner b).
Definition vb_transactions (b : VerifiedBlock) : list Transaction := block_transactions (vb_inner b).
Definition vb_transaction_votes (b : VerifiedBlock) : list BlockTransactionVotes :=
  block_transaction_votes (vb_inner b).

Definition reference (b : VerifiedBlock) : BlockRef :=
  mkBlockRef (vb_round b) (vb_author b) (vb_digest b).

(** A block with the ancestors its author knew and left out. *)
Record ExtendedBlock := mkExtendedBlock {
  eb_block : VerifiedBlock;
  eb_excluded_ancestors : list BlockRef;
}.

(** * Configuration of an authority *)

(** The protocol parameters the consensus core reads, as its getters return them. *)
Record ProtocolConfig := mkProtocolConfig {
  enforce_checkpoint_timestamp_monotonicity : bool;
  mysticeti_fastpath : bool;
  mysticeti_num_leaders_per_round : option N;
  gc_depth : N;
  consensus_bad_nodes_stake_threshold : N;
  max_transaction_size_bytes : N;
  max_num_transactions_in_block : N;
  max_transactions_in_block_bytes : N;
}.

(** The operational parameters the modelled components read; durations are in milliseconds. *)
Record Parameters := mkParameters {
  leader_timeout : N;
  min_round_delay : N;
  max_forward_time_drift : N;
  max_blocks_per_sync : N;
  max_blocks_per_fetch : N;
  propagation_delay_stop_proposal_threshold : N;
  param_dag_state_cached_rounds : N;
  commit_sync_parallel_fetches : N;
  commit_sync_batch_size : N;
  commit_sync_batches_ahead : N;
}.

(** The defaults of a production build. *)
Definition Parameters_default : Parameters := mkParameters 200 50 500 32 1000 5 500 8 100 32.

(** [Context]; metrics and the local clock are observers only and are left out. *)
Record Context := mkContext {
  epoch_start_timestamp_ms : N;
  own_index : N;
  committee : Committee;
  parameters : Parameters;
  protocol_config : ProtocolConfig;
}.

Definition dag_state_cached_rounds (context : Context) : N :=
  param_dag_state_cached_rounds (parameters context).

(** * Errors *)

(** The errors of the modelled components. The messages of the underlying libraries, and the
    commits that three of the variants carry for display, are left out. *)
Inductive ConsensusError :=
| MalformedBlock
| MalformedCommit
| SerializationFailure
| MalformedSignature
| SignatureVerificationFailure
| TransactionTooLarge (size limit : N)
| TooManyTransactions (count limit : N)
| TooManyTransactionBytes (size limit : N)
| WrongEpoch (expected actual : N)
| UnexpectedGenesisBlock
| InvalidAuthorityIndex (index max : N)
| InvalidAncestorPosition (block_authority ancestor_authority position : N)
| InvalidAncestorRound (ancestor block : N)
| InvalidGenesisAncestor (r : BlockRef)
| TooManyAncestors (n size : N)
| DuplicatedAncestorsAuthority (a : N)
| InsufficientParentStakes (parent_stakes quorum : N)
| InvalidTransaction
| UnexpectedAuthority (author peer : N)
| UnexpectedGenesisBlockRequested
| UnexpectedNumberOfBlocksFetched (authority requested received : N)
| UnexpectedFetchedBlock (index : N) (block_ref : BlockRef)
| UnexpectedLastOwnBlock (index : N) (block_ref : BlockRef)
| TooManyFetchedBlocksReturned (authority : N)
| TooManyAuthoritiesProvided (authority : N)
| InvalidSizeOfHighestAcceptedRounds (provided size : N)
| SynchronizerSaturated (authority : N)
| BlockRejected (block_ref : BlockRef)
| NoCommitReceived (peer : N)
| UnexpectedStartCommit (peer start : N)
| UnexpectedCommitSequence (peer : N)
| NotEnoughCommitVotes (stake peer : N)
| UnexpectedBlockForCommit (peer : N) (requested received : BlockRef)
| UnexpectedCertifiedCommitIndex (expected_commit_index commit_index : N)
| NetworkRequestTimeout
| Shutdown.

Abbreviation ConsensusResult A := (result A ConsensusError).

(** * Third-party code *)

(** The intent wrapper around an inner digest: scope, version and application id. *)
Record IntentMessage := mkIntentMessage {
  intent_scope : N;
  intent_version : N;
  intent_app_id : N;
  intent_value : N;
}.

(** BCS encodings ([None]: the encoder fails), the 32-byte hash, and the signature
    scheme of the protocol key. *)
Class Crypto := {
  bcs_block : Block → option (list Byte.byte);
  bcs_signed_block : SignedBlock → option (list Byte.byte);
  bcs_intent : IntentMessage → option (list Byte.byte);
  hash : list Byte.byte → N;
  sign : list Byte.byte → list Byte.byte → list Byte.byte;
  signature_from_bytes : list Byte.byte → option (list Byte.byte);
  signature_verify : list Byte.byte → list Byte.byte → list Byte.byte → bool;
}.

(** * Operations *)

Section Operations.
Context `{Crypto}.

Definition genesis_timestamp (context : Context) : N :=
  if enforce_checkpoint_timestamp_monotonicity (protocol_config context)
  then epoch_start_timestamp_ms context else 0.

Definition BlockV1_genesis_block (context : Context) (author : N) : BlockV1 :=
  mkBlockV1 (committee_epoch (committee context)) GENESIS_ROUND author
    (genesis_timestamp context) [] [] [] [].

Definition BlockV2_genesis_block (context : Context) (author : N) : BlockV2 :=
  mkBlockV2 (committee_epoch (committee context)) GENESIS_ROUND author
    (genesis_timestamp context) [] [] [] [] [].

Definition SignedBlock_new_genesis (b : Block) : SignedBlock := mkSignedBlock b [].

Definition compute_digest (serialized : list Byte.byte) : N := hash serialized.

Definition new_verified (signed_block : SignedBlock) (serialized : list Byte.byte) : VerifiedBlock :=
  mkVerifiedBlock signed_block (compute_digest serialized) serialized.

Definition genesis_block (context : Context) (authority_index : N) : outcome VerifiedBlock :=
  let block :=
    if mysticeti_fastpath (protocol_config context)
    then V2 (BlockV2_genesis_block context authority_index)
    else V1 (BlockV1_genesis_block context authority_index) in
  let signed_block := SignedBlock_new_genesis block in
  serialized ← expect (bcs_signed_block signed_block);
  Ret (new_verified signed_block serialized).

Definition genesis_blocks (context : Context) : outcome (list VerifiedBlock) :=
  mapM (λ '(authority_index, _), genesis_block context authority_index)
    (Committee_enumerate (committee context)).

(** Signing and verification: hash the block, wrap the digest in the intent, then
    sign or verify the encoded intent message. *)
Definition compute_inner_block_digest (b : Block) : ConsensusResult N :=
  match bcs_block b with
  | Some bytes => Ok (hash bytes)
  | None => Err SerializationFailure
  end.

(** [Intent::consensus_app(IntentScope::ConsensusBlock)]: scope 8, version 0, app 2. *)
Definition to_consensus_block_intent (digest : N) : IntentMessage := mkIntentMessage 8 0 2 digest.

Definition compute_block_signature (b : Block) (keypair : list Byte.byte)
    : ConsensusResult (list Byte.byte) :=
  match compute_inner_block_digest b with
  | Err e => Err e
  | Ok digest =>
      match bcs_intent (to_consensus_block_intent digest) with
      | None => Err SerializationFailure
      | Some message => Ok (sign keypair message)
      end
  end.

Definition SignedBlock_new (b : Block) (keypair : list Byte.byte) : ConsensusResult SignedBlock :=
  match compute_block_signature b keypair with
  | Err e => Err e
  | Ok signature => Ok (mkSignedBlock b signature)
  end.

Definition verify_block_signature (b : Block) (signature pubkey : list Byte.byte)
    : ConsensusResult unit :=
  match compute_inner_block_digest b with
  | Err e => Err e
  | Ok digest =>
      match bcs_intent (to_consensus_block_intent digest) with
      | None => Err SerializationFailure
      | Some message =>
          match signature_from_bytes signature with
          | None => Err MalformedSignature
          | Some sig =>
              if signature_verify pubkey message sig then Ok tt
              else Err SignatureVerificationFailure
          end
      end
  end.

Definition verify_signature (block : SignedBlock) (context : Context)
    : outcome (ConsensusResult unit) :=
  let b := sb_inner block in
  let c := committee context in
  if is_valid_index c (block_author b) then
    authority ← Committee_authority c (block_author b);
    Ret (verify_block_signature b (sb_signature block) (authority_protocol_key authority))
  else Ret (Err (InvalidAuthorityIndex (block_author b) (u64_sub (Committee_size c) 1))).
End Operations.

(** * Lemmas *)

Lemma BlockRef_cmp_spec a b :
  match BlockRef_cmp a b with
  | Eq => a = b
  | Lt => br_round a < br_round b ∨
          br_round a = br_round b ∧ (br_author a < br_author b ∨
            br_author a = br_author b ∧ br_digest a < br_digest b)
  | Gt => br_round b < br_round a ∨
          br_round a = br_round b ∧ (br_author b < br_author a ∨
            br_author a = br_author b ∧ br_digest b < br_digest a)
  end.
Proof.
  unfold BlockRef_cmp.
  destruct (N.compare_spec (br_round a) (br_round b)); [|by left|by left].
  destruct (N.compare_spec (br_author a) (br_author b)); [|by right; auto..].
  destruct (N.compare_spec (br_digest a) (br_digest b)); [|by right; auto..].
  destruct a, b; simpl in *; congruence.
Qed.

Lemma BlockRef_leb_iff a b :
  BlockRef_leb a b = true ↔
    br_round a < br_round b ∨
    br_round a = br_round b ∧ (br_author a < br_author b ∨
      br_author a = br_author b ∧ br_digest a ≤ br_digest b).
Proof.
  unfold BlockRef_leb. pose proof (BlockRef_cmp_spec a b) as Hs.
  destruct (BlockRef_cmp a b); [subst; split; [lia|done]|split; [lia|done]|].
  split; [done|lia].
Qed.

Lemma BlockRef_ltb_iff a b :
  BlockRef_ltb a b = true ↔
    br_round a < br_round b ∨
    br_round a = br_round b ∧ (br_author a < br_author b ∨
      br_author a = br_author b ∧ br_digest a < br_digest b).
Proof.
  unfold BlockRef_ltb. pose proof (BlockRef_cmp_spec a b) as Hs.
  destruct (BlockRef_cmp a b); [subst; split; [done|lia]|split; [lia|done]|].
  split; [done|lia].
Qed.

Lemma BlockRef_leb_total a b : BlockRef_leb a b = true ∨ BlockRef_leb b a = true.
Proof. rewrite !BlockRef_leb_iff. lia. Qed.

Lemma BlockRef_leb_trans a b c :
  BlockRef_leb a b = true → BlockRef_leb b c = true → BlockRef_leb a c = true.
Proof. rewrite !BlockRef_leb_iff. lia. Qed.

Lemma BlockRef_leb_antisymm a b :
  BlockRef_leb a b = true → BlockRef_leb b a = true → a = b.
Proof. rewrite !BlockRef_leb_iff. destruct a, b; simpl. intros. f_equal; lia. Qed.

Lemma reference_round b : br_round (reference b) = vb_round b.
Proof. done. Qed.
Lemma reference_author b : br_author (reference b) = vb_author b.
Proof. done. Qed.

#[export] Hint Resolve BlockRef_leb_total BlockRef_leb_trans BlockRef_leb_antisymm : consensus.
