(* ===== verification/StakeAggregator.v ===== *)
(** Stake aggregation (consensus/core/src/stake_aggregator.rs): a set of voters with
    the running total of their stake, counted once per authority and compared with
    the quorum or the validity threshold.

    The threshold type parameter of the Rust struct is the class
    [CommitteeThreshold]; the aggregator's contract is that it refines a plain finite
    set of authorities. *)

From stdpp Require Import base tactics numbers list gmap strings.
From S2P Require Import Prelude.
From S2P Require Import Committee.

Open Scope N_scope.

(** * Thresholds *)

Inductive ThresholdKind := QuorumThreshold | ValidityThreshold.

Definition is_threshold (T : ThresholdKind) (c : Committee) (amount : N) : bool :=
  match T with
  | QuorumThreshold => reached_quorum c amount
  | ValidityThreshold => reached_validity c amount
  end.

Definition threshold (T : ThresholdKind) (c : Committee) : N :=
  match T with
  | QuorumThreshold => committee_quorum_threshold c
  | ValidityThreshold => committee_validity_threshold c
  end.

(** * The aggregator *)

Record StakeAggregator := mkStakeAggregator {
  agg_votes : gset N;
  agg_stake : N;
}.

Definition StakeAggregator_new : StakeAggregator := mkStakeAggregator ∅ 0.

(** The common body of [add] and [add_unique]: the new state, and whether the vote
    came from a new authority. *)
Definition agg_insert (s : StakeAggregator) (vote : N) (c : Committee)
    : outcome (StakeAggregator * bool) :=
  if decide (vote ∈ agg_votes s) then Ret (s, false)
  else
    st ← Committee_stake c vote;
    Ret (mkStakeAggregator ({[vote]} ∪ agg_votes s) (u64_add (agg_stake s) st), true).

Definition agg_add (T : ThresholdKind) (s : StakeAggregator) (vote : N) (c : Committee)
    : outcome (StakeAggregator * bool) :=
  '(s', _) ← agg_insert s vote c;
  Ret (s', is_threshold T c (agg_stake s')).

Definition agg_add_unique (s : StakeAggregator) (vote : N) (c : Committee)
    : outcome (StakeAggregator * bool) := agg_insert s vote c.

Definition reached_threshold (T : ThresholdKind) (s : StakeAggregator) (c : Committee) : bool :=
  is_threshold T c (agg_stake s).

Definition agg_clear (s : StakeAggregator) : StakeAggregator := mkStakeAggregator ∅ 0.

(** * Refinement of a set of voters *)

(** The aggregator represents its set of voters when all of them are members and the
    total is their weight. *)
Record agg_repr (c : Committee) (X : gset N) (s : StakeAggregator) : Prop := {
  agg_repr_votes : agg_votes s = X;
  agg_repr_stake : agg_stake s = weight c X;
  agg_repr_valid : X ⊆ members c;
}.

(** Adding a list of votes in order, with the answers of [add] along the way. *)
Fixpoint agg_add_all (T : ThresholdKind) (s : StakeAggregator) (votes : list N) (c : Committee)
    : outcome (StakeAggregator * list bool) :=
  match votes with
  | [] => Ret (s, [])
  | v :: votes =>
      '(s1, b) ← agg_add T s v c;
      '(s2, bs) ← agg_add_all T s1 votes c;
      Ret (s2, b :: bs)
  end.

Lemma agg_repr_new c : agg_repr c ∅ StakeAggregator_new.
Proof. split; [done| |set_solver]. unfold weight. by rewrite set_sum_empty. Qed.

Lemma agg_repr_clear c s : agg_repr c ∅ (agg_clear s).
Proof. apply agg_repr_new. Qed.

Section Lemmas.
Context (c : Committee) (Hwf : committee_wf c).

Lemma agg_insert_repr X s v :
  agg_repr c X s → is_valid_index c v = true →
  ∃ s', agg_insert s v c = Ret (s', bool_decide (v ∉ X)) ∧ agg_repr c ({[v]} ∪ X) s'.
Proof.
  intros [HX Hst Hval] Hv. unfold agg_insert. rewrite HX.
  case_decide as Hin.
  - exists s. rewrite bool_decide_eq_false_2 by tauto. split; [done|].
    by replace ({[v]} ∪ X) with X by set_solver.
  - rewrite (Committee_stake_valid c v Hv). simpl. rewrite bool_decide_eq_true_2 by done.
    eexists. split; [done|].
    assert (weight c ({[v]} ∪ X) = stake_of c v + weight c X) as Hw
      by by apply set_sum_insert.
    split; simpl; [done| |].
    + rewrite Hst, Hw. pose proof (weight_bound c Hwf ({[v]} ∪ X)).
      rewrite u64_add_small; lia.
    + apply elem_of_members in Hv. set_solver.
Qed.

Lemma agg_add_repr T X s v :
  agg_repr c X s → is_valid_index c v = true →
  ∃ s', agg_add T s v c = Ret (s', is_threshold T c (weight c ({[v]} ∪ X))) ∧
        agg_repr c ({[v]} ∪ X) s'.
Proof.
  intros HX Hv. destruct (agg_insert_repr X s v HX Hv) as (s' & Hs' & HX').
  exists s'. split; [|done]. unfold agg_add. rewrite Hs'. simpl.
  by rewrite (agg_repr_stake _ _ _ HX').
Qed.

(** An index outside the committee panics, unless it already voted. *)
Lemma agg_add_invalid T X s v :
  agg_repr c X s → is_valid_index c v = false → agg_add T s v c = Panic.
Proof.
  intros [HX _ Hval] Hv. unfold agg_add, agg_insert. rewrite HX, decide_False.
  - destruct (Committee_stake c v) eqn:Hs; [|done].
    apply Committee_stake_Ret in Hs as [? _]. congruence.
  - intros Hin%Hval%elem_of_members. congruence.
Qed.

Lemma is_threshold_mono T X Y :
  X ⊆ Y → is_threshold T c (weight c X) = true → is_threshold T c (weight c Y) = true.
Proof.
  intros Hsub%(set_sum_subseteq (stake_of c)).
  destruct T; unfold is_threshold, reached_quorum, reached_validity, weight;
    rewrite !bool_decide_eq_true; lia.
Qed.
End Lemmas.

(** The aggregator refines a set of voters: adding any sequence of committee
    members starting from an empty aggregator never panics, ends with exactly the set
    of the members added and the sum of their stakes (no vote counted twice, no
    wrap-around, whatever the order and the repetitions), and the answer of the
    [i]-th [add] is true exactly when the distinct voters up to that point reach the
    threshold. *)
Theorem StakeAggregator_refines_set c T votes :
  committee_wf c → Forall (λ v, is_valid_index c v = true) votes →
  ∃ s bs, agg_add_all T StakeAggregator_new votes c = Ret (s, bs) ∧
    agg_votes s = list_to_set votes ∧ agg_stake s = weight c (list_to_set votes) ∧
    length bs = length votes ∧
    ∀ i b, bs !! i = Some b →
      b = is_threshold T c (weight c (list_to_set (take (S i) votes))).
Proof.
  intros Hwf Hvalid.
  assert (∀ X s0, agg_repr c X s0 →
    ∃ s bs, agg_add_all T s0 votes c = Ret (s, bs) ∧ agg_repr c (X ∪ list_to_set votes) s ∧
      length bs = length votes ∧
      ∀ i b, bs !! i = Some b →
        b = is_threshold T c (weight c (X ∪ list_to_set (take (S i) votes)))) as Hgen.
  { induction Hvalid as [|v votes Hv _ IH]; intros X s0 Hrepr; simpl.
    - exists s0, []. by rewrite union_empty_r_L.
    - destruct (agg_add_repr c Hwf T X s0 v Hrepr Hv) as (s1 & -> & Hrepr1). simpl.
      destruct (IH _ _ Hrepr1) as (s & bs & -> & Hs & Hlen & Hbs). simpl.
      eexists s, _. split; [done|]. split; [|split; [simpl; lia|]].
      + by replace (X ∪ ({[v]} ∪ list_to_set votes)) with ({[v]} ∪ X ∪ list_to_set votes)
          by set_solver.
      + intros [|i] b Hb; simpl in *; simplify_eq.
        * do 2 f_equal. set_solver.
        * rewrite (Hbs i b Hb). do 2 f_equal. set_solver. }
  destruct (Hgen ∅ _ (agg_repr_new c)) as (s & bs & Hall & [Hv Hst _] & Hlen & Hbs).
  rewrite union_empty_l_L in *. exists s, bs. do 4 (split; [done|]).
  intros i b Hb. rewrite (Hbs i b Hb). by rewrite union_empty_l_L.
Qed.

Lemma StakeAggregator_refines_set_witness :
  let c := mkCommittee 0 4 3 2 (replicate 4 (mkAuthority 1 "h" [])) in
  ∃ s bs, agg_add_all QuorumThreshold StakeAggregator_new [0; 2; 0; 3; 1] c = Ret (s, bs) ∧
    agg_stake s = weight c (list_to_set [0; 2; 0; 3; 1]).
Proof.
  intros c.
  destruct (StakeAggregator_refines_set c QuorumThreshold [0; 2; 0; 3; 1])
    as (s & bs & H1 & _ & H2 & _).
  - split; vm_compute; reflexivity.
  - repeat constructor; vm_compute; reflexivity.
  - exists s, bs. split; [exact H1 | exact H2].
Defined.

#[export] Hint Resolve agg_repr_new agg_repr_clear : consensus.
