(* ===== verification/ThresholdClock.v ===== *)
(** The threshold clock (consensus/core/src/threshold_clock.rs): the round at which
    this authority may propose, advanced by the accepted blocks. The wall-clock
    instant of the last quorum only feeds metrics and is left out. *)

From stdpp Require Import base tactics numbers list gmap strings.
From S2P Require Import Prelude.
From S2P Require Import Committee.
From S2P Require Import Block.
From S2P Require Import StakeAggregator.

Open Scope N_scope.

Record ThresholdClock := mkThresholdClock {
  clock_aggregator : StakeAggregator;
  clock_round : N;
}.

Definition ThresholdClock_new (round : N) : ThresholdClock :=
  mkThresholdClock StakeAggregator_new round.

(** Returns the new clock and whether the round advanced. *)
Definition clock_add_block (c : Committee) (t : ThresholdClock) (block : BlockRef)
    : outcome (ThresholdClock * bool) :=
  match br_round block ?= clock_round t with
  | Lt => Ret (t, false)
  | Eq =>
      '(agg, quorum) ← agg_add QuorumThreshold (clock_aggregator t) (br_author block) c;
      if quorum : bool
      then Ret (mkThresholdClock (agg_clear agg) (u32_add (br_round block) 1), true)
      else Ret (mkThresholdClock agg (clock_round t), false)
  | Gt =>
      '(agg, quorum) ← agg_add QuorumThreshold (agg_clear (clock_aggregator t)) (br_author block) c;
      if quorum : bool
      then Ret (mkThresholdClock agg (u32_add (br_round block) 1), true)
      else Ret (mkThresholdClock agg (br_round block), true)
  end.

Definition clock_add_blocks (c : Committee) (t : ThresholdClock) (blocks : list BlockRef)
    : outcome ThresholdClock :=
  foldM (λ t b, '(t', _) ← clock_add_block c t b; Ret t') t blocks.

(** * Specification *)

(** Authors of the listed blocks of a round. *)
Definition authors_at (round : N) (blocks : list BlockRef) : gset N :=
  list_to_set (br_author <$> filter (λ b, br_round b = round) blocks).

(** A round from which the clock moves on: a quorum of authors has been seen at it. *)
Definition quorum_at (c : Committee) (blocks : list BlockRef) (round : N) : Prop :=
  reached_quorum c (weight c (authors_at round blocks)) = true.

(** The round a clock started at [start] should show after the blocks [seen]: the
    least round that is at or above the start and every block, and above every round at
    which a quorum of authors was seen. *)
Record is_clock_round (c : Committee) (start : N) (seen : list BlockRef) (R : N) : Prop := {
  cr_start : start ≤ R;
  cr_seen : ∀ b, b ∈ seen → br_round b ≤ R;
  cr_quorum : ∀ r, quorum_at c seen r → r + 1 ≤ R;
  cr_least : R = start ∨ (∃ b, b ∈ seen ∧ R = br_round b) ∨ (∃ r, quorum_at c seen r ∧ R = r + 1);
}.

(** No authority holds a quorum by itself. *)
Definition no_dominant (c : Committee) : Prop :=
  ∀ i, reached_quorum c (stake_of c i) = false.

(** The state behind it: the aggregator holds the authors seen at the current round,
    which do not reach quorum yet. *)
Record clock_inv (c : Committee) (start : N) (seen : list BlockRef) (t : ThresholdClock) : Prop := {
  ci_agg : agg_repr c (authors_at (clock_round t) seen) (clock_aggregator t);
  ci_open : ¬ quorum_at c seen (clock_round t);
  ci_start : start ≤ clock_round t;
  ci_seen : ∀ b, b ∈ seen → br_round b ≤ clock_round t;
  ci_least : clock_round t = start ∨ (∃ b, b ∈ seen ∧ clock_round t = br_round b) ∨
             (∃ r, quorum_at c seen r ∧ clock_round t = r + 1);
}.

(** * Lemmas *)

Lemma elem_of_authors_at r seen a :
  a ∈ authors_at r seen ↔ ∃ b, b ∈ seen ∧ br_round b = r ∧ br_author b = a.
Proof.
  unfold authors_at. rewrite elem_of_list_to_set, list_elem_of_fmap.
  setoid_rewrite list_elem_of_filter. naive_solver.
Qed.

Lemma authors_at_snoc r seen b :
  authors_at r (seen ++ [b]) =
    (if decide (br_round b = r) then {[br_author b]} else ∅) ∪ authors_at r seen.
Proof.
  apply set_eq. intros a. rewrite elem_of_union, !elem_of_authors_at.
  setoid_rewrite elem_of_app. setoid_rewrite list_elem_of_singleton.
  case_decide; set_solver.
Qed.

Lemma authors_at_above r seen :
  (∀ b, b ∈ seen → br_round b < r) → authors_at r seen = ∅.
Proof.
  intros Hlt. apply set_eq. intros a. rewrite elem_of_authors_at.
  split; [|set_solver]. intros (b & Hb & Hr & _). apply Hlt in Hb. lia.
Qed.

Section Lemmas.
Context (c : Committee) (Hwf : committee_wf c).

Lemma not_quorum_empty : reached_quorum c (weight c ∅) = false.
Proof.
  unfold reached_quorum, weight. rewrite set_sum_empty, bool_decide_eq_false.
  rewrite (wf_quorum c Hwf). lia_div.
Qed.

Lemma quorum_at_snoc seen b r :
  quorum_at c seen r → quorum_at c (seen ++ [b]) r.
Proof.
  apply (is_threshold_mono c QuorumThreshold). rewrite authors_at_snoc. set_solver.
Qed.

Lemma quorum_at_seen seen r : quorum_at c seen r → ∃ b, b ∈ seen ∧ br_round b = r.
Proof.
  intros Hq. destruct (set_choose_or_empty (authors_at r seen)) as [[a Ha]|He].
  - apply elem_of_authors_at in Ha as (b & ? & ? & _). eauto.
  - unfold quorum_at in Hq. rewrite (leibniz_equiv _ _ He), not_quorum_empty in Hq. done.
Qed.

Lemma clock_inv_spec start seen t :
  clock_inv c start seen t → is_clock_round c start seen (clock_round t).
Proof.
  intros [Ha Ho Hs Hb Hl]. split; try done. intros r Hq.
  destruct (quorum_at_seen _ _ Hq) as (b & Hin & Hr). apply Hb in Hin.
  destruct (decide (r = clock_round t)) as [->|]; [done|]. lia.
Qed.

Lemma clock_inv_new start : clock_inv c start [] (ThresholdClock_new start).
Proof.
  split; simpl; [|unfold quorum_at|lia|set_solver|by left].
  - apply agg_repr_new.
  - change (¬ reached_quorum c (weight c ∅) = true). by rewrite not_quorum_empty.
Qed.

Lemma clock_least_mono start seen b t :
  clock_inv c start seen t →
  clock_round t = start ∨ (∃ b', b' ∈ seen ++ [b] ∧ clock_round t = br_round b') ∨
    (∃ r, quorum_at c (seen ++ [b]) r ∧ clock_round t = r + 1).
Proof.
  intros [_ _ _ _ [->|[(b' & ? & ->)|(r & Hq & ->)]]]; [by left|right; left|right; right].
  - exists b'. set_solver.
  - exists r. eauto using quorum_at_snoc.
Qed.

(** A block at the current round: one more author, and the next round if that makes a
    quorum. *)
Lemma clock_step_eq start seen t b :
  clock_inv c start seen t → is_valid_index c (br_author b) = true →
  br_round b = clock_round t → br_round b < u32_max →
  ∃ t' adv, clock_add_block c t b = Ret (t', adv) ∧ clock_inv c start (seen ++ [b]) t' ∧
    adv = bool_decide (clock_round t < clock_round t').
Proof.
  intros Hinv Hv Hr Hmax. pose proof Hinv as [Ha Ho Hs Hb Hl].
  unfold clock_add_block. rewrite Hr, N.compare_refl.
  destruct (agg_add_repr c Hwf QuorumThreshold _ _ _ Ha Hv) as (agg & -> & Hagg). cbn -[u32_add].
  assert ({[br_author b]} ∪ authors_at (clock_round t) seen
            = authors_at (clock_round t) (seen ++ [b])) as Heq
    by (rewrite authors_at_snoc; case_decide; [done|congruence]).
  rewrite Heq in Hagg |- *.
  unfold u32_max in *. destruct (reached_quorum c _) eqn:Hq.
  - rewrite <- Hr, u32_add_small by lia. eexists _, _. split; [done|].
    split; [|rewrite bool_decide_eq_true_2 by (simpl; lia); done].
    assert (authors_at (br_round b + 1) (seen ++ [b]) = ∅) as He.
    { apply authors_at_above. intros b'.
      rewrite elem_of_app, list_elem_of_singleton. intros [?%Hb| ->]; lia. }
    split; simpl; [| |lia| |].
    + rewrite He. apply agg_repr_clear.
    + unfold quorum_at. by rewrite He, not_quorum_empty.
    + intros b'. rewrite elem_of_app, list_elem_of_singleton. intros [?%Hb| ->]; lia.
    + right; right. exists (clock_round t). split; [done|lia].
  - eexists _, _. split; [done|]. split; [|rewrite bool_decide_eq_false_2 by (simpl; lia); done].
    split; simpl; [done| |lia| |by apply clock_least_mono].
    + unfold quorum_at. by rewrite Hq.
    + intros b'. rewrite elem_of_app, list_elem_of_singleton. intros [?%Hb| ->]; lia.
Qed.

Context (Hdom : no_dominant c).

Lemma not_quorum_singleton i : reached_quorum c (weight c ({[i]} ∪ ∅)) = false.
Proof. rewrite union_empty_r_L. unfold weight. rewrite set_sum_singleton. apply Hdom. Qed.

(** A block above the current round: the clock catches up with it. *)
Lemma clock_step_gt start seen t b :
  clock_inv c start seen t → is_valid_index c (br_author b) = true →
  clock_round t < br_round b →
  ∃ t' adv, clock_add_block c t b = Ret (t', adv) ∧ clock_inv c start (seen ++ [b]) t' ∧
    adv = bool_decide (clock_round t < clock_round t').
Proof.
  intros Hinv Hv Hr. pose proof Hinv as [Ha Ho Hs Hb Hl].
  unfold clock_add_block. rewrite (proj2 (N.compare_gt_iff _ _) Hr).
  destruct (agg_add_repr c Hwf QuorumThreshold ∅ (agg_clear (clock_aggregator t)) _
              (agg_repr_clear c _) Hv) as (agg & -> & Hagg). cbn -[u32_add].
  rewrite not_quorum_singleton.
  eexists _, _. split; [done|]. split; [|rewrite bool_decide_eq_true_2 by (simpl; lia); done].
  assert (authors_at (br_round b) (seen ++ [b]) = {[br_author b]} ∪ ∅) as Heq.
  { rewrite authors_at_snoc, decide_True by done. f_equal. apply authors_at_above.
    intros b' ?%Hb. lia. }
  split; simpl; [by rewrite Heq| |lia| |].
  - unfold quorum_at. by rewrite Heq, not_quorum_singleton.
  - intros b'. rewrite elem_of_app, list_elem_of_singleton. intros [?%Hb| ->]; lia.
  - right; left. exists b. set_solver.
Qed.

(** A block below the current round changes nothing. *)
Lemma clock_step_lt start seen t b :
  clock_inv c start seen t → br_round b < clock_round t →
  clock_add_block c t b = Ret (t, false) ∧ clock_inv c start (seen ++ [b]) t.
Proof.
  intros Hinv Hr. pose proof Hinv as [Ha Ho Hs Hb Hl].
  unfold clock_add_block. rewrite (proj2 (N.compare_lt_iff _ _) Hr). split; [done|].
  assert (authors_at (clock_round t) (seen ++ [b]) = authors_at (clock_round t) seen) as Heq.
  { rewrite authors_at_snoc, decide_False by lia. set_solver. }
  split; [by rewrite Heq|unfold quorum_at; by rewrite Heq|done| |by apply clock_least_mono].
  intros b'. rewrite elem_of_app, list_elem_of_singleton. intros [?%Hb| ->]; lia.
Qed.

Lemma clock_step start seen t b :
  clock_inv c start seen t → is_valid_index c (br_author b) = true → br_round b < u32_max →
  ∃ t' adv, clock_add_block c t b = Ret (t', adv) ∧ clock_inv c start (seen ++ [b]) t' ∧
    adv = bool_decide (clock_round t < clock_round t').
Proof.
  intros Hinv Hv Hmax. destruct (N.lt_total (br_round b) (clock_round t)) as [Hr|[Hr|Hr]].
  - destruct (clock_step_lt start seen t b Hinv Hr) as [He Hi]. exists t, false.
    split_and!; [done..|]. rewrite bool_decide_eq_false_2 by lia. done.
  - by apply clock_step_eq.
  - by apply clock_step_gt.
Qed.

Lemma clock_add_blocks_inv start seen t blocks :
  clock_inv c start seen t →
  Forall (λ b, is_valid_index c (br_author b) = true ∧ br_round b < u32_max) blocks →
  ∃ t', clock_add_blocks c t blocks = Ret t' ∧ clock_inv c start (seen ++ blocks) t'.
Proof.
  intros Hinv Hall. revert seen t Hinv.
  induction Hall as [|b blocks [Hv Hm] _ IH]; intros seen t Hinv; simpl.
  - exists t. by rewrite app_nil_r.
  - destruct (clock_step _ _ _ _ Hinv Hv Hm) as (t1 & adv & Hadd & Hinv1 & _).
    unfold clock_add_blocks in *. simpl. rewrite Hadd. simpl.
    destruct (IH _ _ Hinv1) as (t' & Ht' & Hi). exists t'.
    by rewrite <- app_assoc in Hi.
Qed.
End Lemmas.

Lemma is_clock_round_unique c start seen R R' :
  is_clock_round c start seen R → is_clock_round c start seen R' → R = R'.
Proof.
  intros [A1 A2 A3 A4] [B1 B2 B3 B4].
  assert (R ≤ R') by (destruct A4 as [->|[(b & ? & ->)|(r & ? & ->)]]; auto).
  assert (R' ≤ R) by (destruct B4 as [->|[(b & ? & ->)|(r & ? & ->)]]; auto).
  lia.
Qed.

Lemma is_clock_round_perm c start seen seen' R :
  (∀ b, b ∈ seen ↔ b ∈ seen') → is_clock_round c start seen R → is_clock_round c start seen' R.
Proof.
  intros Hp.
  assert (∀ r, authors_at r seen = authors_at r seen') as Ha.
  { intros r. apply set_eq. intros a. rewrite !elem_of_authors_at. by setoid_rewrite Hp. }
  assert (∀ r, quorum_at c seen r ↔ quorum_at c seen' r) as Hq
    by (intros r; unfold quorum_at; by rewrite Ha).
  intros [A1 A2 A3 A4]. split; [done|..].
  - intros b Hb. apply A2. by apply Hp.
  - intros r Hr. apply A3. by apply Hq.
  - destruct A4 as [?|[(b & ? & ?)|(r & ? & ?)]]; [by left|right; left|right; right].
    + exists b. by rewrite <- Hp.
    + exists r. by rewrite <- Hq.
Qed.

(** * Properties *)

(** In a committee where no authority holds a quorum alone, feeding any blocks of
    committee members to a clock started at [start] never panics and leaves it at the
    least round that is at or above [start] and every block's round, and above every
    round at which a quorum of distinct authors was seen. Hence the round depends on the
    set of blocks only, not on their order or repetitions. *)
Theorem ThresholdClock_round_spec c start blocks :
  committee_wf c → no_dominant c →
  Forall (λ b, is_valid_index c (br_author b) = true ∧ br_round b < u32_max) blocks →
  ∃ t, clock_add_blocks c (ThresholdClock_new start) blocks = Ret t ∧
    is_clock_round c start blocks (clock_round t) ∧
    ∀ blocks' t', (∀ b, b ∈ blocks' ↔ b ∈ blocks) →
      clock_add_blocks c (ThresholdClock_new start) blocks' = Ret t' →
      clock_round t' = clock_round t.
Proof.
  intros Hwf Hdom Hall.
  pose proof (clock_inv_new c Hwf start) as Hnew.
  destruct (clock_add_blocks_inv c Hwf Hdom _ _ _ _ Hnew Hall) as (t & Ht & Hinv).
  exists t. split; [done|]. apply clock_inv_spec in Hinv; [|done]. split; [done|].
  intros blocks' t' Hp Ht'.
  assert (Forall (λ b, is_valid_index c (br_author b) = true ∧ br_round b < u32_max) blocks')
    as Hall'.
  { rewrite Forall_forall in *. intros b Hb. apply Hall. by apply Hp. }
  destruct (clock_add_blocks_inv c Hwf Hdom _ _ _ _ Hnew Hall') as (t2 & Ht2 & Hinv2).
  rewrite Ht' in Ht2. injection Ht2 as <-. apply clock_inv_spec in Hinv2; [|done].
  eapply is_clock_round_unique; [|done]. by eapply is_clock_round_perm.
Qed.

(** Equal stakes, seen out of order: the quorum of round 1 and a block of round 2. *)
Lemma ThresholdClock_round_spec_witness :
  let c := mkCommittee 0 4 3 2 (replicate 4 (mkAuthority 1 "h" [])) in
  let blocks := [mkBlockRef 1 0 7; mkBlockRef 1 1 8; mkBlockRef 1 3 9; mkBlockRef 2 0 1] in
  ∃ t, clock_add_blocks c (ThresholdClock_new 1) blocks = Ret t ∧
       is_clock_round c 1 blocks (clock_round t) ∧ clock_round t = 2.
Proof.
  intros c blocks.
  destruct (ThresholdClock_round_spec c 1 blocks) as (t & Ht & Hr & _).
  - split; vm_compute; reflexivity.
  - intros i. unfold reached_quorum, stake_of. apply bool_decide_eq_false.
    destruct (committee_authorities c !! N.to_nat i) as [a|] eqn:Ha; simpl; [|vm_compute; auto].
    apply lookup_replicate in Ha as [-> _]. vm_compute; auto.
  - repeat constructor; vm_compute; reflexivity.
  - exists t. split; [exact Ht|]. split; [exact Hr|].
    vm_compute in Ht. injection Ht as <-. reflexivity.
Defined.

(** An authority with a quorum is a member, and leaves no quorum to another. *)
Lemma dominant_valid c i : committee_wf c → reached_quorum c (stake_of c i) = true → is_valid_index c i = true.
Proof.
  intros Hwf Hq. unfold is_valid_index, Committee_size. apply bool_decide_eq_true.
  unfold reached_quorum, stake_of in Hq. apply bool_decide_eq_true in Hq. rewrite (wf_quorum c Hwf) in Hq.
  destruct (committee_authorities c !! N.to_nat i) eqn:Hi; [apply lookup_lt_Some in Hi; lia|]. simpl in Hq. lia_div.
Qed.

Lemma dominant_alone c i j :
  committee_wf c → reached_quorum c (stake_of c i) = true → j ≠ i → reached_quorum c (weight c {[j]}) = false.
Proof.
  intros Hwf Hq Hne. unfold reached_quorum in *. apply bool_decide_eq_true in Hq. apply bool_decide_eq_false.
  pose proof (weight_le_total c Hwf ({[i]} ∪ {[j]})) as Hle. unfold weight in *.
  rewrite set_sum_insert, set_sum_singleton in Hle by set_solver. rewrite set_sum_singleton.
  rewrite (wf_quorum c Hwf) in *. lia_div.
Qed.

(** C32. With an authority that holds a quorum alone, the clock advances a round too far. When
    it catches up with a block of that authority, it moves on to the next round and keeps the
    vote in the aggregator; any block of another authority in that round then completes it,
    although no quorum of authors has a block there, so that the clock is one round above the
    one that the blocks it has seen account for. *)
Theorem ThresholdClock_stale_vote c t start seen b b' :
  committee_wf c → reached_quorum c (stake_of c (br_author b)) = true → clock_round t < br_round b →
  is_valid_index c (br_author b') = true → br_author b' ≠ br_author b → br_round b' = br_round b + 1 →
  br_round b' < u32_max → start ≤ br_round b → (∀ x, x ∈ seen → br_round x ≤ br_round b) →
  ∃ t1 t2, clock_add_block c t b = Ret (t1, true) ∧ clock_round t1 = br_round b + 1 ∧
    agg_votes (clock_aggregator t1) = {[br_author b]} ∧
    clock_add_block c t1 b' = Ret (t2, true) ∧ clock_round t2 = br_round b + 2 ∧
    ¬ quorum_at c (seen ++ [b; b']) (br_round b + 1) ∧ is_clock_round c start (seen ++ [b; b']) (br_round b + 1).
Proof.
  intros Hwf Hq Hr Hv' Hne Hr' Hmax Hstart Hseen. pose proof (dominant_valid c _ Hwf Hq) as Hv. unfold u32_max in Hmax.
  destruct (agg_add_repr c Hwf QuorumThreshold ∅ (agg_clear (clock_aggregator t)) _ (agg_repr_clear c _) Hv) as (agg & Hadd & Hagg).
  rewrite union_empty_r_L in Hadd, Hagg.
  destruct (agg_add_repr c Hwf QuorumThreshold _ agg _ Hagg Hv') as (agg' & Hadd' & _).
  assert (is_threshold QuorumThreshold c (weight c {[br_author b]}) = true) as Hq1
    by (cbn [is_threshold]; unfold weight; by rewrite set_sum_singleton).
  rewrite Hq1 in Hadd. rewrite (is_threshold_mono c QuorumThreshold {[br_author b]}) in Hadd' by (done || set_solver).
  exists (mkThresholdClock agg (br_round b + 1)), (mkThresholdClock (agg_clear agg') (br_round b + 2)).
  assert (authors_at (br_round b + 1) (seen ++ [b; b']) = {[br_author b']}) as Hat.
  { apply set_eq. intros a. rewrite elem_of_authors_at, elem_of_singleton. split.
    - intros (x & [Hx|[-> |[-> |Hx%elem_of_nil]%elem_of_cons]%elem_of_cons]%elem_of_app & Hrx & Ha); [apply Hseen in Hx; lia|lia|done|done].
    - intros ->. exists b'. split; [set_solver|done]. }
  assert (¬ quorum_at c (seen ++ [b; b']) (br_round b + 1)) as Hno
    by (unfold quorum_at; rewrite Hat, (dominant_alone c (br_author b)); done).
  split; [|split; [done|split; [apply Hagg|split; [|split; [done|split; [done|]]]]]].
  - unfold clock_add_block. rewrite (proj2 (N.compare_gt_iff _ _) Hr), Hadd. cbn [mbind outcome_bind]. by rewrite u32_add_small by lia.
  - unfold clock_add_block. cbn [clock_round clock_aggregator]. rewrite Hr', N.compare_refl, Hadd'. cbn [mbind outcome_bind].
    rewrite u32_add_small by lia. by replace (br_round b + 1 + 1) with (br_round b + 2) by lia.
  - split; [lia| | |right; left; exists b'; split; [set_solver|lia]].
    + intros x [Hx%Hseen|[-> |[-> |Hx%elem_of_nil]%elem_of_cons]%elem_of_cons]%elem_of_app; [lia|lia|lia|done].
    + intros r Hqr. destruct (quorum_at_seen c Hwf _ _ Hqr) as (x & Hx & <-).
      apply elem_of_app in Hx as [Hx|Hx]; [apply Hseen in Hx; lia|].
      apply elem_of_cons in Hx as [-> |Hx]; [lia|]. apply list_elem_of_singleton in Hx as ->. by rewrite Hr' in Hqr.
Qed.

Lemma ThresholdClock_stale_vote_witness :
  let c := mkCommittee 0 10 7 4
    [mkAuthority 7 "a" []; mkAuthority 1 "b" []; mkAuthority 1 "c" []; mkAuthority 1 "d" []] in
  let blocks := [mkBlockRef 5 0 1; mkBlockRef 6 1 2] in
  (t ← clock_add_blocks c (ThresholdClock_new 1) blocks; Ret (clock_round t)) = Ret 7 ∧ is_clock_round c 1 blocks 6.
Proof.
  intros c blocks.
  destruct (ThresholdClock_stale_vote c (ThresholdClock_new 1) 1 [] (mkBlockRef 5 0 1) (mkBlockRef 6 1 2))
    as (t1 & t2 & H1 & _ & _ & H2 & Hr & _ & Hclock).
  - split; vm_compute; reflexivity.
  - vm_compute. reflexivity.
  - vm_compute. reflexivity.
  - vm_compute. reflexivity.
  - vm_compute. discriminate.
  - reflexivity.
  - vm_compute. reflexivity.
  - vm_compute. discriminate.
  - intros x Hx. by apply elem_of_nil in Hx.
  - split; [|exact Hclock]. unfold clock_add_blocks, blocks. cbn [foldM]. rewrite H1. cbn [mbind outcome_bind].
    rewrite H2. cbn [mbind outcome_bind]. by rewrite Hr.
Defined.
