(* ===== verification/Commit.v ===== *)
(** Commits (consensus/core/src/commit.rs): the commit record and its trusted and
    certified forms, committed sub-DAGs and their block order, the status and decision
    of a leader slot, and ranges of commit indices. [ReputationScores]
    (leader_scoring.rs) is declared here because [CommitInfo] stores it. *)

From stdpp Require Import base tactics numbers list gmap sorting.
From S2P Require Import Prelude.
From S2P Require Import Committee.
From S2P Require Import Block.

Open Scope N_scope.

Definition GENESIS_COMMIT_INDEX : N := 0.
Definition MINIMUM_WAVE_LENGTH : N := 3.
Definition DEFAULT_WAVE_LENGTH : N := MINIMUM_WAVE_LENGTH.

(** * Commits *)

Record CommitV1 := mkCommitV1 {
  commit_index : N;
  commit_previous_digest : N;
  commit_timestamp_ms : N;
  commit_leader : BlockRef;
  commit_blocks : list BlockRef;
}.

(** The enum [Commit] has one version. *)
Inductive Commit := CommitOfV1 (c : CommitV1).

Definition Commit_new (index previous_digest timestamp_ms : N) (leader : BlockRef)
    (blocks : list BlockRef) : Commit :=
  CommitOfV1 (mkCommitV1 index previous_digest timestamp_ms leader blocks).

Definition commit_v1 (c : Commit) : CommitV1 := match c with CommitOfV1 c => c end.

(** BCS encoding of a commit. *)
Class CommitCodec := { bcs_commit : Commit → option (list Byte.byte) }.

Record TrustedCommit := mkTrustedCommit {
  tc_inner : Commit;
  tc_digest : N;
  tc_serialized : list Byte.byte;
}.

(** The accessors of [CommitAPI] through [Deref]. *)
Definition tc_index (c : TrustedCommit) : N := commit_index (commit_v1 (tc_inner c)).
Definition tc_previous_digest (c : TrustedCommit) : N := commit_previous_digest (commit_v1 (tc_inner c)).
Definition tc_timestamp_ms (c : TrustedCommit) : N := commit_timestamp_ms (commit_v1 (tc_inner c)).
Definition tc_leader (c : TrustedCommit) : BlockRef := commit_leader (commit_v1 (tc_inner c)).
Definition tc_blocks (c : TrustedCommit) : list BlockRef := commit_blocks (commit_v1 (tc_inner c)).
Definition tc_round (c : TrustedCommit) : N := br_round (tc_leader c).
Definition tc_reference (c : TrustedCommit) : CommitRef := mkCommitRef (tc_index c) (tc_digest c).

Definition new_trusted `{Crypto} (commit : Commit) (serialized : list Byte.byte) : TrustedCommit :=
  mkTrustedCommit commit (hash serialized) serialized.

(** A commit fetched from a peer with its blocks. *)
Record CertifiedCommit := mkCertifiedCommit {
  cc_commit : TrustedCommit;
  cc_blocks : list VerifiedBlock;
}.

(** Certified commits in order, with the blocks that vote for the last one. *)
Record CertifiedCommits := mkCertifiedCommits {
  certified_commits : list CertifiedCommit;
  certified_votes : list VerifiedBlock;
}.

(** * Sub-DAGs *)

Record CommittedSubDag := mkCommittedSubDag {
  sd_leader : BlockRef;
  sd_blocks : list VerifiedBlock;
  sd_timestamp_ms : N;
  sd_commit_ref : CommitRef;
  sd_decided_with_local_blocks : bool;
  sd_reputation_scores_desc : list (N * N);
  sd_rejected_transactions_by_block : gmap BlockRef (list N);
}.

Definition CommittedSubDag_new (leader : BlockRef) (blocks : list VerifiedBlock)
    (timestamp_ms : N) (commit_ref : CommitRef) : CommittedSubDag :=
  mkCommittedSubDag leader blocks timestamp_ms commit_ref true [] ∅.

(** Round, then author; the sort is stable. *)
Definition sub_dag_leb (a b : VerifiedBlock) : bool :=
  match vb_round a ?= vb_round b with
  | Lt => true
  | Gt => false
  | Eq => vb_author a <=? vb_author b
  end.
Definition sort_sub_dag_blocks (blocks : list VerifiedBlock) : list VerifiedBlock :=
  isort sub_dag_leb blocks.

(** * Leaders *)

Inductive Decision := Direct | Indirect | Certified.

#[global] Instance Decision_eq_dec : EqDecision Decision.
Proof. solve_decision. Defined.

Inductive LeaderStatus :=
| LsCommit (b : VerifiedBlock)
| LsSkip (s : Slot)
| LsUndecided (s : Slot).

Inductive DecidedLeader :=
| DlCommit (b : VerifiedBlock) (direct : bool)
| DlSkip (s : Slot).

Definition LeaderStatus_round (l : LeaderStatus) : N :=
  match l with
  | LsCommit b => vb_round b
  | LsSkip s => slot_round s
  | LsUndecided s => slot_round s
  end.

Definition LeaderStatus_is_decided (l : LeaderStatus) : bool :=
  match l with
  | LsCommit _ => true
  | LsSkip _ => true
  | LsUndecided _ => false
  end.

Definition into_decided_leader (l : LeaderStatus) (direct : bool) : option DecidedLeader :=
  match l with
  | LsCommit b => Some (DlCommit b direct)
  | LsSkip s => Some (DlSkip s)
  | LsUndecided _ => None
  end.

Definition DecidedLeader_slot (l : DecidedLeader) : Slot :=
  match l with
  | DlCommit b _ => Slot_from (reference b)
  | DlSkip s => s
  end.

Definition into_committed_block (l : DecidedLeader) : option VerifiedBlock :=
  match l with
  | DlCommit b _ => Some b
  | DlSkip _ => None
  end.

(** * Commit ranges *)

(** [CommitRange] keeps a half-open range; its interface is inclusive at both ends. *)
Record CommitRange := mkCommitRange {
  range_lo : N;
  range_hi : N;
}.

#[global] Instance CommitRange_eq_dec : EqDecision CommitRange.
Proof. solve_decision. Defined.

Definition CommitRange_default : CommitRange := mkCommitRange 0 0.
Definition CommitRange_new (start end_ : N) : CommitRange :=
  mkCommitRange start (u32_saturating_add end_ 1).
Definition CommitRange_start (r : CommitRange) : N := range_lo r.
Definition CommitRange_end (r : CommitRange) : N := saturating_sub (range_hi r) 1.
Definition CommitRange_extend_to (r : CommitRange) (other : N) : outcome CommitRange :=
  let new_end := u32_saturating_add other 1 in
  _ ← assert_that (bool_decide (range_hi r ≤ new_end));
  Ret (mkCommitRange (range_lo r) new_end).
Definition CommitRange_size (r : CommitRange) : outcome N :=
  if decide (range_lo r ≤ range_hi r) then Ret (range_hi r - range_lo r) else Panic.
Definition CommitRange_is_equal_size (r other : CommitRange) : outcome bool :=
  a ← CommitRange_size r; b ← CommitRange_size other; Ret (bool_decide (a = b)).
Definition CommitRange_is_next_range (r other : CommitRange) : bool :=
  bool_decide (range_hi r = range_lo other).
Definition CommitRange_cmp (r other : CommitRange) : comparison :=
  match CommitRange_start r ?= CommitRange_start other with
  | Eq => CommitRange_end r ?= CommitRange_end other
  | o => o
  end.

(** * Reputation scores and commit info *)

Record ReputationScores := mkReputationScores {
  scores_per_authority : list N;
  scores_commit_range : CommitRange;
}.

Definition ReputationScores_default : ReputationScores :=
  mkReputationScores [] CommitRange_default.

Record CommitInfo := mkCommitInfo {
  ci_committed_rounds : list N;
  ci_reputation_scores : ReputationScores;
}.

(** * Lemmas *)

Lemma sub_dag_leb_iff a b :
  sub_dag_leb a b = true ↔
    vb_round a < vb_round b ∨ vb_round a = vb_round b ∧ vb_author a ≤ vb_author b.
Proof.
  unfold sub_dag_leb. destruct (N.compare_spec (vb_round a) (vb_round b)).
  - rewrite N.leb_le. lia.
  - split; [lia|done].
  - split; [done|lia].
Qed.

Lemma sub_dag_leb_total a b : sub_dag_leb a b = true ∨ sub_dag_leb b a = true.
Proof. rewrite !sub_dag_leb_iff. lia. Qed.

Lemma sub_dag_leb_trans a b c :
  sub_dag_leb a b = true → sub_dag_leb b c = true → sub_dag_leb a c = true.
Proof. rewrite !sub_dag_leb_iff. lia. Qed.

Lemma sort_sub_dag_blocks_perm l : sort_sub_dag_blocks l ≡ₚ l.
Proof. apply isort_perm. Qed.

Lemma sort_sub_dag_blocks_sorted l : StronglySorted sub_dag_leb (sort_sub_dag_blocks l).
Proof. apply isort_sorted; [apply sub_dag_leb_total|apply sub_dag_leb_trans]. Qed.

(** * Properties *)

(** Ranges of commit indices below [u32::MAX] behave as inclusive ranges although
    they are stored half-open: construction and the end points round-trip; extending a
    range by the next index grows it by one and keeps its start, and extending it
    backwards panics; the successor test accepts exactly the ranges that start right
    after the end; and the order is the lexicographic order of the end points. *)
Theorem CommitRange_inclusive s e :
  s ≤ e → e < u32_max →
  let r := CommitRange_new s e in
  CommitRange_start r = s ∧ CommitRange_end r = e ∧ CommitRange_size r = Ret (e - s + 1) ∧
  (∀ o, o < u32_max →
     CommitRange_extend_to r o = (if decide (e ≤ o) then Ret (CommitRange_new s o) else Panic)) ∧
  (∀ s' e', s' ≤ e' → e' < u32_max →
     let r' := CommitRange_new s' e' in
     CommitRange_is_next_range r r' = bool_decide (s' = e + 1) ∧
     CommitRange_is_equal_size r r' = Ret (bool_decide (e - s = e' - s')) ∧
     (CommitRange_cmp r r' = Eq ↔ r = r') ∧
     (CommitRange_cmp r r' = Lt ↔ s < s' ∨ s = s' ∧ e < e')).
Proof.
  unfold CommitRange_new, CommitRange_start, CommitRange_end, CommitRange_is_equal_size,
    CommitRange_size, CommitRange_extend_to, CommitRange_is_next_range, CommitRange_cmp,
    u32_saturating_add, saturating_sub. simpl.
  intros Hse He. rewrite (N.min_l (e + 1)) by lia. simpl.
  split; [done|]. split; [lia|]. rewrite decide_True by lia. split; [f_equal; lia|].
  split.
  - intros o Ho. rewrite (N.min_l (o + 1)) by lia.
    unfold assert_that. case_decide; case_bool_decide; try lia; done.
  - intros s' e' Hse' He'. rewrite (N.min_l (e' + 1)) by lia. simpl.
    rewrite (decide_True (P := s' ≤ e' + 1)) by lia. simpl.
    split; [apply bool_decide_ext; lia|]. split; [f_equal; apply bool_decide_ext; lia|].
    unfold CommitRange_start, CommitRange_end, saturating_sub; simpl.
    assert (mkCommitRange s (e + 1) = mkCommitRange s' (e' + 1) ↔ s = s' ∧ e = e') as ->
      by (split; [intros [=]; lia|intros [-> ->]; done]).
    replace (e + 1 - 1) with e by lia. replace (e' + 1 - 1) with e' by lia.
    destruct (N.compare_spec s s'), (N.compare_spec e e'); split; split; intros; done || lia.
Qed.

Lemma CommitRange_inclusive_witness :
  CommitRange_extend_to (CommitRange_new 1 300) 301 = Ret (CommitRange_new 1 301) ∧
  CommitRange_is_next_range (CommitRange_new 1 300) (CommitRange_new 301 600) = true.
Proof.
  destruct (CommitRange_inclusive 1 300) as (_ & _ & _ & He & Hn); [lia|unfold u32_max; lia|].
  split.
  - rewrite (He 301) by (unfold u32_max; lia). reflexivity.
  - destruct (Hn 301 600) as (-> & _); [lia|unfold u32_max; lia|reflexivity].
Defined.
