(* ===== verification/Store.v ===== *)
(** Persistent storage of blocks and commits (consensus/core/src/storage/mod.rs and
    mem_store.rs). The trait is the class [Store]; an error result of a backend is
    [Panic], because every caller in the modelled code unwraps it. [StoreSpec] is the
    contract the DAG state relies on, and the in-memory store implements it. *)

From stdpp Require Import base tactics numbers list gmap sorting.
From S2P Require Import Prelude.
From S2P Require Import Committee.
From S2P Require Import Block.
From S2P Require Import Commit.

Open Scope N_scope.

Abbreviation RejectedTransactions := (gmap BlockRef (list N)).

Record WriteBatch := mkWriteBatch {
  wb_blocks : list VerifiedBlock;
  wb_commits : list TrustedCommit;
  wb_commit_info : list (CommitRef * CommitInfo);
  wb_finalized_commits : list (CommitRef * RejectedTransactions);
}.

(** * The trait *)

Class Store (S : Type) := {
  store_write : S → WriteBatch → outcome S;
  store_read_blocks : S → list BlockRef → outcome (list (option VerifiedBlock));
  store_contains_blocks : S → list BlockRef → outcome (list bool);
  store_scan_blocks_by_author : S → N → N → outcome (list VerifiedBlock);
  store_scan_last_blocks_by_author : S → N → N → option N → outcome (list VerifiedBlock);
  store_read_last_commit : S → outcome (option TrustedCommit);
  store_scan_commits : S → CommitRange → outcome (list TrustedCommit);
  store_read_commit_votes : S → N → outcome (list BlockRef);
  store_read_last_commit_info : S → outcome (option (CommitRef * CommitInfo));
  store_read_last_finalized_commit : S → outcome (option CommitRef);
  store_scan_finalized_commits : S → CommitRange → outcome (list (CommitRef * RejectedTransactions));
}.

(** * The in-memory store *)

Record MemStore := mkMemStore {
  ms_blocks : gmap BlockRef VerifiedBlock;
  ms_digests_by_authorities : gset (N * N * N);
  ms_commits : gmap CommitRef TrustedCommit;
  ms_commit_votes : gset (CommitRef * BlockRef);
  ms_commit_info : gmap CommitRef CommitInfo;
  ms_finalized_commits : gmap CommitRef RejectedTransactions;
}.

Definition MemStore_new : MemStore := mkMemStore ∅ ∅ ∅ ∅ ∅ ∅.

(** Orders of the composite keys: (author, round, digest) and (commit, block). *)
Definition author_key_leb (a b : N * N * N) : bool :=
  let '(a1, a2, a3) := a in let '(b1, b2, b3) := b in
  match a1 ?= b1 with
  | Lt => true | Gt => false
  | Eq => match a2 ?= b2 with Lt => true | Gt => false | Eq => a3 <=? b3 end
  end.
Definition vote_key_leb (a b : CommitRef * BlockRef) : bool :=
  if decide (a.1 = b.1) then BlockRef_leb a.2 b.2 else CommitRef_leb a.1 b.1.

(** [BTreeMap::range] with both ends included, on an ascending key order. *)
Definition in_range {K} (leb : K → K → bool) (lo hi k : K) : bool := leb lo k && leb k hi.

Definition ms_write_block (s : MemStore) (block : VerifiedBlock) : MemStore :=
  let r := reference block in
  mkMemStore (<[r := block]> (ms_blocks s))
    ({[(br_author r, br_round r, br_digest r)]} ∪ ms_digests_by_authorities s)
    (ms_commits s)
    (foldl (λ vs vote, {[(vote, r)]} ∪ vs) (ms_commit_votes s) (vb_commit_votes block))
    (ms_commit_info s) (ms_finalized_commits s).
Definition ms_write_commit (s : MemStore) (commit : TrustedCommit) : MemStore :=
  mkMemStore (ms_blocks s) (ms_digests_by_authorities s)
    (<[tc_reference commit := commit]> (ms_commits s))
    (ms_commit_votes s) (ms_commit_info s) (ms_finalized_commits s).
Definition ms_write_commit_info (s : MemStore) (e : CommitRef * CommitInfo) : MemStore :=
  mkMemStore (ms_blocks s) (ms_digests_by_authorities s) (ms_commits s) (ms_commit_votes s)
    (<[e.1 := e.2]> (ms_commit_info s)) (ms_finalized_commits s).
Definition ms_write_finalized (s : MemStore) (e : CommitRef * RejectedTransactions) : MemStore :=
  mkMemStore (ms_blocks s) (ms_digests_by_authorities s) (ms_commits s) (ms_commit_votes s)
    (ms_commit_info s) (<[e.1 := e.2]> (ms_finalized_commits s)).

Definition ms_write (s : MemStore) (b : WriteBatch) : MemStore :=
  let s1 := foldl ms_write_block s (wb_blocks b) in
  let s2 := foldl ms_write_commit s1 (wb_commits b) in
  let s3 := foldl ms_write_commit_info s2 (wb_commit_info b) in
  foldl ms_write_finalized s3 (wb_finalized_commits b).

Definition ms_read_blocks (s : MemStore) (refs : list BlockRef) : list (option VerifiedBlock) :=
  (λ r, ms_blocks s !! r) <$> refs.

Definition ms_contains_blocks (s : MemStore) (refs : list BlockRef) : list bool :=
  (λ r, bool_decide (is_Some (ms_blocks s !! r))) <$> refs.

Definition author_key_ref (k : N * N * N) : BlockRef :=
  let '(author, round, digest) := k in mkBlockRef round author digest.

Definition ms_scan_blocks_by_author (s : MemStore) (author start_round : N)
    : outcome (list VerifiedBlock) :=
  let keys := filter (in_range author_key_leb (author, start_round, Digest_MIN)
                                              (author, u32_max, Digest_MAX))
                (set_iter author_key_leb (ms_digests_by_authorities s)) in
  mapM expect (ms_read_blocks s (author_key_ref <$> keys)).

(** [refs] is a [VecDeque] filled by [push_front] only, and only its first slice
    ([as_slices().0]) is read back. The position of the front in the ring buffer decides
    how much that is: [RingBuffer] is the standard library's bookkeeping of capacity,
    head position and length. *)
Record RingBuffer := mkRingBuffer { ring_cap : nat; ring_head : nat; ring_len : nat }.

(** [grow]: the capacity doubles (four at first), and a wrapped buffer moves its
    shorter section. *)
Definition ring_grow (r : RingBuffer) : RingBuffer :=
  let old := ring_cap r in
  let new := Nat.max 4 (2 * old) in
  if decide (ring_head r ≤ old - ring_len r)%nat then mkRingBuffer new (ring_head r) (ring_len r)
  else
    let head_len := (old - ring_head r)%nat in
    let tail_len := (ring_len r - head_len)%nat in
    if decide (tail_len < head_len ∧ tail_len ≤ new - old)%nat
    then mkRingBuffer new (ring_head r) (ring_len r)
    else mkRingBuffer new (new - head_len) (ring_len r).

Definition ring_push_front (r : RingBuffer) : RingBuffer :=
  let r := if decide (ring_len r = ring_cap r) then ring_grow r else r in
  mkRingBuffer (ring_cap r)
    (match ring_head r with O => ring_cap r - 1 | S h => h end)%nat (S (ring_len r)).

Definition ring_first_slice (r : RingBuffer) : nat :=
  Nat.min (ring_len r) (ring_cap r - ring_head r).

(** The first slice of a deque with contents [l], all pushed to its front. *)
Definition push_front_first_slice {A} (l : list A) : list A :=
  take (ring_first_slice (Nat.iter (length l) ring_push_front (mkRingBuffer 0 0 0))) l.

Definition ms_scan_last_blocks_by_author (s : MemStore) (author num_of_rounds : N)
    (before_round : option N) : outcome (list VerifiedBlock) :=
  let before_round := default u32_max before_round in
  let keys := filter (in_range author_key_leb (author, 0, Digest_MIN)
                                              (author, before_round, Digest_MAX))
                (set_iter author_key_leb (ms_digests_by_authorities s)) in
  let refs := reverse (take (N.to_nat num_of_rounds) (reverse (author_key_ref <$> keys))) in
  mapM expect (ms_read_blocks s (push_front_first_slice refs)).

Definition ms_read_last_commit (s : MemStore) : option TrustedCommit :=
  snd <$> last (map_iter CommitRef_leb (ms_commits s)).

Definition ms_scan_commits (s : MemStore) (range : CommitRange) : list TrustedCommit :=
  snd <$> filter (λ kv, in_range CommitRef_leb (mkCommitRef (CommitRange_start range) Digest_MIN)
                                              (mkCommitRef (CommitRange_end range) Digest_MAX) kv.1)
            (map_iter CommitRef_leb (ms_commits s)).

Definition ms_read_commit_votes (s : MemStore) (commit_index : N) : list BlockRef :=
  snd <$> filter (in_range vote_key_leb (mkCommitRef commit_index Digest_MIN, BlockRef_MIN)
                                        (mkCommitRef commit_index Digest_MAX, BlockRef_MAX))
            (set_iter vote_key_leb (ms_commit_votes s)).

Definition ms_read_last_commit_info (s : MemStore) : option (CommitRef * CommitInfo) :=
  last (map_iter CommitRef_leb (ms_commit_info s)).

Definition ms_read_last_finalized_commit (s : MemStore) : option CommitRef :=
  fst <$> last (map_iter CommitRef_leb (ms_finalized_commits s)).

Definition ms_scan_finalized_commits (s : MemStore) (range : CommitRange)
    : list (CommitRef * RejectedTransactions) :=
  filter (λ kv, in_range CommitRef_leb (mkCommitRef (CommitRange_start range) Digest_MIN)
                                       (mkCommitRef (CommitRange_end range) Digest_MAX) kv.1)
    (map_iter CommitRef_leb (ms_finalized_commits s)).

#[global] Instance MemStore_store : Store MemStore := {
  store_write s b := Ret (ms_write s b);
  store_read_blocks s refs := Ret (ms_read_blocks s refs);
  store_contains_blocks s refs := Ret (ms_contains_blocks s refs);
  store_scan_blocks_by_author := ms_scan_blocks_by_author;
  store_scan_last_blocks_by_author := ms_scan_last_blocks_by_author;
  store_read_last_commit s := Ret (ms_read_last_commit s);
  store_scan_commits s r := Ret (ms_scan_commits s r);
  store_read_commit_votes s i := Ret (ms_read_commit_votes s i);
  store_read_last_commit_info s := Ret (ms_read_last_commit_info s);
  store_read_last_finalized_commit s := Ret (ms_read_last_finalized_commit s);
  store_scan_finalized_commits s r := Ret (ms_scan_finalized_commits s r);
}.

(** * The contract *)

(** Blocks and commits after a batch: later entries win. *)
Definition insert_blocks (m : gmap BlockRef VerifiedBlock) (bs : list VerifiedBlock)
    : gmap BlockRef VerifiedBlock := foldl (λ m b, <[reference b := b]> m) m bs.
Definition insert_commits (m : gmap CommitRef TrustedCommit) (cs : list TrustedCommit)
    : gmap CommitRef TrustedCommit := foldl (λ m c, <[tc_reference c := c]> m) m cs.

(** What a client may assume of a store: its blocks and commits are finite maps, writes
    insert into them atomically, and reads look them up. *)
Class StoreSpec (S : Type) `{Store S} := {
  sv_blocks : S → gmap BlockRef VerifiedBlock;
  sv_commits : S → gmap CommitRef TrustedCommit;
  sv_write : ∀ s b, ∃ s', store_write s b = Ret s' ∧
    sv_blocks s' = insert_blocks (sv_blocks s) (wb_blocks b) ∧
    sv_commits s' = insert_commits (sv_commits s) (wb_commits b);
  sv_read_blocks : ∀ s refs,
    store_read_blocks s refs = Ret ((λ r, sv_blocks s !! r) <$> refs);
  sv_contains_blocks : ∀ s refs,
    store_contains_blocks s refs = Ret ((λ r, bool_decide (is_Some (sv_blocks s !! r))) <$> refs);
}.

(** * Lemmas *)

Lemma StronglySorted_filter {A} (R : A → A → Prop) (P : A → Prop) `{!∀ x, base.Decision (P x)} l :
  StronglySorted R l → StronglySorted R (filter P l).
Proof.
  induction 1 as [|x l Hl IH Hx]; [constructor|]. rewrite filter_cons.
  case_decide; [|done]. constructor; [done|]. rewrite Forall_forall in *. intros y [_ Hy]%list_elem_of_filter. auto.
Qed.

Lemma mapM_expect {A B} (f : A → option B) (l : list A) :
  (∀ x, x ∈ l → is_Some (f x)) →
  ∃ k, mapM expect (f <$> l) = Ret k ∧ Some <$> k = f <$> l.
Proof.
  induction l as [|x l IH]; intros Hs; [by exists []|].
  destruct (Hs x) as [y Hy]; [apply list_elem_of_here|].
  destruct IH as (k & Hk & Heq).
  { intros z Hz. apply Hs. by apply list_elem_of_further. }
  exists (y :: k). rewrite !fmap_cons, Hy, Heq. split; [|done].
  cbn [mapM expect mbind outcome_bind]. by rewrite Hk.
Qed.

(** Frame facts of the four write loops. *)
Lemma ms_write_commits_frame s cs :
  let s' := foldl ms_write_commit s cs in
  ms_blocks s' = ms_blocks s ∧ ms_digests_by_authorities s' = ms_digests_by_authorities s ∧
  ms_commits s' = insert_commits (ms_commits s) cs.
Proof. revert s. induction cs as [|c cs IH]; intros s; simpl; [done|].
  destruct (IH (ms_write_commit s c)) as (-> & -> & ->). done. Qed.

Lemma ms_write_commit_info_frame s cs :
  let s' := foldl ms_write_commit_info s cs in
  ms_blocks s' = ms_blocks s ∧ ms_digests_by_authorities s' = ms_digests_by_authorities s ∧
  ms_commits s' = ms_commits s.
Proof. revert s. induction cs as [|c cs IH]; intros s; simpl; [done|].
  destruct (IH (ms_write_commit_info s c)) as (-> & -> & ->). done. Qed.

Lemma ms_write_finalized_frame s cs :
  let s' := foldl ms_write_finalized s cs in
  ms_blocks s' = ms_blocks s ∧ ms_digests_by_authorities s' = ms_digests_by_authorities s ∧
  ms_commits s' = ms_commits s.
Proof. revert s. induction cs as [|c cs IH]; intros s; simpl; [done|].
  destruct (IH (ms_write_finalized s c)) as (-> & -> & ->). done. Qed.

Lemma ms_write_blocks_blocks s bs :
  ms_blocks (foldl ms_write_block s bs) = insert_blocks (ms_blocks s) bs ∧
  ms_commits (foldl ms_write_block s bs) = ms_commits s.
Proof. revert s. induction bs as [|b bs IH]; intros s; simpl; [done|].
  destruct (IH (ms_write_block s b)) as (-> & ->). done. Qed.

Lemma ms_write_view s b :
  ms_blocks (ms_write s b) = insert_blocks (ms_blocks s) (wb_blocks b) ∧
  ms_commits (ms_write s b) = insert_commits (ms_commits s) (wb_commits b) ∧
  ms_digests_by_authorities (ms_write s b)
    = ms_digests_by_authorities (foldl ms_write_block s (wb_blocks b)).
Proof.
  unfold ms_write.
  destruct (ms_write_finalized_frame
    (foldl ms_write_commit_info (foldl ms_write_commit (foldl ms_write_block s (wb_blocks b))
       (wb_commits b)) (wb_commit_info b)) (wb_finalized_commits b)) as (-> & -> & ->).
  destruct (ms_write_commit_info_frame
    (foldl ms_write_commit (foldl ms_write_block s (wb_blocks b)) (wb_commits b))
    (wb_commit_info b)) as (-> & -> & ->).
  destruct (ms_write_commits_frame (foldl ms_write_block s (wb_blocks b)) (wb_commits b))
    as (-> & -> & ->).
  destruct (ms_write_blocks_blocks s (wb_blocks b)) as [-> ->]. done.
Qed.

#[global] Program Instance MemStore_spec : StoreSpec MemStore := {
  sv_blocks := ms_blocks;
  sv_commits := ms_commits;
}.
Next Obligation.
  intros s b. exists (ms_write s b). destruct (ms_write_view s b) as (? & ? & ?). done.
Qed.
Next Obligation. done. Qed.
Next Obligation. done. Qed.

(** The index by author mirrors the block table, and machine bounds of references. *)
Definition ref_bounded (r : BlockRef) : Prop :=
  br_round r ≤ u32_max ∧ br_author r ≤ AuthorityIndex_MAX ∧ br_digest r ≤ Digest_MAX.

Record ms_wf (s : MemStore) : Prop := {
  ms_wf_key : ∀ r b, ms_blocks s !! r = Some b → reference b = r ∧ ref_bounded r;
  ms_wf_index : ∀ k, k ∈ ms_digests_by_authorities s ↔ is_Some (ms_blocks s !! author_key_ref k);
}.

Lemma ms_wf_new : ms_wf MemStore_new.
Proof.
  split; simpl; [set_solver|]. intros k. rewrite lookup_empty.
  split; [set_solver|by intros [? ?]].
Qed.

Lemma author_key_ref_inj k r :
  author_key_ref k = r ↔ k = (br_author r, br_round r, br_digest r).
Proof. destruct k as [[a ro] d], r as [ro' a' d']; simpl. split; intros [=]; simplify_eq; done. Qed.

Lemma ms_wf_write_block s b : ms_wf s → ref_bounded (reference b) → ms_wf (ms_write_block s b).
Proof.
  intros [Hk Hi] Hb. split; simpl.
  - intros r b' [[<- <-]|[_ Hr]]%lookup_insert_Some; [done|by apply Hk].
  - intros k. rewrite elem_of_union, elem_of_singleton, Hi, lookup_insert_is_Some.
    pose proof (author_key_ref_inj k (reference b)).
    destruct (decide (reference b = author_key_ref k)); naive_solver.
Qed.

Lemma ms_wf_write s b :
  ms_wf s → Forall (λ b, ref_bounded (reference b)) (wb_blocks b) → ms_wf (ms_write s b).
Proof.
  intros Hs Hall.
  assert (ms_wf (foldl ms_write_block s (wb_blocks b))) as [Hk Hi].
  { revert s Hs. induction Hall; intros s Hs; simpl; [done|]. auto using ms_wf_write_block. }
  destruct (ms_write_view s b) as (Hb & _ & Hd).
  destruct (ms_write_blocks_blocks s (wb_blocks b)) as [Hb' _].
  split; rewrite Hb, ?Hd, <- Hb'; done.
Qed.

Lemma author_key_leb_iff a b :
  author_key_leb a b = true ↔
    a.1.1 < b.1.1 ∨ a.1.1 = b.1.1 ∧ (a.1.2 < b.1.2 ∨ a.1.2 = b.1.2 ∧ a.2 ≤ b.2).
Proof.
  destruct a as [[a1 a2] a3], b as [[b1 b2] b3]; unfold author_key_leb; cbn [fst snd].
  destruct (N.compare_spec a1 b1), (N.compare_spec a2 b2), (N.leb_spec a3 b3);
    split; intros; done || lia.
Qed.

Lemma author_range author start hi k :
  k.2 ≤ Digest_MAX →
  in_range author_key_leb (author, start, Digest_MIN) (author, hi, Digest_MAX) k = true ↔
    k.1.1 = author ∧ start ≤ k.1.2 ≤ hi.
Proof.
  unfold in_range, Digest_MIN. rewrite andb_true_iff, !author_key_leb_iff; simpl. lia.
Qed.

Section Scan.
Context (s : MemStore) (Hs : ms_wf s) (author start hi : N).

Definition scan_keys : list (N * N * N) :=
  filter (in_range author_key_leb (author, start, Digest_MIN) (author, hi, Digest_MAX))
    (set_iter author_key_leb (ms_digests_by_authorities s)).

Lemma elem_of_scan_keys k :
  k ∈ scan_keys ↔
    is_Some (ms_blocks s !! author_key_ref k) ∧ k.1.1 = author ∧ start ≤ k.1.2 ≤ hi.
Proof.
  unfold scan_keys. rewrite list_elem_of_filter, elem_of_set_iter, (ms_wf_index s Hs).
  rewrite Is_true_true. split.
  - intros [Hr [b Hb]]. split; [eauto|]. eapply author_range; [|done].
    destruct (ms_wf_key s Hs _ _ Hb) as (_ & _ & _ & Hd). by destruct k as [[? ?] ?].
  - intros [[b Hb] Hr]. split; [|eauto]. apply author_range; [|done].
    destruct (ms_wf_key s Hs _ _ Hb) as (_ & _ & _ & Hd). by destruct k as [[? ?] ?].
Qed.

(** Sorted by (author, round, digest), and the author is fixed, so by reference. *)
Lemma scan_keys_sorted :
  StronglySorted BlockRef_leb (author_key_ref <$> scan_keys).
Proof.
  assert (StronglySorted author_key_leb scan_keys) as Hsort.
  { apply StronglySorted_filter. apply isort_sorted.
    - intros [[]] [[]]. rewrite !author_key_leb_iff; simpl. lia.
    - intros [[]] [[]] [[]]. rewrite !author_key_leb_iff; simpl. lia. }
  assert (∀ k, k ∈ scan_keys → k.1.1 = author) as Ha by (intros k Hk%elem_of_scan_keys; tauto).
  induction Hsort as [|k l Hl IH Hk]; simpl; [constructor|].
  constructor; [apply IH; set_solver|].
  rewrite Forall_fmap. rewrite Forall_forall in *. intros k' Hin. simpl.
  specialize (Hk k' Hin). apply Is_true_true in Hk. apply Is_true_true.
  rewrite author_key_leb_iff in Hk. rewrite BlockRef_leb_iff.
  assert (k.1.1 = author) by (apply Ha; set_solver).
  assert (k'.1.1 = author) by (apply Ha; set_solver).
  destruct k as [[] ], k' as [[] ]; simpl in *. lia.
Qed.

(** Reading references that the store has. *)
Lemma read_refs refs :
  (∀ r, r ∈ refs → is_Some (ms_blocks s !! r)) →
  ∃ bs, mapM expect (ms_read_blocks s refs) = Ret bs ∧ reference <$> bs = refs ∧
        ∀ b, b ∈ bs → ms_blocks s !! reference b = Some b.
Proof.
  intros Hrefs. destruct (mapM_expect (λ r, ms_blocks s !! r) refs Hrefs) as (bs & Hbs & Heq).
  exists bs. split; [done|].
  assert (∀ i b, bs !! i = Some b → refs !! i = Some (reference b)
            ∧ ms_blocks s !! reference b = Some b) as Hi.
  { intros i b Hb. assert ((Some <$> bs) !! i = Some (Some b)) as HS
      by by rewrite list_lookup_fmap, Hb.
    rewrite Heq, list_lookup_fmap in HS. destruct (refs !! i) as [r|]; [|done]. simpl in HS.
    injection HS as HS. destruct (ms_wf_key s Hs _ _ HS) as [<- _]. done. }
  split.
  - apply list_eq. intros i. rewrite list_lookup_fmap.
    destruct (bs !! i) as [b|] eqn:Hb; simpl; [symmetry; by apply Hi|].
    apply lookup_ge_None in Hb. symmetry. apply lookup_ge_None.
    apply (f_equal length) in Heq. rewrite !length_fmap in Heq. lia.
  - intros b [i Hb]%list_elem_of_lookup. by eapply Hi.
Qed.

Lemma elem_of_scan_refs r :
  r ∈ author_key_ref <$> scan_keys ↔ is_Some (ms_blocks s !! r) ∧ br_author r = author ∧ start ≤ br_round r ≤ hi.
Proof.
  rewrite list_elem_of_fmap. setoid_rewrite elem_of_scan_keys. split.
  - intros ([[a ro] d] & -> & ?). done.
  - intros Hr. exists (br_author r, br_round r, br_digest r). by destruct r.
Qed.

Lemma NoDup_scan_refs : NoDup (author_key_ref <$> scan_keys).
Proof.
  apply NoDup_fmap_2; [|apply NoDup_filter, NoDup_set_iter].
  intros k k' Hk. symmetry in Hk. apply author_key_ref_inj in Hk as ->. by destruct k as [[] ].
Qed.
End Scan.

(** ** The first slice of the ring buffer *)

Section Ring.
Local Open Scope nat_scope.

(** What the second slice holds once the buffer has wrapped for the [k]-th time. *)
Fixpoint wrapped (k : nat) : nat :=
  match k with O => 0 | S k => 4 ^ S k + wrapped k end.

Lemma wrapped_closed k : 3 * wrapped k + 4 = 4 ^ S k.
Proof. induction k as [|k IH]; [done|]. cbn [wrapped]. rewrite (Nat.pow_succ_r' 4 (S k)). lia. Qed.

Lemma push_front_room c h l : l < c → 0 < h → ring_push_front (mkRingBuffer c h l) = mkRingBuffer c (h - 1) (S l).
Proof.
  intros Hl Hh. unfold ring_push_front. cbn [ring_len ring_cap ring_head]. rewrite decide_False by lia. cbn [ring_len ring_cap ring_head].
  destruct h; [lia|]. by rewrite Nat.sub_succ, Nat.sub_0_r.
Qed.

Lemma push_front_wrap c l : l < c → ring_push_front (mkRingBuffer c 0 l) = mkRingBuffer c (c - 1) (S l).
Proof. intros Hl. unfold ring_push_front. cbn [ring_len ring_cap ring_head]. by rewrite decide_False by lia. Qed.

(** A full buffer grows, and moves the shorter of its sections. *)
Lemma push_front_full c h :
  2 ≤ c → 0 < h → h ≤ c →
  ring_push_front (mkRingBuffer c h c) = mkRingBuffer (2 * c) ((if decide (2 * h < c) then h else c + h) - 1) (S c).
Proof.
  intros Hc Hh Hle. unfold ring_push_front. cbn [ring_len ring_cap ring_head]. rewrite decide_True by done.
  assert (ring_grow (mkRingBuffer c h c) = mkRingBuffer (2 * c) (if decide (2 * h < c) then h else c + h) c) as ->.
  { unfold ring_grow. cbn [ring_len ring_cap ring_head]. rewrite decide_False by lia. replace (Nat.max 4 (2 * c)) with (2 * c) by lia.
    destruct (decide (2 * h < c)); [by rewrite decide_True by lia|]. rewrite decide_False by lia. f_equal. lia. }
  cbn [ring_len ring_cap ring_head]. destruct (decide _); f_equal; [destruct h; lia|]. destruct (c + h) eqn:He; lia.
Qed.

Section Phase.
Context (k : nat) (Hk : 0 < k).
Let p := 4 ^ k.
Let w := wrapped k.

Lemma phase_arith : 3 * w + 4 = 4 * p ∧ 4 ≤ p ∧ 4 ^ S k = 4 * p.
Proof.
  unfold w, p. rewrite wrapped_closed, Nat.pow_succ_r'. destruct k as [|n]; [lia|]. rewrite Nat.pow_succ_r'.
  pose proof (Nat.pow_nonzero 4 n). lia.
Qed.

(** Up to a full buffer of twice the size, up to one of four times, and until the front is at
    the start of the next. *)
Lemma ring_first j :
  0 < j → w + j ≤ 2 * p → Nat.iter j ring_push_front (mkRingBuffer (2 * p) 0 w) = mkRingBuffer (2 * p) (2 * p - j) (w + j).
Proof.
  pose proof phase_arith. induction j as [|[|j] IH]; intros Hj Hle; [lia| |].
  - cbn [Nat.iter nat_rect]. rewrite push_front_wrap by lia. f_equal. lia.
  - rewrite Nat.iter_succ, IH by lia. rewrite push_front_room by lia. f_equal; lia.
Qed.

Lemma ring_second j :
  2 * p < w + j → w + j ≤ 4 * p → Nat.iter j ring_push_front (mkRingBuffer (2 * p) 0 w) = mkRingBuffer (4 * p) (4 * p - j) (w + j).
Proof.
  pose proof phase_arith. induction j as [|j IH]; intros Hlo Hhi; [lia|]. rewrite Nat.iter_succ.
  destruct (decide (w + j = 2 * p)) as [He|Hne].
  - rewrite ring_first by lia. rewrite He. rewrite push_front_full by lia. rewrite decide_False by lia. f_equal; lia.
  - rewrite IH by lia. rewrite push_front_room by lia. f_equal; lia.
Qed.

Lemma ring_third i :
  0 < i → i ≤ w →
  Nat.iter (4 * p - w + i) ring_push_front (mkRingBuffer (2 * p) 0 w) = mkRingBuffer (8 * p) (w - i) (4 * p + i).
Proof.
  pose proof phase_arith. induction i as [|i IH]; intros Hi Hle; [lia|]. rewrite Nat.add_succ_r, Nat.iter_succ.
  destruct (decide (i = 0)) as [->|Hne].
  - rewrite ring_second by lia. replace (w + (4 * p - w + 0)) with (4 * p) by lia. replace (4 * p - (4 * p - w + 0)) with w by lia.
    rewrite push_front_full by lia. rewrite decide_True by lia. f_equal; lia.
  - rewrite IH by lia. rewrite push_front_room by lia. f_equal; lia.
Qed.
End Phase.

Definition ring_of (n : nat) : RingBuffer := Nat.iter n ring_push_front (mkRingBuffer 0 0 0).

(** Where each phase starts. *)
Lemma ring_phase k j :
  0 < k → 0 < j → ring_of (wrapped k + j) = Nat.iter j ring_push_front (mkRingBuffer (2 * 4 ^ k) 0 (wrapped k)).
Proof.
  intros Hk. revert j. induction k as [|k IH]; intros j Hj; [lia|]. destruct (decide (k = 0)) as [->|Hne].
  - unfold ring_of. change (wrapped 1) with 4. destruct j as [|j]; [lia|]. replace (4 + S j) with (j + 5) by lia.
    replace (S j) with (j + 1) by lia. by rewrite !Nat.iter_add.
  - pose proof (phase_arith k ltac:(lia)) as (Hw & Hp & Hs). cbn [wrapped]. rewrite Hs.
    replace (4 * 4 ^ k + wrapped k + j) with (wrapped k + (j + (4 * 4 ^ k - wrapped k + wrapped k))) by lia.
    rewrite IH by lia. rewrite Nat.iter_add, ring_third by lia. f_equal. f_equal; lia.
Qed.

(** How much of a list that is pushed to the front is in the first slice. *)
Lemma first_slice_length k n :
  (wrapped k < n → n ≤ 4 ^ S k → ring_first_slice (ring_of n) = n - wrapped k) ∧
  (4 ^ S k < n → n ≤ wrapped (S k) → ring_first_slice (ring_of n) = n).
Proof.
  destruct (decide (k = 0)) as [->|Hk].
  { change (wrapped 0) with 0. change (wrapped 1) with 4. change (4 ^ 1) with 4. split; [|lia].
    intros Hlo Hhi. destruct n as [|[|[|[|[|n]]]]]; [lia|done..|lia]. }
  pose proof (phase_arith k ltac:(lia)) as (Hw & Hp & Hs). cbn [wrapped]. rewrite Hs. split; intros Hlo Hhi.
  - replace n with (wrapped k + (n - wrapped k)) at 1 by lia. rewrite ring_phase by lia. unfold ring_first_slice.
    destruct (decide (n ≤ 2 * 4 ^ k)).
    + rewrite ring_first by lia. cbn [ring_len ring_cap ring_head]. lia.
    + rewrite ring_second by lia. cbn [ring_len ring_cap ring_head]. lia.
  - replace n with (wrapped k + (4 * 4 ^ k - wrapped k + (n - 4 * 4 ^ k))) at 1 by lia. rewrite ring_phase by lia.
    rewrite ring_third by lia. unfold ring_first_slice. cbn [ring_len ring_cap ring_head]. lia.
Qed.
End Ring.

(** * Properties *)

(** A store that started empty and received batches holds what they wrote. *)
Lemma written_store batches :
  Forall (λ w, Forall (λ b, ref_bounded (reference b)) (wb_blocks w)) batches →
  let s := foldl ms_write MemStore_new batches in
  ms_wf s ∧ ms_blocks s = insert_blocks ∅ (concat (wb_blocks <$> batches)).
Proof.
  induction batches as [|w batches IH] using rev_ind; intros Hall; [split; [apply ms_wf_new|done]|].
  rewrite Forall_app, Forall_singleton in Hall. destruct Hall as [Hall Hw].
  rewrite foldl_app, fmap_app, concat_app. simpl. destruct IH as [IHwf IHm]; [done|].
  split; [by apply ms_wf_write|]. destruct (ms_write_view (foldl ms_write MemStore_new batches) w)
    as (-> & _). rewrite IHm, app_nil_r. unfold insert_blocks. by rewrite foldl_app.
Qed.

(** A store that started empty and received any batches of well-formed blocks meets
    the storage contract: scanning an author's blocks from a round never hits the
    "block not found" panic, returns exactly the written blocks of that author at or
    above the round, each once, in ascending reference order; and reading references
    back returns the last block written under each. *)
Theorem MemStore_scan_after_writes batches author start :
  Forall (λ w, Forall (λ b, ref_bounded (reference b)) (wb_blocks w)) batches →
  let s := foldl ms_write MemStore_new batches in
  let m := insert_blocks ∅ (concat (wb_blocks <$> batches)) in
  (∀ refs, store_read_blocks s refs = Ret ((λ r, m !! r) <$> refs)) ∧
  ∃ bs, store_scan_blocks_by_author s author start = Ret bs ∧
    StronglySorted BlockRef_leb (reference <$> bs) ∧ NoDup (reference <$> bs) ∧
    ∀ b, b ∈ bs ↔ m !! reference b = Some b ∧ vb_author b = author ∧ start ≤ vb_round b.
Proof.
  intros Hall s m. destruct (written_store batches Hall) as [Hwf Hm]. fold s m in Hwf, Hm.
  split; [intros refs; simpl; unfold ms_read_blocks; by rewrite Hm|].
  destruct (read_refs s Hwf (author_key_ref <$> scan_keys s author start u32_max)) as (bs & Hbs & Href & Hin).
  { intros r Hr. by apply (elem_of_scan_refs s Hwf) in Hr as [? _]. }
  exists bs. split; [exact Hbs|]. rewrite Href. split; [by apply scan_keys_sorted|]. split; [apply NoDup_scan_refs|].
  intros b. rewrite <- Hm. split.
  - intros Hb. split; [by apply Hin|].
    assert (reference b ∈ reference <$> bs) as Hr by by apply list_elem_of_fmap_2.
    rewrite Href in Hr. apply (elem_of_scan_refs s Hwf) in Hr as (_ & Ha & Hr & _). done.
  - intros (Hb & Ha & Hr). destruct (ms_wf_key s Hwf _ _ Hb) as (_ & Hmax & _).
    assert (reference b ∈ reference <$> bs) as Hr' by (rewrite Href; apply (elem_of_scan_refs s Hwf); eauto).
    apply list_elem_of_fmap in Hr' as (b' & Heq & Hb'). pose proof (Hin _ Hb') as Hb2.
    rewrite <- Heq in Hb2. congruence.
Qed.

(** A block with the given round, author and digest and no contents. *)
Definition sample_block (round author digest : N) (ancestors : list BlockRef) : VerifiedBlock :=
  mkVerifiedBlock (mkSignedBlock (V1 (mkBlockV1 0 round author 0 ancestors [] [] [])) []) digest [].

Lemma MemStore_scan_after_writes_witness :
  let b1 := sample_block 1 0 7 [] in let b2 := sample_block 2 0 5 [] in
  let b3 := sample_block 2 1 9 [] in
  let s := foldl ms_write MemStore_new
             [mkWriteBatch [b2; b3] [] [] []; mkWriteBatch [b1] [] [] []] in
  store_read_blocks s [reference b3] = Ret [Some b3] ∧
  ∃ bs, store_scan_blocks_by_author s 0 1 = Ret bs ∧ b2 ∈ bs ∧ b3 ∉ bs.
Proof.
  intros b1 b2 b3 s.
  destruct (MemStore_scan_after_writes
    [mkWriteBatch [b2; b3] [] [] []; mkWriteBatch [b1] [] [] []] 0 1) as [Hr (bs & Hs & _ & _ & Hb)].
  { repeat constructor; vm_compute; discriminate. }
  split; [apply (Hr [reference b3])|]. exists bs. split; [exact Hs|].
  rewrite !Hb. split; [split; [vm_compute; reflexivity|split; [reflexivity|vm_compute; discriminate]]|].
  intros (_ & Ha & _). vm_compute in Ha. discriminate.
Defined.

Definition sample_store (rounds : list N) : MemStore :=
  ms_write MemStore_new (mkWriteBatch ((λ r, sample_block r 0 (100 + r) []) <$> rounds) [] [] []).
Definition scanned_rounds (s : MemStore) (n : N) : outcome (list N) :=
  bs ← ms_scan_last_blocks_by_author s 0 n None; Ret (fmap (M:=list) vb_round bs).

(** C33. Scanning the last blocks of an author misses the most recent of them. The references
    are pushed to the front of a deque, and only its first slice is read back. Let [refs] be the
    last [num_of_rounds] references of the author up to the given round, in ascending order. The
    scan does not panic; when their number is above 4 and at most 16, above 20 and at most 64, and
    so on, it returns only the oldest ones and misses the last 4, 20 and so on; for the numbers in
    between, 17 to 20 for instance, and for up to 4, it returns all. *)
Theorem MemStore_scan_last_truncates batches author num_of_rounds before_round :
  Forall (λ w, Forall (λ b, ref_bounded (reference b)) (wb_blocks w)) batches →
  let s := foldl ms_write MemStore_new batches in
  let m := insert_blocks ∅ (concat (wb_blocks <$> batches)) in
  ∃ all refs bs, StronglySorted BlockRef_leb all ∧ NoDup all ∧
    (∀ r, r ∈ all ↔ is_Some (m !! r) ∧ br_author r = author ∧ br_round r ≤ default u32_max before_round) ∧
    refs = drop (length all - N.to_nat num_of_rounds) all ∧
    store_scan_last_blocks_by_author s author num_of_rounds before_round = Ret bs ∧
    (∀ b, b ∈ bs → m !! reference b = Some b) ∧
    ∀ k, ((wrapped k < length refs)%nat → (length refs ≤ 4 ^ S k)%nat →
            reference <$> bs = take (length refs - wrapped k) refs) ∧
         ((4 ^ S k < length refs)%nat → (length refs ≤ wrapped (S k))%nat → reference <$> bs = refs).
Proof.
  intros Hall s m. destruct (written_store batches Hall) as [Hwf Hm]. fold s m in Hwf, Hm.
  set (hi := default u32_max before_round). set (all := author_key_ref <$> scan_keys s author 0 hi).
  set (refs := drop (length all - N.to_nat num_of_rounds) all).
  assert (∀ r, r ∈ all ↔ is_Some (m !! r) ∧ br_author r = author ∧ br_round r ≤ hi) as Hin.
  { intros r. unfold all. rewrite (elem_of_scan_refs s Hwf), Hm. intuition lia. }
  assert (∀ r, r ∈ push_front_first_slice refs → r ∈ all) as Hsub.
  { intros r (i & Hi & _)%elem_of_take. eapply subseteq_drop. by eapply list_elem_of_lookup_2. }
  destruct (read_refs s Hwf (push_front_first_slice refs)) as (bs & Hrun & Href & Hbs).
  { intros r Hr%Hsub. rewrite Hm. by apply Hin. }
  exists all, refs, bs. split; [by apply scan_keys_sorted|]. split; [apply NoDup_scan_refs|]. split; [done|].
  split; [done|]. split.
  { cbn [store_scan_last_blocks_by_author MemStore_store]. unfold ms_scan_last_blocks_by_author. fold hi.
    change (filter _ _) with (scan_keys s author 0 hi). fold all. rewrite take_reverse, reverse_involutive. exact Hrun. }
  split; [intros b Hb; rewrite <- Hm; by apply Hbs|].
  intros k. rewrite Href. unfold push_front_first_slice. change (Nat.iter _ _ _) with (ring_of (length refs)).
  destruct (first_slice_length k (length refs)) as [Hlong Hall']. split; intros Hlo Hhi.
  - by rewrite Hlong.
  - rewrite Hall' by done. by rewrite firstn_all.
Qed.

(** Recovery asks for one round; of five blocks, only the oldest is found. *)
Lemma MemStore_scan_last_truncates_witness :
  scanned_rounds (sample_store [1; 2; 3; 4; 5; 6]) 1 = Ret [6] ∧
  ∃ bs, store_scan_last_blocks_by_author (sample_store [1; 2; 3; 4; 5; 6]) 0 5 None = Ret bs ∧ length bs = 1%nat.
Proof.
  split; [vm_compute; reflexivity|].
  destruct (MemStore_scan_last_truncates [mkWriteBatch ((λ r, sample_block r 0 (100 + r) []) <$> [1; 2; 3; 4; 5; 6]) [] [] []] 0 5 None)
    as (all & refs & bs & _ & _ & _ & _ & Hrun & _).
  - repeat constructor; vm_compute; discriminate.
  - exists bs. split; [exact Hrun|]. vm_compute in Hrun. injection Hrun as <-. reflexivity.
Defined.
