(* ===== verification/LeaderScoring.v ===== *)
(** Reputation scoring (consensus/core/src/leader_scoring.rs): the votes for committed
    leaders found in committed sub-DAGs, the stake of the blocks that carry each vote
    further, and the score of every authority derived from them. *)

From stdpp Require Import base tactics numbers list gmap sorting strings.
From S2P Require Import Prelude.
From S2P Require Import Committee.
From S2P Require Import Block.
From S2P Require Import StakeAggregator.
From S2P Require Import Commit.

Open Scope N_scope.

(** * Scores *)

Definition highest_score (r : ReputationScores) : N := foldr N.max 0 (scores_per_authority r).

Definition authorities_by_score (c : Committee) (r : ReputationScores) : outcome (list (N * N)) :=
  mapM (λ '(index, score), i ← expect (to_authority_index c index); Ret (i, score))
    (imap (λ index score, (N.of_nat index, score)) (scores_per_authority r)).

(** * The scoring sub-DAG *)

Record ScoringSubdag := mkScoringSubdag {
  ss_commit_range : option CommitRange;
  ss_leaders : gset BlockRef;
  ss_votes : gmap BlockRef StakeAggregator;
}.

Definition ScoringSubdag_new : ScoringSubdag := mkScoringSubdag None ∅ ∅.

(** One ancestor of one block: a strong link to a leader registers the block as a vote,
    and a strong link to a registered vote adds the author's stake to it. *)
Definition scoring_add_ancestor (c : Committee) (leaders : gset BlockRef) (block : VerifiedBlock)
    (votes : gmap BlockRef StakeAggregator) (ancestor : BlockRef)
    : outcome (gmap BlockRef StakeAggregator) :=
  if negb (br_round ancestor =? saturating_sub (vb_round block) 1) then Ret votes
  else
    votes ← (if decide (ancestor ∈ leaders) then
               _ ← assert_that (bool_decide (votes !! reference block = None));
               Ret (<[reference block := StakeAggregator_new]> votes)
             else Ret votes);
    match votes !! ancestor with
    | Some stake =>
        '(stake, _) ← agg_add QuorumThreshold stake (vb_author block) c;
        Ret (<[ancestor := stake]> votes)
    | None => Ret votes
    end.

Definition scoring_add_block (c : Committee) (leaders : gset BlockRef)
    (votes : gmap BlockRef StakeAggregator) (block : VerifiedBlock)
    : outcome (gmap BlockRef StakeAggregator) :=
  foldM (scoring_add_ancestor c leaders block) votes (vb_ancestors block).

Definition add_subdag (c : Committee) (s : ScoringSubdag) (subdag : CommittedSubDag)
    : outcome ScoringSubdag :=
  let index := cr_index (sd_commit_ref subdag) in
  range ← match ss_commit_range s with
          | None => Ret (CommitRange_new index index)
          | Some r => CommitRange_extend_to r index
          end;
  let leaders := {[sd_leader subdag]} ∪ ss_leaders s in
  votes ← foldM (scoring_add_block c leaders) (ss_votes s) (sd_blocks subdag);
  Ret (mkScoringSubdag (Some range) leaders votes).

Definition add_subdags (c : Committee) (s : ScoringSubdag) (subdags : list CommittedSubDag)
    : outcome ScoringSubdag := foldM (add_subdag c) s subdags.

Definition distributed_votes_scores (c : Committee) (s : ScoringSubdag) : outcome (list N) :=
  foldM (λ scores '(vote, stake_agg),
      old ← vec_get scores (br_author vote);
      vec_set scores (br_author vote) (u64_add old (agg_stake stake_agg)))
    (replicate (N.to_nat (Committee_size c)) 0) (map_iter BlockRef_leb (ss_votes s)).

Definition calculate_distributed_vote_scores (c : Committee) (s : ScoringSubdag)
    : outcome ReputationScores :=
  scores ← distributed_votes_scores c s;
  range ← expect (ss_commit_range s);
  Ret (mkReputationScores scores range).

Definition scored_subdags_count (s : ScoringSubdag) : outcome N :=
  match ss_commit_range s with
  | Some r => CommitRange_size r
  | None => Ret 0
  end.

Definition ScoringSubdag_is_empty (s : ScoringSubdag) : bool :=
  bool_decide (ss_leaders s = ∅) && bool_decide (ss_votes s = ∅)
    && bool_decide (ss_commit_range s = None).

Definition ScoringSubdag_clear (s : ScoringSubdag) : ScoringSubdag := mkScoringSubdag None ∅ ∅.
