(* ===== verification/DagState.v ===== *)
(** The DAG state (consensus/core/src/dag_state.rs): accepted blocks cached in memory and
    persisted through the store, the committed and hard-linked marks, commits waiting to
    be written, eviction on flush, and recovery from storage.

    The state is parameterised by any store that meets [StoreSpec]. Metrics and the
    wall clock are not modelled: nothing the code returns depends on them. *)

From stdpp Require Import base tactics numbers list gmap sorting strings.
From coqutil Require Import Datatypes.RecordSettersUsingExistingGetters.
From S2P Require Import Prelude.
From S2P Require Import Committee.
From S2P Require Import Block.
From S2P Require Import StakeAggregator.
From S2P Require Import ThresholdClock.
From S2P Require Import Commit.
From S2P Require Import Store.
From S2P Require Import LeaderScoring.

Open Scope N_scope.

Arguments set {R E} getter {Setter} fieldUpdater r /.
Arguments const {E} newValue _ /.

(** * Data *)

Record BlockInfo := mkBlockInfo {
  bi_block : VerifiedBlock;
  bi_committed : bool;
  bi_hard_linked : bool;
}.

Definition BlockInfo_new (block : VerifiedBlock) : BlockInfo := mkBlockInfo block false false.

Record DagState (S : Type) := mkDagState {
  ds_context : Context;
  ds_genesis : gmap BlockRef VerifiedBlock;
  ds_recent_blocks : gmap BlockRef BlockInfo;
  ds_recent_refs_by_authority : list (gset BlockRef);
  ds_threshold_clock : ThresholdClock;
  ds_evicted_rounds : list N;
  ds_highest_accepted_round : N;
  ds_last_commit : option TrustedCommit;
  ds_last_committed_rounds : list N;
  ds_scoring_subdag : ScoringSubdag;
  ds_pending_commit_votes : list CommitVote;
  ds_blocks_to_write : list VerifiedBlock;
  ds_commits_to_write : list TrustedCommit;
  ds_commit_info_to_write : list (CommitRef * CommitInfo);
  ds_finalized_commits_to_write : list (CommitRef * RejectedTransactions);
  ds_store : S;
  ds_cached_rounds : N;
}.
Arguments mkDagState {S}.
Arguments ds_context {S}.
Arguments ds_genesis {S}.
Arguments ds_recent_blocks {S}.
Arguments ds_recent_refs_by_authority {S}.
Arguments ds_threshold_clock {S}.
Arguments ds_evicted_rounds {S}.
Arguments ds_highest_accepted_round {S}.
Arguments ds_last_commit {S}.
Arguments ds_last_committed_rounds {S}.
Arguments ds_scoring_subdag {S}.
Arguments ds_pending_commit_votes {S}.
Arguments ds_blocks_to_write {S}.
Arguments ds_commits_to_write {S}.
Arguments ds_commit_info_to_write {S}.
Arguments ds_finalized_commits_to_write {S}.
Arguments ds_store {S}.
Arguments ds_cached_rounds {S}.

(** [first] and [last] of a [BTreeSet] of references. *)
Definition refs_first (s : gset BlockRef) : option BlockRef := head (set_iter BlockRef_leb s).
Definition refs_last (s : gset BlockRef) : option BlockRef := last (set_iter BlockRef_leb s).

(** [lo] included, [hi] excluded. *)
Definition in_range_excl (lo hi k : BlockRef) : bool := BlockRef_leb lo k && BlockRef_ltb k hi.

(** Answers of a batched read put back in their positions: a slot is answered already
    or waits for the next result. *)
Fixpoint fill_missing {A} (default : A) (slots : list (A + BlockRef)) (results : list A) : list A :=
  match slots with
  | [] => []
  | inl a :: slots => a :: fill_missing default slots results
  | inr _ :: slots =>
      match results with
      | [] => default :: fill_missing default slots []
      | a :: results => a :: fill_missing default slots results
      end
  end.
Definition missing_refs {A} (slots : list (A + BlockRef)) : list BlockRef :=
  omap (λ s, match s with inl _ => None | inr r => Some r end) slots.

(** At most [limit] elements, for a limit that may be as large as [usize::MAX]. *)
Definition take_limit {A} (limit : N) (l : list A) : list A :=
  take (N.to_nat (N.min limit (N.of_nat (length l)))) l.

(** [v[i] = max(v[i], x)]. *)
Definition vec_max (v : list N) (i x : N) : outcome (list N) :=
  old ← vec_get v i; vec_set v i (N.max old x).

Definition eviction_round (last_round gc_round cached_rounds : N) : N :=
  N.min gc_round (saturating_sub last_round cached_rounds).

(** * Operations *)

Section Operations.
Context {S : Type} `{Store S}.
Implicit Types d : DagState S.

Definition dag_committee d : Committee := committee (ds_context d).

Definition last_commit_index d : N :=
  match ds_last_commit d with Some c => tc_index c | None => 0 end.
Definition last_commit_digest d : N :=
  match ds_last_commit d with Some c => tc_digest c | None => Digest_MIN end.
Definition last_commit_timestamp_ms d : N :=
  match ds_last_commit d with Some c => tc_timestamp_ms c | None => 0 end.
Definition last_commit_round d : N :=
  match ds_last_commit d with Some c => br_round (tc_leader c) | None => 0 end.
Definition last_commit_leader d : outcome Slot :=
  match ds_last_commit d with
  | Some c => Ret (Slot_from (tc_leader c))
  | None => kv ← expect (head (map_iter BlockRef_leb (ds_genesis d))); Ret (Slot_from kv.1)
  end.

Definition calculate_gc_round d (commit_round : N) : N :=
  saturating_sub commit_round (gc_depth (protocol_config (ds_context d))).
Definition dag_gc_round d : N := calculate_gc_round d (last_commit_round d).

(** ** Lookups *)

Definition get_blocks d (block_refs : list BlockRef) : outcome (list (option VerifiedBlock)) :=
  let slots :=
    (λ r, if br_round r =? GENESIS_ROUND then inl (ds_genesis d !! r)
          else match ds_recent_blocks d !! r with
               | Some info => inl (Some (bi_block info))
               | None => inr r
               end) <$> block_refs in
  match missing_refs slots with
  | [] => Ret (fill_missing None slots [])
  | missing =>
      results ← store_read_blocks (ds_store d) missing;
      Ret (fill_missing None slots results)
  end.

Definition get_block d (r : BlockRef) : outcome (option VerifiedBlock) :=
  blocks ← get_blocks d [r]; expect (last blocks).

Definition get_uncommitted_blocks_at_slot d (slot : Slot) : list VerifiedBlock :=
  (λ kv, bi_block kv.2) <$>
    filter (λ kv, in_range BlockRef_leb
                    (mkBlockRef (slot_round slot) (slot_authority slot) Digest_MIN)
                    (mkBlockRef (slot_round slot) (slot_authority slot) Digest_MAX) kv.1)
      (map_iter BlockRef_leb (ds_recent_blocks d)).

(** [range] panics when its start is above its end, as happens at the last round. *)
Definition get_uncommitted_blocks_at_round d (round : N) : outcome (list VerifiedBlock) :=
  _ ← assert_that (negb (round <=? last_commit_round d));
  let lo := mkBlockRef round AuthorityIndex_ZERO Digest_MIN in
  let hi := mkBlockRef (u32_add round 1) AuthorityIndex_ZERO Digest_MIN in
  _ ← assert_that (BlockRef_leb lo hi);
  Ret ((λ kv, bi_block kv.2) <$>
         filter (λ kv, in_range_excl lo hi kv.1) (map_iter BlockRef_leb (ds_recent_blocks d))).

(** The traversal loop: [fuel] bounds the number of references popped. *)
Fixpoint ancestors_loop (fuel : nat) d (earlier_round : N) (linked : gset BlockRef)
    : outcome (gset BlockRef) :=
  match refs_last linked with
  | None => Ret linked
  | Some r =>
      if br_round r <=? earlier_round then Ret linked
      else
        match fuel with
        | O => Panic
        | Datatypes.S fuel =>
            block ← get_block d r;
            block ← expect block;
            ancestors_loop fuel d earlier_round
              ((linked ∖ {[r]}) ∪ list_to_set (vb_ancestors block))
        end
  end.

Definition ancestors_at_round (fuel : nat) d (later_block : VerifiedBlock) (earlier_round : N)
    : outcome (list VerifiedBlock) :=
  linked ← ancestors_loop fuel d earlier_round (list_to_set (vb_ancestors later_block));
  mapM (λ r, block ← get_block d r; expect block)
    (filter (λ r, BlockRef_leb (mkBlockRef earlier_round AuthorityIndex_ZERO Digest_MIN) r)
      (set_iter BlockRef_leb linked)).

Definition get_last_block_for_authority d (authority : N) : outcome VerifiedBlock :=
  refs ← vec_get (ds_recent_refs_by_authority d) authority;
  match refs_last refs with
  | Some last => info ← expect (ds_recent_blocks d !! last); Ret (bi_block info)
  | None =>
      kv ← expect (head (filter (λ kv, br_author kv.1 = authority)
                           (map_iter BlockRef_leb (ds_genesis d))));
      Ret kv.2
  end.

Definition get_last_proposed_block d : outcome VerifiedBlock :=
  get_last_block_for_authority d (own_index (ds_context d)).

Definition get_cached_blocks_in_range d (authority start_round end_round limit : N)
    : outcome (list VerifiedBlock) :=
  if (end_round <=? start_round) || (limit =? 0) then Ret []
  else
    refs ← vec_get (ds_recent_refs_by_authority d) authority;
    let range := filter (in_range_excl (mkBlockRef start_round authority Digest_MIN)
                                       (mkBlockRef end_round AuthorityIndex_ZERO Digest_MIN))
                   (set_iter BlockRef_leb refs) in
    mapM (λ r, info ← expect (ds_recent_blocks d !! r); Ret (bi_block info))
      (take_limit limit range).

(** [usize::MAX] as the limit. *)
Definition get_cached_blocks d (authority start : N) : outcome (list VerifiedBlock) :=
  get_cached_blocks_in_range d authority start u32_max u64_max.

Definition get_last_cached_block_in_range d (authority start_round end_round : N)
    : outcome (option VerifiedBlock) :=
  if end_round <=? start_round then Ret None
  else
    refs ← vec_get (ds_recent_refs_by_authority d) authority;
    let range := filter (in_range_excl (mkBlockRef start_round authority Digest_MIN)
                                       (mkBlockRef end_round AuthorityIndex_ZERO Digest_MIN))
                   (set_iter BlockRef_leb refs) in
    Ret (r ← last range; bi_block <$> ds_recent_blocks d !! r).

(** The scan of one authority's references from the highest down: the first one is the
    last block, the others of its round are its equivocations. *)
Fixpoint last_and_equivocations (refs : list BlockRef) (last_round : N)
    (acc : option BlockRef * list BlockRef) : option BlockRef * list BlockRef :=
  match refs with
  | [] => acc
  | r :: refs =>
      if last_round =? 0 then last_and_equivocations refs (br_round r) (Some r, acc.2)
      else if br_round r <? last_round then acc
      else last_and_equivocations refs last_round (acc.1, acc.2 ++ [r])
  end.

Definition last_cached_step d (end_round : N)
    (acc : list VerifiedBlock * list (list BlockRef)) (entry : nat * gset BlockRef)
    : outcome (list VerifiedBlock * list (list BlockRef)) :=
  let '(blocks, equivocating) := acc in
  authority_index ← expect (to_authority_index (dag_committee d) (N.of_nat entry.1));
  last_evicted_round ← vec_get (ds_evicted_rounds d) authority_index;
  _ ← assert_that (negb (saturating_sub end_round 1 <=? last_evicted_round));
  let range := filter (in_range_excl
                         (mkBlockRef (u32_add last_evicted_round 1) authority_index Digest_MIN)
                         (mkBlockRef end_round authority_index Digest_MIN))
                 (set_iter BlockRef_leb entry.2) in
  match last_and_equivocations (reverse range) 0 (None, []) with
  | (None, eq) => Ret (blocks, equivocating)
  | (Some r, eq) =>
      info ← expect (ds_recent_blocks d !! r);
      blocks ← vec_set blocks authority_index (bi_block info);
      equivocating ← vec_set equivocating authority_index eq;
      Ret (blocks, equivocating)
  end.

Definition get_last_cached_block_per_authority d (end_round : N)
    : outcome (list (VerifiedBlock * list BlockRef)) :=
  let blocks := snd <$> map_iter BlockRef_leb (ds_genesis d) in
  let equivocating := replicate (N.to_nat (Committee_size (dag_committee d))) [] in
  if end_round =? GENESIS_ROUND then Panic
  else if end_round =? GENESIS_ROUND + 1 then Ret ((λ b, (b, [])) <$> blocks)
  else
    '(blocks, equivocating) ←
      foldM (last_cached_step d end_round) (blocks, equivocating)
        (imap pair (ds_recent_refs_by_authority d));
    Ret (zip blocks equivocating).

Definition contains_cached_block_at_slot d (slot : Slot) : outcome bool :=
  if slot_round slot =? GENESIS_ROUND then Ret true
  else
    evicted ← vec_get (ds_evicted_rounds d) (slot_authority slot);
    _ ← assert_that (negb (slot_round slot <=? evicted));
    refs ← vec_get (ds_recent_refs_by_authority d) (slot_authority slot);
    Ret (negb (bool_decide (filter (in_range BlockRef_leb
                  (mkBlockRef (slot_round slot) (slot_authority slot) Digest_MIN)
                  (mkBlockRef (slot_round slot) (slot_authority slot) Digest_MAX))
                (set_iter BlockRef_leb refs) = []))).

Definition contains_slot d (r : BlockRef) : outcome (bool + BlockRef) :=
  recent_refs ← vec_get (ds_recent_refs_by_authority d) (br_author r);
  if bool_decide (r ∈ recent_refs) || bool_decide (is_Some (ds_genesis d !! r))
  then Ret (inl true)
  else match refs_last recent_refs with
       | None => Ret (inl false)
       | Some last => if br_round last <? br_round r then Ret (inl false) else Ret (inr r)
       end.

Definition contains_blocks d (block_refs : list BlockRef) : outcome (list bool) :=
  slots ← mapM (contains_slot d) block_refs;
  match missing_refs slots with
  | [] => Ret (fill_missing false slots [])
  | missing =>
      results ← store_contains_blocks (ds_store d) missing;
      Ret (fill_missing false slots results)
  end.

Definition contains_block d (r : BlockRef) : outcome bool :=
  blocks ← contains_blocks d [r]; expect (head blocks).

(** ** Accepting blocks *)

Definition update_block_metadata d (block : VerifiedBlock) : outcome (DagState S) :=
  let r := reference block in
  let d := d <| ds_recent_blocks := <[r := BlockInfo_new block]> (ds_recent_blocks d) |> in
  refs ← vec_get (ds_recent_refs_by_authority d) (br_author r);
  by_authority ← vec_set (ds_recent_refs_by_authority d) (br_author r) ({[r]} ∪ refs);
  let d := d <| ds_recent_refs_by_authority := by_authority |> in
  '(clock, advanced) ← clock_add_block (dag_committee d) (ds_threshold_clock d) r;
  let d := d <| ds_threshold_clock := clock |> in
  _ ← (if advanced : bool then _ ← get_last_proposed_block d; Ret tt else Ret tt);
  let d := d <| ds_highest_accepted_round :=
                  N.max (ds_highest_accepted_round d) (vb_round block) |> in
  _ ← Committee_authority (dag_committee d) (br_author r);
  Ret d.

Definition accept_block d (block : VerifiedBlock) : outcome (DagState S) :=
  _ ← assert_that (negb (vb_round block =? 0));
  let r := reference block in
  contained ← contains_block d r;
  if contained : bool then Ret d
  else
    _ ← Committee_authority (dag_committee d) (br_author r);
    _ ← assert_that (negb (br_author r =? own_index (ds_context d))
                     || bool_decide (get_uncommitted_blocks_at_slot d (Slot_from r) = []));
    d ← update_block_metadata d block;
    Ret (d <| ds_blocks_to_write := ds_blocks_to_write d ++ [block] |>).

Definition accept_blocks d (blocks : list VerifiedBlock) : outcome (DagState S) :=
  foldM accept_block d blocks.

(** ** Committed and hard-linked marks *)

Definition set_committed d (r : BlockRef) : outcome (DagState S * bool) :=
  info ← expect (ds_recent_blocks d !! r);
  if bi_committed info then Ret (d, false)
  else Ret (d <| ds_recent_blocks :=
              <[r := mkBlockInfo (bi_block info) true (bi_hard_linked info)]>
                (ds_recent_blocks d) |>, true).

Definition is_committed d (r : BlockRef) : outcome bool :=
  info ← expect (ds_recent_blocks d !! r); Ret (bi_committed info).

Definition is_hard_linked d (r : BlockRef) : outcome bool :=
  info ← expect (ds_recent_blocks d !! r); Ret (bi_hard_linked info).

(** The work list: [fuel] bounds the number of references popped. *)
Fixpoint link_loop (fuel : nat) (gc_round : N) (targets : list BlockRef)
    (recent : gmap BlockRef BlockInfo) (linked : list BlockRef)
    : outcome (gmap BlockRef BlockInfo * list BlockRef) :=
  match targets with
  | [] => Ret (recent, linked)
  | r :: targets =>
      match fuel with
      | O => Panic
      | Datatypes.S fuel =>
          if br_round r <=? gc_round then link_loop fuel gc_round targets recent linked
          else
            info ← expect (recent !! r);
            if bi_hard_linked info then link_loop fuel gc_round targets recent linked
            else link_loop fuel gc_round (targets ++ vb_ancestors (bi_block info))
                   (<[r := mkBlockInfo (bi_block info) (bi_committed info) true]> recent)
                   (linked ++ [r])
      end
  end.

(** Every block is linked once, so at most its ancestors are pushed once. *)
Definition link_fuel (recent : gmap BlockRef BlockInfo) : nat :=
  1 + sum_list_with (λ kv, length (vb_ancestors (bi_block kv.2))) (map_to_list recent).

Definition link_causal_history d (root_block : BlockRef) : outcome (DagState S * list BlockRef) :=
  '(recent, linked) ← link_loop (link_fuel (ds_recent_blocks d)) (dag_gc_round d) [root_block]
                        (ds_recent_blocks d) [];
  Ret (d <| ds_recent_blocks := recent |>, linked).

(** ** Commits *)

Definition add_commit d (commit : TrustedCommit) : outcome (DagState S) :=
  let push d :=
    rounds ← foldM (λ rounds r, vec_max rounds (br_author r) (br_round r))
               (ds_last_committed_rounds d) (tc_blocks commit);
    _ ← assert_that (bool_decide (N.of_nat (length rounds) ≤ Committee_size (dag_committee d)));
    Ret (d <| ds_last_commit := Some commit |>
           <| ds_last_committed_rounds := rounds |>
           <| ds_pending_commit_votes := ds_pending_commit_votes d ++ [tc_reference commit] |>
           <| ds_commits_to_write := ds_commits_to_write d ++ [commit] |>) in
  match ds_last_commit d with
  | Some last =>
      if tc_index commit <=? tc_index last then Ret d
      else
        _ ← assert_that (tc_index commit =? u32_add (tc_index last) 1);
        _ ← assert_that (negb (tc_timestamp_ms commit <? tc_timestamp_ms last));
        push d
  | None => _ ← assert_that (tc_index commit =? 1); push d
  end.

Definition recover_commits_to_write d (commits : list TrustedCommit) : DagState S :=
  d <| ds_commits_to_write := ds_commits_to_write d ++ commits |>.

Definition ensure_commits_to_write_is_empty d : outcome unit :=
  assert_that (bool_decide (length (ds_commits_to_write d) = 0%nat)).

Definition add_commit_info d (reputation_scores : ReputationScores) : outcome (DagState S) :=
  _ ← assert_that (ScoringSubdag_is_empty (ds_scoring_subdag d));
  last_commit ← expect (ds_last_commit d);
  Ret (d <| ds_commit_info_to_write := ds_commit_info_to_write d ++
              [(tc_reference last_commit,
                mkCommitInfo (ds_last_committed_rounds d) reputation_scores)] |>).

Definition add_finalized_commit d (commit_ref : CommitRef) (rejected : RejectedTransactions)
    : DagState S :=
  d <| ds_finalized_commits_to_write :=
         ds_finalized_commits_to_write d ++ [(commit_ref, rejected)] |>.

Definition take_commit_votes d (limit : N) : DagState S * list CommitVote :=
  let votes := take_limit limit (ds_pending_commit_votes d) in
  (d <| ds_pending_commit_votes := drop (length votes) (ds_pending_commit_votes d) |>, votes).

(** ** Flushing and eviction *)

Definition calculate_authority_eviction_round d (authority : N) : outcome N :=
  refs ← vec_get (ds_recent_refs_by_authority d) authority;
  let last_round := from_option br_round GENESIS_ROUND (refs_last refs) in
  Ret (eviction_round last_round (dag_gc_round d) (ds_cached_rounds d)).

Fixpoint take_while {A} (P : A → bool) (l : list A) : list A :=
  match l with
  | [] => []
  | x :: l => if P x then x :: take_while P l else []
  end.

Definition evict_authority d (authority : N) : outcome (DagState S) :=
  evict ← calculate_authority_eviction_round d authority;
  refs ← vec_get (ds_recent_refs_by_authority d) authority;
  let evicted := take_while (λ r, br_round r <=? evict) (set_iter BlockRef_leb refs) in
  by_authority ← vec_set (ds_recent_refs_by_authority d) authority (refs ∖ list_to_set evicted);
  evicted_rounds ← vec_set (ds_evicted_rounds d) authority evict;
  Ret (d <| ds_recent_blocks := foldl (λ m r, delete r m) (ds_recent_blocks d) evicted |>
         <| ds_recent_refs_by_authority := by_authority |>
         <| ds_evicted_rounds := evicted_rounds |>).

Definition flush d : outcome (DagState S) :=
  let batch := mkWriteBatch (ds_blocks_to_write d) (ds_commits_to_write d)
                 (ds_commit_info_to_write d) (ds_finalized_commits_to_write d) in
  let d := d <| ds_blocks_to_write := [] |> <| ds_commits_to_write := [] |>
             <| ds_commit_info_to_write := [] |> <| ds_finalized_commits_to_write := [] |> in
  match wb_blocks batch, wb_commits batch, wb_commit_info batch, wb_finalized_commits batch with
  | [], [], [], [] => Ret d
  | _, _, _, _ =>
      store ← store_write (ds_store d) batch;
      let d := d <| ds_store := store |> in
      foldM (λ d e, evict_authority d e.1) d (Committee_enumerate (dag_committee d))
  end.

(** ** Scoring *)

Definition recover_last_commit_info d : outcome (option (CommitRef * CommitInfo)) :=
  store_read_last_commit_info (ds_store d).

Definition add_scoring_subdags d (subdags : list CommittedSubDag) : outcome (DagState S) :=
  s ← add_subdags (dag_committee d) (ds_scoring_subdag d) subdags;
  Ret (d <| ds_scoring_subdag := s |>).

Definition clear_scoring_subdag d : DagState S :=
  d <| ds_scoring_subdag := ScoringSubdag_clear (ds_scoring_subdag d) |>.

Definition scoring_subdags_count d : outcome N := scored_subdags_count (ds_scoring_subdag d).

Definition is_scoring_subdag_empty d : bool := ScoringSubdag_is_empty (ds_scoring_subdag d).

Definition calculate_scoring_subdag_scores d : outcome ReputationScores :=
  calculate_distributed_vote_scores (dag_committee d) (ds_scoring_subdag d).

Definition scoring_subdag_commit_range d : outcome N :=
  r ← expect (ss_commit_range (ds_scoring_subdag d)); Ret (CommitRange_end r).

(** ** Recovery *)

Definition load_committed_subdag_from_store (store : S) (commit : TrustedCommit)
    (reputation_scores_desc : list (N * N)) : outcome CommittedSubDag :=
  commit_blocks ← store_read_blocks store (tc_blocks commit);
  blocks ← mapM expect commit_blocks;
  leader_block ← expect (last (filter (λ b, reference b = tc_leader commit) blocks));
  Ret ((CommittedSubDag_new (reference leader_block) blocks (tc_timestamp_ms commit)
          (tc_reference commit)) <| sd_reputation_scores_desc := reputation_scores_desc |>).

(** Committed rounds and sub-DAGs of one commit after the last stored commit info. *)
Definition recover_unscored (store : S) (acc : list N * list CommittedSubDag)
    (commit : TrustedCommit) : outcome (list N * list CommittedSubDag) :=
  rounds ← foldM (λ rounds r, vec_max rounds (br_author r) (br_round r)) acc.1 (tc_blocks commit);
  subdag ← load_committed_subdag_from_store store commit [];
  Ret (rounds, acc.2 ++ [subdag]).

(** Blocks of one authority above its eviction round. *)
Definition recover_authority d (authority : N) : outcome (DagState S) :=
  last_block ← store_scan_last_blocks_by_author (ds_store d) authority 1 None;
  let last_block_round := from_option vb_round GENESIS_ROUND (last last_block) in
  let evict := eviction_round last_block_round (dag_gc_round d) (ds_cached_rounds d) in
  blocks ← store_scan_blocks_by_author (ds_store d) authority (u32_add evict 1);
  evicted_rounds ← vec_set (ds_evicted_rounds d) authority evict;
  foldM update_block_metadata (d <| ds_evicted_rounds := evicted_rounds |>) blocks.

(** Commit marks, from the last commit backwards; the index decreases to zero, so its
    value plus one bounds the iterations. *)
Fixpoint recover_committed (fuel : nat) d (gc_round index : N) : outcome (DagState S) :=
  match fuel with
  | O => Ret d
  | Datatypes.S fuel =>
      commits ← store_scan_commits (ds_store d) (CommitRange_new index index);
      match head commits with
      | None => Ret d
      | Some commit =>
          if (0 <? gc_round) && (br_round (tc_leader commit) <=? gc_round) then Ret d
          else
            d ← foldM (λ d r, '(d, first) ← set_committed d r; _ ← assert_that first; Ret d) d
                  (filter (λ r, gc_round < br_round r) (tc_blocks commit));
            let index := saturating_sub index 1 in
            if index =? 0 then Ret d else recover_committed fuel d gc_round index
      end
  end.

Definition DagState_new `{Crypto} (context : Context) (store : S) : outcome (DagState S) :=
  let num_authorities := N.to_nat (Committee_size (committee context)) in
  genesis ← genesis_blocks context;
  last_commit ← store_read_last_commit store;
  commit_info ← store_read_last_commit_info store;
  let '(committed_rounds, start_index) :=
    match commit_info with
    | Some (commit_ref, info) => (ci_committed_rounds info, u32_add (cr_index commit_ref) 1)
    | None => (replicate num_authorities 0, GENESIS_COMMIT_INDEX + 1)
    end in
  '(committed_rounds, unscored) ←
    match last_commit with
    | Some last_commit =>
        commits ← store_scan_commits store (CommitRange_new start_index (tc_index last_commit));
        foldM (recover_unscored store) (committed_rounds, []) commits
    | None => Ret (committed_rounds, [])
    end;
  scoring ← add_subdags (committee context) ScoringSubdag_new unscored;
  let d := mkDagState context (list_to_map ((λ b, (reference b, b)) <$> genesis)) ∅
             (replicate num_authorities ∅) (ThresholdClock_new 1) (replicate num_authorities 0)
             0 last_commit committed_rounds scoring [] [] [] [] [] store
             (dag_state_cached_rounds context) in
  d ← foldM (λ d e, recover_authority d e.1) d (Committee_enumerate (committee context));
  d ← match last_commit with
      | Some last_commit =>
          let index := tc_index last_commit in
          recover_committed (N.to_nat index + 1) d (dag_gc_round d) index
      | None => Ret d
      end;
  proposed_blocks ← store_scan_blocks_by_author store (own_index context)
                      (u32_add (dag_gc_round d) 1);
  foldM (λ d b, '(d, _) ← link_causal_history d (reference b); Ret d) d proposed_blocks.

End Operations.
