(* ===== verification/DagInvariant.v ===== *)
(** Correctness of the DAG state: what its lookups mean, the invariant that every
    operation keeps, and the laws the commit rule and the linearizer are proved against.

    [dag_lookup] is the abstract state: a partial map from references to blocks.
    [DagView] states, for one state of the DAG, the laws of the read operations in
    terms of it. *)

From stdpp Require Import base tactics numbers list gmap sorting strings.
From coqutil Require Import Datatypes.RecordSettersUsingExistingGetters.
From S2P Require Import Prelude.
From S2P Require Import Committee.
From S2P Require Import Block.
From S2P Require Import StakeAggregator.
From S2P Require Import ThresholdClock.
From S2P Require Import Commit.
From S2P Require Import Store.
From S2P Require Import LeaderScoring.
From S2P Require Import DagState.

Open Scope N_scope.

(** * Ordered sets of references *)

Lemma BlockRef_leb_refl r : BlockRef_leb r r = true.
Proof. destruct (BlockRef_leb_total r r); done. Qed.

Lemma set_iter_sorted (X : gset BlockRef) : StronglySorted BlockRef_leb (set_iter BlockRef_leb X).
Proof. apply isort_sorted; [apply BlockRef_leb_total|apply BlockRef_leb_trans]. Qed.

Lemma map_iter_sorted {V} (m : gmap BlockRef V) :
  StronglySorted BlockRef_leb (map_iter BlockRef_leb m).*1.
Proof.
  assert (StronglySorted (λ a b : BlockRef * V, BlockRef_leb a.1 b.1)
            (map_iter BlockRef_leb m)) as Hs.
  { apply (isort_sorted (λ a b : BlockRef * V, BlockRef_leb a.1 b.1)).
    - intros x y. apply BlockRef_leb_total.
    - intros x y z. apply BlockRef_leb_trans. }
  induction Hs as [|kv l Hl IH Hkv]; simpl; constructor; [done|].
  by rewrite Forall_fmap.
Qed.

(** The first entry of an ordered map. *)
Lemma first_key {V} (ma : gmap BlockRef V) :
  match head (map_iter BlockRef_leb ma) with
  | None => ma = ∅
  | Some (x, v) => ma !! x = Some v ∧ ∀ a, is_Some (ma !! a) → BlockRef_leb x a = true
  end.
Proof.
  pose proof (map_iter_sorted ma) as Hs. destruct (map_iter BlockRef_leb ma) as [|[x v] l] eqn:Hl; simpl.
  - apply map_eq. intros a. rewrite lookup_empty. destruct (ma !! a) as [w|] eqn:Ha; [|done].
    apply (elem_of_map_iter BlockRef_leb) in Ha. rewrite Hl in Ha. by apply elem_of_nil in Ha.
  - split; [apply (elem_of_map_iter BlockRef_leb); rewrite Hl; apply list_elem_of_here|].
    intros a [w Ha]. apply (elem_of_map_iter BlockRef_leb) in Ha. rewrite Hl in Ha. simpl in Hs.
    apply StronglySorted_inv in Hs as [_ Hf]. rewrite Forall_forall in Hf.
    apply elem_of_cons in Ha as [[= -> ->]|Ha]; [apply BlockRef_leb_refl|].
    apply Is_true_true, Hf. apply list_elem_of_fmap. by exists (a, w).
Qed.

Lemma sorted_last (l : list BlockRef) x y :
  StronglySorted BlockRef_leb l → last l = Some x → y ∈ l → BlockRef_leb y x = true.
Proof.
  intros Hs. revert y. induction Hs as [|z l Hl IH Hz]; intros y; [done|].
  destruct l as [|w l]; simpl; intros Hx Hy.
  - simplify_eq. apply list_elem_of_singleton in Hy as ->. apply BlockRef_leb_refl.
  - apply elem_of_cons in Hy as [->|Hy]; [|by apply IH].
    rewrite Forall_forall in Hz. apply Is_true_true, Hz.
    apply last_Some in Hx as [l' Hx]. rewrite Hx. set_solver.
Qed.

Lemma refs_last_Some X r :
  refs_last X = Some r → r ∈ X ∧ ∀ r', r' ∈ X → BlockRef_leb r' r = true.
Proof.
  unfold refs_last. intros Hr. split.
  - apply last_Some in Hr as [l Hl]. rewrite <- (elem_of_set_iter BlockRef_leb), Hl. set_solver.
  - intros r' Hr'. eapply sorted_last; [apply set_iter_sorted|done|].
    by apply elem_of_set_iter.
Qed.

Lemma refs_last_None X : refs_last X = None ↔ X = ∅.
Proof.
  unfold refs_last. rewrite last_None. split.
  - intros Hn. apply set_eq. intros r. rewrite <- (elem_of_set_iter BlockRef_leb X), Hn. set_solver.
  - intros ->. done.
Qed.

Lemma refs_last_is_Some X r : r ∈ X → ∃ l, refs_last X = Some l ∧ l ∈ X ∧ BlockRef_leb r l = true.
Proof.
  intros Hr. destruct (refs_last X) as [l|] eqn:Hl.
  - apply refs_last_Some in Hl as [? ?]. eauto.
  - apply refs_last_None in Hl. set_solver.
Qed.

Lemma BlockRef_leb_round a b : BlockRef_leb a b = true → br_round a ≤ br_round b.
Proof. rewrite BlockRef_leb_iff. lia. Qed.

(** * Batched reads *)

Lemma fill_missing_fmap {A} (dflt : A) (g : BlockRef → A) slots :
  fill_missing dflt slots (g <$> missing_refs slots)
    = (λ s, match s with inl a => a | inr r => g r end) <$> slots.
Proof.
  induction slots as [|[a|r] slots IH]; simpl; [done| |]; by f_equal.
Qed.

Lemma mapM_outcome_ext {A B} (f g : A → outcome B) l :
  (∀ x, f x = g x) → mapM f l = mapM g l.
Proof. intros Hfg. induction l as [|x l IH]; cbn [mapM]; [done|]. by rewrite Hfg, IH. Qed.

Lemma vec_set_lookup {A} (l : list A) i x y :
  l !! N.to_nat i = Some y → vec_set l i x = Ret (<[N.to_nat i := x]> l).
Proof. intros Hi%lookup_lt_Some. unfold vec_set. by rewrite decide_True. Qed.

(** * The abstract state and the invariant *)

Section Invariant.
Context {S : Type} `{StoreSpec S}.
Implicit Types d : DagState S.

Definition dag_lookup d (r : BlockRef) : option VerifiedBlock :=
  if br_round r =? GENESIS_ROUND then ds_genesis d !! r
  else match ds_recent_blocks d !! r with
       | Some info => Some (bi_block info)
       | None => sv_blocks (ds_store d) !! r
       end.

(** The in-memory part: indices, keys and genesis. *)
Record cache_wf d : Prop := {
  dwf_committee : committee_wf (dag_committee d);
  dwf_own : is_valid_index (dag_committee d) (own_index (ds_context d)) = true;
  dwf_refs_len : N.of_nat (length (ds_recent_refs_by_authority d)) = Committee_size (dag_committee d);
  dwf_evicted_len : N.of_nat (length (ds_evicted_rounds d)) = Committee_size (dag_committee d);
  dwf_genesis : ∀ r b, ds_genesis d !! r = Some b → reference b = r ∧ br_round r = 0;
  dwf_genesis_all : ∀ a, is_valid_index (dag_committee d) a = true →
    ∃ r, is_Some (ds_genesis d !! r) ∧ br_author r = a;
  dwf_recent : ∀ r i, ds_recent_blocks d !! r = Some i →
    reference (bi_block i) = r ∧ ref_bounded r ∧ 0 < br_round r ∧
    is_valid_index (dag_committee d) (br_author r) = true;
  dwf_refs : ∀ a refs, ds_recent_refs_by_authority d !! a = Some refs →
    ∀ r, r ∈ refs ↔ is_Some (ds_recent_blocks d !! r) ∧ br_author r = N.of_nat a;
}.

(** The whole state: cached blocks are persisted or waiting to be; the store holds
    nothing newer than the cache, and everything it holds above the garbage collection
    round is cached. *)
Record dag_wf d : Prop := {
  dwf_cache :> cache_wf d;
  dwf_cached : 0 < ds_cached_rounds d;
  dwf_store : ∀ r b, sv_blocks (ds_store d) !! r = Some b →
    reference b = r ∧ 0 < br_round r ∧ is_valid_index (dag_committee d) (br_author r) = true;
  dwf_written : ∀ r i, ds_recent_blocks d !! r = Some i →
    bi_block i ∈ ds_blocks_to_write d ∨ sv_blocks (ds_store d) !! r = Some (bi_block i);
  dwf_to_write : ∀ b, b ∈ ds_blocks_to_write d →
    ∃ i, ds_recent_blocks d !! reference b = Some i ∧ bi_block i = b;
  dwf_agree : ∀ r i b, ds_recent_blocks d !! r = Some i → sv_blocks (ds_store d) !! r = Some b →
    b = bi_block i;
  dwf_last : ∀ r b, sv_blocks (ds_store d) !! r = Some b →
    ∃ r', is_Some (ds_recent_blocks d !! r') ∧ br_author r' = br_author r ∧
          br_round r ≤ br_round r';
  dwf_above_gc : ∀ r b, sv_blocks (ds_store d) !! r = Some b → dag_gc_round d < br_round r →
    is_Some (ds_recent_blocks d !! r);
}.

(** ** Lookups *)

Lemma get_blocks_lookup d refs : get_blocks d refs = Ret (dag_lookup d <$> refs).
Proof.
  unfold get_blocks.
  set (slots := _ <$> refs).
  assert ((λ s, match s with inl a => a | inr r => sv_blocks (ds_store d) !! r end) <$> slots
            = dag_lookup d <$> refs) as Hslots.
  { unfold slots. rewrite <- list_fmap_compose. apply list_fmap_ext. intros _ r _. simpl.
    unfold dag_lookup. destruct (br_round r =? GENESIS_ROUND); [done|].
    by destruct (ds_recent_blocks d !! r). }
  pose proof (fill_missing_fmap None (λ r, sv_blocks (ds_store d) !! r) slots) as Hfill.
  cbv beta in Hfill. rewrite Hslots in Hfill.
  destruct (missing_refs slots) as [|r l]; [by f_equal|].
  rewrite (sv_read_blocks (ds_store d)). cbn [mbind outcome_bind]. by rewrite Hfill.
Qed.

Lemma get_block_lookup d r : get_block d r = Ret (dag_lookup d r).
Proof. unfold get_block. by rewrite get_blocks_lookup. Qed.

Lemma recent_refs_at d a :
  cache_wf d → is_valid_index (dag_committee d) a = true →
  ∃ refs, vec_get (ds_recent_refs_by_authority d) a = Ret refs ∧
    ds_recent_refs_by_authority d !! N.to_nat a = Some refs ∧
    ∀ r, r ∈ refs ↔ is_Some (ds_recent_blocks d !! r) ∧ br_author r = a.
Proof.
  intros Hwf Ha. apply bool_decide_eq_true in Ha. pose proof (dwf_refs_len d Hwf).
  destruct (lookup_lt_is_Some_2 (ds_recent_refs_by_authority d) (N.to_nat a)) as [refs Hr]; [lia|].
  exists refs. split; [by apply vec_get_Ret|]. split; [done|].
  intros r. rewrite (dwf_refs d Hwf _ _ Hr r). by rewrite N2Nat.id.
Qed.

Lemma dag_lookup_recent d r i :
  cache_wf d → ds_recent_blocks d !! r = Some i → dag_lookup d r = Some (bi_block i).
Proof.
  intros Hwf Hr. destruct (dwf_recent d Hwf _ _ Hr) as (_ & _ & Hround & _).
  unfold dag_lookup. rewrite Hr. by rewrite (proj2 (N.eqb_neq _ _)) by (unfold GENESIS_ROUND; lia).
Qed.

Lemma dag_lookup_reference d r b : dag_wf d → dag_lookup d r = Some b → reference b = r.
Proof.
  intros Hwf. unfold dag_lookup. destruct (br_round r =? GENESIS_ROUND).
  - intros Hg. by apply (dwf_genesis d Hwf) in Hg as [? _].
  - destruct (ds_recent_blocks d !! r) as [i|] eqn:Hr; intros Hb; simplify_eq.
    + by apply (dwf_recent d Hwf) in Hr as [? _].
    + by apply (dwf_store d Hwf) in Hb as [? _].
Qed.

Lemma dag_lookup_cached d r b :
  dag_wf d → dag_lookup d r = Some b → dag_gc_round d < br_round r →
  ∃ i, ds_recent_blocks d !! r = Some i ∧ bi_block i = b.
Proof.
  intros Hwf Hb Hgc. unfold dag_lookup in Hb.
  rewrite (proj2 (N.eqb_neq _ _)) in Hb by (unfold GENESIS_ROUND; lia).
  destruct (ds_recent_blocks d !! r) as [i|] eqn:Hr; simplify_eq; [eauto|].
  destruct (dwf_above_gc d Hwf _ _ Hb Hgc). congruence.
Qed.

(** The existence check is the lookup: its shortcut through the cache is sound. *)
Lemma contains_slot_lookup d r :
  dag_wf d → is_valid_index (dag_committee d) (br_author r) = true →
  ∃ s, contains_slot d r = Ret s ∧
    match s with
    | inl a => a = bool_decide (is_Some (dag_lookup d r))
    | inr r' => r' = r ∧ bool_decide (is_Some (sv_blocks (ds_store d) !! r))
                         = bool_decide (is_Some (dag_lookup d r))
    end.
Proof.
  intros Hwf Ha. destruct (recent_refs_at d _ Hwf Ha) as (refs & Hget & _ & Hrefs).
  unfold contains_slot. rewrite Hget. simpl.
  destruct (ds_recent_blocks d !! r) as [i|] eqn:Hr.
  { rewrite bool_decide_eq_true_2 by (apply Hrefs; naive_solver). simpl.
    eexists. split; [done|]. simpl. by rewrite (dag_lookup_recent d r i Hwf Hr). }
  rewrite bool_decide_eq_false_2 by (rewrite Hrefs, Hr; intros [[? ?] _]; done). simpl.
  destruct (ds_genesis d !! r) as [b|] eqn:Hg.
  { eexists. split; [done|]. simpl. destruct (dwf_genesis d Hwf _ _ Hg) as [_ Hz].
    unfold dag_lookup. by rewrite Hz, Hg. }
  simpl.
  assert (dag_lookup d r = sv_blocks (ds_store d) !! r) as Hlk.
  { unfold dag_lookup. destruct (N.eqb_spec (br_round r) GENESIS_ROUND) as [Hz|Hz].
    - rewrite Hg. destruct (sv_blocks (ds_store d) !! r) eqn:Hs; [|done].
      apply (dwf_store d Hwf) in Hs as (_ & ? & _). unfold GENESIS_ROUND in *. lia.
    - by rewrite Hr. }
  rewrite Hlk.
  destruct (refs_last refs) as [l|] eqn:Hl.
  - destruct (N.ltb_spec (br_round l) (br_round r)) as [Hlt|Hge]; [|by eexists].
    eexists. split; [done|]. simpl. symmetry. apply bool_decide_eq_false. intros [b Hs].
    destruct (dwf_last d Hwf _ _ Hs) as (r' & Hr' & Ha' & Hle).
    destruct (refs_last_Some _ _ Hl) as [_ Hmax].
    specialize (Hmax r'). rewrite Hrefs in Hmax. specialize (Hmax (conj Hr' Ha')).
    apply BlockRef_leb_round in Hmax. lia.
  - eexists. split; [done|]. simpl. symmetry. apply bool_decide_eq_false. intros [b Hs].
    destruct (dwf_last d Hwf _ _ Hs) as (r' & Hr' & Ha' & Hle).
    apply refs_last_None in Hl. assert (r' ∈ refs) by by apply Hrefs. set_solver.
Qed.

Lemma contains_blocks_lookup d refs :
  dag_wf d → Forall (λ r, is_valid_index (dag_committee d) (br_author r) = true) refs →
  contains_blocks d refs = Ret ((λ r, bool_decide (is_Some (dag_lookup d r))) <$> refs).
Proof.
  intros Hwf Hall. unfold contains_blocks.
  assert (∃ slots, mapM (contains_slot d) refs = Ret slots ∧
    (λ s, match s with inl a => a
          | inr r => bool_decide (is_Some (sv_blocks (ds_store d) !! r)) end) <$> slots
      = (λ r, bool_decide (is_Some (dag_lookup d r))) <$> refs) as (slots & -> & Hslots).
  { induction Hall as [|r refs Hr Hall IH]; [by exists []|].
    destruct IH as (slots & Hm & IH). destruct (contains_slot_lookup d r Hwf Hr) as (s & Hs & Hval).
    exists (s :: slots). cbn [mapM]. rewrite Hs. cbn. rewrite Hm. split; [done|].
    rewrite IH. f_equal. destruct s; naive_solver. }
  simpl.
  pose proof (fill_missing_fmap false
    (λ r, bool_decide (is_Some (sv_blocks (ds_store d) !! r))) slots) as Hfill.
  cbv beta in Hfill. rewrite Hslots in Hfill.
  destruct (missing_refs slots) as [|r l]; [by f_equal|].
  rewrite (sv_contains_blocks (ds_store d)). cbn [mbind outcome_bind]. by rewrite Hfill.
Qed.

Lemma contains_block_lookup d r :
  dag_wf d → is_valid_index (dag_committee d) (br_author r) = true →
  contains_block d r = Ret (bool_decide (is_Some (dag_lookup d r))).
Proof. intros Hwf Hr. unfold contains_block. by rewrite contains_blocks_lookup by auto. Qed.

Lemma get_last_block_Ret d a :
  cache_wf d → is_valid_index (dag_committee d) a = true →
  ∃ b, get_last_block_for_authority d a = Ret b ∧ vb_author b = a ∧
       dag_lookup d (reference b) = Some b.
Proof.
  intros Hwf Ha. destruct (recent_refs_at d a Hwf Ha) as (refs & Hget & _ & Hrefs).
  unfold get_last_block_for_authority. rewrite Hget. simpl.
  destruct (refs_last refs) as [l|] eqn:Hl.
  - apply refs_last_Some in Hl as [Hin _]. apply Hrefs in Hin as [[i Hi] Hla].
    rewrite Hi. simpl. exists (bi_block i). split; [done|].
    destruct (dwf_recent d Hwf _ _ Hi) as [Hr _]. rewrite Hr.
    split; [by rewrite <- reference_author, Hr|by apply dag_lookup_recent].
  - destruct (dwf_genesis_all d Hwf a Ha) as (r & [b Hb] & Hra).
    assert ((r, b) ∈ filter (λ kv : BlockRef * VerifiedBlock, br_author kv.1 = a)
              (map_iter BlockRef_leb (ds_genesis d))) as Hin.
    { apply list_elem_of_filter. split; [done|]. by apply elem_of_map_iter. }
    destruct (filter _ _) as [|[r' b'] l] eqn:Hf; [set_solver|]. simpl.
    assert ((r', b') ∈ (r', b') :: l) as Hin' by apply list_elem_of_here.
    rewrite <- Hf in Hin'. apply list_elem_of_filter in Hin' as [Hra' Hg%elem_of_map_iter].
    exists b'. split; [done|]. destruct (dwf_genesis d Hwf _ _ Hg) as [Hr' Hz].
    simpl in *. split; [by rewrite <- reference_author, Hr'|].
    unfold dag_lookup. by rewrite Hr', Hz.
Qed.

(** ** Accepting blocks *)

Lemma clock_add_block_Ret c t r :
  is_valid_index c (br_author r) = true → ∃ t' b, clock_add_block c t r = Ret (t', b).
Proof.
  intros Hr.
  assert (∀ s, ∃ s' b, agg_add QuorumThreshold s (br_author r) c = Ret (s', b)) as Hadd.
  { intros s. unfold agg_add, agg_insert. case_decide; simpl; [eauto|].
    rewrite Committee_stake_valid by done. simpl. eauto. }
  unfold clock_add_block. destruct (br_round r ?= clock_round t); [|by eauto|].
  - destruct (Hadd (clock_aggregator t)) as (s & b & ->). simpl. destruct b; eauto.
  - destruct (Hadd (agg_clear (clock_aggregator t))) as (s & b & ->). simpl. destruct b; eauto.
Qed.

(** The cache with one more block. *)
Definition cache_insert d (b : VerifiedBlock) (refs : gset BlockRef) : DagState S :=
  d <| ds_recent_blocks := <[reference b := BlockInfo_new b]> (ds_recent_blocks d) |>
    <| ds_recent_refs_by_authority :=
         <[N.to_nat (vb_author b) := {[reference b]} ∪ refs]> (ds_recent_refs_by_authority d) |>.

Lemma cache_insert_wf d b refs :
  cache_wf d → ref_bounded (reference b) → 0 < vb_round b →
  is_valid_index (dag_committee d) (vb_author b) = true →
  (∀ r, r ∈ refs ↔ is_Some (ds_recent_blocks d !! r) ∧ br_author r = vb_author b) →
  cache_wf (cache_insert d b refs).
Proof.
  intros Hwf Hb Hround Ha Hrefs. destruct Hwf as [Hc Hown Hrl Hel Hg Hga Hrec Hrf].
  split; simpl; try done.
  - by rewrite length_insert.
  - intros r i [[<- <-]|[Hne Hi]]%lookup_insert_Some; [done|by apply Hrec].
  - intros a refs' Hl r. rewrite lookup_insert_is_Some'.
    apply list_lookup_insert_Some in Hl as [(Hna & <- & Hlt)|[Hna Hl]].
    + rewrite elem_of_union, elem_of_singleton, Hrefs, <- Hna, N2Nat.id.
      split; [intros [->|?]; [by auto|tauto]|]. intros [[<-|?] ?]; tauto.
    + rewrite (Hrf _ _ Hl). split; [tauto|]. intros [[<-|?] Heq]; [|done].
      exfalso. apply Hna. rewrite reference_author in Heq. lia.
Qed.

Lemma update_block_metadata_spec d b :
  cache_wf d → ref_bounded (reference b) → 0 < vb_round b →
  is_valid_index (dag_committee d) (vb_author b) = true →
  ∃ refs t', (∀ r, r ∈ refs ↔ is_Some (ds_recent_blocks d !! r) ∧ br_author r = vb_author b) ∧
    ds_recent_refs_by_authority d !! N.to_nat (vb_author b) = Some refs ∧
    update_block_metadata d b
      = Ret ((cache_insert d b refs) <| ds_threshold_clock := t' |>
               <| ds_highest_accepted_round := N.max (ds_highest_accepted_round d) (vb_round b) |>).
Proof.
  intros Hwf Hb Hround Ha.
  destruct (recent_refs_at d _ Hwf Ha) as (refs & Hget & Hlk & Hrefs).
  pose proof (cache_insert_wf d b refs Hwf Hb Hround Ha Hrefs) as Hwf'.
  destruct (clock_add_block_Ret (dag_committee d) (ds_threshold_clock d) (reference b) Ha)
    as (t' & adv & Hclock).
  exists refs, t'. split; [done|]. split; [done|].
  unfold update_block_metadata. simpl.
  rewrite Hget. simpl. rewrite (vec_set_lookup _ _ _ _ Hlk). simpl.
  unfold dag_committee in Hclock |- *. simpl. rewrite Hclock. simpl.
  assert (∃ a, Committee_authority (committee (ds_context d)) (vb_author b) = Ret a) as [a Hauth].
  { unfold Committee_authority, vec_get. apply bool_decide_eq_true in Ha.
    unfold dag_committee, Committee_size in Ha.
    destruct (lookup_lt_is_Some_2 (committee_authorities (committee (ds_context d)))
      (N.to_nat (vb_author b))) as [x Hx]; [lia|]. rewrite Hx. by exists x. }
  rewrite Hauth. destruct adv; simpl; [|done].
  assert (cache_wf ((cache_insert d b refs) <| ds_threshold_clock := t' |>)) as Hwf''.
  { destruct Hwf'. split; done. }
  destruct (get_last_block_Ret _ (own_index (ds_context d)) Hwf'' (dwf_own d Hwf))
    as (b' & Hlast & _).
  unfold get_last_proposed_block, cache_insert in *. simpl in *. by rewrite Hlast.
Qed.

Lemma get_uncommitted_at_slot_nil d slot :
  cache_wf d →
  get_uncommitted_blocks_at_slot d slot = [] ↔
  ∀ r, Slot_from r = slot → ds_recent_blocks d !! r = None.
Proof.
  intros Hwf. unfold get_uncommitted_blocks_at_slot. split.
  - intros Hnil%fmap_nil_inv r Hr. destruct (ds_recent_blocks d !! r) as [i|] eqn:Hi; [|done].
    exfalso. assert ((r, i) ∈ []) as Hin; [|set_solver]. rewrite <- Hnil.
    apply list_elem_of_filter. split; [|by apply elem_of_map_iter]. apply Is_true_true. simpl.
    destruct (dwf_recent d Hwf _ _ Hi) as (_ & (_ & _ & Hd) & _).
    unfold in_range. rewrite andb_true_iff, !BlockRef_leb_iff. subst slot. unfold Slot_from, Digest_MIN. simpl. lia.
  - intros Hnone. destruct (filter _ _) as [|[r i] l] eqn:Hf; [done|]. exfalso.
    assert ((r, i) ∈ (r, i) :: l) as Hin by apply list_elem_of_here.
    rewrite <- Hf in Hin. apply list_elem_of_filter in Hin as [Hrange Hi%elem_of_map_iter].
    apply Is_true_true in Hrange. simpl in Hrange.
    unfold in_range in Hrange. rewrite andb_true_iff, !BlockRef_leb_iff in Hrange. simpl in Hrange.
    rewrite Hnone in Hi; [done|]. destruct slot, r; unfold Slot_from; simpl in *. f_equal; lia.
Qed.

(** A new block of an author whose slot is free locally: own blocks must not
    equivocate, other authors' may. *)
Definition slot_free d (b : VerifiedBlock) : Prop :=
  vb_author b = own_index (ds_context d) →
  ∀ r, Slot_from r = Slot_from (reference b) → ds_recent_blocks d !! r = None.

(** [d'] is [d] with the new block cached and queued for writing. *)
Record accepted d (b : VerifiedBlock) d' : Prop := {
  acc_context : ds_context d' = ds_context d;
  acc_genesis : ds_genesis d' = ds_genesis d;
  acc_recent : ds_recent_blocks d' = <[reference b := BlockInfo_new b]> (ds_recent_blocks d);
  acc_to_write : ds_blocks_to_write d' = ds_blocks_to_write d ++ [b];
  acc_store : ds_store d' = ds_store d;
  acc_cached : ds_cached_rounds d' = ds_cached_rounds d;
  acc_last_commit : ds_last_commit d' = ds_last_commit d;
}.

Lemma accepted_lookup d b d' r :
  0 < vb_round b → accepted d b d' →
  dag_lookup d' r = if decide (r = reference b) then Some b else dag_lookup d r.
Proof.
  intros Hr [_ Hg Hrec _ Hst _ _]. unfold dag_lookup. rewrite Hg, Hrec, Hst.
  case_decide as Hd; [subst r; rewrite lookup_insert_eq|by rewrite lookup_insert_ne].
  by rewrite (proj2 (N.eqb_neq _ _)) by (simpl; unfold GENESIS_ROUND; lia).
Qed.

Lemma dag_lookup_None_store d r :
  dag_wf d → dag_lookup d r = None →
  ds_recent_blocks d !! r = None ∧ sv_blocks (ds_store d) !! r = None.
Proof.
  intros Hwf Hn. destruct (ds_recent_blocks d !! r) as [i|] eqn:Hi.
  { rewrite (dag_lookup_recent d r i Hwf Hi) in Hn. done. }
  split; [done|]. destruct (sv_blocks (ds_store d) !! r) as [b|] eqn:Hs; [|done].
  destruct (dwf_store d Hwf _ _ Hs) as (_ & Hr & _).
  unfold dag_lookup in Hn. rewrite (proj2 (N.eqb_neq _ _)) in Hn by (unfold GENESIS_ROUND; lia).
  rewrite Hi in Hn. congruence.
Qed.

Lemma accepted_wf d b d' :
  dag_wf d → cache_wf d' → accepted d b d' → dag_lookup d (reference b) = None →
  dag_gc_round d' = dag_gc_round d → dag_wf d'.
Proof.
  intros Hwf Hc [Hctx Hg Hrec Htw Hst Hcr _] Hnone Hgc.
  destruct (dag_lookup_None_store d _ Hwf Hnone) as [Hn1 Hn2].
  assert (dag_committee d' = dag_committee d) as Hcom by (unfold dag_committee; by rewrite Hctx).
  split; rewrite ?Hcr, ?Hst, ?Hgc, ?Hcom; try done; try apply Hwf.
  - intros r i. rewrite Hrec, Htw. intros [[<- <-]|[_ Hi]]%lookup_insert_Some.
    + left. set_solver.
    + apply (dwf_written d Hwf) in Hi. set_solver.
  - intros b'. rewrite Htw, Hrec, elem_of_app, list_elem_of_singleton. intros [Hb| ->].
    + destruct (dwf_to_write d Hwf b' Hb) as (i & Hi & <-). exists i. split; [|done].
      rewrite lookup_insert_ne; [done|]. intros Heq. congruence.
    + rewrite lookup_insert_eq. by eexists.
  - intros r i b'. rewrite Hrec. intros [[<- <-]|[_ Hi]]%lookup_insert_Some; [congruence|].
    by apply (dwf_agree d Hwf).
  - intros r b' Hb'. destruct (dwf_last d Hwf _ _ Hb') as (r' & Hr' & ?). exists r'.
    rewrite Hrec, lookup_insert_is_Some'. auto.
  - intros r b' Hb' Hlt. rewrite Hrec, lookup_insert_is_Some'. right.
    by apply (dwf_above_gc d Hwf _ _ Hb').
Qed.

Lemma accept_block_contained d b b0 :
  dag_wf d → 0 < vb_round b → is_valid_index (dag_committee d) (vb_author b) = true →
  dag_lookup d (reference b) = Some b0 → accept_block d b = Ret d.
Proof.
  intros Hwf Hr Ha Hlk. unfold accept_block.
  rewrite (proj2 (N.eqb_neq (vb_round b) 0)) by lia. simpl.
  rewrite contains_block_lookup, Hlk by done. done.
Qed.

Lemma accept_block_new d b :
  dag_wf d → ref_bounded (reference b) → 0 < vb_round b →
  is_valid_index (dag_committee d) (vb_author b) = true →
  dag_lookup d (reference b) = None →
  (slot_free d b → ∃ d', accept_block d b = Ret d' ∧ accepted d b d' ∧ dag_wf d') ∧
  (¬ slot_free d b → accept_block d b = Panic).
Proof.
  intros Hwf Hb Hr Ha Hlk.
  destruct (update_block_metadata_spec d b Hwf Hb Hr Ha) as (refs & t' & Hrefs & Hl & Hupd).
  unfold accept_block. rewrite (proj2 (N.eqb_neq (vb_round b) 0)) by lia. simpl.
  rewrite contains_block_lookup, Hlk by done. simpl.
  assert (∃ a, Committee_authority (dag_committee d) (vb_author b) = Ret a) as [a ->].
  { pose proof (Committee_stake_valid (dag_committee d) (vb_author b) Ha) as Hst.
    unfold Committee_stake in Hst. destruct (Committee_authority _ _); [eauto|done]. }
  simpl.
  pose proof (get_uncommitted_at_slot_nil d (Slot_from (reference b)) Hwf) as Hnil.
  split.
  - intros Hfree. unfold assert_that.
    assert (negb (vb_author b =? own_index (ds_context d))
      || bool_decide (get_uncommitted_blocks_at_slot d (Slot_from (reference b)) = []) = true) as ->.
    { destruct (N.eqb_spec (vb_author b) (own_index (ds_context d))); [|done]. simpl.
      apply bool_decide_eq_true, Hnil. intros r. by apply Hfree. }
    simpl. rewrite Hupd. simpl. eexists. split; [done|].
    match goal with |- accepted d b ?x ∧ _ => set (d' := x) end.
    assert (accepted d b d') as Hacc by by split.
    split; [done|]. apply (accepted_wf d b d'); try done.
    pose proof (cache_insert_wf d b refs Hwf Hb Hr Ha Hrefs) as [ ]. split; done.
  - intros Hnf. unfold slot_free in Hnf.
    destruct (N.eqb_spec (vb_author b) (own_index (ds_context d))) as [He|He]; [|tauto]. simpl.
    rewrite bool_decide_eq_false_2; [done|]. rewrite Hnil. tauto.
Qed.

(** ** Marks and commits *)

Lemma accept_block_accepted d b d' :
  dag_wf d → ref_bounded (reference b) → 0 < vb_round b →
  is_valid_index (dag_committee d) (vb_author b) = true →
  dag_lookup d (reference b) = None → accept_block d b = Ret d' →
  accepted d b d' ∧ dag_wf d'.
Proof.
  intros Hwf Hb Hr Ha Hlk Hacc. destruct (accept_block_new d b Hwf Hb Hr Ha Hlk) as [Hok Hno].
  destruct (decide (vb_author b = own_index (ds_context d) ∧
    get_uncommitted_blocks_at_slot d (Slot_from (reference b)) ≠ [])) as [[Hown Hne]|Hfree].
  - rewrite Hno in Hacc; [done|]. intros Hf. apply Hne.
    apply get_uncommitted_at_slot_nil; [apply Hwf|]. by apply Hf.
  - destruct Hok as (d1 & Hd1 & Haccd & Hwf1).
    { intros Hown. apply get_uncommitted_at_slot_nil; [apply Hwf|].
      destruct (get_uncommitted_blocks_at_slot _ _); [done|]. exfalso. by apply Hfree. }
    assert (d1 = d') as -> by congruence. done.
Qed.

(** Operations that change only marks, commits and buffers of commits. *)
Lemma dag_wf_frame d d' :
  dag_wf d → ds_context d' = ds_context d → ds_genesis d' = ds_genesis d →
  (∀ r, bi_block <$> ds_recent_blocks d' !! r = bi_block <$> ds_recent_blocks d !! r) →
  ds_recent_refs_by_authority d' = ds_recent_refs_by_authority d →
  ds_evicted_rounds d' = ds_evicted_rounds d → ds_blocks_to_write d' = ds_blocks_to_write d →
  ds_store d' = ds_store d → ds_cached_rounds d' = ds_cached_rounds d →
  dag_gc_round d ≤ dag_gc_round d' →
  dag_wf d' ∧ ∀ r, dag_lookup d' r = dag_lookup d r.
Proof.
  intros Hwf Hctx Hg Hrec Hrefs Hev Htw Hst Hcr Hgc.
  assert (∀ r i, ds_recent_blocks d' !! r = Some i →
    ∃ j, ds_recent_blocks d !! r = Some j ∧ bi_block j = bi_block i) as Hr1.
  { intros r i Hi. specialize (Hrec r). rewrite Hi in Hrec. simpl in Hrec.
    destruct (ds_recent_blocks d !! r); naive_solver. }
  assert (∀ r, is_Some (ds_recent_blocks d' !! r) ↔ is_Some (ds_recent_blocks d !! r)) as Hr2.
  { intros r. specialize (Hrec r). destruct (ds_recent_blocks d' !! r),
      (ds_recent_blocks d !! r); try done; naive_solver. }
  split.
  - destruct Hwf as [[Hc Ho Hl1 Hl2 Hg1 Hg2 Hre Hrf] Hca Hs Hw Htw' Ha Hla Habove].
    unfold dag_committee in *.
    split; [split|..]; unfold dag_committee in *;
      rewrite ?Hctx, ?Hg, ?Hrefs, ?Hev, ?Htw, ?Hst, ?Hcr in *; try done.
    + intros r i (j & Hj & <-)%Hr1. by apply Hre.
    + intros a refs Hl r. rewrite Hr2. by apply Hrf.
    + intros r i (j & Hj & <-)%Hr1. by apply Hw.
    + intros b (i & Hi & Hb)%Htw'. specialize (Hrec (reference b)). rewrite Hi in Hrec.
      destruct (ds_recent_blocks d' !! reference b) as [j|]; [|done].
      exists j. split; [done|]. simpl in Hrec. congruence.
    + intros r i b (j & Hj & <-)%Hr1. by apply Ha.
    + intros r b (r' & Hr' & ?)%Hla. exists r'. by rewrite Hr2.
    + intros r b Hb Hlt. rewrite Hr2. apply (Habove r b Hb). lia.
  - intros r. unfold dag_lookup. rewrite Hg, Hst. specialize (Hrec r).
    destruct (ds_recent_blocks d' !! r), (ds_recent_blocks d !! r); simpl in Hrec; try done.
    by rewrite Hrec.
Qed.

Lemma set_committed_spec d r i :
  dag_wf d → ds_recent_blocks d !! r = Some i →
  ∃ d', set_committed d r = Ret (d', negb (bi_committed i)) ∧ dag_wf d' ∧
    (∀ r', dag_lookup d' r' = dag_lookup d r') ∧
    ds_recent_blocks d' = <[r := mkBlockInfo (bi_block i) true (bi_hard_linked i)]> (ds_recent_blocks d) ∧
    ds_last_commit d' = ds_last_commit d ∧ ds_context d' = ds_context d ∧ ds_store d' = ds_store d.
Proof.
  intros Hwf Hi. unfold set_committed. rewrite Hi. simpl.
  destruct (bi_committed i) eqn:Hc.
  - exists d. do 3 (split; [done|]). split; [|done]. symmetry. apply insert_id.
    rewrite Hi. destruct i; simpl in *; by subst.
  - eexists. split; [done|].
    match goal with |- dag_wf ?x ∧ _ => set (d' := x) end.
    destruct (dag_wf_frame d d' Hwf) as [Hwf' Hlk]; try done.
    intros r'. unfold d'. simpl. destruct (decide (r = r')) as [<-|Hne].
    + by rewrite lookup_insert_eq, Hi.
    + by rewrite lookup_insert_ne.
Qed.

(** Rejecting stale commits, then requiring the next index and a timestamp that does
    not go back. *)
Lemma add_commit_spec d c d' :
  dag_wf d → last_commit_round d ≤ tc_round c → add_commit d c = Ret d' →
  dag_wf d' ∧ (∀ r, dag_lookup d' r = dag_lookup d r) ∧
  ds_recent_blocks d' = ds_recent_blocks d ∧
  (tc_index c ≤ last_commit_index d ∧ ds_last_commit d ≠ None ∧ d' = d ∨
   ds_last_commit d' = Some c ∧
   ds_commits_to_write d' = ds_commits_to_write d ++ [c] ∧
   ds_pending_commit_votes d' = ds_pending_commit_votes d ++ [tc_reference c] ∧
   tc_index c = u32_add (last_commit_index d) 1 ∧
   last_commit_timestamp_ms d ≤ tc_timestamp_ms c).
Proof.
  intros Hwf Hround Hadd. unfold add_commit in Hadd.
  unfold last_commit_index, last_commit_timestamp_ms.
  destruct (ds_last_commit d) as [last|] eqn:Hl.
  - destruct (N.leb_spec (tc_index c) (tc_index last)) as [Hle|Hgt].
    { simplify_eq/=. split; [done|]. split; [done|]. split; [done|]. left. naive_solver. }
    outcome_inv.
    match goal with |- dag_wf ?x ∧ _ => set (d' := x) end.
    destruct (dag_wf_frame d d' Hwf) as [Hwf' Hlk]; try done.
    { unfold dag_gc_round, calculate_gc_round, saturating_sub, last_commit_round in *.
      unfold d'. simpl. rewrite Hl in *. unfold tc_round in Hround. lia. }
    do 3 (split; [done|]). right. repeat split; try done; lia.
  - outcome_inv.
    match goal with |- dag_wf ?x ∧ _ => set (d' := x) end.
    destruct (dag_wf_frame d d' Hwf) as [Hwf' Hlk]; try done.
    { unfold dag_gc_round, calculate_gc_round, saturating_sub, last_commit_round in *.
      unfold d'. simpl. rewrite Hl in *. unfold tc_round in Hround. lia. }
    do 3 (split; [done|]). right. repeat split; try done; try lia.
    unfold u32_add. vm_compute (_ mod _). lia.
Qed.

(** ** Flushing *)

Lemma insert_blocks_Some (m : gmap BlockRef VerifiedBlock) bs r b :
  insert_blocks m bs !! r = Some b →
  b ∈ bs ∧ reference b = r ∨ m !! r = Some b ∧ ∀ b', b' ∈ bs → reference b' ≠ r.
Proof.
  induction bs as [|b' bs IH] using rev_ind; [set_solver|].
  unfold insert_blocks in *. rewrite foldl_app. simpl.
  intros [[<- <-]|[Hne Hb]]%lookup_insert_Some; [set_solver|].
  destruct (IH Hb) as [[? ?]|[? ?]]; [set_solver|]. right. set_solver.
Qed.

Lemma insert_blocks_elem (m : gmap BlockRef VerifiedBlock) bs r :
  (∃ b, b ∈ bs ∧ reference b = r) ∨ is_Some (m !! r) → is_Some (insert_blocks m bs !! r).
Proof.
  induction bs as [|b' bs IH] using rev_ind; [set_solver|].
  unfold insert_blocks in *. rewrite foldl_app. simpl. rewrite lookup_insert_is_Some'.
  intros [(b & Hb & Hr)|Hm]; [|tauto].
  apply elem_of_app in Hb as [Hb| ->%list_elem_of_singleton]; [|tauto]. right. apply IH. eauto.
Qed.

Lemma take_while_sorted (e : N) l r :
  StronglySorted BlockRef_leb l →
  r ∈ take_while (λ r, br_round r <=? e) l ↔ r ∈ l ∧ br_round r ≤ e.
Proof.
  induction 1 as [|x l Hl IH Hx]; simpl; [set_solver|].
  destruct (N.leb_spec (br_round x) e) as [Hle|Hgt]; rewrite ?elem_of_cons.
  - rewrite IH. naive_solver.
  - split; [set_solver|]. rewrite Forall_forall in Hx. intros [[->|Hr] Hre]; [lia|].
    apply Hx, Is_true_true, BlockRef_leb_round in Hr. lia.
Qed.

Lemma foldl_delete {V} (m : gmap BlockRef V) l r :
  foldl (λ m r, delete r m) m l !! r = if decide (r ∈ l) then None else m !! r.
Proof.
  revert m. induction l as [|x l IH]; intros m; simpl; [done|].
  rewrite IH. repeat case_decide; try done; try set_solver.
  - assert (r = x) as -> by set_solver. by rewrite lookup_delete_eq.
  - rewrite lookup_delete_ne; [done|set_solver].
Qed.

(** Everything cached is in the store. *)
Definition persisted d : Prop :=
  ds_blocks_to_write d = [] ∧ dag_wf d.

(** [d'] keeps the cache of [d] except what [dropped] selects. *)
Record evicts (dropped : BlockRef → Prop) d d' : Prop := {
  ev_context : ds_context d' = ds_context d;
  ev_genesis : ds_genesis d' = ds_genesis d;
  ev_store : ds_store d' = ds_store d;
  ev_last_commit : ds_last_commit d' = ds_last_commit d;
  ev_kept : ∀ r i, ds_recent_blocks d' !! r = Some i → ds_recent_blocks d !! r = Some i;
  ev_dropped : ∀ r i, ds_recent_blocks d !! r = Some i →
    ds_recent_blocks d' !! r = Some i ∨ dropped r;
}.

Lemma evict_authority_spec d a :
  persisted d → is_valid_index (dag_committee d) a = true →
  ∃ d', evict_authority d a = Ret d' ∧ persisted d' ∧
    evicts (λ r, br_round r ≤ dag_gc_round d) d d'.
Proof.
  intros [Htw Hwf] Ha.
  destruct (recent_refs_at d a Hwf Ha) as (refs & Hget & Hlk & Hrefs).
  unfold evict_authority, calculate_authority_eviction_round. rewrite Hget. simpl.
  set (e := eviction_round _ _ _).
  set (ev := take_while _ _).
  assert (∀ r, r ∈ ev ↔ r ∈ refs ∧ br_round r ≤ e) as Hev.
  { intros r. unfold ev. rewrite take_while_sorted by apply set_iter_sorted.
    by rewrite elem_of_set_iter. }
  rewrite (vec_set_lookup _ _ _ _ Hlk). simpl.
  destruct (lookup_lt_is_Some_2 (ds_evicted_rounds d) (N.to_nat a)) as [e0 He0].
  { pose proof (dwf_evicted_len d Hwf). apply bool_decide_eq_true in Ha. lia. }
  rewrite (vec_set_lookup _ _ _ _ He0). simpl. eexists. split; [done|].
  match goal with |- persisted ?x ∧ _ => set (d' := x) end.
  assert (e ≤ dag_gc_round d) as Hgc by (unfold e, eviction_round; lia).
  assert (∀ r, ds_recent_blocks d' !! r
               = if decide (r ∈ ev) then None else ds_recent_blocks d !! r) as Hrec
    by (intros r; unfold d'; simpl; apply foldl_delete).
  assert (∀ r i, ds_recent_blocks d' !! r = Some i → ds_recent_blocks d !! r = Some i) as Hsub
    by (intros r i; rewrite Hrec; case_decide; naive_solver).
  split; [split; [done|]|].
  2: { split; try done. intros r i Hi. rewrite Hrec. case_decide as Hin; [right|by left].
       apply Hev in Hin. lia. }
  destruct Hwf as [[Hc Ho Hl1 Hl2 Hg1 Hg2 Hre Hrf] Hca Hs Hw Htw' Hag Hla Habove].
  split; [split|..]; try done.
  - unfold d'. simpl. by rewrite length_insert.
  - unfold d'. simpl. by rewrite length_insert.
  - intros r i Hi%Hsub. by apply Hre.
  - intros a' refs' Hl r. rewrite Hrec. unfold d' in Hl. simpl in Hl.
    apply list_lookup_insert_Some in Hl as [(<- & <- & _)|[Hne Hl]].
    + rewrite elem_of_difference, elem_of_list_to_set, Hrefs, N2Nat.id.
      case_decide; [|tauto]. split; [tauto|]. intros [[? ?] _]. done.
    + rewrite (Hrf _ _ Hl). case_decide as Hin; [|done].
      apply Hev in Hin as [Hin _]. apply Hrefs in Hin as [_ <-].
      split; [intros [_ Heq]; exfalso; apply Hne; lia|intros [[? ?] _]; done].
  - intros r i Hi%Hsub. by apply Hw.
  - intros b Hb. exfalso. change (b ∈ ds_blocks_to_write d) in Hb. rewrite Htw in Hb. set_solver.
  - intros r i b Hi%Hsub. by apply Hag.
  - intros r b Hb. destruct (Hla _ _ Hb) as (r' & Hr' & Har' & Hle).
    destruct (decide (br_author r' = a)) as [Hra|Hra].
    + destruct (refs_last_is_Some refs r') as (l & Hl & Hlin & Hll); [by apply Hrefs|].
      apply Hrefs in Hlin as [Hlin Hla']. exists l. rewrite Hrec.
      apply BlockRef_leb_round in Hll. rewrite decide_False; [split; [done|split; [congruence|lia]]|].
      rewrite Hev. intros [_ Hle']. unfold e, eviction_round, saturating_sub in Hle'.
      rewrite Hl in Hle'. simpl in Hle'. destruct Hlin as [i Hi].
      destruct (Hre _ _ Hi) as (_ & _ & ? & _). lia.
    + exists r'. rewrite Hrec, decide_False; [done|]. rewrite Hev, Hrefs. tauto.
  - intros r b Hb Hlt. change (dag_gc_round d < br_round r) in Hlt.
    rewrite Hrec, decide_False; [by eapply Habove|]. rewrite Hev. lia.
Qed.

Lemma persisted_lookup dropped d d' r :
  persisted d → evicts dropped d d' → dag_lookup d' r = dag_lookup d r.
Proof.
  intros [Htw Hwf] [_ Hg Hst _ Hsub _]. unfold dag_lookup. rewrite Hg, Hst.
  destruct (br_round r =? GENESIS_ROUND); [done|].
  destruct (ds_recent_blocks d' !! r) as [i|] eqn:Hi; [by rewrite (Hsub _ _ Hi)|].
  destruct (ds_recent_blocks d !! r) as [i|] eqn:Hi'; [|done].
  destruct (dwf_written d Hwf _ _ Hi') as [Hin|Hin]; [|done].
  rewrite Htw in Hin. set_solver.
Qed.

Lemma evict_all_spec d (l : list (N * Authority)) :
  persisted d → Forall (λ e, is_valid_index (dag_committee d) e.1 = true) l →
  ∃ d', foldM (λ d e, evict_authority d e.1) d l = Ret d' ∧ persisted d' ∧
    evicts (λ r, br_round r ≤ dag_gc_round d) d d'.
Proof.
  intros Hp Hall. revert d Hp Hall. induction l as [|e l IH]; intros d Hp Hall; simpl.
  { exists d. split; [done|]. split; [done|]. split; naive_solver. }
  apply Forall_cons in Hall as [He Hall].
  destruct (evict_authority_spec d e.1 Hp He) as (d1 & -> & Hp1 & Hev1). simpl.
  destruct (IH d1 Hp1) as (d2 & -> & Hp2 & Hev2).
  { unfold dag_committee in *. by rewrite (ev_context _ _ _ Hev1). }
  exists d2. split; [done|]. split; [done|].
  assert (dag_gc_round d1 = dag_gc_round d) as Hgc.
  { unfold dag_gc_round, calculate_gc_round, last_commit_round.
    by rewrite (ev_context _ _ _ Hev1), (ev_last_commit _ _ _ Hev1). }
  rewrite Hgc in Hev2. destruct Hev1, Hev2. split; try congruence.
  - intros r i Hi. auto.
  - intros r i Hi. destruct (ev_dropped0 _ _ Hi) as [Hi'|?]; [|by right]. auto.
Qed.

Lemma Committee_enumerate_valid c : Forall (λ e, is_valid_index c e.1 = true) (Committee_enumerate c).
Proof.
  unfold Committee_enumerate. apply Forall_forall. intros [i a] Hin.
  apply elem_of_lookup_imap in Hin as (n & x & [= -> ->] & Hx).
  apply lookup_lt_Some in Hx. apply bool_decide_eq_true. unfold Committee_size. simpl. lia.
Qed.

(** The state right after the write of the buffered blocks. *)
Lemma written_persisted d d' :
  dag_wf d → ds_context d' = ds_context d → ds_genesis d' = ds_genesis d →
  ds_recent_blocks d' = ds_recent_blocks d →
  ds_recent_refs_by_authority d' = ds_recent_refs_by_authority d →
  ds_evicted_rounds d' = ds_evicted_rounds d → ds_blocks_to_write d' = [] →
  ds_cached_rounds d' = ds_cached_rounds d → ds_last_commit d' = ds_last_commit d →
  sv_blocks (ds_store d') = insert_blocks (sv_blocks (ds_store d)) (ds_blocks_to_write d) →
  persisted d' ∧ ∀ r, dag_lookup d' r = dag_lookup d r.
Proof.
  intros Hwf Hctx Hg Hrec Hrefs Hev Htw Hcr Hlc Hst.
  assert (dag_gc_round d' = dag_gc_round d) as Hgc
    by (unfold dag_gc_round, calculate_gc_round, last_commit_round; by rewrite Hctx, Hlc).
  assert (∀ r b, sv_blocks (ds_store d') !! r = Some b →
    (∃ i, ds_recent_blocks d !! r = Some i ∧ bi_block i = b) ∨
    ds_recent_blocks d !! r = None ∧ sv_blocks (ds_store d) !! r = Some b) as Hold.
  { intros r b. rewrite Hst. intros [[Hb <-]|[Hb _]]%insert_blocks_Some.
    - left. by apply (dwf_to_write d Hwf).
    - destruct (ds_recent_blocks d !! r) as [i|] eqn:Hi; [|auto].
      left. exists i. split; [done|]. symmetry. by eapply (dwf_agree d Hwf). }
  assert (∀ r i, ds_recent_blocks d !! r = Some i →
            sv_blocks (ds_store d') !! r = Some (bi_block i)) as Hnew.
  { intros r i Hi. destruct (insert_blocks_elem (sv_blocks (ds_store d)) (ds_blocks_to_write d) r)
      as [b Hb].
    - destruct (dwf_written d Hwf _ _ Hi) as [Hin|Hs]; [left|right; eauto].
      exists (bi_block i). split; [done|]. by apply (dwf_recent d Hwf) in Hi as [? _].
    - rewrite <- Hst in Hb. destruct (Hold r b Hb) as [(j & Hj & <-)|[Hn _]]; congruence. }
  split.
  - split; [done|]. destruct Hwf as [[Hc Ho Hl1 Hl2 Hg1 Hg2 Hre Hrf] Hca Hs Hw Htw' Hag Hla Habove].
    split; [split|..]; unfold dag_committee in *;
      rewrite ?Hctx, ?Hg, ?Hrefs, ?Hev, ?Hcr, ?Hgc, ?Hrec in *; try done.
    + intros r b [(i & Hi & <-)|[_ Hb]]%Hold; [|by apply Hs].
      destruct (Hre _ _ Hi) as (? & _ & ? & ?). done.
    + intros r i Hi. right. by apply Hnew.
    + intros b Hb. rewrite Htw in Hb. set_solver.
    + intros r i b Hi Hb. rewrite (Hnew _ _ Hi) in Hb. congruence.
    + intros r b [(i & Hi & <-)|[_ Hb]]%Hold; [|by eapply Hla]. exists r. split; [eauto|]. lia.
    + intros r b [(i & Hi & <-)|[_ Hb]]%Hold Hlt; [eauto|by eapply Habove].
  - intros r. unfold dag_lookup. rewrite Hg, Hrec.
    destruct (N.eqb_spec (br_round r) GENESIS_ROUND); [done|].
    destruct (ds_recent_blocks d !! r) as [i|] eqn:Hi; [done|].
    destruct (sv_blocks (ds_store d') !! r) as [b|] eqn:Hb.
    + destruct (Hold _ _ Hb) as [(i & Hi' & _)|[_ ?]]; congruence.
    + destruct (sv_blocks (ds_store d) !! r) eqn:Hb'; [|done].
      destruct (insert_blocks_elem (sv_blocks (ds_store d)) (ds_blocks_to_write d) r) as [? ?];
        [eauto|]. congruence.
Qed.

Lemma flush_spec d :
  dag_wf d →
  ∃ d', flush d = Ret d' ∧ persisted d' ∧ (∀ r, dag_lookup d' r = dag_lookup d r) ∧
    dag_gc_round d' = dag_gc_round d ∧
    (∀ r i, ds_recent_blocks d !! r = Some i → dag_gc_round d < br_round r →
       ds_recent_blocks d' !! r = Some i) ∧
    sv_commits (ds_store d') = insert_commits (sv_commits (ds_store d)) (ds_commits_to_write d).
Proof.
  intros Hwf. unfold flush.
  set (batch := mkWriteBatch _ _ _ _).
  set (d0 := set ds_finalized_commits_to_write _ _).
  assert (
    ∃ d', (store ← store_write (ds_store d0) batch;
           foldM (λ d e, evict_authority d e.1) (d0 <| ds_store := store |>)
             (Committee_enumerate (dag_committee d0))) = Ret d' ∧
      persisted d' ∧ (∀ r, dag_lookup d' r = dag_lookup d r) ∧
      dag_gc_round d' = dag_gc_round d ∧
      (∀ r i, ds_recent_blocks d !! r = Some i → dag_gc_round d < br_round r →
         ds_recent_blocks d' !! r = Some i) ∧
      sv_commits (ds_store d') = insert_commits (sv_commits (ds_store d)) (ds_commits_to_write d))
    as Hgo.
  { destruct (sv_write (ds_store d) batch) as (s' & Hs' & Hbl & Hcm).
    unfold d0 at 1. simpl. rewrite Hs'. simpl.
    set (d1 := mkDagState _ _ _ _ _ _ _ _ _ _ _ _ _ _ _ _ _).
    destruct (written_persisted d d1 Hwf) as [Hp Hlk]; try done.
    destruct (evict_all_spec d1 (Committee_enumerate (dag_committee d1)) Hp)
      as (d2 & Hd2 & Hp2 & Hev); [apply Committee_enumerate_valid|].
    exists d2. split; [exact Hd2|]. split; [done|].
    split; [intros r; by rewrite (persisted_lookup _ _ _ r Hp Hev)|].
    assert (dag_gc_round d2 = dag_gc_round d) as Hgc.
    { unfold dag_gc_round, calculate_gc_round, last_commit_round.
      by rewrite (ev_context _ _ _ Hev), (ev_last_commit _ _ _ Hev). }
    split; [done|]. split; [|by rewrite (ev_store _ _ _ Hev)].
    intros r i Hi Hlt. destruct (ev_dropped _ _ _ Hev r i Hi) as [?|Hle]; [done|].
    change (br_round r ≤ dag_gc_round d) in Hle. lia. }
  destruct (ds_blocks_to_write d) as [|? ?] eqn:E1; [|exact Hgo].
  destruct (ds_commits_to_write d) as [|? ?] eqn:E2; [|exact Hgo].
  destruct (ds_commit_info_to_write d) as [|? ?] eqn:E3; [|exact Hgo].
  destruct (ds_finalized_commits_to_write d) as [|? ?] eqn:E4; [|exact Hgo].
  exists d0. split; [done|].
  destruct (dag_wf_frame d d0 Hwf) as [Hwf' Hlk]; try done.
Qed.
End Invariant.

(** * Causal history *)

(** A universe of blocks: what lookups by reference return. *)
Abbreviation universe := (BlockRef → option VerifiedBlock).

(** One step back in the causal history. *)
Definition parent (U : universe) (r r' : BlockRef) : Prop :=
  ∃ b, U r = Some b ∧ r' ∈ vb_ancestors b.

(** Blocks are found under their reference and link to strictly lower rounds, as block
    verification enforces; above round [g] the history is complete, as the block manager
    enforces. *)
Record universe_wf (g : N) (U : universe) : Prop := {
  u_ref : ∀ r b, U r = Some b → reference b = r;
  u_desc : ∀ r r', parent U r r' → br_round r' < br_round r;
  u_closed : ∀ r r', parent U r r' → g < br_round r' → is_Some (U r');
}.

Lemma rtc_parent_round g U r r' :
  universe_wf g U → rtc (parent U) r r' → br_round r' ≤ br_round r ∧ (r ≠ r' → br_round r' < br_round r).
Proof.
  intros HU. induction 1 as [r|r r1 r' Hp _ [IH1 IH2]]; [split; [lia|done]|].
  apply (u_desc g U HU) in Hp. split; [|intros _]; lia.
Qed.

Lemma omap_refs (U : universe) refs :
  (∀ r b, U r = Some b → reference b = r) → (∀ r, r ∈ refs → ∃ x, U r = Some x) →
  reference <$> omap U refs = refs ∧ mapM (λ r, expect (U r)) refs = Ret (omap U refs).
Proof.
  intros Href. induction refs as [|r refs IH]; intros Hget; [done|].
  destruct (Hget r) as [x Hx]; [apply list_elem_of_here|].
  destruct IH as [IH1 IH2]; [intros r' Hr'; apply Hget; by apply list_elem_of_further|].
  split.
  - csimpl. rewrite Hx. csimpl. by rewrite IH1, (Href _ _ Hx).
  - cbn [mapM]. rewrite Hx. cbn [expect mbind outcome_bind]. rewrite IH2. csimpl. by rewrite Hx.
Qed.

Section Ancestors.
Context {S : Type} `{StoreSpec S} (d : DagState S) (Hwf : dag_wf d).
Context (HU : universe_wf (dag_gc_round d) (dag_lookup d)).
Let U := dag_lookup d.
Context (e : N) (He : dag_gc_round d < e).

(** Frontier of a traversal: cached above [e]. *)
Definition frontier (linked : gset BlockRef) : Prop :=
  ∀ r, r ∈ linked → e ≤ br_round r → is_Some (ds_recent_blocks d !! r).

Lemma closed_recent r r' : parent U r r' → e ≤ br_round r' → is_Some (ds_recent_blocks d !! r').
Proof.
  intros Hp Hr. destruct (u_closed _ _ HU _ _ Hp) as [b Hb]; [lia|].
  destruct (dag_lookup_cached d r' b Hwf Hb) as (i & Hi & _); [lia|eauto].
Qed.

Lemma expand_frontier linked r b :
  r ∈ linked → e < br_round r → U r = Some b → frontier linked →
  let linked' := (linked ∖ {[r]}) ∪ list_to_set (vb_ancestors b) in
  frontier linked' ∧
  ∀ t, br_round t = e → (∃ l, l ∈ linked' ∧ rtc (parent U) l t) ↔ (∃ l, l ∈ linked ∧ rtc (parent U) l t).
Proof.
  intros Hin Hr Hb Hf linked'.
  assert (∀ a, a ∈ vb_ancestors b → parent U r a) as Hpar by (intros a Ha; by exists b).
  split.
  - intros r'. unfold linked'. rewrite elem_of_union, elem_of_difference, elem_of_list_to_set.
    intros [[? _]|Ha] Hle; [by apply Hf|]. apply (closed_recent r); auto.
  - intros t Ht. unfold linked'. setoid_rewrite elem_of_union. setoid_rewrite elem_of_difference.
    setoid_rewrite elem_of_list_to_set. setoid_rewrite elem_of_singleton. split.
    + intros (l & [[Hl _]|Ha] & Hrtc); [by eauto|]. exists r. split; [done|].
      eapply rtc_l; [by apply Hpar|done].
    + intros (l & Hl & Hrtc). destruct (decide (l = r)) as [->|Hne]; [|by eauto].
      inversion Hrtc as [|? r1 ? Hp Hrest]; simplify_eq; [lia|].
      destruct Hp as (b' & Hb' & Ha). assert (b' = b) as -> by congruence. eauto.
Qed.

Lemma ancestors_loop_spec fuel linked (popped : gset BlockRef) :
  frontier linked → popped ⊆ dom (ds_recent_blocks d) →
  (∀ p l, p ∈ popped → l ∈ linked → BlockRef_ltb l p = true) →
  (size (ds_recent_blocks d) ≤ fuel + size popped)%nat →
  ∃ linked', ancestors_loop fuel d e linked = Ret linked' ∧ frontier linked' ∧
    (∀ r, r ∈ linked' → br_round r ≤ e) ∧
    ∀ t, br_round t = e →
      (∃ l, l ∈ linked' ∧ rtc (parent U) l t) ↔ (∃ l, l ∈ linked ∧ rtc (parent U) l t).
Proof.
  revert linked popped. induction fuel as [|fuel IH]; intros linked popped Hf Hsub Hlt Hfuel;
    simpl; destruct (refs_last linked) as [r|] eqn:Hlast.
  all: try (apply refs_last_None in Hlast; exists linked; set_solver).
  all: destruct (refs_last_Some _ _ Hlast) as [Hin Hmax].
  all: destruct (N.leb_spec (br_round r) e) as [Hle|Hgt].
  all: try (exists linked; split; [done|]; split; [done|]; split; [|done];
            intros l Hl%Hmax%BlockRef_leb_round; lia).
  all: destruct (Hf r Hin) as [i Hi]; [lia|].
  all: assert (r ∉ popped) as Hnp by (intros Hp; specialize (Hlt r r Hp Hin);
         apply BlockRef_ltb_iff in Hlt; lia).
  all: assert ({[r]} ∪ popped ⊆ dom (ds_recent_blocks d)) as Hsub'
         by (intros x [->%elem_of_singleton|Hx]%elem_of_union; [by apply elem_of_dom|auto]).
  - exfalso. apply subseteq_size in Hsub'. rewrite size_union, size_singleton, size_dom in Hsub'
      by set_solver. lia.
  - pose proof (dag_lookup_recent d r i Hwf Hi) as HUr.
    rewrite get_block_lookup, HUr. simpl.
    destruct (expand_frontier linked r (bi_block i) Hin Hgt HUr Hf) as [Hf' Heq].
    destruct (IH _ ({[r]} ∪ popped) Hf' Hsub') as (linked' & Hl & Hfr & Hb & Ht).
    + intros p l Hp Hl. rewrite elem_of_union, elem_of_singleton in Hp.
      rewrite elem_of_union, elem_of_difference, elem_of_list_to_set, elem_of_singleton in Hl.
      assert (BlockRef_ltb l r = true) as Hlr.
      { destruct Hl as [[Hl Hne]|Ha].
        - specialize (Hmax l Hl). rewrite BlockRef_leb_iff in Hmax. apply BlockRef_ltb_iff.
          destruct l, r; simpl in *.
          destruct (decide (br_digest = br_digest0)); [|lia]. subst.
          destruct (decide (br_author = br_author0)); [|lia]. subst.
          destruct (decide (br_round = br_round0)); [|lia]. by subst.
        - assert (parent U r l) as Hp' by (by exists (bi_block i)).
          apply (u_desc _ _ HU) in Hp'. apply BlockRef_ltb_iff. lia. }
      destruct Hp as [->|Hp]; [done|].
      specialize (Hlt p r Hp Hin). rewrite BlockRef_ltb_iff in *. lia.
    + rewrite size_union, size_singleton by set_solver. lia.
    + exists linked'. split; [exact Hl|]. split; [done|]. split; [done|].
      intros t Hte. rewrite <- Heq by done. by apply Ht.
Qed.

(** The ancestors of a known block at round [e]: all of them, each once. *)
Lemma ancestors_at_round_spec fuel b :
  (size (ds_recent_blocks d) ≤ fuel)%nat → U (reference b) = Some b →
  ∃ bs, ancestors_at_round fuel d b e = Ret bs ∧
    StronglySorted BlockRef_leb (reference <$> bs) ∧ NoDup (reference <$> bs) ∧
    ∀ x, x ∈ bs ↔ U (reference x) = Some x ∧ vb_round x = e ∧ e < vb_round b ∧
                  rtc (parent U) (reference b) (reference x).
Proof.
  intros Hfuel Hb.
  assert (∀ a, a ∈ vb_ancestors b → parent U (reference b) a) as Hpar by (intros a Ha; by exists b).
  destruct (ancestors_loop_spec fuel (list_to_set (vb_ancestors b)) ∅) as (linked & Hl & Hf & Hle & Ht).
  { intros r. rewrite elem_of_list_to_set. intros Ha Hr. apply (closed_recent (reference b)); auto. }
  1-2: set_solver.
  { rewrite size_empty. lia. }
  unfold ancestors_at_round. rewrite Hl. simpl.
  set (refs := filter _ _).
  assert (∀ r, r ∈ refs ↔ r ∈ linked ∧ br_round r = e) as Hrefs.
  { intros r. unfold refs. rewrite list_elem_of_filter, elem_of_set_iter, Is_true_true,
      BlockRef_leb_iff. unfold AuthorityIndex_ZERO, Digest_MIN; simpl.
    split; [intros [? Hr]|intros [Hr ?]]; (split; [done || lia|]); try done.
    specialize (Hle r Hr). lia. }
  assert (∀ r, r ∈ refs → ∃ x, U r = Some x) as Hget.
  { intros r [Hr Hre]%Hrefs. destruct (Hf r Hr) as [i Hi]; [lia|].
    exists (bi_block i). exact (dag_lookup_recent d r i Hwf Hi). }
  exists (omap U refs).
  destruct (omap_refs U refs (u_ref _ _ HU) Hget) as [Href HmapM].
  split; [rewrite <- HmapM; apply mapM_outcome_ext; intros r; by rewrite get_block_lookup|].
  rewrite Href. split; [apply StronglySorted_filter, set_iter_sorted|].
  split; [apply NoDup_filter, NoDup_set_iter|].
  intros x. rewrite list_elem_of_omap. split.
  - intros (r & Hr & Hx). pose proof (u_ref _ _ HU _ _ Hx) as <-.
    apply Hrefs in Hr as [Hr Hre]. split; [done|]. split; [done|].
    destruct (proj1 (Ht (reference x) Hre)) as (a & Ha & Hrtc); [exists (reference x); by split|].
    apply elem_of_list_to_set, Hpar in Ha. pose proof (u_desc _ _ HU _ _ Ha) as Hdesc.
    apply (rtc_parent_round _ _ _ _ HU) in Hrtc as Hrr.
    split; [simpl in *; lia|]. by eapply rtc_l.
  - intros (Hx & Hxe & Hlt & Hrtc). exists (reference x). split; [|done].
    apply Hrefs. split; [|done].
    inversion Hrtc as [? Heq|? a ? Hp Hrest]; [apply (f_equal br_round) in Heq; simpl in *; lia|].
    destruct Hp as (b' & Hb' & Ha). assert (b' = b) as -> by congruence.
    destruct (proj2 (Ht (reference x) Hxe)) as (l & Hlin & Hlx).
    { exists a. by rewrite elem_of_list_to_set. }
    destruct (decide (l = reference x)) as [->|Hne]; [done|].
    apply (rtc_parent_round _ _ _ _ HU) in Hlx as [_ Hlt'].
    specialize (Hlt' Hne). specialize (Hle l Hlin). simpl in *. lia.
Qed.
End Ancestors.

(** * Blocks of a slot and of a round *)

Section Slots.
Context {S : Type} `{StoreSpec S} (d : DagState S) (Hwf : dag_wf d).
Let U := dag_lookup d.

Definition selected (P : BlockRef → bool) : list VerifiedBlock :=
  (λ kv, bi_block kv.2) <$> filter (λ kv : BlockRef * BlockInfo, P kv.1)
                              (map_iter BlockRef_leb (ds_recent_blocks d)).

Lemma selected_refs P :
  StronglySorted BlockRef_leb (reference <$> selected P) ∧ NoDup (reference <$> selected P).
Proof.
  assert (reference <$> selected P
          = filter P (map_iter BlockRef_leb (ds_recent_blocks d)).*1) as ->.
  { unfold selected. rewrite <- list_fmap_compose.
    assert (∀ r i, (r, i) ∈ map_iter BlockRef_leb (ds_recent_blocks d) →
              reference (bi_block i) = r) as Hkey.
    { intros r i Hi%elem_of_map_iter. by apply (dwf_recent d Hwf) in Hi as [? _]. }
    induction (map_iter BlockRef_leb (ds_recent_blocks d)) as [|[r i] l IH]; [done|].
    csimpl. rewrite !filter_cons. simpl.
    case_decide; csimpl; rewrite IH by (intros; apply Hkey; by apply list_elem_of_further); [|done].
    by rewrite (Hkey r i) by apply list_elem_of_here. }
  split; [apply StronglySorted_filter, map_iter_sorted|apply NoDup_filter, NoDup_map_iter].
Qed.

Lemma elem_of_selected P b :
  (∀ r, P r = true → dag_gc_round d < br_round r) →
  b ∈ selected P ↔ U (reference b) = Some b ∧ P (reference b) = true.
Proof.
  intros HP. unfold selected. rewrite list_elem_of_fmap. setoid_rewrite list_elem_of_filter. split.
  - intros ([r i] & -> & Hr & Hi%elem_of_map_iter). simpl in *. apply Is_true_true in Hr.
    destruct (dwf_recent d Hwf _ _ Hi) as [-> _]. split; [|done].
    exact (dag_lookup_recent d r i Hwf Hi).
  - intros [Hb Hp]. destruct (dag_lookup_cached d _ _ Hwf Hb (HP _ Hp)) as (i & Hi & Hib).
    exists (reference b, i). simpl. split; [done|]. split; [by apply Is_true_true|].
    by apply elem_of_map_iter.
Qed.

(** Blocks cached at a slot above the garbage collection round. *)
Lemma blocks_at_slot_spec slot :
  dag_gc_round d < slot_round slot →
  let bs := get_uncommitted_blocks_at_slot d slot in
  StronglySorted BlockRef_leb (reference <$> bs) ∧ NoDup (reference <$> bs) ∧
  ∀ b, b ∈ bs ↔ U (reference b) = Some b ∧ Slot_from (reference b) = slot.
Proof.
  intros Hgc bs. set (P := in_range BlockRef_leb
    (mkBlockRef (slot_round slot) (slot_authority slot) Digest_MIN)
    (mkBlockRef (slot_round slot) (slot_authority slot) Digest_MAX)).
  destruct (selected_refs P) as [Hs Hn]. split; [done|]. split; [done|].
  intros b. change bs with (selected P). rewrite elem_of_selected.
  - split; intros [Hb Hp]; (split; [done|]).
    + unfold P, in_range in Hp. rewrite andb_true_iff, !BlockRef_leb_iff in Hp. simpl in Hp.
      unfold Slot_from. destruct slot; simpl in *. f_equal; lia.
    + subst slot. unfold P, in_range. rewrite andb_true_iff, !BlockRef_leb_iff. simpl.
      destruct (dag_lookup_cached d _ _ Hwf Hb) as (i & Hi & _); [done|].
      destruct (dwf_recent d Hwf _ _ Hi) as (_ & (_ & _ & Hd) & _).
      unfold Digest_MIN. simpl in *. lia.
  - intros r. unfold P, in_range. rewrite andb_true_iff, !BlockRef_leb_iff. simpl. lia.
Qed.

(** Blocks cached at a round above the last commit. *)
Lemma blocks_at_round_spec round :
  last_commit_round d < round → round < u32_max →
  ∃ bs, get_uncommitted_blocks_at_round d round = Ret bs ∧
    StronglySorted BlockRef_leb (reference <$> bs) ∧ NoDup (reference <$> bs) ∧
    ∀ b, b ∈ bs ↔ U (reference b) = Some b ∧ vb_round b = round.
Proof.
  intros Hlc Hmax. unfold get_uncommitted_blocks_at_round.
  rewrite (proj2 (N.leb_gt round _)) by lia. simpl.
  rewrite u32_add_small by (unfold u32_max in *; lia).
  unfold assert_that. rewrite (proj2 (BlockRef_leb_iff _ _)) by (simpl; lia). simpl.
  set (P := in_range_excl (mkBlockRef round AuthorityIndex_ZERO Digest_MIN)
                          (mkBlockRef (round + 1) AuthorityIndex_ZERO Digest_MIN)).
  exists (selected P). destruct (selected_refs P) as [Hs Hn].
  split; [done|]. split; [done|]. split; [done|].
  assert (∀ r, P r = true ↔ br_round r = round) as HP.
  { intros r. unfold P, in_range_excl, AuthorityIndex_ZERO, Digest_MIN.
    rewrite andb_true_iff, BlockRef_leb_iff, BlockRef_ltb_iff. simpl. lia. }
  intros b. rewrite elem_of_selected; [by rewrite HP|].
  intros r ->%HP. unfold dag_gc_round, calculate_gc_round, saturating_sub. lia.
Qed.
End Slots.

(** * Hard links *)

Section Link.
Context (U : universe) (gc : N) (HU : universe_wf gc U).

(** The marked references of a cache. *)
Definition is_linked (m : gmap BlockRef BlockInfo) (r : BlockRef) : Prop :=
  ∃ i, m !! r = Some i ∧ bi_hard_linked i = true.

(** The cache shows the universe above the garbage collection round. *)
Definition shows (m : gmap BlockRef BlockInfo) : Prop :=
  (∀ r i, m !! r = Some i → U r = Some (bi_block i)) ∧
  (∀ r, gc < br_round r → is_Some (U r) → is_Some (m !! r)).

(** Ancestors that marking the rest of the cache may still push. *)
Definition unlinked_size (m : gmap BlockRef BlockInfo) : nat :=
  sum_list_with (λ kv, if bi_hard_linked kv.2 then 0%nat
                       else length (vb_ancestors (bi_block kv.2))) (map_to_list m).

Definition mark (i : BlockInfo) : BlockInfo := mkBlockInfo (bi_block i) (bi_committed i) true.

Lemma unlinked_size_mark m r i :
  m !! r = Some i → bi_hard_linked i = false →
  unlinked_size m = (length (vb_ancestors (bi_block i)) + unlinked_size (<[r := mark i]> m))%nat.
Proof.
  intros Hi Hl. unfold unlinked_size.
  rewrite <- (insert_delete_id m r i Hi) at 1. rewrite <- (insert_delete_eq m r (mark i)).
  rewrite !map_to_list_insert by apply lookup_delete_eq. simpl. by rewrite Hl.
Qed.

Lemma unlinked_size_le m :
  (unlinked_size m ≤
    sum_list_with (λ kv, length (vb_ancestors (bi_block kv.2))) (map_to_list m))%nat.
Proof.
  unfold unlinked_size. induction (map_to_list m) as [|[r i] l IH]; simpl; [done|].
  destruct (bi_hard_linked i); lia.
Qed.

(** Loop invariant: the marks are closed up to the pending targets, and everything
    marked or pending is already marked in [m0] or reachable from the root. *)
Record link_inv (m0 : gmap BlockRef BlockInfo) (root : BlockRef) (targets : list BlockRef)
    (m : gmap BlockRef BlockInfo) (linked : list BlockRef) : Prop := {
  li_shows : shows m;
  li_closed : ∀ r r', is_linked m r → parent U r r' → gc < br_round r' →
    is_linked m r' ∨ r' ∈ targets;
  li_targets : ∀ r, r ∈ targets → rtc (parent U) root r;
  li_root : gc < br_round root → is_linked m root ∨ root ∈ targets;
  li_linked : ∀ r, is_linked m r ↔ is_linked m0 r ∨ r ∈ linked;
  li_new : ∀ r, r ∈ linked → ¬ is_linked m0 r ∧ gc < br_round r ∧ rtc (parent U) root r;
  li_nodup : NoDup linked;
  li_marks : ∀ r, (λ i, (bi_block i, bi_committed i)) <$> m !! r
                  = (λ i, (bi_block i, bi_committed i)) <$> m0 !! r;
}.

Lemma is_linked_mark m r i x :
  is_linked (<[r := mark i]> m) x ↔ x = r ∨ is_linked m x.
Proof.
  unfold is_linked. destruct (decide (x = r)) as [->|Hne].
  - rewrite lookup_insert_eq. split; [by left|]. intros _. by exists (mark i).
  - rewrite lookup_insert_ne by done. naive_solver.
Qed.

Lemma link_inv_skip m0 root r targets m linked :
  link_inv m0 root (r :: targets) m linked → br_round r ≤ gc ∨ is_linked m r →
  link_inv m0 root targets m linked.
Proof.
  intros [Hs Hc Ht Hr Hl Hn Hnd Hm] Hskip. split; try done.
  - intros x x' Hx Hp Hgt. destruct (Hc _ _ Hx Hp Hgt) as [?|Hin]; [by left|].
    apply elem_of_cons in Hin as [->|?]; [|by right]. left. destruct Hskip; [lia|done].
  - intros x Hx. apply Ht. by right.
  - intros Hgt. destruct (Hr Hgt) as [?|Hin]; [by left|].
    apply elem_of_cons in Hin as [->|?]; [|by right]. left. destruct Hskip; [lia|done].
Qed.

Lemma link_inv_mark m0 root r targets m linked i :
  link_inv m0 root (r :: targets) m linked → gc < br_round r →
  m !! r = Some i → bi_hard_linked i = false →
  link_inv m0 root (targets ++ vb_ancestors (bi_block i)) (<[r := mark i]> m) (linked ++ [r]).
Proof.
  intros [Hs Hc Ht Hr Hl Hn Hnd Hm] Hgt Hi Hli.
  assert (¬ is_linked m r) as Hnl by (intros (j & Hj & ?); congruence).
  assert (U r = Some (bi_block i)) as HUr by by apply Hs.
  split.
  - split.
    + intros x j [[<- <-]|[_ Hj]]%lookup_insert_Some; [done|by apply Hs].
    + intros x Hx HxU. rewrite lookup_insert_is_Some'. right. by apply Hs.
  - intros x x' Hx Hp Hx'. rewrite is_linked_mark in *. rewrite elem_of_app.
    destruct Hx as [->|Hx].
    + destruct Hp as (b & Hb & Ha). simplify_eq. tauto.
    + destruct (Hc _ _ Hx Hp Hx') as [?|[->|?]%elem_of_cons]; tauto.
  - intros x [Hx|Hx]%elem_of_app; [apply Ht; by right|].
    eapply rtc_r; [apply Ht; by left|]. by exists (bi_block i).
  - intros Hroot. rewrite is_linked_mark, elem_of_app.
    destruct (Hr Hroot) as [?|[->|?]%elem_of_cons]; tauto.
  - intros x. rewrite is_linked_mark, Hl, elem_of_app, list_elem_of_singleton. tauto.
  - intros x [Hx|Hx]%elem_of_app; [by apply Hn|]. apply list_elem_of_singleton in Hx as ->.
    split; [intros H0; apply Hnl, Hl; by left|]. split; [done|]. apply Ht. by left.
  - apply NoDup_app. split; [done|]. split; [|apply NoDup_singleton].
    intros x Hx Hxr%list_elem_of_singleton. subst x. apply Hnl, Hl. by right.
  - intros x. rewrite <- Hm. destruct (decide (x = r)) as [->|Hne].
    + by rewrite lookup_insert_eq, Hi.
    + by rewrite lookup_insert_ne.
Qed.

Lemma link_loop_spec fuel m0 root targets m linked :
  link_inv m0 root targets m linked →
  (∀ r, r ∈ targets → gc < br_round r → is_Some (U r)) →
  (length targets + unlinked_size m ≤ fuel)%nat →
  ∃ m' linked', link_loop fuel gc targets m linked = Ret (m', linked') ∧
    link_inv m0 root [] m' linked'.
Proof.
  revert targets m linked. induction fuel as [|fuel IH]; intros [|r targets] m linked Hinv HU' Hf.
  1,3: by exists m, linked.
  { simpl in Hf. lia. }
  simpl. simpl in Hf.
  assert (∀ x, x ∈ targets → gc < br_round x → is_Some (U x)) as HU''
    by (intros x Hx; apply HU'; by right).
  destruct (N.leb_spec (br_round r) gc) as [Hle|Hgt].
  { apply IH; [|done|lia]. eapply link_inv_skip; [done|by left]. }
  destruct (HU' r) as [b Hb]; [by left|done|].
  destruct (proj2 (li_shows _ _ _ _ _ Hinv) r Hgt) as [i Hi]; [by rewrite Hb|].
  rewrite Hi. simpl. destruct (bi_hard_linked i) eqn:Hl.
  - apply IH; [|done|lia]. eapply link_inv_skip; [done|]. right. by exists i.
  - apply IH.
    + by apply link_inv_mark.
    + intros x [Hx|Hx]%elem_of_app Hgx; [by apply HU''|].
      apply (u_closed _ _ HU r); [|done]. exists (bi_block i). split; [|done].
      by apply (li_shows _ _ _ _ _ Hinv).
    + pose proof (unlinked_size_mark m r i Hi Hl) as Hsz. rewrite length_app.
      change (mkBlockInfo (bi_block i) (bi_committed i) true) with (mark i). lia.
Qed.

(** Marks closed under the causal history stay closed and gain exactly the history of
    the root. *)
Lemma link_result m0 root m' linked :
  link_inv m0 root [] m' linked →
  ∀ r, gc < br_round r → rtc (parent U) root r → is_linked m' r.
Proof.
  intros Hinv r Hr Hrtc. apply rtc_parent_round with (g := gc) in Hrtc as Hrr; [|done].
  assert (is_linked m' root) as Hroot.
  { destruct (li_root _ _ _ _ _ Hinv) as [?|?]; [lia|done|set_solver]. }
  pose proof (li_closed _ _ _ _ _ Hinv) as Hclosed. clear Hrr Hinv.
  induction Hrtc as [x|x y z Hxy Hyz IH]; [done|].
  pose proof (rtc_parent_round _ _ _ _ HU Hyz) as [Hle _].
  apply IH; [done|]. destruct (Hclosed x y) as [?|?]; [done..|lia|done|set_solver].
Qed.
End Link.

(** * Concrete states *)

(** A committee of [n] authorities of equal stake, and the DAG state of its first member
    with the given blocks accepted and nothing written yet. *)
Section Sample.
Context (n : nat) (gc : N).

Definition sample_committee : Committee :=
  let total := N.of_nat n in
  mkCommittee 0 total (2 * total / 3 + 1) ((total + 2) / 3) (replicate n (mkAuthority 1 "host" [])).

Definition sample_context : Context :=
  mkContext 0 0 sample_committee Parameters_default (mkProtocolConfig false false (Some 1) gc 20 1000 10 10000).

Definition sample_genesis : list VerifiedBlock :=
  (λ i, sample_block 0 (N.of_nat i) (1000 + N.of_nat i) []) <$> seq 0 n.

Definition sample_dag (blocks : list VerifiedBlock) : DagState MemStore :=
  mkDagState sample_context (list_to_map ((λ b, (reference b, b)) <$> sample_genesis))
    (list_to_map ((λ b, (reference b, BlockInfo_new b)) <$> blocks))
    ((λ i, list_to_set (filter (λ r, br_author r = N.of_nat i) (reference <$> blocks))) <$> seq 0 n)
    (ThresholdClock_new 1) (replicate n 0) (foldr N.max 0 (vb_round <$> blocks)) None
    (replicate n 0) ScoringSubdag_new [] blocks [] [] [] MemStore_new 500.

(** Decidable form of the invariant and of causal completeness for such a state. *)
Definition sample_ok (blocks : list VerifiedBlock) : bool :=
  bool_decide (0 < n < 1000)%nat && bool_decide (NoDup (reference <$> blocks)) &&
  forallb (λ b, bool_decide (vb_round b ≤ u32_max) && bool_decide (vb_author b ≤ u32_max) &&
                bool_decide (vb_digest b ≤ Digest_MAX) && bool_decide (0 < vb_round b) &&
                bool_decide (vb_author b < N.of_nat n) &&
                forallb (λ a, bool_decide (br_round a < vb_round b) &&
                              bool_decide (a ∈ reference <$> sample_genesis ++ blocks))
                  (vb_ancestors b)) blocks.

Lemma sample_committee_wf : (0 < n < 1000)%nat → committee_wf sample_committee.
Proof.
  intros Hn.
  assert (nsum (authority_stake <$> replicate n (mkAuthority 1 "host" [])) = N.of_nat n) as Hsum.
  { clear Hn. induction n as [|k IH]; [done|]. cbn [replicate]. csimpl. rewrite IH. simpl. lia. }
  split; simpl; unfold Committee_size; simpl; rewrite ?length_replicate, ?Hsum;
    try done; unfold u32_max; lia.
Qed.

Lemma elem_of_sample_genesis b :
  b ∈ sample_genesis ↔ ∃ i, (i < n)%nat ∧ b = sample_block 0 (N.of_nat i) (1000 + N.of_nat i) [].
Proof.
  unfold sample_genesis. rewrite list_elem_of_fmap. setoid_rewrite elem_of_seq.
  split; intros (i & ? & ?); exists i; split; done || lia.
Qed.

Context (blocks : list VerifiedBlock) (Hok : sample_ok blocks = true).

Lemma sample_facts :
  (0 < n < 1000)%nat ∧ NoDup (reference <$> blocks) ∧
  ∀ b, b ∈ blocks → ref_bounded (reference b) ∧ 0 < vb_round b ∧ vb_author b < N.of_nat n ∧
    ∀ a, a ∈ vb_ancestors b → br_round a < vb_round b ∧ a ∈ reference <$> sample_genesis ++ blocks.
Proof.
  unfold sample_ok in Hok. rewrite !andb_true_iff, !bool_decide_eq_true in Hok.
  destruct Hok as [[Hn Hnd] Hall]. split; [done|]. split; [done|].
  rewrite forallb_forall in Hall. intros b Hb%list_elem_of_In%Hall.
  rewrite !andb_true_iff, !bool_decide_eq_true, forallb_forall in Hb.
  destruct Hb as [[[[[? ?] ?] ?] ?] Ha]. split; [done|]. split; [done|]. split; [done|].
  intros a Ha'%list_elem_of_In%Ha. by rewrite andb_true_iff, !bool_decide_eq_true in Ha'.
Qed.

Lemma NoDup_sample_genesis : NoDup (reference <$> sample_genesis).
Proof.
  unfold sample_genesis. rewrite <- list_fmap_compose. apply NoDup_fmap_2; [|apply NoDup_seq].
  intros i j Heq. apply (f_equal br_author) in Heq. unfold compose in Heq. simpl in Heq. cbn in Heq. lia.
Qed.

Lemma sample_genesis_lookup r b :
  ds_genesis (sample_dag blocks) !! r = Some b ↔ b ∈ sample_genesis ∧ reference b = r.
Proof.
  simpl. rewrite <- elem_of_list_to_map.
  - rewrite list_elem_of_fmap. split; [intros (? & [= -> ->] & ?); done|].
    intros [? <-]. by exists b.
  - rewrite <- list_fmap_compose. apply NoDup_sample_genesis.
Qed.

Lemma sample_recent_lookup r i :
  ds_recent_blocks (sample_dag blocks) !! r = Some i ↔
    ∃ b, b ∈ blocks ∧ reference b = r ∧ i = BlockInfo_new b.
Proof.
  destruct sample_facts as (_ & Hnd & _).
  simpl. rewrite <- elem_of_list_to_map.
  - rewrite list_elem_of_fmap. split; [intros (b & [= -> ->] & ?); by exists b|].
    intros (b & ? & <- & ->). by exists b.
  - by rewrite <- list_fmap_compose.
Qed.

Lemma sample_dag_wf : dag_wf (sample_dag blocks).
Proof.
  destruct sample_facts as (Hn & Hnd & Hb).
  assert (Committee_size (dag_committee (sample_dag blocks)) = N.of_nat n) as Hsize.
  { unfold Committee_size, dag_committee. simpl. by rewrite length_replicate. }
  split; [split|..]; try done.
  - by apply sample_committee_wf.
  - unfold is_valid_index. rewrite Hsize. apply bool_decide_eq_true. simpl. lia.
  - rewrite Hsize. simpl. by rewrite length_fmap, length_seq.
  - rewrite Hsize. simpl. by rewrite length_replicate.
  - intros r b [Hg <-]%sample_genesis_lookup. split; [done|].
    apply elem_of_sample_genesis in Hg as (i & _ & ->). done.
  - intros a Ha. unfold is_valid_index in Ha. rewrite Hsize, bool_decide_eq_true in Ha.
    set (b := sample_block 0 a (1000 + a) []). exists (reference b). split; [|done].
    exists b. apply sample_genesis_lookup. split; [|done]. apply elem_of_sample_genesis.
    exists (N.to_nat a). split; [lia|]. by rewrite N2Nat.id.
  - intros r i (b & Hin & <- & ->)%sample_recent_lookup. destruct (Hb b Hin) as (? & ? & ? & _).
    split; [done|]. split; [done|]. split; [done|].
    unfold is_valid_index. rewrite Hsize. by apply bool_decide_eq_true.
  - intros a refs Hl r. simpl in Hl. rewrite list_lookup_fmap_Some in Hl.
    destruct Hl as (i & -> & [-> Hi]%lookup_seq).
    rewrite elem_of_list_to_set, list_elem_of_filter, list_elem_of_fmap. simpl.
    unfold is_Some. setoid_rewrite sample_recent_lookup. naive_solver.
  - intros r i (b & Hin & <- & ->)%sample_recent_lookup. by left.
  - intros b Hin. exists (BlockInfo_new b). split; [|done]. apply sample_recent_lookup. eauto.
Qed.

Lemma sample_lookup r b :
  dag_lookup (sample_dag blocks) r = Some b ↔ b ∈ sample_genesis ++ blocks ∧ reference b = r.
Proof.
  destruct sample_facts as (Hn & Hnd & Hb). unfold dag_lookup. rewrite elem_of_app.
  destruct (N.eqb_spec (br_round r) GENESIS_ROUND) as [Hz|Hz].
  - rewrite sample_genesis_lookup. split; [tauto|]. intros [[?|Hin] <-]; [done|].
    destruct (Hb b Hin) as (_ & Hr & _). simpl in Hz. unfold GENESIS_ROUND in Hz. lia.
  - destruct (ds_recent_blocks (sample_dag blocks) !! r) as [i|] eqn:Hi.
    + apply sample_recent_lookup in Hi as (b' & Hin & <- & ->). simpl. split; [naive_solver|].
      intros [[Hg|Hin'] Heq].
      * apply elem_of_sample_genesis in Hg as (j & _ & ->). rewrite <- Heq in Hz. done.
      * f_equal. apply list_elem_of_lookup in Hin as [j Hj], Hin' as [k Hk].
        assert (j = k) as ->; [|congruence].
        apply (NoDup_lookup (reference <$> blocks) j k (reference b) Hnd);
          rewrite list_lookup_fmap; [rewrite Hj|rewrite Hk]; simpl; congruence.
    + simpl. rewrite lookup_empty. split; [done|]. intros [[Hg|Hin] <-].
      * apply elem_of_sample_genesis in Hg as (j & _ & ->). done.
      * assert (ds_recent_blocks (sample_dag blocks) !! reference b = Some (BlockInfo_new b))
          as Hs by (apply sample_recent_lookup; eauto). congruence.
Qed.

Lemma sample_universe_wf g : universe_wf g (dag_lookup (sample_dag blocks)).
Proof.
  destruct sample_facts as (Hn & Hnd & Hb).
  assert (∀ r r', parent (dag_lookup (sample_dag blocks)) r r' →
    br_round r' < br_round r ∧ is_Some (dag_lookup (sample_dag blocks) r')) as Hpar.
  { intros r r' (b & [[Hg|Hin]%elem_of_app <-]%sample_lookup & Ha).
    - apply elem_of_sample_genesis in Hg as (i & _ & ->). simpl in Ha. set_solver.
    - destruct (Hb b Hin) as (_ & _ & _ & Hanc). destruct (Hanc r' Ha) as [Hr Hex].
      split; [done|]. apply list_elem_of_fmap in Hex as (b' & -> & Hb').
      exists b'. by apply sample_lookup. }
  split.
  - intros r b Hl. by apply sample_lookup in Hl as [_ ?].
  - intros r r' Hp. by apply Hpar.
  - intros r r' Hp _. by eapply Hpar.
Qed.
End Sample.

(** * Reachable states *)

Section Reachable.
Context {S : Type} `{StoreSpec S}.
Implicit Types d : DagState S.

(** What block verification guarantees about the reference of an accepted block. *)
Definition acceptable d (b : VerifiedBlock) : Prop :=
  ref_bounded (reference b) ∧ 0 < vb_round b ∧
  is_valid_index (dag_committee d) (vb_author b) = true.

(** The operations that change the state. Commits are added for leaders of
    non-decreasing rounds. *)
Inductive dag_step d : DagState S → Prop :=
| step_accept b d' : acceptable d b → accept_block d b = Ret d' → dag_step d d'
| step_set_committed r d' first : set_committed d r = Ret (d', first) → dag_step d d'
| step_link root d' linked : link_causal_history d root = Ret (d', linked) → dag_step d d'
| step_add_commit c d' :
    last_commit_round d ≤ tc_round c → add_commit d c = Ret d' → dag_step d d'
| step_recover_commits cs : dag_step d (recover_commits_to_write d cs)
| step_commit_info scores d' : add_commit_info d scores = Ret d' → dag_step d d'
| step_finalized c rejected : dag_step d (add_finalized_commit d c rejected)
| step_take_votes limit : dag_step d (take_commit_votes d limit).1
| step_add_scoring subdags d' : add_scoring_subdags d subdags = Ret d' → dag_step d d'
| step_clear_scoring : dag_step d (clear_scoring_subdag d)
| step_flush d' : flush d = Ret d' → dag_step d d'.

Lemma link_loop_blocks fuel gc targets m linked m' linked' r :
  link_loop fuel gc targets m linked = Ret (m', linked') →
  bi_block <$> m' !! r = bi_block <$> m !! r.
Proof.
  revert targets m linked. induction fuel as [|fuel IH]; intros [|t targets] m linked Hl;
    simpl in Hl; simplify_eq; [done|done|].
  destruct (br_round t <=? gc); [by eapply IH|].
  apply bind_Ret in Hl as (i & Hi%expect_Ret & Hl).
  destruct (bi_hard_linked i); [by eapply IH|]. rewrite (IH _ _ _ Hl).
  destruct (decide (t = r)) as [->|Hne].
  - by rewrite lookup_insert_eq, Hi.
  - by rewrite lookup_insert_ne.
Qed.

Lemma dag_step_wf d d' :
  dag_wf d → dag_step d d' →
  dag_wf d' ∧ ∀ r b, dag_lookup d r = Some b → dag_lookup d' r = Some b.
Proof.
  intros Hwf Hstep.
  assert (dag_wf d' ∧ (∀ r, dag_lookup d' r = dag_lookup d r) →
    dag_wf d' ∧ ∀ r b, dag_lookup d r = Some b → dag_lookup d' r = Some b) as Hsame
    by (intros [? Heq]; split; [done|]; intros r b; by rewrite Heq).
  inversion Hstep as [b ? (Hb & Hr & Ha) Hacc|r ? first Hset|root ? linked Hlink|c ? Hround Hadd|
                     |scores ? Hinfo| | |subdags ? Hscore| |? Hfl]; subst.
  - destruct (dag_lookup d (reference b)) as [b0|] eqn:Hlk.
    { rewrite (accept_block_contained d b b0) in Hacc by done. by simplify_eq. }
    destruct (accept_block_accepted d b d' Hwf Hb Hr Ha Hlk Hacc) as [Haccd Hwf'].
    split; [done|]. intros r b' Hb'. rewrite (accepted_lookup d b d' r Hr Haccd). case_decide; [congruence|done].
  - apply bind_Ret in Hset as Hset'. destruct Hset' as (i & Hi%expect_Ret & _).
    destruct (set_committed_spec d r i Hwf Hi) as (d1 & Hd1 & Hwf1 & Hlk & _).
    assert (d1 = d') as -> by congruence. auto.
  - unfold link_causal_history in Hlink. apply bind_Ret in Hlink as ([m l] & Hl & Hlink).
    simplify_eq. apply Hsame, dag_wf_frame; try done.
    intros r. by eapply link_loop_blocks.
  - destruct (add_commit_spec d c d' Hwf Hround Hadd) as (? & ? & _). auto.
  - apply Hsame, dag_wf_frame; done.
  - unfold add_commit_info in Hinfo. outcome_inv. apply Hsame, dag_wf_frame; done.
  - apply Hsame, dag_wf_frame; done.
  - apply Hsame, dag_wf_frame; done.
  - unfold add_scoring_subdags in Hscore. outcome_inv. apply Hsame, dag_wf_frame; done.
  - apply Hsame, dag_wf_frame; done.
  - destruct (flush_spec d Hwf) as (d1 & Hd1 & [_ Hwf1] & Hlk & _).
    assert (d1 = d') as -> by congruence. auto.
Qed.
End Reachable.

(** * Start-up on an empty store *)

Section Startup.
Context `{Crypto} (ctx : Context).
Context (Hbcs : ∀ b, is_Some (bcs_signed_block b)).

Lemma genesis_block_spec a :
  ∃ b, genesis_block ctx a = Ret b ∧ vb_round b = 0 ∧ vb_author b = a.
Proof.
  unfold genesis_block. match goal with |- context [bcs_signed_block ?b] => destruct (Hbcs b) as [s Hs] end.
  rewrite Hs. simpl. eexists. split; [done|].
  unfold vb_round, vb_author, vb_inner, SignedBlock_new_genesis. simpl.
  by destruct (mysticeti_fastpath _).
Qed.

Lemma genesis_blocks_spec :
  ∃ l, genesis_blocks ctx = Ret l ∧ Forall (λ b, vb_round b = 0) l ∧
    vb_author <$> l = fst <$> Committee_enumerate (committee ctx).
Proof.
  unfold genesis_blocks. induction (Committee_enumerate (committee ctx)) as [|[i a] es IH].
  - by exists [].
  - destruct IH as (l & Hl & Hr & Ha). destruct (genesis_block_spec i) as (b & Hb & Hbr & Hba).
    exists (b :: l). cbn [mapM]. rewrite Hb. cbn [mbind outcome_bind]. rewrite Hl.
    split; [done|]. split; [by constructor|]. csimpl. by rewrite Hba, Ha.
Qed.

Lemma enumerate_fst c :
  fst <$> Committee_enumerate c = N.of_nat <$> seq 0 (length (committee_authorities c)).
Proof.
  unfold Committee_enumerate. rewrite fmap_imap. apply list_eq. intros i.
  rewrite list_lookup_imap, list_lookup_fmap.
  destruct (committee_authorities c !! i) as [a|] eqn:Ha; simpl.
  - apply lookup_lt_Some in Ha. rewrite lookup_seq_lt by done. done.
  - apply lookup_ge_None in Ha. by rewrite lookup_seq_ge.
Qed.

Context (Hc : committee_wf (committee ctx)).
Context (Hown : is_valid_index (committee ctx) (own_index ctx) = true).
Context (Hcached : 0 < dag_state_cached_rounds ctx).

(** A state with nothing accepted yet. *)
Record fresh (d : DagState MemStore) : Prop := {
  fr_context : ds_context d = ctx;
  fr_recent : ds_recent_blocks d = ∅;
  fr_refs : ds_recent_refs_by_authority d = replicate (N.to_nat (Committee_size (committee ctx))) ∅;
  fr_evicted : length (ds_evicted_rounds d) = N.to_nat (Committee_size (committee ctx));
  fr_evicted_rounds : ∀ i e, ds_evicted_rounds d !! i = Some e → e = 0;
  fr_clock : ds_threshold_clock d = ThresholdClock_new 1;
  fr_highest : ds_highest_accepted_round d = 0;
  fr_committed : ds_last_committed_rounds d = replicate (N.to_nat (Committee_size (committee ctx))) 0;
  fr_scoring : ds_scoring_subdag d = ScoringSubdag_new;
  fr_last_commit : ds_last_commit d = None;
  fr_to_write : ds_blocks_to_write d = [];
  fr_store : ds_store d = MemStore_new;
  fr_cached : ds_cached_rounds d = dag_state_cached_rounds ctx;
  fr_genesis : ∃ l, genesis_blocks ctx = Ret l ∧
    ds_genesis d = list_to_map ((λ b, (reference b, b)) <$> l);
  fr_votes : ds_pending_commit_votes d = [];
}.

Lemma fresh_wf d : fresh d → dag_wf d ∧
  ∀ r, dag_lookup d r = (if br_round r =? 0 then ds_genesis d !! r else None).
Proof.
  intros [Hctx Hrec Hrefs Hev _ _ _ _ _ Hlc Htw Hst Hcr (l & Hl & Hg)].
  destruct genesis_blocks_spec as (l' & Hl' & Hround & Hauth). assert (l = l') as -> by congruence.
  rewrite enumerate_fst in Hauth.
  assert (NoDup ((λ b, (reference b, b)) <$> l').*1) as Hnd.
  { rewrite <- list_fmap_compose. apply (NoDup_fmap_1 br_author). rewrite <- list_fmap_compose.
    change (NoDup (vb_author <$> l')). rewrite Hauth. apply NoDup_fmap_2; [apply _|apply NoDup_seq]. }
  assert (∀ r b, ds_genesis d !! r = Some b ↔ b ∈ l' ∧ reference b = r) as Hgl.
  { intros r b. rewrite Hg. rewrite <- (elem_of_list_to_map (M:=gmap BlockRef) _ _ _ Hnd), list_elem_of_fmap.
    split; [intros (? & [= -> ->] & ?); done|]. intros [? <-]. by exists b. }
  rewrite Forall_forall in Hround.
  split.
  - split; [split|..]; unfold dag_committee; rewrite ?Hctx, ?Hrec, ?Htw, ?Hst, ?Hcr, ?Hrefs, ?Hev;
      try done.
    + rewrite length_replicate. lia.
    + lia.
    + intros r b [Hin <-]%Hgl. split; [done|]. by apply Hround.
    + intros a Ha. unfold is_valid_index in Ha. apply bool_decide_eq_true in Ha.
      unfold Committee_size in Ha.
      assert (a ∈ vb_author <$> l') as Hin.
      { rewrite Hauth, list_elem_of_fmap. exists (N.to_nat a). rewrite elem_of_seq. lia. }
      apply list_elem_of_fmap in Hin as (b & -> & Hb). exists (reference b).
      split; [|done]. exists b. by apply Hgl.
    + intros a refs [-> _]%lookup_replicate r. rewrite lookup_empty. split; [set_solver|].
      intros [[? ?] _]. done.
    + set_solver.
  - intros r. unfold dag_lookup. rewrite Hrec, Hst. done.
Qed.

Lemma recover_authority_fresh d a :
  fresh d → is_valid_index (committee ctx) a = true →
  ∃ d', recover_authority d a = Ret d' ∧ fresh d'.
Proof.
  intros Hf Ha. unfold recover_authority. rewrite (fr_store d Hf).
  change (store_scan_last_blocks_by_author MemStore_new a 1 None) with (Ret (@nil VerifiedBlock)).
  cbn [mbind outcome_bind].
  change (store_scan_blocks_by_author MemStore_new a ?[r]) with (Ret (@nil VerifiedBlock)).
  cbn [mbind outcome_bind foldM]. unfold vec_set. rewrite decide_True.
  2: { rewrite (fr_evicted d Hf). apply bool_decide_eq_true in Ha. lia. }
  eexists. split; [done|]. destruct Hf as [Hx ? ? ? He ? ? ? ? Hlc ? ? ? ?]. split; try done; [simpl; by rewrite length_insert|].
  intros i e [(<- & <- & _)|[_ Hi]]%list_lookup_insert_Some; [|by apply (He i)].
  unfold eviction_round, dag_gc_round, calculate_gc_round, last_commit_round. rewrite Hlc. cbn.
  unfold saturating_sub, GENESIS_ROUND. lia.
Qed.

Lemma DagState_new_fresh : ∃ d, DagState_new ctx MemStore_new = Ret d ∧ fresh d.
Proof.
  destruct genesis_blocks_spec as (l & Hl & _ & _).
  unfold DagState_new. rewrite Hl. cbn [mbind outcome_bind].
  change (store_read_last_commit MemStore_new) with (Ret (@None TrustedCommit)).
  change (store_read_last_commit_info MemStore_new) with (Ret (@None (CommitRef * CommitInfo))).
  simpl.
  match goal with |- context [foldM _ ?x (Committee_enumerate _)] => set (d0 := x) end.
  assert (fresh d0) as Hfresh.
  { split; try done; [simpl; by rewrite length_replicate|by intros i e [-> _]%lookup_replicate|]. by exists l. }
  assert (∀ (es : list (N * Authority)) d, fresh d →
    Forall (λ e, is_valid_index (committee ctx) e.1 = true) es →
    ∃ d', foldM (λ d e, recover_authority d e.1) d es = Ret d' ∧ fresh d') as Hloop.
  { clear d0 Hfresh. intros es. induction es as [|e es IH]; intros d Hf Hes; [by exists d|].
    apply Forall_cons in Hes as [He Hes]. cbn [foldM].
    destruct (recover_authority_fresh d e.1 Hf He) as (d1 & -> & Hf1). by apply IH. }
  destruct (Hloop _ d0 Hfresh (Committee_enumerate_valid (committee ctx))) as (d & Hd & Hf).
  rewrite Hd. simpl. eauto.
Qed.
End Startup.

(** * Properties *)

(** C26. Started on an empty store, the DAG state is well formed and shows only the genesis
    blocks; every sequence of operations that does not panic keeps it well formed and
    append-only: a block once found under a reference is found there for ever, through
    commits, marks, flushes and evictions. *)
Theorem DagState_reachable `{Crypto} ctx :
  (∀ b, is_Some (bcs_signed_block b)) → committee_wf (committee ctx) →
  is_valid_index (committee ctx) (own_index ctx) = true → 0 < dag_state_cached_rounds ctx →
  ∃ d0, DagState_new ctx MemStore_new = Ret d0 ∧
    (∀ r, dag_lookup d0 r = (if br_round r =? 0 then ds_genesis d0 !! r else None)) ∧
    ∀ d, rtc dag_step d0 d → dag_wf d ∧
      ∀ d', rtc dag_step d d' → ∀ r b, dag_lookup d r = Some b → dag_lookup d' r = Some b.
Proof.
  intros Hbcs Hc Hown Hcached.
  destruct (DagState_new_fresh ctx Hbcs Hown Hcached) as (d0 & Hd0 & Hf).
  destruct (fresh_wf ctx Hbcs Hc Hown Hcached d0 Hf) as [Hwf0 Hlk].
  exists d0. split; [done|]. split; [done|].
  assert (∀ d d' : DagState MemStore, rtc dag_step d d' → dag_wf d →
    dag_wf d' ∧ ∀ r b, dag_lookup d r = Some b → dag_lookup d' r = Some b) as Hrtc.
  { induction 1 as [d|d d1 d2 Hs _ IH]; intros Hwf; [done|].
    destruct (dag_step_wf d d1 Hwf Hs) as [Hwf1 Hm1]. destruct (IH Hwf1) as [Hwf2 Hm2].
    split; [done|]. auto. }
  intros d Hd. destruct (Hrtc _ _ Hd Hwf0) as [Hwf _]. split; [done|].
  intros d' Hd'. by apply Hrtc.
Qed.

Definition sample_crypto : Crypto := {|
  bcs_block := λ _, Some []; bcs_signed_block := λ _, Some []; bcs_intent := λ _, Some [];
  hash := λ _, 7; sign := λ _ _, []; signature_from_bytes := λ s, Some s;
  signature_verify := λ _ _ _, true |}.

Lemma DagState_reachable_witness :
  ∃ d0, DagState_new (H0 := sample_crypto) (sample_context 4 60) MemStore_new = Ret d0 ∧
    ∃ d, accept_block d0 (sample_block 1 2 77 []) = Ret d ∧ dag_wf d.
Proof.
  destruct (DagState_reachable (H := sample_crypto) (sample_context 4 60)) as (d0 & Hd0 & _ & Hr).
  - intros b. by exists [].
  - apply sample_committee_wf. lia.
  - reflexivity.
  - reflexivity.
  - exists d0. split; [exact Hd0|].
    assert (∃ d, accept_block d0 (sample_block 1 2 77 []) = Ret d) as [d Hd].
    { vm_compute in Hd0. injection Hd0 as <-. vm_compute. eexists. reflexivity. }
    exists d. split; [exact Hd|]. apply Hr. eapply rtc_l; [|apply rtc_refl].
    apply (step_accept _ (sample_block 1 2 77 [])); [|exact Hd].
    vm_compute in Hd0. injection Hd0 as <-. repeat split; vm_compute; done || discriminate.
Defined.

(** C27. Accepting a block whose reference passed verification: a block already known, in
    memory or in storage, changes nothing; a new one becomes visible under its reference,
    is queued for writing, and leaves every other lookup unchanged; and the only panic is
    a second block of this authority in a slot it already used. *)
Theorem accept_block_refines {S} `{StoreSpec S} (d : DagState S) b :
  dag_wf d → acceptable d b →
  match dag_lookup d (reference b) with
  | Some _ => accept_block d b = Ret d
  | None =>
      (slot_free d b → ∃ d', accept_block d b = Ret d' ∧ dag_wf d' ∧
         ds_blocks_to_write d' = ds_blocks_to_write d ++ [b] ∧
         ∀ r, dag_lookup d' r = if decide (r = reference b) then Some b else dag_lookup d r) ∧
      (¬ slot_free d b → accept_block d b = Panic)
  end.
Proof.
  intros Hwf (Hb & Hr & Ha). destruct (dag_lookup d (reference b)) as [b0|] eqn:Hlk.
  - by apply (accept_block_contained d b b0).
  - destruct (accept_block_new d b Hwf Hb Hr Ha Hlk) as [Hok Hno]. split; [|done].
    intros Hfree. destruct (Hok Hfree) as (d' & Hd' & Hacc & Hwf'). exists d'.
    split; [done|]. split; [done|]. split; [by apply Hacc|]. intros r. by apply accepted_lookup.
Qed.

Lemma accept_block_refines_witness :
  let b := sample_block 1 1 50 [mkBlockRef 0 1 1001] in
  let d := sample_dag 4 0 [] in
  ∃ d', accept_block d b = Ret d' ∧ dag_lookup d' (reference b) = Some b.
Proof.
  intros b d.
  pose proof (accept_block_refines d b (sample_dag_wf 4 0 [] eq_refl)) as Hacc.
  replace (dag_lookup d (reference b)) with (@None VerifiedBlock) in Hacc by reflexivity.
  destruct Hacc as [Hok _]; [repeat split; vm_compute; done || discriminate|].
  destruct Hok as (d' & Hd' & _ & _ & Hlk); [intros Hown; vm_compute in Hown; discriminate|].
  exists d'. split; [exact Hd'|]. rewrite Hlk. reflexivity.
Defined.

(** Reading blocks and checking their existence agree with the abstract map, for any
    list of references by committee members: the batched read puts each stored answer
    back in its position, and the existence check, which skips the store for references
    above the cached rounds, never misses a stored block. *)
Theorem DagState_reads_refine {S} `{StoreSpec S} (d : DagState S) refs :
  dag_wf d → Forall (λ r, is_valid_index (dag_committee d) (br_author r) = true) refs →
  get_blocks d refs = Ret (dag_lookup d <$> refs) ∧
  contains_blocks d refs = Ret ((λ r, bool_decide (is_Some (dag_lookup d r))) <$> refs).
Proof. intros Hwf Hr. split; [apply get_blocks_lookup|by apply contains_blocks_lookup]. Qed.

Lemma DagState_reads_refine_witness :
  let b := sample_block 3 1 50 [] in
  let d := sample_dag 4 0 [b] in
  contains_blocks d [reference b; mkBlockRef 2 1 9; mkBlockRef 0 3 1003; mkBlockRef 9 2 1]
    = Ret [true; false; true; false].
Proof.
  intros b d.
  destruct (DagState_reads_refine d
    [reference b; mkBlockRef 2 1 9; mkBlockRef 0 3 1003; mkBlockRef 9 2 1]) as [_ Hc].
  - apply sample_dag_wf. reflexivity.
  - repeat constructor.
  - rewrite Hc. reflexivity.
Defined.

(** C28. A flush of a well-formed state succeeds, writes every buffered block and commit,
    and changes no lookup: every visible block above genesis is then in the store, and
    the cache still holds, with their marks, all blocks above the garbage collection
    round; only blocks at or below it are evicted. *)
Theorem flush_refines {S} `{StoreSpec S} (d : DagState S) :
  dag_wf d →
  ∃ d', flush d = Ret d' ∧ dag_wf d' ∧ ds_blocks_to_write d' = [] ∧
    (∀ r, dag_lookup d' r = dag_lookup d r) ∧
    (∀ r b, 0 < br_round r → dag_lookup d r = Some b → sv_blocks (ds_store d') !! r = Some b) ∧
    (∀ r i, ds_recent_blocks d !! r = Some i → dag_gc_round d < br_round r →
       ds_recent_blocks d' !! r = Some i) ∧
    sv_commits (ds_store d') = insert_commits (sv_commits (ds_store d)) (ds_commits_to_write d).
Proof.
  intros Hwf. destruct (flush_spec d Hwf) as (d' & Hd' & [Htw Hwf'] & Hlk & _ & Hkept & Hcm).
  exists d'. split; [done|]. split; [done|]. split; [done|]. split; [done|]. split; [|done].
  intros r b Hr Hb. rewrite <- Hlk in Hb. unfold dag_lookup in Hb.
  rewrite (proj2 (N.eqb_neq _ _)) in Hb by (unfold GENESIS_ROUND; lia).
  destruct (ds_recent_blocks d' !! r) as [i|] eqn:Hi; [|done]. simplify_eq.
  destruct (dwf_written d' Hwf' _ _ Hi) as [Hin|?]; [|done]. rewrite Htw in Hin. set_solver.
Qed.

Lemma flush_refines_witness :
  let b := sample_block 3 1 50 [] in
  ∃ d', flush (sample_dag 4 0 [b]) = Ret d' ∧ sv_blocks (ds_store d') !! reference b = Some b.
Proof.
  intros b.
  destruct (flush_refines (sample_dag 4 0 [b])) as (d' & Hd' & _ & _ & _ & Hst & _).
  - apply sample_dag_wf. reflexivity.
  - exists d'. split; [exact Hd'|]. apply Hst; reflexivity.
Defined.

(** In a DAG whose history is complete above the garbage collection round, the
    traversal for the ancestors of a known block at a later round terminates, within as
    many pops as there are cached blocks, without panicking, and returns exactly the
    blocks of that round in the causal history, each once, in ascending order. *)
Theorem ancestors_at_round_exact {S} `{StoreSpec S} (d : DagState S) fuel b e :
  dag_wf d → universe_wf (dag_gc_round d) (dag_lookup d) → dag_gc_round d < e →
  (size (ds_recent_blocks d) ≤ fuel)%nat → dag_lookup d (reference b) = Some b →
  ∃ bs, ancestors_at_round fuel d b e = Ret bs ∧
    StronglySorted BlockRef_leb (reference <$> bs) ∧ NoDup (reference <$> bs) ∧
    ∀ x, x ∈ bs ↔ dag_lookup d (reference x) = Some x ∧ vb_round x = e ∧ e < vb_round b ∧
                  rtc (parent (dag_lookup d)) (reference b) (reference x).
Proof. intros Hwf HU He Hfuel Hb. by apply ancestors_at_round_spec. Qed.

Definition sample_chain : list VerifiedBlock :=
  let a1 := sample_block 1 0 11 [mkBlockRef 0 0 1000; mkBlockRef 0 1 1001] in
  let b1 := sample_block 1 1 12 [mkBlockRef 0 1 1001] in
  let a2 := sample_block 2 0 21 [reference a1; reference b1] in
  let b3 := sample_block 3 1 32 [reference a2; reference b1] in [a1; b1; a2; b3].

Lemma ancestors_at_round_exact_witness :
  let b := sample_block 3 1 32 [mkBlockRef 2 0 21; mkBlockRef 1 1 12] in
  ∃ bs, ancestors_at_round 4 (sample_dag 4 0 sample_chain) b 1 = Ret bs ∧
    sample_block 1 1 12 [mkBlockRef 0 1 1001] ∈ bs.
Proof.
  intros b.
  destruct (ancestors_at_round_exact (sample_dag 4 0 sample_chain) 4 b 1) as (bs & Hbs & _ & _ & Hin).
  - apply sample_dag_wf. reflexivity.
  - apply sample_universe_wf. reflexivity.
  - reflexivity.
  - vm_compute. lia.
  - reflexivity.
  - exists bs. split; [exact Hbs|]. apply Hin. split; [reflexivity|]. split; [reflexivity|].
    split; [reflexivity|]. apply rtc_once. exists b. split; [reflexivity|]. vm_compute. by right; left.
Defined.

(** Linking changes nothing but the marks. *)
Lemma link_loop_frame fuel gc targets m linked m' linked' r :
  link_loop fuel gc targets m linked = Ret (m', linked') →
  (λ i, (bi_block i, bi_committed i)) <$> m' !! r = (λ i, (bi_block i, bi_committed i)) <$> m !! r.
Proof.
  revert targets m linked. induction fuel as [|fuel IH]; intros [|t targets] m linked Hl;
    simpl in Hl; simplify_eq; [done|done|].
  destruct (br_round t <=? gc); [by eapply IH|].
  apply bind_Ret in Hl as (i & Hi%expect_Ret & Hl).
  destruct (bi_hard_linked i); [by eapply IH|]. rewrite (IH _ _ _ Hl).
  destruct (decide (t = r)) as [->|Hne].
  - by rewrite lookup_insert_eq, Hi.
  - by rewrite lookup_insert_ne.
Qed.

Lemma link_causal_history_spec {S} `{StoreSpec S} (d : DagState S) root :
  dag_wf d → universe_wf (dag_gc_round d) (dag_lookup d) →
  (dag_gc_round d < br_round root → is_Some (dag_lookup d root)) →
  (∀ r r', is_linked (ds_recent_blocks d) r → parent (dag_lookup d) r r' →
     dag_gc_round d < br_round r' → is_linked (ds_recent_blocks d) r') →
  ∃ d' linked, link_causal_history d root = Ret (d', linked) ∧ dag_wf d' ∧
    (∀ r, dag_lookup d' r = dag_lookup d r) ∧ NoDup linked ∧
    (∀ r, is_linked (ds_recent_blocks d') r ↔
       is_linked (ds_recent_blocks d) r ∨ r ∈ linked) ∧
    (∀ r, r ∈ linked ↔ ¬ is_linked (ds_recent_blocks d) r ∧ dag_gc_round d < br_round r ∧
                       rtc (parent (dag_lookup d)) root r) ∧
    d' = d <| ds_recent_blocks := ds_recent_blocks d' |> ∧
    ∀ r, (λ i, (bi_block i, bi_committed i)) <$> ds_recent_blocks d' !! r
         = (λ i, (bi_block i, bi_committed i)) <$> ds_recent_blocks d !! r.
Proof.
  intros Hwf HU Hroot Hclosed. set (U := dag_lookup d) in *. set (m := ds_recent_blocks d) in *.
  assert (link_inv U (dag_gc_round d) m root [root] m []) as Hinv.
  { split; try done.
    - split.
      + intros r i Hi. exact (dag_lookup_recent d r i Hwf Hi).
      + intros r Hr [b Hb]. destruct (dag_lookup_cached d r b Hwf Hb Hr) as (i & Hi & _). eauto.
    - intros r r' Hl Hp Hr. left. by eapply Hclosed.
    - intros r ->%list_elem_of_singleton. done.
    - intros _. right. apply list_elem_of_here.
    - intros r. set_solver.
    - set_solver.
    - constructor. }
  destruct (link_loop_spec U (dag_gc_round d) HU (link_fuel m) m root [root] m [] Hinv)
    as (m' & linked & Hloop & Hinv').
  { intros r ->%list_elem_of_singleton. done. }
  { pose proof (unlinked_size_le m). unfold link_fuel. simpl. lia. }
  unfold link_causal_history. fold m. rewrite Hloop. simpl. eexists _, linked. split; [done|].
  match goal with |- dag_wf ?x ∧ _ => set (d' := x) end.
  destruct (dag_wf_frame d d' Hwf) as [Hwf' Hlk]; try done.
  { intros r. simpl. by eapply link_loop_blocks. }
  split; [done|]. split; [done|]. split; [apply Hinv'|]. split; [apply Hinv'|].
  split; [|split; [done|intros r; by eapply link_loop_frame]].
  intros r. split; [apply Hinv'|]. intros (Hn & Hr & Hrtc).
  pose proof (link_result U (dag_gc_round d) HU _ _ _ _ Hinv' r Hr Hrtc) as Hl.
  apply (li_linked _ _ _ _ _ _ _ Hinv') in Hl. tauto.
Qed.

(** C25. Hard-linking the history of a block: when the marks are closed under the causal
    history above the garbage collection round and the root is known, the work list
    empties within its bound without panicking; afterwards exactly the blocks that were
    marked before or are above the round in the root's history (the root included) are
    marked, the returned references are the newly marked ones, each once, and nothing
    else of the state changes. *)
Theorem link_causal_history_exact {S} `{StoreSpec S} (d : DagState S) root :
  dag_wf d → universe_wf (dag_gc_round d) (dag_lookup d) →
  (dag_gc_round d < br_round root → is_Some (dag_lookup d root)) →
  (∀ r r', is_linked (ds_recent_blocks d) r → parent (dag_lookup d) r r' →
     dag_gc_round d < br_round r' → is_linked (ds_recent_blocks d) r') →
  ∃ d' linked, link_causal_history d root = Ret (d', linked) ∧ dag_wf d' ∧
    (∀ r, dag_lookup d' r = dag_lookup d r) ∧ NoDup linked ∧
    (∀ r, is_linked (ds_recent_blocks d') r ↔
       is_linked (ds_recent_blocks d) r ∨ r ∈ linked) ∧
    (∀ r, r ∈ linked ↔ ¬ is_linked (ds_recent_blocks d) r ∧ dag_gc_round d < br_round r ∧
                       rtc (parent (dag_lookup d)) root r).
Proof.
  intros Hwf HU Hroot Hclosed.
  destruct (link_causal_history_spec d root Hwf HU Hroot Hclosed) as (d' & linked & ? & ? & ? & ? & ? & ? & _).
  by exists d', linked.
Qed.

Lemma link_causal_history_exact_witness :
  ∃ d' linked, link_causal_history (sample_dag 4 0 sample_chain) (mkBlockRef 2 0 21) = Ret (d', linked) ∧
    mkBlockRef 1 1 12 ∈ linked.
Proof.
  destruct (link_causal_history_exact (sample_dag 4 0 sample_chain) (mkBlockRef 2 0 21))
    as (d' & linked & Hl & _ & _ & _ & _ & Hin).
  - apply sample_dag_wf. reflexivity.
  - apply sample_universe_wf. reflexivity.
  - intros _. eexists. reflexivity.
  - intros r r' (i & Hi & Hli). apply (sample_recent_lookup 4 0 sample_chain eq_refl) in Hi
      as (b & _ & _ & ->). discriminate.
  - exists d', linked. split; [exact Hl|]. apply Hin.
    split; [|split; [reflexivity|apply rtc_once; eexists; split; [reflexivity|vm_compute; by right; left]]].
    intros (i & Hi & Hli). apply (sample_recent_lookup 4 0 sample_chain eq_refl) in Hi
      as (b & _ & _ & ->). discriminate.
Defined.
