(* ===== verification/LeaderSchedule.v ===== *)
(** The leader schedule (consensus/core/src/leader_schedule.rs): the stake-weighted
    leader of a round, the table that swaps low scorers for high scorers, and the update
    of the table from the scores of the last window of commits.

    The seeded generator of the [rand] crate is the class [LeaderRng]; its documented
    behaviour is [LeaderRngSpec]. *)

From stdpp Require Import base tactics numbers list gmap sorting strings.
From coqutil Require Import Datatypes.RecordSettersUsingExistingGetters.
From S2P Require Import Prelude.
From S2P Require Import Committee.
From S2P Require Import Block.
From S2P Require Import StakeAggregator.
From S2P Require Import Commit.
From S2P Require Import Store.
From S2P Require Import LeaderScoring.
From S2P Require Import DagState.

Open Scope N_scope.

(** * Third-party random choice *)

(** Each function takes the 32 seed bytes: weighted sampling without replacement
    ([None]: invalid weights), shuffling, and choosing one element ([None]: none there). *)
Class LeaderRng := {
  choose_multiple_weighted : list N → list (N * N) → N → option (list (N * N));
  shuffle : list N → list (N * N) → list (N * N);
  choose : list N → list (N * string * N) → option (N * string * N);
}.

Class LeaderRngSpec `{LeaderRng} := {
  cmw_some : ∀ seed choices amount,
    choices ≠ [] → (∃ c, c ∈ choices ∧ 0 < c.2) →
    ∃ l, choose_multiple_weighted seed choices amount = Some l ∧ l ⊆+ choices ∧
         length l = Nat.min (N.to_nat amount) (length choices);
  shuffle_perm : ∀ seed l, shuffle seed l ≡ₚ l;
  choose_none : ∀ seed l, choose seed l = None ↔ l = [];
  choose_some : ∀ seed l x, choose seed l = Some x → x ∈ l;
}.

(** * Data *)

Record LeaderSwapTable := mkLeaderSwapTable {
  good_nodes : list (N * string * N);
  bad_nodes : gmap N (string * N);
  reputation_scores_desc : list (N * N);
  swap_reputation_scores : ReputationScores;
}.

Definition LeaderSwapTable_default : LeaderSwapTable :=
  mkLeaderSwapTable [] ∅ [] ReputationScores_default.

Record LeaderSchedule := mkLeaderSchedule {
  leader_swap_table : LeaderSwapTable;
  schedule_context : Context;
  num_commits_per_schedule : N;
}.

Definition CONSENSUS_COMMITS_PER_SCHEDULE : N := 300.

Definition LeaderSchedule_new (context : Context) (table : LeaderSwapTable) : LeaderSchedule :=
  mkLeaderSchedule table context CONSENSUS_COMMITS_PER_SCHEDULE.

(** Little-endian bytes of a [u32], and a zero seed with bytes written at a position. *)
Definition u32_le_bytes (v : N) : list N :=
  [v mod 256; (v / 2 ^ 8) mod 256; (v / 2 ^ 16) mod 256; (v / 2 ^ 24) mod 256].
Definition seed_with (writes : list (nat * N)) : list N :=
  foldl (λ seed w, list_inserts w.1 (u32_le_bytes w.2) seed) (replicate 32 0) writes.

(** * The swap table *)

(** The longest prefix of the authorities whose stake stays within the percentage. *)
Fixpoint retrieve_first_nodes (c : Committee) (authorities : list (N * N)) (stake_threshold : N)
    (stake : N) : outcome (list (N * string * N)) :=
  match authorities with
  | [] => Ret []
  | (authority_idx, _) :: authorities =>
      s ← Committee_stake c authority_idx;
      let stake := u64_add stake s in
      if u64_mul stake_threshold (committee_total_stake c) / 100 <? stake then Ret []
      else
        authority ← Committee_authority c authority_idx;
        rest ← retrieve_first_nodes c authorities stake_threshold stake;
        Ret ((authority_idx, authority_hostname authority, authority_stake authority) :: rest)
  end.

Definition score_desc_leb (a b : N * N) : bool := b.2 <=? a.2.

Definition new_inner `{LeaderRng} (context : Context) (swap_stake_threshold commit_index : N)
    (reputation_scores : ReputationScores) : outcome LeaderSwapTable :=
  let c := committee context in
  _ ← assert_that (swap_stake_threshold <=? 33);
  match scores_per_authority reputation_scores with
  | [] => Ret LeaderSwapTable_default
  | _ =>
      by_score ← authorities_by_score c reputation_scores;
      _ ← assert_that (N.of_nat (length by_score) =? Committee_size c);
      let by_score := isort score_desc_leb (shuffle (seed_with [(28%nat, commit_index)]) by_score) in
      good ← retrieve_first_nodes c by_score swap_stake_threshold 0;
      bad ← retrieve_first_nodes c (reverse by_score) swap_stake_threshold 0;
      Ret (mkLeaderSwapTable good (list_to_map ((λ '(idx, host, st), (idx, (host, st))) <$> bad))
             by_score reputation_scores)
  end.

Definition LeaderSwapTable_new `{LeaderRng} (context : Context) (commit_index : N)
    (reputation_scores : ReputationScores) : outcome LeaderSwapTable :=
  new_inner context (consensus_bad_nodes_stake_threshold (protocol_config context)) commit_index
    reputation_scores.

Definition swap `{LeaderRng} (t : LeaderSwapTable) (leader leader_round leader_offset : N)
    : outcome (option N) :=
  match bad_nodes t !! leader with
  | Some _ =>
      _ ← assert_that (leader_offset =? 0);
      chosen ← expect (choose (seed_with [(24%nat, leader_round); (28%nat, leader_offset)]) (good_nodes t));
      Ret (Some chosen.1.1)
  | None => Ret None
  end.

(** * The schedule *)

Definition elect_leader_stake_based `{LeaderRng} (context : Context) (round offset : N) : outcome N :=
  let c := committee context in
  _ ← assert_that (offset <? Committee_size c);
  let choices := (λ '(i, a), (i, authority_stake a)) <$> Committee_enumerate c in
  chosen ← expect (choose_multiple_weighted (seed_with [(28%nat, round)]) choices (Committee_size c));
  leader ← expect (head (drop (N.to_nat offset) chosen));
  Ret leader.1.

Definition schedule_elect_leader `{LeaderRng} (s : LeaderSchedule) (round leader_offset : N) : outcome N :=
  leader ← elect_leader_stake_based (schedule_context s) round leader_offset;
  swapped ← swap (leader_swap_table s) leader round leader_offset;
  Ret (default leader swapped).

Definition update_leader_swap_table (s : LeaderSchedule) (table : LeaderSwapTable)
    : outcome LeaderSchedule :=
  let old_range := scores_commit_range (swap_reputation_scores (leader_swap_table s)) in
  let new_range := scores_commit_range (swap_reputation_scores table) in
  _ ← (if decide (old_range = CommitRange_default) then Ret tt
       else if CommitRange_is_next_range old_range new_range then
         equal ← CommitRange_is_equal_size old_range new_range; assert_that equal
       else Panic);
  Ret (s <| leader_swap_table := table |>).

Section WithStore.
Context {S : Type} `{Store S} `{LeaderRng}.

Definition LeaderSchedule_from_store (context : Context) (d : DagState S) : outcome LeaderSchedule :=
  info ← recover_last_commit_info d;
  table ← match info with
          | None => Ret LeaderSwapTable_default
          | Some (last_commit_ref, last_commit_info) =>
              LeaderSwapTable_new context (cr_index last_commit_ref)
                (ci_reputation_scores last_commit_info)
          end;
  _ ← scoring_subdags_count d;
  Ret (LeaderSchedule_new context table).

Definition commits_until_leader_schedule_update (s : LeaderSchedule) (d : DagState S) : outcome N :=
  subdag_count ← scoring_subdags_count d;
  _ ← assert_that (subdag_count <=? num_commits_per_schedule s);
  Ret (num_commits_per_schedule s - subdag_count).

Definition leader_schedule_updated (d : DagState S) : bool := is_scoring_subdag_empty d.

Definition update_leader_schedule_v2 (s : LeaderSchedule) (d : DagState S)
    : outcome (LeaderSchedule * DagState S) :=
  reputation_scores ← calculate_scoring_subdag_scores d;
  last_commit_index ← scoring_subdag_commit_range d;
  let d := clear_scoring_subdag d in
  d ← add_commit_info d reputation_scores;
  table ← LeaderSwapTable_new (schedule_context s) last_commit_index reputation_scores;
  s ← update_leader_swap_table s table;
  Ret (s, d).
End WithStore.

(** * Lemmas *)

(** The stake allowed to a percentage, and the prefix that stays within it. *)
Definition stake_limit (c : Committee) (threshold : N) : N :=
  threshold * committee_total_stake c / 100.

Section Nodes.
Context (c : Committee) (Hc : committee_wf c).
Context (threshold : N) (Hover : threshold * committee_total_stake c < 2 ^ 64).

Definition node_of (i : N) : option (N * string * N) :=
  (λ a, (i, authority_hostname a, authority_stake a)) <$> committee_authorities c !! N.to_nat i.

Lemma node_of_fst i x : node_of i = Some x → x.1.1 = i ∧ x.2 = stake_of c i.
Proof.
  unfold node_of, stake_of. destruct (committee_authorities c !! N.to_nat i); naive_solver.
Qed.

(** The nodes returned are those of the longest prefix within the limit. *)
Lemma retrieve_first_nodes_spec auths acc :
  Forall (λ a, is_valid_index c a.1 = true) auths →
  acc + nsum (stake_of c ∘ fst <$> auths) < 2 ^ 64 → acc ≤ stake_limit c threshold →
  ∃ n nodes, retrieve_first_nodes c auths threshold acc = Ret nodes ∧
    (n ≤ length auths)%nat ∧ (λ x, x.1.1) <$> nodes = fst <$> take n auths ∧
    acc + nsum (stake_of c ∘ fst <$> take n auths) ≤ stake_limit c threshold ∧
    ((n < length auths)%nat →
      stake_limit c threshold < acc + nsum (stake_of c ∘ fst <$> take (S n) auths)).
Proof.
  intros Hall. revert acc. induction Hall as [|[i s] auths Hi Hall IH]; intros acc Hsum Hacc.
  { exists 0%nat, []. simpl. split; [done|]. split; [done|]. split; [done|]. split; [lia|lia]. }
  simpl. rewrite Committee_stake_valid by done. simpl. csimpl in Hsum. simpl in Hsum.
  rewrite u64_mul_small, u64_add_small by lia.
  change (threshold * committee_total_stake c / 100) with (stake_limit c threshold).
  destruct (N.ltb_spec (stake_limit c threshold) (acc + stake_of c i)) as [Hlt|Hge].
  { exists 0%nat, []. simpl. split; [done|]. split; [lia|]. split; [done|]. split; [lia|].
    intros _. unfold compose. simpl. lia. }
  destruct (lookup_lt_is_Some_2 (committee_authorities c) (N.to_nat i)) as [a Ha].
  { apply bool_decide_eq_true in Hi. unfold Committee_size in Hi. simpl in Hi. lia. }
  unfold Committee_authority. rewrite (proj2 (vec_get_Ret _ _ _) Ha). simpl.
  destruct (IH (acc + stake_of c i)) as (n & nodes & -> & Hn & Hidx & Hle & Hgt); [|done|].
  { unfold compose in *. lia. }
  exists (S n), ((i, authority_hostname a, authority_stake a) :: nodes).
  split; [done|]. split; [simpl; lia|]. split; [csimpl; by rewrite Hidx|].
  split; csimpl; simpl; [unfold compose in *; lia|].
  intros Hlen. assert (n < length auths)%nat as Hn' by lia. specialize (Hgt Hn').
  destruct auths as [|b auths]; [simpl in Hn'; lia|]. csimpl. csimpl in Hgt.
  unfold compose in *. simpl in *. lia.
Qed.
End Nodes.

Lemma authorities_by_score_spec c scores :
  N.of_nat (length (scores_per_authority scores)) = Committee_size c →
  ∃ l, authorities_by_score c scores = Ret l ∧
    l = imap (λ i s, (N.of_nat i, s)) (scores_per_authority scores).
Proof.
  intros Hlen. unfold authorities_by_score.
  eexists. split; [|done].
  assert (∀ l, Forall (λ e : N * N, e.1 < Committee_size c) l →
    mapM (λ '(index, score), i ← expect (to_authority_index c index); Ret (i, score)) l = Ret l) as Hm.
  { induction 1 as [|[i s] l Hi _ IH]; [done|]. cbn [mapM]. rewrite IH.
    unfold to_authority_index. by rewrite decide_True. }
  apply Hm, Forall_forall. intros [i s] Hin.
  apply elem_of_lookup_imap in Hin as (n & x & [= -> ->] & Hx%lookup_lt_Some). simpl. lia.
Qed.

Lemma imap_fst_seq {A} (l : list A) :
  fst <$> imap (λ i s, (N.of_nat i, s)) l = N.of_nat <$> seq 0 (length l).
Proof.
  apply list_eq. intros i. rewrite list_lookup_fmap, list_lookup_imap, list_lookup_fmap.
  destruct (l !! i) as [x|] eqn:Hx; simpl.
  - apply lookup_lt_Some in Hx. by rewrite lookup_seq_lt by lia.
  - apply lookup_ge_None in Hx. by rewrite lookup_seq_ge by lia.
Qed.

Lemma StronglySorted_lookup {A} (R : A → A → Prop) l i j x y :
  StronglySorted R l → (i < j)%nat → l !! i = Some x → l !! j = Some y → R x y.
Proof.
  intros Hs. revert i j. induction Hs as [|z l Hl IH Hz]; intros i j Hij Hi Hj; [done|].
  destruct j as [|j]; [lia|]. destruct i as [|i]; simpl in *.
  - simplify_eq. rewrite Forall_forall in Hz. apply Hz. by eapply list_elem_of_lookup_2.
  - apply (IH i j); [lia|done|done].
Qed.

Lemma elem_of_take_list {A} (x : A) n l : x ∈ take n l → x ∈ l.
Proof. intros (i & Hi & _)%elem_of_take. by eapply list_elem_of_lookup_2. Qed.

Lemma NoDup_take {A} n (l : list A) : NoDup l → NoDup (take n l).
Proof. rewrite <- (take_drop n l) at 1. by intros [? _]%NoDup_app. Qed.

Lemma nsum_drop_le l n m : (n ≤ m)%nat → nsum (drop m l) ≤ nsum (drop n l).
Proof.
  intros Hnm. replace m with (n + (m - n))%nat by lia. rewrite <- drop_drop.
  rewrite <- (take_drop (m - n) (drop n l)) at 2. rewrite nsum_app. lia.
Qed.

(** A prefix within the limit and a suffix within the limit do not meet. *)
Lemma prefix_suffix_apart (l : list N) n m lim total :
  nsum l = total → 0 < total → 2 * lim < total → (m ≤ length l)%nat →
  nsum (take n l) ≤ lim → nsum (take m (reverse l)) ≤ lim → (n + m ≤ length l)%nat.
Proof.
  intros Hsum Hpos Hlim Hm Hn Hr. destruct (decide (n + m ≤ length l)%nat) as [?|Hgt]; [done|].
  exfalso. rewrite take_reverse, reverse_Permutation in Hr.
  pose proof (nsum_drop_le l (length l - m) n ltac:(lia)) as Hle.
  rewrite <- (take_drop n l), nsum_app in Hsum. lia.
Qed.

Definition good_set (t : LeaderSwapTable) : list N := (λ x, x.1.1) <$> good_nodes t.

(** What a table built from scores guarantees. *)
Record swap_table_ok (c : Committee) (threshold : N) (scores : list N) (t : LeaderSwapTable) : Prop := {
  sto_good_valid : ∀ i, i ∈ good_set t → is_valid_index c i = true;
  sto_bad_valid : ∀ i, is_Some (bad_nodes t !! i) → is_valid_index c i = true;
  sto_disjoint : ∀ i, i ∈ good_set t → bad_nodes t !! i = None;
  sto_good_stake : weight c (list_to_set (good_set t)) ≤ stake_limit c threshold;
  sto_bad_stake : weight c (dom (bad_nodes t)) ≤ stake_limit c threshold;
  sto_order : ∀ g b, g ∈ good_set t → is_Some (bad_nodes t !! b) →
    ∃ sg sb, scores !! N.to_nat g = Some sg ∧ scores !! N.to_nat b = Some sb ∧ sb ≤ sg;
  sto_good_some : (∀ i, stake_of c i ≤ stake_limit c threshold) → good_set t ≠ [];
}.

Section Table.
Context `{LeaderRngSpec} (ctx : Context).
Let c := committee ctx.
Context (Hc : committee_wf c).
Context (threshold : N) (Hthr : threshold ≤ 33).
Context (Hover : threshold * committee_total_stake c < 2 ^ 64).
Context (rs : ReputationScores).
Context (Hlen : N.of_nat (length (scores_per_authority rs)) = Committee_size c).

Let enumerated : list (N * N) := imap (λ i s, (N.of_nat i, s)) (scores_per_authority rs).

Lemma enumerated_elem i s :
  (i, s) ∈ enumerated ↔ scores_per_authority rs !! N.to_nat i = Some s.
Proof.
  unfold enumerated. rewrite elem_of_lookup_imap. split.
  - intros (n & x & [= -> ->] & Hx). by rewrite Nat2N.id.
  - intros Hs. exists (N.to_nat i), s. by rewrite N2Nat.id.
Qed.

Lemma enumerated_valid l :
  l ≡ₚ enumerated → Forall (λ a, is_valid_index c a.1 = true) l ∧ NoDup (fst <$> l) ∧
    nsum (stake_of c ∘ fst <$> l) = committee_total_stake c.
Proof.
  intros Hp. split; [|split].
  - rewrite Hp. apply Forall_forall. intros [i s] Hin%enumerated_elem%lookup_lt_Some.
    apply bool_decide_eq_true. simpl. lia.
  - rewrite Hp. unfold enumerated. rewrite imap_fst_seq. apply NoDup_fmap_2; [apply _|apply NoDup_seq].
  - rewrite Hp, list_fmap_compose. unfold enumerated. rewrite imap_fst_seq.
    rewrite <- list_fmap_compose, (wf_total c Hc), <- stake_of_seq.
    unfold Committee_size in Hlen. by replace (length (scores_per_authority rs))
      with (length (committee_authorities c)) by lia.
Qed.

(** From the sorted list and the two cut points to the guarantees. *)
Lemma swap_table_ok_cut (l : list (N * N)) n m good bad desc :
  l ≡ₚ enumerated → StronglySorted score_desc_leb l → l ≠ [] →
  (n ≤ length l)%nat → (m ≤ length l)%nat →
  (λ x : N * string * N, x.1.1) <$> good = fst <$> take n l →
  (λ x : N * string * N, x.1.1) <$> bad = fst <$> take m (reverse l) →
  nsum (stake_of c ∘ fst <$> take n l) ≤ stake_limit c threshold →
  nsum (stake_of c ∘ fst <$> take m (reverse l)) ≤ stake_limit c threshold →
  ((n < length l)%nat → stake_limit c threshold < nsum (stake_of c ∘ fst <$> take (S n) l)) →
  swap_table_ok c threshold (scores_per_authority rs)
    (mkLeaderSwapTable good (list_to_map ((λ '(idx, host, st), (idx, (host, st))) <$> bad)) desc rs).
Proof.
  intros Hp Hsort Hne Hn Hm Hgood Hbad Hgs Hbs Hgt.
  destruct (enumerated_valid l Hp) as (Hval & Hnd & Hsum).
  set (lim := stake_limit c threshold) in *.
  assert (n + m ≤ length l)%nat as Hnm.
  { rewrite <- (length_fmap (stake_of c ∘ fst) l).
    apply (prefix_suffix_apart _ n m lim (committee_total_stake c)); rewrite ?length_fmap; try done.
    - apply (wf_total_pos c Hc).
    - pose proof (wf_total_pos c Hc) as Hpos. unfold lim, stake_limit.
      assert (threshold * committee_total_stake c ≤ 33 * committee_total_stake c) as Hmul
        by (apply N.mul_le_mono_r; lia).
      apply (N.Div0.div_le_mono _ _ 100) in Hmul. generalize dependent (committee_total_stake c).
      intros t _ _ Hpos Hmul. lia_div.
    - by rewrite <- fmap_take.
    - by rewrite <- fmap_reverse, <- fmap_take. }
  set (badmap := list_to_map _ : gmap N (string * N)).
  assert (∀ b, is_Some (badmap !! b) ↔ b ∈ fst <$> take m (reverse l)) as Hbm.
  { intros b. rewrite <- Hbad. unfold badmap, is_Some. split.
    - intros [x Hx]. apply elem_of_list_to_map_2 in Hx.
      apply list_elem_of_fmap in Hx as ([[i h] st] & [= -> ->] & Hin).
      apply list_elem_of_fmap. by exists (i, h, st).
    - intros Hin. apply not_eq_None_Some. intros Hnone.
      apply not_elem_of_list_to_map in Hnone. apply Hnone. rewrite <- list_fmap_compose.
      apply list_elem_of_fmap in Hin as ([[i h] st] & -> & Hin).
      apply list_elem_of_fmap. by exists (i, h, st). }
  assert (∀ g b, g ∈ fst <$> take n l → b ∈ fst <$> take m (reverse l) →
    ∃ p q sg sb, (p < q)%nat ∧ l !! p = Some (g, sg) ∧ l !! q = Some (b, sb)) as Hpos.
  { intros g b Hg Hb. apply list_elem_of_fmap in Hg as ([g' sg] & -> & Hg), Hb as ([b' sb] & -> & Hb).
    apply list_elem_of_lookup in Hg as [p Hg], Hb as [q Hb].
    apply lookup_take_Some in Hg as [Hg Hpn], Hb as [Hb Hqm].
    apply reverse_lookup_Some in Hb as [Hb Hq].
    exists p, (length l - S q)%nat, sg, sb. split; [lia|]. done. }
  split; unfold good_set; cbn [good_nodes bad_nodes]; rewrite ?Hgood.
  - intros i Hi. apply list_elem_of_fmap in Hi as ([i' s] & -> & Hin%elem_of_take_list).
    rewrite Forall_forall in Hval. by apply Hval.
  - intros i Hi%Hbm. apply list_elem_of_fmap in Hi as ([i' s] & -> & Hin%elem_of_take_list).
    rewrite Forall_forall in Hval. apply Hval. by apply elem_of_reverse.
  - intros i Hg. destruct (badmap !! i) as [x|] eqn:Hx; [|done]. exfalso.
    destruct (Hpos i i Hg) as (p & q & sg & sb & Hpq & Hlp & Hlq); [apply Hbm; eauto|].
    assert (p = q); [|lia].
    apply (NoDup_lookup (fst <$> l) p q i Hnd); rewrite list_lookup_fmap; [by rewrite Hlp|by rewrite Hlq].
  - unfold weight. rewrite set_sum_list_to_set, <- list_fmap_compose; [done|].
    rewrite fmap_take. by apply NoDup_take.
  - replace (dom badmap) with (list_to_set (fst <$> take m (reverse l)) : gset N)
      by (apply set_eq; intros i; by rewrite elem_of_dom, Hbm, elem_of_list_to_set).
    unfold weight. rewrite set_sum_list_to_set, <- list_fmap_compose; [done|].
    rewrite fmap_take, fmap_reverse. apply NoDup_take. by rewrite reverse_Permutation.
  - intros g b Hg Hb%Hbm. destruct (Hpos g b Hg Hb) as (p & q & sg & sb & Hpq & Hlp & Hlq).
    exists sg, sb.
    split; [apply enumerated_elem; rewrite <- Hp; by eapply list_elem_of_lookup_2|].
    split; [apply enumerated_elem; rewrite <- Hp; by eapply list_elem_of_lookup_2|].
    assert (score_desc_leb (g, sg) (b, sb)) as Hle.
    { by eapply (StronglySorted_lookup score_desc_leb l p q). }
    apply Is_true_true in Hle. unfold score_desc_leb in Hle. simpl in Hle. lia.
  - intros Hall Hnil. destruct n as [|n]; [|destruct l; [done|]; simpl in Hnil; discriminate].
    destruct l as [|[i s] l]; [done|]. simpl in Hgt.
    assert (lim < stake_of c i) as Hlt by (specialize (Hgt ltac:(lia)); unfold compose in Hgt; simpl in Hgt; lia).
    specialize (Hall i). lia.
Qed.

(** The table that is built: the authorities in descending order of their scores, cut at both
    ends where the stake reaches the limit. *)
Lemma new_inner_cut commit_index :
  scores_per_authority rs ≠ [] →
  ∃ l n m good bad, l ≡ₚ enumerated ∧ StronglySorted score_desc_leb l ∧ l ≠ [] ∧ (n ≤ length l)%nat ∧ (m ≤ length l)%nat ∧
    (λ x : N * string * N, x.1.1) <$> good = fst <$> take n l ∧
    (λ x : N * string * N, x.1.1) <$> bad = fst <$> take m (reverse l) ∧
    nsum (stake_of c ∘ fst <$> take n l) ≤ stake_limit c threshold ∧
    nsum (stake_of c ∘ fst <$> take m (reverse l)) ≤ stake_limit c threshold ∧
    ((n < length l)%nat → stake_limit c threshold < nsum (stake_of c ∘ fst <$> take (S n) l)) ∧
    ((m < length l)%nat → stake_limit c threshold < nsum (stake_of c ∘ fst <$> take (S m) (reverse l))) ∧
    new_inner ctx threshold commit_index rs =
      Ret (mkLeaderSwapTable good (list_to_map ((λ '(idx, host, st), (idx, (host, st))) <$> bad)) l rs).
Proof.
  intros Hne. unfold new_inner. fold c. rewrite (proj2 (N.leb_le _ _) Hthr). simpl.
  assert (∀ (l : list N) (a b : outcome LeaderSwapTable), l ≠ [] →
    match l with [] => a | _ :: _ => b end = b) as Hcase by (by intros []).
  rewrite Hcase by done.
  destruct (authorities_by_score_spec c rs Hlen) as (l0 & -> & Hl0). simpl. fold enumerated in Hl0.
  assert (N.of_nat (length l0) = Committee_size c) as ->
    by (rewrite Hl0; unfold enumerated; by rewrite length_imap).
  rewrite N.eqb_refl. simpl.
  set (l := isort score_desc_leb _).
  assert (l ≡ₚ enumerated) as Hp.
  { etransitivity; [apply isort_perm|]. etransitivity; [apply shuffle_perm|]. by rewrite Hl0. }
  assert (reverse l ≡ₚ enumerated) as Hpr by by rewrite reverse_Permutation.
  assert (StronglySorted score_desc_leb l) as Hsort.
  { apply isort_sorted; unfold score_desc_leb; intros; lia. }
  destruct (enumerated_valid l Hp) as (Hval & _ & Hsum).
  destruct (enumerated_valid _ Hpr) as (Hvalr & _ & Hsumr).
  pose proof (wf_total_bound c Hc) as Hb.
  destruct (retrieve_first_nodes_spec c threshold Hover l 0 Hval) as (n & good & -> & Hn & Hg & Hgs & Hgt);
    [lia|lia|]. simpl.
  destruct (retrieve_first_nodes_spec c threshold Hover (reverse l) 0 Hvalr)
    as (m & bad & -> & Hm & Hbd & Hbs & Hbt); [lia|lia|]. simpl.
  exists l, n, m, good, bad. rewrite N.add_0_l in *. rewrite length_reverse in *. repeat (split; [done|]). split; [|done].
  intros Hnil. rewrite Hnil in Hp. apply Permutation_length in Hp. unfold enumerated in Hp.
  rewrite length_imap in Hp. by destruct (scores_per_authority rs).
Qed.

Lemma new_inner_spec commit_index :
  scores_per_authority rs ≠ [] →
  ∃ t, new_inner ctx threshold commit_index rs = Ret t ∧
    swap_table_ok c threshold (scores_per_authority rs) t.
Proof.
  intros Hne. destruct (new_inner_cut commit_index Hne) as (l & n & m & good & bad & ? & ? & ? & ? & ? & ? & ? & ? & ? & ? & _ & ->).
  eexists. split; [done|]. by apply (swap_table_ok_cut l n m).
Qed.

(** Authorities with no higher and with no lower score than theirs. *)
Definition top_scorer (i : N) : Prop :=
  ∃ s, scores_per_authority rs !! N.to_nat i = Some s ∧ ∀ j x, scores_per_authority rs !! j = Some x → x ≤ s.
Definition low_scorer (i : N) : Prop :=
  ∃ s, scores_per_authority rs !! N.to_nat i = Some s ∧ ∀ j x, scores_per_authority rs !! j = Some x → s ≤ x.

Lemma enumerated_lookup (l : list (N * N)) j x :
  l ≡ₚ enumerated → scores_per_authority rs !! j = Some x → (N.of_nat j, x) ∈ l.
Proof. intros -> Hj. apply enumerated_elem. by rewrite Nat2N.id. Qed.

Lemma head_top_scorer i s l : (i, s) :: l ≡ₚ enumerated → StronglySorted score_desc_leb ((i, s) :: l) → top_scorer i.
Proof.
  intros Hp [_ Hall]%StronglySorted_inv. exists s.
  split; [apply enumerated_elem; rewrite <- Hp; apply list_elem_of_here|].
  intros j x Hj. pose proof (enumerated_lookup _ j x Hp Hj) as [[= _ ->]|Hin]%elem_of_cons; [done|].
  rewrite Forall_forall in Hall. specialize (Hall _ Hin). apply Is_true_true in Hall. unfold score_desc_leb in Hall. simpl in Hall. lia.
Qed.

Lemma last_low_scorer i s l : l ++ [(i, s)] ≡ₚ enumerated → StronglySorted score_desc_leb (l ++ [(i, s)]) → low_scorer i.
Proof.
  intros Hp Hsort. apply StronglySorted_app in Hsort as (Hall & _). exists s.
  split; [apply enumerated_elem; rewrite <- Hp; set_solver|].
  intros j x Hj. pose proof (enumerated_lookup _ j x Hp Hj) as [Hin|Hin]%elem_of_app; [|apply list_elem_of_singleton in Hin as [= _ ->]; done].
  specialize (Hall _ (i, s) Hin ltac:(apply list_elem_of_here)). apply Is_true_true in Hall. unfold score_desc_leb in Hall. simpl in Hall. lia.
Qed.

(** Top scorers that are too big for the good nodes, and low scorers that are not for the bad. *)
Lemma new_inner_no_good commit_index :
  scores_per_authority rs ≠ [] →
  (∀ i, top_scorer i → stake_limit c threshold < stake_of c i) → (∀ i, low_scorer i → stake_of c i ≤ stake_limit c threshold) →
  ∃ t low, new_inner ctx threshold commit_index rs = Ret t ∧ good_nodes t = [] ∧ low_scorer low ∧ is_Some (bad_nodes t !! low).
Proof.
  intros Hne Htop Hlow.
  destruct (new_inner_cut commit_index Hne) as (l & n & m & good & bad & Hp & Hsort & Hl & Hn & Hm & Hg & Hb & Hgs & _ & _ & Hbt & ->).
  destruct l as [|[i s] l] using rev_ind; [done|]. clear IHl. rewrite reverse_snoc in *.
  pose proof (last_low_scorer i s l Hp Hsort) as Hi. eexists _, i. split; [done|]. cbn [good_nodes bad_nodes]. split; [|split; [done|]].
  - apply (fmap_nil_inv (λ x : N * string * N, x.1.1)). rewrite Hg. destruct n as [|n]; [done|]. exfalso.
    destruct (l ++ [(i, s)]) as [|[j x] k] eqn:Hk; [by destruct l|].
    pose proof (Htop j (head_top_scorer j x k Hp Hsort)) as Hj. cbn in Hgs. unfold compose in Hgs. cbn in Hgs. lia.
  - destruct m as [|m].
    { specialize (Hbt ltac:(rewrite length_app; simpl; lia)). specialize (Hlow i Hi). cbn in Hbt. unfold compose in Hbt. cbn in Hbt.
      rewrite take_0 in Hbt. cbn in Hbt. lia. }
    cbn [take fmap list_fmap] in Hb. destruct bad as [|[[i' h] st] bad]; [done|]. cbn in Hb. injection Hb as -> _.
    rewrite fmap_cons, list_to_map_cons, lookup_insert_eq. by eexists.
Qed.
End Table.

(** The leader drawn by stake is a member of the committee. *)
Lemma elect_leader_stake_based_valid `{LeaderRngSpec} ctx round offset :
  committee_wf (committee ctx) → offset < Committee_size (committee ctx) →
  ∃ l, elect_leader_stake_based ctx round offset = Ret l ∧ is_valid_index (committee ctx) l = true.
Proof.
  intros Hc Ho. unfold elect_leader_stake_based. set (c := committee ctx) in *.
  rewrite (proj2 (N.ltb_lt _ _) Ho). simpl.
  set (choices := _ <$> Committee_enumerate c).
  assert (∀ x, x ∈ choices → is_valid_index c x.1 = true) as Hval.
  { intros x ([i a] & -> & Hin)%list_elem_of_fmap.
    apply elem_of_lookup_imap in Hin as (n & y & [= -> ->] & Hy%lookup_lt_Some).
    apply bool_decide_eq_true. unfold Committee_size. simpl. lia. }
  assert (length choices = N.to_nat (Committee_size c)) as Hlen.
  { unfold choices, Committee_enumerate, Committee_size. rewrite length_fmap, length_imap. lia. }
  assert (∃ x, x ∈ choices ∧ 0 < x.2) as Hpos.
  { assert (∃ a, a ∈ committee_authorities c ∧ 0 < authority_stake a) as (a & [n Hn]%list_elem_of_lookup & Hpos).
    { pose proof (wf_total_pos c Hc) as Ht. rewrite (wf_total c Hc) in Ht.
      induction (committee_authorities c) as [|a l IH]; [simpl in Ht; lia|].
      destruct (decide (0 < authority_stake a)) as [?|Hz]; [exists a; split; [by left|done]|].
      destruct IH as (x & Hx & Hp); [csimpl in Ht; simpl in Ht; lia|]. exists x. split; [by right|done]. }
    exists (N.of_nat n, authority_stake a). split; [|done]. apply list_elem_of_fmap.
    exists (N.of_nat n, a). split; [done|]. apply elem_of_lookup_imap. eauto. }
  destruct (cmw_some (seed_with [(28%nat, round)]) choices (Committee_size c)) as (l & -> & Hsub & Hl).
  { intros ->. destruct Hpos as (? & ? & _). set_solver. }
  { done. }
  simpl. rewrite Hlen, Nat.min_id in Hl.
  destruct (lookup_lt_is_Some_2 l (N.to_nat offset)) as [x Hx]; [lia|].
  rewrite <- (take_drop_middle l (N.to_nat offset) x Hx) in Hsub |- *.
  rewrite drop_app_ge, length_take, Nat.min_l, Nat.sub_diag by (rewrite ?length_take; lia).
  simpl. exists x.1. split; [done|]. apply Hval.
  eapply elem_of_submseteq; [|done]. set_solver.
Qed.

Lemma committee_nonempty c : committee_wf c → 0 < Committee_size c.
Proof.
  intros Hc. pose proof (wf_total_pos c Hc) as Ht. rewrite (wf_total c Hc) in Ht.
  unfold Committee_size. destruct (committee_authorities c); simpl in *; lia.
Qed.

(** A sound table elects members that are not among the bad nodes. *)
Lemma table_elects `{LeaderRngSpec} ctx threshold scores t n round :
  let c := committee ctx in
  committee_wf c → swap_table_ok c threshold scores t → (∀ i, stake_of c i ≤ stake_limit c threshold) →
  ∃ l, schedule_elect_leader (mkLeaderSchedule t ctx n) round 0 = Ret l ∧
    is_valid_index c l = true ∧ bad_nodes t !! l = None.
Proof.
  intros c Hc Hok Hall.
  destruct (elect_leader_stake_based_valid ctx round 0 Hc (committee_nonempty c Hc)) as (l & Hl & Hval).
  unfold schedule_elect_leader. simpl. rewrite Hl. simpl.
  unfold swap. destruct (bad_nodes t !! l) as [x|] eqn:Hbad; simpl; [|eauto].
  destruct (choose _ (good_nodes t)) as [g|] eqn:Hg; simpl.
  - apply choose_some in Hg. exists g.1.1. split; [done|].
    assert (g.1.1 ∈ good_set t) as Hgs by (apply list_elem_of_fmap; eauto).
    split; [by apply (sto_good_valid _ _ _ _ Hok)|by apply (sto_disjoint _ _ _ _ Hok)].
  - apply choose_none in Hg. exfalso. apply (sto_good_some _ _ _ _ Hok Hall).
    unfold good_set. by rewrite Hg.
Qed.

(** * Properties *)

(** C29. The swap table built from a window's scores is sound, and the leaders elected with
    it are members of the committee that are not among the low scorers. The good and the
    bad nodes are disjoint, each group holds at most the configured percentage of stake,
    and no bad node outscores a good one. This needs the percentage to be at most 33, its
    product with the total stake to fit the machine integer, and no authority to hold more than
    the percentage alone; the election is that of the first leader of a round. *)
Theorem elected_leader_never_bad `{LeaderRngSpec} ctx commit_index rs :
  let c := committee ctx in
  let threshold := consensus_bad_nodes_stake_threshold (protocol_config ctx) in
  committee_wf c → threshold ≤ 33 → threshold * committee_total_stake c < 2 ^ 64 →
  N.of_nat (length (scores_per_authority rs)) = Committee_size c →
  (∀ i, stake_of c i ≤ stake_limit c threshold) →
  ∃ t, LeaderSwapTable_new ctx commit_index rs = Ret t ∧
    swap_table_ok c threshold (scores_per_authority rs) t ∧
    ∀ round, ∃ l, schedule_elect_leader (LeaderSchedule_new ctx t) round 0 = Ret l ∧
      is_valid_index c l = true ∧ bad_nodes t !! l = None.
Proof.
  intros c threshold Hc Hthr Hover Hlen Hall. pose proof (committee_nonempty c Hc) as Hsize.
  destruct (new_inner_spec ctx Hc threshold Hthr Hover rs Hlen commit_index) as (t & Ht & Hok).
  { intros Hn. rewrite Hn in Hlen. fold c in Hlen. simpl in Hlen. lia. }
  exists t. split; [done|]. split; [done|]. intros round.
  by apply (table_elects ctx threshold (scores_per_authority rs)).
Qed.

(** A generator for examples: no shuffling, and always the first choice. *)
Definition sample_rng : LeaderRng := {|
  choose_multiple_weighted := λ _ choices amount, Some (take (N.to_nat amount) choices);
  shuffle := λ _ l, l;
  choose := λ _ l, head l |}.

Lemma sample_rng_spec : @LeaderRngSpec sample_rng.
Proof.
  split; simpl.
  - intros seed choices amount _ _. eexists. split; [done|].
    split; [apply sublist_submseteq, sublist_take|apply length_take].
  - done.
  - intros seed l. by rewrite head_None.
  - intros seed [|y l] x Hx; simpl in *; [done|]. simplify_eq. apply list_elem_of_here.
Qed.

Definition sample_schedule_context (stakes : list N) : Context :=
  let total := nsum stakes in
  mkContext 0 0 (mkCommittee 0 total (2 * total / 3 + 1) ((total + 2) / 3)
                  ((λ s, mkAuthority s "host" []) <$> stakes)) Parameters_default
    (mkProtocolConfig false false (Some 1) 60 20 1000 10 10000).

Lemma elected_leader_never_bad_witness :
  let ctx := sample_schedule_context [1; 1; 1; 1; 1] in
  let rs := mkReputationScores [0; 4; 9; 5; 7] (CommitRange_new 1 300) in
  ∃ t, @LeaderSwapTable_new sample_rng ctx 300 rs = Ret t ∧ good_set t = [2] ∧
    ∃ l, @schedule_elect_leader sample_rng (LeaderSchedule_new ctx t) 17 0 = Ret l ∧
      bad_nodes t !! l = None.
Proof.
  intros ctx rs.
  destruct (@elected_leader_never_bad sample_rng sample_rng_spec ctx 300 rs) as (t & Ht & _ & Hl).
  - split; vm_compute; reflexivity.
  - vm_compute. discriminate.
  - reflexivity.
  - reflexivity.
  - intros i. unfold stake_of. simpl.
    destruct (N.to_nat i) as [|[|[|[|[|n]]]]]; vm_compute; discriminate.
  - exists t. split; [exact Ht|]. split.
    + vm_compute in Ht. injection Ht as <-. reflexivity.
    + destruct (Hl 17) as (l & Hel & _ & Hb). exists l. split; [exact Hel|exact Hb].
Defined.

(** C34. Without the bound on a single authority's stake the election can panic: when each
    top scorer alone holds more than the percentage and each low scorer does not, the table has
    no good node and a low scorer among the bad ones, and the election of the first leader of a
    round panics exactly when a bad node is drawn by stake. *)
Theorem swap_without_good_nodes_panics `{LeaderRngSpec} ctx commit_index rs :
  let c := committee ctx in
  let threshold := consensus_bad_nodes_stake_threshold (protocol_config ctx) in
  committee_wf c → threshold ≤ 33 → threshold * committee_total_stake c < 2 ^ 64 →
  N.of_nat (length (scores_per_authority rs)) = Committee_size c →
  (∀ i, top_scorer rs i → stake_limit c threshold < stake_of c i) →
  (∀ i, low_scorer rs i → stake_of c i ≤ stake_limit c threshold) →
  ∃ t low, LeaderSwapTable_new ctx commit_index rs = Ret t ∧ good_nodes t = [] ∧
    low_scorer rs low ∧ is_Some (bad_nodes t !! low) ∧
    ∀ round, ∃ l, elect_leader_stake_based ctx round 0 = Ret l ∧
      (schedule_elect_leader (LeaderSchedule_new ctx t) round 0 = Panic ↔ is_Some (bad_nodes t !! l)).
Proof.
  intros c threshold Hc Hthr Hover Hlen Htop Hlow. pose proof (committee_nonempty c Hc) as Hsize.
  destruct (new_inner_no_good ctx Hc threshold Hthr Hover rs Hlen commit_index) as (t & low & Ht & Hgood & Hl & Hbad); [|done|done|].
  { intros Hn. rewrite Hn in Hlen. fold c in Hlen. simpl in Hlen. lia. }
  exists t, low. repeat (split; [done|]). intros round.
  destruct (elect_leader_stake_based_valid ctx round 0 Hc Hsize) as (l & Hel & _). exists l. split; [done|].
  unfold schedule_elect_leader, LeaderSchedule_new. cbn [schedule_context leader_swap_table]. rewrite Hel. cbn [mbind outcome_bind].
  unfold swap. destruct (bad_nodes t !! l) as [x|]; [|split; [done|by intros [? ?]]].
  rewrite Hgood, N.eqb_refl. cbn [assert_that mbind outcome_bind]. rewrite (proj2 (choose_none _ []) eq_refl).
  split; [by eexists|done].
Qed.

(** The best of three authorities holds six tenths of the stake. *)
Lemma swap_without_good_nodes_panics_witness :
  let ctx := sample_schedule_context [1; 3; 6] in
  let rs := mkReputationScores [0; 4; 9] (CommitRange_new 1 300) in
  ∃ t, @LeaderSwapTable_new sample_rng ctx 300 rs = Ret t ∧
    @schedule_elect_leader sample_rng (LeaderSchedule_new ctx t) 1 0 = Panic.
Proof.
  intros ctx rs.
  destruct (@swap_without_good_nodes_panics sample_rng sample_rng_spec ctx 300 rs) as (t & low & Ht & _ & _ & _ & Hel).
  - split; vm_compute; reflexivity.
  - vm_compute. discriminate.
  - reflexivity.
  - reflexivity.
  - intros i (s & Hs & Hall). pose proof (Hall 2%nat 9 eq_refl) as H9. change (scores_per_authority rs) with [0; 4; 9] in Hs.
    destruct (N.to_nat i) as [|[|[|n]]] eqn:Hi; cbn in Hs; simplify_eq; [exfalso; lia..|].
    unfold stake_of. rewrite Hi. vm_compute. reflexivity.
  - intros i (s & Hs & Hall). pose proof (Hall 0%nat 0 eq_refl) as H0. change (scores_per_authority rs) with [0; 4; 9] in Hs.
    destruct (N.to_nat i) as [|[|[|n]]] eqn:Hi; cbn in Hs; simplify_eq; [|exfalso; lia..].
    unfold stake_of. rewrite Hi. vm_compute. discriminate.
  - exists t. split; [exact Ht|]. destruct (Hel 1) as (l & Hl & Hiff). vm_compute in Hl. injection Hl as <-.
    apply Hiff. vm_compute in Ht. injection Ht as <-. eexists. vm_compute. reflexivity.
Defined.
