(* ===== verification/BaseCommitter.v ===== *)
(** The commit rule for one leader per wave (consensus/core/src/base_committer.rs): votes,
    certificates, the direct decision from certificates or blames, and the indirect
    decision from a later committed leader.

    The committer reads the DAG through [DagState]; its decisions are proved here for one
    view of the DAG, and compared across views in the file on the safety of the rule. *)

From stdpp Require Import base tactics numbers list gmap sorting strings.
From S2P Require Import Prelude.
From S2P Require Import Committee.
From S2P Require Import Block.
From S2P Require Import StakeAggregator.
From S2P Require Import Commit.
From S2P Require Import Store.
From S2P Require Import DagState.
From S2P Require Import DagInvariant.
From S2P Require Import LeaderSchedule.

Open Scope N_scope.

(** * Data *)

Record BaseCommitterOptions := mkBaseCommitterOptions {
  wave_length : N;
  leader_offset : N;
  round_offset : N;
}.

Definition BaseCommitterOptions_default : BaseCommitterOptions :=
  mkBaseCommitterOptions DEFAULT_WAVE_LENGTH 0 0.

Record BaseCommitter := mkBaseCommitter {
  bc_context : Context;
  bc_leader_schedule : LeaderSchedule;
  bc_options : BaseCommitterOptions;
}.

Definition bc_committee (bc : BaseCommitter) : Committee := committee (bc_context bc).

(** * Waves *)

Definition wave_number (o : BaseCommitterOptions) (round : N) : N :=
  saturating_sub round (round_offset o) / wave_length o.
Definition leader_round (o : BaseCommitterOptions) (wave : N) : N :=
  u32_add (u32_mul wave (wave_length o)) (round_offset o).
Definition decision_round (o : BaseCommitterOptions) (wave : N) : N :=
  u32_add (u32_sub (u32_add (u32_mul wave (wave_length o)) (wave_length o)) 1) (round_offset o).

Definition bc_elect_leader `{LeaderRng} (bc : BaseCommitter) (round : N) : outcome (option Slot) :=
  let o := bc_options bc in
  if negb (leader_round o (wave_number o round) =? round) then Ret None
  else
    authority ← schedule_elect_leader (bc_leader_schedule bc) round (leader_offset o);
    Ret (Some (mkSlot round authority)).

(** * Votes and certificates *)

(** The loop shared by the rules: authors of the items that pass a test are added to an
    aggregator, and the loop ends with [true] as soon as they reach a quorum. The test
    may update a cache. *)
Fixpoint stake_loop {A St} (c : Committee) (test : St → A → outcome (St * bool)) (author : A → N)
    (agg : StakeAggregator) (st : St) (items : list A) : outcome (St * bool) :=
  match items with
  | [] => Ret (st, false)
  | x :: items =>
      '(st, pass) ← test st x;
      if pass : bool then
        '(agg, reached) ← agg_add QuorumThreshold agg (author x) c;
        if reached : bool then Ret (st, true) else stake_loop c test author agg st items
      else stake_loop c test author agg st items
  end.

Section Rules.
Context {S : Type} `{Store S}.
Implicit Types d : DagState S.

(** Depth-first search through the ancestors above the leader round; every call goes to
    a lower round, so [fuel] of the distance in rounds plus one is enough. *)
Fixpoint find_supported_block (fuel : nat) d (leader_slot : Slot) (from : VerifiedBlock)
    : outcome (option BlockRef) :=
  match fuel with
  | O => Panic
  | Datatypes.S fuel =>
      if vb_round from <? slot_round leader_slot then Ret None
      else
        (fix go (ancestors : list BlockRef) : outcome (option BlockRef) :=
           match ancestors with
           | [] => Ret None
           | a :: ancestors =>
               if decide (Slot_from a = leader_slot) then Ret (Some a)
               else if br_round a <=? slot_round leader_slot then go ancestors
               else
                 block ← get_block d a;
                 block ← expect block;
                 support ← find_supported_block fuel d leader_slot block;
                 match support with
                 | Some r => Ret (Some r)
                 | None => go ancestors
                 end
           end) (vb_ancestors from)
  end.

Definition support_fuel (leader_slot : Slot) (from : VerifiedBlock) : nat :=
  Datatypes.S (N.to_nat (vb_round from - slot_round leader_slot)).

Definition is_vote d (potential_vote leader_block : VerifiedBlock) : outcome bool :=
  let r := reference leader_block in
  let leader_slot := Slot_from r in
  support ← find_supported_block (support_fuel leader_slot potential_vote) d leader_slot potential_vote;
  Ret (bool_decide (support = Some r)).

(** One ancestor of a potential certificate, through the cache of votes. *)
Definition is_vote_cached d (leader_block : VerifiedBlock) (all_votes : gmap BlockRef bool)
    (r : BlockRef) : outcome (gmap BlockRef bool * bool) :=
  match all_votes !! r with
  | Some v => Ret (all_votes, v)
  | None =>
      potential_vote ← get_block d r;
      v ← match potential_vote with
          | Some potential_vote => is_vote d potential_vote leader_block
          | None => _ ← assert_that (br_round r <=? dag_gc_round d); Ret false
          end;
      Ret (<[r := v]> all_votes, v)
  end.

Definition is_certificate (c : Committee) d (potential_certificate leader_block : VerifiedBlock)
    (all_votes : gmap BlockRef bool) : outcome (gmap BlockRef bool * bool) :=
  stake_loop c (is_vote_cached d leader_block) br_author StakeAggregator_new all_votes
    (vb_ancestors potential_certificate).

(** [any] over the potential certificates, with one cache for the leader block. *)
Fixpoint any_certificate (c : Committee) d (leader_block : VerifiedBlock)
    (all_votes : gmap BlockRef bool) (potential_certificates : list VerifiedBlock) : outcome bool :=
  match potential_certificates with
  | [] => Ret false
  | p :: ps =>
      '(all_votes, cert) ← is_certificate c d p leader_block all_votes;
      if cert : bool then Ret true else any_certificate c d leader_block all_votes ps
  end.

(** [filter] with a test that may panic. *)
Fixpoint filter_blocks (test : VerifiedBlock → outcome bool) (blocks : list VerifiedBlock)
    : outcome (list VerifiedBlock) :=
  match blocks with
  | [] => Ret []
  | b :: bs =>
      keep ← test b;
      rest ← filter_blocks test bs;
      Ret (if keep : bool then b :: rest else rest)
  end.

(** * Decisions *)

(** The traversal for the ancestors of the anchor pops cached blocks only. *)
Definition decide_leader_from_anchor (bc : BaseCommitter) d (anchor : VerifiedBlock)
    (leader_slot : Slot) : outcome LeaderStatus :=
  let o := bc_options bc in
  let leader_blocks := get_uncommitted_blocks_at_slot d leader_slot in
  let wave := wave_number o (slot_round leader_slot) in
  potential_certificates ←
    ancestors_at_round (size (ds_recent_blocks d)) d anchor (decision_round o wave);
  certified ← filter_blocks
    (λ leader_block, any_certificate (bc_committee bc) d leader_block ∅ potential_certificates)
    leader_blocks;
  match certified with
  | [] => Ret (LsSkip leader_slot)
  | [b] => Ret (LsCommit b)
  | _ => Panic
  end.

Definition enough_leader_blame (c : Committee) d (voting_round leader : N) : outcome bool :=
  voting_blocks ← get_uncommitted_blocks_at_round d voting_round;
  '(_, enough) ← stake_loop c
    (λ (_ : unit) b, Ret (tt, forallb (λ a, negb (br_author a =? leader)) (vb_ancestors b)))
    vb_author StakeAggregator_new tt voting_blocks;
  Ret enough.

Definition enough_leader_support (c : Committee) d (decision_round : N)
    (leader_block : VerifiedBlock) : outcome bool :=
  decision_blocks ← get_uncommitted_blocks_at_round d decision_round;
  stakes ← mapM (λ b, Committee_stake c (vb_author b)) decision_blocks;
  let total_stake := foldl u64_add 0 stakes in
  if negb (reached_quorum c total_stake) then Ret false
  else
    '(_, enough) ← stake_loop c (λ all_votes b, is_certificate c d b leader_block all_votes)
      vb_author StakeAggregator_new ∅ decision_blocks;
    Ret enough.

Definition try_direct_decide (bc : BaseCommitter) d (leader : Slot) : outcome LeaderStatus :=
  let o := bc_options bc in
  let c := bc_committee bc in
  blamed ← enough_leader_blame c d (u32_add (slot_round leader) 1) (slot_authority leader);
  if blamed : bool then Ret (LsSkip leader)
  else
    let wave := wave_number o (slot_round leader) in
    supported ← filter_blocks (enough_leader_support c d (decision_round o wave))
      (get_uncommitted_blocks_at_slot d leader);
    match supported with
    | [] => Ret (LsUndecided leader)
    | [b] => Ret (LsCommit b)
    | _ => Panic
    end.

(** The first decided anchor at or above the given round, if no undecided leader comes
    before it. *)
Fixpoint find_anchor (min_round : N) (leaders : list LeaderStatus) : option VerifiedBlock :=
  match leaders with
  | [] => None
  | l :: leaders =>
      if min_round <=? LeaderStatus_round l then
        match l with
        | LsCommit anchor => Some anchor
        | LsSkip _ => find_anchor min_round leaders
        | LsUndecided _ => None
        end
      else find_anchor min_round leaders
  end.

Definition try_indirect_decide (bc : BaseCommitter) d (leader_slot : Slot)
    (leaders : list LeaderStatus) : outcome LeaderStatus :=
  match find_anchor (u32_add (slot_round leader_slot) (wave_length (bc_options bc))) leaders with
  | Some anchor => decide_leader_from_anchor bc d anchor leader_slot
  | None => Ret (LsUndecided leader_slot)
  end.
End Rules.

(** * Votes and certificates of a universe of blocks *)

(** The block a near block supports: its first ancestor in the slot. *)
Definition first_at (slot : Slot) (v : VerifiedBlock) : option BlockRef :=
  head (filter (λ a, Slot_from a = slot) (vb_ancestors v)).

Definition votes_for (L v : VerifiedBlock) : bool :=
  bool_decide (first_at (Slot_from (reference L)) v = Some (reference L)).

Definition vote_of (U : universe) (L : VerifiedBlock) (r : BlockRef) : bool :=
  match U r with Some v => votes_for L v | None => false end.

(** A certificate links to a quorum of votes. *)
Definition certifies (U : universe) (c : Committee) (L C : VerifiedBlock) : bool :=
  reached_quorum c (weight c (list_to_set (br_author <$> filter (vote_of U L) (vb_ancestors C)))).

(** Blocks of a universe at a round. *)
Definition block_in (U : universe) (b : VerifiedBlock) : Prop := U (reference b) = Some b.

(** A quorum of authors with blocks right above the slot that do not link its author. *)
Definition blames (U : universe) (c : Committee) (slot : Slot) : Prop :=
  ∃ X : gset N, reached_quorum c (weight c X) = true ∧
    ∀ i, i ∈ X → ∃ b, block_in U b ∧ vb_author b = i ∧ vb_round b = slot_round slot + 1 ∧
      ∀ a, a ∈ vb_ancestors b → br_author a ≠ slot_authority slot.

(** A quorum of authors with certificates two rounds above the leader. *)
Definition supported (U : universe) (c : Committee) (L : VerifiedBlock) : Prop :=
  ∃ X : gset N, reached_quorum c (weight c X) = true ∧
    ∀ i, i ∈ X → ∃ C, block_in U C ∧ vb_author C = i ∧ vb_round C = vb_round L + 2 ∧
      certifies U c L C = true.

(** * Lemmas on loops *)

Section Loops.
Context (c : Committee) (Hc : committee_wf c).

Lemma quorum_empty : reached_quorum c (weight c ∅) = false.
Proof.
  unfold reached_quorum, weight. rewrite set_sum_empty. apply bool_decide_eq_false.
  rewrite (wf_quorum c Hc). lia_div.
Qed.

(** The loop answers whether the passing authors reach a quorum; stopping early does
    not change the answer. *)
Lemma stake_loop_spec {A St} (Inv : St → Prop) (test : St → A → outcome (St * bool))
    (p : A → bool) (author : A → N) items X agg st :
  (∀ st x, x ∈ items → Inv st → ∃ st', test st x = Ret (st', p x) ∧ Inv st') →
  (∀ x, x ∈ items → is_valid_index c (author x) = true) →
  Inv st → agg_repr c X agg → reached_quorum c (weight c X) = false →
  ∃ st', Inv st' ∧ stake_loop c test author agg st items
    = Ret (st', reached_quorum c (weight c (X ∪ list_to_set (author <$> filter p items)))).
Proof.
  revert X agg st. induction items as [|x items IH]; intros X agg st Htest Hval Hst Hagg HX.
  { exists st. simpl. rewrite union_empty_r_L, HX. done. }
  simpl. destruct (Htest st x) as (st1 & -> & Hst1); [apply list_elem_of_here|done|]. simpl.
  assert (∀ st y, y ∈ items → Inv st → ∃ st', test st y = Ret (st', p y) ∧ Inv st') as Htest'
    by (intros; apply Htest; [by apply list_elem_of_further|done]).
  assert (∀ y, y ∈ items → is_valid_index c (author y) = true) as Hval'
    by (intros; apply Hval; by apply list_elem_of_further).
  rewrite filter_cons. destruct (p x) eqn:Hp.
  2: { rewrite decide_False by (by intros []). by apply IH. }
  rewrite decide_True by done. rewrite fmap_cons, list_to_set_cons.
  destruct (agg_add_repr c Hc QuorumThreshold X agg (author x) Hagg) as (agg' & -> & Hagg').
  { apply Hval, list_elem_of_here. }
  cbn [mbind outcome_bind is_threshold].
  assert (X ∪ ({[author x]} ∪ list_to_set (author <$> filter p items))
          = ({[author x]} ∪ X) ∪ list_to_set (author <$> filter p items)) as -> by set_solver.
  destruct (reached_quorum c (weight c ({[author x]} ∪ X))) eqn:Hq; [|by apply IH].
  exists st1. split; [done|]. f_equal. f_equal. symmetry.
  apply (is_threshold_mono c QuorumThreshold ({[author x]} ∪ X)); [set_solver|done].
Qed.

Lemma filter_blocks_spec (test : VerifiedBlock → outcome bool) (p : VerifiedBlock → bool) bs :
  (∀ b, b ∈ bs → test b = Ret (p b)) → filter_blocks test bs = Ret (filter p bs).
Proof.
  induction bs as [|b bs IH]; intros Htest; [done|]. simpl.
  rewrite (Htest b) by apply list_elem_of_here. simpl.
  rewrite IH by (intros; apply Htest; by apply list_elem_of_further). simpl.
  rewrite filter_cons. by destruct (p b).
Qed.
End Loops.

(** * One view of the DAG *)

(** What the local DAG guarantees to the commit rule: the invariant of the state, history
    complete above the garbage collection round, and ancestors by committee members. *)
Record view_ok {S} `{StoreSpec S} (d : DagState S) : Prop := {
  vo_wf : dag_wf d;
  vo_universe : universe_wf (dag_gc_round d) (dag_lookup d);
  vo_authors : ∀ b a, block_in (dag_lookup d) b → a ∈ vb_ancestors b →
    is_valid_index (dag_committee d) (br_author a) = true;
}.

Section View.
Context {S : Type} `{StoreSpec S} (d : DagState S) (Hd : view_ok d).
Let U := dag_lookup d.
Let c := dag_committee d.
Let Hc : committee_wf c := dwf_committee d (vo_wf d Hd).

Lemma ancestor_round b a : block_in U b → a ∈ vb_ancestors b → br_round a < vb_round b.
Proof.
  intros Hb Ha. apply (u_desc _ _ (vo_universe d Hd) (reference b) a). by exists b.
Qed.

Lemma find_supported_near fuel slot v :
  block_in U v → vb_round v ≤ slot_round slot + 1 →
  find_supported_block (Datatypes.S fuel) d slot v = Ret (first_at slot v).
Proof.
  intros Hv Hr. simpl. unfold first_at.
  destruct (N.ltb_spec (vb_round v) (slot_round slot)) as [Hlt|Hge].
  - destruct (filter _ _) as [|a l] eqn:Hf; [done|]. exfalso.
    assert (a ∈ a :: l) as Ha by apply list_elem_of_here.
    rewrite <- Hf in Ha. apply list_elem_of_filter in Ha as [Hs Ha].
    apply ancestor_round in Ha; [|done]. subst slot. simpl in *. lia.
  - assert (∀ a, a ∈ vb_ancestors v → br_round a ≤ slot_round slot) as Hanc.
    { intros a Ha. apply ancestor_round in Ha; [|done]. lia. }
    induction (vb_ancestors v) as [|a ancs IH]; [done|].
    rewrite filter_cons. case_decide; [done|].
    rewrite (proj2 (N.leb_le _ _) (Hanc a ltac:(apply list_elem_of_here))).
    apply IH. intros a' Ha'. apply Hanc. by apply list_elem_of_further.
Qed.

Lemma is_vote_spec L v :
  block_in U v → vb_round v ≤ vb_round L + 1 → is_vote d v L = Ret (votes_for L v).
Proof. intros Hv Hr. unfold is_vote, support_fuel. by rewrite find_supported_near. Qed.

Definition votes_cache (L : VerifiedBlock) (cache : gmap BlockRef bool) : Prop :=
  ∀ r v, cache !! r = Some v → v = vote_of U L r.

(** The cache of votes never changes the answer. *)
Lemma is_certificate_spec L C cache :
  block_in U C → vb_round C ≤ vb_round L + 2 → votes_cache L cache →
  ∃ cache', votes_cache L cache' ∧ is_certificate c d C L cache = Ret (cache', certifies U c L C).
Proof.
  intros HC Hr Hcache. unfold is_certificate, certifies.
  rewrite <- (union_empty_l_L (list_to_set _)).
  apply (stake_loop_spec c Hc (votes_cache L) (is_vote_cached d L) (vote_of U L)); try done.
  - intros cache1 a Ha Hok. unfold is_vote_cached. pose proof (ancestor_round C a HC Ha) as Hlt.
    destruct (cache1 !! a) as [v|] eqn:Hv; [exists cache1; by rewrite (Hok a v Hv)|].
    exists (<[a := vote_of U L a]> cache1). split.
    2: { intros r v [[<- <-]|[_ Hv']]%lookup_insert_Some; [done|by apply Hok]. }
    rewrite get_block_lookup. simpl. unfold vote_of. fold U.
    destruct (U a) as [v|] eqn:HUa.
    + pose proof (u_ref _ _ (vo_universe d Hd) _ _ HUa) as Href.
      rewrite is_vote_spec; [done| |].
      * unfold block_in. by rewrite Href.
      * rewrite <- Href in Hlt. simpl in Hlt. lia.
    + unfold assert_that. destruct (N.leb_spec (br_round a) (dag_gc_round d)); [done|].
      destruct (u_closed _ _ (vo_universe d Hd) (reference C) a) as [x Hx]; [by exists C|done|].
      fold U in Hx. congruence.
  - intros a Ha. by eapply (vo_authors d Hd).
  - by apply quorum_empty.
Qed.

Lemma any_certificate_spec L cache ps :
  (∀ C, C ∈ ps → block_in U C ∧ vb_round C ≤ vb_round L + 2) → votes_cache L cache →
  any_certificate c d L cache ps = Ret (existsb (certifies U c L) ps).
Proof.
  revert cache. induction ps as [|C ps IH]; intros cache Hps Hcache; [done|]. simpl.
  destruct (Hps C) as [HC Hr]; [apply list_elem_of_here|].
  destruct (is_certificate_spec L C cache HC Hr Hcache) as (cache' & Hcache' & ->). simpl.
  destruct (certifies U c L C); [done|]. simpl. apply IH; [|done].
  intros C' HC'. apply Hps. by apply list_elem_of_further.
Qed.

Lemma votes_cache_empty L : votes_cache L ∅.
Proof. intros r v. by rewrite lookup_empty. Qed.

(** ** The direct rules *)

Lemma forallb_not_author (l : list BlockRef) a :
  forallb (λ x, negb (br_author x =? a)) l = true ↔ ∀ x, x ∈ l → br_author x ≠ a.
Proof.
  rewrite forallb_forall. split.
  - intros Hl x Hx%list_elem_of_In%Hl. lia.
  - intros Hl x Hx%list_elem_of_In%Hl. lia.
Qed.

Lemma block_author_valid b : block_in U b → dag_gc_round d < vb_round b →
  is_valid_index c (vb_author b) = true.
Proof.
  intros Hb Hr. destruct (dag_lookup_cached d _ _ (vo_wf d Hd) Hb Hr) as (i & Hi & _).
  by apply (dwf_recent d (vo_wf d Hd)) in Hi as (_ & _ & _ & ?).
Qed.

Lemma gc_le_last_commit : dag_gc_round d ≤ last_commit_round d.
Proof. unfold dag_gc_round, calculate_gc_round, saturating_sub. lia. Qed.

Lemma enough_leader_blame_spec slot :
  last_commit_round d ≤ slot_round slot → slot_round slot + 1 < u32_max →
  ∃ b, enough_leader_blame c d (u32_add (slot_round slot) 1) (slot_authority slot) = Ret b ∧
    (b = true ↔ blames U c slot).
Proof.
  intros Hlc Hmax. rewrite u32_add_small by (unfold u32_max in *; lia).
  destruct (blocks_at_round_spec d (vo_wf d Hd) (slot_round slot + 1)) as (bs & Hbs & _ & _ & Hin);
    [lia|done|]. fold U in Hin.
  unfold enough_leader_blame. rewrite Hbs. cbn [mbind outcome_bind].
  set (p := λ b : VerifiedBlock, forallb (λ a, negb (br_author a =? slot_authority slot)) (vb_ancestors b)).
  destruct (stake_loop_spec c Hc (λ _ : unit, True) (λ _ b, Ret (tt, p b)) p vb_author bs ∅
    StakeAggregator_new tt) as (st & _ & Hloop); try done.
  { intros [] x _ _. by exists tt. }
  { intros b [Hb Hr]%Hin. apply block_author_valid; [done|]. pose proof gc_le_last_commit. lia. }
  { by apply quorum_empty. }
  change (stake_loop c _ vb_author StakeAggregator_new tt bs)
    with (stake_loop c (λ (_ : unit) b, Ret (tt, p b)) vb_author StakeAggregator_new tt bs).
  rewrite Hloop. simpl. eexists. split; [done|]. rewrite union_empty_l_L. split.
  - intros Hq. eexists. split; [exact Hq|]. intros i. rewrite elem_of_list_to_set, list_elem_of_fmap.
    intros (b & -> & Hb). apply list_elem_of_filter in Hb as [Hp [Hb Hr]%Hin].
    exists b. split; [done|]. split; [done|]. split; [done|].
    by apply forallb_not_author, Is_true_true.
  - intros (X & HX & Hall). eapply (is_threshold_mono c QuorumThreshold X); [|done].
    intros i (b & Hb & <- & Hr & Ha)%Hall. rewrite elem_of_list_to_set, list_elem_of_fmap.
    exists b. split; [done|]. apply list_elem_of_filter. split; [|by apply Hin].
    by apply Is_true_true, forallb_not_author.
Qed.

Lemma weight_list_le (l : list N) : weight c (list_to_set l) ≤ nsum (stake_of c <$> l).
Proof.
  unfold weight. induction l as [|x l IH]; csimpl; [by rewrite set_sum_empty|].
  destruct (decide (x ∈ (list_to_set l : gset N))) as [Hin|Hin].
  - replace ({[x]} ∪ list_to_set l : gset N) with (list_to_set l : gset N) by set_solver. simpl. lia.
  - rewrite set_sum_insert by done. simpl. lia.
Qed.

(** Sound always; complete unless the stakes of all blocks of the round, equivocations
    included, overflow the quick check. *)
Lemma enough_leader_support_spec L :
  last_commit_round d < vb_round L + 2 → vb_round L + 2 < u32_max →
  ∃ b, enough_leader_support c d (vb_round L + 2) L = Ret b ∧
    (b = true → supported U c L) ∧
    ((∀ bs, get_uncommitted_blocks_at_round d (vb_round L + 2) = Ret bs →
        nsum (stake_of c <$> (vb_author <$> bs)) < 2 ^ 64) → supported U c L → b = true).
Proof.
  intros Hlc Hmax.
  destruct (blocks_at_round_spec d (vo_wf d Hd) (vb_round L + 2)) as (bs & Hbs & _ & _ & Hin);
    [lia|done|]. fold U in Hin.
  assert (∀ b, b ∈ bs → is_valid_index c (vb_author b) = true) as Hval.
  { intros b [Hb Hr]%Hin. apply block_author_valid; [done|]. pose proof gc_le_last_commit. lia. }
  unfold enough_leader_support. rewrite Hbs. cbn [mbind outcome_bind].
  rewrite (mapM_Ret _ (stake_of c ∘ vb_author))
    by (intros b Hb; apply Committee_stake_valid; by apply Hval).
  cbn [mbind outcome_bind].
  destruct (stake_loop_spec c Hc (votes_cache L) (λ st b, is_certificate c d b L st)
    (certifies U c L) vb_author bs ∅ StakeAggregator_new ∅) as (st & _ & Hloop); try done.
  { intros cache C [HC Hr]%Hin Hcache.
    destruct (is_certificate_spec L C cache HC) as (cache' & Hok & ->); [lia|done|]. eauto. }
  { by apply quorum_empty. }
  rewrite union_empty_l_L in Hloop.
  set (X := list_to_set (vb_author <$> filter (certifies U c L) bs) : gset N) in *.
  assert (supported U c L → reached_quorum c (weight c X) = true) as Hsup.
  { intros (Y & HY & Hall). eapply (is_threshold_mono c QuorumThreshold Y); [|done].
    intros i (C & HC & <- & Hr & Hcert)%Hall. unfold X. rewrite elem_of_list_to_set, list_elem_of_fmap.
    exists C. split; [done|]. apply list_elem_of_filter.
    split; [by apply Is_true_true|by apply Hin]. }
  assert (reached_quorum c (weight c X) = true → supported U c L) as Hsup'.
  { intros Hq. exists X. split; [done|]. intros i. unfold X.
    rewrite elem_of_list_to_set, list_elem_of_fmap. intros (C & -> & HC).
    apply list_elem_of_filter in HC as [Hp%Is_true_true [HC Hr]%Hin]. eauto. }
  destruct (negb (reached_quorum c (foldl u64_add 0 (stake_of c ∘ vb_author <$> bs)))) eqn:Hquick.
  - exists false. split; [done|]. split; [done|]. intros Hfit Hs. exfalso.
    apply negb_true_iff in Hquick. specialize (Hfit bs eq_refl). rewrite <- list_fmap_compose in Hfit.
    rewrite foldl_u64_add in Hquick by lia. apply Hsup in Hs.
    unfold reached_quorum in *. apply bool_decide_eq_true in Hs. apply bool_decide_eq_false in Hquick.
    apply Hquick. etransitivity; [exact Hs|]. rewrite N.add_0_l, list_fmap_compose.
    etransitivity; [|apply weight_list_le]. apply set_sum_subseteq. unfold X.
    intros i. rewrite !elem_of_list_to_set, !list_elem_of_fmap.
    intros (C & -> & [_ HC]%list_elem_of_filter). eauto.
  - rewrite Hloop. simpl. eexists. split; [done|]. split; [done|]. auto.
Qed.

(** ** The anchor rule *)

(** Certified links from an anchor: a certificate for the leader block two rounds above
    it in the anchor's history. *)
Definition certified_from (anchor L : VerifiedBlock) : Prop :=
  ∃ C, block_in U C ∧ vb_round C = vb_round L + 2 ∧ vb_round L + 2 < vb_round anchor ∧
    rtc (parent U) (reference anchor) (reference C) ∧ certifies U c L C = true.

Lemma filter_singleton {A} (P : A → bool) (f : A → BlockRef) (l : list A) x :
  NoDup (f <$> l) → x ∈ l → P x = true → (∀ y, y ∈ l → P y = true → f y = f x) →
  filter P l = [x].
Proof.
  intros Hnd Hx HP Huniq. induction l as [|y l IH]; [set_solver|].
  csimpl in Hnd. apply NoDup_cons in Hnd as [Hny Hnd].
  assert (∀ z, z ∈ l → f z ≠ f y) as Hne.
  { intros z Hz Heq. apply Hny. rewrite <- Heq. apply list_elem_of_fmap. eauto. }
  rewrite filter_cons. apply elem_of_cons in Hx as [<-|Hx].
  - rewrite decide_True by by apply Is_true_true. f_equal.
    destruct (filter P l) as [|z l'] eqn:Hf; [done|]. exfalso.
    assert (z ∈ z :: l') as Hz by apply list_elem_of_here. rewrite <- Hf in Hz.
    apply list_elem_of_filter in Hz as [HPz%Is_true_true Hz]. apply (Hne z Hz).
    apply Huniq; [by right|done].
  - rewrite decide_False.
    + apply IH; try done. intros z Hz. apply Huniq. by right.
    + intros HPy%Is_true_true. apply (Hne x Hx). symmetry. apply Huniq; [by left|done].
Qed.

Lemma decide_from_anchor_spec bc anchor slot :
  bc_committee bc = c → wave_length (bc_options bc) = 3 →
  decision_round (bc_options bc) (wave_number (bc_options bc) (slot_round slot)) = slot_round slot + 2 →
  dag_gc_round d < slot_round slot → block_in U anchor →
  (∀ L L', block_in U L → block_in U L' → Slot_from (reference L) = slot →
     Slot_from (reference L') = slot → certified_from anchor L → certified_from anchor L' → L = L') →
  ∃ st, decide_leader_from_anchor bc d anchor slot = Ret st ∧
    match st with
    | LsCommit L => block_in U L ∧ Slot_from (reference L) = slot ∧ certified_from anchor L
    | LsSkip s => s = slot ∧
        ∀ L, block_in U L → Slot_from (reference L) = slot → ¬ certified_from anchor L
    | LsUndecided _ => False
    end.
Proof.
  intros Hbc Hw Hdec Hgc Hanchor Huniq. unfold decide_leader_from_anchor. rewrite Hdec, Hbc.
  destruct (ancestors_at_round_spec d (vo_wf d Hd) (vo_universe d Hd) (slot_round slot + 2)
    ltac:(lia) (size (ds_recent_blocks d)) anchor (Nat.le_refl _) Hanchor)
    as (certs & -> & _ & _ & Hcerts). cbn [mbind outcome_bind].
  destruct (blocks_at_slot_spec d (vo_wf d Hd) slot Hgc) as (_ & Hnd & Hin).
  set (leaders := get_uncommitted_blocks_at_slot d slot) in *. fold U in Hin, Hcerts.
  assert (∀ L, L ∈ leaders → vb_round L = slot_round slot) as Hround.
  { intros L [_ Hs]%Hin. by subst slot. }
  rewrite (filter_blocks_spec _ (λ L, existsb (certifies U c L) certs)).
  2: { intros L HL. apply any_certificate_spec; [|apply votes_cache_empty].
       intros C (HC & Hr & _)%Hcerts. rewrite (Hround L HL). split; [done|lia]. }
  cbn [mbind outcome_bind].
  assert (∀ L, L ∈ leaders → existsb (certifies U c L) certs = true ↔ certified_from anchor L) as Hcf.
  { intros L HL. rewrite existsb_exists. pose proof (Hround L HL) as Hr. unfold certified_from. split.
    - intros (C & HC%list_elem_of_In%Hcerts & Hcert). exists C. destruct HC as (? & ? & ? & ?).
      rewrite Hr. done.
    - intros (C & HC & HCr & Hlt & Hrtc & Hcert). exists C. split; [|done].
      apply list_elem_of_In, Hcerts. rewrite <- Hr. done. }
  destruct (filter _ leaders) as [|L rest] eqn:Hf.
  - eexists. split; [done|]. simpl. split; [done|]. intros L HL Hs Hcert.
    assert (L ∈ []) as Hn; [|set_solver]. rewrite <- Hf. apply list_elem_of_filter.
    assert (L ∈ leaders) as HL' by by apply Hin. split; [|done]. by apply Is_true_true, Hcf.
  - assert (L ∈ L :: rest) as HL by apply list_elem_of_here. rewrite <- Hf in HL.
    apply list_elem_of_filter in HL as [HP%Is_true_true HL].
    rewrite (filter_singleton _ reference leaders L) in Hf; try done.
    + injection Hf as <-. eexists. split; [done|]. simpl.
      pose proof (proj1 (Hin L) HL) as [? ?]. split; [done|]. split; [done|]. by apply Hcf.
    + intros L' HL' HP'. f_equal. apply Huniq; try by apply Hin.
      * by apply Hcf.
      * by apply Hcf.
Qed.

(** ** The direct decision *)

Lemma try_direct_decide_spec bc slot :
  bc_committee bc = c →
  decision_round (bc_options bc) (wave_number (bc_options bc) (slot_round slot)) = slot_round slot + 2 →
  last_commit_round d < slot_round slot → slot_round slot + 2 < u32_max →
  (∀ L L', block_in U L → block_in U L' → Slot_from (reference L) = slot →
     Slot_from (reference L') = slot → supported U c L → supported U c L' → L = L') →
  ∃ st, try_direct_decide bc d slot = Ret st ∧
    match st with
    | LsSkip s => s = slot ∧ blames U c slot
    | LsCommit L => block_in U L ∧ Slot_from (reference L) = slot ∧ supported U c L ∧
        ¬ blames U c slot
    | LsUndecided s => s = slot ∧ ¬ blames U c slot ∧
        ((∀ bs, get_uncommitted_blocks_at_round d (slot_round slot + 2) = Ret bs →
            nsum (stake_of c <$> (vb_author <$> bs)) < 2 ^ 64) →
         ∀ L, block_in U L → Slot_from (reference L) = slot → ¬ supported U c L)
    end.
Proof.
  intros Hbc Hdec Hlc Hmax Huniq. unfold try_direct_decide. rewrite Hdec, Hbc.
  destruct (enough_leader_blame_spec slot) as (blamed & -> & Hbl); [lia|lia|].
  cbn [mbind outcome_bind]. destruct blamed.
  { eexists. split; [done|]. simpl. split; [done|]. by apply Hbl. }
  assert (¬ blames U c slot) as Hnb by (intros Hb%Hbl; done).
  destruct (blocks_at_slot_spec d (vo_wf d Hd) slot) as (_ & Hnd & Hin).
  { pose proof gc_le_last_commit. lia. }
  set (leaders := get_uncommitted_blocks_at_slot d slot) in *. fold U in Hin.
  assert (∀ L, L ∈ leaders → vb_round L = slot_round slot) as Hround.
  { intros L [_ Hs]%Hin. by subst slot. }
  set (p := λ L, match enough_leader_support c d (slot_round slot + 2) L with
                 | Ret b => b | Panic => false end).
  assert (∀ L, L ∈ leaders → enough_leader_support c d (slot_round slot + 2) L = Ret (p L) ∧
    (p L = true → supported U c L) ∧
    ((∀ bs, get_uncommitted_blocks_at_round d (slot_round slot + 2) = Ret bs →
        nsum (stake_of c <$> (vb_author <$> bs)) < 2 ^ 64) → supported U c L → p L = true)) as Hp.
  { intros L HL. pose proof (Hround L HL) as Hr.
    destruct (enough_leader_support_spec L) as (b & Hb & Hb1 & Hb2); [lia|lia|].
    rewrite Hr in Hb, Hb2. unfold p. rewrite Hb. done. }
  rewrite (filter_blocks_spec _ p) by (intros L HL; by apply Hp). cbn [mbind outcome_bind].
  destruct (filter p leaders) as [|L rest] eqn:Hf.
  - eexists. split; [done|]. simpl. split; [done|]. split; [done|].
    intros Hfit L HL Hs Hsup. assert (L ∈ []) as Hn; [|set_solver]. rewrite <- Hf.
    assert (L ∈ leaders) as HL' by by apply Hin.
    apply list_elem_of_filter. split; [|done]. apply Is_true_true. by apply Hp.
  - assert (L ∈ L :: rest) as HL by apply list_elem_of_here. rewrite <- Hf in HL.
    apply list_elem_of_filter in HL as [HP%Is_true_true HL].
    rewrite (filter_singleton _ reference leaders L) in Hf; try done.
    + injection Hf as <-. eexists. split; [done|]. simpl.
      pose proof (proj1 (Hin L) HL) as [? ?]. split; [done|]. split; [done|].
      split; [|done]. by apply Hp.
    + intros L' HL' HP'. f_equal.
      destruct (Hp L HL) as (_ & Hs & _), (Hp L' HL') as (_ & Hs' & _).
      apply Hin in HL as [? ?], HL' as [? ?]. apply Huniq; auto.
Qed.
End View.

(** * Waves *)

(** At a leader round of three-round waves, away from the end of the rounds, the decision
    round is two rounds later. *)
Lemma decision_round_leader o round :
  wave_length o = 3 → round_offset o < 2 ^ 32 → round + 2 < u32_max →
  leader_round o (wave_number o round) = round →
  decision_round o (wave_number o round) = round + 2.
Proof.
  intros Hw Ho Hmax. unfold leader_round, decision_round, wave_number, saturating_sub, u32_max in *.
  rewrite Hw. set (q := (round - round_offset o) / 3).
  assert (3 * q ≤ round - round_offset o) as Hq by (unfold q; lia_div).
  rewrite (u32_mul_small q 3) by lia.
  destruct (decide (round_offset o ≤ round)) as [Hle|Hgt].
  - rewrite u32_add_small by lia. intros Hr.
    rewrite (u32_add_small (q * 3) 3) by lia. rewrite (u32_sub_small (q * 3 + 3) 1) by lia.
    rewrite u32_add_small by lia. lia.
  - assert (q = 0) as -> by lia. rewrite u32_add_small by lia. lia.
Qed.
