(* ===== verification/CommitSafety.v ===== *)
(** Safety of the commit rule across validators. Each validator decides on its own view
    of the DAG; all views are parts of one global universe of blocks, in which less than
    a validity threshold of stake is Byzantine and the other authorities never produce
    two blocks for a slot. *)

From stdpp Require Import base tactics numbers list gmap sorting strings.
From S2P Require Import Prelude.
From S2P Require Import Committee.
From S2P Require Import Block.
From S2P Require Import StakeAggregator.
From S2P Require Import Commit.
From S2P Require Import Store.
From S2P Require Import DagState.
From S2P Require Import DagInvariant.
From S2P Require Import LeaderSchedule.
From S2P Require Import BaseCommitter.

Open Scope N_scope.

(** * The global universe *)

(** Blocks above genesis link to a quorum of authors of the previous round, which block
    verification enforces. *)
Definition quorum_parents (c : Committee) (b : VerifiedBlock) : Prop :=
  reached_quorum c (weight c (list_to_set
    (br_author <$> filter (λ a, br_round a + 1 = vb_round b) (vb_ancestors b)))) = true.

#[export] Instance quorum_parents_dec c b : base.Decision (quorum_parents c b).
Proof. unfold quorum_parents. apply _. Defined.

Record bft (c : Committee) (byz : gset N) (G : universe) : Prop := {
  bft_committee : committee_wf c;
  bft_byz : reached_validity c (weight c byz) = false;
  bft_ref : ∀ r b, G r = Some b → reference b = r;
  bft_desc : ∀ r r', parent G r r' → br_round r' < br_round r;
  bft_parents : ∀ b, block_in G b → 0 < vb_round b → quorum_parents c b;
  bft_honest : ∀ b b', block_in G b → block_in G b' →
    Slot_from (reference b) = Slot_from (reference b') → vb_author b ∉ byz → b = b';
}.

Section Global.
Context (c : Committee) (byz : gset N) (G : universe) (HG : bft c byz G).
Let Hc : committee_wf c := bft_committee c byz G HG.

Lemma bft_ancestor_round b a : block_in G b → a ∈ vb_ancestors b → br_round a < vb_round b.
Proof. intros Hb Ha. apply (bft_desc _ _ _ HG (reference b) a). by exists b. Qed.

(** A certificate is backed by a quorum of blocks, one round above the leader, whose
    first link into the leader's slot is the leader. *)
Lemma certificate_votes L C :
  block_in G C → vb_round C = vb_round L + 2 → certifies G c L C = true →
  ∃ X : gset N, reached_quorum c (weight c X) = true ∧
    ∀ i, i ∈ X → ∃ v, block_in G v ∧ vb_author v = i ∧ vb_round v = vb_round L + 1 ∧
      first_at (Slot_from (reference L)) v = Some (reference L).
Proof.
  intros HC Hr Hcert. eexists. split; [exact Hcert|]. intros i.
  rewrite elem_of_list_to_set, list_elem_of_fmap. intros (a & -> & Ha).
  apply list_elem_of_filter in Ha as [Hv%Is_true_true Ha].
  unfold vote_of in Hv. destruct (G a) as [v|] eqn:HGa; [|done].
  pose proof (bft_ref _ _ _ HG _ _ HGa) as Href.
  apply bool_decide_eq_true in Hv. exists v.
  assert (block_in G v) as Hvin by (unfold block_in; by rewrite Href).
  split; [done|]. split; [by rewrite <- Href|]. split; [|done].
  apply bft_ancestor_round in Ha; [|done]. rewrite <- Href in Ha. simpl in Ha.
  apply head_Some_elem_of, list_elem_of_filter in Hv as [_ HL].
  apply bft_ancestor_round in HL; [|done]. simpl in HL. lia.
Qed.

Lemma honest_pair X Y :
  reached_quorum c (weight c X) = true → reached_quorum c (weight c Y) = true →
  ∃ i, i ∈ X ∧ i ∈ Y ∧ i ∉ byz.
Proof. intros HX HY. eapply quorums_share_honest; try done. apply (bft_byz _ _ _ HG). Qed.

Lemma honest_same b b' i :
  block_in G b → block_in G b' → vb_author b = i → vb_author b' = i → i ∉ byz →
  vb_round b = vb_round b' → b = b'.
Proof.
  intros Hb Hb' <- Ha Hi Hr. apply (bft_honest _ _ _ HG); try done.
  unfold Slot_from. simpl. by rewrite Hr, Ha.
Qed.

(** At most one block of a slot can be certified. *)
Lemma certified_unique L L' C C' :
  block_in G C → block_in G C' → Slot_from (reference L) = Slot_from (reference L') →
  vb_round C = vb_round L + 2 → vb_round C' = vb_round L' + 2 →
  certifies G c L C = true → certifies G c L' C' = true → reference L = reference L'.
Proof.
  intros HC HC' Hslot Hr Hr' Hcert Hcert'.
  destruct (certificate_votes L C HC Hr Hcert) as (X & HX & HvX).
  destruct (certificate_votes L' C' HC' Hr' Hcert') as (Y & HY & HvY).
  destruct (honest_pair X Y HX HY) as (i & HiX & HiY & Hi).
  destruct (HvX i HiX) as (v & Hv & Hva & Hvr & Hvf).
  destruct (HvY i HiY) as (v' & Hv' & Hva' & Hvr' & Hvf').
  assert (vb_round L = vb_round L') as Hround by (injection Hslot; auto).
  assert (v = v') as <- by (eapply honest_same; eauto; lia).
  rewrite Hslot in Hvf. congruence.
Qed.

(** A blamed slot has no certificate. *)
Lemma blamed_not_certified slot L C :
  blames G c slot → Slot_from (reference L) = slot → block_in G C →
  vb_round C = vb_round L + 2 → certifies G c L C = false.
Proof.
  intros (Y & HY & HvY) Hslot HC Hr. destruct (certifies G c L C) eqn:Hcert; [|done]. exfalso.
  destruct (certificate_votes L C HC Hr Hcert) as (X & HX & HvX).
  destruct (honest_pair X Y HX HY) as (i & HiX & HiY & Hi).
  destruct (HvX i HiX) as (v & Hv & Hva & Hvr & Hvf).
  destruct (HvY i HiY) as (v' & Hv' & Hva' & Hvr' & Hno).
  assert (vb_round v = vb_round v') as Hrr by (subst slot; simpl in *; lia).
  assert (v = v') as <- by (eapply honest_same; eauto).
  apply head_Some_elem_of, list_elem_of_filter in Hvf as [_ HL].
  apply (Hno _ HL). by subst slot.
Qed.

Lemma quorum_nonempty X : reached_quorum c (weight c X) = true → ∃ i, i ∈ X.
Proof.
  intros HX. destruct (set_choose_or_empty X) as [?|He]; [done|].
  apply leibniz_equiv in He. subst X. by rewrite quorum_empty in HX.
Qed.

(** A supported block has a certificate. *)
Lemma supported_certificate L :
  supported G c L → ∃ C, block_in G C ∧ vb_round C = vb_round L + 2 ∧ certifies G c L C = true.
Proof.
  intros (X & HX & Hall). destruct (quorum_nonempty X HX) as [i Hi].
  destruct (Hall i Hi) as (C & ? & _ & ? & ?). eauto.
Qed.

Lemma supported_unique L L' :
  Slot_from (reference L) = Slot_from (reference L') →
  supported G c L → supported G c L' → reference L = reference L'.
Proof.
  intros Hslot (C & HC & Hr & Hcert)%supported_certificate (C' & HC' & Hr' & Hcert')%supported_certificate.
  exact (certified_unique L L' C C' HC HC' Hslot Hr Hr' Hcert Hcert').
Qed.

(** ** Views *)

(** A validator's view: a well-formed local DAG that is part of the universe. *)
Record view_of {S} `{StoreSpec S} (d : DagState S) : Prop := {
  v_ok : view_ok d;
  v_committee : dag_committee d = c;
  v_sub : ∀ r b, dag_lookup d r = Some b → G r = Some b;
}.

Section View.
Context {S : Type} `{StoreSpec S} (d : DagState S) (Hd : view_of d).
Let U := dag_lookup d.

Lemma view_block b : block_in U b → block_in G b.
Proof. apply (v_sub d Hd). Qed.

Lemma view_closed b a : block_in U b → a ∈ vb_ancestors b → dag_gc_round d < br_round a →
  ∃ x, U a = Some x ∧ G a = Some x ∧ reference x = a.
Proof.
  intros Hb Ha Hr. destruct (u_closed _ _ (vo_universe d (v_ok d Hd)) (reference b) a) as [x Hx];
    [by exists b|done|]. exists x. split; [done|]. split; [by apply (v_sub d Hd)|].
  by eapply (u_ref _ _ (vo_universe d (v_ok d Hd))).
Qed.

(** Whether a block is a certificate does not depend on the view. *)
Lemma certifies_view L C :
  block_in U C → dag_gc_round d < vb_round L → certifies U c L C = certifies G c L C.
Proof.
  intros HC Hgc. unfold certifies. do 2 f_equal.
  assert (∀ a, a ∈ vb_ancestors C → vote_of U L a = vote_of G L a) as Hvote.
  { intros a Ha. unfold vote_of.
    destruct (decide (dag_gc_round d < br_round a)) as [Hlt|Hge].
    { destruct (view_closed C a HC Ha Hlt) as (x & -> & -> & _). done. }
    assert (∀ v, G a = Some v → votes_for L v = false) as Hno.
    { intros v Hv. apply bool_decide_eq_false. intros Hf.
      apply head_Some_elem_of, list_elem_of_filter in Hf as [_ HL].
      pose proof (bft_ref _ _ _ HG _ _ Hv) as Href.
      apply (bft_ancestor_round v) in HL; [|unfold block_in; by rewrite Href].
      rewrite <- Href in Hge. simpl in *. lia. }
    destruct (U a) as [v|] eqn:HUa.
    - rewrite (v_sub d Hd _ _ HUa). done.
    - destruct (G a) as [v|] eqn:HGa; [|done]. symmetry. by apply Hno. }
  do 2 f_equal. induction (vb_ancestors C) as [|a l IH]; [done|].
  rewrite !filter_cons, (Hvote a) by apply list_elem_of_here.
  rewrite IH by (intros; apply Hvote; by apply list_elem_of_further). done.
Qed.

Lemma blames_view slot : blames U c slot → blames G c slot.
Proof.
  intros (X & HX & Hall). exists X. split; [done|]. intros i (b & Hb & ?)%Hall.
  exists b. split; [by apply view_block|done].
Qed.

Lemma supported_view L : dag_gc_round d < vb_round L → supported U c L → supported G c L.
Proof.
  intros Hgc (X & HX & Hall). exists X. split; [done|]. intros i (C & HC & ? & ? & Hcert)%Hall.
  exists C. rewrite certifies_view in Hcert by done. split; [by apply view_block|done].
Qed.

Lemma rtc_view r r' : rtc (parent U) r r' → rtc (parent G) r r'.
Proof.
  induction 1 as [|x y z (b & Hb & Ha) _ IH]; [done|]. eapply rtc_l; [|done].
  exists b. split; [by apply (v_sub d Hd)|done].
Qed.

(** Every block two rounds or more above a supported leader's certificates has one of
    them in its history. *)
Lemma supported_reaches L n A :
  supported G c L → dag_gc_round d < vb_round L → block_in U A →
  vb_round A = vb_round L + 3 + N.of_nat n →
  ∃ C, block_in U C ∧ vb_round C = vb_round L + 2 ∧
    rtc (parent U) (reference A) (reference C) ∧ certifies G c L C = true.
Proof.
  intros Hsup Hgc. revert A. induction n as [|n IH]; intros A HA Hr.
  all: assert (quorum_parents c A) as Hq
         by (apply (bft_parents _ _ _ HG); [by apply view_block|lia]).
  - destruct Hsup as (X & HX & Hall).
    destruct (honest_pair _ _ HX Hq) as (i & HiX & HiA & Hi).
    destruct (Hall i HiX) as (C & HC & HCa & HCr & Hcert).
    rewrite elem_of_list_to_set, list_elem_of_fmap in HiA.
    destruct HiA as (a & -> & [Har Ha]%list_elem_of_filter).
    destruct (view_closed A a HA Ha) as (x & HUx & HGx & Href); [lia|].
    assert (C = x) as ->.
    { apply (honest_same _ _ (br_author a)); try done.
      - unfold block_in. by rewrite Href.
      - by rewrite <- Href.
      - rewrite <- Href in Har. simpl in Har. lia. }
    exists x. split; [unfold block_in; by rewrite Href|]. split; [done|]. split; [|done].
    apply rtc_once. exists A. rewrite Href. done.
  - destruct (quorum_nonempty _ Hq) as [i Hi].
    rewrite elem_of_list_to_set, list_elem_of_fmap in Hi.
    destruct Hi as (a & -> & [Har Ha]%list_elem_of_filter).
    destruct (view_closed A a HA Ha) as (x & HUx & HGx & Href); [lia|].
    destruct (IH x) as (C & HC & HCr & Hrtc & Hcert).
    { unfold block_in. by rewrite Href. }
    { rewrite <- Href in Har. simpl in Har. lia. }
    exists C. split; [done|]. split; [done|]. split; [|done].
    apply (rtc_l _ _ a); [by exists A|]. by rewrite <- Href.
Qed.
End View.
End Global.

(** * Decisions in terms of the universe *)

Section Decisions.
Context (c : Committee) (byz : gset N) (G : universe) (HG : bft c byz G).

(** A certificate for the leader block in the history of an anchor. *)
Definition certified_link (A L : VerifiedBlock) : Prop :=
  ∃ C, block_in G C ∧ vb_round C = vb_round L + 2 ∧ vb_round L + 2 < vb_round A ∧
    rtc (parent G) (reference A) (reference C) ∧ certifies G c L C = true.

Definition anchor_decides (A : VerifiedBlock) (slot : Slot) (st : LeaderStatus) : Prop :=
  match st with
  | LsCommit L => block_in G L ∧ Slot_from (reference L) = slot ∧ certified_link A L
  | LsSkip s => s = slot ∧
      ∀ L, block_in G L → Slot_from (reference L) = slot → ¬ certified_link A L
  | LsUndecided _ => False
  end.

Definition direct_decides (slot : Slot) (st : LeaderStatus) : Prop :=
  match st with
  | LsCommit L => block_in G L ∧ Slot_from (reference L) = slot ∧ supported G c L
  | LsSkip s => s = slot ∧ blames G c slot
  | LsUndecided s => s = slot
  end.

Lemma block_in_inj b b' : block_in G b → block_in G b' → reference b = reference b' → b = b'.
Proof. unfold block_in. intros Hb Hb' Heq. rewrite Heq in Hb. congruence. Qed.

Lemma certified_link_unique A A' L L' :
  block_in G L → block_in G L' → Slot_from (reference L) = Slot_from (reference L') →
  certified_link A L → certified_link A' L' → L = L'.
Proof.
  intros HL HL' Hs (C & HC & Hr & _ & _ & Hcert) (C' & HC' & Hr' & _ & _ & Hcert').
  apply block_in_inj; try done. by eapply (certified_unique c byz G HG L L' C C').
Qed.

Lemma anchor_decides_unique A slot st st' :
  anchor_decides A slot st → anchor_decides A slot st' → st = st'.
Proof.
  destruct st as [L|s|s], st' as [L'|s'|s']; simpl; try done.
  - intros (HL & Hs & Hc) (HL' & Hs' & Hc'). f_equal.
    apply (certified_link_unique A A); try done. congruence.
  - intros (HL & Hs & Hc) (_ & Hno). exfalso. by eapply Hno.
  - intros (_ & Hno) (HL & Hs & Hc). exfalso. by eapply Hno.
  - intros [-> _] [-> _]. done.
Qed.

Lemma direct_decides_unique slot st st' :
  LeaderStatus_is_decided st = true → LeaderStatus_is_decided st' = true →
  direct_decides slot st → direct_decides slot st' → st = st'.
Proof.
  intros Hst Hst'. destruct st as [L|s|s], st' as [L'|s'|s']; simpl; try done.
  - intros (HL & Hs & Hsup) (HL' & Hs' & Hsup'). f_equal. apply block_in_inj; try done.
    eapply (supported_unique c byz G HG); [congruence|done..].
  - intros (HL & Hs & Hsup) (-> & Hb). exfalso.
    destruct (supported_certificate c byz G HG L Hsup) as (C & HC & Hr & Hcert).
    by rewrite (blamed_not_certified c byz G HG slot L C) in Hcert.
  - intros (-> & Hb) (HL & Hs & Hsup). exfalso.
    destruct (supported_certificate c byz G HG L' Hsup) as (C & HC & Hr & Hcert).
    by rewrite (blamed_not_certified c byz G HG slot L' C) in Hcert.
  - intros [-> _] [-> _]. done.
Qed.

Lemma rtc_G_round r r' : rtc (parent G) r r' → br_round r' ≤ br_round r.
Proof. induction 1 as [|x y z Hp _ IH]; [lia|]. apply (bft_desc _ _ _ HG) in Hp. lia. Qed.

Section View.
Context {S : Type} `{StoreSpec S} (d : DagState S) (Hd : view_of c G d).
Let U := dag_lookup d.

(** History of a local block above the garbage collection round is local. *)
Lemma rtc_view_back A r :
  block_in U A → dag_gc_round d < br_round r → rtc (parent G) (reference A) r →
  rtc (parent U) (reference A) r ∧ ∃ x, U r = Some x ∧ reference x = r.
Proof.
  intros HA Hr Hrtc. remember (reference A) as r0 eqn:Hr0. revert A HA Hr0.
  induction Hrtc as [r0|r0 a r Hp Hrest IH]; intros A HA Hr0.
  - split; [done|]. exists A. subst r0. done.
  - destruct Hp as (b & Hb & Ha). subst r0.
    assert (b = A) as -> by (pose proof (view_block c G d Hd A HA) as HGA; unfold block_in in HGA; congruence).
    pose proof (rtc_G_round _ _ Hrest) as Hle.
    destruct (view_closed c G d Hd A a HA Ha) as (x & HUx & HGx & Href); [lia|].
    destruct (IH Hr x) as [IH1 IH2]; [unfold block_in; by rewrite Href|done|].
    split; [|done]. eapply rtc_l; [|done]. by exists A.
Qed.

(** A certified link from a local anchor is visible in the view, leader included. *)
Lemma certified_link_view A L :
  block_in U A → dag_gc_round d < vb_round L →
  certified_from d A L ↔ certified_link A L.
Proof.
  intros HA Hgc. unfold certified_from, certified_link. rewrite (v_committee c G d Hd). split.
  - intros (C & HC & Hr & Hlt & Hrtc & Hcert). exists C.
    rewrite (certifies_view c byz G HG d Hd) in Hcert by done.
    split; [by apply (view_block c G d Hd)|]. split; [done|]. split; [done|].
    split; [by apply (rtc_view c G d Hd)|done].
  - intros (C & HC & Hr & Hlt & Hrtc & Hcert).
    destruct (rtc_view_back A (reference C) HA) as [Hrtc' (x & HUx & Href)];
      [simpl; lia|done|].
    assert (x = C) as -> by (apply (v_sub c G d Hd) in HUx; unfold block_in in HC; congruence).
    exists C. rewrite (certifies_view c byz G HG d Hd) by done. done.
Qed.

Lemma certified_link_local A L :
  block_in U A → dag_gc_round d < vb_round L → block_in G L → certified_link A L → block_in U L.
Proof.
  intros HA Hgc HL Hlink. apply certified_link_view in Hlink as (C & HC & Hr & _ & _ & Hcert); try done.
  rewrite (v_committee c G d Hd) in Hcert.
  unfold certifies in Hcert. apply (quorum_nonempty c byz G HG) in Hcert as [i Hi].
  rewrite elem_of_list_to_set, list_elem_of_fmap in Hi. destruct Hi as (a & -> & Ha).
  apply list_elem_of_filter in Ha as [Hv%Is_true_true Ha]. unfold vote_of in Hv.
  destruct (dag_lookup d a) as [v|] eqn:HUa; [|done].
  pose proof (u_ref _ _ (vo_universe d (v_ok c G d Hd)) _ _ HUa) as Href.
  apply bool_decide_eq_true, head_Some_elem_of, list_elem_of_filter in Hv as [_ Hin].
  destruct (view_closed c G d Hd v (reference L)) as (x & HUx & HGx & Hrefx).
  - unfold block_in. by rewrite Href.
  - done.
  - simpl. lia.
  - unfold block_in in *. fold U in HUx. congruence.
Qed.

(** A direct decision anywhere is the decision of every later local anchor. *)
Lemma direct_then_anchor slot A st st' :
  last_commit_round d < slot_round slot → block_in U A → slot_round slot + 3 ≤ vb_round A →
  LeaderStatus_is_decided st = true → direct_decides slot st → anchor_decides A slot st' → st = st'.
Proof.
  intros Hlc HA Hr Hst Hdir Hanc. pose proof (gc_le_last_commit d) as Hgc.
  assert (∀ L, Slot_from (reference L) = slot → vb_round L = slot_round slot) as HrL
    by (intros L <-; done).
  destruct st as [L|s|s]; simpl in *; [| |done].
  - destruct Hdir as (HL & Hs & Hsup). pose proof (HrL L Hs) as HLr.
    destruct (supported_reaches c byz G HG d Hd L (N.to_nat (vb_round A - (vb_round L + 3))) A Hsup)
      as (C & HC & HCr & Hrtc & Hcert); [lia|done|lia|].
    apply (anchor_decides_unique A slot); [|done]. simpl.
    split; [done|]. split; [done|]. exists C.
    split; [by apply (view_block c G d Hd)|]. split; [done|]. split; [lia|].
    split; [by apply (rtc_view c G d Hd)|done].
  - destruct Hdir as (-> & Hb). apply (anchor_decides_unique A slot); [|done]. simpl.
    split; [done|]. intros L HL Hs (C & HC & HCr & _ & _ & Hcert).
    by rewrite (blamed_not_certified c byz G HG slot L C) in Hcert.
Qed.

(** ** The committer on a view *)

Context (bc : BaseCommitter) (Hbc : bc_committee bc = c).
Context (Hwave : wave_length (bc_options bc) = 3) (Hoff : round_offset (bc_options bc) < 2 ^ 32).

(** A slot the committer may be asked to decide. *)
Definition decidable_slot (slot : Slot) : Prop :=
  leader_round (bc_options bc) (wave_number (bc_options bc) (slot_round slot)) = slot_round slot ∧
  last_commit_round d < slot_round slot ∧ slot_round slot + 3 < u32_max.

Lemma direct_decides_view slot :
  decidable_slot slot →
  ∃ st, try_direct_decide bc d slot = Ret st ∧ direct_decides slot st ∧
    (∀ L, st = LsCommit L → block_in U L).
Proof.
  intros (Hlead & Hlc & Hmax).
  pose proof (gc_le_last_commit d) as Hgc.
  assert (∀ L, Slot_from (reference L) = slot → dag_gc_round d < vb_round L) as HgcL
    by (intros L <-; simpl in *; lia).
  pose proof (decision_round_leader (bc_options bc) (slot_round slot) Hwave Hoff ltac:(lia) Hlead) as Hdec.
  destruct (try_direct_decide_spec d (v_ok c G d Hd) bc slot) as (st & Hst & Hspec); try done.
  { by rewrite Hbc, (v_committee c G d Hd). }
  { lia. }
  { intros L L' HL HL' Hs Hs'. rewrite (v_committee c G d Hd). intros Hsup Hsup'.
    apply block_in_inj; [by apply (view_block c G d Hd)..|].
    eapply (supported_unique c byz G HG); [congruence| |];
      (eapply (supported_view c byz G HG d Hd); [by apply HgcL|done]). }
  exists st. split; [done|]. rewrite (v_committee c G d Hd) in Hspec.
  destruct st as [L|s|s]; simpl.
  - destruct Hspec as (HL & Hs & Hsup & _). split; [|intros ? [= <-]; done].
    split; [by apply (view_block c G d Hd)|]. split; [done|].
    eapply (supported_view c byz G HG d Hd); [by apply HgcL|done].
  - destruct Hspec as (-> & Hb). split; [|done]. split; [done|]. by eapply (blames_view c G d Hd).
  - by destruct Hspec as (-> & _).
Qed.

Lemma anchor_decides_view slot A :
  decidable_slot slot → block_in U A →
  ∃ st, decide_leader_from_anchor bc d A slot = Ret st ∧ anchor_decides A slot st ∧
    (∀ L, st = LsCommit L → block_in U L).
Proof.
  intros (Hlead & Hlc & Hmax) HA.
  pose proof (gc_le_last_commit d) as Hgc.
  assert (∀ L, Slot_from (reference L) = slot → dag_gc_round d < vb_round L) as HgcL
    by (intros L <-; simpl in *; lia).
  pose proof (decision_round_leader (bc_options bc) (slot_round slot) Hwave Hoff ltac:(lia) Hlead) as Hdec.
  destruct (decide_from_anchor_spec d (v_ok c G d Hd) bc A slot) as (st & Hst & Hspec); try done.
  { by rewrite Hbc, (v_committee c G d Hd). }
  { lia. }
  { intros L L' HL HL' Hs Hs' Hcf Hcf'.
    apply certified_link_view in Hcf, Hcf'; try done; try by apply HgcL.
    apply (certified_link_unique A A); try done; try by apply (view_block c G d Hd). congruence. }
  exists st. split; [done|].
  destruct st as [L|s|s]; simpl; [| |done].
  - destruct Hspec as (HL & Hs & Hcf). split; [|intros ? [= <-]; done].
    split; [by apply (view_block c G d Hd)|]. split; [done|].
    apply certified_link_view in Hcf; try done. by apply HgcL.
  - destruct Hspec as (-> & Hno). split; [|done]. split; [done|]. intros L HL Hs Hlink.
    apply (Hno L); [|done|apply certified_link_view; try done; by apply HgcL].
    eapply certified_link_local; try done. by apply HgcL.
Qed.
End View.
End Decisions.

(** * Properties *)

(** C9. The direct rule is exact on a view: it never panics, it skips the leader slot
    exactly when a quorum of the next round blames it, and it commits a block exactly when
    that block is in the slot and a quorum of the round after certifies it. *)
Theorem direct_decision_exact c byz G {S} `{StoreSpec S} (d : DagState S) bc slot :
  bft c byz G → view_of c G d → bc_committee bc = c →
  wave_length (bc_options bc) = 3 → round_offset (bc_options bc) < 2 ^ 32 →
  decidable_slot d bc slot →
  (∀ bs, get_uncommitted_blocks_at_round d (slot_round slot + 2) = Ret bs →
     nsum (stake_of c <$> (vb_author <$> bs)) < 2 ^ 64) →
  ∃ st, try_direct_decide bc d slot = Ret st ∧
    (st = LsSkip slot ↔ blames (dag_lookup d) c slot) ∧
    (∀ L, st = LsCommit L ↔
       block_in (dag_lookup d) L ∧ Slot_from (reference L) = slot ∧ supported (dag_lookup d) c L).
Proof.
  intros HG Hd Hbc Hw Hoff (Hlead & Hlc & Hmax) Hover.
  pose proof (gc_le_last_commit d) as Hgc.
  assert (∀ L, Slot_from (reference L) = slot → dag_gc_round d < vb_round L) as HgcL
    by (intros L <-; simpl in *; lia).
  assert (∀ L L', block_in (dag_lookup d) L → block_in (dag_lookup d) L' →
    Slot_from (reference L) = slot → Slot_from (reference L') = slot →
    supported (dag_lookup d) c L → supported (dag_lookup d) c L' → L = L') as Huniq.
  { intros L L' HL HL' Hs Hs' Hsup Hsup'.
    apply (block_in_inj G); [by apply (view_block c G d Hd)..|].
    eapply (supported_unique c byz G HG); [congruence| |];
      (eapply (supported_view c byz G HG d Hd); [by apply HgcL|done]). }
  assert (∀ L, Slot_from (reference L) = slot → supported (dag_lookup d) c L →
    ¬ blames (dag_lookup d) c slot) as Hexcl.
  { intros L Hs Hsup Hb. apply (supported_view c byz G HG d Hd) in Hsup; [|by apply HgcL].
    apply (blames_view c G d Hd) in Hb.
    destruct (supported_certificate c byz G HG L Hsup) as (C & HC & Hr & Hcert).
    by rewrite (blamed_not_certified c byz G HG slot L C) in Hcert. }
  destruct (try_direct_decide_spec d (v_ok c G d Hd) bc slot) as (st & Hst & Hspec);
    rewrite ?(v_committee c G d Hd) in *; try done; [|lia|].
  { apply (decision_round_leader (bc_options bc) (slot_round slot) Hw Hoff); [lia|done]. }
  exists st. split; [done|]. destruct st as [L|s|s].
  - destruct Hspec as (HL & Hs & Hsup & Hnb). split; [naive_solver|].
    intros L'. split; [by intros [= <-]|]. intros (HL' & Hs' & Hsup'). f_equal. by apply Huniq.
  - destruct Hspec as (-> & Hb). split; [done|]. intros L. split; [done|].
    intros (_ & Hs & Hsup). by destruct (Hexcl L Hs Hsup).
  - destruct Hspec as (-> & Hnb & Hns). split; [done|]. intros L. split; [done|].
    intros (HL & Hs & Hsup). by destruct (Hns Hover L HL Hs).
Qed.

(** C8. Safety of the decision for one leader slot across two validators. Direct decisions
    agree; a direct decision of one is what the indirect rule of the other concludes from
    every committed leader three rounds or more above; and the indirect rule concludes the
    same for the same anchor. The rules never panic. *)
Theorem leader_decisions_agree c byz G {S1 S2} `{StoreSpec S1} `{StoreSpec S2}
    (d1 : DagState S1) (d2 : DagState S2) bc1 bc2 slot :
  bft c byz G → view_of c G d1 → view_of c G d2 →
  bc_committee bc1 = c → bc_committee bc2 = c → bc_options bc1 = bc_options bc2 →
  wave_length (bc_options bc1) = 3 → round_offset (bc_options bc1) < 2 ^ 32 →
  decidable_slot d1 bc1 slot → decidable_slot d2 bc2 slot →
  ∃ st1 st2, try_direct_decide bc1 d1 slot = Ret st1 ∧ try_direct_decide bc2 d2 slot = Ret st2 ∧
    (LeaderStatus_is_decided st1 = true → LeaderStatus_is_decided st2 = true → st1 = st2) ∧
    ∀ A, block_in (dag_lookup d2) A →
      ∃ sta, decide_leader_from_anchor bc2 d2 A slot = Ret sta ∧ LeaderStatus_is_decided sta = true ∧
        (LeaderStatus_is_decided st1 = true → slot_round slot + 3 ≤ vb_round A → sta = st1) ∧
        (block_in (dag_lookup d1) A → decide_leader_from_anchor bc1 d1 A slot = Ret sta).
Proof.
  intros HG Hd1 Hd2 Hbc1 Hbc2 Hopt Hw Hoff Hs1 Hs2.
  assert (wave_length (bc_options bc2) = 3 ∧ round_offset (bc_options bc2) < 2 ^ 32) as [Hw2 Hoff2]
    by (by rewrite <- Hopt).
  destruct (direct_decides_view c byz G HG d1 Hd1 bc1 Hbc1 Hw Hoff slot Hs1) as (st1 & Hst1 & Hdir1 & _).
  destruct (direct_decides_view c byz G HG d2 Hd2 bc2 Hbc2 Hw2 Hoff2 slot Hs2) as (st2 & Hst2 & Hdir2 & _).
  exists st1, st2. split; [done|]. split; [done|].
  split; [intros; by eapply (direct_decides_unique c byz G HG)|]. intros A HA.
  destruct (anchor_decides_view c byz G HG d2 Hd2 bc2 Hbc2 Hw2 Hoff2 slot A Hs2 HA) as (sta & Hsta & Hanc & _).
  exists sta. split; [done|]. split; [by destruct sta|]. split.
  - intros Hdec Hr. symmetry. destruct Hs2 as (_ & Hlc & _).
    by eapply (direct_then_anchor c byz G HG d2 Hd2 slot A).
  - intros HA1.
    destruct (anchor_decides_view c byz G HG d1 Hd1 bc1 Hbc1 Hw Hoff slot A Hs1 HA1) as (sta' & -> & Hanc' & _).
    f_equal. by eapply (anchor_decides_unique c byz G HG).
Qed.

(** * Witnesses *)

(** Universes and views from lists of blocks. *)
Section Samples.
Context (n : nat) (gc : N).

Definition sample_universe (blocks : list VerifiedBlock) : universe :=
  dag_lookup (sample_dag n gc blocks).

(** Decidable form of [bft] for such a universe. *)
Definition sample_bft_ok (byz : gset N) (blocks : list VerifiedBlock) : bool :=
  negb (reached_validity (sample_committee n) (weight (sample_committee n) byz)) &&
  forallb (λ b, bool_decide (quorum_parents (sample_committee n) b)) blocks &&
  forallb (λ b, forallb (λ b', bool_decide (
    Slot_from (reference b) = Slot_from (reference b') → vb_author b ∉ byz →
    reference b = reference b')) blocks) blocks.

Lemma sample_bft byz blocks :
  sample_ok n blocks = true → sample_bft_ok byz blocks = true →
  bft (sample_committee n) byz (sample_universe blocks).
Proof.
  intros Hok Hbft. unfold sample_bft_ok in Hbft. rewrite !andb_true_iff, negb_true_iff in Hbft.
  destruct Hbft as [[Hbyz Hq] Hh]. rewrite forallb_forall in Hq, Hh.
  pose proof (sample_facts n blocks Hok) as (Hn & _ & Hb).
  pose proof (sample_universe_wf n gc blocks Hok 0) as HU.
  assert (∀ b, block_in (sample_universe blocks) b → b ∈ sample_genesis n ++ blocks) as Hin
    by (intros b HL; by apply sample_lookup in HL as [? _]).
  assert (∀ b, b ∈ sample_genesis n → vb_round b = 0) as Hgen
    by (intros b (i & _ & ->)%elem_of_sample_genesis; done).
  split; try done.
  - by apply sample_committee_wf.
  - apply (u_ref _ _ HU).
  - apply (u_desc _ _ HU).
  - intros b [Hg|Hbl]%Hin%elem_of_app Hr; [apply Hgen in Hg; lia|].
    by apply list_elem_of_In, Hq, bool_decide_eq_true in Hbl.
  - intros b b' HL HL' Hs Hnb.
    enough (reference b = reference b') as Heq by (unfold block_in in *; rewrite Heq in HL; congruence).
    pose proof (f_equal slot_round Hs) as Hr. simpl in Hr.
    apply Hin in HL as [Hg|Hbl]%elem_of_app; apply Hin in HL' as [Hg'|Hbl']%elem_of_app.
    + apply elem_of_sample_genesis in Hg as (i & _ & ->), Hg' as (j & _ & ->).
      apply (f_equal slot_authority) in Hs. simpl in Hs. apply Nat2N.inj in Hs. by subst.
    + apply Hgen in Hg. destruct (Hb _ Hbl') as (_ & ? & _). lia.
    + apply Hgen in Hg'. destruct (Hb _ Hbl) as (_ & ? & _). lia.
    + apply list_elem_of_In, Hh in Hbl. rewrite forallb_forall in Hbl.
      apply list_elem_of_In, Hbl, bool_decide_eq_true in Hbl'. by apply Hbl'.
Qed.

Lemma sample_view blocks blocks' :
  sample_ok n blocks = true → sample_ok n blocks' = true → (∀ b, b ∈ blocks → b ∈ blocks') →
  view_of (sample_committee n) (sample_universe blocks') (sample_dag n gc blocks).
Proof.
  intros Hok Hok' Hsub. split; [split|done|].
  - by apply sample_dag_wf.
  - by apply sample_universe_wf.
  - intros b a HL Ha. apply sample_lookup in HL as [HL _]; [|done].
    pose proof (sample_facts n blocks Hok) as (Hn & _ & Hb).
    assert (∀ b, b ∈ sample_genesis n ++ blocks → vb_author b < N.of_nat n) as Hauth.
    { intros x [(i & ? & ->)%elem_of_sample_genesis|(_ & _ & ? & _)%Hb]%elem_of_app; [|done].
      change (N.of_nat i < N.of_nat n). lia. }
    apply elem_of_app in HL as [(i & _ & ->)%elem_of_sample_genesis|HL];
      [by apply elem_of_nil in Ha|].
    apply Hb in HL as (_ & _ & _ & HL). apply HL in Ha as [_ Ha].
    apply list_elem_of_fmap in Ha as (x & -> & Hx). apply Hauth in Hx.
    unfold is_valid_index, Committee_size. simpl. rewrite length_replicate.
    by apply bool_decide_eq_true.
  - intros r b. unfold sample_universe. rewrite !sample_lookup by done.
    rewrite !elem_of_app. naive_solver.
Qed.
End Samples.

(** Five rounds of four authorities, each block linking the whole previous round; the
    last authority is Byzantine and has a second block in round one, which nobody links. *)
Definition full_round (r : N) : list VerifiedBlock :=
  (λ a, sample_block r a (if r =? 0 then 1000 + a else 100 * r + a)
          ((λ a', mkBlockRef (r - 1) a' (if r =? 1 then 1000 + a' else 100 * (r - 1) + a')) <$> [0; 1; 2; 3]))
    <$> [0; 1; 2; 3].

Definition full_rounds (n : nat) : list VerifiedBlock := seq 1 n ≫= λ r, full_round (N.of_nat r).

Definition equivocation : VerifiedBlock :=
  sample_block 1 3 199 ((λ a, mkBlockRef 0 a (1000 + a)) <$> [0; 1; 2; 3]).

Definition wide_universe : list VerifiedBlock := equivocation :: full_rounds 5.

Lemma wide_ok : sample_ok 4 wide_universe = true.
Proof. vm_compute. reflexivity. Qed.
Lemma wide_bft : sample_bft_ok 4 {[3]} wide_universe = true.
Proof. vm_compute. reflexivity. Qed.
Lemma narrow_ok : sample_ok 4 (full_rounds 3) = true.
Proof. vm_compute. reflexivity. Qed.
Lemma narrow_wide b : b ∈ full_rounds 3 → b ∈ wide_universe.
Proof.
  intros Hb. right. unfold full_rounds in *. change (seq 1 5) with (seq 1 3 ++ seq 4 2).
  rewrite bind_app. apply elem_of_app. by left.
Qed.

Definition sample_committer (offset : N) : BaseCommitter :=
  mkBaseCommitter (sample_context 4 60) (LeaderSchedule_new (sample_context 4 60) LeaderSwapTable_default)
    (mkBaseCommitterOptions 3 0 offset).

Lemma direct_decision_exact_witness :
  let d := sample_dag 4 60 (full_rounds 3) in
  let L := sample_block 1 0 100 ((λ a, mkBlockRef 0 a (1000 + a)) <$> [0; 1; 2; 3]) in
  try_direct_decide (sample_committer 1) d (mkSlot 1 0) = Ret (LsCommit L) ∧
  supported (dag_lookup d) (sample_committee 4) L.
Proof.
  intros d L.
  destruct (direct_decision_exact (sample_committee 4) {[3]} (sample_universe 4 60 wide_universe) d
    (sample_committer 1) (mkSlot 1 0)) as (st & Hst & _ & Hcommit).
  - exact (sample_bft 4 60 {[3]} wide_universe wide_ok wide_bft).
  - exact (sample_view 4 60 (full_rounds 3) wide_universe narrow_ok wide_ok narrow_wide).
  - reflexivity.
  - reflexivity.
  - reflexivity.
  - split; [reflexivity|]. split; [reflexivity|]. vm_compute. reflexivity.
  - intros bs Hbs. vm_compute in Hbs. injection Hbs as <-. vm_compute. reflexivity.
  - assert (try_direct_decide (sample_committer 1) d (mkSlot 1 0) = Ret (LsCommit L)) as Heval
      by (vm_compute; reflexivity).
    rewrite Heval in Hst. injection Hst as Hst. split; [exact Heval|].
    apply (Hcommit L). symmetry. exact Hst.
Defined.

Lemma leader_decisions_agree_witness :
  let d1 := sample_dag 4 60 (full_rounds 3) in
  let d2 := sample_dag 4 60 wide_universe in
  ∃ st1 st2, try_direct_decide (sample_committer 1) d1 (mkSlot 1 0) = Ret st1 ∧
    try_direct_decide (sample_committer 1) d2 (mkSlot 1 0) = Ret st2 ∧
    LeaderStatus_is_decided st1 = true ∧ LeaderStatus_is_decided st2 = true ∧ st1 = st2.
Proof.
  intros d1 d2.
  destruct (leader_decisions_agree (sample_committee 4) {[3]} (sample_universe 4 60 wide_universe) d1 d2
    (sample_committer 1) (sample_committer 1) (mkSlot 1 0)) as (st1 & st2 & Hst1 & Hst2 & Heq & _).
  - exact (sample_bft 4 60 {[3]} wide_universe wide_ok wide_bft).
  - exact (sample_view 4 60 (full_rounds 3) wide_universe narrow_ok wide_ok narrow_wide).
  - exact (sample_view 4 60 wide_universe wide_universe wide_ok wide_ok (λ b Hb, Hb)).
  - reflexivity.
  - reflexivity.
  - reflexivity.
  - reflexivity.
  - reflexivity.
  - split; [reflexivity|]. split; [reflexivity|]. vm_compute. reflexivity.
  - split; [reflexivity|]. split; [reflexivity|]. vm_compute. reflexivity.
  - assert (LeaderStatus_is_decided st1 = true) as H1.
    { vm_compute in Hst1. injection Hst1 as <-. reflexivity. }
    assert (LeaderStatus_is_decided st2 = true) as H2.
    { vm_compute in Hst2. injection Hst2 as <-. reflexivity. }
    exists st1, st2. split; [exact Hst1|]. split; [exact Hst2|]. split; [exact H1|]. split; [exact H2|].
    exact (Heq H1 H2).
Defined.
