(* ===== verification/UniversalCommitter.v ===== *)
(** The sequence of leaders (consensus/core/src/universal_committer.rs): committers of
    several rounds and offsets, the loop that decides leaders from the highest round down,
    and the prefix of decided leaders it returns. *)

From stdpp Require Import base tactics numbers list gmap sorting strings.
From S2P Require Import Prelude.
From S2P Require Import Committee.
From S2P Require Import Block.
From S2P Require Import StakeAggregator.
From S2P Require Import Commit.
From S2P Require Import Store.
From S2P Require Import DagState.
From S2P Require Import DagInvariant.
From S2P Require Import LeaderSchedule.
From S2P Require Import BaseCommitter.
From S2P Require Import CommitSafety.

Open Scope N_scope.

(** * Data *)

Record UniversalCommitter := mkUniversalCommitter {
  uc_context : Context;
  uc_committers : list BaseCommitter;
}.

(** The rounds [lo..=hi], ascending. *)
Definition round_range (lo hi : N) : list N :=
  (λ i, lo + N.of_nat i) <$> seq 0 (N.to_nat (hi + 1 - lo)).

(** The builder: one committer per pipeline stage and leader offset. *)
Definition UniversalCommitter_build (context : Context) (schedule : LeaderSchedule)
    (wave_length number_of_leaders : N) (pipeline : bool) : UniversalCommitter :=
  let pipeline_stages := if pipeline then wave_length else 1 in
  mkUniversalCommitter context
    (round_offset ← N.of_nat <$> seq 0 (N.to_nat pipeline_stages);
     leader_offset ← N.of_nat <$> seq 0 (N.to_nat number_of_leaders);
     [mkBaseCommitter context schedule
        (mkBaseCommitterOptions wave_length leader_offset round_offset)]).

(** * Operations *)

Section Operations.
Context {S : Type} `{Store S} `{LeaderRng}.
Implicit Types d : DagState S.

(** Direct rule first, indirect rule with the leaders decided so far otherwise. *)
Definition decide_slot (bc : BaseCommitter) d (slot : Slot)
    (leaders : list (LeaderStatus * Commit.Decision)) : outcome (LeaderStatus * Commit.Decision) :=
  status ← try_direct_decide bc d slot;
  if LeaderStatus_is_decided status then Ret (status, Direct)
  else
    status ← try_indirect_decide bc d slot (fst <$> leaders);
    Ret (status, Indirect).

(** One committer at one round; the flag records that the loop has been left. *)
Definition decide_item d (last_decided : Slot)
    (acc : list (LeaderStatus * Commit.Decision) * bool) (item : N * BaseCommitter)
    : outcome (list (LeaderStatus * Commit.Decision) * bool) :=
  let '(leaders, stopped) := acc in
  if stopped : bool then Ret acc
  else
    slot ← bc_elect_leader item.2 item.1;
    match slot with
    | None => Ret acc
    | Some slot =>
        if decide (slot = last_decided) then Ret (leaders, true)
        else
          leader ← decide_slot item.2 d slot leaders;
          Ret (leader :: leaders, false)
    end.

(** The decided sequence is the longest prefix of decided leaders. *)
Fixpoint decided_prefix (c : Committee) (leaders : list (LeaderStatus * Commit.Decision))
    : outcome (list DecidedLeader) :=
  match leaders with
  | [] => Ret []
  | (leader, decision) :: leaders =>
      if LeaderStatus_round leader =? GENESIS_ROUND then decided_prefix c leaders
      else
        match into_decided_leader leader (bool_decide (decision = Direct)) with
        | None => Ret []
        | Some decided_leader =>
            _ ← Committee_authority c (slot_authority (DecidedLeader_slot decided_leader));
            rest ← decided_prefix c leaders;
            Ret (decided_leader :: rest)
        end
  end.

Definition decision_items (uc : UniversalCommitter) (lo hi : N) : list (N * BaseCommitter) :=
  reverse (round_range lo hi) ≫= λ round, pair round <$> reverse (uc_committers uc).

Definition try_decide (uc : UniversalCommitter) d (last_decided : Slot)
    : outcome (list DecidedLeader) :=
  let highest_accepted_round := ds_highest_accepted_round d in
  let last_round :=
    match mysticeti_num_leaders_per_round (protocol_config (uc_context uc)) with
    | Some 1 => u32_add (slot_round last_decided) 1
    | _ => slot_round last_decided
    end in
  '(leaders, _) ← foldM (decide_item d last_decided) ([], false)
    (decision_items uc last_round (saturating_sub highest_accepted_round 2));
  decided_prefix (committee (uc_context uc)) leaders.

Definition get_leaders (uc : UniversalCommitter) (round : N) : outcome (list N) :=
  slots ← mapM (λ bc, bc_elect_leader bc round) (uc_committers uc);
  Ret (slot_authority <$> omap id slots).
End Operations.

(** * Statuses of a sequence of slots *)

Definition status_slot (st : LeaderStatus) : Slot :=
  match st with
  | LsCommit L => Slot_from (reference L)
  | LsSkip s => s
  | LsUndecided s => s
  end.

Lemma status_slot_round st : LeaderStatus_round st = slot_round (status_slot st).
Proof. by destruct st. Qed.

Lemma find_anchor_Some m sts A :
  find_anchor m sts = Some A → LsCommit A ∈ sts ∧ m ≤ vb_round A.
Proof.
  induction sts as [|st sts IH]; simpl; [done|].
  destruct (N.leb_spec m (LeaderStatus_round st)) as [Hle|_].
  - destruct st as [L|s|s]; intros Hf; simplify_eq/=.
    + split; [apply list_elem_of_here|done].
    + destruct (IH Hf). split; [by apply list_elem_of_further|done].
  - intros Hf. destruct (IH Hf). split; [by apply list_elem_of_further|done].
Qed.

(** Two sequences agree where both are decided. *)
Definition agree (sts1 sts2 : list LeaderStatus) : Prop :=
  ∀ i st1 st2, sts1 !! i = Some st1 → sts2 !! i = Some st2 →
    LeaderStatus_is_decided st1 = true → LeaderStatus_is_decided st2 = true → st1 = st2.

Lemma agree_cons st1 sts1 st2 sts2 :
  agree (st1 :: sts1) (st2 :: sts2) ↔
  (LeaderStatus_is_decided st1 = true → LeaderStatus_is_decided st2 = true → st1 = st2) ∧
  agree sts1 sts2.
Proof.
  split.
  - intros Ha. split; [by apply (Ha 0%nat)|]. intros i x y Hx Hy. by apply (Ha (S i)).
  - intros [Hhd Htl] [|i] x y Hx Hy; simpl in *; simplify_eq; [done|by apply (Htl i)].
Qed.

(** Sequences over the same slots that agree find the same anchor. *)
Lemma find_anchor_agree m sts1 sts2 A1 A2 :
  (∀ i st1 st2, sts1 !! i = Some st1 → sts2 !! i = Some st2 → status_slot st1 = status_slot st2) →
  agree sts1 sts2 → find_anchor m sts1 = Some A1 → find_anchor m sts2 = Some A2 → A1 = A2.
Proof.
  revert sts2. induction sts1 as [|st1 sts1 IH]; intros [|st2 sts2] Hslot Hag Hf1 Hf2; try done.
  apply agree_cons in Hag as [Hhd Htl].
  assert (∀ i x y, sts1 !! i = Some x → sts2 !! i = Some y → status_slot x = status_slot y) as Hslot'
    by (intros i; by apply (Hslot (S i))).
  simpl in Hf1, Hf2. rewrite !status_slot_round, (Hslot 0%nat st1 st2 eq_refl eq_refl) in Hf1.
  rewrite status_slot_round in Hf2.
  destruct (m <=? slot_round (status_slot st2)); [|by eapply IH].
  destruct st1 as [L1|s1|s1], st2 as [L2|s2|s2]; simpl in *; try done;
    try (specialize (Hhd eq_refl eq_refl); simplify_eq; done).
  by eapply IH.
Qed.

Section Agreement.
Context `{LeaderRng}.
Context (c : Committee) (byz : gset N) (G : universe) (HG : bft c byz G).

(** Each status follows from the direct rule, or from the first committed leader three
    rounds or more above in the rest of the sequence. *)
Inductive decided_seq : list Slot → list LeaderStatus → Prop :=
| seq_nil : decided_seq [] []
| seq_direct s ss st sts :
    decided_seq ss sts → LeaderStatus_is_decided st = true → direct_decides c G s st →
    decided_seq (s :: ss) (st :: sts)
| seq_indirect s ss st sts :
    decided_seq ss sts →
    match find_anchor (slot_round s + 3) sts with
    | Some A => anchor_decides c G A s st
    | None => st = LsUndecided s
    end → decided_seq (s :: ss) (st :: sts).

Lemma anchor_decides_slot A s st : anchor_decides c G A s st → status_slot st = s.
Proof. destruct st; simpl; naive_solver. Qed.

Lemma direct_decides_slot s st : direct_decides c G s st → status_slot st = s.
Proof. destruct st; simpl; naive_solver. Qed.

Lemma decided_seq_slots ss sts : decided_seq ss sts → status_slot <$> sts = ss.
Proof.
  induction 1 as [|s ss st sts _ IH _ Hd|s ss st sts _ IH Hd]; [done| |]; csimpl; rewrite IH; f_equal.
  - by apply direct_decides_slot.
  - destruct (find_anchor _ sts) as [A|]; [by eapply anchor_decides_slot|by subst].
Qed.

(** A view in which every committed block of the sequence is local. *)
Definition local_commits {S} `{StoreSpec S} (d : DagState S) (sts : list LeaderStatus) : Prop :=
  ∀ L, LsCommit L ∈ sts → block_in (dag_lookup d) L.

Section TwoViews.
Context {S1 S2 : Type} `{StoreSpec S1} `{StoreSpec S2}.
Context (d1 : DagState S1) (Hd1 : view_of c G d1) (d2 : DagState S2) (Hd2 : view_of c G d2).

Definition above {S} (d : DagState S) (ss : list Slot) : Prop :=
  Forall (λ s, last_commit_round d < slot_round s) ss.

Lemma decided_seq_agree ss1 sts1 ss2 sts2 :
  decided_seq ss1 sts1 → decided_seq ss2 sts2 → ss1 `prefix_of` ss2 →
  above d1 ss1 → above d2 ss2 → local_commits d1 sts1 → local_commits d2 sts2 →
  agree sts1 sts2.
Proof.
  intros Hs1. revert ss2 sts2.
  induction Hs1 as [|s ss st sts Hs1 IH Hdec Hdir|s ss st sts Hs1 IH Hind];
    intros ss2 sts2 Hs2 [ext Hpre] Ha1 Ha2 Hl1 Hl2; [by intros i|..]; subst ss2; simpl in Hs2;
    apply Forall_cons in Ha1 as [Hr1 Ha1]; apply Forall_cons in Ha2 as [Hr2 Ha2];
    inversion Hs2 as [|? ? st2 sts2' Hs2' Hdec2 Hdir2|? ? st2 sts2' Hs2' Hind2]; subst;
    apply agree_cons.
  all: assert (agree sts sts2') as Hag by
    (apply (IH _ _ Hs2'); [by exists ext|done|done|intros L HL; apply Hl1; by right|
                           intros L HL; apply Hl2; by right]).
  all: split; [|done]; intros Hst1 Hst2.
  - by eapply (direct_decides_unique c byz G HG).
  - destruct (find_anchor _ sts2') as [A|] eqn:Hf; [|by subst].
    apply find_anchor_Some in Hf as [HA Hr].
    eapply (direct_then_anchor c byz G HG d2 Hd2 s A); try done. apply Hl2. by right.
  - destruct (find_anchor _ sts) as [A|] eqn:Hf; [|by subst].
    apply find_anchor_Some in Hf as [HA Hr]. symmetry.
    eapply (direct_then_anchor c byz G HG d1 Hd1 s A); try done. apply Hl1. by right.
  - destruct (find_anchor _ sts) as [A1|] eqn:Hf1; [|by subst].
    destruct (find_anchor _ sts2') as [A2|] eqn:Hf2; [|by subst].
    assert (A1 = A2) as <-.
    { eapply find_anchor_agree; [|exact Hag|exact Hf1|exact Hf2].
      intros i x y Hx Hy. pose proof (decided_seq_slots _ _ Hs1) as Hss.
      pose proof (decided_seq_slots _ _ Hs2') as Hss2.
      assert (ss !! i = Some (status_slot x)) as Hix by (rewrite <- Hss, list_lookup_fmap, Hx; done).
      assert ((ss ++ ext) !! i = Some (status_slot y)) as Hiy
        by (rewrite <- Hss2, list_lookup_fmap, Hy; done).
      rewrite lookup_app_l in Hiy by by eapply lookup_lt_Some. congruence. }
    by eapply (anchor_decides_unique c byz G HG).
Qed.
End TwoViews.
End Agreement.

(** * The loop of [try_decide] *)

(** A committer as the node builds it: three pipelined stages with one leader per round,
    over a schedule that elects [lead]. *)
Record committer_ok `{LeaderRng} (c : Committee) (lead : N → N) (uc : UniversalCommitter) : Prop := {
  co_build : ∃ context schedule,
    uc = UniversalCommitter_build context schedule DEFAULT_WAVE_LENGTH 1 true ∧
    committee context = c ∧ mysticeti_num_leaders_per_round (protocol_config context) = Some 1 ∧
    ∀ r, schedule_elect_leader schedule r 0 = Ret (lead r);
  co_lead : ∀ r, is_valid_index c (lead r) = true;
}.

Definition lead_slot (lead : N → N) (r : N) : Slot := mkSlot r (lead r).

(** A stage elects a leader in the rounds of its residue only. *)
Lemma bc_elect_leader_stage `{LeaderRng} context schedule lead k r :
  (∀ r, schedule_elect_leader schedule r 0 = Ret (lead r)) → k < 3 → r < 2 ^ 32 →
  bc_elect_leader (mkBaseCommitter context schedule (mkBaseCommitterOptions 3 0 k)) r =
  Ret (if r mod 3 =? k then Some (lead_slot lead r) else None).
Proof.
  intros Hlead Hk Hr. unfold bc_elect_leader, leader_round, wave_number, saturating_sub. cbn.
  set (q := (r - k) / 3). assert (3 * q ≤ r - k ∧ r - k < 3 * q + 3) as Hq by (unfold q; lia_div).
  assert (r mod 3 = k ↔ q * 3 + k = r) as Hres.
  { clearbody q. split; intros He; [|rewrite <- He; lia_div].
    assert (r = 3 * (r / 3) + k) by (rewrite <- He; lia_div). lia. }
  clearbody q. rewrite u32_mul_small by lia.
  assert (u32_add (q * 3) k = q * 3 + k) as -> by (apply u32_add_small; lia).
  destruct (N.eqb_spec (r mod 3) k), (N.eqb_spec (q * 3 + k) r); cbn; try tauto.
  by rewrite Hlead.
Qed.

Lemma round_range_lookup lo hi i r :
  round_range lo hi !! i = Some r ↔ r = lo + N.of_nat i ∧ r ≤ hi.
Proof.
  unfold round_range. rewrite list_lookup_fmap, fmap_Some. split.
  - intros (j & [-> Hj]%lookup_seq & ->). simpl. lia.
  - intros [-> Hle]. exists i. rewrite lookup_seq_lt by lia. done.
Qed.

Lemma elem_of_round_range lo hi r : r ∈ round_range lo hi ↔ lo ≤ r ≤ hi.
Proof.
  rewrite list_elem_of_lookup. setoid_rewrite round_range_lookup. split; [intros (i & -> & ?); lia|].
  intros [Hlo Hhi]. exists (N.to_nat (r - lo)). lia.
Qed.

Section Run.
Context `{LeaderRng}.
Context (c : Committee) (byz : gset N) (G : universe) (HG : bft c byz G).
Context {S : Type} `{StoreSpec S} (d : DagState S) (Hd : view_of c G d).
Context (lead : N → N).

(** What holds of the leaders collected so far, for a list of slots. *)
Definition collected (ss : list Slot) (leaders : list (LeaderStatus * Commit.Decision)) : Prop :=
  decided_seq c G ss (fst <$> leaders) ∧ local_commits d (fst <$> leaders).

Lemma local_commits_cons st sts :
  (∀ L, st = LsCommit L → block_in (dag_lookup d) L) → local_commits d sts →
  local_commits d (st :: sts).
Proof. intros Hst Hsts L [<-|HL]%elem_of_cons; [by apply Hst|by apply Hsts]. Qed.

Lemma decide_slot_spec bc slot ss leaders :
  bc_committee bc = c → wave_length (bc_options bc) = 3 → round_offset (bc_options bc) < 2 ^ 32 →
  decidable_slot d bc slot → collected ss leaders →
  ∃ leader, decide_slot bc d slot leaders = Ret leader ∧ collected (slot :: ss) (leader :: leaders).
Proof.
  intros Hbc Hw Ho Hslot [Hseq Hloc]. unfold decide_slot.
  destruct (direct_decides_view c byz G HG d Hd bc Hbc Hw Ho slot Hslot) as (st & -> & Hdir & HL).
  csimpl. destruct (LeaderStatus_is_decided st) eqn:Hdec.
  { eexists. split; [done|]. split; csimpl; [by apply seq_direct|by apply local_commits_cons]. }
  unfold try_indirect_decide. destruct Hslot as (Hlead & Hlc & Hmax).
  rewrite Hw, u32_add_small by (unfold u32_max in Hmax; lia).
  destruct (find_anchor _ _) as [A|] eqn:Hf; csimpl.
  - pose proof (find_anchor_Some _ _ _ Hf) as [HA _].
    destruct (anchor_decides_view c byz G HG d Hd bc Hbc Hw Ho slot A) as (st' & -> & Hanc & HL');
      [done|by apply Hloc|].
    eexists. split; [done|]. split; csimpl; [|by apply local_commits_cons].
    apply seq_indirect; [done|]. by rewrite Hf.
  - eexists. split; [done|]. split; csimpl; [|by apply local_commits_cons].
    apply seq_indirect; [done|]. by rewrite Hf.
Qed.

Context (uc : UniversalCommitter) (Huc : committer_ok c lead uc).

(** One round of the loop decides its one leader. *)
Lemma decide_round last_decided r ss leaders :
  slot_round last_decided < r → last_commit_round d < r → r + 3 < u32_max →
  collected ss leaders →
  ∃ leader, foldM (decide_item d last_decided) (leaders, false) (pair r <$> reverse (uc_committers uc)) =
      Ret (leader :: leaders, false) ∧
    collected (lead_slot lead r :: ss) (leader :: leaders).
Proof.
  intros Hld Hlc Hmax Hcol. destruct (co_build _ _ _ Huc) as (context & schedule & -> & Hcom & _ & Hel).
  assert (r < 2 ^ 32) as Hr by (unfold u32_max in Hmax; lia).
  assert (lead_slot lead r ≠ last_decided) as Hne by (intros <-; simpl in Hld; lia).
  set (bc k := mkBaseCommitter context schedule (mkBaseCommitterOptions 3 0 k)).
  change (reverse _) with [bc 2; bc 1; bc 0].
  assert (∀ k, k < 3 → bc_elect_leader (bc k) r =
            Ret (if r mod 3 =? k then Some (lead_slot lead r) else None)) as Helect
    by (intros k Hk; by apply bc_elect_leader_stage).
  assert (∀ k, bc_committee (bc k) = c ∧ wave_length (bc_options (bc k)) = 3 ∧
            round_offset (bc_options (bc k)) = k) as Hbc by done.
  clearbody bc. assert (r mod 3 < 3) as Hmod by lia_div.
  assert (∃ leader, decide_slot (bc (r mod 3)) d (lead_slot lead r) leaders = Ret leader ∧
            collected (lead_slot lead r :: ss) (leader :: leaders)) as (leader & Hdec & Hcol').
  { destruct (Hbc (r mod 3)) as (? & ? & Hoff).
    apply decide_slot_spec; try done; [rewrite Hoff; lia|]. split; [|done].
    specialize (Helect (r mod 3) Hmod). rewrite N.eqb_refl in Helect. unfold bc_elect_leader in Helect.
    change (slot_round (lead_slot lead r)) with r.
    by destruct (N.eqb_spec (leader_round (bc_options (bc (r mod 3)))
      (wave_number (bc_options (bc (r mod 3))) r)) r). }
  exists leader. split; [|done].
  assert (∀ k ls, k < 3 → k ≠ r mod 3 →
            decide_item d last_decided (ls, false) (r, bc k) = Ret (ls, false)) as Hskip.
  { intros k ls Hk Hnk. simpl. rewrite Helect, (proj2 (N.eqb_neq (r mod 3) k)) by done. done. }
  assert (decide_item d last_decided (leaders, false) (r, bc (r mod 3)) =
            Ret (leader :: leaders, false)) as Htake.
  { simpl. rewrite Helect, N.eqb_refl by done. cbn [mbind outcome_bind].
    rewrite decide_False, Hdec by done. done. }
  revert Hskip Htake Hmod. generalize (r mod 3). clear. intros k Hskip Htake Hmod.
  assert (k = 0 ∨ k = 1 ∨ k = 2) as [Hk|[Hk|Hk]] by lia; subst k;
    cbn [fmap list_fmap foldM]; rewrite ?(Hskip 2), ?(Hskip 1) by done; cbn [mbind outcome_bind];
    rewrite ?(Hskip 1) by done; cbn [mbind outcome_bind];
    rewrite Htake; cbn [mbind outcome_bind]; rewrite ?(Hskip 1), ?(Hskip 0) by done;
    cbn [mbind outcome_bind]; rewrite ?(Hskip 0) by done; done.
Qed.

Lemma decide_rounds last_decided rs ss leaders :
  (∀ r, r ∈ rs → slot_round last_decided < r ∧ last_commit_round d < r ∧ r + 3 < u32_max) →
  collected ss leaders →
  ∃ leaders', foldM (decide_item d last_decided) (leaders, false)
      (rs ≫= λ round, pair round <$> reverse (uc_committers uc)) = Ret (leaders', false) ∧
    collected ((lead_slot lead <$> reverse rs) ++ ss) leaders'.
Proof.
  revert ss leaders. induction rs as [|r rs IH]; intros ss leaders Hrs Hcol; [by eexists|].
  rewrite bind_cons, foldM_app.
  destruct (Hrs r (list_elem_of_here _ _)) as (H1' & H2' & H3').
  destruct (decide_round last_decided r ss leaders H1' H2' H3' Hcol) as (leader & -> & Hcol').
  cbn [mbind outcome_bind].
  destruct (IH _ _ (λ x Hx, Hrs x (list_elem_of_further _ _ _ Hx)) Hcol') as (leaders' & -> & Hcol'').
  exists leaders'. split; [done|]. rewrite reverse_cons, fmap_app, <- (assoc_L (++)). done.
Qed.
End Run.

(** * The decided prefix *)

(** The decision without the record of the rule that made it. *)
Definition decision_of (l : DecidedLeader) : LeaderStatus :=
  match l with
  | DlCommit b _ => LsCommit b
  | DlSkip s => LsSkip s
  end.

Lemma decision_of_decided l : LeaderStatus_is_decided (decision_of l) = true.
Proof. by destruct l. Qed.

Lemma decided_prefix_spec c leaders :
  Forall (λ st, slot_round (status_slot st) ≠ GENESIS_ROUND ∧
                is_valid_index c (slot_authority (status_slot st)) = true) (fst <$> leaders) →
  ∃ out rest, decided_prefix c leaders = Ret out ∧
    fst <$> leaders = (decision_of <$> out) ++ rest ∧
    from_option LeaderStatus_is_decided false (head rest) = false.
Proof.
  induction leaders as [|[st dec] leaders IH]; intros Hall; [by exists [], []|].
  apply Forall_cons in Hall as [[Hr Hv] Hall]. destruct (IH Hall) as (out & rest & Hout & Heq & Hrest).
  simpl. rewrite status_slot_round, (proj2 (N.eqb_neq (slot_round (status_slot st)) GENESIS_ROUND)) by done.
  apply valid_authority in Hv as [a Ha].
  destruct st as [L|s|s]; cbn [into_decided_leader]; [| |by exists [], (LsUndecided s :: (fst <$> leaders))];
    simpl in Ha; cbn [DecidedLeader_slot]; simpl; rewrite Ha; cbn [mbind outcome_bind];
    rewrite Hout; eexists _, rest; (split; [done|]); csimpl; by rewrite Heq.
Qed.

Lemma lookup_prefix {A} (l k : list A) :
  (∀ i x, l !! i = Some x → k !! i = Some x) → l `prefix_of` k.
Proof.
  revert k. induction l as [|x l IH]; intros k Hl; [apply prefix_nil|].
  destruct k as [|y k]; [by specialize (Hl 0%nat x eq_refl)|].
  assert (y = x) as -> by (specialize (Hl 0%nat x eq_refl); simpl in Hl; congruence).
  apply prefix_cons, IH. intros i z Hz. by apply (Hl (S i)).
Qed.

(** Slots of consecutive rounds from [lo]. *)
Section Ranges.
Context (lead : N → N).

Lemma lead_slots_lookup lo hi i s :
  (lead_slot lead <$> round_range lo hi) !! i = Some s ↔
  s = lead_slot lead (lo + N.of_nat i) ∧ lo + N.of_nat i ≤ hi.
Proof.
  rewrite list_lookup_fmap, fmap_Some. setoid_rewrite round_range_lookup. split.
  - by intros (r & [-> Hr] & ->).
  - intros [-> Hr]. by eexists.
Qed.

Lemma round_range_drop lo hi k : drop k (round_range lo hi) = round_range (lo + N.of_nat k) hi.
Proof.
  apply list_eq. intros i. apply option_eq. intros r. rewrite lookup_drop, !round_range_lookup. lia.
Qed.

Lemma lead_slots_prefix lo hi hi' :
  hi ≤ hi' → (lead_slot lead <$> round_range lo hi) `prefix_of` (lead_slot lead <$> round_range lo hi').
Proof.
  intros Hle. apply lookup_prefix. intros i s. rewrite !lead_slots_lookup. intros [-> Hi]. split; [done|lia].
Qed.
End Ranges.

Lemma agree_sym sts1 sts2 : agree sts1 sts2 → agree sts2 sts1.
Proof. intros Ha i st1 st2 H1 H2 Hd1 Hd2. symmetry. by eapply Ha. Qed.

Lemma decided_seq_drop c G k ss sts : decided_seq c G ss sts → decided_seq c G (drop k ss) (drop k sts).
Proof.
  revert ss sts. induction k as [|k IH]; intros ss sts Hs; [done|].
  inversion Hs; subst; simpl; [constructor|by apply IH..].
Qed.

(** Sequences decided on two views agree round by round, wherever each starts. *)
Section Compare.
Context (c : Committee) (byz : gset N) (G : universe) (HG : bft c byz G) (lead : N → N).

Lemma sequences_agree {S1 S2} `{StoreSpec S1} `{StoreSpec S2} (d1 : DagState S1) (d2 : DagState S2)
    lo1 hi1 sts1 lo2 hi2 sts2 i j st1 st2 :
  view_of c G d1 → view_of c G d2 →
  decided_seq c G (lead_slot lead <$> round_range lo1 hi1) sts1 →
  decided_seq c G (lead_slot lead <$> round_range lo2 hi2) sts2 →
  last_commit_round d1 < lo1 → last_commit_round d2 < lo2 →
  local_commits d1 sts1 → local_commits d2 sts2 → lo1 ≤ lo2 →
  sts1 !! i = Some st1 → sts2 !! j = Some st2 → lo1 + N.of_nat i = lo2 + N.of_nat j →
  LeaderStatus_is_decided st1 = true → LeaderStatus_is_decided st2 = true → st1 = st2.
Proof.
  intros Hv1 Hv2 Hs1 Hs2 Hl1 Hl2 Hc1 Hc2 Hlo Hi Hj Hij Hd1 Hd2.
  set (k := N.to_nat (lo2 - lo1)).
  apply (decided_seq_drop _ _ k) in Hs1. rewrite <- fmap_drop, round_range_drop in Hs1.
  replace (lo1 + N.of_nat k) with lo2 in Hs1 by (unfold k; lia).
  assert (local_commits d1 (drop k sts1)) as Hc1'
    by (intros L HL; apply Hc1; rewrite <- (take_drop k sts1); apply elem_of_app; by right).
  assert (∀ {S} (d : DagState S) hi, last_commit_round d < lo2 →
            above d (lead_slot lead <$> round_range lo2 hi)) as Habove.
  { intros S d hi Hlc. apply Forall_fmap, Forall_forall. intros r Hr%elem_of_round_range.
    unfold compose. simpl. lia. }
  assert (last_commit_round d1 < lo2) as Hl1' by lia.
  assert (agree (drop k sts1) sts2) as Hag.
  { destruct (N.le_ge_cases hi1 hi2) as [Hle|Hle].
    - eapply (decided_seq_agree c byz G HG d1 Hv1 d2 Hv2 _ _ _ _ Hs1 Hs2); eauto using lead_slots_prefix.
    - apply agree_sym.
      eapply (decided_seq_agree c byz G HG d2 Hv2 d1 Hv1 _ _ _ _ Hs2 Hs1); eauto using lead_slots_prefix. }
  apply (Hag j); try done. rewrite lookup_drop. replace (k + j)%nat with i by (unfold k; lia). done.
Qed.
End Compare.

(** One call of [try_decide] on a view. *)
Lemma try_decide_run `{LeaderRng} c byz G (HG : bft c byz G) {S} `{StoreSpec S} (d : DagState S)
    (Hd : view_of c G d) lead uc (Huc : committer_ok c lead uc) last_decided :
  last_commit_round d ≤ slot_round last_decided → slot_round last_decided < u32_max →
  ds_highest_accepted_round d + 2 < u32_max →
  let lo := slot_round last_decided + 1 in
  let hi := ds_highest_accepted_round d - 2 in
  ∃ sts out rest, try_decide uc d last_decided = Ret out ∧
    sts = (decision_of <$> out) ++ rest ∧
    from_option LeaderStatus_is_decided false (head rest) = false ∧
    decided_seq c G (lead_slot lead <$> round_range lo hi) sts ∧ local_commits d sts.
Proof.
  intros Hlc Hmax Hhi lo hi. unfold try_decide, saturating_sub.
  destruct (decide_rounds c byz G HG d Hd lead uc Huc last_decided (reverse (round_range lo hi)) [] [])
    as (leaders & Hrun & Hseq & Hloc).
  { intros r. rewrite elem_of_reverse, elem_of_round_range. unfold lo, hi, u32_max in *. lia. }
  { split; [constructor|by intros L ?%elem_of_nil]. }
  rewrite app_nil_r, reverse_involutive in Hseq.
  destruct (co_build _ _ _ Huc) as (context & schedule & Hb & Hcom & Hnum & _).
  unfold decision_items. replace (uc_context uc) with context by (by subst uc).
  rewrite Hnum, u32_add_small by (unfold u32_max in Hmax; lia). fold lo hi. rewrite Hrun, Hcom. csimpl.
  pose proof (decided_seq_slots c G _ _ Hseq) as Hslots.
  destruct (decided_prefix_spec c leaders) as (out & rest & Hout & Heq & Hrest).
  { apply Forall_forall. intros st Hst.
    assert (status_slot st ∈ lead_slot lead <$> round_range lo hi) as Hin
      by (rewrite <- Hslots; apply list_elem_of_fmap; eauto).
    apply list_elem_of_fmap in Hin as (r & -> & Hr%elem_of_round_range). simpl.
    split; [unfold GENESIS_ROUND; lia|apply (co_lead _ _ _ Huc)]. }
  exists (fst <$> leaders), out, rest. done.
Qed.

Lemma run_status sts out rest i x :
  sts = (decision_of <$> out) ++ rest → out !! i = Some x → sts !! i = Some (decision_of x).
Proof. intros -> Hi. apply lookup_app_l_Some. by rewrite list_lookup_fmap, Hi. Qed.

Lemma run_slots c G lead lo hi sts out rest :
  decided_seq c G (lead_slot lead <$> round_range lo hi) sts →
  sts = (decision_of <$> out) ++ rest →
  ∀ i x, out !! i = Some x → DecidedLeader_slot x = lead_slot lead (lo + N.of_nat i).
Proof.
  intros Hseq Heq i x Hi. pose proof (run_status _ _ _ i x Heq Hi) as Hx.
  assert ((status_slot <$> sts) !! i = Some (status_slot (decision_of x))) as Hs
    by (by rewrite list_lookup_fmap, Hx).
  rewrite (decided_seq_slots c G _ _ Hseq), lead_slots_lookup in Hs. destruct Hs as [<- _].
  by destruct x.
Qed.

Lemma pointwise_prefix {A} (l k : list A) :
  (∀ i x y, l !! i = Some x → k !! i = Some y → x = y) → l `prefix_of` k ∨ k `prefix_of` l.
Proof.
  revert k. induction l as [|x l IH]; intros k Heq; [left; apply prefix_nil|].
  destruct k as [|y k]; [right; apply prefix_nil|].
  assert (x = y) as -> by (by apply (Heq 0%nat)).
  destruct (IH k (λ i, Heq (S i))); [left|right]; by apply prefix_cons.
Qed.

(** * Properties *)

(** A validator ready to decide: its last commit is not above its last decided leader, and
    rounds stay below the limit of the integer type. *)
Definition ready {S} (d : DagState S) (last_decided : Slot) : Prop :=
  last_commit_round d ≤ slot_round last_decided ∧ slot_round last_decided < u32_max ∧
  ds_highest_accepted_round d + 2 < u32_max.

(** C7. Agreement of the decided sequence. Two validators whose views are parts of one
    universe of blocks, where less than the validity threshold of stake is Byzantine and
    the other authorities never equivocate, run [try_decide] from any last decided leaders.
    Neither panics, each returns decisions for consecutive rounds after its last decided
    one, for the elected leader of the round, and wherever both decide a round they take
    the same decision, the same block included. From the same last decided round, one
    sequence is a prefix of the other. *)
Theorem try_decide_agreement `{LeaderRng} c byz G {S1 S2} `{StoreSpec S1} `{StoreSpec S2}
    (d1 : DagState S1) (d2 : DagState S2) lead uc1 uc2 last1 last2 :
  bft c byz G → view_of c G d1 → view_of c G d2 →
  committer_ok c lead uc1 → committer_ok c lead uc2 → ready d1 last1 → ready d2 last2 →
  ∃ out1 out2, try_decide uc1 d1 last1 = Ret out1 ∧ try_decide uc2 d2 last2 = Ret out2 ∧
    (∀ i x, out1 !! i = Some x →
      DecidedLeader_slot x = lead_slot lead (slot_round last1 + 1 + N.of_nat i)) ∧
    (∀ x y, x ∈ out1 → y ∈ out2 →
      slot_round (DecidedLeader_slot x) = slot_round (DecidedLeader_slot y) →
      decision_of x = decision_of y) ∧
    (slot_round last1 = slot_round last2 →
      (decision_of <$> out1) `prefix_of` (decision_of <$> out2) ∨
      (decision_of <$> out2) `prefix_of` (decision_of <$> out1)).
Proof.
  intros HG Hv1 Hv2 Huc1 Huc2 (Hl1 & Hm1 & Hh1) (Hl2 & Hm2 & Hh2).
  destruct (try_decide_run c byz G HG d1 Hv1 lead uc1 Huc1 last1) as
    (sts1 & out1 & rest1 & Hrun1 & Heq1 & _ & Hseq1 & Hloc1); [done..|].
  destruct (try_decide_run c byz G HG d2 Hv2 lead uc2 Huc2 last2) as
    (sts2 & out2 & rest2 & Hrun2 & Heq2 & _ & Hseq2 & Hloc2); [done..|].
  exists out1, out2. split; [done|]. split; [done|].
  pose proof (run_slots c G lead _ _ _ _ _ Hseq1 Heq1) as Hpos1.
  pose proof (run_slots c G lead _ _ _ _ _ Hseq2 Heq2) as Hpos2.
  assert (∀ i j x y, out1 !! i = Some x → out2 !! j = Some y →
    slot_round last1 + 1 + N.of_nat i = slot_round last2 + 1 + N.of_nat j →
    decision_of x = decision_of y) as Hag.
  { intros i j x y Hi Hj Hij. pose proof (run_status _ _ _ i x Heq1 Hi) as Hx.
    pose proof (run_status _ _ _ j y Heq2 Hj) as Hy.
    destruct (N.le_ge_cases (slot_round last1) (slot_round last2)) as [Hle|Hle].
    - apply (sequences_agree c byz G HG lead d1 d2 _ _ _ _ _ _ i j _ _ Hv1 Hv2 Hseq1 Hseq2);
        try done; try lia; apply decision_of_decided.
    - symmetry. apply (sequences_agree c byz G HG lead d2 d1 _ _ _ _ _ _ j i _ _ Hv2 Hv1 Hseq2 Hseq1);
        try done; try lia; apply decision_of_decided. }
  split; [done|]. split.
  - intros x y [i Hi]%list_elem_of_lookup [j Hj]%list_elem_of_lookup Hr. eapply Hag; try done.
    by rewrite (Hpos1 _ _ Hi), (Hpos2 _ _ Hj) in Hr.
  - intros Heq. apply pointwise_prefix. intros i x y Hi Hj.
    rewrite list_lookup_fmap, fmap_Some in Hi, Hj.
    destruct Hi as (x' & Hi & ->), Hj as (y' & Hj & ->). eapply Hag; [done..|lia].
Qed.

Definition sample_universal_committer : UniversalCommitter :=
  UniversalCommitter_build (sample_context 4 60)
    (LeaderSchedule_new (sample_context 4 60) LeaderSwapTable_default) DEFAULT_WAVE_LENGTH 1 true.

(** The view with three rounds decides one leader, the one with five rounds three. *)
Lemma try_decide_agreement_witness :
  let d1 := sample_dag 4 60 (full_rounds 3) in
  let d2 := sample_dag 4 60 wide_universe in
  ∃ out1 out2,
    @try_decide _ _ sample_rng sample_universal_committer d1 (mkSlot 0 0) = Ret out1 ∧
    @try_decide _ _ sample_rng sample_universal_committer d2 (mkSlot 0 0) = Ret out2 ∧
    length out1 = 1%nat ∧ length out2 = 3%nat ∧
    ∀ x y, x ∈ out1 → y ∈ out2 →
      slot_round (DecidedLeader_slot x) = slot_round (DecidedLeader_slot y) →
      decision_of x = decision_of y.
Proof.
  intros d1 d2.
  assert (@committer_ok sample_rng (sample_committee 4) (λ _, 0) sample_universal_committer) as Huc.
  { split; [|reflexivity]. eexists _, _. split; [reflexivity|]. split; [reflexivity|].
    split; [reflexivity|]. intros r. vm_compute. reflexivity. }
  destruct (@try_decide_agreement sample_rng (sample_committee 4) {[3]} (sample_universe 4 60 wide_universe)
    _ _ _ _ _ _ d1 d2 (λ _, 0) sample_universal_committer sample_universal_committer
    (mkSlot 0 0) (mkSlot 0 0)) as (out1 & out2 & H1 & H2 & _ & Hag & _).
  - exact (sample_bft 4 60 {[3]} wide_universe wide_ok wide_bft).
  - exact (sample_view 4 60 (full_rounds 3) wide_universe narrow_ok wide_ok narrow_wide).
  - exact (sample_view 4 60 wide_universe wide_universe wide_ok wide_ok (λ b Hb, Hb)).
  - exact Huc.
  - exact Huc.
  - split; [vm_compute; discriminate|]. split; vm_compute; reflexivity.
  - split; [vm_compute; discriminate|]. split; vm_compute; reflexivity.
  - exists out1, out2. split; [exact H1|]. split; [exact H2|].
    split; [vm_compute in H1; injection H1 as <-; reflexivity|].
    split; [vm_compute in H2; injection H2 as <-; reflexivity|exact Hag].
Defined.
