(* ===== verification/Linearizer.v ===== *)
(** The linearizer (consensus/core/src/linearizer.rs): committed leaders are expanded into
    sub-DAGs of blocks not committed before, in a fixed order, with a commit record and a
    timestamp.

    The traversal is proved against the interface [BlockStoreAPI] and its specification;
    the DAG state implements both. What a commit contains is then a function of the blocks
    of the universe and of the commits before it, and so the same at every validator. *)

From stdpp Require Import base tactics numbers list gmap sorting strings.
From coqutil Require Import Datatypes.RecordSettersUsingExistingGetters.
From S2P Require Import Prelude.
From S2P Require Import Committee.
From S2P Require Import Block.
From S2P Require Import StakeAggregator.
From S2P Require Import Commit.
From S2P Require Import Store.
From S2P Require Import DagState.
From S2P Require Import DagInvariant.
From S2P Require Import LeaderSchedule.
From S2P Require Import BaseCommitter.
From S2P Require Import CommitSafety.

Open Scope N_scope.

(** * The median timestamp *)

Inductive MedianError :=
| NoBlocksProvided
| LowStake (total quorum : N).

(** The first timestamp at which the cumulative stake passes half of the total. *)
Fixpoint cumulative_scan (timestamps : list (N * N)) (cumulative half : N) : option N :=
  match timestamps with
  | [] => None
  | (ts, stake) :: timestamps =>
      let cumulative := u64_add cumulative stake in
      if half <? cumulative then Some ts else cumulative_scan timestamps cumulative half
  end.

Definition timestamp_leb (a b : N * N) : bool := a.1 <=? b.1.

Definition median_timestamps_by_stake_inner (timestamps : list (N * N)) (total_stake : N) : outcome N :=
  let timestamps := isort timestamp_leb timestamps in
  match cumulative_scan timestamps 0 (total_stake / 2) with
  | Some ts => Ret ts
  | None => last_ts ← expect (last timestamps); Ret last_ts.1
  end.

Definition median_timestamp_by_stake (context : Context) (blocks : list VerifiedBlock)
    : outcome (result N MedianError) :=
  timestamps ← mapM (λ b, stake ← Committee_stake (committee context) (vb_author b);
                          Ret (vb_timestamp_ms b, stake)) blocks;
  let total_stake := foldl u64_add 0 (snd <$> timestamps) in
  let quorum := committee_quorum_threshold (committee context) in
  if decide (timestamps = []) then Ret (Err NoBlocksProvided)
  else if total_stake <? quorum then Ret (Err (LowStake total_stake quorum))
  else ts ← median_timestamps_by_stake_inner timestamps total_stake; Ret (Ok ts).

(** * The interface to the block store *)

(** The trait [BlockStoreAPI]. [bs_cached] counts the blocks in memory; it only bounds
    the traversal. *)
Class BlockStoreAPI (T : Type) := {
  bs_get_blocks : T → list BlockRef → outcome (list (option VerifiedBlock));
  bs_gc_round : T → N;
  bs_set_committed : T → BlockRef → outcome (T * bool);
  bs_is_committed : T → BlockRef → outcome bool;
  bs_cached : T → nat;
}.

#[export] Instance DagState_BlockStore {S} `{Store S} : BlockStoreAPI (DagState S) := {|
  bs_get_blocks := get_blocks;
  bs_gc_round := dag_gc_round;
  bs_set_committed := set_committed;
  bs_is_committed := is_committed;
  bs_cached := λ d, size (ds_recent_blocks d);
|}.

(** * Operations *)

Section Generic.
Context {T : Type} `{BlockStoreAPI T}.

(** Ancestors above the garbage collection round that are not committed. *)
Fixpoint uncommitted_refs (t : T) (gc_round : N) (refs : list BlockRef) : outcome (list BlockRef) :=
  match refs with
  | [] => Ret []
  | r :: refs =>
      keep ← (if gc_round <? br_round r then c ← bs_is_committed t r; Ret (negb c) else Ret false);
      rest ← uncommitted_refs t gc_round refs;
      Ret (if keep : bool then r :: rest else rest)
  end.

(** Pushing an ancestor on the buffer marks it; the head of the list is the top. *)
Definition push_ancestor (acc : T * list VerifiedBlock) (ancestor : VerifiedBlock)
    : outcome (T * list VerifiedBlock) :=
  let '(t, buffer) := acc in
  '(t, fresh) ← bs_set_committed t (reference ancestor);
  _ ← assert_that fresh;
  Ret (t, ancestor :: buffer).

(** The loop pops each block once; [fuel] bounds the number of blocks popped. *)
Fixpoint linearize_loop (fuel : nat) (gc_round : N) (t : T) (buffer to_commit : list VerifiedBlock)
    : outcome (T * list VerifiedBlock) :=
  match buffer with
  | [] => Ret (t, to_commit)
  | x :: buffer =>
      match fuel with
      | O => Panic
      | Datatypes.S fuel =>
          refs ← uncommitted_refs t gc_round (vb_ancestors x);
          found ← bs_get_blocks t refs;
          ancestors ← mapM expect found;
          '(t, buffer) ← foldM push_ancestor (t, buffer) ancestors;
          linearize_loop fuel gc_round t buffer (to_commit ++ [x])
      end
  end.

Definition linearize_sub_dag (leader_block : VerifiedBlock) (t : T)
    : outcome (T * list VerifiedBlock) :=
  let gc_round := bs_gc_round t in
  let fuel := Datatypes.S (bs_cached t) in
  '(t, fresh) ← bs_set_committed t (reference leader_block);
  _ ← assert_that fresh;
  '(t, to_commit) ← linearize_loop fuel gc_round t [leader_block] [];
  _ ← assert_that (forallb (λ b, gc_round <? vb_round b) to_commit);
  Ret (t, sort_sub_dag_blocks to_commit).

Definition calculate_commit_timestamp (context : Context) (t : T) (leader_block : VerifiedBlock)
    (last_commit_timestamp_ms : N) : outcome N :=
  let block_refs :=
    filter (λ r, br_round r = u32_sub (vb_round leader_block) 1) (vb_ancestors leader_block) in
  found ← bs_get_blocks t block_refs;
  blocks ← mapM expect found;
  median ← median_timestamp_by_stake context blocks;
  match median with
  | Ok timestamp_ms => Ret (N.max timestamp_ms last_commit_timestamp_ms)
  | Err _ => Panic
  end.
End Generic.

Section WithDag.
Context {S : Type} `{Store S} `{Crypto} `{CommitCodec}.
Implicit Types d : DagState S.

Definition collect_sub_dag_and_commit (context : Context) d (leader_block : VerifiedBlock)
    : outcome (DagState S * CommittedSubDag * TrustedCommit) :=
  let last_index := last_commit_index d in
  let last_digest := last_commit_digest d in
  let last_timestamp := last_commit_timestamp_ms d in
  '(d, to_commit) ← linearize_sub_dag leader_block d;
  timestamp_ms ← calculate_commit_timestamp context d leader_block last_timestamp;
  let commit := Commit_new (u32_add last_index 1) last_digest timestamp_ms
                  (reference leader_block) (reference <$> to_commit) in
  serialized ← expect (bcs_commit commit);
  let commit := new_trusted commit serialized in
  Ret (d, CommittedSubDag_new (reference leader_block) to_commit timestamp_ms (tc_reference commit), commit).

(** Only the indexing of the metric update can be observed: it panics out of range. *)
Definition update_blocks_pruned_metric (context : Context) d (sub_dag : CommittedSubDag) : outcome unit :=
  foldM (λ _ r,
    if br_round r <=? dag_gc_round d then
      last_round ← vec_get (ds_last_committed_rounds d) (br_author r);
      if last_round =? br_round r then Ret tt
      else _ ← Committee_authority (committee context) (br_author r); Ret tt
    else Ret tt) tt (sd_blocks sub_dag ≫= vb_ancestors).

Definition handle_leader (context : Context) (acc : DagState S * list CommittedSubDag)
    (leader_block : VerifiedBlock) : outcome (DagState S * list CommittedSubDag) :=
  let '(d, committed_sub_dags) := acc in
  '(d, sub_dag, commit) ← collect_sub_dag_and_commit context d leader_block;
  _ ← update_blocks_pruned_metric context d sub_dag;
  d ← add_commit d commit;
  Ret (d, committed_sub_dags ++ [sub_dag]).

Definition handle_commit (context : Context) d (committed_leaders : list VerifiedBlock)
    : outcome (DagState S * list CommittedSubDag) :=
  foldM (handle_leader context) (d, []) committed_leaders.
End WithDag.

(** * Lemmas on the median *)

Definition stake_before (ts : N) (l : list (N * N)) : N := nsum (snd <$> filter (λ x, x.1 < ts) l).
Definition stake_upto (ts : N) (l : list (N * N)) : N := nsum (snd <$> filter (λ x, x.1 ≤ ts) l).

(** The scan stops at the element that carries the running stake past the half. *)
Lemma cumulative_scan_split l c half :
  c ≤ half → half < c + nsum (snd <$> l) → c + nsum (snd <$> l) < 2 ^ 64 →
  ∃ pre ts s post, l = pre ++ (ts, s) :: post ∧ cumulative_scan l c half = Some ts ∧
    c + nsum (snd <$> pre) ≤ half ∧ half < c + nsum (snd <$> pre) + s.
Proof.
  revert c. induction l as [|[ts s] l IH]; intros c Hc Hhalf Hmax; csimpl in *; simpl in *; [lia|].
  rewrite u64_add_small by lia. destruct (N.ltb_spec half (c + s)) as [Hlt|Hge].
  - exists [], ts, s, l. csimpl. simpl. repeat split; lia.
  - destruct (IH (c + s)) as (pre & ts' & s' & post & -> & Hscan & Hpre & Hpost); [lia..|].
    exists ((ts, s) :: pre), ts', s', post. split; [done|]. split; [done|]. csimpl. simpl. lia.
Qed.

Lemma timestamp_leb_iff a b : timestamp_leb a b ↔ a.1 ≤ b.1.
Proof. unfold timestamp_leb. rewrite Is_true_true. apply N.leb_le. Qed.

Lemma filter_none {A} (P : A → Prop) `{∀ x, base.Decision (P x)} (l : list A) :
  (∀ x, x ∈ l → ¬ P x) → filter P l = [].
Proof.
  induction l as [|x l IH]; intros Hl; [done|].
  rewrite filter_cons_False by (apply Hl, list_elem_of_here).
  apply IH. intros y Hy. apply Hl. by apply list_elem_of_further.
Qed.

Lemma filter_all {A} (P : A → Prop) `{∀ x, base.Decision (P x)} (l : list A) :
  (∀ x, x ∈ l → P x) → filter P l = l.
Proof.
  induction l as [|x l IH]; intros Hl; [done|].
  rewrite filter_cons_True by (apply Hl, list_elem_of_here). f_equal.
  apply IH. intros y Hy. apply Hl. by apply list_elem_of_further.
Qed.

Lemma nsum_filter_le {A} (f : A → N) (P : A → Prop) `{∀ x, base.Decision (P x)} (l : list A) :
  nsum (f <$> filter P l) ≤ nsum (f <$> l).
Proof.
  induction l as [|x l IH]; [done|]. rewrite filter_cons. case_decide; csimpl; simpl; lia.
Qed.

Lemma nsum_filter_split {A} (f : A → N) (P : A → Prop) `{∀ x, base.Decision (P x)} (l : list A) :
  nsum (f <$> l) = nsum (f <$> filter P l) + nsum (f <$> filter (λ x, ¬ P x) l).
Proof.
  induction l as [|x l IH]; [done|]. rewrite !filter_cons.
  destruct (decide (P x)) as [HP|HP]; [rewrite (decide_False (P := ¬ P x)) by tauto|
    rewrite (decide_True (P := ¬ P x)) by done]; csimpl; simpl; lia.
Qed.

(** The result is a timestamp of the list with at most half of the stake strictly before
    it and more than half up to it. *)
Lemma median_spec l total :
  total = nsum (snd <$> l) → 0 < total → total < 2 ^ 64 →
  ∃ ts, median_timestamps_by_stake_inner l total = Ret ts ∧ ts ∈ fst <$> l ∧
    stake_before ts l ≤ total / 2 ∧ total / 2 < stake_upto ts l.
Proof.
  intros Htot Hpos Hmax. unfold median_timestamps_by_stake_inner.
  set (l' := isort timestamp_leb l).
  assert (l' ≡ₚ l) as Hperm by apply isort_perm.
  assert (StronglySorted timestamp_leb l') as Hsort.
  { apply isort_sorted; unfold timestamp_leb; intros *; rewrite !N.leb_le; lia. }
  assert (nsum (snd <$> l') = total) as Htot' by (by rewrite Hperm).
  destruct (cumulative_scan_split l' 0 (total / 2)) as (pre & ts & s & post & Hl & Hscan & Hpre & Hpost);
    [apply N.le_0_l|rewrite Htot'; lia_div|lia|].
  rewrite Hscan. exists ts. split; [done|]. unfold stake_before, stake_upto.
  rewrite <- Hperm, Hl. split; [rewrite fmap_app; csimpl; set_solver|].
  rewrite Hl in Hsort. apply StronglySorted_app in Hsort as (Hmid & Hs1 & Hs2).
  apply StronglySorted_inv in Hs2 as [_ Hpost'].
  assert (filter (λ x, x.1 < ts) ((ts, s) :: post) = []) as Hnone.
  { apply filter_none. intros x [->|Hx]%elem_of_cons; simpl; [lia|].
    rewrite Forall_forall in Hpost'. specialize (Hpost' x Hx). rewrite timestamp_leb_iff in Hpost'.
    simpl in Hpost'. lia. }
  rewrite !filter_app, Hnone, app_nil_r. split.
  - pose proof (nsum_filter_le snd (λ x : N * N, x.1 < ts) pre). lia.
  - assert (filter (λ x, x.1 ≤ ts) pre = pre) as ->.
    { apply filter_all. intros x Hx.
      assert (timestamp_leb x (ts, s)) as Hle by (apply Hmid; [done|apply list_elem_of_here]).
      by rewrite timestamp_leb_iff in Hle. }
    rewrite filter_cons_True by (simpl; lia). rewrite fmap_app, nsum_app. csimpl. simpl. lia.
Qed.

Section Median.
Context (ctx : Context) (Hc : committee_wf (committee ctx)).
Let c := committee ctx.

(** Timestamps with the stake of their authors. *)
Definition stamped (blocks : list VerifiedBlock) : list (N * N) :=
  (λ b, (vb_timestamp_ms b, stake_of c (vb_author b))) <$> blocks.

Lemma stamped_stake (P : N → Prop) `{∀ x, base.Decision (P x)} blocks :
  NoDup (vb_author <$> blocks) →
  nsum (snd <$> filter (λ x : N * N, P x.1) (stamped blocks)) =
  weight c (list_to_set (vb_author <$> filter (λ b, P (vb_timestamp_ms b)) blocks)).
Proof.
  intros Hnd. unfold weight. rewrite set_sum_list_to_set.
  - clear Hnd. induction blocks as [|b blocks IH]; [done|]. unfold stamped. csimpl.
    rewrite !filter_cons. simpl. case_decide; csimpl; fold (stamped blocks); simpl; by rewrite IH.
  - eapply sublist_NoDup; [exact Hnd|]. apply fmap_sublist, sublist_filter.
Qed.

(** Blocks of distinct members with a quorum of stake have a median. *)
Lemma median_timestamp_spec blocks :
  NoDup (vb_author <$> blocks) →
  (∀ b, b ∈ blocks → is_valid_index c (vb_author b) = true) →
  reached_quorum c (weight c (list_to_set (vb_author <$> blocks))) = true →
  ∃ ts, median_timestamp_by_stake ctx blocks = Ret (Ok ts) ∧
    let upto := vb_author <$> filter (λ b, vb_timestamp_ms b ≤ ts) blocks in
    let before := vb_author <$> filter (λ b, vb_timestamp_ms b < ts) blocks in
    let total := weight c (list_to_set (vb_author <$> blocks)) in
    weight c (list_to_set before) ≤ total / 2 ∧ total / 2 < weight c (list_to_set upto).
Proof.
  intros Hnd Hval Hq. unfold median_timestamp_by_stake. fold c.
  rewrite (mapM_Ret _ (λ b, (vb_timestamp_ms b, stake_of c (vb_author b)))).
  2: { intros b Hb. rewrite Committee_stake_valid by (by apply Hval). done. }
  cbn [mbind outcome_bind]. fold (stamped blocks).
  pose proof (wf_total_bound c Hc) as Hbound.
  pose proof (weight_le_total c Hc (list_to_set (vb_author <$> blocks))) as Hle.
  assert (nsum (snd <$> stamped blocks) = weight c (list_to_set (vb_author <$> blocks))) as Hsum.
  { pose proof (stamped_stake (λ _, True) blocks Hnd) as Hs. rewrite !filter_all in Hs by done. done. }
  rewrite foldl_u64_add, N.add_0_l, Hsum by lia.
  unfold reached_quorum in Hq. apply bool_decide_eq_true in Hq.
  assert (0 < committee_quorum_threshold c) as Hqpos by (rewrite (wf_quorum c Hc); lia_div).
  rewrite decide_False.
  2: { intros Hnil. rewrite Hnil in Hsum. simpl in Hsum. lia. }
  rewrite (proj2 (N.ltb_ge _ _)) by done.
  destruct (median_spec (stamped blocks) (weight c (list_to_set (vb_author <$> blocks))))
    as (ts & -> & _ & Hb & Hu); [done|lia|lia|].
  exists ts. split; [done|]. cbv zeta.
  split.
  - exact (eq_ind _ (λ w, w ≤ _) Hb _ (stamped_stake (λ x, x < ts) blocks Hnd)).
  - exact (eq_ind _ (λ w, _ < w) Hu _ (stamped_stake (λ x, x ≤ ts) blocks Hnd)).
Qed.

Lemma weight_split ts blocks :
  NoDup (vb_author <$> blocks) →
  weight c (list_to_set (vb_author <$> blocks)) =
  weight c (list_to_set (vb_author <$> filter (λ b, vb_timestamp_ms b < ts) blocks)) +
  weight c (list_to_set (vb_author <$> filter (λ b, ts ≤ vb_timestamp_ms b) blocks)).
Proof.
  intros Hnd. unfold weight. rewrite !set_sum_list_to_set; [|try done..].
  - rewrite <- !list_fmap_compose, (nsum_filter_split _ (λ b, vb_timestamp_ms b < ts)).
    f_equal. f_equal. f_equal. apply list_filter_iff. intros b. lia.
  - eapply sublist_NoDup; [exact Hnd|]. apply fmap_sublist, sublist_filter.
  - eapply sublist_NoDup; [exact Hnd|]. apply fmap_sublist, sublist_filter.
Qed.
End Median.

(** For blocks of distinct committee members that hold a quorum of stake, of which less than a
    validity threshold is Byzantine, the stake-weighted median is computed without error, and it
    lies between the timestamps of two blocks of correct authorities. *)
Lemma median_timestamp_honest ctx byz blocks :
  let c := committee ctx in
  committee_wf c → reached_validity c (weight c byz) = false →
  NoDup (vb_author <$> blocks) → (∀ b, b ∈ blocks → is_valid_index c (vb_author b) = true) →
  reached_quorum c (weight c (list_to_set (vb_author <$> blocks))) = true →
  ∃ ts, median_timestamp_by_stake ctx blocks = Ret (Ok ts) ∧
    (∃ b, b ∈ blocks ∧ (vb_author b ∉ byz) ∧ vb_timestamp_ms b ≤ ts) ∧
    (∃ b, b ∈ blocks ∧ (vb_author b ∉ byz) ∧ ts ≤ vb_timestamp_ms b).
Proof.
  intros c Hc Hbyz Hnd Hval Hq.
  destruct (median_timestamp_spec ctx Hc blocks Hnd Hval Hq) as (ts & Hts & Hbefore & Hupto).
  exists ts. split; [done|]. fold c in Hbefore, Hupto.
  set (total := weight c (list_to_set (vb_author <$> blocks))) in *.
  unfold reached_validity, reached_quorum in *.
  apply bool_decide_eq_false in Hbyz. apply bool_decide_eq_true in Hq.
  rewrite (wf_validity c Hc) in Hbyz. rewrite (wf_quorum c Hc) in Hq.
  split.
  - assert (weight c byz < weight c (list_to_set (vb_author <$> filter (λ b, vb_timestamp_ms b ≤ ts) blocks)))
      as Hlt by lia_div.
    apply (weight_lt_witness c Hc) in Hlt as (i & Hi & Hn).
    rewrite elem_of_list_to_set, list_elem_of_fmap in Hi. destruct Hi as (b & -> & Hb).
    apply list_elem_of_filter in Hb as [? ?]. by exists b.
  - assert (weight c byz < weight c (list_to_set (vb_author <$> filter (λ b, ts ≤ vb_timestamp_ms b) blocks)))
      as Hlt.
    { pose proof (weight_split ctx ts blocks Hnd) as Hsplit. fold c in Hsplit. fold total in Hsplit.
      lia_div. }
    apply (weight_lt_witness c Hc) in Hlt as (i & Hi & Hn).
    rewrite elem_of_list_to_set, list_elem_of_fmap in Hi. destruct Hi as (b & -> & Hb).
    apply list_elem_of_filter in Hb as [? ?]. by exists b.
Qed.

(** * Specification of the traversal *)

(** What the linearizer relies on: the store knows the blocks of [U], has garbage collected
    round [g], and the set [C] of committed references above it. *)
Class BlockStoreSpec (T : Type) `{BlockStoreAPI T} := {
  bs_repr : T → universe → N → gset BlockRef → Prop;
  bs_repr_gc t U g C : bs_repr t U g C → bs_gc_round t = g;
  bs_repr_get t U g C refs : bs_repr t U g C → bs_get_blocks t refs = Ret (U <$> refs);
  bs_repr_is_committed t U g C r :
    bs_repr t U g C → g < br_round r → is_Some (U r) →
    bs_is_committed t r = Ret (bool_decide (r ∈ C));
  bs_repr_set_committed t U g C r :
    bs_repr t U g C → g < br_round r → is_Some (U r) →
    ∃ t', bs_set_committed t r = Ret (t', bool_decide (r ∉ C)) ∧ bs_repr t' U g ({[r]} ∪ C) ∧
      bs_cached t' = bs_cached t;
  bs_repr_cached t U g C refs :
    bs_repr t U g C → NoDup refs → (∀ r, r ∈ refs → g < br_round r ∧ is_Some (U r)) →
    (length refs ≤ bs_cached t)%nat;
}.

(** The traversal on a universe of blocks: [lin C buffer acc C' out]. *)
Definition fresh_refs (g : N) (C : gset BlockRef) (x : VerifiedBlock) : list BlockRef :=
  filter (λ r, g < br_round r ∧ r ∉ C) (vb_ancestors x).

Inductive lin (U : universe) (g : N) :
    gset BlockRef → list VerifiedBlock → list VerifiedBlock →
    gset BlockRef → list VerifiedBlock → Prop :=
| lin_done C acc : lin U g C [] acc C acc
| lin_step C x buffer acc C' out :
    lin U g (list_to_set (fresh_refs g C x) ∪ C)
      (reverse (omap U (fresh_refs g C x)) ++ buffer) (acc ++ [x]) C' out →
    lin U g C (x :: buffer) acc C' out.

Lemma lin_det U g C buffer acc C1 out1 C2 out2 :
  lin U g C buffer acc C1 out1 → lin U g C buffer acc C2 out2 → C1 = C2 ∧ out1 = out2.
Proof.
  intros H1. revert C2 out2. induction H1 as [C acc|C x buffer acc C1 out1 _ IH]; intros C2 out2 H2;
    inversion H2; subst; [done|]. by apply IH.
Qed.

(** Ancestors are distinct. *)
Definition distinct_ancestors (U : universe) : Prop :=
  ∀ b, block_in U b → NoDup (vb_ancestors b).

Section Traversal.
Context (U : universe) (g : N) (HU : universe_wf g U) (Hdist : distinct_ancestors U).
Context (C0 : gset BlockRef) (root : VerifiedBlock).

Record lin_inv (C : gset BlockRef) (buffer acc : list VerifiedBlock) : Prop := {
  ln_blocks : ∀ b, b ∈ acc ++ buffer →
    block_in U b ∧ g < vb_round b ∧ rtc (parent U) (reference root) (reference b) ∧ reference b ∉ C0;
  ln_nodup : NoDup (reference <$> acc ++ buffer);
  ln_set : ∀ r, r ∈ C ↔ r ∈ C0 ∨ r ∈ reference <$> acc ++ buffer;
  ln_closed : ∀ b a, b ∈ acc → a ∈ vb_ancestors b → g < br_round a → a ∈ C;
  ln_root : root ∈ acc ++ buffer;
}.

(** The references found for a block of the universe are all known. *)
Lemma fresh_known C x :
  block_in U x → ∀ r, r ∈ fresh_refs g C x → g < br_round r ∧ is_Some (U r) ∧ parent U (reference x) r.
Proof.
  intros Hx r [[Hr _] Hin]%list_elem_of_filter.
  assert (parent U (reference x) r) as Hp by (by exists x).
  split; [done|]. split; [by eapply (u_closed g U HU)|done].
Qed.

Lemma omap_fresh C x :
  block_in U x →
  (U <$> fresh_refs g C x) = (Some <$> omap U (fresh_refs g C x)) ∧
  (reference <$> omap U (fresh_refs g C x)) = fresh_refs g C x.
Proof.
  intros Hx. pose proof (fresh_known C x Hx) as Hk. revert Hk.
  induction (fresh_refs g C x) as [|r refs IH]; intros Hk; [done|].
  destruct (Hk r (list_elem_of_here _ _)) as (_ & [b Hb] & _).
  destruct IH as [IH1 IH2]; [intros r' Hr'; apply Hk; by apply list_elem_of_further|].
  csimpl. rewrite Hb. csimpl. rewrite IH1, IH2. by rewrite (u_ref g U HU r b Hb).
Qed.

Lemma omap_fresh_elem C x b :
  block_in U x → b ∈ omap U (fresh_refs g C x) →
  block_in U b ∧ reference b ∈ fresh_refs g C x.
Proof.
  intros Hx (r & Hr & Hb)%list_elem_of_omap. pose proof (u_ref g U HU r b Hb) as Href.
  unfold block_in. by rewrite Href.
Qed.

Lemma lin_inv_init :
  block_in U root → g < vb_round root → reference root ∉ C0 →
  lin_inv ({[reference root]} ∪ C0) [root] [].
Proof.
  clear HU Hdist. intros Hroot Hr Hn. split; simpl.
  - intros b ->%list_elem_of_singleton. split; [done|]. split; [done|]. split; [apply rtc_refl|done].
  - apply NoDup_singleton.
  - set_solver.
  - set_solver.
  - apply list_elem_of_here.
Qed.

Lemma lin_inv_step C x buffer acc :
  lin_inv C (x :: buffer) acc →
  lin_inv (list_to_set (fresh_refs g C x) ∪ C)
    (reverse (omap U (fresh_refs g C x)) ++ buffer) (acc ++ [x]).
Proof.
  intros [Hb Hnd Hset Hcl Hroot].
  destruct (Hb x) as (Hx & Hxr & Hxrtc & _); [set_solver|].
  destruct (omap_fresh C x Hx) as [_ Href]. set (new := omap U (fresh_refs g C x)) in *.
  assert ((acc ++ [x]) ++ reverse new ++ buffer ≡ₚ new ++ acc ++ x :: buffer) as Hperm.
  { rewrite (reverse_Permutation new). rewrite <- app_assoc. simpl.
    rewrite Permutation_app_comm. simpl. rewrite <- app_assoc, Permutation_app_comm.
    rewrite <- !app_assoc. solve_Permutation. }
  assert (∀ r, r ∈ fresh_refs g C x → g < br_round r ∧ (r ∉ C) ∧ r ∈ vb_ancestors x) as Hfresh
    by (intros r [[? ?] ?]%list_elem_of_filter; done).
  split.
  - intros b. rewrite Hperm. intros [Hnew|Hold]%elem_of_app; [|by apply Hb].
    destruct (omap_fresh_elem C x b Hx Hnew) as [Hin Hr].
    destruct (Hfresh _ Hr) as (Hgr & HnC & Ha). split; [done|]. split; [done|]. split.
    + eapply rtc_r; [exact Hxrtc|]. by exists x.
    + intros H0. apply HnC, Hset. by left.
  - rewrite Hperm, fmap_app, Href. apply NoDup_app. split; [|split; [|done]].
    + apply NoDup_filter. by apply Hdist.
    + intros r Hr Hin. destruct (Hfresh r Hr) as (_ & HnC & _). apply HnC, Hset. by right.
  - intros r. rewrite Hperm, fmap_app, Href, elem_of_union, elem_of_list_to_set, elem_of_app, Hset. tauto.
  - intros b a [Hin| ->%list_elem_of_singleton]%elem_of_app Ha Hga; rewrite elem_of_union.
    + right. by eapply Hcl.
    + destruct (decide (a ∈ C)) as [?|HnC]; [by right|left].
      apply elem_of_list_to_set, list_elem_of_filter. done.
  - rewrite Hperm. apply elem_of_app. by right.
Qed.

(** At the end the committed set is the old one with the history of the root. *)
Lemma lin_inv_result C out :
  lin_inv C [] out →
  (∀ r r', r ∈ C0 → parent U r r' → g < br_round r' → r' ∈ C0) →
  (∀ r, g < br_round r → rtc (parent U) (reference root) r → r ∈ C) ∧
  ∀ b, b ∈ out ↔ block_in U b ∧ g < vb_round b ∧ rtc (parent U) (reference root) (reference b) ∧
                 reference b ∉ C0.
Proof.
  intros [Hb Hnd Hset Hcl Hroot] H0. rewrite app_nil_r in *.
  assert (∀ r r', r ∈ C → parent U r r' → g < br_round r' → r' ∈ C) as Hclosed.
  { intros r r' [HC|Hin]%Hset Hp Hr; [apply Hset; left; by eapply H0|].
    apply list_elem_of_fmap in Hin as (b & -> & Hin). destruct Hp as (b' & Hb' & Ha).
    destruct (Hb b Hin) as (Hbin & _). unfold block_in in Hbin.
    assert (b' = b) as -> by congruence. by eapply Hcl. }
  assert (∀ r, g < br_round r → rtc (parent U) (reference root) r → r ∈ C) as Hall.
  { intros r Hr Hrtc. revert Hr.
    refine (rtc_ind_r (R := parent U) (λ r, g < br_round r → r ∈ C) (reference root) _ _ r Hrtc); [intros _|].
    - apply Hset. right. apply list_elem_of_fmap. by exists root.
    - intros y z _ Hp IH Hz. eapply Hclosed; [apply IH|done|done]. apply (u_desc g U HU) in Hp. lia. }
  split; [done|]. intros b. split; [apply Hb|]. intros (Hbin & Hr & Hrtc & Hn).
  apply Hall, Hset in Hrtc as [?|Hin]; [done| |done].
  apply list_elem_of_fmap in Hin as (b' & Heq & Hin). destruct (Hb b' Hin) as (Hbin' & _).
  unfold block_in in *. rewrite <- Heq in Hbin'. by simplify_eq.
Qed.
End Traversal.

(** * The operations follow the specification *)

Section Refines.
Context {T : Type} `{BlockStoreSpec T}.
Implicit Types t : T.
Context (U : universe) (g : N) (HU : universe_wf g U) (Hdist : distinct_ancestors U).

Lemma uncommitted_refs_spec t C refs :
  bs_repr t U g C → (∀ r, r ∈ refs → g < br_round r → is_Some (U r)) →
  uncommitted_refs t g refs = Ret (filter (λ r, g < br_round r ∧ r ∉ C) refs).
Proof.
  intros Ht. induction refs as [|r refs IH]; intros Hk; [done|]. simpl.
  rewrite filter_cons, IH by (intros r' Hr'; apply Hk; by apply list_elem_of_further).
  destruct (N.ltb_spec g (br_round r)) as [Hr|Hr]; simpl.
  - rewrite (bs_repr_is_committed t U g C r Ht Hr) by (by apply Hk; [apply list_elem_of_here|]). simpl.
    destruct (decide (r ∈ C)) as [HC|HC];
      [rewrite bool_decide_true, decide_False by tauto|rewrite bool_decide_false, decide_True by tauto]; done.
  - by rewrite decide_False by lia.
Qed.

Lemma mapM_expect_Some {A} (l : list A) : mapM expect (Some <$> l) = Ret l.
Proof.
  induction l as [|x l IH]; [done|].
  change (mapM expect (Some <$> x :: l)) with (ys ← mapM expect (Some <$> l); Ret (x :: ys)).
  by rewrite IH.
Qed.

Lemma push_ancestors_spec bs t C buffer :
  bs_repr t U g C → NoDup (reference <$> bs) →
  (∀ b, b ∈ bs → g < vb_round b ∧ is_Some (U (reference b)) ∧ reference b ∉ C) →
  ∃ t', foldM push_ancestor (t, buffer) bs = Ret (t', reverse bs ++ buffer) ∧
    bs_repr t' U g (list_to_set (reference <$> bs) ∪ C) ∧ bs_cached t' = bs_cached t.
Proof.
  revert t C buffer. induction bs as [|b bs IH]; intros t C buffer Ht Hnd Hb.
  { exists t. csimpl. rewrite union_empty_l_L. done. }
  apply NoDup_cons in Hnd as [Hn Hnd].
  destruct (Hb b (list_elem_of_here _ _)) as (Hr & Hk & HC). cbn [foldM push_ancestor].
  destruct (bs_repr_set_committed t U g C (reference b) Ht Hr Hk) as (t1 & Hset & Ht1 & Hc1).
  rewrite Hset, bool_decide_true by done. cbn [mbind outcome_bind assert_that].
  destruct (IH t1 ({[reference b]} ∪ C) (b :: buffer) Ht1 Hnd) as (t2 & Hrun & Ht2 & Hc2).
  { intros b' Hb'. destruct (Hb b' (list_elem_of_further _ _ _ Hb')) as (? & ? & ?).
    split; [done|]. split; [done|]. rewrite elem_of_union, elem_of_singleton. intros [Heq|?]; [|done].
    apply Hn. rewrite <- Heq. apply list_elem_of_fmap. by exists b'. }
  exists t2. rewrite Hrun, reverse_cons, <- (assoc_L (++)). split; [done|].
  csimpl. rewrite <- (assoc_L (∪)), (comm_L (∪) {[reference b]}). rewrite <- (assoc_L (∪)).
  rewrite (comm_L (∪) C). split; [done|congruence].
Qed.

Lemma linearize_loop_spec fuel t C0 root C buffer acc :
  lin_inv U g C0 root C buffer acc → bs_repr t U g C →
  (bs_cached t < length acc + fuel)%nat →
  ∃ t' C' out, linearize_loop fuel g t buffer acc = Ret (t', out) ∧
    lin U g C buffer acc C' out ∧ bs_repr t' U g C' ∧ lin_inv U g C0 root C' [] out.
Proof.
  revert t C buffer acc. induction fuel as [|fuel IH]; intros t C [|x buffer] acc Hinv Ht Hfuel.
  1, 3: by exists t, C, acc; repeat (split; [constructor|]).
  - exfalso. pose proof (bs_repr_cached t U g C (reference <$> acc ++ x :: buffer) Ht) as Hlen.
    rewrite length_fmap, length_app in Hlen. simpl in Hlen. enough (length acc + S (length buffer) ≤ bs_cached t)%nat by lia.
    apply Hlen; [apply Hinv|]. intros r (b & -> & Hb)%list_elem_of_fmap.
    destruct (ln_blocks _ _ _ _ _ _ _ Hinv b Hb) as (Hin & ? & _). split; [done|by eexists].
  - destruct (ln_blocks _ _ _ _ _ _ _ Hinv x) as (Hx & _); [set_solver|].
    pose proof (fresh_known U g HU C x Hx) as Hknown.
    destruct (omap_fresh U g HU C x Hx) as [Hget Href].
    cbn [linearize_loop].
    rewrite (uncommitted_refs_spec t C _ Ht (λ r Hr Hgr, u_closed g U HU (reference x) r
      (ex_intro _ x (conj Hx Hr)) Hgr)).
    cbn [mbind outcome_bind]. fold (fresh_refs g C x).
    rewrite (bs_repr_get t U g C _ Ht). cbn [mbind outcome_bind]. rewrite Hget, mapM_expect_Some.
    cbn [mbind outcome_bind].
    destruct (push_ancestors_spec (omap U (fresh_refs g C x)) t C buffer Ht) as (t1 & -> & Ht1 & Hc1).
    { rewrite Href. apply NoDup_filter. by apply Hdist. }
    { intros b Hb. destruct (omap_fresh_elem U g HU C x b Hx Hb) as [Hin Hr].
      destruct (Hknown _ Hr) as (? & ? & _). split; [done|]. split; [done|].
      by apply list_elem_of_filter in Hr as [[_ ?] _]. }
    cbn [mbind outcome_bind]. rewrite Href in Ht1.
    destruct (IH t1 _ _ _ (lin_inv_step U g HU Hdist C0 root C x buffer acc Hinv) Ht1) as
      (t' & C' & out & -> & Hlin & Hrep & Hinv').
    { rewrite length_app, Hc1. simpl. lia. }
    exists t', C', out. split; [done|]. split; [by constructor|done].
Qed.

Lemma linearize_sub_dag_spec t C L :
  bs_repr t U g C → block_in U L → g < vb_round L → reference L ∉ C →
  ∃ t' C' out, linearize_sub_dag L t = Ret (t', sort_sub_dag_blocks out) ∧
    lin U g ({[reference L]} ∪ C) [L] [] C' out ∧ bs_repr t' U g C' ∧ lin_inv U g C L C' [] out.
Proof.
  intros Ht HL Hr HC. unfold linearize_sub_dag. rewrite (bs_repr_gc t U g C Ht).
  destruct (bs_repr_set_committed t U g C (reference L) Ht Hr) as (t1 & -> & Ht1 & Hc1); [by eexists|].
  rewrite bool_decide_true by done. cbn [mbind outcome_bind assert_that].
  destruct (linearize_loop_spec (S (bs_cached t)) t1 C L _ [L] [] (lin_inv_init U g C L HL Hr HC) Ht1)
    as (t' & C' & out & -> & Hlin & Ht' & Hinv); [simpl; lia|].
  cbn [mbind outcome_bind]. rewrite (proj2 (forallb_forall _ _)).
  { exists t', C', out. done. }
  intros b Hb%list_elem_of_In. apply N.ltb_lt.
  apply (ln_blocks _ _ _ _ _ _ _ Hinv b). by rewrite app_nil_r.
Qed.
End Refines.

(** * The DAG state as block store *)

Section DagStore.
Context {S : Type} `{StoreSpec S}.
Implicit Types d : DagState S.

(** Marks of the cached blocks above the garbage collection round. *)
Definition marks d (C : gset BlockRef) : Prop :=
  ∀ r i, ds_recent_blocks d !! r = Some i → dag_gc_round d < br_round r →
    bi_committed i = bool_decide (r ∈ C).

(** Only the marks differ from a state [d0]. *)
Definition dag_repr d0 d (U : universe) (g : N) (C : gset BlockRef) : Prop :=
  d = d0 <| ds_recent_blocks := ds_recent_blocks d |> ∧ dag_wf d ∧ dag_gc_round d = g ∧
  (∀ r, dag_lookup d r = U r) ∧ marks d C.

Lemma known_cached d U g C r d0 :
  dag_repr d0 d U g C → g < br_round r → is_Some (U r) →
  ∃ i, ds_recent_blocks d !! r = Some i ∧ bi_committed i = bool_decide (r ∈ C).
Proof.
  intros (_ & Hwf & Hg & HU & Hm) Hr [b Hb]. rewrite <- HU in Hb. rewrite <- Hg in Hr.
  destruct (dag_lookup_cached d r b Hwf Hb Hr) as (i & Hi & _). exists i. split; [done|]. by apply Hm.
Qed.

Program Definition DagState_store_spec d0 : BlockStoreSpec (DagState S) := {|
  bs_repr := dag_repr d0;
|}.
Next Obligation. intros d0 d U g C (_ & _ & Hg & _). done. Qed.
Next Obligation.
  intros d0 d U g C refs (_ & _ & _ & HU & _). simpl. rewrite get_blocks_lookup. f_equal.
  apply list_fmap_ext. intros _ r _. apply HU.
Qed.
Next Obligation.
  intros d0 d U g C r Hd Hr Hk. destruct (known_cached d U g C r d0 Hd Hr Hk) as (i & Hi & Hc).
  simpl. unfold is_committed. rewrite Hi. simpl. by rewrite Hc.
Qed.
Next Obligation.
  intros d0 d U g C r Hd Hr Hk. destruct (known_cached d U g C r d0 Hd Hr Hk) as (i & Hi & Hc).
  destruct Hd as (Heq & Hwf & Hg & HU & Hm).
  destruct (set_committed_spec d r i Hwf Hi) as (d' & Hset & Hwf' & Hlk & Hrec & Hlc & Hctx & _).
  exists d'. simpl. rewrite Hset, Hc.
  assert (dag_gc_round d' = dag_gc_round d) as Hg'
    by (unfold dag_gc_round, calculate_gc_round, last_commit_round; by rewrite Hlc, Hctx).
  split; [by rewrite bool_decide_not|]. split; [|by rewrite Hrec, map_size_insert_Some].
  split; [|split; [done|split; [by rewrite Hg'|split; [intros r'; by rewrite Hlk|]]]].
  - revert Hset. unfold set_committed. rewrite Hi. cbn [expect mbind outcome_bind].
    destruct (bi_committed i); intros [= <-]; [done|]. rewrite Heq. done.
  - intros r' i'. rewrite Hrec, Hg'. intros [[<- <-]|[Hne Hi']]%lookup_insert_Some Hr'; simpl.
    + by rewrite bool_decide_true by set_solver.
    + rewrite (Hm r' i' Hi' Hr'). apply bool_decide_ext. set_solver.
Qed.
Next Obligation.
  intros d0 d U g C refs Hd Hnd Hk. simpl. rewrite <- (size_dom (D := gset BlockRef)).
  unfold size, set_size. simpl. apply submseteq_length, NoDup_submseteq; [done|].
  intros r Hr. destruct (Hk r Hr) as [Hgr Hu].
  destruct (known_cached d U g C r d0 Hd Hgr Hu) as (i & Hi & _).
  apply elem_of_elements, elem_of_dom. by exists i.
Qed.
End DagStore.

(** * The log of commits *)

(** What the commits before determine: the committed references and the last commit. *)
Record commit_log := mkCommitLog {
  log_committed : gset BlockRef;
  log_last : option TrustedCommit;
}.

Definition log_round (log : commit_log) : N := from_option tc_round 0 (log_last log).
Definition log_index (log : commit_log) : N := from_option tc_index 0 (log_last log).
Definition log_digest (log : commit_log) : N := from_option tc_digest Digest_MIN (log_last log).
Definition log_timestamp (log : commit_log) : N := from_option tc_timestamp_ms 0 (log_last log).
Definition log_gc (ctx : Context) (log : commit_log) : N :=
  log_round log - gc_depth (protocol_config ctx).

(** The parents of a leader: its ancestors of the round before. *)
Definition parents_of (G : universe) (L : VerifiedBlock) : list VerifiedBlock :=
  omap G (filter (λ r, br_round r = u32_sub (vb_round L) 1) (vb_ancestors L)).

(** One commit, as a function of the universe and of the log alone. *)
Definition commits `{Crypto} `{CommitCodec} (ctx : Context) (G : universe) (log : commit_log)
    (L : VerifiedBlock) (sd : CommittedSubDag) (log' : commit_log) : Prop :=
  ∃ C' out ts serialized,
    lin G (log_gc ctx log) ({[reference L]} ∪ log_committed log) [L] [] C' out ∧
    median_timestamp_by_stake ctx (parents_of G L) = Ret (Ok ts) ∧
    let timestamp := N.max ts (log_timestamp log) in
    let blocks := sort_sub_dag_blocks out in
    let commit := Commit_new (u32_add (log_index log) 1) (log_digest log) timestamp
                    (reference L) (reference <$> blocks) in
    bcs_commit commit = Some serialized ∧
    let trusted := new_trusted commit serialized in
    sd = CommittedSubDag_new (reference L) blocks timestamp (tc_reference trusted) ∧
    log' = mkCommitLog C' (Some trusted).

Inductive commit_run `{Crypto} `{CommitCodec} (ctx : Context) (G : universe) :
    commit_log → list VerifiedBlock → list CommittedSubDag → commit_log → Prop :=
| run_nil log : commit_run ctx G log [] [] log
| run_cons log L leaders sd sds log1 log2 :
    commits ctx G log L sd log1 → commit_run ctx G log1 leaders sds log2 →
    commit_run ctx G log (L :: leaders) (sd :: sds) log2.

(** Contexts of two validators of the same epoch. *)
Definition same_epoch (ctx1 ctx2 : Context) : Prop :=
  committee ctx1 = committee ctx2 ∧
  gc_depth (protocol_config ctx1) = gc_depth (protocol_config ctx2).

Lemma median_same_epoch ctx1 ctx2 blocks :
  same_epoch ctx1 ctx2 → median_timestamp_by_stake ctx1 blocks = median_timestamp_by_stake ctx2 blocks.
Proof. intros [Hc _]. unfold median_timestamp_by_stake. by rewrite Hc. Qed.

Lemma commits_det `{Crypto} `{CommitCodec} ctx1 ctx2 G log L sd1 log1 sd2 log2 :
  same_epoch ctx1 ctx2 → commits ctx1 G log L sd1 log1 → commits ctx2 G log L sd2 log2 →
  sd1 = sd2 ∧ log1 = log2.
Proof.
  intros He (C1 & out1 & ts1 & ser1 & Hl1 & Hm1 & Hs1 & -> & ->)
    (C2 & out2 & ts2 & ser2 & Hl2 & Hm2 & Hs2 & -> & ->).
  rewrite (median_same_epoch ctx1 ctx2 _ He) in Hm1. unfold log_gc in Hl1.
  destruct He as [_ Hgc]. rewrite Hgc in Hl1.
  destruct (lin_det _ _ _ _ _ _ _ _ _ Hl1 Hl2) as [-> ->].
  assert (ts1 = ts2) as -> by congruence. assert (ser1 = ser2) as -> by congruence. done.
Qed.

Lemma commit_run_det `{Crypto} `{CommitCodec} ctx1 ctx2 G log leaders sds1 log1 sds2 log2 :
  same_epoch ctx1 ctx2 → commit_run ctx1 G log leaders sds1 log1 →
  commit_run ctx2 G log leaders sds2 log2 → sds1 = sds2 ∧ log1 = log2.
Proof.
  intros He H1. revert sds2 log2. induction H1 as [|log L leaders sd sds log1 log1' Hc _ IH];
    intros sds2 log2 H2; inversion H2; subst; [done|].
  destruct (commits_det ctx1 ctx2 G log L sd log1 sd0 log3) as [-> ->]; [done..|].
  edestruct IH as [-> ->]; done.
Qed.

(** Committed references are not above the last leader, and their history above the
    garbage collection round is committed. *)
Record log_wf (ctx : Context) (G : universe) (log : commit_log) : Prop := {
  lw_rounds : ∀ r, r ∈ log_committed log → br_round r ≤ log_round log;
  lw_closed : ∀ r r', r ∈ log_committed log → parent G r r' → log_gc ctx log < br_round r' →
    r' ∈ log_committed log;
}.

(** Blocks of the universe name each authority at most once among their ancestors. *)
Definition unique_ancestors (G : universe) : Prop :=
  ∀ b, block_in G b → NoDup (br_author <$> vb_ancestors b).

Lemma unique_distinct U : unique_ancestors U → distinct_ancestors U.
Proof. intros Hu b Hb. by eapply NoDup_fmap_1, Hu. Qed.

(** The traversal of a view is the traversal of the universe. *)
Lemma lin_view U G g (HU : universe_wf g U) (Hdist : distinct_ancestors U) C0 root C buffer acc C' out :
  (∀ r b, U r = Some b → G r = Some b) → lin_inv U g C0 root C buffer acc →
  lin U g C buffer acc C' out → lin G g C buffer acc C' out.
Proof.
  intros Hsub Hinv Hlin. induction Hlin as [|C x buffer acc C' out _ IH]; [constructor|].
  constructor. specialize (IH (lin_inv_step U g HU Hdist C0 root C x buffer acc Hinv)).
  destruct (ln_blocks _ _ _ _ _ _ _ Hinv x) as (Hx & _); [set_solver|].
  replace (omap G (fresh_refs g C x)) with (omap U (fresh_refs g C x)); [done|].
  pose proof (fresh_known U g HU C x Hx) as Hk. clear IH. revert Hk.
  induction (fresh_refs g C x) as [|r refs IHr]; intros Hk; [done|].
  destruct (Hk r (list_elem_of_here _ _)) as (_ & [b Hb] & _). csimpl. rewrite Hb, (Hsub r b Hb). f_equal.
  apply IHr. intros r' Hr'. apply Hk. by apply list_elem_of_further.
Qed.

(** * Committing a leader on a node *)

Lemma vec_get_valid {A} (l : list A) c i :
  N.of_nat (length l) = Committee_size c → is_valid_index c i = true → ∃ x, vec_get l i = Ret x.
Proof.
  intros Hl Hi. unfold is_valid_index in Hi. apply bool_decide_eq_true in Hi. unfold vec_get.
  destruct (lookup_lt_is_Some_2 l (N.to_nat i)) as [x Hx]; [lia|]. rewrite Hx. by exists x.
Qed.

Lemma vec_max_all c refs rounds :
  N.of_nat (length rounds) = Committee_size c →
  (∀ r, r ∈ refs → is_valid_index c (br_author r) = true) →
  ∃ rounds', foldM (λ rounds r, vec_max rounds (br_author r) (br_round r)) rounds refs = Ret rounds' ∧
    length rounds' = length rounds.
Proof.
  revert rounds. induction refs as [|r refs IH]; intros rounds Hl Hv; [by exists rounds|].
  assert (is_valid_index c (br_author r) = true) as Hr by (apply Hv, list_elem_of_here).
  destruct (vec_get_valid rounds c (br_author r) Hl Hr) as [x Hx].
  unfold is_valid_index in Hr. apply bool_decide_eq_true in Hr.
  assert (vec_max rounds (br_author r) (br_round r) =
    Ret (<[N.to_nat (br_author r):=N.max x (br_round r)]> rounds)) as Hmax.
  { unfold vec_max. rewrite Hx. simpl. unfold vec_set. by rewrite decide_True by lia. }
  cbn [foldM]. rewrite Hmax. cbn [mbind outcome_bind].
  destruct (IH (<[N.to_nat (br_author r):=N.max x (br_round r)]> rounds)) as (rounds' & Hrun & Hlen).
  - by rewrite length_insert.
  - intros r' Hr'. apply Hv. by apply list_elem_of_further.
  - exists rounds'. split; [done|]. by rewrite Hlen, length_insert.
Qed.

Section Node.
Context `{Crypto} `{CommitCodec} {S : Type} `{StoreSpec S}.
Implicit Types d : DagState S.
Context (ctx : Context) (byz : gset N) (G : universe).
Let c := committee ctx.
Context (HG : bft c byz G) (Hu : unique_ancestors G).
Context (Hcodec : ∀ commit, is_Some (bcs_commit commit)).

(** A node whose state stands for a log of commits. *)
Record node_ok d (log : commit_log) : Prop := {
  no_view : view_of c G d;
  no_context : ds_context d = ctx;
  no_depth : 0 < gc_depth (protocol_config ctx);
  no_genesis : ∀ b a, block_in (dag_lookup d) b → a ∈ vb_ancestors b → br_round a = 0 →
    is_Some (dag_lookup d a);
  no_last : ds_last_commit d = log_last log;
  no_marks : marks d (log_committed log);
  no_known : ∀ r, r ∈ log_committed log → dag_gc_round d < br_round r → is_Some (dag_lookup d r);
  no_rounds : N.of_nat (length (ds_last_committed_rounds d)) = Committee_size c;
  no_log : log_wf ctx G log;
}.

Lemma node_gc d log : node_ok d log → dag_gc_round d = log_gc ctx log.
Proof.
  intros Hd. unfold dag_gc_round, calculate_gc_round, last_commit_round, log_gc, log_round, saturating_sub.
  rewrite (no_last d log Hd), (no_context d log Hd). by destruct (log_last log).
Qed.

Lemma node_known d log L a :
  node_ok d log → block_in (dag_lookup d) L → log_round log < vb_round L →
  a ∈ vb_ancestors L → br_round a + 1 = vb_round L → is_Some (dag_lookup d a).
Proof.
  intros Hd HL Hr Ha Har. pose proof (no_depth d log Hd) as Hdepth. pose proof (node_gc d log Hd) as Hgc.
  destruct (decide (br_round a = 0)) as [Hz|Hz]; [by eapply (no_genesis d log Hd)|].
  destruct (view_closed c G d (no_view d log Hd) L a HL Ha) as (x & Hx & _); [|by exists x].
  rewrite Hgc. unfold log_gc. lia.
Qed.

(** The parents of a leader of a node: all known, of distinct members, with a quorum. *)
Lemma node_parents d log L :
  node_ok d log → block_in (dag_lookup d) L → log_round log < vb_round L →
  mapM expect (dag_lookup d <$> filter (λ r, br_round r = u32_sub (vb_round L) 1) (vb_ancestors L)) =
    Ret (parents_of G L) ∧
  NoDup (vb_author <$> parents_of G L) ∧
  (∀ b, b ∈ parents_of G L → is_valid_index c (vb_author b) = true) ∧
  reached_quorum c (weight c (list_to_set (vb_author <$> parents_of G L))) = true.
Proof.
  intros Hd HL Hr. pose proof (no_view d log Hd) as Hv.
  pose proof (view_block c G d Hv L HL) as HGL. pose proof (node_gc d log Hd) as Hgc.
  assert (vb_round L < 2 ^ 32) as Hmax.
  { destruct (dag_lookup_cached d (reference L) L (vo_wf d (v_ok c G d Hv)) HL) as (i & Hi & _).
    - rewrite Hgc. unfold log_gc. simpl. lia.
    - apply (dwf_recent d (vo_wf d (v_ok c G d Hv))) in Hi as (_ & [Hb _] & _).
      unfold u32_max in Hb. simpl in Hb. lia. }
  unfold parents_of.
  assert (∀ r, br_round r = u32_sub (vb_round L) 1 ↔ br_round r + 1 = vb_round L) as Hiff
    by (intros r; rewrite u32_sub_small by lia; lia).
  set (refs := filter _ (vb_ancestors L)).
  assert (∀ r, r ∈ refs → r ∈ vb_ancestors L ∧ br_round r + 1 = vb_round L) as Hrefs.
  { intros r [Hr' Hin]%list_elem_of_filter. split; [done|by apply Hiff]. }
  assert (dag_lookup d <$> refs = Some <$> omap G refs ∧ vb_author <$> omap G refs = br_author <$> refs)
    as [Hget Hauth].
  { clear -Hrefs Hd Hv HL Hr Hu. induction refs as [|r refs IH]; [done|].
    destruct (Hrefs r (list_elem_of_here _ _)) as [Hin Hrr].
    destruct (node_known d log L r Hd HL Hr Hin Hrr) as [b Hb].
    destruct IH as [IH1 IH2]; [intros r' Hr'; apply Hrefs; by apply list_elem_of_further|].
    pose proof (u_ref _ _ (vo_universe d (v_ok c G d Hv)) r b Hb) as Href.
    csimpl. rewrite Hb, (v_sub c G d Hv r b Hb). csimpl. rewrite IH1, IH2. split; [done|].
    by rewrite <- Href. }
  rewrite Hget, mapM_expect_Some, Hauth. split; [done|]. split; [|split].
  - eapply sublist_NoDup; [by apply (Hu L)|]. apply fmap_sublist, sublist_filter.
  - intros b Hb. assert (vb_author b ∈ br_author <$> refs) as Hin
      by (rewrite <- Hauth; apply list_elem_of_fmap; by exists b).
    apply list_elem_of_fmap in Hin as (r & -> & [Hin _]%Hrefs).
    pose proof (vo_authors d (v_ok c G d Hv) L r HL Hin) as Hval.
    by rewrite (v_committee c G d Hv) in Hval.
  - pose proof (bft_parents c byz G HG L HGL) as Hq. unfold quorum_parents in Hq.
    assert (refs = filter (λ a, br_round a + 1 = vb_round L) (vb_ancestors L)) as ->
      by (by apply list_filter_iff). apply Hq. lia.
Qed.

Lemma pruned_metric_Ret d sd :
  N.of_nat (length (ds_last_committed_rounds d)) = Committee_size c →
  (∀ b a, b ∈ sd_blocks sd → a ∈ vb_ancestors b → is_valid_index c (br_author a) = true) →
  update_blocks_pruned_metric ctx d sd = Ret tt.
Proof.
  intros Hl Hv. unfold update_blocks_pruned_metric. fold c.
  assert (∀ a, a ∈ sd_blocks sd ≫= vb_ancestors → is_valid_index c (br_author a) = true) as Hva
    by (intros a (b & Ha & Hb)%list_elem_of_bind; by eapply Hv).
  induction (sd_blocks sd ≫= vb_ancestors) as [|a refs IH]; [done|]. simpl.
  assert (is_valid_index c (br_author a) = true) as Ha by (apply Hva, list_elem_of_here).
  destruct (vec_get_valid _ c (br_author a) Hl Ha) as [x ->].
  apply Committee_stake_valid in Ha. apply bind_Ret in Ha as (auth & -> & _). simpl.
  destruct (br_round a <=? dag_gc_round d), (x =? br_round a); simpl;
    apply IH; intros a' Ha'; apply Hva; by apply list_elem_of_further.
Qed.

(** Adding the next commit of the chain succeeds. *)
Lemma add_commit_next d tc :
  dag_wf d → dag_committee d = c →
  N.of_nat (length (ds_last_committed_rounds d)) = Committee_size c →
  tc_index tc = last_commit_index d + 1 → last_commit_index d + 1 < 2 ^ 32 →
  last_commit_timestamp_ms d ≤ tc_timestamp_ms tc →
  (∀ r, r ∈ tc_blocks tc → is_valid_index c (br_author r) = true) →
  last_commit_round d ≤ tc_round tc →
  ∃ d', add_commit d tc = Ret d' ∧ dag_wf d' ∧ (∀ r, dag_lookup d' r = dag_lookup d r) ∧
    ds_recent_blocks d' = ds_recent_blocks d ∧ ds_last_commit d' = Some tc ∧
    ds_context d' = ds_context d ∧
    N.of_nat (length (ds_last_committed_rounds d')) = Committee_size c.
Proof.
  intros Hwf Hcom Hl Hidx Hmax Hts Hv Hround.
  destruct (vec_max_all c (tc_blocks tc) (ds_last_committed_rounds d) Hl Hv) as (rounds & Hrun & Hlen).
  assert (∃ d', add_commit d tc = Ret d' ∧ ds_context d' = ds_context d ∧
    N.of_nat (length (ds_last_committed_rounds d')) = Committee_size c) as (d' & Hadd & Hctx & Hl').
  { unfold add_commit. unfold last_commit_index in *. unfold last_commit_timestamp_ms in Hts.
    rewrite Hrun. cbn [mbind outcome_bind]. rewrite Hcom, Hlen, bool_decide_true by lia.
    cbn [assert_that mbind outcome_bind].
    destruct (ds_last_commit d) as [last|].
    - rewrite (proj2 (N.leb_gt (tc_index tc) (tc_index last))) by lia.
      rewrite u32_add_small by lia. rewrite (proj2 (N.eqb_eq (tc_index tc) (tc_index last + 1))) by lia.
      rewrite (proj2 (N.ltb_ge (tc_timestamp_ms tc) (tc_timestamp_ms last))) by lia.
      cbn [assert_that mbind outcome_bind negb]. eexists. split; [done|]. simpl. by rewrite Hlen.
    - rewrite (proj2 (N.eqb_eq (tc_index tc) 1)) by lia.
      cbn [assert_that mbind outcome_bind]. eexists. split; [done|]. simpl. by rewrite Hlen. }
  destruct (add_commit_spec d tc d' Hwf Hround Hadd) as (Hwf' & Hlk & Hrec & Hcase).
  exists d'. split; [done|]. split; [done|]. split; [done|]. split; [done|]. split; [|done].
  destruct Hcase as [(Hle & _)|[? _]]; [lia|done].
Qed.

(** The log after a commit keeps its invariant. *)
Lemma log_wf_next U log L C' out tc :
  universe_wf (log_gc ctx log) U → (∀ r b, U r = Some b → G r = Some b) →
  log_wf ctx G log → log_round log < vb_round L → tc_leader tc = reference L →
  lin_inv U (log_gc ctx log) (log_committed log) L C' [] out →
  log_wf ctx G (mkCommitLog C' (Some tc)).
Proof.
  intros HU Hsub [Hr Hcl] HL Hlead Hinv.
  assert (log_round (mkCommitLog C' (Some tc)) = vb_round L) as Hround
    by (unfold log_round; simpl; unfold tc_round; by rewrite Hlead).
  assert (∀ r r', parent U r r' → parent G r r') as HpG
    by (intros r r' (b & Hb & Ha); exists b; split; [by apply Hsub|done]).
  destruct (lin_inv_result U _ HU (log_committed log) L C' out Hinv) as [Hall Hout].
  { intros r r' Hin Hp. by apply (Hcl r r' Hin), HpG. }
  pose proof (ln_set _ _ _ _ _ _ _ Hinv) as Hset. rewrite app_nil_r in Hset.
  split; [intros r|intros r r']; simpl; rewrite ?Hround.
  - rewrite Hset. intros [Hold%Hr|Hnew]; [lia|].
    apply list_elem_of_fmap in Hnew as (b & -> & (_ & _ & Hrtc & _)%Hout).
    apply (rtc_parent_round _ _ _ _ HU) in Hrtc as [Hle _]. done.
  - intros Hin Hp Hgc.
    assert (log_gc ctx log < br_round r') as Hgc' by (unfold log_gc in *; rewrite Hround in Hgc; lia).
    apply Hset in Hin as [Hold|Hnew]; [apply Hset; left; by eapply Hcl|].
    apply list_elem_of_fmap in Hnew as (b & -> & (Hb & _ & Hrtc & _)%Hout).
    apply Hall; [done|]. eapply rtc_r; [exact Hrtc|]. exists b. split; [done|].
    destruct Hp as (b' & Hb' & Ha). apply Hsub in Hb. by simplify_eq.
Qed.

(** The commit a leader gets after the traversal [out]. *)
Definition commit_of (log : commit_log) (L : VerifiedBlock) (out : list VerifiedBlock) (ts : N) : Commit :=
  Commit_new (u32_add (log_index log) 1) (log_digest log) (N.max ts (log_timestamp log))
    (reference L) (reference <$> sort_sub_dag_blocks out).
Definition sub_dag_of (log : commit_log) (L : VerifiedBlock) (out : list VerifiedBlock) (ts : N)
    (tc : TrustedCommit) : CommittedSubDag :=
  CommittedSubDag_new (reference L) (sort_sub_dag_blocks out) (N.max ts (log_timestamp log))
    (tc_reference tc).

Lemma collect_spec d log L d1 out :
  node_ok d log → block_in (dag_lookup d) L → log_round log < vb_round L →
  linearize_sub_dag L d = Ret (d1, sort_sub_dag_blocks out) →
  (∀ r, dag_lookup d1 r = dag_lookup d r) →
  ∃ ts serialized, median_timestamp_by_stake ctx (parents_of G L) = Ret (Ok ts) ∧
    bcs_commit (commit_of log L out ts) = Some serialized ∧
    let tc := new_trusted (commit_of log L out ts) serialized in
    collect_sub_dag_and_commit ctx d L = Ret (d1, sub_dag_of log L out ts tc, tc).
Proof.
  intros Hd HL Hr Hlin Hlk.
  destruct (node_parents d log L Hd HL Hr) as (Hpar & Hpnd & Hpval & Hpq).
  destruct (median_timestamp_spec ctx (bft_committee c byz G HG) (parents_of G L) Hpnd Hpval Hpq)
    as (ts & Hts & _).
  destruct (Hcodec (commit_of log L out ts)) as [serialized Hser].
  exists ts, serialized. split; [done|]. split; [done|]. cbv zeta.
  unfold collect_sub_dag_and_commit. rewrite Hlin. cbn [mbind outcome_bind].
  unfold calculate_commit_timestamp. cbn [bs_get_blocks DagState_BlockStore].
  rewrite get_blocks_lookup. cbn [mbind outcome_bind].
  rewrite (list_fmap_ext (dag_lookup d1) (dag_lookup d)) by (intros; apply Hlk).
  rewrite Hpar. cbn [mbind outcome_bind]. rewrite Hts. cbn [mbind outcome_bind].
  assert (last_commit_index d = log_index log ∧ last_commit_digest d = log_digest log ∧
          last_commit_timestamp_ms d = log_timestamp log) as (-> & -> & ->).
  { unfold last_commit_index, last_commit_digest, last_commit_timestamp_ms, log_index, log_digest, log_timestamp.
    rewrite (no_last d log Hd). by destruct (log_last log). }
  change (Commit_new _ _ _ _ _) with (commit_of log L out ts). rewrite Hser. done.
Qed.

Lemma node_ok_next d log L d1 d2 out C' tc :
  node_ok d log → block_in (dag_lookup d) L → log_round log < vb_round L →
  dag_repr d d1 (dag_lookup d) (log_gc ctx log) C' →
  lin_inv (dag_lookup d) (log_gc ctx log) (log_committed log) L C' [] out →
  tc_leader tc = reference L → dag_wf d2 → (∀ r, dag_lookup d2 r = dag_lookup d1 r) →
  ds_recent_blocks d2 = ds_recent_blocks d1 → ds_last_commit d2 = Some tc →
  ds_context d2 = ds_context d1 →
  N.of_nat (length (ds_last_committed_rounds d2)) = Committee_size c →
  node_ok d2 (mkCommitLog C' (Some tc)).
Proof.
  intros Hd HL Hr (Heq & Hwf1 & Hgc1 & Hlk1 & Hm1) Hinv Hlead Hwf2 Hlk2 Hrec2 Hlast2 Hctx2 Hrounds2.
  pose proof (no_view d log Hd) as Hv. pose proof (v_ok c G d Hv) as Hok.
  assert (∀ r, dag_lookup d2 r = dag_lookup d r) as Hlk by (intros r; by rewrite Hlk2).
  assert (ds_context d2 = ctx) as Hctx by (rewrite Hctx2, Heq; apply Hd).
  assert (dag_gc_round d2 = vb_round L - gc_depth (protocol_config ctx)) as Hgc2.
  { unfold dag_gc_round, calculate_gc_round, last_commit_round, saturating_sub.
    by rewrite Hlast2, Hctx, Hlead. }
  assert (log_gc ctx log ≤ dag_gc_round d2) as Hle by (rewrite Hgc2; unfold log_gc; lia).
  assert (∀ r r', parent (dag_lookup d2) r r' ↔ parent (dag_lookup d) r r') as Hpar
    by (intros r r'; unfold parent; by setoid_rewrite Hlk).
  assert (∀ b, block_in (dag_lookup d2) b ↔ block_in (dag_lookup d) b) as Hbin
    by (intros b; unfold block_in; by rewrite Hlk).
  pose proof (vo_universe d Hok) as HU. rewrite (node_gc d log Hd) in HU.
  assert (dag_committee d2 = c) as Hcom by (unfold dag_committee; by rewrite Hctx).
  split; try done; [split; [split| |]|..].
  - done.
  - split.
    + intros r b. rewrite Hlk. apply (u_ref _ _ HU).
    + intros r r'. rewrite Hpar. apply (u_desc _ _ HU).
    + intros r r'. rewrite Hpar, Hlk. intros Hp Hgr. eapply (u_closed _ _ HU); [done|lia].
  - intros b a. rewrite Hbin, Hcom. intros Hb Ha.
    pose proof (vo_authors d Hok b a Hb Ha) as Hval. by rewrite (v_committee c G d Hv) in Hval.
  - done.
  - intros r b. rewrite Hlk. apply (v_sub c G d Hv).
  - apply Hd.
  - intros b a. rewrite Hbin, Hlk. apply (no_genesis d log Hd).
  - intros r i. rewrite Hrec2. intros Hi Hgr. apply (Hm1 r i Hi). lia.
  - intros r. rewrite Hlk. simpl. intros [Hin|Hin]%(ln_set _ _ _ _ _ _ _ Hinv) Hgr.
    + apply (no_known d log Hd r Hin). rewrite (node_gc d log Hd). lia.
    + apply list_elem_of_fmap in Hin as (b & -> & Hb).
      destruct (ln_blocks _ _ _ _ _ _ _ Hinv b Hb) as [Hin _]. by exists b.
  - eapply log_wf_next; try done; [apply (v_sub c G d Hv)|apply Hd].
Qed.

(** One leader: the node commits what the log and the universe determine. *)
Lemma handle_leader_spec d log sds L :
  node_ok d log → block_in (dag_lookup d) L → log_round log < vb_round L →
  log_index log + 1 < 2 ^ 32 →
  ∃ d' sd log' out, handle_leader ctx (d, sds) L = Ret (d', sds ++ [sd]) ∧
    commits ctx G log L sd log' ∧ node_ok d' log' ∧ (∀ r, dag_lookup d' r = dag_lookup d r) ∧
    log_round log' = vb_round L ∧ log_index log' = log_index log + 1 ∧
    sd_blocks sd = sort_sub_dag_blocks out ∧
    lin_inv (dag_lookup d) (log_gc ctx log) (log_committed log) L (log_committed log') [] out.
Proof.
  intros Hd HL Hr Hidx. pose proof (no_view d log Hd) as Hv. pose proof (v_ok c G d Hv) as Hok.
  pose proof (vo_universe d Hok) as HU. rewrite (node_gc d log Hd) in HU.
  assert (distinct_ancestors (dag_lookup d)) as Hdist
    by (intros b Hb; apply (unique_distinct G Hu), (view_block c G d Hv b Hb)).
  assert (reference L ∉ log_committed log) as HLC
    by (intros Hin%(lw_rounds _ _ _ (no_log d log Hd)); simpl in Hin; lia).
  assert (log_gc ctx log < vb_round L) as HLr by (unfold log_gc; lia).
  destruct (@linearize_sub_dag_spec _ _ (DagState_store_spec d) (dag_lookup d) (log_gc ctx log) HU Hdist
    d (log_committed log) L) as (d1 & C' & out & Hlin & Hrel & Hrepr & Hinv); try done.
  { split; [by destruct d|]. split; [apply Hok|]. split; [by apply node_gc|]. split; [done|apply Hd]. }
  pose proof Hrepr as (Heq & Hwf1 & Hgc1 & Hlk1 & Hm1).
  destruct (collect_spec d log L d1 out Hd HL Hr Hlin Hlk1) as (ts & serialized & Hts & Hser & Hcollect).
  set (tc := new_trusted (commit_of log L out ts) serialized) in *.
  assert (∀ b, b ∈ sort_sub_dag_blocks out → block_in (dag_lookup d) b) as Hblocks.
  { intros b Hb. apply elem_of_isort in Hb. apply (ln_blocks _ _ _ _ _ _ _ Hinv). by rewrite app_nil_r. }
  assert (last_commit_index d1 = log_index log ∧ last_commit_timestamp_ms d1 = log_timestamp log ∧
          last_commit_round d1 = log_round log) as (Hi1 & Ht1 & Hr1).
  { unfold last_commit_index, last_commit_timestamp_ms, last_commit_round, log_index, log_timestamp, log_round.
    rewrite Heq. simpl. rewrite (no_last d log Hd). by destruct (log_last log). }
  destruct (add_commit_next d1 tc) as (d2 & Hadd & Hwf2 & Hlk2 & Hrec2 & Hlast2 & Hctx2 & Hrounds2).
  { done. }
  { rewrite Heq. apply (v_committee c G d Hv). }
  { rewrite Heq. apply Hd. }
  { rewrite Hi1. unfold tc, tc_index. simpl. by rewrite u32_add_small. }
  { by rewrite Hi1. }
  { rewrite Ht1. unfold tc, tc_timestamp_ms. simpl. lia. }
  { intros r. unfold tc, tc_blocks. simpl. intros (b & -> & Hb)%list_elem_of_fmap.
    pose proof (block_author_valid d Hok b (Hblocks b Hb)) as Hval.
    rewrite (v_committee c G d Hv) in Hval. apply Hval.
    apply elem_of_isort in Hb. rewrite (node_gc d log Hd).
    apply (ln_blocks _ _ _ _ _ _ _ Hinv). by rewrite app_nil_r. }
  { rewrite Hr1. unfold tc, tc_round, tc_leader. simpl. lia. }
  exists d2, (sub_dag_of log L out ts tc), (mkCommitLog C' (Some tc)), out.
  split; [|split; [|split; [|split; [|split; [done|split; [|done]]]]]].
  - unfold handle_leader. rewrite Hcollect. cbn [mbind outcome_bind].
    rewrite pruned_metric_Ret.
    + cbn [mbind outcome_bind]. by rewrite Hadd.
    + rewrite Heq. apply Hd.
    + intros b a Hb Ha. pose proof (vo_authors d Hok b a (Hblocks b Hb) Ha) as Hval.
      by rewrite (v_committee c G d Hv) in Hval.
  - exists C', out, ts, serialized. split; [|done].
    eapply (lin_view (dag_lookup d) G); try done; [apply (v_sub c G d Hv)|].
    by apply (lin_inv_init (dag_lookup d)).
  - by eapply node_ok_next.
  - intros r. by rewrite Hlk2, Hlk1.
  - unfold log_index at 1, tc. simpl. unfold tc_index. simpl. by rewrite u32_add_small.
Qed.

(** What one commit guarantees. *)
Record commit_facts (log : commit_log) (L : VerifiedBlock) (sd : CommittedSubDag) (log' : commit_log)
    : Prop := {
  cf_leader : sd_leader sd = reference L;
  cf_root : L ∈ sd_blocks sd;
  cf_blocks_in : ∀ b, b ∈ sd_blocks sd →
    block_in G b ∧ log_gc ctx log < vb_round b ∧ rtc (parent G) (reference L) (reference b);
  cf_rejected : sd_rejected_transactions_by_block sd = ∅;
  cf_index : cr_index (sd_commit_ref sd) = log_index log + 1 ∧ log_index log' = log_index log + 1;
  cf_time : log_timestamp log ≤ sd_timestamp_ms sd ∧ log_timestamp log' = sd_timestamp_ms sd;
  cf_round : log_round log < log_round log' ∧ log_round log' = vb_round L;
  cf_sorted : StronglySorted sub_dag_leb (sd_blocks sd);
  cf_nodup : NoDup (reference <$> sd_blocks sd);
  cf_new : ∀ r, r ∈ reference <$> sd_blocks sd → r ∉ log_committed log;
  cf_committed : ∀ r, r ∈ log_committed log' ↔
    r ∈ log_committed log ∨ r ∈ reference <$> sd_blocks sd;
  cf_closed : ∀ b a, b ∈ sd_blocks sd → a ∈ vb_ancestors b → log_gc ctx log < br_round a →
    a ∈ log_committed log';
}.

Lemma commit_facts_of U log L sd log' out :
  (∀ r b, U r = Some b → G r = Some b) →
  commits ctx G log L sd log' → log_round log < vb_round L →
  log_round log' = vb_round L → log_index log' = log_index log + 1 →
  sd_blocks sd = sort_sub_dag_blocks out →
  lin_inv U (log_gc ctx log) (log_committed log) L (log_committed log') [] out →
  commit_facts log L sd log'.
Proof.
  intros Hsub (C' & out' & ts & ser & _ & _ & _ & Hsd & Hlog) Hr Hr' Hi' Hblocks Hinv.
  assert (sort_sub_dag_blocks out ≡ₚ out) as Hperm by apply isort_perm.
  destruct Hinv as [Hb Hnd Hset Hcl Hroot]. rewrite app_nil_r in *.
  split.
  - by rewrite Hsd.
  - by rewrite Hblocks, Hperm.
  - intros b. rewrite Hblocks, Hperm. intros (Hin & Hg & Hrtc & _)%Hb. split; [by apply Hsub|]. split; [done|].
    eapply rtc_subrel; [|exact Hrtc]. intros x y (b' & Hb' & Ha). exists b'. auto.
  - by rewrite Hsd.
  - split; [|done]. rewrite <- Hi', Hsd, Hlog. done.
  - rewrite Hsd, Hlog. simpl. split; [lia|done].
  - lia.
  - rewrite Hblocks. apply sort_sub_dag_blocks_sorted.
  - by rewrite Hblocks, Hperm.
  - intros r. rewrite Hblocks, Hperm. intros (b & -> & Hin)%list_elem_of_fmap. by apply Hb.
  - intros r. by rewrite Hblocks, Hperm, Hset.
  - intros b a. rewrite Hblocks, Hperm. apply Hcl.
Qed.

(** Leaders in ascending rounds. *)
Fixpoint ascending (lo : N) (leaders : list VerifiedBlock) : Prop :=
  match leaders with
  | [] => True
  | L :: leaders => lo < vb_round L ∧ ascending (vb_round L) leaders
  end.

(** The facts of a whole run, commit by commit. *)
Inductive run_facts : commit_log → list VerifiedBlock → list CommittedSubDag → commit_log → Prop :=
| facts_nil log : run_facts log [] [] log
| facts_cons log L leaders sd sds log1 log2 :
    commit_facts log L sd log1 → run_facts log1 leaders sds log2 →
    run_facts log (L :: leaders) (sd :: sds) log2.

Lemma handle_commit_spec leaders d log sds0 :
  node_ok d log → (∀ L, L ∈ leaders → block_in (dag_lookup d) L) → ascending (log_round log) leaders →
  log_index log + N.of_nat (length leaders) < 2 ^ 32 →
  ∃ d' sds log', foldM (handle_leader ctx) (d, sds0) leaders = Ret (d', sds0 ++ sds) ∧
    commit_run ctx G log leaders sds log' ∧ node_ok d' log' ∧
    (∀ r, dag_lookup d' r = dag_lookup d r) ∧ run_facts log leaders sds log'.
Proof.
  revert d log sds0. induction leaders as [|L leaders IH]; intros d log sds0 Hd HL Hasc Hidx.
  { exists d, [], log. rewrite app_nil_r. split; [done|]. split; [constructor|].
    split; [done|]. split; [done|constructor]. }
  destruct Hasc as [Hr Hasc]. cbn [length] in Hidx.
  destruct (handle_leader_spec d log sds0 L) as
    (d1 & sd & log1 & out & Hstep & Hcom & Hd1 & Hlk1 & Hr1 & Hi1 & Hbl & Hinv); try done.
  { apply HL, list_elem_of_here. }
  { lia. }
  destruct (IH d1 log1 (sds0 ++ [sd])) as (d' & sds & log' & Hrun & Hrel & Hd' & Hlk & Hfacts).
  { done. }
  { intros L' HL'. unfold block_in. rewrite Hlk1. apply HL. by apply list_elem_of_further. }
  { by rewrite Hr1. }
  { lia. }
  exists d', (sd :: sds), log'. cbn [foldM]. rewrite Hstep. cbn [mbind outcome_bind].
  rewrite Hrun, <- (assoc_L (++)). split; [done|].
  split; [by econstructor|]. split; [done|]. split; [intros r; by rewrite Hlk, Hlk1|].
  econstructor; [|done]. exact (commit_facts_of _ log L sd log1 out (v_sub c G d (no_view d log Hd)) Hcom Hr Hr1 Hi1 Hbl Hinv).
Qed.

(** ** Other steps of the node *)

(** Between commits a node accepts blocks of the universe whose history it knows, as the
    block manager ensures, and flushes its state. *)
Inductive node_step d d' : Prop :=
| ns_accept b :
    G (reference b) = Some b → acceptable d b →
    (∀ a, a ∈ vb_ancestors b → is_valid_index c (br_author a) = true ∧
       (br_round a = 0 ∨ dag_gc_round d < br_round a → is_Some (dag_lookup d a))) →
    accept_block d b = Ret d' → node_step d d'
| ns_flush : flush d = Ret d' → node_step d d'.

(** A state with the same commits, more blocks and the same marks. *)
Lemma node_ok_grow d log d' :
  node_ok d log → dag_wf d' → ds_context d' = ds_context d → ds_last_commit d' = ds_last_commit d →
  length (ds_last_committed_rounds d') = length (ds_last_committed_rounds d) →
  (∀ r b, dag_lookup d r = Some b → dag_lookup d' r = Some b) →
  (∀ r b, dag_lookup d' r = Some b → dag_lookup d r = Some b ∨ dag_lookup d r = None ∧
     G r = Some b ∧ ∀ a, a ∈ vb_ancestors b → is_valid_index c (br_author a) = true ∧
       (br_round a = 0 ∨ dag_gc_round d < br_round a → is_Some (dag_lookup d a))) →
  marks d' (log_committed log) → node_ok d' log.
Proof.
  intros Hd Hwf Hctx Hlast Hlen Hkeep Hnew Hmarks.
  pose proof (no_view d log Hd) as Hv. pose proof (v_ok c G d Hv) as Hok.
  pose proof (vo_universe d Hok) as HU.
  assert (dag_gc_round d' = dag_gc_round d) as Hgc
    by (unfold dag_gc_round, calculate_gc_round, last_commit_round; by rewrite Hlast, Hctx).
  assert (dag_committee d' = c) as Hcom by (unfold dag_committee; rewrite Hctx; apply (v_committee c G d Hv)).
  assert (∀ r b, dag_lookup d' r = Some b → G r = Some b) as Hsub
    by (intros r b [Hb|(_ & Hb & _)]%Hnew; [by apply (v_sub c G d Hv)|done]).
  assert (∀ r, is_Some (dag_lookup d r) → is_Some (dag_lookup d' r)) as Hkeep'
    by (intros r [b Hb]; exists b; by apply Hkeep).
  split; try done; [split; [split| |]|..]; try done.
  - split.
    + intros r b Hb%Hsub. by apply (bft_ref c byz G HG).
    + intros r r' (b & Hb%Hsub & Ha). apply (bft_desc c byz G HG). by exists b.
    + rewrite Hgc. intros r r' (b & [Hb|(_ & _ & Hb)]%Hnew & Ha) Hr; apply Hkeep'.
      * eapply (u_closed _ _ HU); [by exists b|done].
      * apply (Hb r' Ha). by right.
  - rewrite Hcom. intros b a [Hb|(_ & _ & Hb)]%Hnew Ha; [|by apply Hb].
    pose proof (vo_authors d Hok b a Hb Ha) as Hval. by rewrite (v_committee c G d Hv) in Hval.
  - by rewrite Hctx, (no_context d log Hd).
  - apply Hd.
  - intros b a [Hb|(_ & _ & Hb)]%Hnew Ha Hz; apply Hkeep'; [by eapply (no_genesis d log Hd)|].
    apply (Hb a Ha). by left.
  - by rewrite Hlast, (no_last d log Hd).
  - rewrite Hgc. intros r Hr Hgr. apply Hkeep'. by apply (no_known d log Hd).
  - rewrite Hlen. apply Hd.
  - apply Hd.
Qed.

Lemma accept_committed_rounds d b d' :
  accept_block d b = Ret d' → ds_last_committed_rounds d' = ds_last_committed_rounds d.
Proof.
  unfold accept_block, update_block_metadata. intros Ha.
  apply bind_Ret in Ha as (_ & _ & Ha). apply bind_Ret in Ha as ([] & _ & Ha); [by injection Ha as <-|].
  apply bind_Ret in Ha as (_ & _ & Ha). apply bind_Ret in Ha as (_ & _ & Ha).
  apply bind_Ret in Ha as (d1 & Hd1 & Ha). injection Ha as <-.
  apply bind_Ret in Hd1 as (? & _ & Hd1). apply bind_Ret in Hd1 as (? & _ & Hd1).
  apply bind_Ret in Hd1 as ([] & _ & Hd1). apply bind_Ret in Hd1 as (? & _ & Hd1).
  apply bind_Ret in Hd1 as (? & _ & Hd1). by injection Hd1 as <-.
Qed.

Lemma flush_frame d d' :
  flush d = Ret d' → ds_last_committed_rounds d' = ds_last_committed_rounds d ∧
    ds_context d' = ds_context d ∧ ds_last_commit d' = ds_last_commit d.
Proof.
  unfold flush. set (batch := mkWriteBatch _ _ _ _).
  set (d0 := set ds_finalized_commits_to_write _ _).
  set (P := λ x : DagState S, ds_last_committed_rounds x = ds_last_committed_rounds d ∧
    ds_context x = ds_context d ∧ ds_last_commit x = ds_last_commit d).
  assert (P d0) as Hd0 by done.
  intros Hf. change (P d'). clearbody d0.
  assert (d0 = d' ∨ ∃ store, store_write (ds_store d0) batch = Ret store ∧
    foldM (λ d e, evict_authority d e.1) (d0 <| ds_store := store |>)
      (Committee_enumerate (dag_committee d0)) = Ret d') as [<-|(store & _ & Hrun)].
  { destruct (wb_blocks batch), (wb_commits batch), (wb_commit_info batch), (wb_finalized_commits batch);
      try (right; by apply bind_Ret in Hf). left. by injection Hf. }
  { done. }
  eapply (foldM_inv P); [|intros x e y _ Hx Hy|exact Hrun]; [done|].
  unfold evict_authority in Hy. apply bind_Ret in Hy as (? & _ & Hy).
  apply bind_Ret in Hy as (? & _ & Hy). apply bind_Ret in Hy as (? & _ & Hy).
  apply bind_Ret in Hy as (? & _ & Hy). injection Hy as <-. exact Hx.
Qed.

Lemma node_step_ok d log d' : node_ok d log → node_step d d' → node_ok d' log.
Proof.
  intros Hd Hstep. pose proof (no_view d log Hd) as Hv. pose proof (v_ok c G d Hv) as Hok.
  pose proof (vo_wf d Hok) as Hwf.
  destruct Hstep as [b HGb (Hbound & Hr & Hval) Hanc Hrun|Hrun].
  - destruct (dag_lookup d (reference b)) as [b0|] eqn:Hlk.
    { rewrite (accept_block_contained d b b0 Hwf Hr Hval Hlk) in Hrun. by injection Hrun as <-. }
    destruct (accept_block_accepted d b d' Hwf Hbound Hr Hval Hlk Hrun) as [Hacc Hwf'].
    assert (∀ r, dag_lookup d' r = if decide (r = reference b) then Some b else dag_lookup d r) as Hlk'
      by (intros r; by apply accepted_lookup).
    destruct Hacc as [Hctx _ Hrec _ _ _ Hlast].
    assert (dag_gc_round d' = dag_gc_round d) as Hgc
      by (unfold dag_gc_round, calculate_gc_round, last_commit_round; by rewrite Hlast, Hctx).
    apply (node_ok_grow d log d'); try done.
    + by rewrite (accept_committed_rounds d b d' Hrun).
    + intros r x Hx. rewrite Hlk'. case_decide; [by subst; rewrite Hlk in Hx|done].
    + intros r x. rewrite Hlk'. case_decide; [|by left]. intros [= <-]. subst r. by right.
    + intros r i. rewrite Hrec, Hgc. intros [[<- <-]|[_ Hi]]%lookup_insert_Some Hgr.
      * simpl. symmetry. apply bool_decide_eq_false. intros Hin.
        destruct (no_known d log Hd (reference b) Hin Hgr). congruence.
      * by apply (no_marks d log Hd).
  - destruct (flush_spec d Hwf) as (d1 & Hrun' & [_ Hwf'] & Hlk & Hgc & Hcache & _).
    rewrite Hrun in Hrun'. injection Hrun' as <-. destruct (flush_frame d d' Hrun) as (Hrounds & Hctx & Hlast).
    apply (node_ok_grow d log d'); try done.
    + by rewrite Hrounds.
    + intros r x. by rewrite Hlk.
    + intros r x. rewrite Hlk. by left.
    + intros r i Hi. rewrite Hgc. intros Hgr.
      pose proof (dag_lookup_recent d' r i (dwf_cache d' Hwf') Hi) as Hlr. rewrite Hlk in Hlr.
      destruct (dag_lookup_cached d r _ Hwf Hlr Hgr) as (j & Hj & _).
      pose proof (Hcache r j Hj Hgr) as Hi'. rewrite Hi in Hi'. injection Hi' as <-.
      by apply (no_marks d log Hd).
Qed.
End Node.

(** ** Consequences for a sequence of commits *)

Lemma run_facts_order ctx G log leaders sds log' :
  run_facts ctx G log leaders sds log' →
  sd_leader <$> sds = reference <$> leaders ∧
  (∀ i sd, sds !! i = Some sd → cr_index (sd_commit_ref sd) = log_index log + 1 + N.of_nat i) ∧
  StronglySorted N.le (log_timestamp log :: (sd_timestamp_ms <$> sds)).
Proof.
  induction 1 as [log|log L leaders sd sds log1 log2 [Hlead _ _ _ [Hi Hi'] [Ht Ht'] _ _ _ _ _ _] _ IH].
  { split; [done|]. split; [done|]. repeat constructor. }
  destruct IH as (IH1 & IH2 & IH3). split; [csimpl; by rewrite Hlead, IH1|]. split.
  - intros [|i] sd' Hsd; simpl in Hsd; simplify_eq; [lia|]. rewrite (IH2 i sd' Hsd). lia.
  - rewrite Ht' in IH3. csimpl. constructor; [done|]. constructor; [done|].
    apply StronglySorted_inv in IH3 as [_ IH3]. eapply Forall_impl; [exact IH3|]. simpl. lia.
Qed.

Lemma run_facts_once ctx G log leaders sds log' :
  run_facts ctx G log leaders sds log' →
  NoDup (reference <$> (sds ≫= sd_blocks)) ∧
  (∀ r, r ∈ reference <$> (sds ≫= sd_blocks) → r ∉ log_committed log) ∧
  (∀ r, r ∈ log_committed log' ↔ r ∈ log_committed log ∨ r ∈ reference <$> (sds ≫= sd_blocks)).
Proof.
  induction 1 as [log|log L leaders sd sds log1 log2 [_ _ _ _ _ _ _ _ Hnd Hnew Hcom _] _ IH].
  { split; [constructor|]. set_solver. }
  destruct IH as (IH1 & IH2 & IH3). rewrite bind_cons, fmap_app. split; [|split].
  - apply NoDup_app. split; [done|]. split; [|done]. intros r Hr Hr'.
    apply (IH2 r Hr'), Hcom. by right.
  - intros r [Hr|Hr]%elem_of_app; [by apply Hnew|]. intros Hin. apply (IH2 r Hr), Hcom. by left.
  - intros r. rewrite IH3, Hcom, elem_of_app. tauto.
Qed.

Lemma run_facts_causal ctx G log leaders sds log' :
  run_facts ctx G log leaders sds log' →
  ∀ i sd b a, sds !! i = Some sd → b ∈ sd_blocks sd → a ∈ vb_ancestors b →
    br_round (sd_leader sd) - gc_depth (protocol_config ctx) < br_round a →
    a ∈ log_committed log ∨ a ∈ reference <$> (take (S i) sds ≫= sd_blocks).
Proof.
  induction 1 as [log|log L leaders sd sds log1 log2 [Hlead _ _ _ _ _ [Hr Hr'] _ _ _ Hcom Hcl] _ IH];
    intros i sd' b a Hi Hb Ha Hround; [done|].
  destruct i as [|i]; simpl in Hi; simplify_eq.
  - assert (a ∈ log_committed log1) as Hin.
    { apply (Hcl b a Hb Ha). rewrite Hlead in Hround. simpl in Hround. unfold log_gc. lia. }
    apply Hcom in Hin. cbn [take]. rewrite bind_cons, fmap_app. set_solver.
  - destruct (IH i sd' b a Hi Hb Ha Hround) as [Hin|Hin].
    + apply Hcom in Hin. cbn [take]. rewrite bind_cons, fmap_app. set_solver.
    + right. change (take (S (S i)) (sd :: sds)) with (sd :: take (S i) sds).
      rewrite bind_cons, fmap_app, elem_of_app. by right.
Qed.

Lemma run_facts_sorted ctx G log leaders sds log' :
  run_facts ctx G log leaders sds log' → Forall (λ sd, StronglySorted sub_dag_leb (sd_blocks sd)) sds.
Proof. induction 1 as [|log L leaders sd sds log1 log2 Hf _ IH]; constructor; [apply Hf|done]. Qed.

(** The median of the parents of a leader lies between timestamps of correct authorities. *)
Definition honest_median (ctx : Context) (byz : gset N) (G : universe) (L : VerifiedBlock) : Prop :=
  ∀ ts, median_timestamp_by_stake ctx (parents_of G L) = Ret (Ok ts) →
    (∃ b, b ∈ parents_of G L ∧ (vb_author b ∉ byz) ∧ vb_timestamp_ms b ≤ ts) ∧
    (∃ b, b ∈ parents_of G L ∧ (vb_author b ∉ byz) ∧ ts ≤ vb_timestamp_ms b).

Lemma ascending_above lo leaders : ascending lo leaders → ∀ L, L ∈ leaders → lo < vb_round L.
Proof.
  revert lo. induction leaders as [|L0 leaders IH]; intros lo Hasc L HL; [by apply elem_of_nil in HL|].
  destruct Hasc as [Hlo Hasc]. apply elem_of_cons in HL as [->|HL]; [done|]. specialize (IH _ Hasc L HL). lia.
Qed.

Lemma commit_run_times `{Crypto} `{CommitCodec} ctx byz G log leaders sds log' :
  commit_run ctx G log leaders sds log' → (∀ L, L ∈ leaders → honest_median ctx byz G L) →
  ∀ i sd L, sds !! i = Some sd → leaders !! i = Some L →
    (∃ ts previous, median_timestamp_by_stake ctx (parents_of G L) = Ret (Ok ts) ∧
       (log_timestamp log :: (sd_timestamp_ms <$> sds)) !! i = Some previous ∧ sd_timestamp_ms sd = N.max ts previous) ∧
    (∃ b, b ∈ parents_of G L ∧ (vb_author b ∉ byz) ∧ vb_timestamp_ms b ≤ sd_timestamp_ms sd) ∧
    (sd_timestamp_ms sd ≤ log_timestamp log ∨
     ∃ j L' b, (j ≤ i)%nat ∧ leaders !! j = Some L' ∧ b ∈ parents_of G L' ∧ (vb_author b ∉ byz) ∧
       sd_timestamp_ms sd ≤ vb_timestamp_ms b).
Proof.
  induction 1 as [log|log L0 leaders sd0 sds log1 log2 (C & out & ts & ser & _ & Hts & _ & Hsd & Hlog) _ IH];
    intros Hmed i sd L Hi HL; [done|].
  destruct (Hmed L0 (list_elem_of_here _ _) ts Hts) as ((b1 & Hb1 & Hn1 & Hlo) & (b2 & Hb2 & Hn2 & Hhi)).
  assert (sd_timestamp_ms sd0 = N.max ts (log_timestamp log)) as Ht by (by rewrite Hsd).
  assert (log_timestamp log1 = N.max ts (log_timestamp log)) as Ht1 by (by rewrite Hlog).
  destruct i as [|i]; cbn in Hi, HL; simplify_eq.
  - split; [by exists ts, (log_timestamp log)|]. rewrite Ht. split; [exists b1; split; [done|]; split; [done|]; lia|].
    destruct (N.le_ge_cases ts (log_timestamp log)); [left; lia|]. right. exists 0%nat, L, b2.
    repeat (split; [done|]). lia.
  - destruct (IH (λ x Hx, Hmed x (list_elem_of_further _ _ _ Hx)) i sd L Hi HL) as (Hmax & Hlow & Hup).
    split; [by rewrite Ht1, <- Ht in Hmax|]. split; [done|].
    destruct Hup as [Hup|(j & L' & b & Hj & HL' & ?)]; [|right; exists (Datatypes.S j), L', b; split; [lia|done]].
    rewrite Ht1 in Hup. destruct (N.le_ge_cases ts (log_timestamp log)); [left; lia|]. right. exists 0%nat, L0, b2.
    split; [lia|]. repeat (split; [done|]). lia.
Qed.

(** * Properties *)

(** C21. The traversal of a leader's sub-DAG, against any block store that meets the
    interface: when the committed set is closed under history above the garbage collection
    round and the leader is known and new, it does not panic and ends within its bound; the
    sub-DAG holds each block of the leader's history above that round that was not committed,
    once, ordered by round and author; and exactly these become committed. *)
Theorem linearize_sub_dag_exact {T} `{BlockStoreSpec T} (t : T) U g C L :
  bs_repr t U g C → universe_wf g U → distinct_ancestors U →
  (∀ r r', r ∈ C → parent U r r' → g < br_round r' → r' ∈ C) →
  block_in U L → g < vb_round L → reference L ∉ C →
  ∃ t' blocks, linearize_sub_dag L t = Ret (t', blocks) ∧
    StronglySorted sub_dag_leb blocks ∧ NoDup (reference <$> blocks) ∧
    (∀ b, b ∈ blocks ↔ block_in U b ∧ g < vb_round b ∧
       rtc (parent U) (reference L) (reference b) ∧ reference b ∉ C) ∧
    ∃ C', bs_repr t' U g C' ∧ ∀ r, r ∈ C' ↔ r ∈ C ∨ r ∈ reference <$> blocks.
Proof.
  intros Ht HU Hdist Hcl HL Hr HC.
  destruct (linearize_sub_dag_spec U g HU Hdist t C L Ht HL Hr HC)
    as (t' & C' & out & Hrun & _ & Ht' & Hinv).
  destruct (lin_inv_result U g HU C L C' out Hinv Hcl) as [_ Hout].
  assert (sort_sub_dag_blocks out ≡ₚ out) as Hperm by apply isort_perm.
  exists t', (sort_sub_dag_blocks out). split; [done|]. split; [apply sort_sub_dag_blocks_sorted|].
  destruct Hinv as [_ Hnd Hset _ _]. rewrite app_nil_r in *. split; [by rewrite Hperm|].
  split; [intros b; by rewrite Hperm|]. exists C'. split; [done|]. intros r. by rewrite Hperm.
Qed.

(** C10. Agreement on commits. Two nodes of an epoch, whose states stand for the same log of
    commits over one universe of blocks, handle the same committed leaders: neither panics,
    both produce the same sub-DAGs (blocks and their order, timestamps, commit digests), and
    both states again stand for one log. *)
Theorem handle_commit_agreement `{Crypto} `{CommitCodec} {S1 S2} `{StoreSpec S1} `{StoreSpec S2}
    ctx1 ctx2 byz G (d1 : DagState S1) (d2 : DagState S2) log leaders :
  same_epoch ctx1 ctx2 → bft (committee ctx1) byz G → unique_ancestors G →
  (∀ commit, is_Some (bcs_commit commit)) →
  node_ok ctx1 G d1 log → node_ok ctx2 G d2 log →
  (∀ L, L ∈ leaders → block_in (dag_lookup d1) L ∧ block_in (dag_lookup d2) L) →
  ascending (log_round log) leaders → log_index log + N.of_nat (length leaders) < 2 ^ 32 →
  ∃ d1' d2' sds log', handle_commit ctx1 d1 leaders = Ret (d1', sds) ∧
    handle_commit ctx2 d2 leaders = Ret (d2', sds) ∧
    node_ok ctx1 G d1' log' ∧ node_ok ctx2 G d2' log'.
Proof.
  intros He HG Hu Hcodec Hd1 Hd2 HL Hasc Hidx.
  assert (bft (committee ctx2) byz G) as HG2 by (destruct He as [<- _]; done).
  destruct (handle_commit_spec ctx1 byz G HG Hu Hcodec leaders d1 log []) as
    (d1' & sds1 & log1 & Hrun1 & Hrel1 & Hd1' & _); try done; [by intros L [? _]%HL|].
  destruct (handle_commit_spec ctx2 byz G HG2 Hu Hcodec leaders d2 log []) as
    (d2' & sds2 & log2 & Hrun2 & Hrel2 & Hd2' & _); try done; [by intros L [_ ?]%HL|].
  destruct (commit_run_det ctx1 ctx2 G log leaders sds1 log1 sds2 log2 He Hrel1 Hrel2) as [-> ->].
  exists d1', d2', sds2, log2. done.
Qed.

(** C18. The sequence of commits a node produces: one sub-DAG per leader, consecutive commit
    indices, timestamps that never go back, sub-DAGs ordered by round and author, no block in
    two sub-DAGs or in one committed before, and every ancestor of a committed block that is
    above the garbage collection round of its leader committed with it or before. *)
Theorem handle_commit_sequence `{Crypto} `{CommitCodec} {S} `{StoreSpec S}
    ctx byz G (d : DagState S) log leaders :
  bft (committee ctx) byz G → unique_ancestors G → (∀ commit, is_Some (bcs_commit commit)) →
  node_ok ctx G d log → (∀ L, L ∈ leaders → block_in (dag_lookup d) L) →
  ascending (log_round log) leaders → log_index log + N.of_nat (length leaders) < 2 ^ 32 →
  ∃ d' sds, handle_commit ctx d leaders = Ret (d', sds) ∧
    sd_leader <$> sds = reference <$> leaders ∧
    (∀ i sd, sds !! i = Some sd → cr_index (sd_commit_ref sd) = log_index log + 1 + N.of_nat i) ∧
    StronglySorted N.le (log_timestamp log :: (sd_timestamp_ms <$> sds)) ∧
    Forall (λ sd, StronglySorted sub_dag_leb (sd_blocks sd)) sds ∧
    NoDup (reference <$> (sds ≫= sd_blocks)) ∧
    (∀ r, r ∈ reference <$> (sds ≫= sd_blocks) → r ∉ log_committed log) ∧
    (∀ i sd b a, sds !! i = Some sd → b ∈ sd_blocks sd → a ∈ vb_ancestors b →
       br_round (sd_leader sd) - gc_depth (protocol_config ctx) < br_round a →
       a ∈ log_committed log ∨ a ∈ reference <$> (take (Datatypes.S i) sds ≫= sd_blocks)).
Proof.
  intros HG Hu Hcodec Hd HL Hasc Hidx.
  destruct (handle_commit_spec ctx byz G HG Hu Hcodec leaders d log []) as
    (d' & sds & log' & Hrun & _ & _ & _ & Hf); try done.
  destruct (run_facts_order _ _ _ _ _ _ Hf) as (? & ? & ?).
  destruct (run_facts_once _ _ _ _ _ _ Hf) as (? & ? & _).
  exists d', sds. do 4 (split; [done|]). split; [by eapply run_facts_sorted|].
  split; [done|]. split; [done|]. by eapply run_facts_causal.
Qed.

(** C22. Commit timestamps come from correct authorities: when a node commits a sequence of
    leaders, the timestamp of each commit is the stake-weighted median over the parents of its
    leader, raised to the timestamp of the previous commit; it is at least the timestamp of a
    correct parent of the leader, and at most that of the commit before the sequence or of a
    correct parent of the leader or of an earlier one. Byzantine authorities can neither put it
    behind nor ahead of what correct ones have reported. *)
Theorem commit_timestamps_honest `{Crypto} `{CommitCodec} {S} `{StoreSpec S}
    ctx byz G (d : DagState S) log leaders :
  bft (committee ctx) byz G → unique_ancestors G → (∀ commit, is_Some (bcs_commit commit)) →
  node_ok ctx G d log → (∀ L, L ∈ leaders → block_in (dag_lookup d) L) →
  ascending (log_round log) leaders → log_index log + N.of_nat (length leaders) < 2 ^ 32 →
  ∃ d' sds, handle_commit ctx d leaders = Ret (d', sds) ∧ length sds = length leaders ∧
    ∀ i sd L, sds !! i = Some sd → leaders !! i = Some L →
      (∃ ts previous, median_timestamp_by_stake ctx (parents_of G L) = Ret (Ok ts) ∧
         (log_timestamp log :: (sd_timestamp_ms <$> sds)) !! i = Some previous ∧ sd_timestamp_ms sd = N.max ts previous) ∧
      (∃ b, b ∈ parents_of G L ∧ (vb_author b ∉ byz) ∧ vb_timestamp_ms b ≤ sd_timestamp_ms sd) ∧
      (sd_timestamp_ms sd ≤ log_timestamp log ∨
       ∃ j L' b, (j ≤ i)%nat ∧ leaders !! j = Some L' ∧ b ∈ parents_of G L' ∧ (vb_author b ∉ byz) ∧
         sd_timestamp_ms sd ≤ vb_timestamp_ms b).
Proof.
  intros HG Hu Hcodec Hd HL Hasc Hidx.
  destruct (handle_commit_spec ctx byz G HG Hu Hcodec leaders d log []) as
    (d' & sds & log' & Hrun & Hrel & _ & _ & Hf); try done.
  assert (∀ L, L ∈ leaders → honest_median ctx byz G L) as Hmed.
  { intros L Hin ts Hts. pose proof (ascending_above _ _ Hasc L Hin) as Hr.
    destruct (node_parents ctx byz G HG Hu d log L Hd (HL L Hin) Hr) as (_ & Hnd & Hval & Hq).
    destruct (median_timestamp_honest ctx byz (parents_of G L) (bft_committee _ _ _ HG) (bft_byz _ _ _ HG) Hnd Hval Hq)
      as (ts' & Hts' & Hlo & Hhi).
    rewrite Hts in Hts'. by injection Hts' as <-. }
  exists d', sds. split; [done|].
  destruct (run_facts_order _ _ _ _ _ _ Hf) as (Hlead & _). apply (f_equal length) in Hlead. rewrite !length_fmap in Hlead.
  split; [done|]. by eapply commit_run_times.
Qed.

(** Between commits a node keeps standing for its log: accepting blocks of the universe
    whose history it knows and flushing, in any order and number, change neither the commits
    it made nor which blocks count as committed, although the cache is filled and evicted. *)
Theorem node_steps_keep_log {S} `{StoreSpec S} ctx byz G (d d' : DagState S) log :
  bft (committee ctx) byz G → node_ok ctx G d log → rtc (node_step ctx G) d d' → node_ok ctx G d' log.
Proof.
  intros HG Hd Hsteps. induction Hsteps as [|d d1 d' Hstep _ IH]; [done|].
  apply IH. by eapply (node_step_ok ctx byz G HG).
Qed.

(** * Witnesses *)

Definition sample_codec : CommitCodec := {| bcs_commit := λ _, Some [] |}.

Definition empty_log : commit_log := mkCommitLog ∅ None.

Section Samples.
Context (n : nat) (gc : N) (Hgc : 0 < gc).

Lemma sample_unique blocks :
  sample_ok n blocks = true →
  forallb (λ b, bool_decide (NoDup (br_author <$> vb_ancestors b))) blocks = true →
  unique_ancestors (sample_universe n gc blocks).
Proof.
  intros Hok Hall b HL. apply sample_lookup in HL as [HL _]; [|done].
  apply elem_of_app in HL as [(i & _ & ->)%elem_of_sample_genesis|HL]; [constructor|].
  rewrite forallb_forall in Hall. by apply list_elem_of_In, Hall, bool_decide_eq_true in HL.
Qed.

Lemma sample_node_ok blocks blocks' :
  sample_ok n blocks = true → sample_ok n blocks' = true → (∀ b, b ∈ blocks → b ∈ blocks') →
  node_ok (sample_context n gc) (sample_universe n gc blocks') (sample_dag n gc blocks) empty_log.
Proof.
  intros Hok Hok' Hsub. split; try done.
  - by apply sample_view.
  - intros b a Hb Ha _. apply sample_lookup in Hb as [Hb _]; [|done].
    apply elem_of_app in Hb as [(i & _ & ->)%elem_of_sample_genesis|Hb]; [by apply elem_of_nil in Ha|].
    pose proof (sample_facts n blocks Hok) as (_ & _ & Hf).
    apply Hf in Hb as (_ & _ & _ & Hb). apply Hb in Ha as [_ (x & -> & Hx)%list_elem_of_fmap].
    exists x. by apply sample_lookup.
  - intros r i Hi _. apply sample_recent_lookup in Hi as (b & _ & _ & ->); [|done]. done.
  - simpl. unfold Committee_size. simpl. by rewrite !length_replicate.
Qed.
End Samples.

(** The leaders of the first two rounds. *)
Definition first_leaders : list VerifiedBlock := take 1 (full_round 1) ++ take 1 (full_round 2).

Lemma first_leaders_known blocks :
  sample_ok 4 blocks = true → (∀ b, b ∈ full_rounds 3 → b ∈ blocks) →
  ∀ L, L ∈ first_leaders → block_in (dag_lookup (sample_dag 4 60 blocks)) L.
Proof.
  intros Hok Hsub L HL. apply sample_lookup; [done|]. split; [|done]. apply elem_of_app. right.
  apply Hsub. unfold first_leaders in HL. unfold full_rounds. cbn [seq].
  rewrite !bind_cons, !elem_of_app. change (N.of_nat 1) with 1. change (N.of_nat 2) with 2.
  apply elem_of_app in HL as [HL%elem_of_take_list|HL%elem_of_take_list]; tauto.
Qed.

Lemma linearize_sub_dag_exact_witness :
  let d := sample_dag 4 60 (full_rounds 3) in
  let L := sample_block 2 0 200 ((λ a, mkBlockRef 1 a (100 + a)) <$> [0; 1; 2; 3]) in
  ∃ d' blocks, linearize_sub_dag L d = Ret (d', blocks) ∧
    StronglySorted sub_dag_leb blocks ∧ length blocks = 5%nat.
Proof.
  intros d L.
  pose proof (sample_node_ok 4 60 eq_refl (full_rounds 3) wide_universe narrow_ok wide_ok narrow_wide) as Hd.
  destruct (@linearize_sub_dag_exact _ _ (DagState_store_spec d) d (dag_lookup d) 0 ∅ L)
    as (d' & blocks & Hrun & Hs & _).
  - split; [reflexivity|]. split; [apply Hd|]. split; [reflexivity|]. split; [reflexivity|].
    exact (no_marks _ _ _ _ Hd).
  - apply (sample_universe_wf 4 60 (full_rounds 3) narrow_ok).
  - apply unique_distinct, (sample_unique 4 60 (full_rounds 3) narrow_ok). vm_compute. reflexivity.
  - intros r r' Hr. by apply not_elem_of_empty in Hr.
  - reflexivity.
  - reflexivity.
  - apply not_elem_of_empty.
  - exists d', blocks. split; [exact Hrun|]. split; [exact Hs|].
    apply (f_equal (λ o, length (ret_or (d', []) o).2)) in Hrun. cbn [ret_or snd] in Hrun.
    rewrite <- Hrun. vm_compute. reflexivity.
Defined.

Lemma handle_commit_agreement_witness :
  let d1 := sample_dag 4 60 (full_rounds 3) in
  let d2 := sample_dag 4 60 wide_universe in
  ∃ d1' d2' sds,
    @handle_commit _ _ sample_crypto sample_codec (sample_context 4 60) d1 first_leaders = Ret (d1', sds) ∧
    @handle_commit _ _ sample_crypto sample_codec (sample_context 4 60) d2 first_leaders = Ret (d2', sds) ∧
    length sds = 2%nat.
Proof.
  intros d1 d2.
  destruct (@handle_commit_agreement sample_crypto sample_codec _ _ _ _ _ _
    (sample_context 4 60) (sample_context 4 60) {[3]} (sample_universe 4 60 wide_universe) d1 d2
    empty_log first_leaders) as (d1' & d2' & sds & log' & H1 & H2 & _).
  - split; reflexivity.
  - exact (sample_bft 4 60 {[3]} wide_universe wide_ok wide_bft).
  - apply (sample_unique 4 60 wide_universe wide_ok). vm_compute. reflexivity.
  - intros commit. eexists. reflexivity.
  - exact (sample_node_ok 4 60 eq_refl (full_rounds 3) wide_universe narrow_ok wide_ok narrow_wide).
  - exact (sample_node_ok 4 60 eq_refl wide_universe wide_universe wide_ok wide_ok (λ b Hb, Hb)).
  - intros L HL. split.
    + exact (first_leaders_known (full_rounds 3) narrow_ok (λ b Hb, Hb) L HL).
    + exact (first_leaders_known wide_universe wide_ok narrow_wide L HL).
  - split; [reflexivity|]. split; [reflexivity|exact I].
  - reflexivity.
  - exists d1', d2', sds. split; [exact H1|]. split; [exact H2|].
    apply (f_equal (λ o, length (ret_or (d1', []) o).2)) in H1. cbn [ret_or snd] in H1.
    rewrite <- H1. vm_compute. reflexivity.
Defined.

Lemma handle_commit_sequence_witness :
  let d := sample_dag 4 60 (full_rounds 3) in
  ∃ d' sds,
    @handle_commit _ _ sample_crypto sample_codec (sample_context 4 60) d first_leaders = Ret (d', sds) ∧
    sd_leader <$> sds = reference <$> first_leaders ∧ NoDup (reference <$> (sds ≫= sd_blocks)).
Proof.
  intros d.
  destruct (@handle_commit_sequence sample_crypto sample_codec _ _ _
    (sample_context 4 60) {[3]} (sample_universe 4 60 wide_universe) d empty_log first_leaders)
    as (d' & sds & Hrun & Hlead & _ & _ & _ & Hnd & _).
  - exact (sample_bft 4 60 {[3]} wide_universe wide_ok wide_bft).
  - apply (sample_unique 4 60 wide_universe wide_ok). vm_compute. reflexivity.
  - intros commit. eexists. reflexivity.
  - exact (sample_node_ok 4 60 eq_refl (full_rounds 3) wide_universe narrow_ok wide_ok narrow_wide).
  - exact (first_leaders_known (full_rounds 3) narrow_ok (λ b Hb, Hb)).
  - split; [reflexivity|]. split; [reflexivity|exact I].
  - reflexivity.
  - exists d', sds. split; [exact Hrun|]. split; [exact Hlead|exact Hnd].
Defined.

(** The leader of round two, whose Byzantine parent is far ahead of the others. *)
Definition timed_block (round author timestamp : N) (ancestors : list BlockRef) : VerifiedBlock :=
  mkVerifiedBlock (mkSignedBlock (V1 (mkBlockV1 0 round author timestamp ancestors [] [] [])) []) (100 * round + author) [].
Definition timed_blocks : list VerifiedBlock :=
  (λ '(a, ts), timed_block 1 a ts ((λ a', mkBlockRef 0 a' (1000 + a')) <$> [0; 1; 2; 3])) <$> [(0, 10); (1, 30); (2, 20); (3, 99)].
Definition timed_leader : VerifiedBlock := timed_block 2 0 40 (reference <$> timed_blocks).

Lemma commit_timestamps_honest_witness :
  let blocks := timed_blocks ++ [timed_leader] in
  ∃ d' sd, @handle_commit _ _ sample_crypto sample_codec (sample_context 4 60) (sample_dag 4 60 blocks) [timed_leader] = Ret (d', [sd]) ∧
    10 ≤ sd_timestamp_ms sd ∧ sd_timestamp_ms sd ≤ 30.
Proof.
  intros blocks. assert (sample_ok 4 blocks = true) as Hok by (vm_compute; reflexivity).
  destruct (@commit_timestamps_honest sample_crypto sample_codec _ _ _
    (sample_context 4 60) {[3]} (sample_universe 4 60 blocks) (sample_dag 4 60 blocks) empty_log [timed_leader])
    as (d' & sds & Hrun & Hlen & Htimes).
  - apply (sample_bft 4 60 {[3]} blocks Hok). vm_compute. reflexivity.
  - apply (sample_unique 4 60 blocks Hok). vm_compute. reflexivity.
  - intros commit. eexists. reflexivity.
  - exact (sample_node_ok 4 60 eq_refl blocks blocks Hok Hok (λ b Hb, Hb)).
  - intros L ->%list_elem_of_singleton. reflexivity.
  - split; [reflexivity|exact I].
  - reflexivity.
  - destruct sds as [|sd [|sd' sds]]; [discriminate| |discriminate]. exists d', sd. split; [exact Hrun|].
    destruct (Htimes 0%nat sd timed_leader eq_refl eq_refl) as (_ & (b & Hb & Hn & Hlo) & Hup).
    assert (parents_of (sample_universe 4 60 blocks) timed_leader = timed_blocks) as Hpar by (vm_compute; reflexivity).
    assert (∀ x, x ∈ timed_blocks → (vb_author x ∉ ({[3]} : gset N)) → 10 ≤ vb_timestamp_ms x ∧ vb_timestamp_ms x ≤ 30) as Hhon.
    { intros x Hx Hnx. unfold timed_blocks in Hx. rewrite !fmap_cons, !elem_of_cons in Hx.
      destruct Hx as [->|[->|[->|[->|Hx]]]]; [split; vm_compute; discriminate..| |by apply elem_of_nil in Hx].
      exfalso. apply Hnx, elem_of_singleton. reflexivity. }
    rewrite Hpar in Hb. destruct (Hhon b Hb Hn) as [Hb10 _]. split; [lia|].
    destruct Hup as [Hup|(j & L' & b' & Hj & HL' & Hb' & Hn' & Hle)]; [change (log_timestamp empty_log) with 0 in Hup; lia|].
    destruct j as [|j]; [|lia]. injection HL' as <-. rewrite Hpar in Hb'. destruct (Hhon b' Hb' Hn') as [_ Hb30]. lia.
Defined.

Lemma node_steps_keep_log_witness :
  let d := sample_dag 4 60 (full_rounds 3) in
  let b := sample_block 4 1 401 ((λ a, mkBlockRef 3 a (300 + a)) <$> [0; 1; 2; 3]) in
  ∃ d1 d2, accept_block d b = Ret d1 ∧ flush d1 = Ret d2 ∧
    node_ok (sample_context 4 60) (sample_universe 4 60 wide_universe) d2 empty_log.
Proof.
  intros d b.
  assert (∃ d1 d2, accept_block d b = Ret d1 ∧ flush d1 = Ret d2) as (d1 & d2 & H1 & H2).
  { exists (ret_or d (accept_block d b)), (ret_or d (flush (ret_or d (accept_block d b)))).
    split; vm_compute; reflexivity. }
  exists d1, d2. split; [exact H1|]. split; [exact H2|].
  apply (node_steps_keep_log (sample_context 4 60) {[3]} (sample_universe 4 60 wide_universe) d d2 empty_log).
  - exact (sample_bft 4 60 {[3]} wide_universe wide_ok wide_bft).
  - exact (sample_node_ok 4 60 eq_refl (full_rounds 3) wide_universe narrow_ok wide_ok narrow_wide).
  - eapply rtc_l; [|apply rtc_once; apply ns_flush; exact H2].
    apply (ns_accept _ _ _ _ b).
    + vm_compute. reflexivity.
    + split; [split; vm_compute; [discriminate|split; discriminate]|]. split; reflexivity.
    + intros a Ha.
      change (a ∈ [mkBlockRef 3 0 300; mkBlockRef 3 1 301; mkBlockRef 3 2 302; mkBlockRef 3 3 303]) in Ha.
      rewrite !elem_of_cons in Ha.
      destruct Ha as [->|[->|[->|[->|Ha]]]]; [| | | |by apply elem_of_nil in Ha];
        (split; [reflexivity|intros _; apply (bool_decide_eq_true_1 _); vm_compute; reflexivity]).
    + exact H1.
Defined.
