(* ===== verification/BlockVerifier.v ===== *)
(** Block verification (consensus/core/src/block_verifier.rs): the checks a signed block
    passes before it may enter the DAG, the limits on its transactions, and the vote on
    them. The transaction verifier is application code behind a trait: a class here. *)

From stdpp Require Import base tactics numbers list gmap sorting strings.
From S2P Require Import Prelude.
From S2P Require Import Committee.
From S2P Require Import Block.
From S2P Require Import Store.
From S2P Require Import DagState.
From S2P Require Import DagInvariant.
From S2P Require Import BaseCommitter.
From S2P Require Import CommitSafety.

Open Scope N_scope.

(** * Data *)

(** The trait [TransactionVerifier]: a batch passes or fails, or passes with the indices
    of rejected transactions. *)
Class TransactionVerifier := {
  verify_batch : list (list Byte.byte) → bool;
  verify_and_vote_batch : BlockRef → list (list Byte.byte) → option (list N);
}.

Record SignedBlockVerifier := mkSignedBlockVerifier {
  bv_context : Context;
  bv_genesis : gset BlockRef;
}.

(** * Operations *)

Definition data_len (t : list Byte.byte) : N := N.of_nat (length t).

Definition check_transactions (v : SignedBlockVerifier) (batch : list (list Byte.byte))
    : ConsensusResult unit :=
  let config := protocol_config (bv_context v) in
  let max_transaction_size_limit := max_transaction_size_bytes config in
  match for_loop (λ (_ : unit) t,
          if (max_transaction_size_limit <? data_len t) && (0 <? max_transaction_size_limit)
          then inr (TransactionTooLarge (data_len t) max_transaction_size_limit) else inl tt) tt batch with
  | inr e => Err e
  | inl _ =>
      let count := N.of_nat (length batch) in
      let max_num_transactions_limit := max_num_transactions_in_block config in
      if (max_num_transactions_limit <? count) && (0 <? max_num_transactions_limit)
      then Err (TooManyTransactions count max_num_transactions_limit)
      else
        let total_transactions_size_limit := max_transactions_in_block_bytes config in
        if (total_transactions_size_limit <? foldl u64_add 0 (data_len <$> batch))
           && (0 <? total_transactions_size_limit)
        then Err (TooManyTransactionBytes count total_transactions_size_limit)
        else Ok tt
  end.

(** The loop over the ancestors, with the authorities seen and the stake of the parents. *)
Fixpoint check_ancestors (v : SignedBlockVerifier) (block : Block) (i : N) (seen : list bool)
    (parent_stakes : N) (ancestors : list BlockRef) : outcome (ConsensusResult N) :=
  let c := committee (bv_context v) in
  match ancestors with
  | [] => Ret (Ok parent_stakes)
  | ancestor :: ancestors =>
      if negb (is_valid_index c (br_author ancestor)) then
        Ret (Err (InvalidAuthorityIndex (br_author ancestor) (u64_sub (Committee_size c) 1)))
      else if ((i =? 0) && negb (br_author ancestor =? block_author block))
              || ((0 <? i) && (br_author ancestor =? block_author block)) then
        Ret (Err (InvalidAncestorPosition (block_author block) (br_author ancestor) i))
      else if block_round block <=? br_round ancestor then
        Ret (Err (InvalidAncestorRound (br_round ancestor) (block_round block)))
      else if (br_round ancestor =? GENESIS_ROUND) && negb (bool_decide (ancestor ∈ bv_genesis v)) then
        Ret (Err (InvalidGenesisAncestor ancestor))
      else
        already ← vec_get seen (br_author ancestor);
        if already : bool then Ret (Err (DuplicatedAncestorsAuthority (br_author ancestor)))
        else
          seen ← vec_set seen (br_author ancestor) true;
          previous_round ← (if block_round block =? 0 then Panic else Ret (block_round block - 1));
          parent_stakes ← (if br_round ancestor =? previous_round
                           then stake ← Committee_stake c (br_author ancestor);
                                Ret (u64_add parent_stakes stake)
                           else Ret parent_stakes);
          check_ancestors v block (i + 1) seen parent_stakes ancestors
  end.

Section Operations.
Context `{Crypto} `{TransactionVerifier}.

Definition SignedBlockVerifier_new (context : Context) : outcome SignedBlockVerifier :=
  genesis ← genesis_blocks context;
  Ret (mkSignedBlockVerifier context (list_to_set (reference <$> genesis))).

Definition verify_block (v : SignedBlockVerifier) (signed : SignedBlock) : outcome (ConsensusResult unit) :=
  let block := sb_inner signed in
  let c := committee (bv_context v) in
  let quorum := committee_quorum_threshold c in
  let count := N.of_nat (length (block_ancestors block)) in
  if negb (block_epoch block =? committee_epoch c)
  then Ret (Err (WrongEpoch (committee_epoch c) (block_epoch block)))
  else if block_round block =? 0 then Ret (Err UnexpectedGenesisBlock)
  else if negb (is_valid_index c (block_author block))
  then Ret (Err (InvalidAuthorityIndex (block_author block) (u64_sub (Committee_size c) 1)))
  else
    let? _ := verify_signature signed (bv_context v) in
    if Committee_size c <? count then Ret (Err (TooManyAncestors count (Committee_size c)))
    else if bool_decide (block_ancestors block = []) then Ret (Err (InsufficientParentStakes 0 quorum))
    else
      let? parent_stakes := check_ancestors v block 0 (replicate (N.to_nat (Committee_size c)) false) 0
                              (block_ancestors block) in
      if negb (reached_quorum c parent_stakes)
      then Ret (Err (InsufficientParentStakes parent_stakes quorum))
      else Ret (check_transactions v (block_transactions_data block)).

Definition vote (block : VerifiedBlock) : ConsensusResult (list N) :=
  match verify_and_vote_batch (reference block) (block_transactions_data (vb_inner block)) with
  | Some rejected => Ok rejected
  | None => Err InvalidTransaction
  end.

Definition verify_and_vote (v : SignedBlockVerifier) (block : SignedBlock)
    (serialized_block : list Byte.byte) : outcome (ConsensusResult (VerifiedBlock * list N)) :=
  let? _ := verify_block v block in
  let verified_block := new_verified block serialized_block in
  if mysticeti_fastpath (protocol_config (bv_context v)) then
    let? rejected := Ret (vote verified_block) in Ret (Ok (verified_block, rejected))
  else if verify_batch (block_transactions_data (vb_inner verified_block))
  then Ret (Ok (verified_block, []))
  else Ret (Err InvalidTransaction).
End Operations.

(** * Specification *)

(** An ancestor at position [i] that passes the checks on its own. *)
Definition ancestor_ok (v : SignedBlockVerifier) (block : Block) (i : N) (a : BlockRef) : Prop :=
  is_valid_index (committee (bv_context v)) (br_author a) = true ∧
  (i = 0 ↔ br_author a = block_author block) ∧
  br_round a < block_round block ∧ (br_round a = GENESIS_ROUND → a ∈ bv_genesis v).

Definition parent_authors (block : Block) (ancestors : list BlockRef) : gset N :=
  list_to_set (br_author <$> filter (λ a, br_round a + 1 = block_round block) ancestors).

(** What the limits on transactions ask; a limit of zero is no limit. *)
Definition within (limit n : N) : Prop := 0 < limit → n ≤ limit.
Definition transactions_ok (v : SignedBlockVerifier) (batch : list (list Byte.byte)) : Prop :=
  let config := protocol_config (bv_context v) in
  (∀ t, t ∈ batch → within (max_transaction_size_bytes config) (data_len t)) ∧
  within (max_num_transactions_in_block config) (N.of_nat (length batch)) ∧
  within (max_transactions_in_block_bytes config) (nsum (data_len <$> batch)).

Record valid_block `{Crypto} (v : SignedBlockVerifier) (signed : SignedBlock) : Prop := {
  vk_epoch : block_epoch (sb_inner signed) = committee_epoch (committee (bv_context v));
  vk_round : 0 < block_round (sb_inner signed);
  vk_author : is_valid_index (committee (bv_context v)) (block_author (sb_inner signed)) = true;
  vk_signature : verify_signature signed (bv_context v) = Ret (Ok tt);
  vk_ancestors : ∀ i a, block_ancestors (sb_inner signed) !! i = Some a →
    ancestor_ok v (sb_inner signed) (N.of_nat i) a;
  vk_unique : NoDup (br_author <$> block_ancestors (sb_inner signed));
  vk_quorum : reached_quorum (committee (bv_context v)) (weight (committee (bv_context v))
    (parent_authors (sb_inner signed) (block_ancestors (sb_inner signed)))) = true;
  vk_transactions : transactions_ok v (block_transactions_data (sb_inner signed));
}.

(** What validity asks of the block that is signed. *)
Record valid_content (v : SignedBlockVerifier) (block : Block) : Prop := {
  vn_epoch : block_epoch block = committee_epoch (committee (bv_context v));
  vn_round : 0 < block_round block;
  vn_author : is_valid_index (committee (bv_context v)) (block_author block) = true;
  vn_ancestors : ∀ i a, block_ancestors block !! i = Some a → ancestor_ok v block (N.of_nat i) a;
  vn_unique : NoDup (br_author <$> block_ancestors block);
  vn_quorum : reached_quorum (committee (bv_context v))
    (weight (committee (bv_context v)) (parent_authors block (block_ancestors block))) = true;
  vn_transactions : transactions_ok v (block_transactions_data block);
}.

(** * Signatures *)

Section Signatures.
Context `{Crypto}.

(** What the signature of a block signs: the digest of its encoding, under the intent of
    consensus blocks. *)
Definition block_message (block : Block) (message : list Byte.byte) : Prop :=
  ∃ bytes, bcs_block block = Some bytes ∧ bcs_intent (mkIntentMessage 8 0 2 (hash bytes)) = Some message.

(** The key verifies what the key pair signs. *)
Definition verifies_own (key keypair : list Byte.byte) : Prop :=
  ∀ message, ∃ sig, signature_from_bytes (sign keypair message) = Some sig ∧ signature_verify key message sig = true.

(** A signature that the key verifies is for a block that the holder of the key has signed. *)
Definition unforged (key : list Byte.byte) (signed : Block → Prop) (signature : list Byte.byte) : Prop :=
  ∀ message sig, signature_from_bytes signature = Some sig → signature_verify key message sig = true →
    ∃ block, signed block ∧ block_message block message.

(** Encodings are injective, and a block collides with none of those that were signed. *)
Record collision_free (signed : Block → Prop) (block : Block) : Prop := {
  cf_intent : ∀ i i' message, bcs_intent i = Some message → bcs_intent i' = Some message → i = i';
  cf_block : ∀ b b' bytes, bcs_block b = Some bytes → bcs_block b' = Some bytes → b = b';
  cf_hash : ∀ b bytes bytes', signed b → bcs_block b = Some bytes → bcs_block block = Some bytes' →
    hash bytes = hash bytes' → bytes = bytes';
}.

Lemma compute_block_signature_spec block keypair signature :
  compute_block_signature block keypair = Ok signature ↔ ∃ message, block_message block message ∧ signature = sign keypair message.
Proof.
  unfold compute_block_signature, compute_inner_block_digest, block_message, to_consensus_block_intent.
  destruct (bcs_block block) as [bytes|]; [|naive_solver]. destruct (bcs_intent _) eqn:Hi; naive_solver.
Qed.

Lemma verify_block_signature_spec block signature key :
  verify_block_signature block signature key = Ok tt ↔
  ∃ message sig, block_message block message ∧ signature_from_bytes signature = Some sig ∧ signature_verify key message sig = true.
Proof.
  unfold verify_block_signature, compute_inner_block_digest, block_message, to_consensus_block_intent.
  destruct (bcs_block block) as [bytes|]; [|naive_solver]. destruct (bcs_intent _) as [message|] eqn:Hi.
  2: { split; [done|]. intros (m & sig & (bytes' & [= <-] & Hm) & _). congruence. }
  destruct (signature_from_bytes signature) as [sig|]; [|naive_solver]. destruct (signature_verify _ _ _) eqn:Hv.
  - split; [|done]. intros _. by eexists _, sig; split; [eexists|].
  - split; [done|]. intros (m & sig' & (bytes' & [= <-] & Hm) & [= <-] & Hok). congruence.
Qed.

(** A message is that of one block. *)
Lemma message_binds signed block b message :
  collision_free signed block → signed b → block_message b message → block_message block message → b = block.
Proof.
  intros [Hi Hb Hh] Hs (bytes & He & Hm) (bytes' & He' & Hm'). pose proof (Hi _ _ _ Hm Hm') as [= Heq].
  rewrite (Hh b bytes bytes' Hs He He' Heq) in He. by apply (Hb _ _ bytes').
Qed.

Lemma own_signature_verifies context block keypair signed authority :
  verifies_own (authority_protocol_key authority) keypair →
  Committee_authority (committee context) (block_author block) = Ret authority →
  SignedBlock_new block keypair = Ok signed →
  sb_inner signed = block ∧ verify_signature signed context = Ret (Ok tt).
Proof.
  intros Hscheme Hauth Hsign. unfold SignedBlock_new in Hsign.
  destruct (compute_block_signature block keypair) as [signature|] eqn:Hsig; [|done]. injection Hsign as <-.
  apply compute_block_signature_spec in Hsig as (message & Hm & ->).
  split; [done|]. unfold verify_signature. cbn [sb_inner sb_signature].
  assert (is_valid_index (committee context) (block_author block) = true) as ->.
  { unfold Committee_authority, vec_get in Hauth. apply expect_Ret, lookup_lt_Some in Hauth.
    unfold is_valid_index, Committee_size. apply bool_decide_eq_true. lia. }
  rewrite Hauth. cbn [mbind outcome_bind]. f_equal. apply verify_block_signature_spec.
  destruct (Hscheme message) as (sig & Hs & Hv). by exists message, sig.
Qed.
End Signatures.

(** * Lemmas *)

Lemma valid_block_content `{Crypto} v signed :
  valid_block v signed ↔ valid_content v (sb_inner signed) ∧ verify_signature signed (bv_context v) = Ret (Ok tt).
Proof. split; [intros []; split; [by split|done]|intros [[] ?]; by split]. Qed.

Lemma over_limit limit n : (limit <? n) && (0 <? limit) = false ↔ within limit n.
Proof. unfold within. rewrite andb_false_iff, N.ltb_ge, N.ltb_ge. lia. Qed.

Lemma for_loop_check {A R} (bad : A → bool) (err : A → R) l :
  match for_loop (λ (_ : unit) x, if bad x then inr (err x) else inl tt) tt l with
  | inl _ => ∀ x, x ∈ l → bad x = false
  | inr r => ∃ x, x ∈ l ∧ bad x = true ∧ r = err x
  end.
Proof.
  induction l as [|x l IH]; simpl; [by intros x ?%elem_of_nil|].
  destruct (bad x) eqn:Hx; [exists x; split; [apply list_elem_of_here|done]|].
  destruct (for_loop _ tt l) as [u|r].
  - intros y [->|Hy]%elem_of_cons; [done|by apply IH].
  - destruct IH as (y & Hy & ?). exists y. split; [by apply list_elem_of_further|done].
Qed.

Lemma check_transactions_spec v batch :
  nsum (data_len <$> batch) < 2 ^ 64 →
  check_transactions v batch = Ok tt ↔ transactions_ok v batch.
Proof.
  intros Hmax. unfold check_transactions, transactions_ok. cbv zeta.
  set (limit := max_transaction_size_bytes _).
  pose proof (for_loop_check (λ t, (limit <? data_len t) && (0 <? limit))
    (λ t, TransactionTooLarge (data_len t) limit) batch) as Hloop. cbv beta in Hloop.
  destruct (for_loop _ tt batch) as [u|e].
  2: { split; [done|]. intros [Hall _]. destruct Hloop as (t & Ht & Hbad & _).
       specialize (Hall t Ht). apply over_limit in Hall. congruence. }
  assert (∀ t, t ∈ batch → within limit (data_len t)) as Hall
    by (intros t Ht; apply over_limit; by apply Hloop).
  rewrite foldl_u64_add, N.add_0_l by lia.
  destruct ((_ <? N.of_nat (length batch)) && _) eqn:Hnum.
  { split; [done|]. intros (_ & Hn & _). apply over_limit in Hn. congruence. }
  destruct ((_ <? nsum _) && _) eqn:Hbytes.
  { split; [done|]. intros (_ & _ & Hn). apply over_limit in Hn. congruence. }
  split; [|done]. intros _. split; [done|]. split; by apply over_limit.
Qed.

(** The authorities seen so far, as the vector of flags. *)
Definition seen_repr (c : Committee) (seen : list bool) (A : gset N) : Prop :=
  N.of_nat (length seen) = Committee_size c ∧
  ∀ i b, seen !! N.to_nat i = Some b → b = bool_decide (i ∈ A).

Lemma seen_get c seen A i :
  seen_repr c seen A → is_valid_index c i = true → vec_get seen i = Ret (bool_decide (i ∈ A)).
Proof.
  intros [Hl Hs] Hi. unfold is_valid_index in Hi. apply bool_decide_eq_true in Hi.
  destruct (lookup_lt_is_Some_2 seen (N.to_nat i)) as [b Hb]; [lia|].
  unfold vec_get. rewrite Hb. by rewrite (Hs i b Hb).
Qed.

Lemma seen_set c seen A i :
  seen_repr c seen A → is_valid_index c i = true →
  ∃ seen', vec_set seen i true = Ret seen' ∧ seen_repr c seen' ({[i]} ∪ A).
Proof.
  intros [Hl Hs] Hi. unfold is_valid_index in Hi. apply bool_decide_eq_true in Hi.
  unfold vec_set. rewrite decide_True by lia. eexists. split; [done|].
  split; [by rewrite length_insert|]. intros j b Hj.
  destruct (decide (i = j)) as [->|Hne].
  - rewrite list_lookup_insert_eq in Hj by lia. simplify_eq. by rewrite bool_decide_true by set_solver.
  - rewrite list_lookup_insert_ne in Hj by lia. rewrite (Hs j b Hj). apply bool_decide_ext. set_solver.
Qed.

Lemma seen_init c : seen_repr c (replicate (N.to_nat (Committee_size c)) false) ∅.
Proof.
  split; [rewrite length_replicate; lia|]. intros i b [-> _]%lookup_replicate.
  by rewrite bool_decide_false by set_solver.
Qed.

(** The branch returns an error, and the block cannot be valid. *)
Local Ltac reject := eexists; split; [reflexivity|split; [done|intros Hv; exfalso]].

Lemma weight_empty c : weight c ∅ = 0.
Proof. unfold weight. apply set_sum_empty. Qed.

Section Check.
Context (v : SignedBlockVerifier) (block : Block).
Let c := committee (bv_context v).
Context (Hc : committee_wf c) (Hround : 0 < block_round block).

(** Where the loop may continue: the checks pass from position [i] on, for authorities
    not seen before. *)
Definition rest_ok (i : N) (A : gset N) (ancestors : list BlockRef) : Prop :=
  (∀ k a, ancestors !! k = Some a → ancestor_ok v block (i + N.of_nat k) a) ∧
  NoDup (br_author <$> ancestors) ∧ ∀ a, a ∈ ancestors → br_author a ∉ A.

Lemma rest_ok_cons i A a ancestors :
  rest_ok i A (a :: ancestors) ↔
  ancestor_ok v block i a ∧ (br_author a ∉ A) ∧ rest_ok (i + 1) ({[br_author a]} ∪ A) ancestors.
Proof.
  unfold rest_ok. csimpl. rewrite NoDup_cons. split.
  - intros (Hok & (Hn & Hnd) & HA). split; [specialize (Hok 0%nat a eq_refl); by rewrite N.add_0_r in Hok|].
    split; [apply HA, list_elem_of_here|]. split; [|split; [done|]].
    + intros k b Hb. specialize (Hok (S k) b Hb).
      by replace (i + 1 + N.of_nat k) with (i + N.of_nat (S k)) by lia.
    + intros b Hb. rewrite elem_of_union, elem_of_singleton. intros [Heq|Hin].
      * apply Hn. rewrite <- Heq. apply list_elem_of_fmap. by exists b.
      * by apply (HA b); [apply list_elem_of_further|].
  - intros (Hok & Hn & Hrest & Hnd & HA). split; [|split; [split; [|done]|]].
    + intros [|k] b Hb; simpl in Hb; simplify_eq; [by rewrite N.add_0_r|].
      replace (i + N.of_nat (S k)) with (i + 1 + N.of_nat k) by lia. by apply Hrest.
    + intros (b & Heq & Hb)%list_elem_of_fmap. apply (HA b Hb). set_solver.
    + intros b [->|Hb]%elem_of_cons; [done|]. specialize (HA b Hb). set_solver.
Qed.

Lemma position_guard i a :
  ((i =? 0) && negb (br_author a =? block_author block))
    || ((0 <? i) && (br_author a =? block_author block)) = false ↔
  (i = 0 ↔ br_author a = block_author block).
Proof.
  destruct (N.eqb_spec i 0), (N.ltb_spec 0 i), (N.eqb_spec (br_author a) (block_author block));
    simpl; split; intros; try done; lia || tauto.
Qed.

(** What the loop does after the checks on the ancestor itself. *)
Definition check_tail (i : N) (seen : list bool) (stakes : N) (a : BlockRef) (ancestors : list BlockRef)
    : outcome (ConsensusResult N) :=
  already ← vec_get seen (br_author a);
  if already : bool then Ret (Err (DuplicatedAncestorsAuthority (br_author a)))
  else
    seen ← vec_set seen (br_author a) true;
    previous_round ← (if block_round block =? 0 then Panic else Ret (block_round block - 1));
    stakes ← (if br_round a =? previous_round
              then stake ← Committee_stake c (br_author a); Ret (u64_add stakes stake)
              else Ret stakes);
    check_ancestors v block (i + 1) seen stakes ancestors.

Lemma check_head i seen stakes a ancestors :
  (ancestor_ok v block i a ∧
   check_ancestors v block i seen stakes (a :: ancestors) = check_tail i seen stakes a ancestors) ∨
  (¬ ancestor_ok v block i a ∧
   ∃ e, check_ancestors v block i seen stakes (a :: ancestors) = Ret (Err e)).
Proof.
  unfold ancestor_ok. fold c. cbn [check_ancestors]. fold c.
  destruct (is_valid_index c (br_author a)); cbn [negb]; [|right; split; [naive_solver|by eexists]].
  pose proof (position_guard i a) as Hpos. destruct (_ || _).
  { right. split; [|by eexists]. intros (_ & Hp & _). by apply Hpos in Hp. }
  destruct (N.leb_spec (block_round block) (br_round a)) as [Hr|Hr].
  { right. split; [|by eexists]. intros (_ & _ & Hlt & _). lia. }
  destruct (N.eqb_spec (br_round a) GENESIS_ROUND) as [Hg|Hg]; cbn [andb].
  2: { left. split; [|done]. split; [done|]. split; [by apply Hpos|done]. }
  destruct (decide (a ∈ bv_genesis v)) as [Hin|Hin];
    [rewrite bool_decide_true by done|rewrite bool_decide_false by done]; cbn [negb].
  - left. split; [|done]. split; [done|]. split; [by apply Hpos|done].
  - right. split; [|by eexists]. intros (_ & _ & _ & Hgen). by apply Hin, Hgen.
Qed.

Lemma parent_authors_cons a ancestors :
  parent_authors block (a :: ancestors) =
  (if decide (br_round a + 1 = block_round block) then {[br_author a]} else ∅) ∪ parent_authors block ancestors.
Proof. unfold parent_authors. rewrite filter_cons. case_decide; csimpl; set_solver. Qed.

Lemma check_ancestors_spec ancestors i seen A P :
  seen_repr c seen A → P ⊆ A →
  ∃ res, check_ancestors v block i seen (weight c P) ancestors = Ret res ∧
    ∀ s, res = Ok s ↔ rest_ok i A ancestors ∧ s = weight c (P ∪ parent_authors block ancestors).
Proof.
  revert i seen A P. induction ancestors as [|a ancestors IH]; intros i seen A P Hseen HP.
  { exists (Ok (weight c P)). split; [done|]. intros s.
    replace (P ∪ parent_authors block []) with P by (unfold parent_authors; set_solver).
    split; [intros [= <-]|intros [_ ->]]; [|done]. split; [|done].
    split; [done|]. split; [constructor|]. by intros a ?%elem_of_nil. }
  setoid_rewrite rest_ok_cons.
  destruct (check_head i seen (weight c P) a ancestors) as [[Hok ->]|[Hbad [e ->]]].
  2: { exists (Err e). split; [done|]. intros s. split; [done|]. by intros [[? _] _]. }
  pose proof Hok as (Hval & _ & Hlt & _). fold c in Hval. unfold check_tail.
  rewrite (seen_get c seen A (br_author a) Hseen Hval). cbn [mbind outcome_bind].
  destruct (decide (br_author a ∈ A)) as [HA|HA];
    [rewrite bool_decide_true by done|rewrite bool_decide_false by done].
  { eexists. split; [done|]. intros s. split; [done|]. by intros [(_ & ? & _) _]. }
  destruct (seen_set c seen A (br_author a) Hseen Hval) as (seen' & -> & Hseen'). cbn [mbind outcome_bind].
  rewrite (proj2 (N.eqb_neq (block_round block) 0)) by lia. cbn [mbind outcome_bind].
  set (new := if decide (br_round a + 1 = block_round block) then {[br_author a]} else ∅ : gset N).
  assert ((if br_round a =? block_round block - 1
           then stake ← Committee_stake c (br_author a); Ret (u64_add (weight c P) stake)
           else Ret (weight c P)) = Ret (weight c (new ∪ P))) as ->.
  { unfold new. destruct (N.eqb_spec (br_round a) (block_round block - 1)) as [He|He].
    - rewrite decide_True by lia. rewrite Committee_stake_valid by done. cbn [mbind outcome_bind].
      assert (weight c ({[br_author a]} ∪ P) = stake_of c (br_author a) + weight c P) as Hw
        by (unfold weight; rewrite set_sum_insert by set_solver; done).
      pose proof (weight_bound c Hc ({[br_author a]} ∪ P)). f_equal. rewrite u64_add_small by lia. lia.
    - rewrite decide_False by lia. by rewrite union_empty_l_L. }
  cbn [mbind outcome_bind].
  destruct (IH (i + 1) seen' ({[br_author a]} ∪ A) (new ∪ P) Hseen') as (res & -> & Hres).
  { unfold new. case_decide; set_solver. }
  exists res. split; [done|]. intros s. rewrite Hres, parent_authors_cons. fold new.
  replace (new ∪ P ∪ parent_authors block ancestors) with (P ∪ (new ∪ parent_authors block ancestors))
    by set_solver. tauto.
Qed.
End Check.

Lemma unique_members_length c (l : list N) :
  NoDup l → (∀ i, i ∈ l → is_valid_index c i = true) → N.of_nat (length l) ≤ Committee_size c.
Proof.
  intros Hnd Hv. unfold Committee_size.
  enough (length l ≤ length (N.of_nat <$> seq 0 (length (committee_authorities c))))%nat
    by (rewrite length_fmap, length_seq in *; lia).
  apply submseteq_length, NoDup_submseteq; [done|]. intros i Hi%Hv.
  unfold is_valid_index, Committee_size in Hi. apply bool_decide_eq_true in Hi.
  apply list_elem_of_fmap. exists (N.to_nat i). rewrite elem_of_seq. lia.
Qed.

Section Verify.
Context `{Crypto} (v : SignedBlockVerifier) (signed : SignedBlock).
Let c := committee (bv_context v).
Let block := sb_inner signed.
Context (Hc : committee_wf c).

Lemma valid_block_count :
  valid_block v signed → N.of_nat (length (block_ancestors block)) ≤ Committee_size c ∧
    block_ancestors block ≠ [].
Proof.
  intros Hv. split.
  - rewrite <- (length_fmap br_author). apply unique_members_length; [apply Hv|].
    intros i (a & -> & [k Hk]%list_elem_of_lookup)%list_elem_of_fmap. by apply (vk_ancestors v signed Hv k).
  - intros Hnil. pose proof (vk_quorum v signed Hv) as Hq. fold c block in Hq. rewrite Hnil in Hq.
    change (parent_authors block []) with (∅ : gset N) in Hq. by rewrite (quorum_empty c Hc) in Hq.
Qed.

(** Verification decides validity, without panics. *)
Lemma verify_block_spec :
  nsum (data_len <$> block_transactions_data block) < 2 ^ 64 →
  ∃ res, verify_block v signed = Ret res ∧ (res = Ok tt ↔ valid_block v signed).
Proof.
  intros Hmax. unfold verify_block. fold c block.
  destruct (N.eqb_spec (block_epoch block) (committee_epoch c)) as [He|He]; cbn [negb].
  2: { reject. by apply He, Hv. }
  destruct (N.eqb_spec (block_round block) 0) as [Hr|Hr].
  { reject. pose proof (vk_round v signed Hv) as Hr'. fold block in Hr'. lia. }
  destruct (is_valid_index c (block_author block)) eqn:Ha; cbn [negb].
  2: { reject. pose proof (vk_author v signed Hv) as Ha'. fold block c in Ha'. congruence. }
  assert (∃ r, verify_signature signed (bv_context v) = Ret r) as [r Hsig].
  { unfold verify_signature. fold block c. rewrite Ha. apply Committee_stake_valid in Ha.
    apply bind_Ret in Ha as (auth & -> & _). by eexists. }
  rewrite Hsig. cbn [try_bind mbind outcome_bind]. destruct r as [[]|e].
  2: { reject. pose proof (vk_signature v signed Hv). congruence. }
  destruct (N.ltb_spec (Committee_size c) (N.of_nat (length (block_ancestors block)))) as [Hn|Hn].
  { reject. apply valid_block_count in Hv. lia. }
  destruct (decide (block_ancestors block = [])) as [Hnil|Hnil];
    [rewrite bool_decide_true by done|rewrite bool_decide_false by done].
  { reject. by apply valid_block_count in Hv as [_ ?]. }
  destruct (check_ancestors_spec v block Hc ltac:(lia) (block_ancestors block) 0 _ ∅ ∅ (seen_init c)
    ltac:(done)) as (res & Hcheck & Hres).
  rewrite weight_empty in Hcheck. rewrite Hcheck. cbn [try_bind mbind outcome_bind].
  rewrite union_empty_l_L in Hres.
  assert (valid_block v signed → rest_ok v block 0 ∅ (block_ancestors block)) as Hrest.
  { intros Hv. split; [|split; [apply Hv|set_solver]]. intros k a Hk.
    rewrite N.add_0_l. by apply (vk_ancestors v signed Hv). }
  destruct res as [stakes|e].
  2: { reject. discriminate (proj2 (Hres _) (conj (Hrest Hv) eq_refl)). }
  destruct (proj1 (Hres stakes) eq_refl) as [Hok ->].
  destruct (reached_quorum c _) eqn:Hq; cbn [negb].
  2: { reject. exact (eq_true_false_abs _ (vk_quorum v signed Hv) Hq). }
  eexists. split; [done|]. rewrite check_transactions_spec by done.
  split; [|apply vk_transactions]. intros Ht. destruct Hok as (Hanc & Hnd & _).
  split; try done. fold block. lia.
Qed.
End Verify.

(** * Properties *)

(** C16. Block verification decides validity: for a well-formed committee it returns without
    panicking, and it accepts a signed block exactly when the block is of this epoch, above
    round zero, by a member and signed by it; its first ancestor, and no other, is by its own
    author; ancestors are by distinct members, of lower rounds, genesis ones known; those of
    the previous round hold a quorum of stake; and its transactions are within the limits. *)
Theorem verify_block_exact `{Crypto} v signed :
  committee_wf (committee (bv_context v)) →
  nsum (data_len <$> block_transactions_data (sb_inner signed)) < 2 ^ 64 →
  ∃ res, verify_block v signed = Ret res ∧ (res = Ok tt ↔ valid_block v signed).
Proof. intros Hc Hmax. by apply verify_block_spec. Qed.

(** C23. What verification hands to the rest of the system: a block it returns is the signed
    block with the digest of the received bytes, is acceptable to the DAG state, has a quorum
    of parents, names each authority at most once among ancestors of lower rounds, and links
    in round zero to genesis blocks of this epoch only. These are the facts the DAG, the commit
    rule and the linearizer assume of blocks. *)
Theorem verified_block_guarantees `{Crypto} `{TransactionVerifier} context v signed bytes b rejected
    {S} (d : DagState S) :
  SignedBlockVerifier_new context = Ret v → committee_wf (committee context) →
  dag_committee d = committee context →
  nsum (data_len <$> block_transactions_data (sb_inner signed)) < 2 ^ 64 →
  block_round (sb_inner signed) ≤ u32_max → hash bytes ≤ Digest_MAX →
  verify_and_vote v signed bytes = Ret (Ok (b, rejected)) →
  vb_block b = signed ∧ vb_digest b = hash bytes ∧ vb_serialized b = bytes ∧
  acceptable d b ∧ quorum_parents (committee context) b ∧ NoDup (br_author <$> vb_ancestors b) ∧
  ∀ a, a ∈ vb_ancestors b → br_round a < vb_round b ∧
    is_valid_index (committee context) (br_author a) = true ∧
    (br_round a = GENESIS_ROUND → ∃ g gs, genesis_blocks context = Ret gs ∧ g ∈ gs ∧ reference g = a).
Proof.
  intros Hnew Hc Hd Hmax Hround Hhash Hrun.
  apply bind_Ret in Hnew as (genesis & Hgen & [= <-]). set (v := mkSignedBlockVerifier _ _) in *.
  destruct (verify_block_spec v signed Hc Hmax) as (res & Hver & Hres).
  unfold verify_and_vote in Hrun. rewrite Hver in Hrun. cbn [try_bind mbind outcome_bind] in Hrun.
  destruct res as [[]|]; [|done]. pose proof (proj1 Hres eq_refl) as Hv.
  assert (b = new_verified signed bytes) as ->.
  { destruct (mysticeti_fastpath _).
    - cbn [try_bind mbind outcome_bind] in Hrun. by destruct (vote _); simplify_eq/=.
    - by destruct (verify_batch _); simplify_eq/=. }
  destruct Hv as [_ Hr Ha _ Hanc Hu Hq _].
  split; [done|]. split; [done|]. split; [done|]. split; [|split; [done|split; [done|]]].
  - split; [|split; [done|]].
    + split; [done|]. split; [|done]. simpl. unfold vb_author, vb_inner. simpl.
      unfold is_valid_index in Ha. apply bool_decide_eq_true in Ha.
      pose proof (wf_size _ Hc) as Hsz. simpl in Ha. unfold AuthorityIndex_MAX. simpl. lia.
    + by rewrite Hd.
  - intros a [i Hi]%list_elem_of_lookup. destruct (Hanc i a Hi) as (Hval & _ & Hlt & Hg).
    split; [done|]. split; [done|]. intros Hz. specialize (Hg Hz). simpl in Hg.
    apply elem_of_list_to_set, list_elem_of_fmap in Hg as (g & -> & Hin). by exists g, genesis.
Qed.

(** C24. A signature is for one block: what an authority signs with its key pair is accepted by
    every verifier of the epoch exactly when the content of the block is valid; and a block that
    verification accepts, with whatever signature, is one that its author has signed, as long as
    signatures are not forged and digests do not collide. *)
Theorem signature_binds_block `{Crypto} v block keypair authority signed_by_author :
  committee_wf (committee (bv_context v)) → nsum (data_len <$> block_transactions_data block) < 2 ^ 64 →
  Committee_authority (committee (bv_context v)) (block_author block) = Ret authority →
  verifies_own (authority_protocol_key authority) keypair → collision_free signed_by_author block →
  (∀ signed, SignedBlock_new block keypair = Ok signed →
     ∃ res, verify_block v signed = Ret res ∧ (res = Ok tt ↔ valid_content v block)) ∧
  (∀ signature, unforged (authority_protocol_key authority) signed_by_author signature →
     verify_block v (mkSignedBlock block signature) = Ret (Ok tt) → signed_by_author block).
Proof.
  intros Hc Hmax Hauth Hown Hfree. split.
  - intros signed Hnew. destruct (own_signature_verifies _ _ _ _ _ Hown Hauth Hnew) as [Hin Hsig].
    destruct (verify_block_spec v signed Hc) as (res & Hrun & Hres); [by rewrite Hin|].
    exists res. split; [done|]. rewrite Hres, valid_block_content, Hin. tauto.
  - intros signature Hforge Hrun. destruct (verify_block_spec v (mkSignedBlock block signature) Hc Hmax) as (res & Hrun' & Hres).
    rewrite Hrun in Hrun'. injection Hrun' as <-. pose proof (proj1 Hres eq_refl) as Hv. apply vk_signature in Hv.
    unfold verify_signature in Hv. cbn [sb_inner sb_signature] in Hv. destruct (is_valid_index _ _); [|done].
    rewrite Hauth in Hv. cbn [mbind outcome_bind] in Hv. injection Hv as Hv.
    apply verify_block_signature_spec in Hv as (message & sig & Hm & Hs & Hok).
    destruct (Hforge message sig Hs Hok) as (b & Hb & Hm'). by rewrite <- (message_binds _ _ _ _ Hfree Hb Hm' Hm).
Qed.

(** When a block exceeds the limit on the total size of its transactions, the error
    reports the number of transactions as the size: two transactions of eight bytes against a
    limit of ten give size two, within the limit. *)
Theorem transaction_bytes_error_reports_count :
  let config := mkProtocolConfig false false (Some 1) 60 20 1000 10 10 in
  let v := mkSignedBlockVerifier (mkContext 0 0 (sample_committee 4) Parameters_default config) ∅ in
  let t := replicate 8 Byte.x00 in
  nsum (data_len <$> [t; t]) = 16 ∧ check_transactions v [t; t] = Err (TooManyTransactionBytes 2 10).
Proof. split; reflexivity. Qed.

(** * Witnesses *)

(** A round-one block that links all genesis blocks, its own first. *)
Definition sample_verifier `{Crypto} (context : Context) : SignedBlockVerifier :=
  match SignedBlockVerifier_new context with Ret v => v | Panic => mkSignedBlockVerifier context ∅ end.

Definition sample_signed : SignedBlock :=
  let refs := match @genesis_blocks sample_crypto (sample_context 4 60) with
              | Ret gs => reference <$> gs | Panic => [] end in
  mkSignedBlock (V1 (mkBlockV1 0 1 0 0 refs [mkTransaction [Byte.x01]] [] [])) [].

Definition accept_all : TransactionVerifier :=
  {| verify_batch := λ _, true; verify_and_vote_batch := λ _ _, Some [] |}.

Lemma verify_block_exact_witness :
  let v := @sample_verifier sample_crypto (sample_context 4 60) in
  @verify_block sample_crypto v sample_signed = Ret (Ok tt) ∧ @valid_block sample_crypto v sample_signed.
Proof.
  intros v.
  destruct (@verify_block_exact sample_crypto v sample_signed) as (res & Hrun & Hiff).
  - apply sample_committee_wf. lia.
  - vm_compute. reflexivity.
  - assert (@verify_block sample_crypto v sample_signed = Ret (Ok tt)) as Heval by (vm_compute; reflexivity).
    split; [exact Heval|]. apply Hiff. rewrite Heval in Hrun. injection Hrun as <-. reflexivity.
Defined.

Lemma verified_block_guarantees_witness :
  let v := @sample_verifier sample_crypto (sample_context 4 60) in
  ∃ b rejected, @verify_and_vote sample_crypto accept_all v sample_signed [] = Ret (Ok (b, rejected)) ∧
    quorum_parents (sample_committee 4) b.
Proof.
  intros v.
  destruct (@verify_and_vote sample_crypto accept_all v sample_signed []) as [[[b rejected]|e]|] eqn:Hrun;
    [|vm_compute in Hrun; discriminate..].
  exists b, rejected. split; [reflexivity|].
  apply (@verified_block_guarantees sample_crypto accept_all (sample_context 4 60) v sample_signed []
    b rejected MemStore (sample_dag 4 60 [])).
  - vm_compute. reflexivity.
  - apply sample_committee_wf. lia.
  - reflexivity.
  - vm_compute. reflexivity.
  - vm_compute. discriminate.
  - vm_compute. discriminate.
  - exact Hrun.
Defined.
