(* ===== verification/TransactionConsumer.v ===== *)
(** The submission of transactions and their consumption by block proposals
    (consensus/core/src/transaction.rs): [TransactionClient] checks a batch and queues it,
    [TransactionConsumer] pulls whole batches into the next block and tells each submitter
    where its batch went, and later what became of that block.

    The bounded channel between the two is the queue of the consumer. A oneshot channel is
    the number its sender has; what is sent is recorded in the consumer, in order. *)

From stdpp Require Import base tactics numbers list gmap sorting.
From coqutil Require Import Datatypes.RecordSettersUsingExistingGetters.
From S2P Require Import Prelude.
From S2P Require Import Committee.
From S2P Require Import Block.
From S2P Require Import DagState.
From S2P Require Import DagInvariant.
From S2P Require Import BlockVerifier.

Open Scope N_scope.

(** * Data *)

Definition MAX_PENDING_TRANSACTIONS : nat := Eval vm_compute in N.to_nat 2000.

Record TransactionsGuard := mkTransactionsGuard {
  tg_transactions : list Transaction;
  included_in_block_ack : N;
}.

Inductive BlockStatus :=
| Sequenced (r : BlockRef)
| GarbageCollected (r : BlockRef).

Inductive LimitReached :=
| MaxNumOfTransactions
| MaxBytes
| AllTransactionsIncluded.

(** An acknowledgment: the block, the positions of the batch in it and the channel on which
    the status of the block will be sent. *)
Record Inclusion := mkInclusion {
  inc_ack : N;
  inc_block : BlockRef;
  inc_indices : list N;
  inc_status : N;
}.

Record TransactionConsumer := mkTransactionConsumer {
  tx_receiver : list TransactionsGuard;
  txc_max_transactions_in_block_bytes : N;
  txc_max_num_transactions_in_block : N;
  pending_transactions : option TransactionsGuard;
  block_status_subscribers : gmap BlockRef (list N);
  sent_acks : list Inclusion;
  sent_statuses : list (N * BlockStatus);
  next_status : N;
}.

Definition TransactionConsumer_new (context : Context) : TransactionConsumer :=
  mkTransactionConsumer [] (max_transactions_in_block_bytes (protocol_config context))
    (max_num_transactions_in_block (protocol_config context)) None ∅ [] [] 0.

(** * Consumer *)

Definition u16_of (n : nat) : N := N.of_nat n mod 2 ^ 16.
Definition u16_add (a b : N) : N := (a + b) mod 2 ^ 16.

(** [(start..end).collect()]. *)
Definition index_range (start end_ : N) : list N :=
  (λ k, start + N.of_nat k) <$> seq 0 (N.to_nat (end_ - start)).

Definition guard_bytes (t : TransactionsGuard) : N :=
  foldl u64_add 0 (data_len ∘ transaction_data <$> tg_transactions t).

(** The variables that the closure of [next] captures. *)
Record Pull := mkPull {
  pl_transactions : list Transaction;
  pl_acks : list (N * list N);
  pl_total_bytes : N;
  pl_limit_reached : LimitReached;
}.

Definition handle_txs (c : TransactionConsumer) (p : Pull) (t : TransactionsGuard)
    : Pull * option TransactionsGuard :=
  let transactions_bytes := guard_bytes t in
  let transactions_num := N.of_nat (length (tg_transactions t)) in
  if txc_max_transactions_in_block_bytes c <? u64_add (pl_total_bytes p) transactions_bytes
  then (p <| pl_limit_reached := MaxBytes |>, Some t)
  else if txc_max_num_transactions_in_block c
          <? u64_add (N.of_nat (length (pl_transactions p))) transactions_num
  then (p <| pl_limit_reached := MaxNumOfTransactions |>, Some t)
  else
    let start_idx := u16_of (length (pl_transactions p)) in
    let indices := index_range start_idx (u16_add start_idx (u16_of (length (tg_transactions t)))) in
    (mkPull (pl_transactions p ++ tg_transactions t) (pl_acks p ++ [(included_in_block_ack t, indices)])
       (u64_add (pl_total_bytes p) transactions_bytes) (pl_limit_reached p), None).

(** The [while] loop: it stops on an empty queue or on a batch that does not fit. *)
Fixpoint pull_loop (c : TransactionConsumer) (p : Pull) (queue : list TransactionsGuard)
    : Pull * option TransactionsGuard * list TransactionsGuard :=
  match queue with
  | [] => (p, None, [])
  | t :: queue =>
      match handle_txs c p t with
      | (p, None) => pull_loop c p queue
      | (p, Some t) => (p, Some t, queue)
      end
  end.

(** The transactions, the acknowledgments that the returned closure will send, and the limit
    reached. A pending batch that does not fit an empty block is dropped. *)
Definition next (c : TransactionConsumer)
    : TransactionConsumer * list Transaction * list (N * list N) * LimitReached :=
  let p := mkPull [] [] 0 AllTransactionsIncluded in
  let p := match pending_transactions c with Some t => (handle_txs c p t).1 | None => p end in
  let '(p, pending, queue) := pull_loop c p (tx_receiver c) in
  (c <| pending_transactions := pending |> <| tx_receiver := queue |>,
   pl_transactions p, pl_acks p, pl_limit_reached p).

(** The closure that [next] returns. *)
Definition ack_one (block_ref : BlockRef) (c : TransactionConsumer) (ack : N * list N) : TransactionConsumer :=
  let status := next_status c in
  c <| next_status := status + 1 |>
    <| block_status_subscribers :=
         <[block_ref := default [] (block_status_subscribers c !! block_ref) ++ [status]]>
           (block_status_subscribers c) |>
    <| sent_acks := sent_acks c ++ [mkInclusion ack.1 block_ref ack.2 status] |>.

Definition ack_transactions (c : TransactionConsumer) (acks : list (N * list N)) (block_ref : BlockRef)
    : TransactionConsumer :=
  foldl (ack_one block_ref) c acks.

(** [s.send(status)] for all subscribers of an entry that was removed. *)
Definition send_statuses (c : TransactionConsumer) (block_ref : BlockRef) (subscribers : list N)
    (status : BlockStatus) : TransactionConsumer :=
  c <| block_status_subscribers := delete block_ref (block_status_subscribers c) |>
    <| sent_statuses := sent_statuses c ++ ((λ s, (s, status)) <$> subscribers) |>.

Definition notify_sequenced (c : TransactionConsumer) (block_ref : BlockRef) : TransactionConsumer :=
  match block_status_subscribers c !! block_ref with
  | Some subscribers => send_statuses c block_ref subscribers (Sequenced block_ref)
  | None => c
  end.

(** The [while let] loop on the first entry; every iteration but the last removes one. *)
Fixpoint notify_collected (fuel : nat) (c : TransactionConsumer) (gc_round : N) : TransactionConsumer :=
  match fuel with
  | O => c
  | S fuel =>
      match head (map_iter BlockRef_leb (block_status_subscribers c)) with
      | None => c
      | Some (block_ref, subscribers) =>
          if br_round block_ref <=? gc_round
          then notify_collected fuel
                 (send_statuses c block_ref subscribers (GarbageCollected block_ref)) gc_round
          else c
      end
  end.

Definition notify_own_blocks_status (c : TransactionConsumer) (committed_blocks : list BlockRef)
    (gc_round : N) : TransactionConsumer :=
  let c := foldl notify_sequenced c committed_blocks in
  notify_collected (size (block_status_subscribers c)) c gc_round.

(** * Client *)

Inductive ClientError :=
| ConsensusShuttingDown
| OversizedTransaction (size limit : N)
| OversizedTransactionBundleBytes (size limit : N)
| OversizedTransactionBundleCount (count limit : N).

Record TransactionClient := mkTransactionClient {
  cl_context : Context;
  cl_max_transaction_size : N;
  cl_max_transactions_in_block_bytes : N;
  cl_max_transactions_in_block_count : N;
}.

Definition TransactionClient_new (context : Context) : TransactionClient :=
  mkTransactionClient context (max_transaction_size_bytes (protocol_config context))
    (max_transactions_in_block_bytes (protocol_config context))
    (max_num_transactions_in_block (protocol_config context)).

(** One transaction of the bundle, with the size of the bundle so far. *)
Definition check_size (cl : TransactionClient) (bundle_size : N) (transaction : list Byte.byte)
    : N + ClientError :=
  if cl_max_transaction_size cl <? data_len transaction
  then inr (OversizedTransaction (data_len transaction) (cl_max_transaction_size cl))
  else
    let bundle_size := u64_add bundle_size (data_len transaction) in
    if cl_max_transactions_in_block_bytes cl <? bundle_size
    then inr (OversizedTransactionBundleBytes bundle_size (cl_max_transactions_in_block_bytes cl))
    else inl bundle_size.

(** The batch that is sent on the channel, whose acknowledgment is received on [ack]; [open]
    tells whether the consumer still holds the receiver. The call waits while the channel is
    full. *)
Definition submit_no_wait (cl : TransactionClient) (open : bool) (ack : N)
    (transactions : list (list Byte.byte)) : result TransactionsGuard ClientError :=
  if cl_max_transactions_in_block_count cl <? N.of_nat (length transactions)
  then Err (OversizedTransactionBundleCount (N.of_nat (length transactions))
              (cl_max_transactions_in_block_count cl))
  else
    match for_loop (check_size cl) 0 transactions with
    | inr e => Err e
    | inl _ => if open then Ok (mkTransactionsGuard (mkTransaction <$> transactions) ack)
               else Err ConsensusShuttingDown
    end.

(** * Batches that the client lets through *)

(** The sizes of a batch against the limits of the context. *)
Record batch_ok (ctx : Context) (txs : list Transaction) : Prop := {
  bo_size : ∀ t, t ∈ txs → data_len (transaction_data t) ≤ max_transaction_size_bytes (protocol_config ctx);
  bo_num : N.of_nat (length txs) ≤ max_num_transactions_in_block (protocol_config ctx);
  bo_bytes : nsum (data_len ∘ transaction_data <$> txs) ≤ max_transactions_in_block_bytes (protocol_config ctx);
}.

(** Limits far from the widths they are stored in: positions in a block are [u16]. *)
Definition limits_ok (ctx : Context) : Prop :=
  max_num_transactions_in_block (protocol_config ctx) < 2 ^ 16 ∧
  max_transactions_in_block_bytes (protocol_config ctx) < 2 ^ 63 ∧
  max_transaction_size_bytes (protocol_config ctx) < 2 ^ 63.

Lemma check_sizes_spec ctx txs acc :
  limits_ok ctx → acc ≤ max_transactions_in_block_bytes (protocol_config ctx) →
  for_loop (check_size (TransactionClient_new ctx)) acc txs = inl (acc + nsum (data_len <$> txs)) ∧
    acc + nsum (data_len <$> txs) ≤ max_transactions_in_block_bytes (protocol_config ctx) ∧
    (∀ t, t ∈ txs → data_len t ≤ max_transaction_size_bytes (protocol_config ctx)) ∨
  (∃ e, for_loop (check_size (TransactionClient_new ctx)) acc txs = inr e ∧ e ≠ ConsensusShuttingDown) ∧
    (max_transactions_in_block_bytes (protocol_config ctx) < acc + nsum (data_len <$> txs) ∨
     ∃ t, t ∈ txs ∧ max_transaction_size_bytes (protocol_config ctx) < data_len t).
Proof.
  intros (_ & Hb & Hs). revert acc. induction txs as [|t txs IH]; intros acc Hacc.
  { left. simpl. rewrite N.add_0_r. split; [done|]. split; [done|]. by intros t ?%elem_of_nil. }
  cbn [for_loop fmap list_fmap nsum]. unfold check_size at 1 3. cbn [cl_max_transaction_size
    cl_max_transactions_in_block_bytes TransactionClient_new].
  destruct (N.ltb_spec (max_transaction_size_bytes (protocol_config ctx)) (data_len t)) as [Hl|Hl].
  { right. split; [by eexists|]. right. exists t. split; [apply list_elem_of_here|done]. }
  rewrite u64_add_small by lia.
  destruct (N.ltb_spec (max_transactions_in_block_bytes (protocol_config ctx)) (acc + data_len t)) as [Hn|Hn].
  { right. split; [by eexists|]. left. lia. }
  rewrite N.add_assoc. destruct (IH (acc + data_len t) Hn) as [(Hrun & Hle & Hall)|(He & Hbad)].
  - left. split; [done|]. split; [done|]. intros t' [->|Ht]%elem_of_cons; [done|by apply Hall].
  - right. split; [done|]. destruct Hbad as [?|(t' & ? & ?)]; [by left|].
    right. exists t'. split; [by apply list_elem_of_further|done].
Qed.

Lemma submit_spec ctx open ack txs :
  limits_ok ctx →
  match submit_no_wait (TransactionClient_new ctx) open ack txs with
  | Ok t => open = true ∧ t = mkTransactionsGuard (mkTransaction <$> txs) ack ∧ batch_ok ctx (tg_transactions t)
  | Err ConsensusShuttingDown => open = false ∧ batch_ok ctx (mkTransaction <$> txs)
  | Err _ => ¬ batch_ok ctx (mkTransaction <$> txs)
  end.
Proof.
  intros Hlim. unfold submit_no_wait. cbn [cl_max_transactions_in_block_count TransactionClient_new].
  assert (data_len ∘ transaction_data <$> (mkTransaction <$> txs) = data_len <$> txs) as Hd
    by by rewrite <- list_fmap_compose.
  destruct (N.ltb_spec (max_num_transactions_in_block (protocol_config ctx)) (N.of_nat (length txs))) as [Hn|Hn].
  { intros [_ Hnum _]. rewrite length_fmap in Hnum. lia. }
  destruct (check_sizes_spec ctx txs 0 Hlim) as [(-> & Hle & Hall)|((e & -> & He) & Hbad)]; [lia| |].
  - assert (batch_ok ctx (mkTransaction <$> txs)) as Hok.
    { split; [|by rewrite length_fmap|by rewrite Hd].
      intros t (x & -> & Hx)%list_elem_of_fmap. by apply Hall. }
    by destruct open.
  - assert (¬ batch_ok ctx (mkTransaction <$> txs)) as Hno.
    { intros [Hs _ Hb]. rewrite Hd in Hb. destruct Hbad as [?|(t & Ht & ?)]; [lia|].
      specialize (Hs (mkTransaction t)). cbn [transaction_data] in Hs.
      pose proof (Hs (list_elem_of_fmap_2 _ _ _ Ht)). lia. }
    by destruct e.
Qed.

(** * Batches in blocks *)

Definition batch_bytes (txs : list Transaction) : N := nsum (data_len ∘ transaction_data <$> txs).

Definition contents (gs : list TransactionsGuard) : list Transaction := gs ≫= tg_transactions.

(** Transactions that fit one block. *)
Definition fits (ctx : Context) (txs : list Transaction) : Prop :=
  batch_bytes txs ≤ max_transactions_in_block_bytes (protocol_config ctx) ∧
  N.of_nat (length txs) ≤ max_num_transactions_in_block (protocol_config ctx).

(** The acknowledgments of batches laid out one after the other from position [off]. *)
Fixpoint placed (off : nat) (gs : list TransactionsGuard) : list (N * list N) :=
  match gs with
  | [] => []
  | g :: gs =>
      (included_in_block_ack g,
       index_range (N.of_nat off) (N.of_nat (off + length (tg_transactions g))))
      :: placed (off + length (tg_transactions g)) gs
  end.

Lemma placed_snoc gs g off :
  placed off (gs ++ [g]) = placed off gs ++
    [(included_in_block_ack g, index_range (N.of_nat (off + length (contents gs)))
        (N.of_nat (off + length (contents gs) + length (tg_transactions g))))].
Proof.
  revert off. induction gs as [|x gs IH]; intros off; cbn [app placed].
  - by rewrite Nat.add_0_r.
  - rewrite IH. cbn [app]. unfold contents. cbn [mbind list_bind]. rewrite length_app.
    by rewrite !Nat.add_assoc.
Qed.

Lemma placed_acks gs off : (placed off gs).*1 = included_in_block_ack <$> gs.
Proof. revert off. induction gs as [|g gs IH]; intros off; cbn; [done|by rewrite IH]. Qed.

(** The positions acknowledged to a batch hold its transactions. *)
Lemma index_range_lookup (pre txs post : list Transaction) :
  (λ i : N, (pre ++ txs ++ post) !! N.to_nat i) <$>
    index_range (N.of_nat (length pre)) (N.of_nat (length pre + length txs)) = Some <$> txs.
Proof.
  unfold index_range. rewrite <- list_fmap_compose.
  replace (N.to_nat (N.of_nat (length pre + length txs) - N.of_nat (length pre))) with (length txs) by lia.
  apply list_eq. intros i. rewrite !list_lookup_fmap.
  destruct (decide (i < length txs)%nat) as [Hi|Hi].
  - rewrite lookup_seq_lt by done. destruct (lookup_lt_is_Some_2 txs i Hi) as [t Ht]. cbn [fmap option_fmap].
    rewrite Ht. cbn. f_equal. rewrite lookup_app_r by lia.
    replace (N.to_nat (N.of_nat (length pre) + N.of_nat i) - length pre)%nat with i by lia.
    by rewrite lookup_app_l by lia.
  - rewrite lookup_seq_ge by lia. by rewrite lookup_ge_None_2 by lia.
Qed.

Lemma placed_lookup gs (pre post : list Transaction) k g :
  gs !! k = Some g →
  ∃ indices, placed (length pre) gs !! k = Some (included_in_block_ack g, indices) ∧
    (λ i : N, (pre ++ contents gs ++ post) !! N.to_nat i) <$> indices = Some <$> tg_transactions g.
Proof.
  revert pre k. induction gs as [|x gs IH]; intros pre k Hk; [done|].
  destruct k as [|k]; cbn in Hk.
  - simplify_eq. eexists. split; [done|]. unfold contents. cbn [mbind list_bind].
    rewrite <- app_assoc. apply index_range_lookup.
  - destruct (IH (pre ++ tg_transactions x) k Hk) as (idx & Hp & Hl).
    exists idx. rewrite length_app in Hp. split; [exact Hp|].
    rewrite <- Hl. unfold contents. cbn [mbind list_bind]. by rewrite <- !app_assoc.
Qed.

Lemma guard_bytes_spec t : batch_bytes (tg_transactions t) < 2 ^ 64 → guard_bytes t = batch_bytes (tg_transactions t).
Proof. intros. unfold guard_bytes. by rewrite foldl_u64_add, N.add_0_l. Qed.

Lemma batch_bytes_app l k : batch_bytes (l ++ k) = batch_bytes l + batch_bytes k.
Proof. unfold batch_bytes. by rewrite fmap_app, nsum_app. Qed.

Section Pulls.
Context (ctx : Context) (Hlim : limits_ok ctx).
Implicit Types gs : list TransactionsGuard.

(** The limits of the consumer are those of its context. *)
Definition limits_of (c : TransactionConsumer) : Prop :=
  txc_max_transactions_in_block_bytes c = max_transactions_in_block_bytes (protocol_config ctx) ∧
  txc_max_num_transactions_in_block c = max_num_transactions_in_block (protocol_config ctx).

(** The closure's variables once the batches [gs] are in. *)
Definition pulled gs : Pull :=
  mkPull (contents gs) (placed 0 gs) (batch_bytes (contents gs)) AllTransactionsIncluded.

Lemma contents_snoc gs g : contents (gs ++ [g]) = contents gs ++ tg_transactions g.
Proof. unfold contents. rewrite bind_app. cbn. by rewrite app_nil_r. Qed.

Lemma handle_txs_spec c gs g :
  limits_of c → fits ctx (contents gs) → batch_ok ctx (tg_transactions g) →
  (fits ctx (contents (gs ++ [g])) ∧ handle_txs c (pulled gs) g = (pulled (gs ++ [g]), None)) ∨
  (¬ fits ctx (contents (gs ++ [g])) ∧
   ∃ limit, handle_txs c (pulled gs) g = ((pulled gs) <| pl_limit_reached := limit |>, Some g) ∧
     limit = (if max_transactions_in_block_bytes (protocol_config ctx) <? batch_bytes (contents (gs ++ [g]))
              then MaxBytes else MaxNumOfTransactions)).
Proof.
  intros [Hmb Hmn] [Hfb Hfn] [_ Hn Hb]. destruct Hlim as (Hl1 & Hl2 & _).
  fold (batch_bytes (tg_transactions g)) in Hb. unfold handle_txs, fits. rewrite Hmb, Hmn.
  rewrite contents_snoc, batch_bytes_app, length_app, Nat2N.inj_add.
  rewrite guard_bytes_spec by lia. cbn [pulled pl_total_bytes pl_transactions].
  rewrite !u64_add_small by lia.
  destruct (N.ltb_spec (max_transactions_in_block_bytes (protocol_config ctx))
    (batch_bytes (contents gs) + batch_bytes (tg_transactions g))) as [Ho|Ho].
  { right. split; [lia|]. by eexists. }
  destruct (N.ltb_spec (max_num_transactions_in_block (protocol_config ctx))
    (N.of_nat (length (contents gs)) + N.of_nat (length (tg_transactions g)))) as [Hm|Hm].
  { right. split; [lia|]. by eexists. }
  left. split; [lia|]. unfold pulled. rewrite contents_snoc, placed_snoc, batch_bytes_app, Nat.add_0_l.
  cbn [pl_transactions pl_acks pl_total_bytes pl_limit_reached]. unfold u16_of, u16_add.
  rewrite (N.mod_small (N.of_nat (length (contents gs)))), (N.mod_small (N.of_nat (length (tg_transactions g)))) by lia.
  rewrite N.mod_small by lia. by rewrite Nat2N.inj_add.
Qed.

Lemma contents_app gs ks : contents (gs ++ ks) = contents gs ++ contents ks.
Proof. unfold contents. by rewrite bind_app. Qed.

Lemma pull_loop_spec c gs queue :
  limits_of c → fits ctx (contents gs) → (∀ g, g ∈ queue → batch_ok ctx (tg_transactions g)) →
  ∃ n pending rest limit,
    pull_loop c (pulled gs) queue = ((pulled (gs ++ take n queue)) <| pl_limit_reached := limit |>, pending, rest) ∧
    option_list pending ++ rest = drop n queue ∧ fits ctx (contents (gs ++ take n queue)) ∧
    (n = length queue ∧ limit = AllTransactionsIncluded ∨
     (n < length queue)%nat ∧ ¬ fits ctx (contents (gs ++ take (S n) queue)) ∧
     limit = (if max_transactions_in_block_bytes (protocol_config ctx)
                   <? batch_bytes (contents (gs ++ take (S n) queue))
              then MaxBytes else MaxNumOfTransactions)).
Proof.
  intros Hc. revert gs. induction queue as [|g queue IH]; intros gs Hfit Hok.
  { exists 0%nat, None, [], AllTransactionsIncluded. cbn. rewrite app_nil_r. repeat split; try apply Hfit. by left. }
  cbn [pull_loop].
  destruct (handle_txs_spec c gs g Hc Hfit (Hok g (list_elem_of_here _ _))) as [[Hf ->]|(Hf & limit & -> & Hl)].
  - destruct (IH (gs ++ [g]) Hf) as (n & pending & rest & limit & Hrun & Hrest & Hfits & Hend).
    { intros x Hx. apply Hok. by apply list_elem_of_further. }
    exists (S n), pending, rest, limit. rewrite <- !app_assoc in Hrun, Hfits, Hend.
    cbn [length]. split; [done|]. split; [done|]. split; [done|].
    destruct Hend as [[-> ?]|(? & Hno & ->)]; [by left|right]. split; [lia|by split].
  - exists 0%nat, (Some g), queue, limit. cbn [take]. rewrite app_nil_r. repeat split; try apply Hfit.
    right. cbn [length take]. split; [lia|]. by split.
Qed.

(** What waits to be proposed, oldest first. *)
Definition waiting (c : TransactionConsumer) : list TransactionsGuard :=
  option_list (pending_transactions c) ++ tx_receiver c.

Definition consumer_ok (c : TransactionConsumer) : Prop :=
  limits_of c ∧ ∀ g, g ∈ waiting c → batch_ok ctx (tg_transactions g).

Lemma fits_nil : fits ctx [].
Proof. split; simpl; unfold batch_bytes; simpl; lia. Qed.

Lemma next_spec c :
  consumer_ok c →
  ∃ n c' limit, next c = (c', contents (take n (waiting c)), placed 0 (take n (waiting c)), limit) ∧
    waiting c' = drop n (waiting c) ∧ fits ctx (contents (take n (waiting c))) ∧
    (waiting c ≠ [] → (0 < n)%nat) ∧
    (∃ pending queue, c' = c <| pending_transactions := pending |> <| tx_receiver := queue |>) ∧
    (n = length (waiting c) ∧ limit = AllTransactionsIncluded ∨
     (n < length (waiting c))%nat ∧ ¬ fits ctx (contents (take (S n) (waiting c))) ∧
     limit = (if max_transactions_in_block_bytes (protocol_config ctx)
                   <? batch_bytes (contents (take (S n) (waiting c)))
              then MaxBytes else MaxNumOfTransactions)).
Proof.
  intros [Hc Hok]. unfold next. set (done_ := option_list (pending_transactions c)).
  assert (match pending_transactions c with
          | Some t => (handle_txs c (mkPull [] [] 0 AllTransactionsIncluded) t).1
          | None => mkPull [] [] 0 AllTransactionsIncluded end = pulled done_ ∧ fits ctx (contents done_)) as [-> Hd].
  { unfold done_. destruct (pending_transactions c) as [t|] eqn:Hp; [|by split; [|apply fits_nil]].
    assert (batch_ok ctx (tg_transactions t)) as Ht.
    { apply Hok. unfold waiting. rewrite Hp. apply list_elem_of_here. }
    destruct (handle_txs_spec c [] t Hc fits_nil Ht) as [[Hf Heq]|[Hf _]].
    - change (mkPull [] [] 0 AllTransactionsIncluded) with (pulled []). by rewrite Heq.
    - exfalso. apply Hf. unfold contents. cbn. rewrite app_nil_r. by destruct Ht. }
  destruct (pull_loop_spec c done_ (tx_receiver c) Hc Hd) as (n & pending & rest & limit & -> & Hrest & Hfit & Hend).
  { intros g Hg. apply Hok. unfold waiting. apply elem_of_app. by right. }
  assert (waiting c = done_ ++ tx_receiver c) as Hw by done.
  exists (length done_ + n)%nat. eexists _, limit. rewrite Hw, take_app_add, drop_app_add.
  split; [reflexivity|]. split; [exact Hrest|]. split; [done|]. split; [|split; [by eexists _, _|]].
  - intros Hne. destruct done_ as [|g l]; [|simpl; lia]. cbn [app length] in *.
    destruct Hend as [[-> _]|(_ & Hno & _)].
    + destruct (tx_receiver c); [done|simpl; lia].
    + destruct n as [|n]; [exfalso|simpl; lia]. destruct (tx_receiver c) as [|g q]; [done|].
      apply Hno. cbn [take]. unfold contents. cbn. rewrite app_nil_r.
      destruct (Hok g) as [_ ? ?]; [rewrite Hw; apply list_elem_of_here|]. done.
  - rewrite length_app, <- Nat.add_succ_r, take_app_add.
    destruct Hend as [[-> ?]|(? & ? & ?)]; [by left|right]. split; [lia|done].
Qed.
End Pulls.

(** * The pool over time *)

(** The client and the consumer, with the batches accepted so far and the blocks proposed. *)
Record Pool := mkPool {
  pool_consumer : TransactionConsumer;
  pool_accepted : list TransactionsGuard;
  pool_blocks : list (BlockRef * list Transaction);
}.

Definition Pool_new (ctx : Context) : Pool := mkPool (TransactionConsumer_new ctx) [] [].

(** A proposal pulls the next transactions and acknowledges them once the block is made. *)
Definition propose (p : Pool) (r : BlockRef) : Pool :=
  let '(c, txs, acks, _) := next (pool_consumer p) in
  mkPool (ack_transactions c acks r) (pool_accepted p) (pool_blocks p ++ [(r, txs)]).

(** Submissions, proposals and notifications, in any order. A submission waits for room in
    the channel; its acknowledgment channel is a new one. *)
Inductive pool_step (ctx : Context) (p : Pool) : Pool → Prop :=
| pool_submit txs g :
    submit_no_wait (TransactionClient_new ctx) true (N.of_nat (length (pool_accepted p))) txs = Ok g →
    (length (tx_receiver (pool_consumer p)) < MAX_PENDING_TRANSACTIONS)%nat →
    pool_step ctx p (mkPool ((pool_consumer p) <| tx_receiver := tx_receiver (pool_consumer p) ++ [g] |>)
                       (pool_accepted p ++ [g]) (pool_blocks p))
| pool_propose r : r ∉ (pool_blocks p).*1 → pool_step ctx p (propose p r)
| pool_notify committed_blocks gc_round :
    pool_step ctx p (mkPool (notify_own_blocks_status (pool_consumer p) committed_blocks gc_round)
                       (pool_accepted p) (pool_blocks p)).

(** Who still waits for the status of a block. *)
Definition subscribers (c : TransactionConsumer) (r : BlockRef) : list N :=
  default [] (block_status_subscribers c !! r).

Definition own_status (r : BlockRef) (st : BlockStatus) : Prop := st = Sequenced r ∨ st = GarbageCollected r.

(** Every acknowledgment waits for a status or has got one, for its own block. *)
Record statuses_ok (c : TransactionConsumer) : Prop := {
  so_channels : ∀ k inc, sent_acks c !! k = Some inc → inc_status inc = N.of_nat k;
  so_next : next_status c = N.of_nat (length (sent_acks c));
  so_sent : NoDup (sent_statuses c).*1;
  so_waiting : ∀ r, NoDup (subscribers c r);
  so_exact : ∀ r s, s ∈ subscribers c r ↔
    (s ∉ (sent_statuses c).*1) ∧ ∃ inc, sent_acks c !! N.to_nat s = Some inc ∧ inc_block inc = r;
  so_own : ∀ s st, (s, st) ∈ sent_statuses c →
    ∃ inc, sent_acks c !! N.to_nat s = Some inc ∧ own_status (inc_block inc) st;
}.

Lemma statuses_ack c r ack : statuses_ok c → statuses_ok (ack_one r c ack).
Proof.
  intros [Hch Hnext Hsent Hw Hex Hown].
  assert (∀ k inc, sent_acks c !! k = Some inc → sent_acks (ack_one r c ack) !! k = Some inc) as Hkeep.
  { intros k inc Hk. unfold ack_one. cbn. by rewrite lookup_app_l by (by eapply lookup_lt_Some). }
  assert (sent_acks (ack_one r c ack) !! length (sent_acks c)
          = Some (mkInclusion ack.1 r ack.2 (next_status c))) as Hnew.
  { unfold ack_one. cbn. rewrite lookup_app_r by lia. by rewrite Nat.sub_diag. }
  assert (∀ s, s ∈ (sent_statuses c).*1 → s < next_status c) as Hlt.
  { intros s ([s' st] & -> & Hs)%list_elem_of_fmap. destruct (Hown _ _ Hs) as (inc & Hi & _).
    apply lookup_lt_Some in Hi. cbn. lia. }
  assert (∀ r', subscribers (ack_one r c ack) r' =
    if decide (r = r') then subscribers c r ++ [next_status c] else subscribers c r') as Hsub.
  { intros r'. unfold subscribers, ack_one. cbn. case_decide as Hr; [subst r'|].
    - by rewrite lookup_insert_eq.
    - by rewrite lookup_insert_ne. }
  split.
  - intros k inc Hk. destruct (decide (k < length (sent_acks c))%nat) as [Hl|Hl].
    + apply Hch. unfold ack_one in Hk. cbn in Hk. by rewrite lookup_app_l in Hk by done.
    + assert (k = length (sent_acks c)) as ->.
      { apply lookup_lt_Some in Hk. unfold ack_one in Hk. cbn in Hk. rewrite length_app in Hk. cbn in Hk. lia. }
      rewrite Hnew in Hk. simplify_eq. done.
  - unfold ack_one. cbn. rewrite length_app, Hnext. cbn. lia.
  - exact Hsent.
  - intros r'. rewrite Hsub. case_decide; [|apply Hw]. apply NoDup_app. split; [apply Hw|].
    split; [|apply NoDup_singleton]. intros s Hs ->%list_elem_of_singleton.
    apply Hex in Hs as (_ & inc & Hi & _). apply lookup_lt_Some in Hi. lia.
  - intros r' s. rewrite Hsub. change (sent_statuses (ack_one r c ack)) with (sent_statuses c).
    split.
    + assert (s ∈ subscribers c r' → (s ∉ (sent_statuses c).*1) ∧ ∃ inc,
        sent_acks (ack_one r c ack) !! N.to_nat s = Some inc ∧ inc_block inc = r') as Hold.
      { intros Hs. apply Hex in Hs as (? & inc & Hi & ?). split; [done|]. exists inc. split; [by apply Hkeep|done]. }
      case_decide as Hr; [subst r'|done]. rewrite elem_of_app, list_elem_of_singleton.
      intros [Hs| ->]; [by apply Hold|]. split; [intros ?%Hlt; lia|]. eexists. rewrite Hnext, Nat2N.id, Hnew. by split.
    + intros (Hns & inc & Hi & Hb).
      destruct (decide (N.to_nat s < length (sent_acks c))%nat) as [Hl|Hl].
      * assert (s ∈ subscribers c r') as Hs.
        { apply Hex. split; [done|]. exists inc. split; [|done]. unfold ack_one in Hi. cbn in Hi.
          by rewrite lookup_app_l in Hi by done. }
        case_decide as Hr; [rewrite Hr; apply elem_of_app; left; exact Hs|exact Hs].
      * assert (N.to_nat s = length (sent_acks c)) as Hs.
        { apply lookup_lt_Some in Hi. unfold ack_one in Hi. cbn in Hi. rewrite length_app in Hi. cbn in Hi. lia. }
        rewrite Hs, Hnew in Hi. simplify_eq. cbn [inc_block]. rewrite decide_True by done.
        apply elem_of_app. right. apply list_elem_of_singleton. lia.
  - intros s st Hs. destruct (Hown s st Hs) as (inc & Hi & ?). exists inc. split; [by apply Hkeep|done].
Qed.

Lemma statuses_send c r st :
  statuses_ok c → own_status r st → statuses_ok (send_statuses c r (subscribers c r) st).
Proof.
  intros [Hch Hnext Hsent Hw Hex Hown] Hst.
  set (c' := send_statuses c r (subscribers c r) st).
  assert ((sent_statuses c').*1 = (sent_statuses c).*1 ++ subscribers c r) as Hids.
  { unfold c', send_statuses. cbn. rewrite fmap_app, <- list_fmap_compose. f_equal. by rewrite list_fmap_id. }
  assert (∀ r', subscribers c' r' = if decide (r = r') then [] else subscribers c r') as Hsub.
  { intros r'. unfold c', subscribers, send_statuses. cbn. case_decide as Hr; [subst r'|].
    - by rewrite lookup_delete_eq.
    - by rewrite lookup_delete_ne. }
  split; [exact Hch|exact Hnext| | | |].
  - rewrite Hids. apply NoDup_app. split; [done|]. split; [|apply Hw]. intros s Hs Hr. by apply Hex in Hr as [? _].
  - intros r'. rewrite Hsub. case_decide; [constructor|apply Hw].
  - intros r' s. rewrite Hsub, Hids, elem_of_app. change (sent_acks c') with (sent_acks c).
    case_decide as Hr; [subst r'|].
    + split; [by intros ?%elem_of_nil|]. intros (Hn & Hi). exfalso. apply Hn. right. apply Hex. naive_solver.
    + rewrite Hex. split; [|naive_solver]. intros (? & inc & Hi & Hb). split; [|by exists inc].
      intros [?|Hs]; [done|]. apply Hex in Hs as (_ & inc' & ? & ?). congruence.
  - intros s st'. unfold c', send_statuses. cbn. rewrite elem_of_app, list_elem_of_fmap.
    intros [Hs|(s' & [= -> ->] & Hs)]; [by apply Hown|].
    apply Hex in Hs as (_ & inc & Hi & <-). by exists inc.
Qed.

(** What a notification leaves as it is, and the order in which statuses are sent. *)
Record notified (c c' : TransactionConsumer) : Prop := {
  nf_statuses : statuses_ok c';
  nf_acks : sent_acks c' = sent_acks c;
  nf_pending : pending_transactions c' = pending_transactions c;
  nf_queue : tx_receiver c' = tx_receiver c;
  nf_bytes : txc_max_transactions_in_block_bytes c' = txc_max_transactions_in_block_bytes c;
  nf_num : txc_max_num_transactions_in_block c' = txc_max_num_transactions_in_block c;
  nf_sent : sent_statuses c `prefix_of` sent_statuses c';
}.

Lemma notified_refl c : statuses_ok c → notified c c.
Proof. by split. Qed.

Lemma notified_trans c1 c2 c3 : notified c1 c2 → notified c2 c3 → notified c1 c3.
Proof. intros [] []. split; try congruence. by etrans. Qed.

Lemma send_statuses_spec c r l st :
  statuses_ok c → block_status_subscribers c !! r = Some l → own_status r st →
  notified c (send_statuses c r l st) ∧
  (∀ s, s ∈ subscribers c r → (s, st) ∈ sent_statuses (send_statuses c r l st)) ∧
  block_status_subscribers (send_statuses c r l st) = delete r (block_status_subscribers c).
Proof.
  intros Hc Hl Hst. assert (l = subscribers c r) as -> by (unfold subscribers; by rewrite Hl).
  split; [|split; [|done]].
  - split; try done; [by apply statuses_send|]. unfold send_statuses. cbn. by apply prefix_app_r.
  - intros s Hs. unfold send_statuses. cbn. apply elem_of_app. right.
    apply list_elem_of_fmap. by exists s.
Qed.

Lemma notify_sequenced_spec committed c :
  statuses_ok c →
  let c' := foldl notify_sequenced c committed in
  notified c c' ∧
  (∀ r, block_status_subscribers c' !! r =
     if decide (r ∈ committed) then None else block_status_subscribers c !! r) ∧
  ∀ r s, r ∈ committed → s ∈ subscribers c r → (s, Sequenced r) ∈ sent_statuses c'.
Proof.
  revert c. induction committed as [|x committed IH]; intros c Hc; cbn [foldl].
  { split; [by apply notified_refl|]. split; [intros r; by rewrite decide_False by apply not_elem_of_nil|].
    by intros r s ?%elem_of_nil. }
  assert (notified c (notify_sequenced c x) ∧
    (∀ s, s ∈ subscribers c x → (s, Sequenced x) ∈ sent_statuses (notify_sequenced c x)) ∧
    ∀ r, block_status_subscribers (notify_sequenced c x) !! r =
      if decide (r = x) then None else block_status_subscribers c !! r) as (Hn & Hs & Hl).
  { unfold notify_sequenced. destruct (block_status_subscribers c !! x) as [l|] eqn:Hx.
    - destruct (send_statuses_spec c x l (Sequenced x) Hc Hx (or_introl eq_refl)) as (? & ? & Hd).
      split; [done|]. split; [done|]. intros r. rewrite Hd. case_decide; [subst; apply lookup_delete_eq|].
      by apply lookup_delete_ne.
    - split; [by apply notified_refl|]. split; [unfold subscribers; rewrite Hx; by intros s ?%elem_of_nil|].
      intros r. by case_decide; subst. }
  destruct (IH (notify_sequenced c x) (nf_statuses _ _ Hn)) as (Hn' & Hl' & Hs').
  split; [by eapply notified_trans|]. split.
  - intros r. rewrite Hl', Hl. destruct (decide (r = x)) as [->|Hr].
    + rewrite (decide_True (P := x ∈ x :: committed)) by apply list_elem_of_here. by case_decide.
    + destruct (decide (r ∈ committed)) as [Hi|Hi].
      * by rewrite decide_True by (by apply list_elem_of_further).
      * by rewrite decide_False by (by rewrite elem_of_cons; intros [?|?]).
  - intros r s Hr Hsub. destruct (decide (r = x)) as [->|Hne].
    + eapply elem_of_prefix; [by apply Hs|apply Hn'].
    + apply elem_of_cons in Hr as [?|Hr]; [done|]. apply Hs'; [done|].
      unfold subscribers. by rewrite Hl, decide_False.
Qed.

Lemma notify_collected_spec gc_round fuel c :
  statuses_ok c → (size (block_status_subscribers c) ≤ fuel)%nat →
  let c' := notify_collected fuel c gc_round in
  notified c c' ∧
  (∀ r, block_status_subscribers c' !! r =
     if decide (br_round r ≤ gc_round) then None else block_status_subscribers c !! r) ∧
  ∀ r s, br_round r ≤ gc_round → s ∈ subscribers c r → (s, GarbageCollected r) ∈ sent_statuses c'.
Proof.
  revert c. induction fuel as [|fuel IH]; intros c Hc Hf; cbn [notify_collected].
  { assert (block_status_subscribers c = ∅) as He by (apply map_size_empty_inv; lia).
    split; [by apply notified_refl|]. unfold subscribers. rewrite He.
    split; [intros r; rewrite lookup_empty; by case_decide|]. intros r s _ Hs. by apply elem_of_nil in Hs. }
  pose proof (first_key (block_status_subscribers c)) as Hfirst.
  destruct (head _) as [[x l]|].
  2: { split; [by apply notified_refl|]. unfold subscribers. rewrite Hfirst.
       split; [intros r; rewrite lookup_empty; by case_decide|]. intros r s _ Hs. by apply elem_of_nil in Hs. }
  destruct Hfirst as [Hx Hmin]. destruct (N.leb_spec (br_round x) gc_round) as [Hle|Hgt].
  - destruct (send_statuses_spec c x l (GarbageCollected x) Hc Hx (or_intror eq_refl)) as (Hn & Hs & Hd).
    set (c1 := send_statuses c x l (GarbageCollected x)) in *.
    destruct (IH c1 (nf_statuses _ _ Hn)) as (Hn' & Hl' & Hs').
    { rewrite Hd, map_size_delete_Some by (by eexists). lia. }
    split; [by eapply notified_trans|]. split.
    + intros r. rewrite Hl', Hd. case_decide; [done|]. rewrite lookup_delete_ne; [done|]. intros ->. done.
    + intros r s Hr Hsub. destruct (decide (r = x)) as [->|Hne].
      * eapply elem_of_prefix; [by apply Hs|apply Hn'].
      * apply Hs'; [done|]. unfold subscribers. by rewrite Hd, lookup_delete_ne.
  - assert (∀ r, br_round r ≤ gc_round → block_status_subscribers c !! r = None) as Hnone.
    { intros r Hr. destruct (block_status_subscribers c !! r) as [v|] eqn:Hv; [exfalso|done].
      pose proof (BlockRef_leb_round _ _ (Hmin r (ltac:(by eexists)))). lia. }
    split; [by apply notified_refl|]. split.
    + intros r. case_decide; [by apply Hnone|done].
    + intros r s Hr. unfold subscribers. rewrite Hnone by done. by intros ?%elem_of_nil.
Qed.

Lemma notify_spec c committed gc_round :
  statuses_ok c →
  let c' := notify_own_blocks_status c committed gc_round in
  notified c c' ∧
  (∀ r, r ∈ committed ∨ br_round r ≤ gc_round → subscribers c' r = []) ∧
  (∀ r, r ∉ committed → gc_round < br_round r → subscribers c' r = subscribers c r) ∧
  ∀ r s, s ∈ subscribers c r →
    (r ∈ committed → (s, Sequenced r) ∈ sent_statuses c') ∧
    (r ∉ committed → br_round r ≤ gc_round → (s, GarbageCollected r) ∈ sent_statuses c').
Proof.
  intros Hc. unfold notify_own_blocks_status.
  destruct (notify_sequenced_spec committed c Hc) as (Hn & Hl & Hs).
  set (c1 := foldl notify_sequenced c committed) in *.
  destruct (notify_collected_spec gc_round _ c1 (nf_statuses _ _ Hn) (le_n _)) as (Hn' & Hl' & Hs').
  set (c2 := notify_collected _ c1 gc_round) in *. cbv zeta.
  split; [by eapply notified_trans|]. unfold subscribers. split; [|split].
  - intros r Hr. rewrite Hl', Hl. repeat case_decide; try done. by destruct Hr.
  - intros r Hr Hgc. rewrite Hl', Hl. by rewrite decide_False by lia; rewrite decide_False.
  - intros r s Hsub. split; intros Hr.
    + eapply elem_of_prefix; [by apply Hs|apply Hn'].
    + intros Hgc. apply Hs'; [done|]. unfold subscribers. by rewrite Hl, decide_False.
Qed.

(** * The batches of a run *)

Record pool_ok (ctx : Context) (p : Pool) : Prop := {
  po_consumer : consumer_ok ctx (pool_consumer p);
  po_statuses : statuses_ok (pool_consumer p);
  po_ids : included_in_block_ack <$> pool_accepted p = N.of_nat <$> seq 0 (length (pool_accepted p));
  po_acked : (length (sent_acks (pool_consumer p)) ≤ length (pool_accepted p))%nat;
  po_waiting : waiting (pool_consumer p) = drop (length (sent_acks (pool_consumer p))) (pool_accepted p);
  po_contents : (pool_blocks p).*2 ≫= id
    = contents (take (length (sent_acks (pool_consumer p))) (pool_accepted p));
  po_sizes : ∀ g, g ∈ pool_accepted p → batch_ok ctx (tg_transactions g);
  po_fits : ∀ r txs, (r, txs) ∈ pool_blocks p → fits ctx txs;
  po_blocks : NoDup (pool_blocks p).*1;
  po_positions : ∀ k g inc, pool_accepted p !! k = Some g → sent_acks (pool_consumer p) !! k = Some inc →
    inc_ack inc = included_in_block_ack g ∧
    ∃ txs, (inc_block inc, txs) ∈ pool_blocks p ∧
      (λ i : N, txs !! N.to_nat i) <$> inc_indices inc = Some <$> tg_transactions g;
}.

Lemma statuses_new ctx : statuses_ok (TransactionConsumer_new ctx).
Proof.
  split; try done; try constructor; cbn.
  - by intros ?%elem_of_nil.
  - by intros (_ & inc & ? & _).
  - by intros s st ?%elem_of_nil.
Qed.

Lemma pool_ok_new ctx : pool_ok ctx (Pool_new ctx).
Proof.
  split; try done; [|apply statuses_new| | |apply NoDup_nil_2].
  - split; [done|]. by intros g ?%elem_of_nil.
  - by intros g ?%elem_of_nil.
  - by intros r txs ?%elem_of_nil.
Qed.

Lemma ack_transactions_spec r acks c :
  statuses_ok c →
  let c' := ack_transactions c acks r in
  statuses_ok c' ∧ waiting c' = waiting c ∧
  txc_max_transactions_in_block_bytes c' = txc_max_transactions_in_block_bytes c ∧
  txc_max_num_transactions_in_block c' = txc_max_num_transactions_in_block c ∧
  ∃ incs, sent_acks c' = sent_acks c ++ incs ∧ length incs = length acks ∧
    ∀ k inc, incs !! k = Some inc → inc_block inc = r ∧ acks !! k = Some (inc_ack inc, inc_indices inc).
Proof.
  revert c. induction acks as [|ack acks IH]; intros c Hc; unfold ack_transactions; cbn [foldl].
  { do 4 (split; [done|]). exists []. rewrite app_nil_r. split; [done|]. by split. }
  destruct (IH (ack_one r c ack)) as (Hs & Hw & Hb & Hn & incs & Hacks & Hlen & Hinc); [by apply statuses_ack|].
  unfold ack_transactions in *. split; [done|]. split; [done|]. split; [done|]. split; [done|].
  exists (mkInclusion ack.1 r ack.2 (next_status c) :: incs).
  rewrite Hacks. cbn. rewrite <- app_assoc. split; [done|]. split; [by rewrite Hlen|].
  intros [|k] inc Hk; [|by apply Hinc]. cbn in Hk. simplify_eq. by destruct ack.
Qed.

Lemma pool_submit_ok ctx p txs g :
  limits_ok ctx → pool_ok ctx p →
  submit_no_wait (TransactionClient_new ctx) true (N.of_nat (length (pool_accepted p))) txs = Ok g →
  pool_ok ctx (mkPool ((pool_consumer p) <| tx_receiver := tx_receiver (pool_consumer p) ++ [g] |>)
                 (pool_accepted p ++ [g]) (pool_blocks p)).
Proof.
  intros Hlim [[Hl Hok] Hst Hid Hn Hw Hcont Hsz Hfit Hbl Hpos] Hg.
  pose proof (submit_spec ctx true (N.of_nat (length (pool_accepted p))) txs Hlim) as Hs.
  rewrite Hg in Hs. destruct Hs as (_ & -> & Hb). set (g := mkTransactionsGuard _ _) in *.
  assert (waiting ((pool_consumer p) <| tx_receiver := tx_receiver (pool_consumer p) ++ [g] |>)
    = waiting (pool_consumer p) ++ [g]) as Hw' by (unfold waiting; cbn; by rewrite app_assoc).
  split; cbn [pool_consumer pool_accepted pool_blocks]; try done.
  - split; [done|]. rewrite Hw'. intros x [Hx| ->%list_elem_of_singleton]%elem_of_app; [by apply Hok|done].
  - destruct Hst. by split.
  - rewrite fmap_app, Hid, length_app, seq_app, fmap_app. done.
  - rewrite length_app. cbn. lia.
  - rewrite Hw'. cbn. rewrite drop_app_le by done. by rewrite Hw.
  - cbn. rewrite take_app_le by done. done.
  - intros x [Hx| ->%list_elem_of_singleton]%elem_of_app; [by apply Hsz|done].
  - intros k x inc Hx Hi. cbn in Hi. apply (Hpos k); [|done].
    apply lookup_lt_Some in Hi. by rewrite lookup_app_l in Hx by lia.
Qed.

Lemma pool_propose_ok ctx p r :
  limits_ok ctx → pool_ok ctx p → r ∉ (pool_blocks p).*1 →
  pool_ok ctx (propose p r) ∧
  (length (sent_acks (pool_consumer p)) + Nat.min 1 (length (waiting (pool_consumer p)))
     ≤ length (sent_acks (pool_consumer (propose p r))))%nat.
Proof.
  intros Hlim [Hc Hst Hid Hle Hw Hcont Hsz Hfit Hbl Hpos] Hr. unfold propose.
  destruct (next_spec ctx Hlim (pool_consumer p) Hc)
    as (n & c' & lim & Hrun & Hw' & Hf & Hprog & (pend & queue & Hc') & Hend).
  rewrite Hrun.
  set (s := length (sent_acks (pool_consumer p))) in *. set (acc := pool_accepted p) in *.
  assert (n ≤ length (waiting (pool_consumer p)))%nat as Hn by lia. clear Hend.
  rewrite Hw in Hw', Hf, Hn, Hprog |- *. rewrite length_drop in Hn.
  assert (statuses_ok c') as Hst' by (rewrite Hc'; destruct Hst; by split).
  assert (sent_acks c' = sent_acks (pool_consumer p)) as Ha' by by rewrite Hc'.
  destruct (ack_transactions_spec r (placed 0 (take n (drop s acc))) c' Hst')
    as (Hst1 & Hw1 & Hb1 & Hn1 & incs & Hacks & Hlen & Hinc).
  set (c1 := ack_transactions c' _ r) in *.
  assert (length incs = n) as Hln.
  { rewrite Hlen, <- (length_fmap fst), placed_acks, length_fmap, length_take, length_drop. lia. }
  assert (length (sent_acks c1) = (s + n)%nat) as Hs1 by by rewrite Hacks, Ha', length_app, Hln.
  split.
  2: { cbn. rewrite Hs1. destruct (drop s acc); [cbn; lia|specialize (Hprog ltac:(done)); cbn; lia]. }
  split; cbn [pool_consumer pool_accepted pool_blocks]; try done.
  - destruct Hc as [[Hb Hnum] Hok]. split; [split; [rewrite Hb1, Hc'; exact Hb|rewrite Hn1, Hc'; exact Hnum]|].
    intros g Hg. apply Hok. rewrite Hw. rewrite Hw1, Hw' in Hg.
    rewrite <- (take_drop n (drop s acc)). apply elem_of_app. by right.
  - lia.
  - by rewrite Hw1, Hw', Hs1, drop_drop.
  - rewrite fmap_app, bind_app, Hcont. cbn. rewrite app_nil_r, Hs1. unfold id.
    rewrite <- contents_app. f_equal. apply take_take_drop.
  - intros r' txs' [Hin|[= -> ->]%list_elem_of_singleton]%elem_of_app; [by eapply Hfit|done].
  - rewrite fmap_app. apply NoDup_app. split; [done|]. split; [|apply NoDup_singleton].
    intros x Hx ->%list_elem_of_singleton. done.
  - intros k g inc Hg Hi. rewrite Hacks, Ha' in Hi.
    destruct (decide (k < s)%nat) as [Hk|Hk].
    + rewrite lookup_app_l in Hi by done. destruct (Hpos k g inc Hg Hi) as (? & txs' & Hin & ?).
      split; [done|]. exists txs'. split; [apply elem_of_app; by left|done].
    + rewrite lookup_app_r in Hi by (fold s; lia). fold s in Hi.
      destruct (Hinc _ _ Hi) as [Hblk Hpl]. apply lookup_lt_Some in Hi.
      assert (take n (drop s acc) !! (k - s)%nat = Some g) as Hg'.
      { rewrite lookup_take_lt, lookup_drop by lia. by replace (s + (k - s))%nat with k by lia. }
      destruct (placed_lookup _ [] [] _ _ Hg') as (idx & Hpl' & Hidx). cbn [length] in Hpl'.
      rewrite Hpl in Hpl'. injection Hpl' as -> ->. split; [done|].
      exists (contents (take n (drop s acc))). rewrite Hblk. split; [apply elem_of_app; right; apply list_elem_of_here|].
      cbn [app] in Hidx. by rewrite app_nil_r in Hidx.
Qed.

Lemma pool_notify_ok ctx p committed gc_round :
  pool_ok ctx p →
  pool_ok ctx (mkPool (notify_own_blocks_status (pool_consumer p) committed gc_round) (pool_accepted p) (pool_blocks p)).
Proof.
  intros [[[Hb Hn] Hok] Hst Hid Hle Hw Hcont Hsz Hfit Hbl Hpos].
  destruct (notify_spec _ committed gc_round Hst) as ([] & _).
  set (c' := notify_own_blocks_status _ _ _) in *.
  assert (waiting c' = waiting (pool_consumer p)) as Hw' by (unfold waiting; congruence).
  split; cbn [pool_consumer pool_accepted pool_blocks]; try done; rewrite ?nf_acks0; try done.
  - split; [split; congruence|]. by rewrite Hw'.
  - by rewrite Hw'.
Qed.

Lemma pool_reach_ok ctx p : limits_ok ctx → rtc (pool_step ctx) (Pool_new ctx) p → pool_ok ctx p.
Proof.
  intros Hlim Hrun. refine (rtc_ind_r (λ p, pool_ok ctx p) (Pool_new ctx) (pool_ok_new ctx) _ p Hrun).
  intros p1 p2 _ Hstep Hok. destruct Hstep.
  - by apply (pool_submit_ok ctx p1 txs).
  - by apply pool_propose_ok.
  - by apply pool_notify_ok.
Qed.

(** Batches that passed the client, put together within the limits, pass every verifier. *)
Lemma batches_pass ctx gs v :
  bv_context v = ctx → fits ctx (contents gs) → (∀ g, g ∈ gs → batch_ok ctx (tg_transactions g)) →
  transactions_ok v (transaction_data <$> contents gs).
Proof.
  intros Hv [Hb Hn] Hok. unfold transactions_ok. rewrite Hv. split; [|split].
  - intros t (x & -> & (g & Hx & Hg)%list_elem_of_bind)%list_elem_of_fmap _. by apply (Hok g).
  - rewrite length_fmap. by intros _.
  - rewrite <- list_fmap_compose. by intros _.
Qed.

Lemma propose_all ctx refs p :
  limits_ok ctx → pool_ok ctx p → NoDup refs → (∀ r, r ∈ refs → r ∉ (pool_blocks p).*1) →
  pool_ok ctx (foldl propose p refs) ∧ pool_accepted (foldl propose p refs) = pool_accepted p ∧
  (length (waiting (pool_consumer p)) ≤ length refs →
   waiting (pool_consumer (foldl propose p refs)) = [])%nat.
Proof.
  intros Hlim. revert p. induction refs as [|r refs IH]; intros p Hok Hnd Hfresh; cbn [foldl length].
  { split; [done|]. split; [done|]. intros Hl. destruct (waiting _); [done|cbn in Hl; lia]. }
  apply NoDup_cons in Hnd as [Hr Hnd].
  destruct (pool_propose_ok ctx p r Hlim Hok) as [Hok' Hprog]; [apply Hfresh, list_elem_of_here|].
  assert (pool_accepted (propose p r) = pool_accepted p ∧ (pool_blocks (propose p r)).*1 = (pool_blocks p).*1 ++ [r])
    as [Hacc Hbl].
  { unfold propose. destruct (next (pool_consumer p)) as [[[c txs] acks] lim]. cbn. by rewrite fmap_app. }
  destruct (IH (propose p r) Hok' Hnd) as (? & Hacc' & Hdone).
  { intros x Hx. rewrite Hbl, elem_of_app, list_elem_of_singleton. intros [Hin| ->]; [|done].
    by eapply Hfresh; [apply list_elem_of_further|]. }
  split; [done|]. split; [congruence|]. intros Hl. apply Hdone.
  rewrite (po_waiting _ _ Hok), length_drop in Hl, Hprog. rewrite (po_waiting _ _ Hok'), Hacc, length_drop. lia.
Qed.

(** * Theorem *)

(** C40. Whatever the interleaving of submissions, proposals and notifications: the blocks
    hold, in the order of submission, exactly the batches acknowledged so far, and the others
    wait; every acknowledgment names the block and the positions that hold its batch; the
    transactions of every block pass the limits of every verifier of the epoch; every
    acknowledgment has either got one status, for its own block, or is subscribed to it, and
    gets it from a notification that commits or collects the block; and after as many
    proposals as batches wait, all accepted batches are in blocks. *)
Theorem submitted_batches_included ctx p :
  limits_ok ctx → rtc (pool_step ctx) (Pool_new ctx) p →
  let c := pool_consumer p in
  let n := length (sent_acks c) in
  ((pool_blocks p).*2 ≫= id = contents (take n (pool_accepted p)) ∧ waiting c = drop n (pool_accepted p)) ∧
  (∀ k g inc, pool_accepted p !! k = Some g → sent_acks c !! k = Some inc →
     inc_ack inc = included_in_block_ack g ∧
     ∃ txs, (inc_block inc, txs) ∈ pool_blocks p ∧
       (λ i : N, txs !! N.to_nat i) <$> inc_indices inc = Some <$> tg_transactions g) ∧
  (∀ r txs v, (r, txs) ∈ pool_blocks p → bv_context v = ctx → transactions_ok v (transaction_data <$> txs)) ∧
  NoDup (sent_statuses c).*1 ∧
  (∀ k inc, sent_acks c !! k = Some inc →
     (N.of_nat k ∈ subscribers c (inc_block inc) ∨
      ∃ st, (N.of_nat k, st) ∈ sent_statuses c ∧ own_status (inc_block inc) st) ∧
     ∀ committed gc_round, inc_block inc ∈ committed ∨ br_round (inc_block inc) ≤ gc_round →
       ∃ st, (N.of_nat k, st) ∈ sent_statuses (notify_own_blocks_status c committed gc_round) ∧
         own_status (inc_block inc) st) ∧
  ∀ refs, NoDup refs → (∀ r, r ∈ refs → r ∉ (pool_blocks p).*1) → (length (waiting c) ≤ length refs)%nat →
    length (sent_acks (pool_consumer (foldl propose p refs))) = length (pool_accepted p).
Proof.
  intros Hlim Hrun c n. pose proof (pool_reach_ok ctx p Hlim Hrun) as Hok.
  pose proof Hok as [_ Hst _ _ Hw Hcont Hsz Hfit _ Hpos].
  assert (∀ c' k inc, statuses_ok c' → sent_acks c' !! k = Some inc →
    N.of_nat k ∈ subscribers c' (inc_block inc) ∨
    ∃ st, (N.of_nat k, st) ∈ sent_statuses c' ∧ own_status (inc_block inc) st) as Hone.
  { intros c' k inc Hc' Hi. destruct (decide (N.of_nat k ∈ (sent_statuses c').*1)) as [Hs|Hs].
    - right. apply list_elem_of_fmap in Hs as ([s st] & Hs & Hin). cbn in Hs. subst s. exists st. split; [done|].
      destruct (so_own _ Hc' _ _ Hin) as (inc' & Hi' & ?). rewrite Nat2N.id in Hi'. by simplify_eq.
    - left. apply (so_exact _ Hc'). split; [done|]. exists inc. by rewrite Nat2N.id. }
  split; [by split|]. split; [done|]. split; [|split; [apply Hst|split]].
  - intros r txs v Hin Hv. unfold transactions_ok. rewrite Hv. destruct (Hfit r txs Hin) as [Hb Hn].
    split; [|split; [rewrite length_fmap; by intros _|rewrite <- list_fmap_compose; by intros _]].
    intros t (x & -> & Hx)%list_elem_of_fmap _.
    assert (x ∈ (pool_blocks p).*2 ≫= id) as Hin'.
    { apply list_elem_of_bind. exists txs. split; [done|]. apply list_elem_of_fmap. by exists (r, txs). }
    rewrite Hcont in Hin'. apply list_elem_of_bind in Hin' as (g & Hg & Ht).
    apply (bo_size ctx (tg_transactions g)); [|done]. apply Hsz. rewrite <- (take_drop n). apply elem_of_app. by left.
  - intros k inc Hi. split; [by apply Hone|]. intros committed gc Hend.
    destruct (notify_spec c committed gc Hst) as (Hn & Hnone & _).
    destruct (Hone _ k inc (nf_statuses _ _ Hn)) as [Hs|?]; [by rewrite (nf_acks _ _ Hn)| |done].
    rewrite Hnone in Hs by done. by apply elem_of_nil in Hs.
  - intros refs Hnd Hfresh Hl. destruct (propose_all ctx refs p Hlim Hok Hnd Hfresh) as (Hok' & Hacc & Hdone).
    specialize (Hdone Hl). pose proof (po_acked _ _ Hok') as Hle. rewrite (po_waiting _ _ Hok') in Hdone.
    apply (f_equal length) in Hdone. rewrite length_drop in Hdone. cbn in Hdone. rewrite Hacc in *. lia.
Qed.

(** * Witness *)

(** Two batches of six transactions under a limit of ten: the second waits for the second
    block. *)
Definition six : list (list Byte.byte) := replicate 6 [Byte.x01].
Definition sample_pool : Pool :=
  let submit p :=
    match submit_no_wait (TransactionClient_new (sample_context 4 60)) true
            (N.of_nat (length (pool_accepted p))) six with
    | Ok g => mkPool ((pool_consumer p) <| tx_receiver := tx_receiver (pool_consumer p) ++ [g] |>)
                (pool_accepted p ++ [g]) (pool_blocks p)
    | Err _ => p
    end in
  propose (submit (submit (Pool_new (sample_context 4 60)))) (mkBlockRef 1 0 7).

Lemma submitted_batches_included_witness :
  length (sent_acks (pool_consumer sample_pool)) = 1%nat ∧
  length (waiting (pool_consumer sample_pool)) = 1%nat ∧
  ∃ st, (0, st) ∈ sent_statuses (notify_own_blocks_status (pool_consumer sample_pool) [mkBlockRef 1 0 7] 0) ∧
    own_status (mkBlockRef 1 0 7) st.
Proof.
  destruct (submitted_batches_included (sample_context 4 60) sample_pool)
    as (_ & _ & _ & _ & Hst & _).
  - by vm_compute.
  - eapply rtc_l; [by apply (pool_submit _ _ six); [reflexivity|apply Nat.ltb_lt]|].
    eapply rtc_l; [by apply (pool_submit _ _ six); [reflexivity|apply Nat.ltb_lt]|].
    eapply rtc_l; [apply (pool_propose _ _ (mkBlockRef 1 0 7)); apply not_elem_of_nil|].
    apply rtc_refl.
  - split; [vm_compute; reflexivity|]. split; [vm_compute; reflexivity|].
    destruct (Hst 0%nat (mkInclusion 0 (mkBlockRef 1 0 7) [0; 1; 2; 3; 4; 5] 0)) as [_ Hnote].
    + vm_compute. reflexivity.
    + apply Hnote. left. apply list_elem_of_here.
Defined.
