(* ===== verification/BlockManager.v ===== *)
(** The block manager (consensus/core/src/block_manager.rs): blocks whose history is not
    complete are suspended until their missing ancestors are accepted or garbage collected;
    everything else goes to the DAG state.

    The DAG state behind the lock is threaded through the operations. Metrics are left out,
    except for the indexing of authorities that can panic. *)

From stdpp Require Import base tactics numbers list gmap sorting strings.
From coqutil Require Import Datatypes.RecordSettersUsingExistingGetters.
From S2P Require Import Prelude.
From S2P Require Import Committee.
From S2P Require Import Block.
From S2P Require Import Commit.
From S2P Require Import Store.
From S2P Require Import DagState.
From S2P Require Import DagInvariant.
From S2P Require Import BaseCommitter.
From S2P Require Import CommitSafety.
From S2P Require Import Linearizer.

Open Scope N_scope.

(** * Data *)

Record SuspendedBlock := mkSuspendedBlock {
  sp_block : VerifiedBlock;
  sp_missing_ancestors : gset BlockRef;
}.

Record BlockManager := mkBlockManager {
  bm_context : Context;
  bm_suspended_blocks : gmap BlockRef SuspendedBlock;
  bm_missing_ancestors : gmap BlockRef (gset BlockRef);
  bm_missing_blocks : gset BlockRef;
  bm_received_block_rounds : list (option (N * N));
}.

Definition BlockManager_new (context : Context) : BlockManager :=
  mkBlockManager context ∅ ∅ ∅ (replicate (N.to_nat (Committee_size (committee context))) None).

Inductive TryAcceptResult :=
| TarAccepted (block : VerifiedBlock)
| TarSuspended (ancestors_to_fetch : gset BlockRef)
| TarProcessed
| TarSkipped.

(** * Operations on the manager *)

Definition hostname (m : BlockManager) (author : N) : outcome unit :=
  _ ← Committee_authority (committee (bm_context m)) author; Ret tt.

Definition update_block_received_metrics (m : BlockManager) (block : VerifiedBlock) : outcome BlockManager :=
  current ← vec_get (bm_received_block_rounds m) (vb_author block);
  let rounds :=
    match current with
    | Some (curr_min, curr_max) => (N.min curr_min (vb_round block), N.max curr_max (vb_round block))
    | None => (vb_round block, vb_round block)
    end in
  received ← vec_set (bm_received_block_rounds m) (vb_author block) (Some rounds);
  _ ← hostname m (vb_author block);
  Ret (m <| bm_received_block_rounds := received |>).

(** [entry(ancestor).or_default().insert(block_ref)]. *)
Definition add_child (ancestor block_ref : BlockRef) (ma : gmap BlockRef (gset BlockRef))
    : gmap BlockRef (gset BlockRef) :=
  <[ancestor := {[block_ref]} ∪ default ∅ (ma !! ancestor)]> ma.

(** One ancestor of the block under test; the accumulator also holds the missing ancestors
    and those to fetch. *)
Definition check_ancestor (block_ref : BlockRef)
    (acc : BlockManager * gset BlockRef * gset BlockRef) (found_ancestor : bool * BlockRef)
    : outcome (BlockManager * gset BlockRef * gset BlockRef) :=
  let '(m, missing_ancestors, ancestors_to_fetch) := acc in
  let '(found, ancestor) := found_ancestor in
  if found : bool then Ret acc
  else
    let m := m <| bm_missing_ancestors := add_child ancestor block_ref (bm_missing_ancestors m) |> in
    _ ← hostname m (br_author ancestor);
    match bm_suspended_blocks m !! ancestor with
    | Some _ => Ret (m, {[ancestor]} ∪ missing_ancestors, ancestors_to_fetch)
    | None =>
        Ret (m <| bm_missing_blocks := {[ancestor]} ∪ bm_missing_blocks m |>,
             {[ancestor]} ∪ missing_ancestors, {[ancestor]} ∪ ancestors_to_fetch)
    end.

Definition try_unsuspend_block (m : BlockManager) (block_ref accepted_dependency : BlockRef)
    : outcome (BlockManager * option SuspendedBlock) :=
  block ← expect (bm_suspended_blocks m !! block_ref);
  _ ← assert_that (bool_decide (accepted_dependency ∈ sp_missing_ancestors block));
  let block := mkSuspendedBlock (sp_block block) (sp_missing_ancestors block ∖ {[accepted_dependency]}) in
  if bool_decide (sp_missing_ancestors block = ∅)
  then Ret (m <| bm_suspended_blocks := delete block_ref (bm_suspended_blocks m) |>, Some block)
  else Ret (m <| bm_suspended_blocks := <[block_ref := block]> (bm_suspended_blocks m) |>, None).

(** The [for] loop over the children of an accepted block: the stack and the result grow
    with each child that has no missing ancestor left. *)
Definition unsuspend_child (dependency : BlockRef)
    (acc : BlockManager * list BlockRef * list SuspendedBlock) (r : BlockRef)
    : outcome (BlockManager * list BlockRef * list SuspendedBlock) :=
  let '(m, to_process, unsuspended) := acc in
  '(m, block) ← try_unsuspend_block m r dependency;
  match block with
  | Some block => Ret (m, reference (sp_block block) :: to_process, unsuspended ++ [block])
  | None => Ret (m, to_process, unsuspended)
  end.

(** The stack loop; every block pushed has left the suspended blocks, so their number plus
    the length of the stack bounds the iterations. *)
Fixpoint unsuspend_loop (fuel : nat) (m : BlockManager) (to_process : list BlockRef)
    (unsuspended : list SuspendedBlock) : outcome (BlockManager * list SuspendedBlock) :=
  match to_process with
  | [] => Ret (m, unsuspended)
  | block_ref :: to_process =>
      match fuel with
      | O => Panic
      | Datatypes.S fuel =>
          match bm_missing_ancestors m !! block_ref with
          | None => unsuspend_loop fuel m to_process unsuspended
          | Some children =>
              let m := m <| bm_missing_ancestors := delete block_ref (bm_missing_ancestors m) |> in
              '(m, to_process, unsuspended) ←
                foldM (unsuspend_child block_ref) (m, to_process, unsuspended)
                  (set_iter BlockRef_leb children);
              unsuspend_loop fuel m to_process unsuspended
          end
      end
  end.

Definition try_unsuspend_children_blocks (m : BlockManager) (accepted_block : BlockRef)
    : outcome (BlockManager * list VerifiedBlock) :=
  '(m, unsuspended) ← unsuspend_loop (Datatypes.S (size (bm_suspended_blocks m))) m [accepted_block] [];
  _ ← foldM (λ _ b, hostname m (vb_author (sp_block b))) tt unsuspended;
  Ret (m, sp_block <$> unsuspended).

(** A committed block no longer waits for [ancestor]. *)
Definition drop_child (b : BlockRef) (ma : gmap BlockRef (gset BlockRef)) (ancestor : BlockRef)
    : gmap BlockRef (gset BlockRef) :=
  match ma !! ancestor with
  | Some refs => <[ancestor := refs ∖ {[b]}]> ma
  | None => ma
  end.

Definition missing_blocks (m : BlockManager) : gset BlockRef := bm_missing_blocks m.

(** * Operations with the DAG state *)

Section WithDag.
Context {S : Type} `{Store S}.
Implicit Types d : DagState S.

Definition try_accept_one_block (m : BlockManager) d (block : VerifiedBlock)
    : outcome (BlockManager * TryAcceptResult) :=
  let block_ref := reference block in
  let gc_round := dag_gc_round d in
  known ← match bm_suspended_blocks m !! block_ref with
          | Some _ => Ret true
          | None => contains_block d block_ref
          end;
  if known : bool then Ret (m, TarProcessed)
  else if vb_round block <=? gc_round then
    _ ← hostname m (vb_author block); Ret (m, TarSkipped)
  else
    let ancestors :=
      filter (λ a, br_round a = GENESIS_ROUND ∨ gc_round < br_round a) (vb_ancestors block) in
    found ← contains_blocks d ancestors;
    '(m, missing_ancestors, ancestors_to_fetch) ←
      foldM (check_ancestor block_ref) (m, ∅, ∅) (zip found ancestors);
    let m := m <| bm_missing_blocks := bm_missing_blocks m ∖ {[block_ref]} |> in
    if bool_decide (missing_ancestors = ∅) then Ret (m, TarAccepted block)
    else
      _ ← hostname m (vb_author block);
      Ret (m <| bm_suspended_blocks :=
                  <[block_ref := mkSuspendedBlock block missing_ancestors]> (bm_suspended_blocks m) |>,
           TarSuspended ancestors_to_fetch).

Definition try_accept_one_committed_block (m : BlockManager) d (block : VerifiedBlock)
    : outcome (BlockManager * DagState S * TryAcceptResult) :=
  let block_ref := reference block in
  contained ← contains_block d block_ref;
  if contained : bool then Ret (m, d, TarProcessed)
  else
    let m := m <| bm_missing_blocks := bm_missing_blocks m ∖ {[block_ref]} |> in
    let m :=
      match bm_suspended_blocks m !! block_ref with
      | None => m
      | Some suspended =>
          m <| bm_suspended_blocks := delete block_ref (bm_suspended_blocks m) |>
            <| bm_missing_ancestors :=
                 foldl (drop_child block_ref) (bm_missing_ancestors m)
                   (set_iter BlockRef_leb (sp_missing_ancestors suspended)) |>
      end in
    d ← accept_blocks d [block];
    Ret (m, d, TarAccepted block).

(** One block of the batch; the accumulator holds the accepted and the missing blocks. *)
Definition accept_one (committed : bool)
    (acc : BlockManager * DagState S * list VerifiedBlock * gset BlockRef) (block : VerifiedBlock)
    : outcome (BlockManager * DagState S * list VerifiedBlock * gset BlockRef) :=
  let '(m, d, accepted_blocks, missing_blocks) := acc in
  m ← update_block_received_metrics m block;
  let block_ref := reference block in
  let finish m d accepted_blocks blocks_to_accept :=
    '(m, unsuspended_blocks) ← try_unsuspend_children_blocks m block_ref;
    let blocks_to_accept := blocks_to_accept ++ unsuspended_blocks in
    d ← accept_blocks d blocks_to_accept;
    Ret (m, d, accepted_blocks ++ blocks_to_accept, missing_blocks) in
  if committed then
    '(m, d, result) ← try_accept_one_committed_block m d block;
    match result with
    | TarAccepted block => finish m d (accepted_blocks ++ [block]) []
    | TarProcessed => Ret (m, d, accepted_blocks, missing_blocks)
    | TarSuspended _ | TarSkipped => Panic
    end
  else
    '(m, result) ← try_accept_one_block m d block;
    match result with
    | TarAccepted block => finish m d accepted_blocks [block]
    | TarSuspended ancestors_to_fetch => Ret (m, d, accepted_blocks, missing_blocks ∪ ancestors_to_fetch)
    | TarProcessed | TarSkipped => Ret (m, d, accepted_blocks, missing_blocks)
    end.

Definition round_leb (a b : VerifiedBlock) : bool := vb_round a <=? vb_round b.

Definition try_accept_blocks_internal (m : BlockManager) d (blocks : list VerifiedBlock) (committed : bool)
    : outcome (BlockManager * DagState S * list VerifiedBlock * gset BlockRef) :=
  foldM (accept_one committed) (m, d, [], ∅) (isort round_leb blocks).

Definition try_accept_blocks (m : BlockManager) d (blocks : list VerifiedBlock)
    : outcome (BlockManager * DagState S * list VerifiedBlock * gset BlockRef) :=
  try_accept_blocks_internal m d blocks false.

Definition try_accept_committed_blocks (m : BlockManager) d (blocks : list VerifiedBlock)
    : outcome (BlockManager * DagState S * list VerifiedBlock) :=
  '(m, d, accepted_blocks, missing_blocks) ← try_accept_blocks_internal m d blocks true;
  _ ← assert_that (bool_decide (missing_blocks = ∅));
  Ret (m, d, accepted_blocks).

Definition ref_round_leb (a b : BlockRef) : bool := br_round a <=? br_round b.

Definition find_one (acc : BlockManager * gset BlockRef) (found_ref : bool * BlockRef)
    : outcome (BlockManager * gset BlockRef) :=
  let '(m, missing_blocks) := acc in
  let '(found, block_ref) := found_ref in
  if (found : bool) || bool_decide (is_Some (bm_suspended_blocks m !! block_ref)) then Ret acc
  else if bool_decide (block_ref ∈ bm_missing_blocks m) then Ret (m, {[block_ref]} ∪ missing_blocks)
  else
    let ma := <[block_ref := default ∅ (bm_missing_ancestors m !! block_ref)]> (bm_missing_ancestors m) in
    _ ← hostname m (br_author block_ref);
    Ret (m <| bm_missing_blocks := {[block_ref]} ∪ bm_missing_blocks m |> <| bm_missing_ancestors := ma |>,
         {[block_ref]} ∪ missing_blocks).

Definition try_find_blocks (m : BlockManager) d (block_refs : list BlockRef)
    : outcome (BlockManager * gset BlockRef) :=
  let block_refs := isort ref_round_leb (filter (λ r, dag_gc_round d < br_round r) block_refs) in
  found ← contains_blocks d block_refs;
  foldM find_one (m, ∅) (zip found block_refs).

(** The [while] loop over the first missing ancestor; each iteration removes its entry. *)
Fixpoint gc_loop (fuel : nat) (gc_round : N) (m : BlockManager) d : outcome (BlockManager * DagState S) :=
  match head (map_iter BlockRef_leb (bm_missing_ancestors m)) with
  | None => Ret (m, d)
  | Some (block_ref, _) =>
      if gc_round <? br_round block_ref then Ret (m, d)
      else
        match fuel with
        | O => Panic
        | Datatypes.S fuel =>
            _ ← hostname m (br_author block_ref);
            _ ← assert_that (bool_decide (bm_suspended_blocks m !! block_ref = None));
            let m := m <| bm_missing_blocks := bm_missing_blocks m ∖ {[block_ref]} |> in
            '(m, unsuspended_blocks) ← try_unsuspend_children_blocks m block_ref;
            d ← accept_blocks d unsuspended_blocks;
            _ ← foldM (λ _ b, hostname m (vb_author b)) tt unsuspended_blocks;
            gc_loop fuel gc_round m d
        end
  end.

Definition try_unsuspend_blocks_for_latest_gc_round (m : BlockManager) d
    : outcome (BlockManager * DagState S) :=
  gc_loop (size (bm_missing_ancestors m)) (dag_gc_round d) m d.
End WithDag.

(** * The suspension graph *)

Lemma hostname_valid m i :
  is_valid_index (committee (bm_context m)) i = true → hostname m i = Ret tt.
Proof. intros Hi. unfold hostname. by destruct (valid_authority _ i Hi) as [a ->]. Qed.

Lemma hostnames_valid {A} m (f : A → N) l :
  (∀ x, x ∈ l → is_valid_index (committee (bm_context m)) (f x) = true) →
  foldM (λ (_ : unit) x, hostname m (f x)) tt l = Ret tt.
Proof.
  induction l as [|x l IH]; intros Hl; [done|]. cbn [foldM].
  rewrite (hostname_valid m (f x)) by apply Hl, list_elem_of_here.
  cbn [mbind outcome_bind]. apply IH. intros y Hy. apply Hl. by apply list_elem_of_further.
Qed.

(** Blocks in an order in which the needed ancestors of each are known or come before. *)
Definition causal (need known : BlockRef → Prop) (bs : list VerifiedBlock) : Prop :=
  ∀ k b a, bs !! k = Some b → a ∈ vb_ancestors b → need a →
    known a ∨ a ∈ reference <$> take k bs.

Section Graph.
Context (known need : BlockRef → Prop) (good : VerifiedBlock → Prop).
Implicit Types m : BlockManager.

(** Known references, with the blocks [bs] that are about to be accepted. *)
Definition accepted_ref (bs : list VerifiedBlock) (r : BlockRef) : Prop :=
  known r ∨ r ∈ reference <$> bs.

(** The invariant, while [bs] leave the manager and [pending] are still to be processed. The
    entries of [x] are removed from the edges and its children are [cs]. *)
Record graph_inv (bs : list VerifiedBlock) m (pending : list BlockRef)
    (x : option BlockRef) (cs : list BlockRef) : Prop := {
  gi_susp : ∀ r s, bm_suspended_blocks m !! r = Some s →
    reference (sp_block s) = r ∧ sp_missing_ancestors s ≠ ∅ ∧ ¬ accepted_ref bs r ∧ good (sp_block s);
  gi_sub : ∀ r s a, bm_suspended_blocks m !! r = Some s → a ∈ sp_missing_ancestors s →
    a ∈ vb_ancestors (sp_block s);
  gi_edges : ∀ a r, r ∈ default ∅ (bm_missing_ancestors m !! a) ↔
    ∃ s, bm_suspended_blocks m !! r = Some s ∧ a ∈ sp_missing_ancestors s ∧ x ≠ Some a;
  gi_children : ∀ y, x = Some y → accepted_ref bs y ∧
    ∀ r, r ∈ cs ↔ ∃ s, bm_suspended_blocks m !! r = Some s ∧ y ∈ sp_missing_ancestors s;
  gi_fetch : ∀ a, a ∈ bm_missing_blocks m ↔
    is_Some (bm_missing_ancestors m !! a) ∧ bm_suspended_blocks m !! a = None ∧ a ∉ pending;
  gi_keys : ∀ a, is_Some (bm_missing_ancestors m !! a) → accepted_ref bs a → a ∈ pending;
  gi_complete : ∀ r s a, bm_suspended_blocks m !! r = Some s → a ∈ vb_ancestors (sp_block s) → need a →
    a ∈ sp_missing_ancestors s ∨ accepted_ref bs a;
  gi_pending : ∀ r, r ∈ pending → accepted_ref bs r;
  gi_causal : causal need known bs;
  gi_valid : ∀ a, is_Some (bm_missing_ancestors m !! a) →
    is_valid_index (committee (bm_context m)) (br_author a) = true;
  gi_blocks : NoDup (reference <$> bs) ∧ ∀ b, b ∈ bs → ¬ known (reference b) ∧ good b;
}.

Lemma accepted_ref_snoc bs b r : accepted_ref (bs ++ [b]) r ↔ accepted_ref bs r ∨ r = reference b.
Proof. unfold accepted_ref. rewrite fmap_app. csimpl. rewrite elem_of_app, list_elem_of_singleton. tauto. Qed.

Lemma causal_snoc bs b :
  causal need known bs → (∀ a, a ∈ vb_ancestors b → need a → accepted_ref bs a) →
  causal need known (bs ++ [b]).
Proof.
  intros Hc Hb k b' a Hk Ha Hn. apply lookup_app_Some in Hk as [Hk|[Hge Hk]].
  - destruct (Hc k b' a Hk Ha Hn) as [?|Hin]; [by left|right].
    rewrite take_app_le by (apply lookup_lt_Some in Hk; lia). done.
  - apply list_lookup_singleton_Some in Hk as [Hz <-].
    rewrite take_app_length' by lia. by apply Hb.
Qed.

(** One child of [x] with other missing ancestors left. *)
Lemma graph_inv_shrink bs m pending x r cs s m' :
  graph_inv bs m pending (Some x) (r :: cs) → r ∉ cs →
  bm_suspended_blocks m !! r = Some s → sp_missing_ancestors s ∖ {[x]} ≠ ∅ →
  m' = m <| bm_suspended_blocks :=
    <[r := mkSuspendedBlock (sp_block s) (sp_missing_ancestors s ∖ {[x]})]> (bm_suspended_blocks m) |> →
  graph_inv bs m' pending (Some x) cs.
Proof.
  intros [Hsusp Hsub Hedges Hchild Hfetch Hkeys Hcomp Hpend Hcaus Hvalid Hblocks] Hrn Hs Hne ->.
  destruct (Hchild x eq_refl) as [Hx Hcs].
  split; cbn [bm_suspended_blocks bm_missing_ancestors bm_missing_blocks set const]; try done.
  - intros r' s' [[<- <-]|[_ Hs']]%lookup_insert_Some; [|by apply Hsusp].
    simpl. destruct (Hsusp r s Hs) as (? & _ & ? & ?). done.
  - intros r' s' a [[<- <-]|[_ Hs']]%lookup_insert_Some; [|by apply (Hsub r' s' a Hs')].
    simpl. intros Ha. apply (Hsub r s a Hs). set_solver.
  - intros a r'. rewrite Hedges. destruct (decide (r = r')) as [<-|Hn].
    + rewrite lookup_insert_eq, Hs. split.
      * intros (s' & [= <-] & Ha & Hxa). eexists. split; [done|]. simpl. split; [|done].
        apply elem_of_difference. split; [done|]. rewrite elem_of_singleton. congruence.
      * intros (s' & [= <-] & Ha & Hxa). exists s. simpl in Ha. set_solver.
    + by rewrite lookup_insert_ne.
  - intros y [= <-]. split; [done|]. intros r'. destruct (decide (r = r')) as [<-|Hn].
    + rewrite lookup_insert_eq. split; [done|]. intros (s' & [= <-] & Ha). simpl in Ha. set_solver.
    + rewrite lookup_insert_ne, <- Hcs, elem_of_cons by done. split; [by right|].
      intros [->|?]; done.
  - intros a. rewrite Hfetch. destruct (decide (r = a)) as [<-|Hn].
    + rewrite lookup_insert_eq, Hs. split; intros (_ & ? & _); done.
    + by rewrite lookup_insert_ne.
  - intros r' s' a [[<- <-]|[_ Hs']]%lookup_insert_Some Ha Hn; [|by eapply Hcomp].
    simpl in *. destruct (Hcomp r s a Hs Ha Hn) as [Hm|?]; [|by right].
    destruct (decide (a = x)) as [->|Hax]; [by right|left]. set_solver.
Qed.

(** One child of [x] that misses nothing else: it leaves the suspended blocks. *)
Lemma graph_inv_release bs m pending x r cs s m' :
  graph_inv bs m pending (Some x) (r :: cs) → r ∉ cs →
  bm_suspended_blocks m !! r = Some s → sp_missing_ancestors s ∖ {[x]} = ∅ →
  m' = m <| bm_suspended_blocks := delete r (bm_suspended_blocks m) |> →
  graph_inv (bs ++ [sp_block s]) m' (r :: pending) (Some x) cs.
Proof.
  intros [Hsusp Hsub Hedges Hchild Hfetch Hkeys Hcomp Hpend Hcaus Hvalid [Hnd Hblocks]] Hrn Hs He ->.
  destruct (Hchild x eq_refl) as [Hx Hcs]. destruct (Hsusp r s Hs) as (Href & _ & Hnacc & Hgood).
  assert (∀ a, a ∈ sp_missing_ancestors s → a = x) as Hone
    by (intros a Ha; destruct (decide (a = x)); [done|set_solver]).
  split; cbn [bm_suspended_blocks bm_missing_ancestors bm_missing_blocks set const].
  - intros r' s' [Hn Hs']%lookup_delete_Some. destruct (Hsusp r' s' Hs') as (? & ? & ? & ?).
    split; [done|]. split; [done|]. split; [|done]. rewrite accepted_ref_snoc, Href. naive_solver.
  - intros r' s' a [_ Hs']%lookup_delete_Some. by apply (Hsub r' s' a Hs').
  - intros a r'. rewrite Hedges. setoid_rewrite lookup_delete_Some. split.
    + intros (s' & Hs' & Ha & Hxa). exists s'. split; [|done]. split; [|done]. intros <-.
      rewrite Hs in Hs'. injection Hs' as <-. apply Hxa. by rewrite (Hone a Ha).
    + intros (s' & [_ Hs'] & ?). by exists s'.
  - intros y [= <-]. split; [rewrite accepted_ref_snoc; by left|]. intros r'.
    setoid_rewrite lookup_delete_Some. split.
    + intros Hr'. destruct (proj1 (Hcs r')) as (s' & Hs' & Hx'); [by right|].
      exists s'. split; [|done]. split; [|done]. intros <-. done.
    + intros (s' & [Hn Hs'] & Hx'). assert (r' ∈ r :: cs) as [->|?]%elem_of_cons by (apply Hcs; eauto); done.
  - intros a. rewrite Hfetch, elem_of_cons. destruct (decide (r = a)) as [<-|Hn].
    + rewrite Hs. split; [by intros (_ & ? & _)|]. intros (_ & _ & Hna). exfalso. by apply Hna; left.
    + rewrite lookup_delete_ne by done. naive_solver.
  - intros a Ha. rewrite accepted_ref_snoc, Href. intros [Hacc| ->]; [right; by apply Hkeys|by left].
  - intros r' s' a [_ Hs']%lookup_delete_Some Ha Hn. rewrite accepted_ref_snoc.
    destruct (Hcomp r' s' a Hs' Ha Hn); tauto.
  - intros r'. rewrite accepted_ref_snoc, Href. intros [->|Hr']%elem_of_cons; [by right|left; by apply Hpend].
  - apply causal_snoc; [done|]. intros a Ha Hn.
    destruct (Hcomp r s a Hs Ha Hn) as [->%Hone|?]; done.
  - done.
  - rewrite fmap_app. csimpl. split.
    + apply NoDup_app. split; [done|]. split; [|apply NoDup_singleton].
      intros r' Hr' ->%list_elem_of_singleton. apply Hnacc. right. by rewrite <- Href.
    + intros b [Hb| ->%list_elem_of_singleton]%elem_of_app; [by apply Hblocks|].
      rewrite Href. split; [|done]. intros Hk. apply Hnacc. by left.
Qed.

(** Removing the dependency of one child. *)
Lemma try_unsuspend_spec bs m pending x r cs :
  graph_inv bs m pending (Some x) (r :: cs) → r ∉ cs →
  ∃ m' res, try_unsuspend_block m r x = Ret (m', res) ∧
    bm_context m' = bm_context m ∧ bm_received_block_rounds m' = bm_received_block_rounds m ∧
    match res with
    | None => graph_inv bs m' pending (Some x) cs ∧
        size (bm_suspended_blocks m') = size (bm_suspended_blocks m)
    | Some s => reference (sp_block s) = r ∧
        graph_inv (bs ++ [sp_block s]) m' (r :: pending) (Some x) cs ∧
        size (bm_suspended_blocks m) = Datatypes.S (size (bm_suspended_blocks m'))
    end.
Proof.
  intros Hinv Hrn. destruct (gi_children _ _ _ _ _ Hinv x eq_refl) as [_ Hcs].
  destruct (proj1 (Hcs r) (list_elem_of_here _ _)) as (s & Hs & Hxs).
  destruct (gi_susp _ _ _ _ _ Hinv r s Hs) as (Href & _).
  unfold try_unsuspend_block. rewrite Hs. cbn [expect mbind outcome_bind].
  rewrite (bool_decide_true (x ∈ sp_missing_ancestors s)) by done.
  cbn [assert_that mbind outcome_bind sp_missing_ancestors sp_block].
  destruct (decide (sp_missing_ancestors s ∖ {[x]} = ∅)) as [He|He];
    [rewrite bool_decide_true by done|rewrite bool_decide_false by done].
  - eexists _, _. split; [done|]. split; [done|]. split; [done|]. cbn [sp_block].
    split; [done|]. split; [by eapply graph_inv_release|]. simpl.
    pose proof (map_size_delete_Some _ _ (ex_intro _ s Hs)) as Hsz. simpl in Hsz. rewrite Hsz.
    assert (size (bm_suspended_blocks m) ≠ 0%nat); [|lia].
    intros Hz%map_size_empty_inv. by rewrite Hz, lookup_empty in Hs.
  - eexists _, _. split; [done|]. split; [done|]. split; [done|].
    split; [by eapply graph_inv_shrink|]. simpl. by rewrite map_size_insert_Some.
Qed.

(** The loop over the children of one reference. *)
Lemma unsuspend_children_spec x cs m pending us :
  graph_inv (sp_block <$> us) m pending (Some x) cs → NoDup cs →
  ∃ m' pending' us', foldM (unsuspend_child x) (m, pending, us) cs = Ret (m', pending', us') ∧
    graph_inv (sp_block <$> us') m' pending' (Some x) [] ∧
    bm_context m' = bm_context m ∧ bm_received_block_rounds m' = bm_received_block_rounds m ∧
    (length pending' + size (bm_suspended_blocks m') = length pending + size (bm_suspended_blocks m))%nat.
Proof.
  revert m pending us. induction cs as [|r cs IH]; intros m pending us Hinv Hnd; [by exists m, pending, us|].
  apply NoDup_cons in Hnd as [Hrn Hnd].
  destruct (try_unsuspend_spec _ m pending x r cs Hinv Hrn) as (m1 & res & Hrun & Hc1 & Hr1 & Hres).
  cbn [foldM unsuspend_child]. rewrite Hrun. cbn [mbind outcome_bind].
  destruct res as [s|]; cbn [mbind outcome_bind].
  - destruct Hres as (Href & Hinv1 & Hsz). rewrite Href.
    destruct (IH m1 (r :: pending) (us ++ [s])) as (m' & pending' & us' & -> & Hinv' & Hc' & Hr' & Hsz').
    { by rewrite fmap_app. } { done. }
    exists m', pending', us'. split; [done|]. split; [done|]. rewrite Hc', Hr', Hc1, Hr1.
    split; [done|]. split; [done|]. simpl in Hsz'. lia.
  - destruct Hres as (Hinv1 & Hsz).
    destruct (IH m1 pending us Hinv1 Hnd) as (m' & pending' & us' & -> & Hinv' & Hc' & Hr' & Hsz').
    exists m', pending', us'. split; [done|]. split; [done|]. rewrite Hc', Hr', Hc1, Hr1.
    split; [done|]. split; [done|]. lia.
Qed.

Lemma graph_inv_pop bs m x pending children :
  graph_inv bs m (x :: pending) None [] → bm_missing_ancestors m !! x = Some children →
  graph_inv bs (m <| bm_missing_ancestors := delete x (bm_missing_ancestors m) |>) pending (Some x)
    (set_iter BlockRef_leb children).
Proof.
  intros [Hsusp Hsub Hedges Hchild Hfetch Hkeys Hcomp Hpend Hcaus Hvalid Hblocks] Hx.
  split; cbn [bm_suspended_blocks bm_missing_ancestors bm_missing_blocks set const]; try done.
  - intros a r. destruct (decide (x = a)) as [<-|Hn].
    + rewrite lookup_delete_eq. simpl. split; [set_solver|]. by intros (? & _ & _ & ?).
    + rewrite lookup_delete_ne, Hedges by done. naive_solver.
  - intros y [= <-]. split; [apply Hpend; by left|]. intros r. rewrite elem_of_set_iter.
    specialize (Hedges x r). rewrite Hx in Hedges. simpl in Hedges. rewrite Hedges. naive_solver.
  - intros a. rewrite Hfetch, elem_of_cons. destruct (decide (x = a)) as [<-|Hn].
    + rewrite lookup_delete_eq. split; [|by intros [[? ?] _]]. intros (_ & _ & Hno). exfalso. by apply Hno; left.
    + rewrite lookup_delete_ne by done. naive_solver.
  - intros a [c Ha] Hacc. apply lookup_delete_Some in Ha as [Hn Ha].
    destruct (elem_of_cons pending a x) as [Hin _]. destruct Hin; [by apply Hkeys; [exists c|]|done|done].
  - intros r Hr. apply Hpend. by right.
  - intros a [cs Ha]. apply lookup_delete_Some in Ha as [_ Ha]. apply Hvalid. by exists cs.
Qed.

Lemma graph_inv_skip bs m x pending :
  graph_inv bs m (x :: pending) None [] → bm_missing_ancestors m !! x = None →
  graph_inv bs m pending None [].
Proof.
  intros [Hsusp Hsub Hedges Hchild Hfetch Hkeys Hcomp Hpend Hcaus Hvalid Hblocks] Hx. split; try done.
  - intros a. rewrite Hfetch, elem_of_cons. destruct (decide (a = x)) as [->|Hn]; [|naive_solver].
    rewrite Hx. split; by intros [[? ?] _].
  - intros a [c Ha] Hacc.
    assert (a ∈ x :: pending) as [->|?]%elem_of_cons by (apply Hkeys; [by exists c|done]); congruence.
  - intros r Hr. apply Hpend. by right.
Qed.

Lemma graph_inv_done bs m pending x :
  graph_inv bs m pending (Some x) [] → graph_inv bs m pending None [].
Proof.
  intros [Hsusp Hsub Hedges Hchild Hfetch Hkeys Hcomp Hpend Hcaus Hvalid Hblocks]. split; try done.
  intros a r. rewrite Hedges. split; [naive_solver|]. intros (s & Hs & Ha & _). exists s.
  split; [done|]. split; [done|]. intros [= <-]. destruct (Hchild x eq_refl) as [_ Hc].
  apply (elem_of_nil r). apply Hc. eauto.
Qed.

Lemma unsuspend_loop_spec fuel m pending us :
  graph_inv (sp_block <$> us) m pending None [] →
  (length pending + size (bm_suspended_blocks m) ≤ fuel)%nat →
  ∃ m' us', unsuspend_loop fuel m pending us = Ret (m', us') ∧
    graph_inv (sp_block <$> us') m' [] None [] ∧
    bm_context m' = bm_context m ∧ bm_received_block_rounds m' = bm_received_block_rounds m.
Proof.
  revert m pending us. induction fuel as [|fuel IH]; intros m [|x pending] us Hinv Hfuel;
    [by exists m, us|simpl in Hfuel; lia|by exists m, us|].
  cbn [unsuspend_loop]. destruct (bm_missing_ancestors m !! x) as [children|] eqn:Hx.
  - destruct (unsuspend_children_spec x _ _ pending us (graph_inv_pop _ m x pending children Hinv Hx))
      as (m1 & pending1 & us1 & -> & Hinv1 & Hc1 & Hr1 & Hsz); [apply NoDup_set_iter|].
    cbn [mbind outcome_bind].
    destruct (IH m1 pending1 us1 (graph_inv_done _ _ _ _ Hinv1)) as (m' & us' & -> & Hinv' & Hc' & Hr').
    { simpl in Hsz, Hfuel. lia. }
    exists m', us'. rewrite Hc', Hr', Hc1, Hr1. done.
  - destruct (IH m pending us (graph_inv_skip _ _ _ _ Hinv Hx)) as (m' & us' & -> & Hinv' & ?).
    { simpl in Hfuel. lia. }
    by exists m', us'.
Qed.

(** Processing the children of an accepted reference. *)
Lemma unsuspend_children_blocks_spec m x :
  graph_inv [] m [x] None [] →
  (∀ b, good b → is_valid_index (committee (bm_context m)) (vb_author b) = true) →
  ∃ m' bs, try_unsuspend_children_blocks m x = Ret (m', bs) ∧
    graph_inv bs m' [] None [] ∧
    bm_context m' = bm_context m ∧ bm_received_block_rounds m' = bm_received_block_rounds m.
Proof.
  intros Hinv Hgood. unfold try_unsuspend_children_blocks.
  destruct (unsuspend_loop_spec (S (size (bm_suspended_blocks m))) m [x] [] Hinv)
    as (m' & us & -> & Hinv' & Hc & Hr); [simpl; lia|].
  cbn [mbind outcome_bind]. exists m', (sp_block <$> us).
  rewrite (hostnames_valid m' (λ b, vb_author (sp_block b))); [done|].
  intros s Hs. rewrite Hc. apply Hgood. destruct (gi_blocks _ _ _ _ _ Hinv') as [_ Hb].
  apply Hb. apply list_elem_of_fmap. by exists s.
Qed.
End Graph.

(** ** The check of the ancestors of a block *)

Lemma check_ancestors_loop block_ref l m missing fetch :
  (∀ p, p ∈ l → is_valid_index (committee (bm_context m)) (br_author p.2) = true) →
  ∃ m' missing' fetch', foldM (check_ancestor block_ref) (m, missing, fetch) l = Ret (m', missing', fetch') ∧
    bm_suspended_blocks m' = bm_suspended_blocks m ∧ bm_context m' = bm_context m ∧
    bm_received_block_rounds m' = bm_received_block_rounds m ∧
    (∀ a, a ∈ missing' ↔ a ∈ missing ∨ (false, a) ∈ l) ∧
    (∀ a, a ∈ fetch' ↔ a ∈ fetch ∨ (false, a) ∈ l ∧ bm_suspended_blocks m !! a = None) ∧
    (∀ a r, r ∈ default ∅ (bm_missing_ancestors m' !! a) ↔
       r ∈ default ∅ (bm_missing_ancestors m !! a) ∨ r = block_ref ∧ (false, a) ∈ l) ∧
    (∀ a, is_Some (bm_missing_ancestors m' !! a) ↔ is_Some (bm_missing_ancestors m !! a) ∨ (false, a) ∈ l) ∧
    (∀ a, a ∈ bm_missing_blocks m' ↔
       a ∈ bm_missing_blocks m ∨ (false, a) ∈ l ∧ bm_suspended_blocks m !! a = None).
Proof.
  revert m missing fetch. induction l as [|[found a] l IH]; intros m missing fetch Hval.
  { exists m, missing, fetch. repeat (split; [done|]). set_solver. }
  assert (∀ p, p ∈ l → is_valid_index (committee (bm_context m)) (br_author p.2) = true) as Hval'
    by (intros p Hp; apply Hval; by apply list_elem_of_further).
  destruct found.
  { destruct (IH m missing fetch Hval') as (m' & missing' & fetch' & Hrun & Hrest).
    exists m', missing', fetch'. split; [done|].
    assert (∀ x : BlockRef, (false, x) ∈ (true, a) :: l ↔ (false, x) ∈ l) as Hin
      by (intros x; rewrite elem_of_cons; naive_solver).
    setoid_rewrite Hin. exact Hrest. }
  assert (∀ x : BlockRef, (false, x) ∈ (false, a) :: l ↔ x = a ∨ (false, x) ∈ l) as Hin
    by (intros x; rewrite elem_of_cons; naive_solver).
  setoid_rewrite Hin. clear Hin.
  set (m0 := m <| bm_missing_ancestors := add_child a block_ref (bm_missing_ancestors m) |>).
  set (m1 := match bm_suspended_blocks m !! a with Some _ => m0
             | None => m0 <| bm_missing_blocks := {[a]} ∪ bm_missing_blocks m |> end).
  set (fetch1 := match bm_suspended_blocks m !! a with Some _ => fetch | None => {[a]} ∪ fetch end).
  assert (check_ancestor block_ref (m, missing, fetch) (false, a) = Ret (m1, {[a]} ∪ missing, fetch1)) as Hstep.
  { unfold check_ancestor. fold m0. rewrite (hostname_valid m0 (br_author a)).
    - cbn [mbind outcome_bind]. unfold m1, fetch1. simpl. by destruct (bm_suspended_blocks m !! a).
    - apply (Hval (false, a)), list_elem_of_here. }
  assert (bm_suspended_blocks m1 = bm_suspended_blocks m ∧ bm_context m1 = bm_context m ∧
    bm_received_block_rounds m1 = bm_received_block_rounds m ∧
    bm_missing_ancestors m1 = add_child a block_ref (bm_missing_ancestors m)) as (Hs1 & Hc1 & Hr1 & Hma1)
    by (unfold m1; by destruct (bm_suspended_blocks m !! a)).
  destruct (IH m1 ({[a]} ∪ missing) fetch1) as
    (m' & missing' & fetch' & Hrun & Hs & Hc & Hr & Hmiss & Hfetch & Hedges & Hkeys & Hmb).
  { by rewrite Hc1. }
  exists m', missing', fetch'. cbn [foldM]. rewrite Hstep. cbn [mbind outcome_bind].
  split; [done|]. split; [by rewrite Hs|]. split; [by rewrite Hc|]. split; [by rewrite Hr|].
  assert (∀ x : BlockRef, bm_missing_ancestors m1 !! x =
    if decide (x = a) then Some ({[block_ref]} ∪ default ∅ (bm_missing_ancestors m !! a))
    else bm_missing_ancestors m !! x) as Hlk.
  { intros x. rewrite Hma1. unfold add_child. case_decide; [by subst; rewrite lookup_insert_eq|].
    by rewrite lookup_insert_ne. }
  split; [intros x; rewrite Hmiss; set_solver|]. split; [|split; [|split]].
  - intros x. rewrite Hfetch, Hs1. unfold fetch1.
    destruct (bm_suspended_blocks m !! a) eqn:Ha; [|set_solver]. naive_solver.
  - intros x r. rewrite Hedges, Hlk. case_decide; [subst; simpl; set_solver|naive_solver].
  - intros x. rewrite Hkeys, Hlk. case_decide as Hx; [|naive_solver].
    split; intros _; [right; by left|left; by eexists].
  - intros x. rewrite Hmb, Hs1. unfold m1. destruct (bm_suspended_blocks m !! a) eqn:Ha; simpl; [naive_solver|].
    set_solver.
Qed.

(** ** Changing what is known *)

(** The blocks that left the manager are now known. *)
Lemma graph_inv_settle known known' need good bs m :
  graph_inv known need good bs m [] None [] → (∀ r, known' r ↔ accepted_ref known bs r) →
  graph_inv known' need good [] m [] None [].
Proof.
  intros [Hsusp Hsub Hedges Hchild Hfetch Hkeys Hcomp Hpend Hcaus Hvalid Hblocks] Hk.
  assert (∀ r, accepted_ref known' [] r ↔ accepted_ref known bs r) as Hacc.
  { intros r. unfold accepted_ref at 1. rewrite Hk. simpl. set_solver. }
  split; try done.
  - intros r s Hs. rewrite Hacc. by apply Hsusp.
  - intros a Ha. rewrite Hacc. by apply Hkeys.
  - intros r s a Hs Ha Hn. rewrite Hacc. by eapply Hcomp.
  - intros r Hr. by apply elem_of_nil in Hr.
  - split; [constructor|]. intros b Hb. by apply elem_of_nil in Hb.
Qed.

(** A new reference becomes known: its children are to be processed. *)
Lemma graph_inv_learn known need good m r :
  graph_inv known need good [] m [] None [] → bm_suspended_blocks m !! r = None →
  graph_inv (λ x, known x ∨ x = r) need good []
    (m <| bm_missing_blocks := bm_missing_blocks m ∖ {[r]} |>) [r] None [].
Proof.
  intros [Hsusp Hsub Hedges Hchild Hfetch Hkeys Hcomp Hpend Hcaus Hvalid Hblocks] Hr.
  assert (∀ x, accepted_ref (λ x, known x ∨ x = r) [] x ↔ accepted_ref known [] x ∨ x = r) as Hacc
    by (intros x; unfold accepted_ref; tauto).
  split; cbn [bm_suspended_blocks bm_missing_ancestors bm_missing_blocks set const]; try done.
  - intros x s Hs. destruct (Hsusp x s Hs) as (? & ? & ? & ?). rewrite Hacc.
    split; [done|]. split; [done|]. split; [|done]. intros [?| ->]; congruence.
  - intros a. rewrite elem_of_difference, Hfetch, elem_of_singleton, list_elem_of_singleton. set_solver.
  - intros a Ha. rewrite Hacc, list_elem_of_singleton. intros [Hk| ->]; [|done].
    by apply (Hkeys a Ha), elem_of_nil in Hk.
  - intros x s a Hs Ha Hn. rewrite Hacc. destruct (Hcomp x s a Hs Ha Hn); tauto.
  - intros x ->%list_elem_of_singleton. rewrite Hacc. by right.
  - split; [constructor|]. intros b Hb. by apply elem_of_nil in Hb.
Qed.

(** A block with missing ancestors is suspended. *)
Lemma graph_inv_suspend known need good m m' b missing :
  graph_inv known need good [] m [] None [] →
  bm_suspended_blocks m !! reference b = None → ¬ known (reference b) → good b → missing ≠ ∅ →
  (∀ a, a ∈ missing → a ∈ vb_ancestors b ∧ ¬ known a ∧ a ≠ reference b) →
  (∀ a, a ∈ vb_ancestors b → need a → a ∈ missing ∨ known a) →
  bm_suspended_blocks m' = <[reference b := mkSuspendedBlock b missing]> (bm_suspended_blocks m) →
  bm_context m' = bm_context m →
  (∀ a, a ∈ missing → is_valid_index (committee (bm_context m)) (br_author a) = true) →
  (∀ a r, r ∈ default ∅ (bm_missing_ancestors m' !! a) ↔
     r ∈ default ∅ (bm_missing_ancestors m !! a) ∨ r = reference b ∧ a ∈ missing) →
  (∀ a, is_Some (bm_missing_ancestors m' !! a) ↔ is_Some (bm_missing_ancestors m !! a) ∨ a ∈ missing) →
  (∀ a, a ∈ bm_missing_blocks m' ↔ a ≠ reference b ∧
     (a ∈ bm_missing_blocks m ∨ a ∈ missing ∧ bm_suspended_blocks m !! a = None)) →
  graph_inv known need good [] m' [] None [].
Proof.
  intros [Hsusp Hsub Hedges Hchild Hfetch Hkeys Hcomp Hpend Hcaus Hvalid Hblocks] Hnone Hnk Hgood Hne Hmiss Hcompl
    Hs' Hctx' Hval' Hedges' Hkeys' Hmb'.
  assert (∀ x, accepted_ref known [] x ↔ known x) as Hacc
    by (intros x; unfold accepted_ref; simpl; set_solver).
  split; rewrite ?Hs'; try done.
  - intros r s [[<- <-]|[_ Hs]]%lookup_insert_Some; [|by apply Hsusp]. rewrite Hacc. done.
  - intros r s a [[<- <-]|[_ Hs]]%lookup_insert_Some Ha; [|by apply (Hsub r s a Hs)]. by apply Hmiss.
  - intros a r. rewrite Hedges', Hedges. destruct (decide (reference b = r)) as [<-|Hn].
    + rewrite Hnone, lookup_insert_eq. naive_solver.
    + rewrite lookup_insert_ne by done. naive_solver.
  - intros a. rewrite Hmb', Hfetch, Hkeys'. destruct (decide (reference b = a)) as [<-|Hn].
    + rewrite lookup_insert_eq. naive_solver.
    + rewrite lookup_insert_ne by done. pose proof (not_elem_of_nil a). naive_solver.
  - intros a. rewrite Hkeys', Hacc. intros [Ha|Ha] Hk; [|by destruct (Hmiss a Ha) as (_ & ? & _)].
    apply (Hkeys a Ha). by apply Hacc.
  - intros r s a [[<- <-]|[_ Hs]]%lookup_insert_Some Ha Hn; [|by eapply Hcomp]. rewrite Hacc. by apply Hcompl.
  - intros a. rewrite Hctx', Hkeys'. intros [Ha|Ha]; [by apply Hvalid|by apply Hval'].
Qed.

(** * The manager of a node *)

Section Node.
Context {S : Type} `{StoreSpec S}.
Implicit Types d : DagState S.
Context (ctx : Context) (byz : gset N) (G : universe).
Let c := committee ctx.
Context (HG : bft c byz G) (Hown : own_index ctx ∉ byz).

(** What verification guarantees of the blocks the manager is given. *)
Definition good (genesis : gmap BlockRef VerifiedBlock) (b : VerifiedBlock) : Prop :=
  G (reference b) = Some b ∧ ref_bounded (reference b) ∧ 0 < vb_round b ∧
  is_valid_index c (vb_author b) = true ∧
  ∀ a, a ∈ vb_ancestors b → is_valid_index c (br_author a) = true ∧ br_round a < vb_round b ∧
    (br_round a = GENESIS_ROUND → is_Some (genesis !! a)).

Definition known d (r : BlockRef) : Prop := is_Some (dag_lookup d r).
Definition needed d (r : BlockRef) : Prop := dag_gc_round d < br_round r.

(** The invariant of the manager, relative to the DAG state. *)
Record bm_inv (m : BlockManager) d : Prop := {
  bi_graph : graph_inv (known d) (needed d) (good (ds_genesis d)) [] m [] None [];
  bi_context : bm_context m = ctx;
  bi_received : N.of_nat (length (bm_received_block_rounds m)) = Committee_size c;
}.

Lemma genesis_known d a : br_round a = 0 → is_Some (ds_genesis d !! a) → known d a.
Proof. intros Hz Ha. unfold known, dag_lookup. by rewrite Hz. Qed.

(** An own block enters the cache once: authorities outside [byz] do not equivocate. *)
Lemma own_slot_free d log b :
  node_ok ctx G d log → G (reference b) = Some b → dag_lookup d (reference b) = None → slot_free d b.
Proof.
  intros Hd Hb Hno Hauth r Hslot. destruct (ds_recent_blocks d !! r) as [i|] eqn:Hi; [exfalso|done].
  pose proof (no_view ctx G d log Hd) as Hv.
  pose proof (dag_lookup_recent d r i (dwf_cache d (vo_wf d (v_ok c G d Hv))) Hi) as Hlk.
  pose proof (v_sub c G d Hv r _ Hlk) as HGi. pose proof (bft_ref c byz G HG r _ HGi) as Href.
  assert (bi_block i = b) as Heq.
  { apply (bft_honest c byz G HG).
    - unfold block_in. by rewrite Href.
    - done.
    - by rewrite Href.
    - assert (vb_author (bi_block i) = vb_author b) as ->.
      { rewrite <- Href in Hslot. by apply (f_equal slot_authority) in Hslot. }
      by rewrite Hauth, (no_context ctx G d log Hd). }
  rewrite Heq in Href. rewrite Href in Hno. congruence.
Qed.

(** Accepting blocks in causal order. *)
Lemma accept_blocks_spec bs d log :
  node_ok ctx G d log → (∀ b, b ∈ bs → good (ds_genesis d) b) → causal (needed d) (known d) bs →
  ∃ d', accept_blocks d bs = Ret d' ∧ rtc (node_step ctx G) d d' ∧ node_ok ctx G d' log ∧
    ds_genesis d' = ds_genesis d ∧ dag_gc_round d' = dag_gc_round d ∧
    ∀ r, known d' r ↔ accepted_ref (known d) bs r.
Proof.
  revert d. induction bs as [|b bs IH]; intros d Hd Hgood Hcaus.
  { exists d. split; [done|]. split; [apply rtc_refl|]. repeat (split; [done|]).
    intros r. unfold accepted_ref. simpl. set_solver. }
  destruct (Hgood b (list_elem_of_here _ _)) as (HGb & Hbound & Hr & Hval & Hanc).
  pose proof (no_view ctx G d log Hd) as Hv. pose proof (vo_wf d (v_ok c G d Hv)) as Hwf.
  pose proof (v_committee c G d Hv) as Hcom.
  assert (∃ d1, accept_block d b = Ret d1 ∧ ds_genesis d1 = ds_genesis d ∧
    dag_gc_round d1 = dag_gc_round d ∧ ∀ r, known d1 r ↔ known d r ∨ r = reference b)
    as (d1 & Hrun & Hgen & Hgc & Hk).
  { destruct (dag_lookup d (reference b)) as [b0|] eqn:Hlk.
    - exists d. rewrite (accept_block_contained d b b0) by (done || by rewrite Hcom). repeat (split; [done|]).
      intros r. split; [by left|]. intros [?| ->]; [done|by exists b0].
    - destruct (accept_block_new d b Hwf Hbound Hr) as [Hok _]; [by rewrite Hcom|done|].
      destruct (Hok (own_slot_free d log b Hd HGb Hlk)) as (d1 & Hrun & Hacc & _).
      exists d1. split; [done|]. split; [apply Hacc|].
      split; [unfold dag_gc_round, calculate_gc_round, last_commit_round; by rewrite (acc_last_commit _ _ _ Hacc), (acc_context _ _ _ Hacc)|].
      intros r. unfold known. rewrite (accepted_lookup d b d1 r Hr Hacc). case_decide; [|naive_solver].
      split; [by right|]. intros _. by eexists. }
  assert (node_step ctx G d d1) as Hstep.
  { apply (ns_accept ctx G d d1 b); [done|split; [done|split; [done|by rewrite Hcom]]| |done].
    intros a Ha. destruct (Hanc a Ha) as (? & ? & Hg). split; [done|]. intros [Hz|Hgr].
    - apply genesis_known; [done|]. by apply Hg.
    - destruct (Hcaus 0%nat b a eq_refl Ha Hgr) as [?|Hin]; [done|]. simpl in Hin. by apply elem_of_nil in Hin. }
  destruct (IH d1) as (d' & Hrun' & Hsteps & Hd' & Hgen' & Hgc' & Hk').
  - by eapply (node_step_ok ctx byz G HG).
  - intros b' Hb'. rewrite Hgen. apply Hgood. by apply list_elem_of_further.
  - intros k b' a Hb' Ha Hn. unfold needed in Hn. rewrite Hgc in Hn.
    destruct (Hcaus (Datatypes.S k) b' a Hb' Ha Hn) as [?|Hin]; [left; apply Hk; by left|].
    cbn [take] in Hin. rewrite fmap_cons, elem_of_cons in Hin.
    destruct Hin as [->|?]; [left; apply Hk; by right|by right].
  - exists d'. unfold accept_blocks in *. cbn [foldM]. rewrite Hrun. split; [done|].
    split; [by eapply rtc_l|]. split; [done|]. split; [congruence|]. split; [congruence|].
    intros r. rewrite Hk'. unfold accepted_ref. rewrite Hk, fmap_cons, elem_of_cons. tauto.
Qed.

Lemma zip_found {A} (f : A → bool) l a : (false, a) ∈ zip (f <$> l) l ↔ a ∈ l ∧ f a = false.
Proof.
  induction l as [|x l IH]; simpl; [set_solver|]. rewrite !elem_of_cons, IH. split.
  - intros [[= Hx ->]|[? ?]]; auto.
  - intros [[->|?] Hf]; [left; by rewrite Hf|auto].
Qed.

Lemma zip_found_snd {A} (f : A → bool) l p : p ∈ zip (f <$> l) l → p.2 ∈ l.
Proof.
  induction l as [|x l IH]; simpl; [set_solver|]. rewrite !elem_of_cons. intros [->|Hp]; [by left|]. auto.
Qed.

Lemma check_ancestors_found r acc l :
  (∀ a : BlockRef, (false, a) ∉ l) → foldM (check_ancestor r) acc l = Ret acc.
Proof.
  revert acc. induction l as [|[[] a] l IH]; intros [[m ms] f] Hl; [done| |].
  - cbn. apply IH. intros x Hx. apply (Hl x). by apply list_elem_of_further.
  - destruct (Hl a). apply list_elem_of_here.
Qed.

Lemma accepted_ref_nil K r : accepted_ref K [] r ↔ K r.
Proof. clear HG Hown. unfold accepted_ref. simpl. set_solver. Qed.

(** The outcome for one block: known already, below the garbage collection round, accepted
    with its needed ancestors known, or suspended. *)
Lemma try_accept_one_spec m d log b :
  node_ok ctx G d log → bm_inv m d → good (ds_genesis d) b →
  ∃ m' res, try_accept_one_block m d b = Ret (m', res) ∧ bm_context m' = ctx ∧
    bm_received_block_rounds m' = bm_received_block_rounds m ∧
    match res with
    | TarProcessed => m' = m ∧ (is_Some (bm_suspended_blocks m !! reference b) ∨ known d (reference b))
    | TarSkipped => m' = m ∧ vb_round b ≤ dag_gc_round d
    | TarAccepted b' => b' = b ∧ bm_suspended_blocks m' = bm_suspended_blocks m ∧
        ¬ known d (reference b) ∧
        (∀ a, a ∈ vb_ancestors b → needed d a → known d a) ∧
        graph_inv (λ x, known d x ∨ x = reference b) (needed d) (good (ds_genesis d)) [] m' [reference b] None []
    | TarSuspended fetch => graph_inv (known d) (needed d) (good (ds_genesis d)) [] m' [] None [] ∧
        is_Some (bm_suspended_blocks m' !! reference b) ∧
        (∀ r, is_Some (bm_suspended_blocks m !! r) → is_Some (bm_suspended_blocks m' !! r)) ∧
        ∀ a, a ∈ fetch → a ∈ vb_ancestors b ∧ needed d a ∧ ¬ known d a ∧ a ∈ bm_missing_blocks m'
    end.
Proof.
  intros Hd [Hinv Hctx Hrec] Hgood. pose proof Hgood as (HGb & Hbound & Hr & Hval & Hanc).
  pose proof (no_view ctx G d log Hd) as Hv. pose proof (vo_wf d (v_ok c G d Hv)) as Hwf.
  pose proof (v_committee c G d Hv) as Hcom. unfold try_accept_one_block.
  destruct (bm_suspended_blocks m !! reference b) as [s|] eqn:Hs.
  { exists m, TarProcessed. cbn [mbind outcome_bind]. repeat (split; [done|]). left. by eexists. }
  rewrite contains_block_lookup by (done || by rewrite Hcom). cbn [mbind outcome_bind].
  destruct (decide (known d (reference b))) as [Hk|Hk];
    [rewrite bool_decide_true by done|rewrite bool_decide_false by done].
  { exists m, TarProcessed. repeat (split; [done|]). by right. }
  destruct (N.leb_spec (vb_round b) (dag_gc_round d)) as [Hgc|Hgc].
  { exists m, TarSkipped. rewrite hostname_valid by (by rewrite Hctx). by repeat (split; [done|]). }
  set (ancestors := filter _ (vb_ancestors b)).
  assert (∀ a, a ∈ ancestors ↔ (br_round a = GENESIS_ROUND ∨ needed d a) ∧ a ∈ vb_ancestors b) as Hin
    by (intros a; unfold ancestors, needed; by rewrite list_elem_of_filter).
  rewrite contains_blocks_lookup; [|done|].
  2: { apply Forall_forall. intros a [_ Ha]%Hin. rewrite Hcom. by apply Hanc. }
  cbn [mbind outcome_bind].
  destruct (check_ancestors_loop (reference b)
    (zip ((λ r, bool_decide (is_Some (dag_lookup d r))) <$> ancestors) ancestors) m ∅ ∅)
    as (m1 & missing & fetch & Hrun & Hs1 & Hc1 & Hr1 & Hmiss & Hfetch & Hedges & Hkeys & Hmb).
  { intros p [_ Hp]%zip_found_snd%Hin. rewrite Hctx. by apply Hanc. }
  rewrite Hrun. cbn [mbind outcome_bind].
  assert (∀ a, (false, a) ∈ zip ((λ r, bool_decide (is_Some (dag_lookup d r))) <$> ancestors) ancestors ↔
    a ∈ missing) as Hzip by (intros a; rewrite Hmiss; set_solver).
  setoid_rewrite Hzip in Hedges. setoid_rewrite Hzip in Hkeys. setoid_rewrite Hzip in Hmb.
  setoid_rewrite Hzip in Hfetch.
  assert (∀ a, a ∈ missing ↔ a ∈ vb_ancestors b ∧ needed d a ∧ ¬ known d a) as Hm.
  { intros a. rewrite <- Hzip, zip_found, Hin, bool_decide_eq_false. split; [|tauto].
    intros [[[Hz|Hn] Ha] Hnk]; [|done]. exfalso. apply Hnk, genesis_known; [done|]. by apply Hanc. }
  destruct (decide (missing = ∅)) as [He|He];
    [rewrite bool_decide_true by done|rewrite bool_decide_false by done].
  - rewrite check_ancestors_found in Hrun by (intros a Ha%Hzip; set_solver).
    injection Hrun as <- <- <-. eexists _, _. split; [done|]. repeat (split; [done|]).
    split; [|by apply graph_inv_learn].
    intros a Ha Hn. destruct (decide (known d a)) as [?|Hna]; [done|].
    assert (a ∈ (∅ : gset BlockRef)) by (by apply Hm). set_solver.
  - rewrite hostname_valid by (simpl; by rewrite Hc1, Hctx). cbn [mbind outcome_bind].
    eexists _, _. split; [done|]. split; [simpl; by rewrite Hc1|]. split; [done|].
    split; [|split; [simpl; rewrite lookup_insert_eq; by eexists|split]].
    + eapply (graph_inv_suspend _ _ _ m _ b missing); try done.
      * intros a (? & ? & ?)%Hm. split; [done|]. split; [done|]. intros ->.
        destruct (Hanc (reference b)) as (_ & ? & _); [done|]. simpl in *. lia.
      * intros a Ha Hn. rewrite Hm. destruct (decide (known d a)); tauto.
      * simpl. by rewrite Hs1.
      * intros a (Ha & _)%Hm. rewrite Hctx. by apply Hanc.
      * intros a. simpl. rewrite elem_of_difference, Hmb, elem_of_singleton. tauto.
    + intros r Hrs. simpl. rewrite Hs1. destruct (decide (reference b = r)) as [<-|Hn].
      * rewrite lookup_insert_eq. by eexists.
      * by rewrite lookup_insert_ne.
    + intros a. rewrite Hfetch. intros [?|[Ha Hsa]]; [set_solver|].
      pose proof (proj1 (Hm a) Ha) as (Hab & Hn & Hnk). repeat (split; [done|]).
      simpl. rewrite elem_of_difference, Hmb, elem_of_singleton. split; [by right|]. intros ->.
      destruct (Hanc (reference b) Hab) as (_ & ? & _). simpl in *. lia.
Qed.

(** Nothing leaves the suspended blocks without being handed over for acceptance. *)
Definition tracks (T : BlockRef → Prop) (m : BlockManager) (bs : list VerifiedBlock) : Prop :=
  (∀ r s, bm_suspended_blocks m !! r = Some s → reference (sp_block s) = r) ∧
  ∀ r, T r → is_Some (bm_suspended_blocks m !! r) ∨ r ∈ reference <$> bs.

Lemma unsuspend_children_tracks T x cs m pending us m' pending' us' :
  foldM (unsuspend_child x) (m, pending, us) cs = Ret (m', pending', us') →
  tracks T m (sp_block <$> us) → tracks T m' (sp_block <$> us').
Proof.
  revert m pending us. induction cs as [|r cs IH]; intros m pending us Hrun Ht; [by injection Hrun as <- _ <-|].
  cbn [foldM unsuspend_child] in Hrun. unfold try_unsuspend_block in Hrun.
  destruct Ht as [Href Ht]. destruct (bm_suspended_blocks m !! r) as [s|] eqn:Hs; [|done].
  cbn [expect mbind outcome_bind] in Hrun. destruct (bool_decide (x ∈ _)); [|done].
  cbn [assert_that mbind outcome_bind sp_missing_ancestors sp_block] in Hrun.
  case_bool_decide; cbn [mbind outcome_bind] in Hrun; eapply IH; try done; split; simpl.
  - intros r' s' [_ Hs']%lookup_delete_Some. by apply Href.
  - intros r' Hr'. rewrite fmap_app, fmap_app. csimpl. rewrite elem_of_app, list_elem_of_singleton.
    destruct (decide (r = r')) as [<-|Hn]; [right; right; symmetry; by apply Href|].
    rewrite lookup_delete_ne by done. destruct (Ht r' Hr'); [by left|right; by left].
  - intros r' s' [[<- <-]|[_ Hs']]%lookup_insert_Some; [simpl|]; by apply Href.
  - intros r' Hr'. destruct (decide (r = r')) as [<-|Hn]; [rewrite lookup_insert_eq; left; by eexists|].
    rewrite lookup_insert_ne by done. by apply Ht.
Qed.

Lemma unsuspend_loop_tracks T fuel m pending us m' us' :
  unsuspend_loop fuel m pending us = Ret (m', us') →
  tracks T m (sp_block <$> us) → tracks T m' (sp_block <$> us').
Proof.
  revert m pending us. induction fuel as [|fuel IH]; intros m [|x pending] us Hrun Ht;
    cbn [unsuspend_loop] in Hrun; [by injection Hrun as <- <-|done|by injection Hrun as <- <-|].
  destruct (bm_missing_ancestors m !! x) as [cs|]; [|by eapply IH].
  destruct (foldM _ _ _) as [[[m1 pending1] us1]|] eqn:Hf; [|done].
  cbn [mbind outcome_bind] in Hrun. eapply IH; [done|]. by eapply unsuspend_children_tracks.
Qed.

Lemma unsuspend_blocks_track m x m' bs r :
  try_unsuspend_children_blocks m x = Ret (m', bs) →
  (∀ r s, bm_suspended_blocks m !! r = Some s → reference (sp_block s) = r) →
  is_Some (bm_suspended_blocks m !! r) → is_Some (bm_suspended_blocks m' !! r) ∨ r ∈ reference <$> bs.
Proof.
  intros Hrun Href Hr. unfold try_unsuspend_children_blocks in Hrun.
  destruct (unsuspend_loop _ _ _ _) as [[m1 us]|] eqn:Hl; [|done]. cbn [mbind outcome_bind] in Hrun.
  destruct (foldM _ _ us); [|done]. injection Hrun as <- <-.
  destruct (unsuspend_loop_tracks (λ r, is_Some (bm_suspended_blocks m !! r)) _ _ _ _ _ _ Hl) as [_ Ht].
  - split; [done|]. auto.
  - by apply Ht.
Qed.

Lemma update_received_spec m d b :
  bm_inv m d → is_valid_index c (vb_author b) = true →
  ∃ rounds, update_block_received_metrics m b = Ret (m <| bm_received_block_rounds := rounds |>) ∧
    bm_inv (m <| bm_received_block_rounds := rounds |>) d.
Proof.
  intros [Hinv Hctx Hrec] Hval. unfold update_block_received_metrics.
  assert (vb_author b < Committee_size c) as Hlt by (unfold is_valid_index in Hval; by apply bool_decide_eq_true in Hval).
  destruct (lookup_lt_is_Some_2 (bm_received_block_rounds m) (N.to_nat (vb_author b))) as [cur Hcur]; [lia|].
  unfold vec_get, vec_set. rewrite Hcur. cbn [expect mbind outcome_bind].
  rewrite decide_True by lia. cbn [mbind outcome_bind].
  eexists (<[N.to_nat (vb_author b) := _]> (bm_received_block_rounds m)).
  rewrite (hostname_valid m) by (by rewrite Hctx). split; [done|]. split; simpl.
  - destruct Hinv. by split.
  - done.
  - by rewrite length_insert.
Qed.

(** What accepting blocks does to the node: the blocks [new] enter the DAG state in causal
    order, nothing else does, and no block is lost. *)
Record accept_effect (log : commit_log) (m : BlockManager) d (m' : BlockManager) d'
    (new : list VerifiedBlock) : Prop := {
  ae_inv : bm_inv m' d';
  ae_steps : rtc (node_step ctx G) d d';
  ae_node : node_ok ctx G d' log;
  ae_genesis : ds_genesis d' = ds_genesis d;
  ae_gc : dag_gc_round d' = dag_gc_round d;
  ae_causal : causal (needed d) (known d) new;
  ae_fresh : NoDup (reference <$> new) ∧ ∀ b, b ∈ new → ¬ known d (reference b);
  ae_known : ∀ r, known d' r ↔ accepted_ref (known d) new r;
  ae_kept : ∀ r, is_Some (bm_suspended_blocks m !! r) →
    is_Some (bm_suspended_blocks m' !! r) ∨ known d' r;
}.

Lemma needed_gc d d' r : dag_gc_round d' = dag_gc_round d → needed d' r ↔ needed d r.
Proof. clear HG Hown. unfold needed. by intros ->. Qed.

Lemma accept_effect_refl log m d : bm_inv m d → node_ok ctx G d log → accept_effect log m d m d [].
Proof.
  intros Hm Hd. split; [done|apply rtc_refl|done|done|done| | | |].
  - intros k b a Hk. by rewrite lookup_nil in Hk.
  - split; [constructor|]. intros b Hb. by apply elem_of_nil in Hb.
  - intros r. by rewrite accepted_ref_nil.
  - by left.
Qed.

Lemma accept_effect_trans log m d m1 d1 m2 d2 new1 new2 :
  accept_effect log m d m1 d1 new1 → accept_effect log m1 d1 m2 d2 new2 →
  accept_effect log m d m2 d2 (new1 ++ new2).
Proof.
  intros [? Hs1 ? Hg1 Hc1 Hcaus1 [Hnd1 Hf1] Hk1 Hkept1] [? Hs2 ? Hg2 Hc2 Hcaus2 [Hnd2 Hf2] Hk2 Hkept2].
  split; [done|by etrans|done|congruence|congruence| | | |].
  - intros k b a Hk Ha Hn. apply lookup_app_Some in Hk as [Hk|[Hge Hk]].
    + destruct (Hcaus1 k b a Hk Ha Hn) as [?|Hin]; [by left|right].
      by rewrite take_app_le by (apply lookup_lt_Some in Hk; lia).
    + rewrite take_app_ge by done. rewrite fmap_app, elem_of_app.
      destruct (Hcaus2 _ b a Hk Ha) as [[?|?]%Hk1|?]; [by eapply needed_gc|tauto..].
  - split.
    + rewrite fmap_app. apply NoDup_app. split; [done|]. split; [|done].
      intros r Hr (b & -> & Hb)%list_elem_of_fmap. apply (Hf2 b Hb), Hk1. by right.
    + intros b [Hb|Hb]%elem_of_app; [by apply Hf1|]. intros Hk. apply (Hf2 b Hb), Hk1. by left.
  - intros r. rewrite Hk2. unfold accepted_ref. rewrite Hk1, fmap_app, elem_of_app. unfold accepted_ref. tauto.
  - intros r Hr. destruct (Hkept1 r Hr) as [Hr1|Hr1]; [by apply Hkept2|right]. apply Hk2. by left.
Qed.

(** The blocks that follow an accepted block. *)
Lemma finish_accept log m d m' b :
  node_ok ctx G d log → bm_inv m d → good (ds_genesis d) b → ¬ known d (reference b) →
  (∀ a, a ∈ vb_ancestors b → needed d a → known d a) →
  bm_context m' = ctx → bm_received_block_rounds m' = bm_received_block_rounds m →
  (∀ r, r ≠ reference b → bm_suspended_blocks m' !! r = bm_suspended_blocks m !! r) →
  graph_inv (λ x, known d x ∨ x = reference b) (needed d) (good (ds_genesis d)) [] m' [reference b] None [] →
  ∃ m'' us d', try_unsuspend_children_blocks m' (reference b) = Ret (m'', us) ∧
    accept_blocks d ([b] ++ us) = Ret d' ∧ accept_effect log m d m'' d' (b :: us).
Proof.
  intros Hd [Hinv Hctx Hrec] Hgood Hnk Hanc Hctx' Hrec' Hs' Hinv'.
  destruct (unsuspend_children_blocks_spec _ _ _ m' _ Hinv') as (m'' & us & Hrun & Hinv'' & Hc'' & Hr'').
  { rewrite Hctx'. intros b' (_ & _ & _ & ? & _). done. }
  pose proof (gi_causal _ _ _ _ _ _ _ _ Hinv'') as Hcaus.
  destruct (gi_blocks _ _ _ _ _ _ _ _ Hinv'') as [Hnd Hus].
  assert (causal (needed d) (known d) (b :: us)) as Hcaus'.
  { intros [|k] b' a Hk Ha Hn; [injection Hk as <-; left; by apply Hanc|]. simpl. rewrite elem_of_cons.
    destruct (Hcaus k b' a Hk Ha Hn) as [[?|?]|?]; tauto. }
  destruct (accept_blocks_spec (b :: us) d log Hd) as (d' & Hrun' & Hsteps & Hd' & Hgen & Hgc & Hk); [|done|].
  { intros b' [->|Hb']%elem_of_cons; [done|]. by apply Hus. }
  exists m'', us, d'. split; [done|]. split; [done|].
  assert (∀ r, known d' r ↔ accepted_ref (λ x, known d x ∨ x = reference b) us r) as Hk'.
  { intros r. rewrite Hk. unfold accepted_ref. rewrite fmap_cons, elem_of_cons. tauto. }
  split; try done.
  - split; [|congruence|by rewrite Hr'', Hrec']. rewrite Hgen.
    unfold needed at 1. rewrite Hgc. by eapply graph_inv_settle.
  - rewrite fmap_cons. split; [apply NoDup_cons; split; [|done]|].
    + intros (b' & Heq & Hb')%list_elem_of_fmap. destruct (Hus b' Hb') as [Hno _]. apply Hno. by right.
    + intros b' [->|Hb']%elem_of_cons; [done|]. intros Hk1. destruct (Hus b' Hb') as [Hno _]. apply Hno. by left.
  - intros r Hr. rewrite Hk'. destruct (decide (r = reference b)) as [->|Hn]; [right; left; by right|].
    rewrite <- Hs' in Hr by done.
    assert (∀ r' s, bm_suspended_blocks m' !! r' = Some s → reference (sp_block s) = r') as Href
      by (intros r' s Hrs; by apply (gi_susp _ _ _ _ _ _ _ _ Hinv')).
    destruct (unsuspend_blocks_track m' (reference b) m'' us r Hrun Href Hr); [by left|right; by right].
Qed.

Lemma accept_one_spec log m d acc miss b :
  node_ok ctx G d log → bm_inv m d → good (ds_genesis d) b →
  ∃ m' d' new fetch, accept_one false (m, d, acc, miss) b = Ret (m', d', acc ++ new, miss ∪ fetch) ∧
    accept_effect log m d m' d' new ∧
    (known d' (reference b) ∨ is_Some (bm_suspended_blocks m' !! reference b) ∨ vb_round b ≤ dag_gc_round d) ∧
    ∀ a, a ∈ fetch → a ∈ vb_ancestors b ∧ needed d a ∧ ¬ known d a.
Proof.
  intros Hd Hm Hgood. unfold accept_one.
  destruct (update_received_spec m d b Hm) as (rounds & -> & Hm1); [by apply Hgood|].
  cbn [mbind outcome_bind]. set (m1 := m <| bm_received_block_rounds := rounds |>) in *.
  assert (∀ m' d' new, accept_effect log m1 d m' d' new → accept_effect log m d m' d' new) as Hweak
    by (intros ??? []; by split).
  destruct (try_accept_one_spec m1 d log b Hd Hm1 Hgood) as (m2 & res & -> & Hc2 & Hr2 & Hres).
  cbn [mbind outcome_bind]. assert (miss = miss ∪ ∅) as Hmiss by set_solver.
  assert (∀ P : BlockRef → Prop, ∀ a : BlockRef, a ∈ (∅ : gset BlockRef) → P a) as Hnone by set_solver.
  destruct res as [b'|fetch| |].
  - destruct Hres as (-> & Hs2 & Hnk & Hanc & Hinv).
    destruct (finish_accept log m1 d m2 b) as (m3 & us & d' & -> & Hrun & Heff);  [done..|by rewrite Hs2|done|].
    cbn [mbind outcome_bind]. rewrite Hrun. cbn [mbind outcome_bind].
    exists m3, d', (b :: us), ∅. rewrite <- Hmiss. split; [done|]. split; [|split; [left|apply Hnone]].
    + by apply Hweak.
    + apply (ae_known _ _ _ _ _ _ Heff). right. apply list_elem_of_here.
  - destruct Hres as (Hinv & Hsb & Hkept & Hfetch). exists m2, d, [], fetch. rewrite app_nil_r.
    split; [done|]. split; [|split; [right; by left|]].
    + apply Hweak. destruct (accept_effect_refl log m1 d Hm1 Hd). split; try done.
      * split; [done|done|]. by rewrite Hr2, (bi_received m1 d Hm1).
      * intros r Hr. left. by apply Hkept.
    + intros a Ha. by destruct (Hfetch a Ha) as (? & ? & ? & _).
  - destruct Hres as (-> & Hk). exists m1, d, [], ∅. rewrite app_nil_r, <- Hmiss. split; [done|].
    split; [by apply Hweak, accept_effect_refl|split; [tauto|apply Hnone]].
  - destruct Hres as (-> & Hk). exists m1, d, [], ∅. rewrite app_nil_r, <- Hmiss. split; [done|].
    split; [by apply Hweak, accept_effect_refl|split; [tauto|apply Hnone]].
Qed.

Lemma accept_many_spec log blocks m d acc miss :
  node_ok ctx G d log → bm_inv m d → (∀ b, b ∈ blocks → good (ds_genesis d) b) →
  ∃ m' d' new fetch, foldM (accept_one false) (m, d, acc, miss) blocks = Ret (m', d', acc ++ new, miss ∪ fetch) ∧
    accept_effect log m d m' d' new ∧
    (∀ b, b ∈ blocks → known d' (reference b) ∨ is_Some (bm_suspended_blocks m' !! reference b) ∨
       vb_round b ≤ dag_gc_round d) ∧
    ∀ a, a ∈ fetch → needed d a ∧ ¬ known d a ∧ ∃ b, b ∈ blocks ∧ a ∈ vb_ancestors b.
Proof.
  revert m d acc miss. induction blocks as [|b blocks IH]; intros m d acc miss Hd Hm Hgood.
  { exists m, d, [], ∅. rewrite app_nil_r, (right_id_L ∅ (∪)). split; [done|].
    split; [by apply accept_effect_refl|]. split; set_solver. }
  destruct (accept_one_spec log m d acc miss b Hd Hm) as (m1 & d1 & new1 & f1 & Hrun1 & Heff1 & Hb1 & Hf1);
    [apply Hgood, list_elem_of_here|].
  destruct (IH m1 d1 (acc ++ new1) (miss ∪ f1)) as (m2 & d2 & new2 & f2 & Hrun2 & Heff2 & Hb2 & Hf2);
    [apply Heff1|apply Heff1| |].
  { intros b' Hb'. rewrite (ae_genesis _ _ _ _ _ _ Heff1). apply Hgood. by apply list_elem_of_further. }
  exists m2, d2, (new1 ++ new2), (f1 ∪ f2). cbn [foldM]. rewrite Hrun1. cbn [mbind outcome_bind].
  rewrite Hrun2, app_assoc, (assoc_L (∪)). split; [done|].
  pose proof (ae_gc _ _ _ _ _ _ Heff1) as Hgc. pose proof (ae_known _ _ _ _ _ _ Heff1) as Hk1.
  split; [by eapply accept_effect_trans|]. rewrite Hgc in Hb2. split.
  - intros b' [->|Hb']%elem_of_cons; [|by apply Hb2]. destruct Hb1 as [Hk|[Hs|?]]; [|destruct (ae_kept _ _ _ _ _ _ Heff2 _ Hs)|]; try tauto.
    left. apply (ae_known _ _ _ _ _ _ Heff2). by left.
  - intros a [Ha|Ha]%elem_of_union.
    + destruct (Hf1 a Ha) as (? & ? & ?). repeat (split; [done|]). exists b. split; [left|done].
    + destruct (Hf2 a Ha) as (Hn & Hnk & b' & ? & ?). rewrite needed_gc in Hn by done. split; [done|].
      split; [|exists b'; split; [by right|done]]. intros Hk. apply Hnk, Hk1. by left.
Qed.

(** ** Garbage collection *)

(** The manager keeps its invariant when commits advance the garbage collection round. *)
Lemma bm_inv_advance m d d' :
  bm_inv m d → ds_genesis d' = ds_genesis d → (∀ r, known d' r ↔ known d r) →
  dag_gc_round d ≤ dag_gc_round d' → bm_inv m d'.
Proof. clear HG Hown.
  intros [Hinv Hctx Hrec] Hgen Hk Hgc. split; [|done|done]. rewrite Hgen.
  destruct Hinv as [Hsusp Hsub Hedges Hchild Hfetch Hkeys Hcomp Hpend Hcaus Hvalid Hblocks].
  assert (∀ r, accepted_ref (known d') [] r ↔ accepted_ref (known d) [] r) as Hacc
    by (intros r; by rewrite !accepted_ref_nil).
  split; try done.
  - intros r s Hs. rewrite Hacc. by apply Hsusp.
  - intros a Ha. rewrite Hacc. by apply Hkeys.
  - intros r s a Hs Ha Hn. rewrite Hacc. apply (Hcomp r s a Hs Ha). unfold needed in *. lia.
  - intros r Hr. by apply elem_of_nil in Hr.
  - split; [constructor|]. intros b Hb. by apply elem_of_nil in Hb.
Qed.

(** A reference below the garbage collection round need not be known. *)
Lemma graph_inv_forget (K need : BlockRef → Prop) g m x :
  graph_inv (λ r, K r ∨ r = x) need g [] m [] None [] → ¬ need x → graph_inv K need g [] m [] None [].
Proof.
  intros [Hsusp Hsub Hedges Hchild Hfetch Hkeys Hcomp Hpend Hcaus Hvalid Hblocks] Hx.
  setoid_rewrite accepted_ref_nil in Hsusp. setoid_rewrite accepted_ref_nil in Hkeys.
  setoid_rewrite accepted_ref_nil in Hcomp. split; try done.
  - intros r s Hs. rewrite accepted_ref_nil. destruct (Hsusp r s Hs) as (? & ? & ? & ?). tauto.
  - intros a Ha. rewrite accepted_ref_nil. intros Hk. apply Hkeys; tauto.
  - intros r s a Hs Ha Hn. rewrite accepted_ref_nil.
    destruct (Hcomp r s a Hs Ha Hn) as [?|[?| ->]]; tauto.
  - intros r Hr. by apply elem_of_nil in Hr.
  - split; [constructor|]. intros b Hb. by apply elem_of_nil in Hb.
Qed.

Lemma unsuspend_children_keys x cs m pending us m' pending' us' :
  foldM (unsuspend_child x) (m, pending, us) cs = Ret (m', pending', us') →
  bm_missing_ancestors m' = bm_missing_ancestors m.
Proof.
  revert m pending us. induction cs as [|r cs IH]; intros m pending us Hrun; [by injection Hrun as <- _ _|].
  cbn [foldM unsuspend_child] in Hrun. unfold try_unsuspend_block in Hrun.
  destruct (bm_suspended_blocks m !! r) as [s|]; [|done].
  cbn [expect mbind outcome_bind] in Hrun. destruct (bool_decide (x ∈ _)); [|done].
  cbn [assert_that mbind outcome_bind sp_missing_ancestors sp_block] in Hrun.
  case_bool_decide; cbn [mbind outcome_bind] in Hrun; apply IH in Hrun; done.
Qed.

Lemma unsuspend_loop_keys fuel m pending us m' us' :
  unsuspend_loop fuel m pending us = Ret (m', us') → bm_missing_ancestors m' ⊆ bm_missing_ancestors m.
Proof.
  revert m pending us. induction fuel as [|fuel IH]; intros m [|x pending] us Hrun;
    cbn [unsuspend_loop] in Hrun; [by injection Hrun as <- _|done|by injection Hrun as <- _|].
  destruct (bm_missing_ancestors m !! x) as [cs|]; [|by eapply IH].
  destruct (foldM _ _ _) as [[[m1 pending1] us1]|] eqn:Hf; [|done].
  cbn [mbind outcome_bind] in Hrun. apply IH in Hrun. apply unsuspend_children_keys in Hf.
  rewrite Hf in Hrun. etrans; [done|]. simpl. apply delete_subseteq.
Qed.

Lemma unsuspend_blocks_keys m x m' bs :
  try_unsuspend_children_blocks m x = Ret (m', bs) → bm_missing_ancestors m' ⊆ bm_missing_ancestors m.
Proof.
  unfold try_unsuspend_children_blocks. intros Hrun.
  destruct (unsuspend_loop _ _ _ _) as [[m1 us]|] eqn:Hl; [|done]. cbn [mbind outcome_bind] in Hrun.
  destruct (foldM _ _ us); [|done]. injection Hrun as <- _. by apply unsuspend_loop_keys in Hl.
Qed.

(** The first missing ancestor is not suspended: a suspended block has a missing ancestor of
    a lower round. *)
Lemma first_key_not_suspended m d x :
  bm_inv m d → (∀ a, is_Some (bm_missing_ancestors m !! a) → BlockRef_leb x a = true) →
  bm_suspended_blocks m !! x = None.
Proof.
  intros [Hinv _ _] Hmin. destruct (bm_suspended_blocks m !! x) as [s|] eqn:Hs; [exfalso|done].
  destruct (gi_susp _ _ _ _ _ _ _ _ Hinv x s Hs) as (<- & Hne & _ & _ & _ & _ & _ & Hanc).
  apply set_choose_L in Hne as [a Ha].
  destruct (Hanc a (gi_sub _ _ _ _ _ _ _ _ Hinv _ s a Hs Ha)) as (_ & Hlt & _).
  assert (reference (sp_block s) ∈ default ∅ (bm_missing_ancestors m !! a)) as Hin.
  { apply (gi_edges _ _ _ _ _ _ _ _ Hinv). by exists s. }
  assert (is_Some (bm_missing_ancestors m !! a)) as Hkey
    by (destruct (bm_missing_ancestors m !! a); [by eexists|simpl in Hin; set_solver]).
  apply Hmin, BlockRef_leb_iff in Hkey. simpl in Hkey. lia.
Qed.

(** One iteration of the loop. *)
Lemma gc_step log m d x v :
  node_ok ctx G d log → bm_inv m d → bm_missing_ancestors m !! x = Some v →
  bm_suspended_blocks m !! x = None → ¬ needed d x →
  let m1 := m <| bm_missing_blocks := bm_missing_blocks m ∖ {[x]} |> in
  ∃ m' us d', try_unsuspend_children_blocks m1 x = Ret (m', us) ∧ accept_blocks d us = Ret d' ∧
    accept_effect log m d m' d' us ∧ (∀ b, b ∈ us → is_valid_index c (vb_author b) = true) ∧
    (size (bm_missing_ancestors m') < size (bm_missing_ancestors m))%nat.
Proof.
  intros Hd [Hinv Hctx Hrec] Hx Hns Hnx m1. pose proof (graph_inv_learn _ _ _ m x Hinv Hns) as Hlearn. fold m1 in Hlearn.
  destruct (unsuspend_children_blocks_spec _ _ _ m1 x Hlearn) as (m' & us & Hrun & Hinv' & Hc' & Hr').
  { change (bm_context m1) with (bm_context m). rewrite Hctx. intros b' (_ & _ & _ & ? & _). done. }
  destruct (gi_blocks _ _ _ _ _ _ _ _ Hinv') as [Hnd Hus].
  assert (causal (needed d) (known d) us) as Hcaus.
  { intros k b a Hk Ha Hn. destruct (gi_causal _ _ _ _ _ _ _ _ Hinv' k b a Hk Ha Hn) as [[?| ->]|?]; tauto. }
  destruct (accept_blocks_spec us d log Hd) as (d' & Hrun' & Hsteps & Hd' & Hgen & Hgc & Hk);
    [intros b Hb; by apply Hus|done|].
  exists m', us, d'. split; [done|]. split; [done|].
  assert (bm_missing_ancestors m' !! x = None) as Hgone.
  { destruct (bm_missing_ancestors m' !! x) as [w|] eqn:Hw; [exfalso|done].
    apply (elem_of_nil x), (gi_keys _ _ _ _ _ _ _ _ Hinv'); [by exists w|left; by right]. }
  split; [|split].
  - split; try done.
    + split; [|by rewrite Hc'|by rewrite Hr']. rewrite Hgen. unfold needed at 1. rewrite Hgc.
      eapply graph_inv_forget; [|exact Hnx]. eapply graph_inv_settle; [exact Hinv'|].
      intros r. rewrite Hk. unfold accepted_ref. tauto.
    + split; [done|]. intros b Hb Hkb. destruct (Hus b Hb) as [Hno _]. apply Hno. by left.
    + intros r Hr. rewrite Hk.
      assert (∀ r' s, bm_suspended_blocks m1 !! r' = Some s → reference (sp_block s) = r') as Href
        by (intros r' s Hrs; by apply (gi_susp _ _ _ _ _ _ _ _ Hlearn)).
      destruct (unsuspend_blocks_track m1 x m' us r Hrun Href Hr); [by left|right; by right].
  - intros b Hb. by apply Hus.
  - apply map_subset_size. apply unsuspend_blocks_keys in Hrun. split; [exact Hrun|].
    intros Hsub. apply (lookup_weaken _ _ _ _ Hx) in Hsub. congruence.
Qed.

Lemma gc_loop_spec log fuel m d :
  node_ok ctx G d log → bm_inv m d → (size (bm_missing_ancestors m) ≤ fuel)%nat →
  ∃ m' d' new, gc_loop fuel (dag_gc_round d) m d = Ret (m', d') ∧ accept_effect log m d m' d' new ∧
    ∀ a, is_Some (bm_missing_ancestors m' !! a) → needed d a.
Proof.
  revert m d. induction fuel as [|fuel IH]; intros m d Hd Hm Hfuel;
    unfold gc_loop; fold (gc_loop (S := S)); pose proof (first_key (bm_missing_ancestors m)) as Hfirst;
    destruct (head _) as [[x v]|] eqn:Hhead.
  - destruct Hfirst as [Hx _].
    assert (bm_missing_ancestors m = ∅) as He by (apply map_size_empty_inv; lia). by rewrite He, lookup_empty in Hx.
  - exists m, d, []. split; [done|]. split; [by apply accept_effect_refl|]. rewrite Hfirst.
    intros a [? Ha]. by rewrite lookup_empty in Ha.
  - destruct Hfirst as [Hx Hmin]. destruct (N.ltb_spec (dag_gc_round d) (br_round x)) as [Hlt|Hge].
    { exists m, d, []. split; [done|]. split; [by apply accept_effect_refl|].
      intros a Ha%Hmin%BlockRef_leb_iff. unfold needed. lia. }
    pose proof (first_key_not_suspended m d x Hm Hmin) as Hns.
    rewrite hostname_valid; [|apply (gi_valid _ _ _ _ _ _ _ _ (bi_graph m d Hm)); by exists v].
    rewrite bool_decide_true by done. cbn [mbind outcome_bind assert_that].
    destruct (gc_step log m d x v Hd Hm Hx Hns) as (m1 & us & d1 & -> & Hrun & Heff & Hval & Hsz);
      [unfold needed; lia|].
    cbn [mbind outcome_bind]. rewrite Hrun. cbn [mbind outcome_bind].
    rewrite (hostnames_valid m1 vb_author) by (by rewrite (bi_context _ _ (ae_inv _ _ _ _ _ _ Heff))).
    cbn [mbind outcome_bind]. rewrite <- (ae_gc _ _ _ _ _ _ Heff).
    destruct (IH m1 d1) as (m' & d' & new & Hloop & Heff' & Hkeys); [apply Heff|apply Heff|lia|].
    exists m', d', (us ++ new). split; [done|]. split; [by eapply accept_effect_trans|].
    intros a Ha. eapply needed_gc; [|by apply Hkeys]. symmetry. apply Heff.
  - exists m, d, []. split; [done|]. split; [by apply accept_effect_refl|]. rewrite Hfirst.
    intros a [? Ha]. by rewrite lookup_empty in Ha.
Qed.

(** ** Committed blocks *)

Lemma drop_children_lookup b l ma a :
  foldl (drop_child b) ma l !! a =
  if decide (a ∈ l) then (λ refs, refs ∖ {[b]}) <$> ma !! a else ma !! a.
Proof.
  revert ma. induction l as [|y l IH]; intros ma; [by rewrite decide_False by apply not_elem_of_nil|].
  simpl. rewrite IH. unfold drop_child.
  destruct (decide (a = y)) as [->|Hn].
  - rewrite (decide_True (P := y ∈ y :: l)) by apply list_elem_of_here.
    destruct (ma !! y) as [refs|] eqn:Hy; [rewrite lookup_insert_eq|rewrite Hy; by case_decide].
    case_decide; simpl; [|done]. f_equal. set_solver.
  - assert (match ma !! y with Some refs => <[y:=refs ∖ {[b]}]> ma | None => ma end !! a = ma !! a) as ->
      by (destruct (ma !! y); [by rewrite lookup_insert_ne|done]).
    destruct (decide (a ∈ l)); [rewrite decide_True by (by right)|rewrite decide_False by (by rewrite elem_of_cons; tauto)]; done.
Qed.

(** A committed block leaves the suspended blocks and becomes known. *)
Lemma graph_inv_commit (K need : BlockRef → Prop) g m b s :
  graph_inv K need g [] m [] None [] → bm_suspended_blocks m !! b = Some s →
  graph_inv (λ x, K x ∨ x = b) need g []
    (m <| bm_missing_blocks := bm_missing_blocks m ∖ {[b]} |>
       <| bm_suspended_blocks := delete b (bm_suspended_blocks m) |>
       <| bm_missing_ancestors := foldl (drop_child b) (bm_missing_ancestors m)
            (set_iter BlockRef_leb (sp_missing_ancestors s)) |>) [b] None [].
Proof.
  intros [Hsusp Hsub Hedges Hchild Hfetch Hkeys Hcomp Hpend Hcaus Hvalid Hblocks] Hs.
  setoid_rewrite accepted_ref_nil in Hsusp. setoid_rewrite accepted_ref_nil in Hkeys.
  setoid_rewrite accepted_ref_nil in Hcomp.
  assert (∀ a, is_Some (foldl (drop_child b) (bm_missing_ancestors m)
    (set_iter BlockRef_leb (sp_missing_ancestors s)) !! a) ↔ is_Some (bm_missing_ancestors m !! a)) as Hsome.
  { intros a. rewrite drop_children_lookup. case_decide; [|done]. apply fmap_is_Some. }
  split; cbn [bm_suspended_blocks bm_missing_ancestors bm_missing_blocks bm_context set const];
    try setoid_rewrite accepted_ref_nil; try done.
  - intros r s' [Hn Hs']%lookup_delete_Some. destruct (Hsusp r s' Hs') as (? & ? & ? & ?).
    split; [done|]. split; [done|]. split; [|done]. intros [?| ->]; done.
  - intros r s' a [Hn Hs']%lookup_delete_Some. by apply (Hsub r s' a Hs').
  - intros a r. rewrite drop_children_lookup. setoid_rewrite lookup_delete_Some.
    assert (r ∈ default ∅ (if decide (a ∈ set_iter BlockRef_leb (sp_missing_ancestors s))
      then (λ refs, refs ∖ {[b]}) <$> bm_missing_ancestors m !! a else bm_missing_ancestors m !! a) ↔
      r ∈ default ∅ (bm_missing_ancestors m !! a) ∧ (r = b → a ∉ sp_missing_ancestors s)) as ->.
    { case_decide as Ha; rewrite elem_of_set_iter in Ha.
      - destruct (bm_missing_ancestors m !! a); simpl; set_solver.
      - tauto. }
    rewrite Hedges. split.
    + intros [(s' & Hs' & Ha & _) Hr]. exists s'. split; [split; [|done]|done]. intros <-.
      apply (Hr eq_refl). congruence.
    + intros (s' & [Hn Hs'] & Ha & _). split; [by exists s'|]. congruence.
  - intros a. rewrite elem_of_difference, elem_of_singleton, list_elem_of_singleton, Hfetch, Hsome.
    destruct (decide (b = a)) as [<-|Hn]; [naive_solver|]. rewrite lookup_delete_ne by done.
    pose proof (not_elem_of_nil a). naive_solver.
  - intros a Ha. rewrite Hsome in Ha. rewrite list_elem_of_singleton. intros [Hk| ->]; [|done].
    by apply (Hkeys a Ha), elem_of_nil in Hk.
  - intros r s' a [Hn Hs']%lookup_delete_Some Ha Hnd. destruct (Hcomp r s' a Hs' Ha Hnd); tauto.
  - intros r ->%list_elem_of_singleton. by right.
  - intros a Ha. rewrite Hsome in Ha. by apply Hvalid.
  - split; [constructor|]. intros b' Hb. by apply elem_of_nil in Hb.
Qed.

(** One committed block whose needed ancestors are known. *)
Lemma accept_one_committed_spec log m d acc miss b :
  node_ok ctx G d log → bm_inv m d → good (ds_genesis d) b →
  (∀ a, a ∈ vb_ancestors b → needed d a → known d a) →
  ∃ m' d' new, accept_one true (m, d, acc, miss) b = Ret (m', d', acc ++ new, miss) ∧
    accept_effect log m d m' d' new ∧ known d' (reference b).
Proof.
  intros Hd Hm Hgood Hanc. unfold accept_one.
  destruct (update_received_spec m d b Hm) as (rounds & -> & Hm1); [by apply Hgood|].
  cbn [mbind outcome_bind]. set (m1 := m <| bm_received_block_rounds := rounds |>) in *.
  assert (∀ m' d' new, accept_effect log m1 d m' d' new → accept_effect log m d m' d' new) as Hweak
    by (intros ??? []; by split).
  pose proof (no_view ctx G d log Hd) as Hv. pose proof (vo_wf d (v_ok c G d Hv)) as Hwf.
  pose proof Hgood as (_ & _ & _ & Hval & _). unfold try_accept_one_committed_block.
  rewrite contains_block_lookup by (done || by rewrite (v_committee c G d Hv)).
  cbn [mbind outcome_bind].
  destruct (decide (known d (reference b))) as [Hk|Hk];
    [rewrite bool_decide_true by done|rewrite bool_decide_false by done]; cbn [mbind outcome_bind].
  { exists m1, d, []. rewrite app_nil_r. split; [done|]. split; [by apply Hweak, accept_effect_refl|done]. }
  set (m2 := match bm_suspended_blocks _ !! _ with Some _ => _ | None => _ end).
  assert (graph_inv (λ x, known d x ∨ x = reference b) (needed d) (good (ds_genesis d)) [] m2
    [reference b] None [] ∧ bm_context m2 = ctx ∧
    bm_received_block_rounds m2 = bm_received_block_rounds m1 ∧
    ∀ r, r ≠ reference b → bm_suspended_blocks m2 !! r = bm_suspended_blocks m1 !! r) as (Hg2 & Hc2 & Hr2 & Hs2).
  { unfold m2.
    change (bm_suspended_blocks (m1 <| bm_missing_blocks := _ |>)) with (bm_suspended_blocks m1).
    destruct (bm_suspended_blocks m1 !! reference b) as [s|] eqn:Hs.
    - split; [exact (graph_inv_commit _ _ _ m1 _ s (bi_graph m1 d Hm1) Hs)|]. split; [apply Hm1|]. split; [done|].
      intros r Hr. simpl. by apply lookup_delete_ne.
    - split; [by apply graph_inv_learn; [apply Hm1|]|]. split; [apply Hm1|]. by split. }
  clearbody m2.
  destruct (finish_accept log m1 d m2 b) as (m3 & us & d' & Hrun & Hacc & Heff); try done.
  unfold accept_blocks in Hacc. rewrite foldM_app in Hacc. fold (accept_blocks d [b]) in Hacc.
  destruct (accept_blocks d [b]) as [d1|]; [|done]. cbn [mbind outcome_bind] in *.
  rewrite Hrun. cbn [mbind outcome_bind app]. unfold accept_blocks at 1. rewrite Hacc. cbn [mbind outcome_bind].
  exists m3, d', (b :: us). rewrite <- app_assoc. split; [done|]. split; [by apply Hweak|].
  apply (ae_known _ _ _ _ _ _ Heff). right. apply list_elem_of_here.
Qed.

Lemma accept_many_committed_spec log blocks m d acc miss :
  node_ok ctx G d log → bm_inv m d → (∀ b, b ∈ blocks → good (ds_genesis d) b) →
  causal (needed d) (known d) blocks →
  ∃ m' d' new, foldM (accept_one true) (m, d, acc, miss) blocks = Ret (m', d', acc ++ new, miss) ∧
    accept_effect log m d m' d' new ∧ ∀ b, b ∈ blocks → known d' (reference b).
Proof.
  revert m d acc. induction blocks as [|b blocks IH]; intros m d acc Hd Hm Hgood Hcaus.
  { exists m, d, []. rewrite app_nil_r. split; [done|]. split; [by apply accept_effect_refl|]. set_solver. }
  destruct (accept_one_committed_spec log m d acc miss b Hd Hm) as (m1 & d1 & new1 & Hrun1 & Heff1 & Hb1).
  { apply Hgood, list_elem_of_here. }
  { intros a Ha Hn. destruct (Hcaus 0%nat b a eq_refl Ha Hn) as [?|Hin]; [done|]. by apply elem_of_nil in Hin. }
  pose proof (ae_known _ _ _ _ _ _ Heff1) as Hk1.
  destruct (IH m1 d1 (acc ++ new1)) as (m2 & d2 & new2 & Hrun2 & Heff2 & Hb2); [apply Heff1|apply Heff1| | |].
  { intros b' Hb'. rewrite (ae_genesis _ _ _ _ _ _ Heff1). apply Hgood. by apply list_elem_of_further. }
  { intros k b' a Hb' Ha Hn. rewrite needed_gc in Hn by apply Heff1.
    destruct (Hcaus (Datatypes.S k) b' a Hb' Ha Hn) as [?|Hin]; [left; apply Hk1; by left|].
    cbn [take] in Hin. rewrite fmap_cons, elem_of_cons in Hin. destruct Hin as [->|?]; [by left|by right]. }
  exists m2, d2, (new1 ++ new2). cbn [foldM]. rewrite Hrun1. cbn [mbind outcome_bind].
  rewrite Hrun2, app_assoc. split; [done|]. split; [by eapply accept_effect_trans|].
  intros b' [->|Hb']%elem_of_cons; [|by apply Hb2]. apply (ae_known _ _ _ _ _ _ Heff2). by left.
Qed.

(** ** Explicit requests *)

Lemma find_one_spec m d miss found r :
  bm_inv m d → is_valid_index c (br_author r) = true → found = bool_decide (known d r) →
  ∃ m' new, find_one (m, miss) (found, r) = Ret (m', new ∪ miss) ∧ bm_inv m' d ∧
    bm_suspended_blocks m' = bm_suspended_blocks m ∧ bm_missing_blocks m' = bm_missing_blocks m ∪ new ∧
    ∀ a, a ∈ new ↔ a = r ∧ ¬ known d r ∧ bm_suspended_blocks m !! r = None.
Proof. clear HG Hown.
  intros Hm Hval ->. unfold find_one.
  destruct (decide (known d r)) as [Hk|Hk]; [rewrite bool_decide_true by done|rewrite (bool_decide_false (known d r)) by done]; cbn [orb].
  { exists m, ∅. rewrite (left_id_L ∅ (∪)), (right_id_L ∅ (∪)). set_solver. }
  destruct (bm_suspended_blocks m !! r) as [s|] eqn:Hs;
    [rewrite bool_decide_true by (by eexists)|rewrite bool_decide_false by (by intros [? ?])].
  { exists m, ∅. rewrite (left_id_L ∅ (∪)), (right_id_L ∅ (∪)). set_solver. }
  case_bool_decide as Hin.
  { exists m, {[r]}. split; [done|]. split; [done|]. split; [done|]. set_solver. }
  rewrite hostname_valid by (by rewrite (bi_context m d Hm)). cbn [mbind outcome_bind].
  eexists _, {[r]}. split; [done|]. split; [|split; [done|split; [simpl; set_solver|set_solver]]].
  destruct Hm as [[Hsusp Hsub Hedges Hchild Hfetch Hkeys Hcomp Hpend Hcaus Hvalid Hblocks] Hctx Hrec].
  assert (bm_missing_ancestors m !! r = None) as Hr.
  { destruct (bm_missing_ancestors m !! r) eqn:Hr; [exfalso|done]. apply Hin, Hfetch.
    split; [by eexists|]. split; [done|apply not_elem_of_nil]. }
  rewrite Hr. split; [|done|done].
  split; cbn [bm_suspended_blocks bm_missing_ancestors bm_missing_blocks bm_context set const]; try done.
  - intros a r'. rewrite <- Hedges. destruct (decide (r = a)) as [<-|Hn].
    + by rewrite lookup_insert_eq, Hr.
    + by rewrite lookup_insert_ne.
  - intros a. rewrite elem_of_union, elem_of_singleton, Hfetch. destruct (decide (r = a)) as [<-|Hn].
    + rewrite lookup_insert_eq. pose proof (not_elem_of_nil r). naive_solver.
    + rewrite lookup_insert_ne by done. naive_solver.
  - intros a Ha. destruct (decide (r = a)) as [<-|Hn]; [by rewrite accepted_ref_nil|].
    rewrite lookup_insert_ne in Ha by done. by apply Hkeys.
  - intros a Ha. destruct (decide (r = a)) as [<-|Hn]; [by rewrite Hctx|].
    rewrite lookup_insert_ne in Ha by done. by apply Hvalid.
Qed.

Lemma find_all_spec refs m d miss :
  bm_inv m d → (∀ r, r ∈ refs → is_valid_index c (br_author r) = true) →
  ∃ m' new, foldM find_one (m, miss) (zip ((λ r, bool_decide (known d r)) <$> refs) refs) = Ret (m', new ∪ miss) ∧
    bm_inv m' d ∧ bm_suspended_blocks m' = bm_suspended_blocks m ∧
    bm_missing_blocks m' = bm_missing_blocks m ∪ new ∧
    ∀ a, a ∈ new ↔ a ∈ refs ∧ ¬ known d a ∧ bm_suspended_blocks m !! a = None.
Proof. clear HG Hown.
  revert m miss. induction refs as [|r refs IH]; intros m miss Hm Hval.
  { exists m, ∅. rewrite (left_id_L ∅ (∪)), (right_id_L ∅ (∪)). set_solver. }
  destruct (find_one_spec m d miss (bool_decide (known d r)) r Hm) as (m1 & n1 & Hrun & Hm1 & Hs1 & Hb1 & Hn1);
    [apply Hval, list_elem_of_here|done|].
  destruct (IH m1 (n1 ∪ miss) Hm1) as (m2 & n2 & Hrun2 & Hm2 & Hs2 & Hb2 & Hn2);
    [intros r' Hr'; apply Hval; by apply list_elem_of_further|].
  exists m2, (n2 ∪ n1). rewrite fmap_cons. cbn [zip_with foldM]. rewrite Hrun. cbn [mbind outcome_bind]. rewrite Hrun2.
  split; [by rewrite (assoc_L (∪))|]. split; [done|]. split; [congruence|].
  split; [rewrite Hb2, Hb1; set_solver|]. intros a. rewrite elem_of_union, Hn2, Hn1, Hs1, elem_of_cons. naive_solver.
Qed.

(** What the invariant says of the blocks still held back. *)
Lemma suspended_waits m d r s :
  bm_inv m d → bm_suspended_blocks m !! r = Some s →
  ∃ a, a ∈ vb_ancestors (sp_block s) ∧ a ∈ sp_missing_ancestors s ∧ ¬ known d a ∧
    is_Some (bm_missing_ancestors m !! a).
Proof. clear HG Hown.
  intros [Hinv _ _] Hs. destruct (gi_susp _ _ _ _ _ _ _ _ Hinv r s Hs) as (_ & Hne & _).
  apply set_choose_L in Hne as [a Ha]. exists a.
  assert (r ∈ default ∅ (bm_missing_ancestors m !! a)) as Hin
    by (apply (gi_edges _ _ _ _ _ _ _ _ Hinv); by exists s).
  assert (is_Some (bm_missing_ancestors m !! a)) as Hkey
    by (destruct (bm_missing_ancestors m !! a); [by eexists|simpl in Hin; set_solver]).
  split; [by apply (gi_sub _ _ _ _ _ _ _ _ Hinv r s)|]. split; [done|]. split; [|done].
  intros Hk. apply (elem_of_nil a), (gi_keys _ _ _ _ _ _ _ _ Hinv a Hkey). by left.
Qed.

(** The references to fetch are in neither place. *)
Lemma missing_blocks_absent m d a :
  bm_inv m d → a ∈ bm_missing_blocks m → ¬ known d a ∧ bm_suspended_blocks m !! a = None.
Proof. clear HG Hown.
  intros [Hinv _ _] Ha. apply (gi_fetch _ _ _ _ _ _ _ _ Hinv) in Ha as (Hkey & ? & _). split; [|done].
  intros Hk. apply (elem_of_nil a), (gi_keys _ _ _ _ _ _ _ _ Hinv a Hkey). by left.
Qed.

Lemma bm_inv_new d : bm_inv (BlockManager_new ctx) d.
Proof. clear HG Hown.
  split; [split|done|].
  - intros r s Hs. simpl in Hs. by rewrite lookup_empty in Hs.
  - intros r s a Hs. simpl in Hs. by rewrite lookup_empty in Hs.
  - intros a r. simpl. rewrite lookup_empty. simpl. split; [set_solver|]. intros (s & Hs & _).
    simpl in Hs. by rewrite lookup_empty in Hs.
  - done.
  - intros a. simpl. rewrite lookup_empty. split; [set_solver|]. by intros [[? ?] _].
  - intros a [? Ha]. simpl in Ha. by rewrite lookup_empty in Ha.
  - intros r s a Hs. simpl in Hs. by rewrite lookup_empty in Hs.
  - intros r Hr. by apply elem_of_nil in Hr.
  - intros k b a Hk. by rewrite lookup_nil in Hk.
  - intros a [? Ha]. simpl in Ha. by rewrite lookup_empty in Ha.
  - split; [constructor|]. intros b Hb. by apply elem_of_nil in Hb.
  - simpl. rewrite length_replicate. unfold c. lia.
Qed.
End Node.

Lemma sorted_before l k b b' :
  StronglySorted round_leb l → l !! k = Some b → b' ∈ l → vb_round b' < vb_round b → b' ∈ take k l.
Proof.
  intros Hl. revert k. induction Hl as [|x l Hl IH Hx]; intros k Hk Hb' Hlt; [by rewrite lookup_nil in Hk|].
  rewrite Forall_forall in Hx. destruct k as [|k].
  - injection Hk as ->. apply elem_of_cons in Hb' as [->|Hb']; [lia|].
    apply Hx, Is_true_true, N.leb_le in Hb'. lia.
  - simpl. apply elem_of_cons in Hb' as [->|Hb']; [left|right]. by apply IH.
Qed.

(** * Theorems *)

(** C15. [try_accept_blocks] on verified blocks never panics. The blocks it returns are the
    blocks that enter the DAG state, each once and after its needed ancestors; the node stays
    in a state that its accept steps reach. Every input block ends up in the DAG state, in
    the suspended blocks or at or below the garbage collection round, and no suspended block
    is lost. A block is suspended only while an ancestor of it is unknown, and the blocks to
    fetch are the missing ancestors that are not suspended, all of them unknown. *)
Theorem try_accept_blocks_exact {S} `{StoreSpec S} ctx byz G m (d : DagState S) log blocks :
  bft (committee ctx) byz G → own_index ctx ∉ byz → node_ok ctx G d log → bm_inv ctx G m d →
  (∀ b, b ∈ blocks → good ctx G (ds_genesis d) b) →
  ∃ m' d' accepted missing, try_accept_blocks m d blocks = Ret (m', d', accepted, missing) ∧
    accept_effect ctx G log m d m' d' accepted ∧
    (∀ b, b ∈ blocks → known d' (reference b) ∨ is_Some (bm_suspended_blocks m' !! reference b) ∨
       vb_round b ≤ dag_gc_round d) ∧
    (∀ a, a ∈ missing → needed d a ∧ ¬ known d a ∧ ∃ b, b ∈ blocks ∧ a ∈ vb_ancestors b) ∧
    (∀ r s, bm_suspended_blocks m' !! r = Some s → ∃ a, a ∈ vb_ancestors (sp_block s) ∧ ¬ known d' a) ∧
    (∀ a, a ∈ missing_blocks m' ↔
       is_Some (bm_missing_ancestors m' !! a) ∧ bm_suspended_blocks m' !! a = None) ∧
    (∀ a, a ∈ missing_blocks m' → ¬ known d' a).
Proof.
  intros HG Hown Hd Hm Hgood.
  destruct (accept_many_spec ctx byz G HG Hown log (isort round_leb blocks) m d [] ∅ Hd Hm)
    as (m' & d' & new & fetch & Hrun & Heff & Hb & Hf); [intros b; rewrite elem_of_isort; apply Hgood|].
  setoid_rewrite elem_of_isort in Hb. setoid_rewrite elem_of_isort in Hf.
  exists m', d', new, fetch. rewrite (left_id_L ∅ (∪)) in Hrun. split; [done|]. split; [done|].
  pose proof (ae_inv _ _ _ _ _ _ _ _ Heff) as Hm'. split; [done|]. split; [done|]. split.
  - intros r s Hs. destruct (suspended_waits ctx G m' d' r s Hm' Hs) as (a & ? & _ & ? & _). by exists a.
  - split; [intros a|intros a Ha; by apply (missing_blocks_absent ctx G m')].
    unfold missing_blocks. rewrite (gi_fetch _ _ _ _ _ _ _ _ (bi_graph _ _ _ _ Hm')).
    pose proof (not_elem_of_nil a). tauto.
Qed.

(** C19. [try_unsuspend_blocks_for_latest_gc_round], called after commits moved the garbage
    collection round, terminates without a panic, and releases every suspended block that
    waits for collected ancestors only: afterwards each suspended block has an unknown
    ancestor above the garbage collection round. What it accepts enters the DAG state in
    causal order. *)
Theorem gc_round_releases_blocks {S} `{StoreSpec S} ctx byz G m (d0 d : DagState S) log :
  bft (committee ctx) byz G → own_index ctx ∉ byz → node_ok ctx G d log → bm_inv ctx G m d0 →
  ds_genesis d = ds_genesis d0 → (∀ r, known d r ↔ known d0 r) → dag_gc_round d0 ≤ dag_gc_round d →
  ∃ m' d' accepted, try_unsuspend_blocks_for_latest_gc_round m d = Ret (m', d') ∧
    accept_effect ctx G log m d m' d' accepted ∧
    ∀ r s, bm_suspended_blocks m' !! r = Some s →
      ∃ a, a ∈ vb_ancestors (sp_block s) ∧ needed d' a ∧ ¬ known d' a.
Proof.
  intros HG Hown Hd Hm0 Hgen Hk Hgc. pose proof (bm_inv_advance ctx G m d0 d Hm0 Hgen Hk Hgc) as Hm.
  destruct (gc_loop_spec ctx byz G HG Hown log _ m d Hd Hm (le_n _)) as (m' & d' & new & Hrun & Heff & Hkeys).
  exists m', d', new. split; [done|]. split; [done|]. intros r s Hs.
  destruct (suspended_waits ctx G m' d' r s (ae_inv _ _ _ _ _ _ _ _ Heff) Hs) as (a & ? & _ & ? & Hkey).
  exists a. split; [done|]. split; [|done]. apply (needed_gc d); [apply Heff|]. by apply Hkeys.
Qed.

(** [try_accept_committed_blocks], given committed blocks whose ancestors above the
    garbage collection round are known or in the batch at a lower round, accepts all of them and
    the suspended blocks they complete, without a panic and in causal order. *)
Theorem try_accept_committed_blocks_exact {S} `{StoreSpec S} ctx byz G m (d : DagState S) log blocks :
  bft (committee ctx) byz G → own_index ctx ∉ byz → node_ok ctx G d log → bm_inv ctx G m d →
  (∀ b, b ∈ blocks → good ctx G (ds_genesis d) b) →
  (∀ b a, b ∈ blocks → a ∈ vb_ancestors b → needed d a → known d a ∨ a ∈ reference <$> blocks) →
  ∃ m' d' accepted, try_accept_committed_blocks m d blocks = Ret (m', d', accepted) ∧
    accept_effect ctx G log m d m' d' accepted ∧ ∀ b, b ∈ blocks → known d' (reference b).
Proof.
  intros HG Hown Hd Hm Hgood Hclosed. unfold try_accept_committed_blocks, try_accept_blocks_internal.
  destruct (accept_many_committed_spec ctx byz G HG Hown log (isort round_leb blocks) m d [] ∅ Hd Hm)
    as (m' & d' & new & Hrun & Heff & Hb).
  - intros b. rewrite elem_of_isort. apply Hgood.
  - intros k b a Hk Ha Hn. assert (b ∈ blocks) as Hbin
      by (apply (elem_of_isort round_leb), list_elem_of_lookup; by exists k).
    destruct (Hclosed b a Hbin Ha Hn) as [?|(b' & -> & Hb')%list_elem_of_fmap]; [by left|right].
    apply list_elem_of_fmap. exists b'. split; [done|]. apply (sorted_before _ k b); [|done|by apply elem_of_isort|].
    + apply isort_sorted; [intros x y|intros x y z]; unfold round_leb; rewrite ?N.leb_le; lia.
    + destruct (Hgood b Hbin) as (_ & _ & _ & _ & Hanc). by destruct (Hanc _ Ha) as (_ & ? & _).
  - setoid_rewrite elem_of_isort in Hb. exists m', d', new. rewrite Hrun. by split.
Qed.

(** [try_find_blocks] asks for exactly the references above the garbage collection round
    that are neither in the DAG state nor suspended, and records them as missing. *)
Theorem try_find_blocks_exact {S} `{StoreSpec S} ctx G m (d : DagState S) log refs :
  node_ok ctx G d log → bm_inv ctx G m d →
  (∀ r, r ∈ refs → is_valid_index (committee ctx) (br_author r) = true) →
  ∃ m' missing, try_find_blocks m d refs = Ret (m', missing) ∧ bm_inv ctx G m' d ∧
    bm_suspended_blocks m' = bm_suspended_blocks m ∧
    bm_missing_blocks m' = bm_missing_blocks m ∪ missing ∧
    ∀ a, a ∈ missing ↔ a ∈ refs ∧ needed d a ∧ ¬ known d a ∧ bm_suspended_blocks m !! a = None.
Proof.
  intros Hd Hm Hval. unfold try_find_blocks. set (rs := isort ref_round_leb _).
  assert (∀ a, a ∈ rs ↔ a ∈ refs ∧ needed d a) as Hrs.
  { intros a. unfold rs, needed. rewrite elem_of_isort, list_elem_of_filter. tauto. }
  pose proof (no_view ctx G d log Hd) as Hv.
  rewrite contains_blocks_lookup; [|apply (v_ok _ _ _ Hv)|].
  2: { apply Forall_forall. intros a [? _]%Hrs. rewrite (v_committee _ _ _ Hv). by apply Hval. }
  cbn [mbind outcome_bind].
  destruct (find_all_spec ctx G rs m d ∅ Hm) as (m' & new & Hrun & Hm' & Hs & Hb & Hn);
    [intros r [? _]%Hrs; by apply Hval|].
  exists m', new. rewrite (right_id_L ∅ (∪)) in Hrun. split; [exact Hrun|]. repeat (split; [done|]).
  intros a. rewrite Hn, Hrs. tauto.
Qed.

(** The accepted blocks need not come in ascending rounds: with [B] (round 2) and [D]
    (round 3) waiting for [A], [F] (round 4) for [D] and [C] (round 3) for [B], accepting [A]
    returns [F] before [C]. *)
Theorem accepted_order_not_by_round :
  let A := sample_block 1 0 1 [] in
  let B := sample_block 2 1 2 [reference A] in
  let D := sample_block 3 2 3 [reference A] in
  let C := sample_block 3 3 4 [reference B] in
  let F := sample_block 4 0 5 [reference D] in
  let d := sample_dag 4 60 [] in
  ∃ m m' d', try_accept_blocks (BlockManager_new (sample_context 4 60)) d [B; D; C; F] =
      Ret (m, d, [], {[reference A]}) ∧
    try_accept_blocks m d [A] = Ret (m', d', [A; B; D; F; C], ∅).
Proof.
  intros A B D C F d. set (start := (BlockManager_new (sample_context 4 60), d, [] : list VerifiedBlock, ∅ : gset BlockRef)).
  set (run1 := ret_or start (try_accept_blocks (BlockManager_new (sample_context 4 60)) d [B; D; C; F])).
  set (run2 := ret_or start (try_accept_blocks run1.1.1.1 d [A])).
  exists run1.1.1.1, run2.1.1.1, run2.1.1.2. split; vm_compute; reflexivity.
Qed.

(** * Witnesses *)

Section SampleBlocks.
Context (n : nat) (gc : N).

Lemma sample_good blocks blocks' b :
  sample_ok n blocks = true → b ∈ blocks →
  good (sample_context n gc) (sample_universe n gc blocks) (ds_genesis (sample_dag n gc blocks')) b.
Proof.
  intros Hok Hb. pose proof (sample_facts n blocks Hok) as (Hn & _ & Hf).
  pose proof (Hf b Hb) as (Hbound & Hr & Ha & Hanc).
  assert (∀ i, i < N.of_nat n → is_valid_index (committee (sample_context n gc)) i = true) as Hval.
  { intros i Hi. unfold is_valid_index, Committee_size. simpl. rewrite length_replicate.
    by apply bool_decide_eq_true. }
  split; [apply sample_lookup; [done|]; split; [|done]; apply elem_of_app; by right|].
  split; [done|]. split; [done|]. split; [by apply Hval|].
  intros a [Hlt (x & -> & Hx)%list_elem_of_fmap]%Hanc.
  apply elem_of_app in Hx as [Hx|Hx].
  - split; [|split; [done|intros _]].
    + apply elem_of_sample_genesis in Hx as (i & Hi & ->). apply Hval. simpl. unfold sample_block, vb_author. simpl. lia.
    + exists x. change (ds_genesis (sample_dag n gc blocks')) with (ds_genesis (sample_dag n gc blocks)).
      by apply sample_genesis_lookup.
  - destruct (Hf x Hx) as (_ & Hxr & Hxa & _). split; [by apply Hval|]. split; [done|].
    unfold GENESIS_ROUND. simpl. lia.
Qed.
End SampleBlocks.

(** A block of round four that links a block of round two nobody has. *)
Definition lost_block : VerifiedBlock :=
  sample_block 2 3 299 ((λ a, mkBlockRef 1 a (100 + a)) <$> [0; 1; 2; 3]).
Definition waiting_block : VerifiedBlock :=
  sample_block 4 1 401 (((λ a, mkBlockRef 3 a (300 + a)) <$> [1; 0; 2]) ++ [reference lost_block]).
Definition lossy_universe : list VerifiedBlock := waiting_block :: lost_block :: full_rounds 3.

Lemma lossy_ok : sample_ok 4 lossy_universe = true.
Proof. vm_compute. reflexivity. Qed.
Lemma lossy_bft : sample_bft_ok 4 {[3]} lossy_universe = true.
Proof. vm_compute. reflexivity. Qed.

Lemma late_rounds_good b :
  b ∈ full_round 5 ++ full_round 4 →
  good (sample_context 4 60) (sample_universe 4 60 wide_universe)
    (ds_genesis (sample_dag 4 60 (full_rounds 3))) b.
Proof.
  intros Hb. apply sample_good; [exact wide_ok|]. right. unfold full_rounds. cbn [seq].
  rewrite !bind_cons, !elem_of_app. change (N.of_nat 4) with 4. change (N.of_nat 5) with 5.
  apply elem_of_app in Hb. tauto.
Qed.

Lemma try_accept_blocks_exact_witness :
  let d := sample_dag 4 60 (full_rounds 3) in
  ∃ m' d' accepted, try_accept_blocks (BlockManager_new (sample_context 4 60)) d
      (full_round 5 ++ full_round 4) = Ret (m', d', accepted, ∅) ∧
    length accepted = 8%nat ∧ rtc (node_step (sample_context 4 60) (sample_universe 4 60 wide_universe)) d d'.
Proof.
  intros d.
  destruct (try_accept_blocks_exact (sample_context 4 60) {[3]} (sample_universe 4 60 wide_universe)
    (BlockManager_new (sample_context 4 60)) d empty_log (full_round 5 ++ full_round 4))
    as (m' & d' & accepted & missing & Hrun & Heff & _).
  - exact (sample_bft 4 60 {[3]} wide_universe wide_ok wide_bft).
  - apply (bool_decide_eq_true_1 _). vm_compute. reflexivity.
  - exact (sample_node_ok 4 60 eq_refl (full_rounds 3) wide_universe narrow_ok wide_ok narrow_wide).
  - apply bm_inv_new.
  - exact late_rounds_good.
  - exists m', d', accepted. pose proof (ae_steps _ _ _ _ _ _ _ _ Heff) as Hsteps.
    assert (missing = ∅ ∧ length accepted = 8%nat) as [-> Hlen]; [|split; [exact Hrun|split; [exact Hlen|exact Hsteps]]].
    apply (f_equal (ret_or (m', d', [], ∅))) in Hrun. split.
    + apply (f_equal snd) in Hrun. cbn [ret_or snd] in Hrun. rewrite <- Hrun. vm_compute. reflexivity.
    + apply (f_equal (λ x, length x.1.2)) in Hrun. cbn [ret_or fst snd] in Hrun. rewrite <- Hrun.
      vm_compute. reflexivity.
Defined.

Lemma try_accept_committed_blocks_exact_witness :
  let d := sample_dag 4 60 (full_rounds 3) in
  ∃ m' d' accepted, try_accept_committed_blocks (BlockManager_new (sample_context 4 60)) d
      (full_round 5 ++ full_round 4) = Ret (m', d', accepted) ∧ length accepted = 8%nat.
Proof.
  intros d.
  destruct (try_accept_committed_blocks_exact (sample_context 4 60) {[3]} (sample_universe 4 60 wide_universe)
    (BlockManager_new (sample_context 4 60)) d empty_log (full_round 5 ++ full_round 4))
    as (m' & d' & accepted & Hrun & _).
  - exact (sample_bft 4 60 {[3]} wide_universe wide_ok wide_bft).
  - apply (bool_decide_eq_true_1 _). vm_compute. reflexivity.
  - exact (sample_node_ok 4 60 eq_refl (full_rounds 3) wide_universe narrow_ok wide_ok narrow_wide).
  - apply bm_inv_new.
  - exact late_rounds_good.
  - intros b a Hb Ha _. unfold known.
    assert (∀ b, b ∈ full_round 5 ++ full_round 4 → Forall (λ a, is_Some (dag_lookup d a) ∨
      a ∈ reference <$> full_round 5 ++ full_round 4) (vb_ancestors b)) as Hall.
    { apply Forall_forall. apply (bool_decide_eq_true_1 _). vm_compute. reflexivity. }
    exact (proj1 (Forall_forall _ _) (Hall b Hb) a Ha).
  - exists m', d', accepted. split; [exact Hrun|].
    apply (f_equal (λ o, length (ret_or (m', d', []) o).2)) in Hrun. cbn [ret_or snd] in Hrun.
    rewrite <- Hrun. vm_compute. reflexivity.
Defined.

Lemma try_find_blocks_exact_witness :
  let d := sample_dag 4 60 (full_rounds 3) in
  ∃ m' missing, try_find_blocks (BlockManager_new (sample_context 4 60)) d
      [mkBlockRef 4 1 401; mkBlockRef 3 0 300] = Ret (m', missing) ∧ mkBlockRef 4 1 401 ∈ missing.
Proof.
  intros d.
  destruct (try_find_blocks_exact (sample_context 4 60) (sample_universe 4 60 wide_universe)
    (BlockManager_new (sample_context 4 60)) d empty_log [mkBlockRef 4 1 401; mkBlockRef 3 0 300])
    as (m' & missing & Hrun & _ & _ & _ & Hmiss).
  - exact (sample_node_ok 4 60 eq_refl (full_rounds 3) wide_universe narrow_ok wide_ok narrow_wide).
  - apply bm_inv_new.
  - intros r. rewrite !elem_of_cons. intros [->|[->|Hr]]; [reflexivity|reflexivity|by apply elem_of_nil in Hr].
  - exists m', missing. split; [exact Hrun|]. apply Hmiss. split; [left|]. split; [vm_compute; reflexivity|].
    split; [|reflexivity]. intros [x Hx]. vm_compute in Hx. discriminate.
Defined.

Lemma lossy_narrow b : b ∈ full_rounds 3 → b ∈ lossy_universe.
Proof. intros Hb. right. by right. Qed.

(** The manager that holds the waiting block back, and the state after a commit of round
    three, with a garbage collection depth of one. *)
Lemma lossy_state :
  let ctx := sample_context 4 1 in
  let G := sample_universe 4 1 lossy_universe in
  let d0 := sample_dag 4 1 (full_rounds 3) in
  let L := sample_block 3 0 300 ((λ a, mkBlockRef 2 a (200 + a)) <$> [0; 1; 2; 3]) in
  ∃ m d sds log, try_accept_blocks (BlockManager_new ctx) d0 [waiting_block] =
      Ret (m, d0, [], {[reference lost_block]}) ∧
    @handle_leader _ _ sample_crypto sample_codec ctx (d0, []) L = Ret (d, sds) ∧
    bm_inv ctx G m d0 ∧ node_ok ctx G d log ∧ ∀ r, known d r ↔ known d0 r.
Proof.
  intros ctx G d0 L.
  pose proof (sample_bft 4 1 {[3]} lossy_universe lossy_ok lossy_bft) as HG.
  pose proof (sample_node_ok 4 1 eq_refl (full_rounds 3) lossy_universe narrow_ok lossy_ok lossy_narrow) as Hd.
  destruct (accept_many_spec ctx {[3]} G HG ltac:(apply (bool_decide_eq_true_1 _); vm_compute; reflexivity)
    empty_log [waiting_block] (BlockManager_new ctx) d0 [] ∅ Hd (bm_inv_new ctx G d0))
    as (m & d1 & new & fetch & Hrun & Heff & _).
  { intros b ->%list_elem_of_singleton. apply sample_good; [exact lossy_ok|left]. }
  destruct (@handle_leader_spec sample_crypto sample_codec _ _ _ ctx {[3]} G HG) with (d := d0)
    (log := empty_log) (sds := @nil CommittedSubDag) (L := L)
    as (d & sd & log & out & Hcommit & _ & Hd' & Hlk & _).
  - apply (sample_unique 4 1 lossy_universe lossy_ok). vm_compute. reflexivity.
  - intros commit. eexists. reflexivity.
  - exact Hd.
  - vm_compute. reflexivity.
  - reflexivity.
  - reflexivity.
  - pose proof (ae_inv _ _ _ _ _ _ _ _ Heff) as Hm. clear Heff.
    assert (d1 = d0 ∧ new = [] ∧ ∅ ∪ fetch = {[reference lost_block]}) as (-> & -> & Hf).
    { apply (f_equal (ret_or (m, d0, [], ∅))) in Hrun. simpl ret_or in Hrun at 2.
      pose proof (f_equal (λ x, x.1.1.2) Hrun) as E1. pose proof (f_equal (λ x, x.1.2) Hrun) as E2.
      pose proof (f_equal snd Hrun) as E3. cbn [fst snd app] in E1, E2, E3. rewrite <- E1, <- E2, <- E3.
      clear. repeat split; vm_compute; reflexivity. }
    exists m, d, [sd], log. split; [rewrite <- Hf; exact Hrun|]. split; [exact Hcommit|]. split; [exact Hm|].
    split; [exact Hd'|]. intros r. unfold known. by rewrite Hlk.
Qed.

Lemma gc_round_releases_blocks_witness :
  let ctx := sample_context 4 1 in
  let d0 := sample_dag 4 1 (full_rounds 3) in
  let L := sample_block 3 0 300 ((λ a, mkBlockRef 2 a (200 + a)) <$> [0; 1; 2; 3]) in
  ∃ m d sds m' d', try_accept_blocks (BlockManager_new ctx) d0 [waiting_block] =
      Ret (m, d0, [], {[reference lost_block]}) ∧
    @handle_leader _ _ sample_crypto sample_codec ctx (d0, []) L = Ret (d, sds) ∧
    try_unsuspend_blocks_for_latest_gc_round m d = Ret (m', d') ∧
    bm_suspended_blocks m' = ∅ ∧ is_Some (dag_lookup d' (reference waiting_block)).
Proof.
  intros ctx d0 L. destruct lossy_state as (m & d & sds & log & Hrun & Hcommit & Hm & Hd & Hk).
  assert (m = (ret_or (m, d0, [], ∅) (try_accept_blocks (BlockManager_new ctx) d0 [waiting_block])).1.1.1) as Hm_eq
    by (unfold ctx, d0; rewrite Hrun; reflexivity).
  assert (d = (ret_or (d0, sds) (@handle_leader _ _ sample_crypto sample_codec ctx (d0, []) L)).1) as Hd_eq
    by (unfold ctx, d0, L; rewrite Hcommit; reflexivity).
  destruct (gc_round_releases_blocks ctx {[3]} (sample_universe 4 1 lossy_universe) m d0 d log)
    as (m' & d' & accepted & Hgc & _ & _).
  - exact (sample_bft 4 1 {[3]} lossy_universe lossy_ok lossy_bft).
  - apply (bool_decide_eq_true_1 _). vm_compute. reflexivity.
  - exact Hd.
  - exact Hm.
  - rewrite Hd_eq. vm_compute. reflexivity.
  - exact Hk.
  - rewrite Hd_eq. vm_compute. discriminate.
  - exists m, d, sds, m', d'. split; [exact Hrun|]. split; [exact Hcommit|]. split; [exact Hgc|].
    apply (f_equal (ret_or (m, d0))) in Hgc. rewrite Hm_eq, Hd_eq in Hgc.
    pose proof (f_equal fst Hgc) as E1. pose proof (f_equal snd Hgc) as E2. cbn [ret_or fst snd] in E1, E2.
    split; [rewrite <- E1|rewrite <- E2]; clear; [vm_compute; reflexivity|eexists; vm_compute; reflexivity].
Defined.
