(* ===== verification/QuorumScan.v ===== *)
(** Stake-weighted order statistics: a list of values, one per authority, is sorted and
    scanned until the accumulated stake reaches the quorum threshold. The commit vote monitor,
    the round tracker and the ancestor state manager compute their quorum indices and rounds
    in this way; the scan and what it finds are stated here once. *)

From stdpp Require Import base tactics numbers list gmap sorting.
From S2P Require Import Prelude.
From S2P Require Import Committee.

Open Scope N_scope.

(** The loop [for (value, stake) in sorted { total += stake; if total >= quorum .. }]. *)
Fixpoint quorum_scan (quorum total : N) (l : list (N * N)) : option N :=
  match l with
  | [] => None
  | (value, stake) :: l =>
      let total := u64_add total stake in
      if quorum <=? total then Some value else quorum_scan quorum total l
  end.

(** Pairs of a value and a stake, compared as Rust compares tuples. *)
Definition pair_leb (a b : N * N) : bool := (a.1 <? b.1) || (a.1 =? b.1) && (a.2 <=? b.2).
Definition pair_geb (a b : N * N) : bool := pair_leb b a.

(** [values.iter().zip(committee.authorities()).map(..)]. *)
Definition with_stakes (c : Committee) (values : list N) : list (N * N) :=
  zip values (authority_stake <$> committee_authorities c).

(** The authorities whose value satisfies [P]. *)
Definition holders (c : Committee) (values : list N) (P : N → Prop) `{∀ x, Decision (P x)} : gset N :=
  filter (λ i, P (default 0 (values !! N.to_nat i))) (members c).

(** * The scan of a sorted list *)

Section Scan.
Context (le : N → N → Prop) `{!RelDecision le} `{!PreOrder le} (Htotal : ∀ a b, le a b ∨ le b a).

Definition stake_to (v : N) (l : list (N * N)) : N := nsum (snd <$> filter (λ x, le x.1 v) l).

Lemma stake_to_app v l k : stake_to v (l ++ k) = stake_to v l + stake_to v k.
Proof. unfold stake_to. by rewrite filter_app, fmap_app, nsum_app. Qed.

Lemma stake_to_le v l : stake_to v l ≤ nsum (snd <$> l).
Proof. induction l as [|x l IH]; [done|]. unfold stake_to in *. rewrite filter_cons. case_decide; csimpl; lia. Qed.

Lemma stake_to_all v l : (∀ x, x ∈ l → le x.1 v) → stake_to v l = nsum (snd <$> l).
Proof.
  intros Hl. unfold stake_to. induction l as [|x l IH]; [done|]. rewrite filter_cons.
  rewrite decide_True by (apply Hl; left). csimpl. rewrite IH; [done|]. intros y Hy. apply Hl. by right.
Qed.

Lemma stake_to_none v l : (∀ x, x ∈ l → ¬ le x.1 v) → stake_to v l = 0.
Proof.
  intros Hl. unfold stake_to. induction l as [|x l IH]; [done|]. rewrite filter_cons.
  rewrite decide_False by (apply Hl; left). apply IH. intros y Hy. apply Hl. by right.
Qed.

(** Found: the value is in the list, the stake up to it reaches the quorum and that up to
    no earlier value does. Not found: the whole stake does not reach the quorum. *)
Lemma quorum_scan_spec q done_ l :
  StronglySorted (λ a b, le a.1 b.1) (done_ ++ l) → nsum (snd <$> done_) < q →
  nsum (snd <$> done_ ++ l) < 2 ^ 64 →
  match quorum_scan q (nsum (snd <$> done_)) l with
  | Some v => v ∈ (done_ ++ l).*1 ∧ q ≤ stake_to v (done_ ++ l) ∧
      ∀ r, q ≤ stake_to r (done_ ++ l) → le v r
  | None => nsum (snd <$> done_ ++ l) < q
  end.
Proof.
  revert done_. induction l as [|[v s] l IH]; intros done_ Hsorted Hq Hbound; cbn [quorum_scan].
  { by rewrite app_nil_r. }
  assert (nsum (snd <$> done_ ++ (v, s) :: l) = nsum (snd <$> done_) + s + nsum (snd <$> l)) as Hsum
    by (rewrite fmap_app, nsum_app; csimpl; lia).
  rewrite u64_add_small by lia.
  assert (nsum (snd <$> done_ ++ [(v, s)]) = nsum (snd <$> done_) + s) as Hsnoc
    by (rewrite fmap_app, nsum_app; csimpl; lia).
  replace (done_ ++ (v, s) :: l) with ((done_ ++ [(v, s)]) ++ l) in * by (by rewrite <- app_assoc).
  destruct (N.leb_spec q (nsum (snd <$> done_) + s)) as [Hle|Hlt].
  - apply StronglySorted_app in Hsorted as (Hbefore & H1 & _).
    apply StronglySorted_app in H1 as (Hv & _ & _).
    split; [rewrite !fmap_app, !elem_of_app; left; right; left|]. split.
    + rewrite stake_to_app, stake_to_all; [lia|].
      intros x [Hx| ->%list_elem_of_singleton]%elem_of_app; [|simpl; reflexivity]. apply (Hv x (v, s)); [done|left].
    + intros r Hr. destruct (Htotal v r) as [?|Hrv]; [done|]. destruct (decide (le v r)) as [?|Hn]; [done|exfalso].
      rewrite stake_to_app, (stake_to_app r done_) in Hr.
      rewrite (stake_to_none r l), (stake_to_none r [(v, s)]) in Hr.
      * pose proof (stake_to_le r done_). lia.
      * by intros x ->%list_elem_of_singleton.
      * intros x Hx Hxr. apply Hn. transitivity x.1; [|done]. apply (Hbefore (v, s) x); [|done].
        apply elem_of_app. right. left.
  - rewrite <- Hsnoc. apply IH; [done|lia|done].
Qed.
End Scan.

Lemma quorum_scan_start le `{!RelDecision le} `{!PreOrder le} q l :
  (∀ a b, le a b ∨ le b a) → StronglySorted (λ a b, le a.1 b.1) l → 0 < q → nsum (snd <$> l) < 2 ^ 64 →
  q ≤ nsum (snd <$> l) →
  ∃ v, quorum_scan q 0 l = Some v ∧ v ∈ l.*1 ∧ q ≤ stake_to le v l ∧ ∀ r, q ≤ stake_to le r l → le v r.
Proof.
  intros Htotal Hs Hq Hb Hsum. pose proof (quorum_scan_spec le Htotal q [] l Hs Hq Hb) as Hscan.
  change (nsum (snd <$> [])) with 0 in Hscan. destruct (quorum_scan q 0 l) as [v|]; simpl in Hscan; [|lia].
  by exists v.
Qed.

(** * Values of a committee *)

Lemma filter_fmap_pairs {A} (f : A → N * N) (P : N → Prop) `{∀ x, Decision (P x)} (l : list A) :
  filter (λ x, P x.1) (f <$> l) = f <$> filter (λ a, P (f a).1) l.
Proof. induction l as [|a l IH]; [done|]. csimpl. rewrite !filter_cons. case_decide; csimpl; by rewrite IH. Qed.

Lemma filter_of_nat (P : N → Prop) `{∀ x, Decision (P x)} (l : list nat) :
  filter P (N.of_nat <$> l) = N.of_nat <$> filter (λ n, P (N.of_nat n)) l.
Proof. induction l as [|a l IH]; [done|]. csimpl. rewrite !filter_cons. case_decide; csimpl; by rewrite IH. Qed.

Lemma pair_leb_iff a b : pair_leb a b = true ↔ a.1 < b.1 ∨ a.1 = b.1 ∧ a.2 ≤ b.2.
Proof. unfold pair_leb. by rewrite orb_true_iff, andb_true_iff, N.ltb_lt, N.eqb_eq, N.leb_le. Qed.

Lemma StronglySorted_reverse {A} (R : A → A → Prop) l :
  StronglySorted R l → StronglySorted (λ a b, R b a) (reverse l).
Proof.
  induction 1 as [|x l Hl IH Hx]; [constructor|]. rewrite reverse_cons. rewrite Forall_forall in Hx.
  apply StronglySorted_app_2; [|done|repeat constructor].
  intros a b Ha ->%list_elem_of_singleton. apply Hx. by rewrite elem_of_reverse in Ha.
Qed.

#[global] Instance nge_dec : RelDecision (λ a b : N, b ≤ a).
Proof. intros a b. apply _. Defined.
#[global] Instance nge_preorder : PreOrder (λ a b : N, b ≤ a).
Proof. split; [intros a; lia|intros a b d ??; lia]. Qed.

Lemma pair_leb_sorted l : StronglySorted (λ a b : N * N, a.1 ≤ b.1) (isort pair_leb l).
Proof.
  eapply StronglySorted_impl; [|apply (isort_sorted pair_leb)].
  - intros a b Hab%Is_true_true%pair_leb_iff. simpl. lia.
  - intros a b. rewrite !pair_leb_iff. lia.
  - intros a b d. rewrite !pair_leb_iff. lia.
Qed.

Lemma pair_geb_sorted l : StronglySorted (λ a b : N * N, b.1 ≤ a.1) (isort pair_geb l).
Proof.
  eapply StronglySorted_impl; [|apply (isort_sorted pair_geb)]; unfold pair_geb.
  - intros a b Hab%Is_true_true%pair_leb_iff. simpl. lia.
  - intros a b. rewrite !pair_leb_iff. lia.
  - intros a b d. rewrite !pair_leb_iff. lia.
Qed.

Section Values.
Context (c : Committee) (Hc : committee_wf c) (values : list N).
Context (Hlen : length values = length (committee_authorities c)).

Lemma with_stakes_seq :
  with_stakes c values =
  (λ i, (default 0 (values !! i), stake_of c (N.of_nat i))) <$> seq 0 (length (committee_authorities c)).
Proof.
  apply list_eq. intros i. unfold with_stakes. rewrite lookup_zip_with, !list_lookup_fmap.
  destruct (decide (i < length (committee_authorities c))%nat) as [Hi|Hi].
  - destruct (lookup_lt_is_Some_2 values i) as [v Hv]; [lia|].
    destruct (lookup_lt_is_Some_2 (committee_authorities c) i) as [a Ha]; [lia|].
    rewrite lookup_seq_lt by done. unfold stake_of. rewrite Hv. simpl. by rewrite Nat2N.id, Hv, Ha.
  - rewrite lookup_seq_ge, (proj2 (lookup_ge_None values i)) by lia. done.
Qed.

Lemma holders_weight (P : N → Prop) `{∀ x, Decision (P x)} :
  weight c (holders c values P) = nsum (snd <$> filter (λ x, P x.1) (with_stakes c values)).
Proof.
  rewrite with_stakes_seq, filter_fmap_pairs, <- list_fmap_compose.
  set (idx := seq 0 (length (committee_authorities c))).
  assert (holders c values P =
    list_to_set (filter (λ i, P (default 0 (values !! N.to_nat i))) (N.of_nat <$> idx))) as ->.
  { apply set_eq. intros i. unfold holders, members.
    by rewrite elem_of_filter, !elem_of_list_to_set, list_elem_of_filter. }
  unfold weight. rewrite set_sum_list_to_set.
  - rewrite filter_of_nat, <- list_fmap_compose.
    f_equal. rewrite (list_filter_iff _ (λ n, P (default 0 (values !! n)))); [done|].
    intros n. by rewrite Nat2N.id.
  - apply NoDup_filter, NoDup_fmap_2; [apply _|]. apply NoDup_seq.
Qed.

Lemma elem_of_holders (P : N → Prop) `{∀ x, Decision (P x)} i :
  i ∈ holders c values P ↔ is_valid_index c i = true ∧ P (default 0 (values !! N.to_nat i)).
Proof. unfold holders. rewrite elem_of_filter, elem_of_members. tauto. Qed.

Lemma with_stakes_total : nsum (snd <$> with_stakes c values) = committee_total_stake c.
Proof.
  unfold with_stakes. rewrite snd_zip by (rewrite length_fmap; lia). by rewrite (wf_total c Hc).
Qed.

Lemma with_stakes_values : (with_stakes c values).*1 = values.
Proof. apply fst_zip. rewrite length_fmap. lia. Qed.

(** The scan over any sorted arrangement of the values. *)
Lemma committee_scan le `{!RelDecision le} `{!PreOrder le} l :
  (∀ a b, le a b ∨ le b a) → StronglySorted (λ a b, le a.1 b.1) l → l ≡ₚ with_stakes c values →
  ∃ v, quorum_scan (committee_quorum_threshold c) 0 l = Some v ∧ v ∈ values ∧
    reached_quorum c (weight c (holders c values (λ x, le x v))) = true ∧
    ∀ r, reached_quorum c (weight c (holders c values (λ x, le x r))) = true → le v r.
Proof.
  intros Htotal Hs Hp. pose proof (wf_total_bound c Hc). pose proof (wf_total_pos c Hc).
  assert (nsum (snd <$> l) = committee_total_stake c) as Hsum by (by rewrite Hp, with_stakes_total).
  assert (∀ v, stake_to le v l = weight c (holders c values (λ x, le x v))) as Hto
    by (intros v; rewrite holders_weight; unfold stake_to; by rewrite Hp).
  destruct (quorum_scan_start le (committee_quorum_threshold c) l Htotal Hs) as (v & Hv & Hin & Hq & Hmin).
  - rewrite (wf_quorum c Hc). lia_div.
  - lia.
  - rewrite Hsum, (wf_quorum c Hc). lia_div.
  - exists v. split; [done|]. rewrite Hp, with_stakes_values in Hin. split; [done|].
    unfold reached_quorum. setoid_rewrite bool_decide_eq_true. rewrite <- Hto. split; [done|].
    intros r. rewrite <- Hto. apply Hmin.
Qed.

(** The least value below which a quorum lies, and the greatest above which one does. *)
Lemma ascending_scan :
  ∃ v, quorum_scan (committee_quorum_threshold c) 0 (isort pair_leb (with_stakes c values)) = Some v ∧
    v ∈ values ∧ reached_quorum c (weight c (holders c values (λ x, x ≤ v))) = true ∧
    ∀ r, reached_quorum c (weight c (holders c values (λ x, x ≤ r))) = true → v ≤ r.
Proof.
  apply (committee_scan (λ a b, a ≤ b)); [intros; lia|apply pair_leb_sorted|apply isort_perm].
Qed.

Lemma descending_scan l :
  StronglySorted (λ a b : N * N, b.1 ≤ a.1) l → l ≡ₚ with_stakes c values →
  ∃ v, quorum_scan (committee_quorum_threshold c) 0 l = Some v ∧
    v ∈ values ∧ reached_quorum c (weight c (holders c values (λ x, v ≤ x))) = true ∧
    ∀ r, reached_quorum c (weight c (holders c values (λ x, r ≤ x))) = true → r ≤ v.
Proof. intros Hs Hp. apply (committee_scan (λ a b, b ≤ a)); [intros; lia|done|done]. Qed.
End Values.
