(* ===== verification/RoundTracker.v ===== *)
(** Tracking of the rounds that peers have received and accepted
    (consensus/core/src/round_tracker.rs), and the way probing results feed it
    (consensus/core/src/round_prober.rs). *)

From stdpp Require Import base tactics numbers list gmap sorting strings.
From coqutil Require Import Datatypes.RecordSettersUsingExistingGetters.
From S2P Require Import Prelude.
From S2P Require Import Committee.
From S2P Require Import Block.
From S2P Require Import QuorumScan.

Open Scope N_scope.

(** * Data *)

Notation QuorumRound := (N * N)%type.

Record PeerRoundTracker := mkPeerRoundTracker {
  rt_context : Context;
  block_accepted_rounds : list (list N);
  probed_accepted_rounds : list (list N);
  probed_received_rounds : list (list N);
}.

(** [vec![vec![0; size]; size]]. *)
Definition zero_rounds (size : N) : list (list N) :=
  replicate (N.to_nat size) (replicate (N.to_nat size) 0).

Definition PeerRoundTracker_new (context : Context) : PeerRoundTracker :=
  let size := Committee_size (committee context) in
  mkPeerRoundTracker context (zero_rounds size) (zero_rounds size) (zero_rounds size).

(** * Operations *)

(** [rounds[row][column] = rounds[row][column].max(round)]. *)
Definition raise_round (row : N) (rounds : list (list N)) (column_round : N * N) : outcome (list (list N)) :=
  let '(column, round) := column_round in
  r ← vec_get rounds row;
  current ← vec_get r column;
  r ← vec_set r column (N.max current round);
  vec_set rounds row r.

Definition ref_entry (r : BlockRef) : N * N := (br_author r, br_round r).

Definition update_from_accepted_block (t : PeerRoundTracker) (extended_block : ExtendedBlock)
    : outcome PeerRoundTracker :=
  let block := eb_block extended_block in
  let author := vb_author block in
  rounds ← raise_round author (block_accepted_rounds t) (author, vb_round block);
  rounds ← foldM (raise_round author) rounds (ref_entry <$> vb_ancestors block);
  rounds ← foldM (raise_round author) rounds (ref_entry <$> eb_excluded_ancestors extended_block);
  Ret (t <| block_accepted_rounds := rounds |>).

Definition update_from_probe (t : PeerRoundTracker) (accepted_rounds received_rounds : list (list N))
    : PeerRoundTracker :=
  t <| probed_accepted_rounds := accepted_rounds |> <| probed_received_rounds := received_rounds |>.

Definition compute_quorum_round (c : Committee) (target_index : N) (highest_rounds : list (list N))
    : outcome QuorumRound :=
  rounds_with_stake ← mapM (λ '(rounds, authority), r ← vec_get rounds target_index; Ret (r, authority_stake authority))
    (zip highest_rounds (committee_authorities c));
  let rounds_with_stake := isort pair_leb rounds_with_stake in
  let low := default 0 (quorum_scan (committee_quorum_threshold c) 0 (reverse rounds_with_stake)) in
  let high := default 0 (quorum_scan (committee_quorum_threshold c) 0 rounds_with_stake) in
  Ret (low, high).

(** The quorum round of every authority. *)
Definition quorum_rounds (c : Committee) (highest_rounds : list (list N)) : outcome (list QuorumRound) :=
  mapM (λ '(peer, _), compute_quorum_round c peer highest_rounds) (Committee_enumerate c).

Definition highest_accepted_rounds (t : PeerRoundTracker) : list (list N) :=
  zip_with (zip_with N.max) (probed_accepted_rounds t) (block_accepted_rounds t).

Definition compute_accepted_quorum_rounds (t : PeerRoundTracker) : outcome (list QuorumRound) :=
  quorum_rounds (committee (rt_context t)) (highest_accepted_rounds t).

Definition compute_received_quorum_rounds (t : PeerRoundTracker) : outcome (list QuorumRound) :=
  quorum_rounds (committee (rt_context t)) (probed_received_rounds t).

Definition calculate_propagation_delay (t : PeerRoundTracker) (last_proposed_round : N) : outcome N :=
  received_quorum_rounds ← compute_received_quorum_rounds t;
  accepted_quorum_rounds ← compute_accepted_quorum_rounds t;
  received ← vec_get received_quorum_rounds (own_index (rt_context t));
  accepted ← vec_get accepted_quorum_rounds (own_index (rt_context t));
  Ret (N.min (saturating_sub last_proposed_round received.1) (saturating_sub last_proposed_round accepted.1)).

(** One answer of a peer to a probe: the received and accepted rounds it reports. Failures and
    timeouts leave the zero rows. *)
Definition probe_answer (context : Context) (acc : list (list N) * list (list N))
    (answer : N * option (list N * list N)) : outcome (list (list N) * list (list N)) :=
  let '(highest_received, highest_accepted) := acc in
  let '(peer, result) := answer in
  _ ← Committee_authority (committee context) peer;
  match result with
  | None => Ret acc
  | Some (received, accepted) =>
      highest_received ← (if N.of_nat (length received) =? Committee_size (committee context)
                          then vec_set highest_received peer received else Ret highest_received);
      highest_accepted ← (if N.of_nat (length accepted) =? Committee_size (committee context)
                          then vec_set highest_accepted peer accepted else Ret highest_accepted);
      Ret (highest_received, highest_accepted)
  end.

(** [RoundProber::probe], from the local rounds and the answers that arrived before shutdown. *)
Definition probe (t : PeerRoundTracker) (local_accepted local_received : list N)
    (answers : list (N * option (list N * list N))) : outcome (PeerRoundTracker * N) :=
  let context := rt_context t in
  let size := Committee_size (committee context) in
  let own := own_index context in
  last_proposed_round ← vec_get local_accepted own;
  highest_received ← vec_set (zero_rounds size) own local_received;
  highest_accepted ← vec_set (zero_rounds size) own local_accepted;
  row ← vec_get highest_received own; row ← vec_set row own last_proposed_round;
  highest_received ← vec_set highest_received own row;
  row ← vec_get highest_accepted own; row ← vec_set row own last_proposed_round;
  highest_accepted ← vec_set highest_accepted own row;
  '(highest_received, highest_accepted) ← foldM (probe_answer context) (highest_received, highest_accepted) answers;
  let t := update_from_probe t highest_accepted highest_received in
  propagation_delay ← calculate_propagation_delay t last_proposed_round;
  Ret (t, propagation_delay).

(** * Specification vocabulary *)

(** One row and one column per authority. *)
Definition square (c : Committee) (rounds : list (list N)) : Prop :=
  length rounds = length (committee_authorities c) ∧
  ∀ row, row ∈ rounds → length row = length (committee_authorities c).

Definition entry (rounds : list (list N)) (i j : N) : N :=
  default 0 (rounds !! N.to_nat i ≫= λ row, row !! N.to_nat j).

Definition column (rounds : list (list N)) (j : N) : list N :=
  (λ row, default 0 (row !! N.to_nat j)) <$> rounds.

Record tracker_wf (t : PeerRoundTracker) : Prop := {
  tw_block : square (committee (rt_context t)) (block_accepted_rounds t);
  tw_accepted : square (committee (rt_context t)) (probed_accepted_rounds t);
  tw_received : square (committee (rt_context t)) (probed_received_rounds t);
}.

(** The rounds a block shows its author to have accepted: per authority, its own round, its
    ancestors and the ancestors it left out. *)
Definition mentions (b : ExtendedBlock) : list (N * N) :=
  (vb_author (eb_block b), vb_round (eb_block b)) ::
  (ref_entry <$> vb_ancestors (eb_block b)) ++ (ref_entry <$> eb_excluded_ancestors b).

Definition highest_of (j : N) (l : list (N * N)) : N := foldr N.max 0 (snd <$> filter (λ e, e.1 = j) l).

Definition shown_rounds (i j : N) (blocks : list ExtendedBlock) : N :=
  highest_of j (filter (λ b, vb_author (eb_block b) = i) blocks ≫= mentions).

(** * Lemmas *)

Lemma valid_index_lt c i : is_valid_index c i = true ↔ (N.to_nat i < length (committee_authorities c))%nat.
Proof. unfold is_valid_index, Committee_size. rewrite bool_decide_eq_true. lia. Qed.

Lemma square_row c rounds i :
  square c rounds → is_valid_index c i = true →
  ∃ row, rounds !! N.to_nat i = Some row ∧ length row = length (committee_authorities c).
Proof.
  intros [Hlen Hrows] Hi%valid_index_lt. destruct (lookup_lt_is_Some_2 rounds (N.to_nat i)) as [row Hrow]; [lia|].
  exists row. split; [done|]. apply Hrows. apply list_elem_of_lookup. by eexists.
Qed.

Lemma entry_column rounds i j : entry rounds i j = default 0 (column rounds j !! N.to_nat i).
Proof. unfold entry, column. rewrite list_lookup_fmap. by destruct (rounds !! N.to_nat i). Qed.

Lemma square_zero c : square c (zero_rounds (Committee_size c)).
Proof.
  unfold square, zero_rounds, Committee_size. rewrite length_replicate, Nat2N.id. split; [done|].
  intros row [-> _]%elem_of_replicate. by rewrite length_replicate.
Qed.

Lemma square_insert c rounds i row :
  square c rounds → length row = length (committee_authorities c) → square c (<[N.to_nat i := row]> rounds).
Proof.
  intros [Hlen Hrows] Hrow. split; [by rewrite length_insert|].
  intros r [k Hk]%list_elem_of_lookup. apply list_lookup_insert_Some in Hk as [(_ & <- & _)|[_ Hk]]; [done|].
  apply Hrows. apply list_elem_of_lookup. by eexists.
Qed.

Lemma raise_round_spec c i rounds e :
  square c rounds → is_valid_index c i = true → is_valid_index c e.1 = true →
  ∃ rounds', raise_round i rounds e = Ret rounds' ∧ square c rounds' ∧
    ∀ i' j, entry rounds' i' j =
      if decide (i' = i ∧ j = e.1) then N.max (entry rounds i j) e.2 else entry rounds i' j.
Proof.
  intros Hsq Hi He. destruct e as [j0 r]. simpl in He.
  destruct (square_row c rounds i Hsq Hi) as (row & Hrow & Hlen).
  pose proof (proj1 (valid_index_lt c j0) He) as Hlt.
  destruct (lookup_lt_is_Some_2 row (N.to_nat j0)) as [cur Hcur]; [lia|].
  pose proof (lookup_lt_Some _ _ _ Hrow) as Hilt.
  unfold raise_round, vec_get, vec_set. rewrite Hrow. cbn [expect mbind outcome_bind]. rewrite Hcur.
  cbn [expect mbind outcome_bind]. rewrite !decide_True by lia. cbn [mbind outcome_bind].
  rewrite decide_True by lia. eexists. split; [done|]. split.
  { apply square_insert; [done|]. by rewrite length_insert. }
  intros i' j. unfold entry. destruct (decide (i' = i)) as [->|Hn].
  - rewrite list_lookup_insert_eq by done. rewrite Hrow. simpl.
    destruct (decide (j = j0)) as [->|Hj].
    + rewrite list_lookup_insert_eq by lia. rewrite decide_True by done. by rewrite Hcur.
    + rewrite list_lookup_insert_ne by lia. by rewrite decide_False by naive_solver.
  - rewrite list_lookup_insert_ne by lia. by rewrite decide_False by naive_solver.
Qed.

Lemma highest_of_cons j e l :
  highest_of j (e :: l) = if decide (e.1 = j) then N.max e.2 (highest_of j l) else highest_of j l.
Proof. unfold highest_of. rewrite filter_cons. by case_decide. Qed.

Lemma highest_of_app j l k : highest_of j (l ++ k) = N.max (highest_of j l) (highest_of j k).
Proof.
  induction l as [|e l IH]; [unfold highest_of; simpl; lia|].
  rewrite <- app_comm_cons, !highest_of_cons, IH. case_decide; lia.
Qed.

Lemma raise_rounds_spec c i l rounds :
  square c rounds → is_valid_index c i = true → (∀ e, e ∈ l → is_valid_index c e.1 = true) →
  ∃ rounds', foldM (raise_round i) rounds l = Ret rounds' ∧ square c rounds' ∧
    ∀ i' j, entry rounds' i' j =
      if decide (i' = i) then N.max (entry rounds i j) (highest_of j l) else entry rounds i' j.
Proof.
  revert rounds. induction l as [|e l IH]; intros rounds Hsq Hi Hl.
  { exists rounds. split; [done|]. split; [done|]. intros i' j. unfold highest_of. simpl. case_decide; [subst; lia|done]. }
  destruct (raise_round_spec c i rounds e Hsq Hi) as (r1 & Hr1 & Hsq1 & He1); [apply Hl; left|].
  destruct (IH r1 Hsq1 Hi) as (r2 & Hr2 & Hsq2 & He2); [intros e' He'; apply Hl; by right|].
  exists r2. cbn [foldM]. rewrite Hr1. cbn [mbind outcome_bind]. split; [done|]. split; [done|].
  intros i' j. rewrite He2, !He1, highest_of_cons. repeat case_decide; naive_solver lia.
Qed.

Lemma update_from_accepted_block_spec t b :
  tracker_wf t → (∀ e, e ∈ mentions b → is_valid_index (committee (rt_context t)) e.1 = true) →
  ∃ t', update_from_accepted_block t b = Ret t' ∧ tracker_wf t' ∧ rt_context t' = rt_context t ∧
    (∀ i j, entry (block_accepted_rounds t') i j =
       if decide (i = vb_author (eb_block b)) then N.max (entry (block_accepted_rounds t) i j) (highest_of j (mentions b))
       else entry (block_accepted_rounds t) i j) ∧
    probed_accepted_rounds t' = probed_accepted_rounds t ∧ probed_received_rounds t' = probed_received_rounds t.
Proof.
  intros [Hb Ha Hr] Hval. unfold update_from_accepted_block.
  assert (is_valid_index (committee (rt_context t)) (vb_author (eb_block b)) = true) as Hauth
    by (apply (Hval (vb_author (eb_block b), vb_round (eb_block b))); left).
  destruct (raise_round_spec _ (vb_author (eb_block b)) (block_accepted_rounds t)
    (vb_author (eb_block b), vb_round (eb_block b)) Hb Hauth Hauth) as (r1 & -> & Hsq1 & He1).
  cbn [mbind outcome_bind].
  destruct (raise_rounds_spec _ (vb_author (eb_block b)) (ref_entry <$> vb_ancestors (eb_block b)) r1 Hsq1 Hauth)
    as (r2 & -> & Hsq2 & He2); [intros e He; apply Hval; unfold mentions; set_solver|].
  cbn [mbind outcome_bind].
  destruct (raise_rounds_spec _ (vb_author (eb_block b)) (ref_entry <$> eb_excluded_ancestors b) r2 Hsq2 Hauth)
    as (r3 & -> & Hsq3 & He3); [intros e He; apply Hval; unfold mentions; set_solver|].
  eexists. split; [done|]. split; [by split|]. split; [done|]. split; [|done].
  intros i j. cbn [block_accepted_rounds set const]. rewrite He3, !He2, !He1.
  unfold mentions. rewrite highest_of_cons, highest_of_app. cbn [fst snd].
  repeat case_decide; naive_solver lia.
Qed.

Lemma zip_column {A} (f : A → N) (g : Authority → N) rows authorities :
  (λ '(row, a), (f row, g a)) <$> zip rows authorities = zip (f <$> rows) (g <$> authorities).
Proof. revert authorities. induction rows as [|r rows IH]; intros [|a l]; csimpl; [done..|]. by rewrite IH. Qed.

Lemma compute_quorum_round_scan c target rounds :
  committee_wf c → square c rounds → is_valid_index c target = true →
  ∃ low high, compute_quorum_round c target rounds = Ret (low, high) ∧
    reached_quorum c (weight c (holders c (column rounds target) (λ x, low ≤ x))) = true ∧
    (∀ r, reached_quorum c (weight c (holders c (column rounds target) (λ x, r ≤ x))) = true → r ≤ low) ∧
    reached_quorum c (weight c (holders c (column rounds target) (λ x, x ≤ high))) = true ∧
    (∀ r, reached_quorum c (weight c (holders c (column rounds target) (λ x, x ≤ r))) = true → high ≤ r).
Proof.
  intros Hc [Hlen Hrows] Ht%valid_index_lt. unfold compute_quorum_round.
  rewrite (mapM_Ret _ (λ '(row, a), (default 0 (row !! N.to_nat target), authority_stake a))).
  2: { intros [row a] Hin%elem_of_zip_l. unfold vec_get.
       destruct (lookup_lt_is_Some_2 row (N.to_nat target)) as [x Hx]; [by rewrite Hrows|]. by rewrite Hx. }
  cbn [mbind outcome_bind]. rewrite zip_column. fold (column rounds target). fold (with_stakes c (column rounds target)).
  assert (length (column rounds target) = length (committee_authorities c)) as Hcol
    by (unfold column; by rewrite length_fmap).
  destruct (descending_scan c Hc (column rounds target) Hcol
    (reverse (isort pair_leb (with_stakes c (column rounds target))))) as (low & -> & _ & Hlow & Hmax).
  { apply (StronglySorted_reverse (λ a b : N * N, a.1 ≤ b.1)), pair_leb_sorted. }
  { by rewrite reverse_Permutation, isort_perm. }
  destruct (ascending_scan c Hc (column rounds target) Hcol) as (high & -> & _ & Hhigh & Hmin).
  by exists low, high.
Qed.

Lemma reached_quorum_mono c (X Y : gset N) :
  X ⊆ Y → reached_quorum c (weight c X) = true → reached_quorum c (weight c Y) = true.
Proof.
  intros Hsub. unfold reached_quorum. rewrite !bool_decide_eq_true.
  pose proof (set_sum_subseteq (stake_of c) X Y Hsub). unfold weight. lia.
Qed.

Lemma quorum_round_low c target rounds :
  committee_wf c → square c rounds → is_valid_index c target = true →
  ∃ low high, compute_quorum_round c target rounds = Ret (low, high) ∧
    ∀ r, reached_quorum c (weight c (holders c (column rounds target) (λ x, r ≤ x))) = true ↔ r ≤ low.
Proof.
  intros Hc Hsq Ht.
  destruct (compute_quorum_round_scan c target rounds Hc Hsq Ht) as (low & high & Hrun & Hlow & Hmax & _).
  exists low, high. split; [done|]. intros r. split; [apply Hmax|]. intros Hr.
  eapply reached_quorum_mono; [|exact Hlow]. intros i. rewrite !elem_of_holders. intros [? ?]. split; [done|lia].
Qed.

(** The authorities outside a set of less than validity stake hold a quorum. *)
Lemma honest_quorum c byz (X : gset N) :
  committee_wf c → reached_validity c (weight c byz) = false →
  (∀ i, is_valid_index c i = true → i ∉ byz → i ∈ X) → reached_quorum c (weight c X) = true.
Proof.
  intros Hc Hbyz HX. unfold reached_quorum, reached_validity in *.
  rewrite bool_decide_eq_true. rewrite bool_decide_eq_false in Hbyz.
  assert (weight c (members c) ≤ weight c (X ∪ byz)) as Hall.
  { apply set_sum_subseteq. intros i Hi%elem_of_members. destruct (decide (i ∈ byz)); set_solver. }
  pose proof (set_sum_inter (stake_of c) X byz) as Hinter. unfold weight in *.
  rewrite (wf_quorum c Hc). rewrite (wf_validity c Hc) in Hbyz. pose proof (weight_members c) as Hm.
  unfold weight in Hm. rewrite <- (wf_total c Hc) in Hm. lia_div.
Qed.

Lemma some_honest_or_all c (byz : gset N) (P : N → Prop) `{∀ i, Decision (P i)} :
  (∃ i, is_valid_index c i = true ∧ (i ∉ byz) ∧ ¬ P i) ∨ (∀ i, is_valid_index c i = true → i ∉ byz → P i).
Proof.
  destruct (set_choose_or_empty (filter (λ i, ¬ P i) (members c ∖ byz))) as [[i Hi]|He].
  - left. exists i. rewrite elem_of_filter, elem_of_difference, elem_of_members in Hi. tauto.
  - right. intros i Hi Hb. destruct (decide (P i)) as [?|Hn]; [done|exfalso].
    assert (i ∈ filter (λ i, ¬ P i) (members c ∖ byz)) as Hin; [|set_solver].
    by rewrite elem_of_filter, elem_of_difference, elem_of_members.
Qed.

(** * Theorems *)

(** C35. The quorum round of an authority, from one report per authority. It is computed
    without a panic; [low] is the greatest round such that a quorum reports at least it, and
    [high] the least round such that a quorum reports at most it, so that [low <= high]. With
    less than a validity threshold of faulty stake the range lies between the reports of
    correct authorities, whatever the faulty ones report. *)
Theorem quorum_round_bft c byz target rounds :
  committee_wf c → square c rounds → is_valid_index c target = true →
  reached_validity c (weight c byz) = false →
  ∃ low high, compute_quorum_round c target rounds = Ret (low, high) ∧ low ≤ high ∧
    (∀ r, reached_quorum c (weight c (holders c (column rounds target) (λ x, r ≤ x))) = true ↔ r ≤ low) ∧
    (∀ r, reached_quorum c (weight c (holders c (column rounds target) (λ x, x ≤ r))) = true ↔ high ≤ r) ∧
    (∃ i, is_valid_index c i = true ∧ (i ∉ byz) ∧ entry rounds i target ≤ low) ∧
    (∃ j, is_valid_index c j = true ∧ (j ∉ byz) ∧ high ≤ entry rounds j target).
Proof.
  intros Hc Hsq Ht Hbyz.
  destruct (compute_quorum_round_scan c target rounds Hc Hsq Ht) as (low & high & Hrun & Hlow & Hmax & Hhigh & Hmin).
  set (col := column rounds target) in *.
  assert (∀ r r', r ≤ r' → reached_quorum c (weight c (holders c col (λ x, r' ≤ x))) = true →
    reached_quorum c (weight c (holders c col (λ x, r ≤ x))) = true) as Hdown.
  { intros r r' Hr. apply reached_quorum_mono. intros i. rewrite !elem_of_holders. intros [? ?]. split; [done|lia]. }
  assert (∀ r r', r ≤ r' → reached_quorum c (weight c (holders c col (λ x, x ≤ r))) = true →
    reached_quorum c (weight c (holders c col (λ x, x ≤ r'))) = true) as Hup.
  { intros r r' Hr. apply reached_quorum_mono. intros i. rewrite !elem_of_holders. intros [? ?]. split; [done|lia]. }
  assert (∀ i, entry rounds i target = default 0 (col !! N.to_nat i)) as Hentry by (intros i; apply entry_column).
  exists low, high. split; [done|]. split; [|split; [|split; [|split]]].
  - destruct (quorums_share_honest c Hc _ _ byz Hlow Hhigh Hbyz) as (i & Hi1 & Hi2 & _).
    apply elem_of_holders in Hi1 as [_ ?]. apply elem_of_holders in Hi2 as [_ ?]. lia.
  - intros r. split; [apply Hmax|]. intros Hr. by apply (Hdown r low).
  - intros r. split; [apply Hmin|]. intros Hr. by apply (Hup high r).
  - destruct (some_honest_or_all c byz (λ i, low + 1 ≤ default 0 (col !! N.to_nat i))) as [(i & ? & ? & Hn)|Hall].
    + exists i. rewrite Hentry. split; [done|]. split; [done|]. lia.
    + assert (low + 1 ≤ low); [|lia]. apply Hmax, (honest_quorum c byz); [done|done|].
      intros i Hi Hb. apply elem_of_holders. split; [done|]. by apply Hall.
  - destruct (some_honest_or_all c byz (λ i, default 0 (col !! N.to_nat i) + 1 ≤ high)) as [(i & ? & ? & Hn)|Hall].
    + exists i. rewrite Hentry. split; [done|]. split; [done|]. lia.
    + assert (high ≤ high - 1) as Hle; [|].
      { apply Hmin, (honest_quorum c byz); [done|done|].
        intros i Hi Hb. apply elem_of_holders. split; [done|]. specialize (Hall i Hi Hb). lia. }
      destruct (quorums_share_honest c Hc _ _ byz Hlow Hlow Hbyz) as (i & [Hv _]%elem_of_holders & _ & Hb).
      specialize (Hall i Hv Hb). lia.
Qed.

Lemma quorum_rounds_spec c rounds :
  committee_wf c → square c rounds →
  ∃ qs, quorum_rounds c rounds = Ret qs ∧ length qs = length (committee_authorities c) ∧
    ∀ i, is_valid_index c i = true → ∃ q, vec_get qs i = Ret q ∧ compute_quorum_round c i rounds = Ret q.
Proof.
  intros Hc Hsq. set (g := λ p : N * Authority, ret_or (0, 0) (compute_quorum_round c p.1 rounds)).
  assert (∀ i, is_valid_index c i = true → ∃ q, compute_quorum_round c i rounds = Ret q) as Hok.
  { intros i Hi. destruct (compute_quorum_round_scan c i rounds Hc Hsq Hi) as (low & high & Hrun & _). eauto. }
  assert (∀ i a, Committee_enumerate c !! i = Some a → a.1 = N.of_nat i ∧ is_valid_index c a.1 = true) as Henum.
  { intros i a Ha. unfold Committee_enumerate in Ha. rewrite list_lookup_imap in Ha.
    destruct (committee_authorities c !! i) as [x|] eqn:Hx; [|done]. injection Ha as <-. split; [done|].
    apply valid_index_lt. simpl. apply lookup_lt_Some in Hx. lia. }
  exists (g <$> Committee_enumerate c). split; [|split].
  - apply mapM_Ret. intros a [i Ha]%list_elem_of_lookup. destruct (Henum i a Ha) as [_ Hv].
    destruct (Hok a.1 Hv) as [q Hq]. unfold g. destruct a as [j x]. simpl in *. by rewrite Hq.
  - rewrite length_fmap. apply length_imap.
  - intros i Hi. destruct (Hok i Hi) as [q Hq]. exists q. split; [|done].
    apply vec_get_Ret. rewrite list_lookup_fmap. unfold Committee_enumerate. rewrite list_lookup_imap.
    apply valid_index_lt in Hi. destruct (lookup_lt_is_Some_2 _ _ Hi) as [x Hx]. rewrite Hx. simpl.
    unfold g. simpl. by rewrite N2Nat.id, Hq.
Qed.

Lemma column_length c rounds j : square c rounds → length (column rounds j) = length (committee_authorities c).
Proof. intros [Hlen _]. unfold column. by rewrite length_fmap. Qed.

Lemma square_max c r1 r2 : square c r1 → square c r2 → square c (zip_with (zip_with N.max) r1 r2).
Proof.
  intros [Hl1 Hr1] [Hl2 Hr2]. split; [rewrite length_zip_with; lia|].
  intros row (x & y & -> & Hx & Hy)%elem_of_zip_with.
  rewrite length_zip_with, (Hr1 x Hx), (Hr2 y Hy). lia.
Qed.

(** The propagation delay of the own blocks: the last proposed round minus the delay is
    the greatest round up to the last proposed one that a quorum of authorities reports to
    have received, or a quorum reports or shows in its blocks to have accepted. *)
Lemma propagation_delay_spec t last_proposed_round :
  let c := committee (rt_context t) in
  let own := own_index (rt_context t) in
  let reaches rounds r := reached_quorum c (weight c (holders c (column rounds own) (λ x, r ≤ x))) = true in
  committee_wf c → tracker_wf t → is_valid_index c own = true →
  ∃ delay, calculate_propagation_delay t last_proposed_round = Ret delay ∧ delay ≤ last_proposed_round ∧
    ∀ r, r ≤ last_proposed_round →
      (reaches (probed_received_rounds t) r ∨ reaches (highest_accepted_rounds t) r ↔
       r ≤ last_proposed_round - delay).
Proof.
  intros c own reaches Hc [Hb Ha Hr] Hown. unfold calculate_propagation_delay.
  unfold compute_received_quorum_rounds, compute_accepted_quorum_rounds. change (committee (rt_context t)) with c.
  change (own_index (rt_context t)) with own.
  assert (square c (highest_accepted_rounds t)) as Hacc by (by apply square_max).
  destruct (quorum_rounds_spec c _ Hc Hr) as (qr & -> & _ & Hqr).
  destruct (quorum_rounds_spec c _ Hc Hacc) as (qa & -> & _ & Hqa). cbn [mbind outcome_bind].
  destruct (Hqr own Hown) as ([lr hr] & -> & Hlr). destruct (Hqa own Hown) as ([la ha] & -> & Hla).
  cbn [mbind outcome_bind fst]. unfold saturating_sub.
  eexists. split; [done|]. split; [lia|]. intros r Hle.
  assert (∀ rounds low high, square c rounds → compute_quorum_round c own rounds = Ret (low, high) →
    ∀ r, reaches rounds r ↔ r ≤ low) as Hiff.
  { intros rounds low high Hsq Hrun r0.
    destruct (quorum_round_low c own rounds Hc Hsq Hown) as (low' & high' & Hrun' & Hl).
    rewrite Hrun in Hrun'. injection Hrun' as -> ->. apply Hl. }
  rewrite (Hiff _ _ _ Hr Hlr), (Hiff _ _ _ Hacc Hla). lia.
Qed.

Lemma propagation_delay_total t last_proposed_round :
  committee_wf (committee (rt_context t)) → tracker_wf t →
  is_valid_index (committee (rt_context t)) (own_index (rt_context t)) = true →
  ∃ delay, calculate_propagation_delay t last_proposed_round = Ret delay.
Proof.
  intros Hc Hwf Hown. destruct (propagation_delay_spec t last_proposed_round Hc Hwf Hown) as (delay & Hd & _).
  by exists delay.
Qed.

(** C36. The propagation delay of the own blocks: the last proposed round minus the delay is
    the greatest round up to the last proposed one that a quorum of authorities reports to
    have received, or a quorum reports or shows in its blocks to have accepted. *)
Theorem propagation_delay_exact t last_proposed_round :
  let c := committee (rt_context t) in
  let own := own_index (rt_context t) in
  let reaches rounds r := reached_quorum c (weight c (holders c (column rounds own) (λ x, r ≤ x))) = true in
  committee_wf c → tracker_wf t → is_valid_index c own = true →
  ∃ delay, calculate_propagation_delay t last_proposed_round = Ret delay ∧ delay ≤ last_proposed_round ∧
    ∀ r, r ≤ last_proposed_round →
      (reaches (probed_received_rounds t) r ∨ reaches (highest_accepted_rounds t) r ↔
       r ≤ last_proposed_round - delay).
Proof. apply propagation_delay_spec. Qed.

Lemma entry_zero n i j : entry (zero_rounds n) i j = 0.
Proof.
  unfold entry, zero_rounds. destruct (replicate _ _ !! N.to_nat i) as [row|] eqn:Hrow; [|done].
  apply lookup_replicate in Hrow as [-> _]. simpl.
  destruct (replicate _ 0 !! N.to_nat j) as [x|] eqn:Hx; [|done]. by apply lookup_replicate in Hx as [-> _].
Qed.

Lemma entry_max c r1 r2 i j :
  square c r1 → square c r2 → is_valid_index c i = true → is_valid_index c j = true →
  entry (zip_with (zip_with N.max) r1 r2) i j = N.max (entry r1 i j) (entry r2 i j).
Proof.
  intros H1 H2 Hi Hj%valid_index_lt. destruct (square_row c r1 i H1 Hi) as (row1 & Hr1 & Hl1).
  destruct (square_row c r2 i H2 Hi) as (row2 & Hr2 & Hl2).
  destruct (lookup_lt_is_Some_2 row1 (N.to_nat j)) as [x Hx]; [lia|].
  destruct (lookup_lt_is_Some_2 row2 (N.to_nat j)) as [y Hy]; [lia|].
  unfold entry. rewrite lookup_zip_with, Hr1, Hr2. simpl. by rewrite lookup_zip_with, Hx, Hy.
Qed.

Lemma update_blocks_spec blocks t :
  tracker_wf t →
  (∀ b e, b ∈ blocks → e ∈ mentions b → is_valid_index (committee (rt_context t)) e.1 = true) →
  ∃ t', foldM update_from_accepted_block t blocks = Ret t' ∧ tracker_wf t' ∧ rt_context t' = rt_context t ∧
    (∀ i j, entry (block_accepted_rounds t') i j = N.max (entry (block_accepted_rounds t) i j) (shown_rounds i j blocks)) ∧
    probed_accepted_rounds t' = probed_accepted_rounds t ∧ probed_received_rounds t' = probed_received_rounds t.
Proof.
  revert t. induction blocks as [|b blocks IH]; intros t Hwf Hval.
  { exists t. repeat (split; [done|]). split; [|done]. intros i j. unfold shown_rounds, highest_of. simpl. lia. }
  destruct (update_from_accepted_block_spec t b Hwf) as (t1 & Hrun1 & Hwf1 & Hc1 & He1 & Ha1 & Hr1).
  { intros e. apply Hval. left. }
  destruct (IH t1 Hwf1) as (t2 & Hrun2 & Hwf2 & Hc2 & He2 & Ha2 & Hr2).
  { rewrite Hc1. intros b' e Hb'. apply Hval. by right. }
  exists t2. cbn [foldM]. rewrite Hrun1. cbn [mbind outcome_bind]. split; [done|]. split; [done|].
  split; [congruence|]. split; [|split; congruence].
  intros i j. rewrite He2, He1. unfold shown_rounds. rewrite filter_cons.
  destruct (decide (i = vb_author (eb_block b))) as [->|Hn].
  - rewrite decide_True by done. rewrite bind_cons, highest_of_app. lia.
  - by rewrite decide_False by done.
Qed.

(** After any accepted blocks, received or proposed, the tracker holds for every pair of
    authorities the highest round of the second that blocks of the first show to be accepted. *)
Theorem accepted_rounds_exact context blocks :
  (∀ b e, b ∈ blocks → e ∈ mentions b → is_valid_index (committee context) e.1 = true) →
  ∃ t, foldM update_from_accepted_block (PeerRoundTracker_new context) blocks = Ret t ∧ tracker_wf t ∧
    ∀ i j, is_valid_index (committee context) i = true → is_valid_index (committee context) j = true →
      entry (block_accepted_rounds t) i j = shown_rounds i j blocks ∧
      entry (highest_accepted_rounds t) i j = shown_rounds i j blocks.
Proof.
  intros Hval.
  destruct (update_blocks_spec blocks (PeerRoundTracker_new context)) as (t & Hrun & Hwf & Hctx & He & Hp & _).
  { split; apply square_zero. } { exact Hval. }
  exists t. split; [done|]. split; [done|]. intros i j Hi Hj.
  assert (entry (block_accepted_rounds t) i j = shown_rounds i j blocks) as Heq.
  { rewrite He. simpl. rewrite entry_zero. lia. }
  split; [done|]. unfold highest_accepted_rounds. rewrite Hp. simpl probed_accepted_rounds.
  destruct Hwf as [Hb _ _]. rewrite Hctx in Hb.
  rewrite (entry_max (committee context)); [|apply square_zero|done|done|done].
  rewrite entry_zero. lia.
Qed.

Lemma set_row c rounds i row :
  square c rounds → is_valid_index c i = true →
  vec_set rounds i row = Ret (<[N.to_nat i := row]> rounds).
Proof.
  intros [Hlen _] Hi%valid_index_lt. unfold vec_set. by rewrite decide_True by lia.
Qed.

Lemma probe_answer_spec context hr ha answer :
  let c := committee context in
  square c hr → square c ha → is_valid_index c answer.1 = true →
  ∃ hr' ha', probe_answer context (hr, ha) answer = Ret (hr', ha') ∧ square c hr' ∧ square c ha'.
Proof.
  intros c Hr Ha Hv. destruct answer as [peer [[received accepted]|]]; simpl in Hv; cbn [probe_answer];
    destruct (valid_authority c peer Hv) as [a Haut]; fold c; rewrite Haut; cbn [mbind outcome_bind];
    [|by exists hr, ha].
  assert (∀ rounds row, square c rounds → ∃ rounds',
    (if N.of_nat (length row) =? Committee_size c then vec_set rounds peer row else Ret rounds) = Ret rounds' ∧
    square c rounds') as Hset.
  { intros rounds row Hsq. destruct (N.eqb_spec (N.of_nat (length row)) (Committee_size c)) as [Hl|Hl]; [|by exists rounds].
    rewrite (set_row c) by done. eexists. split; [done|]. apply square_insert; [done|].
    unfold Committee_size in Hl. lia. }
  destruct (Hset hr received Hr) as (hr' & -> & Hr'). cbn [mbind outcome_bind].
  destruct (Hset ha accepted Ha) as (ha' & -> & Ha'). cbn [mbind outcome_bind]. by exists hr', ha'.
Qed.

Lemma probe_answers_spec context answers hr ha :
  let c := committee context in
  square c hr → square c ha → (∀ a, a ∈ answers → is_valid_index c a.1 = true) →
  ∃ hr' ha', foldM (probe_answer context) (hr, ha) answers = Ret (hr', ha') ∧ square c hr' ∧ square c ha'.
Proof.
  intros c. revert hr ha. induction answers as [|a answers IH]; intros hr ha Hr Ha Hv; [by exists hr, ha|].
  destruct (probe_answer_spec context hr ha a Hr Ha) as (hr1 & ha1 & Hrun & Hr1 & Ha1); [apply Hv; left|].
  cbn [foldM]. rewrite Hrun. cbn [mbind outcome_bind]. apply IH; [done|done|]. intros b Hb. apply Hv. by right.
Qed.

(** A probe never panics and keeps one row and column per authority, whatever rows the
    peers answer with. *)
Lemma probe_wf t local_accepted local_received answers :
  let c := committee (rt_context t) in
  committee_wf c → tracker_wf t → is_valid_index c (own_index (rt_context t)) = true →
  length local_accepted = length (committee_authorities c) →
  length local_received = length (committee_authorities c) →
  (∀ a, a ∈ answers → is_valid_index c a.1 = true) →
  ∃ t' delay, probe t local_accepted local_received answers = Ret (t', delay) ∧ tracker_wf t' ∧
    rt_context t' = rt_context t ∧ block_accepted_rounds t' = block_accepted_rounds t.
Proof.
  intros c Hc Hwf Hown Hla Hlr Hans. unfold probe. fold c. set (own := own_index (rt_context t)) in *.
  pose proof (proj1 (valid_index_lt c own) Hown) as Hlt.
  assert (∀ row, length row = length (committee_authorities c) →
    vec_set (zero_rounds (Committee_size c)) own row = Ret (<[N.to_nat own := row]> (zero_rounds (Committee_size c)))
    ∧ vec_get (<[N.to_nat own := row]> (zero_rounds (Committee_size c))) own = Ret row
    ∧ square c (<[N.to_nat own := row]> (zero_rounds (Committee_size c)))) as Hzero.
  { intros row Hrow. split; [apply (set_row c); [apply square_zero|done]|].
    split; [|by apply square_insert; [apply square_zero|]].
    apply vec_get_Ret. apply list_lookup_insert_eq. destruct (square_zero c) as [-> _]. done. }
  destruct (lookup_lt_is_Some_2 local_accepted (N.to_nat own)) as [last Hlast]; [lia|].
  destruct (Hzero local_received Hlr) as (H1 & H2 & H3). destruct (Hzero local_accepted Hla) as (H4 & H5 & H6).
  rewrite (proj2 (vec_get_Ret _ _ _) Hlast). cbn [mbind outcome_bind].
  rewrite H1. cbn [mbind outcome_bind]. rewrite H4. cbn [mbind outcome_bind]. rewrite H2. cbn [mbind outcome_bind].
  assert (∀ row, length row = length (committee_authorities c) → vec_set row own last = Ret (<[N.to_nat own := last]> row)) as Hset
    by (intros row Hrow; unfold vec_set; by rewrite decide_True by lia).
  rewrite (Hset local_received Hlr). cbn [mbind outcome_bind]. rewrite (set_row c) by done. cbn [mbind outcome_bind].
  rewrite H5. cbn [mbind outcome_bind]. rewrite (Hset local_accepted Hla). cbn [mbind outcome_bind].
  rewrite (set_row c) by done. cbn [mbind outcome_bind].
  destruct (probe_answers_spec (rt_context t) answers
    (<[N.to_nat own := <[N.to_nat own := last]> local_received]> (<[N.to_nat own := local_received]> (zero_rounds (Committee_size c))))
    (<[N.to_nat own := <[N.to_nat own := last]> local_accepted]> (<[N.to_nat own := local_accepted]> (zero_rounds (Committee_size c)))))
    as (hr & ha & -> & Hr & Ha); [apply square_insert; [done|by rewrite length_insert]..|done|].
  cbn [mbind outcome_bind]. set (t' := update_from_probe t ha hr).
  assert (tracker_wf t') as Hwf' by (destruct Hwf; by split).
  destruct (propagation_delay_total t' last) as [delay ->]; [done|done|done|].
  by exists t', delay.
Qed.

(** * Witnesses *)

Definition four_peers : Committee :=
  mkCommittee 0 4 3 2 (replicate 4 (mkAuthority 1 "host" [])).

Lemma four_peers_wf : committee_wf four_peers.
Proof. split; vm_compute; reflexivity. Qed.

Lemma quorum_round_bft_witness :
  let rounds := [[7; 0; 0; 0]; [5; 0; 0; 0]; [6; 0; 0; 0]; [99; 0; 0; 0]] in
  ∃ low high, compute_quorum_round four_peers 0 rounds = Ret (low, high) ∧ low = 6 ∧ high = 7.
Proof.
  intros rounds.
  destruct (quorum_round_bft four_peers {[3]} 0 rounds) as (low & high & Hrun & _).
  - exact four_peers_wf.
  - split; [reflexivity|]. apply Forall_forall. repeat constructor.
  - reflexivity.
  - vm_compute. reflexivity.
  - exists low, high. split; [exact Hrun|]. vm_compute in Hrun. injection Hrun as <- <-. split; reflexivity.
Defined.

Definition four_context : Context :=
  mkContext 0 0 four_peers Parameters_default (mkProtocolConfig false false (Some 1) 60 20 1000 10 10000).

Lemma propagation_delay_exact_witness :
  let t := mkPeerRoundTracker four_context (zero_rounds 4)
    [[9; 0; 0; 0]; [8; 0; 0; 0]; [6; 0; 0; 0]; [0; 0; 0; 0]] (zero_rounds 4) in
  ∃ delay, calculate_propagation_delay t 9 = Ret delay ∧ delay = 3.
Proof.
  intros t. destruct (propagation_delay_exact t 9) as (delay & Hd & _).
  - exact four_peers_wf.
  - split; [apply square_zero| |apply square_zero]. split; [reflexivity|]. apply Forall_forall. repeat constructor.
  - reflexivity.
  - exists delay. split; [exact Hd|]. vm_compute in Hd. injection Hd as <-. reflexivity.
Defined.

Lemma accepted_rounds_exact_witness :
  let b := mkVerifiedBlock (mkSignedBlock (V1 (mkBlockV1 0 5 1 0 [mkBlockRef 4 1 0; mkBlockRef 4 2 0] [] [] [])) []) 0 [] in
  ∃ t, foldM update_from_accepted_block (PeerRoundTracker_new four_context) [mkExtendedBlock b [mkBlockRef 3 0 0]] = Ret t ∧
    entry (block_accepted_rounds t) 1 0 = 3.
Proof.
  intros b.
  destruct (accepted_rounds_exact four_context [mkExtendedBlock b [mkBlockRef 3 0 0]]) as (t & Ht & _ & He).
  - intros x e ->%list_elem_of_singleton He.
    change (e ∈ [(1, 5); (1, 4); (2, 4); (0, 3)]) in He. rewrite !elem_of_cons in He.
    destruct He as [->|[->|[->|[->|He]]]]; [reflexivity..|]. by apply elem_of_nil in He.
  - exists t. split; [exact Ht|]. destruct (He 1 0 eq_refl eq_refl) as [-> _]. vm_compute. reflexivity.
Defined.
