(* ===== verification/CommitVoteMonitor.v ===== *)
(** Monitoring of commit votes (consensus/core/src/commit_vote_monitor.rs): the highest commit
    index each authority has voted for, and the highest index a quorum has voted for. *)

From stdpp Require Import base tactics numbers list gmap sorting.
From coqutil Require Import Datatypes.RecordSettersUsingExistingGetters.
From S2P Require Import Prelude.
From S2P Require Import Committee.
From S2P Require Import Block.
From S2P Require Import Commit.
From S2P Require Import QuorumScan.
From S2P Require Import RoundTracker.

Open Scope N_scope.

Record CommitVoteMonitor := mkCommitVoteMonitor {
  cvm_context : Context;
  highest_voted_commits : list N;
}.

Definition CommitVoteMonitor_new (context : Context) : CommitVoteMonitor :=
  mkCommitVoteMonitor context (replicate (N.to_nat (Committee_size (committee context))) 0).

(** One vote of a block of [author]. *)
Definition observe_vote (author : N) (highest : list N) (vote : CommitVote) : outcome (list N) :=
  current ← vec_get highest author;
  if current <? cr_index vote then vec_set highest author (cr_index vote) else Ret highest.

Definition observe_block (m : CommitVoteMonitor) (block : VerifiedBlock) : outcome CommitVoteMonitor :=
  highest ← foldM (observe_vote (vb_author block)) (highest_voted_commits m) (vb_commit_votes block);
  Ret (m <| highest_voted_commits := highest |>).

Definition quorum_commit_index (m : CommitVoteMonitor) : N :=
  let c := committee (cvm_context m) in
  default GENESIS_COMMIT_INDEX
    (quorum_scan (committee_quorum_threshold c) 0
       (isort pair_geb (with_stakes c (highest_voted_commits m)))).

(** * Specification *)

(** The highest commit index the blocks of [author] vote for. *)
Definition highest_vote (author : N) (blocks : list VerifiedBlock) : N :=
  foldr N.max 0 (cr_index <$> (filter (λ b, vb_author b = author) blocks ≫= vb_commit_votes)).

(** The authorities with a block that votes for the commit [index] or a later one. *)
Definition voters (c : Committee) (blocks : list VerifiedBlock) (index : N) : gset N :=
  filter (λ a, index ≤ highest_vote a blocks) (members c).

Definition monitor_wf (m : CommitVoteMonitor) : Prop :=
  length (highest_voted_commits m) = length (committee_authorities (committee (cvm_context m))).

Definition voted (m : CommitVoteMonitor) (a : N) : N := default 0 (highest_voted_commits m !! N.to_nat a).

Lemma observe_votes_spec author votes highest :
  (N.to_nat author < length highest)%nat →
  ∃ highest', foldM (observe_vote author) highest votes = Ret highest' ∧ length highest' = length highest ∧
    ∀ a, default 0 (highest' !! N.to_nat a) =
      if decide (a = author) then N.max (default 0 (highest !! N.to_nat a)) (foldr N.max 0 (cr_index <$> votes))
      else default 0 (highest !! N.to_nat a).
Proof.
  revert highest. induction votes as [|v votes IH]; intros highest Hlt.
  { exists highest. split; [done|]. split; [done|]. intros a. simpl. case_decide; [lia|done]. }
  destruct (lookup_lt_is_Some_2 highest (N.to_nat author) Hlt) as [cur Hcur].
  set (h1 := if cur <? cr_index v then <[N.to_nat author := cr_index v]> highest else highest).
  assert (observe_vote author highest v = Ret h1) as Hstep.
  { unfold observe_vote, vec_get, vec_set, h1. rewrite Hcur. cbn [expect mbind outcome_bind].
    destruct (cur <? cr_index v); [by rewrite decide_True|done]. }
  assert (length h1 = length highest) as Hlen
    by (unfold h1; destruct (cur <? cr_index v); [by rewrite length_insert|done]).
  destruct (IH h1) as (h2 & Hrun & Hl2 & He2); [lia|].
  exists h2. cbn [foldM]. rewrite Hstep. cbn [mbind outcome_bind]. split; [done|]. split; [lia|].
  intros a. rewrite He2. unfold h1. csimpl. case_decide as Ha.
  - subst a. rewrite Hcur. simpl. destruct (N.ltb_spec cur (cr_index v)).
    + rewrite list_lookup_insert_eq by done. simpl. lia.
    + rewrite Hcur. simpl. lia.
  - destruct (cur <? cr_index v); [|done]. by rewrite list_lookup_insert_ne by lia.
Qed.

Lemma observe_block_spec m b :
  monitor_wf m → is_valid_index (committee (cvm_context m)) (vb_author b) = true →
  ∃ m', observe_block m b = Ret m' ∧ monitor_wf m' ∧ cvm_context m' = cvm_context m ∧
    ∀ a, voted m' a = N.max (voted m a) (highest_vote a [b]).
Proof.
  intros Hwf Hv%valid_index_lt. unfold observe_block.
  destruct (observe_votes_spec (vb_author b) (vb_commit_votes b) (highest_voted_commits m)) as (h & -> & Hl & He).
  { by rewrite Hwf. }
  eexists. split; [done|]. split; [etransitivity; [exact Hl|exact Hwf]|]. split; [done|].
  intros a. unfold voted. simpl. rewrite He. unfold highest_vote. rewrite filter_cons.
  case_decide as Ha; [rewrite decide_True by done|rewrite decide_False by done]; simpl; [by rewrite app_nil_r|lia].
Qed.

Lemma foldr_max_app l k : foldr N.max 0 (l ++ k) = N.max (foldr N.max 0 l) (foldr N.max 0 k).
Proof. induction l; simpl; lia. Qed.

Lemma highest_vote_cons a b blocks :
  highest_vote a (b :: blocks) = N.max (highest_vote a [b]) (highest_vote a blocks).
Proof.
  unfold highest_vote. rewrite !filter_cons. case_decide; simpl; [|lia].
  by rewrite app_nil_r, fmap_app, foldr_max_app.
Qed.

Lemma observe_blocks_spec m blocks :
  monitor_wf m → (∀ b, b ∈ blocks → is_valid_index (committee (cvm_context m)) (vb_author b) = true) →
  ∃ m', foldM observe_block m blocks = Ret m' ∧ monitor_wf m' ∧ cvm_context m' = cvm_context m ∧
    ∀ a, voted m' a = N.max (voted m a) (highest_vote a blocks).
Proof.
  revert m. induction blocks as [|b blocks IH]; intros m Hwf Hv.
  { exists m. repeat (split; [done|]). intros a. unfold highest_vote. simpl. lia. }
  destruct (observe_block_spec m b Hwf) as (m1 & Hr1 & Hwf1 & Hc1 & Hv1); [apply Hv; left|].
  destruct (IH m1 Hwf1) as (m2 & Hr2 & Hwf2 & Hc2 & Hv2); [rewrite Hc1; intros x Hx; apply Hv; by right|].
  exists m2. cbn [foldM]. rewrite Hr1. cbn [mbind outcome_bind]. split; [done|]. split; [done|].
  split; [congruence|]. intros a. rewrite Hv2, Hv1, (highest_vote_cons a b blocks). lia.
Qed.

Lemma voted_vote a blocks :
  0 < highest_vote a blocks → ∃ b v, b ∈ blocks ∧ vb_author b = a ∧ v ∈ vb_commit_votes b ∧ cr_index v = highest_vote a blocks.
Proof.
  unfold highest_vote. set (vs := filter _ blocks ≫= vb_commit_votes). intros Hpos.
  assert (∃ v, v ∈ vs ∧ cr_index v = foldr N.max 0 (cr_index <$> vs)) as (v & Hv & Heq).
  { clearbody vs. induction vs as [|v vs IH]; csimpl; csimpl in Hpos; [simpl in Hpos; lia|].
    destruct (N.leb_spec (foldr N.max 0 (cr_index <$> vs)) (cr_index v)).
    - exists v. split; [left|lia].
    - destruct IH as (v' & ? & ?); [lia|]. exists v'. split; [by right|lia]. }
  apply list_elem_of_bind in Hv as (b & Hvb & [Ha Hb]%list_elem_of_filter). by exists b, v.
Qed.

(** The authorities that the monitor has seen vote for [index] or a later commit. *)
Definition monitored (c : Committee) (m : CommitVoteMonitor) (index : N) : gset N :=
  filter (λ a, index ≤ voted m a) (members c).

Lemma quorum_commit_index_spec m index :
  let c := committee (cvm_context m) in
  committee_wf c → monitor_wf m →
  index ≤ quorum_commit_index m ↔ reached_quorum c (weight c (monitored c m index)) = true.
Proof.
  intros c Hc Hwf.
  destruct (descending_scan c Hc (highest_voted_commits m) Hwf _ (pair_geb_sorted _) (isort_perm _ _))
    as (v & Hscan & _ & Hq & Hmax).
  assert (∀ index, holders c (highest_voted_commits m) (λ x, index ≤ x) = monitored c m index) as Hhold.
  { intros i. apply set_eq. intros a. unfold monitored. rewrite elem_of_holders, elem_of_filter, elem_of_members.
    unfold voted. tauto. }
  assert (quorum_commit_index m = v) as -> by (unfold quorum_commit_index; fold c; by rewrite Hscan).
  rewrite <- Hhold. split; [|apply Hmax]. intros Hle.
  eapply reached_quorum_mono; [|exact Hq]. intros a. rewrite !elem_of_holders. intros [? ?]. split; [done|lia].
Qed.

(** C37. After observing blocks of committee members, the quorum commit index is the greatest
    index that a quorum of authorities voted for, a vote for an index counting for all lower
    ones. With less than a validity threshold of faulty stake, a correct authority has voted
    for it or for a later commit. Observing more blocks never lowers it. *)
Theorem quorum_commit_index_exact context byz blocks :
  let c := committee context in
  committee_wf c → reached_validity c (weight c byz) = false →
  (∀ b, b ∈ blocks → is_valid_index c (vb_author b) = true) →
  ∃ m, foldM observe_block (CommitVoteMonitor_new context) blocks = Ret m ∧
    (∀ index, index ≤ quorum_commit_index m ↔ reached_quorum c (weight c (voters c blocks index)) = true) ∧
    (0 < quorum_commit_index m → ∃ b v, b ∈ blocks ∧ (vb_author b ∉ byz) ∧ v ∈ vb_commit_votes b ∧
       quorum_commit_index m ≤ cr_index v) ∧
    ∀ more, (∀ b, b ∈ more → is_valid_index c (vb_author b) = true) →
      ∃ m', foldM observe_block m more = Ret m' ∧ quorum_commit_index m ≤ quorum_commit_index m'.
Proof.
  intros c Hc Hbyz Hv.
  destruct (observe_blocks_spec (CommitVoteMonitor_new context) blocks) as (m & Hrun & Hwf & Hctx & Hvoted); [|done|].
  { unfold monitor_wf. simpl. rewrite length_replicate. unfold Committee_size. lia. }
  assert (∀ a, voted m a = highest_vote a blocks) as Hva.
  { intros a. rewrite Hvoted. unfold voted. simpl. destruct (replicate _ 0 !! _) eqn:Hr; [|simpl; lia].
    apply lookup_replicate in Hr as [-> _]. simpl. lia. }
  simpl in Hctx.
  assert (∀ index, monitored c m index = voters c blocks index) as Hmon.
  { intros index. apply set_eq. intros a. unfold monitored, voters. by rewrite !elem_of_filter, Hva. }
  pose proof (quorum_commit_index_spec m) as Hspec. rewrite Hctx in Hspec.
  assert (∀ index, index ≤ quorum_commit_index m ↔ reached_quorum c (weight c (voters c blocks index)) = true) as Hiff
    by (intros index; rewrite <- Hmon; by apply Hspec).
  exists m. split; [done|]. split; [done|]. split.
  - intros Hpos. pose proof (proj1 (Hiff _) (N.le_refl _)) as Hq.
    destruct (quorums_share_honest c Hc _ _ byz Hq Hq Hbyz) as (a & [Ha _]%elem_of_filter & _ & Hb).
    destruct (voted_vote a blocks) as (b & w & Hin & <- & Hw & Hidx); [lia|].
    exists b, w. repeat (split; [done|]). lia.
  - intros more Hmore. destruct (observe_blocks_spec m more Hwf) as (m' & Hrun' & Hwf' & Hctx' & Hvoted'); [by rewrite Hctx|].
    exists m'. split; [done|]. pose proof (quorum_commit_index_spec m') as Hspec'. rewrite Hctx', Hctx in Hspec'. apply Hspec'; [done..|].
    eapply reached_quorum_mono; [|by apply (Hspec (quorum_commit_index m))]. intros a. unfold monitored.
    rewrite !elem_of_filter, Hvoted'. intros [? ?]. split; [lia|done].
Qed.

Lemma quorum_commit_index_exact_witness :
  let vote a i := mkVerifiedBlock (mkSignedBlock (V1 (mkBlockV1 0 1 a 0 [] [] [mkCommitRef i 0] [])) []) a [] in
  ∃ m, foldM observe_block (CommitVoteMonitor_new four_context) [vote 0 10; vote 1 8; vote 2 5; vote 3 90] = Ret m ∧
    quorum_commit_index m = 8 ∧ ∃ m', foldM observe_block m [vote 2 9] = Ret m' ∧ quorum_commit_index m' = 9.
Proof.
  intros vote.
  destruct (quorum_commit_index_exact four_context {[3]} [vote 0 10; vote 1 8; vote 2 5; vote 3 90]) as (m & Hm & _ & _ & Hmore).
  - exact four_peers_wf.
  - vm_compute. reflexivity.
  - intros b. rewrite !elem_of_cons. intros [->|[->|[->|[->|Hb]]]]; [reflexivity..|]. by apply elem_of_nil in Hb.
  - destruct (Hmore [vote 2 9]) as (m' & Hm' & _); [by intros b ->%list_elem_of_singleton|].
    exists m. split; [exact Hm|]. vm_compute in Hm. injection Hm as <-. split; [vm_compute; reflexivity|].
    exists m'. split; [exact Hm'|]. vm_compute in Hm'. injection Hm' as <-. vm_compute. reflexivity.
Defined.
