(* ===== verification/Ancestor.v ===== *)
(** Selection of ancestors by propagation quality (consensus/core/src/ancestor.rs): every
    authority is included or excluded, changes are locked for a number of rounds, and the
    excluded stake is bounded. *)

From stdpp Require Import base tactics numbers list gmap sorting strings.
From coqutil Require Import Datatypes.RecordSettersUsingExistingGetters.
From S2P Require Import Prelude.
From S2P Require Import Committee.
From S2P Require Import Block.
From S2P Require Import Commit.
From S2P Require Import LeaderScoring.
From S2P Require Import QuorumScan.
From S2P Require Import RoundTracker.

Open Scope N_scope.

(** * Data *)

Inductive AncestorState :=
| Include
| Exclude (score : N).

Record AncestorInfo := mkAncestorInfo {
  ai_state : AncestorState;
  lock_until_round : N;
}.

Definition AncestorInfo_new : AncestorInfo := mkAncestorInfo Include 0.
Definition is_locked (info : AncestorInfo) (current_clock_round : N) : bool :=
  current_clock_round <=? lock_until_round info.
Definition set_lock (info : AncestorInfo) (until : N) : AncestorInfo := info <| lock_until_round := until |>.

Record StateTransition := mkStateTransition {
  st_authority_id : N;
  st_score : N;
  st_stake : N;
  st_high_quorum_round : N;
}.

Record AncestorStateManager := mkAncestorStateManager {
  asm_context : Context;
  state_map : list AncestorInfo;
  excluded_nodes_stake_threshold : N;
  total_excluded_stake : N;
  propagation_scores : ReputationScores;
}.

Definition STATE_LOCK_CLOCK_ROUNDS : N := 450.
Definition SCORE_EXCLUSION_THRESHOLD_PERCENTAGE : N := 20.

(** * Operations *)

Definition AncestorStateManager_new (context : Context) : AncestorStateManager :=
  let percentage := u64_mul 2 (consensus_bad_nodes_stake_threshold (protocol_config context)) / 3 in
  let threshold := u64_mul percentage (committee_total_stake (committee context)) / 100 in
  mkAncestorStateManager context
    (replicate (N.to_nat (Committee_size (committee context))) AncestorInfo_new)
    threshold 0 ReputationScores_default.

Definition set_propagation_scores (m : AncestorStateManager) (scores : ReputationScores) : AncestorStateManager :=
  m <| propagation_scores := scores |>.

Definition get_ancestor_states (m : AncestorStateManager) : list AncestorState := ai_state <$> state_map m.

Definition calculate_network_high_quorum_round (m : AncestorStateManager)
    (accepted_quorum_rounds : list QuorumRound) : N :=
  let c := committee (asm_context m) in
  default 0 (quorum_scan (committee_quorum_threshold c) 0
    (isort pair_leb (with_stakes c (snd <$> accepted_quorum_rounds)))).

Definition apply_state_change (m : AncestorStateManager) (transition : StateTransition)
    (new_state : AncestorState) (current_clock_round : N) : outcome AncestorStateManager :=
  _ ← Committee_authority (committee (asm_context m)) (st_authority_id transition);
  info ← vec_get (state_map m) (st_authority_id transition);
  total ← match ai_state info, new_state with
          | Exclude _, Include =>
              if st_stake transition <=? total_excluded_stake m
              then Ret (total_excluded_stake m - st_stake transition) else Panic
          | Include, Exclude _ => Ret (u64_add (total_excluded_stake m) (st_stake transition))
          | _, _ => Panic
          end;
  states ← vec_set (state_map m) (st_authority_id transition)
             (set_lock (info <| ai_state := new_state |>) (u32_add current_clock_round STATE_LOCK_CLOCK_ROUNDS));
  Ret (m <| state_map := states |> <| total_excluded_stake := total |>).

(** One authority of the loop that collects the transitions. *)
Definition collect_transition (m : AncestorStateManager) (accepted_quorum_rounds : list QuorumRound)
    (network_high_quorum_round current_clock_round low_score_threshold : N)
    (acc : list StateTransition * list StateTransition) (idx_score : N * N)
    : outcome (list StateTransition * list StateTransition) :=
  let '(exclude_to_include, include_to_exclude) := acc in
  let '(idx, score) := idx_score in
  authority_id ← expect (to_authority_index (committee (asm_context m)) idx);
  info ← vec_get (state_map m) idx;
  '(_, high) ← vec_get accepted_quorum_rounds idx;
  stake ← Committee_stake (committee (asm_context m)) authority_id;
  if is_locked info current_clock_round then Ret acc
  else
    let transition := mkStateTransition authority_id score stake high in
    match ai_state info with
    | Include =>
        if score <=? low_score_threshold
        then Ret (exclude_to_include, include_to_exclude ++ [transition]) else Ret acc
    | Exclude _ =>
        if (low_score_threshold <? score) || (network_high_quorum_round <=? high)
        then Ret (exclude_to_include ++ [transition], include_to_exclude) else Ret acc
    end.

Definition transition_score_leb (a b : StateTransition) : bool := st_score a <=? st_score b.

Definition exclude_within_limit (current_clock_round : N) (m : AncestorStateManager)
    (transition : StateTransition) : outcome AncestorStateManager :=
  if u64_add (total_excluded_stake m) (st_stake transition) <=? excluded_nodes_stake_threshold m
  then apply_state_change m transition (Exclude (st_score transition)) current_clock_round
  else Ret m.

Definition update_all_ancestors_state (m : AncestorStateManager) (current_clock_round : N)
    (accepted_quorum_rounds : list QuorumRound) : outcome AncestorStateManager :=
  let network_high_quorum_round := calculate_network_high_quorum_round m accepted_quorum_rounds in
  let low_score_threshold :=
    u64_mul (highest_score (propagation_scores m)) SCORE_EXCLUSION_THRESHOLD_PERCENTAGE / 100 in
  '(exclude_to_include, include_to_exclude) ←
    foldM (collect_transition m accepted_quorum_rounds network_high_quorum_round current_clock_round
             low_score_threshold)
      ([], []) (imap (λ i score, (N.of_nat i, score)) (scores_per_authority (propagation_scores m)));
  m ← foldM (λ m t, apply_state_change m t Include current_clock_round) m exclude_to_include;
  foldM (exclude_within_limit current_clock_round) m (isort transition_score_leb include_to_exclude).

(** * Specification vocabulary *)

Definition info_at (m : AncestorStateManager) (i : N) : AncestorInfo :=
  default AncestorInfo_new (state_map m !! N.to_nat i).
Definition is_excluded (info : AncestorInfo) : bool :=
  match ai_state info with Include => false | Exclude _ => true end.

(** The excluded authorities. *)
Definition excluded (m : AncestorStateManager) : gset N :=
  filter (λ i, is_excluded (info_at m i) = true) (members (committee (asm_context m))).

Record asm_wf (m : AncestorStateManager) : Prop := {
  aw_length : length (state_map m) = length (committee_authorities (committee (asm_context m)));
  aw_total : total_excluded_stake m = weight (committee (asm_context m)) (excluded m);
  aw_limit : total_excluded_stake m ≤ excluded_nodes_stake_threshold m;
}.

(** What an update does not change. *)
Definition same_setting (m m' : AncestorStateManager) : Prop :=
  asm_context m' = asm_context m ∧ excluded_nodes_stake_threshold m' = excluded_nodes_stake_threshold m ∧
  propagation_scores m' = propagation_scores m.

Definition score_of (m : AncestorStateManager) (i : N) : option N :=
  scores_per_authority (propagation_scores m) !! N.to_nat i.
Definition low_score (m : AncestorStateManager) : N :=
  u64_mul (highest_score (propagation_scores m)) SCORE_EXCLUSION_THRESHOLD_PERCENTAGE / 100.

(** * Lemmas *)

Section Manager.
Context (c : Committee) (Hc : committee_wf c).

Lemma state_at_lookup m i :
  asm_wf m → committee (asm_context m) = c → is_valid_index c i = true →
  state_map m !! N.to_nat i = Some (info_at m i).
Proof.
  intros Hwf Hctx Hi%valid_index_lt. unfold info_at.
  destruct (lookup_lt_is_Some_2 (state_map m) (N.to_nat i)) as [x Hx]; [by rewrite (aw_length m Hwf), Hctx|].
  by rewrite Hx.
Qed.

(** One change of state. *)
Lemma apply_state_change_spec m i score high new clock :
  asm_wf m → committee (asm_context m) = c → is_valid_index c i = true → clock + STATE_LOCK_CLOCK_ROUNDS < 2 ^ 32 →
  is_excluded (info_at m i) ≠ is_excluded (mkAncestorInfo new 0) →
  (new = Include ∨ total_excluded_stake m + stake_of c i ≤ excluded_nodes_stake_threshold m) →
  ∃ m', apply_state_change m (mkStateTransition i score (stake_of c i) high) new clock = Ret m' ∧
    asm_wf m' ∧ same_setting m m' ∧
    total_excluded_stake m' = (if is_excluded (mkAncestorInfo new 0)
      then total_excluded_stake m + stake_of c i else total_excluded_stake m - stake_of c i) ∧
    ∀ j, info_at m' j = if decide (j = i) then mkAncestorInfo new (clock + STATE_LOCK_CLOCK_ROUNDS) else info_at m j.
Proof.
  intros Hwf Hctx Hi Hclock Hdiff Hlimit. pose proof (state_at_lookup m i Hwf Hctx Hi) as Hlk.
  pose proof (proj2 (elem_of_members c i) Hi) as Hmem. pose proof (lookup_lt_Some _ _ _ Hlk) as Hlt.
  set (info' := mkAncestorInfo new (clock + STATE_LOCK_CLOCK_ROUNDS)).
  set (total' := if is_excluded (mkAncestorInfo new 0)
      then total_excluded_stake m + stake_of c i else total_excluded_stake m - stake_of c i).
  set (m' := m <| state_map := <[N.to_nat i := info']> (state_map m) |> <| total_excluded_stake := total' |>).
  assert (∀ j, info_at m' j = if decide (j = i) then info' else info_at m j) as Hinfo.
  { intros j. unfold info_at. change (state_map m') with (<[N.to_nat i := info']> (state_map m)).
    case_decide as Hj.
    - subst j. by rewrite list_lookup_insert_eq.
    - by rewrite list_lookup_insert_ne by lia. }
  assert (∀ j, j ∈ excluded m' ↔ j ∈ members c ∧ is_excluded (info_at m' j) = true) as Hex'
    by (intros j; unfold excluded; rewrite elem_of_filter; change (asm_context m') with (asm_context m); rewrite Hctx; tauto).
  assert (∀ j, j ∈ excluded m ↔ j ∈ members c ∧ is_excluded (info_at m j) = true) as Hex
    by (intros j; unfold excluded; rewrite elem_of_filter, Hctx; tauto).
  pose proof (aw_total m Hwf) as Htot. rewrite Hctx in Htot.
  pose proof (aw_limit m Hwf) as Hlim. pose proof (weight_bound c Hc (excluded m)) as Hb.
  pose proof (stake_of_le_total c Hc i) as Hs. pose proof (wf_total_bound c Hc) as Htb.
  assert (total' = weight c (excluded m') ∧ total' ≤ excluded_nodes_stake_threshold m) as [Htot' Hlim'].
  { unfold total'. destruct (is_excluded (mkAncestorInfo new 0)) eqn:Hnew.
    - assert (i ∉ excluded m) as Hni by (rewrite Hex; intros [_ ?]; congruence).
      assert (excluded m' = {[i]} ∪ excluded m) as ->.
      { apply set_eq. intros j. rewrite elem_of_union, elem_of_singleton, Hex', Hex, Hinfo.
        case_decide; [subst; split; [by left|by split]|naive_solver]. }
      unfold weight. rewrite set_sum_insert by done. fold (weight c (excluded m)). split; [lia|].
      destruct Hlimit as [->|?]; [done|lia].
    - assert (i ∈ excluded m) as Hin by (apply Hex; split; [done|]; by destruct (is_excluded (info_at m i))).
      assert (excluded m = {[i]} ∪ excluded m') as Heq.
      { apply set_eq. intros j. rewrite elem_of_union, elem_of_singleton, Hex', Hinfo.
        case_decide as Hj; [subst; split; [by left|done]|]. rewrite Hex. naive_solver. }
      rewrite Heq in Htot. unfold weight in Htot. rewrite set_sum_insert in Htot.
      + fold (weight c (excluded m')) in Htot. lia.
      + rewrite Hex', Hinfo, decide_True by done. intros [_ Hx].
        change (is_excluded info') with (is_excluded (mkAncestorInfo new 0)) in Hx. congruence. }
  assert (is_excluded (mkAncestorInfo new 0) = false → stake_of c i ≤ total_excluded_stake m) as Hle.
  { intros Hnew. rewrite Htot. apply set_sum_elem, Hex. split; [done|]. by destruct (is_excluded (info_at m i)). }
  exists m'. split; [|split; [split|split; [done|split; [done|done]]]].
  - unfold apply_state_change. cbn [st_authority_id st_stake]. rewrite Hctx.
    destruct (valid_authority c i Hi) as [a ->]. cbn [mbind outcome_bind].
    rewrite (proj2 (vec_get_Ret _ _ _) Hlk). cbn [mbind outcome_bind].
    rewrite u32_add_small by done. unfold vec_set. rewrite decide_True by done.
    unfold m', total', info', is_excluded in *. cbn [ai_state] in *.
    destruct (ai_state (info_at m i)), new; try done; cbn [mbind outcome_bind].
    + rewrite u64_add_small by lia. done.
    + by rewrite (proj2 (N.leb_le _ _)) by (by apply Hle).
  - change (state_map m') with (<[N.to_nat i := info']> (state_map m)). rewrite length_insert. apply Hwf.
  - change (asm_context m') with (asm_context m). by rewrite Hctx.
  - exact Hlim'.
Qed.

(** The transitions the loop collects. *)
Definition high_of (rounds : list QuorumRound) (i : N) : N := (default (0, 0) (rounds !! N.to_nat i)).2.
Definition transition_of (rounds : list QuorumRound) (p : N * N) : StateTransition :=
  mkStateTransition p.1 p.2 (stake_of c p.1) (high_of rounds p.1).
Definition releasable (m : AncestorStateManager) (rounds : list QuorumRound) (net clock low : N) (p : N * N) : bool :=
  negb (is_locked (info_at m p.1) clock) && is_excluded (info_at m p.1) &&
  ((low <? p.2) || (net <=? high_of rounds p.1)).
Definition excludable (m : AncestorStateManager) (clock low : N) (p : N * N) : bool :=
  negb (is_locked (info_at m p.1) clock) && negb (is_excluded (info_at m p.1)) && (p.2 <=? low).

Lemma collect_transitions_spec m rounds net clock low l e2i i2e :
  asm_wf m → committee (asm_context m) = c → length rounds = length (committee_authorities c) →
  (∀ p, p ∈ l → is_valid_index c p.1 = true) →
  foldM (collect_transition m rounds net clock low) (e2i, i2e) l =
    Ret (e2i ++ (transition_of rounds <$> filter (λ p, releasable m rounds net clock low p = true) l),
         i2e ++ (transition_of rounds <$> filter (λ p, excludable m clock low p = true) l)).
Proof.
  intros Hwf Hctx Hlen. revert e2i i2e. induction l as [|[i s] l IH]; intros e2i i2e Hv.
  { cbn. by rewrite !app_nil_r. }
  assert (is_valid_index c i = true) as Hi by (apply (Hv (i, s)); left).
  pose proof (proj1 (valid_index_lt c i) Hi) as Hlt.
  assert (∀ p, p ∈ l → is_valid_index c p.1 = true) as Hv' by (intros p Hp; apply Hv; by right).
  destruct (lookup_lt_is_Some_2 rounds (N.to_nat i)) as [[lo hi] Hround]; [lia|].
  cbn [foldM collect_transition]. rewrite Hctx.
  assert (to_authority_index c i = Some i) as ->
    by (unfold to_authority_index; rewrite decide_True by (unfold is_valid_index in Hi; by apply bool_decide_eq_true in Hi); done).
  cbn [expect mbind outcome_bind]. rewrite (proj2 (vec_get_Ret _ _ _) (state_at_lookup m i Hwf Hctx Hi)).
  cbn [mbind outcome_bind]. rewrite (proj2 (vec_get_Ret _ _ _) Hround). cbn [mbind outcome_bind].
  rewrite (Committee_stake_valid c i Hi). cbn [mbind outcome_bind].
  assert (high_of rounds i = hi) as Hhi by (unfold high_of; by rewrite Hround).
  assert (transition_of rounds (i, s) = mkStateTransition i s (stake_of c i) hi) as Htr
    by (unfold transition_of; cbn [fst snd]; by rewrite Hhi).
  assert (releasable m rounds net clock low (i, s) = negb (is_locked (info_at m i) clock) &&
    is_excluded (info_at m i) && ((low <? s) || (net <=? hi))) as Hrel by (unfold releasable; cbn [fst snd]; by rewrite Hhi).
  assert (excludable m clock low (i, s) = negb (is_locked (info_at m i) clock) &&
    negb (is_excluded (info_at m i)) && (s <=? low)) as Hexc by done.
  rewrite !filter_cons. unfold is_excluded in Hrel, Hexc.
  destruct (is_locked (info_at m i) clock); cbn [negb andb] in Hrel, Hexc; cbn [mbind outcome_bind].
  { rewrite !decide_False by congruence. by apply IH. }
  destruct (ai_state (info_at m i)); cbn [negb andb] in Hrel, Hexc.
  - rewrite (decide_False (P := releasable m rounds net clock low (i, s) = true)) by congruence.
    destruct (s <=? low); cbn [mbind outcome_bind].
    + rewrite decide_True by congruence. rewrite IH by done. csimpl. by rewrite <- app_assoc, Htr.
    + rewrite decide_False by congruence. by apply IH.
  - rewrite (decide_False (P := excludable m clock low (i, s) = true)) by congruence.
    destruct ((low <? s) || (net <=? hi)); cbn [mbind outcome_bind].
    + rewrite decide_True by congruence. rewrite IH by done. csimpl. by rewrite <- app_assoc, Htr.
    + rewrite decide_False by congruence. by apply IH.
Qed.

(** The releases. *)
Lemma release_spec rounds clock l m :
  asm_wf m → committee (asm_context m) = c → clock + STATE_LOCK_CLOCK_ROUNDS < 2 ^ 32 → NoDup l.*1 →
  (∀ p, p ∈ l → is_valid_index c p.1 = true ∧ is_excluded (info_at m p.1) = true) →
  ∃ m', foldM (λ m t, apply_state_change m t Include clock) m (transition_of rounds <$> l) = Ret m' ∧
    asm_wf m' ∧ same_setting m m' ∧
    ∀ j, info_at m' j = if decide (j ∈ l.*1) then mkAncestorInfo Include (clock + STATE_LOCK_CLOCK_ROUNDS) else info_at m j.
Proof.
  revert m. induction l as [|p l IH]; intros m Hwf Hctx Hclock Hnd Hl.
  { exists m. split; [done|]. split; [done|]. split; [done|]. intros j. by rewrite decide_False by apply not_elem_of_nil. }
  cbn [fmap list_fmap] in Hnd. apply NoDup_cons in Hnd as [Hp Hnd]. destruct (Hl p) as [Hi He]; [left|].
  destruct (apply_state_change_spec m p.1 p.2 (high_of rounds p.1) Include clock) as (m1 & Hrun1 & Hwf1 & Hs1 & _ & Hi1);
    [done|done|done|done|by rewrite He|by left|].
  destruct (IH m1) as (m2 & Hrun2 & Hwf2 & Hs2 & Hi2); [done| |done|done| |].
  { by rewrite (proj1 Hs1). }
  { intros q Hq. destruct (Hl q) as [? Hq']; [by right|]. split; [done|]. rewrite Hi1.
    rewrite decide_False; [done|]. intros Heq. apply Hp. rewrite <- Heq. by apply list_elem_of_fmap_2. }
  exists m2. fold (transition_of rounds p) in Hrun1. rewrite fmap_cons. cbn [foldM]. rewrite Hrun1. cbn [mbind outcome_bind].
  split; [done|]. split; [done|]. split; [destruct Hs1 as (?&?&?), Hs2 as (?&?&?); by repeat split; congruence|].
  intros j. rewrite Hi2, Hi1. destruct (decide (j ∈ l.*1)) as [Hj|Hj].
  - by rewrite decide_True by (by right).
  - destruct (decide (j = p.1)) as [->|Hn]; [by rewrite decide_True by left|].
    by rewrite decide_False by (rewrite fmap_cons, elem_of_cons; naive_solver).
Qed.

(** The exclusions, as far as the limit allows. *)
Lemma exclude_spec rounds clock l m :
  asm_wf m → committee (asm_context m) = c → clock + STATE_LOCK_CLOCK_ROUNDS < 2 ^ 32 → NoDup l.*1 →
  (∀ p, p ∈ l → is_valid_index c p.1 = true ∧ is_excluded (info_at m p.1) = false) →
  ∃ m', foldM (exclude_within_limit clock) m (transition_of rounds <$> l) = Ret m' ∧
    asm_wf m' ∧ same_setting m m' ∧ total_excluded_stake m ≤ total_excluded_stake m' ∧
    (∀ j, j ∉ l.*1 → info_at m' j = info_at m j) ∧
    ∀ p, p ∈ l → info_at m' p.1 = mkAncestorInfo (Exclude p.2) (clock + STATE_LOCK_CLOCK_ROUNDS) ∨
      info_at m' p.1 = info_at m p.1 ∧
      excluded_nodes_stake_threshold m < total_excluded_stake m' + stake_of c p.1.
Proof.
  revert m. induction l as [|p l IH]; intros m Hwf Hctx Hclock Hnd Hl.
  { exists m. split; [done|]. split; [done|]. split; [done|]. split; [done|]. split; [done|].
    intros p Hp. by apply elem_of_nil in Hp. }
  cbn [fmap list_fmap] in Hnd. apply NoDup_cons in Hnd as [Hp Hnd]. destruct (Hl p) as [Hi He]; [left|].
  pose proof (aw_total m Hwf) as Htot. rewrite Hctx in Htot. pose proof (weight_bound c Hc (excluded m)) as Hb.
  pose proof (stake_of_le_total c Hc p.1) as Hs. pose proof (wf_total_bound c Hc) as Htb.
  assert (∃ m1, exclude_within_limit clock m (transition_of rounds p) = Ret m1 ∧ asm_wf m1 ∧ same_setting m m1 ∧
    total_excluded_stake m ≤ total_excluded_stake m1 ∧ (∀ j, j ≠ p.1 → info_at m1 j = info_at m j) ∧
    (info_at m1 p.1 = mkAncestorInfo (Exclude p.2) (clock + STATE_LOCK_CLOCK_ROUNDS) ∨
     info_at m1 p.1 = info_at m p.1 ∧ excluded_nodes_stake_threshold m < total_excluded_stake m1 + stake_of c p.1))
    as (m1 & Hrun1 & Hwf1 & Hs1 & Htot1 & Hother1 & Hp1).
  { unfold exclude_within_limit, transition_of. cbn [st_stake st_score]. rewrite u64_add_small by lia.
    destruct (N.leb_spec (total_excluded_stake m + stake_of c p.1) (excluded_nodes_stake_threshold m)) as [Hle|Hgt].
    - destruct (apply_state_change_spec m p.1 p.2 (high_of rounds p.1) (Exclude p.2) clock)
        as (m1 & Hrun1 & Hwf1 & Hs1 & Htot1 & Hi1); [done|done|done|done|by rewrite He|by right|].
      exists m1. split; [done|]. split; [done|]. split; [done|]. cbn in Htot1. split; [lia|]. split.
      + intros j Hj. by rewrite Hi1, decide_False.
      + left. by rewrite Hi1, decide_True.
    - exists m. split; [done|]. split; [done|]. split; [done|]. split; [done|]. split; [done|]. right. by split. }
  destruct (IH m1) as (m2 & Hrun2 & Hwf2 & Hs2 & Htot2 & Hother2 & Hl2); [done| |done|done| |].
  { by rewrite (proj1 Hs1). }
  { intros q Hq. destruct (Hl q) as [? Hq']; [by right|]. split; [done|]. rewrite Hother1; [done|].
    intros Heq. apply Hp. rewrite <- Heq. by apply list_elem_of_fmap_2. }
  exists m2. rewrite fmap_cons. cbn [foldM]. rewrite Hrun1. cbn [mbind outcome_bind].
  split; [done|]. split; [done|]. destruct Hs1 as (Hc1 & Ht1 & Hsc1), Hs2 as (Hc2 & Ht2 & Hsc2).
  split; [repeat split; congruence|]. split; [lia|]. split.
  - intros j Hj. cbn [fmap list_fmap] in Hj. rewrite elem_of_cons in Hj.
    rewrite Hother2, Hother1 by naive_solver. done.
  - intros q [->|Hq]%elem_of_cons.
    + rewrite (Hother2 p.1 Hp). destruct Hp1 as [?|[? ?]]; [by left|right]. split; [done|lia].
    + destruct (Hl2 q Hq) as [?|[Hsame Hlt]]; [by left|right]. rewrite Hsame, Ht1 in *. split; [|done].
      apply Hother1. intros Heq. apply Hp. rewrite <- Heq. by apply list_elem_of_fmap_2.
Qed.

(** The authorities of the loop. *)
Lemma enumerated_scores (scores : list N) i s :
  (i, s) ∈ imap (λ i score, (N.of_nat i, score)) scores ↔ scores !! N.to_nat i = Some s.
Proof.
  rewrite elem_of_lookup_imap. split.
  - intros (k & x & [= -> ->] & Hk). by rewrite Nat2N.id.
  - intros Hs. exists (N.to_nat i), s. by rewrite N2Nat.id.
Qed.

Lemma enumerated_NoDup (scores : list N) (P : N * N → Prop) `{∀ p, base.Decision (P p)} :
  NoDup (filter P (imap (λ i score, (N.of_nat i, score)) scores)).*1.
Proof.
  eapply sublist_NoDup; [|apply fmap_sublist, sublist_filter]. rewrite fmap_imap.
  change (imap _ scores) with (imap (λ (j : nat) (_ : N), N.of_nat j) scores). rewrite imap_seq_0.
  apply NoDup_fmap_2; [apply _|]. apply NoDup_seq.
Qed.

Lemma insert_sorted_fmap {A B} (f : A → B) leb x l :
  insert_sorted leb (f x) (f <$> l) = f <$> insert_sorted (λ a b, leb (f a) (f b)) x l.
Proof. induction l as [|y l IH]; csimpl; [done|]. destruct (leb (f x) (f y)); csimpl; [done|]. by rewrite IH. Qed.

Lemma isort_fmap {A B} (f : A → B) leb l : isort leb (f <$> l) = f <$> isort (λ a b, leb (f a) (f b)) l.
Proof. induction l as [|x l IH]; csimpl; [done|]. by rewrite IH, insert_sorted_fmap. Qed.

(** What one update does to an authority: [info] and [score] before, [info'] after. *)
Definition updated (limit total' stake net clock low high : N) (info : AncestorInfo) (score : option N)
    (info' : AncestorInfo) : Prop :=
  match score with
  | None => info' = info
  | Some s =>
      if is_locked info clock then info' = info
      else match ai_state info with
           | Exclude _ =>
               info' = if (low <? s) || (net <=? high)
                       then mkAncestorInfo Include (clock + STATE_LOCK_CLOCK_ROUNDS) else info
           | Include =>
               if s <=? low
               then info' = mkAncestorInfo (Exclude s) (clock + STATE_LOCK_CLOCK_ROUNDS) ∨
                    info' = info ∧ limit < total' + stake
               else info' = info
           end
  end.

Lemma update_all_spec m clock rounds :
  asm_wf m → committee (asm_context m) = c → length rounds = length (committee_authorities c) →
  (length (scores_per_authority (propagation_scores m)) ≤ length (committee_authorities c))%nat →
  clock + STATE_LOCK_CLOCK_ROUNDS < 2 ^ 32 →
  ∃ m', update_all_ancestors_state m clock rounds = Ret m' ∧ asm_wf m' ∧ same_setting m m' ∧
    ∀ i, is_valid_index c i = true →
      updated (excluded_nodes_stake_threshold m) (total_excluded_stake m') (stake_of c i)
        (calculate_network_high_quorum_round m rounds) clock (low_score m) (high_of rounds i)
        (info_at m i) (score_of m i) (info_at m' i).
Proof.
  intros Hwf Hctx Hlen Hscores Hclock. unfold update_all_ancestors_state. fold (low_score m).
  set (net := calculate_network_high_quorum_round m rounds). set (low := low_score m).
  set (l := imap _ _). assert (∀ i s, (i, s) ∈ l ↔ score_of m i = Some s) as Hl by (intros; apply enumerated_scores).
  assert (∀ p, p ∈ l → is_valid_index c p.1 = true) as Hv.
  { intros [i s] Hp%Hl%lookup_lt_Some. apply valid_index_lt. simpl. lia. }
  rewrite collect_transitions_spec by done. cbn [mbind outcome_bind]. rewrite !app_nil_l.
  set (rel := filter (λ p, releasable m rounds net clock low p = true) l).
  set (exc := filter (λ p, excludable m clock low p = true) l).
  destruct (release_spec rounds clock rel m) as (m1 & -> & Hwf1 & Hs1 & Hi1); [done..|apply enumerated_NoDup| |].
  { intros p [Hr Hp]%list_elem_of_filter. split; [by apply Hv|]. unfold releasable in Hr.
    by destruct (is_excluded (info_at m p.1)), (is_locked (info_at m p.1) clock). }
  cbn [mbind outcome_bind]. rewrite isort_fmap. set (exc' := isort _ exc).
  assert (∀ p, p ∈ exc' ↔ excludable m clock low p = true ∧ p ∈ l) as Hexc'
    by (intros p; unfold exc', exc; by rewrite elem_of_isort, list_elem_of_filter).
  assert (∀ p, p ∈ rel ↔ releasable m rounds net clock low p = true ∧ p ∈ l) as Hrel
    by (intros p; unfold rel; by rewrite list_elem_of_filter).
  assert (∀ i s, score_of m i = Some s → (i ∈ rel.*1 ↔ releasable m rounds net clock low (i, s) = true)) as Hreli.
  { intros i s Hs. rewrite list_elem_of_fmap. split.
    - intros ([i' s'] & -> & [Hr Hin]%Hrel). apply Hl in Hin. simpl in Hs. rewrite Hin in Hs. by injection Hs as ->.
    - intros Hr. exists (i, s). split; [done|]. apply Hrel. split; [done|]. by apply Hl. }
  destruct (exclude_spec rounds clock exc' m1) as (m2 & Hrun2 & Hwf2 & Hs2 & Htot2 & Hother2 & Hl2); [done| |done| | |].
  { by rewrite (proj1 Hs1). }
  { unfold exc'. rewrite isort_perm. apply enumerated_NoDup. }
  { intros [i s] [He Hin]%Hexc'. split; [by apply Hv|]. apply Hl in Hin. simpl. rewrite Hi1.
    unfold excludable in He. cbn [fst snd] in He. rewrite decide_False.
    - by destruct (is_excluded (info_at m i)), (is_locked (info_at m i) clock).
    - rewrite (Hreli i s Hin). unfold releasable. cbn [fst snd].
      by destruct (is_excluded (info_at m i)), (is_locked (info_at m i) clock). }
  exists m2. rewrite Hrun2. split; [done|]. split; [done|]. destruct Hs1 as (Hc1 & Ht1 & Hsc1), Hs2 as (Hc2 & Ht2 & Hsc2).
  split; [repeat split; congruence|]. intros i Hi.
  assert ((∀ s, score_of m i = Some s → excludable m clock low (i, s) = false) → info_at m2 i = info_at m1 i) as Hkeep.
  { intros Hno. apply Hother2. intros ([i' s'] & -> & [He Hin]%Hexc')%list_elem_of_fmap.
    apply Hl in Hin. simpl in *. rewrite (Hno s' Hin) in He. done. }
  unfold updated. destruct (score_of m i) as [s|] eqn:Hs.
  - assert (excludable m clock low (i, s) = false → info_at m2 i = info_at m1 i) as Hkeep'
      by (intros He; apply Hkeep; intros s' [= <-]; done).
    assert (info_at m1 i = if releasable m rounds net clock low (i, s) then
      mkAncestorInfo Include (clock + STATE_LOCK_CLOCK_ROUNDS) else info_at m i) as Hm1.
    { rewrite Hi1. destruct (releasable m rounds net clock low (i, s)) eqn:Hr.
      - by rewrite decide_True by (by apply (Hreli i s)).
      - rewrite decide_False; [done|]. rewrite (Hreli i s Hs), Hr. done. }
    assert (excludable m clock low (i, s) = true → (i, s) ∈ exc') as Hin
      by (intros He; apply Hexc'; split; [done|]; by apply Hl).
    specialize (Hl2 (i, s)). cbn [fst snd] in Hl2. rewrite Hm1, Ht1 in *. clear - Hkeep' Hin Hl2.
    unfold releasable, excludable, is_excluded in *. cbn [fst snd] in *.
    destruct (is_locked (info_at m i) clock); cbn [negb andb] in *; [by apply Hkeep'|].
    destruct (ai_state (info_at m i)); cbn [negb andb] in *; [|by apply Hkeep'].
    destruct (s <=? low); [by apply Hl2, Hin|by apply Hkeep'].
  - rewrite Hkeep by done. rewrite Hi1. rewrite decide_False; [done|].
    intros ([i' s'] & -> & [_ Hin]%Hrel)%list_elem_of_fmap. apply Hl in Hin. simpl in Hs. congruence.
Qed.
End Manager.

(** The states a manager goes through. *)
Inductive asm_reach (context : Context) : AncestorStateManager → Prop :=
| ar_new : asm_reach context (AncestorStateManager_new context)
| ar_scores m scores :
    asm_reach context m →
    (length (scores_per_authority scores) ≤ length (committee_authorities (committee context)))%nat →
    asm_reach context (set_propagation_scores m scores)
| ar_update m clock rounds m' :
    asm_reach context m → length rounds = length (committee_authorities (committee context)) →
    clock + STATE_LOCK_CLOCK_ROUNDS < 2 ^ 32 →
    update_all_ancestors_state m clock rounds = Ret m' → asm_reach context m'.

Lemma asm_wf_new context : asm_wf (AncestorStateManager_new context).
Proof.
  assert (excluded (AncestorStateManager_new context) = ∅) as He.
  { apply set_eq. intros i. unfold excluded, info_at. rewrite elem_of_filter. simpl.
    split; [|set_solver]. intros [Hx _]. destruct (replicate _ _ !! _) as [x|] eqn:Hr; [|done].
    by apply lookup_replicate in Hr as [-> _]. }
  split; simpl; [rewrite length_replicate; unfold Committee_size; lia| |apply N.le_0_l].
  rewrite He. unfold weight. by rewrite set_sum_empty.
Qed.

Lemma asm_reach_wf context m :
  committee_wf (committee context) → asm_reach context m →
  asm_wf m ∧ asm_context m = context ∧
  excluded_nodes_stake_threshold m = excluded_nodes_stake_threshold (AncestorStateManager_new context) ∧
  (length (scores_per_authority (propagation_scores m)) ≤ length (committee_authorities (committee context)))%nat.
Proof.
  intros Hc Hr. induction Hr as [|m scores Hr IH Hlen|m clock rounds m' Hr IH Hlen Hclock Hrun].
  - split; [apply asm_wf_new|]. split; [done|]. split; [done|]. simpl. lia.
  - destruct IH as ([? ? ?] & ? & ? & ?). split; [by split|done].
  - destruct IH as (Hwf & Hctx & Hlim & Hsc).
    destruct (update_all_spec (committee context) Hc m clock rounds Hwf) as (m1 & Hrun1 & Hwf1 & (Hc1 & Ht1 & Hs1) & _);
      [by rewrite Hctx|done|done|done|].
    rewrite Hrun1 in Hrun. injection Hrun as ->. split; [done|]. split; [congruence|]. split; [congruence|].
    by rewrite Hs1.
Qed.

(** C38. One update of the ancestor states, for every authority. It never panics. The network's
    high quorum round is the least round that a quorum of the authorities' high quorum rounds
    does not exceed. Locked authorities keep their state; an excluded one is released exactly
    when its score is above the limit or its blocks propagate as well as the network's; an
    included one with a low score is excluded, unless that would exceed the stake limit. *)
Theorem update_all_ancestors_exact context m clock rounds :
  let c := committee context in
  let net := calculate_network_high_quorum_round m rounds in
  committee_wf c → asm_reach context m → length rounds = length (committee_authorities c) →
  clock + STATE_LOCK_CLOCK_ROUNDS < 2 ^ 32 →
  ∃ m', update_all_ancestors_state m clock rounds = Ret m' ∧
    (∀ r, reached_quorum c (weight c (holders c (snd <$> rounds) (λ x, x ≤ r))) = true ↔ net ≤ r) ∧
    ∀ i, is_valid_index c i = true →
      updated (excluded_nodes_stake_threshold m) (total_excluded_stake m') (stake_of c i) net clock
        (low_score m) (high_of rounds i) (info_at m i) (score_of m i) (info_at m' i).
Proof.
  intros c net Hc Hr Hlen Hclock. destruct (asm_reach_wf context m Hc Hr) as (Hwf & Hctx & _ & Hsc).
  destruct (update_all_spec c Hc m clock rounds Hwf) as (m' & Hrun & _ & _ & Hup); [by rewrite Hctx|done|done|done|].
  exists m'. split; [done|]. split; [|done]. unfold net, calculate_network_high_quorum_round. rewrite Hctx. fold c.
  destruct (ascending_scan c Hc (snd <$> rounds)) as (v & -> & _ & Hq & Hmin); [by rewrite length_fmap|].
  simpl. intros r. split; [apply Hmin|]. intros Hle. eapply reached_quorum_mono; [|exact Hq].
  intros i. rewrite !elem_of_holders. intros [? ?]. split; [done|lia].
Qed.

(** C39. Whatever scores and quorum rounds a manager is given, the total it keeps is the stake
    of the excluded authorities and stays within two thirds of the percentage configured for
    bad nodes; for a percentage below fifty the included authorities hold a quorum, so that
    proposals cannot starve. *)
Theorem included_ancestors_hold_quorum context m :
  let c := committee context in
  let bad := consensus_bad_nodes_stake_threshold (protocol_config context) in
  committee_wf c → asm_reach context m → bad < 50 → committee_total_stake c < 2 ^ 58 →
  total_excluded_stake m = weight c (excluded m) ∧
  300 * total_excluded_stake m ≤ 2 * bad * committee_total_stake c ∧
  reached_quorum c (weight c (members c ∖ excluded m)) = true.
Proof.
  intros c bad Hc Hr Hbad Hbound. destruct (asm_reach_wf context m Hc Hr) as (Hwf & Hctx & Hlim & _).
  pose proof (aw_total m Hwf) as Htot. rewrite Hctx in Htot. fold c in Htot.
  pose proof (aw_limit m Hwf) as Hle. rewrite Hlim in Hle. simpl in Hle. fold c bad in Hle.
  rewrite (u64_mul_small 2 bad) in Hle by lia.
  pose proof (N.Div0.mul_div_le (2 * bad) 3) as Hp. set (p := 2 * bad / 3) in *.
  set (T := committee_total_stake c) in *. assert (p ≤ 32) as Hp32 by lia.
  assert (p * T ≤ 32 * T) as HpT by (by apply N.mul_le_mono_r).
  rewrite u64_mul_small in Hle by lia. pose proof (N.Div0.mul_div_le (p * T) 100) as Hdiv.
  assert (3 * p * T ≤ 2 * bad * T) as Hbp by (by apply N.mul_le_mono_r).
  rewrite <- N.mul_assoc in Hbp. split; [done|]. split; [lia|].
  unfold reached_quorum. apply bool_decide_eq_true. rewrite (wf_quorum c Hc). fold T.
  assert (excluded m ⊆ members c) as Hsub.
  { intros i. unfold excluded. rewrite elem_of_filter, Hctx. by intros [_ ?]. }
  assert (weight c (excluded m) + weight c (members c ∖ excluded m) = T) as Hsum.
  { unfold T. rewrite (wf_total c Hc), <- weight_members. unfold weight.
    rewrite <- set_sum_union by set_solver. f_equal. symmetry. by apply union_difference_L. }
  pose proof (wf_total_pos c Hc) as Hpos. fold T in Hpos. rewrite <- Htot in Hsum.
  assert (2 * T / 3 < T - total_excluded_stake m) as Hlt; [|lia].
  apply N.Div0.div_lt_upper_bound. lia.
Qed.

Definition ten_peers : Committee := mkCommittee 0 100 67 34 (replicate 10 (mkAuthority 10 "host" [])).
Definition ten_context : Context :=
  mkContext 0 0 ten_peers Parameters_default (mkProtocolConfig false false (Some 1) 60 20 1000 10 10000).

Lemma ten_peers_wf : committee_wf ten_peers.
Proof. split; vm_compute; reflexivity. Qed.

(** Two authorities with low scores; the limit of thirteen allows one of them, the worse. *)
Lemma update_all_ancestors_exact_witness :
  let m := set_propagation_scores (AncestorStateManager_new ten_context)
    (mkReputationScores [100; 10; 90; 80; 100; 100; 5; 100; 100; 100] CommitRange_default) in
  let rounds := replicate 10 (9, 9) in
  ∃ m', update_all_ancestors_state m 20 rounds = Ret m' ∧
    info_at m' 6 = mkAncestorInfo (Exclude 5) 470 ∧ info_at m' 1 = AncestorInfo_new.
Proof.
  intros m rounds. destruct (update_all_ancestors_exact ten_context m 20 rounds) as (m' & Hm & _).
  - exact ten_peers_wf.
  - apply ar_scores; [apply ar_new|]. vm_compute. lia.
  - reflexivity.
  - vm_compute. reflexivity.
  - exists m'. split; [exact Hm|]. vm_compute in Hm. injection Hm as <-. split; vm_compute; reflexivity.
Defined.

Lemma included_ancestors_hold_quorum_witness :
  let m0 := set_propagation_scores (AncestorStateManager_new ten_context)
    (mkReputationScores [100; 10; 90; 80; 100; 100; 5; 100; 100; 100] CommitRange_default) in
  let m := ret_or m0 (update_all_ancestors_state m0 20 (replicate 10 (9, 9))) in
  total_excluded_stake m = 10 ∧
  reached_quorum ten_peers (weight ten_peers (members ten_peers ∖ excluded m)) = true.
Proof.
  intros m0 m. destruct (included_ancestors_hold_quorum ten_context m) as (_ & _ & Hq).
  - exact ten_peers_wf.
  - apply (ar_update _ m0 20 (replicate 10 (9, 9))); [apply ar_scores; [apply ar_new|vm_compute; lia]| | |];
      vm_compute; reflexivity.
  - reflexivity.
  - reflexivity.
  - split; [vm_compute; reflexivity|exact Hq].
Defined.
