(* ===== verification/TransactionCertifier.v ===== *)
(** Fastpath certification of transactions (consensus/core/src/transaction_certifier.rs):
    reject votes on transactions and implicit accept votes on blocks are aggregated, and a
    block is output once each of its transactions is certified or rejected.

    The channel to the block handler is the list of the outputs sent so far. *)

From stdpp Require Import base tactics numbers list gmap sorting strings relations.
From coqutil Require Import Datatypes.RecordSettersUsingExistingGetters.
From S2P Require Import Prelude.
From S2P Require Import Committee.
From S2P Require Import Block.
From S2P Require Import StakeAggregator.
From S2P Require Import Commit.
From S2P Require Import Store.
From S2P Require Import DagState.
From S2P Require Import DagInvariant.
From S2P Require Import BaseCommitter.
From S2P Require Import CommitSafety.
From S2P Require Import BlockVerifier.

Open Scope N_scope.

(** * Data *)

Record VoteInfo := mkVoteInfo {
  vi_block : option VerifiedBlock;
  own_reject_txn_votes : list N;
  accept_block_votes : StakeAggregator;
  reject_txn_votes : gmap N StakeAggregator;
  is_certified : bool;
}.

Definition VoteInfo_default : VoteInfo := mkVoteInfo None [] StakeAggregator_new ∅ false.

(** A block with the transactions of it that are rejected. *)
Record CertifiedBlock := mkCertifiedBlock {
  cb_block : VerifiedBlock;
  cb_rejected : list N;
}.

Record CertifierState := mkCertifierState {
  cs_context : Context;
  cs_votes : gmap BlockRef VoteInfo;
  cs_gc_round : N;
}.

Definition CertifierState_new (context : Context) : CertifierState :=
  mkCertifierState context ∅ GENESIS_ROUND.

(** * Certification of one block *)

(** The loop over the transactions with reject votes: [None] is the early return when a
    transaction is neither rejected nor certified. *)
Fixpoint rejected_by_quorum (c : Committee) (accept_stake : N) (votes : list (N * StakeAggregator))
    : option (list N) :=
  match votes with
  | [] => Some []
  | (idx, agg) :: votes =>
      if reached_threshold QuorumThreshold agg c
      then rest ← rejected_by_quorum c accept_stake votes; Some (idx :: rest)
      else if saturating_sub accept_stake (agg_stake agg) <? committee_quorum_threshold c then None
      else rejected_by_quorum c accept_stake votes
  end.

Definition take_certified_output (context : Context) (vote_info : VoteInfo)
    : outcome (VoteInfo * option CertifiedBlock) :=
  let c := committee context in
  if is_certified vote_info then Ret (vote_info, None)
  else
    match vi_block vote_info with
    | None => Ret (vote_info, None)
    | Some block =>
        _ ← Committee_authority c (vb_author block);
        if negb (reached_threshold QuorumThreshold (accept_block_votes vote_info) c)
        then Ret (vote_info, None)
        else
          match rejected_by_quorum c (agg_stake (accept_block_votes vote_info))
                  (map_iter N.leb (reject_txn_votes vote_info)) with
          | None => Ret (vote_info, None)
          | Some rejected =>
              Ret (vote_info <| is_certified := true |>, Some (mkCertifiedBlock block rejected))
          end
    end.

(** * Voting *)

(** One reject vote of [author] on a transaction. *)
Definition add_reject (c : Committee) (author : N) (votes : gmap N StakeAggregator) (idx : N)
    : outcome (gmap N StakeAggregator) :=
  '(agg, _) ← agg_add_unique (default StakeAggregator_new (votes !! idx)) author c;
  Ret (<[idx := agg]> votes).

(** The votes of a block on the transactions of one other block. *)
Definition add_block_votes (voted_block : VerifiedBlock) (acc : CertifierState * list CertifiedBlock)
    (block_votes : BlockTransactionVotes) : outcome (CertifierState * list CertifiedBlock) :=
  let '(cs, certified_blocks) := acc in
  let r := btv_block_ref block_votes in
  if br_round r <=? cs_gc_round cs then Ret acc
  else
    let vote_info := default VoteInfo_default (cs_votes cs !! r) in
    rejects ← foldM (add_reject (committee (cs_context cs)) (vb_author voted_block))
                (reject_txn_votes vote_info) (btv_rejects block_votes);
    '(vote_info, output) ←
      take_certified_output (cs_context cs) (vote_info <| reject_txn_votes := rejects |>);
    Ret (cs <| cs_votes := <[r := vote_info]> (cs_votes cs) |>, certified_blocks ++ option_list output).

Definition add_voted_block (cs : CertifierState) (voted_block : VerifiedBlock) (own_votes : list N)
    : outcome (CertifierState * list CertifiedBlock) :=
  if vb_round voted_block <=? cs_gc_round cs then Ret (cs, [])
  else
    _ ← Committee_authority (committee (cs_context cs)) (vb_author voted_block);
    let vote_info := default VoteInfo_default (cs_votes cs !! reference voted_block) in
    match vi_block vote_info with
    | Some _ => Ret (cs, [])
    | None =>
        let vote_info := vote_info <| vi_block := Some voted_block |> <| own_reject_txn_votes := own_votes |> in
        let cs := cs <| cs_votes := <[reference voted_block := vote_info]> (cs_votes cs) |> in
        foldM (add_block_votes voted_block) (cs, []) (vb_transaction_votes voted_block)
    end.

Definition add_voted_blocks (cs : CertifierState) (voted_blocks : list (VerifiedBlock * list N))
    : outcome (CertifierState * list CertifiedBlock) :=
  foldM (λ '(cs, certified_blocks) '(b, own_votes),
           '(cs, blocks) ← add_voted_block cs b own_votes; Ret (cs, certified_blocks ++ blocks))
    (cs, []) voted_blocks.

(** The implicit accept vote of a parent of a proposed block on one of its own parents. *)
Definition add_accept_vote (voting_block : VerifiedBlock) (acc : CertifierState * list CertifiedBlock)
    (target_ancestor : BlockRef) : outcome (CertifierState * list CertifiedBlock) :=
  let '(cs, certified_blocks) := acc in
  if negb (u32_add (br_round target_ancestor) 1 =? vb_round voting_block) then Ret acc
  else
    match cs_votes cs !! target_ancestor with
    | None => Ret acc
    | Some vote_info =>
        '(agg, _) ← agg_add_unique (accept_block_votes vote_info) (vb_author voting_block)
                      (committee (cs_context cs));
        '(vote_info, output) ←
          take_certified_output (cs_context cs) (vote_info <| accept_block_votes := agg |>);
        Ret (cs <| cs_votes := <[target_ancestor := vote_info]> (cs_votes cs) |>,
             certified_blocks ++ option_list output)
    end.

(** A parent that the certifier does not know is skipped: [debug_fatal!] only logs in a release
    build. *)
Definition add_voting_ancestor (proposed_block : VerifiedBlock)
    (acc : CertifierState * list CertifiedBlock) (voting_ancestor : BlockRef)
    : outcome (CertifierState * list CertifiedBlock) :=
  if negb (u32_add (br_round voting_ancestor) 1 =? vb_round proposed_block) then Ret acc
  else
    match cs_votes acc.1 !! voting_ancestor ≫= vi_block with
    | None => Ret acc
    | Some voting_block => foldM (add_accept_vote voting_block) acc (vb_ancestors voting_block)
    end.

Definition add_proposed_block (cs : CertifierState) (proposed_block : VerifiedBlock)
    : outcome (CertifierState * list CertifiedBlock) :=
  if vb_round proposed_block <=? u32_add (cs_gc_round cs) 2 then Ret (cs, [])
  else
    _ ← assert_that (bool_decide (is_Some (cs_votes cs !! reference proposed_block)));
    foldM (add_voting_ancestor proposed_block) (cs, []) (vb_ancestors proposed_block).

(** The loop pops the first entries of the map while they are within the round. *)
Definition update_gc_round (cs : CertifierState) (gc_round : N) : CertifierState :=
  let popped := take_while (λ e, br_round e.1 <=? gc_round) (map_iter BlockRef_leb (cs_votes cs)) in
  cs <| cs_votes := foldl (λ votes e, delete e.1 votes) (cs_votes cs) popped |>
     <| cs_gc_round := gc_round |>.

(** * The certifier *)

Record TransactionCertifier := mkTransactionCertifier {
  certifier_state : CertifierState;
  certified_blocks_sent : list (list CertifiedBlock);
}.

Definition TransactionCertifier_new (context : Context) : TransactionCertifier :=
  mkTransactionCertifier (CertifierState_new context) [].

Definition send_certified_blocks (t : TransactionCertifier) (certified_blocks : list CertifiedBlock)
    : TransactionCertifier :=
  match certified_blocks with
  | [] => t
  | _ => t <| certified_blocks_sent := certified_blocks_sent t ++ [certified_blocks] |>
  end.

Definition certifier_add_voted_blocks (t : TransactionCertifier)
    (voted_blocks : list (VerifiedBlock * list N)) : outcome TransactionCertifier :=
  '(cs, certified_blocks) ← add_voted_blocks (certifier_state t) voted_blocks;
  Ret (send_certified_blocks (t <| certifier_state := cs |>) certified_blocks).

Definition certifier_add_proposed_block (t : TransactionCertifier) (proposed_block : VerifiedBlock)
    : outcome TransactionCertifier :=
  '(cs, certified_blocks) ← add_proposed_block (certifier_state t) proposed_block;
  Ret (send_certified_blocks (t <| certifier_state := cs |>) certified_blocks).

Definition get_own_votes (t : TransactionCertifier) (block_refs : list BlockRef)
    : outcome (list BlockTransactionVotes) :=
  foldM (λ votes r,
           if br_round r <=? cs_gc_round (certifier_state t) then Ret votes
           else
             vote_info ← expect (cs_votes (certifier_state t) !! r);
             match own_reject_txn_votes vote_info with
             | [] => Ret votes
             | rejects => Ret (votes ++ [mkBlockTransactionVotes r rejects])
             end) [] block_refs.

Definition get_reject_votes (t : TransactionCertifier) (block_ref : BlockRef) : option (list (N * N)) :=
  vote_info ← cs_votes (certifier_state t) !! block_ref;
  Some ((λ e, (e.1, agg_stake e.2)) <$> map_iter N.leb (reject_txn_votes vote_info)).

Section WithDag.
Context {S : Type} `{Store S} `{Crypto} `{TransactionVerifier}.
Implicit Types d : DagState S.

Definition run_gc (t : TransactionCertifier) d (gc_round : N) : outcome TransactionCertifier :=
  _ ← assert_that (gc_round <=? dag_gc_round d);
  Ret (t <| certifier_state := update_gc_round (certifier_state t) gc_round |>).

(** Own votes are cast again on the blocks that no own block includes yet. *)
Definition recover_own_votes d (b : VerifiedBlock) : outcome (VerifiedBlock * list N) :=
  needless ← (if vb_round b <=? dag_gc_round d then Ret true else is_hard_linked d (reference b));
  if needless : bool then Ret (b, [])
  else match vote b with Ok votes => Ret (b, votes) | Err _ => Panic end.

Definition recover_votes_of d (start_round : N) (t : TransactionCertifier) (authority : N)
    : outcome TransactionCertifier :=
  blocks ← store_scan_blocks_by_author (ds_store d) authority start_round;
  _ ← Committee_authority (committee (cs_context (certifier_state t))) authority;
  voted_blocks ← mapM (recover_own_votes d) blocks;
  certifier_add_voted_blocks t voted_blocks.

Definition certifier_recover (t : TransactionCertifier) d (last_processed_commit_index : N)
    : outcome TransactionCertifier :=
  let context := cs_context (certifier_state t) in
  if negb (mysticeti_fastpath (protocol_config context)) then Ret t
  else
    commits ← store_scan_commits (ds_store d)
                (CommitRange_new last_processed_commit_index last_processed_commit_index);
    let certifier_gc_round :=
      match last commits with
      | Some commit => calculate_gc_round d (tc_round commit)
      | None => GENESIS_ROUND
      end in
    _ ← assert_that (certifier_gc_round <=? dag_gc_round d);
    let t := t <| certifier_state := update_gc_round (certifier_state t) certifier_gc_round |> in
    foldM (recover_votes_of d (u32_add certifier_gc_round 1)) t
      (fst <$> Committee_enumerate (committee context)).
End WithDag.

(** * Specification vocabulary *)

Definition rejects (b : VerifiedBlock) (r : BlockRef) (i : N) : Prop :=
  ∃ v, v ∈ vb_transaction_votes b ∧ btv_block_ref v = r ∧ i ∈ btv_rejects v.

#[export] Instance rejects_dec b r i : base.Decision (rejects b r i).
Proof.
  refine (cast_if (decide (Exists (λ v, btv_block_ref v = r ∧ i ∈ btv_rejects v) (vb_transaction_votes b))));
    unfold rejects; rewrite Exists_exists in *; naive_solver.
Defined.

(** The authors of the blocks that reject a transaction. *)
Definition rejecters (blocks : list VerifiedBlock) (r : BlockRef) (i : N) : gset N :=
  list_to_set (vb_author <$> filter (λ b, rejects b r i) blocks).

(** [b] is one round above [r] and links to it. *)
Definition votes_on (b : VerifiedBlock) (r : BlockRef) : Prop :=
  u32_add (br_round r) 1 = vb_round b ∧ r ∈ vb_ancestors b.

#[export] Instance votes_on_dec b r : base.Decision (votes_on b r).
Proof. unfold votes_on. apply _. Defined.

(** The histories of a certifier: the blocks it has processed, in order, its state, and the
    blocks it has output. References identify blocks. *)
Inductive cert_run (context : Context) : list VerifiedBlock → CertifierState → list CertifiedBlock → Prop :=
| run_new : cert_run context [] (CertifierState_new context) []
| run_voted added cs outs b own cs' outs' :
    cert_run context added cs outs → is_valid_index (committee context) (vb_author b) = true →
    cs_gc_round cs < vb_round b → (∀ b', b' ∈ added → reference b' = reference b → b' = b) →
    add_voted_block cs b own = Ret (cs', outs') →
    cert_run context (added ++ [b]) cs' (outs ++ outs')
| run_proposed added cs outs b cs' outs' :
    cert_run context added cs outs → add_proposed_block cs b = Ret (cs', outs') →
    cert_run context added cs' (outs ++ outs')
| run_update_gc added cs outs g :
    cert_run context added cs outs → cs_gc_round cs ≤ g →
    cert_run context added (update_gc_round cs g) outs.

(** The reject votes of one transaction: an aggregator exists exactly when there are any. *)
Definition txn_repr (c : Committee) (X : gset N) (o : option StakeAggregator) : Prop :=
  match o with
  | Some agg => agg_repr c X agg ∧ X ≠ ∅
  | None => X = ∅
  end.

Lemma StronglySorted_fmap {A B} (f : A → B) (R : B → B → Prop) l :
  StronglySorted (λ x y, R (f x) (f y)) l → StronglySorted R (f <$> l).
Proof.
  induction 1 as [|x l _ IH Hx]; csimpl; constructor; [done|]. rewrite Forall_fmap. exact Hx.
Qed.

Lemma sorted_nodup_lt (l : list N) : StronglySorted N.leb l → NoDup l → StronglySorted N.lt l.
Proof.
  induction 1 as [|x l _ IH Hx]; intros Hnd; constructor; inversion Hnd; subst; [auto|].
  rewrite Forall_forall in *. intros y Hy. specialize (Hx y Hy). apply Is_true_true in Hx.
  assert (x ≠ y) by set_solver. lia.
Qed.

Section Invariant.
Context (context : Context).
Let c := committee context.
Context (Hc : committee_wf c).

(** An entry for the block [r], given the rejecters [R] of its transactions, the blocks
    added and those of them whose reject votes are counted already. *)
Record info_ok (R : N → gset N) (counted added : list VerifiedBlock) (r : BlockRef) (vi : VoteInfo) : Prop := {
  io_rejects : ∀ i, txn_repr c (R i) (reject_txn_votes vi !! i);
  io_block : ∀ b, vi_block vi = Some b → reference b = r ∧ b ∈ added ∧ is_valid_index c (vb_author b) = true;
  io_accepts : ∃ A, agg_repr c A (accept_block_votes vi) ∧
    ∀ a, a ∈ A → ∃ b, b ∈ counted ∧ vb_author b = a ∧ votes_on b r;
}.

(** An output block: a quorum rejects each rejected transaction; for every other one, a
    quorum votes on the block without rejecting it. *)
Record output_ok (R : BlockRef → N → gset N) (added : list VerifiedBlock) (cb : CertifiedBlock) : Prop := {
  oo_rejected : ∀ i, i ∈ cb_rejected cb → reached_quorum c (weight c (R (reference (cb_block cb)) i)) = true;
  oo_accepted : ∀ i, i ∉ cb_rejected cb → ∃ X, reached_quorum c (weight c X) = true ∧
    ∀ a, a ∈ X → ∃ b, b ∈ added ∧ vb_author b = a ∧ votes_on b (reference (cb_block cb)) ∧
      ¬ rejects b (reference (cb_block cb)) i;
  oo_sorted : StronglySorted N.lt (cb_rejected cb);
  oo_block : cb_block cb ∈ added;
}.

Record cert_inv (R : BlockRef → N → gset N) (counted added : list VerifiedBlock) (cs : CertifierState)
    (outs : list CertifiedBlock) : Prop := {
  ci_context : cs_context cs = context;
  ci_counted : ∀ r i, rejecters counted r i ⊆ R r i;
  ci_added : ∀ b, b ∈ counted → b ∈ added;
  ci_some : ∀ r vi, cs_votes cs !! r = Some vi → cs_gc_round cs < br_round r ∧ info_ok (R r) counted added r vi;
  ci_none : ∀ r i, cs_votes cs !! r = None → cs_gc_round cs < br_round r → R r i = ∅;
  ci_present : ∀ b, b ∈ added → cs_gc_round cs < vb_round b → cs_votes cs !! reference b ≫= vi_block = Some b;
  ci_outs : ∀ cb, cb ∈ outs → output_ok R added cb;
  ci_once : NoDup (reference ∘ cb_block <$> outs);
  ci_certified : ∀ r, cs_gc_round cs < br_round r →
    r ∈ (reference ∘ cb_block <$> outs) ↔ is_certified (default VoteInfo_default (cs_votes cs !! r)) = true;
}.

Lemma rejecters_mono added added' r i :
  (∀ b, b ∈ added → b ∈ added') → rejecters added r i ⊆ rejecters added' r i.
Proof.
  intros Hsub a. unfold rejecters. rewrite !elem_of_list_to_set, !list_elem_of_fmap.
  intros (b & -> & [Hr Hb]%list_elem_of_filter). exists b. split; [done|]. apply list_elem_of_filter. auto.
Qed.

Lemma elem_of_rejecters added r i a :
  a ∈ rejecters added r i ↔ ∃ b, b ∈ added ∧ vb_author b = a ∧ rejects b r i.
Proof.
  unfold rejecters. rewrite elem_of_list_to_set, list_elem_of_fmap. setoid_rewrite list_elem_of_filter.
  naive_solver.
Qed.

Lemma output_ok_mono R R' added added' cb :
  (∀ r i, R r i ⊆ R' r i) → (∀ b, b ∈ added → b ∈ added') → output_ok R added cb → output_ok R' added' cb.
Proof.
  intros HR Hadd [Hrej Hacc Hsort Hb]. split; [|naive_solver|done|auto].
  intros i Hi. apply Hrej in Hi. by eapply (is_threshold_mono c QuorumThreshold); [apply HR|].
Qed.

Lemma add_reject_repr X author votes idx :
  is_valid_index c author = true → (∀ i, txn_repr c (X i) (votes !! i)) →
  ∃ votes', add_reject c author votes idx = Ret votes' ∧
    ∀ i, txn_repr c (if decide (i = idx) then {[author]} ∪ X i else X i) (votes' !! i).
Proof.
  intros Ha Hv. unfold add_reject, agg_add_unique.
  assert (agg_repr c (X idx) (default StakeAggregator_new (votes !! idx))) as Hr.
  { specialize (Hv idx). unfold txn_repr in Hv. destruct (votes !! idx) as [agg|]; simpl; [by destruct Hv|].
    rewrite Hv. apply agg_repr_new. }
  destruct (agg_insert_repr c Hc _ _ author Hr Ha) as (agg & -> & Hagg). simpl.
  eexists. split; [done|]. intros i. case_decide as Hi; [subst|by rewrite lookup_insert_ne by done].
  rewrite lookup_insert. case_decide; [|done]. split; [done|set_solver].
Qed.

Lemma add_rejects_repr X author votes idxs :
  is_valid_index c author = true → (∀ i, txn_repr c (X i) (votes !! i)) →
  ∃ votes', foldM (add_reject c author) votes idxs = Ret votes' ∧
    ∀ i, txn_repr c (if decide (i ∈ idxs) then {[author]} ∪ X i else X i) (votes' !! i).
Proof.
  intros Ha. revert X votes. induction idxs as [|idx idxs IH]; intros X votes Hv.
  { exists votes. split; [done|]. intros i. rewrite decide_False by apply not_elem_of_nil. apply Hv. }
  destruct (add_reject_repr X author votes idx Ha Hv) as (v1 & H1 & Hv1).
  destruct (IH _ v1 Hv1) as (v2 & H2 & Hv2). exists v2. simpl. rewrite H1. split; [done|].
  intros i. specialize (Hv2 i). destruct (decide (i ∈ idxs)), (decide (i = idx)), (decide (i ∈ idx :: idxs)); try set_solver.
  replace ({[author]} ∪ X i) with ({[author]} ∪ ({[author]} ∪ X i)) by set_solver. done.
Qed.

Lemma rejected_by_quorum_spec (R : N → gset N) (accept_stake : N) votes out :
  (∀ i agg, (i, agg) ∈ votes → agg_repr c (R i) agg) → StronglySorted N.lt votes.*1 →
  rejected_by_quorum c accept_stake votes = Some out →
  StronglySorted N.lt out ∧
  (∀ i, i ∈ out → i ∈ votes.*1 ∧ reached_quorum c (weight c (R i)) = true) ∧
  (∀ i, i ∈ votes.*1 → i ∉ out → committee_quorum_threshold c + weight c (R i) ≤ accept_stake).
Proof.
  revert out. induction votes as [|[i agg] votes IH]; intros out Hv Hs Hrun.
  { injection Hrun as <-. split; [constructor|]. split; intros i; simpl; by rewrite elem_of_nil. }
  cbn [fmap list_fmap fst] in Hs. inversion Hs as [|? ? Hs' Hlt]; subst. cbn [rejected_by_quorum] in Hrun.
  assert (∀ i agg, (i, agg) ∈ votes → agg_repr c (R i) agg) as Hv' by (intros; apply Hv; by right).
  destruct (Hv i agg) as [_ Hst _]; [left|].
  unfold reached_threshold, is_threshold in Hrun. rewrite Hst in Hrun.
  destruct (reached_quorum c (weight c (R i))) eqn:Hq.
  - apply bind_Some in Hrun as (rest & Hrest & [= <-]). destruct (IH rest Hv' Hs' Hrest) as (Hss & Hin & Hout).
    split; [constructor; [done|]; apply Forall_forall; intros j Hj; rewrite Forall_forall in Hlt; by apply Hlt, Hin|].
    split; intros j; cbn [fmap list_fmap fst]; rewrite !elem_of_cons; [|set_solver].
    intros [->|Hj]; [by split; [left|]|]. destruct (Hin j Hj). by split; [right|].
  - destruct (_ <? _) eqn:Hlow in Hrun; [done|]. destruct (IH out Hv' Hs' Hrun) as (Hss & Hin & Hout).
    split; [done|]. split; intros j; cbn [fmap list_fmap fst]; rewrite !elem_of_cons.
    + intros Hj. destruct (Hin j Hj). by split; [right|].
    + intros [->|Hj]; [|auto]. intros _. unfold saturating_sub, reached_quorum in *.
      apply bool_decide_eq_false in Hq. lia.
Qed.

Lemma reject_votes_sorted (m : gmap N StakeAggregator) : StronglySorted N.lt (map_iter N.leb m).*1.
Proof.
  apply sorted_nodup_lt; [|apply NoDup_map_iter]. unfold map_iter. apply StronglySorted_fmap.
  apply isort_sorted; intros; lia.
Qed.

(** The output of a block: the entry stays as it was except for the mark, which is set exactly
    when there is an output. *)
Lemma take_certified_output_spec R counted added r vi :
  info_ok (R r) counted added r vi → (∀ i, rejecters counted r i ⊆ R r i) → (∀ b, b ∈ counted → b ∈ added) →
  ∃ vi' out, take_certified_output context vi = Ret (vi', out) ∧ info_ok (R r) counted added r vi' ∧
    vi_block vi' = vi_block vi ∧ (is_certified vi' = bool_decide (is_certified vi = true ∨ is_Some out)) ∧
    (∀ cb, out = Some cb → is_certified vi = false ∧ reference (cb_block cb) = r ∧ output_ok R added cb).
Proof.
  intros Hok Hrej Hsub. pose proof Hok as [HR Hb (A & HA & HAv)]. unfold take_certified_output. fold c.
  assert (∃ vi' out, Ret (vi, None) = Ret (vi', out) ∧ info_ok (R r) counted added r vi' ∧
    vi_block vi' = vi_block vi ∧ (is_certified vi' = bool_decide (is_certified vi = true ∨ is_Some out)) ∧
    (∀ cb, out = Some cb → is_certified vi = false ∧ reference (cb_block cb) = r ∧ output_ok R added cb)) as Hnone.
  { exists vi, (None : option CertifiedBlock). do 3 (split; [done|]). split; [|done].
    destruct (is_certified vi); [by rewrite bool_decide_eq_true_2 by tauto|].
    rewrite bool_decide_eq_false_2; [done|]. by intros [?|[? ?]]. }
  destruct (is_certified vi) eqn:Hcert; [exact Hnone|].
  destruct (vi_block vi) as [b|] eqn:Hblock; [|exact Hnone].
  destruct (Hb b eq_refl) as (Hbr & Hbin & Hbv). destruct (valid_authority c _ Hbv) as [auth ->]. cbn [mbind outcome_bind].
  unfold reached_threshold at 1. cbn [is_threshold]. rewrite (agg_repr_stake _ _ _ HA).
  destruct (reached_quorum c (weight c A)) eqn:HqA; cbn [negb]; [|exact Hnone].
  destruct (rejected_by_quorum _ _ _) as [out|] eqn:Hout; [|exact Hnone].
  apply (rejected_by_quorum_spec (R r)) in Hout as (Hss & Hin & Hnin); [| |apply reject_votes_sorted].
  2:{ intros i agg Hi%elem_of_map_iter. specialize (HR i). rewrite Hi in HR. by destruct HR. }
  eexists _, _. split; [done|]. split; [by destruct Hok; split|]. split; [exact Hblock|].
  split; [rewrite bool_decide_eq_true_2 by eauto; done|]. intros cb [= <-]. cbn [cb_block]. split; [done|]. split; [done|].
  split; cbn [cb_block cb_rejected]; rewrite ?Hbr; [by intros i [_ ?]%Hin| |done|done].
  intros i Hi. exists (A ∖ R r i). split.
  - unfold reached_quorum in *. apply bool_decide_eq_true in HqA. apply bool_decide_eq_true.
    assert (committee_quorum_threshold c + weight c (R r i) ≤ weight c A) as Hle.
    { specialize (HR i). destruct (reject_txn_votes vi !! i) as [agg|] eqn:Hagg.
      - apply Hnin; [|done]. apply list_elem_of_fmap. exists (i, agg). split; [done|]. by apply elem_of_map_iter.
      - simpl in HR. rewrite HR. unfold weight at 1. rewrite set_sum_empty. lia. }
    assert (weight c A ≤ weight c (A ∖ R r i) + weight c (R r i)) as Hu.
    { unfold weight. rewrite <- set_sum_union by set_solver. apply set_sum_subseteq. intros x Hx.
      destruct (decide (x ∈ R r i)); set_solver. }
    lia.
  - intros a [Ha HaR]%elem_of_difference. destruct (HAv a Ha) as (v & Hv & Hva & Hon).
    exists v. split; [auto|]. do 2 (split; [done|]). intros Hrv. apply HaR, Hrej, elem_of_rejecters. eauto.
Qed.

(** Writing back an entry after its certification was tried. [R'] extends [R] at [r]. *)
Lemma update_entry R R' counted added cs outs r vi :
  cert_inv R counted added cs outs → cs_gc_round cs < br_round r →
  (∀ r' i, r' ≠ r → R' r' i = R r' i) → (∀ i, R r i ⊆ R' r i) →
  is_certified vi = is_certified (default VoteInfo_default (cs_votes cs !! r)) →
  vi_block vi = vi_block (default VoteInfo_default (cs_votes cs !! r)) →
  info_ok (R' r) counted added r vi →
  ∃ vi' out, take_certified_output (cs_context cs) vi = Ret (vi', out) ∧
    cert_inv R' counted added (cs <| cs_votes := <[r := vi']> (cs_votes cs) |>) (outs ++ option_list out).
Proof.
  intros [Hctx Hcnt Hadd Hsome Hnone Hpres Houts Honce Hcert] Hr Hne Hext Hsame Hblk Hok. rewrite Hctx.
  assert (∀ r' i, R r' i ⊆ R' r' i) as HRR.
  { intros r' i. destruct (decide (r' = r)) as [->|Hd]; [done|]. by rewrite Hne. }
  assert (∀ r' i, rejecters counted r' i ⊆ R' r' i) as Hcnt' by (intros r' i x Hx; by apply HRR, Hcnt).
  destruct (take_certified_output_spec R' counted added r vi Hok) as (vi' & out & Hrun & Hok' & Hblk' & Hmark & Hout); [auto|auto|].
  exists vi', out. split; [done|]. split; simpl; [done|done|done| | | | | |].
  - intros r' vi1. rewrite lookup_insert. destruct (decide (r = r')) as [<-|Hd]; [by intros [= <-]|].
    intros Hv. destruct (Hsome r' vi1 Hv) as [Hg [H1 H2 H3]]. split; [done|]. split; [|done|done].
    intros i. rewrite Hne by done. apply H1.
  - intros r' i. rewrite lookup_insert. destruct (decide (r = r')) as [<-|Hd]; [done|]. rewrite Hne by done. apply Hnone.
  - intros b Hb Hg. rewrite lookup_insert. destruct (decide (r = reference b)) as [->|Hd]; [|by apply Hpres].
    simpl. rewrite Hblk', Hblk. apply (Hpres b Hb) in Hg. by destruct (cs_votes cs !! reference b).
  - intros cb [Hcb|Hcb]%elem_of_app; [by apply (output_ok_mono R R' added added); [| |apply Houts]|].
    destruct out as [cb'|]; [apply list_elem_of_singleton in Hcb as ->; by apply Hout|by apply elem_of_nil in Hcb].
  - rewrite fmap_app. apply NoDup_app. split; [done|]. destruct out as [cb|]; simpl; cycle 1.
    { split; [by intros x _ ?%elem_of_nil|apply NoDup_nil_2]. }
    split; [|apply NoDup_singleton]. destruct (Hout cb eq_refl) as (Hf & -> & _).
    intros x Hx ->%list_elem_of_singleton. apply Hcert in Hx; [|done]. congruence.
  - intros r' Hr'. rewrite fmap_app, elem_of_app, (Hcert r' Hr'), lookup_insert. destruct (decide (r = r')) as [<-|Hd].
    + simpl. rewrite Hmark, bool_decide_eq_true, Hsame. destruct out as [cb|]; simpl.
      * destruct (Hout cb eq_refl) as (_ & -> & _). rewrite list_elem_of_singleton. naive_solver.
      * rewrite elem_of_nil. split; [naive_solver|]. by intros [?|[? ?]]; [left|].
    + destruct out as [cb|]; simpl; [|rewrite elem_of_nil; tauto].
      destruct (Hout cb eq_refl) as (_ & -> & _). rewrite list_elem_of_singleton. naive_solver.
Qed.

Lemma info_default R counted added cs outs r :
  cert_inv R counted added cs outs → cs_gc_round cs < br_round r →
  info_ok (R r) counted added r (default VoteInfo_default (cs_votes cs !! r)).
Proof.
  intros Hinv Hr. destruct (cs_votes cs !! r) as [vi|] eqn:Hv; simpl; [by apply (ci_some _ _ _ _ _ Hinv)|].
  split; simpl; [|done|exists ∅; split; [apply agg_repr_new|set_solver]].
  intros i. rewrite lookup_empty. simpl. by apply (ci_none _ _ _ _ _ Hinv).
Qed.

Lemma cert_inv_weaken R R' counted counted' added added' cs outs :
  (∀ r i, R' r i = R r i) → (∀ b, b ∈ counted ↔ b ∈ counted') → (∀ b, b ∈ added ↔ b ∈ added') →
  cert_inv R counted added cs outs → cert_inv R' counted' added' cs outs.
Proof.
  intros HR Hc1 Ha [Hctx Hcnt Hadd Hsome Hnone Hpres Houts Honce Hcert]. split; try done.
  - intros r i. rewrite HR. etrans; [|apply Hcnt]. apply rejecters_mono. intros b. by rewrite Hc1.
  - intros b. rewrite <- Hc1, <- Ha. auto.
  - intros r vi Hv. destruct (Hsome r vi Hv) as [Hg [H1 H2 (A & H3 & H4)]]. split; [done|]. split.
    + intros i. rewrite HR. apply H1.
    + intros b Hb. rewrite <- Ha. auto.
    + exists A. split; [done|]. intros a Ha'. destruct (H4 a Ha') as (b & Hb & ?). exists b. by rewrite <- Hc1.
  - intros r i. rewrite HR. apply Hnone.
  - intros b. rewrite <- Ha. apply Hpres.
  - intros cb Hcb. apply (output_ok_mono R R' added added'); [|by intros b; rewrite <- Ha|by apply Houts]. intros r i. by rewrite HR.
Qed.

Lemma add_block_votes_inv R counted added cs outs local b v :
  cert_inv R counted added cs (outs ++ local) → is_valid_index c (vb_author b) = true →
  ∃ cs' local' R', add_block_votes b (cs, local) v = Ret (cs', local') ∧
    cert_inv R' counted added cs' (outs ++ local') ∧ cs_gc_round cs' = cs_gc_round cs ∧
    ∀ r i, R' r i = if decide (btv_block_ref v = r ∧ i ∈ btv_rejects v) then {[vb_author b]} ∪ R r i else R r i.
Proof.
  intros Hinv Hb. unfold add_block_votes. set (r := btv_block_ref v).
  set (R' := λ r' i, if decide (r = r' ∧ i ∈ btv_rejects v) then {[vb_author b]} ∪ R r' i else R r' i).
  assert (∀ r' i, R r' i ⊆ R' r' i) as HRR by (intros r' i; unfold R'; case_decide; set_solver).
  destruct (N.leb_spec (br_round r) (cs_gc_round cs)) as [Hle|Hgt].
  - exists cs, local, R'. split; [done|]. split; [|done].
    destruct Hinv as [Hctx Hcnt Hadd Hsome Hnone Hpres Houts Honce Hcert].
    assert (∀ r' i, cs_gc_round cs < br_round r' → R' r' i = R r' i) as Hsame.
    { intros r' i Hr'. unfold R'. rewrite decide_False; [done|]. intros [<- _]. lia. }
    split; try done.
    + intros r' i. etrans; [apply Hcnt|apply HRR].
    + intros r' vi Hv. destruct (Hsome r' vi Hv) as [Hg [H1 H2 H3]]. split; [done|]. split; [|done|done].
      intros i. rewrite Hsame by done. apply H1.
    + intros r' i Hv Hg. rewrite Hsame by done. by apply Hnone.
    + intros cb Hcb. by apply (output_ok_mono R R' added added); [| |apply Houts].
  - pose proof (info_default _ _ _ _ _ r Hinv Hgt) as [H1 H2 H3]. rewrite (ci_context _ _ _ _ _ Hinv). fold c.
    destruct (add_rejects_repr _ (vb_author b) _ (btv_rejects v) Hb H1) as (votes & -> & Hvotes).
    cbn [mbind outcome_bind].
    destruct (update_entry R R' counted added cs (outs ++ local) r
      ((default VoteInfo_default (cs_votes cs !! r)) <| reject_txn_votes := votes |>))
      as (vi' & out & Hout & Hinv'); [done|done| |done|done|done| |].
    + intros r' i Hne. unfold R'. rewrite decide_False; [done|]. by intros [<- _].
    + split; [|exact H2|exact H3]. intros i. specialize (Hvotes i). unfold R'. simpl.
      destruct (decide (i ∈ btv_rejects v)); [by rewrite decide_True|]. rewrite decide_False by tauto. done.
    + rewrite (ci_context _ _ _ _ _ Hinv) in Hout. rewrite Hout. cbn [mbind outcome_bind].
      eexists _, _, R'. split; [done|]. split; [by rewrite app_assoc|done].
Qed.

Lemma add_votes_inv R counted added cs outs local b votes :
  cert_inv R counted added cs (outs ++ local) → is_valid_index c (vb_author b) = true →
  ∃ cs' local' R', foldM (add_block_votes b) (cs, local) votes = Ret (cs', local') ∧
    cert_inv R' counted added cs' (outs ++ local') ∧ cs_gc_round cs' = cs_gc_round cs ∧
    ∀ r i, R' r i = if decide (Exists (λ v, btv_block_ref v = r ∧ i ∈ btv_rejects v) votes)
                    then {[vb_author b]} ∪ R r i else R r i.
Proof.
  intros Hinv Hb. revert R cs local Hinv. induction votes as [|v votes IH]; intros R cs local Hinv.
  { exists cs, local, R. do 3 (split; [done|]). intros r i. rewrite decide_False; [done|]. by intros ?%Exists_nil. }
  destruct (add_block_votes_inv R counted added cs outs local b v Hinv Hb) as (cs1 & l1 & R1 & H1 & Hinv1 & Hg1 & HR1).
  destruct (IH R1 cs1 l1 Hinv1) as (cs2 & l2 & R2 & H2 & Hinv2 & Hg2 & HR2).
  exists cs2, l2, R2. cbn [foldM]. rewrite H1. cbn [mbind outcome_bind]. split; [done|]. split; [done|].
  split; [congruence|]. intros r i. rewrite HR2, HR1.
  destruct (decide (Exists _ votes)) as [Hv|Hv], (decide (_ ∧ _)) as [Hd|Hd], (decide (Exists _ (v :: votes))) as [He|He];
    rewrite ?Exists_cons in He; try tauto; set_solver.
Qed.

Lemma add_voted_block_inv added cs outs b own :
  cert_inv (rejecters added) added added cs outs → is_valid_index c (vb_author b) = true →
  cs_gc_round cs < vb_round b → (∀ b', b' ∈ added → reference b' = reference b → b' = b) →
  ∃ cs' local, add_voted_block cs b own = Ret (cs', local) ∧ cs_gc_round cs' = cs_gc_round cs ∧
    cert_inv (rejecters (added ++ [b])) (added ++ [b]) (added ++ [b]) cs' (outs ++ local).
Proof.
  intros Hinv Hb Hr Huniq. unfold add_voted_block. rewrite (ci_context _ _ _ _ _ Hinv). fold c.
  destruct (N.leb_spec (vb_round b) (cs_gc_round cs)) as [?|_]; [lia|].
  destruct (valid_authority _ _ Hb) as [auth ->]. cbn [mbind outcome_bind].
  assert (cs_gc_round cs < br_round (reference b)) as Hr' by done.
  pose proof (info_default _ _ _ _ _ (reference b) Hinv Hr') as [H1 H2 H3].
  set (vi := default VoteInfo_default (cs_votes cs !! reference b)) in *.
  destruct (vi_block vi) as [b'|] eqn:Hvb.
  - destruct (H2 b' eq_refl) as (Href & Hin & _). apply Huniq in Href as ->; [|done].
    exists cs, []. split; [done|]. split; [done|]. rewrite app_nil_r.
    apply (cert_inv_weaken (rejecters added) _ added _ added); [| | |done].
    + intros r i. apply set_eq. intros a. rewrite !elem_of_rejecters. setoid_rewrite elem_of_app.
      setoid_rewrite list_elem_of_singleton. naive_solver.
    + intros x. rewrite elem_of_app, list_elem_of_singleton. naive_solver.
    + intros x. rewrite elem_of_app, list_elem_of_singleton. naive_solver.
  - set (vi1 := vi <| vi_block := Some b |> <| own_reject_txn_votes := own |>).
    set (cs1 := cs <| cs_votes := <[reference b := vi1]> (cs_votes cs) |>).
    assert (cert_inv (rejecters added) added (added ++ [b]) cs1 (outs ++ [])) as Hinv1.
    { rewrite app_nil_r. destruct Hinv as [Hctx Hcnt Hadd Hsome Hnone Hpres Houts Honce Hcert]. split; try done.
      - set_solver.
      - intros r x. simpl. rewrite lookup_insert. destruct (decide (reference b = r)) as [<-|Hne].
        + intros [= <-]. split; [done|]. split; [exact H1| |exact H3]. intros b' [= <-].
          split; [done|]. split; [set_solver|done].
        + intros Hx. destruct (Hsome r x Hx) as [Hg [G1 G2 G3]]. split; [done|]. split; [done| |done].
          intros b' Hb'. destruct (G2 b' Hb') as (? & ? & ?). set_solver.
      - intros r i. simpl. rewrite lookup_insert. destruct (decide (reference b = r)); [done|]. apply Hnone.
      - intros b' [Hb'| ->%list_elem_of_singleton]%elem_of_app Hg; simpl; rewrite lookup_insert; [|by rewrite decide_True].
        destruct (decide (reference b = reference b')) as [He|]; [|by apply Hpres]. simpl. f_equal. symmetry. auto.
      - intros cb Hcb. apply (output_ok_mono (rejecters added) _ added); [done|set_solver|by apply Houts].
      - intros r Hg. rewrite (Hcert r Hg). simpl. rewrite lookup_insert.
        destruct (decide (reference b = r)) as [<-|]; [|done]. done. }
    destruct (add_votes_inv _ _ _ cs1 outs [] b (vb_transaction_votes b) Hinv1 Hb) as (cs2 & local & R2 & Hrun & Hinv2 & Hg & HR2).
    exists cs2, local. split; [exact Hrun|]. split; [exact Hg|].
    assert (∀ r i, rejecters (added ++ [b]) r i = R2 r i) as Heq.
    { intros r i. rewrite HR2. apply set_eq. intros a.
      assert (Exists (λ v, btv_block_ref v = r ∧ i ∈ btv_rejects v) (vb_transaction_votes b) ↔ rejects b r i) as Hex
        by apply Exists_exists.
      assert (a ∈ rejecters (added ++ [b]) r i ↔ a ∈ rejecters added r i ∨ a = vb_author b ∧ rejects b r i) as ->.
      { rewrite !elem_of_rejecters. setoid_rewrite elem_of_app. setoid_rewrite list_elem_of_singleton. naive_solver. }
      destruct (decide (Exists _ _)) as [He|He]; rewrite Hex in He; set_solver. }
    destruct Hinv2 as [Hctx Hcnt Hadd Hsome Hnone Hpres Houts Honce Hcert]. split; try done.
    + intros r x Hx. destruct (Hsome r x Hx) as [Hg' [G1 G2 (A & G3 & G4)]]. split; [done|]. split; [|done|].
      * intros i. rewrite Heq. apply G1.
      * exists A. split; [done|]. intros a Ha. destruct (G4 a Ha) as (v & Hv & ?). exists v. set_solver.
    + intros r i. rewrite Heq. apply Hnone.
    + intros cb Hcb. apply (output_ok_mono R2 _ (added ++ [b])); [|done|by apply Houts]. intros r i. by rewrite Heq.
Qed.

Lemma add_accept_vote_inv R counted added cs outs local b r :
  cert_inv R counted added cs (outs ++ local) → is_valid_index c (vb_author b) = true →
  b ∈ counted → r ∈ vb_ancestors b →
  ∃ cs' local', add_accept_vote b (cs, local) r = Ret (cs', local') ∧
    cert_inv R counted added cs' (outs ++ local') ∧ cs_gc_round cs' = cs_gc_round cs.
Proof.
  intros Hinv Hb Hin Hr. unfold add_accept_vote.
  destruct (N.eqb_spec (u32_add (br_round r) 1) (vb_round b)) as [Hround|]; cbn [negb]; [|by exists cs, local].
  destruct (cs_votes cs !! r) as [vi|] eqn:Hv; [|by exists cs, local].
  destruct (ci_some _ _ _ _ _ Hinv r vi Hv) as [Hg [H1 H2 (A & HA & HAv)]].
  rewrite (ci_context _ _ _ _ _ Hinv). fold c. unfold agg_add_unique.
  destruct (agg_insert_repr c Hc A _ _ HA Hb) as (agg & -> & Hagg). cbn [mbind outcome_bind].
  destruct (update_entry R R counted added cs (outs ++ local) r (vi <| accept_block_votes := agg |>))
    as (vi' & out & Hout & Hinv'); [done|done|done|done|by rewrite Hv|by rewrite Hv| |].
  - split; [exact H1|exact H2|]. exists ({[vb_author b]} ∪ A). split; [exact Hagg|].
    intros a [->%elem_of_singleton|Ha]%elem_of_union; [|auto]. exists b. by repeat split.
  - rewrite (ci_context _ _ _ _ _ Hinv) in Hout. rewrite Hout. cbn [mbind outcome_bind].
    eexists _, _. split; [done|]. split; [by rewrite app_assoc|done].
Qed.

Lemma add_voting_ancestor_inv R added cs outs local p r :
  cert_inv R added added cs (outs ++ local) →
  ∃ cs' local', add_voting_ancestor p (cs, local) r = Ret (cs', local') ∧
    cert_inv R added added cs' (outs ++ local') ∧ cs_gc_round cs' = cs_gc_round cs.
Proof.
  intros Hinv. unfold add_voting_ancestor. destruct (negb _); [by exists cs, local|]. simpl.
  destruct (cs_votes cs !! r ≫= vi_block) as [b|] eqn:Hb; [|by exists cs, local].
  apply bind_Some in Hb as (vi & Hv & Hb).
  destruct (ci_some _ _ _ _ _ Hinv r vi Hv) as [_ [_ H2 _]]. destruct (H2 b Hb) as (_ & Hin & Hval).
  assert (∀ a, a ∈ vb_ancestors b → a ∈ vb_ancestors b) as Hsub by done. revert Hsub.
  generalize (vb_ancestors b) at 1 3 as l. clear Hv. intros l. revert cs local Hinv.
  induction l as [|a l IH]; intros cs local Hinv Hl; [by exists cs, local|].
  destruct (add_accept_vote_inv R added added cs outs local b a Hinv Hval Hin) as (cs1 & l1 & H1 & Hinv1 & Hg1);
    [apply Hl; left|].
  destruct (IH cs1 l1 Hinv1) as (cs2 & l2 & Hrun & Hinv2 & Hg2); [intros; apply Hl; by right|].
  exists cs2, l2. cbn [foldM]. rewrite H1. split; [exact Hrun|]. split; [done|congruence].
Qed.

Lemma add_proposed_block_inv R added cs outs p :
  cert_inv R added added cs outs →
  vb_round p ≤ u32_add (cs_gc_round cs) 2 ∨ is_Some (cs_votes cs !! reference p) →
  ∃ cs' local, add_proposed_block cs p = Ret (cs', local) ∧ cs_gc_round cs' = cs_gc_round cs ∧
    cert_inv R added added cs' (outs ++ local).
Proof.
  intros Hinv Hp. unfold add_proposed_block.
  destruct (N.leb_spec (vb_round p) (u32_add (cs_gc_round cs) 2)) as [Hle|Hgt];
    [by exists cs, []; rewrite app_nil_r|].
  rewrite bool_decide_eq_true_2 by (destruct Hp; [lia|done]). cbn [assert_that mbind outcome_bind].
  assert (cert_inv R added added cs (outs ++ [])) as Hinv0 by by rewrite app_nil_r.
  clear Hinv Hp Hgt. revert Hinv0. generalize ([] : list CertifiedBlock) as local. generalize (vb_ancestors p) as l.
  intros l. revert cs. induction l as [|a l IH]; intros cs local Hinv; [by exists cs, local|].
  destruct (add_voting_ancestor_inv R added cs outs local p a Hinv) as (cs1 & l1 & H1 & Hinv1 & Hg1).
  destruct (IH cs1 l1 Hinv1) as (cs2 & l2 & Hrun & Hg2 & Hinv2).
  exists cs2, l2. cbn [foldM]. rewrite H1. split; [exact Hrun|]. split; [congruence|done].
Qed.

Lemma update_gc_round_lookup cs g r :
  cs_votes (update_gc_round cs g) !! r = if decide (br_round r ≤ g) then None else cs_votes cs !! r.
Proof.
  unfold update_gc_round. simpl.
  assert (∀ (l : list (BlockRef * VoteInfo)) m, foldl (λ votes e, delete e.1 votes) m l = foldl (λ votes r, delete r votes) m l.*1) as ->.
  { intros l. induction l as [|e l IH]; intros m; [done|]. simpl. apply IH. }
  rewrite foldl_delete.
  assert (∀ l : list (BlockRef * VoteInfo), (take_while (λ e, br_round e.1 <=? g) l).*1 = take_while (λ r, br_round r <=? g) l.*1) as ->.
  { intros l. induction l as [|e l IH]; [done|]. csimpl. destruct (br_round e.1 <=? g); [|done]. csimpl. by rewrite IH. }
  destruct (decide (r ∈ _)) as [Hin|Hin]; rewrite take_while_sorted in Hin by apply map_iter_sorted.
  - destruct Hin as [_ ?]. by rewrite decide_True.
  - destruct (decide (br_round r ≤ g)) as [Hle|]; [|done].
    destruct (cs_votes cs !! r) as [vi|] eqn:Hv; [|done]. exfalso. apply Hin. split; [|done].
    apply list_elem_of_fmap. exists (r, vi). split; [done|]. by apply elem_of_map_iter.
Qed.

Lemma update_gc_round_inv R added cs outs g :
  cert_inv R added added cs outs → cs_gc_round cs ≤ g → cert_inv R added added (update_gc_round cs g) outs.
Proof.
  intros [Hctx Hcnt Hadd Hsome Hnone Hpres Houts Honce Hcert] Hg.
  assert (cs_gc_round (update_gc_round cs g) = g) as Hgc by done.
  split; try done; rewrite Hgc; intros r.
  - intros vi. rewrite update_gc_round_lookup. destruct (decide (br_round r ≤ g)); [done|].
    intros Hv. split; [lia|]. by apply Hsome.
  - intros i Hv Hr. rewrite update_gc_round_lookup in Hv. destruct (decide (br_round r ≤ g)); [lia|].
    apply Hnone; [done|lia].
  - intros Hb Hr. rewrite update_gc_round_lookup, decide_False by (simpl; lia). apply Hpres; [done|lia].
  - intros Hr. rewrite update_gc_round_lookup, decide_False by lia. apply Hcert. lia.
Qed.

Lemma cert_run_inv added cs outs :
  cert_run context added cs outs → cert_inv (rejecters added) added added cs outs.
Proof.
  induction 1 as [|added cs outs b own cs' outs' _ IH Hb Hr Hu Hrun|added cs outs b cs' outs' _ IH Hrun|added cs outs g _ IH Hg].
  - split; try done; simpl; [set_solver|set_solver|constructor|]. intros r _. by rewrite elem_of_nil.
  - destruct (add_voted_block_inv added cs outs b own IH Hb Hr Hu) as (cs1 & local & Hrun1 & _ & Hinv).
    rewrite Hrun1 in Hrun. by injection Hrun as <- <-.
  - assert (vb_round b ≤ u32_add (cs_gc_round cs) 2 ∨ is_Some (cs_votes cs !! reference b)) as Hp.
    { unfold add_proposed_block in Hrun. destruct (N.leb_spec (vb_round b) (u32_add (cs_gc_round cs) 2)); [by left|].
      right. apply bind_Ret in Hrun as ([] & Ha%assert_that_Ret & _). by apply bool_decide_eq_true in Ha. }
    destruct (add_proposed_block_inv _ added cs outs b IH Hp) as (cs1 & local & Hrun1 & _ & Hinv).
    rewrite Hrun1 in Hrun. by injection Hrun as <- <-.
  - by apply update_gc_round_inv.
Qed.
End Invariant.

(** * Safety of the fastpath *)

(** The strict causal history. *)
Definition links (G : universe) (b : VerifiedBlock) (r : BlockRef) : Prop := tc (parent G) (reference b) r.

(** Honest authorities vote on the transactions of a block in the first of their blocks that
    links to it, directly or not, and in no other one. *)
Definition vote_rule (byz : gset N) (G : universe) : Prop :=
  ∀ b r i, block_in G b → vb_author b ∉ byz → rejects b r i →
    links G b r ∧
    ∀ b', block_in G b' → vb_author b' = vb_author b → links G b' r → vb_round b ≤ vb_round b'.

Section Safety.
Context (c : Committee) (byz : gset N) (G : universe) (HG : bft c byz G) (Hrule : vote_rule byz G).

Lemma links_round b r : block_in G b → links G b r → br_round r < vb_round b.
Proof.
  intros _ Hl. change (vb_round b) with (br_round (reference b)). unfold links in Hl.
  induction Hl as [x y Hp|x y z Hp _ IH]; apply (bft_desc _ _ _ HG) in Hp; lia.
Qed.

(** A direct vote one round above decides: no other block of the author votes differently. *)
Lemma direct_vote_final v b r i :
  block_in G v → block_in G b → vb_author v = vb_author b → vb_author v ∉ byz →
  votes_on v r → rejects b r i → rejects v r i.
Proof.
  intros Hv Hb Ha Hhon [Hround Hin] Hrej.
  destruct (Hrule b r i Hb) as [Hl Hfirst]; [congruence|done|].
  assert (links G v r) as Hlv by (apply tc_once; by exists v).
  specialize (Hfirst v Hv Ha Hlv). apply links_round in Hl; [|done].
  assert (vb_round v ≤ br_round r + 1) by (rewrite <- Hround; apply N.Div0.mod_le).
  replace v with b; [done|]. apply (bft_honest _ _ _ HG); [done|done| |congruence].
  unfold Slot_from, reference. simpl. f_equal; [lia|done].
Qed.

(** A transaction that some node certifies cannot be rejected by a quorum anywhere. *)
Lemma certified_not_rejected ctx R added1 added2 cb i :
  committee ctx = c → (∀ b, b ∈ added1 → block_in G b) → (∀ b, b ∈ added2 → block_in G b) →
  output_ok ctx R added1 cb → i ∉ cb_rejected cb →
  reached_quorum c (weight c (rejecters added2 (reference (cb_block cb)) i)) = false.
Proof.
  intros Hctx H1 H2 Hok Hi. apply not_true_iff_false. intros Hq.
  destruct (oo_accepted _ _ _ _ Hok i Hi) as (X & HX & Hacc). rewrite Hctx in HX.
  destruct (honest_pair c byz G HG _ _ HX Hq) as (a & HaX & HaR & Hhon).
  destruct (Hacc a HaX) as (v & Hv & Hva & Hon & Hnot).
  apply elem_of_rejecters in HaR as (b & Hb & Hba & Hrej).
  apply Hnot. apply (direct_vote_final v b); try done; [by apply H1|by apply H2|congruence|congruence].
Qed.
End Safety.

Lemma sorted_lt_eq (l k : list N) :
  StronglySorted N.lt l → StronglySorted N.lt k → (∀ i, i ∈ l ↔ i ∈ k) → l = k.
Proof.
  intros Hl. revert k. induction Hl as [|x l Hl IH Hx]; intros k Hk Heq.
  { destruct k as [|y k]; [done|]. destruct (Heq y) as [_ Hy]. by specialize (Hy (list_elem_of_here y k)) as ?%elem_of_nil. }
  destruct Hk as [|y k Hk Hy]; [destruct (Heq x) as [Hy _]; by specialize (Hy (list_elem_of_here x l)) as ?%elem_of_nil|].
  rewrite Forall_forall in Hx, Hy.
  assert (x = y) as ->.
  { assert (x ∈ y :: k) as [?|Hxk]%elem_of_cons by (apply Heq; left); [done|].
    assert (y ∈ x :: l) as [?|Hyl]%elem_of_cons by (apply Heq; left); [done|].
    specialize (Hx y Hyl). specialize (Hy x Hxk). lia. }
  f_equal. apply IH; [done|]. intros i. specialize (Heq i). rewrite !elem_of_cons in Heq.
  split; intros Hi; [assert (y < i) by auto|assert (y < i) by auto]; destruct Heq as [H1 H2];
    [destruct H1 as [->|?]|destruct H2 as [->|?]]; auto; lia.
Qed.

(** What the certifier answers about a block above its garbage collection round: the stake of
    the rejecters, for exactly the transactions that have some. *)
Lemma get_reject_votes_spec context added t outs r :
  committee_wf (committee context) → cert_run context added (certifier_state t) outs →
  cs_gc_round (certifier_state t) < br_round r →
  (∀ i s, (i, s) ∈ default [] (get_reject_votes t r) ↔
     rejecters added r i ≠ ∅ ∧ s = weight (committee context) (rejecters added r i)) ∧
  StronglySorted N.lt (default [] (get_reject_votes t r)).*1.
Proof.
  intros Hc Hrun Hr. apply (cert_run_inv context Hc) in Hrun as Hinv. unfold get_reject_votes.
  destruct (cs_votes (certifier_state t) !! r) as [vi|] eqn:Hv; cbn [mbind option_bind default from_option id].
  - destruct (ci_some _ _ _ _ _ _ Hinv r vi Hv) as [_ [HR _ _]]. split.
    + intros i s. rewrite list_elem_of_fmap. specialize (HR i). unfold txn_repr in HR. split.
      * intros ([i' agg] & [= -> ->] & Ha%elem_of_map_iter). rewrite Ha in HR. destruct HR as [[_ -> _] ?]. done.
      * intros [Hne ->]. destruct (reject_txn_votes vi !! i) as [agg|] eqn:Ha; [|done].
        destruct HR as [[_ Hst _] _]. exists (i, agg). split; [by simpl; rewrite Hst|]. by apply elem_of_map_iter.
    + rewrite <- list_fmap_compose. apply reject_votes_sorted.
  - split; [|constructor]. intros i s. rewrite elem_of_nil. split; [done|].
    intros [Hne _]. by apply Hne, (ci_none _ _ _ _ _ _ Hinv).
Qed.

(** C13. Fastpath safety, for two nodes whose certifiers have processed blocks of one universe
    with less than a validity threshold of Byzantine stake. A node outputs no block twice. A
    transaction that one node certifies does not have a quorum of reject votes at any node,
    now or later, so that no finalizer rejects it for its votes; and the two nodes agree on
    the content and the rejected transactions of every block that both output. *)
Theorem certified_outputs_agree c byz G ctx1 ctx2 added1 added2 t1 t2 outs1 outs2 :
  bft c byz G → vote_rule byz G → committee ctx1 = c → committee ctx2 = c →
  cert_run ctx1 added1 (certifier_state t1) outs1 → cert_run ctx2 added2 (certifier_state t2) outs2 →
  (∀ b, b ∈ added1 → block_in G b) → (∀ b, b ∈ added2 → block_in G b) →
  NoDup (reference ∘ cb_block <$> outs1) ∧
  ∀ cb, cb ∈ outs1 →
    (∀ i votes stake, i ∉ cb_rejected cb →
       get_reject_votes t2 (reference (cb_block cb)) = Some votes → (i, stake) ∈ votes →
       stake < committee_quorum_threshold c) ∧
    (∀ cb', cb' ∈ outs2 → reference (cb_block cb') = reference (cb_block cb) → cb' = cb).
Proof.
  intros HG Hrule Hctx1 Hctx2 Hrun1 Hrun2 Hin1 Hin2. pose proof (bft_committee _ _ _ HG) as Hc.
  assert (committee_wf (committee ctx1)) as Hc1 by by rewrite Hctx1.
  assert (committee_wf (committee ctx2)) as Hc2 by by rewrite Hctx2.
  pose proof (cert_run_inv ctx1 Hc1 _ _ _ Hrun1) as Hinv1. pose proof (cert_run_inv ctx2 Hc2 _ _ _ Hrun2) as Hinv2.
  split; [apply (ci_once _ _ _ _ _ _ Hinv1)|]. intros cb Hcb. apply (ci_outs _ _ _ _ _ _ Hinv1) in Hcb as Hok. split.
  - intros i votes stake Hi Hvotes Hst.
    pose proof (certified_not_rejected c byz G HG Hrule ctx1 _ added1 added2 cb i Hctx1 Hin1 Hin2 Hok Hi) as Hq.
    assert (cs_gc_round (certifier_state t2) < br_round (reference (cb_block cb))) as Hgc.
    { unfold get_reject_votes in Hvotes. apply bind_Some in Hvotes as (vi & Hvi & _).
      by destruct (ci_some _ _ _ _ _ _ Hinv2 _ _ Hvi). }
    destruct (get_reject_votes_spec ctx2 added2 t2 outs2 _ Hc2 Hrun2 Hgc) as [Hspec _]. rewrite Hvotes in Hspec.
    apply Hspec in Hst as [_ ->]. rewrite Hctx2. unfold reached_quorum in Hq. apply bool_decide_eq_false in Hq. lia.
  - intros cb' Hcb' Href. apply (ci_outs _ _ _ _ _ _ Hinv2) in Hcb' as Hok'.
    assert (cb_block cb' = cb_block cb) as Hblk.
    { pose proof (Hin1 _ (oo_block _ _ _ _ Hok)) as HGb. pose proof (Hin2 _ (oo_block _ _ _ _ Hok')) as HGb'.
      unfold block_in in HGb, HGb'. rewrite Href in HGb'. congruence. }
    destruct cb as [b rej], cb' as [b' rej']; simpl in *. subst b'. f_equal.
    apply sorted_lt_eq; [apply (oo_sorted _ _ _ _ Hok')|apply (oo_sorted _ _ _ _ Hok)|]. intros i.
    destruct (decide (i ∈ rej)) as [Hi|Hi], (decide (i ∈ rej')) as [Hi'|Hi']; try tauto; exfalso.
    + pose proof (certified_not_rejected c byz G HG Hrule ctx2 _ added2 added1 _ i Hctx2 Hin2 Hin1 Hok' Hi') as Hq.
      apply (oo_rejected _ _ _ _ Hok) in Hi. simpl in *. rewrite Hctx1 in Hi. congruence.
    + pose proof (certified_not_rejected c byz G HG Hrule ctx1 _ added1 added2 _ i Hctx1 Hin1 Hin2 Hok Hi) as Hq.
      apply (oo_rejected _ _ _ _ Hok') in Hi'. simpl in *. rewrite Hctx2 in Hi'. congruence.
Qed.

(** The certifier's answers and its totality. After any history, the reject votes it
    reports for a block above its garbage collection round are, in ascending order, exactly
    the transactions rejected by some processed block, with the stake of the distinct authors
    that reject them; every processed block above that round has an entry. Adding a block of
    a committee member or a proposed block that was processed never panics. *)
Theorem reject_votes_exact context added t outs :
  committee_wf (committee context) → cert_run context added (certifier_state t) outs →
  (∀ r, cs_gc_round (certifier_state t) < br_round r →
     (∀ i s, (i, s) ∈ default [] (get_reject_votes t r) ↔
        rejecters added r i ≠ ∅ ∧ s = weight (committee context) (rejecters added r i)) ∧
     StronglySorted N.lt (default [] (get_reject_votes t r)).*1) ∧
  (∀ b, b ∈ added → cs_gc_round (certifier_state t) < vb_round b → is_Some (get_reject_votes t (reference b))) ∧
  (∀ b own, is_valid_index (committee context) (vb_author b) = true →
     (∀ b', b' ∈ added → reference b' = reference b → b' = b) →
     ∃ cs' out, add_voted_block (certifier_state t) b own = Ret (cs', out)) ∧
  (∀ b, b ∈ added → cs_gc_round (certifier_state t) + 2 < 2 ^ 32 →
     ∃ cs' out, add_proposed_block (certifier_state t) b = Ret (cs', out)).
Proof.
  intros Hc Hrun. pose proof (cert_run_inv context Hc _ _ _ Hrun) as Hinv.
  assert (∀ b, b ∈ added → cs_gc_round (certifier_state t) < vb_round b →
    ∃ vi, cs_votes (certifier_state t) !! reference b = Some vi) as Hpres.
  { intros b Hb Hr. apply (ci_present _ _ _ _ _ _ Hinv b Hb), bind_Some in Hr as (vi & ? & _). by exists vi. }
  split; [intros r Hr; by apply (get_reject_votes_spec context added t outs)|]. split; [|split].
  - intros b Hb Hr. destruct (Hpres b Hb Hr) as [vi Hvi]. unfold get_reject_votes. rewrite Hvi. simpl. eauto.
  - intros b own Hval Hu. destruct (N.le_gt_cases (vb_round b) (cs_gc_round (certifier_state t))) as [Hle|Hgt].
    + exists (certifier_state t), []. unfold add_voted_block. by destruct (N.leb_spec (vb_round b) (cs_gc_round (certifier_state t))); [|lia].
    + destruct (add_voted_block_inv context Hc added _ outs b own Hinv Hval Hgt Hu) as (cs' & out & H & _). eauto.
  - intros b Hb Hgc. destruct (add_proposed_block_inv context Hc _ added _ outs b Hinv) as (cs' & out & H & _); [|eauto].
    rewrite u32_add_small by done.
    destruct (N.le_gt_cases (vb_round b) (cs_gc_round (certifier_state t))) as [Hle|Hgt]; [left; lia|right; by apply Hpres].
Qed.

(** * Concrete histories *)

(** Adding a list of blocks, as the certifier's interface does, extends its history. *)
Lemma add_voted_blocks_run context added cs outs voted cs' outs' :
  committee_wf (committee context) → cert_run context added cs outs →
  NoDup (reference <$> added ++ voted.*1) →
  (∀ b, b ∈ voted.*1 → is_valid_index (committee context) (vb_author b) = true ∧ cs_gc_round cs < vb_round b) →
  add_voted_blocks cs voted = Ret (cs', outs') →
  cert_run context (added ++ voted.*1) cs' (outs ++ outs') ∧ cs_gc_round cs' = cs_gc_round cs.
Proof.
  intros Hc Hrun Hnd Hb. unfold add_voted_blocks.
  assert (∀ acc, cert_run context added cs (outs ++ acc) →
    foldM (λ '(cs, certified_blocks) '(b, own_votes), '(cs, blocks) ← add_voted_block cs b own_votes;
             Ret (cs, certified_blocks ++ blocks)) (cs, acc) voted = Ret (cs', outs') →
    cert_run context (added ++ voted.*1) cs' (outs ++ outs') ∧ cs_gc_round cs' = cs_gc_round cs) as Hgen;
    [|apply Hgen; by rewrite app_nil_r].
  clear Hrun. revert added cs Hnd Hb. induction voted as [|[b own] voted IH]; intros added cs Hnd Hb acc Hrun Hf.
  { injection Hf as <- <-. by rewrite app_nil_r. }
  cbn [foldM] in Hf. apply bind_Ret in Hf as ([cs1 acc1] & Hstep & Hf).
  apply bind_Ret in Hstep as ([cs1' blocks] & Hadd & [= <- <-]).
  destruct (Hb b) as [Hval Hround]; [by left|].
  assert (∀ b', b' ∈ added → reference b' = reference b → b' = b) as Hu.
  { intros b' Hb' Href. exfalso. rewrite fmap_app in Hnd. apply NoDup_app in Hnd as (_ & Hd & _).
    apply (Hd (reference b')); [by apply list_elem_of_fmap_2|]. rewrite Href. csimpl. left. }
  destruct (add_voted_block_inv context Hc added cs (outs ++ acc) b own (cert_run_inv context Hc _ _ _ Hrun) Hval Hround Hu)
    as (cs2 & local & Hadd2 & Hgc & _). rewrite Hadd in Hadd2. injection Hadd2 as <- <-.
  replace (added ++ ((b, own) :: voted).*1) with ((added ++ [b]) ++ voted.*1) in * by (by rewrite <- app_assoc).
  rewrite <- Hgc. apply (IH (added ++ [b]) cs1' Hnd) with (acc ++ blocks); [|rewrite app_assoc; by eapply run_voted|done].
  intros b' Hb'. rewrite Hgc. apply Hb. by right.
Qed.

(** Blocks with two transactions each that link the whole previous round. *)
Definition ballot (round author : N) (votes : list BlockTransactionVotes) : VerifiedBlock :=
  mkVerifiedBlock
    (mkSignedBlock (V2 (mkBlockV2 0 round author 0
       ((λ a, mkBlockRef (round - 1) a (if round =? 1 then 1000 + a else 100 * (round - 1) + a)) <$> [0; 1; 2; 3])
       (replicate 2 (mkTransaction [])) votes [] [])) [])
    (100 * round + author) [].

(** In the second round authority 2 rejects a transaction of the first authority; in the third
    the Byzantine authority 3 rejects another one. *)
Definition ballots : list VerifiedBlock :=
  ((λ a, ballot 1 a []) <$> [0; 1; 2; 3]) ++
  [ballot 2 0 []; ballot 2 1 []; ballot 2 2 [mkBlockTransactionVotes (mkBlockRef 1 0 100) [0]]; ballot 2 3 []] ++
  [ballot 3 0 []; ballot 3 1 []; ballot 3 2 []; ballot 3 3 [mkBlockTransactionVotes (mkBlockRef 1 0 100) [1]]].

(** A node that adds blocks and then proposes one. *)
Definition certify (blocks : list VerifiedBlock) (proposed : VerifiedBlock)
    : outcome (CertifierState * list CertifiedBlock) :=
  '(cs, outs1) ← add_voted_blocks (CertifierState_new (sample_context 4 60)) ((λ b, (b, [])) <$> blocks);
  '(cs, outs2) ← add_proposed_block cs proposed;
  Ret (cs, outs1 ++ outs2).

Lemma certify_run blocks proposed cs outs :
  certify blocks proposed = Ret (cs, outs) → (∀ b, b ∈ blocks → b ∈ ballots) → NoDup (reference <$> blocks) →
  cert_run (sample_context 4 60) blocks cs outs.
Proof.
  intros Hrun Hin Hnd. unfold certify in Hrun. apply bind_Ret in Hrun as ([cs1 outs1] & H1 & Hrun).
  apply bind_Ret in Hrun as ([cs2 outs2] & H2 & [= <- <-]). eapply run_proposed; [|exact H2].
  assert (((λ b, (b, [] : list N)) <$> blocks).*1 = blocks) as Hfst.
  { rewrite <- list_fmap_compose. apply list_fmap_id. }
  apply (add_voted_blocks_run (sample_context 4 60) [] (CertifierState_new (sample_context 4 60)) []) in H1 as [H1 _].
  - by rewrite Hfst in H1.
  - by apply sample_committee_wf; lia.
  - constructor.
  - by rewrite Hfst.
  - rewrite Hfst. intros b Hb%Hin.
    assert (forallb (λ b, is_valid_index (sample_committee 4) (vb_author b) && (0 <? vb_round b)) ballots = true) as Hall
      by (vm_compute; reflexivity).
    rewrite forallb_forall in Hall. apply list_elem_of_In, Hall in Hb.
    apply andb_true_iff in Hb as [? ?%N.ltb_lt]. by split.
Qed.

Lemma ballots_ok : sample_ok 4 ballots = true.
Proof. vm_compute. reflexivity. Qed.
Lemma ballots_bft : bft (sample_committee 4) {[3]} (sample_universe 4 60 ballots).
Proof. apply sample_bft; vm_compute; reflexivity. Qed.

Lemma ballots_in b : b ∈ ballots → block_in (sample_universe 4 60 ballots) b.
Proof.
  intros Hb. apply sample_lookup; [exact ballots_ok|]. split; [|done]. apply elem_of_app. by right.
Qed.

(** Votes cast right above their target obey the rule. *)
Lemma sample_rule n gc byz blocks :
  sample_ok n blocks = true → bft (sample_committee n) byz (sample_universe n gc blocks) →
  bool_decide (Forall (λ b, vb_author b ∉ byz → Forall (λ v, votes_on b (btv_block_ref v) ∧
    br_round (btv_block_ref v) < 100) (vb_transaction_votes b)) (sample_genesis n ++ blocks)) = true →
  vote_rule byz (sample_universe n gc blocks).
Proof.
  intros Hok HG Hall%bool_decide_eq_true b r i Hb Ha Hrej.
  assert (b ∈ sample_genesis n ++ blocks) as Hin by (by apply sample_lookup in Hb as [? _]).
  rewrite Forall_forall in Hall. specialize (Hall b Hin Ha). rewrite Forall_forall in Hall.
  destruct Hrej as (v & Hv & <- & _). destruct (Hall v Hv) as [[Hround Hanc] Hlt].
  split; [apply tc_once; by exists b|]. intros b' Hb' _ Hl.
  apply (links_round _ _ _ HG) in Hl; [|done]. rewrite <- Hround, u32_add_small by lia. lia.
Qed.

Lemma ballots_rule : vote_rule {[3]} (sample_universe 4 60 ballots).
Proof. apply (sample_rule 4 60 {[3]} ballots ballots_ok ballots_bft). vm_compute. reflexivity. Qed.

Lemma first_ballots n b : b ∈ take n ballots → b ∈ ballots.
Proof. intros Hb. rewrite <- (take_drop n ballots). apply elem_of_app. by left. Qed.

Lemma certified_outputs_agree_witness :
  ∃ cs1 outs1 cs2 outs2 cb,
    certify (take 9 ballots) (ballot 3 0 []) = Ret (cs1, outs1) ∧
    certify (reverse ballots) (ballot 3 1 []) = Ret (cs2, outs2) ∧
    cb ∈ outs1 ∧ cb ∈ outs2 ∧ reference (cb_block cb) = mkBlockRef 1 0 100 ∧
    get_reject_votes (mkTransactionCertifier cs2 []) (mkBlockRef 1 0 100) = Some [(0, 1); (1, 1)] ∧
    1 < committee_quorum_threshold (sample_committee 4).
Proof.
  set (dflt := (CertifierState_new (sample_context 4 60), [] : list CertifiedBlock)).
  set (run1 := certify (take 9 ballots) (ballot 3 0 [])).
  set (run2 := certify (reverse ballots) (ballot 3 1 [])).
  assert (run1 = Ret (ret_or dflt run1)) as H1 by (vm_compute; reflexivity).
  assert (run2 = Ret (ret_or dflt run2)) as H2 by (vm_compute; reflexivity).
  destruct (ret_or dflt run1) as [cs1 outs1] eqn:E1. destruct (ret_or dflt run2) as [cs2 outs2] eqn:E2.
  set (cb := mkCertifiedBlock (ballot 1 0 []) []).
  assert (cb ∈ outs1) as Hcb1.
  { replace outs1 with (ret_or dflt run1).2 by (by rewrite E1). vm_compute. repeat (left || right). }
  assert (∃ cb', cb' ∈ outs2 ∧ reference (cb_block cb') = reference (cb_block cb)) as (cb' & Hcb2 & Href).
  { exists cb. split; [|reflexivity]. replace outs2 with (ret_or dflt run2).2 by (by rewrite E2).
    vm_compute. repeat (left || right). }
  assert (get_reject_votes (mkTransactionCertifier cs2 []) (mkBlockRef 1 0 100) = Some [(0, 1); (1, 1)]) as Hvotes.
  { replace cs2 with (ret_or dflt run2).1 by (by rewrite E2). vm_compute. reflexivity. }
  destruct (certified_outputs_agree (sample_committee 4) {[3]} (sample_universe 4 60 ballots)
    (sample_context 4 60) (sample_context 4 60) (take 9 ballots) (reverse ballots)
    (mkTransactionCertifier cs1 []) (mkTransactionCertifier cs2 []) outs1 outs2) as [_ Hsafe].
  - exact ballots_bft.
  - exact ballots_rule.
  - reflexivity.
  - reflexivity.
  - apply (certify_run _ _ _ _ H1); [apply first_ballots|]. apply (bool_decide_eq_true_1 _). vm_compute. reflexivity.
  - apply (certify_run _ _ _ _ H2); [intros b; by rewrite elem_of_reverse|]. apply (bool_decide_eq_true_1 _). vm_compute. reflexivity.
  - intros b Hb. apply ballots_in, (first_ballots 9), Hb.
  - intros b Hb. apply ballots_in. by rewrite <- elem_of_reverse.
  - destruct (Hsafe cb Hcb1) as [Hst Heq]. exists cs1, outs1, cs2, outs2, cb.
    split; [exact H1|]. split; [exact H2|]. split; [exact Hcb1|].
    split; [rewrite <- (Heq cb' Hcb2 Href); exact Hcb2|]. split; [reflexivity|]. split; [exact Hvotes|].
    apply (Hst 0 [(0, 1); (1, 1)]); [apply not_elem_of_nil|exact Hvotes|left].
Defined.

Lemma reject_votes_exact_witness :
  ∃ cs outs, certify (reverse ballots) (ballot 3 1 []) = Ret (cs, outs) ∧
    rejecters (reverse ballots) (mkBlockRef 1 0 100) 1 ≠ ∅ ∧
    ∃ cs' out, add_voted_block cs (ballot 4 0 []) [] = Ret (cs', out).
Proof.
  set (dflt := (CertifierState_new (sample_context 4 60), [] : list CertifiedBlock)).
  set (run := certify (reverse ballots) (ballot 3 1 [])).
  assert (run = Ret (ret_or dflt run)) as H by (vm_compute; reflexivity).
  destruct (ret_or dflt run) as [cs outs] eqn:E. exists cs, outs. split; [exact H|].
  destruct (reject_votes_exact (sample_context 4 60) (reverse ballots) (mkTransactionCertifier cs []) outs)
    as (Hexact & _ & Hadd & _).
  - apply sample_committee_wf. lia.
  - apply (certify_run _ _ _ _ H); [intros b; by rewrite elem_of_reverse|]. apply (bool_decide_eq_true_1 _). vm_compute. reflexivity.
  - split.
    + destruct (Hexact (mkBlockRef 1 0 100)) as [Hv _].
      { replace cs with (ret_or dflt run).1 by (by rewrite E). vm_compute. reflexivity. }
      apply (Hv 1 1). replace cs with (ret_or dflt run).1 by (by rewrite E). vm_compute. right. left.
    + apply Hadd; [reflexivity|]. intros b' Hb' Href. exfalso.
      assert (Forall (λ b, reference b ≠ reference (ballot 4 0 [])) (reverse ballots)) as Hall
        by (apply (bool_decide_eq_true_1 _); vm_compute; reflexivity).
      rewrite Forall_forall in Hall. by apply (Hall b').
Defined.
