(* ===== verification/CommitSyncer.v ===== *)
(** The commit syncer (consensus/core/src/commit_syncer.rs): the schedule of the ranges of
    commits to fetch, the verification of what a peer returns, and the batches sent to the core.
    No scheduled commit is lost, batches reach the core without gaps, and what is verified is a
    chain whose end a quorum has voted for. *)

From stdpp Require Import base tactics numbers list gmap sorting.
From coqutil Require Import Datatypes.RecordSettersUsingExistingGetters.
From S2P Require Import Prelude.
From S2P Require Import Committee.
From S2P Require Import Block.
From S2P Require Import StakeAggregator.
From S2P Require Import Commit.
From S2P Require Import DagInvariant.
From S2P Require Import BlockVerifier.
From S2P Require Import TransactionCertifier.

Open Scope N_scope.

(** * Data *)

(** The decoders of BCS; [None] is an error. *)
Class Decoder := {
  decode_commit : list Byte.byte → option Commit;
  decode_signed_block : list Byte.byte → option SignedBlock;
  decode_block_ref : list Byte.byte → option BlockRef;
}.

(** BCS is canonical: a value has one encoding, which decodes to it. *)
Class DecoderSpec `{Crypto} `{CommitCodec} `{Decoder} := {
  decode_commit_spec : ∀ s c, decode_commit s = Some c ↔ bcs_commit c = Some s;
  decode_signed_block_spec : ∀ s b, decode_signed_block s = Some b ↔ bcs_signed_block b = Some s;
}.

#[global] Program Instance CommitRange_countable : Countable CommitRange :=
  inj_countable' (λ r, (range_lo r, range_hi r)) (λ '(l, h), mkCommitRange l h) _.
Next Obligation. by intros []. Qed.

Definition CommitRange_leb (a b : CommitRange) : bool :=
  match CommitRange_cmp a b with Gt => false | _ => true end.

(** The tasks in flight are kept by the range they fetch. *)
Record CommitSyncer := mkCommitSyncer {
  inflight_fetches : list CommitRange;
  pending_fetches : gset CommitRange;
  fetched_ranges : gmap CommitRange CertifiedCommits;
  highest_scheduled_index : option N;
  highest_fetched_commit_index : N;
  synced_commit_index : N;
}.

(** What the syncer uses of the core: its last commit, as the shared DAG state has it, and the
    dispatcher of the command, which waits for the reply. *)
Class CertifiedCommitSink (E : Type) := {
  local_commit_index : E → N;
  send_certified_commits : E → CertifiedCommits → outcome (E * ConsensusResult (gset BlockRef));
}.

(** * The schedule *)

Definition CommitSyncer_new (last_commit_index : N) : CommitSyncer :=
  mkCommitSyncer [] ∅ ∅ None 0 last_commit_index.

Definition unhandled_commits_threshold (p : Parameters) : N :=
  u32_mul (commit_sync_batch_size p) (commit_sync_batches_ahead p mod 2 ^ 32).

(** [(lo..=hi).step_by(step)]. *)
Definition steps (lo hi step : N) : list N :=
  if hi <? lo then [] else (λ k, lo + N.of_nat k * step) <$> seq 0 (S (N.to_nat ((hi - lo) / step))).

(** One iteration of the loop; [inr] is [break]. *)
Definition schedule_range (p : Parameters) (quorum_commit_index highest_handled_index : N)
    (s : CommitSyncer) (prev_end : N) : CommitSyncer + CommitSyncer :=
  let range_start := u32_add prev_end 1 in
  let range_end := u32_add prev_end (commit_sync_batch_size p) in
  if quorum_commit_index <? range_end then inr s
  else if u32_add highest_handled_index (unhandled_commits_threshold p) <? range_end then inr s
  else inl (s <| pending_fetches := {[CommitRange_new range_start range_end]} ∪ pending_fetches s |>
              <| highest_scheduled_index := Some range_end |>).

Definition try_schedule_once (p : Parameters) (s : CommitSyncer)
    (quorum_commit_index local_commit_index highest_handled_index : N) : outcome CommitSyncer :=
  let s := s <| synced_commit_index := N.max (synced_commit_index s) local_commit_index |> in
  let fetch_after_index := N.max (synced_commit_index s) (default 0 (highest_scheduled_index s)) in
  _ ← assert_that (0 <? commit_sync_batch_size p);
  match for_loop (schedule_range p quorum_commit_index highest_handled_index) s
          (steps fetch_after_index quorum_commit_index (commit_sync_batch_size p)) with
  | inl s | inr s => Ret s
  end.

Definition pop_first_pending (s : CommitSyncer) : option (CommitRange * CommitSyncer) :=
  match set_iter CommitRange_leb (pending_fetches s) with
  | [] => None
  | r :: _ => Some (r, s <| pending_fetches := pending_fetches s ∖ {[r]} |>)
  end.

Fixpoint start_fetches (fuel : nat) (target_parallel_fetches : N) (s : CommitSyncer) : CommitSyncer :=
  match fuel with
  | O => s
  | S fuel =>
      if target_parallel_fetches <=? N.of_nat (length (inflight_fetches s)) then s
      else match pop_first_pending s with
           | None => s
           | Some (r, s) => start_fetches fuel target_parallel_fetches (s <| inflight_fetches := inflight_fetches s ++ [r] |>)
           end
  end.

(** As many iterations as there are pending ranges. *)
Definition try_start_fetches (context : Context) (s : CommitSyncer) : CommitSyncer :=
  let p := parameters context in
  let target_parallel_fetches :=
    N.max 1 (N.min (N.min (commit_sync_parallel_fetches p) (u64_mul (Committee_size (committee context)) 2 / 3))
                   (saturating_sub (commit_sync_batches_ahead p) (N.of_nat (size (fetched_ranges s))))) in
  start_fetches (S (size (pending_fetches s))) target_parallel_fetches s.

Section Process.
Context {E : Type} `{CertifiedCommitSink E} (c : Committee).

(** The [while let]: fetched ranges are sent as long as they leave no gap. *)
Fixpoint process_fetched (fuel : nat) (s : CommitSyncer) (e : E) : outcome (CommitSyncer * E) :=
  match fuel with
  | O => Panic
  | S fuel =>
      match map_iter CommitRange_leb (fetched_ranges s) with
      | [] => Ret (s, e)
      | (range, commits) :: _ =>
          if CommitRange_start range <=? u32_add (synced_commit_index s) 1 then
            let s := s <| fetched_ranges := delete range (fetched_ranges s) |> in
            if CommitRange_end range <=? synced_commit_index s then process_fetched fuel s e
            else
              '(e, reply) ← send_certified_commits e commits;
              match reply with
              | Ok missing =>
                  _ ← foldM (λ _ r, _ ← Committee_authority c (br_author r); Ret tt) tt (set_iter BlockRef_leb missing);
                  process_fetched fuel
                    (s <| synced_commit_index := N.max (synced_commit_index s) (CommitRange_end range) |>) e
              | Err _ => Ret (s, e)
              end
          else Ret (s, e)
      end
  end.

Definition handle_fetch_result (s : CommitSyncer) (e : E) (target_end : N) (commits : CertifiedCommits)
    : outcome (CommitSyncer * E) :=
  first ← expect (head (certified_commits commits));
  final ← expect (last (certified_commits commits));
  let commit_start := tc_index (cc_commit first) in
  let commit_end := tc_index (cc_commit final) in
  let s := s <| highest_fetched_commit_index := N.max (highest_fetched_commit_index s) commit_end |> in
  let s := if commit_end <? target_end
           then s <| pending_fetches :=
                       {[CommitRange_new (u32_add commit_end 1) target_end]} ∪ pending_fetches s |>
           else s in
  let s := s <| synced_commit_index := N.max (synced_commit_index s) (local_commit_index e) |> in
  let s := if synced_commit_index s <? commit_end
           then s <| fetched_ranges := <[CommitRange_new commit_start commit_end := commits]> (fetched_ranges s) |>
           else s in
  process_fetched (S (size (fetched_ranges s))) s e.
End Process.

(** What wakes up the scheduler: a tick, with the quorum commit index and the highest handled
    commit it reads, and the end of a fetch. *)
Inductive SyncerEvent :=
| Tick (quorum_commit_index highest_handled_index : N)
| Fetched (range : CommitRange) (commits : CertifiedCommits).

Definition remove_one (r : CommitRange) (l : list CommitRange) : list CommitRange :=
  match list_find (λ x, x = r) l with Some (i, _) => delete i l | None => l end.

(** An iteration of [schedule_loop]. *)
Definition schedule_step {E} `{CertifiedCommitSink E} (context : Context) (s : CommitSyncer) (e : E)
    (event : SyncerEvent) : outcome (CommitSyncer * E) :=
  '(s, e) ← (match event with
             | Tick quorum handled =>
                 s ← try_schedule_once (parameters context) s quorum (local_commit_index e) handled; Ret (s, e)
             | Fetched range commits =>
                 let s := s <| inflight_fetches := remove_one range (inflight_fetches s) |> in
                 handle_fetch_result (committee context) s e (CommitRange_end range) commits
             end);
  Ret (try_start_fetches context s, e).

Fixpoint schedule_loop {E} `{CertifiedCommitSink E} (context : Context) (s : CommitSyncer) (e : E)
    (events : list SyncerEvent) : outcome (CommitSyncer * E) :=
  match events with
  | [] => Ret (s, e)
  | event :: events => '(s, e) ← schedule_step context s e event; schedule_loop context s e events
  end.

(** * Fetching *)

Section Fetch.
Context `{Crypto} `{TransactionVerifier} `{Decoder}.

(** The loop over the commits, with those that passed so far. *)
Fixpoint verify_chain (peer : N) (commit_range : CommitRange) (commits : list (N * Commit))
    (serialized_commits : list (list Byte.byte)) : ConsensusResult (list (N * Commit)) :=
  match serialized_commits with
  | [] => Ok commits
  | serialized :: serialized_commits =>
      match decode_commit serialized with
      | None => Err MalformedCommit
      | Some commit =>
          let digest := hash serialized in
          let index := commit_index (commit_v1 commit) in
          let checked : ConsensusResult unit :=
            match last commits with
            | None => if index =? CommitRange_start commit_range then Ok tt
                      else Err (UnexpectedStartCommit peer (CommitRange_start commit_range))
            | Some (last_commit_digest, last_commit) =>
                if negb (index =? u32_add (commit_index (commit_v1 last_commit)) 1)
                   || negb (commit_previous_digest (commit_v1 commit) =? last_commit_digest)
                then Err (UnexpectedCommitSequence peer) else Ok tt
            end in
          match checked with
          | Err e => Err e
          | Ok _ => if CommitRange_end commit_range <? index then Ok commits
                    else verify_chain peer commit_range (commits ++ [(digest, commit)]) serialized_commits
          end
      end
  end.

Definition count_votes (c : Committee) (end_commit_ref : CommitRef) (agg : StakeAggregator)
    (block : VerifiedBlock) : outcome StakeAggregator :=
  foldM (λ agg vote, if bool_decide (vote = end_commit_ref)
                     then '(agg, _) ← agg_add QuorumThreshold agg (vb_author block) c; Ret agg else Ret agg)
    agg (vb_commit_votes block).

(** The loop over the blocks that vote; the certifier keeps what it has counted on errors. *)
Fixpoint verify_vote_blocks (v : SignedBlockVerifier) (end_commit_ref : CommitRef) (t : TransactionCertifier)
    (agg : StakeAggregator) (vote_blocks : list VerifiedBlock) (serialized_vote_blocks : list (list Byte.byte))
    : outcome (TransactionCertifier * ConsensusResult (StakeAggregator * list VerifiedBlock)) :=
  match serialized_vote_blocks with
  | [] => Ret (t, Ok (agg, vote_blocks))
  | serialized :: serialized_vote_blocks =>
      match decode_signed_block serialized with
      | None => Ret (t, Err MalformedBlock)
      | Some signed_block =>
          verified ← verify_and_vote v signed_block serialized;
          match verified with
          | Err e => Ret (t, Err e)
          | Ok (block, reject_transaction_votes) =>
              t ← (if mysticeti_fastpath (protocol_config (bv_context v))
                   then certifier_add_voted_blocks t [(block, reject_transaction_votes)] else Ret t);
              agg ← count_votes (committee (bv_context v)) end_commit_ref agg block;
              verify_vote_blocks v end_commit_ref t agg (vote_blocks ++ [block]) serialized_vote_blocks
          end
      end
  end.

Definition verify_commits (v : SignedBlockVerifier) (t : TransactionCertifier) (peer : N)
    (commit_range : CommitRange) (serialized_commits serialized_vote_blocks : list (list Byte.byte))
    : outcome (TransactionCertifier * ConsensusResult (list TrustedCommit * list VerifiedBlock)) :=
  let c := committee (bv_context v) in
  match verify_chain peer commit_range [] serialized_commits with
  | Err e => Ret (t, Err e)
  | Ok commits =>
      match last commits with
      | None => Ret (t, Err (NoCommitReceived peer))
      | Some (end_commit_digest, end_commit) =>
          let end_commit_ref := mkCommitRef (commit_index (commit_v1 end_commit)) end_commit_digest in
          '(t, votes) ← verify_vote_blocks v end_commit_ref t StakeAggregator_new [] serialized_vote_blocks;
          match votes with
          | Err e => Ret (t, Err e)
          | Ok (agg, vote_blocks) =>
              if reached_threshold QuorumThreshold agg c
              then Ret (t, Ok (zip_with (λ c s, new_trusted c.2 s) commits serialized_commits, vote_blocks))
              else Ret (t, Err (NotEnoughCommitVotes (agg_stake agg) peer))
          end
      end
  end.

(** [slice::chunks]; the length is enough fuel. *)
Fixpoint chunks_of {A} (fuel : nat) (n : nat) (l : list A) : list (list A) :=
  match fuel, l with
  | O, _ | _, [] => []
  | S fuel, _ => take n l :: chunks_of fuel n (drop n l)
  end.
Definition chunks {A} (n : N) (l : list A) : outcome (list (list A)) :=
  _ ← assert_that (0 <? n); Ret (chunks_of (length l) (N.to_nat n) l).

(** The blocks of a response against the references that were requested. *)
Fixpoint match_blocks (peer : N) (requested : list BlockRef) (signed_blocks : list SignedBlock)
    (serialized_blocks : list (list Byte.byte)) : ConsensusResult (list VerifiedBlock) :=
  match requested, signed_blocks, serialized_blocks with
  | requested_block_ref :: requested, signed_block :: signed_blocks, serialized :: serialized_blocks =>
      let received_block_ref :=
        mkBlockRef (block_round (sb_inner signed_block)) (block_author (sb_inner signed_block)) (compute_digest serialized) in
      if negb (bool_decide (requested_block_ref = received_block_ref))
      then Err (UnexpectedBlockForCommit peer requested_block_ref received_block_ref)
      else match match_blocks peer requested signed_blocks serialized_blocks with
           | Ok blocks => Ok (new_verified signed_block serialized :: blocks)
           | Err e => Err e
           end
  | _, _, _ => Ok []
  end.

Fixpoint decode_blocks (serialized_blocks : list (list Byte.byte)) : ConsensusResult (list SignedBlock) :=
  match serialized_blocks with
  | [] => Ok []
  | serialized :: serialized_blocks =>
      match decode_signed_block serialized with
      | None => Err MalformedBlock
      | Some b => match decode_blocks serialized_blocks with Ok bs => Ok (b :: bs) | Err e => Err e end
      end
  end.

(** One request for blocks, answered by [fetch_blocks] of the peer. *)
Definition fetch_chunk (peer : N) (fetch_blocks : list BlockRef → ConsensusResult (list (list Byte.byte)))
    (request_block_refs : list BlockRef) : ConsensusResult (list VerifiedBlock) :=
  match fetch_blocks request_block_refs with
  | Err e => Err e
  | Ok serialized_blocks =>
      if negb (length request_block_refs =? length serialized_blocks)%nat
      then Err (UnexpectedNumberOfBlocksFetched peer (N.of_nat (length request_block_refs)) (N.of_nat (length serialized_blocks)))
      else match decode_blocks serialized_blocks with
           | Err e => Err e
           | Ok signed_blocks => match_blocks peer request_block_refs signed_blocks serialized_blocks
           end
  end.

(** The results of the requests in order, up to the first error. *)
Fixpoint collect_blocks (peer : N) (fetch_blocks : list BlockRef → ConsensusResult (list (list Byte.byte)))
    (fetched_blocks : gmap BlockRef VerifiedBlock) (requests : list (list BlockRef))
    : ConsensusResult (gmap BlockRef VerifiedBlock) :=
  match requests with
  | [] => Ok fetched_blocks
  | request :: requests =>
      match fetch_chunk peer fetch_blocks request with
      | Err e => Err e
      | Ok blocks => collect_blocks peer fetch_blocks (foldl (λ m b, <[reference b := b]> m) fetched_blocks blocks) requests
      end
  end.

(** The blocks of one commit leave the map. *)
Definition assign_block (st : gmap BlockRef VerifiedBlock * list VerifiedBlock) (r : BlockRef)
    : outcome (gmap BlockRef VerifiedBlock * list VerifiedBlock) :=
  b ← expect (st.1 !! r); Ret (delete r st.1, st.2 ++ [b]).
Definition assign_commit (st : gmap BlockRef VerifiedBlock * list CertifiedCommit) (commit : TrustedCommit)
    : outcome (gmap BlockRef VerifiedBlock * list CertifiedCommit) :=
  '(m, blocks) ← foldM assign_block (st.1, []) (tc_blocks commit);
  Ret (m, st.2 ++ [mkCertifiedCommit commit blocks]).

(** The answers of a peer: to the request for commits, and to those for blocks. *)
Record PeerAnswers := mkPeerAnswers {
  answer_commits : CommitRange → ConsensusResult (list (list Byte.byte) * list (list Byte.byte));
  answer_blocks : list BlockRef → ConsensusResult (list (list Byte.byte));
}.

Definition fetch_once (v : SignedBlockVerifier) (t : TransactionCertifier) (target_authority : N)
    (answers : PeerAnswers) (commit_range : CommitRange)
    : outcome (TransactionCertifier * ConsensusResult CertifiedCommits) :=
  let context := bv_context v in
  match answer_commits answers commit_range with
  | Err e => Ret (t, Err e)
  | Ok (serialized_commits, serialized_blocks) =>
      '(t, verified) ← verify_commits v t target_authority commit_range serialized_commits serialized_blocks;
      match verified with
      | Err e => Ret (t, Err e)
      | Ok (commits, vote_blocks) =>
          let block_refs := isort BlockRef_leb (commits ≫= tc_blocks) in
          requests ← chunks (max_blocks_per_fetch (parameters context)) block_refs;
          match collect_blocks target_authority (answer_blocks answers) ∅ requests with
          | Err e => Ret (t, Err e)
          | Ok fetched_blocks =>
              '(_, certified_commits) ← foldM assign_commit (fetched_blocks, []) commits;
              t ← (if mysticeti_fastpath (protocol_config context)
                   then foldM (λ t b, certifier_add_voted_blocks t [(b, [])]) t (certified_commits ≫= cc_blocks)
                   else Ret t);
              Ret (t, Ok (mkCertifiedCommits certified_commits vote_blocks))
          end
      end
  end.

Definition MAX_NUM_TARGETS : nat := 24.

(** The peers to ask, in the order of [shuffle]. *)
Definition fetch_targets (context : Context) (shuffle : list N → list N) : list N :=
  take MAX_NUM_TARGETS (shuffle (filter (λ i, i ≠ own_index context) (Committee_enumerate (committee context)).*1)).

(** The attempts of [fetch_loop] until one succeeds; [None] is a peer that sends no commits in
    time. An attempt that times out later ends as one whose request for blocks fails. *)
Fixpoint fetch_loop (v : SignedBlockVerifier) (t : TransactionCertifier) (commit_range : CommitRange)
    (attempts : list (N * option PeerAnswers)) : outcome (TransactionCertifier * option (N * CertifiedCommits)) :=
  match attempts with
  | [] => Ret (t, None)
  | (authority, None) :: attempts =>
      _ ← Committee_authority (committee (bv_context v)) authority; fetch_loop v t commit_range attempts
  | (authority, Some answers) :: attempts =>
      '(t, result) ← fetch_once v t authority answers commit_range;
      match result with
      | Ok commits => Ret (t, Some (CommitRange_end commit_range, commits))
      | Err _ => _ ← Committee_authority (committee (bv_context v)) authority; fetch_loop v t commit_range attempts
      end
  end.
End Fetch.

(** * What the schedule keeps *)

(** Commits with consecutive indices from [start]. *)
Definition numbered (start : N) (commits : list CertifiedCommit) : Prop :=
  ∀ i cc, commits !! i = Some cc → tc_index (cc_commit cc) = start + N.of_nat i.

(** What the core promises to the syncer. It takes commits that are certified and leave no gap
    after its own, and replies once it has committed them; an error means that it has closed. *)
Class SinkSpec (E : Type) `{CertifiedCommitSink E} (c : Committee) := {
  sink_ok : E → Prop;
  sink_certified : E → CertifiedCommits → Prop;
  sink_closed : E → Prop;
  sink_evolves : relation E;
  sink_evolves_order :: PreOrder sink_evolves;
  sink_grows : ∀ e e', sink_evolves e e' → sink_ok e →
    sink_ok e' ∧ local_commit_index e ≤ local_commit_index e' ∧ (sink_closed e → sink_closed e') ∧
    ∀ cs, sink_certified e cs → sink_certified e' cs;
  sink_bounded : ∀ e, sink_ok e → local_commit_index e < u32_max;
  sink_send : ∀ e cs start cc, sink_ok e → sink_certified e cs → numbered start (certified_commits cs) →
    last (certified_commits cs) = Some cc → start ≤ local_commit_index e + 1 →
    ∃ e' reply, send_certified_commits e cs = Ret (e', reply) ∧ sink_evolves e e' ∧
      match reply with
      | Ok missing => tc_index (cc_commit cc) ≤ local_commit_index e' ∧
          ∀ r, r ∈ missing → is_valid_index c (br_author r) = true
      | Err _ => sink_closed e'
      end;
}.

Definition index_in_range (i : N) (r : CommitRange) : Prop := CommitRange_start r ≤ i ∧ i ≤ CommitRange_end r.

(** A range that the syncer still works on. *)
Definition held (s : CommitSyncer) (r : CommitRange) : Prop :=
  r ∈ inflight_fetches s ∨ r ∈ pending_fetches s ∨ is_Some (fetched_ranges s !! r).

Definition scheduled (s : CommitSyncer) : N := default 0 (highest_scheduled_index s).

(** Ranges are not empty and below what was scheduled, and while the core is [live] every commit
    up to [top] that is not synced is in one of them. *)
Record tracks (live : Prop) (s : CommitSyncer) (top : N) : Prop := {
  tr_ranges : ∀ r, held s r → 0 < range_lo r ∧ range_lo r < range_hi r ∧ CommitRange_end r ≤ scheduled s;
  tr_top : scheduled s ≤ top;
  tr_bound : scheduled s < u32_max;
  tr_cover : live → ∀ i, synced_commit_index s < i → i ≤ top → ∃ r, held s r ∧ index_in_range i r;
}.

(** A batch with the commits of its range. *)
Definition fills (r : CommitRange) (cs : CertifiedCommits) : Prop :=
  numbered (CommitRange_start r) (certified_commits cs) ∧
  ∃ cc, last (certified_commits cs) = Some cc ∧ tc_index (cc_commit cc) = CommitRange_end r.

Lemma CommitRange_new_start a b : CommitRange_start (CommitRange_new a b) = a.
Proof. done. Qed.

Lemma CommitRange_new_end a b : b < u32_max → CommitRange_end (CommitRange_new a b) = b.
Proof. unfold CommitRange_end, CommitRange_new, u32_saturating_add, saturating_sub. cbn. lia. Qed.

Lemma CommitRange_leb_iff a b :
  CommitRange_leb a b = true ↔ CommitRange_start a < CommitRange_start b ∨
    CommitRange_start a = CommitRange_start b ∧ CommitRange_end a ≤ CommitRange_end b.
Proof.
  unfold CommitRange_leb, CommitRange_cmp.
  destruct (N.compare_spec (CommitRange_start a) (CommitRange_start b)); [|split; [lia|done]|split; [done|lia]].
  destruct (N.compare_spec (CommitRange_end a) (CommitRange_end b)); split; try done; lia.
Qed.

(** The first of the fetched ranges starts lowest. *)
Lemma first_fetched (m : gmap CommitRange CertifiedCommits) r cs l :
  map_iter CommitRange_leb m = (r, cs) :: l →
  m !! r = Some cs ∧ ∀ r', is_Some (m !! r') → CommitRange_start r ≤ CommitRange_start r'.
Proof.
  intros Hit. split; [apply (elem_of_map_iter CommitRange_leb); rewrite Hit; left|]. intros r' [cs' Hr'].
  assert (StronglySorted (λ a b, CommitRange_leb a.1 b.1) (map_iter CommitRange_leb m)) as Hs.
  { apply isort_sorted; [intros x y|intros x y z]; rewrite !CommitRange_leb_iff; lia. }
  apply (elem_of_map_iter CommitRange_leb) in Hr'. rewrite Hit in Hr', Hs.
  apply elem_of_cons in Hr' as [[= <- <-]|Hr']; [done|]. apply StronglySorted_inv in Hs as [_ Hs].
  rewrite Forall_forall in Hs. specialize (Hs _ Hr'). apply Is_true_true, CommitRange_leb_iff in Hs. cbn in Hs. lia.
Qed.

Lemma map_iter_nil (m : gmap CommitRange CertifiedCommits) : map_iter CommitRange_leb m = [] → m = ∅.
Proof.
  intros Hit. apply map_eq. intros r. rewrite lookup_empty. destruct (m !! r) as [cs|] eqn:Hr; [|done].
  apply (elem_of_map_iter CommitRange_leb) in Hr. rewrite Hit in Hr. by apply elem_of_nil in Hr.
Qed.

Lemma hostnames_known c refs :
  (∀ r, r ∈ refs → is_valid_index c (br_author r) = true) →
  foldM (λ _ r, _ ← Committee_authority c (br_author r); Ret tt) tt refs = Ret tt.
Proof.
  induction refs as [|r refs IH]; intros Hv; [done|]. cbn [foldM].
  destruct (valid_authority c (br_author r)) as [a ->]; [apply Hv; left|]. apply IH. intros x Hx. apply Hv. by right.
Qed.

(** ** Scheduling *)

Lemma schedule_range_tracks live p quorum handled s prev_end :
  tracks live s prev_end → 0 < commit_sync_batch_size p → prev_end + commit_sync_batch_size p < u32_max →
  match schedule_range p quorum handled s prev_end with
  | inl s' => tracks live s' (prev_end + commit_sync_batch_size p) ∧ s' = s <| pending_fetches := pending_fetches s' |>
      <| highest_scheduled_index := highest_scheduled_index s' |> ∧ pending_fetches s ⊆ pending_fetches s'
  | inr s' => s' = s
  end.
Proof.
  intros [Hr Ht Hb Hc] Hsz Hmax. unfold schedule_range. unfold u32_max in Hmax.
  rewrite !(u32_add_small prev_end) by lia. set (e := prev_end + commit_sync_batch_size p) in *.
  destruct (quorum <? e); [done|]. destruct (_ <? e); [done|]. split; [|by split; [destruct s|set_solver]].
  assert (CommitRange_end (CommitRange_new (prev_end + 1) e) = e) as Hend by (apply CommitRange_new_end; unfold u32_max; lia).
  split; unfold scheduled in *; cbn.
  - intros r [Hi|[[->%elem_of_singleton|Hp]%elem_of_union|Hf]].
    + destruct (Hr r) as (? & ? & ?); [by left|]. lia.
    + rewrite Hend. unfold CommitRange_end, saturating_sub in Hend. cbn in *. lia.
    + destruct (Hr r) as (? & ? & ?); [by right; left|]. lia.
    + destruct (Hr r) as (? & ? & ?); [by right; right|]. lia.
  - done.
  - unfold u32_max. lia.
  - intros Hlive i Hi Hie. destruct (N.le_gt_cases i prev_end) as [Hle|Hgt].
    + destruct (Hc Hlive i Hi Hle) as (r & Hh & Hin). exists r. split; [|done]. unfold held in *. cbn. set_solver.
    + exists (CommitRange_new (prev_end + 1) e). split; [right; left; cbn; set_solver|].
      split; [rewrite CommitRange_new_start; lia|by rewrite Hend].
Qed.

(** Up to what the loop extended the ranges; it changes nothing else. *)
Record extends (s s' : CommitSyncer) : Prop := {
  ex_eq : s' = s <| pending_fetches := pending_fetches s' |> <| highest_scheduled_index := highest_scheduled_index s' |>;
  ex_pending : pending_fetches s ⊆ pending_fetches s';
}.

Lemma extends_refl s : extends s s.
Proof. by split; [destruct s|]. Qed.

Lemma extends_trans s1 s2 s3 : extends s1 s2 → extends s2 s3 → extends s1 s3.
Proof. intros [E1 P1] [E2 P2]. split; [rewrite E2, E1; by destruct s3|set_solver]. Qed.

Lemma schedule_ranges_tracks live p quorum handled lo :
  0 < commit_sync_batch_size p → quorum + commit_sync_batch_size p < u32_max → lo ≤ quorum →
  ∀ m a s, tracks live s (lo + N.of_nat a * commit_sync_batch_size p) →
  (a + m ≤ S (N.to_nat ((quorum - lo) / commit_sync_batch_size p)))%nat →
  match for_loop (schedule_range p quorum handled) s ((λ k, lo + N.of_nat k * commit_sync_batch_size p) <$> seq a m) with
  | inl s' | inr s' => extends s s' ∧ ∃ top, tracks live s' top
  end.
Proof.
  intros Hsz Hq Hlo. induction m as [|m IH]; intros a s Hs Ham; cbn [seq fmap list_fmap for_loop].
  { split; [apply extends_refl|by eexists]. }
  assert (lo + N.of_nat a * commit_sync_batch_size p ≤ quorum) as Hle.
  { pose proof (N.Div0.mul_div_le (quorum - lo) (commit_sync_batch_size p)). nia. }
  pose proof (schedule_range_tracks live p quorum handled s _ Hs Hsz ltac:(lia)) as Hstep.
  destruct (schedule_range p quorum handled s _) as [s2|s2].
  - destruct Hstep as (H2 & He2 & Hsub2). specialize (IH (S a) s2).
    replace (lo + N.of_nat (S a) * commit_sync_batch_size p) with
      (lo + N.of_nat a * commit_sync_batch_size p + commit_sync_batch_size p) in IH by lia.
    specialize (IH H2 ltac:(lia)).
    assert (extends s s2) as H12 by by split.
    by destruct (for_loop _ s2 _); destruct IH as [? ?]; (split; [by eapply extends_trans|]).
  - subst s2. split; [apply extends_refl|by eexists].
Qed.

Lemma tracks_scheduled live s top : tracks live s top → tracks live s (scheduled s).
Proof. intros [Hr Ht Hb Hc]. split; try done. intros Hlive i Hi Hie. apply Hc; [done|lia..]. Qed.

Lemma try_schedule_once_spec live p s quorum local handled :
  tracks live s (scheduled s) → 0 < commit_sync_batch_size p → quorum + commit_sync_batch_size p < u32_max →
  ∃ s', try_schedule_once p s quorum local handled = Ret s' ∧ tracks live s' (scheduled s') ∧
    extends (s <| synced_commit_index := N.max (synced_commit_index s) local |>) s'.
Proof.
  intros Hs Hsz Hq. unfold try_schedule_once. set (s0 := s <| synced_commit_index := _ |>).
  set (lo := N.max (synced_commit_index s0) (default 0 (highest_scheduled_index s0))).
  assert (tracks live s0 lo) as Hs0.
  { destruct Hs as [Hr Ht Hb Hc]. split; try done; [unfold scheduled, lo; cbn; lia|].
    intros Hlive i Hi Hil. apply Hc; [done|..]; unfold lo, scheduled in *; cbn in *; lia. }
  rewrite (proj2 (N.ltb_lt 0 _) Hsz). cbn [assert_that mbind outcome_bind].
  unfold steps. destruct (N.ltb_spec quorum lo) as [Hlt|Hle].
  { exists s0. cbn. split; [done|]. split; [by eapply tracks_scheduled|apply extends_refl]. }
  pose proof (schedule_ranges_tracks live p quorum handled lo Hsz Hq Hle (S (N.to_nat ((quorum - lo) / commit_sync_batch_size p))) 0%nat s0) as Hl.
  rewrite N.mul_0_l, N.add_0_r in Hl. specialize (Hl Hs0 ltac:(lia)).
  by destruct (for_loop _ s0 _) as [s'|s']; destruct Hl as (He & top & Ht); exists s'; (split; [done|]); (split; [by eapply tracks_scheduled|]).
Qed.

(** ** Starting fetches *)

Record starts (s s' : CommitSyncer) : Prop := {
  st_eq : s' = s <| pending_fetches := pending_fetches s' |> <| inflight_fetches := inflight_fetches s' |>;
  st_held : ∀ r, held s' r ↔ held s r;
  st_idle : inflight_fetches s' = [] → s' = s;
}.

Lemma start_fetches_spec fuel target s : starts s (start_fetches fuel target s).
Proof.
  revert s. assert (∀ s, starts s s) as Hrefl by (intros s; by split; [destruct s| |]).
  induction fuel as [|fuel IH]; intros s; cbn [start_fetches]; [done|].
  destruct (_ <=? _); [done|]. unfold pop_first_pending.
  destruct (set_iter CommitRange_leb (pending_fetches s)) as [|r l] eqn:Hit; [done|].
  assert (r ∈ pending_fetches s) as Hr by (apply (elem_of_set_iter CommitRange_leb); rewrite Hit; left).
  set (s1 := set inflight_fetches _ _). destruct (IH s1) as [Heq Hh Hi]. split.
  - rewrite Heq. by destruct s, (start_fetches fuel target s1).
  - intros x. rewrite Hh. unfold held, s1. cbn. rewrite elem_of_app, list_elem_of_singleton, elem_of_difference, elem_of_singleton.
    destruct (decide (x = r)) as [-> |]; naive_solver.
  - intros Hn. pose proof (Hi Hn) as He. rewrite He in Hn. unfold s1 in Hn. cbn in Hn. by destruct (inflight_fetches s).
Qed.

(** ** Sending *)

Section Run.
Context {E : Type} (context : Context) `{Hsink : SinkSpec E (committee context)}.
Implicit Types e : E.
Let c := committee context.

Record sends_ok (s : CommitSyncer) e : Prop := {
  sd_tracks : tracks (¬ sink_closed e) s (scheduled s);
  sd_sink : sink_ok e;
  sd_synced : synced_commit_index s ≤ local_commit_index e;
  sd_filled : ∀ r cs, fetched_ranges s !! r = Some cs → fills r cs ∧ sink_certified e cs;
}.

(** With nothing left to fetch, nothing waits to be sent either, as long as the core runs. *)
Definition drained (s : CommitSyncer) e : Prop :=
  ¬ sink_closed e → inflight_fetches s = [] → pending_fetches s = ∅ → fetched_ranges s = ∅.

Lemma sends_ok_evolves s e e' : sends_ok s e → sink_evolves e e' → sends_ok s e'.
Proof.
  intros [Ht Hk Hs Hf] He. destruct (sink_grows e e' He Hk) as (Hk' & Hl & Hcl & Hc). split; try done; [|lia|].
  - destruct Ht as [? ? ? Hco]. split; try done. auto.
  - intros r cs [? ?]%Hf. auto.
Qed.

Lemma drained_evolves s e e' : drained s e → sink_ok e → sink_evolves e e' → drained s e'.
Proof. intros Hd Hk He Hcl. apply Hd. contradict Hcl. by apply (sink_grows e e' He Hk). Qed.

(** A range that was sent, or synced before, is not needed any more; a range that is dropped
    because the core has closed is not either. *)
Lemma sends_ok_pop s e r top :
  sends_ok s e → CommitRange_start r ≤ synced_commit_index s + 1 → sink_closed e ∨ CommitRange_end r ≤ top →
  synced_commit_index s ≤ top → top ≤ local_commit_index e →
  sends_ok (s <| fetched_ranges := delete r (fetched_ranges s) |> <| synced_commit_index := top |>) e.
Proof.
  intros [[Hr Ht Hb Hc] Hk Hs Hf] Hstart Hend Hsy Htop. split; try done.
  - split; try done; cbn.
    + intros x [Hx|[Hx|Hx]]; apply Hr; [by left|by right; left|right; right]. cbn in Hx.
      rewrite lookup_delete_is_Some in Hx. apply Hx.
    + intros Hlive i Hi Hie. destruct (Hc Hlive i) as (x & Hx & Hxi); [lia|done|]. exists x. split; [|done].
      destruct Hx as [Hx|[Hx|Hx]]; [by left|by right; left|right; right]. cbn. rewrite lookup_delete_is_Some. split; [|done].
      intros <-. destruct Hxi. destruct Hend; [done|lia].
  - cbn. intros x cs [_ Hx]%lookup_delete_Some. by apply Hf.
Qed.

Lemma process_fetched_spec fuel s e :
  sends_ok s e → (size (fetched_ranges s) < fuel)%nat →
  ∃ s' e', process_fetched c fuel s e = Ret (s', e') ∧ sends_ok s' e' ∧ sink_evolves e e' ∧
    s' = s <| fetched_ranges := fetched_ranges s' |> <| synced_commit_index := synced_commit_index s' |> ∧
    (sink_closed e' ∨ ∀ r, is_Some (fetched_ranges s' !! r) → synced_commit_index s' + 1 < CommitRange_start r).
Proof.
  revert s e. induction fuel as [|fuel IH]; intros s e Hok Hfuel; [lia|]. cbn [process_fetched].
  destruct (map_iter CommitRange_leb (fetched_ranges s)) as [|[r cs] l] eqn:Hit.
  { exists s, e. split; [done|]. split; [done|]. split; [done|]. split; [by destruct s|].
    right. intros r. rewrite (map_iter_nil _ Hit), lookup_empty. intros [? [=]]. }
  destruct (first_fetched _ _ _ _ Hit) as [Hr Hmin]. destruct (sd_filled _ _ Hok r cs Hr) as [[Hnum (cc & Hlast & Hcc)] Hcert].
  pose proof (sink_bounded e (sd_sink _ _ Hok)) as Hbound. pose proof (sd_synced _ _ Hok) as Hsy.
  rewrite u32_add_small by (unfold u32_max in Hbound; lia).
  destruct (N.leb_spec (CommitRange_start r) (synced_commit_index s + 1)) as [Hstart|Hgap].
  2: { exists s, e. split; [done|]. split; [done|]. split; [done|]. split; [by destruct s|].
       right. intros r' Hr'. specialize (Hmin r' Hr'). lia. }
  set (pop := s <| fetched_ranges := delete r (fetched_ranges s) |>). change (synced_commit_index pop) with (synced_commit_index s).
  assert (size (fetched_ranges pop) < fuel)%nat as Hfuel'.
  { change (fetched_ranges pop) with (delete r (fetched_ranges s)). rewrite map_size_delete_Some by by eexists.
    pose proof (map_size_ne_0_lookup_2 (fetched_ranges s) r ltac:(by eexists)). lia. }
  assert (pop = pop <| synced_commit_index := synced_commit_index s |>) as Hpop by by destruct s.
  destruct (N.leb_spec (CommitRange_end r) (synced_commit_index s)) as [Hdone|Hnew].
  - destruct (IH pop e) as (s' & e' & Hrun & Hok' & Hev & Heq & Hd); [|done|].
    { rewrite Hpop. apply sends_ok_pop; [done..|by right|done|done]. }
    exists s', e'. split; [done|]. split; [done|]. split; [done|]. split; [rewrite Heq; by destruct s'|done].
  - destruct (sink_send e cs (CommitRange_start r) cc (sd_sink _ _ Hok) Hcert Hnum Hlast) as (e1 & reply & -> & Hev1 & Hrep); [lia|].
    cbn [mbind outcome_bind]. pose proof (sends_ok_evolves s e e1 Hok Hev1) as Hok1. destruct reply as [missing|err].
    + destruct Hrep as [Hl Hval]. rewrite Hcc in Hl.
      assert (foldM (λ _ r, _ ← Committee_authority c (br_author r); Ret tt) tt (set_iter BlockRef_leb missing) = Ret tt) as ->.
      { apply hostnames_known. intros x Hx%elem_of_set_iter. by apply Hval. }
      cbn [mbind outcome_bind]. destruct (IH (pop <| synced_commit_index := N.max (synced_commit_index s) (CommitRange_end r) |>) e1)
        as (s' & e' & Hrun & Hok' & Hev & Heq & Hd); [|done|].
      { pose proof (sd_synced _ _ Hok1). apply sends_ok_pop; [done|done|right; lia|lia|lia]. }
      exists s', e'. split; [done|]. split; [done|]. split; [by etrans|]. split; [rewrite Heq; by destruct s'|done].
    + exists pop, e1. split; [done|]. split; [|split; [done|split; [by destruct s|by left]]].
      rewrite Hpop. apply sends_ok_pop; [done..|by left|done|apply Hok1].
Qed.

(** ** The results of fetches *)

Lemma remove_one_elem r x l : x ∈ l → x = r ∨ x ∈ remove_one r l.
Proof.
  intros Hx. unfold remove_one. destruct (list_find (λ y, y = r) l) as [[i y]|] eqn:Hf; [|by right].
  apply list_find_Some in Hf as (Hi & -> & _). rewrite (delete_Permutation _ _ _ Hi) in Hx. by apply elem_of_cons in Hx.
Qed.

Lemma remove_one_sub r x l : x ∈ remove_one r l → x ∈ l.
Proof.
  unfold remove_one. destruct (list_find _ l) as [[i y]|]; [|done]. intros Hx. eapply elem_of_sublist, sublist_delete. done.
Qed.

Definition syncer_event_ok (s : CommitSyncer) e (event : SyncerEvent) : Prop :=
  match event with
  | Tick quorum _ => quorum + commit_sync_batch_size (parameters context) < u32_max
  | Fetched r cs => r ∈ inflight_fetches s ∧ sink_certified e cs ∧ numbered (CommitRange_start r) (certified_commits cs) ∧
      ∃ cc, last (certified_commits cs) = Some cc ∧ tc_index (cc_commit cc) ≤ CommitRange_end r
  end.

(** What was fetched of a range takes its place, and what is missing of it is fetched later. *)
Lemma sends_ok_fetched s e r cs cc pending fetched :
  sends_ok s e → syncer_event_ok s e (Fetched r cs) → last (certified_commits cs) = Some cc →
  let cend := tc_index (cc_commit cc) in
  let synced := N.max (synced_commit_index s) (local_commit_index e) in
  pending = (if cend <? CommitRange_end r then {[CommitRange_new (cend + 1) (CommitRange_end r)]} ∪ pending_fetches s
             else pending_fetches s) →
  fetched = (if synced <? cend then <[CommitRange_new (CommitRange_start r) cend := cs]> (fetched_ranges s)
             else fetched_ranges s) →
  sends_ok (mkCommitSyncer (remove_one r (inflight_fetches s)) pending fetched (highest_scheduled_index s)
              (N.max (highest_fetched_commit_index s) cend) synced) e.
Proof.
  intros [[Hr Ht Hb Hc] Hk Hs Hf] (Hin & Hcert & Hnum & x & Hx & Hle) Hlast cend synced -> ->.
  rewrite Hlast in Hx. injection Hx as <-. destruct (Hr r (or_introl Hin)) as (H0 & Hlt & Hend).
  assert (CommitRange_start r ≤ cend) as Hge.
  { rewrite last_lookup in Hlast. apply Hnum in Hlast. lia. }
  assert (cend < u32_max ∧ CommitRange_end r < u32_max) as [Hb1 Hb2] by (unfold cend, scheduled in *; lia).
  pose proof (CommitRange_new_end (CommitRange_start r) cend Hb1) as He1.
  pose proof (CommitRange_new_end (cend + 1) (CommitRange_end r) Hb2) as He2.
  assert (∀ a b, a ≤ b → b < u32_max → a < range_hi (CommitRange_new a b)) as Hhi.
  { intros a b. unfold CommitRange_new, u32_saturating_add. cbn. lia. }
  split; try done; cbn; [|lia|].
  - split; try done; cbn.
    + intros y [Hy%remove_one_sub|[Hy|Hy]]; cbn in Hy.
      * apply Hr. by left.
      * destruct (N.ltb_spec cend (CommitRange_end r)); [apply elem_of_union in Hy as [->%elem_of_singleton|Hy]|].
        -- rewrite He2. cbn [range_lo CommitRange_new]. split; [lia|]. split; [apply Hhi; lia|done].
        -- apply Hr. by right; left.
        -- apply Hr. by right; left.
      * destruct (N.ltb_spec synced cend) as [Hsc|Hsc]; [|apply Hr; by right; right].
        apply lookup_insert_is_Some in Hy as [<-|[_ Hy]]; [|apply Hr; by right; right].
        rewrite He1. cbn [range_lo CommitRange_new]. split; [done|]. split; [by apply Hhi|]. change (cend ≤ scheduled s). unfold cend. lia.
    + intros Hlive i Hi Hie. destruct (Hc Hlive i) as (y & Hy & Hyi); [lia|done|].
      destruct (decide (y = r)) as [-> |Hne].
      * destruct Hyi as [Hyi1 Hyi2]. destruct (N.le_gt_cases i cend) as [Hic|Hic].
        -- exists (CommitRange_new (CommitRange_start r) cend). split; [|split; [done|by rewrite He1]]. right; right. cbn.
           rewrite (proj2 (N.ltb_lt synced cend)) by lia. by rewrite lookup_insert_eq.
        -- exists (CommitRange_new (cend + 1) (CommitRange_end r)). split; [|split; [rewrite CommitRange_new_start; lia|by rewrite He2]].
           right; left. cbn. rewrite (proj2 (N.ltb_lt cend _)) by lia. set_solver.
      * exists y. split; [|done]. destruct Hy as [Hy|[Hy|Hy]]; [left|right; left|right; right]; cbn.
        -- by destruct (remove_one_elem r y _ Hy).
        -- destruct (_ <? _); set_solver.
        -- destruct (_ <? _); [|done]. rewrite lookup_insert_is_Some'. by right.
  - intros y cs' Hy. destruct (_ <? _); [|by apply Hf]. apply lookup_insert_Some in Hy as [[<- <-]|[_ Hy]]; [|by apply Hf].
    split; [|done]. split; [done|]. exists cc. by rewrite He1.
Qed.

(** Without a gap before what was fetched, everything was sent unless something is left to fetch. *)
Lemma drained_after s e :
  sends_ok s e → sink_closed e ∨ (∀ r, is_Some (fetched_ranges s !! r) → synced_commit_index s + 1 < CommitRange_start r) →
  drained s e.
Proof.
  intros [[Hr Ht Hb Hc] _ _ _] [Hcl|Hgap] Hlive Hi Hp; [done|]. apply map_empty. intros r.
  destruct (fetched_ranges s !! r) as [cs|] eqn:Hrcs; [exfalso|done].
  assert (is_Some (fetched_ranges s !! r)) as Hsome by by eexists. pose proof (Hgap r Hsome) as Hg.
  destruct (Hr r (or_intror (or_intror Hsome))) as (? & ? & Hend). unfold CommitRange_start, CommitRange_end, saturating_sub in Hg, Hend.
  destruct (Hc Hlive (synced_commit_index s + 1)) as (x & Hx & Hx1 & _); [lia|lia|].
  destruct Hx as [Hx|[Hx|Hx]]; [rewrite Hi in Hx; by apply elem_of_nil in Hx|set_solver|]. specialize (Hgap x Hx). lia.
Qed.

Lemma handle_fetch_result_spec s e r cs :
  sends_ok s e → syncer_event_ok s e (Fetched r cs) →
  ∃ s' e', handle_fetch_result c (s <| inflight_fetches := remove_one r (inflight_fetches s) |>) e (CommitRange_end r) cs = Ret (s', e') ∧
    sends_ok s' e' ∧ drained s' e' ∧ sink_evolves e e'.
Proof.
  intros Hok Hev. pose proof Hev as (Hin & Hcert & Hnum & cc & Hlast & Hle).
  destruct (head (certified_commits cs)) as [first|] eqn:Hhead.
  2: { by destruct (certified_commits cs). }
  unfold handle_fetch_result. rewrite Hhead, Hlast. cbn [expect mbind outcome_bind].
  assert (tc_index (cc_commit first) = CommitRange_start r) as ->.
  { rewrite head_lookup in Hhead. apply Hnum in Hhead. lia. }
  match goal with |- context [process_fetched c _ ?s3 e] => set (s4 := s3) end.
  assert (sends_ok s4 e) as Hok4.
  { pose proof (sends_ok_fetched s e r cs cc _ _ Hok Hev Hlast eq_refl eq_refl) as H4.
    unfold s4.
    rewrite u32_add_small by (pose proof (sd_tracks _ _ Hok) as [Hr _ Hb _]; destruct (Hr r (or_introl Hin)) as (_ & _ & ?);
      unfold u32_max in Hb; lia).
    cbv zeta in H4. destruct (tc_index (cc_commit cc) <? CommitRange_end r);
      cbn [synced_commit_index fetched_ranges pending_fetches]; destruct (_ <? tc_index (cc_commit cc)); exact H4. }
  destruct (process_fetched_spec (S (size (fetched_ranges s4))) s4 e Hok4 ltac:(lia)) as (s' & e' & Hrun & Hok' & He & _ & Hd).
  exists s', e'. split; [done|]. split; [done|]. split; [by apply drained_after|done].
Qed.

(** ** The whole schedule *)

Record syncer_ok (s : CommitSyncer) e : Prop := {
  sy_sends : sends_ok s e;
  sy_drained : drained s e;
}.

Lemma syncer_ok_starts s s' e : syncer_ok s e → starts s s' → syncer_ok s' e.
Proof.
  intros [[[Hr Ht Hb Hc] Hk Hs Hf] Hd] [Heq Hh Hi].
  assert (highest_scheduled_index s' = highest_scheduled_index s ∧ synced_commit_index s' = synced_commit_index s ∧
    fetched_ranges s' = fetched_ranges s) as (E1 & E2 & E3) by by rewrite Heq.
  split; [split|]; [split|..]; unfold scheduled; rewrite ?E1, ?E2, ?E3; try done.
  - intros r Hr'%Hh. by apply Hr.
  - intros Hlive i H1 H2. destruct (Hc Hlive i H1 H2) as (r & Hr' & ?). exists r. by rewrite Hh.
  - intros Hlive H1 H2. pose proof (Hi H1) as ->. by apply Hd.
Qed.

Lemma schedule_step_spec s e event :
  0 < commit_sync_batch_size (parameters context) → syncer_ok s e → syncer_event_ok s e event →
  ∃ s' e', schedule_step context s e event = Ret (s', e') ∧ syncer_ok s' e' ∧ sink_evolves e e'.
Proof.
  intros Hsz [Hok Hd] Hev. unfold schedule_step. destruct event as [quorum handled|r cs].
  - destruct Hok as [Ht Hk Hs Hf].
    destruct (try_schedule_once_spec _ (parameters context) s quorum (local_commit_index e) handled Ht Hsz Hev) as (s1 & -> & Ht1 & [Heq Hsub]).
    cbn [mbind outcome_bind]. eexists _, e. split; [done|]. split; [|done].
    assert (synced_commit_index s1 = N.max (synced_commit_index s) (local_commit_index e) ∧ fetched_ranges s1 = fetched_ranges s ∧
      inflight_fetches s1 = inflight_fetches s) as (E1 & E2 & E3) by by rewrite Heq.
    eapply syncer_ok_starts; [|apply start_fetches_spec]. split; [split; rewrite ?E1, ?E2; try done; lia|].
    intros Hlive H1 H2. rewrite E2. rewrite E3 in H1. apply Hd; [done..|]. cbn in Hsub. set_solver.
  - destruct (handle_fetch_result_spec s e r cs Hok Hev) as (s1 & e1 & Hrun & Hok1 & Hd1 & He). fold c. rewrite Hrun. cbn [mbind outcome_bind].
    eexists _, e1. split; [done|]. split; [|done]. eapply syncer_ok_starts; [by split|apply start_fetches_spec].
Qed.

Lemma syncer_ok_evolves s e e' : syncer_ok s e → sink_evolves e e' → syncer_ok s e'.
Proof. intros [Hok Hd] He. split; [by eapply sends_ok_evolves|]. eapply drained_evolves; [done|apply Hok|done]. Qed.

Lemma syncer_ok_new e : sink_ok e → syncer_ok (CommitSyncer_new (local_commit_index e)) e.
Proof.
  intros Hk. split; [split|]; try done. split; unfold scheduled; cbn; try done; [|lia].
  intros r [Hr|[Hr|Hr]]; cbn in Hr; [by apply elem_of_nil in Hr|set_solver|]. rewrite lookup_empty in Hr. by destruct Hr.
Qed.

(** The states of a run: the scheduler handles an event, or the core goes on by itself. *)
Inductive syncer_run e0 : CommitSyncer → E → Prop :=
| run_new : syncer_run e0 (CommitSyncer_new (local_commit_index e0)) e0
| run_event s e event s' e' :
    syncer_run e0 s e → syncer_event_ok s e event → schedule_step context s e event = Ret (s', e') → syncer_run e0 s' e'
| run_core s e e' : syncer_run e0 s e → sink_evolves e e' → syncer_run e0 s e'.

Lemma syncer_run_ok e0 s e :
  0 < commit_sync_batch_size (parameters context) → sink_ok e0 → syncer_run e0 s e → syncer_ok s e.
Proof.
  intros Hsz H0. induction 1 as [|s e event s' e' _ IH Hev Hrun|s e e' _ IH He].
  - by apply syncer_ok_new.
  - destruct (schedule_step_spec s e event Hsz IH Hev) as (s1 & e1 & Hrun1 & Hok & _). rewrite Hrun in Hrun1. by injection Hrun1 as <- <-.
  - by eapply syncer_ok_evolves.
Qed.

(** C17. The commit syncer loses no commit: in every state of a run with a core that keeps its
    promise, every scheduled commit above the synced index is in a range that is pending, in
    flight or fetched; once nothing is pending or in flight, the core has committed all that was
    scheduled; and the next event is handled without a panic, although the core may panic on a
    batch that leaves a gap after its commits. *)
Theorem commit_syncer_loses_nothing e0 s e :
  0 < commit_sync_batch_size (parameters context) → sink_ok e0 → syncer_run e0 s e → ¬ sink_closed e →
  (∀ i, synced_commit_index s < i → i ≤ scheduled s → ∃ r, held s r ∧ index_in_range i r) ∧
  (inflight_fetches s = [] → pending_fetches s = ∅ → scheduled s ≤ local_commit_index e) ∧
  ∀ event, syncer_event_ok s e event → ∃ s' e', schedule_step context s e event = Ret (s', e').
Proof.
  intros Hsz H0 Hrun Hlive. pose proof (syncer_run_ok e0 s e Hsz H0 Hrun) as Hok. pose proof Hok as [[[Hr Ht Hb Hc] Hk Hs Hf] Hd].
  split; [by apply Hc|]. split.
  - intros Hi Hp. destruct (N.le_gt_cases (scheduled s) (synced_commit_index s)) as [|Hlt]; [lia|exfalso].
    destruct (Hc Hlive (scheduled s)) as (r & [Hr'|[Hr'|Hr']] & _); [done|done|..].
    + rewrite Hi in Hr'. by apply elem_of_nil in Hr'.
    + set_solver.
    + rewrite (Hd Hlive Hi Hp), lookup_empty in Hr'. by destruct Hr'.
  - intros event Hev. destruct (schedule_step_spec s e event Hsz Hok Hev) as (s' & e' & Hstep & _). by exists s', e'.
Qed.
End Run.

(** A core that only counts its commits, and stops at a gap. *)
Section Counting.
#[local] Instance counting_sink : CertifiedCommitSink N := {
  local_commit_index := λ e, e;
  send_certified_commits := λ e cs,
    match head (certified_commits cs), last (certified_commits cs) with
    | Some first, Some final =>
        if e + 1 <? tc_index (cc_commit first) then Panic else Ret (N.max e (tc_index (cc_commit final)), Ok ∅)
    | _, _ => Panic
    end;
}.

#[local] Program Instance counting_spec c : SinkSpec N c := {
  sink_ok := λ e, e < 1000;
  sink_certified := λ _ cs, ∀ cc, cc ∈ certified_commits cs → tc_index (cc_commit cc) < 1000;
  sink_closed := λ _, False;
  sink_evolves := λ e e', e ≤ e' ∧ (e < 1000 → e' < 1000);
}.
Next Obligation. intros c. split; [intros e|intros e1 e2 e3]; naive_solver lia. Qed.
Next Obligation. cbn. naive_solver. Qed.
Next Obligation. cbn. unfold u32_max. lia. Qed.
Next Obligation.
  cbn. intros c e cs start cc He Hcert Hnum Hlast Hle.
  destruct (head (certified_commits cs)) as [first|] eqn:Hhead; [|by destruct (certified_commits cs)].
  rewrite head_lookup in Hhead. pose proof (Hnum _ _ Hhead). rewrite Hlast, (proj2 (N.ltb_ge _ _)) by lia.
  eexists _, _. split; [done|]. assert (cc ∈ certified_commits cs) as Hcc%Hcert.
  { rewrite last_lookup in Hlast. by eapply list_elem_of_lookup_2. }
  split; [lia|]. split; [lia|set_solver].
Qed.

Definition small_batches : Context :=
  (sample_context 4 60) <| parameters := Parameters_default <| commit_sync_batch_size := 2 |> |>.
Definition commits_at (indices : list N) : CertifiedCommits :=
  mkCertifiedCommits ((λ i, mkCertifiedCommit (mkTrustedCommit (Commit_new i 0 0 (mkBlockRef 0 0 0) []) 0 []) []) <$> indices) [].

(** Two batches, of which the second arrives first, and partly. *)
Definition two_batches : list SyncerEvent :=
  [Tick 5 0; Fetched (CommitRange_new 3 4) (commits_at [3]); Fetched (CommitRange_new 1 2) (commits_at [1; 2]);
   Fetched (CommitRange_new 4 4) (commits_at [4])].

Lemma fetched_event_ok s e r indices :
  bool_decide (r ∈ inflight_fetches s) = true → Forall (λ i, i < 1000) indices →
  indices = (λ k, CommitRange_start r + N.of_nat k) <$> seq 0 (length indices) →
  match last indices with Some i => i <=? CommitRange_end r | None => false end = true →
  syncer_event_ok small_batches s e (Fetched r (commits_at indices)).
Proof.
  intros Hr%bool_decide_eq_true Hall Hnum Hlast. split; [done|]. unfold commits_at. cbn [certified_commits]. split; [|split].
  - intros cc (i & -> & Hi)%list_elem_of_fmap. rewrite Forall_forall in Hall. by apply Hall.
  - intros k cc Hk. rewrite Hnum, !list_lookup_fmap in Hk. destruct (seq 0 (length indices) !! k) as [j|] eqn:Hj; [|done].
    apply lookup_seq in Hj as [-> _]. by injection Hk as <-.
  - rewrite fmap_last. destruct (last indices) as [i|]; [|done]. eexists. split; [done|]. by apply N.leb_le in Hlast.
Qed.

Ltac next_event R ev :=
  match type of R with
  | syncer_run _ ?e0 ?s ?e =>
      let x := eval vm_compute in (schedule_step small_batches s e ev) in
      match x with
      | Ret (?s', ?e') =>
          apply (run_event small_batches e0 s e ev s' e') in R;
            [|first [by vm_compute|apply fetched_event_ok; [by vm_compute|by repeat constructor|by vm_compute|by vm_compute]]|by vm_compute]
      end
  end.

Lemma commit_syncer_loses_nothing_witness :
  match schedule_loop small_batches (CommitSyncer_new 0) 0 two_batches with
  | Ret (s, e) => scheduled s = 4 ∧ inflight_fetches s = [] ∧ scheduled s ≤ e
  | Panic => False
  end.
Proof.
  pose proof (run_new small_batches 0) as R. unfold two_batches.
  next_event R (Tick 5 0). next_event R (Fetched (CommitRange_new 3 4) (commits_at [3])).
  next_event R (Fetched (CommitRange_new 1 2) (commits_at [1; 2])).
  next_event R (Fetched (CommitRange_new 4 4) (commits_at [4])).
  match type of R with syncer_run _ _ ?s ?e =>
    destruct (commit_syncer_loses_nothing small_batches 0 s e) as (_ & Hle & _); [done|done|done|cbn; tauto|] end.
  specialize (Hle eq_refl eq_refl). vm_compute. vm_compute in Hle. by repeat split.
Defined.
End Counting.

(** * What verification guarantees *)

Section Verify.
Context `{Crypto} `{TransactionVerifier} `{Decoder}.

Definition decoded (p : N * Commit) (s : list Byte.byte) : Prop := decode_commit s = Some p.2 ∧ p.1 = hash s.

(** Consecutive commits from [start], each with the digest of the one before. *)
Record chained (start : N) (cs : list (N * Commit)) : Prop := {
  ch_index : ∀ i p, cs !! i = Some p → commit_index (commit_v1 p.2) = start + N.of_nat i;
  ch_previous : ∀ i p q, cs !! i = Some p → cs !! S i = Some q → commit_previous_digest (commit_v1 q.2) = p.1;
}.

Lemma chained_nil start : chained start [].
Proof. by split. Qed.

(** A commit goes on with the chain. *)
Definition follows_last (start : N) (cs : list (N * Commit)) (commit : Commit) : Prop :=
  commit_index (commit_v1 commit) = start + N.of_nat (length cs) ∧
  ∀ p, last cs = Some p → commit_previous_digest (commit_v1 commit) = p.1.

Lemma chained_snoc start cs digest commit :
  chained start (cs ++ [(digest, commit)]) ↔ chained start cs ∧ follows_last start cs commit.
Proof.
  split.
  - intros [Hi Hp]. split; [split|split].
    + intros i p Hip. by apply Hi, lookup_app_l_Some.
    + intros i p q Hip Hiq. eapply Hp; by apply lookup_app_l_Some.
    + by apply (Hi _ (digest, commit)), list_lookup_middle.
    + intros p Hlast. rewrite last_lookup in Hlast. eapply (Hp (pred (length cs)) p (digest, commit)); [by apply lookup_app_l_Some|].
      apply lookup_lt_Some in Hlast. replace (S (pred (length cs))) with (length cs) by lia. by apply list_lookup_middle.
  - intros [[Hi Hp] [Hidx Hprev]]. split.
    + intros i p [Hip|[Hlen Hip]]%lookup_app_Some; [by apply Hi|].
      apply list_lookup_singleton_Some in Hip as [Hz <-]. cbn. rewrite Hidx. do 2 f_equal. lia.
    + intros i p q Hip Hiq. apply lookup_app_Some in Hiq as [Hiq|[Hlen Hiq]].
      * apply (Hp i); [|done]. rewrite lookup_app_l in Hip; [done|]. apply lookup_lt_Some in Hiq. lia.
      * apply list_lookup_singleton_Some in Hiq as [Hz <-]. apply Hprev. rewrite last_lookup.
        rewrite lookup_app_l in Hip by lia. by replace (pred (length cs)) with i by lia.
Qed.

(** The checks on a commit are whether it goes on with the chain. *)
Lemma chain_check peer start cs commit :
  chained start cs → start + N.of_nat (length cs) < 2 ^ 32 →
  match last cs with
  | None => if commit_index (commit_v1 commit) =? start then Ok tt else Err (UnexpectedStartCommit peer start)
  | Some (last_commit_digest, last_commit) =>
      if negb (commit_index (commit_v1 commit) =? u32_add (commit_index (commit_v1 last_commit)) 1)
         || negb (commit_previous_digest (commit_v1 commit) =? last_commit_digest)
      then Err (UnexpectedCommitSequence peer) else Ok tt
  end = (Ok tt : ConsensusResult unit) ↔ follows_last start cs commit.
Proof.
  intros [Hi _] Hb. unfold follows_last. destruct (last cs) as [[d l]|] eqn:Hlast.
  - assert (commit_index (commit_v1 l) + 1 = start + N.of_nat (length cs)) as Hl.
    { rewrite last_lookup in Hlast. pose proof (Hi _ _ Hlast) as Hl. cbn in Hl. apply lookup_lt_Some in Hlast. lia. }
    rewrite u32_add_small, Hl by lia.
    destruct (N.eqb_spec (commit_index (commit_v1 commit)) (start + N.of_nat (length cs))) as [->|];
      destruct (N.eqb_spec (commit_previous_digest (commit_v1 commit)) d) as [->|]; cbn; (split; [|naive_solver]);
      try done. intros _. split; [done|]. by intros p [= <-].
  - apply last_None in Hlast as ->. cbn. rewrite N.add_0_r.
    destruct (N.eqb_spec (commit_index (commit_v1 commit)) start) as [->|]; naive_solver.
Qed.

Lemma decoded_next acc pre cs s rest :
  acc `prefix_of` cs → Forall2 decoded acc pre → Forall2 decoded cs (pre ++ s :: rest) →
  ∃ commit, decode_commit s = Some commit ∧ acc ++ [(hash s, commit)] `prefix_of` cs.
Proof.
  intros [k ->] Hacc Hcs. apply Forall2_app_inv in Hcs as [_ Hk]; [|by eapply Forall2_length].
  inversion Hk as [|[d commit] s' k' rest' [Hd Hh] Hk']; subst. cbn in Hd, Hh. subst d. exists commit. split; [done|].
  exists k'. by rewrite <- app_assoc.
Qed.

Lemma chained_prefix start cs cs' : cs `prefix_of` cs' → chained start cs' → chained start cs.
Proof.
  intros [k ->] [Hi Hp]. split; [intros i p Hip; by apply Hi, lookup_app_l_Some|].
  intros i p q Hip Hiq. eapply Hp; by apply lookup_app_l_Some.
Qed.

(** The commits that pass: a prefix of the response, up to its end or the end of the range. *)
Lemma verify_chain_spec peer range pre acc rest :
  range_hi range ≤ u32_max → 0 < range_hi range → chained (CommitRange_start range) acc → Forall2 decoded acc pre →
  CommitRange_start range + N.of_nat (length acc) ≤ CommitRange_end range + 1 →
  match verify_chain peer range acc rest with
  | Ok cs => acc `prefix_of` cs ∧ chained (CommitRange_start range) cs ∧ Forall2 decoded cs (take (length cs) (pre ++ rest)) ∧
      CommitRange_start range + N.of_nat (length cs) ≤ CommitRange_end range + 1 ∧
      (length cs = length (pre ++ rest) ∨ CommitRange_start range + N.of_nat (length cs) = CommitRange_end range + 1)
  | Err _ => ¬ ∃ cs, acc `prefix_of` cs ∧ chained (CommitRange_start range) cs ∧ Forall2 decoded cs (pre ++ rest)
  end.
Proof.
  intros Hmax Hpos. revert pre acc. induction rest as [|s rest IH]; intros pre acc Hch Hdec Hle; cbn [verify_chain].
  { rewrite app_nil_r. split; [done|]. split; [done|]. rewrite (Forall2_length _ _ _ Hdec), take_ge by lia.
    split; [done|]. split; [by rewrite <- (Forall2_length _ _ _ Hdec)|by left]. }
  destruct (decode_commit s) as [commit|] eqn:Hs.
  2: { intros (cs & Hpre & _ & Hcs). destruct (decoded_next acc pre cs s rest Hpre Hdec Hcs) as (x & Hx & _). congruence. }
  assert (CommitRange_end range + 1 = range_hi range) as Hend by (unfold CommitRange_end, saturating_sub; lia).
  pose proof (chain_check peer (CommitRange_start range) acc commit Hch ltac:(unfold u32_max in Hmax; lia)) as Hcheck.
  destruct (match last acc with Some _ => _ | None => _ end) as [[]|e].
  - destruct (proj1 Hcheck eq_refl) as [Hidx Hprev]. rewrite Hidx.
    destruct (N.ltb_spec (CommitRange_end range) (CommitRange_start range + N.of_nat (length acc))) as [Hlt|Hge].
    + split; [done|]. split; [done|]. rewrite (Forall2_length _ _ _ Hdec) at 1. rewrite take_app_length.
      split; [done|]. split; [done|]. right. lia.
    + specialize (IH (pre ++ [s]) (acc ++ [(hash s, commit)])).
      rewrite <- app_assoc in IH. cbn [app] in IH. destruct (verify_chain _ _ _ rest) as [cs|e].
      * destruct IH as (Hpre & IH); [by apply chained_snoc|apply Forall2_app; [done|by repeat constructor]|rewrite length_app; cbn; lia|].
        split; [|done]. etrans; [by apply prefix_app_r|exact Hpre].
      * intros (cs & Hpre & Hcs & Hd). apply IH; [by apply chained_snoc|apply Forall2_app; [done|by repeat constructor]|rewrite length_app; cbn; lia|].
        destruct (decoded_next acc pre cs s rest Hpre Hdec Hd) as (x & Hx & Hpre'). exists cs. split; [|done]. congruence.
  - intros (cs & Hpre & Hcs & Hd). destruct (decoded_next acc pre cs s rest Hpre Hdec Hd) as (x & Hx & Hpre').
    assert (x = commit) as -> by congruence. apply (chained_prefix _ _ _ Hpre'), chained_snoc in Hcs as [_ Hf]. by apply Hcheck in Hf.
Qed.

Definition commit_voters (r : CommitRef) (blocks : list VerifiedBlock) : gset N :=
  list_to_set (vb_author <$> filter (λ b, r ∈ vb_commit_votes b) blocks).

Lemma elem_of_commit_voters r blocks a : a ∈ commit_voters r blocks ↔ ∃ b, b ∈ blocks ∧ r ∈ vb_commit_votes b ∧ vb_author b = a.
Proof. unfold commit_voters. rewrite elem_of_list_to_set, list_elem_of_fmap. setoid_rewrite list_elem_of_filter. naive_solver. Qed.

Lemma commit_voters_snoc r blocks b :
  commit_voters r (blocks ++ [b]) = (if decide (r ∈ vb_commit_votes b) then {[vb_author b]} else ∅) ∪ commit_voters r blocks.
Proof.
  unfold commit_voters. rewrite filter_app, fmap_app, list_to_set_app_L. case_decide.
  - rewrite filter_cons_True by done. set_solver.
  - rewrite filter_cons_False by done. set_solver.
Qed.

Lemma count_votes_spec c r X agg b :
  committee_wf c → agg_repr c X agg → is_valid_index c (vb_author b) = true →
  ∃ agg', count_votes c r agg b = Ret agg' ∧
    agg_repr c ((if decide (r ∈ vb_commit_votes b) then {[vb_author b]} else ∅) ∪ X) agg'.
Proof.
  intros Hc HX Hv. unfold count_votes. revert X agg HX. induction (vb_commit_votes b) as [|v votes IH]; intros X agg HX; cbn [foldM].
  { exists agg. split; [done|]. rewrite decide_False by apply not_elem_of_nil. by rewrite union_empty_l_L. }
  case_bool_decide as Hvr.
  - subst v. destruct (agg_add_repr c Hc QuorumThreshold X agg _ HX Hv) as (agg1 & -> & Hagg1). cbn [mbind outcome_bind].
    destruct (IH _ _ Hagg1) as (agg' & Hrun & H'). exists agg'. split; [done|]. rewrite decide_True by left. revert H'.
    case_decide; intros H'; [by replace ({[vb_author b]} ∪ X) with ({[vb_author b]} ∪ ({[vb_author b]} ∪ X)) by set_solver|].
    by rewrite union_empty_l_L in H'.
  - cbn [mbind outcome_bind]. destruct (IH _ _ HX) as (agg' & Hrun & H'). exists agg'. split; [done|].
    destruct (decide (r ∈ votes)); [rewrite decide_True by by right|rewrite decide_False by (rewrite elem_of_cons; naive_solver)]; done.
Qed.

(** The block is the verified one of the bytes. *)
Definition verified_from (v : SignedBlockVerifier) (b : VerifiedBlock) (s : list Byte.byte) : Prop :=
  ∃ signed rejected, decode_signed_block s = Some signed ∧ verify_and_vote v signed s = Ret (Ok (b, rejected)).

Lemma verify_block_member v signed :
  verify_block v signed = Ret (Ok tt) →
  0 < block_round (sb_inner signed) ∧ is_valid_index (committee (bv_context v)) (block_author (sb_inner signed)) = true.
Proof.
  unfold verify_block. destruct (block_epoch _ =? _); [|done]. cbn [negb]. destruct (N.eqb_spec (block_round (sb_inner signed)) 0); [done|].
  destruct (is_valid_index _ _); [|done]. intros _. split; [lia|done].
Qed.

Lemma verified_from_block v b s :
  verified_from v b s → vb_serialized b = s ∧ vb_digest b = hash s ∧ decode_signed_block s = Some (vb_block b) ∧
    verify_block v (vb_block b) = Ret (Ok tt) ∧ is_valid_index (committee (bv_context v)) (vb_author b) = true.
Proof.
  intros (signed & rejected & Hd & Hv). unfold verify_and_vote in Hv. unfold try_bind in Hv.
  apply bind_Ret in Hv as (res & Hb & Hv). destruct res as [[]|]; [|done].
  assert (b = new_verified signed s) as ->.
  { destruct (mysticeti_fastpath _); [|destruct (verify_batch _); [by injection Hv as <- _|done]].
    cbn [mbind outcome_bind] in Hv. destruct (vote _); [|done]. by injection Hv as <- _. }
  split; [done|]. split; [done|]. split; [done|]. split; [done|]. by apply verify_block_member in Hb as [_ ?].
Qed.

Lemma verify_vote_blocks_sound v r serialized t agg pre t' agg' blocks :
  committee_wf (committee (bv_context v)) → agg_repr (committee (bv_context v)) (commit_voters r pre) agg →
  verify_vote_blocks v r t agg pre serialized = Ret (t', Ok (agg', blocks)) →
  ∃ new, blocks = pre ++ new ∧ Forall2 (verified_from v) new serialized ∧
    agg_repr (committee (bv_context v)) (commit_voters r blocks) agg'.
Proof.
  intros Hc. revert t agg pre. induction serialized as [|s serialized IH]; intros t agg pre Hagg; cbn [verify_vote_blocks].
  { intros [= <- <- <-]. exists []. by rewrite app_nil_r. }
  destruct (decode_signed_block s) as [signed|] eqn:Hs; [|done]. intros Hrun.
  apply bind_Ret in Hrun as (res & Hv & Hrun). destruct res as [[b rejected]|]; [|done].
  assert (verified_from v b s) as Hb by by exists signed, rejected.
  apply bind_Ret in Hrun as (t1 & _ & Hrun). destruct (verified_from_block v b s Hb) as (_ & _ & _ & _ & Hval).
  destruct (count_votes_spec _ r _ _ b Hc Hagg Hval) as (agg1 & Hcount & Hagg1). rewrite Hcount in Hrun. cbn [mbind outcome_bind] in Hrun.
  rewrite <- commit_voters_snoc in Hagg1. destruct (IH _ _ _ Hagg1 Hrun) as (new & -> & Hnew & Hagg').
  exists (b :: new). rewrite <- app_assoc. split; [done|]. split; [by constructor|]. by rewrite <- app_assoc in Hagg'.
Qed.

(** Commits that are certified by the blocks they came with. *)
Record certified_chain (v : SignedBlockVerifier) (range : CommitRange) (commits : list TrustedCommit)
    (vote_blocks : list VerifiedBlock) : Prop := {
  cn_index : ∀ i tc, commits !! i = Some tc → tc_index tc = CommitRange_start range + N.of_nat i ∧ tc_index tc ≤ CommitRange_end range;
  cn_digest : ∀ tc, tc ∈ commits → tc_digest tc = hash (tc_serialized tc) ∧ decode_commit (tc_serialized tc) = Some (tc_inner tc);
  cn_previous : ∀ i tc tc', commits !! i = Some tc → commits !! S i = Some tc' → tc_previous_digest tc' = tc_digest tc;
  cn_blocks : ∀ b, b ∈ vote_blocks → verify_block v (vb_block b) = Ret (Ok tt) ∧ vb_digest b = hash (vb_serialized b) ∧
    decode_signed_block (vb_serialized b) = Some (vb_block b);
  cn_quorum : ∃ tc, last commits = Some tc ∧
    reached_quorum (committee (bv_context v)) (weight (committee (bv_context v)) (commit_voters (tc_reference tc) vote_blocks)) = true;
}.

(** The chain with the bytes it was decoded from. *)
Lemma trusted_lookup cs serialized i tc :
  Forall2 decoded cs (take (length cs) serialized) →
  zip_with (λ c s, new_trusted c.2 s) cs serialized !! i = Some tc →
  ∃ p, cs !! i = Some p ∧ tc_inner tc = p.2 ∧ tc_digest tc = p.1 ∧ tc_digest tc = hash (tc_serialized tc) ∧
    decode_commit (tc_serialized tc) = Some (tc_inner tc) ∧ serialized !! i = Some (tc_serialized tc).
Proof.
  intros Hd (p & s & -> & Hp & Hs)%lookup_zip_with_Some. exists p. split; [done|].
  assert (take (length cs) serialized !! i = Some s) as Hs' by (rewrite lookup_take_lt by (by apply lookup_lt_Some in Hp); done).
  destruct (Forall2_lookup_lr _ _ _ _ _ _ Hd Hp Hs') as [Hdec Hh]. done.
Qed.

(** What verification accepts from a peer is certified: the commits start at the beginning
    of the requested range and stay in it, have consecutive indices, each carries the digest of
    the one before, and are the ones that the bytes encode; the blocks that came along are
    valid; and authorities of a quorum of the stake have voted, in those blocks, for exactly the
    last commit. *)
Lemma verified_commits_certified v t peer range serialized_commits serialized_blocks t' commits vote_blocks :
  committee_wf (committee (bv_context v)) → 0 < range_hi range → range_hi range ≤ u32_max →
  CommitRange_start range ≤ CommitRange_end range + 1 →
  verify_commits v t peer range serialized_commits serialized_blocks = Ret (t', Ok (commits, vote_blocks)) →
  certified_chain v range commits vote_blocks ∧
  tc_serialized <$> commits = take (length commits) serialized_commits ∧
  Forall2 (verified_from v) vote_blocks serialized_blocks.
Proof.
  intros Hc Hpos Hmax Hrange Hrun. unfold verify_commits in Hrun.
  pose proof (verify_chain_spec peer range [] [] serialized_commits Hmax Hpos (chained_nil _) (List.Forall2_nil _) ltac:(cbn; lia)) as Hchain.
  destruct (verify_chain peer range [] serialized_commits) as [cs|]; [|done]. destruct Hchain as (_ & [Hi Hp] & Hd & Hlen & _).
  cbn [app] in Hd. destruct (last cs) as [[digest commit]|] eqn:Hlast; [|done].
  apply bind_Ret in Hrun as ([t1 votes] & Hvotes & Hrun). destruct votes as [[agg blocks]|]; [|done].
  destruct (verify_vote_blocks_sound v _ serialized_blocks t _ [] t1 agg blocks Hc (agg_repr_new _) Hvotes) as (new & -> & Hnew & Hagg).
  cbn [app] in *. destruct (reached_threshold QuorumThreshold agg _) eqn:Hq; [|done]. injection Hrun as <- <- <-.
  pose proof (λ i tc, trusted_lookup cs serialized_commits i tc Hd) as Htc.
  assert (length (zip_with (λ c s, new_trusted c.2 s) cs serialized_commits) = length cs) as Hzip.
  { rewrite length_zip_with. apply Forall2_length in Hd. rewrite length_take in Hd. lia. }
  split; [split|split].
  - intros i tc Hi'. destruct (Htc i tc Hi') as (p & Hcs & Hin & _). unfold tc_index. rewrite Hin. rewrite (Hi i p Hcs).
    apply lookup_lt_Some in Hcs. lia.
  - intros tc [i Hi']%list_elem_of_lookup. by destruct (Htc i tc Hi') as (p & _ & _ & _ & ? & ? & _).
  - intros i tc tc' H1' H2'. destruct (Htc _ _ H1') as (p & Hp1 & _ & -> & _). destruct (Htc _ _ H2') as (q & Hq1 & Hin & _).
    unfold tc_previous_digest. rewrite Hin. by apply (Hp i p q).
  - intros b Hb. apply list_elem_of_lookup in Hb as [i Hb]. destruct (Forall2_lookup_l _ _ _ _ _ Hnew Hb) as (s & _ & Hv).
    destruct (verified_from_block v b s Hv) as (-> & ? & ? & ? & _). done.
  - rewrite last_lookup in Hlast. pose proof Hlast as Hlt%lookup_lt_Some.
    destruct (lookup_lt_is_Some_2 (zip_with (λ c s, new_trusted c.2 s) cs serialized_commits) (pred (length cs))) as [tc Hl]; [lia|].
    exists tc. rewrite last_lookup, Hzip. split; [done|]. destruct (Htc _ _ Hl) as (p & Hp1 & Hin & Hdig & _).
    rewrite Hlast in Hp1. injection Hp1 as <-. unfold reached_threshold in Hq. rewrite (agg_repr_stake _ _ _ Hagg) in Hq.
    unfold tc_reference, tc_index. rewrite Hin, Hdig. exact Hq.
  - apply list_eq. intros i. rewrite list_lookup_fmap, Hzip. destruct (zip_with _ cs serialized_commits !! i) as [tc|] eqn:Hi'; cbn.
    + destruct (Htc i tc Hi') as (p & Hcs & _ & _ & _ & _ & Hs). rewrite lookup_take_lt by (by apply lookup_lt_Some in Hcs). done.
    + apply lookup_ge_None in Hi'. symmetry. apply lookup_ge_None. rewrite length_take. lia.
  - done.
Qed.

(** ** The blocks of the commits *)

Lemma chunks_of_concat {A} fuel n (l : list A) : (0 < n)%nat → (length l ≤ fuel)%nat → concat (chunks_of fuel n l) = l.
Proof.
  intros Hn. revert l. induction fuel as [|fuel IH]; intros [|x l] Hl; cbn [chunks_of concat]; try done; [cbn in Hl; lia|].
  rewrite IH; [by rewrite take_drop|]. rewrite length_drop. cbn in *. lia.
Qed.

Lemma chunks_concat {A} n (l : list A) : 0 < n → ∃ cs, chunks n l = Ret cs ∧ concat cs = l.
Proof.
  intros Hn. unfold chunks. rewrite (proj2 (N.ltb_lt _ _) Hn). cbn. eexists. split; [done|]. apply chunks_of_concat; lia.
Qed.

(** A block that is what its bytes encode. *)
Definition arrived (b : VerifiedBlock) : Prop :=
  vb_digest b = hash (vb_serialized b) ∧ decode_signed_block (vb_serialized b) = Some (vb_block b).

Lemma match_blocks_spec peer refs signed bytes blocks :
  decode_blocks bytes = Ok signed → length refs = length bytes → match_blocks peer refs signed bytes = Ok blocks →
  reference <$> blocks = refs ∧ ∀ b, b ∈ blocks → arrived b ∧ vb_serialized b ∈ bytes.
Proof.
  revert refs signed blocks. induction bytes as [|x bytes IH]; intros refs signed blocks; cbn [decode_blocks].
  { intros [= <-] Hl. destruct refs; [|done]. intros [= <-]. split; [done|]. by intros b Hb%elem_of_nil. }
  destruct (decode_signed_block x) as [b|] eqn:Hx; [|done]. destruct (decode_blocks bytes) as [bs|]; [|done].
  intros [= <-] Hl. destruct refs as [|r refs]; [done|]. cbn [match_blocks]. case_bool_decide as Hr; [|done]. cbn [negb].
  destruct (match_blocks peer refs bs bytes) as [blocks'|] eqn:Hm; [|done]. intros [= <-].
  destruct (IH refs bs blocks' eq_refl ltac:(cbn in Hl; lia) Hm) as [IH1 IH2]. csimpl. rewrite IH1. split; [by rewrite Hr|].
  intros y [-> |Hy]%elem_of_cons; [split; [done|left]|]. destruct (IH2 y Hy). split; [done|by right].
Qed.

(** What a map of fetched blocks holds, for the answers of the peer. *)
Definition collected (answer : list BlockRef → ConsensusResult (list (list Byte.byte))) (m : gmap BlockRef VerifiedBlock) : Prop :=
  ∀ r b, m !! r = Some b → reference b = r ∧ arrived b ∧ ∃ refs bytes, answer refs = Ok bytes ∧ vb_serialized b ∈ bytes.

Lemma insert_blocks (blocks : list VerifiedBlock) (m : gmap BlockRef VerifiedBlock) r :
  (is_Some (foldl (λ m b, <[reference b := b]> m) m blocks !! r) ↔ is_Some (m !! r) ∨ r ∈ reference <$> blocks) ∧
  ∀ b, foldl (λ m b, <[reference b := b]> m) m blocks !! r = Some b → m !! r = Some b ∨ b ∈ blocks ∧ reference b = r.
Proof.
  revert m. induction blocks as [|x blocks IH]; intros m; cbn [foldl].
  { split; [|by left]. split; [by left|]. by intros [?|?%elem_of_nil]. }
  destruct (IH (<[reference x := x]> m)) as [IH1 IH2]. csimpl. split.
  - rewrite IH1, elem_of_cons. destruct (decide (reference x = r)) as [->|Hne].
    + rewrite lookup_insert_eq. split; [tauto|]. intros _. left. by eexists.
    + rewrite lookup_insert_ne by done. naive_solver.
  - intros b [[[Hr <-]|[_ Hb]]%lookup_insert_Some|[Hb Hr]]%IH2; [right; split; [left|done]|by left|right; split; [by right|done]].
Qed.

Lemma collect_blocks_spec peer answer requests m m' :
  collected answer m → collect_blocks peer answer m requests = Ok m' →
  collected answer m' ∧ ∀ r, is_Some (m !! r) ∨ r ∈ concat requests → is_Some (m' !! r).
Proof.
  revert m. induction requests as [|request requests IH]; intros m Hm; cbn [collect_blocks concat].
  { intros [= <-]. split; [done|]. by intros r [?|?%elem_of_nil]. }
  unfold fetch_chunk. destruct (answer request) as [bytes|] eqn:Hans; [|done].
  destruct (Nat.eqb_spec (length request) (length bytes)) as [Hl|]; [|done]. cbn [negb].
  destruct (decode_blocks bytes) as [signed|] eqn:Hd; [|done]. destruct (match_blocks _ _ _ _) as [blocks|] eqn:Hmb; [|done].
  destruct (match_blocks_spec _ _ _ _ _ Hd Hl Hmb) as [Hrefs Hblocks]. intros [H1' H2']%IH.
  - split; [done|]. intros r Hr. apply H2'. destruct (insert_blocks blocks m r) as [Hi _]. rewrite Hi, Hrefs.
    rewrite elem_of_app in Hr. tauto.
  - intros r b [Hb|[Hb Hr]]%insert_blocks; [by apply Hm|]. split; [done|]. destruct (Hblocks b Hb) as [? ?]. split; [done|].
    by exists request, bytes.
Qed.

Lemma assign_blocks_spec bs m acc :
  NoDup (reference <$> bs) → (∀ b, b ∈ bs → m !! reference b = Some b) →
  ∃ m', foldM assign_block (m, acc) (reference <$> bs) = Ret (m', acc ++ bs) ∧
    ∀ r, r ∉ reference <$> bs → m' !! r = m !! r.
Proof.
  revert m acc. induction bs as [|b bs IH]; intros m acc Hnd Hm; csimpl.
  { exists m. by rewrite app_nil_r. }
  apply NoDup_cons in Hnd as [Hb Hnd]. unfold assign_block at 2. cbn [fst snd]. rewrite (Hm b) by left. cbn [expect mbind outcome_bind].
  destruct (IH (delete (reference b) m) (acc ++ [b]) Hnd) as (m' & -> & Hm').
  { intros x Hx. rewrite lookup_delete_ne; [apply Hm; by right|]. intros He. apply Hb. rewrite He. by apply list_elem_of_fmap_2. }
  exists m'. rewrite <- app_assoc. split; [done|]. intros r [Hr1 Hr2]%not_elem_of_cons. by rewrite Hm', lookup_delete_ne.
Qed.

Lemma assign_commits_spec commits bss m acc :
  Forall2 (λ tc bs, tc_blocks tc = reference <$> bs) commits bss → NoDup (commits ≫= tc_blocks) →
  (∀ b, b ∈ concat bss → m !! reference b = Some b) →
  ∃ m', foldM assign_commit (m, acc) commits = Ret (m', acc ++ zip_with mkCertifiedCommit commits bss).
Proof.
  intros Hall. revert m acc. induction Hall as [|tc bs commits bss Htc Hall IH]; intros m acc; cbn [mbind list_bind concat foldM zip_with].
  { intros _ _. exists m. by rewrite app_nil_r. }
  rewrite Htc. intros (Hnd1 & Hdis & Hnd2)%NoDup_app Hm. unfold assign_commit at 2. cbn [fst snd]. rewrite Htc.
  destruct (assign_blocks_spec bs m [] Hnd1) as (m1 & -> & Hm1); [intros b Hb; apply Hm, elem_of_app; by left|].
  cbn [mbind outcome_bind app]. destruct (IH m1 (acc ++ [mkCertifiedCommit tc bs]) Hnd2) as (m' & Hrun).
  - intros b Hb. rewrite Hm1; [apply Hm, elem_of_app; by right|]. intros Hin. apply (Hdis (reference b) Hin).
    clear -Hall Hb. apply list_elem_of_bind. induction Hall as [|tc bs' commits bss Htc _ IH]; [by apply elem_of_nil in Hb|].
    cbn [concat] in Hb. apply elem_of_app in Hb as [Hb|Hb].
    + exists tc. split; [rewrite Htc; by apply list_elem_of_fmap_2|left].
    + destruct (IH Hb) as (x & ? & ?). exists x. split; [done|by right].
  - exists m'. rewrite Hrun, <- app_assoc. done.
Qed.
End Verify.
