(* ===== verification/CommitObserver.v ===== *)
(** The commit observer (consensus/core/src/commit_observer.rs): it turns the leaders that the
    core decided into committed sub-DAGs, hands them to the commit finalizer and counts them
    for the leader schedule; after a restart it reads the commits that the consumer has not
    seen from the store and sends them again.

    The DAG state and the leader schedule behind their locks are threaded through. The
    unbounded channel to the finalizer is the list of what was sent on it. *)

From stdpp Require Import base tactics numbers list gmap sorting strings.
From coqutil Require Import Datatypes.RecordSettersUsingExistingGetters.
From S2P Require Import Prelude.
From S2P Require Import Committee.
From S2P Require Import Block.
From S2P Require Import Commit.
From S2P Require Import Store.
From S2P Require Import LeaderScoring.
From S2P Require Import DagState.
From S2P Require Import DagInvariant.
From S2P Require Import LeaderSchedule.
From S2P Require Import BaseCommitter.
From S2P Require Import CommitSafety.
From S2P Require Import UniversalCommitter.
From S2P Require Import Linearizer.

Open Scope N_scope.

(** * Data *)

Record CommitObserver := mkCommitObserver {
  obs_context : Context;
  (** whether the finalizer still receives, and what was sent to it *)
  obs_finalizer_open : bool;
  obs_sent : list CommittedSubDag;
}.

Definition COMMIT_RECOVERY_BATCH_SIZE : N := 250.

(** * Operations *)

Definition finalizer_send (o : CommitObserver) (commit : CommittedSubDag) : ConsensusResult CommitObserver :=
  if obs_finalizer_open o then Ok (o <| obs_sent := obs_sent o ++ [commit] |>) else Err Shutdown.

Fixpoint send_all (o : CommitObserver) (commits : list CommittedSubDag) : CommitObserver * ConsensusResult unit :=
  match commits with
  | [] => (o, Ok tt)
  | commit :: commits =>
      match finalizer_send o commit with
      | Ok o => send_all o commits
      | Err e => (o, Err e)
      end
  end.

(** [committed_sub_dags[0].reputation_scores_desc = scores]: panics on an empty list. *)
Definition set_first_scores (scores : list (N * N)) (sds : list CommittedSubDag) : outcome (list CommittedSubDag) :=
  match sds with
  | [] => Panic
  | sd :: sds => Ret (sd <| sd_reputation_scores_desc := scores |> :: sds)
  end.

(** [(lo..=hi).step_by(n)]. *)
Definition steps_by (lo hi n : N) : list N :=
  if hi <? lo then [] else (λ k, lo + n * N.of_nat k) <$> seq 0 (Datatypes.S (N.to_nat ((hi - lo) / n))).

Section WithDag.
Context {S : Type} `{Store S} `{Crypto} `{CommitCodec}.
Implicit Types d : DagState S.

Definition observer_handle_commit (o : CommitObserver) d (schedule : LeaderSchedule)
    (committed_leaders : list VerifiedBlock) (local : bool)
    : outcome (CommitObserver * DagState S * ConsensusResult (list CommittedSubDag)) :=
  '(d, committed_sub_dags) ← handle_commit (obs_context o) d committed_leaders;
  let committed_sub_dags := (λ sd, sd <| sd_decided_with_local_blocks := local |>) <$> committed_sub_dags in
  committed_sub_dags ←
    (if leader_schedule_updated d
     then set_first_scores (reputation_scores_desc (leader_swap_table schedule)) committed_sub_dags
     else Ret committed_sub_dags);
  match send_all o committed_sub_dags with
  | (o, Err e) => Ret (o, d, Err e)
  | (o, Ok _) => d ← add_scoring_subdags d committed_sub_dags; Ret (o, d, Ok committed_sub_dags)
  end.

(** One commit read from the store; the accumulator holds the index sent last. *)
Definition resend_commit (store : S) (schedule : LeaderSchedule)
    (last_commit_index last_finalized_commit_index : N) (acc : CommitObserver * N) (commit : TrustedCommit)
    : outcome (CommitObserver * N) :=
  let '(o, last_sent_commit_index) := acc in
  let last_sent_commit_index := u32_add last_sent_commit_index 1 in
  _ ← assert_that (tc_index commit =? last_sent_commit_index);
  let reputation_scores :=
    if tc_index commit =? last_commit_index
    then reputation_scores_desc (leader_swap_table schedule) else [] in
  committed_sub_dag ← load_committed_subdag_from_store store commit reputation_scores;
  let committed_sub_dag :=
    committed_sub_dag <| sd_decided_with_local_blocks :=
      cr_index (sd_commit_ref committed_sub_dag) <=? last_finalized_commit_index |> in
  match finalizer_send o committed_sub_dag with
  | Ok o => Ret (o, last_sent_commit_index)
  | Err _ => Panic
  end.

Definition resend_batch (store : S) (schedule : LeaderSchedule)
    (last_commit_index last_finalized_commit_index : N)
    (acc : CommitObserver * DagState S * N) (start_index : N)
    : outcome (CommitObserver * DagState S * N) :=
  let '(o, d, last_sent_commit_index) := acc in
  let end_index :=
    N.min (u32_saturating_add start_index (COMMIT_RECOVERY_BATCH_SIZE - 1)) last_commit_index in
  unsent_commits ← store_scan_commits store (CommitRange_new start_index end_index);
  _ ← assert_that ((N.of_nat (length unsent_commits) mod 2 ^ 32 =? u32_add (end_index - start_index) 1)
                   && (start_index <=? end_index));
  let d := recover_commits_to_write d unsent_commits in
  '(o, last_sent_commit_index) ←
    foldM (resend_commit store schedule last_commit_index last_finalized_commit_index)
      (o, last_sent_commit_index) unsent_commits;
  Ret (o, d, last_sent_commit_index).

Definition recover_and_send_commits (o : CommitObserver) d (schedule : LeaderSchedule)
    (replay_after_commit_index : N) : outcome (CommitObserver * DagState S) :=
  let store := ds_store d in
  last_commit ← store_read_last_commit store;
  match last_commit with
  | None => _ ← assert_that (replay_after_commit_index =? 0); Ret (o, d)
  | Some last_commit =>
      let last_commit_index := tc_index last_commit in
      if last_commit_index =? replay_after_commit_index then Ret (o, d)
      else
        _ ← assert_that (replay_after_commit_index <? last_commit_index);
        last_finalized_commit_index ←
          (if mysticeti_fastpath (protocol_config (obs_context o))
           then last_finalized ← store_read_last_finalized_commit store;
                Ret (from_option cr_index 0 last_finalized)
           else Ret last_commit_index);
        _ ← ensure_commits_to_write_is_empty d;
        '(o, d, last_sent_commit_index) ←
          foldM (resend_batch store schedule last_commit_index last_finalized_commit_index)
            (o, d, replay_after_commit_index)
            (steps_by (u32_add replay_after_commit_index 1) last_commit_index COMMIT_RECOVERY_BATCH_SIZE);
        _ ← assert_that (last_sent_commit_index =? last_commit_index);
        Ret (o, d)
  end.

Definition CommitObserver_new (context : Context) d (schedule : LeaderSchedule) (finalizer_open : bool)
    (replay_after_commit_index : N) : outcome (CommitObserver * DagState S) :=
  recover_and_send_commits (mkCommitObserver context finalizer_open []) d schedule replay_after_commit_index.
End WithDag.
