(* ===== verification/Core.v ===== *)
(** The core of a validator (consensus/core/src/core.rs): the single-threaded component that
    accepts blocks, runs the commit rule and proposes new blocks, on top of the components of
    the other files.

    The fields that the code shares behind locks (the DAG state, the leader schedule, the
    certifier, the round tracker) are fields of the record here; the committer reads the
    shared leader schedule, so it is built from it where it is used. The operations take the
    readings of the wall clock that they make as an argument. What the core sends on its
    channels is recorded. Metrics and logs are left out, except for the indexing of
    authorities that can panic. *)

From stdpp Require Import base tactics numbers list gmap sorting strings.
From coqutil Require Import Datatypes.RecordSettersUsingExistingGetters.
From S2P Require Import Prelude.
From S2P Require Import Committee.
From S2P Require Import Block.
From S2P Require Import StakeAggregator.
From S2P Require Import ThresholdClock.
From S2P Require Import Commit.
From S2P Require Import Store.
From S2P Require Import DagState.
From S2P Require Import LeaderSchedule.
From S2P Require Import BaseCommitter.
From S2P Require Import UniversalCommitter.
From S2P Require Import BlockManager.
From S2P Require Import TransactionConsumer.
From S2P Require Import CommitObserver.
From S2P Require Import RoundTracker.
From S2P Require Import Ancestor.
From S2P Require Import TransactionCertifier.

Open Scope N_scope.

(** * Signals *)

Definition MAX_COMMIT_VOTES_PER_BLOCK : N := 100.

(** The broadcast channel with whether a receiver is left and the blocks sent on it, and the
    value of the watch channel. *)
Record CoreSignals := mkCoreSignals {
  sig_receivers : bool;
  sig_blocks : list ExtendedBlock;
  sig_new_round : N;
}.

Definition CoreSignals_new : CoreSignals := mkCoreSignals true [] 0.

Definition signal_new_block (context : Context) (s : CoreSignals) (extended_block : ExtendedBlock)
    : ConsensusResult CoreSignals :=
  if 1 <? Committee_size (committee context) then
    if vb_round (eb_block extended_block) =? GENESIS_ROUND then Ok s
    else if sig_receivers s then Ok (s <| sig_blocks := sig_blocks s ++ [extended_block] |>)
    else Err Shutdown
  else Ok s.

Definition signal_new_round (s : CoreSignals) (round_number : N) : CoreSignals :=
  s <| sig_new_round := round_number |>.

(** * State *)

Record Core (S : Type) := mkCore {
  core_context : Context;
  transaction_consumer : TransactionConsumer;
  transaction_certifier : TransactionCertifier;
  block_manager : BlockManager;
  subscriber_exists : bool;
  propagation_delay : N;
  last_signaled_round : N;
  last_included_ancestors : list (option BlockRef);
  last_decided_leader : Slot;
  leader_schedule : LeaderSchedule;
  commit_observer : CommitObserver;
  signals : CoreSignals;
  block_signer : list Byte.byte;
  dag_state : DagState S;
  last_known_proposed_round : option N;
  ancestor_state_manager : AncestorStateManager;
  round_tracker : PeerRoundTracker;
}.
Arguments mkCore {S}.
Arguments core_context {S}.
Arguments transaction_consumer {S}.
Arguments transaction_certifier {S}.
Arguments block_manager {S}.
Arguments subscriber_exists {S}.
Arguments propagation_delay {S}.
Arguments last_signaled_round {S}.
Arguments last_included_ancestors {S}.
Arguments last_decided_leader {S}.
Arguments leader_schedule {S}.
Arguments commit_observer {S}.
Arguments signals {S}.
Arguments block_signer {S}.
Arguments dag_state {S}.
Arguments last_known_proposed_round {S}.
Arguments ancestor_state_manager {S}.
Arguments round_tracker {S}.

(** Code that changes the core, may panic and may return an error; the state survives the
    error. *)
Abbreviation core_result S A := (outcome (Core S * ConsensusResult A)).

Definition and_then {S A B} (m : core_result S A) (k : Core S → A → core_result S B) : core_result S B :=
  '(core, r) ← m; match r with Ok a => k core a | Err e => Ret (core, Err e) end.
Notation "'let!' ( core , x ) := m 'in' k" := (and_then m (λ core x, k))
  (at level 10, core name, x name, m at level 100, k at level 200).

Definition threshold_clock_round {S} (core : Core S) : N := clock_round (ds_threshold_clock (dag_state core)).

Definition core_committer {S} (core : Core S) : UniversalCommitter :=
  UniversalCommitter_build (core_context core) (leader_schedule core) DEFAULT_WAVE_LENGTH
    (default 1 (mysticeti_num_leaders_per_round (protocol_config (core_context core)))) true.

Definition core_committee {S} (core : Core S) : Committee := committee (core_context core).

(** * Switches and guards *)

Section Guards.
Context {S : Type} `{Store S} `{LeaderRng}.
Implicit Types core : Core S.

Definition set_subscriber_exists core (exists_ : bool) : Core S := core <| subscriber_exists := exists_ |>.

Definition set_propagation_delay core (delay : N) : Core S := core <| propagation_delay := delay |>.

Definition set_last_known_proposed_round core (round : N) : outcome (Core S) :=
  match last_known_proposed_round core with
  | Some _ => Panic
  | None => Ret (core <| last_known_proposed_round := Some round |>)
  end.

Definition should_propose core : bool :=
  if negb (subscriber_exists core) then false
  else if propagation_delay_stop_proposal_threshold (parameters (core_context core)) <? propagation_delay core
  then false
  else
    match last_known_proposed_round core with
    | None => false
    | Some last_known_proposed_round => negb (threshold_clock_round core <=? last_known_proposed_round)
    end.

Definition last_proposed_block core : outcome VerifiedBlock := get_last_proposed_block (dag_state core).

Definition last_proposed_round core : outcome N := b ← last_proposed_block core; Ret (vb_round b).

Definition last_proposed_timestamp_ms core : outcome N :=
  b ← last_proposed_block core; Ret (vb_timestamp_ms b).

Definition core_leaders core (round : N) : outcome (list Slot) :=
  leaders ← get_leaders (core_committer core) round; Ret (mkSlot round <$> (leaders : list N)).

Definition first_leader core (round : N) : outcome N :=
  leaders ← core_leaders core round; leader ← expect (head leaders); Ret (slot_authority leader).

(** The loop stops at the first leader that is missing. *)
Fixpoint all_at_slots (d : DagState S) (leaders : list Slot) : outcome bool :=
  match leaders with
  | [] => Ret true
  | leader :: leaders =>
      found ← contains_cached_block_at_slot d leader;
      if found : bool then all_at_slots d leaders else Ret false
  end.

Definition leaders_exist core (round : N) : outcome bool :=
  leaders ← core_leaders core round; all_at_slots (dag_state core) leaders.

(** * Ancestors of a proposal *)

(** The variables that the closure over the candidates captures, and what it yields. *)
Record Selection := mkSelection {
  sel_included : list VerifiedBlock;
  sel_pending_excluded : list (N * VerifiedBlock);
  sel_excluded_and_equivocating : gset BlockRef;
}.

Definition select_ancestor core (states : list AncestorState) (sel : Selection)
    (candidate : VerifiedBlock * list BlockRef) : outcome Selection :=
  let '(ancestor, equivocating_ancestors) := candidate in
  if vb_author ancestor =? own_index (core_context core) then Ret sel
  else
    last ← vec_get (last_included_ancestors core) (vb_author ancestor);
    if (if last is Some last_block_ref then vb_round ancestor <=? br_round last_block_ref else false)
    then Ret sel
    else
      let sel := sel <| sel_excluded_and_equivocating :=
                          sel_excluded_and_equivocating sel ∪ list_to_set equivocating_ancestors |> in
      state ← vec_get states (vb_author ancestor);
      match state with
      | Include => Ret (sel <| sel_included := sel_included sel ++ [ancestor] |>)
      | Exclude score =>
          Ret (sel <| sel_pending_excluded := sel_pending_excluded sel ++ [(score, ancestor)] |>)
      end.

Definition score_desc (a b : N * VerifiedBlock) : bool := b.1 <=? a.1.

Definition add_parent (c : Committee) (agg : StakeAggregator) (ancestor : VerifiedBlock)
    : outcome StakeAggregator :=
  '(agg, _) ← agg_add QuorumThreshold agg (vb_author ancestor) c; Ret agg.

(** The second pass: excluded parents until the parent round has a quorum. *)
Definition include_parent (c : Committee) (quorum_round : N)
    (acc : StakeAggregator * list VerifiedBlock * list (N * VerifiedBlock)) (candidate : N * VerifiedBlock)
    : outcome (StakeAggregator * list VerifiedBlock * list (N * VerifiedBlock)) :=
  let '(agg, ancestors_to_propose, excluded_ancestors) := acc in
  let '(score, ancestor) := candidate in
  _ ← Committee_authority c (vb_author ancestor);
  if negb (reached_threshold QuorumThreshold agg c) && (vb_round ancestor =? quorum_round) then
    agg ← add_parent c agg ancestor;
    Ret (agg, ancestors_to_propose ++ [ancestor], excluded_ancestors)
  else Ret (agg, ancestors_to_propose, excluded_ancestors ++ [candidate]).

(** The third pass: excluded blocks, or earlier ones of their authors, that a quorum has
    accepted. *)
Definition include_accepted (quorum_round : N) (accepted_quorum_rounds : list QuorumRound)
    (acc : Core S * list VerifiedBlock * gset BlockRef) (candidate : N * VerifiedBlock)
    : outcome (Core S * list VerifiedBlock * gset BlockRef) :=
  let '(core, ancestors_to_propose, excluded) := acc in
  let '(score, ancestor) := candidate in
  let excluded_author := vb_author ancestor in
  _ ← Committee_authority (core_committee core) excluded_author;
  rounds ← vec_get accepted_quorum_rounds excluded_author;
  let accepted_low_quorum_round := N.min rounds.1 quorum_round in
  last ← vec_get (last_included_ancestors core) excluded_author;
  let last_included_round := from_option br_round GENESIS_ROUND last in
  if vb_round ancestor <=? last_included_round then Ret acc
  else if accepted_low_quorum_round <=? last_included_round
  then Ret (core, ancestors_to_propose, {[reference ancestor]} ∪ excluded)
  else
    '(chosen, excluded) ←
      (if vb_round ancestor <=? accepted_low_quorum_round then Ret (Some ancestor, excluded)
       else
         earlier ← get_last_cached_block_in_range (dag_state core) excluded_author
                     (u32_add last_included_round 1) (u32_add accepted_low_quorum_round 1);
         Ret (earlier, {[reference ancestor]} ∪ excluded));
    match chosen with
    | None => Ret (core, ancestors_to_propose, excluded)
    | Some ancestor =>
        last_included ← vec_set (last_included_ancestors core) excluded_author (Some (reference ancestor));
        Ret (core <| last_included_ancestors := last_included |>, ancestors_to_propose ++ [ancestor], excluded)
    end.

Definition smart_ancestors_to_propose core (clock_round : N) (smart_select : bool)
    : outcome (Core S * list VerifiedBlock * gset BlockRef) :=
  let c := core_committee core in
  all_ancestors ← get_last_cached_block_per_authority (dag_state core) clock_round;
  _ ← assert_that (N.of_nat (length all_ancestors) =? Committee_size c);
  accepted_quorum_rounds ← compute_accepted_quorum_rounds (round_tracker core);
  manager ← update_all_ancestors_state (ancestor_state_manager core) (threshold_clock_round core)
              accepted_quorum_rounds;
  let core := core <| ancestor_state_manager := manager |> in
  let ancestor_state_map := get_ancestor_states manager in
  let quorum_round := saturating_sub clock_round 1 in
  last_proposed ← last_proposed_block core;
  sel ← foldM (select_ancestor core ancestor_state_map) (mkSelection [last_proposed] [] ∅) all_ancestors;
  let included_ancestors := sel_included sel in
  parent_round_quorum ← foldM (add_parent c) StakeAggregator_new
                          (filter (λ a, vb_round a = quorum_round) included_ancestors);
  if smart_select && negb (reached_threshold QuorumThreshold parent_round_quorum c) then Ret (core, [], ∅)
  else
    '(parent_round_quorum, ancestors_to_propose, excluded_ancestors) ←
      foldM (include_parent c quorum_round) (parent_round_quorum, included_ancestors, [])
        (isort score_desc (sel_pending_excluded sel));
    '(core, ancestors_to_propose, excluded_and_equivocating_ancestors) ←
      foldM (include_accepted quorum_round accepted_quorum_rounds)
        (core, ancestors_to_propose, sel_excluded_and_equivocating sel) excluded_ancestors;
    _ ← assert_that (reached_threshold QuorumThreshold parent_round_quorum c);
    Ret (core, ancestors_to_propose, excluded_and_equivocating_ancestors).
End Guards.

(** * Proposals *)

Section Proposals.
Context {S : Type} `{Store S} `{LeaderRng} `{Crypto}.
Implicit Types core : Core S.

(** The checks that [force] skips, at the time [now]. *)
Definition ready_to_propose core (quorum_round now : N) : outcome bool :=
  exist ← leaders_exist core quorum_round;
  if negb exist then Ret false
  else
    last_timestamp ← last_proposed_timestamp_ms core;
    Ret (negb (saturating_sub now last_timestamp <? min_round_delay (parameters (core_context core)))).

Definition include_ancestor (last_included : list (option BlockRef)) (ancestor : VerifiedBlock)
    : outcome (list (option BlockRef)) :=
  vec_set last_included (vb_author ancestor) (Some (reference ancestor)).

(** [flat_map] of [link_causal_history] over the ancestors. *)
Definition link_ancestor (acc : DagState S * list BlockRef) (ancestor : VerifiedBlock)
    : outcome (DagState S * list BlockRef) :=
  let '(d, linked) := acc in
  '(d, refs) ← link_causal_history d (reference ancestor); Ret (d, linked ++ refs).

(** The reject votes of the proposal, on what its ancestors link for the first time. *)
Definition own_transaction_votes core (ancestors : list VerifiedBlock)
    : outcome (Core S * list BlockTransactionVotes) :=
  if mysticeti_fastpath (protocol_config (core_context core)) then
    '(d, hard_linked_ancestors) ← foldM link_ancestor (dag_state core, []) ancestors;
    votes ← get_own_votes (transaction_certifier core) hard_linked_ancestors;
    Ret (core <| dag_state := d |>, votes)
  else Ret (core, []).

Definition block_of (context : Context) (round now : N) (ancestors : list BlockRef)
    (transactions : list Transaction) (commit_votes : list CommitVote)
    (transaction_votes : list BlockTransactionVotes) : Block :=
  let epoch := committee_epoch (committee context) in
  if mysticeti_fastpath (protocol_config context)
  then V2 (mkBlockV2 epoch round (own_index context) now ancestors transactions transaction_votes commit_votes [])
  else V1 (mkBlockV1 epoch round (own_index context) now ancestors transactions commit_votes []).

(** The signed and serialized block, made from what the core consumes for it; the
    acknowledgments for its transactions are sent later. *)
Definition create_block core (clock_round now : N) (ancestors : list VerifiedBlock)
    : outcome (Core S * VerifiedBlock * list (N * list N)) :=
  let context := core_context core in
  last_included ← foldM include_ancestor (last_included_ancestors core) ancestors;
  let core := core <| last_included_ancestors := last_included |> in
  leader ← first_leader core (saturating_sub clock_round 1);
  _ ← Committee_authority (committee context) leader;
  _ ← foldM (λ _ a, _ ← Committee_authority (committee context) (vb_author a); Ret tt) tt ancestors;
  let '(consumer, transactions, acks, _) := next (transaction_consumer core) in
  let core := core <| transaction_consumer := consumer |> in
  let '(d, commit_votes) := take_commit_votes (dag_state core) MAX_COMMIT_VOTES_PER_BLOCK in
  let core := core <| dag_state := d |> in
  '(core, transaction_votes) ← own_transaction_votes core ancestors;
  let block := block_of context clock_round now (reference <$> ancestors) transactions commit_votes
                 transaction_votes in
  match SignedBlock_new block (block_signer core) with
  | Err _ => Panic
  | Ok signed_block =>
      serialized ← expect (bcs_signed_block signed_block);
      Ret (core, new_verified signed_block serialized, acks)
  end.

(** The new block enters the block manager, the DAG state and the certifier, is persisted,
    and is acknowledged to the submitters and the round tracker. *)
Definition accept_own_block core (extended_block : ExtendedBlock) (acks : list (N * list N)) : outcome (Core S) :=
  let block := eb_block extended_block in
  '(manager, d, accepted_blocks, missing) ← try_accept_blocks (block_manager core) (dag_state core) [block];
  _ ← assert_that (length accepted_blocks =? 1)%nat;
  _ ← assert_that (bool_decide (missing = ∅));
  let core := core <| block_manager := manager |> <| dag_state := d |> in
  core ← (if mysticeti_fastpath (protocol_config (core_context core)) then
            certifier ← certifier_add_voted_blocks (transaction_certifier core) [(block, [])];
            '(d, _) ← link_causal_history (dag_state core) (reference block);
            Ret (core <| transaction_certifier := certifier |> <| dag_state := d |>)
          else Ret core);
  d ← flush (dag_state core);
  let core := core <| dag_state := d |> in
  let core := core <| transaction_consumer :=
                        ack_transactions (transaction_consumer core) acks (reference block) |> in
  tracker ← update_from_accepted_block (round_tracker core) extended_block;
  Ret (core <| round_tracker := tracker |>).

(** The first half of [try_new_block], up to the signed block: nothing is proposed, or a block
    with the acknowledgments to send. [nows] are the two readings of the clock. *)
Definition build_proposal core (force : bool) (nows : N * N)
    : outcome (Core S * option (ExtendedBlock * list (N * list N))) :=
  let clock_round := threshold_clock_round core in
  last_proposed ← last_proposed_block core;
  if clock_round <=? vb_round last_proposed then Ret (core, None)
  else
    let quorum_round := saturating_sub clock_round 1 in
    ready ← (if force then Ret true else ready_to_propose core quorum_round nows.1);
    if negb ready then Ret (core, None)
    else
      '(core, ancestors, excluded_and_equivocating_ancestors) ←
        smart_ancestors_to_propose core clock_round (negb force);
      match ancestors with
      | [] => _ ← assert_that (negb force); Ret (core, None)
      | _ =>
          let excluded_ancestors_limit := u64_mul (Committee_size (core_committee core)) 2 in
          let excluded_ancestors :=
            take (N.to_nat excluded_ancestors_limit)
              (set_iter BlockRef_leb excluded_and_equivocating_ancestors) in
          '(core, verified_block, acks) ← create_block core clock_round nows.2 ancestors;
          _ ← last_proposed_block core;
          Ret (core, Some (mkExtendedBlock verified_block excluded_ancestors, acks))
      end.

Definition try_new_block core (force : bool) (nows : N * N) : outcome (Core S * option ExtendedBlock) :=
  '(core, proposal) ← build_proposal core force nows;
  match proposal with
  | None => Ret (core, None)
  | Some (extended_block, acks) =>
      core ← accept_own_block core extended_block acks;
      Ret (core, Some extended_block)
  end.
End Proposals.

(** * Commits *)

Section Commits.
Context {S : Type} `{Store S} `{LeaderRng} `{Crypto} `{CommitCodec}.
Implicit Types core : Core S.

Definition select_certified (c : Committee) (commit : CertifiedCommit)
    : outcome (DecidedLeader * CertifiedCommit) :=
  leader ← expect (last (cc_blocks commit));
  _ ← assert_that (bool_decide (reference leader = tc_leader (cc_commit commit)));
  _ ← Committee_authority c (vb_author leader);
  Ret (DlCommit leader false, commit).

(** The selected commits and those that are left. *)
Definition try_select_certified_leaders core (certified_commits : list CertifiedCommit) (limit : N)
    : outcome (list (DecidedLeader * CertifiedCommit) * list CertifiedCommit) :=
  _ ← assert_that (0 <? limit);
  match certified_commits with
  | [] => Ret ([], [])
  | _ =>
      let '(to_commit, rest) :=
        if limit <=? N.of_nat (length certified_commits)
        then (take (N.to_nat limit) certified_commits, drop (N.to_nat limit) certified_commits)
        else (certified_commits, []) in
      selected ← mapM (select_certified (core_committee core)) to_commit;
      Ret (selected, rest)
  end.

(** The leader schedule changes when as many commits as it lasts for have been scored. *)
Definition maybe_update_schedule core : outcome (Core S * N) :=
  commits_until_update ← commits_until_leader_schedule_update (leader_schedule core) (dag_state core);
  '(core, commits_until_update) ←
    (if commits_until_update =? 0 then
       '(schedule, d) ← update_leader_schedule_v2 (leader_schedule core) (dag_state core);
       let core := core <| leader_schedule := schedule |> <| dag_state := d |>
                        <| ancestor_state_manager :=
                             set_propagation_scores (ancestor_state_manager core)
                               (swap_reputation_scores (leader_swap_table schedule)) |> in
       commits_until_update ← commits_until_leader_schedule_update (leader_schedule core) (dag_state core);
       Ret (core, commits_until_update)
     else Ret (core, commits_until_update));
  _ ← assert_that (0 <? commits_until_update);
  Ret (core, commits_until_update).

(** The leaders that one iteration of the loop decides, with whether they were decided
    locally, and the certified commits that are left. *)
Definition decide_leaders core (certified_commits : list CertifiedCommit) (commits_until_update : N)
    : outcome (Core S * list DecidedLeader * bool * list CertifiedCommit) :=
  '(selected, certified_commits) ← try_select_certified_leaders core certified_commits commits_until_update;
  let '(certified_leaders, decided_certified_commits) := (selected.*1, selected.*2) in
  let blocks := decided_certified_commits ≫= cc_blocks in
  '(manager, d, _) ← try_accept_committed_blocks (block_manager core) (dag_state core) blocks;
  let core := core <| block_manager := manager |> <| dag_state := d |> in
  match certified_leaders with
  | [] =>
      decided_leaders ← try_decide (core_committer core) (dag_state core) (last_decided_leader core);
      let decided_leaders :=
        if commits_until_update <=? N.of_nat (length decided_leaders)
        then take (N.to_nat commits_until_update) decided_leaders else decided_leaders in
      Ret (core, decided_leaders, true, certified_commits)
  | _ => Ret (core, certified_leaders, false, certified_commits)
  end.

(** The [loop]; every iteration but the last commits a leader that was not committed. *)
Fixpoint commit_loop (fuel : nat) core (certified_commits : list CertifiedCommit)
    (committed_sub_dags : list CommittedSubDag) : core_result S (list CommittedSubDag) :=
  match fuel with
  | O => Panic
  | Datatypes.S fuel =>
      '(core, commits_until_update) ← maybe_update_schedule core;
      '(core, decided_leaders, local, certified_commits) ←
        decide_leaders core certified_commits commits_until_update;
      match last decided_leaders with
      | None => Ret (core, Ok committed_sub_dags)
      | Some last_decided =>
          let core := core <| last_decided_leader := DecidedLeader_slot last_decided |> in
          match omap into_committed_block decided_leaders with
          | [] => Ret (core, Ok committed_sub_dags)
          | sequenced_leaders =>
              '(observer, d, subdags) ←
                observer_handle_commit (commit_observer core) (dag_state core) (leader_schedule core)
                  sequenced_leaders local;
              let core := core <| commit_observer := observer |> <| dag_state := d |> in
              match subdags with
              | Err e => Ret (core, Err e)
              | Ok subdags =>
                  '(manager, d) ← try_unsuspend_blocks_for_latest_gc_round (block_manager core) (dag_state core);
                  let core := core <| block_manager := manager |> <| dag_state := d |> in
                  commit_loop fuel core certified_commits (committed_sub_dags ++ subdags)
              end
          end
      end
  end.

(** Every iteration that goes on commits a block that is cached, suspended or part of a
    certified commit. *)
Definition commit_fuel core (certified_commits : list CertifiedCommit) : nat :=
  2 + size (ds_recent_blocks (dag_state core)) + size (bm_suspended_blocks (block_manager core))
    + length (certified_commits ≫= cc_blocks).

(** The sub-DAGs of certified commits are those that were certified. *)
Definition check_certified (certified : gmap N CommitRef) (sub_dag : CommittedSubDag)
    : outcome (gmap N CommitRef) :=
  let index := cr_index (sd_commit_ref sub_dag) in
  match certified !! index with
  | Some commit_ref =>
      _ ← assert_that (bool_decide (commit_ref = sd_commit_ref sub_dag)); Ret (delete index certified)
  | None => Ret certified
  end.

Definition try_commit core (certified_commits : list CertifiedCommit) : core_result S (list CommittedSubDag) :=
  let certified_commits_map :=
    foldl (λ m c, <[tc_index (cc_commit c) := tc_reference (cc_commit c)]> m) ∅ certified_commits in
  let! (core, committed_sub_dags) := commit_loop (commit_fuel core certified_commits) core certified_commits [] in
  _ ← foldM check_certified certified_commits_map committed_sub_dags;
  let committed_block_refs :=
    reference <$> filter (λ b, vb_author b = own_index (core_context core))
                    (committed_sub_dags ≫= sd_blocks) in
  Ret (core <| transaction_consumer :=
         notify_own_blocks_status (transaction_consumer core) committed_block_refs
           (dag_gc_round (dag_state core)) |>, Ok committed_sub_dags).

Definition filter_new_commits core (commits : list CertifiedCommit) : ConsensusResult (list CertifiedCommit) :=
  let last_commit_index := last_commit_index (dag_state core) in
  let commits := filter (λ c, last_commit_index < tc_index (cc_commit c)) commits in
  match commits with
  | commit :: _ =>
      if tc_index (cc_commit commit) =? u32_add last_commit_index 1 then Ok commits
      else Err (UnexpectedCertifiedCommitIndex (u32_add last_commit_index 1) (tc_index (cc_commit commit)))
  | [] => Ok commits
  end.

(** * The operations of the core thread *)

Definition try_signal_new_round core : Core S :=
  let new_clock_round := threshold_clock_round core in
  if new_clock_round <=? last_signaled_round core then core
  else core <| signals := signal_new_round (signals core) new_clock_round |>
            <| last_signaled_round := new_clock_round |>.

Definition try_propose core (force : bool) (nows : N * N) : core_result S (option VerifiedBlock) :=
  if negb (should_propose core) then Ret (core, Ok None)
  else
    '(core, extended_block) ← try_new_block core force nows;
    match extended_block with
    | None => Ret (core, Ok None)
    | Some extended_block =>
        match signal_new_block (core_context core) (signals core) extended_block with
        | Err e => Ret (core, Err e)
        | Ok signals_ =>
            let core := core <| signals := signals_ |> in
            let! (core, _committed) := try_commit core [] in
            Ret (core, Ok (Some (eb_block extended_block)))
        end
    end.

Definition new_block core (round : N) (force : bool) (nows : N * N) : core_result S (option VerifiedBlock) :=
  last_round ← last_proposed_round core;
  if last_round <? round then
    '(core, result) ← try_propose core force nows;
    Ret (try_signal_new_round core, result)
  else Ret (core, Ok None).

Definition add_blocks core (blocks : list VerifiedBlock) (nows : N * N) : core_result S (gset BlockRef) :=
  '(manager, d, accepted_blocks, missing_block_refs) ←
    try_accept_blocks (block_manager core) (dag_state core) blocks;
  let core := core <| block_manager := manager |> <| dag_state := d |> in
  match accepted_blocks with
  | [] => Ret (core, Ok missing_block_refs)
  | _ =>
      let! (core, _committed) := try_commit core [] in
      let! (core, _proposed) := try_propose core false nows in
      Ret (try_signal_new_round core, Ok missing_block_refs)
  end.

Definition add_certified_commits core (commits : CertifiedCommits) (nows : N * N)
    : core_result S (gset BlockRef) :=
  match filter_new_commits core (certified_commits commits) with
  | Err _ => Panic
  | Ok new_commits =>
      '(manager, d, _, missing_block_refs) ←
        try_accept_blocks (block_manager core) (dag_state core) (certified_votes commits);
      let core := core <| block_manager := manager |> <| dag_state := d |> in
      let! (core, _committed) := try_commit core new_commits in
      let! (core, _proposed) := try_propose core false nows in
      Ret (try_signal_new_round core, Ok missing_block_refs)
  end.

Definition check_block_refs core (block_refs : list BlockRef) : core_result S (gset BlockRef) :=
  '(manager, missing_block_refs) ← try_find_blocks (block_manager core) (dag_state core) block_refs;
  Ret (core <| block_manager := manager |>, Ok missing_block_refs).

Definition get_missing_blocks core : gset BlockRef := missing_blocks (block_manager core).

(** [unwrap] of a result. *)
Definition unwrap_result {A} (m : core_result S A) : outcome (Core S * A) :=
  '(core, r) ← m; match r with Ok a => Ret (core, a) | Err _ => Panic end.

Definition core_recover core (nows : N * N) : outcome (Core S) :=
  '(core, _) ← unwrap_result (try_commit core []);
  '(core, proposed) ← unwrap_result (try_propose core true nows);
  core ← match proposed with
         | Some _ => Ret core
         | None =>
             last_proposed ← last_proposed_block core;
             _ ← assert_that (implb (should_propose core) (GENESIS_ROUND <? vb_round last_proposed));
             match signal_new_block (core_context core) (signals core) (mkExtendedBlock last_proposed []) with
             | Ok signals_ => Ret (core <| signals := signals_ |>)
             | Err _ => Panic
             end
         end;
  Ret (try_signal_new_round core).

Definition Core_new (context : Context) (schedule : LeaderSchedule) (consumer : TransactionConsumer)
    (certifier : TransactionCertifier) (manager : BlockManager) (subscriber_exists_ : bool)
    (observer : CommitObserver) (signals_ : CoreSignals) (signer : list Byte.byte) (d : DagState S)
    (sync_last_known_own_block : bool) (tracker : PeerRoundTracker) (nows : N * N) : outcome (Core S) :=
  last_decided ← last_commit_leader d;
  last_proposed ← get_last_proposed_block d;
  last_included ← foldM (λ l r, vec_set l (br_author r) (Some r))
                    (replicate (N.to_nat (Committee_size (committee context))) None)
                    (vb_ancestors last_proposed);
  let min_propose_round := if sync_last_known_own_block then None else Some 0 in
  let ancestor_manager :=
    set_propagation_scores (AncestorStateManager_new context)
      (swap_reputation_scores (leader_swap_table schedule)) in
  core_recover (mkCore context consumer certifier manager subscriber_exists_ 0 (vb_round last_proposed)
    last_included last_decided schedule observer signals_ signer d min_propose_round ancestor_manager tracker) nows.
End Commits.
