(* ===== verification/ProposalState.v ===== *)
(** What the core needs to know of the DAG state to propose: the threshold clock stands one
    round above a quorum of cached blocks, nothing above the garbage collection round is
    evicted, and the last cached block of every authority below the clock is found. *)

From stdpp Require Import base tactics numbers list gmap sorting strings.
From coqutil Require Import Datatypes.RecordSettersUsingExistingGetters.
From S2P Require Import Prelude.
From S2P Require Import Committee.
From S2P Require Import Block.
From S2P Require Import StakeAggregator.
From S2P Require Import ThresholdClock.
From S2P Require Import Commit.
From S2P Require Import Store.
From S2P Require Import DagState.
From S2P Require Import DagInvariant.
From S2P Require Import LeaderSchedule.
From S2P Require Import BaseCommitter.
From S2P Require Import CommitSafety.
From S2P Require Import Linearizer.
From S2P Require Import BlockManager.

Open Scope N_scope.

(** * The clock against the cache *)

Section ClockState.
Context {S : Type} `{StoreSpec S}.
Implicit Types d : DagState S.

Definition clock_of d : N := clock_round (ds_threshold_clock d).

(** The authors of the cached blocks of a round. *)
Definition authors_cached d (round : N) : gset N :=
  list_to_set (br_author <$> filter (λ r, br_round r = round) (elements (dom (ds_recent_blocks d)))).

Lemma elem_of_authors_cached d round a :
  a ∈ authors_cached d round ↔
  ∃ r, is_Some (ds_recent_blocks d !! r) ∧ br_round r = round ∧ br_author r = a.
Proof.
  unfold authors_cached. rewrite elem_of_list_to_set, list_elem_of_fmap. split.
  - intros (r & -> & Hr). apply list_elem_of_filter in Hr as [? Hr].
    exists r. by rewrite <- elem_of_dom, <- elem_of_elements.
  - intros (r & Hr & ? & <-). exists r. split; [done|]. apply list_elem_of_filter.
    split; [done|]. by rewrite elem_of_elements, elem_of_dom.
Qed.

(** The part of the state that the clock invariant reads. *)
Record clock_ok d : Prop := {
  ck_pos : 1 ≤ clock_of d;
  ck_high : ∀ r, is_Some (ds_recent_blocks d !! r) → br_round r ≤ clock_of d;
  ck_quorum : clock_of d = 1 ∨
    reached_quorum (dag_committee d) (weight (dag_committee d) (authors_cached d (clock_of d - 1))) = true;
  ck_agg : ∃ A, agg_repr (dag_committee d) A (clock_aggregator (ds_threshold_clock d)) ∧
    A ⊆ authors_cached d (clock_of d);
  ck_commit : last_commit_round d ≤ clock_of d;
  ck_depth : 2 ≤ gc_depth (protocol_config (ds_context d));
  ck_evicted : ∀ a e, ds_evicted_rounds d !! a = Some e → e ≤ dag_gc_round d;
}.

(** Garbage collection stays below the parents of the next block. *)
Lemma clock_above_gc d : clock_ok d → clock_of d = 1 ∨ dag_gc_round d + 1 < clock_of d.
Proof.
  intros [Hpos _ _ _ Hc Hd _]. unfold dag_gc_round, calculate_gc_round, saturating_sub. lia.
Qed.

Lemma quorum_mono d (X Y : gset N) :
  X ⊆ Y →
  reached_quorum (dag_committee d) (weight (dag_committee d) X) = true →
  reached_quorum (dag_committee d) (weight (dag_committee d) Y) = true.
Proof. intros HXY. apply (is_threshold_mono _ QuorumThreshold X Y HXY). Qed.

(** A state with the same clock, cache above the garbage collection round and commits. *)
Lemma clock_ok_frame d d' :
  dag_wf d → clock_ok d → ds_context d' = ds_context d → ds_threshold_clock d' = ds_threshold_clock d →
  (∀ r, is_Some (ds_recent_blocks d' !! r) → is_Some (ds_recent_blocks d !! r)) →
  (∀ r, is_Some (ds_recent_blocks d !! r) → dag_gc_round d < br_round r → is_Some (ds_recent_blocks d' !! r)) →
  last_commit_round d ≤ last_commit_round d' → last_commit_round d' ≤ clock_of d →
  (∀ a e, ds_evicted_rounds d' !! a = Some e → e ≤ dag_gc_round d') →
  clock_ok d'.
Proof.
  intros Hwf Hck Hctx Hclk Hsub Hkeep Hmono Hlast Hev. pose proof (clock_above_gc d Hck) as Hgc.
  pose proof Hck as [Hpos Hhigh Hq (A & HA & Hsub') Hcom Hdep _].
  assert (clock_of d' = clock_of d) as Hc by (unfold clock_of; by rewrite Hclk).
  assert (dag_committee d' = dag_committee d) as Hcom' by (unfold dag_committee; by rewrite Hctx).
  split; rewrite ?Hc, ?Hcom', ?Hclk, ?Hctx; try done.
  - intros r Hr. by apply Hhigh, Hsub.
  - destruct Hq as [?|Hq]; [by left|right]. eapply (quorum_mono d); [|exact Hq].
    intros a. rewrite !elem_of_authors_cached. intros (r & Hr & Hround & Ha). exists r.
    split; [|done]. apply Hkeep; [done|].
    destruct (decide (clock_of d = 1)) as [H1|H1]; [|lia].
    (* a cached block has a positive round *)
    destruct Hr as [i Hi]. destruct (dwf_recent d (dwf_cache d Hwf) r i Hi) as (_ & _ & ? & _). lia.
  - exists A. split; [done|]. intros a Ha. specialize (Hsub' a Ha).
    rewrite elem_of_authors_cached in Hsub' |- *. destruct Hsub' as (r & Hr & Hround & Hra). exists r.
    split; [|done]. apply Hkeep; [done|]. destruct Hgc as [H1|Hgc]; [|lia].
    destruct Hr as [i Hi]. destruct (dwf_recent d (dwf_cache d Hwf) r i Hi) as (_ & _ & ? & _).
    unfold dag_gc_round, calculate_gc_round, saturating_sub. lia.
Qed.

(** What accepting a new block does to the rest of the state. *)
Lemma accept_block_clock d b d' :
  accept_block d b = Ret d' →
  d' = d ∨
  ∃ t adv, clock_add_block (dag_committee d) (ds_threshold_clock d) (reference b) = Ret (t, adv) ∧
    ds_threshold_clock d' = t ∧ ds_evicted_rounds d' = ds_evicted_rounds d ∧
    ds_recent_blocks d' = <[reference b := BlockInfo_new b]> (ds_recent_blocks d) ∧
    ds_context d' = ds_context d ∧ ds_last_commit d' = ds_last_commit d ∧
    ds_highest_accepted_round d' = N.max (ds_highest_accepted_round d) (vb_round b).
Proof.
  unfold accept_block. intros Hrun. outcome_inv. destruct x0; [outcome_inv; by left|right].
  outcome_inv. unfold update_block_metadata in *. outcome_inv.
  destruct_and?. repeat case_match; outcome_inv. all: by eexists _, _.
Qed.


(** The clock after one more block: it stays, or moves to one above a quorum. *)
Lemma clock_ok_accept d b d' :
  dag_wf d → clock_ok d → no_dominant (dag_committee d) → vb_round b < u32_max →
  is_valid_index (dag_committee d) (vb_author b) = true →
  quorum_parents (dag_committee d) b →
  (∀ a, a ∈ vb_ancestors b → br_round a + 1 = vb_round b → 0 < br_round a → dag_gc_round d < br_round a →
     is_Some (ds_recent_blocks d !! a)) →
  accept_block d b = Ret d' → clock_ok d'.
Proof.
  intros Hwf Hck Hdom Hmax Hval Hpar Hanc Hrun.
  destruct (accept_block_clock d b d' Hrun) as [->|(t & adv & Hadd & Ht & Hev & Hrec & Hctx & Hlc & _)]; [done|].
  pose proof (clock_above_gc d Hck) as Hgc.
  pose proof Hck as [Hpos Hhigh Hq (A & HA & Hsub) Hcom Hdep Hevd].
  pose proof (dwf_committee d (dwf_cache d Hwf)) as Hcwf.
  assert (dag_committee d' = dag_committee d) as Hc' by (unfold dag_committee; by rewrite Hctx).
  assert (dag_gc_round d' = dag_gc_round d) as Hgc'
    by (unfold dag_gc_round, calculate_gc_round, last_commit_round; by rewrite Hctx, Hlc).
  assert (∀ a r, a ∈ authors_cached d r → a ∈ authors_cached d' r) as Hgrow.
  { intros a r. rewrite !elem_of_authors_cached. intros (x & Hx & ?). exists x. split; [|done].
    rewrite Hrec. destruct (decide (reference b = x)) as [<-|]; [by rewrite lookup_insert_eq|by rewrite lookup_insert_ne]. }
  assert (vb_author b ∈ authors_cached d' (vb_round b)) as Hown.
  { apply elem_of_authors_cached. exists (reference b). by rewrite Hrec, lookup_insert_eq. }
  assert (∀ r, is_Some (ds_recent_blocks d' !! r) → r = reference b ∨ is_Some (ds_recent_blocks d !! r)) as Hold.
  { intros r. rewrite Hrec. destruct (decide (reference b = r)) as [<-|]; [by left|].
    rewrite lookup_insert_ne by done. by right. }
  assert (last_commit_round d' = last_commit_round d) as Hlr by (unfold last_commit_round; by rewrite Hlc).
  assert (clock_of d' = clock_round t) as Hct by (unfold clock_of; by rewrite Ht).
  enough (clock_of d ≤ clock_round t ∧ vb_round b ≤ clock_round t ∧
    (clock_round t = 1 ∨ reached_quorum (dag_committee d) (weight (dag_committee d)
       (authors_cached d' (clock_round t - 1))) = true) ∧
    ∃ A', agg_repr (dag_committee d) A' (clock_aggregator t) ∧ A' ⊆ authors_cached d' (clock_round t))
    as (Hle & Hb & Hq' & Hagg).
  { split; rewrite ?Hc', ?Hct, ?Ht, ?Hctx, ?Hgc', ?Hlr, ?Hev; try done; try lia.
    intros r [->|Hr]%Hold; [done|]. specialize (Hhigh r Hr). lia. }
  clear Hct Hlr Ht. unfold clock_add_block in Hadd.
  change (br_round (reference b)) with (vb_round b) in Hadd.
  change (br_author (reference b)) with (vb_author b) in Hadd.
  fold (clock_of d) in Hadd. destruct (N.compare_spec (vb_round b) (clock_of d)) as [Heq|Hlt|Hgt].
  - destruct (agg_add_repr (dag_committee d) Hcwf QuorumThreshold A _ (vb_author b) HA Hval) as (s' & Hs' & Hrepr).
    rewrite Hs' in Hadd. cbn in Hadd.
    assert ({[vb_author b]} ∪ A ⊆ authors_cached d' (clock_of d)) as Hsub'.
    { intros a [->%elem_of_singleton|Ha]%elem_of_union; [by rewrite <- Heq|]. by apply Hgrow, Hsub. }
    destruct (reached_quorum _ _) eqn:Hr; injection Hadd as <- <-; cbn [clock_round clock_aggregator].
    + rewrite u32_add_small by (unfold u32_max in *; lia). split; [lia|]. split; [lia|]. split.
      * right. replace (vb_round b + 1 - 1) with (clock_of d) by lia. by eapply (quorum_mono d).
      * exists ∅. split; [apply agg_repr_clear|]. intros a ?%not_elem_of_empty. done.
    + fold (clock_of d). split; [done|]. split; [lia|]. split.
      * destruct Hq as [?|Hq]; [by left|right]. eapply (quorum_mono d); [|exact Hq]. intros a. apply Hgrow.
      * by exists ({[vb_author b]} ∪ A).
  - injection Hadd as <- <-. fold (clock_of d). split; [done|]. split; [lia|]. split.
    + destruct Hq as [?|Hq]; [by left|right]. eapply (quorum_mono d); [|exact Hq]. intros a. apply Hgrow.
    + exists A. split; [done|]. intros a Ha. by apply Hgrow, Hsub.
  - destruct (agg_add_repr (dag_committee d) Hcwf QuorumThreshold ∅ _ (vb_author b)
      (agg_repr_clear _ (clock_aggregator (ds_threshold_clock d))) Hval)
      as (s' & Hs' & Hrepr). rewrite Hs' in Hadd. cbn in Hadd.
    unfold is_threshold in Hadd. rewrite (not_quorum_singleton _ Hdom) in Hadd.
    injection Hadd as <- <-. cbn [clock_round clock_aggregator]. split; [lia|]. split; [done|]. split.
    + right. eapply (quorum_mono d); [|exact Hpar]. intros a.
      rewrite elem_of_list_to_set, list_elem_of_fmap. intros (r & -> & [Hr Hin]%list_elem_of_filter).
      apply Hgrow. apply elem_of_authors_cached. exists r. split; [|split; [lia|done]].
      apply Hanc; [done|done|lia|]. destruct Hgc as [H1|?]; [|lia].
      unfold dag_gc_round, calculate_gc_round, saturating_sub. lia.
    + exists ({[vb_author b]} ∪ ∅). split; [done|]. intros a. rewrite elem_of_union, elem_of_singleton.
      intros [->|?%not_elem_of_empty]; done.
Qed.

Lemma evict_authority_clock d a d' :
  evict_authority d a = Ret d' →
  ds_threshold_clock d' = ds_threshold_clock d ∧ ds_context d' = ds_context d ∧
  ds_last_commit d' = ds_last_commit d ∧ ds_highest_accepted_round d' = ds_highest_accepted_round d ∧
  (∀ r, is_Some (ds_recent_blocks d' !! r) → is_Some (ds_recent_blocks d !! r)) ∧
  ∀ i e, ds_evicted_rounds d' !! i = Some e → ds_evicted_rounds d !! i = Some e ∨ e ≤ dag_gc_round d.
Proof.
  unfold evict_authority, calculate_authority_eviction_round. intros Hrun. outcome_inv. cbn.
  do 4 (split; [done|]). split.
  - intros r. rewrite foldl_delete. case_decide; [by intros [? ?]|done].
  - intros i e Hi. destruct (decide (i = N.to_nat a)) as [->|Hne].
    + rewrite list_lookup_insert_eq in Hi by done. injection Hi as <-. right. unfold eviction_round. lia.
    + rewrite list_lookup_insert_ne in Hi by done. by left.
Qed.

Lemma flush_clock d d' :
  flush d = Ret d' →
  ds_threshold_clock d' = ds_threshold_clock d ∧ ds_context d' = ds_context d ∧
  ds_last_commit d' = ds_last_commit d ∧ ds_highest_accepted_round d' = ds_highest_accepted_round d ∧
  (∀ r, is_Some (ds_recent_blocks d' !! r) → is_Some (ds_recent_blocks d !! r)) ∧
  ∀ i e, ds_evicted_rounds d' !! i = Some e → ds_evicted_rounds d !! i = Some e ∨ e ≤ dag_gc_round d.
Proof.
  set (P (x : DagState S) := ds_threshold_clock x = ds_threshold_clock d ∧ ds_context x = ds_context d ∧
    ds_last_commit x = ds_last_commit d ∧ ds_highest_accepted_round x = ds_highest_accepted_round d ∧
    (∀ r, is_Some (ds_recent_blocks x !! r) → is_Some (ds_recent_blocks d !! r)) ∧
    ∀ i e, ds_evicted_rounds x !! i = Some e → ds_evicted_rounds d !! i = Some e ∨ e ≤ dag_gc_round d).
  change (flush d = Ret d' → P d'). unfold flush.
  set (d0 := set ds_finalized_commits_to_write _ _). assert (P d0) as H0' by (repeat split; cbn; auto).
  assert (∀ d1, P d1 → foldM (λ d e, evict_authority d e.1) d1 (Committee_enumerate (dag_committee d0)) = Ret d' → P d')
    as Hfold.
  { intros d1 H1 Hrun. eapply (foldM_inv P); [exact H1| |exact Hrun].
    intros x e x' _ (Hc & Hx & Hl & Hh & Hr & He) Hev.
    destruct (evict_authority_clock x e.1 x' Hev) as (? & Hx' & Hl' & ? & Hr' & He').
    assert (dag_gc_round x = dag_gc_round d) as Hgc
      by (unfold dag_gc_round, calculate_gc_round, last_commit_round; by rewrite Hx, Hl).
    split; [congruence|]. split; [congruence|]. split; [congruence|]. split; [congruence|]. split; [auto|].
    intros i y Hy. destruct (He' i y Hy) as [?|?]; [by apply He|right; lia]. }
  cbn [wb_blocks wb_commits wb_commit_info wb_finalized_commits].
  destruct (ds_blocks_to_write d), (ds_commits_to_write d), (ds_commit_info_to_write d),
    (ds_finalized_commits_to_write d); intros Hrun; [by injection Hrun as <-|..];
    apply bind_Ret in Hrun as (st & Hst & Hrun); eapply Hfold; try exact Hrun; repeat split; cbn; auto.
Qed.

Lemma clock_ok_flush d d' : dag_wf d → clock_ok d → flush d = Ret d' → clock_ok d'.
Proof.
  intros Hwf Hck Hrun. destruct (flush_spec d Hwf) as (d1 & Hrun' & _ & _ & Hgc & Hkeep & _).
  rewrite Hrun in Hrun'. injection Hrun' as <-.
  destruct (flush_clock d d' Hrun) as (? & ? & Hl & _ & Hsub & Hev).
  assert (last_commit_round d' = last_commit_round d) as Hlr by (unfold last_commit_round; by rewrite Hl).
  apply (clock_ok_frame d); try done.
  - intros r [i Hi] Hr. exists i. by apply Hkeep.
  - rewrite Hlr. lia.
  - rewrite Hlr. apply Hck.
  - intros a e He. rewrite Hgc. destruct (Hev a e He) as [He'|?]; [by apply (ck_evicted d Hck a)|done].
Qed.

Section Steps.
Context (ctx : Context) (byz : gset N) (G : universe).
Let c := committee ctx.
Context (HG : bft c byz G) (Hdom : no_dominant c) (Hrounds : ∀ b, block_in G b → vb_round b + 4 < u32_max).

Lemma clock_ok_step d log d' :
  node_ok ctx G d log → clock_ok d → node_step ctx G d d' → clock_ok d'.
Proof.
  intros Hd Hck Hstep. pose proof (no_view _ _ _ _ Hd) as Hv. pose proof (v_ok _ _ _ Hv) as Hok.
  destruct Hstep as [b HGb (_ & Hpos & Hval) Hanc Hrun|Hrun].
  - pose proof (v_committee _ _ _ Hv) as Hc.
    apply (clock_ok_accept d b); [apply (vo_wf _ Hok)|done|by rewrite Hc| |done|rewrite Hc| |done].
    + specialize (Hrounds b HGb). lia.
    + by apply (bft_parents _ _ _ HG b).
    + intros a Ha Hr Hz Hgc. destruct (Hanc a Ha) as [_ Hk]. destruct Hk as [x Hx]; [by right|].
      destruct (dag_lookup_cached d a x (vo_wf _ Hok) Hx Hgc) as (i & Hi & _). by eexists.
  - eapply clock_ok_flush; [apply (vo_wf _ Hok)|done|done].
Qed.

Lemma clock_ok_steps d log d' :
  node_ok ctx G d log → clock_ok d → rtc (node_step ctx G) d d' → clock_ok d'.
Proof.
  intros Hd Hck Hsteps. revert Hd Hck. induction Hsteps as [d|d d1 d2 Hs _ IH]; intros Hd Hck; [done|].
  apply IH; [by eapply node_step_ok|by eapply clock_ok_step].
Qed.
End Steps.
End ClockState.

(** * The last cached block of every authority *)

(** The blocks of an authority between two rounds, in the order of the cache. *)
Lemma author_range_excl a lo hi r :
  br_author r = a →
  in_range_excl (mkBlockRef lo a Digest_MIN) (mkBlockRef hi a Digest_MIN) r = true ↔
  lo ≤ br_round r ∧ br_round r < hi.
Proof.
  intros Ha. unfold in_range_excl, Digest_MIN. rewrite andb_true_iff, BlockRef_leb_iff, BlockRef_ltb_iff.
  cbn. lia.
Qed.

Lemma equivocations_tail refs last_round acc :
  last_round ≠ 0 →
  ∃ eq, last_and_equivocations refs last_round acc = (acc.1, acc.2 ++ eq) ∧ ∀ r, r ∈ eq → r ∈ refs.
Proof.
  intros Hl. revert acc. induction refs as [|r refs IH]; intros acc; cbn [last_and_equivocations].
  { exists []. rewrite app_nil_r. split; [by destruct acc|done]. }
  rewrite (proj2 (N.eqb_neq _ _) Hl). destruct (br_round r <? last_round).
  { exists []. rewrite app_nil_r. split; [by destruct acc|]. by intros x ?%elem_of_nil. }
  destruct (IH (acc.1, acc.2 ++ [r])) as (eq & -> & Heq). exists (r :: eq). cbn.
  rewrite <- app_assoc. split; [done|]. intros x [->|Hx]%elem_of_cons; [apply list_elem_of_here|].
  apply list_elem_of_further. by apply Heq.
Qed.

Lemma last_and_equivocations_head refs :
  (∀ r, r ∈ refs → br_round r ≠ 0) →
  ∃ eq, last_and_equivocations refs 0 (None, []) = (head refs, eq) ∧ ∀ r, r ∈ eq → r ∈ refs.
Proof.
  intros Hpos. destruct refs as [|r refs]; [by exists []|]. cbn [last_and_equivocations snd]. rewrite N.eqb_refl.
  destruct (equivocations_tail refs (br_round r) (Some r, [])) as (eq & Hrun & Heq);
    [apply Hpos, list_elem_of_here|].
  exists eq. rewrite Hrun. split; [done|]. intros x Hx. apply list_elem_of_further. by apply Heq.
Qed.

Section LastCached.
Context {S : Type} `{StoreSpec S} (d : DagState S).
Context (Hwf : dag_wf d) (Hck : clock_ok d) (Hmax : clock_of d ≤ u32_max).
Let c := dag_committee d.
Let R := clock_of d.
Let n := length (committee_authorities c).

(** One genesis block per authority. *)
Definition genesis_ok : Prop :=
  br_author <$> (map_iter BlockRef_leb (ds_genesis d)).*1 = N.of_nat <$> seq 0 n.

Context (Hgen : genesis_ok).

Let genesis := snd <$> map_iter BlockRef_leb (ds_genesis d).

Lemma genesis_list_spec i b :
  genesis !! i = Some b → vb_author b = N.of_nat i ∧ vb_round b = 0 ∧ dag_lookup d (reference b) = Some b.
Proof.
  intros Hb. unfold genesis in Hb. rewrite list_lookup_fmap in Hb. apply fmap_Some in Hb as ([r b'] & Hi & ->).
  pose proof Hi as Hin. apply list_elem_of_lookup_2, elem_of_map_iter in Hin. cbn.
  destruct (dwf_genesis d (dwf_cache d Hwf) r b' Hin) as [Hr Hz].
  assert ((br_author <$> (map_iter BlockRef_leb (ds_genesis d)).*1) !! i = Some (br_author r)) as Ha
    by (by rewrite !list_lookup_fmap, Hi). rewrite Hgen, list_lookup_fmap in Ha.
  apply fmap_Some in Ha as (k & Hk & Ha). apply lookup_seq in Hk as [-> _]. cbn in Ha.
  split; [by rewrite <- reference_author, Hr|]. split; [by rewrite <- reference_round, Hr|].
  unfold dag_lookup. by rewrite Hr, Hz.
Qed.

Lemma genesis_length : length genesis = n.
Proof.
  unfold genesis. rewrite length_fmap. apply (f_equal length) in Hgen. rewrite !length_fmap, length_seq in Hgen. done.
Qed.

(** What the loop establishes for the first [k] authorities. *)
Record last_cached (k : nat) (blocks : list VerifiedBlock) (equivocating : list (list BlockRef)) : Prop := {
  lc_blocks : length blocks = n;
  lc_equivocating : length equivocating = n;
  lc_block : ∀ i b, blocks !! i = Some b →
    vb_author b = N.of_nat i ∧ vb_round b < R ∧ dag_lookup d (reference b) = Some b;
  lc_last : ∀ i b r, blocks !! i = Some b → (i < k)%nat → is_Some (ds_recent_blocks d !! r) →
    br_author r = N.of_nat i → br_round r + 1 = R → vb_round b + 1 = R;
  lc_authors : ∀ i eq r, equivocating !! i = Some eq → r ∈ eq → br_author r = N.of_nat i;
}.

Lemma last_cached_step_spec k refs blocks equivocating :
  1 < R → last_cached k blocks equivocating → ds_recent_refs_by_authority d !! k = Some refs →
  ∃ blocks' equivocating', last_cached_step d R (blocks, equivocating) (k, refs) = Ret (blocks', equivocating') ∧
    last_cached (Datatypes.S k) blocks' equivocating'.
Proof.
  intros HR [Hlb Hle Hb Hlast Hau] Hrefs. unfold last_cached_step. cbn [fst snd].
  pose proof (dwf_cache d Hwf) as Hcw.
  assert (k < n)%nat as Hk.
  { apply lookup_lt_Some in Hrefs. pose proof (dwf_refs_len d Hcw). unfold Committee_size in *. fold c in H1. lia. }
  assert (is_valid_index (dag_committee d) (N.of_nat k) = true) as Hval
    by (unfold is_valid_index, Committee_size; fold c n; apply bool_decide_true; lia).
  assert (to_authority_index (dag_committee d) (N.of_nat k) = Some (N.of_nat k)) as ->.
  { unfold to_authority_index. rewrite decide_True; [done|]. unfold Committee_size. fold c n. lia. }
  cbn [expect mbind outcome_bind].
  destruct (lookup_lt_is_Some_2 (ds_evicted_rounds d) k) as [e He].
  { pose proof (dwf_evicted_len d Hcw) as Hl. unfold Committee_size in Hl. fold c n in Hl. lia. }
  assert (vec_get (ds_evicted_rounds d) (N.of_nat k) = Ret e) as -> by (apply vec_get_Ret; by rewrite Nat2N.id).
  cbn [mbind outcome_bind]. pose proof (ck_evicted d Hck k e He) as Hegc.
  destruct (clock_above_gc d Hck) as [?|Hgc]; [unfold R in HR; lia|]. fold R in Hgc.
  unfold saturating_sub. rewrite (proj2 (N.leb_gt (R - 1) e)) by lia. cbn [negb assert_that mbind outcome_bind].
  rewrite u32_add_small by (unfold u32_max in Hmax; fold R in Hmax; lia).
  set (range := filter _ _).
  assert (∀ r, r ∈ range ↔ is_Some (ds_recent_blocks d !! r) ∧ br_author r = N.of_nat k ∧ e + 1 ≤ br_round r ∧ br_round r < R)
    as Hrange.
  { intros r. unfold range. rewrite list_elem_of_filter, elem_of_set_iter, Is_true_true.
    rewrite (dwf_refs d Hcw k refs Hrefs r). split.
    - intros [Hr [? Ha]]. apply author_range_excl in Hr; [|done]. naive_solver.
    - intros (? & Ha & Hr). split; [|done]. by apply author_range_excl. }
  assert (StronglySorted BlockRef_leb range) as Hsorted by apply StronglySorted_filter, set_iter_sorted.
  destruct (last_and_equivocations_head (reverse range)) as (eq & -> & Heq).
  { intros r Hr. rewrite reverse_Permutation in Hr. apply Hrange in Hr. lia. }
  rewrite head_reverse. destruct (last range) as [l|] eqn:Hl.
  - pose proof (last_Some_elem_of _ _ Hl) as Hlin. apply Hrange in Hlin as ([i Hi] & Hla & _ & Hlr).
    rewrite Hi. cbn [expect mbind outcome_bind].
    assert (∀ A (xs : list A) x, length xs = n → vec_set xs (N.of_nat k) x = Ret (<[k := x]> xs)) as Hset.
    { intros A xs x Hlen. unfold vec_set. rewrite Nat2N.id, decide_True by lia. done. }
    rewrite (Hset _ blocks) by done. cbn [mbind outcome_bind]. rewrite (Hset _ equivocating) by done.
    cbn [mbind outcome_bind]. eexists _, _. split; [done|].
    destruct (dwf_recent d Hcw l i Hi) as (Hrefl & _).
    split; rewrite ?length_insert; try done.
    + intros j b [(<- & <- & _)|[Hne Hj]]%list_lookup_insert_Some; [|by apply Hb].
      rewrite <- reference_author, <- reference_round, Hrefl. split; [done|]. split; [done|].
      by apply dag_lookup_recent.
    + intros j b r Hj Hjk Hr Hra Hrr. apply list_lookup_insert_Some in Hj as [(<- & <- & _)|[Hne Hj]].
      * assert (r ∈ range) as Hin by (apply Hrange; split; [done|]; split; [done|]; lia).
        pose proof (sorted_last range l r Hsorted Hl Hin) as Hle_r%BlockRef_leb_round.
        rewrite <- reference_round, Hrefl. lia.
      * apply (Hlast j b r); try done. lia.
    + intros j q r [(<- & <- & _)|[Hne Hj]]%list_lookup_insert_Some Hr; [|by eapply Hau].
      apply Heq in Hr. rewrite reverse_Permutation in Hr. apply Hrange in Hr. naive_solver.
  - exists blocks, equivocating. split; [done|]. split; try done.
    intros j b r Hj Hjk Hr Hra Hrr. destruct (decide (j = k)) as [->|]; [exfalso|apply (Hlast j b r); try done; lia].
    apply last_None in Hl. assert (r ∈ range) as Hin by (apply Hrange; split; [done|]; split; [done|]; lia).
    rewrite Hl in Hin. by apply elem_of_nil in Hin.
Qed.

Lemma last_cached_fold k :
  1 < R → (k ≤ n)%nat →
  ∃ blocks equivocating,
    foldM (last_cached_step d R) (genesis, replicate n []) (take k (imap pair (ds_recent_refs_by_authority d)))
      = Ret (blocks, equivocating) ∧ last_cached k blocks equivocating.
Proof.
  intros HR. induction k as [|k IH]; intros Hk.
  { exists genesis, (replicate n []). split; [done|]. split.
    - apply genesis_length.
    - apply length_replicate.
    - intros i b Hi. apply genesis_list_spec in Hi as (? & -> & ?). split; [done|]. split; [lia|done].
    - intros. lia.
    - intros i eq r [-> _]%lookup_replicate. by intros ?%elem_of_nil. }
  destruct IH as (blocks & equivocating & Hrun & Hinv); [lia|].
  destruct (lookup_lt_is_Some_2 (ds_recent_refs_by_authority d) k) as [refs Hrefs].
  { pose proof (dwf_refs_len d (dwf_cache d Hwf)) as Hl. unfold Committee_size in Hl. fold c n in Hl. lia. }
  destruct (last_cached_step_spec k refs blocks equivocating HR Hinv Hrefs) as (b' & e' & Hstep & Hinv').
  exists b', e'. split; [|done].
  rewrite (take_S_r _ _ (k, refs)) by (by rewrite list_lookup_imap, Hrefs).
  rewrite foldM_app, Hrun. cbn [mbind outcome_bind foldM]. by rewrite Hstep.
Qed.

Lemma last_cached_blocks :
  ∃ l, get_last_cached_block_per_authority d R = Ret l ∧ length l = n ∧
    ∀ i b eq, l !! i = Some (b, eq) →
      (vb_author b = N.of_nat i ∧ vb_round b < R ∧ dag_lookup d (reference b) = Some b) ∧
      (∀ r, is_Some (ds_recent_blocks d !! r) → br_author r = N.of_nat i → br_round r + 1 = R → vb_round b + 1 = R) ∧
      ∀ r, r ∈ eq → br_author r = N.of_nat i.
Proof.
  unfold get_last_cached_block_per_authority, GENESIS_ROUND. fold genesis c.
  pose proof (ck_pos d Hck) as Hpos. fold R in Hpos.
  rewrite (proj2 (N.eqb_neq R 0)) by lia. destruct (N.eqb_spec R (0 + 1)) as [H1|H1].
  - eexists. split; [done|]. rewrite length_fmap. split; [apply genesis_length|].
    intros i b eq Hi. rewrite list_lookup_fmap in Hi. apply fmap_Some in Hi as (b' & Hb & [= -> ->]).
    apply genesis_list_spec in Hb as (? & Hz & ?). split; [split; [done|split; [lia|done]]|].
    split; [intros; lia|]. by intros r ?%elem_of_nil.
  - assert (1 < R) as HR by lia.
    destruct (last_cached_fold n HR (le_n n)) as (blocks & equivocating & Hrun & [Hlb Hle Hb Hlast Hau]).
    assert (length (imap pair (ds_recent_refs_by_authority d)) = n) as Hli.
    { rewrite length_imap. pose proof (dwf_refs_len d (dwf_cache d Hwf)) as Hl.
      unfold Committee_size in Hl. fold c n in Hl. lia. }
    rewrite take_ge in Hrun by lia. unfold Committee_size. fold n. rewrite Nat2N.id. rewrite Hrun.
    cbn [mbind outcome_bind]. eexists. split; [done|]. rewrite length_zip_with. split; [lia|].
    intros i b eq Hi. apply lookup_zip_with_Some in Hi as (b' & eq' & [= -> ->] & Hbi & Hei).
    split; [by apply Hb|]. split; [|intros r Hr; by apply (Hau i eq')].
    intros r. apply (Hlast i); [done|]. apply lookup_lt_Some in Hbi. lia.
Qed.
End LastCached.

(** * The last own block *)

Lemma last_proposed_spec {S} `{StoreSpec S} (d : DagState S) :
  dag_wf d →
  ∃ b, get_last_proposed_block d = Ret b ∧ vb_author b = own_index (ds_context d) ∧
    dag_lookup d (reference b) = Some b ∧
    ∀ r, is_Some (dag_lookup d r) → br_author r = own_index (ds_context d) → br_round r ≤ vb_round b.
Proof.
  intros Hwf. pose proof (dwf_cache d Hwf) as Hc.
  destruct (get_last_block_Ret d _ Hc (dwf_own d Hc)) as (b & Hb & Ha & Hl).
  exists b. split; [done|]. split; [done|]. split; [done|].
  destruct (recent_refs_at d _ Hc (dwf_own d Hc)) as (refs & Hget & _ & Hrefs).
  unfold get_last_block_for_authority in Hb. rewrite Hget in Hb. cbn in Hb.
  assert (∀ r, is_Some (ds_recent_blocks d !! r) → br_author r = own_index (ds_context d) → br_round r ≤ vb_round b)
    as Hcached.
  { intros r Hr Hra. assert (r ∈ refs) as Hin by by apply Hrefs.
    destruct (refs_last_is_Some refs r Hin) as (l & Hlast & Hll & Hle). rewrite Hlast in Hb.
    apply Hrefs in Hll as [[i Hi] _]. rewrite Hi in Hb. injection Hb as <-.
    destruct (dwf_recent d Hc l i Hi) as [Href _]. rewrite <- reference_round, Href. by apply BlockRef_leb_round. }
  intros r [x Hx] Hra. unfold dag_lookup, GENESIS_ROUND in Hx.
  destruct (N.eqb_spec (br_round r) 0) as [Hz|Hz]; [lia|].
  destruct (ds_recent_blocks d !! r) as [i|] eqn:Hi; [apply Hcached; [by eexists|done]|].
  destruct (dwf_last d Hwf r x Hx) as (r' & Hr' & Ha' & Hle).
  specialize (Hcached r' Hr' ltac:(congruence)). lia.
Qed.
