(* ===== verification/Proposal.v ===== *)
(** Block proposals of the core (Core.v): the ancestors it selects, the block it makes of
    them, and what the block means for the validators that receive it and for the epoch. *)

From stdpp Require Import base tactics numbers list gmap sorting strings.
From coqutil Require Import Datatypes.RecordSettersUsingExistingGetters.
From S2P Require Import Prelude.
From S2P Require Import Committee.
From S2P Require Import Block.
From S2P Require Import StakeAggregator.
From S2P Require Import ThresholdClock.
From S2P Require Import Commit.
From S2P Require Import Store.
From S2P Require Import DagState.
From S2P Require Import DagInvariant.
From S2P Require Import LeaderSchedule.
From S2P Require Import BaseCommitter.
From S2P Require Import CommitSafety.
From S2P Require Import UniversalCommitter.
From S2P Require Import Linearizer.
From S2P Require Import BlockVerifier.
From S2P Require Import BlockManager.
From S2P Require Import TransactionConsumer.
From S2P Require Import CommitObserver.
From S2P Require Import QuorumScan.
From S2P Require Import RoundTracker.
From S2P Require Import Ancestor.
From S2P Require Import TransactionCertifier.
From S2P Require Import Core.
From S2P Require Import ProposalState.

Open Scope N_scope.

(** * Selecting ancestors *)

Section Select.
Context {S : Type} `{StoreSpec S}.
Implicit Types core : Core S.

(** Candidates of other authorities that no earlier proposal of this core includes. *)
Definition fresh_candidate core (b : VerifiedBlock) : bool :=
  negb (vb_author b =? own_index (core_context core)) &&
  negb (match last_included_ancestors core !! N.to_nat (vb_author b) with
        | Some (Some r) => vb_round b <=? br_round r
        | _ => false
        end).

Definition is_include (states : list AncestorState) (b : VerifiedBlock) : bool :=
  match states !! N.to_nat (vb_author b) with Some Include => true | _ => false end.

Lemma select_all core states l sel0 :
  (∀ p, p ∈ l → (N.to_nat (vb_author p.1) < length (last_included_ancestors core))%nat ∧
     (N.to_nat (vb_author p.1) < length states)%nat) →
  ∃ sel, foldM (select_ancestor core states) sel0 l = Ret sel ∧
    sel_included sel = sel_included sel0 ++
      filter (λ b, fresh_candidate core b && is_include states b = true) l.*1 ∧
    (sel_pending_excluded sel).*2 = (sel_pending_excluded sel0).*2 ++
      filter (λ b, fresh_candidate core b && negb (is_include states b) = true) l.*1 ∧
    ∀ r, r ∈ sel_excluded_and_equivocating sel →
      r ∈ sel_excluded_and_equivocating sel0 ∨ ∃ p, p ∈ l ∧ r ∈ p.2.
Proof.
  revert sel0. induction l as [|[b eq] l IH]; intros sel0 Hl.
  { exists sel0. cbn. rewrite !app_nil_r. auto. }
  cbn [foldM fmap list_fmap fst]. rewrite !filter_cons.
  destruct (Hl (b, eq) (list_elem_of_here _ _)) as [Hinc Hst]. cbn [fst] in Hinc, Hst.
  assert (∀ p, p ∈ l → (N.to_nat (vb_author p.1) < length (last_included_ancestors core))%nat ∧
     (N.to_nat (vb_author p.1) < length states)%nat) as Hl' by (intros; apply Hl; by apply list_elem_of_further).
  assert (∃ sel1, select_ancestor core states sel0 (b, eq) = Ret sel1 ∧
    sel_included sel1 = sel_included sel0 ++ (if fresh_candidate core b && is_include states b then [b] else []) ∧
    (sel_pending_excluded sel1).*2 = (sel_pending_excluded sel0).*2 ++
      (if fresh_candidate core b && negb (is_include states b) then [b] else []) ∧
    ∀ r, r ∈ sel_excluded_and_equivocating sel1 → r ∈ sel_excluded_and_equivocating sel0 ∨ r ∈ eq)
    as (sel1 & Hstep & Hi1 & Hp1 & He1).
  { unfold select_ancestor, fresh_candidate, is_include.
    destruct (vb_author b =? own_index (core_context core)); cbn [negb andb].
    { exists sel0. rewrite !app_nil_r. auto. }
    destruct (lookup_lt_is_Some_2 _ _ Hinc) as [o Ho]. destruct (lookup_lt_is_Some_2 _ _ Hst) as [st Hs].
    rewrite Ho, Hs. rewrite (proj2 (vec_get_Ret _ _ _) Ho). cbn [mbind outcome_bind].
    destruct o as [r|]; [destruct (vb_round b <=? br_round r)|]; cbn [negb andb].
    { exists sel0. rewrite !app_nil_r. auto. }
    all: rewrite (proj2 (vec_get_Ret _ _ _) Hs); cbn [mbind outcome_bind].
    all: destruct st as [|score]; (eexists; split; [reflexivity|]); cbn; rewrite ?app_nil_r, ?fmap_app.
    all: split; [done|]; split; [done|].
    all: intros x; rewrite elem_of_union, elem_of_list_to_set; done. }
  rewrite Hstep. cbn [mbind outcome_bind]. destruct (IH sel1 Hl') as (sel & Hrun & Hi & Hp & He).
  exists sel. split; [done|]. split; [|split].
  - rewrite Hi, Hi1, <- app_assoc. f_equal. by destruct (fresh_candidate core b && is_include states b).
  - rewrite Hp, Hp1, <- app_assoc. f_equal. by destruct (fresh_candidate core b && negb (is_include states b)).
  - intros r Hr. destruct (He r Hr) as [Hr1|(p & Hp' & Hr1)].
    + destruct (He1 r Hr1) as [?|?]; [by left|right]. exists (b, eq). split; [apply list_elem_of_here|done].
    + right. exists p. split; [by apply list_elem_of_further|done].
Qed.

(** The stake of the ancestors of the parent round. *)
Lemma add_parents_spec c l A agg :
  committee_wf c → agg_repr c A agg → (∀ b, b ∈ l → is_valid_index c (vb_author b) = true) →
  ∃ agg', foldM (add_parent c) agg l = Ret agg' ∧ agg_repr c (list_to_set (vb_author <$> l) ∪ A) agg'.
Proof.
  intros Hc. revert A agg. induction l as [|b l IH]; intros A agg Hagg Hl; cbn [foldM].
  { exists agg. split; [done|]. cbn. by rewrite union_empty_l_L. }
  destruct (agg_add_repr c Hc QuorumThreshold A agg (vb_author b) Hagg (Hl b (list_elem_of_here _ _)))
    as (agg1 & Hadd & Hagg1). 
  assert (add_parent c agg b = Ret agg1) as -> by (unfold add_parent; by rewrite Hadd). cbn [mbind outcome_bind].
  destruct (IH ({[vb_author b]} ∪ A) agg1 Hagg1) as (agg' & Hrun & Hagg').
  { intros x Hx. apply Hl. by apply list_elem_of_further. }
  exists agg'. split; [done|]. cbn [fmap list_fmap list_to_set].
  replace ({[vb_author b]} ∪ list_to_set (vb_author <$> l) ∪ A)
    with (list_to_set (vb_author <$> l) ∪ ({[vb_author b]} ∪ A)) by set_solver. done.
Qed.

Lemma reached_repr c A agg :
  agg_repr c A agg → reached_threshold QuorumThreshold agg c = reached_quorum c (weight c A).
Proof. intros [_ Hs _]. unfold reached_threshold, is_threshold. by rewrite Hs. Qed.

(** The authors at a round. *)
Definition authors_of_round (round : N) (l : list VerifiedBlock) : gset N :=
  list_to_set (vb_author <$> filter (λ b, vb_round b = round) l).

Lemma elem_of_authors_of_round round l a :
  a ∈ authors_of_round round l ↔ ∃ b, b ∈ l ∧ vb_round b = round ∧ vb_author b = a.
Proof.
  unfold authors_of_round. rewrite elem_of_list_to_set, list_elem_of_fmap. split.
  - intros (b & -> & [? ?]%list_elem_of_filter). eauto.
  - intros (b & ? & ? & <-). exists b. by rewrite list_elem_of_filter.
Qed.

Lemma include_parents_spec c quorum_round pending agg props excluded :
  committee_wf c → agg_repr c (authors_of_round quorum_round props) agg →
  (∀ p, p ∈ pending → is_valid_index c (vb_author p.2) = true) →
  ∃ agg' props' excluded',
    foldM (include_parent c quorum_round) (agg, props, excluded) pending = Ret (agg', props', excluded') ∧
    agg_repr c (authors_of_round quorum_round props') agg' ∧
    (∃ new, props' = props ++ new) ∧ (∀ b, b ∈ props' → b ∈ props ∨ b ∈ pending.*2) ∧
    props' ++ excluded'.*2 ≡ₚ props ++ excluded.*2 ++ pending.*2 ∧
    (reached_quorum c (weight c (authors_of_round quorum_round props')) = true ∨
     ∀ p, p ∈ pending → vb_round p.2 = quorum_round → p.2 ∈ props').
Proof.
  intros Hc. revert agg props excluded. induction pending as [|[score b] pending IH]; intros agg props excluded Hagg Hv.
  { exists agg, props, excluded. cbn. split; [done|]. split; [done|]. split; [exists []; by rewrite app_nil_r|].
    split; [auto|]. split; [by rewrite app_nil_r|]. right. by intros p ?%elem_of_nil. }
  cbn [foldM].
  assert (is_valid_index c (vb_author b) = true) as Hb by apply (Hv (score, b)), list_elem_of_here.
  destruct (valid_authority c _ Hb) as [au Hau].
  assert (∀ p, p ∈ pending → is_valid_index c (vb_author p.2) = true) as Hv'
    by (intros; apply Hv; by apply list_elem_of_further).
  assert (include_parent c quorum_round (agg, props, excluded) (score, b) =
    if negb (reached_quorum c (weight c (authors_of_round quorum_round props))) && (vb_round b =? quorum_round)
    then agg ← add_parent c agg b; Ret (agg, props ++ [b], excluded)
    else Ret (agg, props, excluded ++ [(score, b)])) as ->.
  { unfold include_parent. rewrite Hau. cbn [mbind outcome_bind]. by rewrite (reached_repr c _ agg Hagg). }
  destruct (reached_quorum c (weight c (authors_of_round quorum_round props))) eqn:Hq; cbn [negb andb].
  { cbn [mbind outcome_bind].
    destruct (IH agg props (excluded ++ [(score, b)]) Hagg Hv')
      as (agg' & props' & excluded' & Hrun & Hagg' & (new & ->) & Hin & Hperm & _).
    eexists _, _, _. split; [exact Hrun|]. split; [done|]. split; [by exists new|]. split.
    { intros x Hx. destruct (Hin x Hx) as [?|?]; [by left|right]. by apply list_elem_of_further. }
    split; [rewrite Hperm, fmap_app, <- app_assoc; done|]. left.
    eapply (is_threshold_mono c QuorumThreshold); [|exact Hq].
    intros a. rewrite !elem_of_authors_of_round. intros (x & Hx & ?). exists x. split; [apply elem_of_app; by left|done]. }
  destruct (N.eqb_spec (vb_round b) quorum_round) as [Hr|Hr].
  - unfold add_parent. destruct (agg_add_repr c Hc QuorumThreshold _ agg (vb_author b) Hagg Hb) as (agg1 & -> & Hagg1).
    cbn [mbind outcome_bind].
    destruct (IH agg1 (props ++ [b]) excluded) as (agg' & props' & excluded' & Hrun & Hagg' & (new & Hnew) & Hin & Hperm & Hlast).
    { replace (authors_of_round quorum_round (props ++ [b])) with ({[vb_author b]} ∪ authors_of_round quorum_round props); [done|].
      apply set_eq. intros a. rewrite elem_of_union, elem_of_singleton, !elem_of_authors_of_round. split.
      - intros [->|(x & ? & ?)]; [exists b; split; [apply elem_of_app; right; apply list_elem_of_here|done]|].
        exists x. split; [apply elem_of_app; by left|done].
      - intros (x & [?| ->%list_elem_of_singleton]%elem_of_app & ? & ?); [right; eauto|by left]. }
    { done. }
    exists agg', props', excluded'. split; [exact Hrun|]. split; [done|].
    split; [exists (b :: new); by rewrite Hnew, <- app_assoc|]. split; [|split].
    + intros x Hx. destruct (Hin x Hx) as [[?| ->%list_elem_of_singleton]%elem_of_app|?];
        [by left|right; apply list_elem_of_here|right; by apply list_elem_of_further].
    + rewrite Hperm. cbn [fmap list_fmap snd]. rewrite <- app_assoc. cbn [app].
      apply Permutation_app_head. apply Permutation_middle.
    + destruct Hlast as [?|Hall]; [by left|right]. intros p [->|Hp]%elem_of_cons Hpr; [|by apply Hall].
      cbn. rewrite Hnew. apply elem_of_app. left. apply elem_of_app. right. apply list_elem_of_here.
  - cbn [mbind outcome_bind]. destruct (IH agg props (excluded ++ [(score, b)]) Hagg Hv')
      as (agg' & props' & excluded' & Hrun & Hagg' & Hnew & Hin & Hperm & Hlast).
    eexists _, _, _. split; [exact Hrun|]. split; [done|]. split; [done|]. split; [|split].
    + intros x Hx. destruct (Hin x Hx) as [?|?]; [by left|right]. by apply list_elem_of_further.
    + rewrite Hperm, fmap_app, <- app_assoc. done.
    + destruct Hlast as [?|Hall]; [by left|right]. intros p [->|Hp]%elem_of_cons Hpr; [done|by apply Hall].
Qed.

Lemma last_in_range_spec (d : DagState S) a lo hi :
  dag_wf d → is_valid_index (dag_committee d) a = true →
  ∃ o, get_last_cached_block_in_range d a lo hi = Ret o ∧
    ∀ b, o = Some b → dag_lookup d (reference b) = Some b ∧ vb_author b = a ∧ vb_round b < hi.
Proof.
  intros Hwf Ha. unfold get_last_cached_block_in_range. destruct (hi <=? lo); [by eexists|].
  destruct (recent_refs_at d a (dwf_cache d Hwf) Ha) as (refs & -> & _ & Hrefs). cbn [mbind outcome_bind].
  eexists. split; [done|]. intros b Hb.
  destruct (last _) as [r|] eqn:Hl; [|done]. cbn in Hb.
  apply last_Some_elem_of, list_elem_of_filter in Hl as [Hr Hin].
  apply elem_of_set_iter, Hrefs in Hin as [[i Hi] Hra]. rewrite Hi in Hb. injection Hb as <-.
  destruct (dwf_recent d (dwf_cache d Hwf) r i Hi) as [Href _].
  rewrite <- reference_author, <- reference_round, Href.
  split; [by apply dag_lookup_recent; [apply dwf_cache|]|]. split; [done|].
  apply Is_true_true in Hr. unfold in_range_excl, Digest_MIN, AuthorityIndex_ZERO in Hr.
  rewrite andb_true_iff, BlockRef_ltb_iff in Hr. cbn in Hr. lia.
Qed.

(** One candidate of the third pass adds at most one block, of the candidate's author. *)
Definition adds_at_most core li (quorum_round : N) (props : list VerifiedBlock) (ex : gset BlockRef)
    (b : VerifiedBlock) (res : outcome (Core S * list VerifiedBlock * gset BlockRef)) : Prop :=
  ∃ li' new ex', res = Ret (core <| last_included_ancestors := li' |>, props ++ new, ex') ∧
    (new = [] ∨ ∃ x, new = [x] ∧ vb_author x = vb_author b) ∧ length li' = length li ∧
    (∀ x, x ∈ new → dag_lookup (dag_state core) (reference x) = Some x ∧ vb_round x ≤ quorum_round) ∧
    (∀ i r, li' !! i = Some (Some r) → li !! i = Some (Some r) ∨ br_round r ≤ quorum_round) ∧
    ∀ r, r ∈ ex' → r ∈ ex ∨ r = reference b.

Lemma adds_none core li quorum_round props ex b (ex' : gset BlockRef) :
  (∀ r, r ∈ ex' → r ∈ ex ∨ r = reference b) →
  adds_at_most core li quorum_round props ex b (Ret (core <| last_included_ancestors := li |>, props, ex')).
Proof.
  intros Hex. exists li, [], ex'. rewrite app_nil_r. split; [done|]. split; [by left|]. split; [done|].
  split; [by intros x ?%elem_of_nil|]. auto.
Qed.

Lemma adds_one core li quorum_round props ex b x (ex' : gset BlockRef) :
  dag_lookup (dag_state core) (reference x) = Some x → vb_author x = vb_author b → vb_round x ≤ quorum_round →
  (∀ r, r ∈ ex' → r ∈ ex ∨ r = reference b) →
  adds_at_most core li quorum_round props ex b
    (Ret (core <| last_included_ancestors := li |>
            <| last_included_ancestors := <[N.to_nat (vb_author b) := Some (reference x)]> li |>, props ++ [x], ex')).
Proof.
  intros Hx Hxa Hxr Hex. exists (<[N.to_nat (vb_author b) := Some (reference x)]> li), [x], ex'. split; [reflexivity|]. split; [right; by exists x|].
  split; [by rewrite length_insert|]. split; [|split; [|done]].
  - by intros y ->%list_elem_of_singleton.
  - intros i r [(<- & [= <-] & _)|[_ ?]]%list_lookup_insert_Some; [by right|by left].
Qed.

Section ThirdPass.
Context (core : Core S) (quorum_round : N) (rounds : list QuorumRound).
Let d := dag_state core.
Let n := length (committee_authorities (core_committee core)).
Context (Hwf : dag_wf d) (Hc : dag_committee d = core_committee core).
Context (Hro : length rounds = n) (Hq : quorum_round < u32_max).

Lemma include_accepted_one li props ex score b :
  length li = n → is_valid_index (core_committee core) (vb_author b) = true →
  dag_lookup d (reference b) = Some b →
  adds_at_most core li quorum_round props ex b
    (include_accepted quorum_round rounds (core <| last_included_ancestors := li |>, props, ex) (score, b)).
Proof.
  intros Hli Hb Hkb.
  assert (N.to_nat (vb_author b) < n)%nat as Hbn.
  { unfold is_valid_index, Committee_size in Hb. apply bool_decide_eq_true in Hb. fold n in Hb. lia. }
  destruct (lookup_lt_is_Some_2 rounds (N.to_nat (vb_author b))) as [q Hqr]; [lia|].
  destruct (lookup_lt_is_Some_2 li (N.to_nat (vb_author b))) as [o Ho]; [lia|].
  destruct (valid_authority _ _ Hb) as [au Hau].
  assert (∀ y, vec_set li (vb_author b) y = Ret (<[N.to_nat (vb_author b) := y]> li)) as Hset
    by (intros; unfold vec_set; by rewrite decide_True by lia).
  assert (∀ r, r ∈ {[reference b]} ∪ ex → r ∈ ex ∨ r = reference b) as Hadd by set_solver.
  unfold include_accepted. change (core_committee (core <| last_included_ancestors := li |>)) with (core_committee core).
  rewrite Hau. cbn [mbind outcome_bind]. rewrite (proj2 (vec_get_Ret _ _ _) Hqr). cbn [mbind outcome_bind].
  change (last_included_ancestors (core <| last_included_ancestors := li |>)) with li.
  rewrite (proj2 (vec_get_Ret _ _ _) Ho). cbn [mbind outcome_bind].
  destruct (vb_round b <=? _); [apply adds_none; auto|].
  destruct (_ <=? from_option br_round GENESIS_ROUND o); [by apply adds_none|].
  destruct (N.leb_spec (vb_round b) (N.min q.1 quorum_round)) as [Hle|Hgt].
  - cbn [mbind outcome_bind]. rewrite Hset. cbn [mbind outcome_bind]. apply adds_one; auto. lia.
  - change (dag_state (core <| last_included_ancestors := li |>)) with d.
    destruct (last_in_range_spec d (vb_author b) (u32_add (from_option br_round GENESIS_ROUND o) 1)
      (u32_add (N.min q.1 quorum_round) 1) Hwf) as (e & -> & He); [by rewrite Hc|].
    cbn [mbind outcome_bind]. destruct e as [x|]; [|by apply adds_none].
    rewrite Hset. cbn [mbind outcome_bind]. destruct (He x eq_refl) as (? & ? & Hxr).
    rewrite u32_add_small in Hxr by (unfold u32_max in Hq; lia). apply adds_one; auto. lia.
Qed.

Lemma include_accepted_spec l li props ex :
  length li = n → NoDup (vb_author <$> props ++ l.*2) →
  (∀ p, p ∈ l → is_valid_index (core_committee core) (vb_author p.2) = true ∧
     dag_lookup d (reference p.2) = Some p.2) →
  ∃ li' new ex',
    foldM (include_accepted quorum_round rounds) (core <| last_included_ancestors := li |>, props, ex) l
      = Ret (core <| last_included_ancestors := li' |>, props ++ new, ex') ∧
    NoDup (vb_author <$> props ++ new) ∧ length li' = n ∧
    (∀ b, b ∈ new → dag_lookup d (reference b) = Some b ∧ vb_round b ≤ quorum_round ∧
       is_valid_index (core_committee core) (vb_author b) = true) ∧
    (∀ i r, li' !! i = Some (Some r) → li !! i = Some (Some r) ∨ br_round r ≤ quorum_round) ∧
    ∀ r, r ∈ ex' → r ∈ ex ∨ ∃ p, p ∈ l ∧ r = reference p.2.
Proof.
  revert li props ex. induction l as [|[score b] l IH]; intros li props ex Hli Hnd Hl.
  { exists li, [], ex. cbn. rewrite app_nil_r in *. split; [done|]. split; [done|]. split; [done|].
    split; [by intros x ?%elem_of_nil|]. auto. }
  destruct (Hl (score, b) (list_elem_of_here _ _)) as [Hb Hkb]. cbn [snd] in Hb, Hkb.
  assert (∀ p, p ∈ l → is_valid_index (core_committee core) (vb_author p.2) = true ∧
     dag_lookup d (reference p.2) = Some p.2) as Hl' by (intros; apply Hl; by apply list_elem_of_further).
  rewrite fmap_app in Hnd. cbn [fmap list_fmap snd] in Hnd.
  assert (NoDup (vb_author <$> props ++ l.*2)) as Hnd'.
  { rewrite fmap_app. rewrite <- Permutation_middle in Hnd. by apply NoDup_cons in Hnd as [_ ?]. }
  destruct (include_accepted_one li props ex score b Hli Hb Hkb)
    as (li1 & new1 & ex1 & Hstep & Hnew1 & Hli1 & Hk1 & Hlk1 & Hex1).
  cbn [foldM]. rewrite Hstep. cbn [mbind outcome_bind].
  destruct (IH li1 (props ++ new1) ex1) as (li' & new & ex' & Hrun & Hndn & Hli' & Hk & Hlk & Hex); [lia| |done|].
  { destruct Hnew1 as [->|(x & -> & Hx)]; [by rewrite app_nil_r|].
    rewrite !fmap_app. cbn [fmap list_fmap]. rewrite Hx, <- app_assoc. exact Hnd. }
  exists li', (new1 ++ new), ex'. rewrite !app_assoc. split; [exact Hrun|]. split; [done|]. split; [done|].
  split; [|split].
  - intros x [Hx|?]%elem_of_app; [|by apply Hk]. destruct (Hk1 x Hx). split; [done|]. split; [done|].
    destruct Hnew1 as [->|(y & -> & Hy)]; [by apply elem_of_nil in Hx|]. apply list_elem_of_singleton in Hx as ->.
    by rewrite Hy.
  - intros i r Hi. destruct (Hlk i r Hi) as [Hi1|?]; [by apply Hlk1|by right].
  - intros r Hr. destruct (Hex r Hr) as [Hr1|(p & ? & ?)].
    + destruct (Hex1 r Hr1) as [?| ->]; [by left|right]. exists (score, b). split; [apply list_elem_of_here|done].
    + right. exists p. split; [by apply list_elem_of_further|done].
Qed.
End ThirdPass.
End Select.

(** What a list of ancestors must be for a block of this authority at round [round]. *)
Record ancestors_ok {S} `{StoreSpec S} (c : Committee) (d : DagState S) (round : N) (last_proposed : VerifiedBlock)
    (ancestors : list VerifiedBlock) : Prop := {
  an_head : ∃ rest, ancestors = last_proposed :: rest;
  an_known : ∀ b, b ∈ ancestors → dag_lookup d (reference b) = Some b ∧ vb_round b < round ∧
    is_valid_index c (vb_author b) = true;
  an_nodup : NoDup (vb_author <$> ancestors);
  an_quorum : reached_quorum c (weight c (authors_of_round (round - 1) ancestors)) = true;
}.

Definition states_ok (c : Committee) (m : AncestorStateManager) : Prop :=
  asm_wf m ∧ committee (asm_context m) = c ∧
  (length (scores_per_authority (propagation_scores m)) ≤ length (committee_authorities c))%nat.

Section Smart.
Context {S : Type} `{StoreSpec S} (core : Core S) (last_proposed : VerifiedBlock).
Let d := dag_state core.
Let c := core_committee core.
Let R := clock_of d.
Let n := length (committee_authorities c).
Context (Hwf : dag_wf d) (Hck : clock_ok d) (Hgen : genesis_ok d) (Hctx : ds_context d = core_context core).
Context (HR : R + STATE_LOCK_CLOCK_ROUNDS < 2 ^ 32).
Context (Htr : tracker_wf (round_tracker core)) (Htc : committee (rt_context (round_tracker core)) = c).
Context (Hst : states_ok c (ancestor_state_manager core)).
Context (Hlp : get_last_proposed_block d = Ret last_proposed) (Hround : vb_round last_proposed < R).
Context (Hlen : length (last_included_ancestors core) = n).
Context (Hinc : ∀ i r, last_included_ancestors core !! i = Some (Some r) → br_round r < vb_round last_proposed).

Lemma smart_committee : dag_committee d = c.
Proof. unfold dag_committee. by rewrite Hctx. Qed.

(** The candidates: one per authority, below the clock, and of the parent round where the
    authority has a cached block there. *)
Definition candidates_ok (l : list (VerifiedBlock * list BlockRef)) : Prop :=
  length l = n ∧
  ∀ i b eq, l !! i = Some (b, eq) →
    (vb_author b = N.of_nat i ∧ vb_round b < R ∧ dag_lookup d (reference b) = Some b) ∧
    (∀ r, is_Some (ds_recent_blocks d !! r) → br_author r = N.of_nat i → br_round r + 1 = R → vb_round b + 1 = R) ∧
    ∀ r, r ∈ eq → br_author r = N.of_nat i.

Lemma candidates_authors l : candidates_ok l → vb_author <$> l.*1 = N.of_nat <$> seq 0 n.
Proof.
  intros [Hl Hi]. apply list_eq. intros i. rewrite !list_lookup_fmap.
  destruct (decide (i < n)%nat) as [Hin|Hin].
  - rewrite lookup_seq_lt by done. destruct (lookup_lt_is_Some_2 l i) as [[b eq] Hb]; [lia|].
    rewrite Hb. cbn. f_equal. by apply (Hi i b eq Hb).
  - rewrite lookup_seq_ge by lia. by rewrite lookup_ge_None_2 by lia.
Qed.

Lemma candidate_spec l b :
  candidates_ok l → b ∈ l.*1 →
  is_valid_index c (vb_author b) = true ∧ vb_round b < R ∧ dag_lookup d (reference b) = Some b ∧
  (N.to_nat (vb_author b) < n)%nat ∧
  ∀ r, is_Some (ds_recent_blocks d !! r) → br_author r = vb_author b → br_round r + 1 = R → vb_round b + 1 = R.
Proof.
  intros [Hl Hi] ([b' eq] & -> & (i & Hb)%list_elem_of_lookup)%list_elem_of_fmap. cbn.
  destruct (Hi i b' eq Hb) as ((Ha & Hr & Hk) & Hlast & _). apply lookup_lt_Some in Hb.
  rewrite Ha. split; [|split; [done|split; [done|split; [lia|done]]]].
  unfold is_valid_index, Committee_size. fold n. apply bool_decide_true. lia.
Qed.

(** The authorities with a block at the parent round. *)
Definition parent_round_authors : gset N := if decide (R = 1) then members c else authors_cached d (R - 1).

Lemma parent_round_quorum : reached_quorum c (weight c parent_round_authors) = true.
Proof.
  unfold parent_round_authors. case_decide as H1.
  - pose proof (dwf_committee d (dwf_cache d Hwf)) as Hc. rewrite smart_committee in Hc.
    apply (honest_quorum c ∅ _ Hc); [|intros i Hi _; by apply elem_of_members].
    rewrite weight_empty. unfold reached_validity. apply bool_decide_false.
    rewrite (wf_validity c Hc). pose proof (wf_total_pos c Hc). lia_div.
  - destruct (ck_quorum d Hck) as [?|Hq]; [done|]. by rewrite smart_committee in Hq.
Qed.

(** Every authority with a block at the parent round is among the selected ones. *)
Lemma parents_selected l states sel a :
  candidates_ok l →
  sel_included sel = [last_proposed] ++ filter (λ b, fresh_candidate core b && is_include states b = true) l.*1 →
  (sel_pending_excluded sel).*2 = filter (λ b, fresh_candidate core b && negb (is_include states b) = true) l.*1 →
  a ∈ parent_round_authors →
  a ∈ authors_of_round (R - 1) (sel_included sel ++ (sel_pending_excluded sel).*2).
Proof.
  intros Hl Hi Hp Ha. rewrite Hi, Hp. apply elem_of_authors_of_round. unfold parent_round_authors in Ha.
  destruct (last_proposed_spec d Hwf) as (lp & Hlp' & Hlpa & Hk & Hmax). rewrite Hlp in Hlp'. injection Hlp' as <-.
  rewrite Hctx in Hmax, Hlpa.
  assert (is_valid_index c a = true ∧
    (R = 1 ∨ ∃ r, is_Some (ds_recent_blocks d !! r) ∧ br_round r + 1 = R ∧ br_author r = a)) as [Hv Hr].
  { case_decide as H1; [apply elem_of_members in Ha; auto|].
    apply elem_of_authors_cached in Ha as (r & Hr & Hrr & Hra). pose proof (ck_pos d Hck) as Hpos. fold R in Hpos.
    split; [|right; exists r; split; [done|]; split; [lia|done]].
    destruct Hr as [i Hi']. destruct (dwf_recent d (dwf_cache d Hwf) r i Hi') as (_ & _ & _ & Hv).
    by rewrite smart_committee, Hra in Hv. }
  destruct (decide (a = own_index (core_context core))) as [->|Hne].
  - exists last_proposed. split; [apply list_elem_of_here|]. split; [|done].
    destruct Hr as [?|(r & [i Hi'] & Hrr & Hra)]; [lia|].
    enough (br_round r ≤ vb_round last_proposed) by lia. apply Hmax; [|done].
    exists (bi_block i). by apply dag_lookup_recent; [apply dwf_cache|].
  - assert (a < N.of_nat n) as Han.
    { unfold is_valid_index, Committee_size in Hv. fold n in Hv. by apply bool_decide_eq_true in Hv. }
    assert (a ∈ vb_author <$> l.*1) as (b & Hba & Hb)%list_elem_of_fmap.
    { rewrite (candidates_authors l Hl). apply list_elem_of_fmap. exists (N.to_nat a).
      split; [lia|]. apply elem_of_seq. lia. }
    destruct (candidate_spec l b Hl Hb) as (_ & Hlt & _ & Hbn & Hlast).
    assert (vb_round b + 1 = R) as Hbr.
    { destruct Hr as [?|(r & Hr & Hrr & Hra)]; [lia|]. apply (Hlast r); [done|congruence|lia]. }
    exists b. split; [|split; [lia|done]].
    assert (fresh_candidate core b = true) as Hf.
    { unfold fresh_candidate. rewrite (proj2 (N.eqb_neq _ _)) by congruence. cbn [negb andb].
      destruct (last_included_ancestors core !! N.to_nat (vb_author b)) as [[x|]|] eqn:Hx; [|done..].
      specialize (Hinc _ x Hx). rewrite (proj2 (N.leb_gt _ _)) by lia. done. }
    rewrite <- app_assoc. rewrite !elem_of_app, !list_elem_of_filter, Hf. cbn [andb].
    right. destruct (is_include states b); [left|right]; done.
Qed.

(** The selected blocks are known, of distinct authors, and start with the last own block. *)
Lemma selection_ok l states sel :
  candidates_ok l →
  sel_included sel = [last_proposed] ++ filter (λ b, fresh_candidate core b && is_include states b = true) l.*1 →
  (sel_pending_excluded sel).*2 = filter (λ b, fresh_candidate core b && negb (is_include states b) = true) l.*1 →
  NoDup (vb_author <$> sel_included sel ++ (sel_pending_excluded sel).*2) ∧
  ∀ b, b ∈ sel_included sel ++ (sel_pending_excluded sel).*2 →
    dag_lookup d (reference b) = Some b ∧ vb_round b < R ∧ is_valid_index c (vb_author b) = true.
Proof.
  intros Hl Hi Hp. rewrite Hi, Hp.
  destruct (last_proposed_spec d Hwf) as (lp & Hlp' & Hlpa & Hk & _). rewrite Hlp in Hlp'. injection Hlp' as <-.
  assert (NoDup (vb_author <$> l.*1)) as Hnd.
  { rewrite (candidates_authors l Hl). apply NoDup_fmap_2; [apply Nat2N.inj'|apply NoDup_seq]. }
  assert (∀ b, fresh_candidate core b = true → vb_author b ≠ vb_author last_proposed) as Hfr.
  { intros b Hf Ha. unfold fresh_candidate in Hf. rewrite Ha, Hlpa, Hctx, N.eqb_refl in Hf. done. }
  split.
  - cbn [app]. rewrite fmap_cons. apply NoDup_cons. rewrite fmap_app. split.
    + rewrite elem_of_app, !list_elem_of_fmap. intros [(b & Ha & Hb)|(b & Ha & Hb)];
        apply list_elem_of_filter in Hb as [Hb _]; apply andb_true_iff in Hb as [Hf _]; by apply (Hfr b).
    + apply NoDup_app.
      assert (∀ P `{∀ b : VerifiedBlock, base.Decision (P b)}, NoDup (vb_author <$> filter P l.*1)) as Hsub.
      { intros P HP. eapply sublist_NoDup; [exact Hnd|]. by apply fmap_sublist, sublist_filter. }
      split; [apply Hsub|]. split; [|apply Hsub].
      intros a (b & -> & [Hb Hbl]%list_elem_of_filter)%list_elem_of_fmap
        (b' & Hab & [Hb' Hbl']%list_elem_of_filter)%list_elem_of_fmap.
      unfold is_include in Hb, Hb'. rewrite <- Hab in Hb'.
      apply andb_true_iff in Hb as [_ Hb], Hb' as [_ Hb']. by rewrite Hb in Hb'.
  - intros b Hb. rewrite !elem_of_app in Hb. destruct Hb as [[->%list_elem_of_singleton|Hb]|Hb].
    + split; [done|]. split; [done|]. rewrite Hlpa, Hctx. rewrite <- smart_committee, <- Hctx. apply (dwf_own d), Hwf.
    + apply list_elem_of_filter in Hb as [_ Hb]. destruct (candidate_spec l b Hl Hb) as (? & ? & ? & _). done.
    + apply list_elem_of_filter in Hb as [_ Hb]. destruct (candidate_spec l b Hl Hb) as (? & ? & ? & _). done.
Qed.

Lemma smart_ancestors_spec smart_select :
  ∃ core' ancestors excluded, smart_ancestors_to_propose core R smart_select = Ret (core', ancestors, excluded) ∧
    (∃ m li, core' = core <| ancestor_state_manager := m |> <| last_included_ancestors := li |> ∧
       states_ok c m ∧ length li = n ∧
       (ancestors = [] → li = last_included_ancestors core) ∧
       ∀ i r, li !! i = Some (Some r) → br_round r < R) ∧
    (ancestors = [] ∧ smart_select = true ∨ ancestors_ok c d R last_proposed ancestors) ∧
    ∀ r, r ∈ excluded → is_valid_index c (br_author r) = true.
Proof.
  pose proof (dwf_committee d (dwf_cache d Hwf)) as Hc. rewrite smart_committee in Hc.
  assert (R ≤ u32_max) as Hmax by (unfold STATE_LOCK_CLOCK_ROUNDS, u32_max in *; lia).
  unfold smart_ancestors_to_propose. fold c d.
  destruct (last_cached_blocks d Hwf Hck Hmax Hgen) as (l & Hl & Hln & Hlok).
  rewrite smart_committee in Hln. fold n in Hln. fold R in Hl. rewrite Hl. cbn [mbind outcome_bind].
  assert (candidates_ok l) as Hcand by (split; [done|exact Hlok]).
  rewrite Hln. unfold Committee_size. fold n. rewrite N.eqb_refl. cbn [assert_that mbind outcome_bind].
  unfold compute_accepted_quorum_rounds. rewrite Htc.
  destruct (quorum_rounds_spec c (highest_accepted_rounds (round_tracker core)) Hc) as (rounds & -> & Hrl & _).
  { rewrite <- Htc. apply square_max; apply Htr. }
  cbn [mbind outcome_bind]. destruct Hst as (Haw & Hac & Hsc).
  destruct (update_all_spec c Hc (ancestor_state_manager core) R rounds Haw Hac Hrl Hsc HR)
    as (m & Hm & Hmw & (Hmc & _ & Hms) & _).
  change (threshold_clock_round core) with R. rewrite Hm. cbn [mbind outcome_bind].
  set (core1 := core <| ancestor_state_manager := m |>). unfold last_proposed_block.
  change (dag_state core1) with d. rewrite Hlp. cbn [mbind outcome_bind].
  assert (states_ok c m) as Hstm by (split; [done|]; split; congruence).
  destruct (select_all core1 (get_ancestor_states m) l (mkSelection [last_proposed] [] ∅))
    as (sel & -> & Hi & Hp & Hex).
  { intros p Hp. destruct (candidate_spec l p.1 Hcand) as (_ & _ & _ & Hpn & _); [apply list_elem_of_fmap; by exists p|].
    unfold get_ancestor_states. rewrite length_fmap, (aw_length m Hmw), Hmc, Hac. fold n.
    change (last_included_ancestors core1) with (last_included_ancestors core). lia. }
  cbn [mbind outcome_bind sel_included sel_pending_excluded sel_excluded_and_equivocating] in Hi, Hp, Hex |- *.
  change (fresh_candidate core1) with (fresh_candidate core) in Hi, Hp.
  destruct (selection_ok l (get_ancestor_states m) sel Hcand Hi Hp) as [Hnd Hsel].
  unfold saturating_sub.
  destruct (add_parents_spec c (filter (λ a, vb_round a = R - 1) (sel_included sel)) ∅ StakeAggregator_new Hc (agg_repr_new c))
    as (agg & -> & Hagg).
  { intros b [_ Hb]%list_elem_of_filter. apply Hsel. apply elem_of_app. by left. }
  rewrite union_empty_r_L in Hagg. fold (authors_of_round (R - 1) (sel_included sel)) in Hagg.
  cbn [mbind outcome_bind].
  assert (∀ r, r ∈ sel_excluded_and_equivocating sel → is_valid_index c (br_author r) = true) as Heq.
  { intros r Hr. destruct (Hex r Hr) as [?%not_elem_of_empty|([b eq] & (i & Hi')%list_elem_of_lookup & Hr')]; [done|].
    destruct (Hlok i b eq Hi') as (_ & _ & Ha). rewrite (Ha r Hr'). apply lookup_lt_Some in Hi'.
    unfold is_valid_index, Committee_size. fold n. apply bool_decide_true. lia. }
  destruct (smart_select && _) eqn:Hsmart.
  { eexists _, [], ∅. split; [reflexivity|]. split; [|split].
    - exists m, (last_included_ancestors core). split; [done|]. split; [done|]. split; [done|]. split; [done|].
      intros i r Hr. specialize (Hinc i r Hr). lia.
    - left. apply andb_true_iff in Hsmart as [-> _]. done.
    - by intros r ?%not_elem_of_empty. }
  assert (∀ p, p ∈ isort score_desc (sel_pending_excluded sel) → p ∈ sel_pending_excluded sel) as Hpend
    by (intros p; by rewrite elem_of_isort).
  destruct (include_parents_spec c (R - 1) (isort score_desc (sel_pending_excluded sel)) agg (sel_included sel) [] Hc Hagg)
    as (agg' & props & excl & -> & Hagg' & (new & Hprops) & Hfrom & Hperm & Hfull).
  { intros p Hp'. apply Hsel, elem_of_app. right. apply list_elem_of_fmap. exists p. split; [done|by apply Hpend]. }
  cbn [mbind outcome_bind]. cbn [fmap list_fmap app] in Hperm. rewrite isort_perm in Hperm.
  assert (∀ b, b ∈ props ++ excl.*2 → dag_lookup d (reference b) = Some b ∧ vb_round b < R ∧
    is_valid_index c (vb_author b) = true) as Hall by (intros b; rewrite Hperm; apply Hsel).
  destruct (include_accepted_spec core1 (R - 1) rounds Hwf smart_committee Hrl ltac:(unfold u32_max in *; lia)
    excl (last_included_ancestors core) props (sel_excluded_and_equivocating sel) Hlen)
    as (li & more & ex' & Hrun & Hnd' & Hli & Hmore & Hlik & Hex').
  { by rewrite Hperm. }
  { intros p Hp'. destruct (Hall p.2) as (? & ? & ?); [|done]. apply elem_of_app. right. apply list_elem_of_fmap. by exists p. }
  change (core1 <| last_included_ancestors := last_included_ancestors core |>) with core1 in Hrun.
  rewrite Hrun. cbn [mbind outcome_bind].
  assert (reached_quorum c (weight c (authors_of_round (R - 1) props)) = true) as Hquorum.
  { destruct Hfull as [?|Hin]; [done|]. eapply (is_threshold_mono c QuorumThreshold); [|exact parent_round_quorum].
    intros a Ha. pose proof (parents_selected l (get_ancestor_states m) sel a Hcand Hi Hp Ha) as Hsa.
    apply elem_of_authors_of_round in Hsa as (b & Hb & Hbr & Hba). apply elem_of_authors_of_round. exists b.
    split; [|done]. apply elem_of_app in Hb as [Hb|Hb]; [rewrite Hprops; apply elem_of_app; by left|].
    apply list_elem_of_fmap in Hb as (q & -> & Hq). apply Hin; [by rewrite elem_of_isort|done]. }
  rewrite (reached_repr c _ agg' Hagg'), Hquorum. cbn [assert_that mbind outcome_bind].
  pose proof (ck_pos d Hck) as Hpos. fold R in Hpos.
  eexists _, _, _. split; [reflexivity|]. split; [|split].
  - exists m, li. split; [done|]. split; [done|]. split; [done|]. split; [rewrite Hprops, Hi; discriminate|].
    intros i r Hr. destruct (Hlik i r Hr) as [Hr'|?]; [|lia]. specialize (Hinc i r Hr'). lia.
  - right. split.
    + rewrite Hprops, Hi. cbn [app]. eauto.
    + intros b [Hb|Hb]%elem_of_app; [by apply Hall, elem_of_app; left|]. destruct (Hmore b Hb) as (? & ? & ?).
      split; [done|]. split; [lia|done].
    + done.
    + eapply (is_threshold_mono c QuorumThreshold); [|exact Hquorum]. intros a.
      rewrite !elem_of_authors_of_round. intros (b & ? & ?). exists b. split; [apply elem_of_app; by left|done].
  - intros r Hr. destruct (Hex' r Hr) as [?|(p & Hp' & ->)]; [by apply Heq|].
    rewrite reference_author. apply Hall, elem_of_app. right. apply list_elem_of_fmap. by exists p.
Qed.
End Smart.
