(* ===== verification/CommitFinalizer.v ===== *)
(** Finalization of commits (consensus/core/src/commit_finalizer.rs): committed sub-dags are
    buffered until each of their transactions is finalized or rejected, and leave the buffer
    in the order of the commits.

    A transaction without reject votes is finalized once the leader of its commit is known to
    be certified; one with a quorum of reject votes is rejected; the others wait for a quorum
    of accept votes in later commits, and are rejected when a leader three rounds above commits
    first. *)

From stdpp Require Import base tactics numbers list gmap sorting strings relations.
From coqutil Require Import Datatypes.RecordSettersUsingExistingGetters.
From S2P Require Import Prelude.
From S2P Require Import Committee.
From S2P Require Import Block.
From S2P Require Import StakeAggregator.
From S2P Require Import Commit.
From S2P Require Import Store.
From S2P Require Import DagState.
From S2P Require Import DagInvariant.
From S2P Require Import BaseCommitter.
From S2P Require Import CommitSafety.
From S2P Require Import TransactionCertifier.

Open Scope N_scope.

Definition INDIRECT_REJECT_DEPTH : N := 3.

(** * Data *)

Record CommitState := mkCommitState {
  cst_commit : CommittedSubDag;
  pending_blocks : gmap BlockRef N;
  pending_transactions : gmap BlockRef (gset N);
  rejected_transactions : gmap BlockRef (gset N);
}.

Record BlockState := mkBlockState {
  bst_block : VerifiedBlock;
  bst_children : gset BlockRef;
  bst_reject_votes : gmap BlockRef (gset N);
  bst_origin_descendants : list BlockRef;
}.

Record CommitFinalizer := mkCommitFinalizer {
  cf_context : Context;
  last_processed_commit : option N;
  pending_commits : list CommitState;
  cf_blocks : gmap BlockRef BlockState;
}.

Definition CommitFinalizer_new (context : Context) : CommitFinalizer :=
  mkCommitFinalizer context None [] ∅.

(** Collecting pairs into a map: the last entry of a key stays. *)
Definition collect_map {A} (l : list (BlockRef * A)) : gmap BlockRef A :=
  foldl (λ m e, <[e.1 := e.2]> m) ∅ l.

Definition CommitState_new (commit : CommittedSubDag) : outcome CommitState :=
  let pending := collect_map ((λ b, (reference b, N.of_nat (length (vb_transactions b)))) <$> sd_blocks commit) in
  _ ← assert_that (negb (bool_decide (pending = ∅)));
  Ret (mkCommitState commit pending ∅ ∅).

Definition BlockState_new (block : VerifiedBlock) : BlockState :=
  mkBlockState block ∅
    (collect_map ((λ v, (btv_block_ref v, list_to_set (btv_rejects v))) <$> vb_transaction_votes block)) [].

(** [map.entry(k).or_default()] followed by the insertion of some transactions. *)
Definition extend_entry (m : gmap BlockRef (gset N)) (r : BlockRef) (txns : gset N) : gmap BlockRef (gset N) :=
  <[r := default ∅ (m !! r) ∪ txns]> m.

Definition remove_pending_transactions (cs : CommitState) (r : BlockRef) (txns : list N) : CommitState :=
  match pending_transactions cs !! r with
  | None => cs
  | Some pending =>
      let pending := pending ∖ list_to_set txns in
      if bool_decide (pending = ∅)
      then cs <| pending_transactions := delete r (pending_transactions cs) |>
      else cs <| pending_transactions := <[r := pending]> (pending_transactions cs) |>
  end.

(** * Direct finalization *)

(** One transaction with reject votes. *)
Definition direct_transaction (c : Committee) (r : BlockRef) (cs : CommitState) (vote : N * N) : CommitState :=
  if vote.2 <? committee_quorum_threshold c
  then cs <| pending_transactions := extend_entry (pending_transactions cs) r {[vote.1]} |>
  else cs <| rejected_transactions := extend_entry (rejected_transactions cs) r {[vote.1]} |>.

Definition direct_block (c : Committee) (t : TransactionCertifier) (cs : CommitState) (r : BlockRef)
    : outcome CommitState :=
  reject_votes ← expect (get_reject_votes t r);
  Ret (foldl (direct_transaction c r) cs reject_votes).

Definition try_direct_finalize_commit (c : Committee) (t : TransactionCertifier) (cs : CommitState)
    : outcome CommitState :=
  _ ← assert_that (negb (bool_decide (pending_blocks cs = ∅)));
  let blocks := fst <$> map_iter BlockRef_leb (pending_blocks cs) in
  foldM (direct_block c t) (cs <| pending_blocks := ∅ |>) blocks.

(** The loop over the buffered commits stops at the first remote commit whose leader is less
    than a wave below that of the last commit. *)
Fixpoint direct_finalize_loop (c : Committee) (t : TransactionCertifier) (last_round : N)
    (commits : list CommitState) : outcome (list CommitState) :=
  match commits with
  | [] => Ret []
  | cs :: rest =>
      if bool_decide (pending_blocks cs = ∅) then
        rest ← direct_finalize_loop c t last_round rest; Ret (cs :: rest)
      else if negb (sd_decided_with_local_blocks (cst_commit cs))
              && (last_round <? u32_add (br_round (sd_leader (cst_commit cs))) DEFAULT_WAVE_LENGTH)
      then Ret (cs :: rest)
      else
        cs ← try_direct_finalize_commit c t cs;
        rest ← direct_finalize_loop c t last_round rest;
        Ret (cs :: rest)
  end.

(** * Linking the blocks of a commit *)

Definition round_key_leb (a b : VerifiedBlock) : bool := vb_round a <=? vb_round b.

Definition add_child_of (child : BlockRef) (blocks : gmap BlockRef BlockState) (ancestor : BlockRef)
    : gmap BlockRef BlockState :=
  match blocks !! ancestor with
  | None => blocks
  | Some bs => <[ancestor := bs <| bst_children := {[child]} ∪ bst_children bs |>]> blocks
  end.

Definition link_block (blocks : gmap BlockRef BlockState) (block : VerifiedBlock) : gmap BlockRef BlockState :=
  let blocks := foldl (add_child_of (reference block)) blocks (vb_ancestors block) in
  match blocks !! reference block with
  | Some _ => blocks
  | None => <[reference block := BlockState_new block]> blocks
  end.

Definition link_blocks (blocks : gmap BlockRef BlockState) (commit : CommittedSubDag) : gmap BlockRef BlockState :=
  foldl link_block blocks (isort round_key_leb (sd_blocks commit)).

(** The loop down the chain of own ancestors; [fuel] bounds its length. *)
Fixpoint origin_loop (fuel : nat) (descendant : BlockRef) (blocks : gmap BlockRef BlockState)
    (origin_ancestor : BlockRef) : outcome (gmap BlockRef BlockState) :=
  if negb (br_author origin_ancestor =? br_author descendant) then Ret blocks
  else
    match blocks !! origin_ancestor with
    | None => Ret blocks
    | Some bs =>
        match fuel with
        | O => Panic
        | Datatypes.S fuel =>
            let blocks := <[origin_ancestor := bs <| bst_origin_descendants := bst_origin_descendants bs ++ [descendant] |>]> blocks in
            next ← expect (head (vb_ancestors (bst_block bs)));
            origin_loop fuel descendant blocks next
        end
    end.

Definition append_origin_descendants_of (blocks : gmap BlockRef BlockState) (block : VerifiedBlock)
    : outcome (gmap BlockRef BlockState) :=
  bs ← expect (blocks !! reference block);
  origin_ancestor ← expect (head (vb_ancestors (bst_block bs)));
  origin_loop (size blocks) (reference block) blocks origin_ancestor.

Definition append_origin_descendants (blocks : gmap BlockRef BlockState) (commit : CommittedSubDag)
    : outcome (gmap BlockRef BlockState) :=
  foldM append_origin_descendants_of blocks (isort round_key_leb (sd_blocks commit)).

(** * Indirect finalization *)

(** The accept vote of an authority on one waiting transaction. *)
Definition count_accept (c : Committee) (author : N) (rejected : gset N)
    (acc : gmap N StakeAggregator * list N) (entry : N * StakeAggregator)
    : outcome (gmap N StakeAggregator * list N) :=
  let '(votes, newly_finalized) := acc in
  let '(index, agg) := entry in
  if bool_decide (index ∈ rejected) then Ret acc
  else
    '(agg, reached) ← agg_add QuorumThreshold agg author c;
    Ret (<[index := agg]> votes, if reached : bool then newly_finalized ++ [index] else newly_finalized).

(** The transactions that now reach a quorum, and the aggregators of the others. *)
Definition count_accepts (c : Committee) (author : N) (rejected : gset N) (accept_votes : gmap N StakeAggregator)
    : outcome (gmap N StakeAggregator * list N) :=
  '(votes, newly_finalized) ← foldM (count_accept c author rejected) (accept_votes, []) (map_iter N.leb accept_votes);
  Ret (foldl (λ votes index, delete index votes) votes newly_finalized, newly_finalized).

(** The traversal of the descendants of a pending block; [fuel] bounds the blocks popped. *)
Fixpoint accept_loop (fuel : nat) (c : Committee) (blocks : gmap BlockRef BlockState)
    (pending_block : BlockRef) (to_visit visited ignored : gset BlockRef)
    (accept_votes : gmap N StakeAggregator) (finalized : list N) : outcome (list N) :=
  match refs_first to_visit with
  | None => Ret finalized
  | Some curr =>
      match fuel with
      | O => Panic
      | Datatypes.S fuel =>
          let to_visit := to_visit ∖ {[curr]} in
          if bool_decide (curr ∈ visited)
          then accept_loop fuel c blocks pending_block to_visit visited ignored accept_votes finalized
          else
            let visited := {[curr]} ∪ visited in
            state ← expect (blocks !! curr);
            let next := to_visit ∪ (bst_children state ∖ visited) in
            if bool_decide (curr ∈ ignored)
            then accept_loop fuel c blocks pending_block next visited ignored accept_votes finalized
            else
              let ignored := {[curr]} ∪ ignored ∪ list_to_set (bst_origin_descendants state) in
              let rejected := default ∅ (bst_reject_votes state !! pending_block) in
              '(accept_votes, newly_finalized) ← count_accepts c (br_author curr) rejected accept_votes;
              let finalized := finalized ++ newly_finalized in
              if bool_decide (accept_votes = ∅) then Ret finalized
              else accept_loop fuel c blocks pending_block next visited ignored accept_votes finalized
      end
  end.

Definition try_indirect_finalize_pending_transactions_in_block (c : Committee) (blocks : gmap BlockRef BlockState)
    (pending_block : BlockRef) (pending : gset N) : outcome (list N) :=
  if bool_decide (pending = ∅) then Ret []
  else
    state ← expect (blocks !! pending_block);
    accept_loop (size blocks) c blocks pending_block (bst_children state) ∅ ∅
      (set_to_map (λ index, (index, StakeAggregator_new)) pending) [].

(** The blocks are processed in chunks by parallel tasks that only read the shared maps; their
    results are merged by block, so that the order of completion does not matter. *)
Definition try_indirect_finalize_pending_transactions (c : Committee) (blocks : gmap BlockRef BlockState)
    (cs : CommitState) : outcome CommitState :=
  results ← mapM (λ '(r, pending),
                    finalized ← try_indirect_finalize_pending_transactions_in_block c blocks r pending;
                    Ret (r, finalized))
              (map_iter BlockRef_leb (pending_transactions cs));
  Ret (foldl (λ cs e, remove_pending_transactions cs e.1 e.2) cs results).

(** The pending transactions of a block that a quorum rejects by now. *)
Definition rejected_in_block (c : Committee) (t : TransactionCertifier) (entry : BlockRef * gset N)
    : outcome (BlockRef * list N) :=
  reject_votes ← expect (get_reject_votes t entry.1);
  let reject_votes : gmap N N := list_to_map (reverse reject_votes) in
  rejected ← foldM (λ rejected index,
                      reject_stake ← expect (reject_votes !! index);
                      Ret (if reject_stake <? committee_quorum_threshold c then rejected else rejected ++ [index]))
               [] (set_iter N.leb entry.2);
  Ret (entry.1, rejected).

Definition reject_transactions (cs : CommitState) (entry : BlockRef * list N) : CommitState :=
  let cs := remove_pending_transactions cs entry.1 entry.2 in
  cs <| rejected_transactions := extend_entry (rejected_transactions cs) entry.1 (list_to_set entry.2) |>.

Definition check_pending_transactions (c : Committee) (t : TransactionCertifier) (cs : CommitState)
    : outcome CommitState :=
  rejected ← mapM (rejected_in_block c t) (map_iter BlockRef_leb (pending_transactions cs));
  Ret (foldl reject_transactions cs (filter (λ e, e.2 ≠ []) rejected)).

Definition try_indirect_reject_pending_transactions (last_round : N) (cs : CommitState) : outcome CommitState :=
  if u32_add (br_round (sd_leader (cst_commit cs))) INDIRECT_REJECT_DEPTH <=? last_round then
    _ ← assert_that (bool_decide (pending_blocks cs = ∅));
    Ret (cs <| rejected_transactions :=
                 foldl (λ rejected e, extend_entry rejected e.1 e.2) (rejected_transactions cs)
                   (map_iter BlockRef_leb (pending_transactions cs)) |>
            <| pending_transactions := ∅ |>)
  else Ret cs.

Definition try_indirect_finalize_first_commit (c : Committee) (t : TransactionCertifier)
    (blocks : gmap BlockRef BlockState) (last_round : N) (cs : CommitState) : outcome CommitState :=
  _ ← assert_that (bool_decide (pending_blocks cs = ∅));
  cs ← check_pending_transactions c t cs;
  cs ← try_indirect_finalize_pending_transactions c blocks cs;
  try_indirect_reject_pending_transactions last_round cs.

(** * Output *)

Definition finalized_commit (cs : CommitState) : CommittedSubDag :=
  (cst_commit cs) <| sd_rejected_transactions_by_block :=
    foldl (λ m e, <[e.1 := set_iter N.leb e.2]> m) (sd_rejected_transactions_by_block (cst_commit cs))
      (map_iter BlockRef_leb (rejected_transactions cs)) |>.

Fixpoint pop_finalized_commits (commits : list CommitState) (blocks : gmap BlockRef BlockState)
    : list CommitState * gmap BlockRef BlockState * list CommittedSubDag :=
  match commits with
  | [] => ([], blocks, [])
  | cs :: rest =>
      if bool_decide (pending_blocks cs = ∅) && bool_decide (pending_transactions cs = ∅) then
        let blocks := foldl (λ m b, delete (reference b) m) blocks (sd_blocks (cst_commit cs)) in
        let '(rest, blocks, finalized) := pop_finalized_commits rest blocks in
        (rest, blocks, finalized_commit cs :: finalized)
      else (commits, blocks, [])
  end.

(** The loop that finalizes a prefix of the buffer; each round pops a commit or stops. *)
Fixpoint indirect_finalize_loop (fuel : nat) (c : Committee) (t : TransactionCertifier) (last_round : N)
    (commits : list CommitState) (blocks : gmap BlockRef BlockState) (finalized : list CommittedSubDag)
    : outcome (list CommitState * gmap BlockRef BlockState * list CommittedSubDag) :=
  match fuel, commits with
  | Datatypes.S fuel, cs :: _ :: _ =>
      if negb (bool_decide (pending_blocks cs = ∅)) then Ret (commits, blocks, finalized)
      else
        cs ← try_indirect_finalize_first_commit c t blocks last_round cs;
        let '(commits, blocks, popped) := pop_finalized_commits (cs :: tail commits) blocks in
        match popped with
        | [] => Ret (commits, blocks, finalized)
        | _ => indirect_finalize_loop fuel c t last_round commits blocks (finalized ++ popped)
        end
  | O, _ :: _ :: _ => Panic
  | _, _ => Ret (commits, blocks, finalized)
  end.

Section WithDag.
Context {S : Type} `{Store S}.
Implicit Types d : DagState S.

Definition process_commit (f : CommitFinalizer) (t : TransactionCertifier) d (commit : CommittedSubDag)
    : outcome (CommitFinalizer * TransactionCertifier * list CommittedSubDag) :=
  let c := committee (cf_context f) in
  _ ← match last_processed_commit f with
      | Some last => assert_that (u32_add last 1 =? cr_index (sd_commit_ref commit))
      | None => Ret tt
      end;
  cs ← CommitState_new commit;
  let last_round := br_round (sd_leader commit) in
  commits ← direct_finalize_loop c t last_round (pending_commits f ++ [cs]);
  let '(commits, blocks, direct) := pop_finalized_commits commits (cf_blocks f) in
  '(commits, blocks, finalized) ←
    match commits with
    | [] => Ret (commits, blocks, direct)
    | _ =>
        blocks ← append_origin_descendants (link_blocks blocks commit) commit;
        indirect_finalize_loop (length commits) c t last_round commits blocks direct
    end;
  t ← match last finalized with
      | Some last_commit => run_gc t d (calculate_gc_round d (br_round (sd_leader last_commit)))
      | None => Ret t
      end;
  Ret (mkCommitFinalizer (cf_context f) (Some (cr_index (sd_commit_ref commit))) commits blocks, t, finalized).

(** One iteration of the task: the finalized commits are recorded and persisted, then sent. *)
Definition run_step (f : CommitFinalizer) (t : TransactionCertifier) d (commit : CommittedSubDag)
    : outcome (CommitFinalizer * TransactionCertifier * DagState S * list CommittedSubDag) :=
  let fastpath := mysticeti_fastpath (protocol_config (cf_context f)) in
  '(f, t, finalized) ← (if fastpath then process_commit f t d commit else Ret (f, t, [commit]));
  d ← match finalized with
      | [] => Ret d
      | _ =>
          let d := if fastpath
                   then foldl (λ d commit, add_finalized_commit d (sd_commit_ref commit)
                                             (sd_rejected_transactions_by_block commit)) d finalized
                   else d in
          flush d
      end;
  Ret (f, t, d, finalized).
End WithDag.

(** * The map of buffered blocks *)

Abbreviation refs l := (fmap reference l).

(** One step down the chain of own ancestors, inside [l]. *)
Definition own_step (l : list VerifiedBlock) (x y : BlockRef) : Prop :=
  ∃ b, b ∈ l ∧ reference b = x ∧ head (vb_ancestors b) = Some y ∧ br_author y = br_author x ∧ y ∈ refs l.
Definition own_chain (l : list VerifiedBlock) : BlockRef → BlockRef → Prop := tc (own_step l).

(** The entry of [r] when the blocks [l] are linked and the origin descendants among [done]
    are appended. *)
Record state_ok (l done : list VerifiedBlock) (r : BlockRef) (bs : BlockState) : Prop := {
  so_block : bst_block bs ∈ l;
  so_ref : reference (bst_block bs) = r;
  so_children : ∀ x, x ∈ bst_children bs ↔ ∃ b, b ∈ l ∧ reference b = x ∧ r ∈ vb_ancestors b;
  so_votes : bst_reject_votes bs = bst_reject_votes (BlockState_new (bst_block bs));
  so_origin : ∀ x, x ∈ bst_origin_descendants bs ↔ x ∈ refs done ∧ own_chain l x r;
}.

Record blocks_ok (l done : list VerifiedBlock) (M : gmap BlockRef BlockState) : Prop := {
  bo_state : ∀ r bs, M !! r = Some bs → state_ok l done r bs;
  bo_present : ∀ b, b ∈ l → is_Some (M !! reference b);
  bo_rounds : ∀ b a, b ∈ l → a ∈ vb_ancestors b → br_round a < vb_round b;
  bo_ancestors : ∀ b, b ∈ l → vb_ancestors b ≠ [];
  bo_unique : ∀ b b', b ∈ l → b' ∈ l → reference b = reference b' → b = b';
}.

Lemma blocks_ok_empty : blocks_ok [] [] ∅.
Proof. split; set_solver. Qed.

Lemma blocks_ok_in l done M b :
  blocks_ok l done M → b ∈ l → ∃ bs, M !! reference b = Some bs ∧ state_ok l done (reference b) bs ∧ bst_block bs = b.
Proof.
  intros HM Hb. destruct (bo_present _ _ _ HM b Hb) as [bs Hbs]. exists bs. split; [done|].
  pose proof (bo_state _ _ _ HM _ _ Hbs) as Hs. split; [done|].
  apply (bo_unique _ _ _ HM); [apply Hs|done|apply Hs].
Qed.

Lemma own_step_round l x y :
  (∀ b a, b ∈ l → a ∈ vb_ancestors b → br_round a < vb_round b) → own_step l x y → br_round y < br_round x.
Proof.
  intros Hr (b & Hb & <- & Hh & _). apply (Hr b); [done|]. by apply head_Some_elem_of.
Qed.

Lemma own_chain_round l x y :
  (∀ b a, b ∈ l → a ∈ vb_ancestors b → br_round a < vb_round b) → own_chain l x y → br_round y < br_round x.
Proof.
  intros Hr. induction 1 as [x y Hs|x y z Hs _ IH]; apply (own_step_round l) in Hs; try done; lia.
Qed.

Lemma own_chain_in l x y : own_chain l x y → x ∈ refs l ∧ y ∈ refs l ∧ br_author y = br_author x.
Proof.
  induction 1 as [x y (b & Hb & <- & _ & Ha & Hy)|x y z (b & Hb & <- & _ & Ha & Hy) _ (_ & IH & Ha')].
  - split; [by apply list_elem_of_fmap_2|done].
  - split; [by apply list_elem_of_fmap_2|]. split; [done|]. simpl in *. congruence.
Qed.

(** Chains do not notice blocks that no block of [l] links to. *)
Lemma own_step_grow l new x y :
  (∀ b b', b ∈ new → b' ∈ l → reference b ∉ vb_ancestors b') →
  (∀ b b', b ∈ l ++ new → b' ∈ l ++ new → reference b = reference b' → b = b') →
  x ∈ refs l → own_step (l ++ new) x y ↔ own_step l x y.
Proof.
  intros Hnew Hu Hx. apply list_elem_of_fmap in Hx as (bx & -> & Hbx). unfold own_step. split.
  - intros (b & Hb & He & Hh & Ha & Hy). apply Hu in He as ->; [|done|apply elem_of_app; by left].
    exists bx. do 4 (split; [done|]). apply list_elem_of_fmap in Hy as (b' & -> & [Hb'|Hb']%elem_of_app);
      [by apply list_elem_of_fmap_2|]. exfalso. apply (Hnew b' bx); [done|done|]. by apply head_Some_elem_of.
  - intros (b & Hb & ? & ? & ? & Hy). exists b. rewrite fmap_app, !elem_of_app.
    split; [by left|]. do 3 (split; [done|]). by left.
Qed.

Lemma own_chain_grow l new x y :
  (∀ b b', b ∈ new → b' ∈ l → reference b ∉ vb_ancestors b') →
  (∀ b b', b ∈ l ++ new → b' ∈ l ++ new → reference b = reference b' → b = b') →
  x ∈ refs l → own_chain (l ++ new) x y ↔ own_chain l x y.
Proof.
  intros Hnew Hu Hx. split.
  - intros Hc. revert Hx. induction Hc as [x y Hs|x y z Hs _ IH]; intros Hx;
      apply own_step_grow in Hs; try done; [by apply tc_once|].
    eapply tc_l; [done|]. apply IH. by destruct Hs as (? & _ & _ & _ & _ & ?).
  - intros Hc. induction Hc as [x y Hs|x y z Hs _ IH]; [apply tc_once; by apply own_step_grow|].
    eapply tc_l; [by apply own_step_grow|]. apply IH. by destruct Hs as (? & _ & _ & _ & _ & ?).
Qed.

(** ** Linking *)

Lemma add_child_of_lookup child M a r :
  add_child_of child M a !! r =
    if decide (r = a) then (λ bs, bs <| bst_children := {[child]} ∪ bst_children bs |>) <$> M !! r else M !! r.
Proof.
  unfold add_child_of. destruct (M !! a) as [bs|] eqn:Ha.
  - destruct (decide (r = a)) as [->|]; [by rewrite lookup_insert_eq, Ha|by rewrite lookup_insert_ne].
  - destruct (decide (r = a)) as [->|]; [|done]. by rewrite Ha.
Qed.

Lemma add_children_lookup child ancestors M r :
  foldl (add_child_of child) M ancestors !! r =
    if decide (r ∈ ancestors) then (λ bs, bs <| bst_children := {[child]} ∪ bst_children bs |>) <$> M !! r else M !! r.
Proof.
  revert M. induction ancestors as [|a l IH]; intros M; cbn [foldl].
  { by rewrite decide_False by apply not_elem_of_nil. }
  rewrite IH, add_child_of_lookup.
  destruct (decide (r ∈ l)), (decide (r = a)), (decide (r ∈ a :: l)); try set_solver.
  destruct (M !! r) as [bs|]; [|done]. simpl. f_equal. unfold set. f_equal. set_solver.
Qed.

Lemma link_block_ok l done M b :
  blocks_ok l done M → reference b ∉ refs l → vb_ancestors b ≠ [] →
  (∀ a, a ∈ vb_ancestors b → br_round a < vb_round b) →
  (∀ b', b' ∈ l → reference b ∉ vb_ancestors b') → (∀ b', b' ∈ done → b' ∈ l) →
  blocks_ok (l ++ [b]) done (link_block M b).
Proof.
  intros HM Hfresh Hne Hround Hnot Hdone.
  assert (reference b ∉ vb_ancestors b) as Hself by (intros Ha%Hround; simpl in Ha; lia).
  assert (∀ b1 b2, b1 ∈ l ++ [b] → b2 ∈ l ++ [b] → reference b1 = reference b2 → b1 = b2) as Hu.
  { intros b1 b2 H1 H2 He. rewrite elem_of_app, list_elem_of_singleton in H1, H2.
    destruct H1 as [H1| ->], H2 as [H2| ->]; [by apply (bo_unique _ _ _ HM)| | |done]; exfalso; apply Hfresh;
      [rewrite <- He|rewrite He]; by apply list_elem_of_fmap_2. }
  assert (M !! reference b = None) as HbM.
  { destruct (M !! reference b) as [bs|] eqn:Hb; [|done]. exfalso. apply Hfresh.
    destruct (bo_state _ _ _ HM _ _ Hb) as [Hin <- _ _ _]. by apply list_elem_of_fmap_2. }
  assert (∀ r, link_block M b !! r = if decide (r = reference b) then Some (BlockState_new b)
    else foldl (add_child_of (reference b)) M (vb_ancestors b) !! r) as Hlk.
  { intros r. unfold link_block. rewrite add_children_lookup, decide_False, HbM by done.
    destruct (decide (r = reference b)) as [->|]; [by rewrite lookup_insert_eq|by rewrite lookup_insert_ne]. }
  split; [| | | |done].
  - intros r bs. rewrite Hlk. destruct (decide (r = reference b)) as [->|Hr].
    + intros [= <-]. split; simpl; [set_solver|done| |done|].
      * intros x. split; [set_solver|]. intros (b' & Hb' & _ & Hin).
        rewrite elem_of_app, list_elem_of_singleton in Hb'. destruct Hb' as [Hb'| ->]; [by apply (Hnot b') in Hin|done].
      * intros x. split; [by intros ?%elem_of_nil|]. intros [Hx Hch]. exfalso.
        apply list_elem_of_fmap in Hx as (b' & -> & Hb'%Hdone).
        apply (own_chain_grow l [b]) in Hch as (_ & ? & _)%own_chain_in; try done; [|by apply list_elem_of_fmap_2].
        intros b1 b2 ->%list_elem_of_singleton. auto.
    + rewrite add_children_lookup.
      assert (∀ bs, M !! r = Some bs → state_ok l done r bs) as Hst by (intros; by apply (bo_state _ _ _ HM)).
      assert (∀ bs bs', M !! r = Some bs → bst_block bs' = bst_block bs → bst_reject_votes bs' = bst_reject_votes bs →
        bst_origin_descendants bs' = bst_origin_descendants bs →
        (∀ x, x ∈ bst_children bs' ↔ x ∈ bst_children bs ∨ x = reference b ∧ r ∈ vb_ancestors b) →
        state_ok (l ++ [b]) done r bs') as Hmk.
      { intros bs0 bs' H0 E1 E2 E3 E4. destruct (Hst bs0 H0) as [G1 G2 G3 G4 G5]. split; rewrite ?E1, ?E2, ?E3; try done.
        - set_solver.
        - intros x. rewrite E4, G3. setoid_rewrite elem_of_app. setoid_rewrite list_elem_of_singleton. naive_solver.
        - intros x. rewrite G5. split; intros [Hx Hch]; (split; [done|]).
          + apply own_chain_grow; try done; [intros b1 b2 ->%list_elem_of_singleton; auto|].
            apply list_elem_of_fmap in Hx as (b' & -> & ?%Hdone). by apply list_elem_of_fmap_2.
          + apply own_chain_grow in Hch; try done; [intros b1 b2 ->%list_elem_of_singleton; auto|].
            apply list_elem_of_fmap in Hx as (b' & -> & ?%Hdone). by apply list_elem_of_fmap_2. }
      destruct (decide (r ∈ vb_ancestors b)) as [Hin|Hin].
      * intros (bs0 & H0 & ->)%fmap_Some. apply (Hmk bs0); try done. intros x. simpl. set_solver.
      * intros H0. apply (Hmk bs); try done. intros x. tauto.
  - intros b' [Hb'| ->%list_elem_of_singleton]%elem_of_app; rewrite Hlk; [|by rewrite decide_True].
    destruct (decide (reference b' = reference b)); [eauto|]. rewrite add_children_lookup.
    destruct (bo_present _ _ _ HM b' Hb') as [bs ->]. destruct (decide _); simpl; eauto.
  - intros b' a [Hb'| ->%list_elem_of_singleton]%elem_of_app; [by apply (bo_rounds _ _ _ HM)|auto].
  - intros b' [Hb'| ->%list_elem_of_singleton]%elem_of_app; [by apply (bo_ancestors _ _ _ HM)|done].
Qed.

Lemma link_list_ok l done M new :
  blocks_ok l done M → NoDup (refs (l ++ new)) →
  (∀ b, b ∈ new → vb_ancestors b ≠ [] ∧ ∀ a, a ∈ vb_ancestors b → br_round a < vb_round b) →
  (∀ b b', b ∈ new → b' ∈ l → reference b ∉ vb_ancestors b') →
  StronglySorted round_key_leb new → (∀ b, b ∈ done → b ∈ l) →
  blocks_ok (l ++ new) done (foldl link_block M new).
Proof.
  intros HM Hnd Hnew Hnot Hs Hdone. revert l M HM Hnd Hnot Hdone.
  induction Hs as [|b new Hs IH Hb]; intros l M HM Hnd Hnot Hdone; [by rewrite app_nil_r|].
  destruct (Hnew b) as [Hne Hr]; [left|].
  rewrite cons_middle, app_assoc in Hnd |- *. cbn [foldl]. apply IH; [| |done| |].
  - intros b' Hb'. apply Hnew. by right.
  - apply link_block_ok; try done.
    + rewrite !fmap_app in Hnd. apply NoDup_app in Hnd as ((_ & Hd & _)%NoDup_app & _ & _). intros Hin.
      apply (Hd _ Hin). left.
    + intros b' Hb'. apply Hnot; [left|done].
  - intros b1 b2 Hb1 [Hb2| ->%list_elem_of_singleton]%elem_of_app; [apply Hnot; [by right|done]|].
    intros Ha%Hr. rewrite Forall_forall in Hb. specialize (Hb b1 Hb1). apply Is_true_true in Hb.
    unfold round_key_leb in Hb. simpl in Ha. lia.
  - intros b' Hb'. apply elem_of_app. left. auto.
Qed.

(** ** Origin descendants *)

(** [r] is at [y] or below it on the chain of an author. *)
Definition at_or_below (l : list VerifiedBlock) (author : N) (y r : BlockRef) : Prop :=
  y ∈ refs l ∧ br_author y = author ∧ (r = y ∨ own_chain l y r).

(** [M'] is [M] with [x] appended to the origin descendants of the entries that satisfy [P]. *)
Record appended (x : BlockRef) (P : BlockRef → Prop) (M M' : gmap BlockRef BlockState) : Prop := {
  ap_dom : dom M' = dom M;
  ap_state : ∀ r bs, M !! r = Some bs → ∃ bs', M' !! r = Some bs' ∧ bst_block bs' = bst_block bs ∧
    bst_children bs' = bst_children bs ∧ bst_reject_votes bs' = bst_reject_votes bs ∧
    ∀ z, z ∈ bst_origin_descendants bs' ↔ z ∈ bst_origin_descendants bs ∨ z = x ∧ P r;
}.

Lemma appended_refl x (P : BlockRef → Prop) M : (∀ r, is_Some (M !! r) → ¬ P r) → appended x P M M.
Proof. intros HP. split; [done|]. intros r bs Hr. exists bs. naive_solver. Qed.

(** What the loop reads of the map: the block of each entry. *)
Definition holds_blocks (l : list VerifiedBlock) (M : gmap BlockRef BlockState) : Prop :=
  (∀ r bs, M !! r = Some bs → bst_block bs ∈ l ∧ reference (bst_block bs) = r) ∧
  (∀ b, b ∈ l → is_Some (M !! reference b)).

Section Origin.
Context (l : list VerifiedBlock).
Context (Hrounds : ∀ b a, b ∈ l → a ∈ vb_ancestors b → br_round a < vb_round b).
Context (Hanc : ∀ b, b ∈ l → vb_ancestors b ≠ []).
Context (Hunique : ∀ b b', b ∈ l → b' ∈ l → reference b = reference b' → b = b').

Lemma own_chain_next b next r :
  b ∈ l → head (vb_ancestors b) = Some next →
  own_chain l (reference b) r ↔ at_or_below l (vb_author b) next r.
Proof.
  intros Hb Hh. unfold at_or_below. split.
  - assert (∀ y, own_step l (reference b) y → y = next ∧ y ∈ refs l ∧ br_author y = vb_author b) as Hstep.
    { intros y (b' & Hb' & He & Hh' & Ha & Hy). apply Hunique in He as ->; [|done|done]. split; [congruence|]. by split. }
    intros Hc. inversion Hc as [? ? Hs|? y ? Hs Hc']; subst; apply Hstep in Hs as (-> & ? & ?); naive_solver.
  - intros (Hy & Ha & Hr). assert (own_step l (reference b) next) as Hs by (exists b; done).
    destruct Hr as [->|Hr]; [by apply tc_once|by eapply tc_l].
Qed.

Lemma origin_loop_spec fuel x y M :
  holds_blocks l M → (size (filter (λ r, (br_round r ≤ br_round y)%N) (dom M)) ≤ fuel)%nat →
  ∃ M', origin_loop fuel x M y = Ret M' ∧ appended x (at_or_below l (br_author x) y) M M'.
Proof.
  revert y M. induction fuel as [|fuel IH]; intros y M [HM1 HM2] Hfuel; cbn [origin_loop].
  all: destruct (N.eqb_spec (br_author y) (br_author x)) as [Ha|Ha]; cbn [negb];
    [|exists M; split; [done|]; apply appended_refl; intros r _ (_ & ? & _); done].
  all: destruct (M !! y) as [bs|] eqn:Hy;
    [|exists M; split; [done|]; apply appended_refl; intros r _ (Hin & _ & _);
      apply list_elem_of_fmap in Hin as (b & -> & Hb); apply HM2 in Hb as [? ?]; congruence].
  - exfalso. apply Nat.le_0_r, size_empty_inv in Hfuel. apply (not_elem_of_empty (C := gset BlockRef) y), (Hfuel y), elem_of_filter.
    split; [done|]. by apply elem_of_dom_2 in Hy.
  - destruct (HM1 y bs Hy) as [Hin Href].
    destruct (vb_ancestors (bst_block bs)) as [|next rest] eqn:Hv; [by apply Hanc in Hin|].
    assert (head (vb_ancestors (bst_block bs)) = Some next) as Hh by (by rewrite Hv).
    set (bs1 := bs <| bst_origin_descendants := bst_origin_descendants bs ++ [x] |>).
    set (M1 := <[y := bs1]> M). assert (dom M1 = dom M) as Hdom
      by (unfold M1; rewrite dom_insert_L; apply elem_of_dom_2 in Hy; set_solver).
    assert (br_round next < br_round y) as Hlt.
    { rewrite <- Href. apply (Hrounds (bst_block bs)); [done|]. rewrite Hv. left. }
    destruct (IH next M1) as (M' & Hrun & Hd & Hst).
    + split; [|intros b Hb; unfold M1; destruct (decide (y = reference b)) as [<-|];
        [rewrite lookup_insert_eq; eauto|rewrite lookup_insert_ne by done; by apply HM2]].
      intros r bs'. unfold M1. destruct (decide (y = r)) as [<-|]; [rewrite lookup_insert_eq; by intros [= <-]|].
      rewrite lookup_insert_ne by done. apply HM1.
    + assert (size (filter (λ r, (br_round r ≤ br_round next)%N) (dom M1)) < size (filter (λ r, (br_round r ≤ br_round y)%N) (dom M)))%nat; [|lia].
      apply subset_size. rewrite Hdom. split; [intros r; rewrite !elem_of_filter; intros [? ?]; split; [lia|done]|].
      intros Hsub. assert (y ∈ filter (λ r, (br_round r ≤ br_round next)%N) (dom M)) as Hyf.
      { apply Hsub, elem_of_filter. split; [done|]. by apply elem_of_dom_2 in Hy. }
      apply elem_of_filter in Hyf as [? _]. lia.
    + exists M'. cbn [expect head mbind outcome_bind]. split; [exact Hrun|]. split; [congruence|].
      assert (∀ r, at_or_below l (br_author x) y r ↔ r = y ∨ at_or_below l (br_author x) next r) as Hab.
      { intros r. rewrite <- Ha, <- Href. change (br_author (reference (bst_block bs))) with (vb_author (bst_block bs)).
        rewrite <- (own_chain_next (bst_block bs) next r Hin Hh). unfold at_or_below. split; [naive_solver|].
        intros Hor. split; [by apply list_elem_of_fmap_2|]. split; [done|]. naive_solver. }
      intros r bs0 Hr. destruct (decide (y = r)) as [<-|Hne].
      * rewrite Hy in Hr. injection Hr as <-. destruct (Hst y bs1) as (bs' & ? & ? & ? & ? & Ho); [apply lookup_insert_eq|].
        exists bs'. do 4 (split; [done|]). intros z. rewrite Ho, Hab. unfold bs1. simpl.
        rewrite elem_of_app, list_elem_of_singleton. naive_solver.
      * destruct (Hst r bs0) as (bs' & ? & ? & ? & ? & Ho); [unfold M1; by rewrite lookup_insert_ne|].
        exists bs'. do 4 (split; [done|]). intros z. rewrite Ho, Hab. naive_solver.
Qed.
End Origin.

Lemma append_of_ok l done M b :
  blocks_ok l done M → b ∈ l → reference b ∉ refs done →
  ∃ M', append_origin_descendants_of M b = Ret M' ∧ blocks_ok l (done ++ [b]) M'.
Proof.
  intros HM Hb Hnew. pose proof HM as [Hst Hpr Hr Ha Hu].
  destruct (blocks_ok_in l done M b HM Hb) as (bs & Hbs & _ & Hblk).
  unfold append_origin_descendants_of. rewrite Hbs. cbn [expect mbind outcome_bind]. rewrite Hblk.
  destruct (vb_ancestors b) as [|y rest] eqn:Hv; [by apply Ha in Hb|]. cbn [head expect mbind outcome_bind].
  destruct (origin_loop_spec l Hr Ha Hu (size M) (reference b) y M) as (M' & Hrun & Hd & Happ).
  - split; [|done]. intros r bs' Hr'. by destruct (Hst r bs' Hr').
  - rewrite <- (size_dom M). apply subseteq_size. intros r. rewrite elem_of_filter. tauto.
  - exists M'. split; [exact Hrun|]. split; [| |done|done|done].
    + intros r bs' Hr'.
      assert (is_Some (M !! r)) as [bs0 H0] by (apply elem_of_dom; rewrite <- Hd; by apply elem_of_dom_2 in Hr').
      destruct (Happ r bs0 H0) as (bs1 & H1 & E1 & E2 & E3 & E4). rewrite Hr' in H1. injection H1 as <-.
      destruct (Hst r bs0 H0) as [G1 G2 G3 G4 G5]. split; rewrite ?E1, ?E2, ?E3; try done.
      intros x. rewrite E4, G5, fmap_app, elem_of_app. simpl. rewrite list_elem_of_singleton.
      assert (own_chain l (reference b) r ↔ at_or_below l (vb_author b) y r) as Hnext
        by (apply own_chain_next; try done; by rewrite Hv).
      change (br_author (reference b)) with (vb_author b) in *. rewrite <- Hnext. naive_solver.
    + intros b' Hb'. apply elem_of_dom. rewrite Hd. by apply elem_of_dom, Hpr.
Qed.

Lemma append_list_ok l done M new :
  blocks_ok l done M → (∀ b, b ∈ new → b ∈ l) → NoDup (refs (done ++ new)) →
  ∃ M', foldM append_origin_descendants_of M new = Ret M' ∧ blocks_ok l (done ++ new) M'.
Proof.
  revert done M. induction new as [|b new IH]; intros done M HM Hin Hnd; [exists M; by rewrite app_nil_r|].
  rewrite cons_middle, app_assoc in Hnd |- *.
  destruct (append_of_ok l done M b HM) as (M1 & Hrun & HM1); [apply Hin; left| |].
  { rewrite !fmap_app in Hnd. apply NoDup_app in Hnd as ((_ & Hd & _)%NoDup_app & _ & _). intros Hx.
    apply (Hd _ Hx). left. }
  destruct (IH (done ++ [b]) M1 HM1) as (M2 & Hrun2 & HM2); [intros; apply Hin; by right|done|].
  exists M2. cbn [foldM]. rewrite Hrun. by split.
Qed.

Lemma blocks_ok_perm l l' done done' M :
  (∀ b, b ∈ l ↔ b ∈ l') → (∀ b, b ∈ done ↔ b ∈ done') → blocks_ok l done M → blocks_ok l' done' M.
Proof.
  intros Hl Hd [Hst Hpr Hr Ha Hu].
  assert (∀ x, x ∈ refs l ↔ x ∈ refs l') as Hrl by (intros x; rewrite !list_elem_of_fmap; by setoid_rewrite Hl).
  assert (∀ x, x ∈ refs done ↔ x ∈ refs done') as Hrd by (intros x; rewrite !list_elem_of_fmap; by setoid_rewrite Hd).
  assert (∀ x y, own_step l x y ↔ own_step l' x y) as Hos
    by (intros x y; unfold own_step; setoid_rewrite Hl; by setoid_rewrite Hrl).
  assert (∀ x y, own_chain l x y ↔ own_chain l' x y) as Hoc.
  { intros x y. split; (induction 1 as [? ? Hs|? ? ? Hs _ IH]; [apply tc_once|eapply tc_l; [|exact IH]]; by apply Hos). }
  split; [|by setoid_rewrite <- Hl|by setoid_rewrite <- Hl|by setoid_rewrite <- Hl|by setoid_rewrite <- Hl].
  intros r bs Hr'. destruct (Hst r bs Hr') as [G1 G2 G3 G4 G5]. split; try done; [by apply Hl| |].
  - intros x. rewrite G3. by setoid_rewrite Hl.
  - intros x. by rewrite G5, Hrd, Hoc.
Qed.

(** Linking a commit and appending its origin descendants. *)
Lemma link_commit_ok l M commit :
  blocks_ok l l M → NoDup (refs (l ++ sd_blocks commit)) →
  (∀ b, b ∈ sd_blocks commit → vb_ancestors b ≠ [] ∧ ∀ a, a ∈ vb_ancestors b → br_round a < vb_round b) →
  (∀ b b', b ∈ sd_blocks commit → b' ∈ l → reference b ∉ vb_ancestors b') →
  ∃ M', append_origin_descendants (link_blocks M commit) commit = Ret M' ∧
    blocks_ok (l ++ sd_blocks commit) (l ++ sd_blocks commit) M'.
Proof.
  intros HM Hnd Hb Hnot. unfold append_origin_descendants, link_blocks.
  set (new := isort round_key_leb (sd_blocks commit)).
  assert (new ≡ₚ sd_blocks commit) as Hp by apply isort_perm.
  assert (blocks_ok (l ++ new) l (foldl link_block M new)) as HM1.
  { apply link_list_ok; try done.
    - by rewrite Hp.
    - intros b. rewrite Hp. apply Hb.
    - intros b b'. rewrite Hp. apply Hnot.
    - apply isort_sorted; intros; unfold round_key_leb in *; lia. }
  destruct (append_list_ok (l ++ new) l _ new HM1) as (M' & Hrun & HM'); [set_solver|by rewrite Hp|].
  exists M'. split; [exact Hrun|]. apply (blocks_ok_perm (l ++ new) _ (l ++ new)); [| |done]; intros b; by rewrite Hp.
Qed.

(** ** Removal *)

Lemma delete_blocks_lookup (M : gmap BlockRef BlockState) blocks r :
  foldl (λ m b, delete (reference b) m) M blocks !! r = if decide (r ∈ refs blocks) then None else M !! r.
Proof.
  revert M. induction blocks as [|b blocks IH]; intros M; cbn [foldl].
  { by rewrite decide_False by apply not_elem_of_nil. }
  rewrite IH. destruct (decide (r ∈ refs blocks)), (decide (r ∈ refs (b :: blocks))); csimpl in *; try set_solver.
  - assert (r = reference b) as -> by set_solver. apply lookup_delete_eq.
  - apply lookup_delete_ne. set_solver.
Qed.

(** Blocks that link to none of the remaining ones can be removed. *)
Lemma delete_blocks_ok del l M :
  blocks_ok (del ++ l) (del ++ l) M → (∀ b b', b ∈ del → b' ∈ l → reference b' ∉ vb_ancestors b) →
  NoDup (refs (del ++ l)) →
  blocks_ok l l (foldl (λ m b, delete (reference b) m) M del).
Proof.
  intros [Hst Hpr Hr Ha Hu] Hnot Hnd.
  assert (∀ b, b ∈ l → reference b ∉ refs del) as Hdisj.
  { intros b Hb Hin. rewrite fmap_app in Hnd. apply NoDup_app in Hnd as (_ & Hd & _).
    apply (Hd _ Hin). by apply list_elem_of_fmap_2. }
  assert (∀ x y, own_step (del ++ l) x y → y ∈ refs l → x ∈ refs l ∧ own_step l x y) as Hstep.
  { intros x y (b & Hb & <- & Hh & Hau & _) Hy. apply list_elem_of_fmap in Hy as (b' & -> & Hb').
    apply elem_of_app in Hb as [Hb|Hb]; [exfalso; apply (Hnot b b' Hb Hb'); by apply head_Some_elem_of|].
    split; [by apply list_elem_of_fmap_2|]. exists b. do 4 (split; [done|]). by apply list_elem_of_fmap_2. }
  assert (∀ x r, own_chain (del ++ l) x r → r ∈ refs l → x ∈ refs l ∧ own_chain l x r) as Hch.
  { intros x r. induction 1 as [x r Hs|x y r Hs _ IH]; intros Hrl.
    - destruct (Hstep _ _ Hs Hrl). split; [done|]. by apply tc_once.
    - destruct (IH Hrl) as [Hy Hc]. destruct (Hstep _ _ Hs Hy). split; [done|]. by eapply tc_l. }
  assert (∀ x r, own_chain l x r → own_chain (del ++ l) x r) as Hch'.
  { intros x r. induction 1 as [x r (b & ? & ? & ? & ? & ?)|x y r (b & ? & ? & ? & ? & ?) _ IH];
      [apply tc_once|eapply tc_l; [|exact IH]]; exists b; rewrite fmap_app, !elem_of_app; naive_solver. }
  split.
  - intros r bs. rewrite delete_blocks_lookup. destruct (decide (r ∈ refs del)) as [|Hnd']; [done|].
    intros Hbs. destruct (Hst r bs Hbs) as [G1 G2 G3 G4 G5].
    assert (bst_block bs ∈ l) as Hin.
    { apply elem_of_app in G1 as [G1|]; [|done]. exfalso. apply Hnd'. rewrite <- G2. by apply list_elem_of_fmap_2. }
    assert (r ∈ refs l) as Hrl by (rewrite <- G2; by apply list_elem_of_fmap_2).
    split; try done.
    + intros x. rewrite G3. split; intros (b & Hb & ? & Hanc); exists b; [|rewrite elem_of_app; naive_solver].
      apply elem_of_app in Hb as [Hb|Hb]; [|done]. exfalso. rewrite <- G2 in Hanc. by apply (Hnot b (bst_block bs)) in Hanc.
    + intros x. rewrite G5. split; [intros [_ Hc]; by apply Hch|]. intros [Hx Hc]. split; [|by apply Hch'].
      rewrite fmap_app. apply elem_of_app. by right.
  - intros b Hb. rewrite delete_blocks_lookup, decide_False by by apply Hdisj. apply Hpr. apply elem_of_app. by right.
  - intros b a Hb. apply Hr. apply elem_of_app. by right.
  - intros b Hb. apply Ha. apply elem_of_app. by right.
  - intros b b' Hb Hb'. apply Hu; apply elem_of_app; by right.
Qed.

(** * The traversal for accept votes *)

(** [x] links to [y]; the descendants of a block inside [l]. *)
Definition child_step (l : list VerifiedBlock) (y x : BlockRef) : Prop :=
  ∃ b, b ∈ l ∧ reference b = x ∧ y ∈ vb_ancestors b.
Definition descends (l : list VerifiedBlock) : BlockRef → BlockRef → Prop := tc (child_step l).

(** The vote of a block on a transaction, as the finalizer reads it. *)
Definition block_rejects (b : VerifiedBlock) (r : BlockRef) (i : N) : Prop :=
  i ∈ default ∅ (bst_reject_votes (BlockState_new b) !! r).

(** The blocks whose votes on [r] count: the descendants with no descendant below them on
    their chain of own ancestors. *)
Definition counted (l : list VerifiedBlock) (r : BlockRef) (b : VerifiedBlock) : Prop :=
  b ∈ l ∧ descends l r (reference b) ∧ ∀ y, descends l r y → ¬ own_chain l (reference b) y.

Definition accepts (l : list VerifiedBlock) (r : BlockRef) (i a : N) : Prop :=
  ∃ b, counted l r b ∧ vb_author b = a ∧ ¬ block_rejects b r i.

(** A quorum accepts the transaction in [l]. *)
Definition accepted_in (c : Committee) (l : list VerifiedBlock) (r : BlockRef) (i : N) : Prop :=
  ∃ X : gset N, reached_quorum c (weight c X) = true ∧ ∀ a, a ∈ X → accepts l r i a.

Section CountAccepts.
Context (c : Committee) (Hc : committee_wf c) (author : N) (Hauthor : is_valid_index c author = true).

Lemma count_fold (A : N → gset N) rejected es votes newly :
  (∀ i agg, (i, agg) ∈ es → agg_repr c (A i) agg) → NoDup es.*1 →
  ∃ votes' new, foldM (count_accept c author rejected) (votes, newly) es = Ret (votes', newly ++ new) ∧
    (∀ i, i ∈ new ↔ i ∈ es.*1 ∧ (i ∉ rejected) ∧ reached_quorum c (weight c ({[author]} ∪ A i)) = true) ∧
    (∀ i, (i ∉ es.*1) ∨ (i ∈ rejected) → votes' !! i = votes !! i) ∧
    (∀ i, i ∈ es.*1 → i ∉ rejected → ∃ agg, votes' !! i = Some agg ∧ agg_repr c ({[author]} ∪ A i) agg).
Proof.
  revert votes newly. induction es as [|[i agg] es IH]; intros votes newly Hes Hnd.
  { exists votes, []. rewrite app_nil_r. split; [done|]. cbn [fmap list_fmap]. setoid_rewrite elem_of_nil.
    split; [tauto|]. by split. }
  cbn [foldM count_accept]. csimpl in *. inversion Hnd as [|? ? Hi Hnd']; subst.
  assert (∀ i agg, (i, agg) ∈ es → agg_repr c (A i) agg) as Hes' by (intros; apply Hes; by right).
  destruct (bool_decide (i ∈ rejected)) eqn:Hrej; cbn [mbind outcome_bind].
  - apply bool_decide_eq_true in Hrej.
    destruct (IH votes newly Hes' Hnd') as (votes' & new & -> & H1 & H2 & H3).
    exists votes', new. split; [done|]. split; [|split].
    + intros j. rewrite H1, elem_of_cons. split; [tauto|]. intros ([->|?] & ? & ?); done.
    + intros j [Hj|Hj]; apply H2; [left|by right]. rewrite not_elem_of_cons in Hj. by destruct Hj.
    + intros j [->|Hj]%elem_of_cons Hjr; [done|by apply H3].
  - apply bool_decide_eq_false in Hrej.
    destruct (agg_add_repr c Hc QuorumThreshold (A i) agg author) as (agg' & -> & Hagg); [apply Hes; left|done|].
    cbn [mbind outcome_bind is_threshold].
    set (newly1 := if reached_quorum c (weight c ({[author]} ∪ A i)) then newly ++ [i] else newly).
    destruct (IH (<[i := agg']> votes) newly1 Hes' Hnd') as (votes' & new & -> & H1 & H2 & H3).
    exists votes', ((if reached_quorum c (weight c ({[author]} ∪ A i)) then [i] else []) ++ new). split; [|split; [|split]].
    + unfold newly1. destruct (reached_quorum _ _); [by rewrite <- app_assoc|done].
    + intros j. rewrite elem_of_app, H1, elem_of_cons. destruct (reached_quorum c (weight c ({[author]} ∪ A i))) eqn:Hq;
        [rewrite list_elem_of_singleton|rewrite elem_of_nil]; split.
      * intros [->|(? & ? & ?)]; [by split; [left|]|]. by split; [right|].
      * intros ([->|?] & ? & ?); [by left|by right].
      * intros [[]|(? & ? & ?)]. by split; [right|].
      * intros ([->|?] & ? & ?); [congruence|by right].
    + intros j Hj. rewrite not_elem_of_cons in Hj. rewrite H2 by tauto.
      apply lookup_insert_ne. intros ->. destruct Hj as [[? _]|?]; done.
    + intros j [->|Hj]%elem_of_cons Hjr; [|by apply H3]. exists agg'. split; [|done].
      rewrite H2 by by left. apply lookup_insert_eq.
Qed.

Lemma foldl_delete_lookup {V} (m : gmap N V) l i :
  foldl (λ m i, delete i m) m l !! i = if decide (i ∈ l) then None else m !! i.
Proof.
  revert m. induction l as [|x l IH]; intros m; cbn [foldl]; [by rewrite decide_False by apply not_elem_of_nil|].
  rewrite IH. destruct (decide (i ∈ l)), (decide (i ∈ x :: l)); try set_solver.
  - assert (i = x) as -> by set_solver. apply lookup_delete_eq.
  - apply lookup_delete_ne. set_solver.
Qed.

Lemma count_accepts_spec (A : N → gset N) rejected votes :
  (∀ i agg, votes !! i = Some agg → agg_repr c (A i) agg) →
  ∃ votes' new, count_accepts c author rejected votes = Ret (votes', new) ∧
    (∀ i, i ∈ new ↔ is_Some (votes !! i) ∧ (i ∉ rejected) ∧ reached_quorum c (weight c ({[author]} ∪ A i)) = true) ∧
    (∀ i, i ∈ new → votes' !! i = None) ∧
    (∀ i, i ∈ rejected → votes' !! i = votes !! i) ∧
    (∀ i, i ∉ rejected → i ∉ new → (is_Some (votes' !! i) ↔ is_Some (votes !! i))) ∧
    (∀ i agg, votes' !! i = Some agg → i ∉ rejected → agg_repr c ({[author]} ∪ A i) agg).
Proof.
  intros Hv. unfold count_accepts.
  assert (∀ i, i ∈ (map_iter N.leb votes).*1 ↔ is_Some (votes !! i)) as Hdom.
  { intros i. rewrite list_elem_of_fmap. split.
    - intros ([i' agg] & -> & Hi%elem_of_map_iter). eauto.
    - intros [agg Hi]. exists (i, agg). split; [done|]. by apply elem_of_map_iter. }
  destruct (count_fold A rejected (map_iter N.leb votes) votes []) as (votes' & new & Hrun & H1 & H2 & H3).
  { intros i agg Hi%elem_of_map_iter. by apply Hv. }
  { apply NoDup_map_iter. }
  rewrite Hrun. cbn [mbind outcome_bind app]. eexists _, new. split; [done|].
  setoid_rewrite Hdom in H1. setoid_rewrite Hdom in H2. setoid_rewrite Hdom in H3.
  split; [exact H1|]. split; [|split; [|split]].
  - intros i Hi. by rewrite foldl_delete_lookup, decide_True.
  - intros i Hi. rewrite foldl_delete_lookup, decide_False by (rewrite H1; tauto). apply H2. by right.
  - intros i Hi Hn. rewrite foldl_delete_lookup, decide_False by done.
    destruct (votes !! i) as [agg|] eqn:Ha.
    + destruct (H3 i) as (agg' & -> & _); [eauto|done|]. split; eauto.
    + rewrite H2, Ha; [done|]. left. rewrite Ha. by intros [? ?].
  - intros i agg. rewrite foldl_delete_lookup. destruct (decide (i ∈ new)); [done|]. intros Ha Hi.
    destruct (votes !! i) as [agg0|] eqn:Ha0.
    + destruct (H3 i) as (agg' & Hagg & ?); [eauto|done|]. congruence.
    + rewrite H2, Ha0 in Ha; [done|]. left. rewrite Ha0. by intros [? ?].
Qed.
End CountAccepts.

Lemma refs_first_spec (X : gset BlockRef) :
  match refs_first X with
  | None => X = ∅
  | Some x => x ∈ X ∧ ∀ y, y ∈ X → br_round x ≤ br_round y
  end.
Proof.
  unfold refs_first. pose proof (set_iter_sorted X) as Hs. pose proof (elem_of_set_iter BlockRef_leb X) as Hin.
  destruct (set_iter BlockRef_leb X) as [|x l]; simpl.
  - apply set_eq. intros y. rewrite <- Hin, elem_of_nil. set_solver.
  - split; [apply Hin; left|]. intros y [->|Hy]%Hin%elem_of_cons; [done|]. inversion Hs as [|? ? _ Hx]; subst.
    rewrite Forall_forall in Hx. specialize (Hx y Hy). apply Is_true_true, BlockRef_leb_iff in Hx. lia.
Qed.

Section Traversal.
Context (c : Committee) (Hc : committee_wf c) (l : list VerifiedBlock) (M : gmap BlockRef BlockState).
Context (HM : blocks_ok l l M) (Hval : ∀ b, b ∈ l → is_valid_index c (vb_author b) = true).
Context (B : BlockRef) (pending : gset N).

(** The accept votes of the blocks visited so far. *)
Definition voted_by (visited : gset BlockRef) (i a : N) : Prop :=
  ∃ b, reference b ∈ visited ∧ counted l B b ∧ vb_author b = a ∧ ¬ block_rejects b B i.

Record loop_inv (to_visit visited ignored : gset BlockRef) (votes : gmap N StakeAggregator) (finalized : list N)
    : Prop := {
  li_desc : ∀ x, x ∈ to_visit ∨ x ∈ visited → descends l B x;
  li_disj : ∀ x, x ∈ to_visit → x ∉ visited;
  li_closed : ∀ v x, v = B ∨ v ∈ visited → child_step l v x → x ∈ visited ∨ x ∈ to_visit;
  li_ignored : ∀ x, x ∉ visited → x ∈ ignored ↔ ∃ y, y ∈ visited ∧ own_chain l x y;
  li_votes : ∀ i agg, votes !! i = Some agg → i ∈ pending ∧
    ∃ A, agg_repr c A agg ∧ reached_quorum c (weight c A) = false ∧ ∀ a, a ∈ A ↔ voted_by visited i a;
  li_dom : ∀ i, i ∈ pending → is_Some (votes !! i) ∨ i ∈ finalized;
  li_final : ∀ i, i ∈ finalized → i ∈ pending ∧ accepted_in c l B i;
}.

Lemma child_step_round y x : child_step l y x → br_round y < br_round x.
Proof. intros (b & Hb & <- & Ha). by apply (bo_rounds _ _ _ HM b). Qed.

Lemma descends_round y x : descends l y x → br_round y < br_round x.
Proof. induction 1 as [y x Hs|y z x Hs _ IH]; apply child_step_round in Hs; lia. Qed.

Lemma descends_block y x : descends l y x → ∃ b, b ∈ l ∧ reference b = x.
Proof. induction 1 as [y x (b & ? & ? & _)|y z x _ _ IH]; [eauto|done]. Qed.

(** Every descendant is visited or reached from a block to visit. *)
Lemma loop_cover to_visit visited ignored votes finalized x :
  loop_inv to_visit visited ignored votes finalized → descends l B x →
  x ∈ visited ∨ ∃ z, z ∈ to_visit ∧ (z = x ∨ descends l z x).
Proof.
  intros Hinv Hd. assert (∀ v, descends l v x → v = B ∨ v ∈ visited →
    x ∈ visited ∨ ∃ z, z ∈ to_visit ∧ (z = x ∨ descends l z x)) as Hgen; [|by apply (Hgen B); [|left]].
  clear Hd. intros v. induction 1 as [v x Hs|v y x Hs Hd IH]; intros Hv;
    destruct (li_closed _ _ _ _ _ Hinv v _ Hv Hs) as [Hy|Hy]; [by left|right; exists x; auto| |right; exists y; auto].
  apply IH. by right.
Qed.

(** Before a block is visited all lower descendants are. *)
Lemma lower_visited to_visit visited ignored votes finalized curr y :
  loop_inv to_visit visited ignored votes finalized → (∀ z, z ∈ to_visit → br_round curr ≤ br_round z) →
  descends l B y → br_round y < br_round curr → y ∈ visited.
Proof.
  intros Hinv Hmin Hd Hlt. destruct (loop_cover _ _ _ _ _ y Hinv Hd) as [|(z & Hz%Hmin & [->|Hzy])]; [done|lia|].
  apply descends_round in Hzy. lia.
Qed.

(** A block to visit is ignored exactly when its vote does not count. *)
Lemma ignored_iff to_visit visited ignored votes finalized b :
  loop_inv to_visit visited ignored votes finalized → b ∈ l → reference b ∈ to_visit →
  (∀ z, z ∈ to_visit → vb_round b ≤ br_round z) →
  reference b ∉ ignored ↔ counted l B b.
Proof.
  intros Hinv Hb Hin Hmin. pose proof (li_disj _ _ _ _ _ Hinv _ Hin) as Hnv.
  rewrite (li_ignored _ _ _ _ _ Hinv _ Hnv). unfold counted. split.
  - intros Hno. split; [done|]. split; [apply (li_desc _ _ _ _ _ Hinv); by left|].
    intros y Hy Hch. apply Hno. exists y. split; [|done].
    apply (lower_visited to_visit visited ignored votes finalized (reference b)); try done.
    by apply (own_chain_round l _ _ (bo_rounds _ _ _ HM)).
  - intros (_ & _ & Hno) (y & Hy & Hch). apply (Hno y); [|done]. apply (li_desc _ _ _ _ _ Hinv). by right.
Qed.

Lemma voted_by_insert visited b i a :
  b ∈ l → voted_by ({[reference b]} ∪ visited) i a ↔
    voted_by visited i a ∨ counted l B b ∧ vb_author b = a ∧ ¬ block_rejects b B i.
Proof.
  intros Hb. unfold voted_by. split.
  - intros (b' & [He%elem_of_singleton|Hv]%elem_of_union & Hcnt & Ha & Hr); [right|left; by exists b'].
    apply (bo_unique _ _ _ HM) in He as ->; [done|apply Hcnt|done].
  - intros [(b' & Hv & H)|H]; [exists b'|exists b]; (split; [|done]); set_solver.
Qed.

(** The invariant after visiting [b]: what changes in the sets. *)
Lemma visit_sets (to_visit visited ignored ignored' : gset BlockRef) votes finalized b bs :
  loop_inv to_visit visited ignored votes finalized → b ∈ l → reference b ∈ to_visit →
  state_ok l l (reference b) bs →
  (∀ x, x ∉ {[reference b]} ∪ visited → x ∈ ignored' ↔ x ∈ ignored ∨ own_chain l x (reference b)) →
  let visited' := {[reference b]} ∪ visited in
  let next := to_visit ∖ {[reference b]} ∪ (bst_children bs ∖ visited') in
  (∀ x, x ∈ next ∨ x ∈ visited' → descends l B x) ∧ (∀ x, x ∈ next → x ∉ visited') ∧
  (∀ v x, v = B ∨ v ∈ visited' → child_step l v x → x ∈ visited' ∨ x ∈ next) ∧
  (∀ x, x ∉ visited' → x ∈ ignored' ↔ ∃ y, y ∈ visited' ∧ own_chain l x y).
Proof.
  intros [Hdesc Hdisj Hclosed Hign _ _ _] Hb Hin [_ _ Hch _ _] Hign' visited' next.
  assert (∀ x, x ∈ bst_children bs ↔ child_step l (reference b) x) as Hch' by (intros x; rewrite Hch; done).
  split; [|split; [|split]].
  - intros x. unfold next, visited'. rewrite !elem_of_union, !elem_of_difference, elem_of_singleton, Hch'.
    intros [[[? _]|[Hs _]]|[->|?]]; [by apply Hdesc; left| |by apply Hdesc; left|by apply Hdesc; right].
    eapply tc_r; [|exact Hs]. apply Hdesc. by left.
  - intros x. unfold next, visited'. specialize (Hdisj x). set_solver.
  - intros v x Hv Hs. destruct (decide (v = reference b)) as [->|Hne].
    + destruct (decide (x ∈ visited')); [by left|]. right. unfold next. apply Hch' in Hs. set_solver.
    + destruct (Hclosed v x) as [Hx|Hx]; [unfold visited' in Hv; set_solver|done|left; unfold visited'; set_solver|].
      destruct (decide (x = reference b)) as [->|]; [left; unfold visited'; set_solver|]. right. unfold next. set_solver.
  - intros x Hx. rewrite Hign' by done. rewrite Hign by (unfold visited' in Hx; set_solver). unfold visited'. split.
    + intros [(y & ? & ?)|?]; [exists y|exists (reference b)]; set_solver.
    + intros (y & [->%elem_of_singleton|Hy]%elem_of_union & ?); [by right|left; eauto].
Qed.

Lemma voted_by_accepts visited i a : voted_by visited i a → accepts l B i a.
Proof. intros (b & _ & H). by exists b. Qed.

Lemma loop_done visited ignored votes finalized :
  loop_inv ∅ visited ignored votes finalized → ∀ i, i ∈ finalized ↔ i ∈ pending ∧ accepted_in c l B i.
Proof.
  intros Hinv i. split; [apply (li_final _ _ _ _ _ Hinv)|]. intros [Hp (X & HX & Hacc)].
  destruct (li_dom _ _ _ _ _ Hinv i Hp) as [[agg Hagg]|]; [|done]. exfalso.
  destruct (li_votes _ _ _ _ _ Hinv i agg Hagg) as (_ & A & _ & Hq & HA).
  assert (X ⊆ A) as Hsub.
  { intros a Ha. apply HA. destruct (Hacc a Ha) as (b & Hcnt & Hau & Hr). exists b. split; [|done].
    destruct (loop_cover _ _ _ _ _ (reference b) Hinv) as [|(z & Hz & _)]; [apply Hcnt|done|set_solver]. }
  pose proof (is_threshold_mono c QuorumThreshold X A Hsub HX) as Ht. simpl in Ht. congruence.
Qed.

(** Visiting a block that is ignored. *)
Lemma visit_ignored to_visit visited ignored votes finalized b bs :
  loop_inv to_visit visited ignored votes finalized → b ∈ l → reference b ∈ to_visit →
  (∀ z, z ∈ to_visit → vb_round b ≤ br_round z) → state_ok l l (reference b) bs → reference b ∈ ignored →
  loop_inv (to_visit ∖ {[reference b]} ∪ (bst_children bs ∖ ({[reference b]} ∪ visited)))
    ({[reference b]} ∪ visited) ignored votes finalized.
Proof.
  intros Hinv Hb Hin Hmin Hst Hi.
  assert (¬ counted l B b) as Hnc by (rewrite <- (ignored_iff _ _ _ _ _ b Hinv Hb Hin Hmin); tauto).
  destruct (visit_sets to_visit visited ignored ignored votes finalized b bs Hinv Hb Hin Hst) as (H1 & H2 & H3 & H4).
  { intros x Hx. split; [by left|]. intros [|Hch]; [done|].
    apply (li_ignored _ _ _ _ _ Hinv) in Hi as (y & Hy & Hch'); [|by apply (li_disj _ _ _ _ _ Hinv)].
    apply (li_ignored _ _ _ _ _ Hinv); [set_solver|]. exists y. split; [done|]. by etrans. }
  split; [done|done|done|done| |apply Hinv|apply Hinv].
  intros i agg Ha. destruct (li_votes _ _ _ _ _ Hinv i agg Ha) as (Hp & A & HA & Hq & Hiff).
  split; [done|]. exists A. split; [done|]. split; [done|]. intros a. rewrite voted_by_insert, Hiff by done. tauto.
Qed.

(** Visiting a block whose vote counts. *)
Lemma visit_counted to_visit visited ignored votes finalized b bs votes' new :
  loop_inv to_visit visited ignored votes finalized → b ∈ l → reference b ∈ to_visit →
  (∀ z, z ∈ to_visit → vb_round b ≤ br_round z) → state_ok l l (reference b) bs → bst_block bs = b →
  reference b ∉ ignored →
  count_accepts c (vb_author b) (default ∅ (bst_reject_votes bs !! B)) votes = Ret (votes', new) →
  loop_inv (to_visit ∖ {[reference b]} ∪ (bst_children bs ∖ ({[reference b]} ∪ visited)))
    ({[reference b]} ∪ visited) ({[reference b]} ∪ ignored ∪ list_to_set (bst_origin_descendants bs))
    votes' (finalized ++ new).
Proof.
  intros Hinv Hb Hin Hmin Hst Hblk Hi Hcount.
  assert (counted l B b) as Hcnt by by apply (ignored_iff _ _ _ _ _ b Hinv Hb Hin Hmin).
  destruct (visit_sets to_visit visited ignored ({[reference b]} ∪ ignored ∪ list_to_set (bst_origin_descendants bs))
    votes finalized b bs Hinv Hb Hin Hst) as (H1 & H2 & H3 & H4).
  { intros x Hx. rewrite !elem_of_union, elem_of_list_to_set, (so_origin _ _ _ _ Hst), elem_of_singleton.
    split; [|intros [|Hch]; [tauto|]; right; split; [by apply own_chain_in in Hch as [? _]|done]].
    intros [[->|?]|[_ ?]]; [set_solver|by left|by right]. }
  set (A := λ i, default ∅ (agg_votes <$> votes !! i)).
  assert (∀ i agg, votes !! i = Some agg → i ∈ pending ∧ agg_repr c (A i) agg ∧
    reached_quorum c (weight c (A i)) = false ∧ ∀ a, a ∈ A i ↔ voted_by visited i a) as HA.
  { intros i agg Ha. destruct (li_votes _ _ _ _ _ Hinv i agg Ha) as (Hp & X & HX & Hq & Hiff).
    unfold A. rewrite Ha. simpl. rewrite (agg_repr_votes _ _ _ HX). done. }
  destruct (count_accepts_spec c Hc (vb_author b) (Hval b Hb) A (default ∅ (bst_reject_votes bs !! B)) votes)
    as (votes1 & new1 & Hrun & C1 & C2 & C3 & C4 & C5); [intros i agg Ha; by apply HA|].
  rewrite Hcount in Hrun. injection Hrun as <- <-.
  assert (∀ i, i ∈ default ∅ (bst_reject_votes bs !! B) ↔ block_rejects b B i) as Hrej.
  { intros i. unfold block_rejects. by rewrite (so_votes _ _ _ _ Hst), Hblk. }
  split; [done|done|done|done| | |].
  - intros i agg Ha. destruct (decide (i ∈ default ∅ (bst_reject_votes bs !! B))) as [Hir|Hir].
    + rewrite C3 in Ha by done. destruct (HA i agg Ha) as (Hp & HX & Hq & Hiff). split; [done|].
      exists (A i). split; [done|]. split; [done|]. intros a. rewrite voted_by_insert, Hiff by done.
      apply Hrej in Hir. tauto.
    + assert (i ∉ new) as Hn by (intros Hn%C2; congruence).
      assert (is_Some (votes !! i)) as [agg0 Ha0] by (apply C4; eauto).
      destruct (HA i agg0 Ha0) as (Hp & HX & Hq & Hiff). split; [done|].
      exists ({[vb_author b]} ∪ A i). split; [by apply C5|]. split.
      * apply not_true_iff_false. intros Hq'. apply Hn, C1. eauto.
      * intros a. rewrite voted_by_insert, <- Hiff by done. rewrite Hrej in Hir. set_solver.
  - intros i Hp. rewrite elem_of_app. destruct (li_dom _ _ _ _ _ Hinv i Hp) as [Ha|]; [|tauto].
    destruct (decide (i ∈ new)); [tauto|]. left.
    destruct (decide (i ∈ default ∅ (bst_reject_votes bs !! B))); [by rewrite C3|by apply C4].
  - intros i [Hf|Hn]%elem_of_app; [by apply (li_final _ _ _ _ _ Hinv)|].
    apply C1 in Hn as ([agg Ha] & Hir & Hq). destruct (HA i agg Ha) as (Hp & HX & _ & Hiff). split; [done|].
    exists ({[vb_author b]} ∪ A i). split; [done|]. intros a [->%elem_of_singleton|Hau]%elem_of_union.
    + exists b. by rewrite Hrej in Hir.
    + apply (voted_by_accepts visited). by apply Hiff.
Qed.

Lemma accept_loop_spec fuel to_visit visited ignored votes finalized :
  loop_inv to_visit visited ignored votes finalized → (size (dom M ∖ visited) ≤ fuel)%nat →
  ∃ res, accept_loop fuel c M B to_visit visited ignored votes finalized = Ret res ∧
    ∀ i, i ∈ res ↔ i ∈ pending ∧ accepted_in c l B i.
Proof.
  revert to_visit visited ignored votes finalized.
  induction fuel as [|fuel IH]; intros to_visit visited ignored votes finalized Hinv Hfuel; cbn [accept_loop].
  all: pose proof (refs_first_spec to_visit) as Hfirst; destruct (refs_first to_visit) as [curr|];
    [|subst; exists finalized; split; [done|]; by apply (loop_done visited ignored votes)].
  all: destruct Hfirst as [Hin Hmin]; pose proof (li_desc _ _ _ _ _ Hinv curr (or_introl Hin)) as Hd;
    destruct (descends_block _ _ Hd) as (b & Hb & <-);
    destruct (blocks_ok_in l l M b HM Hb) as (bs & Hbs & Hst & Hblk);
    pose proof (li_disj _ _ _ _ _ Hinv _ Hin) as Hnv.
  - exfalso. apply Nat.le_0_r, size_empty_inv in Hfuel.
    apply (not_elem_of_empty (C := gset BlockRef) (reference b)), (Hfuel (reference b)), elem_of_difference.
    split; [by apply elem_of_dom_2 in Hbs|done].
  - rewrite bool_decide_eq_false_2 by done. rewrite Hbs. cbn [expect mbind outcome_bind].
    assert (size (dom M ∖ ({[reference b]} ∪ visited)) ≤ fuel)%nat as Hfuel'.
    { assert (size (dom M ∖ ({[reference b]} ∪ visited)) < size (dom M ∖ visited))%nat; [|lia].
      apply subset_size. split; [set_solver|]. intros Hsub. apply elem_of_dom_2 in Hbs.
      assert (reference b ∈ dom M ∖ ({[reference b]} ∪ visited)) by (apply Hsub; set_solver). set_solver. }
    destruct (decide (reference b ∈ ignored)) as [Hi|Hi].
    + rewrite bool_decide_eq_true_2 by done. apply IH; [|done]. by apply visit_ignored.
    + rewrite bool_decide_eq_false_2 by done.
      destruct (count_accepts_spec c Hc (vb_author b) (Hval b Hb) (λ i, default ∅ (agg_votes <$> votes !! i))
        (default ∅ (bst_reject_votes bs !! B)) votes) as (votes1 & new1 & Hrun & _).
      { intros i agg Ha. destruct (li_votes _ _ _ _ _ Hinv i agg Ha) as (_ & X & HX & _).
        rewrite Ha. simpl. by rewrite (agg_repr_votes _ _ _ HX). }
      change (br_author (reference b)) with (vb_author b). rewrite Hrun. cbn [mbind outcome_bind].
      pose proof (visit_counted _ _ _ _ _ b bs votes1 new1 Hinv Hb Hin Hmin Hst Hblk Hi Hrun) as Hinv'.
      destruct (bool_decide (votes1 = ∅)) eqn:Hempty; [|by apply IH].
      apply bool_decide_eq_true in Hempty as ->. eexists. split; [done|]. intros i.
      split; [apply (li_final _ _ _ _ _ Hinv')|]. intros [Hp _].
      destruct (li_dom _ _ _ _ _ Hinv' i Hp) as [[? ?]|]; [|done]. by rewrite lookup_empty in *.
Qed.

(** The transactions that the traversal finalizes are those that a quorum accepts. *)
Lemma indirect_in_block_spec :
  B ∈ refs l →
  ∃ res, try_indirect_finalize_pending_transactions_in_block c M B pending = Ret res ∧
    ∀ i, i ∈ res ↔ i ∈ pending ∧ accepted_in c l B i.
Proof.
  intros HB. unfold try_indirect_finalize_pending_transactions_in_block.
  destruct (bool_decide (pending = ∅)) eqn:He.
  { apply bool_decide_eq_true in He. exists []. split; [done|]. rewrite He. set_solver. }
  apply list_elem_of_fmap in HB as (b & HBr & Hb). destruct (blocks_ok_in l l M b HM Hb) as (bs & Hbs & Hst & _).
  rewrite <- HBr in Hbs, Hst. rewrite Hbs. cbn [expect mbind outcome_bind].
  assert (∀ x, x ∈ bst_children bs ↔ child_step l B x) as Hch by apply Hst.
  assert (∀ i agg, (set_to_map (λ index, (index, StakeAggregator_new)) pending : gmap N StakeAggregator) !! i = Some agg ↔
    i ∈ pending ∧ agg = StakeAggregator_new) as Hmap.
  { intros i agg. rewrite lookup_set_to_map by done. split; [intros (j & ? & [= -> ->]); done|].
    intros [? ->]. by exists i. }
  apply accept_loop_spec; [|rewrite <- size_dom; apply subseteq_size; set_solver].
  split.
  - intros x [Hx|?%not_elem_of_empty]; [|done]. by apply tc_once, Hch.
  - intros x _. apply not_elem_of_empty.
  - intros v x [->|?%not_elem_of_empty]; [|done]. intros Hx%Hch. by right.
  - intros x _. split; [by intros ?%not_elem_of_empty|]. intros (y & ?%not_elem_of_empty & _). done.
  - intros i agg [Hp ->]%Hmap. split; [done|]. exists ∅. split; [apply agg_repr_new|].
    split; [by apply quorum_empty|]. intros a. split; [by intros ?%not_elem_of_empty|].
    intros (? & ?%not_elem_of_empty & _). done.
  - intros i Hp. left. exists StakeAggregator_new. by apply Hmap.
  - intros i Hi%elem_of_nil. done.
Qed.
End Traversal.

(** * The state of a buffered commit *)

Definition pends (cs : CommitState) (r : BlockRef) (i : N) : Prop := i ∈ default ∅ (pending_transactions cs !! r).
Definition rejected (cs : CommitState) (r : BlockRef) (i : N) : Prop := i ∈ default ∅ (rejected_transactions cs !! r).

#[export] Instance pends_dec cs r i : base.Decision (pends cs r i).
Proof. unfold pends. apply _. Defined.
#[export] Instance rejected_dec cs r i : base.Decision (rejected cs r i).
Proof. unfold rejected. apply _. Defined.

(** Entries of pending transactions are never empty. *)
Definition pends_wf (cs : CommitState) : Prop := ∀ r X, pending_transactions cs !! r = Some X → X ≠ ∅.

(** [cs'] is [cs] with other transactions. *)
Definition same_commit (cs cs' : CommitState) : Prop :=
  cst_commit cs' = cst_commit cs ∧ pending_blocks cs' = pending_blocks cs.

Lemma elem_of_extend_entry m r txns r' i :
  i ∈ default ∅ (extend_entry m r txns !! r') ↔ i ∈ default ∅ (m !! r') ∨ r' = r ∧ i ∈ txns.
Proof.
  unfold extend_entry. destruct (decide (r = r')) as [->|Hne].
  - rewrite lookup_insert_eq. simpl. rewrite elem_of_union. tauto.
  - rewrite lookup_insert_ne by done. split; [tauto|]. intros [|[? _]]; congruence.
Qed.

Lemma pends_none cs : pends_wf cs → pending_transactions cs = ∅ ↔ ∀ r i, ¬ pends cs r i.
Proof.
  intros Hwf. unfold pends. split.
  - intros -> r i. rewrite lookup_empty. simpl. by apply not_elem_of_empty.
  - intros Hno. apply map_eq. intros r. rewrite lookup_empty.
    destruct (pending_transactions cs !! r) as [X|] eqn:Hr; [|done]. exfalso.
    apply (Hwf r X Hr). apply set_eq. intros i. split; [|set_solver]. intros Hi. exfalso. apply (Hno r i). by rewrite Hr.
Qed.

Lemma remove_pending_spec cs r txns :
  pends_wf cs →
  let cs' := remove_pending_transactions cs r txns in
  same_commit cs cs' ∧ pends_wf cs' ∧ rejected_transactions cs' = rejected_transactions cs ∧
  ∀ r' i, pends cs' r' i ↔ pends cs r' i ∧ ¬ (r' = r ∧ i ∈ txns).
Proof.
  intros Hwf cs'. unfold cs', remove_pending_transactions, pends.
  destruct (pending_transactions cs !! r) as [X|] eqn:Hr; cycle 1.
  { do 3 (split; [done|]). intros r' i. split; [|tauto]. intros Hi. split; [done|]. intros [-> _].
    rewrite Hr in Hi. by apply not_elem_of_empty in Hi. }
  destruct (bool_decide (X ∖ list_to_set txns = ∅)) eqn:He.
  - apply bool_decide_eq_true in He. split; [done|]. split.
    { intros r' Y. simpl. rewrite lookup_delete_Some. intros [_ ?]. by apply (Hwf r'). }
    split; [done|]. intros r' i. simpl. destruct (decide (r = r')) as [<-|Hne].
    + rewrite lookup_delete_eq, Hr. simpl. split; [by intros ?%not_elem_of_empty|]. intros [Hi Hn]. exfalso.
      apply (not_elem_of_empty (C := gset N) i). rewrite <- He. apply elem_of_difference. split; [done|].
      rewrite elem_of_list_to_set. tauto.
    + rewrite lookup_delete_ne by done. split; [|tauto]. intros Hi. split; [done|]. intros [-> _]. done.
  - apply bool_decide_eq_false in He. split; [done|]. split.
    { intros r' Y. simpl. destruct (decide (r = r')) as [<-|Hne].
      - rewrite lookup_insert_eq. by intros [= <-].
      - rewrite lookup_insert_ne by done. apply Hwf. }
    split; [done|]. intros r' i. simpl. destruct (decide (r = r')) as [<-|Hne].
    + rewrite lookup_insert_eq, Hr. simpl. rewrite elem_of_difference, elem_of_list_to_set. tauto.
    + rewrite lookup_insert_ne by done. split; [|tauto]. intros Hi. split; [done|]. intros [-> _]. done.
Qed.

(** ** Direct finalization *)

Lemma direct_transactions_spec c r votes cs :
  pends_wf cs →
  let cs' := foldl (direct_transaction c r) cs votes in
  same_commit cs cs' ∧ pends_wf cs' ∧
  (∀ r' i, pends cs' r' i ↔ pends cs r' i ∨ r' = r ∧ ∃ s, (i, s) ∈ votes ∧ s < committee_quorum_threshold c) ∧
  (∀ r' i, rejected cs' r' i ↔ rejected cs r' i ∨ r' = r ∧ ∃ s, (i, s) ∈ votes ∧ committee_quorum_threshold c ≤ s).
Proof.
  intros Hwf. revert cs Hwf. induction votes as [|[i s] votes IH]; intros cs Hwf cs'.
  { unfold cs'. simpl. split; [done|]. split; [done|]. setoid_rewrite elem_of_nil. split; naive_solver. }
  set (cs1 := direct_transaction c r cs (i, s)).
  assert (same_commit cs cs1 ∧ pends_wf cs1 ∧
    (∀ r' j, pends cs1 r' j ↔ pends cs r' j ∨ r' = r ∧ j = i ∧ s < committee_quorum_threshold c) ∧
    (∀ r' j, rejected cs1 r' j ↔ rejected cs r' j ∨ r' = r ∧ j = i ∧ committee_quorum_threshold c ≤ s)) as (Hs1 & Hw1 & Hp1 & Hr1).
  { unfold cs1, direct_transaction, pends, rejected. cbn [fst snd].
    destruct (N.ltb_spec s (committee_quorum_threshold c)); simpl; (split; [done|]); split.
    - intros r' X. simpl. unfold extend_entry. destruct (decide (r = r')) as [<-|Hne].
      + rewrite lookup_insert_eq. intros [= <-]. set_solver.
      + rewrite lookup_insert_ne by done. apply Hwf.
    - split; intros r' j; rewrite ?elem_of_extend_entry, ?elem_of_singleton; split; try tauto;
        intros [|(? & ? & ?)]; try tauto; lia.
    - done.
    - split; intros r' j; rewrite ?elem_of_extend_entry, ?elem_of_singleton; split; try tauto;
        intros [|(? & ? & ?)]; try tauto; lia. }
  destruct (IH cs1 Hw1) as (Hs2 & Hw2 & Hp2 & Hr2). unfold cs'. cbn [foldl]. fold cs1.
  split; [destruct Hs1, Hs2; split; congruence|]. split; [done|].
  setoid_rewrite elem_of_cons. split; intros r' j; [rewrite Hp2, Hp1|rewrite Hr2, Hr1]; clear; naive_solver.
Qed.

Lemma direct_blocks_spec c t blocks (votes : BlockRef → list (N * N)) cs :
  pends_wf cs → (∀ r, r ∈ blocks → get_reject_votes t r = Some (votes r)) →
  ∃ cs', foldM (direct_block c t) cs blocks = Ret cs' ∧ same_commit cs cs' ∧ pends_wf cs' ∧
  (∀ r i, pends cs' r i ↔ pends cs r i ∨ r ∈ blocks ∧ ∃ s, (i, s) ∈ votes r ∧ s < committee_quorum_threshold c) ∧
  (∀ r i, rejected cs' r i ↔ rejected cs r i ∨ r ∈ blocks ∧ ∃ s, (i, s) ∈ votes r ∧ committee_quorum_threshold c ≤ s).
Proof.
  intros Hwf. revert cs Hwf. induction blocks as [|r blocks IH]; intros cs Hwf Hv.
  { exists cs. split; [done|]. split; [done|]. split; [done|]. setoid_rewrite elem_of_nil. split; naive_solver. }
  cbn [foldM]. assert (direct_block c t cs r = Ret (foldl (direct_transaction c r) cs (votes r))) as ->
    by (unfold direct_block; by rewrite (Hv r) by left).
  cbn [mbind outcome_bind].
  destruct (direct_transactions_spec c r (votes r) cs Hwf) as (Hs1 & Hw1 & Hp1 & Hr1).
  destruct (IH _ Hw1) as (cs' & Hrun & Hs2 & Hw2 & Hp2 & Hr2); [intros r' Hr'; apply Hv; by right|].
  exists cs'. split; [done|]. split; [destruct Hs1, Hs2; split; congruence|]. split; [done|].
  setoid_rewrite elem_of_cons. split; intros r' i; [rewrite Hp2, Hp1|rewrite Hr2, Hr1]; clear; naive_solver.
Qed.

(** The first treatment of a commit: the votes that the certifier has for its blocks decide. *)
Lemma direct_commit_spec c t cs (votes : BlockRef → list (N * N)) :
  pending_blocks cs ≠ ∅ → pending_transactions cs = ∅ → rejected_transactions cs = ∅ →
  (∀ r, is_Some (pending_blocks cs !! r) → get_reject_votes t r = Some (votes r)) →
  ∃ cs', try_direct_finalize_commit c t cs = Ret cs' ∧ cst_commit cs' = cst_commit cs ∧
    pending_blocks cs' = ∅ ∧ pends_wf cs' ∧
  (∀ r i, pends cs' r i ↔ is_Some (pending_blocks cs !! r) ∧ ∃ s, (i, s) ∈ votes r ∧ s < committee_quorum_threshold c) ∧
  (∀ r i, rejected cs' r i ↔ is_Some (pending_blocks cs !! r) ∧ ∃ s, (i, s) ∈ votes r ∧ committee_quorum_threshold c ≤ s).
Proof.
  intros Hne Hp Hr Hv. unfold try_direct_finalize_commit. rewrite bool_decide_eq_false_2 by done.
  cbn [negb assert_that mbind outcome_bind].
  assert (∀ r, r ∈ (map_iter BlockRef_leb (pending_blocks cs)).*1 ↔ is_Some (pending_blocks cs !! r)) as Hdom.
  { intros r. rewrite list_elem_of_fmap. split.
    - intros ([r' n] & -> & Hn%elem_of_map_iter). eauto.
    - intros [n Hn]. exists (r, n). split; [done|]. by apply elem_of_map_iter. }
  destruct (direct_blocks_spec c t (map_iter BlockRef_leb (pending_blocks cs)).*1 votes (cs <| pending_blocks := ∅ |>))
    as (cs' & Hrun & [Hs1 Hs2] & Hw & Hp' & Hr').
  { intros r X. simpl. by rewrite Hp, lookup_empty. }
  { intros r Hin%Hdom. by apply Hv. }
  exists cs'. split; [exact Hrun|]. split; [exact Hs1|]. split; [exact Hs2|]. split; [done|].
  split; intros r i; [rewrite Hp'|rewrite Hr']; rewrite Hdom; unfold pends, rejected; simpl;
    rewrite ?Hp, ?Hr, lookup_empty; simpl; (split; [intros [?%not_elem_of_empty|?]; done|tauto]).
Qed.

(** ** Late rejection *)

Lemma rejected_in_block_spec c t r X (votes : list (N * N)) :
  get_reject_votes t r = Some votes → NoDup votes.*1 → (∀ i, i ∈ X → i ∈ votes.*1) →
  ∃ res, rejected_in_block c t (r, X) = Ret (r, res) ∧
    ∀ i, i ∈ res ↔ i ∈ X ∧ ∃ s, (i, s) ∈ votes ∧ committee_quorum_threshold c ≤ s.
Proof.
  intros Hv Hnd HX. unfold rejected_in_block. cbn [fst snd]. rewrite Hv. cbn [expect mbind outcome_bind].
  set (m := list_to_map (reverse votes) : gmap N N).
  assert (∀ i s, m !! i = Some s ↔ (i, s) ∈ votes) as Hm.
  { intros i s. unfold m. rewrite <- elem_of_list_to_map; [by rewrite elem_of_reverse|]. by rewrite fmap_reverse, reverse_Permutation. }
  assert (∀ l acc, (∀ i, i ∈ l → i ∈ X) → ∃ res,
    foldM (λ rejected index, reject_stake ← expect (m !! index);
             Ret (if reject_stake <? committee_quorum_threshold c then rejected else rejected ++ [index])) acc l = Ret res ∧
    ∀ i, i ∈ res ↔ i ∈ acc ∨ i ∈ l ∧ ∃ s, (i, s) ∈ votes ∧ committee_quorum_threshold c ≤ s) as Hgen.
  { induction l as [|x l IH]; intros acc Hl; cbn [foldM].
    { exists acc. split; [done|]. intros i. rewrite elem_of_nil. tauto. }
    assert (x ∈ votes.*1) as Hx by (apply HX, Hl; left). apply list_elem_of_fmap in Hx as ([x' s] & -> & Hs). cbn [fst] in *.
    pose proof (proj2 (Hm x' s) Hs) as Hms. rewrite Hms. cbn [expect mbind outcome_bind].
    assert (∀ s', (x', s') ∈ votes → s' = s) as Huniq by (intros s' Hs'%Hm; congruence).
    destruct (IH (if s <? committee_quorum_threshold c then acc else acc ++ [x'])) as (res & -> & Hres); [intros; apply Hl; by right|].
    exists res. split; [done|]. intros i. rewrite Hres, elem_of_cons.
    destruct (N.ltb_spec s (committee_quorum_threshold c)) as [Hlt|Hge].
    - split; [tauto|]. intros [|[[->|] (s' & Hs' & Hq)]]; [tauto| |eauto]. apply Huniq in Hs'. lia.
    - rewrite elem_of_app, list_elem_of_singleton. split; [|intros [|[[->|] ?]]; eauto].
      intros [[| ->]|[? ?]]; [tauto| |tauto]. right. split; [by left|]. eauto. }
  destruct (Hgen (set_iter N.leb X) []) as (res & -> & Hres); [intros i; by rewrite elem_of_set_iter|].
  exists res. split; [done|]. intros i. rewrite Hres, elem_of_set_iter, elem_of_nil. tauto.
Qed.

Lemma reject_transactions_spec entries cs :
  pends_wf cs →
  let cs' := foldl reject_transactions cs entries in
  same_commit cs cs' ∧ pends_wf cs' ∧
  (∀ r i, pends cs' r i ↔ pends cs r i ∧ ¬ ∃ l, (r, l) ∈ entries ∧ i ∈ l) ∧
  (∀ r i, rejected cs' r i ↔ rejected cs r i ∨ ∃ l, (r, l) ∈ entries ∧ i ∈ l).
Proof.
  intros Hwf. revert cs Hwf. induction entries as [|[r l] entries IH]; intros cs Hwf cs'.
  { unfold cs'. simpl. split; [done|]. split; [done|]. setoid_rewrite elem_of_nil. split; naive_solver. }
  set (cs1 := reject_transactions cs (r, l)).
  destruct (remove_pending_spec cs r l Hwf) as ([Hc0 Hb0] & Hw0 & Hr0 & Hp0).
  assert (same_commit cs cs1 ∧ pends_wf cs1 ∧ (∀ r' i, pends cs1 r' i ↔ pends cs r' i ∧ ¬ (r' = r ∧ i ∈ l)) ∧
    (∀ r' i, rejected cs1 r' i ↔ rejected cs r' i ∨ r' = r ∧ i ∈ l)) as (Hs1 & Hw1 & Hp1 & Hr1).
  { split; [split; [exact Hc0|exact Hb0]|]. split; [exact Hw0|]. split; [exact Hp0|].
    intros r' i. unfold rejected, cs1, reject_transactions. cbn [fst snd]. simpl. rewrite Hr0.
    by rewrite elem_of_extend_entry, elem_of_list_to_set. }
  destruct (IH cs1 Hw1) as (Hs2 & Hw2 & Hp2 & Hr2). unfold cs'. cbn [foldl]. fold cs1.
  split; [destruct Hs1, Hs2; split; congruence|]. split; [done|].
  setoid_rewrite elem_of_cons. split; intros r' i; [rewrite Hp2, Hp1|rewrite Hr2, Hr1]; clear; naive_solver.
Qed.

Lemma check_pending_spec c t cs (votes : BlockRef → list (N * N)) :
  pends_wf cs →
  (∀ r, is_Some (pending_transactions cs !! r) → get_reject_votes t r = Some (votes r) ∧ NoDup (votes r).*1) →
  (∀ r i, pends cs r i → i ∈ (votes r).*1) →
  ∃ cs', check_pending_transactions c t cs = Ret cs' ∧ same_commit cs cs' ∧ pends_wf cs' ∧
  (∀ r i, pends cs' r i ↔ pends cs r i ∧ ¬ ∃ s, (i, s) ∈ votes r ∧ committee_quorum_threshold c ≤ s) ∧
  (∀ r i, rejected cs' r i ↔ rejected cs r i ∨ pends cs r i ∧ ∃ s, (i, s) ∈ votes r ∧ committee_quorum_threshold c ≤ s).
Proof.
  intros Hwf Hv Hpv. unfold check_pending_transactions.
  assert (∀ es, (∀ r X, (r, X) ∈ es → pending_transactions cs !! r = Some X) → ∃ res,
    mapM (rejected_in_block c t) es = Ret res ∧
    ∀ r i, (∃ l, (r, l) ∈ res ∧ i ∈ l) ↔ ∃ X, (r, X) ∈ es ∧ i ∈ X ∧ ∃ s, (i, s) ∈ votes r ∧ committee_quorum_threshold c ≤ s) as Hgen.
  { induction es as [|[r X] es IH]; intros Hes; cbn [mapM].
    { exists []. split; [done|]. intros r i. setoid_rewrite elem_of_nil. naive_solver. }
    pose proof (Hes r X (list_elem_of_here _ _)) as HrX. destruct (Hv r) as [Hvr Hnd]; [eauto|].
    destruct (rejected_in_block_spec c t r X (votes r) Hvr Hnd) as (res1 & -> & Hres1).
    { intros i Hi. apply Hpv. unfold pends. by rewrite HrX. }
    destruct IH as (res2 & -> & Hres2); [intros r' X' Hin; apply Hes; by right|]. cbn [mbind outcome_bind].
    eexists. split; [done|]. intros r' i. setoid_rewrite elem_of_cons.
    specialize (Hres2 r' i). specialize (Hres1 i). clear - Hres1 Hres2. split.
    - intros (l & [[= -> ->]|Hl] & Hi); [apply Hres1 in Hi as [? ?]; naive_solver|].
      destruct (proj1 Hres2) as (X' & ? & ?); eauto.
    - intros (X' & [[= -> ->]|HX'] & Hi); [exists res1; split; [by left|]; by apply Hres1|].
      destruct (proj2 Hres2) as (l & ? & ?); eauto. }
  destruct (Hgen (map_iter BlockRef_leb (pending_transactions cs))) as (res & -> & Hres).
  { intros r X. by rewrite elem_of_map_iter. }
  cbn [mbind outcome_bind]. destruct (reject_transactions_spec (filter (λ e, e.2 ≠ []) res) cs Hwf) as (Hs & Hw & Hp & Hr).
  eexists. split; [done|]. split; [exact Hs|]. split; [exact Hw|].
  assert (∀ r i, (∃ l, (r, l) ∈ filter (λ e : BlockRef * list N, e.2 ≠ []) res ∧ i ∈ l) ↔
    pends cs r i ∧ ∃ s, (i, s) ∈ votes r ∧ committee_quorum_threshold c ≤ s) as Heq.
  { intros r i. transitivity (∃ l, (r, l) ∈ res ∧ i ∈ l).
    - setoid_rewrite list_elem_of_filter. split; [naive_solver|]. intros (l & Hl & Hi). exists l. split; [|done]. split; [|done].
      simpl. intros ->. by apply elem_of_nil in Hi.
    - rewrite Hres. setoid_rewrite elem_of_map_iter. unfold pends. split.
      + intros (X & HX & Hi & Hs'). by rewrite HX.
      + intros [Hi Hs']. destruct (pending_transactions cs !! r) as [X|]; [by exists X|]. by apply not_elem_of_empty in Hi. }
  split; intros r i; [rewrite Hp|rewrite Hr]; rewrite Heq; tauto.
Qed.

(** ** Indirect finalization *)

Lemma remove_pendings_spec entries cs :
  pends_wf cs →
  let cs' := foldl (λ cs e, remove_pending_transactions cs e.1 e.2) cs entries in
  same_commit cs cs' ∧ pends_wf cs' ∧ rejected_transactions cs' = rejected_transactions cs ∧
  ∀ r i, pends cs' r i ↔ pends cs r i ∧ ¬ ∃ l, (r, l) ∈ entries ∧ i ∈ l.
Proof.
  intros Hwf. revert cs Hwf. induction entries as [|[r l] entries IH]; intros cs Hwf cs'.
  { unfold cs'. simpl. do 3 (split; [done|]). setoid_rewrite elem_of_nil. naive_solver. }
  destruct (remove_pending_spec cs r l Hwf) as ([Hc0 Hb0] & Hw0 & Hr0 & Hp0).
  destruct (IH _ Hw0) as ([Hc1 Hb1] & Hw1 & Hr1 & Hp1). unfold cs'. cbn [foldl fst snd].
  split; [split; congruence|]. split; [done|]. split; [congruence|].
  intros r' i. rewrite Hp1, Hp0. setoid_rewrite elem_of_cons. clear. naive_solver.
Qed.

Lemma indirect_finalize_spec c l M cs :
  committee_wf c → blocks_ok l l M → (∀ b, b ∈ l → is_valid_index c (vb_author b) = true) →
  pends_wf cs → (∀ r, is_Some (pending_transactions cs !! r) → r ∈ refs l) →
  ∃ cs', try_indirect_finalize_pending_transactions c M cs = Ret cs' ∧ same_commit cs cs' ∧ pends_wf cs' ∧
    rejected_transactions cs' = rejected_transactions cs ∧
    (∀ r i, pends cs' r i ↔ pends cs r i ∧ ¬ accepted_in c l r i) ∧
    (∀ r i, pends cs r i → accepted_in c l r i ∨ ¬ accepted_in c l r i).
Proof.
  intros Hc HM Hval Hwf Hin. unfold try_indirect_finalize_pending_transactions.
  set (f := λ '(r, pending), _).
  assert (∀ es, (∀ r X, (r, X) ∈ es → pending_transactions cs !! r = Some X) → ∃ res,
    mapM f es = Ret res ∧
    ∀ r i, (∃ l', (r, l') ∈ res ∧ i ∈ l') ↔ ∃ X, (r, X) ∈ es ∧ i ∈ X ∧ accepted_in c l r i) as Hgen.
  { induction es as [|[r X] es IH]; intros Hes; cbn [mapM].
    { exists []. split; [done|]. intros r i. setoid_rewrite elem_of_nil. naive_solver. }
    pose proof (Hes r X (list_elem_of_here _ _)) as HrX.
    destruct (indirect_in_block_spec c Hc l M HM Hval r X) as (res1 & Hrun & Hres1); [apply Hin; eauto|].
    assert (f (r, X) = Ret (r, res1)) as -> by (unfold f; by rewrite Hrun).
    destruct IH as (res2 & -> & Hres2); [intros r' X' ?; apply Hes; by right|]. cbn [mbind outcome_bind].
    eexists. split; [done|]. intros r' i. setoid_rewrite elem_of_cons.
    specialize (Hres2 r' i). specialize (Hres1 i). clear - Hres1 Hres2. split.
    - intros (l' & [[= -> ->]|Hl] & Hi); [apply Hres1 in Hi as [? ?]; naive_solver|].
      destruct (proj1 Hres2) as (X' & ? & ?); eauto.
    - intros (X' & [[= -> ->]|HX'] & Hi); [exists res1; split; [by left|]; by apply Hres1|].
      destruct (proj2 Hres2) as (l' & ? & ?); eauto. }
  destruct (Hgen (map_iter BlockRef_leb (pending_transactions cs))) as (res & -> & Hres).
  { intros r X. by rewrite elem_of_map_iter. }
  cbn [mbind outcome_bind]. destruct (remove_pendings_spec res cs Hwf) as (Hs & Hw & Hr & Hp).
  eexists. split; [done|]. split; [exact Hs|]. split; [exact Hw|]. split; [exact Hr|].
  assert (∀ r i, (∃ l', (r, l') ∈ res ∧ i ∈ l') ↔ pends cs r i ∧ accepted_in c l r i) as Hres'.
  { intros r i. rewrite Hres. setoid_rewrite elem_of_map_iter. unfold pends.
    destruct (pending_transactions cs !! r) as [X|]; simpl; [naive_solver|].
    split; [naive_solver|]. by intros [?%not_elem_of_empty _]. }
  split; intros r i.
  - rewrite Hp, Hres'. tauto.
  - intros Hi. destruct (decide (Exists (λ e, e.1 = r ∧ i ∈ e.2) res)) as [Hyes|Hno].
    + apply Exists_exists in Hyes as ([r' l'] & Hl & Hr' & Hil). simpl in Hr', Hil. subst r'. left. apply (Hres' r i). by exists l'.
    + right. intros Hacc. apply Hno, Exists_exists. destruct (proj2 (Hres' r i) (conj Hi Hacc)) as (l' & ? & ?).
      by exists (r, l').
Qed.

Lemma extend_entries_spec (m : gmap BlockRef (gset N)) es r i :
  i ∈ default ∅ (foldl (λ rejected e, extend_entry rejected e.1 e.2) m es !! r) ↔
    i ∈ default ∅ (m !! r) ∨ ∃ X, (r, X) ∈ es ∧ i ∈ X.
Proof.
  revert m. induction es as [|[r' X] es IH]; intros m; cbn [foldl fst snd].
  { setoid_rewrite elem_of_nil. naive_solver. }
  rewrite IH, elem_of_extend_entry. setoid_rewrite elem_of_cons. naive_solver.
Qed.

Lemma indirect_reject_spec last_round cs :
  pends_wf cs → pending_blocks cs = ∅ →
  let deep := u32_add (br_round (sd_leader (cst_commit cs))) INDIRECT_REJECT_DEPTH ≤ last_round in
  ∃ cs', try_indirect_reject_pending_transactions last_round cs = Ret cs' ∧ same_commit cs cs' ∧ pends_wf cs' ∧
    (∀ r i, pends cs' r i ↔ pends cs r i ∧ ¬ deep) ∧
    (∀ r i, rejected cs' r i ↔ rejected cs r i ∨ pends cs r i ∧ deep).
Proof.
  intros Hwf Hb deep. unfold try_indirect_reject_pending_transactions.
  destruct (N.leb_spec (u32_add (br_round (sd_leader (cst_commit cs))) INDIRECT_REJECT_DEPTH) last_round) as [Hle|Hgt].
  - rewrite bool_decide_eq_true_2 by done. cbn [assert_that mbind outcome_bind]. eexists. split; [done|].
    split; [done|]. split; [intros r X; simpl; by rewrite lookup_empty|]. split.
    + intros r i. unfold pends at 1. simpl. rewrite lookup_empty. simpl.
      split; [by intros ?%not_elem_of_empty|by intros [_ ?]].
    + intros r i. unfold rejected. simpl. rewrite extend_entries_spec. setoid_rewrite elem_of_map_iter. unfold pends.
      destruct (pending_transactions cs !! r) as [X|]; simpl.
      * split; [intros [|(X' & [= ->] & ?)]; tauto|]. intros [|[? _]]; eauto.
      * split; [intros [|(X' & ? & _)]; [by left|done]|]. intros [|[?%not_elem_of_empty _]]; [by left|done].
  - exists cs. split; [done|]. split; [done|]. split; [done|]. unfold deep. split; intros r i; split; try tauto; try (intros; split; [done|lia]).
    intros [|[_ ?]]; [done|lia].
Qed.

(** One attempt at the first commit of the buffer. A pending transaction is rejected when a
    quorum rejects it; else finalized when a quorum accepts it in the buffered blocks; else
    rejected when the last leader is deep enough; else it stays. *)
Lemma first_commit_spec c t l M last_round cs (votes : BlockRef → list (N * N)) :
  committee_wf c → blocks_ok l l M → (∀ b, b ∈ l → is_valid_index c (vb_author b) = true) →
  pends_wf cs → pending_blocks cs = ∅ →
  (∀ r, is_Some (pending_transactions cs !! r) → r ∈ refs l ∧ get_reject_votes t r = Some (votes r) ∧ NoDup (votes r).*1) →
  (∀ r i, pends cs r i → i ∈ (votes r).*1) →
  let deep := u32_add (br_round (sd_leader (cst_commit cs))) INDIRECT_REJECT_DEPTH ≤ last_round in
  let outvoted r i := ∃ s, (i, s) ∈ votes r ∧ committee_quorum_threshold c ≤ s in
  ∃ cs', try_indirect_finalize_first_commit c t M last_round cs = Ret cs' ∧ same_commit cs cs' ∧ pends_wf cs' ∧
    (∀ r i, pends cs' r i ↔ pends cs r i ∧ ¬ outvoted r i ∧ ¬ accepted_in c l r i ∧ ¬ deep) ∧
    (∀ r i, rejected cs' r i ↔ rejected cs r i ∨
       pends cs r i ∧ (outvoted r i ∨ ¬ outvoted r i ∧ ¬ accepted_in c l r i ∧ deep)) ∧
    (∀ r i, pends cs r i → outvoted r i ∨ accepted_in c l r i ∨ ¬ accepted_in c l r i).
Proof.
  intros Hc HM Hval Hwf Hb Hv Hpv deep outvoted. unfold try_indirect_finalize_first_commit.
  rewrite bool_decide_eq_true_2 by done. cbn [assert_that mbind outcome_bind].
  destruct (check_pending_spec c t cs votes Hwf) as (cs1 & -> & [Hc1 Hb1] & Hw1 & Hp1 & Hr1); [by intros r [_ ?]%Hv|done|].
  cbn [mbind outcome_bind].
  assert (∀ r, is_Some (pending_transactions cs1 !! r) → is_Some (pending_transactions cs !! r)) as Hsub.
  { intros r [X HX]. destruct (set_choose_L X) as [i Hi]; [by apply (Hw1 r)|].
    assert (pends cs1 r i) as [Hp _]%Hp1 by (unfold pends; by rewrite HX). unfold pends in Hp.
    destruct (pending_transactions cs !! r); [eauto|]. by apply not_elem_of_empty in Hp. }
  destruct (indirect_finalize_spec c l M cs1 Hc HM Hval Hw1) as (cs2 & -> & [Hc2 Hb2] & Hw2 & Hr2 & Hp2 & Hdec); [by intros r [? _]%Hsub%Hv|].
  cbn [mbind outcome_bind].
  destruct (indirect_reject_spec last_round cs2 Hw2) as (cs3 & -> & [Hc3 Hb3] & Hw3 & Hp3 & Hr3); [congruence|].
  rewrite Hc2, Hc1 in Hp3, Hr3. fold deep in Hp3, Hr3.
  exists cs3. split; [done|]. split; [split; congruence|]. split; [done|].
  assert (∀ r i, rejected cs2 r i ↔ rejected cs1 r i) as Hr21 by (intros r i; unfold rejected; by rewrite Hr2).
  split; [|split]; intros r i.
  - rewrite Hp3, Hp2, Hp1. fold (outvoted r i). tauto.
  - rewrite Hr3, Hr21, Hr1, Hp2, Hp1. fold (outvoted r i). tauto.
  - intros Hi. destruct (decide (Exists (λ e, e.1 = i ∧ committee_quorum_threshold c ≤ e.2) (votes r))) as [Hyes|Hno].
    + left. apply Exists_exists in Hyes as ([i' s] & Hs & Hi' & Hq). simpl in Hi', Hq. subst i'. by exists s.
    + right. apply Hdec, Hp1. split; [done|]. intros (s & ? & ?). apply Hno, Exists_exists. by exists (i, s).
Qed.

(** ** Output *)

Definition commit_done (cs : CommitState) : Prop := pending_blocks cs = ∅ ∧ pending_transactions cs = ∅.

Lemma pop_finalized_spec commits M :
  ∃ popped rest, commits = popped ++ rest ∧
    pop_finalized_commits commits M =
      (rest, foldl (λ m cs, foldl (λ m b, delete (reference b) m) m (sd_blocks (cst_commit cs))) M popped,
       finalized_commit <$> popped) ∧
    (∀ cs, cs ∈ popped → commit_done cs) ∧ (∀ cs, head rest = Some cs → ¬ commit_done cs).
Proof.
  revert M. induction commits as [|cs commits IH]; intros M; cbn [pop_finalized_commits].
  { exists [], []. split; [done|]. split; [done|]. split; [intros ? ?%elem_of_nil; done|done]. }
  destruct (bool_decide (pending_blocks cs = ∅) && bool_decide (pending_transactions cs = ∅)) eqn:Hd.
  - apply andb_true_iff in Hd as [H1%bool_decide_eq_true H2%bool_decide_eq_true].
    destruct (IH (foldl (λ m b, delete (reference b) m) M (sd_blocks (cst_commit cs)))) as (popped & rest & -> & -> & Hpop & Hrest).
    exists (cs :: popped), rest. split; [done|]. split; [done|]. split; [|done].
    intros cs' [->|?]%elem_of_cons; [done|auto].
  - exists [], (cs :: commits). split; [done|]. split; [done|]. split; [intros ? ?%elem_of_nil; done|].
    intros cs' [= <-] [H1 H2]. apply andb_false_iff in Hd as [Hd|Hd]; by apply bool_decide_eq_false in Hd.
Qed.

(** The rejected transactions of an output commit. *)
Lemma finalized_commit_rejected cs r :
  sd_rejected_transactions_by_block (cst_commit cs) = ∅ →
  sd_rejected_transactions_by_block (finalized_commit cs) !! r = set_iter N.leb <$> rejected_transactions cs !! r.
Proof.
  intros He. unfold finalized_commit. simpl. rewrite He.
  assert (∀ es (m : gmap BlockRef (list N)), NoDup es.*1 →
    foldl (λ m e, <[e.1 := set_iter N.leb e.2]> m) m es !! r =
      match list_find (λ e : BlockRef * gset N, e.1 = r) es with
      | Some (_, e) => Some (set_iter N.leb e.2) | None => m !! r end) as Hgen.
  { induction es as [|[r' X] es IH]; intros m Hnd; [done|]. cbn [foldl fst snd]. inversion Hnd as [|? ? Hn Hnd']; subst.
    rewrite IH by done. cbn [list_find fst]. destruct (decide (r' = r)) as [->|Hne].
    - rewrite lookup_insert_eq. destruct (list_find _ es) as [[k e]|] eqn:Hf; [|done]. exfalso.
      apply list_find_Some in Hf as (Hk & <- & _). apply Hn. apply list_elem_of_fmap. exists e. split; [done|].
      by apply list_elem_of_lookup_2 in Hk.
    - rewrite lookup_insert_ne by done. by destruct (list_find _ es) as [[k e]|]. }
  rewrite Hgen by apply NoDup_map_iter. rewrite lookup_empty.
  destruct (list_find _ _) as [[k [r' X]]|] eqn:Hf.
  - apply list_find_Some in Hf as (Hk & Hr & _). simpl in Hr. subst r'. apply list_elem_of_lookup_2, elem_of_map_iter in Hk.
    by rewrite Hk.
  - apply list_find_None in Hf. destruct (rejected_transactions cs !! r) as [X|] eqn:HX; [|done]. exfalso.
    rewrite Forall_forall in Hf. apply (Hf (r, X)); [by apply elem_of_map_iter|done].
Qed.

(** * Properties *)

(** Linking commits one after the other into an empty map. *)
Definition link_commits (commits : list CommittedSubDag) : outcome (gmap BlockRef BlockState) :=
  foldM (λ M commit, append_origin_descendants (link_blocks M commit) commit) ∅ commits.

Lemma link_commits_ok commits :
  NoDup (refs (commits ≫= sd_blocks)) →
  (∀ b, b ∈ commits ≫= sd_blocks → vb_ancestors b ≠ [] ∧ ∀ a, a ∈ vb_ancestors b → br_round a < vb_round b) →
  (∀ before commit after b b', commits = before ++ commit :: after → b ∈ sd_blocks commit →
     b' ∈ before ≫= sd_blocks → reference b ∉ vb_ancestors b') →
  ∃ M, link_commits commits = Ret M ∧ blocks_ok (commits ≫= sd_blocks) (commits ≫= sd_blocks) M.
Proof.
  intros Hnd Hb Hf. unfold link_commits.
  assert (∀ after before M, commits = before ++ after → blocks_ok (before ≫= sd_blocks) (before ≫= sd_blocks) M →
    ∃ M', foldM (λ M commit, append_origin_descendants (link_blocks M commit) commit) M after = Ret M' ∧
      blocks_ok (commits ≫= sd_blocks) (commits ≫= sd_blocks) M') as Hgen.
  { induction after as [|commit after IH]; intros before M Heq HM; cbn [foldM].
    { exists M. split; [done|]. by rewrite Heq, app_nil_r. }
    assert (commits = (before ++ [commit]) ++ after) as Heq' by (by rewrite <- app_assoc).
    assert ((before ++ [commit]) ≫= sd_blocks = (before ≫= sd_blocks) ++ sd_blocks commit) as Hbind
      by (rewrite bind_app; cbn; by rewrite app_nil_r).
    destruct (link_commit_ok (before ≫= sd_blocks) M commit HM) as (M' & -> & HM').
    - rewrite <- Hbind. rewrite Heq', bind_app, fmap_app in Hnd. by apply NoDup_app in Hnd as (? & _ & _).
    - intros b Hin. apply Hb. rewrite Heq', bind_app, Hbind, !elem_of_app. tauto.
    - intros b b' Hin Hin'. by apply (Hf before commit after b b').
    - cbn [mbind outcome_bind]. apply (IH (before ++ [commit])); [done|]. by rewrite Hbind. }
  apply (Hgen commits [] ∅); [done|]. apply blocks_ok_empty.
Qed.

(** C14. The traversal that looks for accept votes, against its definition. The code visits the
    descendants of a pending block in order, skips the origin descendants of the blocks it
    counts, and drops transactions as they reach a quorum; on the map built by linking any
    well-formed commits it ends within its bound, does not panic, and returns exactly the
    pending transactions that a quorum of authorities accepts, where an authority accepts if
    one of its blocks above the pending one, with none of its own blocks in between, does not
    reject. *)
Theorem indirect_finalization_equiv c commits r pending :
  committee_wf c → NoDup (refs (commits ≫= sd_blocks)) →
  (∀ b, b ∈ commits ≫= sd_blocks → is_valid_index c (vb_author b) = true ∧ vb_ancestors b ≠ [] ∧
     ∀ a, a ∈ vb_ancestors b → br_round a < vb_round b) →
  (∀ before commit after b b', commits = before ++ commit :: after → b ∈ sd_blocks commit →
     b' ∈ before ≫= sd_blocks → reference b ∉ vb_ancestors b') →
  r ∈ refs (commits ≫= sd_blocks) →
  ∃ M finalized, link_commits commits = Ret M ∧
    try_indirect_finalize_pending_transactions_in_block c M r pending = Ret finalized ∧
    ∀ i, i ∈ finalized ↔ i ∈ pending ∧ accepted_in c (commits ≫= sd_blocks) r i.
Proof.
  intros Hc Hnd Hb Hf Hr. destruct (link_commits_ok commits Hnd) as (M & HM & Hok); [by intros b (_ & ? & ?)%Hb|done|].
  destruct (indirect_in_block_spec c Hc (commits ≫= sd_blocks) M Hok) with (B := r) (pending := pending) as (res & Hrun & Hres);
    [by intros b (? & _)%Hb|done|].
  by exists M, res.
Qed.

(** Two commits: the first block alone, and the blocks of the next round. *)
Definition ballot_commits : list CommittedSubDag :=
  [CommittedSubDag_new (mkBlockRef 1 0 100) (take 1 ballots) 0 (mkCommitRef 1 0);
   CommittedSubDag_new (mkBlockRef 2 0 200) (take 4 (drop 4 ballots)) 0 (mkCommitRef 2 0)].

Lemma indirect_finalization_equiv_witness :
  ∃ M finalized, link_commits ballot_commits = Ret M ∧
    try_indirect_finalize_pending_transactions_in_block (sample_committee 4) M (mkBlockRef 1 0 100) {[0; 1]} = Ret finalized ∧
    accepted_in (sample_committee 4) (ballot_commits ≫= sd_blocks) (mkBlockRef 1 0 100) 0.
Proof.
  destruct (indirect_finalization_equiv (sample_committee 4) ballot_commits (mkBlockRef 1 0 100) {[0; 1]})
    as (M & finalized & HM & Hrun & Hall).
  - apply sample_committee_wf. lia.
  - apply (bool_decide_eq_true_1 _). vm_compute. reflexivity.
  - assert (Forall (λ b, is_valid_index (sample_committee 4) (vb_author b) = true ∧ vb_ancestors b ≠ [] ∧
      Forall (λ a, br_round a < vb_round b) (vb_ancestors b)) (ballot_commits ≫= sd_blocks)) as Hf
      by (apply (bool_decide_eq_true_1 _); vm_compute; reflexivity).
    rewrite Forall_forall in Hf. intros b (? & ? & Ha)%Hf. rewrite Forall_forall in Ha. auto.
  - assert (Forall (λ b, Forall (λ b', vb_round b ≤ vb_round b' → reference b' ∉ vb_ancestors b) (ballot_commits ≫= sd_blocks))
      (ballot_commits ≫= sd_blocks)) as Hf by (apply (bool_decide_eq_true_1 _); vm_compute; reflexivity).
    rewrite Forall_forall in Hf.
    intros before commit after b b' Heq Hb Hb'.
    destruct before as [|c1 [|c2 [|? ?]]]; cbn in Heq; [by apply elem_of_nil in Hb'| |injection Heq; discriminate|injection Heq; discriminate].
    injection Heq as E1 E2 E3. subst c1 commit after.
    assert (∀ x, x ∈ ballot_commits ≫= sd_blocks ↔ x ∈ take 1 ballots ∨ x ∈ take 4 (drop 4 ballots)) as Hin
      by (intros x; unfold ballot_commits; rewrite !bind_cons, !elem_of_app; simpl; rewrite elem_of_nil; tauto).
    assert (b' ∈ take 1 ballots) as Hb1 by (rewrite bind_cons in Hb'; apply elem_of_app in Hb' as [?|?%elem_of_nil]; done).
    specialize (Hf b' (proj2 (Hin b') (or_introl Hb1))). rewrite Forall_forall in Hf.
    apply Hf; [apply Hin; by right|].
    assert (Forall (λ x, vb_round x = 1) (take 1 ballots) ∧ Forall (λ x, vb_round x = 2) (take 4 (drop 4 ballots))) as [R1 R2]
      by (split; apply (bool_decide_eq_true_1 _); vm_compute; reflexivity).
    rewrite Forall_forall in R1, R2. rewrite (R1 b' Hb1), (R2 b Hb). lia.
  - apply (bool_decide_eq_true_1 _). vm_compute. reflexivity.
  - exists M, finalized. split; [exact HM|]. split; [exact Hrun|]. apply (Hall 0).
    assert (M = ret_or ∅ (link_commits ballot_commits)) as -> by (by rewrite HM).
    assert (finalized = ret_or [] (try_indirect_finalize_pending_transactions_in_block (sample_committee 4)
      (ret_or ∅ (link_commits ballot_commits)) (mkBlockRef 1 0 100) {[0; 1]})) as -> by (by rewrite Hrun).
    apply (bool_decide_eq_true_1 _). vm_compute. reflexivity.
Defined.
