(* ===== verification/FinalizerSafety.v ===== *)
(** Agreement and progress of finalization (consensus/core/src/commit_finalizer.rs with
    transaction_certifier.rs): every node that processes the common sequence of commits
    outputs each of them, in order and within three leader rounds, and any two nodes agree on
    the transactions they reject.

    The sequence of commits is the one the linearizer produces from the start of the epoch
    ([run_facts] of Linearizer.v). A node adds blocks to its certifier and processes commits in
    any interleaving. *)

From stdpp Require Import base tactics numbers list gmap sorting strings relations.
From coqutil Require Import Datatypes.RecordSettersUsingExistingGetters.
From S2P Require Import Prelude.
From S2P Require Import Committee.
From S2P Require Import Block.
From S2P Require Import StakeAggregator.
From S2P Require Import Commit.
From S2P Require Import Store.
From S2P Require Import DagState.
From S2P Require Import DagInvariant.
From S2P Require Import BaseCommitter.
From S2P Require Import CommitSafety.
From S2P Require Import UniversalCommitter.
From S2P Require Import Linearizer.
From S2P Require Import TransactionCertifier.
From S2P Require Import CommitFinalizer.

Open Scope N_scope.

(** * The sequence of commits *)

Definition leader_rounds (sds : list CommittedSubDag) : list N := (λ sd, br_round (sd_leader sd)) <$> sds.

(** The leader round of a commit, and the garbage collection round it was made with. *)
Definition round_at (sds : list CommittedSubDag) (k : nat) : N := default 0 (leader_rounds sds !! k).
Definition gc_at (depth : N) (sds : list CommittedSubDag) (k : nat) : N :=
  default 0 ((0 :: leader_rounds sds) !! k) - depth.

Definition in_commit (sds : list CommittedSubDag) (k : nat) (b : VerifiedBlock) : Prop :=
  ∃ sd, sds !! k = Some sd ∧ b ∈ sd_blocks sd.

(** What the linearizer guarantees of a sequence of commits. *)
Record seq_ok (depth : N) (G : universe) (sds : list CommittedSubDag) : Prop := {
  sq_index : ∀ k sd, sds !! k = Some sd → cr_index (sd_commit_ref sd) = N.of_nat k + 1;
  sq_rounds : ∀ j k, (j < k < length sds)%nat → round_at sds j < round_at sds k;
  sq_leader : ∀ k sd, sds !! k = Some sd → ∃ L, L ∈ sd_blocks sd ∧ reference L = sd_leader sd;
  sq_blocks : ∀ k b, in_commit sds k b → block_in G b ∧ gc_at depth sds k < vb_round b;
  sq_history : ∀ k sd b, sds !! k = Some sd → b ∈ sd_blocks sd → rtc (parent G) (sd_leader sd) (reference b);
  sq_nodup : NoDup (refs (sds ≫= sd_blocks));
  sq_closed : ∀ k b a, in_commit sds k b → a ∈ vb_ancestors b → gc_at depth sds k < br_round a →
    ∃ j b', (j ≤ k)%nat ∧ in_commit sds j b' ∧ reference b' = a;
  sq_clean : ∀ k sd, sds !! k = Some sd → sd_rejected_transactions_by_block sd = ∅;
}.

Lemma in_commit_cons sd sds k b :
  in_commit (sd :: sds) k b ↔ match k with O => b ∈ sd_blocks sd | S k => in_commit sds k b end.
Proof. unfold in_commit. destruct k; simpl; naive_solver. Qed.

Lemma run_facts_rounds ctx G log leaders sds log' :
  run_facts ctx G log leaders sds log' → StronglySorted N.lt (log_round log :: leader_rounds sds).
Proof.
  induction 1 as [log|log L leaders sd sds log1 log2 Hf _ IH]; [repeat constructor|].
  destruct (cf_round _ _ _ _ _ _ Hf) as [Hr Hr']. rewrite Hr' in IH, Hr.
  assert (br_round (sd_leader sd) = vb_round L) as HL by (by rewrite (cf_leader _ _ _ _ _ _ Hf)).
  unfold leader_rounds in *. cbn [fmap list_fmap]. rewrite HL. constructor; [done|].
  apply StronglySorted_inv in IH as [_ IH]. constructor; [done|]. eapply Forall_impl; [exact IH|]. simpl. lia.
Qed.

Lemma run_facts_blocks ctx G log leaders sds log' :
  run_facts ctx G log leaders sds log' → ∀ k sd,
  sds !! k = Some sd → 
  (∃ L, L ∈ sd_blocks sd ∧ reference L = sd_leader sd) ∧ sd_rejected_transactions_by_block sd = ∅ ∧
  ∀ b, b ∈ sd_blocks sd → block_in G b ∧
    default 0 ((log_round log :: leader_rounds sds) !! k) - gc_depth (protocol_config ctx) < vb_round b ∧
    rtc (parent G) (sd_leader sd) (reference b).
Proof.
  induction 1 as [log|log L leaders sd sds log1 log2 Hf _ IH]; intros k sd' Hk; [done|].
  assert (br_round (sd_leader sd) = vb_round L) as HL by (by rewrite (cf_leader _ _ _ _ _ _ Hf)).
  destruct k as [|k]; simpl in Hk.
  - injection Hk as <-. split; [exists L; by rewrite (cf_leader _ _ _ _ _ _ Hf); split; [apply Hf|]|].
    split; [apply Hf|]. rewrite (cf_leader _ _ _ _ _ _ Hf). exact (cf_blocks_in _ _ _ _ _ _ Hf).
  - destruct (IH k sd' Hk) as (? & ? & Hb). do 2 (split; [done|]). intros b Hin. apply Hb in Hin.
    destruct (cf_round _ _ _ _ _ _ Hf) as [_ Hr']. rewrite Hr', <- HL in Hin. exact Hin.
Qed.

Lemma run_facts_closed ctx G log leaders sds log' :
  run_facts ctx G log leaders sds log' → ∀ k b a, in_commit sds k b → a ∈ vb_ancestors b →
  default 0 ((log_round log :: leader_rounds sds) !! k) - gc_depth (protocol_config ctx) < br_round a →
  a ∈ log_committed log ∨ ∃ j b', (j ≤ k)%nat ∧ in_commit sds j b' ∧ reference b' = a.
Proof.
  induction 1 as [log|log L leaders sd sds log1 log2 Hf _ IH]; intros k b a Hk Ha Hgc; [by destruct Hk as (? & ? & _)|].
  assert (br_round (sd_leader sd) = vb_round L) as HL by (by rewrite (cf_leader _ _ _ _ _ _ Hf)).
  assert (a ∈ log_committed log1 → a ∈ log_committed log ∨ ∃ b', b' ∈ sd_blocks sd ∧ reference b' = a) as Hnew.
  { rewrite (cf_committed _ _ _ _ _ _ Hf), list_elem_of_fmap. naive_solver. }
  rewrite in_commit_cons in Hk. destruct k as [|k].
  - destruct Hnew as [?|(b' & ? & ?)]; [by eapply (cf_closed _ _ _ _ _ _ Hf)|by left|].
    right. exists O, b'. rewrite in_commit_cons. done.
  - destruct (cf_round _ _ _ _ _ _ Hf) as [_ Hr']. rewrite Hr', <- HL in IH.
    destruct (IH k b a Hk Ha Hgc) as [Hc|(j & b' & Hj & Hin & Href)].
    + destruct (Hnew Hc) as [?|(b' & ? & ?)]; [by left|]. right. exists O, b'. rewrite in_commit_cons. split; [lia|done].
    + right. exists (S j), b'. rewrite in_commit_cons. split; [lia|done].
Qed.

Lemma run_facts_seq ctx G leaders sds log' :
  run_facts ctx G empty_log leaders sds log' → seq_ok (gc_depth (protocol_config ctx)) G sds.
Proof.
  intros Hrun. pose proof (run_facts_blocks _ _ _ _ _ _ Hrun) as Hb. split.
  - intros k sd Hk. destruct (run_facts_order _ _ _ _ _ _ Hrun) as (_ & Hi & _). rewrite (Hi k sd Hk).
    unfold log_index. simpl. lia.
  - intros j k Hjk. pose proof (run_facts_rounds _ _ _ _ _ _ Hrun) as [Hs _]%StronglySorted_inv.
    unfold round_at. assert (length (leader_rounds sds) = length sds) as Hl by apply length_fmap.
    destruct (lookup_lt_is_Some_2 (leader_rounds sds) j) as [x Hx]; [lia|].
    destruct (lookup_lt_is_Some_2 (leader_rounds sds) k) as [y Hy]; [lia|]. rewrite Hx, Hy. simpl.
    clear - Hs Hx Hy Hjk. revert j k Hx Hy Hjk.
    induction Hs as [|z l _ IH Hz]; intros j k Hx Hy Hjk; [done|]. destruct k as [|k]; [lia|]. destruct j as [|j]; simpl in *.
    + injection Hx as <-. rewrite Forall_forall in Hz. apply Hz. by eapply list_elem_of_lookup_2.
    + apply (IH j k); try done. lia.
  - intros k sd Hk. by apply (Hb k sd).
  - intros k b (sd & Hk & Hin). destruct (Hb k sd Hk) as (_ & _ & H). by destruct (H b Hin) as (? & ? & _).
  - intros k sd b Hk Hin. destruct (Hb k sd Hk) as (_ & _ & H). by apply H.
  - by apply (run_facts_once _ _ _ _ _ _ Hrun).
  - intros k b a Hk Ha Hgc. destruct (run_facts_closed _ _ _ _ _ _ Hrun k b a Hk Ha Hgc) as [Hc|?]; [|done].
    by apply not_elem_of_empty in Hc.
  - intros k sd Hk. by apply (Hb k sd).
Qed.

(** The blocks of the commits [k] to [j]. *)
Definition window (sds : list CommittedSubDag) (k j : nat) : list VerifiedBlock :=
  drop k (take (S j) sds) ≫= sd_blocks.

Lemma elem_of_window sds k j b :
  b ∈ window sds k j ↔ ∃ m, (k ≤ m ≤ j)%nat ∧ in_commit sds m b.
Proof.
  unfold window, in_commit. rewrite list_elem_of_bind. split.
  - intros (sd & Hb & Hsd). apply list_elem_of_lookup in Hsd as [i Hi]. rewrite lookup_drop in Hi.
    apply lookup_take_Some in Hi as [Hi ?]. exists (k + i)%nat. split; [lia|]. eauto.
  - intros (m & Hm & sd & Hsd & Hb). exists sd. split; [done|]. apply list_elem_of_lookup. exists (m - k)%nat.
    rewrite lookup_drop. replace (k + (m - k))%nat with m by lia. apply lookup_take_Some. split; [done|lia].
Qed.

Lemma window_nodup sds k j : NoDup (refs (sds ≫= sd_blocks)) → NoDup (refs (window sds k j)).
Proof.
  unfold window. intros Hnd. rewrite <- (take_drop (S j) sds), bind_app, fmap_app in Hnd.
  apply NoDup_app in Hnd as (Hnd & _ & _). rewrite <- (take_drop k (take (S j) sds)), bind_app, fmap_app in Hnd.
  by apply NoDup_app in Hnd as (_ & _ & ?).
Qed.

Section Sequence.
Context (depth : N) (G : universe) (sds : list CommittedSubDag) (Hsq : seq_ok depth G sds).

Lemma in_commit_lt k b : in_commit sds k b → (k < length sds)%nat.
Proof. intros (sd & Hk & _). by eapply lookup_lt_Some. Qed.

Lemma round_at_lookup k sd : sds !! k = Some sd → round_at sds k = br_round (sd_leader sd).
Proof. intros Hk. unfold round_at, leader_rounds. by rewrite list_lookup_fmap, Hk. Qed.

Lemma gc_at_S k : gc_at depth sds (S k) = round_at sds k - depth.
Proof. done. Qed.

Lemma round_at_le j k : (j ≤ k < length sds)%nat → round_at sds j ≤ round_at sds k.
Proof.
  intros Hjk. destruct (decide (j = k)) as [->|]; [done|]. apply N.lt_le_incl, (sq_rounds _ _ _ Hsq). lia.
Qed.

Lemma gc_at_le j k : (j ≤ k ≤ length sds)%nat → gc_at depth sds j ≤ gc_at depth sds k.
Proof.
  intros Hjk. destruct j as [|j]; [unfold gc_at at 1; simpl; lia|]. destruct k as [|k]; [lia|]. rewrite !gc_at_S.
  assert (round_at sds j ≤ round_at sds k) by (apply round_at_le; lia). lia.
Qed.

Lemma in_commit_unique j k b b' :
  in_commit sds j b → in_commit sds k b' → reference b = reference b' → j = k ∧ b = b'.
Proof.
  intros Hj Hk Href.
  assert (b = b') as <-.
  { apply (sq_blocks _ _ _ Hsq) in Hj as [Hj _]. apply (sq_blocks _ _ _ Hsq) in Hk as [Hk _].
    unfold block_in in *. rewrite Href in Hj. congruence. }
  split; [|done]. clear Href. pose proof (sq_nodup _ _ _ Hsq) as Hnd. clear Hsq. revert j k Hj Hk Hnd.
  induction sds as [|sd l IH]; intros j k Hj Hk Hnd; [by destruct Hj as (? & ? & _)|].
  rewrite in_commit_cons in Hj, Hk. rewrite bind_cons, fmap_app in Hnd. apply NoDup_app in Hnd as (_ & Hd & Hnd).
  assert (∀ m, in_commit l m b → reference b ∈ refs (l ≫= sd_blocks)) as Hin.
  { intros m (sd' & Hm & Hb). apply list_elem_of_fmap_2, list_elem_of_bind. exists sd'. split; [done|].
    by eapply list_elem_of_lookup_2. }
  destruct j as [|j], k as [|k]; [done| | |f_equal; eauto]; exfalso.
  - apply (Hd (reference b)); [by apply list_elem_of_fmap_2|eauto].
  - apply (Hd (reference b)); [by apply list_elem_of_fmap_2|eauto].
Qed.

Context (c : Committee) (byz : gset N) (HG : bft c byz G).

Lemma in_commit_round k b : in_commit sds k b → vb_round b ≤ round_at sds k.
Proof.
  intros (sd & Hk & Hb). rewrite (round_at_lookup k sd Hk).
  apply (rtc_G_round c byz G HG _ _ (sq_history _ _ _ Hsq k sd b Hk Hb)).
Qed.

(** The history of a committed block above the garbage collection round is committed no
    later. *)
Lemma committed_history k b r :
  in_commit sds k b → rtc (parent G) (reference b) r → gc_at depth sds k < br_round r →
  ∃ j b', (j ≤ k)%nat ∧ in_commit sds j b' ∧ reference b' = r.
Proof.
  intros Hk Hrtc Hgc. remember (reference b) as x eqn:Hx. revert k b Hk Hx Hgc.
  induction Hrtc as [x|x y z (b0 & Hb0 & Ha) Hyz IH]; intros k b Hk -> Hgc; [by exists k, b|].
  pose proof (sq_blocks _ _ _ Hsq k b Hk) as [Hb _]. unfold block_in in Hb. assert (b0 = b) as -> by congruence.
  pose proof (rtc_G_round c byz G HG _ _ Hyz) as Hr.
  destruct (sq_closed _ _ _ Hsq k b y Hk Ha) as (j & b' & Hj & Hin & <-); [lia|].
  assert (gc_at depth sds j ≤ gc_at depth sds k) by (apply gc_at_le; apply in_commit_lt in Hk; lia).
  destruct (IH j b' Hin eq_refl) as (j' & b'' & Hj' & ? & ?); [lia|]. exists j', b''. split; [lia|done].
Qed.

(** A committed block above a block of commit [k] is not committed before. *)
Lemma committed_descendant k B m b :
  in_commit sds k B → in_commit sds m b → rtc (parent G) (reference b) (reference B) → (k ≤ m)%nat.
Proof.
  intros Hk Hm Hrtc. destruct (decide (k ≤ m)%nat) as [|Hlt]; [done|]. exfalso.
  pose proof (sq_blocks _ _ _ Hsq k B Hk) as [_ Hgc]. 
  assert (gc_at depth sds m ≤ gc_at depth sds k) by (apply gc_at_le; apply in_commit_lt in Hk; lia).
  destruct (committed_history m b (reference B) Hm Hrtc) as (j & b' & Hj & Hin & Href); [simpl; lia|].
  destruct (in_commit_unique j k b' B Hin Hk Href). lia.
Qed.

(** A window contains every ancestor of its blocks that a longer one contains. *)
Lemma window_closed k j j' b a :
  b ∈ window sds k j → a ∈ vb_ancestors b → a ∈ refs (window sds k j') → a ∈ refs (window sds k j).
Proof.
  intros (m & Hm & Hb)%elem_of_window Ha (b' & -> & (m' & Hm' & Hb')%elem_of_window)%list_elem_of_fmap.
  destruct (decide (m' ≤ j)%nat) as [Hle|Hgt].
  { apply list_elem_of_fmap_2, elem_of_window. exists m'. split; [lia|done]. }
  exfalso. pose proof (sq_blocks _ _ _ Hsq m' b' Hb') as [_ Hgc].
  assert (gc_at depth sds m ≤ gc_at depth sds m') by (apply gc_at_le; apply in_commit_lt in Hb'; lia).
  destruct (sq_closed _ _ _ Hsq m b _ Hb Ha) as (i & b'' & Hi & Hin & Href); [simpl; lia|].
  destruct (in_commit_unique i m' b'' b' Hin Hb' Href). lia.
Qed.

Lemma window_unique k j b b' : b ∈ window sds k j → b' ∈ window sds k j → reference b = reference b' → b = b'.
Proof.
  intros (m & _ & Hb)%elem_of_window (m' & _ & Hb')%elem_of_window Href. by apply (in_commit_unique m m').
Qed.

Lemma window_rounds k j b a : b ∈ window sds k j → a ∈ vb_ancestors b → br_round a < vb_round b.
Proof.
  intros (m & _ & [Hb _]%(sq_blocks _ _ _ Hsq))%elem_of_window Ha. by apply (bft_ancestor_round c byz G HG b a).
Qed.
End Sequence.

(** * Counted votes *)

Section Counted.
Context (l : list VerifiedBlock).
Context (Hrounds : ∀ b a, b ∈ l → a ∈ vb_ancestors b → br_round a < vb_round b).
Context (Hunique : ∀ b b', b ∈ l → b' ∈ l → reference b = reference b' → b = b').

Lemma exists_dec {A} (P : A → Prop) (k : list A) :
  (∀ x, x ∈ k → P x ∨ ¬ P x) → (∃ x, x ∈ k ∧ P x) ∨ ¬ ∃ x, x ∈ k ∧ P x.
Proof.
  clear. induction k as [|x k IH]; intros Hd; [right; intros (? & ?%elem_of_nil & _); done|].
  destruct (Hd x) as [?|Hx]; [left|left; exists x; split; [left|done]|].
  destruct IH as [(y & ? & ?)|Hn]; [intros; apply Hd; by right|left; exists y; split; [by right|done]|].
  right. intros (y & [->|]%elem_of_cons & ?); [done|eauto].
Qed.

(** Whether a block descends from another one inside [l] can be decided. *)
Lemma descends_dec r x : descends l r x ∨ ¬ descends l r x.
Proof.
  remember (N.to_nat (br_round x)) as n eqn:Hn. revert x Hn.
  induction (lt_wf n) as [n _ IH]. intros x ->.
  destruct (exists_dec (λ b, reference b = x ∧ ∃ a, a ∈ vb_ancestors b ∧ (a = r ∨ descends l r a)) l) as [Hyes|Hno].
  - intros b Hb. destruct (decide (reference b = x)) as [Hbx|]; [|right; tauto].
    destruct (exists_dec (λ a, a = r ∨ descends l r a) (vb_ancestors b)) as [|]; [|left; done|right; tauto].
    intros a Ha. destruct (decide (a = r)); [by left; left|].
    pose proof (Hrounds b a Hb Ha) as Hlt.
    assert (N.to_nat (br_round a) < N.to_nat (br_round x))%nat as Hlt' by (rewrite <- Hbx; simpl; lia).
    destruct (IH _ Hlt' a eq_refl); tauto.
  - left. destruct Hyes as (b & Hb & Hbx & a & Ha & [->|Hd]).
    + apply tc_once. by exists b.
    + eapply tc_r; [exact Hd|]. by exists b.
  - right. intros Hd. apply Hno.
    assert (∃ a, child_step l a x ∧ (a = r ∨ descends l r a)) as (a & (b & Hb & Hbx & Ha) & ?).
    { clear -Hd. induction Hd as [x y Hs|x y z Hs Hd IH].
      - exists x. by split; [|left].
      - destruct IH as (a & Ha & [->|Hya]); eexists; (split; [exact Ha|right]); [by apply tc_once|by eapply tc_l]. }
    exists b. split; [done|]. split; [done|]. by exists a.
Qed.

Lemma own_step_child x y : own_step l x y → child_step l y x.
Proof. intros (b & Hb & <- & Hh & _ & _). exists b. split; [done|]. split; [done|]. by apply head_Some_elem_of. Qed.

Lemma own_chain_descends r x y : own_chain l x y → descends l r y → descends l r x.
Proof.
  induction 1 as [x y Hs%own_step_child|x y z Hs%own_step_child _ IH]; intros Hd; (eapply tc_r; [|exact Hs]);
    [exact Hd|exact (IH Hd)].
Qed.

(** On the chain of own ancestors of a descendant lies a block whose vote counts. *)
Lemma counted_below r v :
  v ∈ l → descends l r (reference v) →
  ∃ b, counted l r b ∧ (b = v ∨ own_chain l (reference v) (reference b)).
Proof.
  remember (N.to_nat (vb_round v)) as n eqn:Hn. revert v Hn. induction (lt_wf n) as [n _ IH]. intros v -> Hv Hd.
  assert (∀ y, own_step l (reference v) y → head (vb_ancestors v) = Some y ∧ br_author y = vb_author v ∧ y ∈ refs l) as Hinv.
  { intros y (b & Hb & Href & Hh & Ha & Hy). rewrite (Hunique b v Hb Hv Href) in Hh. done. }
  assert (∀ y, own_step l (reference v) y → descends l r y →
    ∃ b, counted l r b ∧ (b = v ∨ own_chain l (reference v) (reference b))) as Hdown.
  { intros y Hs Hdy. destruct (Hinv y Hs) as (Hh & _ & (b & -> & Hb)%list_elem_of_fmap).
    pose proof (Hrounds v _ Hv (head_Some_elem_of _ _ Hh)) as Hlt. simpl in Hlt.
    destruct (IH (N.to_nat (vb_round b)) ltac:(lia) b eq_refl Hb Hdy) as (b' & Hc & Hb').
    exists b'. split; [done|]. right. destruct Hb' as [->|Hch]; [by apply tc_once|by eapply tc_l]. }
  assert ((∃ y, own_step l (reference v) y ∧ descends l r y) ∨ ¬ ∃ y, own_step l (reference v) y ∧ descends l r y)
    as [(y & ? & ?)|Hno]; [|eauto|].
  { destruct (head (vb_ancestors v)) as [y|] eqn:Hh; [|right; intros (y & [? _]%Hinv & _); done].
    destruct (decide (br_author y = vb_author v)) as [Ha|]; [|right; intros (y' & (? & ? & _)%Hinv & _); congruence].
    destruct (decide (y ∈ refs l)); [|right; intros (y' & (? & _ & ?)%Hinv & _); congruence].
    destruct (descends_dec r y); [|right; intros (y' & (? & _)%Hinv & ?); congruence].
    left. exists y. split; [|done]. exists v. done. }
  exists v. split; [|by left]. split; [done|]. split; [done|]. intros y Hdy Hch. apply Hno.
  inversion Hch as [? ? Hs|? z ? Hs Hzy]; subst; [eauto|]. exists z. split; [done|]. by eapply own_chain_descends.
Qed.
End Counted.

(** Votes count the same in a larger list that adds no ancestors. *)
Lemma counted_grow l l' r b :
  (∀ x, x ∈ l → x ∈ l') → (∀ x y, x ∈ l' → y ∈ l' → reference x = reference y → x = y) →
  (∀ x a, x ∈ l → a ∈ vb_ancestors x → a ∈ refs l' → a ∈ refs l) →
  r ∈ refs l' → counted l r b → counted l' r b.
Proof.
  intros Hsub Hu Hcl Hr (Hb & Hd & Hno).
  assert (∀ x y, child_step l x y → child_step l' x y) as Hstep by (intros x y (z & ? & ? & ?); exists z; auto).
  assert (∀ x y, child_step l' x y → y ∈ refs l → child_step l x y) as Hback.
  { intros x y (z & Hz & <- & Hx) (z' & Href & Hz')%list_elem_of_fmap.
    rewrite (Hu z z' Hz (Hsub _ Hz') Href) in *. by exists z'. }
  assert (∀ x y, child_step l' x y → x ∈ refs l' → y ∈ refs l → x ∈ refs l) as Hdown.
  { intros x y Hs Hx Hy. destruct (Hback x y Hs Hy) as (z & Hz & _ & Ha). by apply (Hcl z). }
  assert (∀ x y, descends l' x y → x ∈ refs l' → y ∈ refs l → descends l x y) as Hdesc.
  { intros x y Hxy Hx Hy.
    assert (x ∈ refs l ∧ descends l x y) as [_ ?]; [|done]. revert Hx.
    induction Hxy as [x y Hs|x y z Hs _ IH]; intros Hx.
    - split; [by eapply Hdown|]. apply tc_once. by apply Hback.
    - destruct (IH Hy) as [Hy' Hd']; [destruct Hs as (w & Hw & <- & _); by apply list_elem_of_fmap_2|].
      split; [by eapply Hdown|]. eapply tc_l; [|exact Hd']. by apply Hback. }
  split; [auto|]. split; [clear -Hd Hstep; induction Hd; [apply tc_once|eapply tc_l]; eauto|].
  intros y Hdy Hch. assert (reference b ∈ refs l) as Hrb by by apply list_elem_of_fmap_2.
  assert (∀ x, own_chain l' x y → x ∈ refs l → y ∈ refs l ∧ own_chain l x y) as Hown.
  { clear -Hu Hsub Hcl. intros x. induction 1 as [x y Hs|x y z Hs _ IH]; intros (w & -> & Hw)%list_elem_of_fmap.
    all: destruct Hs as (w' & Hw' & Href & Hh & Ha & Hy); rewrite (Hu w' w Hw' (Hsub w Hw) Href) in *.
    all: assert (y ∈ refs l) as Hyl by (apply (Hcl w); [done|by apply head_Some_elem_of|done]).
    all: assert (own_step l (reference w) y) as Hs' by (by exists w).
    - split; [done|]. by apply tc_once.
    - destruct (IH Hyl). split; [done|]. by eapply tc_l. }
  destruct (Hown _ Hch Hrb) as [Hyl Hch']. apply (Hno y); [by apply Hdesc|done].
Qed.

(** * Why a transaction is finalized or rejected *)

(** The first commit whose leader is three rounds or more above that of commit [k]. *)
Definition first_deep (sds : list CommittedSubDag) (k j : nat) : Prop :=
  (k < j < length sds)%nat ∧ round_at sds k + 3 ≤ round_at sds j ∧
  ∀ m, (k < m < j)%nat → round_at sds m < round_at sds k + 3.

(** A certificate of the leader [L] whose history above the round of [r] was processed. *)
Definition backed (c : Committee) (G : universe) (added : list VerifiedBlock) (L : VerifiedBlock) (r : BlockRef)
    (C : VerifiedBlock) : Prop :=
  block_in G C ∧ vb_round C = vb_round L + 2 ∧ certifies G c L C = true ∧
  ∀ b, block_in G b → rtc (parent G) (reference C) (reference b) → br_round r < vb_round b → b ∈ added.

(** The leader of commit [k] is known to be certified: by a quorum, or by a block in the
    history of the first leader that is three rounds above. *)
Definition evidence (c : Committee) (G : universe) (sds : list CommittedSubDag) (added : list VerifiedBlock)
    (k : nat) (r : BlockRef) : Prop :=
  ∃ L, in_commit sds k L ∧ vb_round L = round_at sds k ∧
    (∀ b, in_commit sds k b → rtc (parent G) (reference L) (reference b)) ∧
    ((∃ X : gset N, reached_quorum c (weight c X) = true ∧
        ∀ a, a ∈ X → ∃ C, vb_author C = a ∧ backed c G added L r C) ∨
     (∃ C, backed c G added L r C ∧
        ∀ j sd, first_deep sds k j → sds !! j = Some sd → rtc (parent G) (sd_leader sd) (reference C))).

(** Consecutive blocks of an honest authority are linked as first ancestors. *)
Definition own_parent (G : universe) (x y : BlockRef) : Prop :=
  ∃ b, G x = Some b ∧ head (vb_ancestors b) = Some y ∧ br_author y = br_author x.

Definition honest_chain (byz : gset N) (G : universe) : Prop :=
  ∀ b b', block_in G b → block_in G b' → vb_author b = vb_author b' → vb_author b ∉ byz →
    vb_round b' < vb_round b → tc (own_parent G) (reference b) (reference b').

(** Honest blocks vote at most once on a block. *)
Definition honest_votes (byz : gset N) (G : universe) : Prop :=
  ∀ b, block_in G b → vb_author b ∉ byz → NoDup (btv_block_ref <$> vb_transaction_votes b).

Lemma collect_map_app {A} (l : list (BlockRef * A)) e : collect_map (l ++ [e]) = <[e.1 := e.2]> (collect_map l).
Proof. unfold collect_map. by rewrite foldl_app. Qed.

Lemma collect_map_Some {A} (l : list (BlockRef * A)) r x : collect_map l !! r = Some x → (r, x) ∈ l.
Proof.
  induction l as [|[r' y] l IH] using rev_ind; [done|]. rewrite collect_map_app. simpl. rewrite elem_of_app.
  destruct (decide (r' = r)) as [->|Hne]; [rewrite lookup_insert_eq; intros [= ->]; right; left|].
  rewrite lookup_insert_ne by done. auto.
Qed.

Lemma collect_map_elem {A} (l : list (BlockRef * A)) r x : NoDup l.*1 → (r, x) ∈ l → collect_map l !! r = Some x.
Proof.
  induction l as [|[r' y] l IH] using rev_ind; intros Hnd; [by intros ?%elem_of_nil|]. rewrite collect_map_app. simpl.
  rewrite fmap_app in Hnd. apply NoDup_app in Hnd as (Hnd & Hd & _). rewrite elem_of_app, list_elem_of_singleton.
  intros [Hin|[= -> ->]]; [|apply lookup_insert_eq]. rewrite lookup_insert_ne; [auto|]. intros ->.
  apply (Hd r); [apply list_elem_of_fmap; by exists (r, x)|left].
Qed.

Lemma block_rejects_rejects b r i : block_rejects b r i → rejects b r i.
Proof.
  unfold block_rejects, rejects. simpl. destruct (collect_map _ !! r) as [X|] eqn:HX; simpl; [|by intros ?%not_elem_of_empty].
  apply collect_map_Some, list_elem_of_fmap in HX as (v & [= -> ->] & Hv). rewrite elem_of_list_to_set. eauto.
Qed.

Lemma rejects_block_rejects b r i :
  NoDup (btv_block_ref <$> vb_transaction_votes b) → rejects b r i → block_rejects b r i.
Proof.
  intros Hnd (v & Hv & <- & Hi). unfold block_rejects. simpl.
  rewrite (collect_map_elem _ (btv_block_ref v) (list_to_set (btv_rejects v))); [by apply elem_of_list_to_set| |].
  - rewrite <- list_fmap_compose. exact Hnd.
  - apply list_elem_of_fmap. by exists v.
Qed.

Lemma own_parent_parent G x y : tc (own_parent G) x y → tc (parent G) x y.
Proof.
  assert (∀ x y, own_parent G x y → parent G x y) as Hs.
  { intros ? ? (b & Hb & Hh & _). exists b. split; [done|]. by apply head_Some_elem_of. }
  induction 1; [apply tc_once|eapply tc_l]; eauto.
Qed.

(** The votes behind a certificate. *)
Lemma certificate_voters c byz G L C :
  bft c byz G → block_in G C → vb_round C = vb_round L + 2 → certifies G c L C = true →
  ∃ X : gset N, reached_quorum c (weight c X) = true ∧
    ∀ a, a ∈ X → ∃ v, block_in G v ∧ vb_author v = a ∧ vb_round v = vb_round L + 1 ∧
      reference v ∈ vb_ancestors C ∧ reference L ∈ vb_ancestors v.
Proof.
  intros HG HC Hr Hcert. eexists. split; [exact Hcert|]. intros i.
  rewrite elem_of_list_to_set, list_elem_of_fmap. intros (a & -> & Ha).
  apply list_elem_of_filter in Ha as [Hv%Is_true_true Ha].
  unfold vote_of in Hv. destruct (G a) as [v|] eqn:HGa; [|done].
  pose proof (bft_ref _ _ _ HG _ _ HGa) as Href. apply bool_decide_eq_true in Hv.
  apply head_Some_elem_of, list_elem_of_filter in Hv as [_ HL].
  assert (block_in G v) as Hvin by (unfold block_in; by rewrite Href). exists v. rewrite <- Href.
  split; [done|]. split; [done|]. split; [|split; [by rewrite Href|done]].
  apply (bft_ancestor_round c byz G HG C) in Ha; [|done]. apply (bft_ancestor_round c byz G HG v) in HL; [|done].
  rewrite <- Href in Ha. simpl in *. lia.
Qed.

Lemma first_deep_unique sds k j j' : first_deep sds k j → first_deep sds k j' → j = j'.
Proof.
  intros ([Hk Hl] & Hd & Hmin) ([Hk' Hl'] & Hd' & Hmin').
  destruct (decide (j < j')%nat) as [Hlt|]; [specialize (Hmin' j); lia|].
  destruct (decide (j' < j)%nat) as [Hlt|]; [specialize (Hmin j'); lia|]. lia.
Qed.

Section Exclusion.
Context (depth : N) (G : universe) (sds : list CommittedSubDag) (Hsq : seq_ok depth G sds) (Hdepth : 2 ≤ depth).
Context (c : Committee) (byz : gset N) (HG : bft c byz G).

(** The commits up to the deciding one collect garbage below the commit's own leader. *)
Lemma window_gc k j m :
  (k ≤ m ≤ j)%nat → (k < j < length sds)%nat → (∀ m, (k < m < j)%nat → round_at sds m < round_at sds k + 3) →
  gc_at depth sds m ≤ round_at sds k + 2 - depth.
Proof.
  intros Hm Hkj Hno. etrans; [apply (gc_at_le _ _ _ Hsq m j); lia|]. destruct j as [|j]; [lia|]. rewrite gc_at_S.
  assert (round_at sds j ≤ round_at sds k + 2); [|lia].
  destruct (decide (j = k)) as [->|]; [lia|]. specialize (Hno j). lia.
Qed.

(** Inside a window, the history above a block descends from it. *)
Lemma window_descends k j m B b :
  in_commit sds k B → in_commit sds m b → (m ≤ j)%nat → gc_at depth sds m ≤ vb_round B →
  tc (parent G) (reference b) (reference B) → descends (window sds k j) (reference B) (reference b).
Proof.
  intros HB Hb Hm Hgc Htc. remember (reference b) as x eqn:Hx. remember (reference B) as y eqn:Hy.
  revert m b Hb Hx Hm Hgc. induction Htc as [x y Hp|x z y Hp Htc IH]; intros m b Hb -> Hm Hgc; subst y.
  all: pose proof (sq_blocks _ _ _ Hsq m b Hb) as [HbG _].
  all: destruct Hp as (b' & Hb' & Ha); unfold block_in in HbG; assert (b' = b) as -> by congruence.
  - apply tc_once. exists b. split; [|done]. apply elem_of_window. exists m. split; [|done].
    split; [|done]. apply (committed_descendant _ _ _ Hsq c byz HG k B m b); try done. apply rtc_once. by exists b.
  - assert (vb_round B < br_round z) as Hz.
    { clear -Htc HG. change (vb_round B) with (br_round (reference B)). induction Htc as [x y Hp|x y w Hp _ IH];
        apply (bft_desc _ _ _ HG) in Hp; lia. }
    destruct (sq_closed _ _ _ Hsq m b z Hb Ha) as (m' & z' & Hm' & Hz' & Href); [lia|].
    assert (gc_at depth sds m' ≤ gc_at depth sds m).
    { apply (gc_at_le _ _ _ Hsq). apply in_commit_lt in Hb. lia. }
    specialize (IH eq_refl m' z' Hz' (eq_sym Href) ltac:(lia) ltac:(lia)).
    eapply tc_r; [exact IH|]. exists b. split; [|done]. apply elem_of_window. exists m. split; [|done].
    split; [|done]. apply (committed_descendant _ _ _ Hsq c byz HG k B m b); try done.
    apply (rtc_l _ _ z); [by exists b|]. by apply tc_rtc.
Qed.

Lemma window_parent k j x y : child_step (window sds k j) y x → parent G x y.
Proof.
  intros (b & (m & _ & [Hb _]%(sq_blocks _ _ _ Hsq))%elem_of_window & <- & Ha). by exists b.
Qed.

Lemma descends_links k j r x : descends (window sds k j) r x → tc (parent G) x r.
Proof.
  induction 1 as [r x Hs%window_parent|r y x Hs%window_parent _ IH]; [by apply tc_once|by eapply tc_r].
Qed.

Lemma own_chain_history k j x y : own_chain (window sds k j) x y → tc (parent G) x y.
Proof.
  induction 1 as [x y Hs%own_step_child%window_parent|x y z Hs%own_step_child%window_parent _ IH]; [by apply tc_once|by eapply tc_l].
Qed.

(** A round below a committed block, above the garbage collection: a quorum of its authors is
    committed no later. *)
Lemma round_quorum j m b n :
  in_commit sds m b → (m ≤ j < length sds)%nat → n < vb_round b → gc_at depth sds j < n →
  ∃ Y : gset N, reached_quorum c (weight c Y) = true ∧
    ∀ a, a ∈ Y → ∃ m' x, (m' ≤ j)%nat ∧ in_commit sds m' x ∧ vb_author x = a ∧ vb_round x = n ∧
      rtc (parent G) (reference b) (reference x).
Proof.
  intros Hb Hm Hn Hgc. remember (N.to_nat (vb_round b - n)) as h eqn:Hh. revert m b Hb Hm Hn Hh.
  induction h as [|h IH]; intros m b Hb Hm Hn Hh; [lia|].
  pose proof (sq_blocks _ _ _ Hsq m b Hb) as [HbG _].
  assert (gc_at depth sds m ≤ gc_at depth sds j) by (apply (gc_at_le _ _ _ Hsq); lia).
  pose proof (bft_parents _ _ _ HG b HbG ltac:(lia)) as Hq. unfold quorum_parents in Hq.
  assert (∀ a, a ∈ vb_ancestors b → br_round a + 1 = vb_round b →
    ∃ m' x, (m' ≤ m)%nat ∧ in_commit sds m' x ∧ reference x = a) as Hpar.
  { intros a Ha Hr. apply (sq_closed _ _ _ Hsq m b a Hb Ha). lia. }
  destruct (decide (vb_round b = n + 1)) as [Hb1|].
  - eexists. split; [exact Hq|]. intros a. rewrite elem_of_list_to_set, list_elem_of_fmap.
    intros (r & -> & [Hr Ha]%list_elem_of_filter). destruct (Hpar r Ha Hr) as (m' & x & Hm' & Hx & <-).
    exists m', x. split; [lia|]. split; [done|]. split; [done|]. split; [simpl in Hr; lia|]. apply rtc_once. by exists b.
  - destruct (quorum_nonempty c byz G HG _ Hq) as [a Ha]. rewrite elem_of_list_to_set, list_elem_of_fmap in Ha.
    destruct Ha as (r & -> & [Hr Ha]%list_elem_of_filter). destruct (Hpar r Ha Hr) as (m' & x & Hm' & Hx & <-).
    simpl in Hr. destruct (IH m' x Hx) as (Y & HY & Hall); [lia|lia|lia|]. exists Y. split; [done|].
    intros a (m2 & x2 & ? & ? & ? & ? & Hrtc)%Hall. exists m2, x2. do 4 (split; [done|]).
    eapply rtc_l; [|exact Hrtc]. by exists b.
Qed.

Lemma evidence_certificate added k r :
  evidence c G sds added k r → ∃ L C, in_commit sds k L ∧ vb_round L = round_at sds k ∧
    (∀ b, in_commit sds k b → rtc (parent G) (reference L) (reference b)) ∧ backed c G added L r C.
Proof.
  intros (L & HL & Hr & Hh & [(X & HX & Hall)|(C & HC & _)]).
  - destruct (quorum_nonempty c byz G HG X HX) as [a Ha]. destruct (Hall a Ha) as (C & _ & HC). by exists L, C.
  - by exists L, C.
Qed.

(** Some certificate of the evidence is committed by the deciding commit. *)
Lemma evidence_window added k r j :
  evidence c G sds added k r → first_deep sds k j →
  ∃ L C, in_commit sds k L ∧ vb_round L = round_at sds k ∧
    (∀ b, in_commit sds k b → rtc (parent G) (reference L) (reference b)) ∧ backed c G added L r C ∧
    ∃ m, (m ≤ j)%nat ∧ in_commit sds m C.
Proof.
  intros (L & HL & Hr & Hh & Hev) Hj. pose proof Hj as ([Hkj Hlen] & Hdeep & Hno).
  destruct (lookup_lt_is_Some_2 sds j Hlen) as [sd Hsd].
  destruct (sq_leader _ _ _ Hsq j sd Hsd) as (A & HA & HAr).
  assert (in_commit sds j A) as HjA by (by exists sd).
  assert (vb_round A = round_at sds j) as HAround by (rewrite (round_at_lookup sds j sd Hsd), <- HAr; done).
  pose proof (window_gc k j j ltac:(lia) ltac:(lia) Hno) as Hgc.
  destruct Hev as [(X & HX & Hall)|(C & HC & Hlink)].
  - destruct (round_quorum j j A (vb_round L + 2) HjA) as (Y & HY & HallY); [lia|lia|lia|].
    destruct (honest_pair c byz G HG X Y HX HY) as (a & HaX & HaY & Hhon).
    destruct (Hall a HaX) as (C & HCa & HC). destruct (HallY a HaY) as (m & x & Hm & Hx & Hxa & Hxr & _).
    assert (C = x) as ->.
    { destruct HC as (HCG & HCr & _). apply (honest_same c byz G HG C x a); try done; [by apply (sq_blocks _ _ _ Hsq m x)|lia]. }
    exists L, x. do 4 (split; [done|]). by exists m.
  - exists L, C. do 4 (split; [done|]). destruct HC as (HCG & HCr & _).
    destruct (committed_history _ _ _ Hsq c byz HG j A (reference C) HjA) as (m & C' & Hm & HC' & Href).
    { rewrite HAr. by eapply Hlink. }
    { simpl. lia. }
    exists m. split; [done|]. replace C with C'; [done|].
    apply (sq_blocks _ _ _ Hsq) in HC' as [HCG' _]. unfold block_in in *. rewrite Href in HCG'. congruence.
Qed.

Context (Hrule : vote_rule byz G) (Hchain : honest_chain byz G).

(** A transaction seen without reject votes below a certificate never gets a quorum of them. *)
Lemma direct_not_rejected added added' k B i :
  in_commit sds k B → evidence c G sds added k (reference B) → rejecters added (reference B) i = ∅ →
  (∀ b, b ∈ added' → block_in G b) →
  reached_quorum c (weight c (rejecters added' (reference B) i)) = false.
Proof.
  intros HB Hev Hnone HG'. apply not_true_iff_false. intros Hq.
  destruct (evidence_certificate _ _ _ Hev) as (L & C & HL & _ & Hh & HC & HCr & Hcert & Hback).
  destruct (certificate_voters c byz G L C HG HC HCr Hcert) as (X & HX & Hvot).
  destruct (honest_pair c byz G HG X _ HX Hq) as (a & HaX & HaR & Hhon).
  destruct (Hvot a HaX) as (v & Hv & Hva & Hvr & HvC & HLv).
  apply elem_of_rejecters in HaR as (b & Hb & Hba & Hrej). specialize (HG' b Hb).
  destruct (Hrule b (reference B) i HG') as [Hlink Hfirst]; [congruence|done|].
  assert (links G v (reference B)) as Hlv.
  { unfold links. specialize (Hh B HB). apply rtc_tc in Hh as [Heq|Hh].
    - rewrite <- Heq. apply tc_once. by exists v.
    - eapply tc_l; [|exact Hh]. by exists v. }
  specialize (Hfirst v Hv ltac:(congruence) Hlv).
  assert (rtc (parent G) (reference v) (reference b)) as Hvb.
  { destruct (decide (vb_round b = vb_round v)) as [Heq|].
    - replace b with v; [done|]. by apply (honest_same c byz G HG v b a).
    - apply tc_rtc, own_parent_parent, Hchain; try done; [congruence|congruence|lia]. }
  apply (links_round c byz G HG) in Hlink; [|done].
  assert (b ∈ added) as Hin by (apply Hback; [done|eapply rtc_l; [by exists C|done]|done]).
  assert (a ∈ rejecters added (reference B) i) as Ha by (apply elem_of_rejecters; eauto).
  rewrite Hnone in Ha. by apply not_elem_of_empty in Ha.
Qed.

(** It is accepted in every window that ends with the deciding commit. *)
Lemma direct_accepted added k B i j :
  in_commit sds k B → evidence c G sds added k (reference B) → rejecters added (reference B) i = ∅ →
  first_deep sds k j → accepted_in c (window sds k j) (reference B) i.
Proof.
  intros HB Hev Hnone Hj.
  destruct (evidence_window _ _ _ _ Hev Hj) as (L & C & HL & HLr & Hh & (HC & HCr & Hcert & Hback) & m & Hm & HCm).
  pose proof Hj as ([Hkj Hlen] & _ & Hno). pose proof (window_gc k j j ltac:(lia) ltac:(lia) Hno) as Hgc.
  destruct (certificate_voters c byz G L C HG HC HCr Hcert) as (X & HX & Hvot).
  exists X. split; [done|]. intros a Ha. destruct (Hvot a Ha) as (v & Hv & Hva & Hvr & HvC & HLv).
  destruct (sq_closed _ _ _ Hsq m C (reference v) HCm HvC) as (m' & v' & Hm' & Hv' & Href).
  { assert (gc_at depth sds m ≤ gc_at depth sds j) by (apply (gc_at_le _ _ _ Hsq); lia). simpl. lia. }
  assert (v' = v) as ->.
  { apply (sq_blocks _ _ _ Hsq) in Hv' as [Hv' _]. unfold block_in in *. rewrite Href in Hv'. congruence. }
  assert (k ≤ m')%nat as Hkm.
  { apply (committed_descendant _ _ _ Hsq c byz HG k L m' v HL Hv'). apply rtc_once. by exists v. }
  assert (v ∈ window sds k j) as Hvw by (apply elem_of_window; exists m'; split; [lia|done]).
  assert (descends (window sds k j) (reference B) (reference v)) as Hd.
  { assert (child_step (window sds k j) (reference L) (reference v)) as Hs by (by exists v).
    specialize (Hh B HB). apply rtc_tc in Hh as [Heq|Hh]; [rewrite <- Heq; by apply tc_once|].
    eapply tc_r; [|exact Hs]. apply (window_descends k j k B L); try done; [lia|].
    apply (sq_blocks _ _ _ Hsq) in HB as [_ ?]. lia. }
  destruct (counted_below (window sds k j) (window_rounds _ _ _ Hsq c byz HG k j) (window_unique _ _ _ Hsq k j) _ v Hvw Hd)
    as (b & Hb & Hbv).
  assert (vb_author b = vb_author v ∧ rtc (parent G) (reference v) (reference b)) as [Hba Hvb].
  { destruct Hbv as [->|Hch]; [done|]. split; [by apply own_chain_in in Hch as (_ & _ & ?)|].
    apply tc_rtc. by eapply own_chain_history. }
  exists b. split; [done|]. split; [congruence|]. intros Hrej%block_rejects_rejects.
  destruct Hb as (Hbw & Hdb & _). apply elem_of_window in Hbw as (mb & _ & [HbG _]%(sq_blocks _ _ _ Hsq)).
  apply descends_links, (links_round c byz G HG) in Hdb; [|done].
  assert (b ∈ added) as Hin by (apply Hback; [done|eapply rtc_l; [by exists C|done]|done]).
  assert (vb_author b ∈ rejecters added (reference B) i) as Ha' by (apply elem_of_rejecters; eauto).
  rewrite Hnone in Ha'. by apply not_elem_of_empty in Ha'.
Qed.

(** Acceptance stays in longer windows. *)
Lemma accepted_grow k j j' B i :
  in_commit sds k B → (k ≤ j ≤ j')%nat →
  accepted_in c (window sds k j) (reference B) i → accepted_in c (window sds k j') (reference B) i.
Proof.
  intros HB Hj (X & HX & Hall). exists X. split; [done|]. intros a Ha. destruct (Hall a Ha) as (b & Hb & ? & ?).
  exists b. split; [|done]. eapply counted_grow; [| | | |exact Hb].
  - intros x (m & Hm & Hx)%elem_of_window. apply elem_of_window. exists m. split; [lia|done].
  - apply (window_unique _ _ _ Hsq).
  - intros x y Hx Hy. by apply (window_closed _ _ _ Hsq k j j' x).
  - apply list_elem_of_fmap_2, elem_of_window. exists k. split; [lia|done].
Qed.

Context (Hvotes : honest_votes byz G).

(** Honest chains stay inside the window. *)
Lemma chain_in_window k j m b b' B :
  in_commit sds k B → in_commit sds m b → (m ≤ j)%nat → gc_at depth sds m ≤ vb_round B →
  tc (own_parent G) (reference b) (reference b') → block_in G b' → links G b' (reference B) →
  ∃ m', (m' ≤ m)%nat ∧ in_commit sds m' b' ∧ own_chain (window sds k j) (reference b) (reference b').
Proof.
  intros HB Hb Hm Hgc Hch Hb' Hl. remember (reference b) as x eqn:Hx. remember (reference b') as y eqn:Hy.
  revert m b Hb Hx Hm Hgc.
  assert (∀ m b, in_commit sds m b → rtc (parent G) (reference b) (reference b') → (k ≤ m)%nat) as Hk.
  { intros m b Hb Hrtc. apply (committed_descendant _ _ _ Hsq c byz HG k B m b HB Hb). etrans; [exact Hrtc|by apply tc_rtc]. }
  assert (vb_round B < vb_round b') as Hr by (by apply (links_round c byz G HG b' (reference B))).
  assert (∀ m b z, in_commit sds m b → (m ≤ j)%nat → gc_at depth sds m ≤ vb_round B → own_parent G (reference b) z →
    rtc (parent G) z (reference b') →
    ∃ m' b2, (m' ≤ m)%nat ∧ in_commit sds m' b2 ∧ reference b2 = z ∧ own_step (window sds k j) (reference b) z) as Hstep.
  { intros m b z Hb Hm Hgc (b0 & Hb0 & Hh & Ha) Hz. pose proof (sq_blocks _ _ _ Hsq m b Hb) as [HbG _].
    unfold block_in in HbG. assert (b0 = b) as -> by congruence. pose proof (rtc_G_round c byz G HG _ _ Hz) as Hrz. simpl in Hrz.
    destruct (sq_closed _ _ _ Hsq m b z Hb (head_Some_elem_of _ _ Hh)) as (m' & b2 & Hm' & Hb2 & <-); [lia|].
    exists m', b2. do 3 (split; [done|]). exists b. split; [|do 3 (split; [done|])].
    - apply elem_of_window. exists m. split; [|done]. split; [|done]. apply (Hk m b Hb).
      eapply rtc_l; [|exact Hz]. exists b. split; [done|]. by apply head_Some_elem_of.
    - apply list_elem_of_fmap_2, elem_of_window. exists m'. split; [|done]. split; [by apply (Hk m' b2)|lia]. }
  induction Hch as [x y Hp|x z y Hp Hch IH]; intros m b Hb -> Hm Hgc; subst y.
  - destruct (Hstep m b (reference b') Hb Hm Hgc Hp) as (m' & b2 & Hm' & Hb2 & Href & Hs); [done|].
    exists m'. split; [done|]. split; [|by apply tc_once]. replace b' with b2; [done|].
    apply (sq_blocks _ _ _ Hsq) in Hb2 as [Hb2 _]. unfold block_in in *. rewrite Href in Hb2. congruence.
  - destruct (Hstep m b z Hb Hm Hgc Hp) as (m1 & b1 & Hm1 & Hb1 & Href & Hs).
    { by apply tc_rtc, own_parent_parent. }
    assert (gc_at depth sds m1 ≤ gc_at depth sds m) by (apply (gc_at_le _ _ _ Hsq); apply in_commit_lt in Hb; lia).
    destruct (IH eq_refl m1 b1 Hb1 (eq_sym Href)) as (m' & Hm' & Hb2 & Hc'); [lia|lia|].
    exists m'. split; [lia|]. split; [done|]. by eapply tc_l.
Qed.

(** A transaction accepted in a window before or at the deciding commit never gets a quorum of
    reject votes, unless its block is at the edge of the garbage collection window. *)
Lemma accepted_not_rejected added' k B i j :
  in_commit sds k B → (k < j < length sds)%nat → (∀ m, (k < m < j)%nat → round_at sds m < round_at sds k + 3) →
  round_at sds k + 2 ≤ vb_round B + depth → accepted_in c (window sds k j) (reference B) i →
  (∀ b, b ∈ added' → block_in G b) →
  reached_quorum c (weight c (rejecters added' (reference B) i)) = false.
Proof.
  intros HB Hj Hno Hmargin (X & HX & Hall) HG'. apply not_true_iff_false. intros Hq.
  destruct (honest_pair c byz G HG X _ HX Hq) as (a & HaX & HaR & Hhon).
  destruct (Hall a HaX) as (b & (Hbw & Hd & Hlow) & Hba & Hacc).
  apply elem_of_rejecters in HaR as (b' & Hb' & Hb'a & Hrej). specialize (HG' b' Hb').
  destruct (Hrule b' (reference B) i HG') as [Hlink Hfirst]; [congruence|done|].
  apply elem_of_window in Hbw as (m & Hm & Hbm). pose proof (sq_blocks _ _ _ Hsq m b Hbm) as [HbG _].
  specialize (Hfirst b HbG ltac:(congruence) (descends_links k j _ _ Hd)).
  assert (∀ m, (k ≤ m ≤ j)%nat → gc_at depth sds m ≤ vb_round B) as Hgc.
  { intros m' Hm'. pose proof (window_gc k j m' Hm' Hj Hno). lia. }
  destruct (decide (vb_round b' = vb_round b)) as [Heq|Hne].
  { assert (b' = b) as -> by (by apply (honest_same c byz G HG b' b a)).
    apply Hacc, rejects_block_rejects; [|done]. apply Hvotes; [done|congruence]. }
  destruct (chain_in_window k j m b b' B) as (m' & Hm' & Hb'm & Hch); try done; [lia|by apply Hgc| |].
  { apply Hchain; try done; [congruence|congruence|lia]. }
  apply (Hlow (reference b')); [|done]. apply (window_descends k j m' B b'); try done; [lia|].
  apply Hgc. split; [|lia]. apply (committed_descendant _ _ _ Hsq c byz HG k B m' b' HB Hb'm). by apply tc_rtc.
Qed.
End Exclusion.

(** The reasons to reject and to finalize a transaction of commit [k]. *)
Definition rej_reason (c : Committee) (sds : list CommittedSubDag) (added : list VerifiedBlock) (k : nat)
    (r : BlockRef) (i : N) : Prop :=
  reached_quorum c (weight c (rejecters added r i)) = true ∨
  ∃ j, first_deep sds k j ∧ ¬ accepted_in c (window sds k j) r i.

Definition acc_reason (c : Committee) (G : universe) (sds : list CommittedSubDag) (added : list VerifiedBlock)
    (k : nat) (r : BlockRef) (i : N) : Prop :=
  (∃ added0, (∀ b, b ∈ added0 → b ∈ added) ∧ evidence c G sds added0 k r ∧ rejecters added0 r i = ∅) ∨
  ∃ j, (k < j < length sds)%nat ∧ (∀ m, (k < m < j)%nat → round_at sds m < round_at sds k + 3) ∧
    accepted_in c (window sds k j) r i.

(** The block is not at the edge of the garbage collection window of its commit. *)
Definition margin (depth : N) (sds : list CommittedSubDag) (k : nat) (r : BlockRef) : Prop :=
  round_at sds k + 2 ≤ br_round r + depth.

Lemma reasons_exclude depth G sds c byz added1 added2 k B i :
  seq_ok depth G sds → 2 ≤ depth → bft c byz G → vote_rule byz G → honest_chain byz G → honest_votes byz G →
  in_commit sds k B → margin depth sds k (reference B) → (∀ b, b ∈ added1 → block_in G b) →
  rej_reason c sds added1 k (reference B) i → acc_reason c G sds added2 k (reference B) i → False.
Proof.
  intros Hsq Hdepth HG Hrule Hchain Hvotes HB Hm Hadd Hrej Hacc. unfold margin in Hm. simpl in Hm.
  destruct Hrej as [Hq|(j & Hj & Hno)], Hacc as [(added0 & _ & Hev & Hnone)|(j' & Hj' & Hbetween & Hacc)].
  - rewrite (direct_not_rejected depth G sds Hdepth c byz HG Hrule Hchain added0 added1 k B i) in Hq; done.
  - rewrite (accepted_not_rejected depth G sds Hsq Hdepth c byz HG Hrule Hchain Hvotes added1 k B i j') in Hq; done.
  - apply Hno. by apply (direct_accepted depth G sds Hsq Hdepth c byz HG added0).
  - apply Hno, (accepted_grow depth G sds Hsq Hdepth c k j'); try done. destruct Hj as ([? ?] & Hdeep & Hfirst).
    split; [lia|]. destruct (decide (j' ≤ j)%nat) as [|Hlt]; [done|]. specialize (Hbetween j). lia.
Qed.

Lemma sorted_lt_nodup (l : list N) : StronglySorted N.lt l → NoDup l.
Proof.
  induction 1 as [|x l _ IH Hx]; constructor; [|done]. intros Hin. rewrite Forall_forall in Hx. specialize (Hx x Hin). lia.
Qed.

(** * One node *)

(** A commit as the finalizer receives it: whether it was decided locally and the scores
    differ between nodes. *)
Definition delivers (sd cd : CommittedSubDag) : Prop :=
  ∃ local scores, cd = sd <| sd_decided_with_local_blocks := local |> <| sd_reputation_scores_desc := scores |>.

Lemma delivers_fields sd cd :
  delivers sd cd → sd_leader cd = sd_leader sd ∧ sd_blocks cd = sd_blocks sd ∧
    sd_commit_ref cd = sd_commit_ref sd ∧ sd_rejected_transactions_by_block cd = sd_rejected_transactions_by_block sd.
Proof. by intros (local & scores & ->). Qed.

(** The leader of a commit has a certificate in the history of the first leader that is three
    rounds above. *)
Definition anchored (c : Committee) (G : universe) (sds : list CommittedSubDag) : Prop :=
  ∀ k j sd sd' L, first_deep sds k j → sds !! k = Some sd → sds !! j = Some sd' →
    L ∈ sd_blocks sd → reference L = sd_leader sd →
    ∃ C, block_in G C ∧ vb_round C = vb_round L + 2 ∧ certifies G c L C = true ∧
      rtc (parent G) (sd_leader sd') (reference C).

(** The committed leaders of a sequence of decisions. *)
Definition commits_of (sts : list LeaderStatus) : list VerifiedBlock :=
  omap (λ st, match st with LsCommit L => Some L | _ => None end) sts.

Lemma commits_of_split sts k L :
  commits_of sts !! k = Some L → ∃ pre post, sts = pre ++ LsCommit L :: post ∧ length (commits_of pre) = k.
Proof.
  revert k. induction sts as [|st sts IH]; intros k Hk; [done|].
  destruct st as [L'|s|s]; cbn in Hk; [destruct k as [|k]|..].
  - injection Hk as ->. by exists [], sts.
  - destruct (IH k Hk) as (pre & post & -> & <-). by exists (LsCommit L' :: pre), post.
  - destruct (IH k Hk) as (pre & post & -> & <-). by exists (LsSkip s :: pre), post.
  - destruct (IH k Hk) as (pre & post & -> & <-). by exists (LsUndecided s :: pre), post.
Qed.

Lemma find_anchor_first m sts A :
  find_anchor m sts = Some A → ∃ i, commits_of sts !! i = Some A ∧ m ≤ vb_round A ∧
    ∀ i' B, (i' < i)%nat → commits_of sts !! i' = Some B → vb_round B < m.
Proof.
  induction sts as [|st sts IH]; simpl; [done|]. destruct (N.leb_spec m (LeaderStatus_round st)) as [Hle|Hlt].
  - destruct st as [L|s|s]; intros Hf; simplify_eq/=; [|by apply IH].
    exists O. split; [done|]. split; [done|]. intros; lia.
  - intros (i & Hi & Hm & Hfirst)%IH. destruct st as [L|s|s]; [|by exists i..].
    exists (S i). split; [done|]. split; [done|]. intros [|i'] B Hi' HB; cbn in HB; [by simplify_eq|]. apply (Hfirst i'); [lia|done].
Qed.

Lemma decided_seq_at c G ss pre st post :
  decided_seq c G ss (pre ++ st :: post) →
  ∃ s, LeaderStatus_is_decided st = true ∧ direct_decides c G s st ∨
    match find_anchor (slot_round s + 3) post with
    | Some A => anchor_decides c G A s st
    | None => st = LsUndecided s
    end.
Proof.
  revert ss. induction pre as [|st' pre IH]; intros ss Hd; simpl in Hd; inversion Hd; subst; eauto.
Qed.

(** The commit rule anchors the leaders: each has a certificate in the history of the first
    committed leader three rounds above. *)
Lemma decided_anchored depth c byz G ss sts sds :
  bft c byz G → 2 ≤ depth → seq_ok depth G sds → decided_seq c G ss sts →
  sd_leader <$> sds = reference <$> commits_of sts → anchored c G sds.
Proof.
  intros HG Hdepth Hsq Hdec Hlead k j sd sd' L Hj Hk Hj' HL HLr.
  assert (∀ i sd, sds !! i = Some sd → ∃ A, commits_of sts !! i = Some A ∧ reference A = sd_leader sd) as Hcom.
  { intros i sd0 Hi. assert ((reference <$> commits_of sts) !! i = Some (sd_leader sd0)) as H
      by (rewrite <- Hlead, list_lookup_fmap, Hi; done).
    apply list_lookup_fmap_Some in H as (A & -> & HA). eauto. }
  destruct (Hcom k sd Hk) as (L' & HL' & HLr'). destruct (Hcom j sd' Hj') as (A & HA & HAr).
  apply commits_of_split in HL' as (pre & post & -> & Hpre).
  assert (block_in G L) as HLG by (apply (sq_blocks _ _ _ Hsq k L); by exists sd).
  assert (∀ L2, block_in G L2 → reference L2 = reference L' → L2 = L) as HLeq.
  { intros L2 H2 Heq. unfold block_in in *. rewrite Heq, HLr', <- HLr in H2. congruence. }
  assert (vb_round L = round_at sds k) as HLround by (rewrite (round_at_lookup sds k sd Hk), <- HLr; done).
  pose proof Hj as ([Hkj Hlen] & Hdeep & Hno).
  destruct (sq_leader _ _ _ Hsq j sd' Hj') as (A' & HA' & HAr').
  assert (vb_round A' = round_at sds j) as HAround by (rewrite (round_at_lookup sds j sd' Hj'), <- HAr'; done).
  destruct (decided_seq_at c G ss pre _ post Hdec) as [s [[_ (HL'G & Hs & Hsup)]|Hind]].
  - rewrite (HLeq L' HL'G eq_refl) in Hsup. destruct Hsup as (X & HX & Hall).
    pose proof (window_gc _ _ _ Hsq Hdepth k j j ltac:(lia) ltac:(lia) Hno) as Hgc.
    destruct (round_quorum depth G sds Hsq Hdepth c byz HG j j A' (vb_round L + 2)) as (Y & HY & HallY);
      [by exists sd'|lia|lia|lia|].
    destruct (honest_pair c byz G HG X Y HX HY) as (a & HaX & HaY & Hhon).
    destruct (Hall a HaX) as (C & HC & HCa & HCr & Hcert). destruct (HallY a HaY) as (m & x & Hm & Hx & Hxa & Hxr & Hrtc).
    exists C. do 3 (split; [done|]). rewrite <- HAr'. replace C with x; [done|].
    apply (honest_same c byz G HG x C a); try done; [by apply (sq_blocks _ _ _ Hsq m x)|lia].
  - destruct (find_anchor _ post) as [B|] eqn:Hf; [|done].
    destruct Hind as (HL'G & Hs & C & HC & HCr & HBr & Hrtc & Hcert).
    pose proof (HLeq L' HL'G eq_refl) as HLL. subst L'. exists C. do 3 (split; [done|]).
    replace (sd_leader sd') with (reference B); [done|].
    assert (slot_round s = vb_round L) as Hsr by (subst s; done). rewrite Hsr in Hf.
    apply find_anchor_first in Hf as (i & Hi & HBm & Hfirst).
    assert (∀ i, commits_of (pre ++ LsCommit L :: post) !! (k + 1 + i)%nat = commits_of post !! i) as Hpos.
    { intros i'. unfold commits_of. rewrite omap_app. fold (commits_of pre). rewrite lookup_app_r by lia.
      rewrite Hpre. replace (k + 1 + i' - k)%nat with (S i') by lia. done. }
    assert ((k + 1 + i)%nat = j) as <-; [|rewrite Hpos, Hi in HA; by simplify_eq].
    assert (∀ i' B', commits_of post !! i' = Some B' → (k + 1 + i' < length sds)%nat → vb_round B' = round_at sds (k + 1 + i')) as Hrd.
    { intros i' B' HB' Hl. destruct (lookup_lt_is_Some_2 sds _ Hl) as [sd2 Hsd2]. destruct (Hcom _ _ Hsd2) as (B2 & HB2 & HB2r).
      rewrite Hpos, HB' in HB2. simplify_eq. rewrite (round_at_lookup sds _ _ Hsd2), <- HB2r. done. }
    destruct (decide (k + 1 + i < j)%nat) as [Hlt|].
    { specialize (Hno (k + 1 + i)%nat ltac:(lia)). rewrite <- (Hrd i B) in Hno by (done || lia). lia. }
    destruct (decide (j < k + 1 + i)%nat) as [Hlt|]; [|lia]. exfalso.
    assert (commits_of post !! (j - k - 1)%nat = Some A) as HA2 by (rewrite <- Hpos; by replace (k + 1 + (j - k - 1))%nat with j by lia).
    specialize (Hfirst (j - k - 1)%nat A ltac:(lia) HA2). rewrite (Hrd _ _ HA2) in Hfirst by lia.
    replace (k + 1 + (j - k - 1))%nat with j in Hfirst by lia. lia.
Qed.

Section Node.
Context (ctx : Context) (byz : gset N) (G : universe) (sds : list CommittedSubDag).
Let c := committee ctx.
Let depth := gc_depth (protocol_config ctx).
Context (Hsq : seq_ok depth G sds) (HG : bft c byz G) (Hanchored : anchored c G sds).
Context (Hsmall : ∀ k, round_at sds k + 3 < 2 ^ 32).
Let Hc : committee_wf c := bft_committee c byz G HG.

Abbreviation blocks_of cs := (sd_blocks (cst_commit cs)).

(** A commit that is not treated yet. *)
Record waiting_ok (added : list VerifiedBlock) (k : nat) (cs : CommitState) : Prop := {
  wk_blocks : ∀ r, is_Some (pending_blocks cs !! r) ↔ r ∈ refs (blocks_of cs);
  wk_nonempty : pending_blocks cs ≠ ∅;
  wk_pending : pending_transactions cs = ∅;
  wk_rejected : rejected_transactions cs = ∅;
  wk_local : sd_decided_with_local_blocks (cst_commit cs) = true →
    ∀ r, r ∈ refs (blocks_of cs) → evidence c G sds added k r;
}.

(** A commit whose transactions are finalized, rejected or pending, with reasons. *)
Record treated_ok (added : list VerifiedBlock) (k : nat) (cs : CommitState) : Prop := {
  tk_blocks : pending_blocks cs = ∅;
  tk_wf : pends_wf cs;
  tk_pends : ∀ r i, pends cs r i → r ∈ refs (blocks_of cs) ∧ rejecters added r i ≠ ∅;
  tk_rejected : ∀ r i, rejected cs r i → r ∈ refs (blocks_of cs) ∧ rej_reason c sds added k r i;
  tk_final : ∀ r i, r ∈ refs (blocks_of cs) → margin depth sds k r → ¬ pends cs r i → ¬ rejected cs r i →
    acc_reason c G sds added k r i;
}.

Record commit_ok (added : list VerifiedBlock) (k : nat) (cs : CommitState) : Prop := {
  co_commit : ∃ sd, sds !! k = Some sd ∧ delivers sd (cst_commit cs);
  co_state : waiting_ok added k cs ∨ treated_ok added k cs;
  co_added : ∀ b, b ∈ blocks_of cs → b ∈ added;
}.

Lemma evidence_mono added added' k r :
  (∀ b, b ∈ added → b ∈ added') → evidence c G sds added k r → evidence c G sds added' k r.
Proof.
  intros Hsub (L & HL & Hr & Hh & Hev). exists L. do 3 (split; [done|]).
  assert (∀ C, backed c G added L r C → backed c G added' L r C) as Hb 
    by (intros C (? & ? & ? & Hb); do 3 (split; [done|]); intros b ? ? ?; by apply Hsub, Hb).
  destruct Hev as [(X & HX & Hall)|(C & HC & ?)]; [left|right; eauto].
  exists X. split; [done|]. intros a (C & ? & ?)%Hall. eauto.
Qed.

Lemma commit_ok_mono added added' k cs :
  (∀ b, b ∈ added → b ∈ added') → commit_ok added k cs → commit_ok added' k cs.
Proof.
  intros Hsub [Hcd Hst Hin]. split; [done| |auto]. destruct Hst as [[H1 H2 H3 H4 H5]|[H1 H2 H3 H4 H5]]; [left|right]; split; try done.
  - intros Hl r Hr. by eapply evidence_mono, H5.
  - intros r i [Hr Hne]%H3. split; [done|]. intros He. apply Hne.
    pose proof (rejecters_mono added added' r i Hsub) as Hm. rewrite He in Hm. set_solver.
  - intros r i [Hr Hre]%H4. split; [done|]. destruct Hre as [Hq|?]; [left|by right].
    eapply (is_threshold_mono c QuorumThreshold); [|exact Hq]. by apply rejecters_mono.
  - intros r i Hr Hm Hp Hn. destruct (H5 r i Hr Hm Hp Hn) as [(added0 & ? & ? & ?)|?]; [left|by right].
    exists added0. auto.
Qed.

Lemma commit_in k cs b added : commit_ok added k cs → b ∈ blocks_of cs ↔ in_commit sds k b.
Proof.
  intros [(sd & Hk & (_ & -> & _)%delivers_fields) _ _]. unfold in_commit. naive_solver.
Qed.

Lemma commit_round k cs added : commit_ok added k cs → br_round (sd_leader (cst_commit cs)) = round_at sds k.
Proof.
  intros [(sd & Hk & (-> & _)%delivers_fields) _ _]. symmetry. by apply round_at_lookup.
Qed.

(** ** The votes of the certifier *)

(** The certifier after the blocks [added], with garbage collected below commit [p]. *)
Record certifier_ok (added : list VerifiedBlock) (p : nat) (t : TransactionCertifier) : Prop := {
  ck_run : ∃ outs, cert_run ctx added (certifier_state t) outs;
  ck_gc : cs_gc_round (certifier_state t) ≤ gc_at depth sds p;
  ck_valid : ∀ b, b ∈ added → block_in G b ∧ is_valid_index c (vb_author b) = true;
}.

Definition votes_of (t : TransactionCertifier) (r : BlockRef) : list (N * N) := default [] (get_reject_votes t r).

Lemma certifier_votes added p t k cs r :
  certifier_ok added p t → commit_ok added k cs → (p ≤ k)%nat → r ∈ refs (blocks_of cs) →
  get_reject_votes t r = Some (votes_of t r) ∧ NoDup (votes_of t r).*1 ∧
  ∀ i s, (i, s) ∈ votes_of t r ↔ rejecters added r i ≠ ∅ ∧ s = weight c (rejecters added r i).
Proof.
  intros [[outs Hrun] Hgc Hval] Hk Hpk (b & -> & Hb)%list_elem_of_fmap.
  apply (commit_in k cs b added Hk) in Hb as Hin. pose proof (sq_blocks _ _ _ Hsq k b Hin) as [_ Hround].
  assert (gc_at depth sds p ≤ gc_at depth sds k) by (apply (gc_at_le _ _ _ Hsq); apply in_commit_lt in Hin; lia).
  assert (cs_gc_round (certifier_state t) < vb_round b) as Hr by lia.
  destruct (get_reject_votes_spec ctx added t outs (reference b) Hc Hrun Hr) as [Hv Hs]. unfold votes_of.
  pose proof (ci_present _ _ _ _ _ _ (cert_run_inv ctx Hc _ _ _ Hrun) b (co_added _ _ _ Hk b Hb) Hr) as Hp.
  apply bind_Some in Hp as (vi & Hvi & _).
  assert (is_Some (get_reject_votes t (reference b))) as [l Hl] by (unfold get_reject_votes; rewrite Hvi; simpl; eauto).
  rewrite Hl in *. simpl in *. split; [done|]. split; [|done].
  by apply sorted_lt_nodup.
Qed.

(** ** Steps *)

Definition committed_added (added : list VerifiedBlock) (n : nat) : Prop :=
  ∀ m b, (m < n)%nat → in_commit sds m b → b ∈ added.

Context (Hdepth : 2 ≤ depth).

(** A commit three rounds below a processed one: the committed blocks are evidence. *)
Lemma remote_evidence added k j r :
  first_deep sds k j → committed_added added (S j) → margin depth sds k r → evidence c G sds added k r.
Proof.
  intros Hj Hadd Hm. pose proof Hj as ([Hkj Hlen] & _ & Hno).
  destruct (lookup_lt_is_Some_2 sds k ltac:(lia)) as [sd Hk]. destruct (lookup_lt_is_Some_2 sds j Hlen) as [sd' Hj'].
  destruct (sq_leader _ _ _ Hsq k sd Hk) as (L & HL & HLr).
  destruct (sq_leader _ _ _ Hsq j sd' Hj') as (A & HA & HAr).
  destruct (Hanchored k j sd sd' L Hj Hk Hj' HL HLr) as (C & HC & HCr & Hcert & Hrtc).
  pose proof (window_gc _ _ _ Hsq Hdepth k j j ltac:(lia) ltac:(lia) Hno) as Hgc. unfold margin in Hm.
  exists L. split; [by exists sd|]. split; [rewrite (round_at_lookup sds k sd Hk), <- HLr; done|]. split.
  { intros b (sd0 & Hsd0 & Hb). rewrite HLr. apply (sq_history _ _ _ Hsq k sd b Hk). congruence. }
  right. exists C. split.
  - do 3 (split; [done|]). intros b Hb Hbh Hbr.
    destruct (committed_history _ _ _ Hsq c byz HG j A (reference b)) as (m & b' & Hm' & Hb' & Href).
    { by exists sd'. } { rewrite HAr. by etrans. } { simpl. lia. }
    replace b with b'; [apply (Hadd m); [lia|done]|].
    apply (sq_blocks _ _ _ Hsq) in Hb' as [Hb' _]. unfold block_in in *. rewrite Href in Hb'. congruence.
  - intros j2 sd2 Hj2 Hsd2. rewrite (first_deep_unique sds k j2 j Hj2 Hj) in Hsd2. by simplify_eq.
Qed.

Lemma direct_step added p t k cs :
  certifier_ok added p t → commit_ok added k cs → (p ≤ k)%nat → waiting_ok added k cs →
  (∀ r, r ∈ refs (blocks_of cs) → margin depth sds k r → evidence c G sds added k r) →
  ∃ cs', try_direct_finalize_commit c t cs = Ret cs' ∧ cst_commit cs' = cst_commit cs ∧ treated_ok added k cs'.
Proof.
  intros Ht Hk Hpk [Hpb Hne Hpt Hrt _] Hev.
  destruct (direct_commit_spec c t cs (votes_of t) Hne Hpt Hrt) as (cs' & Hrun & Hcm & Hpb' & Hwf & Hp & Hr).
  { intros r Hin%Hpb. by apply (certifier_votes added p t k cs). }
  exists cs'. split; [done|]. split; [done|]. split; [done|done| | |]; rewrite Hcm.
  - intros r i (Hin%Hpb & s & Hs & _)%Hp. split; [done|].
    destruct (certifier_votes added p t k cs r Ht Hk Hpk Hin) as (_ & _ & Hv). by apply Hv in Hs as [? _].
  - intros r i (Hin%Hpb & s & Hs & Hq)%Hr. split; [done|]. left.
    destruct (certifier_votes added p t k cs r Ht Hk Hpk Hin) as (_ & _ & Hv). apply Hv in Hs as [_ ->].
    by apply bool_decide_eq_true.
  - intros r i Hin Hm Hnp Hnr. left. exists added. split; [done|]. split; [auto|].
    destruct (certifier_votes added p t k cs r Ht Hk Hpk Hin) as (_ & _ & Hv).
    destruct (decide (rejecters added r i = ∅)) as [|He]; [done|]. exfalso.
    pose proof (proj2 (Hv i _) (conj He eq_refl)) as Hs. apply Hpb in Hin.
    destruct (N.lt_ge_cases (weight c (rejecters added r i)) (committee_quorum_threshold c)).
    + apply Hnp, Hp. eauto.
    + apply Hnr, Hr. eauto.
Qed.

(** The commits in a part of the buffer, starting with number [p]. *)
Definition commits_ok (added : list VerifiedBlock) (p : nat) (commits : list CommitState) : Prop :=
  ∀ i cs, commits !! i = Some cs → commit_ok added (p + i) cs.

Lemma commits_ok_cons added p cs commits :
  commits_ok added p (cs :: commits) ↔ commit_ok added p cs ∧ commits_ok added (S p) commits.
Proof.
  unfold commits_ok. split.
  - intros Hok. split; [by specialize (Hok O cs eq_refl) as ?; rewrite Nat.add_0_r in * |].
    intros i cs' Hi. specialize (Hok (S i) cs' Hi). by rewrite Nat.add_succ_r in Hok.
  - intros [Hcs Hok] [|i] cs' Hi; simpl in Hi; [by simplify_eq; rewrite Nat.add_0_r|].
    rewrite Nat.add_succ_r. by apply (Hok i).
Qed.

Lemma commits_ok_app added p l k :
  commits_ok added p (l ++ k) ↔ commits_ok added p l ∧ commits_ok added (p + length l) k.
Proof.
  revert p. induction l as [|cs l IH]; intros p; simpl.
  { rewrite Nat.add_0_r. split; [|tauto]. intros H. split; [|done]. intros i cs Hi. done. }
  rewrite !commits_ok_cons, IH, Nat.add_succ_r. tauto.
Qed.

(** Commits that the direct loop must have treated: those three rounds below the last. *)
Definition deep_treated (added : list VerifiedBlock) (p j : nat) (commits : list CommitState) : Prop :=
  ∀ i cs, commits !! i = Some cs → round_at sds (p + i) + 3 ≤ round_at sds j → treated_ok added (p + i) cs.

Lemma deep_treated_cons added p j cs commits :
  deep_treated added p j (cs :: commits) ↔
  (round_at sds p + 3 ≤ round_at sds j → treated_ok added p cs) ∧ deep_treated added (S p) j commits.
Proof.
  unfold deep_treated. split.
  - intros Hok. split; [intros Hd; specialize (Hok O cs eq_refl) as Ho; rewrite Nat.add_0_r in Ho; auto|].
    intros i cs' Hi. specialize (Hok (S i) cs' Hi). by rewrite Nat.add_succ_r in Hok.
  - intros [Hcs Hok] [|i] cs' Hi; simpl in Hi; [simplify_eq; rewrite Nat.add_0_r; auto|].
    rewrite Nat.add_succ_r. by apply (Hok i).
Qed.

Lemma direct_loop added p t j commits : ∀ q,
  certifier_ok added p t → commits_ok added q commits → (p ≤ q)%nat → (q + length commits = S j)%nat →
  (j < length sds)%nat → committed_added added (S j) →
  (∀ k, (q ≤ k ≤ j)%nat → round_at sds k + 3 ≤ round_at sds j → first_deep sds k j) →
  ∃ commits', direct_finalize_loop c t (round_at sds j) commits = Ret commits' ∧
    length commits' = length commits ∧ commits_ok added q commits' ∧ deep_treated added q j commits'.
Proof.
  induction commits as [|cs commits IH]; intros q Ht Hok Hpq Hlen Hj Hadd Hdeep.
  { exists []. do 3 (split; [done|]). intros i cs Hi. done. }
  apply commits_ok_cons in Hok as [Hcs Hok]. simpl in Hlen.
  destruct (IH (S q)) as (rest & Hrun & Hl & Hok' & Hdt); try done; [lia|lia|intros k Hk; apply Hdeep; lia|].
  cbn [direct_finalize_loop]. pose proof (commit_round _ _ _ Hcs) as Hround. pose proof (Hsmall q) as Hsm.
  destruct (co_state _ _ _ Hcs) as [Hw|Htr].
  - rewrite bool_decide_eq_false_2 by apply (wk_nonempty _ _ _ Hw). rewrite Hround, u32_add_small by (change DEFAULT_WAVE_LENGTH with 3; lia).
    change DEFAULT_WAVE_LENGTH with 3.
    assert (∀ r, sd_decided_with_local_blocks (cst_commit cs) = true ∨ round_at sds q + 3 ≤ round_at sds j →
      r ∈ refs (blocks_of cs) → margin depth sds q r → evidence c G sds added q r) as Hev.
    { intros r [Hl'|Hd] Hr Hm; [by apply (wk_local _ _ _ Hw)|]. apply (remote_evidence added q j); [apply Hdeep; [lia|done]|done|done]. }
    destruct (negb _ && _) eqn:Hstop.
    + apply andb_true_iff in Hstop as [_ Hlt%N.ltb_lt]. exists (cs :: commits). split; [done|]. split; [done|].
      split; [by apply commits_ok_cons|]. intros i cs' Hi Hd. exfalso.
      apply lookup_lt_Some in Hi. simpl in Hi.
      assert (round_at sds q ≤ round_at sds (q + i)); [|lia]. apply (round_at_le _ _ _ Hsq). lia.
    + destruct (direct_step added p t q cs Ht Hcs Hpq Hw) as (cs' & Hstep & Hcm & Htr).
      { intros r. apply Hev. apply andb_false_iff in Hstop as [Hn|Hlt%N.ltb_ge]; [left; by apply negb_false_iff|by right]. }
      rewrite Hstep. cbn [mbind outcome_bind]. rewrite Hrun. cbn [mbind outcome_bind]. exists (cs' :: rest).
      split; [done|]. split; [simpl; by rewrite Hl|]. split; [|by apply deep_treated_cons].
      apply commits_ok_cons. split; [|done]. destruct Hcs as [H1 _ H3]. split; rewrite ?Hcm; [done|by right|done].
  - rewrite bool_decide_eq_true_2 by apply Htr. rewrite Hrun. cbn [mbind outcome_bind]. exists (cs :: rest).
    split; [done|]. split; [simpl; by rewrite Hl|]. split; [by apply commits_ok_cons|by apply deep_treated_cons].
Qed.

Lemma first_step added p t k j M cs :
  certifier_ok added p t → commit_ok added k cs → treated_ok added k cs → (p ≤ k < j)%nat → (j < length sds)%nat →
  blocks_ok (window sds k j) (window sds k j) M → committed_added added (S j) →
  (∀ m, (k < m < j)%nat → round_at sds m < round_at sds k + 3) →
  ∃ cs', try_indirect_finalize_first_commit c t M (round_at sds j) cs = Ret cs' ∧ cst_commit cs' = cst_commit cs ∧
    treated_ok added k cs' ∧ (round_at sds k + 3 ≤ round_at sds j → pending_transactions cs' = ∅).
Proof.
  intros Ht Hk [Htb Hwf Hp Hr Hf] Hkj Hj HM Hadd Hno.
  assert (∀ r, is_Some (pending_transactions cs !! r) → r ∈ refs (blocks_of cs)) as Hpr.
  { intros r [X HX]. destruct (set_choose_L X) as [i Hi]; [by apply (Hwf r)|]. apply (Hp r i). unfold pends. by rewrite HX. }
  assert (∀ r i, pends cs r i → r ∈ refs (blocks_of cs)) as Hpi by (intros r i ?%Hp; tauto).
  destruct (first_commit_spec c t (window sds k j) M (round_at sds j) cs (votes_of t) Hc HM)
    as (cs' & Hrun & [Hcm Hpb] & Hwf' & Hp' & Hr' & Hdec); try done.
  { intros b (m & Hm & Hb)%elem_of_window. apply (ck_valid _ _ _ Ht), (Hadd m); [lia|done]. }
  { intros r Hin%Hpr. destruct (certifier_votes added p t k cs r Ht Hk ltac:(lia) Hin) as (? & ? & _).
    split; [|done]. apply list_elem_of_fmap in Hin as (b & -> & Hb%(commit_in _ _ _ _ Hk)).
    apply list_elem_of_fmap_2, elem_of_window. exists k. split; [lia|done]. }
  { intros r i Hi. destruct (Hp r i Hi) as [Hin Hne].
    destruct (certifier_votes added p t k cs r Ht Hk ltac:(lia) Hin) as (_ & _ & Hv).
    apply list_elem_of_fmap. exists (i, weight c (rejecters added r i)). split; [done|]. by apply Hv. }
  rewrite (commit_round _ _ _ Hk), u32_add_small in Hp', Hr' by (change INDIRECT_REJECT_DEPTH with 3; apply Hsmall).
  change INDIRECT_REJECT_DEPTH with 3 in *.
  assert (∀ r i, pends cs r i → (∃ s, (i, s) ∈ votes_of t r ∧ committee_quorum_threshold c ≤ s) →
    reached_quorum c (weight c (rejecters added r i)) = true) as Hout.
  { intros r i [Hin _]%Hp (s & Hs & Hq). destruct (certifier_votes added p t k cs r Ht Hk ltac:(lia) Hin) as (_ & _ & Hv).
    apply Hv in Hs as [_ ->]. by apply bool_decide_eq_true. }
  exists cs'. split; [done|]. split; [done|]. split; [split|]; rewrite ?Hcm; try done; [congruence| | | |].
  - intros r i [Hi _]%Hp'. by apply Hp.
  - intros r i [Hi|[Hi Hwhy]]%Hr'; [by apply Hr|]. split; [by eapply Hpi|].
    destruct Hwhy as [Hov|(_ & Hacc & Hd)]; [left; auto|right]. exists j. split; [|done]. split; [lia|done].
  - intros r i Hin Hm Hnp Hnr. destruct (decide (pends cs r i)) as [Hi|Hni].
    2:{ apply Hf; [done|done|done|]. intros Hrej. apply Hnr, Hr'. by left. }
    assert (¬ ∃ s, (i, s) ∈ votes_of t r ∧ committee_quorum_threshold c ≤ s) as Hnov by (intros Hov; apply Hnr, Hr'; auto).
    right. exists j. split; [lia|]. split; [done|]. destruct (Hdec r i Hi) as [|[|Hacc]]; [done|done|]. exfalso.
    destruct (decide (round_at sds k + 3 ≤ round_at sds j)) as [Hd|Hd]; [apply Hnr, Hr'|apply Hnp, Hp']; tauto.
  - intros Hd. apply (pends_none cs' Hwf'). intros r i (_ & _ & _ & ?)%Hp'. done.
Qed.

(** ** Popping commits *)

Lemma no_forward_link m m' b b' :
  in_commit sds m b → in_commit sds m' b' → (m < m')%nat → reference b' ∉ vb_ancestors b.
Proof.
  intros Hb Hb' Hlt Ha. pose proof (sq_blocks _ _ _ Hsq m' b' Hb') as [_ Hgc].
  assert (gc_at depth sds m ≤ gc_at depth sds m') by (apply (gc_at_le _ _ _ Hsq); apply in_commit_lt in Hb'; lia).
  destruct (sq_closed _ _ _ Hsq m b _ Hb Ha) as (i & b'' & Hi & Hin & Href); [simpl; lia|].
  destruct (in_commit_unique _ _ _ Hsq i m' b'' b' Hin Hb' Href). lia.
Qed.

(** The blocks of the commits from [p] to before [n]. *)
Definition buffer (p n : nat) : list VerifiedBlock := drop p (take n sds) ≫= sd_blocks.

Lemma buffer_window p j : buffer p (S j) = window sds p j.
Proof. done. Qed.

Lemma elem_of_buffer p n b : b ∈ buffer p n ↔ ∃ m, (p ≤ m < n)%nat ∧ in_commit sds m b.
Proof.
  destruct n as [|j].
  - unfold buffer. rewrite take_0, drop_nil. simpl. rewrite elem_of_nil. split; [done|]. intros (m & ? & _). lia.
  - rewrite buffer_window, elem_of_window. split; intros (m & ? & ?); exists m; (split; [lia|done]).
Qed.

Lemma buffer_cons p n sd : sds !! p = Some sd → (p < n)%nat → buffer p n = sd_blocks sd ++ buffer (S p) n.
Proof.
  intros Hp Hn. unfold buffer. rewrite (drop_S _ sd p); [by rewrite bind_cons|]. apply lookup_take_Some. done.
Qed.

Lemma buffer_nodup p n : NoDup (refs (buffer p n)).
Proof.
  destruct n as [|j]; [unfold buffer; rewrite take_0, drop_nil; constructor|].
  apply window_nodup, (sq_nodup _ _ _ Hsq).
Qed.

Lemma delete_commits_ok added p n popped M :
  commits_ok added p popped → (p + length popped ≤ n)%nat → blocks_ok (buffer p n) (buffer p n) M →
  let M' := foldl (λ m cs, foldl (λ m b, delete (reference b) m) m (blocks_of cs)) M popped in
  blocks_ok (buffer (p + length popped) n) (buffer (p + length popped) n) M'.
Proof.
  revert p M. induction popped as [|cs popped IH]; intros p M Hok Hn HM; simpl in *; [by rewrite Nat.add_0_r|].
  apply commits_ok_cons in Hok as [[(sd & Hsd & (_ & Hbl & _)%delivers_fields) _ _] Hok].
  rewrite Nat.add_succ_r. apply (IH (S p)); [done|lia|].
  rewrite (buffer_cons p n sd Hsd ltac:(lia)) in HM. rewrite Hbl. apply delete_blocks_ok; [done| |].
  - intros b b' Hb (m & Hm & Hb')%elem_of_buffer. apply (no_forward_link p m); [by exists sd|done|lia].
  - rewrite <- (buffer_cons p n sd Hsd ltac:(lia)). apply buffer_nodup.
Qed.

Lemma blocks_ok_nil M : blocks_ok [] [] M → M = ∅.
Proof.
  intros [Hst _ _ _ _]. apply map_empty. intros r. destruct (M !! r) as [bs|] eqn:Hr; [|done].
  destruct (Hst r bs Hr) as [Hin _ _ _ _]. by apply elem_of_nil in Hin.
Qed.

Definition final_ok (added : list VerifiedBlock) (k : nat) (o : CommittedSubDag) : Prop :=
  ∃ cs, o = finalized_commit cs ∧ commit_ok added k cs ∧ commit_done cs.

Lemma popped_final added p popped :
  commits_ok added p popped → (∀ cs, cs ∈ popped → commit_done cs) →
  ∀ i o, (finalized_commit <$> popped) !! i = Some o → final_ok added (p + i) o.
Proof.
  intros Hok Hdone i o Hi. apply list_lookup_fmap_Some in Hi as (cs & -> & Hi). exists cs. split; [done|].
  split; [by apply Hok|]. apply Hdone. by eapply list_elem_of_lookup_2.
Qed.

(** What a phase of popping leaves: the popped commits are final, the others are as before. *)
Record popped_to (added : list VerifiedBlock) (p j : nat) (total : nat) (popped : list CommittedSubDag)
    (rest : list CommitState) (M : gmap BlockRef BlockState) : Prop := {
  pt_len : (length popped + length rest = total)%nat;
  pt_final : ∀ i o, popped !! i = Some o → final_ok added (p + i) o;
  pt_commits : commits_ok added (p + length popped) rest;
  pt_blocks : blocks_ok (buffer (p + length popped) (S j)) (buffer (p + length popped) (S j)) M;
  pt_deep : deep_treated added (p + length popped) j rest;
}.

Lemma deep_treated_drop added p j l k : deep_treated added p j (l ++ k) → deep_treated added (p + length l) j k.
Proof.
  revert p. induction l as [|cs l IH]; intros p; simpl; [by rewrite Nat.add_0_r|].
  intros [_ H]%deep_treated_cons. rewrite Nat.add_succ_r. by apply (IH (S p)).
Qed.

Lemma pop_step added p j commits M :
  commits_ok added p commits → deep_treated added p j commits → (p + length commits = S j)%nat →
  blocks_ok (buffer p (S j)) (buffer p (S j)) M →
  ∃ popped rest M', pop_finalized_commits commits M = (rest, M', popped) ∧
    popped_to added p j (length commits) popped rest M' ∧
    (∀ cs, head rest = Some cs → ¬ commit_done cs) ∧
    (popped = [] → rest = commits).
Proof.
  intros Hok Hd Hlen HM. destruct (pop_finalized_spec commits M) as (popped & rest & -> & Hrun & Hdone & Hhead).
  rewrite length_app in Hlen. apply commits_ok_app in Hok as [Hok1 Hok2]. apply deep_treated_drop in Hd.
  eexists _, _, _. split; [exact Hrun|]. split; [split|split; [done|]]; rewrite ?length_fmap; try done.
  - by rewrite length_app.
  - by apply popped_final.
  - by apply delete_commits_ok with added; [| lia|].
  - by intros ->%fmap_nil_inv.
Qed.

Lemma indirect_loop added p0 t j : (j < length sds)%nat → certifier_ok added p0 t → committed_added added (S j) →
  ∀ fuel p commits M acc,
  (p0 ≤ p)%nat → (length commits ≤ fuel)%nat → (p + length commits = S j)%nat →
  (∀ k, (p ≤ k)%nat → ∀ m, (k < m < j)%nat → round_at sds m < round_at sds k + 3) →
  commits_ok added p commits → deep_treated added p j commits → blocks_ok (buffer p (S j)) (buffer p (S j)) M →
  ∃ popped rest M', indirect_finalize_loop fuel c t (round_at sds j) commits M acc = Ret (rest, M', acc ++ popped) ∧
    popped_to added p j (length commits) popped rest M' ∧
    (rest ≠ [] → round_at sds j < round_at sds (p + length popped) + 3).
Proof.
  intros Hj Ht Hadd. induction fuel as [|fuel IH]; intros p commits M acc Hp Hfuel Hlen Hno Hok Hd HM.
  all: assert ((commits ≠ [] → round_at sds j < round_at sds p + 3) → ∃ popped rest M',
    Ret (commits, M, acc) = Ret (rest, M', acc ++ popped) ∧ popped_to added p j (length commits) popped rest M' ∧
    (rest ≠ [] → round_at sds j < round_at sds (p + length popped) + 3)) as Hstay.
  1,3: intros Hlast; exists [], commits, M; rewrite app_nil_r; split; [done|]; rewrite Nat.add_0_r;
    split; [split; simpl; rewrite ?Nat.add_0_r; done|done].
  { destruct commits; [|simpl in Hfuel; lia]. by apply Hstay. }
  destruct commits as [|cs [|cs2 commits]]; [by apply Hstay|apply Hstay; intros _; simpl in Hlen; replace p with j by lia; lia|].
  cbn [indirect_finalize_loop]. apply commits_ok_cons in Hok as [Hcs Hok]. apply deep_treated_cons in Hd as [Hd1 Hd].
  destruct (co_state _ _ _ Hcs) as [Hw|Htr].
  { rewrite bool_decide_eq_false_2 by apply (wk_nonempty _ _ _ Hw). cbn [negb]. apply Hstay. intros _.
    destruct (N.lt_ge_cases (round_at sds j) (round_at sds p + 3)) as [|Hge]; [done|]. exfalso.
    apply (wk_nonempty _ _ _ Hw), (tk_blocks _ _ _ (Hd1 Hge)). }
  rewrite bool_decide_eq_true_2 by apply Htr. cbn [negb]. simpl in Hlen.
  destruct (first_step added p0 t p j M cs Ht Hcs Htr) as (cs' & -> & Hcm & Htr' & Hdone); try done; [lia|by apply Hno|].
  cbn [mbind outcome_bind tail].
  assert (commits_ok added p (cs' :: cs2 :: commits)) as Hok'.
  { apply commits_ok_cons. split; [|done]. destruct Hcs as [H1 _ H3]. split; rewrite ?Hcm; [done|by right|done]. }
  destruct (pop_step added p j (cs' :: cs2 :: commits) M Hok') as (popped & rest & M' & -> & Hpt & Hhead & Hnil); try done;
    [by apply deep_treated_cons|].
  destruct popped as [|o popped].
  - exists [], rest, M'. rewrite app_nil_r, Nat.add_0_r. split; [done|]. split; [done|]. intros _.
    rewrite (Hnil eq_refl) in Hhead. specialize (Hhead cs' eq_refl).
    destruct (N.lt_ge_cases (round_at sds j) (round_at sds p + 3)) as [|Hge]; [done|]. exfalso. apply Hhead.
    split; [apply Htr'|by apply Hdone].
  - destruct Hpt as [Hl Hfin Hrest HM' Hd']. simpl length in Hl, Hrest, HM', Hd'.
    destruct (IH (p + S (length popped))%nat rest M' (acc ++ o :: popped)) as (popped2 & rest2 & M2 & -> & [Hl2 Hfin2 Hok2 HM2 Hd2] & Hlast);
      try done; [lia|simpl in *; lia|simpl in *; lia|intros k Hk; apply Hno; lia|].
    exists ((o :: popped) ++ popped2), rest2, M2. rewrite <- app_assoc. split; [done|].
    assert (p + length ((o :: popped) ++ popped2) = p + S (length popped) + length popped2)%nat as Hpos
      by (rewrite length_app; simpl; lia).
    split; [split|]; rewrite ?Hpos; try done.
    + rewrite length_app. simpl in *. lia.
    + intros i o' Hi. apply lookup_app_Some in Hi as [Hi|[Hge Hi]]; [by apply Hfin|].
      specialize (Hfin2 _ _ Hi). simpl in Hge. replace (p + S (length popped) + (i - length (o :: popped)))%nat with (p + i)%nat in Hfin2
        by (simpl; lia). done.
Qed.

(** ** Processing a commit *)

Record fin_inv (added : list VerifiedBlock) (n : nat) (outs : list CommittedSubDag) (f : CommitFinalizer)
    (t : TransactionCertifier) : Prop := {
  fv_context : cf_context f = ctx;
  fv_certifier : certifier_ok added (length outs) t;
  fv_last : last_processed_commit f = match n with O => None | S _ => Some (N.of_nat n) end;
  fv_len : (length outs + length (pending_commits f) = n)%nat;
  fv_bound : (n ≤ length sds)%nat;
  fv_commits : commits_ok added (length outs) (pending_commits f);
  fv_blocks : blocks_ok (buffer (length outs) n) (buffer (length outs) n) (cf_blocks f);
  fv_outs : ∀ k o, outs !! k = Some o → final_ok added k o;
  fv_recent : ∀ m, (length outs < n)%nat → (m < n)%nat → round_at sds m < round_at sds (length outs) + 3;
  fv_added : committed_added added n;
}.

(** What a node has when it hands commit [n] to its finalizer: the blocks of the commit were
    processed by the certifier; a commit that it decided itself comes with the certificates
    of its leader; the commit is recorded in the DAG state. *)
Record ready_for {T} `{Store T} (added : list VerifiedBlock) (n : nat) (d : DagState T) (cd : CommittedSubDag) : Prop := {
  rf_commit : ∃ sd, sds !! n = Some sd ∧ delivers sd cd;
  rf_added : ∀ b, b ∈ sd_blocks cd → b ∈ added;
  rf_local : sd_decided_with_local_blocks cd = true → ∀ r, r ∈ refs (sd_blocks cd) → evidence c G sds added n r;
  rf_depth : gc_depth (protocol_config (ds_context d)) = depth;
  rf_recorded : round_at sds n ≤ last_commit_round d;
}.

Lemma collect_map_dom {A} (f : VerifiedBlock → A) l r :
  is_Some (collect_map ((λ b, (reference b, f b)) <$> l) !! r) ↔ r ∈ refs l.
Proof.
  induction l as [|b l IH] using rev_ind; [by simpl; rewrite elem_of_nil, is_Some_alt|].
  rewrite !fmap_app. simpl. rewrite collect_map_app, elem_of_app, list_elem_of_singleton. simpl.
  destruct (decide (reference b = r)) as [->|Hne]; [rewrite lookup_insert_eq; naive_solver|].
  rewrite lookup_insert_ne by done. rewrite IH. naive_solver.
Qed.

Lemma new_commit {T} `{Store T} added n (d : DagState T) cd :
  ready_for added n d cd → ∃ cs, CommitState_new cd = Ret cs ∧ cst_commit cs = cd ∧ commit_ok added n cs.
Proof.
  intros [(sd & Hsd & Hdel) Hadd Hloc _ _]. unfold CommitState_new.
  set (pending := collect_map _).
  assert (∀ r, is_Some (pending !! r) ↔ r ∈ refs (sd_blocks cd)) as Hdom by apply collect_map_dom.
  assert (pending ≠ ∅) as Hne.
  { destruct (sq_leader _ _ _ Hsq n sd Hsd) as (L & HL & _). destruct (delivers_fields _ _ Hdel) as (_ & Hb & _).
    intros He. assert (is_Some (pending !! reference L)) as [x Hx]; [|by rewrite He, lookup_empty in Hx].
    apply Hdom. rewrite Hb. by apply list_elem_of_fmap_2. }
  rewrite bool_decide_eq_false_2 by done. cbn [negb assert_that mbind outcome_bind].
  eexists. split; [done|]. split; [done|]. split; [by exists sd| |done]. left. by split.
Qed.

Lemma index_le_round k : (k < length sds)%nat → N.of_nat k ≤ round_at sds k.
Proof.
  induction k as [|k IH]; intros Hk; [lia|]. pose proof (sq_rounds _ _ _ Hsq k (S k) ltac:(lia)). specialize (IH ltac:(lia)). lia.
Qed.

Lemma link_step added p n sd cd M :
  committed_added added n → sds !! n = Some sd → delivers sd cd → (p ≤ n)%nat →
  blocks_ok (buffer p n) (buffer p n) M →
  ∃ M', append_origin_descendants (link_blocks M cd) cd = Ret M' ∧ blocks_ok (buffer p (S n)) (buffer p (S n)) M'.
Proof.
  intros Hadd Hsd (_ & Hbl & _)%delivers_fields Hpn HM.
  assert (buffer p (S n) = buffer p n ++ sd_blocks cd) as Hbuf.
  { unfold buffer. rewrite (take_S_r _ _ sd Hsd), drop_app_le by (rewrite length_take; apply lookup_lt_Some in Hsd; lia).
    rewrite bind_app. simpl. by rewrite app_nil_r, Hbl. }
  rewrite Hbuf. apply link_commit_ok; [done|rewrite <- Hbuf; apply buffer_nodup| |].
  - rewrite Hbl. intros b Hb. assert (in_commit sds n b) as Hin by (by exists sd).
    destruct (sq_blocks _ _ _ Hsq n b Hin) as [HbG Hr]. split; [|intros a; by apply (bft_ancestor_round c byz G HG b)].
    pose proof (bft_parents _ _ _ HG b HbG ltac:(lia)) as Hq. intros He. unfold quorum_parents in Hq. rewrite He in Hq.
    destruct (quorum_nonempty c byz G HG _ Hq) as [a Ha]. simpl in Ha. by apply not_elem_of_empty in Ha.
  - rewrite Hbl. intros b b' Hb (m & Hm & Hb')%elem_of_buffer. apply (no_forward_link m n); [done|by exists sd|lia].
Qed.

(** The certifier is garbage collected up to the last commit that left the buffer. *)
Lemma certifier_gc_step {T} `{Store T} added n (d : DagState T) cd p t finalized :
  ready_for added n d cd → certifier_ok added p t → (p + length finalized ≤ S n)%nat →
  (∀ i o, finalized !! i = Some o → final_ok added (p + i) o) →
  ∃ t', match last finalized with
        | Some last_commit => run_gc t d (calculate_gc_round d (br_round (sd_leader last_commit)))
        | None => Ret t
        end = Ret t' ∧ certifier_ok added (p + length finalized) t'.
Proof.
  intros [(sd & Hsd & _) _ _ Hdep Hrec] [[outs Hrun] Hgc Hval] Hn Hfin. apply lookup_lt_Some in Hsd.
  destruct (last finalized) as [o|] eqn:Hlast.
  2:{ apply last_None in Hlast as ->. exists t. split; [done|]. rewrite Nat.add_0_r. split; eauto. }
  pose proof Hlast as Hl. rewrite last_lookup in Hl. pose proof (lookup_lt_Some _ _ _ Hl) as Hpos.
  destruct (Hfin _ _ Hl) as (cs & -> & Hcs & _). set (q := (p + pred (length finalized))%nat) in *.
  assert (p + length finalized = S q)%nat as Hq by lia. rewrite Hq in *.
  change (sd_leader (finalized_commit cs)) with (sd_leader (cst_commit cs)).
  unfold run_gc, dag_gc_round, calculate_gc_round, saturating_sub. rewrite Hdep, (commit_round _ _ _ Hcs).
  assert (round_at sds q ≤ round_at sds n) by (apply (round_at_le _ _ _ Hsq); lia).
  destruct (N.leb_spec (round_at sds q - depth) (last_commit_round d - depth)) as [_|]; [|lia].
  cbn [assert_that mbind outcome_bind]. eexists. split; [done|]. split; [|simpl; by rewrite gc_at_S|done].
  exists outs. apply run_update_gc; [done|]. etrans; [exact Hgc|]. rewrite <- gc_at_S. apply (gc_at_le _ _ _ Hsq). lia.
Qed.

(** The commits that the direct phase removes: when all leave, no block stays. *)
Lemma direct_pop added p n commits M :
  commits_ok added p commits → deep_treated added p n commits → (p + length commits = S n)%nat → (p ≤ n)%nat →
  blocks_ok (buffer p n) (buffer p n) M →
  ∃ popped rest M', pop_finalized_commits commits M = (rest, M', popped) ∧
    (length popped + length rest = length commits)%nat ∧
    (∀ i o, popped !! i = Some o → final_ok added (p + i) o) ∧
    commits_ok added (p + length popped) rest ∧ deep_treated added (p + length popped) n rest ∧
    match rest with
    | [] => M' = ∅
    | _ => blocks_ok (buffer (p + length popped) n) (buffer (p + length popped) n) M'
    end.
Proof.
  intros Hok Hd Hlen Hpn HM. destruct (pop_finalized_spec commits M) as (popped & rest & -> & Hrun & Hdone & _).
  rewrite length_app in Hlen. apply commits_ok_app in Hok as [Hok1 Hok2]. apply deep_treated_drop in Hd.
  eexists _, _, _. split; [exact Hrun|]. rewrite length_fmap, length_app. split; [done|].
  split; [by apply popped_final|]. split; [done|]. split; [done|].
  destruct rest as [|cs rest]; [|simpl in Hlen; apply delete_commits_ok with added; [done|lia|done]].
  destruct (exists_last (l := popped)) as (init & cs & ->); [intros ->; simpl in *; lia|].
  rewrite length_app in Hlen. simpl in Hlen. apply commits_ok_app in Hok1 as [Hok1 _].
  rewrite foldl_app. simpl.
  pose proof (delete_commits_ok added p n init M Hok1 ltac:(lia) HM) as HM1. simpl in HM1.
  replace (buffer (p + length init) n) with (@nil VerifiedBlock) in HM1.
  2:{ symmetry. unfold buffer. rewrite drop_ge; [done|]. rewrite length_take. lia. }
  rewrite (blocks_ok_nil _ HM1). apply map_empty. intros r. rewrite delete_blocks_lookup, lookup_empty. by destruct (decide _).
Qed.

Lemma process_step {T} `{Store T} added n outs f t (d : DagState T) cd :
  fin_inv added n outs f t → ready_for added n d cd →
  ∃ f' t' out, process_commit f t d cd = Ret (f', t', out) ∧ fin_inv added (S n) (outs ++ out) f' t'.
Proof.
  intros [Hctx Ht Hlast Hlen Hbound Hok HM Houts Hrec Hadd] Hrf. unfold process_commit. rewrite Hctx. fold c.
  pose proof Hrf as [(sd & Hsd & Hdel) Hrfa _ _ _]. destruct (delivers_fields _ _ Hdel) as (Hlead & Hbl & Hcr & _).
  pose proof (lookup_lt_Some _ _ _ Hsd) as Hn. pose proof (index_le_round n Hn) as Hidx. pose proof (Hsmall n) as Hsm.
  assert (cr_index (sd_commit_ref cd) = N.of_nat n + 1) as Hcri by (rewrite Hcr; by apply (sq_index _ _ _ Hsq)).
  assert ((match last_processed_commit f with
           | Some last => assert_that (u32_add last 1 =? cr_index (sd_commit_ref cd)) | None => Ret tt end) = Ret tt) as ->.
  { rewrite Hlast, Hcri. destruct n as [|n']; [done|]. rewrite u32_add_small by lia. by rewrite N.eqb_refl. }
  cbn [mbind outcome_bind]. destruct (new_commit added n d cd Hrf) as (cs & -> & Hcs & Hcsok). cbn [mbind outcome_bind].
  rewrite Hlead, <- (round_at_lookup sds n sd Hsd). set (p := length outs) in *.
  assert (committed_added added (S n)) as Hadd'.
  { intros m b Hm Hb. destruct (decide (m = n)) as [->|]; [|apply (Hadd m); [lia|done]].
    destruct Hb as (sd' & Hsd' & Hb). apply Hrfa. rewrite Hbl. congruence. }
  assert (∀ k m, (p ≤ k)%nat → (k < m < n)%nat → round_at sds m < round_at sds k + 3) as Hno.
  { intros k m Hk Hm. specialize (Hrec m ltac:(lia) ltac:(lia)).
    assert (round_at sds p ≤ round_at sds k) by (apply (round_at_le _ _ _ Hsq); lia). lia. }
  destruct (direct_loop added p t n (pending_commits f ++ [cs]) p Ht) as (commits & -> & Hl & Hcok & Hdt); try done.
  { apply commits_ok_app. split; [done|]. rewrite Hlen. by apply commits_ok_cons. }
  { rewrite length_app. simpl. lia. }
  { intros k Hk Hd. assert (k ≠ n) by (intros ->; lia). split; [lia|]. split; [done|]. intros m Hm. apply Hno; lia. }
  cbn [mbind outcome_bind]. rewrite length_app in Hl. simpl in Hl.
  destruct (direct_pop added p n commits (cf_blocks f) Hcok Hdt) as (popped & rest & M1 & -> & Hl1 & Hfin1 & Hok1 & Hdt1 & HM1); [lia|lia|done|].
  assert (∃ rest' M2 finalized, (match rest with
      | [] => Ret (rest, M1, popped)
      | _ => blocks ← append_origin_descendants (link_blocks M1 cd) cd;
             indirect_finalize_loop (length rest) c t (round_at sds n) rest blocks popped
      end) = Ret (rest', M2, finalized) ∧ popped_to added p n (length commits) finalized rest' M2 ∧
      (rest' ≠ [] → round_at sds n < round_at sds (p + length finalized) + 3)) as (rest' & M2 & finalized & -> & [Hl2 Hfin2 Hok2 HM2 _] & Hlast2).
  { destruct rest as [|cs1 rest].
    - exists [], M1, popped. split; [done|]. split; [|done]. simpl in Hl1. split; try done.
      replace (buffer (p + length popped) (S n)) with (@nil VerifiedBlock); [subst M1; apply blocks_ok_empty|].
      symmetry. unfold buffer. rewrite drop_ge; [done|]. rewrite length_take. lia.
    - simpl length in *. destruct (link_step added (p + length popped) n sd cd M1) as (M' & -> & HM'); try done; [lia|].
      cbn [mbind outcome_bind].
      destruct (indirect_loop added p t n Hn Ht Hadd' (S (length rest)) (p + length popped) (cs1 :: rest) M' popped)
        as (popped2 & rest2 & M2 & -> & [Hl2 Hfin2 Hok2 HM2 Hd2] & Hlast2); try done; [lia|simpl; lia| |].
      { intros k Hk m Hm. apply Hno; lia. }
      exists rest2, M2, (popped ++ popped2). split; [done|]. rewrite length_app, Nat.add_assoc. split; [|done].
      split; rewrite ?length_app, ?Nat.add_assoc; try done; [simpl in Hl2; lia|].
      intros i o Hi. apply lookup_app_Some in Hi as [Hi|[Hge Hi]]; [by apply Hfin1|].
      specialize (Hfin2 _ _ Hi). replace (p + length popped + (i - length popped))%nat with (p + i)%nat in Hfin2 by lia. done. }
  cbn [mbind outcome_bind].
  destruct (certifier_gc_step added n d cd p t finalized Hrf Ht) as (t' & -> & Ht'); [lia|done|]. cbn [mbind outcome_bind].
  eexists _, t', finalized. split; [done|].
  split; rewrite ?length_app; fold p; simpl; try done; [by rewrite Hcri; f_equal; lia|lia| |].
  - intros k o Hk. apply lookup_app_Some in Hk as [Hk|[Hge Hk]]; [by apply Houts|].
    specialize (Hfin2 _ _ Hk). fold p in Hge, Hfin2. replace (p + (k - p))%nat with k in Hfin2 by lia. done.
  - intros m Hp' Hm. assert (round_at sds m ≤ round_at sds n) by (apply (round_at_le _ _ _ Hsq); lia).
    assert (rest' ≠ []) as Hne by (intros ->; simpl in *; lia). specialize (Hlast2 Hne). lia.
Qed.
End Node.

(** * Histories of a node *)

(** A node adds blocks to its certifier, blocks of its own included, and hands the commits to
    its finalizer, in any interleaving: the blocks added, the number of commits processed and
    the commits output. *)
Inductive fin_run {T} `{Store T} (ctx : Context) (G : universe) (sds : list CommittedSubDag) :
    list VerifiedBlock → nat → list CommittedSubDag → CommitFinalizer → TransactionCertifier → Prop :=
| fin_new : fin_run ctx G sds [] 0 [] (CommitFinalizer_new ctx) (TransactionCertifier_new ctx)
| fin_voted added n outs f t voted t' :
    fin_run ctx G sds added n outs f t → NoDup (reference <$> added ++ voted.*1) →
    (∀ b, b ∈ voted.*1 → block_in G b ∧ is_valid_index (committee ctx) (vb_author b) = true ∧
       cs_gc_round (certifier_state t) < vb_round b) →
    certifier_add_voted_blocks t voted = Ret t' →
    fin_run ctx G sds (added ++ voted.*1) n outs f t'
| fin_proposed added n outs f t b t' :
    fin_run ctx G sds added n outs f t → certifier_add_proposed_block t b = Ret t' →
    fin_run ctx G sds added n outs f t'
| fin_commit added n outs f t (d : DagState T) cd f' t' out :
    fin_run ctx G sds added n outs f t → ready_for ctx G sds added n d cd →
    process_commit f t d cd = Ret (f', t', out) →
    fin_run ctx G sds added (S n) (outs ++ out) f' t'.

(** An epoch: the universe of blocks, the behaviour of the honest authorities, and the commits
    that the linearizer makes of the leaders. *)
Record epoch_ok (ctx : Context) (byz : gset N) (G : universe) (leaders : list VerifiedBlock)
    (sds : list CommittedSubDag) (log' : commit_log) : Prop := {
  ep_bft : bft (committee ctx) byz G;
  ep_depth : 2 ≤ gc_depth (protocol_config ctx);
  ep_rule : vote_rule byz G;
  ep_chain : honest_chain byz G;
  ep_votes : honest_votes byz G;
  ep_commits : run_facts ctx G empty_log leaders sds log';
  ep_anchored : anchored (committee ctx) G sds;
  ep_rounds : ∀ k, round_at sds k + 3 < 2 ^ 32;
}.

Lemma send_certified_state t out : certifier_state (send_certified_blocks t out) = certifier_state t.
Proof. by destruct out. Qed.

Lemma certifier_ok_grow ctx G sds added p t voted t' :
  committee_wf (committee ctx) → certifier_ok ctx G sds added p t → NoDup (reference <$> added ++ voted.*1) →
  (∀ b, b ∈ voted.*1 → block_in G b ∧ is_valid_index (committee ctx) (vb_author b) = true ∧
     cs_gc_round (certifier_state t) < vb_round b) →
  certifier_add_voted_blocks t voted = Ret t' → certifier_ok ctx G sds (added ++ voted.*1) p t'.
Proof.
  intros Hc [[outs Hrun] Hgc Hval] Hnd Hv Hadd. unfold certifier_add_voted_blocks in Hadd.
  apply bind_Ret in Hadd as ([cs' outs'] & Hadd & [= <-]).
  destruct (add_voted_blocks_run ctx added _ outs voted cs' outs' Hc Hrun Hnd) as [Hrun' Hgc']; [|done|].
  { intros b (_ & ? & ?)%Hv. done. }
  split; rewrite ?send_certified_state; [eauto|simpl; by rewrite Hgc'|].
  intros b [Hb|Hb]%elem_of_app; [by apply Hval|]. by destruct (Hv b Hb) as (? & ? & _).
Qed.

Lemma certifier_ok_proposed ctx G sds added p t b t' :
  committee_wf (committee ctx) → certifier_ok ctx G sds added p t →
  certifier_add_proposed_block t b = Ret t' → certifier_ok ctx G sds added p t'.
Proof.
  intros Hc [[outs Hrun] Hgc Hval] Hadd. unfold certifier_add_proposed_block in Hadd.
  apply bind_Ret in Hadd as ([cs' outs'] & Hadd & [= <-]).
  assert (vb_round b ≤ u32_add (cs_gc_round (certifier_state t)) 2 ∨ is_Some (cs_votes (certifier_state t) !! reference b)) as Hp.
  { unfold add_proposed_block in Hadd. destruct (N.leb_spec (vb_round b) (u32_add (cs_gc_round (certifier_state t)) 2)); [by left|].
    right. apply bind_Ret in Hadd as ([] & Ha%assert_that_Ret & _). by apply bool_decide_eq_true in Ha. }
  destruct (add_proposed_block_inv ctx Hc _ added _ outs b (cert_run_inv ctx Hc _ _ _ Hrun) Hp) as (cs1 & local & Hrun1 & Hgc1 & _).
  rewrite Hadd in Hrun1. injection Hrun1 as <- <-. split; rewrite ?send_certified_state; [|simpl; by rewrite Hgc1|done].
  exists (outs ++ outs'). by eapply run_proposed.
Qed.

Lemma fin_run_inv {T} `{Store T} ctx byz G leaders sds log' added n outs f t :
  epoch_ok ctx byz G leaders sds log' → fin_run (T := T) ctx G sds added n outs f t → fin_inv ctx G sds added n outs f t.
Proof.
  intros [HG Hdepth Hrule Hchain Hvotes Hcom Hanc Hsmall]. pose proof (bft_committee _ _ _ HG) as Hc.
  pose proof (run_facts_seq _ _ _ _ _ Hcom) as Hsq.
  induction 1 as [|added n outs f t voted t' _ IH Hnd Hv Hadd|added n outs f t b t' _ IH Hadd|added n outs f t d cd f' t' out _ IH Hrf Hrun].
  - split; try done; simpl.
    + split; [exists []; apply run_new|apply N.le_0_l|by intros b ?%elem_of_nil].
    + lia.
    + unfold buffer. rewrite take_0, drop_nil. apply blocks_ok_empty.
    + lia.
    + intros m b Hm. lia.
  - destruct IH as [H1 H2 H3 H4 H5 H6 H7 H8 H9 H10].
    assert (∀ b, b ∈ added → b ∈ added ++ voted.*1) as Hsub by (intros b Hb; apply elem_of_app; by left).
    split; try done; [by eapply certifier_ok_grow| | |intros m b Hm Hb; by eapply Hsub, H10].
    + intros i cs Hi. apply (commit_ok_mono ctx byz G sds Hsq HG Hanc Hsmall added); [exact Hsub|by apply H6].
    + intros k o (cs & -> & Hcs & Hd)%H8. exists cs. split; [done|].
      split; [by apply (commit_ok_mono ctx byz G sds Hsq HG Hanc Hsmall added)|done].
  - destruct IH as [H1 H2 H3 H4 H5 H6 H7 H8 H9 H10]. split; try done. by eapply certifier_ok_proposed.
  - destruct (process_step ctx byz G sds Hsq HG Hanc Hsmall Hdepth added n outs f t d cd IH Hrf) as (f1 & t1 & out1 & Hrun1 & Hinv).
    rewrite Hrun in Hrun1. by injection Hrun1 as <- <- <-.
Qed.

(** What an output commit says of the transactions of a block. *)
Lemma final_rejected ctx G sds depth added k o r :
  depth = gc_depth (protocol_config ctx) → seq_ok depth G sds → final_ok ctx G sds added k o →
  ∃ sd cs, sds !! k = Some sd ∧ delivers sd (cst_commit cs) ∧ o = finalized_commit cs ∧
    default [] (sd_rejected_transactions_by_block o !! r) = set_iter N.leb (default ∅ (rejected_transactions cs !! r)) ∧
    (r ∈ refs (sd_blocks sd) → margin depth sds k r → ∀ i,
       (rejected cs r i → rej_reason (committee ctx) sds added k r i) ∧
       (¬ rejected cs r i → acc_reason (committee ctx) G sds added k r i)).
Proof.
  intros -> Hsq (cs & -> & [(sd & Hsd & Hdel) Hst _] & [Hpb Hpt]). exists sd, cs.
  destruct (delivers_fields _ _ Hdel) as (_ & Hbl & _ & Hrb).
  split; [done|]. split; [done|]. split; [done|]. split.
  - rewrite finalized_commit_rejected; [by destruct (rejected_transactions cs !! r)|]. rewrite Hrb. by apply (sq_clean _ _ _ Hsq k).
  - intros Hr Hm i. destruct Hst as [Hw|Htr]; [by destruct (wk_nonempty _ _ _ _ _ _ Hw)|].
    split; [intros Hrej; by apply (tk_rejected _ _ _ _ _ _ Htr)|]. intros Hn.
    apply (tk_final _ _ _ _ _ _ Htr); [by rewrite Hbl|done| |done].
    unfold pends. rewrite Hpt, lookup_empty. by apply not_elem_of_empty.
Qed.

(** * Properties *)

(** C11. Agreement on finalized commits. In an epoch with less than a validity threshold of
    Byzantine stake, two nodes hand the commits to their finalizers and add blocks to their
    certifiers in any order. The commits they output at the same position are the same
    commit, and for each of its blocks that is at least two rounds inside the garbage
    collection window the two nodes report the same rejected transactions: whether a
    transaction was decided from local votes, from a quorum of reject votes or from the later
    commits. *)
Theorem finalized_commits_agree {T1 T2} `{Store T1} `{Store T2} ctx1 ctx2 byz G leaders sds log'
    added1 n1 outs1 f1 t1 added2 n2 outs2 f2 t2 k o1 o2 :
  same_epoch ctx1 ctx2 → epoch_ok ctx1 byz G leaders sds log' → epoch_ok ctx2 byz G leaders sds log' →
  fin_run (T := T1) ctx1 G sds added1 n1 outs1 f1 t1 → fin_run (T := T2) ctx2 G sds added2 n2 outs2 f2 t2 →
  outs1 !! k = Some o1 → outs2 !! k = Some o2 →
  sd_commit_ref o1 = sd_commit_ref o2 ∧ sd_leader o1 = sd_leader o2 ∧ sd_blocks o1 = sd_blocks o2 ∧
  ∀ b, b ∈ sd_blocks o1 → margin (gc_depth (protocol_config ctx1)) sds k (reference b) →
    default [] (sd_rejected_transactions_by_block o1 !! reference b) =
    default [] (sd_rejected_transactions_by_block o2 !! reference b).
Proof.
  intros [Hcc Hdd] He1 He2 Hrun1 Hrun2 Ho1 Ho2. pose proof He1 as [HG Hdepth Hrule Hchain Hvotes Hcom _ _].
  pose proof (run_facts_seq _ _ _ _ _ Hcom) as Hsq.
  pose proof (fin_run_inv _ _ _ _ _ _ _ _ _ _ _ He1 Hrun1) as Hv1. pose proof (fin_run_inv _ _ _ _ _ _ _ _ _ _ _ He2 Hrun2) as Hv2.
  pose proof (fv_outs _ _ _ _ _ _ _ _ Hv1 k o1 Ho1) as Hf1. pose proof (fv_outs _ _ _ _ _ _ _ _ Hv2 k o2 Ho2) as Hf2.
  pose proof (final_rejected _ _ _ _ _ _ _ (mkBlockRef 0 0 0) eq_refl Hsq Hf1) as (sd & cs1 & Hsd & Hdel1 & E1 & _).
  pose proof (final_rejected _ _ _ _ _ _ _ (mkBlockRef 0 0 0) Hdd Hsq Hf2) as (sd' & cs2 & Hsd' & Hdel2 & E2 & _).
  rewrite Hsd in Hsd'. injection Hsd' as <-.
  destruct (delivers_fields _ _ Hdel1) as (A1 & A2 & A3 & _). destruct (delivers_fields _ _ Hdel2) as (B1 & B2 & B3 & _).
  assert (sd_commit_ref o1 = sd_commit_ref o2 ∧ sd_leader o1 = sd_leader o2 ∧ sd_blocks o1 = sd_blocks sd ∧ sd_blocks o2 = sd_blocks sd)
    as (-> & -> & Hb1 & Hb2) by (rewrite E1, E2; cbn; split_and!; congruence).
  do 2 (split; [done|]). split; [congruence|]. rewrite Hb1. intros b Hb Hm.
  destruct (final_rejected _ _ _ _ _ _ _ (reference b) eq_refl Hsq Hf1) as (sd1 & cs3 & Hsd1 & _ & _ & -> & Hre1).
  destruct (final_rejected _ _ _ _ _ _ _ (reference b) Hdd Hsq Hf2) as (sd2 & cs4 & Hsd2 & _ & _ & -> & Hre2).
  rewrite Hsd in Hsd1, Hsd2. injection Hsd1 as <-. injection Hsd2 as <-.
  f_equal. apply set_eq. intros i. rewrite <- Hcc in Hre2.
  destruct (Hre1 (list_elem_of_fmap_2 _ _ _ Hb) Hm i) as [R1 F1]. destruct (Hre2 (list_elem_of_fmap_2 _ _ _ Hb) Hm i) as [R2 F2].
  assert (in_commit sds k b) as Hin by (by exists sd).
  pose proof (ck_valid _ _ _ _ _ _ (fv_certifier _ _ _ _ _ _ _ _ Hv1)) as V1.
  pose proof (ck_valid _ _ _ _ _ _ (fv_certifier _ _ _ _ _ _ _ _ Hv2)) as V2.
  change (rejected cs3 (reference b) i ↔ rejected cs4 (reference b) i).
  destruct (decide (rejected cs3 (reference b) i)) as [Y1|N1], (decide (rejected cs4 (reference b) i)) as [Y2|N2]; try tauto; exfalso.
  - eapply (reasons_exclude _ G sds _ byz added1 added2 k b i Hsq); try done; [by intros ? [? _]%V1|auto|auto].
  - eapply (reasons_exclude _ G sds _ byz added2 added1 k b i Hsq); try done; [by intros ? [? _]%V2|auto|auto].
Qed.

(** C12. Progress of finalization. Whatever a node did before, its finalizer processes the next
    commit of the epoch without panicking; what it has output is then a prefix of the
    commits, in order, and contains every commit whose leader is three rounds or more below
    the leader just processed. *)
Theorem finalizer_progress {T} `{Store T} ctx byz G leaders sds log' added n outs f t (d : DagState T) cd :
  epoch_ok ctx byz G leaders sds log' → fin_run (T := T) ctx G sds added n outs f t → ready_for ctx G sds added n d cd →
  ∃ f' t' out, process_commit f t d cd = Ret (f', t', out) ∧
    fin_run (T := T) ctx G sds added (S n) (outs ++ out) f' t' ∧
    (sd_commit_ref <$> outs ++ out) = take (length (outs ++ out)) (sd_commit_ref <$> sds) ∧
    ∀ k, (k ≤ n)%nat → round_at sds k + 3 ≤ round_at sds n → (k < length (outs ++ out))%nat.
Proof.
  intros He Hrun Hrf. pose proof (fin_run_inv _ _ _ _ _ _ _ _ _ _ _ He Hrun) as Hinv.
  pose proof He as [HG Hdepth _ _ _ Hcom Hanc Hsmall]. pose proof (run_facts_seq _ _ _ _ _ Hcom) as Hsq.
  destruct (process_step ctx byz G sds Hsq HG Hanc Hsmall Hdepth added n outs f t d cd Hinv Hrf) as (f' & t' & out & Hstep & Hinv').
  exists f', t', out. split; [done|]. split; [by eapply fin_commit|]. destruct Hinv' as [_ _ _ Hlen Hbound _ _ Houts Hrec _]. split.
  - apply list_eq. intros k. rewrite list_lookup_fmap. destruct ((outs ++ out) !! k) as [o|] eqn:Hk; simpl.
    + destruct (Houts k o Hk) as (cs & -> & [(sd & Hsd & (_ & _ & Hr & _)%delivers_fields) _ _] & _).
      apply lookup_lt_Some in Hk. rewrite lookup_take_lt, list_lookup_fmap, Hsd by done. simpl. by rewrite Hr.
    + symmetry. apply lookup_take_ge. by apply lookup_ge_None in Hk.
  - intros k Hk Hdeep. destruct (decide (k < length (outs ++ out))%nat) as [|Hge]; [done|]. exfalso.
    specialize (Hrec n ltac:(lia) ltac:(lia)).
    assert (round_at sds (length (outs ++ out)) ≤ round_at sds k) by (apply (round_at_le _ _ _ Hsq); lia). lia.
Qed.

(** * Concrete histories *)

(** Honest blocks whose first ancestor is the author's block of the previous round. *)
Lemma sample_chained n gc byz blocks :
  sample_ok n blocks = true → bft (sample_committee n) byz (sample_universe n gc blocks) →
  bool_decide (Forall (λ b, vb_author b ∉ byz → Exists (λ x, head (vb_ancestors b) = Some (reference x) ∧
    vb_author x = vb_author b ∧ vb_round x + 1 = vb_round b) (sample_genesis n ++ blocks)) blocks) = true →
  honest_chain byz (sample_universe n gc blocks).
Proof.
  intros Hok HG Hall%bool_decide_eq_true b b' Hb Hb' Ha Hhon Hr. rewrite Forall_forall in Hall.
  remember (N.to_nat (vb_round b - vb_round b')) as h eqn:Hh. revert b Hb Ha Hhon Hr Hh.
  induction h as [|h IH]; intros b Hb Ha Hhon Hr Hh; [lia|].
  pose proof Hb as [Hin _]%sample_lookup; [|done].
  apply elem_of_app in Hin as [(i & _ & ->)%elem_of_sample_genesis|Hin]; [change (vb_round b' < 0) in Hr; lia|].
  apply Hall, Exists_exists in Hin as (x & Hx & Hhd & Hxa & Hxr); [|done].
  assert (block_in (sample_universe n gc blocks) x) as HxG by (by apply sample_lookup).
  assert (own_parent (sample_universe n gc blocks) (reference b) (reference x)) as Hs by (by exists b).
  destruct (decide (vb_round x = vb_round b')) as [Heq|Hne].
  - replace b' with x; [by apply tc_once|]. apply (honest_same _ _ _ HG x b' (vb_author b)); congruence.
  - eapply tc_l; [exact Hs|]. apply IH; [done|congruence|congruence|lia|lia].
Qed.

(** Four rounds of four authorities, each block linking the whole previous round, its own
    block first. Of the three transactions of the first block, authority 2 rejects the first,
    the Byzantine authority 3 the second and both of them the third. *)
Definition sealed (round author : N) (votes : list BlockTransactionVotes) : VerifiedBlock :=
  mkVerifiedBlock
    (mkSignedBlock (V2 (mkBlockV2 0 round author 0
       ((λ a, mkBlockRef (round - 1) a (if round =? 1 then 1000 + a else 100 * (round - 1) + a))
          <$> author :: filter (λ a, a ≠ author) [0; 1; 2; 3])
       (replicate 3 (mkTransaction [])) votes [] [])) [])
    (100 * round + author) [].

Definition sealed_blocks : list VerifiedBlock :=
  ((λ a, sealed 1 a []) <$> [0; 1; 2; 3]) ++
  [sealed 2 0 []; sealed 2 1 []; sealed 2 2 [mkBlockTransactionVotes (mkBlockRef 1 0 100) [0; 2]];
   sealed 2 3 [mkBlockTransactionVotes (mkBlockRef 1 0 100) [1; 2]]] ++
  ((λ a, sealed 3 a []) <$> [0; 1; 2; 3]) ++ ((λ a, sealed 4 a []) <$> [0; 1; 2; 3]).

Definition sealed_leaders : list VerifiedBlock := [sealed 1 0 []; sealed 4 0 []].

Definition sealed_dag : DagState MemStore := sample_dag 4 60 sealed_blocks.

Definition sealed_commits : list CommittedSubDag :=
  (ret_or (sealed_dag, []) (@handle_commit _ _ sample_crypto sample_codec (sample_context 4 60) sealed_dag sealed_leaders)).2.

Abbreviation sealed_universe := (sample_universe 4 60 sealed_blocks).

Lemma sealed_ok : sample_ok 4 sealed_blocks = true.
Proof. vm_compute. reflexivity. Qed.
Lemma sealed_bft : bft (sample_committee 4) {[3]} sealed_universe.
Proof. apply sample_bft; vm_compute; reflexivity. Qed.

Lemma sealed_in b : b ∈ sealed_blocks → block_in sealed_universe b.
Proof.
  intros Hb. apply sample_lookup; [exact sealed_ok|]. split; [|done]. apply elem_of_app. by right.
Qed.

Lemma sealed_leaders_in L : L ∈ sealed_leaders → L ∈ sealed_blocks.
Proof.
  intros [->|[->|?%elem_of_nil]%elem_of_cons]%elem_of_cons; [vm_compute; repeat (left || right)..|done].
Qed.

Lemma sealed_run : ∃ log', run_facts (sample_context 4 60) sealed_universe empty_log sealed_leaders sealed_commits log'.
Proof.
  destruct (@handle_commit_spec sample_crypto sample_codec _ _ _ (sample_context 4 60) {[3]} sealed_universe
    sealed_bft) with (leaders := sealed_leaders) (d := sealed_dag) (log := empty_log) (sds0 := @nil CommittedSubDag)
    as (d' & sds & log' & Hrun & _ & _ & _ & Hf).
  - apply (sample_unique 4 60 sealed_blocks sealed_ok). vm_compute. reflexivity.
  - intros commit. eexists. reflexivity.
  - exact (sample_node_ok 4 60 eq_refl sealed_blocks sealed_blocks sealed_ok sealed_ok (λ b Hb, Hb)).
  - intros L HL. apply sealed_in. by apply sealed_leaders_in.
  - split; [reflexivity|]. split; [reflexivity|exact I].
  - reflexivity.
  - exists log'. replace sealed_commits with sds; [exact Hf|]. unfold sealed_commits, handle_commit. rewrite Hrun. done.
Qed.

Lemma sealed_block_in k b : in_commit sealed_commits k b → b ∈ sealed_blocks.
Proof.
  intros Hb. destruct sealed_run as [log' Hrun].
  apply (sq_blocks _ _ _ (run_facts_seq _ _ _ _ _ Hrun)) in Hb as [Hb Hr].
  apply sample_lookup in Hb as [Hb _]; [|exact sealed_ok].
  apply elem_of_app in Hb as [(i & _ & ->)%elem_of_sample_genesis|Hb]; [|done].
  change (gc_at (gc_depth (protocol_config (sample_context 4 60))) sealed_commits k < 0) in Hr. lia.
Qed.

Lemma sealed_rounds k : round_at sealed_commits k ≤ 4.
Proof. destruct k as [|[|k]]; vm_compute; discriminate. Qed.

Lemma sealed_length : length sealed_commits = 2%nat.
Proof. vm_compute. reflexivity. Qed.

Lemma sealed_anchored : anchored (sample_committee 4) sealed_universe sealed_commits.
Proof.
  intros k j sd sd' L ([Hkj Hj] & _) Hk Hj' HL HLr. rewrite sealed_length in Hj.
  assert (k = 0%nat ∧ j = 1%nat) as [-> ->] by lia.
  assert (sd_leader <$> (sealed_commits !! 0%nat) = Some (mkBlockRef 1 0 100)) as Hlead by (vm_compute; reflexivity).
  assert (sd_leader <$> (sealed_commits !! 1%nat) = Some (mkBlockRef 4 0 400)) as Hlead' by (vm_compute; reflexivity).
  rewrite Hk in Hlead. rewrite Hj' in Hlead'. apply (inj Some) in Hlead, Hlead'.
  assert (L = sealed 1 0 []) as ->.
  { pose proof (sealed_in L (sealed_block_in 0 L (ex_intro _ sd (conj Hk HL)))) as HLG. unfold block_in in HLG.
    rewrite HLr, Hlead in HLG. assert (sealed_universe (mkBlockRef 1 0 100) = Some (sealed 1 0 [])) as E by (vm_compute; reflexivity).
    rewrite E in HLG. by injection HLG. }
  exists (sealed 3 0 []). split; [vm_compute; reflexivity|]. split; [reflexivity|]. split; [vm_compute; reflexivity|].
  rewrite Hlead'. apply rtc_once. exists (sealed 4 0 []). split; [vm_compute; reflexivity|]. vm_compute. repeat (left || right).
Qed.

Lemma sealed_epoch : ∃ log', epoch_ok (sample_context 4 60) {[3]} sealed_universe sealed_leaders sealed_commits log'.
Proof.
  destruct sealed_run as [log' Hrun]. exists log'. split.
  - exact sealed_bft.
  - vm_compute. discriminate.
  - apply (sample_rule 4 60 {[3]} sealed_blocks sealed_ok sealed_bft). vm_compute. reflexivity.
  - apply (sample_chained 4 60 {[3]} sealed_blocks sealed_ok sealed_bft). vm_compute. reflexivity.
  - intros b Hb _. apply sample_lookup in Hb as [Hb _]; [|exact sealed_ok]. revert b Hb.
    apply Forall_forall, (bool_decide_eq_true_1 _). vm_compute. reflexivity.
  - exact Hrun.
  - exact sealed_anchored.
  - intros k. pose proof (sealed_rounds k). lia.
Qed.

#[local] Opaque sealed_commits sealed_blocks.

(** A node that receives both commits through commit synchronization. *)
Definition sealed_state : DagState MemStore :=
  sealed_dag <| ds_last_commit := Some (@new_trusted sample_crypto (Commit_new 2 0 0 (mkBlockRef 4 0 400) []) []) |>.

Definition remote (sd : CommittedSubDag) : CommittedSubDag := sd <| sd_decided_with_local_blocks := false |>.

Definition sealed_first (blocks : list VerifiedBlock) : outcome (CommitFinalizer * TransactionCertifier * list CommittedSubDag) :=
  t ← certifier_add_voted_blocks (TransactionCertifier_new (sample_context 4 60)) ((λ b, (b, [])) <$> blocks);
  sd ← expect (sealed_commits !! 0%nat);
  process_commit (CommitFinalizer_new (sample_context 4 60)) t sealed_state (remote sd).

Definition sealed_node (blocks : list VerifiedBlock) : outcome (CommitFinalizer * TransactionCertifier * list CommittedSubDag) :=
  '(f, t, out0) ← sealed_first blocks;
  sd ← expect (sealed_commits !! 1%nat);
  '(f, t, out1) ← process_commit f t sealed_state (remote sd);
  Ret (f, t, out0 ++ out1).

Lemma sealed_ready blocks k sd :
  blocks ≡ₚ sealed_blocks → sealed_commits !! k = Some sd →
  ready_for (sample_context 4 60) sealed_universe sealed_commits blocks k sealed_state (remote sd).
Proof.
  intros Hp Hk. split.
  - exists sd. split; [exact Hk|]. by exists false, (sd_reputation_scores_desc sd).
  - intros b Hb. rewrite Hp. apply (sealed_block_in k). exists sd. exact (conj Hk Hb).
  - intros Hl. discriminate Hl.
  - reflexivity.
  - apply sealed_rounds.
Qed.

Lemma sealed_first_run blocks f t outs :
  blocks ≡ₚ sealed_blocks → sealed_first blocks = Ret (f, t, outs) →
  fin_run (T := MemStore) (sample_context 4 60) sealed_universe sealed_commits blocks 1 outs f t.
Proof.
  intros Hp Hrun. unfold sealed_first in Hrun. apply bind_Ret in Hrun as (t0 & H0 & Hrun).
  apply bind_Ret in Hrun as (sd & Hsd%expect_Ret & Hrun).
  assert (((λ b, (b, [] : list N)) <$> blocks).*1 = blocks) as Hfst by (rewrite <- list_fmap_compose; apply list_fmap_id).
  change outs with ([] ++ outs). eapply fin_commit; [|by apply sealed_ready|exact Hrun].
  pose proof (fin_voted (T := MemStore) (sample_context 4 60) sealed_universe sealed_commits [] 0 [] _ _
    ((λ b, (b, [] : list N)) <$> blocks) t0 (fin_new _ _ _)) as Hv. rewrite Hfst in Hv. apply Hv; [| |exact H0].
  - simpl. rewrite Hp. apply (bool_decide_eq_true_1 _). vm_compute. reflexivity.
  - intros b Hb. rewrite Hp in Hb. split; [by apply sealed_in|]. revert b Hb.
    assert (Forall (λ b, is_valid_index (committee (sample_context 4 60)) (vb_author b) = true ∧ 0 < vb_round b) sealed_blocks) as Hall
      by (apply (bool_decide_eq_true_1 _); vm_compute; reflexivity).
    by apply Forall_forall.
Qed.

Lemma sealed_node_run blocks f t outs :
  blocks ≡ₚ sealed_blocks → sealed_node blocks = Ret (f, t, outs) →
  fin_run (T := MemStore) (sample_context 4 60) sealed_universe sealed_commits blocks 2 outs f t.
Proof.
  intros Hp Hrun. unfold sealed_node in Hrun. apply bind_Ret in Hrun as ([[f0 t0] out0] & H0 & Hrun).
  apply bind_Ret in Hrun as (sd & Hsd%expect_Ret & Hrun). apply bind_Ret in Hrun as ([[f1 t1] out1] & H1 & [= <- <- <-]).
  eapply fin_commit; [by apply sealed_first_run|by apply sealed_ready|exact H1].
Qed.

Lemma finalized_commits_agree_witness :
  ∃ f1 t1 o1 f2 t2 o2,
    sealed_node sealed_blocks = Ret (f1, t1, [o1]) ∧ sealed_node (reverse sealed_blocks) = Ret (f2, t2, [o2]) ∧
    default [] (sd_rejected_transactions_by_block o1 !! mkBlockRef 1 0 100) = [2] ∧
    default [] (sd_rejected_transactions_by_block o2 !! mkBlockRef 1 0 100) = [2].
Proof.
  set (dflt := (CommitFinalizer_new (sample_context 4 60), TransactionCertifier_new (sample_context 4 60), [] : list CommittedSubDag)).
  set (run1 := sealed_node sealed_blocks). set (run2 := sealed_node (reverse sealed_blocks)).
  assert (run1 = Ret (ret_or dflt run1)) as H1 by (vm_compute; reflexivity).
  assert (run2 = Ret (ret_or dflt run2)) as H2 by (vm_compute; reflexivity).
  assert (length (ret_or dflt run1).2 = 1%nat) as L1 by (vm_compute; reflexivity).
  assert (length (ret_or dflt run2).2 = 1%nat) as L2 by (vm_compute; reflexivity).
  destruct (ret_or dflt run1) as [[f1 t1] outs1] eqn:E1. destruct (ret_or dflt run2) as [[f2 t2] outs2] eqn:E2.
  destruct outs1 as [|o1 [|? ?]]; [discriminate L1| |discriminate L1]. destruct outs2 as [|o2 [|? ?]]; [discriminate L2| |discriminate L2].
  assert (sd_blocks o1 = [sealed 1 0 []]) as Hb.
  { replace o1 with (default o1 (head (ret_or dflt run1).2)) by (by rewrite E1). vm_compute. reflexivity. }
  assert (default [] (sd_rejected_transactions_by_block o1 !! mkBlockRef 1 0 100) = [2]) as Hr.
  { replace o1 with (default o1 (head (ret_or dflt run1).2)) by (by rewrite E1). vm_compute. reflexivity. }
  exists f1, t1, o1, f2, t2, o2. split; [exact H1|]. split; [exact H2|]. split; [exact Hr|].
  destruct sealed_epoch as [log' He].
  destruct (finalized_commits_agree (T1 := MemStore) (T2 := MemStore) (sample_context 4 60) (sample_context 4 60) {[3]} sealed_universe
    sealed_leaders sealed_commits log' sealed_blocks 2 [o1] f1 t1 (reverse sealed_blocks) 2 [o2] f2 t2 0 o1 o2)
    as (_ & _ & _ & Hagree).
  - split; reflexivity.
  - exact He.
  - exact He.
  - apply sealed_node_run; [reflexivity|exact H1].
  - apply sealed_node_run; [apply reverse_Permutation|exact H2].
  - reflexivity.
  - reflexivity.
  - rewrite <- Hr. symmetry. apply (Hagree (sealed 1 0 [])); [rewrite Hb; left|]. vm_compute. discriminate.
Defined.

Lemma finalizer_progress_witness :
  ∃ f t sd f' t' out, sealed_first sealed_blocks = Ret (f, t, []) ∧ sealed_commits !! 1%nat = Some sd ∧
    process_commit f t sealed_state (remote sd) = Ret (f', t', out) ∧ (0 < length out)%nat.
Proof.
  set (dflt := (CommitFinalizer_new (sample_context 4 60), TransactionCertifier_new (sample_context 4 60), [] : list CommittedSubDag)).
  set (run := sealed_first sealed_blocks).
  assert (run = Ret (ret_or dflt run)) as H1 by (vm_compute; reflexivity).
  assert (length (ret_or dflt run).2 = 0%nat) as L1 by (vm_compute; reflexivity).
  destruct (ret_or dflt run) as [[f t] outs] eqn:E1. destruct outs as [|? ?]; [|discriminate L1].
  assert (is_Some (sealed_commits !! 1%nat)) as [sd Hsd] by (apply (bool_decide_eq_true_1 _); vm_compute; reflexivity).
  destruct sealed_epoch as [log' He].
  destruct (finalizer_progress (T := MemStore) (sample_context 4 60) {[3]} sealed_universe sealed_leaders sealed_commits log'
    sealed_blocks 1 [] f t sealed_state (remote sd)) as (f' & t' & out & Hrun & _ & _ & Hall).
  - exact He.
  - apply sealed_first_run; [reflexivity|exact H1].
  - apply sealed_ready; [reflexivity|exact Hsd].
  - exists f, t, sd, f', t', out. split; [exact H1|]. split; [exact Hsd|]. split; [exact Hrun|].
    apply (Hall 0%nat); [lia|]. vm_compute. discriminate.
Defined.
