(* ===== verification/Growth.v ===== *)
(** Universes of blocks that grow by one block: what the agreement theorems assume of honest
    validators survives a block that refers to its author's last one, has a quorum of
    parents and votes on what it links for the first time. *)

From stdpp Require Import base tactics numbers list gmap sorting strings.
From S2P Require Import Prelude.
From S2P Require Import Committee.
From S2P Require Import Block.
From S2P Require Import DagState.
From S2P Require Import DagInvariant.
From S2P Require Import BaseCommitter.
From S2P Require Import CommitSafety.
From S2P Require Import Linearizer.
From S2P Require Import TransactionCertifier.
From S2P Require Import FinalizerSafety.

Open Scope N_scope.

(** * Universes that grow by one block *)

Definition extend (G : universe) (b : VerifiedBlock) : universe :=
  λ r, if decide (r = reference b) then Some b else G r.

(** A digest that no block carries or refers to yet. *)
Definition unreferenced (G : universe) (r : BlockRef) : Prop :=
  G r = None ∧ ∀ b, block_in G b → r ∉ vb_ancestors b.

(** What the agreement theorems assume of the blocks of the honest authorities. *)
Record honest_universe (c : Committee) (byz : gset N) (G : universe) : Prop := {
  hu_bft : bft c byz G;
  hu_unique : unique_ancestors G;
  hu_chain : honest_chain byz G;
  hu_votes : honest_votes byz G;
  hu_rule : vote_rule byz G;
}.

Lemma tc_mono {A} (R R' : relation A) x y : (∀ x y, R x y → R' x y) → tc R x y → tc R' x y.
Proof. intros Hs. apply (tc_congruence id R'). apply Hs. Qed.

Section Growth.
Context (c : Committee) (byz : gset N) (G : universe) (b : VerifiedBlock).
Context (HG : honest_universe c byz G) (Hfresh : unreferenced G (reference b)).
Let G' := extend G b.

Lemma extend_self : G' (reference b) = Some b.
Proof. unfold G', extend. by rewrite decide_True. Qed.

Lemma extend_mono r x : G r = Some x → G' r = Some x.
Proof. intros Hx. unfold G', extend. case_decide as Hr; [|done]. subst r. destruct Hfresh. congruence. Qed.

Lemma extend_inv r x : G' r = Some x → G r = Some x ∨ r = reference b ∧ x = b.
Proof. unfold G', extend. case_decide; [|by left]. intros [= ->]. by right. Qed.

Lemma extend_in x : block_in G' x ↔ block_in G x ∨ x = b.
Proof.
  unfold block_in. split.
  - intros [?|[_ ?]]%extend_inv; auto.
  - intros [?| ->]; [by apply extend_mono|apply extend_self].
Qed.

Lemma extend_parent r r' : parent G r r' → parent G' r r'.
Proof. intros (x & Hx & Ha). exists x. split; [by apply extend_mono|done]. Qed.

(** A path from an old block stays among the old blocks. *)
Lemma extend_parent_inv r r' : r ≠ reference b → parent G' r r' → parent G r r' ∧ r' ≠ reference b.
Proof.
  intros Hr (x & [Hx|[? _]]%extend_inv & Ha); [|done]. split; [by exists x|]. intros ->.
  apply (proj2 Hfresh x); [|done]. unfold block_in. by rewrite (bft_ref c byz G (hu_bft _ _ _ HG) r x Hx).
Qed.

Lemma extend_rtc_inv r r' : r ≠ reference b → rtc (parent G') r r' → rtc (parent G) r r'.
Proof.
  intros Hr Hp. induction Hp as [r|r x r' Hp _ IH]; [done|].
  destruct (extend_parent_inv r x Hr Hp). eapply rtc_l; [done|]. by apply IH.
Qed.

Lemma extend_tc_inv r r' : r ≠ reference b → tc (parent G') r r' → tc (parent G) r r'.
Proof.
  intros Hr Hp. induction Hp as [r r' Hp|r x r' Hp _ IH].
  - apply tc_once. by apply extend_parent_inv.
  - destruct (extend_parent_inv r x Hr Hp). eapply tc_l; [done|]. by apply IH.
Qed.

Lemma old_reference x : block_in G x → reference x ≠ reference b.
Proof. intros Hx He. unfold block_in in Hx. rewrite He in Hx. destruct Hfresh. congruence. Qed.

(** What verification asks of the links of every block. *)
Record formed : Prop := {
  fm_rounds : ∀ a, a ∈ vb_ancestors b → br_round a < vb_round b;
  fm_quorum : quorum_parents c b;
  fm_unique : NoDup (br_author <$> vb_ancestors b);
}.

Lemma extend_unique : formed → unique_ancestors G'.
Proof. intros Hf x [Hx| ->]%extend_in; [by apply (hu_unique c byz G HG)|apply Hf]. Qed.

Lemma extend_bft :
  formed → (vb_author b ∉ byz → ∀ x, block_in G x → vb_author x = vb_author b → vb_round x < vb_round b) → bft c byz G'.
Proof.
  intros Hf Habove. destruct (hu_bft c byz G HG) as [Hc Hbyz Href Hdesc Hpar Hhon]. split; [done|done| | | |].
  - intros r x [?|[-> ->]]%extend_inv; [by apply Href|done].
  - intros r r' (x & [Hx|[-> ->]]%extend_inv & Ha); [apply Hdesc; by exists x|].
    rewrite reference_round. by apply (fm_rounds Hf).
  - intros x [Hx| ->]%extend_in Hr; [by apply Hpar|apply (fm_quorum Hf)].
  - assert (∀ x, block_in G x → Slot_from (reference x) = Slot_from (reference b) → vb_author b ∉ byz → False) as Hslot.
    { intros x Hx Hs Hn. assert (vb_author x = vb_author b) as Ha by (by apply (f_equal slot_authority) in Hs).
      pose proof (Habove Hn x Hx Ha). apply (f_equal slot_round) in Hs. simpl in Hs. lia. }
    intros x y [Hx| ->]%extend_in [Hy| ->]%extend_in Hs Ha; [by apply Hhon| | |done].
    + destruct (Hslot x Hx Hs). assert (vb_author x = vb_author b) as <- by (by apply (f_equal slot_authority) in Hs). done.
    + by destruct (Hslot y Hy).
Qed.

(** A block of a Byzantine authority only has to be well formed. *)
Lemma extend_byzantine : vb_author b ∈ byz → formed → honest_universe c byz G'.
Proof.
  intros Hb Hf. assert (∀ x, vb_author x ∉ byz → vb_author x ≠ vb_author b) as Hne by congruence.
  split; [by apply extend_bft|by apply extend_unique| | |].
  - intros x y [Hx| ->]%extend_in [Hy| ->]%extend_in Ha Hn Hr; [|by destruct (Hne x Hn)|by destruct (Hne b Hn)..].
    eapply tc_mono; [|by apply (hu_chain c byz G HG)]. intros u v (z & Hz & ?). exists z. split; [by apply extend_mono|done].
  - intros x [Hx| ->]%extend_in Ha; [by apply (hu_votes c byz G HG)|by destruct (Hne b Ha)].
  - intros x r i [Hx| ->]%extend_in Hn Hrej; [|by destruct (Hne b Hn)].
    destruct (hu_rule c byz G HG x r i Hx Hn Hrej) as [Hl Hmin]. split.
    + unfold links in *. eapply tc_mono; [|exact Hl]. apply extend_parent.
    + intros y [Hy| ->]%extend_in Ha Hly; [|by destruct (Hne x Hn)].
      apply Hmin; [done|done|]. unfold links in *. by apply extend_tc_inv; [apply old_reference|].
Qed.

(** The new block of an honest authority: above its last block [last], which comes first among
    the ancestors, with a quorum of parents and votes on blocks that none of its blocks links
    yet. *)
Record next_block (last : VerifiedBlock) : Prop := {
  nb_honest : vb_author b ∉ byz;
  nb_last : block_in G last ∧ vb_author last = vb_author b ∧ vb_round last < vb_round b;
  nb_max : ∀ x, block_in G x → vb_author x = vb_author b → vb_round x ≤ vb_round last;
  nb_head : head (vb_ancestors b) = Some (reference last);
  nb_formed : formed;
  nb_votes : NoDup (btv_block_ref <$> vb_transaction_votes b);
  nb_rule : ∀ r i, rejects b r i → (∃ a, a ∈ vb_ancestors b ∧ rtc (parent G) a r) ∧
    ∀ x, block_in G x → vb_author x = vb_author b → ¬ links G x r;
}.

Section Next.
Context (last : VerifiedBlock) (Hb : next_block last).

Lemma next_above x : block_in G x → vb_author x = vb_author b → vb_round x < vb_round b.
Proof. intros Hx Ha. pose proof (nb_max last Hb x Hx Ha). pose proof (nb_last last Hb). lia. Qed.

Lemma extend_own_parent x y : own_parent G x y → own_parent G' x y.
Proof. intros (z & Hz & ?). exists z. split; [by apply extend_mono|done]. Qed.

Lemma extend_chain : honest_chain byz G'.
Proof.
  pose proof (nb_last last Hb) as (Hlast & Hla & Hlr).
  assert (∀ x y, tc (own_parent G) x y → tc (own_parent G') x y) as Hmono
    by (intros x y; apply tc_mono, extend_own_parent).
  intros x y [Hx| ->]%extend_in [Hy| ->]%extend_in Ha Hbyz Hr.
  - by apply Hmono, (hu_chain c byz G HG).
  - pose proof (next_above x Hx Ha). lia.
  - assert (own_parent G' (reference b) (reference last)) as Hstep.
    { exists b. split; [apply extend_self|]. split; [apply (nb_head last Hb)|]. by rewrite !reference_author. }
    pose proof (nb_max last Hb y Hy (eq_sym Ha)) as Hle.
    destruct (decide (vb_round y = vb_round last)) as [He|He].
    + assert (y = last) as ->; [|by apply tc_once].
      apply (bft_honest c byz G (hu_bft c byz G HG)); [done|done| |by rewrite <- Ha].
      unfold Slot_from. rewrite !reference_round, !reference_author. congruence.
    + eapply tc_l; [exact Hstep|]. apply Hmono, (hu_chain c byz G HG); [done|done|congruence|by rewrite Hla|lia].
  - lia.
Qed.

Lemma extend_rule : vote_rule byz G'.
Proof.
  intros x r i [Hx| ->]%extend_in Hbyz Hrej.
  - destruct (hu_rule c byz G HG x r i Hx Hbyz Hrej) as [Hl Hmin]. split.
    + unfold links in *. eapply tc_mono; [|exact Hl]. apply extend_parent.
    + intros y [Hy| ->]%extend_in Ha Hly.
      * apply Hmin; [done|done|]. unfold links in *. by apply extend_tc_inv; [apply old_reference|].
      * pose proof (next_above x Hx (eq_sym Ha)). lia.
  - destruct (nb_rule last Hb r i Hrej) as [(a & Ha & Hp) Hno]. split.
    + unfold links. eapply tc_rtc_r; [apply tc_once; exists b; split; [apply extend_self|exact Ha]|].
      eapply rtc_subrel; [|exact Hp]. apply extend_parent.
    + intros y [Hy| ->]%extend_in Ha' Hly; [|done]. destruct (Hno y Hy Ha').
      unfold links in *. by apply extend_tc_inv; [apply old_reference|].
Qed.

Lemma extend_honest : honest_universe c byz G'.
Proof.
  pose proof (nb_formed last Hb) as Hf. split; [|by apply extend_unique|apply extend_chain| |apply extend_rule].
  { apply extend_bft; [done|]. intros _ x. apply next_above. }
  intros x [Hx| ->]%extend_in Ha; [by apply (hu_votes c byz G HG)|apply (nb_votes last Hb)].
Qed.
End Next.
End Growth.
