(* ===== verification/BlockOrigin.v ===== *)
(** Where the blocks of the manager and of the DAG state come from: the manager holds back only
    blocks that it was given, and what it releases it held before. *)

From stdpp Require Import base tactics numbers list gmap sorting strings.
From coqutil Require Import Datatypes.RecordSettersUsingExistingGetters.
From S2P Require Import Prelude.
From S2P Require Import Committee.
From S2P Require Import Block.
From S2P Require Import Store.
From S2P Require Import DagState.
From S2P Require Import DagInvariant.
From S2P Require Import BlockManager.
From S2P Require Import ProposalState.

Open Scope N_scope.

Section Origin.
Context (T : BlockRef → Prop).

(** Every block held back belongs to [T]. *)
Definition held (m : BlockManager) : Prop :=
  ∀ r s, bm_suspended_blocks m !! r = Some s → reference (sp_block s) = r ∧ T r.

Definition within (bs : list VerifiedBlock) : Prop := ∀ b, b ∈ bs → T (reference b).

Lemma held_ext m m' : bm_suspended_blocks m' = bm_suspended_blocks m → held m → held m'.
Proof. intros He Hm r s. rewrite He. apply Hm. Qed.

Lemma held_delete m r : held m → held (m <| bm_suspended_blocks := delete r (bm_suspended_blocks m) |>).
Proof. intros Hm r' s. cbn. intros [_ Hr]%lookup_delete_Some. by apply Hm. Qed.

Lemma unsuspend_block_held m r x m' out :
  try_unsuspend_block m r x = Ret (m', out) → held m →
  held m' ∧ ∀ s, out = Some s → T (reference (sp_block s)).
Proof.
  unfold try_unsuspend_block. intros (s & Hs & Hrun)%bind_Ret Hm. apply bind_Ret in Hrun as (? & _ & Hrun).
  assert (bm_suspended_blocks m !! r = Some s) as Hr by (destruct (bm_suspended_blocks m !! r); simplify_eq/=; done).
  destruct (Hm r s Hr) as [Href HT]. destruct (bool_decide _); injection Hrun as <- <-.
  - split; [by apply held_delete|]. intros ? [= <-]. cbn. by rewrite Href.
  - split; [|done]. intros r' s'. cbn. intros [[<- <-]|[_ Hr']]%lookup_insert_Some; [done|by apply Hm].
Qed.

Lemma unsuspend_children_held x cs m pending us m' pending' us' :
  foldM (unsuspend_child x) (m, pending, us) cs = Ret (m', pending', us') → held m →
  within (sp_block <$> us) → held m' ∧ within (sp_block <$> us').
Proof.
  intros Hrun Hm Hus.
  apply (foldM_inv (λ acc : BlockManager * list BlockRef * list SuspendedBlock, held acc.1.1 ∧ within (sp_block <$> acc.2))) in Hrun;
    [done|done|].
  intros [[m1 p1] us1] r [[m2 p2] us2] _ [Hm1 Hus1] Hu. cbn in Hm1, Hus1. unfold unsuspend_child in Hu.
  apply bind_Ret in Hu as ([m3 out] & Hu & Hout). destruct (unsuspend_block_held _ _ _ _ _ Hu Hm1) as [Hm3 HT].
  destruct out as [s|]; injection Hout as <- <- <-; (split; [done|]); [|done].
  intros b. cbn. rewrite fmap_app. intros [Hb|Hb]%elem_of_app; [by apply Hus1|].
  apply list_elem_of_singleton in Hb as ->. by apply HT.
Qed.

Lemma unsuspend_loop_held fuel m pending us m' us' :
  unsuspend_loop fuel m pending us = Ret (m', us') → held m → within (sp_block <$> us) →
  held m' ∧ within (sp_block <$> us').
Proof.
  revert m pending us. induction fuel as [|fuel IH]; intros m [|x pending] us Hrun Hm Hus; cbn [unsuspend_loop] in Hrun;
    try done; try (injection Hrun as <- <-; done).
  destruct (bm_missing_ancestors m !! x) as [children|]; [|by eapply IH].
  apply bind_Ret in Hrun as ([[m1 p1] us1] & Hc & Hrun).
  apply unsuspend_children_held in Hc as [Hm1 Hus1]; [|by eapply held_ext|done]. by eapply IH.
Qed.

Lemma unsuspend_held m x m' bs :
  try_unsuspend_children_blocks m x = Ret (m', bs) → held m → held m' ∧ within bs.
Proof.
  intros Hrun Hm. apply bind_Ret in Hrun as ([m1 us] & Hl & Hrun). apply bind_Ret in Hrun as (? & _ & Hrun).
  injection Hrun as <- <-. apply unsuspend_loop_held in Hl; [done|done|]. intros b Hb. by apply elem_of_nil in Hb.
Qed.

Lemma check_ancestors_held r l m miss fetch m' miss' fetch' :
  foldM (check_ancestor r) (m, miss, fetch) l = Ret (m', miss', fetch') → held m → held m'.
Proof.
  intros Hrun Hm.
  apply (foldM_inv (λ acc : BlockManager * gset BlockRef * gset BlockRef, held acc.1.1)) in Hrun; [done|done|].
  intros [[m1 p1] us1] [found a] [[m2 p2] us2] _ Hm1 Hu. cbn in Hm1. unfold check_ancestor in Hu.
  destruct found; [by injection Hu as <- _ _|]. apply bind_Ret in Hu as (? & _ & Hu).
  destruct (bm_suspended_blocks _ !! a); injection Hu as <- _ _; by eapply held_ext.
Qed.

Section WithDag.
Context {S : Type} `{StoreSpec S}.
Implicit Types d : DagState S.

(** The cache holds blocks of [T] only. *)
Definition cached_in d : Prop := ∀ r, is_Some (ds_recent_blocks d !! r) → T r.

Lemma accept_blocks_cached bs d d' : accept_blocks d bs = Ret d' → within bs → cached_in d → cached_in d'.
Proof.
  intros Hrun Hbs Hd. apply (foldM_inv cached_in) in Hrun; [done|done|].
  intros d1 b d2 Hb Hd1 Ha. destruct (accept_block_clock d1 b d2 Ha) as [-> |(t & adv & _ & _ & _ & Hrec & _)]; [done|].
  intros r. rewrite Hrec. destruct (decide (r = reference b)) as [-> |]; [by intros _; apply Hbs|].
  rewrite lookup_insert_ne by done. apply Hd1.
Qed.

Lemma received_held m b m' : update_block_received_metrics m b = Ret m' → held m → held m'.
Proof.
  intros Hrun Hm. apply bind_Ret in Hrun as (? & _ & Hrun). apply bind_Ret in Hrun as (? & _ & Hrun).
  apply bind_Ret in Hrun as (? & _ & Hrun). injection Hrun as <-. by eapply held_ext.
Qed.

Lemma accept_one_block_held m d b m' res :
  try_accept_one_block m d b = Ret (m', res) → held m → T (reference b) →
  held m' ∧ ∀ b', res = TarAccepted b' → b' = b.
Proof.
  intros Hrun Hm Hb. apply bind_Ret in Hrun as (kn & _ & Hrun).
  destruct kn; [injection Hrun as <- <-; done|]. destruct (_ <=? _).
  { apply bind_Ret in Hrun as (? & _ & Hrun). injection Hrun as <- <-. done. }
  apply bind_Ret in Hrun as (found & _ & Hrun). apply bind_Ret in Hrun as ([[m1 miss] fetch] & Hc & Hrun).
  apply check_ancestors_held in Hc; [|done]. destruct (bool_decide (miss = ∅)).
  { injection Hrun as <- <-. split; [by eapply held_ext|]. by intros ? [= ->]. }
  apply bind_Ret in Hrun as (? & _ & Hrun). injection Hrun as <- <-. split; [|done].
  intros r s. cbn. intros [[<- <-]|[_ Hr]]%lookup_insert_Some; [done|by apply Hc].
Qed.

Lemma accept_one_origin committed m d acc miss b m' d' acc' miss' :
  accept_one committed (m, d, acc, miss) b = Ret (m', d', acc', miss') → held m → cached_in d → T (reference b) →
  held m' ∧ cached_in d'.
Proof.
  unfold accept_one. intros (m1 & Hrec & Hrun)%bind_Ret Hm Hd Hb. apply received_held in Hrec; [|done].
  destruct committed.
  - apply bind_Ret in Hrun as ([[m2 d2] res] & Hc & Hrun). unfold try_accept_one_committed_block in Hc.
    apply bind_Ret in Hc as (contained & _ & Hc). destruct contained.
    { injection Hc as <- <- <-. injection Hrun as <- <- _ _. done. }
    apply bind_Ret in Hc as (d3 & Ha & Hc). injection Hc as <- <- <-.
    apply bind_Ret in Hrun as ([m4 us] & Hu & Hrun). apply bind_Ret in Hrun as (d5 & Ha2 & Hrun).
    injection Hrun as <- <- _ _. apply accept_blocks_cached in Ha; [|by intros ? ->%list_elem_of_singleton|done].
    apply unsuspend_held in Hu as [Hm4 Hus].
    + split; [done|]. by eapply accept_blocks_cached.
    + case_match; [|by eapply held_ext]. eapply held_ext; [|by apply (held_delete m1 (reference b))]. done.
  - apply bind_Ret in Hrun as ([m2 res] & Hc & Hrun).
    destruct (accept_one_block_held _ _ _ _ _ Hc Hrec Hb) as [Hm2 Hres].
    destruct res as [b'|fetch| |]; try (injection Hrun as <- <- _ _; done).
    apply bind_Ret in Hrun as ([m4 us] & Hu & Hrun). apply bind_Ret in Hrun as (d5 & Ha2 & Hrun).
    injection Hrun as <- <- _ _. apply unsuspend_held in Hu as [Hm4 Hus]; [|done]. split; [done|].
    eapply accept_blocks_cached; [exact Ha2| |done].
    intros x [->%list_elem_of_singleton|Hx]%elem_of_app; [by rewrite (Hres b' eq_refl)|by apply Hus].
Qed.

Lemma accept_origin committed m d blocks m' d' acc miss :
  try_accept_blocks_internal m d blocks committed = Ret (m', d', acc, miss) → held m → cached_in d →
  within blocks → held m' ∧ cached_in d'.
Proof.
  intros Hrun Hm Hd Hb.
  apply (foldM_inv (λ a : BlockManager * DagState S * list VerifiedBlock * gset BlockRef, held a.1.1.1 ∧ cached_in a.1.1.2))
    in Hrun; [done|done|].
  intros [[[m1 d1] a1] x1] b [[[m2 d2] a2] x2] Hin [Hm1 Hd1] Hone. eapply accept_one_origin; [done..|].
  apply Hb. by rewrite <- (isort_perm round_leb blocks).
Qed.

Lemma gc_loop_origin fuel g m d m' d' :
  gc_loop fuel g m d = Ret (m', d') → held m → cached_in d → held m' ∧ cached_in d'.
Proof.
  revert m d. induction fuel as [|fuel IH]; intros m d Hrun Hm Hd; cbn [gc_loop] in Hrun;
    destruct (head _) as [[x v]|]; try (injection Hrun as <- <-; done);
    destruct (g <? br_round x); try (injection Hrun as <- <-; done); [done|].
  apply bind_Ret in Hrun as (? & _ & Hrun). apply bind_Ret in Hrun as (? & _ & Hrun).
  apply bind_Ret in Hrun as ([m1 us] & Hu & Hrun). apply bind_Ret in Hrun as (d1 & Ha & Hrun).
  apply bind_Ret in Hrun as (? & _ & Hrun). apply unsuspend_held in Hu as [Hm1 Hus]; [|by eapply held_ext].
  eapply IH; [done|done|]. by eapply accept_blocks_cached.
Qed.
End WithDag.
End Origin.
