(* ===== verification/CommitProgress.v ===== *)
(** The progress of consensus on a universe of blocks: the sequence of leader decisions, the
    commits, and the leader schedule that the commits determine. The progress of any two
    validators is the same up to its length, through changes of the schedule, and survives
    the growth of the universe. *)

From stdpp Require Import base tactics numbers list gmap sorting strings.
From coqutil Require Import Datatypes.RecordSettersUsingExistingGetters.
From S2P Require Import Prelude.
From S2P Require Import Committee.
From S2P Require Import Block.
From S2P Require Import StakeAggregator.
From S2P Require Import Commit.
From S2P Require Import Store.
From S2P Require Import LeaderScoring.
From S2P Require Import DagState.
From S2P Require Import DagInvariant.
From S2P Require Import LeaderSchedule.
From S2P Require Import BaseCommitter.
From S2P Require Import CommitSafety.
From S2P Require Import UniversalCommitter.
From S2P Require Import Linearizer.
From S2P Require Import TransactionCertifier.
From S2P Require Import FinalizerSafety.
From S2P Require Import Growth.

Open Scope N_scope.

(** * Lists *)

Lemma filter_ext_elem {A} (p q : A → bool) (l : list A) : (∀ x, x ∈ l → p x = q x) → filter p l = filter q l.
Proof.
  induction l as [|x l IH]; intros Hpq; [done|]. rewrite !filter_cons, IH by (intros; apply Hpq; by right).
  rewrite (Hpq x) by left. done.
Qed.

Lemma omap_ext_elem {A B} (f g : A → option B) (l : list A) : (∀ x, x ∈ l → f x = g x) → omap f l = omap g l.
Proof.
  intros Hfg. apply list_omap_ext, Forall_Forall2_diag, Forall_forall. exact Hfg.
Qed.

Lemma first_at_elem slot v r : first_at slot v = Some r → r ∈ vb_ancestors v.
Proof.
  unfold first_at. intros Hr. assert (r ∈ filter (λ a, Slot_from a = slot) (vb_ancestors v)) as Hf.
  { destruct (filter _ _); simplify_eq/=. left. }
  by apply list_elem_of_filter in Hf as [_ ?].
Qed.

(** * Decisions and progress *)

(** Some view whose last commit is below [lo] holds the commits of the statuses. *)
Definition seen (c : Committee) (G : universe) (lo : N) (sts : list LeaderStatus) : Prop :=
  ∃ (S : Type) (_ : Store S) (_ : StoreSpec S) (d : DagState S),
    view_of c G d ∧ last_commit_round d < lo ∧ local_commits d sts.

(** The leader of round [r] is decided as [st] on the strength of the rounds above. *)
Definition decides (c : Committee) (G : universe) (lead : N → N) (r : N) (st : LeaderStatus) : Prop :=
  ∃ hi sts, decided_seq c G (lead_slot lead <$> round_range r hi) (st :: sts) ∧
    LeaderStatus_is_decided st = true ∧ seen c G r (st :: sts).

Lemma decides_unique c byz G lead r st st' :
  bft c byz G → decides c G lead r st → decides c G lead r st' → st = st'.
Proof.
  intros HG (hi & sts & Hs & Hd & (S & HS & HSS & d & Hv & Hl & Hloc))
    (hi' & sts' & Hs' & Hd' & (S' & HS' & HSS' & d' & Hv' & Hl' & Hloc')).
  eapply (sequences_agree c byz G HG lead d d' r hi _ r hi' _ 0 0); try done.
Qed.

(** What the commits so far determine: the log, the swap table of the leader schedule and
    the sub-DAGs scored for the next one. *)
Record progress_state := mkProgress {
  pg_log : commit_log;
  pg_table : LeaderSwapTable;
  pg_scoring : ScoringSubdag;
}.

Section Progress.
Context `{LeaderRng} `{Crypto} `{CommitCodec}.

(** The schedule changes after [n] scored commits. *)
Definition renew (ctx : Context) (n : N) (st : progress_state) : outcome progress_state :=
  count ← scored_subdags_count (pg_scoring st);
  if count =? n then
    scores ← calculate_distributed_vote_scores (committee ctx) (pg_scoring st);
    range ← expect (ss_commit_range (pg_scoring st));
    table ← LeaderSwapTable_new ctx (CommitRange_end range) scores;
    Ret (mkProgress (pg_log st) table ScoringSubdag_new)
  else Ret st.

Lemma renew_log ctx n st st1 : renew ctx n st = Ret st1 → pg_log st1 = pg_log st.
Proof.
  unfold renew. intros (count & _ & Hr)%bind_Ret. destruct (count =? n); [|by injection Hr as <-].
  do 3 (apply bind_Ret in Hr as (? & _ & Hr)). by injection Hr as <-.
Qed.

(** A decision: a skipped leader changes nothing, a committed one adds a sub-DAG. *)
Inductive advance (ctx : Context) (G : universe) (st : progress_state) :
    LeaderStatus → progress_state → list CommittedSubDag → Prop :=
| adv_skip s : advance ctx G st (LsSkip s) st []
| adv_commit L sd log scoring :
    commits ctx G (pg_log st) L sd log → commit_facts ctx G (pg_log st) L sd log →
    (∀ b, b ∈ sd_blocks sd → is_valid_index (committee ctx) (vb_author b) = true) →
    add_subdag (committee ctx) (pg_scoring st) sd = Ret scoring →
    advance ctx G st (LsCommit L) (mkProgress log (pg_table st) scoring) [sd].

Definition elects (ctx : Context) (n : N) (table : LeaderSwapTable) (lead : N → N) : Prop :=
  ∀ r, schedule_elect_leader (mkLeaderSchedule table ctx n) r 0 = Ret (lead r).

Inductive progress (ctx : Context) (n : N) (G : universe) :
    list LeaderStatus → progress_state → list CommittedSubDag → Prop :=
| pg_start : progress ctx n G [] (mkProgress (mkCommitLog ∅ None) LeaderSwapTable_default ScoringSubdag_new) []
| pg_step hist st sds st1 lead status st2 new :
    progress ctx n G hist st sds → renew ctx n st = Ret st1 → elects ctx n (pg_table st1) lead →
    decides (committee ctx) G lead (N.of_nat (length hist) + 1) status → advance ctx G st1 status st2 new →
    progress ctx n G (hist ++ [status]) st2 (sds ++ new).

(** Contexts of two validators of the same epoch. *)
Definition same_rules (ctx ctx' : Context) : Prop :=
  committee ctx' = committee ctx ∧ protocol_config ctx' = protocol_config ctx.

Section Deterministic.
Context (ctx1 ctx2 : Context) (n : N) (byz : gset N) (G : universe).
Context (Hsame : same_rules ctx1 ctx2) (HG : bft (committee ctx1) byz G).

Lemma renew_same st : renew ctx2 n st = renew ctx1 n st.
Proof. unfold renew, LeaderSwapTable_new, new_inner. destruct Hsame as [-> ->]. done. Qed.

Lemma elects_same table lead : elects ctx2 n table lead ↔ elects ctx1 n table lead.
Proof.
  unfold elects, schedule_elect_leader, elect_leader_stake_based. cbn [schedule_context leader_swap_table].
  destruct Hsame as [-> _]. done.
Qed.

Lemma advance_det st status st1 new1 st2 new2 :
  advance ctx1 G st status st1 new1 → advance ctx2 G st status st2 new2 → st1 = st2 ∧ new1 = new2.
Proof.
  intros [s|L sd log scoring Hc _ _ Ha] H2; inversion H2 as [|? sd' log' scoring' Hc' _ _ Ha']; subst; [done|].
  destruct (commits_det ctx1 ctx2 G (pg_log st) L sd log sd' log') as [-> ->]; [|done|done|].
  { destruct Hsame as [Hc1 Hp1]. unfold same_epoch. by rewrite Hc1, Hp1. }
  destruct Hsame as [Hc1 _]. rewrite Hc1, Ha in Ha'. injection Ha' as ->. done.
Qed.

(** The next decision and its effect are determined. *)
Lemma next_det (hist : list LeaderStatus) st st1 st2 lead1 lead2 status1 status2 st1' st2' new1 new2 :
  renew ctx1 n st = Ret st1 → renew ctx2 n st = Ret st2 →
  elects ctx1 n (pg_table st1) lead1 → elects ctx2 n (pg_table st2) lead2 →
  decides (committee ctx1) G lead1 (N.of_nat (length hist) + 1) status1 →
  decides (committee ctx2) G lead2 (N.of_nat (length hist) + 1) status2 →
  advance ctx1 G st1 status1 st1' new1 → advance ctx2 G st2 status2 st2' new2 →
  status1 = status2 ∧ st1' = st2' ∧ new1 = new2.
Proof.
  intros Hr1 Hr2 He1 He2 Hd1 Hd2 Ha1 Ha2. rewrite renew_same, Hr1 in Hr2. injection Hr2 as <-.
  rewrite elects_same in He2. destruct Hsame as [Hc _]. rewrite Hc in Hd2.
  assert (status1 = status2) as <-.
  { assert (∀ r, lead2 r = lead1 r) as Hl by (intros r; specialize (He1 r); specialize (He2 r); congruence).
    apply (decides_unique (committee ctx1) byz G lead1 (N.of_nat (length hist) + 1)); [done|done|].
    destruct Hd2 as (hi & sts & Hs & ?). exists hi, sts. split; [|done].
    erewrite (list_fmap_ext (lead_slot lead1)); [exact Hs|]. intros i r _. unfold lead_slot. by rewrite Hl. }
  split; [done|]. by eapply advance_det.
Qed.

Lemma progress_det hist1 st1 sds1 hist2 st2 sds2 :
  progress ctx1 n G hist1 st1 sds1 → progress ctx2 n G hist2 st2 sds2 → length hist1 = length hist2 →
  hist1 = hist2 ∧ st1 = st2 ∧ sds1 = sds2.
Proof.
  intros Hp1 Hp2. revert hist2 st2 sds2 Hp2.
  induction Hp1 as [|hist st sds st1 lead status st1' new Hp1 IH Hr He Hd Ha];
    intros hist2 st2 sds2 Hp2 Hlen;
    destruct Hp2 as [|hist2 st2 sds2 st3 lead2 status2 st2' new2 Hp2 Hr2 He2 Hd2 Ha2];
    rewrite ?length_app in Hlen; cbn in Hlen; [done|lia|lia|].
  destruct (IH _ _ _ Hp2) as (<- & <- & <-); [lia|].
  destruct (next_det hist st st1 st3 lead lead2 status status2 st1' st2' new new2) as (-> & -> & ->); done.
Qed.
End Deterministic.

Lemma progress_take ctx n G hist st sds k :
  progress ctx n G hist st sds → ∃ st' sds', progress ctx n G (take k hist) st' sds' ∧ sds' `prefix_of` sds.
Proof.
  induction 1 as [|hist st sds st1 lead status st2 new Hp IH Hr He Hd Ha].
  { rewrite take_nil. eexists _, _. split; [constructor|done]. }
  destruct (decide (k ≤ length hist)%nat).
  - rewrite take_app_le by done. destruct IH as (st' & sds' & ? & ?). eexists _, _. split; [done|].
    by apply prefix_app_r.
  - rewrite take_ge by (rewrite length_app; cbn; lia). eexists _, _. split; [by econstructor|done].
Qed.

(** Of the progress of two validators one is the start of the other. *)
Lemma progress_comparable ctx1 ctx2 n byz G hist1 st1 sds1 hist2 st2 sds2 :
  same_rules ctx1 ctx2 → bft (committee ctx1) byz G →
  progress ctx1 n G hist1 st1 sds1 → progress ctx2 n G hist2 st2 sds2 →
  (length hist1 ≤ length hist2)%nat → hist1 `prefix_of` hist2 ∧ sds1 `prefix_of` sds2.
Proof.
  intros Hs HG Hp1 Hp2 Hlen.
  destruct (progress_take ctx2 n G hist2 st2 sds2 (length hist1) Hp2) as (st & sds & Ht & Hpre).
  destruct (progress_det ctx1 ctx2 n byz G Hs HG _ _ _ _ _ _ Hp1 Ht) as (Heq & _ & ->).
  { rewrite length_take. lia. }
  split; [|done]. rewrite Heq. eexists. symmetry. apply take_drop.
Qed.
End Progress.

(** * Growth of the universe *)

Section Mono.
Context (c : Committee) (byz : gset N) (G : universe) (b : VerifiedBlock).
Context (HG : honest_universe c byz G) (Hfresh : unreferenced G (reference b)).
Let G' := extend G b.

Lemma old_ancestor x r : block_in G x → r ∈ vb_ancestors x → G' r = G r.
Proof.
  intros Hx Hr. unfold G', extend. case_decide as He; [|done]. subst r. by destruct (proj2 Hfresh x Hx).
Qed.

Lemma block_in_mono x : block_in G x → block_in G' x.
Proof. intros Hx. apply (extend_mono G b Hfresh), Hx. Qed.

Lemma certifies_mono L C : block_in G C → certifies G' c L C = certifies G c L C.
Proof.
  intros HC. unfold certifies. do 4 f_equal. apply filter_ext_elem. intros r Hr.
  unfold vote_of. by rewrite (old_ancestor C r HC Hr).
Qed.

Lemma certified_link_mono A L : block_in G A → certified_link c G' A L ↔ certified_link c G A L.
Proof.
  intros HA. split; intros (C & HC & Hr & Hr' & Hp & Hcert).
  - assert (rtc (parent G) (reference A) (reference C)) as HpG.
    { eapply (extend_rtc_inv c byz G b HG Hfresh); [|exact Hp]. by apply (old_reference G b Hfresh). }
    apply (extend_in G b Hfresh) in HC as [HC| ->].
    + exists C. rewrite certifies_mono in Hcert by done. done.
    + exfalso. apply rtc_inv_r in HpG as [He|(x & _ & y & Hy & Hxy)].
      * by apply (old_reference G b Hfresh A HA).
      * apply (proj2 Hfresh y); [|done]. unfold block_in. by rewrite (bft_ref c byz G (hu_bft c byz G HG) x y Hy).
  - exists C. rewrite certifies_mono by done. split_and!; try done; [by apply block_in_mono|].
    eapply rtc_subrel; [|exact Hp]. apply (extend_parent G b Hfresh).
Qed.

(** No block refers to the new one: it is not certified. *)
Lemma new_not_certified A : block_in G A → ¬ certified_link c G' A b.
Proof.
  intros HA (C & HC & _ & _ & _ & Hcert)%certified_link_mono; [|done].
  destruct (quorum_nonempty c byz G (hu_bft c byz G HG) _ Hcert) as [i Hi].
  apply elem_of_list_to_set, list_elem_of_fmap in Hi as (r & _ & Hr).
  apply list_elem_of_filter in Hr as [Hv%Is_true_true Hr]. unfold vote_of in Hv. destruct (G r) as [v|] eqn:Hg; [|done].
  unfold votes_for in Hv. apply bool_decide_eq_true in Hv. apply first_at_elem in Hv.
  apply (proj2 Hfresh v); [|done]. unfold block_in. by rewrite (bft_ref c byz G (hu_bft c byz G HG) r v Hg).
Qed.

Lemma direct_decides_mono s st : direct_decides c G s st → direct_decides c G' s st.
Proof.
  destruct st as [L|s'|s']; simpl; [| |done].
  - intros (HL & Hs & X & HX & Hsup). split; [by apply block_in_mono|]. split; [done|]. exists X. split; [done|].
    intros i (C & HC & ? & ? & ?)%Hsup. exists C. rewrite certifies_mono by done. by apply block_in_mono in HC.
  - intros (-> & X & HX & Hbl). split; [done|]. exists X. split; [done|].
    intros i (x & Hx & ?)%Hbl. exists x. by apply block_in_mono in Hx.
Qed.

Lemma anchor_decides_mono A s st : block_in G A → anchor_decides c G A s st → anchor_decides c G' A s st.
Proof.
  intros HA. destruct st as [L|s'|s']; simpl; [| |done].
  - intros (HL & Hs & Hl). split; [by apply block_in_mono|]. split; [done|]. by apply certified_link_mono.
  - intros (-> & Hno). split; [done|]. intros L [HL| ->]%(extend_in G b Hfresh) Hs; [|by apply new_not_certified].
    rewrite certified_link_mono by done. by apply Hno.
Qed.

Lemma decided_seq_in ss sts L : decided_seq c G ss sts → LsCommit L ∈ sts → block_in G L.
Proof.
  induction 1 as [|s ss st sts Hs IH Hd Hdir|s ss st sts Hs IH Hm]; intros HL; [by apply elem_of_nil in HL|..];
    apply elem_of_cons in HL as [<-|HL]; auto.
  - apply Hdir.
  - destruct (find_anchor _ sts); [apply Hm|done].
Qed.

Lemma decided_seq_mono ss sts : decided_seq c G ss sts → decided_seq c G' ss sts.
Proof.
  induction 1 as [|s ss st sts Hs IH Hd Hdir|s ss st sts Hs IH Hm]; [constructor|..].
  - apply seq_direct; [done|done|]. by apply direct_decides_mono.
  - apply seq_indirect; [done|]. destruct (find_anchor _ sts) as [A|] eqn:HA; [|done].
    apply anchor_decides_mono; [|done]. apply (decided_seq_in ss sts A Hs). by eapply find_anchor_Some.
Qed.

Lemma view_mono {S} `{StoreSpec S} (d : DagState S) : view_of c G d → view_of c G' d.
Proof. intros [? ? Hsub]. split; [done|done|]. intros r x Hx. by apply (extend_mono G b Hfresh), Hsub. Qed.

Lemma decides_mono lead r st : decides c G lead r st → decides c G' lead r st.
Proof.
  intros (hi & sts & Hs & Hd & (S & HS & HSS & d & Hv & Hl & Hloc)). exists hi, sts.
  split; [by apply decided_seq_mono|]. split; [done|]. exists S, HS, HSS, d. by apply view_mono in Hv.
Qed.

Lemma lin_mono g C buffer acc C' out :
  (∀ x, x ∈ buffer → block_in G x) → lin G g C buffer acc C' out → lin G' g C buffer acc C' out.
Proof.
  intros Hin Hl. induction Hl as [|C x buffer acc C' out Hl IH]; [constructor|]. constructor.
  assert (omap G' (fresh_refs g C x) = omap G (fresh_refs g C x)) as ->.
  { apply omap_ext_elem. intros r Hr. apply (old_ancestor x); [set_solver|]. by apply list_elem_of_filter in Hr as [_ ?]. }
  apply IH. intros y [Hy|Hy]%elem_of_app; [|set_solver]. apply elem_of_reverse, list_elem_of_omap in Hy as (r & _ & Hy).
  unfold block_in. by rewrite (bft_ref c byz G (hu_bft c byz G HG) r y Hy).
Qed.

Lemma commits_mono `{Crypto} `{CommitCodec} ctx log L sd log' :
  block_in G L → commits ctx G log L sd log' → commits ctx G' log L sd log'.
Proof.
  intros HL (C' & out & ts & ser & Hlin & Hmed & Hrest). exists C', out, ts, ser. split.
  - apply lin_mono; [|done]. intros x ->%list_elem_of_singleton. done.
  - split; [|exact Hrest]. rewrite <- Hmed. f_equal. apply omap_ext_elem.
    intros r [_ Hr]%list_elem_of_filter. by apply (old_ancestor L).
Qed.

Lemma commit_facts_mono ctx log L sd log' : commit_facts ctx G log L sd log' → commit_facts ctx G' log L sd log'.
Proof.
  intros [? ? Hin ? ? ? ? ? ? ? ? ?]. split; try done. intros x (Hx & ? & Hp)%Hin. split_and!; [by apply block_in_mono|done|].
  eapply rtc_subrel; [|exact Hp]. apply (extend_parent G b Hfresh).
Qed.

Lemma progress_mono `{LeaderRng} `{Crypto} `{CommitCodec} ctx n hist st sds :
  committee ctx = c → progress ctx n G hist st sds → progress ctx n G' hist st sds.
Proof.
  intros Hctx. induction 1 as [|hist st sds st1 lead status st2 new Hp IH Hr He Hd Ha]; [constructor|].
  econstructor; [done..| |].
  - rewrite Hctx in Hd |- *. by apply decides_mono.
  - destruct Ha as [s|L sd log scoring Hco Hf Hv Hadd]; constructor; [|by apply commit_facts_mono|done|done].
    apply commits_mono; [|done]. destruct Hd as (hi & sts & Hs & _). rewrite Hctx in Hs.
    apply (decided_seq_in _ _ L Hs). left.
Qed.
End Mono.
