(* ===== verification/ScheduleProgress.v ===== *)
(** The leader schedule along the progress of consensus: scoring the committed sub-DAGs never
    panics, windows of commits follow each other, and the schedule of every window elects
    members of the committee. *)

From stdpp Require Import base tactics numbers list gmap sorting strings.
From coqutil Require Import Datatypes.RecordSettersUsingExistingGetters.
From S2P Require Import Prelude.
From S2P Require Import Committee.
From S2P Require Import Block.
From S2P Require Import StakeAggregator.
From S2P Require Import Commit.
From S2P Require Import Store.
From S2P Require Import LeaderScoring.
From S2P Require Import DagState.
From S2P Require Import DagInvariant.
From S2P Require Import LeaderSchedule.
From S2P Require Import BaseCommitter.
From S2P Require Import CommitSafety.
From S2P Require Import UniversalCommitter.
From S2P Require Import Linearizer.
From S2P Require Import CommitProgress.

Open Scope N_scope.

(** * Scores *)

Section Scoring.
Context (c : Committee) (Hc : committee_wf c).

Definition votes_from (T : BlockRef → Prop) (votes : gmap BlockRef StakeAggregator) : Prop :=
  ∀ r agg, votes !! r = Some agg → T r ∧ is_valid_index c (br_author r) = true ∧ ∃ A, agg_repr c A agg.

(** Leaders of distinct rounds, and votes of committed blocks. *)
Record scoring_ok (log : commit_log) (s : ScoringSubdag) : Prop := {
  sk_votes : votes_from (λ r, r ∈ log_committed log) (ss_votes s);
  sk_leaders : ∀ r, r ∈ ss_leaders s → br_round r ≤ log_round log;
  sk_distinct : ∀ r r', r ∈ ss_leaders s → r' ∈ ss_leaders s → br_round r = br_round r' → r = r';
}.

Lemma scoring_ok_new log : scoring_ok log ScoringSubdag_new.
Proof.
  split; cbn.
  - intros r agg. by rewrite lookup_empty.
  - intros r Hr. by apply not_elem_of_empty in Hr.
  - intros r r' Hr. by apply not_elem_of_empty in Hr.
Qed.

Section Votes.
Context (T : BlockRef → Prop) (leaders : gset BlockRef).
Context (Hdistinct : ∀ r r', r ∈ leaders → r' ∈ leaders → br_round r = br_round r' → r = r').

Lemma votes_insert votes r agg A :
  votes_from T votes → T r → is_valid_index c (br_author r) = true → agg_repr c A agg →
  votes_from T (<[r := agg]> votes).
Proof.
  intros Hv Hr Hi Ha r' agg' [[<- <-]|[_ ?]]%lookup_insert_Some; [|by apply Hv]. split; [done|]. split; [done|]. by exists A.
Qed.

(** A block votes for a leader at most once. *)
Lemma add_ancestor_spec b a votes :
  is_valid_index c (vb_author b) = true → T (reference b) → votes_from T votes →
  (a ∈ leaders → br_round a = vb_round b - 1 → votes !! reference b = None) →
  ∃ votes', scoring_add_ancestor c leaders b votes a = Ret votes' ∧ votes_from T votes' ∧
    ∀ r, is_Some (votes' !! r) → is_Some (votes !! r) ∨ r = reference b ∧ a ∈ leaders ∧ br_round a = vb_round b - 1.
Proof.
  intros Hb HT Hv Hone. unfold scoring_add_ancestor.
  destruct (N.eqb_spec (br_round a) (saturating_sub (vb_round b) 1)) as [Hround|_]; cbn [negb]; [|by exists votes; auto].
  set (votes1 := if decide (a ∈ leaders) then <[reference b := StakeAggregator_new]> votes else votes).
  assert ((if decide (a ∈ leaders) then
             _ ← assert_that (bool_decide (votes !! reference b = None));
             Ret (<[reference b := StakeAggregator_new]> votes) else Ret votes) = Ret votes1) as ->.
  { unfold votes1. case_decide as Hl; [|done]. by rewrite bool_decide_true by auto. }
  assert (votes_from T votes1) as Hv1.
  { unfold votes1. case_decide; [|done]. apply (votes_insert _ _ _ ∅); [done..|apply agg_repr_new]. }
  assert (∀ r, is_Some (votes1 !! r) →
    is_Some (votes !! r) ∨ r = reference b ∧ a ∈ leaders ∧ br_round a = vb_round b - 1) as Hsub.
  { intros r. unfold votes1. case_decide; [|by left]. destruct (decide (r = reference b)); [by right|].
    rewrite lookup_insert_ne by done. by left. }
  cbn [mbind outcome_bind]. destruct (votes1 !! a) as [agg|] eqn:Hagg; [|by eexists].
  destruct (Hv1 a agg Hagg) as (HTa & Hva & A & HA).
  destruct (agg_add_repr c Hc QuorumThreshold A agg (vb_author b) HA Hb) as (agg' & -> & HA').
  cbn [mbind outcome_bind]. eexists. split; [done|]. split; [by eapply votes_insert|]. intros r Hr. apply Hsub.
  destruct (decide (r = a)) as [-> |]; [by rewrite Hagg|by rewrite lookup_insert_ne in Hr].
Qed.

Lemma add_ancestors_spec b l votes :
  is_valid_index c (vb_author b) = true → T (reference b) → NoDup l → votes_from T votes →
  (votes !! reference b = None ∨ ∀ r, r ∈ l → r ∈ leaders → br_round r ≠ vb_round b - 1) →
  ∃ votes', foldM (scoring_add_ancestor c leaders b) votes l = Ret votes' ∧ votes_from T votes' ∧
    ∀ r, is_Some (votes' !! r) → is_Some (votes !! r) ∨ r = reference b.
Proof.
  intros Hb HT. revert votes. induction l as [|a l IH]; intros votes Hnd Hv Hone; [by exists votes; eauto|].
  apply NoDup_cons in Hnd as [Ha Hnd].
  destruct (add_ancestor_spec b a votes) as (votes1 & Hrun & Hv1 & Hsub); [done..| |].
  { intros Hl Hr. destruct Hone as [?|Hone]; [done|]. by destruct (Hone a (list_elem_of_here _ _)). }
  cbn [foldM]. rewrite Hrun. cbn [mbind outcome_bind].
  destruct (IH votes1 Hnd Hv1) as (votes' & Hrun' & Hv' & Hsub').
  { destruct (decide (Exists (λ r, r ∈ leaders ∧ br_round r = vb_round b - 1) l)) as [(r & Hr & Hl & Hround)%Exists_exists|Hno].
    - left. apply eq_None_not_Some. intros [Hs|(_ & Hla & Hra)]%Hsub.
      + destruct Hone as [Hn|Hone]; [by rewrite Hn in Hs; destruct Hs|]. destruct (Hone r); [by right|done|done].
      + apply Ha. assert (r = a) as <-; [|done]. apply Hdistinct; [done|done|]. by rewrite Hround.
    - right. intros r Hr Hl He. apply Hno, Exists_exists. by exists r. }
  exists votes'. split; [done|]. split; [done|]. intros r [Hr|?]%Hsub'; [|by right].
  apply Hsub in Hr as [?|[? _]]; auto.
Qed.

Lemma add_votes_spec blocks votes :
  (∀ b, b ∈ blocks → is_valid_index c (vb_author b) = true ∧ NoDup (vb_ancestors b) ∧ T (reference b) ∧
     votes !! reference b = None) →
  NoDup (reference <$> blocks) → votes_from T votes →
  ∃ votes', foldM (scoring_add_block c leaders) votes blocks = Ret votes' ∧ votes_from T votes'.
Proof.
  revert votes. induction blocks as [|b blocks IH]; intros votes Hbs Hnd Hv; [by eexists|].
  apply NoDup_cons in Hnd as [Hb Hnd]. destruct (Hbs b) as (Hval & Hanc & HT & Hnone); [left|].
  destruct (add_ancestors_spec b (vb_ancestors b) votes) as (votes1 & Hrun & Hv1 & Hsub); [done..|by left|].
  cbn [foldM]. assert (scoring_add_block c leaders votes b = Ret votes1) as -> by exact Hrun.
  cbn [mbind outcome_bind]. apply IH; [|done|done].
  intros b' Hb'. destruct (Hbs b') as (? & ? & ? & Hn'); [by right|]. split_and!; try done.
  apply eq_None_not_Some. intros [Hs|He]%Hsub; [by rewrite Hn' in Hs; destruct Hs|].
  apply Hb. rewrite <- He. by apply list_elem_of_fmap_2.
Qed.
End Votes.

(** The scores of a window: one per authority. *)
Lemma scores_spec T s :
  votes_from T (ss_votes s) →
  ∃ l, distributed_votes_scores c s = Ret l ∧ length l = length (committee_authorities c).
Proof.
  intros Hv. unfold distributed_votes_scores. unfold Committee_size. rewrite Nat2N.id.
  assert (∀ r agg, (r, agg) ∈ map_iter BlockRef_leb (ss_votes s) → is_valid_index c (br_author r) = true) as Hval.
  { intros r agg Hin. apply elem_of_map_iter in Hin. by destruct (Hv r agg Hin) as (_ & ? & _). }
  revert Hval. generalize (map_iter BlockRef_leb (ss_votes s)). intros votes.
  generalize (replicate (length (committee_authorities c)) 0) (length_replicate (length (committee_authorities c)) 0).
  induction votes as [|[r agg] votes IH]; intros scores Hlen Hval; [by exists scores|].
  assert (N.to_nat (br_author r) < length scores)%nat as Hlt.
  { rewrite Hlen. pose proof (Hval r agg (list_elem_of_here _ _)) as Hi. apply bool_decide_eq_true in Hi. unfold Committee_size in Hi. lia. }
  destruct (lookup_lt_is_Some_2 _ _ Hlt) as [old Hold].
  cbn [foldM]. rewrite (proj2 (vec_get_Ret scores (br_author r) old) Hold). cbn [mbind outcome_bind].
  unfold vec_set. rewrite decide_True by done. cbn [mbind outcome_bind]. apply IH; [by rewrite length_insert|].
  intros r' agg' Hin. by eapply Hval; right.
Qed.
End Scoring.

(** * Windows of commits *)

Lemma decides_round c G lead r st : decides c G lead r st → slot_round (status_slot st) = r.
Proof.
  intros (hi & sts & Hs & _). apply decided_seq_slots in Hs.
  apply (f_equal (λ l : list Slot, l !! 0%nat)) in Hs. cbn in Hs. symmetry in Hs.
  apply lead_slots_lookup in Hs as [-> _]. cbn. lia.
Qed.

Section Windows.
Context `{LeaderRngSpec} `{Crypto} `{CommitCodec}.
Context (ctx : Context) (n : N) (G : universe).
Let c := committee ctx.
Let threshold := consensus_bad_nodes_stake_threshold (protocol_config ctx).

(** The assumptions on the epoch: the percentage of stake that is swapped is at most a third
    and no authority holds more than it. *)
Record schedule_env : Prop := {
  se_committee : committee_wf c;
  se_positive : 0 < n;
  se_threshold : threshold ≤ 33;
  se_overflow : threshold * committee_total_stake c < 2 ^ 64;
  se_stakes : ∀ i, stake_of c i ≤ stake_limit c threshold;
}.

(** The range of commits after [lo], up to the last one. *)
Definition range_after (lo index : N) : option CommitRange :=
  if index =? lo then None else Some (CommitRange_new (lo + 1) index).

Definition table_range (k : N) : CommitRange :=
  if k =? 0 then CommitRange_default else CommitRange_new ((k - 1) * n + 1) (k * n).

(** The table comes from window [k - 1] and the scores from the commits since. *)
Record window (k : N) (st : progress_state) : Prop := {
  wi_low : k * n ≤ log_index (pg_log st);
  wi_high : log_index (pg_log st) ≤ k * n + n;
  wi_table : scores_commit_range (swap_reputation_scores (pg_table st)) = table_range k;
  wi_scoring : ss_commit_range (pg_scoring st) = range_after (k * n) (log_index (pg_log st));
}.

Record progress_wf (hist : list LeaderStatus) (st : progress_state) : Prop := {
  pw_scoring : scoring_ok c (pg_log st) (pg_scoring st);
  pw_round : log_round (pg_log st) ≤ N.of_nat (length hist);
  pw_index : log_index (pg_log st) ≤ log_round (pg_log st);
  pw_window : ∃ k, window k st;
  pw_lead : ∃ lead, elects ctx n (pg_table st) lead ∧ ∀ r, is_valid_index c (lead r) = true;
  pw_scores : (length (scores_per_authority (swap_reputation_scores (pg_table st)))
               ≤ length (committee_authorities c))%nat;
}.

(** The schedule is current: its window is not full. *)
Definition current (st : progress_state) : Prop := ∃ k, window k st ∧ log_index (pg_log st) < k * n + n.

Lemma lead_of (table : LeaderSwapTable) :
  (∀ r, ∃ l, schedule_elect_leader (mkLeaderSchedule table ctx n) r 0 = Ret l ∧ is_valid_index c l = true) →
  ∃ lead, elects ctx n table lead ∧ ∀ r, is_valid_index c (lead r) = true.
Proof.
  intros Hl. exists (λ r, match schedule_elect_leader (mkLeaderSchedule table ctx n) r 0 with Ret l => l | Panic => 0 end).
  split; [intros r|intros r]; by destruct (Hl r) as (l & -> & ?).
Qed.

Lemma count_range lo index :
  lo ≤ index → index < u32_max →
  match range_after lo index with Some r => CommitRange_size r | None => Ret 0 end = Ret (index - lo).
Proof.
  intros Hle Hlt. unfold range_after. destruct (N.eqb_spec index lo) as [-> |Hne]; [f_equal; lia|].
  destruct (CommitRange_inclusive (lo + 1) index) as (_ & _ & -> & _); [lia|done|]. f_equal. lia.
Qed.

Lemma window_count k st :
  window k st → log_index (pg_log st) < u32_max →
  scored_subdags_count (pg_scoring st) = Ret (log_index (pg_log st) - k * n).
Proof. intros [Hlo _ _ Hs] Hlt. unfold scored_subdags_count. rewrite Hs. by apply count_range. Qed.

Context (Henv : schedule_env) (Hu : unique_ancestors G).

Lemma add_subdag_spec log log' L sd s lo :
  scoring_ok c log s → commit_facts ctx G log L sd log' →
  (∀ b, b ∈ sd_blocks sd → is_valid_index c (vb_author b) = true) →
  ss_commit_range s = range_after lo (log_index log) → lo ≤ log_index log → log_index log + 1 < u32_max →
  ∃ s', add_subdag c s sd = Ret s' ∧ scoring_ok c log' s' ∧ ss_commit_range s' = range_after lo (log_index log').
Proof.
  intros [Hv Hl Hd] Hf Hval Hrange Hlo Hlt. destruct (cf_index _ _ _ _ _ _ Hf) as [Hidx Hidx'].
  destruct (cf_round _ _ _ _ _ _ Hf) as [Hr1 Hr2]. pose proof (cf_leader _ _ _ _ _ _ Hf) as Hlead.
  unfold add_subdag. rewrite Hrange, Hidx.
  assert (match range_after lo (log_index log) with
          | None => Ret (CommitRange_new (log_index log + 1) (log_index log + 1))
          | Some r => CommitRange_extend_to r (log_index log + 1) end
          = Ret (CommitRange_new (lo + 1) (log_index log'))) as ->.
  { rewrite Hidx'. unfold range_after. destruct (N.eqb_spec (log_index log) lo) as [-> |Hne]; [done|].
    destruct (CommitRange_inclusive (lo + 1) (log_index log)) as (_ & _ & _ & He & _); [lia|lia|].
    rewrite (He (log_index log + 1)) by done. by rewrite decide_True by lia. }
  cbn [mbind outcome_bind].
  assert (∀ r r', r ∈ {[sd_leader sd]} ∪ ss_leaders s → r' ∈ {[sd_leader sd]} ∪ ss_leaders s →
    br_round r = br_round r' → r = r') as Hdist.
  { intros r r'. rewrite !elem_of_union, !elem_of_singleton, Hlead. intros [-> |Hr] [-> |Hr'] Heq; try done.
    - apply Hl in Hr'. rewrite reference_round in Heq. lia.
    - apply Hl in Hr. rewrite reference_round in Heq. lia.
    - by apply Hd. }
  destruct (add_votes_spec c (se_committee Henv) (λ r, r ∈ log_committed log') _ Hdist (sd_blocks sd) (ss_votes s))
    as (votes & -> & Hv').
  { intros b Hb. destruct (cf_blocks_in _ _ _ _ _ _ Hf b Hb) as [Hin _]. split; [by apply Hval|].
    split; [eapply NoDup_fmap_1, (Hu b Hin)|]. split.
    - apply (cf_committed _ _ _ _ _ _ Hf). right. by apply list_elem_of_fmap_2.
    - destruct (ss_votes s !! reference b) as [agg|] eqn:Hs; [|done]. destruct (Hv _ _ Hs) as [Hin' _].
      by destruct (cf_new _ _ _ _ _ _ Hf (reference b) (list_elem_of_fmap_2 _ _ _ Hb)). }
  { apply (cf_nodup _ _ _ _ _ _ Hf). }
  { intros r agg Hr. destruct (Hv r agg Hr) as (? & ? & ?). split; [|done]. apply (cf_committed _ _ _ _ _ _ Hf). by left. }
  cbn [mbind outcome_bind]. eexists. split; [done|]. split.
  - split; [done| |done]. intros r. cbn. rewrite elem_of_union, elem_of_singleton, Hlead.
    intros [-> |Hr%Hl]; [rewrite reference_round|]; lia.
  - cbn. unfold range_after. by destruct (N.eqb_spec (log_index log') lo); [lia|].
Qed.

Lemma new_table_scores index rs t :
  new_inner ctx threshold index rs = Ret t → scores_per_authority rs ≠ [] → swap_reputation_scores t = rs.
Proof.
  unfold new_inner. intros Ht Hne. apply bind_Ret in Ht as (? & _ & Ht).
  destruct (scores_per_authority rs) eqn:Hs; [done|].
  do 4 (apply bind_Ret in Ht as (? & _ & Ht)). by injection Ht as <-.
Qed.

(** The ranges of the tables of two windows in a row. *)
Lemma ranges_follow k :
  k * n + n < u32_max →
  (if decide (table_range k = CommitRange_default) then Ret tt
   else if CommitRange_is_next_range (table_range k) (table_range (k + 1)) then
     equal ← CommitRange_is_equal_size (table_range k) (table_range (k + 1)); assert_that equal
   else Panic) = Ret tt.
Proof.
  intros Hlt. pose proof (se_positive Henv). unfold table_range. destruct (N.eqb_spec k 0) as [|Hk]; [by rewrite decide_True|].
  destruct (N.eqb_spec (k + 1) 0); [lia|]. case_decide; [done|].
  destruct (CommitRange_inclusive ((k - 1) * n + 1) (k * n)) as (_ & _ & _ & _ & Hn); [nia|nia|].
  destruct (Hn ((k + 1 - 1) * n + 1) ((k + 1) * n)) as (-> & -> & _); [nia|nia|].
  rewrite bool_decide_true by nia. cbn [mbind outcome_bind]. by rewrite bool_decide_true by nia.
Qed.

(** What a full window gives: the scores of its range and the next table. *)
Lemma full_window k hist st :
  progress_wf hist st → window k st → log_index (pg_log st) = k * n + n → k * n + n < u32_max →
  ∃ scores table, ss_commit_range (pg_scoring st) = Some (table_range (k + 1)) ∧
    CommitRange_end (table_range (k + 1)) = log_index (pg_log st) ∧
    calculate_distributed_vote_scores c (pg_scoring st) = Ret scores ∧
    LeaderSwapTable_new ctx (log_index (pg_log st)) scores = Ret table ∧
    swap_reputation_scores table = scores ∧
    progress_wf hist (mkProgress (pg_log st) table ScoringSubdag_new) ∧
    window (k + 1) (mkProgress (pg_log st) table ScoringSubdag_new).
Proof.
  intros Hwf Hw Hidx Hlt. pose proof (se_positive Henv) as Hn.
  assert (table_range (k + 1) = CommitRange_new (k * n + 1) (k * n + n)) as Htr.
  { unfold table_range. destruct (N.eqb_spec (k + 1) 0); [lia|]. f_equal; nia. }
  assert (ss_commit_range (pg_scoring st) = Some (table_range (k + 1))) as Hrange.
  { rewrite (wi_scoring k st Hw), Hidx, Htr. unfold range_after. by destruct (N.eqb_spec (k * n + n) (k * n)); [lia|]. }
  destruct (scores_spec c _ _ (sk_votes c _ _ (pw_scoring hist st Hwf))) as (l & Hl & Hlen).
  set (rs := mkReputationScores l (table_range (k + 1))).
  assert (scores_per_authority rs ≠ []) as Hne.
  { pose proof (committee_nonempty c (se_committee Henv)) as Hs. unfold Committee_size in Hs. cbn. intros ->. cbn in Hlen. lia. }
  destruct (new_inner_spec ctx (se_committee Henv) threshold (se_threshold Henv) (se_overflow Henv) rs) with
    (commit_index := log_index (pg_log st)) as (table & Ht & Hok); [cbn; rewrite Hlen; done|done|].
  pose proof (new_table_scores _ _ _ Ht Hne) as Hrs.
  exists rs, table. split; [done|]. split.
  { rewrite Htr. destruct (CommitRange_inclusive (k * n + 1) (k * n + n)) as (_ & -> & _); [lia|done|done]. }
  split; [unfold calculate_distributed_vote_scores; rewrite Hl; cbn [mbind outcome_bind]; by rewrite Hrange|].
  split; [done|]. split; [done|].
  assert (window (k + 1) (mkProgress (pg_log st) table ScoringSubdag_new)) as Hw'.
  { split; cbn [pg_log pg_table pg_scoring ss_commit_range ScoringSubdag_new]; [lia|lia|by rewrite Hrs|].
    unfold range_after. by destruct (N.eqb_spec (log_index (pg_log st)) ((k + 1) * n)); [|lia]. }
  split; [|done]. destruct Hwf as [? ? ? ? ? ?]. split; cbn [pg_log pg_table pg_scoring]; try done.
  - by exists (k + 1).
  - apply lead_of. intros r.
    destruct (table_elects ctx threshold l table n r (se_committee Henv) Hok (se_stakes Henv)) as (x & ? & ? & _). by exists x.
  - rewrite Hrs. cbn. by rewrite Hlen.
Qed.

Lemma renew_spec hist st :
  progress_wf hist st → N.of_nat (length hist) < u32_max →
  ∃ st1, renew ctx n st = Ret st1 ∧ pg_log st1 = pg_log st ∧ progress_wf hist st1 ∧ current st1.
Proof.
  intros Hwf Hlen. pose proof (pw_round hist st Hwf). pose proof (pw_index hist st Hwf).
  destruct (pw_window hist st Hwf) as [k Hw]. unfold renew. rewrite (window_count k st Hw) by lia.
  cbn [mbind outcome_bind]. pose proof (wi_low k st Hw). pose proof (wi_high k st Hw).
  destruct (N.eqb_spec (log_index (pg_log st) - k * n) n) as [Heq|Hne].
  - destruct (full_window k hist st Hwf Hw) as (scores & table & Hr & He & Hsc & Ht & _ & Hwf' & Hw'); [lia|lia|].
    fold c. rewrite Hsc. cbn [mbind outcome_bind]. rewrite Hr. cbn [expect mbind outcome_bind]. rewrite He, Ht.
    cbn [mbind outcome_bind]. eexists. split; [done|]. split; [done|]. split; [done|].
    exists (k + 1). split; [done|]. pose proof (se_positive Henv). cbn [pg_log]. nia.
  - exists st. split; [done|]. split; [done|]. split; [done|]. exists k. split; [done|]. lia.
Qed.

(** A current schedule is not renewed. *)
Lemma renew_current st : current st → log_index (pg_log st) < u32_max → renew ctx n st = Ret st.
Proof.
  intros (k & Hw & Hlt) Hmax. unfold renew. rewrite (window_count k st Hw) by done. cbn [mbind outcome_bind].
  pose proof (wi_low k st Hw). by destruct (N.eqb_spec (log_index (pg_log st) - k * n) n); [lia|].
Qed.

Lemma advance_wf hist st status st' new lead :
  progress_wf hist st → current st → N.of_nat (length hist) + 1 < u32_max →
  decides c G lead (N.of_nat (length hist) + 1) status → advance ctx G st status st' new →
  progress_wf (hist ++ [status]) st' ∧ ∃ k, window k st ∧ window k st' ∧
    log_index (pg_log st') = log_index (pg_log st) + N.of_nat (length new).
Proof.
  intros Hwf (k & Hw & Hlt) Hlen Hdec Ha. pose proof (pw_round hist st Hwf) as Hr. pose proof (pw_index hist st Hwf) as Hi.
  destruct Ha as [s|L sd log scoring Hco Hf Hval Hadd].
  { split; [|exists k; split; [done|]; split; [done|]; cbn; lia].
    destruct Hwf. split; try done. rewrite length_app. cbn. lia. }
  apply decides_round in Hdec. cbn in Hdec.
  destruct (cf_index _ _ _ _ _ _ Hf) as [_ Hidx]. destruct (cf_round _ _ _ _ _ _ Hf) as [Hr1 Hr2].
  destruct (add_subdag_spec (pg_log st) log L sd (pg_scoring st) (k * n)) as (s' & Hs' & Hok & Hrange);
    [apply Hwf|done|done|apply Hw|apply Hw|lia|].
  fold c in Hadd. rewrite Hadd in Hs'. injection Hs' as <-.
  assert (window k (mkProgress log (pg_table st) scoring)) as Hw'.
  { destruct Hw. split; cbn [pg_log pg_table pg_scoring]; [lia|lia|done|done]. }
  split; [|exists k; split; [done|]; split; [done|]; cbn; lia].
  destruct Hwf. split; cbn [pg_log pg_table pg_scoring]; try done; [rewrite length_app; cbn; lia|lia|by exists k].
Qed.

Lemma start_wf : progress_wf [] (mkProgress (mkCommitLog ∅ None) LeaderSwapTable_default ScoringSubdag_new).
Proof.
  split; cbn; [apply scoring_ok_new|lia|lia| | |lia].
  - exists 0. split; cbn; try done. lia.
  - apply lead_of. intros r.
    destruct (elect_leader_stake_based_valid ctx r 0 (se_committee Henv) (committee_nonempty c (se_committee Henv)))
      as (l & Hl & Hv).
    exists l. unfold schedule_elect_leader. cbn [schedule_context leader_swap_table]. rewrite Hl. done.
Qed.

Lemma progress_progress_wf hist st sds :
  progress ctx n G hist st sds → N.of_nat (length hist) < u32_max → progress_wf hist st.
Proof.
  induction 1 as [|hist st sds st1 lead status st2 new Hp IH Hr He Hd Ha]; intros Hlen; [apply start_wf|].
  rewrite length_app in Hlen. cbn in Hlen.
  destruct (renew_spec hist st) as (st1' & Hr' & _ & Hwf & Hcur); [apply IH; lia|lia|].
  rewrite Hr in Hr'. injection Hr' as <-. by eapply advance_wf; [done|done|lia|..].
Qed.

(** ** Several decisions under one schedule *)

(** A run of commits with all that is known of each. *)
Inductive sound_run : commit_log → list VerifiedBlock → list CommittedSubDag → commit_log → Prop :=
| sound_nil log : sound_run log [] [] log
| sound_cons log L leaders sd sds log1 log2 :
    commits ctx G log L sd log1 → commit_facts ctx G log L sd log1 →
    (∀ b, b ∈ sd_blocks sd → is_valid_index c (vb_author b) = true) →
    sound_run log1 leaders sds log2 → sound_run log (L :: leaders) (sd :: sds) log2.


(** A state of the progress, with the schedule renewed or not yet. *)
Definition reaches (hist : list LeaderStatus) (sds : list CommittedSubDag) (st1 : progress_state) : Prop :=
  ∃ st, progress ctx n G hist st sds ∧ (renew ctx n st = Ret st1 ∨ st = st1).

Lemma reaches_wf hist sds st : reaches hist sds st → N.of_nat (length hist) < u32_max → progress_wf hist st.
Proof.
  intros (st0 & Hp & Hst) Hlen. pose proof (progress_progress_wf hist st0 sds Hp Hlen) as Hwf.
  destruct Hst as [Hr| <-]; [|done]. destruct (renew_spec hist st0 Hwf Hlen) as (st' & Hr' & _ & Hwf' & _).
  rewrite Hr in Hr'. by injection Hr' as <-.
Qed.

Lemma reaches_current hist sds st :
  reaches hist sds st → current st → N.of_nat (length hist) < u32_max →
  ∃ st0, progress ctx n G hist st0 sds ∧ renew ctx n st0 = Ret st.
Proof.
  intros Hre Hcur Hlen. pose proof (reaches_wf hist sds st Hre Hlen) as Hwf.
  pose proof (pw_round hist st Hwf). pose proof (pw_index hist st Hwf).
  destruct Hre as (st0 & Hp & [Hr| ->]); [by exists st0|]. exists st. split; [done|]. apply renew_current; [done|lia].
Qed.

Definition committed_leader (st : LeaderStatus) : option VerifiedBlock :=
  match st with LsCommit L => Some L | _ => None end.

(** The statuses are the decisions that follow [hist] under the schedule of [table]. *)
Definition decided_along (table : LeaderSwapTable) (hist statuses : list LeaderStatus) : Prop :=
  ∀ pre s post st0 st1 sds0 lead, statuses = pre ++ s :: post → progress ctx n G (hist ++ pre) st0 sds0 →
    renew ctx n st0 = Ret st1 → pg_table st1 = table → elects ctx n table lead →
    decides c G lead (N.of_nat (length (hist ++ pre)) + 1) s.

(** Before each of them the window has room. *)
Definition room (limit index : N) (statuses : list LeaderStatus) : Prop :=
  ∀ pre s post, statuses = pre ++ s :: post → index + N.of_nat (length (omap committed_leader pre)) < limit.

Lemma decided_along_tail table hist s statuses :
  decided_along table hist (s :: statuses) → decided_along table (hist ++ [s]) statuses.
Proof.
  intros Hd pre x post st0 st1 sds0 lead -> Hp Hr Ht He. rewrite <- (assoc_L (++)) in Hp |- *. cbn in *.
  by apply (Hd (s :: pre) x post st0 st1 sds0).
Qed.

Lemma room_tail limit index s statuses :
  room limit index (s :: statuses) → room limit (index + N.of_nat (length (omap committed_leader [s]))) statuses.
Proof.
  intros Hr pre x post ->. specialize (Hr (s :: pre) x post eq_refl).
  change (omap committed_leader (s :: pre)) with (omap committed_leader ([s] ++ pre)) in Hr.
  rewrite omap_app, length_app in Hr. lia.
Qed.

Lemma progress_batch k statuses hist st sds new log :
  reaches hist sds st → window k st → room (k * n + n) (log_index (pg_log st)) statuses →
  N.of_nat (length hist + length statuses) < u32_max → decided_along (pg_table st) hist statuses →
  sound_run (pg_log st) (omap committed_leader statuses) new log →
  ∃ scoring, add_subdags c (pg_scoring st) new = Ret scoring ∧
    reaches (hist ++ statuses) (sds ++ new) (mkProgress log (pg_table st) scoring).
Proof.
  revert hist st sds new. induction statuses as [|status statuses IH]; intros hist st sds new Hre Hw Hroom Hlen Hdec Hrun.
  { inversion Hrun; subst. exists (pg_scoring st). split; [done|]. rewrite !app_nil_r. by destruct st. }
  cbn [length] in Hlen. pose proof (reaches_wf hist sds st Hre ltac:(lia)) as Hwf.
  pose proof (Hroom [] status statuses eq_refl) as Hidx. cbn in Hidx.
  assert (current st) as Hcur by (exists k; split; [done|lia]).
  destruct (reaches_current hist sds st Hre Hcur) as (st0 & Hp & Hr); [lia|].
  destruct (pw_lead hist st Hwf) as (lead & He & _).
  assert (decides c G lead (N.of_nat (length hist) + 1) status) as Hdecides.
  { pose proof (Hdec [] status statuses st0 st sds lead eq_refl) as Hd. rewrite app_nil_r in Hd. by apply Hd. }
  assert (∀ st' new1 new2, advance ctx G st status st' new1 → pg_table st' = pg_table st → window k st' →
    log_index (pg_log st') = log_index (pg_log st) + N.of_nat (length (omap committed_leader [status])) →
    sound_run (pg_log st') (omap committed_leader statuses) new2 log →
    ∃ scoring, add_subdags c (pg_scoring st') new2 = Ret scoring ∧
      reaches (hist ++ status :: statuses) (sds ++ new1 ++ new2) (mkProgress log (pg_table st) scoring)) as Hstep.
  { intros st' new1 new2 Ha Ht Hw' Hidx' Hrun2.
    destruct (IH (hist ++ [status]) st' (sds ++ new1) new2) as (scoring & Hadd & Hre'); try done.
    - exists st'. split; [|by right]. by econstructor.
    - rewrite Hidx'. by apply room_tail.
    - rewrite length_app. cbn. lia.
    - rewrite Ht. by apply decided_along_tail.
    - exists scoring. split; [done|]. rewrite Ht in Hre'. by rewrite <- !(assoc_L (++)) in Hre'. }
  destruct status as [L|s|s]; [| |by destruct Hdecides as (? & ? & _ & ? & _)].
  - inversion Hrun as [|? ? ? sd new' log1 ? Hco Hf Hval Hrun']; subst.
    destruct (cf_index _ _ _ _ _ _ Hf) as [_ Hi]. pose proof (pw_round hist st Hwf). pose proof (pw_index hist st Hwf).
    destruct (add_subdag_spec (pg_log st) log1 L sd (pg_scoring st) (k * n)) as (s' & Hs' & _ & Hrange);
      [apply Hwf|done|done|apply Hw|apply Hw|lia|].
    destruct (Hstep (mkProgress log1 (pg_table st) s') [sd] new') as (scoring & Hadd & Hre'); try done.
    + by constructor.
    + destruct Hw. split; cbn [pg_log pg_table pg_scoring]; [lia|lia|done|done].
    + exists scoring. split; [|done]. unfold add_subdags. cbn [foldM]. rewrite Hs'. done.
  - destruct (Hstep st [] new) as (scoring & Hadd & Hre'); try done; [constructor|cbn; lia|].
    by exists scoring.
Qed.

(** Decisions that one call of [try_decide] takes. *)
Lemma decided_locally {S} `{StoreSpec S} (d : DagState S) lead hi statuses rest hist table :
  view_of c G d → elects ctx n table lead →
  decided_seq c G (lead_slot lead <$> round_range (N.of_nat (length hist) + 1) hi) (statuses ++ rest) →
  (∀ s, s ∈ statuses → LeaderStatus_is_decided s = true) → local_commits d (statuses ++ rest) →
  last_commit_round d ≤ N.of_nat (length hist) → decided_along table hist statuses.
Proof.
  intros Hd He Hseq Hdec Hloc Hlast pre s post st0 st1 sds0 lead' -> _ _ _ He'.
  assert (∀ r, lead' r = lead r) as Hl by (intros r; specialize (He r); specialize (He' r); congruence).
  exists hi, (post ++ rest). split; [|split; [apply Hdec; set_solver|]].
  - rewrite <- (assoc_L (++)) in Hseq. apply (decided_seq_drop c G (length pre)) in Hseq.
    rewrite drop_app_length, <- fmap_drop, round_range_drop in Hseq.
    replace (N.of_nat (length (hist ++ pre)) + 1) with (N.of_nat (length hist) + 1 + N.of_nat (length pre))
      by (rewrite length_app; lia).
    erewrite list_fmap_ext; [exact Hseq|]. intros i r _. unfold lead_slot. by rewrite Hl.
  - eexists _, _, _, d. split; [done|]. split; [rewrite length_app; lia|].
    intros L HL. apply Hloc. rewrite <- (assoc_L (++)). apply elem_of_app. by right.
Qed.
End Windows.

(** * The progress of another validator *)

Lemma decides_ext c G lead lead' r st : (∀ r, lead' r = lead r) → decides c G lead r st → decides c G lead' r st.
Proof.
  intros Hl (hi & sts & Hs & ?). exists hi, sts. split; [|done].
  erewrite list_fmap_ext; [exact Hs|]. intros i x _. unfold lead_slot. by rewrite Hl.
Qed.

(** The first [k] elements that [f] keeps end a prefix. *)
Lemma omap_cut {A B} (f : A → option B) (l : list A) k :
  (0 < k ≤ length (omap f l))%nat →
  ∃ pre x y post, l = pre ++ x :: post ∧ f x = Some y ∧ omap f (pre ++ [x]) = take k (omap f l) ∧
    (length (omap f pre) < k)%nat.
Proof.
  revert k. induction l as [|a l IH]; intros k Hk; [cbn in Hk; lia|]. cbn in Hk |- *.
  destruct (f a) as [b|] eqn:Ha.
  - destruct k as [|[|k]]; [lia| |].
    + exists [], a, b, l. cbn. rewrite Ha. split; [done|]. split; [done|]. split; [|lia].
      by destruct (omap f l).
    + destruct (IH (Datatypes.S k)) as (pre & x & y & post & -> & Hx & Hom & Hlen); [cbn in Hk; lia|].
      exists (a :: pre), x, y, post. cbn. rewrite Ha. split; [done|]. split; [done|].
      split; [f_equal; exact Hom|]. cbn. lia.
  - destruct (IH k Hk) as (pre & x & y & post & -> & Hx & Hom & Hlen). exists (a :: pre), x, y, post.
    cbn. rewrite Ha. done.
Qed.

Section Other.
Context `{LeaderRngSpec} `{Crypto} `{CommitCodec}.
Context (ctx ctx' : Context) (n : N) (byz : gset N) (G : universe).
Let c := committee ctx.
Context (HB : bft c byz G) (Hsame : same_rules ctx ctx').

(** The leader is the last block of its sub-DAG. *)
Lemma leader_last log L sd log' : commit_facts ctx G log L sd log' → last (sd_blocks sd) = Some L.
Proof.
  intros Hf. pose proof (cf_root _ _ _ _ _ _ Hf) as Hin. pose proof (cf_sorted _ _ _ _ _ _ Hf) as Hsort.
  pose proof (cf_blocks_in _ _ _ _ _ _ Hf) as Hblocks.
  destruct (last (sd_blocks sd)) as [x|] eqn:Hlast; [|apply last_None in Hlast; rewrite Hlast in Hin; by apply elem_of_nil in Hin].
  f_equal. apply last_Some in Hlast as [l Hl]. rewrite Hl in Hin, Hsort, Hblocks.
  apply elem_of_app in Hin as [Hin|Hin%list_elem_of_singleton]; [|done].
  assert (sub_dag_leb L x = true) as Hle.
  { apply list_elem_of_lookup in Hin as [i Hi]. eapply Is_true_eq_true.
    apply (StronglySorted_lookup sub_dag_leb (l ++ [x]) i (length l)); [done|by eapply lookup_lt_Some|by apply lookup_app_l_Some|].
    by rewrite lookup_app_r, Nat.sub_diag by done. }
  apply sub_dag_leb_iff in Hle. destruct (Hblocks x) as (Hx & _ & Hp); [set_solver|].
  destruct (Hblocks L) as (HL & _ & _); [set_solver|].
  destruct (rtc_inv _ _ Hp) as [He|(y & Hy & Hrest)]; [by apply (block_in_inj G x L)|].
  apply (bft_desc _ _ _ HB) in Hy. apply (rtc_G_round c byz G HB) in Hrest. rewrite !reference_round in *. lia.
Qed.

(** What a commit of the progress stands for. *)
Record commit_by (L : VerifiedBlock) (sd : CommittedSubDag) : Prop := {
  cb_last : last (sd_blocks sd) = Some L;
  cb_leader : sd_leader sd = reference L;
  cb_author : is_valid_index c (vb_author L) = true;
  cb_facts : ∃ log log', commit_facts ctx G log L sd log';
}.

Lemma progress_history hist st sds :
  progress ctx n G hist st sds →
  (∀ i s, hist !! i = Some s → slot_round (status_slot s) = N.of_nat i + 1) ∧
  Forall2 commit_by (omap committed_leader hist) sds ∧ log_index (pg_log st) = N.of_nat (length sds).
Proof.
  induction 1 as [|hist st sds st1 lead status st2 new Hp (IH1 & IH2 & IH3) Hr He Hd Ha];
    [split; [done|]; split; [constructor|done]|].
  pose proof (renew_log ctx n st st1 Hr) as Hlog.
  split; [|split].
  - intros i s [Hi|[Hge Hi]]%lookup_app_Some; [by apply IH1|].
    apply list_lookup_singleton_Some in Hi as [Hz <-]. apply decides_round in Hd. rewrite Hd. lia.
  - rewrite omap_app. apply Forall2_app; [done|].
    destruct Ha as [s|L sd log scoring Hco Hf Hv Hadd]; cbn; constructor; [|constructor].
    split; [by eapply leader_last|apply Hf|by apply Hv, Hf|by eexists _, _].
  - rewrite length_app. destruct Ha as [s|L sd log scoring Hco Hf Hv Hadd]; cbn; [rewrite Hlog; lia|].
    destruct (cf_index _ _ _ _ _ _ Hf) as [_ ->]. rewrite Hlog. lia.
Qed.

(** The decisions of another validator are those that follow here. *)
Lemma decided_elsewhere hist statuses more st' sds' table :
  progress ctx' n G (hist ++ statuses ++ more) st' sds' → decided_along ctx n G table hist statuses.
Proof.
  intros Hp' pre s post st0 st1 sds0 lead -> Hp Hr Ht He.
  destruct (progress_take ctx' n G _ st' sds' (length (hist ++ pre) + 1) Hp') as (st2 & sds2 & Hp2 & _).
  assert (take (length (hist ++ pre) + 1) (hist ++ (pre ++ s :: post) ++ more) = (hist ++ pre) ++ [s]) as Htake.
  { rewrite <- (assoc_L (++) pre), (assoc_L (++) hist). rewrite take_app_add'; done. }
  rewrite Htake in Hp2. remember ((hist ++ pre) ++ [s]) as full eqn:Hfull.
  destruct Hp2 as [|hist2 st2 sds2 st3 lead2 status st4 new Hp2 Hr2 He2 Hd2 _]; [by destruct (hist ++ pre)|].
  apply app_inj_tail in Hfull as [-> ->].
  destruct (progress_det ctx ctx' n byz G Hsame HB _ _ _ _ _ _ Hp Hp2 eq_refl) as (_ & <- & _).
  rewrite (renew_same ctx ctx' n Hsame), Hr in Hr2. injection Hr2 as <-.
  rewrite (elects_same ctx ctx' n Hsame), Ht in He2. rewrite (proj1 Hsame) in Hd2.
  eapply decides_ext; [|exact Hd2]. intros r. specialize (He r). specialize (He2 r). congruence.
Qed.
End Other.
