(* ===== verification/CoreInvariant.v ===== *)
(** What a core keeps over its whole life: states that differ in hard links only, local state
    in a growing universe, and the invariant of the core. *)

From stdpp Require Import base tactics numbers list gmap sorting strings.
From coqutil Require Import Datatypes.RecordSettersUsingExistingGetters.
From S2P Require Import Prelude.
From S2P Require Import Committee.
From S2P Require Import Block.
From S2P Require Import StakeAggregator.
From S2P Require Import ThresholdClock.
From S2P Require Import Commit.
From S2P Require Import Store.
From S2P Require Import DagState.
From S2P Require Import DagInvariant.
From S2P Require Import LeaderSchedule.
From S2P Require Import BaseCommitter.
From S2P Require Import CommitSafety.
From S2P Require Import UniversalCommitter.
From S2P Require Import Linearizer.
From S2P Require Import BlockVerifier.
From S2P Require Import BlockManager.
From S2P Require Import TransactionConsumer.
From S2P Require Import CommitObserver.
From S2P Require Import QuorumScan.
From S2P Require Import RoundTracker.
From S2P Require Import Ancestor.
From S2P Require Import TransactionCertifier.
From S2P Require Import Core.
From S2P Require Import ProposalState.
From S2P Require Import Proposal.
From S2P Require Import CommitFinalizer.
From S2P Require Import FinalizerSafety.
From S2P Require Import Growth.

Open Scope N_scope.

(** * Histories *)

(** What a known block links above the garbage collection round is known. *)
Lemma rtc_known g U r r' :
  universe_wf g U → rtc (parent U) r r' → is_Some (U r) → g < br_round r' → ∃ b, U r' = Some b ∧ reference b = r'.
Proof.
  intros HU Hp Hr Hg. assert (is_Some (U r')) as [b Hb].
  { apply rtc_inv_r in Hp as [<-|(y & _ & Hp)]; [done|]. by apply (u_closed g U HU y). }
  exists b. split; [done|]. by apply (u_ref g U HU).
Qed.

#[export] Instance is_linked_dec m r : base.Decision (is_linked m r).
Proof.
  refine (match m !! r as o return m !! r = o → _ with
          | Some i => λ Hi, cast_if (decide (bi_hard_linked i = true))
          | None => λ Hi, right _
          end eq_refl); unfold is_linked; rewrite Hi; naive_solver.
Defined.

Lemma gc_below_clock {S} `{StoreSpec S} (d : DagState S) : clock_ok d → dag_gc_round d < clock_of d.
Proof.
  intros [Hpos _ _ _ Hc Hd _]. unfold dag_gc_round, calculate_gc_round, saturating_sub. lia.
Qed.

(** * What flushing keeps *)

Lemma flush_keeps {S A} `{StoreSpec S} (f : DagState S → A) d d' :
  (∀ x tw cw ci fc, f (x <| ds_blocks_to_write := tw |> <| ds_commits_to_write := cw |>
                         <| ds_commit_info_to_write := ci |> <| ds_finalized_commits_to_write := fc |>) = f x) →
  (∀ x st, f (x <| ds_store := st |>) = f x) →
  (∀ x rb rr ev, f (x <| ds_recent_blocks := rb |> <| ds_recent_refs_by_authority := rr |>
                      <| ds_evicted_rounds := ev |>) = f x) →
  flush d = Ret d' → f d' = f d.
Proof.
  intros Hq Hs Hr. unfold flush. set (batch := mkWriteBatch _ _ _ _). set (d0 := set ds_finalized_commits_to_write _ _).
  assert (f d0 = f d) as Hd0 by apply Hq. clearbody d0. intros Hf.
  assert (d0 = d' ∨ ∃ store, store_write (ds_store d0) batch = Ret store ∧
    foldM (λ d e, evict_authority d e.1) (d0 <| ds_store := store |>)
      (Committee_enumerate (dag_committee d0)) = Ret d') as [<-|(store & _ & Hrun)]; [|done|].
  { destruct (wb_blocks batch), (wb_commits batch), (wb_commit_info batch), (wb_finalized_commits batch);
      try (right; by apply bind_Ret in Hf). left. by injection Hf. }
  eapply (foldM_inv (λ x, f x = f d)); [|intros x e y _ Hx Hy|exact Hrun]; [by rewrite Hs|].
  unfold evict_authority in Hy. outcome_inv. by rewrite Hr.
Qed.

Lemma flush_genesis {S} `{StoreSpec S} (d d' : DagState S) : flush d = Ret d' → ds_genesis d' = ds_genesis d.
Proof. by apply flush_keeps. Qed.

(** * States that differ in the hard links and the pending commit votes *)

Section Links.
Context {S : Type} `{StoreSpec S}.
Implicit Types d : DagState S.

Definition info_of (i : BlockInfo) : VerifiedBlock * bool := (bi_block i, bi_committed i).

Record relinked d d' : Prop := {
  rl_eq : d' = d <| ds_recent_blocks := ds_recent_blocks d' |>
                 <| ds_pending_commit_votes := ds_pending_commit_votes d' |>;
  rl_info : ∀ r, info_of <$> ds_recent_blocks d' !! r = info_of <$> ds_recent_blocks d !! r;
  rl_votes : ∀ v, v ∈ ds_pending_commit_votes d' → v ∈ ds_pending_commit_votes d;
}.

Lemma relinked_refl d : relinked d d.
Proof. by split; [destruct d|..]. Qed.

Lemma relinked_trans d1 d2 d3 : relinked d1 d2 → relinked d2 d3 → relinked d1 d3.
Proof.
  intros [H1 I1 V1] [H2 I2 V2]. split; [rewrite H2, H1; by destruct d3|intros r; by rewrite I2, I1|auto].
Qed.

Lemma relinked_fields d d' :
  relinked d d' →
  ds_context d' = ds_context d ∧ ds_genesis d' = ds_genesis d ∧ ds_threshold_clock d' = ds_threshold_clock d ∧
  ds_evicted_rounds d' = ds_evicted_rounds d ∧ ds_last_commit d' = ds_last_commit d ∧
  ds_last_committed_rounds d' = ds_last_committed_rounds d ∧ ds_recent_refs_by_authority d' = ds_recent_refs_by_authority d ∧
  ds_store d' = ds_store d ∧ ds_blocks_to_write d' = ds_blocks_to_write d ∧ ds_cached_rounds d' = ds_cached_rounds d.
Proof. intros [Heq _ _]. by rewrite Heq. Qed.

Lemma relinked_cached d d' r : relinked d d' → is_Some (ds_recent_blocks d' !! r) ↔ is_Some (ds_recent_blocks d !! r).
Proof. intros [_ Hi _]. specialize (Hi r). by rewrite <- !(fmap_is_Some info_of), Hi. Qed.

Lemma relinked_gc d d' : relinked d d' → dag_gc_round d' = dag_gc_round d.
Proof.
  intros Hr. destruct (relinked_fields d d' Hr) as (Hc & _ & _ & _ & Hl & _).
  unfold dag_gc_round, calculate_gc_round, last_commit_round. by rewrite Hl, Hc.
Qed.

Lemma relinked_wf d d' : dag_wf d → relinked d d' → dag_wf d' ∧ ∀ r, dag_lookup d' r = dag_lookup d r.
Proof.
  intros Hwf Hr. destruct (relinked_fields d d' Hr) as (? & ? & ? & ? & Hl & ? & ? & ? & ? & ?).
  apply dag_wf_frame; try done.
  - intros r. pose proof (f_equal (fmap fst) (rl_info d d' Hr r)) as Hi. rewrite <- !option_fmap_compose in Hi.
    exact Hi.
  - by rewrite (relinked_gc d d' Hr).
Qed.

Lemma relinked_view d d' : view_ok d → relinked d d' → view_ok d'.
Proof.
  intros [Hwf [HU1 HU2 HU3] Ha] Hr. destruct (relinked_wf d d' Hwf Hr) as [Hwf' Hlk].
  assert (∀ r r', parent (dag_lookup d') r r' ↔ parent (dag_lookup d) r r') as Hp
    by (intros r r'; unfold parent; by rewrite Hlk).
  split; [done| |].
  - rewrite (relinked_gc d d' Hr). split.
    + intros r b. rewrite Hlk. apply HU1.
    + intros r r'. rewrite Hp. apply HU2.
    + intros r r'. rewrite Hp, Hlk. apply HU3.
  - intros b a. unfold block_in, dag_committee. rewrite Hlk. destruct (relinked_fields d d' Hr) as [-> _]. apply Ha.
Qed.

Lemma relinked_votes d votes :
  (∀ v, v ∈ votes → v ∈ ds_pending_commit_votes d) → relinked d (d <| ds_pending_commit_votes := votes |>).
Proof. by split; [destruct d|..]. Qed.

Lemma relinked_node ctx byz G d log d' :
  bft (committee ctx) byz G → node_ok ctx G d log → relinked d d' → node_ok ctx G d' log.
Proof.
  intros HG Hd Hr. pose proof (no_view _ _ _ _ Hd) as Hv.
  destruct (relinked_wf d d' (vo_wf _ (v_ok _ _ _ Hv)) Hr) as [Hwf Hlk].
  destruct (relinked_fields d d' Hr) as (? & ? & ? & ? & ? & Hlen & _).
  apply (node_ok_grow ctx byz G HG d log); try done.
  - by rewrite Hlen.
  - intros r b. by rewrite Hlk.
  - intros r b. rewrite Hlk. by left.
  - intros r i Hi Hgc. rewrite (relinked_gc d d' Hr) in Hgc. pose proof (rl_info d d' Hr r) as Hinfo.
    rewrite Hi in Hinfo. destruct (ds_recent_blocks d !! r) as [i'|] eqn:Hi'; [|done]. cbn in Hinfo.
    injection Hinfo as _ ->. by apply (no_marks _ _ _ _ Hd r i').
Qed.

Lemma relinked_clock d d' : dag_wf d → clock_ok d → relinked d d' → clock_ok d'.
Proof.
  intros Hwf Hck Hr. destruct (relinked_fields d d' Hr) as (Hc & _ & Ht & He & Hl & _).
  assert (last_commit_round d' = last_commit_round d) as Hlr by (unfold last_commit_round; by rewrite Hl).
  apply (clock_ok_frame d); try done; rewrite ?Hlr; [| |done|apply Hck|].
  - intros r. by apply (relinked_cached d d' r Hr).
  - intros r Hs _. by apply (relinked_cached d d' r Hr).
  - intros a e. rewrite He, (relinked_gc d d' Hr). apply Hck.
Qed.

(** Hard links are closed under the causal history above the garbage collection round. *)
Definition links_closed d : Prop :=
  ∀ r r', is_linked (ds_recent_blocks d) r → parent (dag_lookup d) r r' → dag_gc_round d < br_round r' →
    is_linked (ds_recent_blocks d) r'.

Lemma link_ancestors_spec ancestors d linked0 :
  dag_wf d → universe_wf (dag_gc_round d) (dag_lookup d) → links_closed d →
  (∀ a, a ∈ ancestors → dag_lookup d (reference a) = Some a) →
  ∃ d' linked, foldM link_ancestor (d, linked0) ancestors = Ret (d', linked0 ++ linked) ∧
    relinked d d' ∧ links_closed d' ∧ NoDup linked ∧
    (∀ r, is_linked (ds_recent_blocks d') r ↔ is_linked (ds_recent_blocks d) r ∨ r ∈ linked) ∧
    (∀ r, r ∈ linked ↔ ¬ is_linked (ds_recent_blocks d) r ∧ dag_gc_round d < br_round r ∧
       ∃ a, a ∈ ancestors ∧ rtc (parent (dag_lookup d)) (reference a) r).
Proof.
  revert d linked0. induction ancestors as [|a ancestors IH]; intros d linked0 Hwf HU Hcl Hk; cbn [foldM].
  { exists d, []. rewrite app_nil_r. split; [done|]. split; [apply relinked_refl|]. split; [done|].
    split; [constructor|]. split; [intros r; rewrite elem_of_nil; tauto|].
    intros r. rewrite elem_of_nil. split; [done|]. intros (_ & _ & x & ?%elem_of_nil & _). done. }
  destruct (link_causal_history_spec d (reference a) Hwf HU) as (d1 & l1 & Hl & Hwf1 & Hlk1 & Hnd1 & Hm1 & Hin1 & Heq1 & Hinfo1).
  { intros _. exists a. apply Hk, list_elem_of_here. }
  { exact Hcl. }
  assert (relinked d d1) as Hr1 by (split; [rewrite Heq1; by destruct d|exact Hinfo1|by rewrite Heq1]).
  pose proof (relinked_gc d d1 Hr1) as Hgc1.
  assert (links_closed d1) as Hcl1.
  { intros r r' Hr (b & Hb & Hp) Hgc. rewrite Hgc1 in Hgc. rewrite Hlk1 in Hb.
    assert (parent (dag_lookup d) r r') as Hpar by by exists b.
    apply Hm1 in Hr as [Hr|Hr]; [apply Hm1; left; by eapply Hcl|]. apply Hin1 in Hr as (_ & _ & Hrtc).
    destruct (decide (r' ∈ l1)) as [?|Hn]; [apply Hm1; by right|].
    assert (∃ i, ds_recent_blocks d !! r' = Some i) as [i Hi].
    { destruct (u_closed _ _ HU r r' Hpar Hgc) as [x Hx].
      destruct (dag_lookup_cached d r' x Hwf Hx Hgc) as (i & ? & _). by exists i. }
    apply Hm1. left. exists i. split; [done|]. destruct (bi_hard_linked i) eqn:Hh; [done|exfalso].
    apply Hn, Hin1. split; [intros (i' & Hi' & Hh'); congruence|]. split; [done|]. by eapply rtc_r. }
  assert (link_ancestor (d, linked0) a = Ret (d1, linked0 ++ l1)) as -> by (unfold link_ancestor; by rewrite Hl).
  cbn [mbind outcome_bind].
  destruct (IH d1 (linked0 ++ l1) Hwf1) as (d2 & l2 & Hrun & Hr2 & Hcl2 & Hnd2 & Hm2 & Hin2).
  { rewrite Hgc1. destruct HU as [HU1 HU2 HU3]. split.
    - intros r b. rewrite Hlk1. apply HU1.
    - intros r r' (b & Hb & Hp). rewrite Hlk1 in Hb. apply HU2. by exists b.
    - intros r r' (b & Hb & Hp) Hg. rewrite Hlk1 in Hb |- *. apply (HU3 r r'); [by exists b|done]. }
  { done. }
  { intros x Hx. rewrite Hlk1. apply Hk. by apply list_elem_of_further. }
  exists d2, (l1 ++ l2). rewrite app_assoc. split; [done|]. split; [by eapply relinked_trans|]. split; [done|].
  assert (∀ x r, rtc (parent (dag_lookup d1)) x r ↔ rtc (parent (dag_lookup d)) x r) as Hpath.
  { intros x r. split; apply rtc_subrel; intros y z (b & Hb & Hp); exists b;
      [rewrite Hlk1 in Hb|rewrite Hlk1]; done. }
  assert (∀ r, r ∈ l1 ++ l2 ↔ r ∈ l1 ∨ r ∈ l2) as Happ by (intros; apply elem_of_app).
  split; [|split].
  - apply NoDup_app. split; [done|]. split; [|done]. intros r Hr1' Hr2'. apply Hin2 in Hr2' as [Hn _].
    apply Hn, Hm1. by right.
  - intros r. rewrite Hm2, Hm1, Happ. tauto.
  - intros r. rewrite Happ, Hin2, Hm1, Hin1, Hgc1. split.
    + intros [(? & ? & ?)|(Hn & ? & x & Hx & Hp)].
      * split; [done|]. split; [done|]. exists a. split; [apply list_elem_of_here|done].
      * split; [tauto|]. split; [done|]. exists x. split; [by apply list_elem_of_further|by apply Hpath].
    + intros (Hn & Hg & x & [->|Hx]%elem_of_cons & Hp); [by left|].
      destruct (decide (r ∈ l1)) as [Hr|Hr]; [left; by apply Hin1|right].
      rewrite Hin1 in Hr. split; [tauto|]. split; [done|]. exists x. split; [done|by apply Hpath].
Qed.
End Links.

(** * Local state in a growing universe *)

Section Follow.
Context {S : Type} `{StoreSpec S} (ctx : Context) (byz : gset N) (G : universe) (b : VerifiedBlock).
Context (HG : honest_universe (committee ctx) byz G) (Hfresh : unreferenced G (reference b)).
Let G' := extend G b.

Lemma node_ok_extend (d : DagState S) log :
  node_ok ctx G d log → reference b ∉ log_committed log → node_ok ctx G' d log.
Proof.
  intros Hd Hr. pose proof (no_view _ _ _ _ Hd) as [Hok Hc Hsub].
  split; try apply Hd.
  - split; [done|done|]. intros r x Hx. by apply extend_mono, Hsub.
  - destruct (no_log _ _ _ _ Hd) as [Hrd Hcl]. split; [done|]. intros r r' Hin Hp Hgc.
    apply (Hcl r r'); [done| |done]. apply (extend_parent_inv (committee ctx) byz G b HG Hfresh); [|done].
    by intros ->.
Qed.

(** A block above the garbage collection round is not committed before it exists. *)
Lemma fresh_uncommitted (d : DagState S) log :
  node_ok ctx G d log → dag_gc_round d < vb_round b → reference b ∉ log_committed log.
Proof.
  intros Hd Hr Hin. destruct (no_known _ _ _ _ Hd _ Hin) as [x Hx]; [by rewrite reference_round|].
  apply (v_sub _ _ _ (no_view _ _ _ _ Hd)) in Hx. destruct Hfresh. congruence.
Qed.

Lemma good_extend genesis x : good ctx G genesis x → good ctx G' genesis x.
Proof. intros (Hx & ?). split; [by apply extend_mono|done]. Qed.

Lemma bm_inv_extend m (d : DagState S) : bm_inv ctx G m d → bm_inv ctx G' m d.
Proof.
  intros [[H1 H2 H3 H4 H5 H6 H7 H8 H9 H10 [H11 H12]] Hc Hl]. split; [|done|done]. split; try done.
  - intros r s Hs. destruct (H1 r s Hs) as (? & ? & ? & ?). repeat (split; [done|]). by apply good_extend.
  - split; [done|]. intros x Hx. by apply elem_of_nil in Hx.
Qed.

(** The manager holds no trace of the new block. *)
Lemma bm_inv_fresh m (d : DagState S) :
  bm_inv ctx G m d → bm_suspended_blocks m !! reference b = None ∧
    ∀ r, r ∉ default ∅ (bm_missing_ancestors m !! reference b).
Proof.
  intros [Hgi _ _]. assert (∀ r s, bm_suspended_blocks m !! r = Some s → block_in G (sp_block s)) as Hin
    by (intros r s Hs; by destruct (gi_susp _ _ _ _ _ _ _ _ Hgi r s Hs) as (_ & _ & _ & ? & _)).
  split.
  - destruct (bm_suspended_blocks m !! reference b) as [s|] eqn:Hs; [|done].
    destruct (gi_susp _ _ _ _ _ _ _ _ Hgi _ s Hs) as (Href & _). pose proof (Hin _ s Hs) as Hx.
    by destruct (old_reference G b Hfresh (sp_block s) Hx).
  - intros r (s & Hs & Ha & _)%(gi_edges _ _ _ _ _ _ _ _ Hgi). apply (proj2 Hfresh (sp_block s)).
    + by eapply Hin.
    + by apply (gi_sub _ _ _ _ _ _ _ _ Hgi r s).
Qed.
End Follow.

Lemma unsuspend_none m r :
  (∀ x, x ∉ default ∅ (bm_missing_ancestors m !! r)) →
  ∃ m', try_unsuspend_children_blocks m r = Ret (m', []).
Proof.
  intros Hno. unfold try_unsuspend_children_blocks. cbn [unsuspend_loop].
  assert (∀ fuel m, unsuspend_loop fuel m [] [] = Ret (m, [])) as Hdone by by intros [].
  destruct (bm_missing_ancestors m !! r) as [cs|] eqn:Hcs; cbn [default option_rect] in Hno.
  - assert (cs = ∅) as -> by set_solver. change (set_iter BlockRef_leb ∅) with (@nil BlockRef).
    cbn [foldM mbind outcome_bind]. rewrite Hdone. eexists. reflexivity.
  - rewrite Hdone. eexists. reflexivity.
Qed.

(** A block whose ancestors are known and that nothing waits for is accepted alone. *)
Lemma accept_new_block {S} `{StoreSpec S} ctx byz G m (d : DagState S) log b :
  bft (committee ctx) byz G → own_index ctx ∉ byz → node_ok ctx G d log → bm_inv ctx G m d →
  good ctx G (ds_genesis d) b → ¬ known d (reference b) → bm_suspended_blocks m !! reference b = None →
  (∀ r, r ∉ default ∅ (bm_missing_ancestors m !! reference b)) →
  (∀ a, a ∈ vb_ancestors b → known d a) → dag_gc_round d < vb_round b →
  ∃ m' d', try_accept_blocks m d [b] = Ret (m', d', [b], ∅) ∧ accept_effect ctx G log m d m' d' [b].
Proof.
  intros HG Hown Hd Hm Hgood Hnk Hns Hno Hanc Hgc.
  unfold try_accept_blocks, try_accept_blocks_internal. change (isort round_leb [b]) with [b].
  cbn [foldM]. unfold accept_one.
  destruct (update_received_spec ctx G m d b Hm) as (rounds & -> & Hm1); [by apply Hgood|].
  cbn [mbind outcome_bind]. set (m1 := m <| bm_received_block_rounds := rounds |>) in *.
  destruct (try_accept_one_spec ctx byz G HG Hown m1 d log b Hd Hm1 Hgood) as (m2 & res & -> & Hc2 & Hr2 & Hres).
  cbn [mbind outcome_bind]. destruct res as [b'|fetch| |].
  - destruct Hres as (-> & Hs2 & _ & Hk & Hinv).
    destruct (finish_accept ctx byz G HG Hown log m1 d m2 b) as (m3 & us & d' & Hrun & Hacc & Heff);
      [done..|by rewrite Hs2|done|].
    destruct (unsuspend_none m2 (reference b)) as (m4 & Hrun').
    { intros x (s & Hs & Ha & _)%(gi_edges _ _ _ _ _ _ _ _ Hinv). rewrite Hs2 in Hs.
      apply (Hno x), (gi_edges _ _ _ _ _ _ _ _ (bi_graph _ _ _ _ Hm)). by exists s. }
    rewrite Hrun in Hrun'. injection Hrun' as -> ->. rewrite Hrun. cbn [mbind outcome_bind].
    rewrite Hacc. cbn [mbind outcome_bind foldM app]. exists m4, d'. split; [done|].
    destruct Heff. by split.
  - exfalso. destruct Hres as (Hinv & (s & Hs) & _). destruct (gi_susp _ _ _ _ _ _ _ _ Hinv _ s Hs) as (Href & Hne & _ & Hg).
    apply set_choose_L in Hne as [a Ha].
    assert (sp_block s = b) as Hsb by (destruct Hg as [Hg _]; destruct Hgood as [Hgb _]; rewrite Href in Hg; congruence).
    assert (known d a) as Hka by (apply Hanc; rewrite <- Hsb; exact (gi_sub _ _ _ _ _ _ _ _ Hinv _ s a Hs Ha)).
    assert (is_Some (bm_missing_ancestors m2 !! a)) as Hkey.
    { destruct (bm_missing_ancestors m2 !! a) as [cs|] eqn:Hcs; [by eexists|].
      assert (reference b ∈ default ∅ (bm_missing_ancestors m2 !! a)) as Hin
        by (apply (gi_edges _ _ _ _ _ _ _ _ Hinv); by exists s).
      rewrite Hcs in Hin. by apply not_elem_of_empty in Hin. }
    pose proof (gi_keys _ _ _ _ _ _ _ _ Hinv a Hkey) as Hp. apply (elem_of_nil a), Hp. by left.
  - destruct Hres as (_ & [[s Hs]|?]); [|done]. change (bm_suspended_blocks m1) with (bm_suspended_blocks m) in Hs. congruence.
  - lia.
Qed.

Lemma genesis_ok_frame {S} `{StoreSpec S} (d d' : DagState S) :
  ds_context d' = ds_context d → ds_genesis d' = ds_genesis d → genesis_ok d → genesis_ok d'.
Proof. unfold genesis_ok, dag_committee. by intros -> ->. Qed.

(** * The invariant of the core *)

(** The library code that signing and serializing a block relies on, for the key pair of the
    authority: encodings are total, digests have their width, signatures verify. *)
Record crypto_ok `{Crypto} (ctx : Context) (keypair : list Byte.byte) : Prop := {
  cr_block : ∀ b, is_Some (bcs_block b);
  cr_signed : ∀ b, is_Some (bcs_signed_block b);
  cr_intent : ∀ i, is_Some (bcs_intent i);
  cr_hash : ∀ bytes, hash bytes ≤ Digest_MAX;
  cr_key : ∃ authority, Committee_authority (committee ctx) (own_index ctx) = Ret authority ∧
    ∀ message, ∃ sig, signature_from_bytes (sign keypair message) = Some sig ∧
      signature_verify (authority_protocol_key authority) message sig = true;
}.

Section CoreInvariant.
Context {S : Type} `{StoreSpec S} `{LeaderRng} `{Crypto}.
Context (ctx : Context) (byz : gset N).
Let c := committee ctx.

(** What the blocks of this authority link is marked. *)
Definition own_linked (d : DagState S) : Prop :=
  ∀ b r, block_in (dag_lookup d) b → vb_author b = own_index ctx →
    rtc (parent (dag_lookup d)) (reference b) r → dag_gc_round d < br_round r →
    is_linked (ds_recent_blocks d) r.

(** The blocks of this authority are known. *)
Definition own_known (G : universe) (d : DagState S) : Prop :=
  ∀ b, block_in G b → vb_author b = own_index ctx → block_in (dag_lookup d) b.

(** The certifier knows the blocks of the DAG state, as they are voted on before they are
    accepted, and is collected no further than it. *)
Definition votes_cover (G : universe) (d : DagState S) (t : TransactionCertifier) : Prop :=
  ∃ added outs, cert_run ctx added (certifier_state t) outs ∧
    cs_gc_round (certifier_state t) ≤ dag_gc_round d ∧ (∀ b, b ∈ added → block_in G b) ∧
    ∀ r b, dag_lookup d r = Some b → dag_gc_round d < br_round r → b ∈ added.

(** The certifier knows the block. *)
Definition voted (t : TransactionCertifier) (b : VerifiedBlock) : Prop :=
  cs_votes (certifier_state t) !! reference b ≫= vi_block = Some b.

Lemma voted_iff t added outs b :
  committee_wf c → cert_run ctx added (certifier_state t) outs →
  voted t b ↔ b ∈ added ∧ cs_gc_round (certifier_state t) < vb_round b.
Proof.
  intros Hc Hrun. apply (cert_run_inv ctx Hc) in Hrun. split.
  - intros Hv. apply bind_Some in Hv as (vi & Hvi & Hb). destruct (ci_some _ _ _ _ _ _ Hrun _ _ Hvi) as [Hr [_ H2' _]].
    by destruct (H2' b Hb) as (_ & ? & _).
  - intros [Hb Hr]. by apply (ci_present _ _ _ _ _ _ Hrun).
Qed.

Record core_base (G : universe) (log : commit_log) (core : Core S) : Prop := {
  ok_context : core_context core = ctx;
  ok_node : node_ok ctx G (dag_state core) log;
  ok_clock : clock_ok (dag_state core);
  ok_genesis : genesis_ok (dag_state core);
  ok_genesis_blocks : ∃ blocks, genesis_blocks ctx = Ret blocks ∧
    ds_genesis (dag_state core) = list_to_map ((λ b, (reference b, b)) <$> blocks);
  ok_own : own_known G (dag_state core);
  ok_included_length : length (last_included_ancestors core) = length (committee_authorities c);
  ok_tracker : tracker_wf (round_tracker core) ∧ committee (rt_context (round_tracker core)) = c;
  ok_states : states_ok c (ancestor_state_manager core);
  ok_leaders : ∃ lead, committer_ok c lead (core_committer core);
  ok_consumer : consumer_ok ctx (transaction_consumer core);
  ok_manager : bm_inv ctx G (block_manager core) (dag_state core);
}.

(** With the fast path, hard links are tracked and blocks are voted on. *)
Definition fastpath_ok (G : universe) (core : Core S) : Prop :=
  mysticeti_fastpath (protocol_config ctx) = true →
    links_closed (dag_state core) ∧ own_linked (dag_state core) ∧
    votes_cover G (dag_state core) (transaction_certifier core).

(** Only ancestors below the last proposal count as included. *)
Definition included_below (core : Core S) : Prop :=
  ∀ i r last, last_included_ancestors core !! i = Some (Some r) →
    get_last_proposed_block (dag_state core) = Ret last → br_round r < vb_round last.

Record core_ok (G : universe) (log : commit_log) (core : Core S) : Prop := {
  ok_base :> core_base G log core;
  ok_fastpath : fastpath_ok G core;
  ok_included : included_below core;
}.

(** ** Links along the steps of the node *)

(** The links above the garbage collection round of [d'] are those of [d]. *)
Definition links_follow (d d' : DagState S) : Prop :=
  ∀ r, dag_gc_round d' < br_round r →
    is_linked (ds_recent_blocks d') r ↔ is_linked (ds_recent_blocks d) r.

Lemma links_follow_trans d1 d2 d3 :
  dag_gc_round d2 ≤ dag_gc_round d3 → links_follow d1 d2 → links_follow d2 d3 → links_follow d1 d3.
Proof. intros Hgc H12 H23 r Hr. rewrite (H23 r Hr). apply H12. lia. Qed.

Context (G : universe) (HG : bft c byz G).

Lemma links_closed_step d d' :
  dag_wf d → view_ok d' → (∀ r b, dag_lookup d r = Some b → dag_lookup d' r = Some b) →
  dag_gc_round d ≤ dag_gc_round d' → links_follow d d' → links_closed d → links_closed d'.
Proof.
  intros Hwf Hv' Hmono Hgc Hf Hcl r r' Hr Hp Hr'. pose proof (u_desc _ _ (vo_universe _ Hv') _ _ Hp) as Hlt.
  apply Hf; [done|]. apply Hf in Hr; [|lia]. apply (Hcl r r' Hr); [|lia].
  destruct Hr as (i & Hi & _). destruct Hp as (b & Hb & Ha).
  pose proof (dag_lookup_recent d r i (dwf_cache d Hwf) Hi) as Hlk.
  exists b. split; [|done]. rewrite (Hmono _ _ Hlk) in Hb. congruence.
Qed.

Lemma own_linked_step d d' :
  view_of c G d → view_of c G d' → dag_gc_round d ≤ dag_gc_round d' → links_follow d d' → own_known G d →
  own_linked d → own_linked d'.
Proof.
  intros Hv Hv' Hgc Hf Hown Hol b r Hb Ha Hp Hr. apply Hf; [done|].
  assert (block_in G b) as HGb by by apply (view_block c G d' Hv').
  pose proof (rtc_view c G d' Hv' _ _ Hp) as HpG.
  destruct (rtc_view_back c byz G HG d Hv b r) as [Hpd _]; [by apply Hown|lia|done|].
  apply (Hol b r); [by apply Hown|done|done|lia].
Qed.

Lemma node_step_links d log d' :
  node_ok ctx G d log → node_step ctx G d d' → dag_gc_round d' = dag_gc_round d ∧ links_follow d d' ∧
    ∀ r b, dag_lookup d r = Some b → dag_lookup d' r = Some b.
Proof.
  intros Hd Hstep. pose proof (no_view _ _ _ _ Hd) as Hv. pose proof (vo_wf _ (v_ok _ _ _ Hv)) as Hwf.
  destruct Hstep as [b HGb (Hbound & Hpos & Hval) Hanc Hrun|Hrun].
  - destruct (dag_lookup d (reference b)) as [b0|] eqn:Hlk.
    { rewrite (accept_block_contained d b b0 Hwf Hpos Hval Hlk) in Hrun. by injection Hrun as <-. }
    destruct (accept_block_accepted d b d' Hwf Hbound Hpos Hval Hlk Hrun) as [Hacc _].
    split; [unfold dag_gc_round, calculate_gc_round, last_commit_round;
            by rewrite (acc_last_commit _ _ _ Hacc), (acc_context _ _ _ Hacc)|]. split.
    + intros r _. unfold is_linked. rewrite (acc_recent _ _ _ Hacc).
      destruct (decide (r = reference b)) as [->|Hne]; [|by rewrite lookup_insert_ne].
      rewrite lookup_insert_eq. destruct (dag_lookup_None_store d _ Hwf Hlk) as [Hn _]. rewrite Hn. naive_solver.
    + intros r x Hx. rewrite (accepted_lookup d b d' r Hpos Hacc). case_decide; [congruence|done].
  - destruct (flush_spec d Hwf) as (d'' & Hrun' & _ & Hlk & Hgc & Hkept & _).
    rewrite Hrun in Hrun'. injection Hrun' as <-. destruct (flush_clock d d' Hrun) as (_ & _ & _ & _ & Hsub & _).
    split; [done|]. split; [|intros r b; by rewrite Hlk]. intros r Hr. rewrite Hgc in Hr. unfold is_linked. split.
    + intros (i & Hi & Hl). destruct (Hsub r) as [i' Hi']; [by eexists|].
      exists i'. split; [done|]. rewrite (Hkept r i' Hi' Hr) in Hi. congruence.
    + intros (i & Hi & Hl). exists i. split; [by apply Hkept|done].
Qed.

Lemma node_steps_links d log d' :
  node_ok ctx G d log → rtc (node_step ctx G) d d' → node_ok ctx G d' log ∧ dag_gc_round d' = dag_gc_round d ∧
    links_follow d d' ∧ ∀ r b, dag_lookup d r = Some b → dag_lookup d' r = Some b.
Proof.
  intros Hd Hsteps. induction Hsteps as [d|d d1 d' Hstep _ IH]; [done|].
  destruct (node_step_links d log d1 Hd Hstep) as (Hg1 & Hf1 & Hm1).
  destruct IH as (? & Hg2 & Hf2 & Hm2); [by eapply (node_step_ok ctx byz G HG)|].
  split; [done|]. split; [congruence|]. split; [|intros r b Hb; by apply Hm2, Hm1].
  eapply links_follow_trans; [|done|done]. lia.
Qed.

(** ** Operations on the DAG state *)

Lemma base_dag_wf log core : core_base G log core → dag_wf (dag_state core).
Proof. intros Hcore. apply (vo_wf _ (v_ok _ _ _ (no_view _ _ _ _ (ok_node _ _ _ Hcore)))). Qed.

Lemma last_proposed_grows d d' last last' :
  dag_wf d → dag_wf d' → ds_context d' = ds_context d →
  (∀ r b, dag_lookup d r = Some b → dag_lookup d' r = Some b) →
  get_last_proposed_block d = Ret last → get_last_proposed_block d' = Ret last' → vb_round last ≤ vb_round last'.
Proof.
  intros Hwf Hwf' Hctx Hmono Hl Hl'. destruct (last_proposed_spec d Hwf) as (x & Hx & Ha & Hk & _).
  destruct (last_proposed_spec d' Hwf') as (x' & Hx' & _ & _ & Hmax). rewrite Hl in Hx. rewrite Hl' in Hx'.
  injection Hx as <-. injection Hx' as <-. rewrite <- (reference_round last). apply Hmax; [|by rewrite Hctx].
  exists last. by apply Hmono.
Qed.

Lemma included_grows core d' :
  dag_wf (dag_state core) → dag_wf d' → ds_context d' = ds_context (dag_state core) →
  (∀ r b, dag_lookup (dag_state core) r = Some b → dag_lookup d' r = Some b) →
  included_below core → included_below (core <| dag_state := d' |>).
Proof.
  intros Hwf Hwf' Hctx Hmono Hinc i r last' Hi Hl'.
  destruct (last_proposed_spec _ Hwf) as (last & Hl & _). specialize (Hinc i r last Hi Hl).
  pose proof (last_proposed_grows _ d' last last' Hwf Hwf' Hctx Hmono Hl Hl'). lia.
Qed.

(** The fields that the invariant does not read. *)
Lemma base_frame log core core' :
  core_context core' = core_context core → dag_state core' = dag_state core →
  last_included_ancestors core' = last_included_ancestors core → round_tracker core' = round_tracker core →
  ancestor_state_manager core' = ancestor_state_manager core → leader_schedule core' = leader_schedule core →
  transaction_consumer core' = transaction_consumer core → block_manager core' = block_manager core →
  core_base G log core → core_base G log core'.
Proof.
  intros Hx Hd Hl Ht Ha Hs Hc Hm Hcore.
  split; unfold core_committer; rewrite ?Hx, ?Hd, ?Hl, ?Ht, ?Ha, ?Hs, ?Hc, ?Hm; apply Hcore.
Qed.

Lemma core_ok_update log core consumer tracker :
  core_ok G log core → consumer_ok ctx consumer → tracker_wf tracker → committee (rt_context tracker) = c →
  core_ok G log (core <| transaction_consumer := consumer |> <| round_tracker := tracker |>).
Proof. intros [Hcore Hf Hi] Hc Ht Htc. split; [|exact Hf|exact Hi]. split; try done; apply Hcore. Qed.

Context (Hdom : no_dominant c) (Hrounds : ∀ b, block_in G b → vb_round b + 4 < u32_max).

(** A step of the DAG state and the manager. *)
Lemma base_step log core m' d' :
  core_base G log core → rtc (node_step ctx G) (dag_state core) d' → ds_genesis d' = ds_genesis (dag_state core) →
  bm_inv ctx G m' d' → core_base G log (core <| block_manager := m' |> <| dag_state := d' |>).
Proof.
  intros Hcore Hsteps Hgen Hm. pose proof (ok_node _ _ _ Hcore) as Hd.
  destruct (node_steps_links _ log d' Hd Hsteps) as (Hd' & Hgc & Hf & Hmono).
  split; try done; try apply Hcore.
  - apply (clock_ok_steps ctx byz G HG Hdom Hrounds (dag_state core) log); [done|apply Hcore|done].
  - apply (genesis_ok_frame (dag_state core)); [|exact Hgen|apply Hcore]. cbn. by rewrite (no_context _ _ _ _ Hd'), (no_context _ _ _ _ Hd).
  - cbn. rewrite Hgen. apply Hcore.
  - intros b Hb Ha. apply Hmono. by apply Hcore.
Qed.

Lemma core_ok_flush log core :
  core_ok G log core → ∃ d', flush (dag_state core) = Ret d' ∧ core_ok G log (core <| dag_state := d' |>) ∧
    ∀ r, dag_lookup d' r = dag_lookup (dag_state core) r.
Proof.
  intros [Hcore Hfast Hinc]. pose proof (base_dag_wf _ _ Hcore) as Hwf. pose proof (ok_node _ _ _ Hcore) as Hd.
  destruct (flush_spec _ Hwf) as (d' & Hrun & [_ Hwf'] & Hlk & Hgc & _). exists d'. split; [done|].
  assert (node_step ctx G (dag_state core) d') as Hstep by by apply ns_flush.
  destruct (node_step_links _ log d' Hd Hstep) as (_ & Hf & Hmono).
  pose proof (node_step_ok ctx byz G HG _ log d' Hd Hstep) as Hd'.
  split; [|done]. split.
  - apply (base_step log core (block_manager core)); [done|by apply rtc_once|by apply flush_genesis|].
    apply (bm_inv_advance ctx G _ (dag_state core)); [apply Hcore|by apply flush_genesis| |by rewrite Hgc].
    intros r. unfold known. by rewrite Hlk.
  - intros Hfp. destruct (Hfast Hfp) as (Hcl & Hol & added & outs & Hr & Hg & Hin & Hcov).
    split; [change (links_closed d')|split; [change (own_linked d')|]].
    + apply (links_closed_step (dag_state core)); [done|apply (v_ok _ _ _ (no_view _ _ _ _ Hd'))|done|by rewrite Hgc|done|done].
    + apply (own_linked_step (dag_state core)); [apply Hd|apply Hd'|by rewrite Hgc|done|apply Hcore|done].
    + exists added, outs. cbn. rewrite Hgc. split; [done|]. split; [done|]. split; [done|].
      intros r b. rewrite Hlk. apply Hcov.
  - apply included_grows; [done|done| |intros r b; by rewrite Hlk|done].
    by rewrite (no_context _ _ _ _ Hd'), (no_context _ _ _ _ Hd).
Qed.
End CoreInvariant.

Section CoreEnv.
Context `{Crypto} (ctx : Context) (byz : gset N).

(** The assumptions on the epoch and the authority. *)
Record core_env (keypair : list Byte.byte) : Prop := {
  ce_own : own_index ctx ∉ byz;
  ce_limits : limits_ok ctx;
  ce_dominant : no_dominant (committee ctx);
  ce_crypto : crypto_ok ctx keypair;
}.
End CoreEnv.
