(* ===== verification/ProposedBlock.v ===== *)
(** The block that the core proposes: it passes the verifier of every validator of the epoch,
    the core accepts it, and the universe of blocks extended with it keeps what the agreement
    theorems assume of honest validators. *)

From stdpp Require Import base tactics numbers list gmap sorting strings.
From coqutil Require Import Datatypes.RecordSettersUsingExistingGetters.
From S2P Require Import Prelude.
From S2P Require Import Committee.
From S2P Require Import Block.
From S2P Require Import StakeAggregator.
From S2P Require Import ThresholdClock.
From S2P Require Import Commit.
From S2P Require Import Store.
From S2P Require Import DagState.
From S2P Require Import DagInvariant.
From S2P Require Import LeaderSchedule.
From S2P Require Import BaseCommitter.
From S2P Require Import CommitSafety.
From S2P Require Import UniversalCommitter.
From S2P Require Import Linearizer.
From S2P Require Import BlockVerifier.
From S2P Require Import BlockManager.
From S2P Require Import TransactionConsumer.
From S2P Require Import CommitObserver.
From S2P Require Import QuorumScan.
From S2P Require Import RoundTracker.
From S2P Require Import Ancestor.
From S2P Require Import TransactionCertifier.
From S2P Require Import Core.
From S2P Require Import ProposalState.
From S2P Require Import Proposal.
From S2P Require Import CommitFinalizer.
From S2P Require Import FinalizerSafety.
From S2P Require Import Growth.
From S2P Require Import CoreInvariant.

Open Scope N_scope.

(** * The parts of a proposal *)

Lemma get_leaders_spec `{LeaderRng} c lead uc r :
  committer_ok c lead uc → r < 2 ^ 32 → get_leaders uc r = Ret [lead r].
Proof.
  intros [(context & schedule & -> & _ & _ & Hlead) _] Hr. unfold get_leaders.
  assert (r mod 3 = 0 ∨ r mod 3 = 1 ∨ r mod 3 = 2) as Hmod by lia_div.
  change (uc_committers _) with
    ((λ k, mkBaseCommitter context schedule (mkBaseCommitterOptions 3 0 k)) <$> [0; 1; 2]).
  cbn [fmap list_fmap mapM].
  rewrite !(bc_elect_leader_stage context schedule lead _ r Hlead) by lia. cbn [mbind outcome_bind].
  destruct Hmod as [-> | [-> | ->]]; reflexivity.
Qed.

Lemma get_own_votes_spec t refs :
  (∀ r, r ∈ refs → cs_gc_round (certifier_state t) < br_round r → is_Some (cs_votes (certifier_state t) !! r)) →
  ∃ votes, get_own_votes t refs = Ret votes ∧ sublist (btv_block_ref <$> votes) refs.
Proof.
  unfold get_own_votes. set (f := λ votes r, _). intros Hsome.
  enough (∀ votes0, ∃ votes, foldM f votes0 refs = Ret (votes0 ++ votes) ∧ sublist (btv_block_ref <$> votes) refs)
    as Hgen by (destruct (Hgen []) as (votes & Hrun & Hsub); by exists votes).
  induction refs as [|r refs IH]; intros votes0.
  { exists []. rewrite app_nil_r. split; [done|constructor]. }
  assert (∃ v, f votes0 r = Ret (votes0 ++ v) ∧ sublist (btv_block_ref <$> v) [r]) as (v & Hv & Hs).
  { unfold f. destruct (br_round r <=? cs_gc_round (certifier_state t)) eqn:Hr.
    - exists []. rewrite app_nil_r. split; [done|apply sublist_nil_l].
    - apply N.leb_gt in Hr. destruct (Hsome r (list_elem_of_here _ _) Hr) as [vi ->]. cbn [expect mbind outcome_bind].
      destruct (own_reject_txn_votes vi) as [|i l].
      + exists []. rewrite app_nil_r. split; [done|apply sublist_nil_l].
      + eexists. split; [done|]. cbn. apply sublist_skip, sublist_nil_l. }
  destruct (IH (λ r' Hr', Hsome r' (list_elem_of_further _ _ _ Hr')) (votes0 ++ v)) as (votes & Hrun & Hsub).
  exists (v ++ votes). cbn [foldM]. rewrite Hv. cbn [mbind outcome_bind]. rewrite Hrun, app_assoc. split; [done|].
  rewrite fmap_app. change (r :: refs) with ([r] ++ refs). by apply sublist_app.
Qed.

Lemma authorities_known c (l : list VerifiedBlock) :
  (∀ a, a ∈ l → is_valid_index c (vb_author a) = true) →
  foldM (λ (_ : unit) a, _ ← Committee_authority c (vb_author a); Ret tt) tt l = Ret tt.
Proof.
  induction l as [|a l IH]; intros Hl; [done|]. cbn [foldM].
  destruct (valid_authority c (vb_author a)) as [au ->]; [apply Hl, list_elem_of_here|].
  cbn [mbind outcome_bind]. apply IH. intros x Hx. apply Hl. by apply list_elem_of_further.
Qed.

Lemma include_ancestors_spec ancestors li :
  (∀ a, a ∈ ancestors → (N.to_nat (vb_author a) < length li)%nat) →
  ∃ li', foldM include_ancestor li ancestors = Ret li' ∧ length li' = length li ∧
    ∀ i r, li' !! i = Some (Some r) → li !! i = Some (Some r) ∨ ∃ a, a ∈ ancestors ∧ r = reference a.
Proof.
  revert li. induction ancestors as [|a ancestors IH]; intros li Ha.
  { exists li. split; [done|]. split; [done|]. by left. }
  cbn [foldM].
  assert (include_ancestor li a = Ret (<[N.to_nat (vb_author a) := Some (reference a)]> li)) as ->
    by (apply vec_set_Ret; split; [apply Ha, list_elem_of_here|done]).
  cbn [mbind outcome_bind].
  destruct (IH (<[N.to_nat (vb_author a) := Some (reference a)]> li)) as (li' & Hrun & Hlen & Hin).
  { intros x Hx. rewrite length_insert. apply Ha. by apply list_elem_of_further. }
  exists li'. split; [done|]. split; [by rewrite Hlen, length_insert|].
  intros i r Hi. destruct (Hin i r Hi) as [Hi'|(x & ? & ?)].
  - destruct (decide (i = N.to_nat (vb_author a))) as [->|Hne]; [|rewrite list_lookup_insert_ne in Hi' by done; by left].
    apply list_lookup_insert_Some in Hi' as [(_ & [= <-] & _)|[? _]]; [|done].
    right. exists a. split; [apply list_elem_of_here|done].
  - right. exists x. split; [by apply list_elem_of_further|done].
Qed.

(** A block of this authority is signed and encoded, and the signature verifies. *)
(** A block carries its encoding, and the digest of that. *)
Definition encoded `{Crypto} (b : VerifiedBlock) : Prop :=
  bcs_signed_block (vb_block b) = Some (vb_serialized b) ∧ vb_digest b = hash (vb_serialized b).

Lemma signed_block_new `{Crypto} ctx block keypair :
  crypto_ok ctx keypair → block_author block = own_index ctx →
  ∃ signed bytes, SignedBlock_new block keypair = Ok signed ∧ bcs_signed_block signed = Some bytes ∧
    sb_inner signed = block ∧ verify_signature signed ctx = Ret (Ok tt).
Proof.
  intros [Hb Hs Hi _ (authority & Hau & Hk)] Ha.
  assert (∃ signed, SignedBlock_new block keypair = Ok signed) as [signed Hn].
  { unfold SignedBlock_new, compute_block_signature, compute_inner_block_digest.
    destruct (Hb block) as [bytes ->]. destruct (Hi (to_consensus_block_intent (hash bytes))) as [msg ->]. by eexists. }
  destruct (Hs signed) as [bytes Hbytes]. exists signed, bytes. split; [done|]. split; [done|].
  eapply own_signature_verifies; [exact Hk|by rewrite Ha|done].
Qed.

Definition same_config (ctx ctx' : Context) : Prop :=
  committee ctx' = committee ctx ∧ protocol_config ctx' = protocol_config ctx ∧
  epoch_start_timestamp_ms ctx' = epoch_start_timestamp_ms ctx.

Lemma same_genesis `{Crypto} ctx ctx' : same_config ctx ctx' → genesis_blocks ctx' = genesis_blocks ctx.
Proof.
  intros (Hc & Hp & Ht). unfold genesis_blocks. rewrite Hc.
  assert (∀ i, genesis_block ctx' i = genesis_block ctx i) as Hg.
  { intros i. unfold genesis_block, BlockV1_genesis_block, BlockV2_genesis_block, genesis_timestamp. by rewrite Hc, Hp, Ht. }
  induction (Committee_enumerate (committee ctx)) as [|[i a] l IH]; [done|]. cbn [mapM]. by rewrite Hg, IH.
Qed.

Lemma block_of_fields ctx round now ancestors transactions commit_votes votes :
  let block := block_of ctx round now ancestors transactions commit_votes votes in
  block_epoch block = committee_epoch (committee ctx) ∧ block_round block = round ∧
  block_author block = own_index ctx ∧ block_ancestors block = ancestors ∧
  block_transactions block = transactions ∧
  (block_transaction_votes block = votes ∨ block_transaction_votes block = []).
Proof. unfold block_of. destruct (mysticeti_fastpath _); cbn; auto 10. Qed.

Lemma block_of_votes ctx round now ancestors transactions commit_votes votes :
  block_commit_votes (block_of ctx round now ancestors transactions commit_votes votes) = commit_votes.
Proof. unfold block_of. by destruct (mysticeti_fastpath _). Qed.

(** * A proposal *)

Section Proposal.
Context {S : Type} `{StoreSpec S} `{LeaderRng} `{Crypto}.
Context (ctx : Context) (byz : gset N) (G : universe) (log : commit_log).
Let c := committee ctx.
Context (HG : honest_universe c byz G).

Lemma core_dag_wf core : core_ok ctx G log core → dag_wf (dag_state core).
Proof. intros Hcore. apply (vo_wf _ (v_ok _ _ _ (no_view _ _ _ _ (ok_node _ _ _ _ Hcore)))). Qed.

Lemma core_committee_ok core : core_ok ctx G log core → dag_committee (dag_state core) = c.
Proof. intros Hcore. apply (v_committee _ _ _ (no_view _ _ _ _ (ok_node _ _ _ _ Hcore))). Qed.

(** The leaders of the round below the clock are looked up without a panic. *)
Lemma ready_spec core now :
  core_ok ctx G log core → clock_of (dag_state core) < 2 ^ 32 →
  ∃ ready, ready_to_propose core (clock_of (dag_state core) - 1) now = Ret ready.
Proof.
  intros Hcore HR. pose proof (core_dag_wf core Hcore) as Hwf. pose proof (core_committee_ok core Hcore) as Hc.
  destruct (ok_leaders _ _ _ _ Hcore) as [lead Hl]. set (r := clock_of (dag_state core) - 1).
  pose proof (ok_clock _ _ _ _ Hcore) as Hck. pose proof (clock_above_gc _ Hck) as Hgc.
  unfold ready_to_propose, leaders_exist, core_leaders. rewrite (get_leaders_spec c lead _ r Hl) by lia.
  cbn [mbind outcome_bind fmap list_fmap all_at_slots].
  assert (∃ found, contains_cached_block_at_slot (dag_state core) (mkSlot r (lead r)) = Ret found) as [found ->].
  { unfold contains_cached_block_at_slot. cbn [slot_round slot_authority].
    destruct (r =? GENESIS_ROUND) eqn:Hz; [by eexists|]. apply N.eqb_neq in Hz. unfold GENESIS_ROUND in Hz.
    assert (lead r < Committee_size c) as Hv by (exact (proj1 (bool_decide_eq_true _) (co_lead c lead _ Hl r))).
    pose proof (dwf_evicted_len _ (dwf_cache _ Hwf)) as He. pose proof (dwf_refs_len _ (dwf_cache _ Hwf)) as Hr.
    rewrite Hc in He, Hr.
    destruct (lookup_lt_is_Some_2 (ds_evicted_rounds (dag_state core)) (N.to_nat (lead r))) as [e Hev]; [lia|].
    destruct (lookup_lt_is_Some_2 (ds_recent_refs_by_authority (dag_state core)) (N.to_nat (lead r))) as [rs Hrs]; [lia|].
    rewrite (proj2 (vec_get_Ret _ _ _) Hev). cbn [mbind outcome_bind].
    pose proof (ck_evicted _ Hck _ e Hev). rewrite (proj2 (N.leb_gt _ _)) by (unfold r in *; lia).
    cbn [negb assert_that mbind outcome_bind]. rewrite (proj2 (vec_get_Ret _ _ _) Hrs). by eexists. }
  cbn [mbind outcome_bind]. unfold last_proposed_timestamp_ms, last_proposed_block.
  destruct (last_proposed_spec _ Hwf) as (lp & -> & _).
  destruct found; cbn [mbind outcome_bind negb]; by eexists.
Qed.

(** The reject votes of a proposal: on blocks that its ancestors link for the first time. *)
Record votes_ok (d : DagState S) (ancestors : list VerifiedBlock) (d' : DagState S)
    (votes : list BlockTransactionVotes) : Prop := {
  vt_relinked : relinked d d';
  vt_closed : mysticeti_fastpath (protocol_config ctx) = true → links_closed d';
  vt_linked : ∀ r, is_linked (ds_recent_blocks d) r → is_linked (ds_recent_blocks d') r;
  vt_new : mysticeti_fastpath (protocol_config ctx) = true →
    ∀ r a, a ∈ ancestors → rtc (parent (dag_lookup d)) (reference a) r → dag_gc_round d < br_round r →
      is_linked (ds_recent_blocks d') r;
  vt_nodup : NoDup (btv_block_ref <$> votes);
  vt_fresh : ∀ v, v ∈ votes → mysticeti_fastpath (protocol_config ctx) = true ∧
    ¬ is_linked (ds_recent_blocks d) (btv_block_ref v) ∧ dag_gc_round d < br_round (btv_block_ref v) ∧
    ∃ a, a ∈ ancestors ∧ rtc (parent (dag_lookup d)) (reference a) (btv_block_ref v);
}.

Lemma own_votes_spec core ancestors :
  core_context core = ctx → view_ok (dag_state core) →
  (mysticeti_fastpath (protocol_config ctx) = true →
     links_closed (dag_state core) ∧ votes_cover ctx G (dag_state core) (transaction_certifier core)) →
  (∀ a, a ∈ ancestors → dag_lookup (dag_state core) (reference a) = Some a) →
  ∃ d' votes, own_transaction_votes core ancestors = Ret (core <| dag_state := d' |>, votes) ∧
    votes_ok (dag_state core) ancestors d' votes.
Proof.
  intros Hctx [Hwf HU _] Hfast Hk. unfold own_transaction_votes. rewrite Hctx.
  destruct (mysticeti_fastpath (protocol_config ctx)) eqn:Hf.
  2:{ exists (dag_state core), []. split; [by destruct core|]. split; rewrite ?Hf; try done.
      - apply relinked_refl.
      - apply NoDup_nil_2.
      - by intros v ?%elem_of_nil. }
  destruct (Hfast eq_refl) as [Hcl (added & outs & Hrun & Hgc & Hin & Hcov)].
  destruct (link_ancestors_spec ancestors (dag_state core) [] Hwf HU Hcl Hk)
    as (d' & linked & Hlink & Hrl & Hcl' & Hnd & Hm & Hl).
  rewrite Hlink. cbn [mbind outcome_bind app].
  pose proof (cert_run_inv ctx (bft_committee _ _ _ (hu_bft _ _ _ HG)) _ _ _ Hrun) as Hinv.
  destruct (get_own_votes_spec (transaction_certifier core) linked) as (votes & -> & Hsub).
  { intros r Hr Hg. apply Hl in Hr as (_ & Hgr & a & Ha & Hp).
    assert (∃ b, dag_lookup (dag_state core) r = Some b ∧ reference b = r) as (b & Hb & Href).
    { destruct (rtc_known _ _ _ _ HU Hp) as (x & ? & ?); [by exists a; apply Hk|done|by exists x]. }
    pose proof (ci_present ctx _ _ _ _ _ Hinv b (Hcov r b Hb Hgr)) as Hp'.
    rewrite <- reference_round, Href in Hp'. specialize (Hp' Hg).
    destruct (cs_votes (certifier_state (transaction_certifier core)) !! r); [by eexists|done]. }
  cbn [mbind outcome_bind]. eexists d', votes. split; [done|]. split; try done.
  - intros r Hr. apply Hm. by left.
  - intros _ r a Ha Hp Hg. apply Hm.
    destruct (decide (r ∈ linked)) as [?|Hn]; [by right|left].
    destruct (decide (is_linked (ds_recent_blocks (dag_state core)) r)) as [?|Hnl]; [done|]. destruct Hn. apply Hl. eauto.
  - by eapply sublist_NoDup.
  - intros v Hv. split; [done|]. apply Hl. eapply (sublist_subseteq _ _ Hsub). by apply list_elem_of_fmap_2.
Qed.

(** The block that [create_block] builds from the ancestors, with the state it leaves. *)
Record proposed (d : DagState S) (round now : N) (ancestors : list VerifiedBlock) (b : VerifiedBlock)
    (d' : DagState S) : Prop := {
  pr_inner : ∃ transactions commit_votes votes,
    vb_inner b = block_of ctx round now (reference <$> ancestors) transactions commit_votes votes ∧
    fits ctx transactions ∧
    (∀ v, protocol_config (bv_context v) = protocol_config ctx → transactions_ok v (transaction_data <$> transactions)) ∧
    votes_ok d ancestors d' votes;
  pr_signed : verify_signature (vb_block b) ctx = Ret (Ok tt);
  pr_digest : vb_digest b ≤ Digest_MAX;
  pr_votes : ∀ v, v ∈ vb_commit_votes b → v ∈ ds_pending_commit_votes d;
  pr_encoded : encoded b;
}.

Lemma create_block_spec core m li now ancestors last :
  core_ok ctx G log core → core_env ctx byz (block_signer core) →
  clock_of (dag_state core) < 2 ^ 32 → length li = length (committee_authorities c) →
  ancestors_ok c (dag_state core) (clock_of (dag_state core)) last ancestors →
  ∃ consumer li' d' b acks,
    create_block (core <| ancestor_state_manager := m |> <| last_included_ancestors := li |>)
      (clock_of (dag_state core)) now ancestors =
    Ret (core <| ancestor_state_manager := m |> <| last_included_ancestors := li' |>
              <| transaction_consumer := consumer |> <| dag_state := d' |>, b, acks) ∧
    consumer_ok ctx consumer ∧ length li' = length li ∧
    (∀ i r, li' !! i = Some (Some r) → li !! i = Some (Some r) ∨ ∃ a, a ∈ ancestors ∧ r = reference a) ∧
    proposed (dag_state core) (clock_of (dag_state core)) now ancestors b d'.
Proof.
  intros Hcore [_ Hlim _ Hcr] HR Hli Han. pose proof (core_dag_wf core Hcore) as Hwf.
  pose proof (ok_context _ _ _ _ Hcore) as Hctx. set (R := clock_of (dag_state core)) in *.
  assert (∀ a, a ∈ ancestors → is_valid_index c (vb_author a) = true) as Hval by (intros a Ha; by apply (an_known _ _ _ _ _ Han)).
  set (core1 := core <| ancestor_state_manager := m |> <| last_included_ancestors := li |>).
  unfold create_block. change (core_context core1) with (core_context core).
  change (last_included_ancestors core1) with li. rewrite Hctx.
  destruct (include_ancestors_spec ancestors li) as (li' & -> & Hlen & Hin).
  { intros a Ha. rewrite Hli. pose proof (proj1 (bool_decide_eq_true _) (Hval a Ha)) as Hv. unfold Committee_size in Hv. lia. }
  cbn [mbind outcome_bind]. set (core2 := core1 <| last_included_ancestors := li' |>).
  destruct (ok_leaders _ _ _ _ Hcore) as [lead Hl]. unfold first_leader, core_leaders, saturating_sub.
  change (core_committer core2) with (core_committer core). rewrite (get_leaders_spec c lead _ _ Hl) by lia.
  cbn [mbind outcome_bind fmap list_fmap head expect slot_authority].
  change (committee ctx) with c.
  destruct (valid_authority c _ (co_lead c lead _ Hl (R - 1))) as [au ->]. cbn [mbind outcome_bind].
  rewrite (authorities_known c ancestors Hval).
  cbn [mbind outcome_bind]. change (transaction_consumer core2) with (transaction_consumer core).
  destruct (next_spec ctx Hlim (transaction_consumer core) (ok_consumer _ _ _ _ Hcore))
    as (n & consumer & limit & -> & Hw & Hfits & _ & (pending & queue & Hcons) & _).
  set (core3 := core2 <| transaction_consumer := consumer |>).
  unfold take_commit_votes. change (dag_state core3) with (dag_state core).
  set (votes := take_limit _ _). set (d1 := (dag_state core) <| ds_pending_commit_votes := _ |>).
  set (core4 := core3 <| dag_state := d1 |>).
  assert (relinked (dag_state core) d1) as Hrl by (apply relinked_votes; intros v; apply (subseteq_drop _)).
  destruct (own_votes_spec core4 ancestors) as (d' & tvotes & -> & Hv).
  { done. }
  { eapply relinked_view; [|exact Hrl]. apply (v_ok _ _ _ (no_view _ _ _ _ (ok_node _ _ _ _ Hcore))). }
  { intros Hf. destruct (ok_fastpath _ _ _ _ Hcore Hf) as (? & _ & ?). done. }
  { intros a Ha. by apply (an_known _ _ _ _ _ Han). }
  cbn [mbind outcome_bind]. change (block_signer (core4 <| dag_state := d' |>)) with (block_signer core).
  set (block := block_of _ _ _ _ _ _ _).
  destruct (signed_block_new ctx block (block_signer core) Hcr) as (signed & bytes & Hs & Hb & Hinner & Hver);
    [unfold block, block_of; by destruct (mysticeti_fastpath _)|].
  rewrite Hs, Hb. cbn [expect mbind outcome_bind].
  eexists consumer, li', d', _, _. split; [reflexivity|]. split; [|split; [done|split; [done|]]].
  - destruct (ok_consumer _ _ _ _ Hcore) as [Hlo Hwait]. split; [by rewrite Hcons|].
    intros g Hg. rewrite Hw in Hg. apply Hwait. by apply (subseteq_drop n).
  - destruct Hv as [V1 V2 V3 V4 V5 V6]. split.
    + eexists _, votes, tvotes. split; [exact Hinner|]. split; [exact Hfits|]. split.
      * intros v Hpc. assert (transactions_ok (mkSignedBlockVerifier ctx ∅)
          (transaction_data <$> contents (take n (waiting (transaction_consumer core))))) as Hok.
        { apply batches_pass with ctx; [done|done|]. intros g Hg. destruct (ok_consumer _ _ _ _ Hcore) as [_ Hwait].
          apply Hwait. by apply (subseteq_take n). }
        unfold transactions_ok in *. rewrite Hpc. exact Hok.
      * split; try done. by eapply relinked_trans.
    + exact Hver.
    + apply (cr_hash ctx _ Hcr).
    + intros v. unfold vb_commit_votes, vb_inner. cbn. rewrite Hinner. unfold block. rewrite block_of_votes.
      apply (subseteq_take _).
    + done.
Qed.

Lemma parents_quorum (R : N) ancestors (block : Block) :
  1 ≤ R → block_round block = R →
  reached_quorum c (weight c (authors_of_round (R - 1) ancestors)) = true →
  reached_quorum c (weight c (parent_authors block (reference <$> ancestors))) = true.
Proof.
  intros HR Hb. apply (is_threshold_mono c QuorumThreshold). intros a (b & Hin & Hr & Ha)%elem_of_authors_of_round.
  unfold parent_authors. apply elem_of_list_to_set, list_elem_of_fmap. exists (reference b). split; [done|].
  apply list_elem_of_filter. split; [rewrite reference_round; lia|by apply list_elem_of_fmap_2].
Qed.

(** The proposal passes every verifier of the epoch. *)
Lemma proposed_valid core now ancestors last b d' ctx' v :
  core_ok ctx G log core → get_last_proposed_block (dag_state core) = Ret last →
  ancestors_ok c (dag_state core) (clock_of (dag_state core)) last ancestors →
  proposed (dag_state core) (clock_of (dag_state core)) now ancestors b d' →
  same_config ctx ctx' → SignedBlockVerifier_new ctx' = Ret v →
  valid_block v (vb_block b).
Proof.
  intros Hcore Hlast Han [(txs & cvotes & votes & Hinner & _ & Htx & _) Hsig _ _] Hep Hnew.
  pose proof (core_dag_wf core Hcore) as Hwf. pose proof (core_committee_ok core Hcore) as Hdc.
  pose proof (no_context _ _ _ _ (ok_node _ _ _ _ Hcore)) as Hdx.
  destruct (last_proposed_spec _ Hwf) as (lp & Hlp & Hlpa & _). rewrite Hlast in Hlp. injection Hlp as <-.
  pose proof (ck_pos _ (ok_clock _ _ _ _ Hcore)) as Hpos. set (R := clock_of (dag_state core)) in *.
  unfold SignedBlockVerifier_new in Hnew. rewrite (same_genesis ctx ctx' Hep) in Hnew.
  destruct (ok_genesis_blocks _ _ _ _ Hcore) as (blocks & Hgb & Hgm). rewrite Hgb in Hnew. injection Hnew as <-.
  destruct Hep as (Hc & Hpc & _).
  change (vb_inner b) with (sb_inner (vb_block b)) in Hinner.
  destruct (block_of_fields ctx R now (reference <$> ancestors) txs cvotes votes) as (He & Hr & Ha & Hanc & Ht & _).
  rewrite <- Hinner in He, Hr, Ha, Hanc, Ht.
  split; cbn [bv_context]; rewrite ?Hc.
  - done.
  - lia.
  - rewrite Ha. fold c. rewrite <- Hdc, <- Hdx. apply (dwf_own _ (dwf_cache _ Hwf)).
  - unfold verify_signature in *. by rewrite Hc.
  - rewrite Hanc. intros i a Hi. rewrite list_lookup_fmap in Hi. destruct (ancestors !! i) as [x|] eqn:Hx; [|done].
    injection Hi as <-. destruct (an_known _ _ _ _ _ Han x) as (Hk & Hxr & Hv); [by eapply list_elem_of_lookup_2|].
    destruct (an_head _ _ _ _ _ Han) as [rest Hrest].
    unfold ancestor_ok. cbn [bv_context bv_genesis]. rewrite Hc, Hr, Ha, !reference_author, !reference_round.
    split; [done|]. split; [|split; [done|]].
    + rewrite <- Hdx, <- Hlpa. split.
      * intros ?. assert (i = 0%nat) as -> by lia. rewrite Hrest in Hx. by injection Hx as <-.
      * intros Hax. assert (i = 0%nat) as ->; [|done].
        apply (NoDup_lookup _ i 0%nat (vb_author last) (an_nodup _ _ _ _ _ Han)); rewrite list_lookup_fmap.
        -- rewrite Hx. cbn. by rewrite Hax.
        -- by rewrite Hrest.
    + intros Hz. unfold dag_lookup in Hk. rewrite reference_round, Hz, N.eqb_refl, Hgm in Hk.
      apply elem_of_list_to_map_2 in Hk. apply list_elem_of_fmap in Hk as (y & Hy & Hin).
      apply (f_equal snd) in Hy. cbn in Hy. subst y. apply elem_of_list_to_set. by apply list_elem_of_fmap_2.
  - rewrite Hanc, <- list_fmap_compose. apply (an_nodup _ _ _ _ _ Han).
  - rewrite Hanc. by apply (parents_quorum R); [done|done|apply (an_quorum _ _ _ _ _ Han)].
  - unfold block_transactions_data. rewrite Ht. by apply Htx.
Qed.

Lemma proposed_fields core now ancestors b d' :
  proposed (dag_state core) (clock_of (dag_state core)) now ancestors b d' →
  vb_author b = own_index ctx ∧ vb_round b = clock_of (dag_state core) ∧ vb_ancestors b = reference <$> ancestors.
Proof.
  intros [(txs & cvotes & votes & Hinner & _) _ _ _].
  unfold vb_author, vb_round, vb_ancestors. rewrite Hinner.
  by destruct (block_of_fields ctx (clock_of (dag_state core)) now (reference <$> ancestors) txs cvotes votes) as (_ & ? & ? & ? & _).
Qed.

(** It is the next block of its author in the universe. *)
Lemma proposed_next core now ancestors last b d' :
  core_ok ctx G log core → own_index ctx ∉ byz → get_last_proposed_block (dag_state core) = Ret last →
  vb_round last < clock_of (dag_state core) →
  ancestors_ok c (dag_state core) (clock_of (dag_state core)) last ancestors →
  proposed (dag_state core) (clock_of (dag_state core)) now ancestors b d' →
  next_block c byz G b last.
Proof.
  intros Hcore Hown Hlast Hlt Han Hpr. pose proof (core_dag_wf core Hcore) as Hwf.
  destruct (proposed_fields core now ancestors b d' Hpr) as (Ha & Hr & Hanc).
  pose proof (no_view _ _ _ _ (ok_node _ _ _ _ Hcore)) as Hv. pose proof (no_context _ _ _ _ (ok_node _ _ _ _ Hcore)) as Hdx.
  destruct (last_proposed_spec _ Hwf) as (lp & Hlp & Hlpa & Hlpk & Hmax). rewrite Hlast in Hlp. injection Hlp as <-.
  rewrite Hdx in Hlpa, Hmax. pose proof (ck_pos _ (ok_clock _ _ _ _ Hcore)) as Hpos.
  split; rewrite ?Ha, ?Hr, ?Hanc.
  - done.
  - split; [by apply (v_sub _ _ _ Hv)|done].
  - intros x Hx Hxa. apply (ok_own _ _ _ _ Hcore x Hx) in Hxa as Hxk.
    rewrite <- (reference_round x). apply Hmax; [by exists x|done].
  - destruct (an_head _ _ _ _ _ Han) as [rest ->]. done.
  - split; rewrite ?Hanc, ?Hr.
    + intros a (x & -> & Hx)%list_elem_of_fmap. rewrite reference_round. by apply (an_known _ _ _ _ _ Han).
    + unfold quorum_parents. rewrite Hanc.
      apply (parents_quorum (clock_of (dag_state core)) ancestors (vb_inner b)); [done|exact Hr|apply (an_quorum _ _ _ _ _ Han)].
    + rewrite <- list_fmap_compose. apply (an_nodup _ _ _ _ _ Han).
  - destruct Hpr as [(txs & cvotes & votes & Hinner & _ & _ & Hvt) _ _ _]. unfold vb_transaction_votes. rewrite Hinner.
    destruct (block_of_fields ctx (clock_of (dag_state core)) now (reference <$> ancestors) txs cvotes votes)
      as (_ & _ & _ & _ & _ & [-> | ->]); [apply Hvt|apply NoDup_nil_2].
  - intros r i (v & Hvin & <- & _). destruct Hpr as [(txs & cvotes & votes & Hinner & _ & _ & Hvt) _ _ _].
    unfold vb_transaction_votes in Hvin. rewrite Hinner in Hvin.
    destruct (block_of_fields ctx (clock_of (dag_state core)) now (reference <$> ancestors) txs cvotes votes)
      as (_ & _ & _ & _ & _ & [Hbv|Hbv]); rewrite Hbv in Hvin; [|by apply elem_of_nil in Hvin].
    destruct (vt_fresh _ _ _ _ Hvt v Hvin) as (Hf & Hnl & Hgc & a & Hin & Hp).
    split; [exists (reference a); split; [by apply list_elem_of_fmap_2|by apply (rtc_view c G _ Hv)]|].
    intros x Hx Hxa Hl. destruct (ok_fastpath _ _ _ _ Hcore Hf) as (_ & Hol & _).
    apply tc_rtc in Hl. pose proof (ok_own _ _ _ _ Hcore x Hx Hxa) as Hxk.
    destruct (rtc_view_back c byz G (hu_bft _ _ _ HG) _ Hv x _ Hxk Hgc Hl) as [Hpd _].
    apply Hnl. by apply (Hol x).
Qed.

(** The state that [create_block] leaves. *)
Definition built core m li consumer (d' : DagState S) : Core S :=
  core <| ancestor_state_manager := m |> <| last_included_ancestors := li |>
       <| transaction_consumer := consumer |> <| dag_state := d' |>.

Lemma base_built core m li consumer d' :
  core_base ctx G log core → states_ok c m → length li = length (committee_authorities c) → consumer_ok ctx consumer →
  relinked (dag_state core) d' → core_base ctx G log (built core m li consumer d').
Proof.
  intros Hcore Hm Hli Hcons Hr. pose proof (ok_node _ _ _ _ Hcore) as Hd.
  pose proof (base_dag_wf ctx G log core Hcore) as Hwf. destruct (relinked_wf _ d' Hwf Hr) as [Hwf' Hlk].
  destruct (relinked_fields _ d' Hr) as (Hx & Hg & _).
  split; try done; try apply Hcore; cbn.
  - eapply relinked_node; [apply HG|done|done].
  - apply (relinked_clock (dag_state core)); [done|apply Hcore|done].
  - apply (genesis_ok_frame (dag_state core)); [done|done|apply Hcore].
  - rewrite Hg. apply Hcore.
  - intros b Hb Ha. unfold block_in. rewrite Hlk. by apply Hcore.
  - apply (bm_inv_advance ctx G _ (dag_state core)); [apply Hcore|done| |by rewrite (relinked_gc _ d' Hr)].
    intros r. unfold known. by rewrite Hlk.
Qed.

Lemma fastpath_built core m li consumer ancestors d' votes :
  core_ok ctx G log core → votes_ok (dag_state core) ancestors d' votes →
  fastpath_ok ctx G (built core m li consumer d').
Proof.
  intros Hcore Hv Hf. destruct (ok_fastpath _ _ _ _ Hcore Hf) as (Hcl & Hol & added & outs & Hrun & Hg & Hin & Hcov).
  pose proof (vt_relinked _ _ _ _ Hv) as Hrl. destruct (relinked_wf _ d' (core_dag_wf core Hcore) Hrl) as [_ Hlk].
  split; [by apply Hv|]. split.
  - intros b r Hb Ha Hp Hr. apply (vt_linked _ _ _ _ Hv). cbn in Hr. rewrite (relinked_gc _ _ Hrl) in Hr.
    unfold block_in in Hb. cbn in Hb. rewrite Hlk in Hb. apply (Hol b r); [done|done| |done].
    eapply rtc_subrel; [|exact Hp]. intros x y (z & Hz & ?). exists z. cbn in Hz. by rewrite <- Hlk.
  - exists added, outs. cbn. rewrite (relinked_gc _ _ Hrl). split; [done|]. split; [done|]. split; [done|].
    intros r b. rewrite Hlk. apply Hcov.
Qed.

(** What [build_proposal] returns with a block: the state and the block of [create_block]. *)
Record proposal (core core1 : Core S) (now : N) (eb : ExtendedBlock) : Prop := {
  pp_state : ∃ m li consumer d', core1 = built core m li consumer d' ∧ states_ok c m ∧
    length li = length (committee_authorities c) ∧ consumer_ok ctx consumer ∧
    (∀ i r, li !! i = Some (Some r) → br_round r < clock_of (dag_state core)) ∧
    ∃ ancestors last, get_last_proposed_block (dag_state core) = Ret last ∧
      vb_round last < clock_of (dag_state core) ∧
      ancestors_ok c (dag_state core) (clock_of (dag_state core)) last ancestors ∧
      proposed (dag_state core) (clock_of (dag_state core)) now ancestors (eb_block eb) d';
  pp_excluded : ∀ r, r ∈ eb_excluded_ancestors eb → is_valid_index c (br_author r) = true;
}.

Lemma build_proposal_spec core force nows :
  core_ok ctx G log core → core_env ctx byz (block_signer core) →
  clock_of (dag_state core) + STATE_LOCK_CLOCK_ROUNDS < 2 ^ 32 →
  ∃ core1 p, build_proposal core force nows = Ret (core1, p) ∧
    match p with
    | None => core_ok ctx G log core1 ∧
        core1 = core <| ancestor_state_manager := ancestor_state_manager core1 |>
                     <| last_included_ancestors := last_included_ancestors core1 |> ∧
        (force = true → ∃ last, get_last_proposed_block (dag_state core) = Ret last ∧
           clock_of (dag_state core) ≤ vb_round last)
    | Some (eb, acks) => proposal core core1 nows.2 eb
    end.
Proof.
  intros Hcore Henv HR. pose proof (core_dag_wf core Hcore) as Hwf. unfold build_proposal.
  destruct (last_proposed_spec _ Hwf) as (last & Hlast & _). assert (last_proposed_block core = Ret last) as -> by exact Hlast.
  change (threshold_clock_round core) with (clock_of (dag_state core)). cbn [mbind outcome_bind]. cbv zeta.
  set (R := clock_of (dag_state core)) in *.
  destruct (R <=? vb_round last) eqn:Hle.
  { exists core, None. split; [done|]. split; [done|]. split; [by destruct core|].
    intros _. exists last. split; [done|lia]. }
  apply N.leb_gt in Hle. unfold saturating_sub.
  assert (∃ ready, (if force then Ret true else ready_to_propose core (R - 1) nows.1) = Ret ready ∧
    (force = true → ready = true)) as (ready & -> & Hready).
  { destruct force; [by exists true|]. destruct (ready_spec core nows.1 Hcore) as [ready Hr]; [fold R; lia|]. by exists ready. }
  cbn [mbind outcome_bind]. destruct ready; cbn [negb].
  2:{ exists core, None. split; [done|]. split; [done|]. split; [by destruct core|].
      intros Hf. specialize (Hready Hf). discriminate. }
  destruct (ok_tracker _ _ _ _ Hcore) as [Htr Htc]. pose proof (ok_context _ _ _ _ Hcore) as Hctx.
  assert (core_committee core = c) as Hcc by (unfold core_committee; by rewrite Hctx).
  destruct (smart_ancestors_spec core last Hwf (ok_clock _ _ _ _ Hcore) (ok_genesis _ _ _ _ Hcore)) with (negb force)
    as (core' & ancestors & excluded & Hrun & (m & li & -> & Hm & Hli & Hlsame & Hlb) & Hanc & Hexc);
    rewrite ?Hcc; [by rewrite Hctx, (no_context _ _ _ _ (ok_node _ _ _ _ Hcore))|done|done|done|apply Hcore|done|done|
    apply Hcore|intros i r Hi; by apply (ok_included _ _ _ _ Hcore i r last)|].
  rewrite Hcc in *.
  fold R in Hrun. rewrite Hrun. cbn [mbind outcome_bind].
  destruct ancestors as [|a0 rest] eqn:Han0.
  { assert (force = false) as ->.
    { destruct Hanc as [[_ Hf]|[[rest [=]] _ _ _]]. by destruct force. }
    specialize (Hlsame eq_refl). cbn [negb assert_that mbind outcome_bind].
    eexists _, None. split; [reflexivity|]. split; [|done]. split; [|apply Hcore|].
    - split; try done; apply Hcore.
    - intros i r x. cbn. rewrite Hlsame. apply Hcore. }
  rewrite <- Han0 in *. destruct Hanc as [[Hn _]|Hanc]; [by rewrite Han0 in Hn|].
  destruct (create_block_spec core m li nows.2 ancestors last) as (consumer & li' & d' & b & acks & Hcr & Hcons & Hlen' & Hin' & Hpr);
    [done|done|lia|done|done|].
  fold R in Hcr. rewrite Hcr. cbn [mbind outcome_bind].
  assert (relinked (dag_state core) d') as Hrl by (destruct (pr_inner _ _ _ _ _ _ Hpr) as (? & ? & ? & _ & _ & _ & Hv); apply Hv).
  destruct (last_proposed_spec d' (proj1 (relinked_wf _ d' Hwf Hrl))) as (x & Hx & _).
  fold (built core m li' consumer d').
  assert (last_proposed_block (built core m li' consumer d') = Ret x) as -> by exact Hx. cbn [mbind outcome_bind]. eexists _, (Some _). split; [reflexivity|]. split; cbn [eb_excluded_ancestors eb_block].
  - exists m, li', consumer, d'. split; [reflexivity|]. split; [done|]. split; [congruence|]. split; [done|]. split.
    + intros i r Hi. destruct (Hin' i r Hi) as [?|(a & Ha & ->)]; [by eapply Hlb|].
      rewrite reference_round. by apply (an_known _ _ _ _ _ Hanc).
    + exists ancestors, last. done.
  - intros r Hr. apply subseteq_take in Hr. apply Hexc. by apply elem_of_set_iter in Hr.
Qed.
End Proposal.

Lemma ack_consumer_ok ctx c acks r : consumer_ok ctx c → consumer_ok ctx (ack_transactions c acks r).
Proof.
  unfold ack_transactions. revert c. induction acks as [|a acks IH]; intros c Hc; [done|]. cbn [foldl]. by apply IH.
Qed.

(** * The proposal joins the universe *)

Section Join.
Context {S : Type} `{StoreSpec S} `{LeaderRng} `{Crypto}.
Context (ctx : Context) (byz : gset N) (G : universe) (log : commit_log).
Let c := committee ctx.
Context (HG : honest_universe c byz G) (Hown : own_index ctx ∉ byz) (Hdom : no_dominant c).
Context (Hrounds : ∀ b, block_in G b → vb_round b + 4 < u32_max).
Context (b last : VerifiedBlock) (Hfresh : unreferenced G (reference b)) (Hnext : next_block c byz G b last).
Context (Hauthor : vb_author b = own_index ctx) (Hround : vb_round b + 4 < u32_max) (Hdigest : vb_digest b ≤ Digest_MAX).
Let G' := extend G b.
Let HG' : honest_universe c byz G' := extend_honest c byz G b HG Hfresh last Hnext.

Lemma extend_rounds x : block_in G' x → vb_round x + 4 < u32_max.
Proof. intros [?| ->]%(extend_in G b Hfresh); [by apply Hrounds|done]. Qed.

Lemma good_new (d : DagState S) :
  dag_wf d → dag_committee d = c → own_index (ds_context d) = own_index ctx → 0 < vb_round b →
  (∀ a, a ∈ vb_ancestors b → known d a ∧ is_valid_index c (br_author a) = true) →
  good ctx G' (ds_genesis d) b.
Proof.
  intros Hwf Hc Hox Hpos Hanc. pose proof (bft_committee _ _ _ (hu_bft _ _ _ HG)) as Hcw.
  assert (is_valid_index c (vb_author b) = true) as Hval
    by (rewrite Hauthor, <- Hox, <- Hc; apply (dwf_own _ (dwf_cache _ Hwf))).
  split; [apply extend_self|]. split; [|split; [done|split; [done|]]].
  - pose proof (proj1 (bool_decide_eq_true _) Hval) as Hlt. pose proof (wf_size c Hcw) as Hsz.
    split; [rewrite reference_round; lia|]. split; [rewrite reference_author; unfold AuthorityIndex_MAX; lia|done].
  - intros a Ha. destruct (Hanc a Ha) as [[x Hx] Hva]. split; [done|].
    split; [by apply (fm_rounds _ _ (nb_formed _ _ _ _ _ Hnext))|]. intros Hz. unfold dag_lookup in Hx. rewrite Hz in Hx. by exists x.
Qed.

(** The DAG state and the manager accept the block. *)
Lemma base_accept core :
  core_base ctx G log core → vb_round b = clock_of (dag_state core) →
  (∀ a, a ∈ vb_ancestors b → known (dag_state core) a ∧ is_valid_index c (br_author a) = true) →
  ∃ m' d', try_accept_blocks (block_manager core) (dag_state core) [b] = Ret (m', d', [b], ∅) ∧
    core_base ctx G' log (core <| block_manager := m' |> <| dag_state := d' |>) ∧
    accept_effect ctx G' log (block_manager core) (dag_state core) m' d' [b] ∧
    ∀ r, dag_lookup d' r = if decide (r = reference b) then Some b else dag_lookup (dag_state core) r.
Proof.
  intros Hcore Hr Hanc. pose proof (ok_node _ _ _ _ Hcore) as Hd. pose proof (ok_manager _ _ _ _ Hcore) as Hm.
  pose proof (base_dag_wf ctx G log core Hcore) as Hwf. pose proof (no_view _ _ _ _ Hd) as Hv.
  pose proof (gc_below_clock _ (ok_clock _ _ _ _ Hcore)) as Hgc. rewrite <- Hr in Hgc.
  destruct (bm_inv_fresh ctx G b Hfresh _ _ Hm) as [Hns Hno].
  assert (dag_lookup (dag_state core) (reference b) = None) as Hnk.
  { destruct (dag_lookup _ (reference b)) as [x|] eqn:Hx; [|done]. apply (v_sub _ _ _ Hv) in Hx. destruct Hfresh. congruence. }
  assert (good ctx G' (ds_genesis (dag_state core)) b) as Hgood.
  { apply good_new; [done|apply (v_committee _ _ _ Hv)|by rewrite (no_context _ _ _ _ Hd)|lia|done]. }
  assert (node_ok ctx G' (dag_state core) log) as Hd'
    by (apply (node_ok_extend ctx byz G b HG Hfresh); [done|by eapply fresh_uncommitted]).
  destruct (accept_new_block ctx byz G' (block_manager core) (dag_state core) log b) as (m' & d' & Hrun & Heff);
    [apply HG'|done|done|by apply bm_inv_extend|done|unfold known; rewrite Hnk; by intros [? ?]|done|done|by intros a Ha; apply Hanc|done|].
  exists m', d'. split; [done|]. pose proof (ae_node _ _ _ _ _ _ _ _ Heff) as Hnode.
  assert (∀ r, dag_lookup d' r = if decide (r = reference b) then Some b else dag_lookup (dag_state core) r) as Hlk.
  { intros r. pose proof (ae_known _ _ _ _ _ _ _ _ Heff r) as Hk. unfold accepted_ref, known in Hk.
    pose proof (v_sub _ _ _ (no_view _ _ _ _ Hnode) r) as Hsub. case_decide as Hrb.
    - destruct Hk as [_ [x Hx]]; [right; subst r; apply list_elem_of_here|]. rewrite Hx. f_equal.
      apply Hsub in Hx. subst r. pose proof (extend_self G b) as He. fold G' in He. congruence.
    - destruct (dag_lookup (dag_state core) r) as [x|] eqn:Hx.
      + destruct Hk as [_ [y Hy]]; [left; by eexists|]. rewrite Hy. f_equal. apply Hsub in Hy.
        apply (v_sub _ _ _ Hv), (extend_mono G b Hfresh) in Hx. fold G' in Hx. congruence.
      + destruct (dag_lookup d' r) as [y|]; [|done]. destruct Hk as [[[? [=]]|Hin] _]; [by eexists|].
        by apply list_elem_of_singleton in Hin. }
  split; [|split; done].
  split; try done; try apply Hcore; cbn.
  - apply (clock_ok_steps ctx byz G' (hu_bft _ _ _ HG') Hdom extend_rounds (dag_state core) log); [done|apply Hcore|apply Heff].
  - apply (genesis_ok_frame (dag_state core)); [|apply Heff|apply Hcore].
    by rewrite (no_context _ _ _ _ Hnode), (no_context _ _ _ _ Hd).
  - rewrite (ae_genesis _ _ _ _ _ _ _ _ Heff). apply Hcore.
  - intros x [Hx| ->]%(extend_in G b Hfresh) Ha; unfold block_in; rewrite Hlk.
    + rewrite decide_False by by apply (old_reference G b Hfresh). by apply Hcore.
    + by rewrite decide_True.
  - apply Heff.
Qed.

(** The certifier learns the block. *)
Lemma votes_cover_new d d' t :
  votes_cover ctx G d t → is_valid_index c (vb_author b) = true → dag_gc_round d < vb_round b →
  dag_gc_round d' = dag_gc_round d →
  (∀ r, dag_lookup d' r = if decide (r = reference b) then Some b else dag_lookup d r) →
  ∃ t', certifier_add_voted_blocks t [(b, [])] = Ret t' ∧ votes_cover ctx G' d' t' ∧ ∀ x, voted t x → voted t' x.
Proof.
  intros (added & outs & Hrun & Hg & Hin & Hcov) Hval Hgc Hgc' Hlk.
  pose proof (bft_committee _ _ _ (hu_bft _ _ _ HG)) as Hcw.
  assert (∀ b', b' ∈ added → reference b' = reference b → b' = b) as Huniq.
  { intros x Hx He. by destruct (old_reference G b Hfresh x (Hin x Hx)). }
  destruct (add_voted_block_inv ctx Hcw added (certifier_state t) outs b [] (cert_run_inv ctx Hcw _ _ _ Hrun))
    as (cs' & local & Hadd & Hg' & _); [done|lia|done|].
  unfold certifier_add_voted_blocks, add_voted_blocks. cbn [foldM]. rewrite Hadd. cbn [mbind outcome_bind app].
  eexists. split; [done|]. set (t' := send_certified_blocks _ _).
  assert (certifier_state t' = cs') as Hcs by by destruct local.
  assert (cert_run ctx (added ++ [b]) (certifier_state t') (outs ++ local)) as Hrun'
    by (rewrite Hcs; eapply run_voted; [done|done|lia|done|done]).
  split; [exists (added ++ [b]), (outs ++ local); split; [done|split; [rewrite Hcs; lia|split]]|].
  - intros x [Hx|Hx]%elem_of_app; apply (extend_in G b Hfresh); [left; by apply Hin|right].
    by apply list_elem_of_singleton in Hx.
  - intros r x. rewrite Hlk, Hgc'. case_decide; intros Hx Hr; apply elem_of_app.
    + right. apply list_elem_of_singleton. congruence.
    + left. by eapply Hcov.
  - intros x [Hx Hr]%(voted_iff ctx t added outs x Hcw Hrun).
    apply (voted_iff ctx t' _ _ x Hcw Hrun'). rewrite Hcs, Hg'. split; [apply elem_of_app; by left|done].
Qed.

(** The hard links of the block are marked. *)
Lemma links_new d d' log' :
  node_ok ctx G d log → node_ok ctx G' d' log' → own_known ctx G d → links_closed d → own_linked ctx d →
  links_follow d d' → dag_gc_round d' = dag_gc_round d →
  (∀ r, dag_lookup d' r = if decide (r = reference b) then Some b else dag_lookup d r) →
  ∃ d'' linked, link_causal_history d' (reference b) = Ret (d'', linked) ∧ relinked d' d'' ∧
    links_closed d'' ∧ own_linked ctx d''.
Proof.
  intros Hd Hd' Hok Hcl Hol Hf Hgc Hlk.
  pose proof (no_view _ _ _ _ Hd) as Hv. pose proof (no_view _ _ _ _ Hd') as Hv'.
  pose proof (vo_wf _ (v_ok _ _ _ Hv')) as Hwf'.
  assert (∀ r x, dag_lookup d r = Some x → dag_lookup d' r = Some x) as Hmono.
  { intros r x Hx. rewrite Hlk. case_decide as Hr; [|done]. subst r.
    apply (v_sub _ _ _ Hv) in Hx. destruct Hfresh. congruence. }
  assert (links_closed d') as Hcl'.
  { apply (links_closed_step d); [apply (vo_wf _ (v_ok _ _ _ Hv))|apply Hv'|done|by rewrite Hgc|done|done]. }
  destruct (link_ancestors_spec [b] d' [] Hwf' (vo_universe _ (v_ok _ _ _ Hv')) Hcl')
    as (d'' & linked & Hrun & Hrl & Hcl'' & _ & Hm & Hl).
  { intros x ->%list_elem_of_singleton. by rewrite Hlk, decide_True. }
  cbn [foldM] in Hrun. unfold link_ancestor in Hrun.
  destruct (link_causal_history d' (reference b)) as [[d3 l3]|] eqn:Hlink; [|done].
  injection Hrun as -> Hl3. cbn in Hl3. subst l3. exists d'', linked. split; [done|]. split; [done|]. split; [done|].
  destruct (relinked_wf d' d'' Hwf' Hrl) as [Hwf'' Hlk''].
  intros x r Hx Ha Hp Hr. rewrite (relinked_gc _ _ Hrl) in Hr.
  assert (rtc (parent (dag_lookup d')) (reference x) r) as Hp'.
  { eapply rtc_subrel; [|exact Hp]. intros y z (w & Hw & ?). exists w. by rewrite <- Hlk''. }
  unfold block_in in Hx. rewrite Hlk'', Hlk in Hx. apply Hm. case_decide as Hxb.
  - injection Hx as <-. destruct (decide (is_linked (ds_recent_blocks d') r)) as [?|Hn]; [by left|right].
    apply Hl. split; [done|]. split; [done|]. exists b. split; [apply list_elem_of_here|done].
  - left. apply Hf; [done|]. rewrite Hgc in Hr. apply (Hol x r); [done|done| |done].
    apply (rtc_view _ G' d' Hv') in Hp'. apply (extend_rtc_inv c byz G b HG Hfresh) in Hp'; [|done].
    by apply (rtc_view_back c byz G (hu_bft _ _ _ HG) d Hv x r).
Qed.

(** The certifier and the links after the block entered the DAG state [d]. *)
Lemma fastpath_accept core m d :
  core_base ctx G log core → fastpath_ok ctx G core → is_valid_index c (vb_author b) = true →
  dag_gc_round (dag_state core) < vb_round b → rtc (node_step ctx G') (dag_state core) d →
  (∀ r, dag_lookup d r = if decide (r = reference b) then Some b else dag_lookup (dag_state core) r) →
  let core2 := core <| block_manager := m |> <| dag_state := d |> in
  ∃ t d', (if mysticeti_fastpath (protocol_config (core_context core2)) then
      certifier ← certifier_add_voted_blocks (transaction_certifier core2) [(b, [])];
      '(d, _) ← link_causal_history (dag_state core2) (reference b);
      Ret (core2 <| transaction_certifier := certifier |> <| dag_state := d |>) else Ret core2)
    = Ret (core2 <| transaction_certifier := t |> <| dag_state := d' |>) ∧
    relinked d d' ∧ fastpath_ok ctx G' (core2 <| transaction_certifier := t |> <| dag_state := d' |>) ∧
    ∀ x, voted (transaction_certifier core) x → voted t x.
Proof.
  intros Hcore Hfast Hval Hgc Hsteps Hlk core2. change (core_context core2) with (core_context core).
  rewrite (ok_context _ _ _ _ Hcore). pose proof (ok_node _ _ _ _ Hcore) as Hd.
  destruct (mysticeti_fastpath (protocol_config ctx)) eqn:Hf.
  2:{ exists (transaction_certifier core), d. split; [done|]. split; [apply relinked_refl|]. split; [|done].
      intros Hf'. rewrite Hf in Hf'. discriminate. }
  destruct (Hfast Hf) as (Hcl & Hol & Hcov).
  assert (node_ok ctx G' (dag_state core) log) as Hd'
    by (apply (node_ok_extend ctx byz G b HG Hfresh); [done|by eapply fresh_uncommitted]).
  destruct (node_steps_links ctx byz G' (hu_bft _ _ _ HG') _ log d Hd' Hsteps) as (Hdn & Hgc2 & Hfol & _).
  destruct (links_new (dag_state core) d log Hd Hdn (ok_own _ _ _ _ Hcore) Hcl Hol Hfol Hgc2 Hlk)
    as (d' & linked & Hlink & Hrl & Hcl' & Hol').
  destruct (relinked_wf d d' (vo_wf _ (v_ok _ _ _ (no_view _ _ _ _ Hdn))) Hrl) as [_ Hlk'].
  destruct (votes_cover_new (dag_state core) d' (transaction_certifier core) Hcov Hval Hgc) as (t & Hadd & Hcov' & Hvoted).
  { by rewrite (relinked_gc d d' Hrl). }
  { intros r. by rewrite Hlk', Hlk. }
  exists t, d'. change (transaction_certifier core2) with (transaction_certifier core). change (dag_state core2) with d.
  rewrite Hadd. cbn [mbind outcome_bind]. rewrite Hlink. split; [done|]. split; [done|]. split; [by intros _|done].
Qed.

(** What [accept_own_block] changes in the core. *)
Record own_step (core core' : Core S) : Prop := {
  os_frame : core' = core <| block_manager := block_manager core' |> <| dag_state := dag_state core' |>
                          <| transaction_certifier := transaction_certifier core' |>
                          <| transaction_consumer := transaction_consumer core' |>
                          <| round_tracker := round_tracker core' |>;
  os_dag : ∃ d d1, try_accept_blocks (block_manager core) (dag_state core) [b] = Ret (block_manager core', d, [b], ∅) ∧
    accept_effect ctx G' log (block_manager core) (dag_state core) (block_manager core') d [b] ∧
    relinked d d1 ∧ flush d1 = Ret (dag_state core');
  os_voted : ∀ x, voted (transaction_certifier core) x → voted (transaction_certifier core') x;
}.

Lemma accept_own_spec core eb acks :
  core_base ctx G log core → fastpath_ok ctx G core → vb_round b = clock_of (dag_state core) → eb_block eb = b →
  (∀ a, a ∈ vb_ancestors b → known (dag_state core) a ∧ is_valid_index c (br_author a) = true) →
  (∀ r, r ∈ eb_excluded_ancestors eb → is_valid_index c (br_author r) = true) →
  (∀ i r, last_included_ancestors core !! i = Some (Some r) → br_round r < vb_round b) →
  ∃ core', accept_own_block core eb acks = Ret core' ∧ core_ok ctx G' log core' ∧
    block_in (dag_lookup (dag_state core')) b ∧ own_step core core'.
Proof.
  intros Hcore Hfast Hr Heb Hanc Hex Hinc. unfold accept_own_block. rewrite Heb.
  pose proof (ok_node _ _ _ _ Hcore) as Hd. pose proof (base_dag_wf ctx G log core Hcore) as Hwf.
  pose proof (gc_below_clock _ (ok_clock _ _ _ _ Hcore)) as Hgc. rewrite <- Hr in Hgc.
  assert (is_valid_index c (vb_author b) = true) as Hval.
  { rewrite Hauthor, <- (no_context _ _ _ _ Hd). unfold c. rewrite <- (v_committee _ _ _ (no_view _ _ _ _ Hd)).
    apply (dwf_own _ (dwf_cache _ Hwf)). }
  destruct (base_accept core Hcore Hr Hanc) as (m & d & Hacc & Hbase & Heff & Hlk).
  rewrite Hacc. pose proof (ae_steps _ _ _ _ _ _ _ _ Heff) as Hsteps. cbn [mbind outcome_bind length Nat.eqb assert_that]. rewrite bool_decide_true by done.
  cbn [assert_that mbind outcome_bind].
  destruct (fastpath_accept core m d Hcore Hfast Hval Hgc Hsteps Hlk) as (t & d' & Hrun & Hrl & Hfast' & Hvoted).
  rewrite Hrun. clear Hrun. cbn [mbind outcome_bind].
  set (core2 := core <| block_manager := m |> <| dag_state := d |>) in *.
  set (core3 := core2 <| transaction_certifier := t |> <| dag_state := d' |>) in *.
  assert (core_base ctx G' log core3) as Hbase3.
  { pose proof (base_built ctx byz G' log HG' core2 (ancestor_state_manager core2) (last_included_ancestors core2)
      (transaction_consumer core2) d' Hbase (ok_states _ _ _ _ Hbase) (ok_included_length _ _ _ _ Hbase)
      (ok_consumer _ _ _ _ Hbase) Hrl) as Hb3. by eapply (base_frame ctx G' log); [..|exact Hb3]. }
  destruct (relinked_wf d d' (base_dag_wf ctx G' log core2 Hbase) Hrl) as [Hwf' Hlk'].
  assert (block_in (dag_lookup d') b) as Hbin by (unfold block_in; by rewrite Hlk', Hlk, decide_True).
  assert (core_ok ctx G' log core3) as Hok3.
  { split; [done|done|]. intros i r last' Hi Hl'. specialize (Hinc i r Hi).
    destruct (last_proposed_spec _ Hwf') as (x & Hx & _ & _ & Hmax). change (dag_state core3) with d' in Hl'.
    rewrite Hl' in Hx. injection Hx as <-. enough (vb_round b ≤ vb_round last') by lia.
    rewrite <- (reference_round b). apply Hmax; [by exists b|].
    rewrite reference_author, Hauthor. f_equal. symmetry. apply (no_context _ _ _ _ (ok_node _ _ _ _ Hbase3)). }
  destruct (core_ok_flush ctx byz G' (hu_bft _ _ _ HG') Hdom extend_rounds log core3 Hok3) as (d4 & Hflush & Hok4 & Hlk4).
  rewrite Hflush.
  cbn [mbind outcome_bind]. set (core4 := core3 <| dag_state := d4 |>) in *.
  destruct (ok_tracker _ _ _ _ Hcore) as [Htr Htc].
  destruct (update_from_accepted_block_spec (round_tracker core) eb Htr) as (tr & Htrun & Htr' & Htx & _).
  { intros e. unfold mentions. rewrite Heb, Htc. intros [->|[(a & -> & Ha)%list_elem_of_fmap|
      (a & -> & Ha)%list_elem_of_fmap]%elem_of_app]%elem_of_cons; [done|by apply Hanc|by apply Hex]. }
  set (core5 := core4 <| transaction_consumer := _ |>). change (round_tracker core5) with (round_tracker core).
  rewrite Htrun. cbn [mbind outcome_bind]. eexists. split; [reflexivity|]. split; [|split].
  - apply (core_ok_update ctx G' log core4); [done|apply ack_consumer_ok; apply Hok4|done|by rewrite Htx].
  - unfold block_in. cbn. by rewrite Hlk4.
  - split; [by destruct core|by exists d, d'|done].
Qed.
End Join.

(** * Proposals of the core *)

(** Rounds are far from the end of their type. *)
Definition rounds_bounded (G : universe) : Prop := ∀ b, block_in G b → vb_round b + 4 < u32_max.

Section TryNewBlock.
Context {S : Type} `{StoreSpec S} `{LeaderRng} `{Crypto}.
Context (ctx : Context) (byz : gset N) (G : universe) (log : commit_log) (core : Core S).
Let c := committee ctx.
Context (HG : honest_universe c byz G) (Hrounds : rounds_bounded G).
Context (Henv : core_env ctx byz (block_signer core)) (Hcore : core_ok ctx G log core).
Context (Hclock : clock_of (dag_state core) + STATE_LOCK_CLOCK_ROUNDS < 2 ^ 32).

Lemma proposal_verifies core1 now eb ctx' v :
  proposal ctx core core1 now eb → same_config ctx ctx' → SignedBlockVerifier_new ctx' = Ret v →
  verify_block v (vb_block (eb_block eb)) = Ret (Ok tt).
Proof.
  intros [(m & li & consumer & d' & _ & _ & _ & _ & _ & ancestors & last & Hlast & _ & Han & Hpr) _] Hep Hv.
  pose proof (proposed_valid ctx G log core now ancestors last _ d' ctx' v Hcore Hlast Han Hpr Hep Hv) as Hvalid.
  assert (bv_context v = ctx') as Hvc by (unfold SignedBlockVerifier_new in Hv; outcome_inv; done).
  destruct (verify_block_spec v (vb_block (eb_block eb))) as (res & -> & Hres).
  - rewrite Hvc, (proj1 Hep). apply (bft_committee _ _ _ (hu_bft _ _ _ HG)).
  - destruct Hpr as [(txs & cv & tv & Hinner & [Hb _] & _) _ _]. pose proof (ce_limits _ _ _ Henv) as (_ & Hlim & _).
    change (sb_inner (vb_block (eb_block eb))) with (vb_inner (eb_block eb)). rewrite Hinner.
    unfold block_transactions_data.
    destruct (block_of_fields ctx (clock_of (dag_state core)) now (reference <$> ancestors) txs cv tv) as (_ & _ & _ & _ & -> & _).
    rewrite <- list_fmap_compose. unfold batch_bytes in Hb. lia.
  - by rewrite (proj2 Hres Hvalid).
Qed.

Lemma proposal_joins core1 now eb acks :
  proposal ctx core core1 now eb → unreferenced G (reference (eb_block eb)) →
  honest_universe c byz (extend G (eb_block eb)) ∧
  ∃ core', accept_own_block core1 eb acks = Ret core' ∧ core_ok ctx (extend G (eb_block eb)) log core' ∧
    block_in (dag_lookup (dag_state core')) (eb_block eb) ∧ own_step ctx G log (eb_block eb) core1 core'.
Proof.
  intros [(m & li & consumer & d' & -> & Hm & Hli & Hcons & Hlb & ancestors & last & Hlast & Hlt & Han & Hpr) Hex] Hfresh.
  pose proof (ce_own _ _ _ Henv) as Hown.
  pose proof (proposed_next ctx byz G log HG core now ancestors last _ d' Hcore Hown Hlast Hlt Han Hpr) as Hnext.
  destruct (proposed_fields ctx core now ancestors _ d' Hpr) as (Ha & Hr & Hanc).
  destruct (pr_inner _ _ _ _ _ _ _ Hpr) as (txs & cv & tv & _ & _ & _ & Hv). pose proof (vt_relinked _ _ _ _ _ Hv) as Hrl.
  destruct (relinked_wf _ d' (core_dag_wf ctx G log core Hcore) Hrl) as [_ Hlk].
  split; [by apply (extend_honest c byz G _ HG Hfresh last)|].
  apply (accept_own_spec ctx byz G log HG Hown (ce_dominant _ _ _ Henv) Hrounds (eb_block eb) last Hfresh Hnext Ha).
  - rewrite Hr. unfold STATE_LOCK_CLOCK_ROUNDS, u32_max in *. lia.
  - apply (pr_digest _ _ _ _ _ _ _ Hpr).
  - apply (base_built ctx byz G log HG); [apply Hcore|done|done|done|done].
  - by eapply fastpath_built.
  - rewrite Hr. unfold clock_of. cbn. destruct (relinked_fields _ d' Hrl) as (_ & _ & -> & _). done.
  - done.
  - rewrite Hanc. intros a (x & -> & Hx)%list_elem_of_fmap. destruct (an_known _ _ _ _ _ Han x Hx) as (Hk & _ & Hval).
    split; [|done]. exists x. cbn. by rewrite Hlk.
  - done.
  - intros i r Hi. rewrite Hr. by eapply Hlb.
Qed.
End TryNewBlock.
