(* ===== verification/CommitFrame.v ===== *)
(** What committing changes of the DAG state and of the core: the commit marks, the last commit
    and the records to write; links, clock, genesis and blocks stay. The invariant of the core
    survives a commit and a change of the leader schedule. *)

From stdpp Require Import base tactics numbers list gmap sorting strings.
From coqutil Require Import Datatypes.RecordSettersUsingExistingGetters.
From S2P Require Import Prelude.
From S2P Require Import Committee.
From S2P Require Import Block.
From S2P Require Import StakeAggregator.
From S2P Require Import ThresholdClock.
From S2P Require Import Commit.
From S2P Require Import Store.
From S2P Require Import LeaderScoring.
From S2P Require Import DagState.
From S2P Require Import DagInvariant.
From S2P Require Import LeaderSchedule.
From S2P Require Import BaseCommitter.
From S2P Require Import CommitSafety.
From S2P Require Import UniversalCommitter.
From S2P Require Import Linearizer.
From S2P Require Import BlockVerifier.
From S2P Require Import BlockManager.
From S2P Require Import BlockOrigin.
From S2P Require Import TransactionConsumer.
From S2P Require Import CommitObserver.
From S2P Require Import QuorumScan.
From S2P Require Import RoundTracker.
From S2P Require Import Ancestor.
From S2P Require Import TransactionCertifier.
From S2P Require Import Core.
From S2P Require Import ProposalState.
From S2P Require Import Proposal.
From S2P Require Import CommitFinalizer.
From S2P Require Import FinalizerSafety.
From S2P Require Import Growth.
From S2P Require Import CoreInvariant.
From S2P Require Import ProposedBlock.

Open Scope N_scope.

(** * States that differ in what was committed *)

Section Recommitted.
Context {S : Type} `{StoreSpec S}.
Implicit Types d : DagState S.

Definition linked_info (i : BlockInfo) : VerifiedBlock * bool := (bi_block i, bi_hard_linked i).

Record recommitted d d' : Prop := {
  rc_eq : d' = d <| ds_recent_blocks := ds_recent_blocks d' |> <| ds_last_commit := ds_last_commit d' |>
                 <| ds_last_committed_rounds := ds_last_committed_rounds d' |>
                 <| ds_pending_commit_votes := ds_pending_commit_votes d' |>
                 <| ds_commits_to_write := ds_commits_to_write d' |>;
  rc_info : ∀ r, linked_info <$> ds_recent_blocks d' !! r = linked_info <$> ds_recent_blocks d !! r;
}.

Lemma recommitted_refl d : recommitted d d.
Proof. split; [by destruct d|done]. Qed.

Lemma recommitted_trans d1 d2 d3 : recommitted d1 d2 → recommitted d2 d3 → recommitted d1 d3.
Proof.
  intros [E1 I1] [E2 I2]. split; [rewrite E2, E1; by destruct d3|]. intros r. by rewrite I2, I1.
Qed.

Lemma recommitted_cached d d' r :
  recommitted d d' → is_Some (ds_recent_blocks d' !! r) ↔ is_Some (ds_recent_blocks d !! r).
Proof. intros [_ Hi]. specialize (Hi r). by rewrite <- !(fmap_is_Some linked_info), Hi. Qed.

Lemma recommitted_linked d d' r :
  recommitted d d' → is_linked (ds_recent_blocks d') r ↔ is_linked (ds_recent_blocks d) r.
Proof.
  intros [_ Hi]. specialize (Hi r). unfold is_linked.
  destruct (ds_recent_blocks d !! r) as [i|], (ds_recent_blocks d' !! r) as [i'|]; simplify_eq/=; [|done].
  destruct i, i'; unfold linked_info in Hi; naive_solver.
Qed.

(** Linearizing only marks cached blocks. *)
Record remarked d d' : Prop := {
  rm_eq : d' = d <| ds_recent_blocks := ds_recent_blocks d' |>;
  rm_info : ∀ r, linked_info <$> ds_recent_blocks d' !! r = linked_info <$> ds_recent_blocks d !! r;
}.

Lemma remarked_refl d : remarked d d.
Proof. split; [by destruct d|done]. Qed.

Lemma remarked_trans d1 d2 d3 : remarked d1 d2 → remarked d2 d3 → remarked d1 d3.
Proof.
  intros [E1 I1] [E2 I2]. split; [rewrite E2, E1; by destruct d3|]. intros r. by rewrite I2, I1.
Qed.

Lemma remarked_recommitted d d' : remarked d d' → recommitted d d'.
Proof. intros [E I]. split; [rewrite E; by destruct d|done]. Qed.

Lemma set_committed_frame d r d' fresh : set_committed d r = Ret (d', fresh) → remarked d d'.
Proof.
  unfold set_committed. intros (i & Hi & Hr)%bind_Ret.
  assert (ds_recent_blocks d !! r = Some i) as Hlk by (destruct (ds_recent_blocks d !! r); simplify_eq/=; done).
  destruct (bi_committed i); injection Hr as <- _; [apply remarked_refl|].
  split; [by destruct d|]. intros r'. simpl.
  destruct (decide (r' = r)) as [-> |]; [by rewrite lookup_insert_eq, Hlk|by rewrite lookup_insert_ne].
Qed.

Lemma linearize_loop_frame fuel g d buffer acc d' out :
  linearize_loop fuel g d buffer acc = Ret (d', out) → remarked d d'.
Proof.
  revert d buffer acc. induction fuel as [|fuel IH]; intros d [|x buffer] acc Hl; cbn [linearize_loop] in Hl;
    try done; try (injection Hl as <- _; apply remarked_refl).
  apply bind_Ret in Hl as (refs & _ & Hl). apply bind_Ret in Hl as (found & _ & Hl).
  apply bind_Ret in Hl as (ancestors & _ & Hl). apply bind_Ret in Hl as ([d1 buffer1] & Hpush & Hl).
  eapply remarked_trans; [|by eapply IH].
  apply (foldM_inv (λ acc, remarked d acc.1)) in Hpush; [done|apply remarked_refl|].
  intros [d2 b2] a [d3 b3] _ Hd2 Hp. apply bind_Ret in Hp as ([d4 fresh] & Hs & Hp).
  apply bind_Ret in Hp as (? & _ & Hp). injection Hp as <- <-.
  eapply remarked_trans; [exact Hd2|]. exact (set_committed_frame _ _ _ _ Hs).
Qed.

Lemma collect_frame `{Crypto} `{CommitCodec} ctx d L d' sd tc :
  collect_sub_dag_and_commit ctx d L = Ret (d', sd, tc) → remarked d d' ∧ sd_commit_ref sd = tc_reference tc.
Proof.
  unfold collect_sub_dag_and_commit. intros Hc. apply bind_Ret in Hc as ([d5 blocks] & Hlin & Hc).
  apply bind_Ret in Hc as (? & _ & Hc). apply bind_Ret in Hc as (? & _ & Hc). injection Hc as <- <- <-. split; [|done].
  unfold linearize_sub_dag in Hlin. apply bind_Ret in Hlin as ([d6 fresh] & Hset & Hlin).
  apply bind_Ret in Hlin as (? & _ & Hlin). apply bind_Ret in Hlin as ([d7 out] & Hloop & Hlin).
  apply bind_Ret in Hlin as (? & _ & Hlin). injection Hlin as <- _.
  eapply remarked_trans; [exact (set_committed_frame _ _ _ _ Hset)|by eapply linearize_loop_frame].
Qed.

Lemma add_commit_frame d tc d' : add_commit d tc = Ret d' → recommitted d d'.
Proof.
  unfold add_commit. intros Ha. destruct (ds_last_commit d) as [l|]; [destruct (tc_index tc <=? tc_index l)|].
  - injection Ha as <-. apply recommitted_refl.
  - apply bind_Ret in Ha as (? & _ & Ha). apply bind_Ret in Ha as (? & _ & Ha).
    apply bind_Ret in Ha as (? & _ & Ha). apply bind_Ret in Ha as (? & _ & Ha). injection Ha as <-. by split; [destruct d|].
  - apply bind_Ret in Ha as (? & _ & Ha).
    apply bind_Ret in Ha as (? & _ & Ha). apply bind_Ret in Ha as (? & _ & Ha). injection Ha as <-. by split; [destruct d|].
Qed.

(** The only new votes of the validator are for what it commits. *)
Lemma add_commit_votes d tc d' v :
  add_commit d tc = Ret d' → v ∈ ds_pending_commit_votes d' → v ∈ ds_pending_commit_votes d ∨ v = tc_reference tc.
Proof.
  unfold add_commit. intros Ha Hv. destruct (ds_last_commit d) as [l|]; [destruct (tc_index tc <=? tc_index l)|];
    repeat (apply bind_Ret in Ha as (? & _ & Ha)); injection Ha as <-; cbn in Hv; [by left|..].
  all: apply elem_of_app in Hv as [Hv|Hv%list_elem_of_singleton]; auto.
Qed.

Lemma handle_commit_frame `{Crypto} `{CommitCodec} ctx d leaders d' sds :
  handle_commit ctx d leaders = Ret (d', sds) →
  recommitted d d' ∧ ∀ v, v ∈ ds_pending_commit_votes d' → v ∈ ds_pending_commit_votes d ∨ v ∈ sd_commit_ref <$> sds.
Proof.
  intros Hh. apply (foldM_inv (λ acc, recommitted d acc.1 ∧
    ∀ v, v ∈ ds_pending_commit_votes acc.1 → v ∈ ds_pending_commit_votes d ∨ v ∈ sd_commit_ref <$> acc.2)) in Hh;
    [done|split; [apply recommitted_refl|by left]|].
  intros [d1 sds1] L [d2 sds2] _ [Hd1 Hv1] Hl. unfold handle_leader in Hl. cbn in Hd1, Hv1 |- *.
  apply bind_Ret in Hl as ([[d3 sd] tc] & Hc & Hl). apply bind_Ret in Hl as (? & _ & Hl).
  apply bind_Ret in Hl as (d4 & Ha & Hl). injection Hl as <- <-. destruct (collect_frame _ _ _ _ _ _ Hc) as [Hm Href]. split.
  - eapply recommitted_trans; [exact Hd1|]. eapply recommitted_trans; [by apply remarked_recommitted|by eapply add_commit_frame].
  - intros v Hv. rewrite fmap_app, elem_of_app. destruct (add_commit_votes _ _ _ _ Ha Hv) as [Hv3| ->].
    + rewrite (rm_eq _ _ Hm) in Hv3. destruct (Hv1 v Hv3); auto.
    + right. right. rewrite <- Href. csimpl. left.
Qed.
End Recommitted.

(** * The core after a commit *)

Section CoreFrames.
Context {S : Type} `{StoreSpec S} `{LeaderRng} `{Crypto}.
Context (ctx : Context) (byz : gset N) (G : universe).
Let c := committee ctx.
Context (HG : bft c byz G).

Lemma log_gc_mono log log' : log_round log ≤ log_round log' → log_gc ctx log ≤ log_gc ctx log'.
Proof. unfold log_gc. lia. Qed.

Lemma node_last (d : DagState S) log : node_ok ctx G d log → last_commit_round d = log_round log.
Proof. intros Hd. unfold last_commit_round, log_round. by rewrite (no_last ctx G d log Hd). Qed.

(** The leaders a node commits are cached, hence not above its clock. *)
Lemma leader_below_clock (d : DagState S) log L :
  node_ok ctx G d log → clock_ok d → block_in (dag_lookup d) L → log_round log < vb_round L → vb_round L ≤ clock_of d.
Proof.
  intros Hn Hck HL Hr. rewrite <- (reference_round L). apply (ck_high d Hck).
  destruct (dag_lookup_cached d (reference L) L) as (i & Hi & _); [apply (no_view ctx G d log Hn)|done| |by exists i].
  rewrite (node_gc ctx G d log Hn), reference_round. unfold log_gc. lia.
Qed.

Lemma recommitted_clock (d d' : DagState S) log log' :
  node_ok ctx G d log → node_ok ctx G d' log' → clock_ok d → recommitted d d' →
  log_round log ≤ log_round log' → log_round log' ≤ clock_of d → clock_ok d'.
Proof.
  intros Hn Hn' Hck Hrc Hlo Hhi.
  assert (dag_gc_round d ≤ dag_gc_round d') as Hgc.
  { rewrite (node_gc ctx G d log Hn), (node_gc ctx G d' log' Hn'). by apply log_gc_mono. }
  apply (clock_ok_frame d d'); try done.
  - apply (no_view ctx G d log Hn).
  - by rewrite (rc_eq d d' Hrc).
  - by rewrite (rc_eq d d' Hrc).
  - intros r. by apply (recommitted_cached d d').
  - intros r Hr _. by apply (recommitted_cached d d').
  - by rewrite (node_last d log Hn), (node_last d' log' Hn').
  - by rewrite (node_last d' log' Hn').
  - intros a e He. rewrite (rc_eq d d' Hrc) in He. pose proof (ck_evicted d Hck a e He). lia.
Qed.

Lemma core_ok_commit log log' core d' :
  core_ok ctx G log core → recommitted (dag_state core) d' → node_ok ctx G d' log' →
  (∀ r, dag_lookup d' r = dag_lookup (dag_state core) r) →
  log_round log ≤ log_round log' → log_round log' ≤ clock_of (dag_state core) →
  core_ok ctx G log' (core <| dag_state := d' |>).
Proof.
  intros [Hbase Hfast Hinc] Hrc Hn' Hlk Hlo Hhi.
  pose proof (ok_node ctx G log core Hbase) as Hn.
  assert (dag_gc_round (dag_state core) ≤ dag_gc_round d') as Hgc.
  { rewrite (node_gc ctx G _ log Hn), (node_gc ctx G d' log' Hn'). by apply log_gc_mono. }
  assert (ds_context d' = ds_context (dag_state core)) as Hctx by by rewrite (rc_eq _ _ Hrc).
  assert (ds_genesis d' = ds_genesis (dag_state core)) as Hgen by by rewrite (rc_eq _ _ Hrc).
  assert (links_follow (dag_state core) d') as Hfollow by (intros r _; by apply recommitted_linked).
  split.
  - destruct Hbase as [? ? Hck Hg Hgb Hown ? ? ? ? ? Hm]. split; try done.
    + by apply (recommitted_clock (dag_state core) d' log log').
    + by apply (genesis_ok_frame (dag_state core)).
    + destruct Hgb as (blocks & ? & Hb). exists blocks. by rewrite <- Hgen in Hb.
    + intros b Hb Ha. unfold block_in. cbn. rewrite Hlk. by apply Hown.
    + apply (bm_inv_advance ctx G (block_manager core) (dag_state core)); try done.
      intros r. unfold known. cbn. by rewrite Hlk.
  - intros Hfp. destruct (Hfast Hfp) as (Hcl & Hol & added & outs & Hrun & Hgcr & Hadd & Hcov).
    split; [|split; [|exists added, outs; split; [done|split; [cbn; lia|split; [done|]]]]].
    + apply (links_closed_step (dag_state core)); try done; [apply (no_view ctx G _ log Hn)|apply (no_view ctx G _ log' Hn')|].
      intros r b. by rewrite Hlk.
    + apply (own_linked_step ctx byz G HG (dag_state core)); try done; [apply Hn|apply Hn'|apply (ok_own ctx G log core Hbase)].
    + intros r b. cbn. rewrite Hlk. intros Hb Hr. apply (Hcov r); [done|]. lia.
  - apply included_grows; try done; [apply (no_view ctx G _ log Hn)|apply (no_view ctx G _ log' Hn')|].
    intros r b. by rewrite Hlk.
Qed.

(** ** Scores and the leader schedule *)

(** The DAG state with other scores and commit infos. *)
Definition rescored (d : DagState S) (scoring : ScoringSubdag) (infos : list (CommitRef * CommitInfo)) : DagState S :=
  d <| ds_scoring_subdag := scoring |> <| ds_commit_info_to_write := infos |>.

Lemma rescored_wf d scoring infos : dag_wf d → dag_wf (rescored d scoring infos).
Proof. intros [[] ? ? ? ? ? ? ?]. split; [split|..]; done. Qed.

Lemma rescored_node d scoring infos log : node_ok ctx G d log → node_ok ctx G (rescored d scoring infos) log.
Proof.
  intros Hd. apply (node_ok_grow ctx byz G HG d log); try done.
  - apply rescored_wf, Hd.
  - intros r b. by left.
  - exact (no_marks ctx G d log Hd).
Qed.

Lemma rescored_clock d scoring infos : dag_wf d → clock_ok d → clock_ok (rescored d scoring infos).
Proof. intros Hwf Hck. apply (clock_ok_frame d); try done; apply Hck. Qed.

Lemma rescored_links d scoring infos t :
  (links_closed d ∧ own_linked ctx d ∧ votes_cover ctx G d t) →
  links_closed (rescored d scoring infos) ∧ own_linked ctx (rescored d scoring infos) ∧
  votes_cover ctx G (rescored d scoring infos) t.
Proof. done. Qed.

Lemma core_ok_reschedule log core scoring infos schedule m :
  core_ok ctx G log core → (∃ lead, committer_ok c lead (core_committer (core <| leader_schedule := schedule |>))) →
  states_ok c m →
  core_ok ctx G log (core <| leader_schedule := schedule |> <| dag_state := rescored (dag_state core) scoring infos |>
                          <| ancestor_state_manager := m |>).
Proof.
  intros [Hbase Hfast Hinc] Hlead Hm. pose proof (base_dag_wf ctx G log core Hbase) as Hwf. split.
  - destruct Hbase as [? ? ? ? ? ? ? ? ? ? ? Hb]. split; try done.
    + by apply rescored_node.
    + by apply rescored_clock.
    + by destruct Hb as [? ? ?]; split.
  - intros Hfp. apply rescored_links. by apply Hfast.
  - intros i r last Hi Hlast. apply (Hinc i); done.
Qed.

(** ** Accepted blocks *)

Lemma voted_added t added outs b :
  cert_run ctx added (certifier_state t) outs → voted t b → b ∈ added.
Proof.
  intros Hrun Hv. by apply (voted_iff ctx t added outs b (bft_committee c byz G HG) Hrun) in Hv as [? _].
Qed.

Context (Hdom : no_dominant c) (Hrounds : ∀ b, block_in G b → vb_round b + 4 < u32_max).

(** The certifier knows the block of the reference. *)
Definition voted_ref (t : TransactionCertifier) (r : BlockRef) : Prop :=
  ∃ b, block_in G b ∧ reference b = r ∧ voted t b.

Definition suspended_voted (core : Core S) : Prop :=
  mysticeti_fastpath (protocol_config ctx) = true →
  ∀ r, is_Some (bm_suspended_blocks (block_manager core) !! r) → dag_gc_round (dag_state core) < br_round r →
    voted_ref (transaction_certifier core) r.

(** Above the garbage collection round, what is cached later was cached or voted on before. *)
Definition source (core : Core S) (r : BlockRef) : Prop :=
  dag_gc_round (dag_state core) < br_round r →
  is_Some (ds_recent_blocks (dag_state core) !! r) ∨ voted_ref (transaction_certifier core) r.

Lemma source_start log core :
  core_base ctx G log core → suspended_voted core → mysticeti_fastpath (protocol_config ctx) = true →
  held (source core) (block_manager core) ∧ cached_in (source core) (dag_state core).
Proof.
  intros Hb Hs Hfp. split; [|intros r Hr _; by left].
  intros r s Hrs. split; [apply (gi_susp _ _ _ _ _ _ _ _ (bi_graph _ _ _ _ (ok_manager _ _ _ _ Hb)) r s Hrs)|].
  intros Hr. right. apply Hs; [done|by exists s|done].
Qed.

Lemma core_ok_accept log core m' d' new :
  core_ok ctx G log core → accept_effect ctx G log (block_manager core) (dag_state core) m' d' new →
  (mysticeti_fastpath (protocol_config ctx) = true → held (source core) m' ∧ cached_in (source core) d') →
  core_ok ctx G log (core <| block_manager := m' |> <| dag_state := d' |>) ∧
  suspended_voted (core <| block_manager := m' |> <| dag_state := d' |>).
Proof.
  intros [Hbase Hfast Hinc] Heff Hsource. pose proof (ok_node ctx G log core Hbase) as Hn.
  destruct (node_steps_links ctx byz G HG _ log d' Hn (ae_steps _ _ _ _ _ _ _ _ Heff)) as (Hn' & Hgc & Hf & Hmono).
  pose proof (no_view _ _ _ _ Hn') as Hv'. pose proof (vo_wf _ (v_ok _ _ _ Hv')) as Hwf'.
  pose proof (base_dag_wf ctx G log core Hbase) as Hwf.
  split; [split|].
  - apply (base_step ctx byz G HG Hdom Hrounds); [done|apply Heff|apply Heff|apply Heff].
  - intros Hfp. destruct (Hfast Hfp) as (Hcl & Hol & added & outs & Hrun & Hgcr & Hadd & Hcov).
    split; [|split; [|exists added, outs; split; [done|split; [cbn; lia|split; [done|]]]]].
    + apply (links_closed_step (dag_state core)); try done; [apply Hv'|cbn; lia].
    + apply (own_linked_step ctx byz G HG (dag_state core)); try done; [apply (no_view _ _ _ _ Hn)|cbn; lia|apply (ok_own ctx G log core Hbase)].
    + cbn. intros r b Hb Hr. pose proof (v_sub _ _ _ Hv' r b Hb) as HGb.
      destruct (dag_lookup_cached d' r b Hwf' Hb Hr) as (i & Hi & _).
      destruct (proj2 (Hsource Hfp) r) as [[i' Hi']|(x & Hx & Hxr & Hvx)]; [by exists i|lia| |].
      * apply (Hcov r); [|lia]. pose proof (dag_lookup_recent _ r i' Hwf Hi') as Hl. rewrite Hl. f_equal.
        apply Hmono in Hl. congruence.
      * apply (voted_added (transaction_certifier core) added outs); [done|].
        unfold block_in in Hx. rewrite Hxr in Hx. congruence.
  - apply included_grows; try done. change (ds_context d' = ds_context (dag_state core)).
    by rewrite (no_context _ _ _ _ Hn'), (no_context _ _ _ _ Hn).
  - intros Hfp r [s Hs] Hr. cbn in Hs, Hr.
    destruct (proj1 (Hsource Hfp) r s Hs) as [Hrs HT].
    destruct HT as [[i Hi]|?]; [lia| |done]. exfalso.
    destruct (gi_susp _ _ _ _ _ _ _ _ (bi_graph _ _ _ _ (ae_inv _ _ _ _ _ _ _ _ Heff)) r s Hs) as (_ & _ & Hno & _).
    apply Hno. left. exists (bi_block i). apply Hmono, (dag_lookup_recent _ r i Hwf Hi).
Qed.
End CoreFrames.
