(* ===== verification/CoreCommit.v ===== *)
(** Committing in the core: [try_commit] never panics, ends within its bound, and moves the core
    along the progress of consensus; what it sends to the finalizer are the commits of that
    progress. *)

From stdpp Require Import base tactics numbers list gmap sorting strings.
From coqutil Require Import Datatypes.RecordSettersUsingExistingGetters.
From S2P Require Import Prelude.
From S2P Require Import Committee.
From S2P Require Import Block.
From S2P Require Import StakeAggregator.
From S2P Require Import ThresholdClock.
From S2P Require Import Commit.
From S2P Require Import Store.
From S2P Require Import LeaderScoring.
From S2P Require Import DagState.
From S2P Require Import DagInvariant.
From S2P Require Import LeaderSchedule.
From S2P Require Import BaseCommitter.
From S2P Require Import CommitSafety.
From S2P Require Import UniversalCommitter.
From S2P Require Import Linearizer.
From S2P Require Import BlockVerifier.
From S2P Require Import BlockManager.
From S2P Require Import BlockOrigin.
From S2P Require Import TransactionConsumer.
From S2P Require Import CommitObserver.
From S2P Require Import QuorumScan.
From S2P Require Import RoundTracker.
From S2P Require Import Ancestor.
From S2P Require Import TransactionCertifier.
From S2P Require Import Core.
From S2P Require Import ProposalState.
From S2P Require Import Proposal.
From S2P Require Import CommitFinalizer.
From S2P Require Import FinalizerSafety.
From S2P Require Import Growth.
From S2P Require Import CoreInvariant.
From S2P Require Import ProposedBlock.
From S2P Require Import CommitProgress.
From S2P Require Import ScheduleProgress.
From S2P Require Import CommitFrame.

Open Scope N_scope.

(** * The invariant of the core with its commits *)

(** A sub-DAG without what the observer adds to it. *)
Definition plain (sd : CommittedSubDag) : CommittedSubDag :=
  sd <| sd_decided_with_local_blocks := true |> <| sd_reputation_scores_desc := [] |>.

Section CoreCommit.
Context {S : Type} `{StoreSpec S} `{LeaderRngSpec} `{Crypto} `{CommitCodec}.
Implicit Types core : Core S.
Context (ctx : Context) (byz : gset N) (n : N).
Let c := committee ctx.

(** The assumptions on the epoch: the authority is honest, no authority holds a third of the
    stake, the schedule can swap its leaders, one leader per round, and commits can be
    encoded. *)
Record chain_env : Prop := {
  ch_own : own_index ctx ∉ byz;
  ch_dominant : no_dominant c;
  ch_schedule : schedule_env ctx n;
  ch_leaders : mysticeti_num_leaders_per_round (protocol_config ctx) = Some 1;
  ch_codec : ∀ commit, is_Some (bcs_commit commit);
}.

(** The state of the progress that a core is in. *)
Definition core_progress (log : commit_log) (core : Core S) : progress_state :=
  mkProgress log (leader_swap_table (leader_schedule core)) (ds_scoring_subdag (dag_state core)).

(** The validator votes only for its own commits: in the blocks it has proposed, and in those
    it will propose. *)
Record cast_ok (G : universe) (sds : list CommittedSubDag) (pending : list CommitVote) : Prop := {
  ca_pending : ∀ v, v ∈ pending → v ∈ sd_commit_ref <$> sds;
  ca_blocks : ∀ b v, block_in G b → vb_author b = own_index ctx → v ∈ vb_commit_votes b → v ∈ sd_commit_ref <$> sds;
}.

Record commit_ok (G : universe) (hist : list LeaderStatus) (sds : list CommittedSubDag) (log : commit_log)
    (core : Core S) : Prop := {
  cm_core :> core_ok ctx G log core;
  cm_progress : reaches ctx n G hist sds (core_progress log core);
  cm_schedule : schedule_context (leader_schedule core) = ctx ∧ num_commits_per_schedule (leader_schedule core) = n;
  cm_decided : slot_round (last_decided_leader core) = N.of_nat (length hist);
  cm_rounds : N.of_nat (length hist) + 4 < u32_max;
  cm_highest : ds_highest_accepted_round (dag_state core) + 4 < u32_max;
  cm_observer : obs_context (commit_observer core) = ctx ∧ obs_finalizer_open (commit_observer core) = true;
  cm_sent : plain <$> obs_sent (commit_observer core) = sds;
  cm_voted : suspended_voted ctx G core;
  cm_cast : cast_ok G sds (ds_pending_commit_votes (dag_state core));
}.

(** What commits keep of the rest of the core. *)
Record follows core core' : Prop := {
  fo_signer : block_signer core' = block_signer core;
  fo_certifier : transaction_certifier core' = transaction_certifier core;
  fo_genesis : ds_genesis (dag_state core') = ds_genesis (dag_state core);
  fo_gc : dag_gc_round (dag_state core) ≤ dag_gc_round (dag_state core');
  fo_known : ∀ r, known (dag_state core) r → known (dag_state core') r;
  fo_signals : signals core' = signals core;
}.

Lemma follows_refl core : follows core core.
Proof. by split. Qed.

Lemma follows_trans core1 core2 core3 : follows core1 core2 → follows core2 core3 → follows core1 core3.
Proof. intros [] []. split; [congruence..|lia|auto|congruence]. Qed.

Section Run.
Context (G : universe) (HG : honest_universe c byz G) (Hrounds : rounds_bounded G) (Henv : chain_env).
Let HB : bft c byz G := hu_bft c byz G HG.
Let Hse : schedule_env ctx n := ch_schedule Henv.

Lemma progress_ok hist sds log core : commit_ok G hist sds log core → progress_wf ctx n hist (core_progress log core).
Proof.
  intros Hok. apply (reaches_wf ctx n G Hse (hu_unique c byz G HG) hist sds); [apply Hok|].
  pose proof (cm_rounds _ _ _ _ _ Hok). lia.
Qed.

Lemma schedule_eta core :
  schedule_context (leader_schedule core) = ctx ∧ num_commits_per_schedule (leader_schedule core) = n →
  leader_schedule core = mkLeaderSchedule (leader_swap_table (leader_schedule core)) ctx n.
Proof. intros [Hc Hn]. destruct (leader_schedule core). cbn in *. by rewrite Hc, Hn. Qed.

(** The committer of a core whose schedule elects [lead]. *)
Lemma committer_of core lead :
  core_context core = ctx → schedule_context (leader_schedule core) = ctx ∧ num_commits_per_schedule (leader_schedule core) = n →
  elects ctx n (leader_swap_table (leader_schedule core)) lead → (∀ r, is_valid_index c (lead r) = true) →
  committer_ok c lead (core_committer core).
Proof.
  intros Hctx Hsch He Hv. split; [|done]. exists ctx, (leader_schedule core). unfold core_committer.
  rewrite Hctx, (ch_leaders Henv). split_and!; try done; try by rewrite (ch_leaders Henv).
  intros r. rewrite (schedule_eta core Hsch). apply He.
Qed.

(** ** The leader schedule *)

Lemma full_progress hist sds log core k :
  commit_ok G hist sds log core → window n k (core_progress log core) → log_index log = k * n + n →
  progress ctx n G hist (core_progress log core) sds.
Proof.
  intros Hok Hw Hfull. pose proof (progress_ok _ _ _ _ Hok) as Hwf. pose proof (cm_rounds _ _ _ _ _ Hok) as Hlen.
  pose proof (pw_round _ _ _ _ Hwf) as Hr. pose proof (pw_index _ _ _ _ Hwf) as Hi. cbn [core_progress pg_log] in Hr, Hi.
  destruct (cm_progress _ _ _ _ _ Hok) as (st0 & Hp & [Hrenew| ->]); [|done]. exfalso.
  destruct (renew_spec ctx n Hse hist st0) as (st1 & Hrenew' & _ & _ & (k' & Hw' & Hlt)).
  { apply (progress_progress_wf ctx n G Hse (hu_unique c byz G HG) hist st0 sds Hp). lia. }
  { lia. }
  rewrite Hrenew in Hrenew'. injection Hrenew' as <-.
  pose proof (window_count ctx n k _ Hw) as H1'. pose proof (window_count ctx n k' _ Hw') as H2'.
  pose proof (wi_low _ _ _ Hw'). cbn [core_progress pg_log] in *.
  rewrite H1' in H2' by lia. specialize (H2' ltac:(lia)). injection H2' as H2'. lia.
Qed.

(** The state of a core with another schedule. *)
Definition reschedule core (table : LeaderSwapTable) (info : CommitRef * CommitInfo) : Core S :=
  core <| leader_schedule := (leader_schedule core) <| leader_swap_table := table |> |>
       <| dag_state := rescored (dag_state core) ScoringSubdag_new (ds_commit_info_to_write (dag_state core) ++ [info]) |>
       <| ancestor_state_manager :=
            set_propagation_scores (ancestor_state_manager core) (swap_reputation_scores table) |>.

Lemma update_schedule_spec hist sds log core k :
  commit_ok G hist sds log core → window n k (core_progress log core) → log_index log = k * n + n →
  ∃ table info, update_leader_schedule_v2 (leader_schedule core) (dag_state core) =
      Ret (leader_schedule (reschedule core table info), dag_state (reschedule core table info)) ∧
    commit_ok G hist sds log (reschedule core table info) ∧ window n (k + 1) (core_progress log (reschedule core table info)).
Proof.
  intros Hok Hw Hfull. pose proof (progress_ok _ _ _ _ Hok) as Hwf. pose proof (cm_rounds _ _ _ _ _ Hok) as Hlen.
  pose proof (pw_round _ _ _ _ Hwf) as Hr. pose proof (pw_index _ _ _ _ Hwf) as Hi. cbn [core_progress pg_log] in Hr, Hi.
  destruct (cm_schedule _ _ _ _ _ Hok) as [Hsc Hsn]. pose proof (ok_base _ _ _ _ Hok) as Hbase.
  pose proof (ok_node _ _ _ _ Hbase) as Hn.
  destruct (full_window ctx n Hse k hist _ Hwf Hw) as
    (scores & table & Hrange & Hend & Hscores & Htable & Hts & Hwf' & Hw'); [done|lia|].
  cbn [core_progress pg_log pg_scoring pg_table] in Hrange, Hend, Hscores, Htable, Hwf', Hw'.
  assert (is_Some (log_last log)) as [last Hlast].
  { pose proof (se_positive _ _ Hse). unfold log_index in Hfull. destruct (log_last log); [by eexists|]. cbn in Hfull. lia. }
  exists table, (tc_reference last, mkCommitInfo (ds_last_committed_rounds (dag_state core)) scores).
  split; [|split].
  - unfold update_leader_schedule_v2, calculate_scoring_subdag_scores, scoring_subdag_commit_range.
    unfold dag_committee. rewrite (no_context _ _ _ _ Hn), Hscores. cbn [mbind outcome_bind].
    rewrite Hrange. cbn [expect mbind outcome_bind]. rewrite Hend.
    assert (add_commit_info (clear_scoring_subdag (dag_state core)) scores =
      Ret (rescored (dag_state core) ScoringSubdag_new (ds_commit_info_to_write (dag_state core) ++
        [(tc_reference last, mkCommitInfo (ds_last_committed_rounds (dag_state core)) scores)]))) as ->.
    { unfold add_commit_info. change (ds_last_commit (clear_scoring_subdag (dag_state core))) with (ds_last_commit (dag_state core)).
      rewrite (no_last _ _ _ _ Hn), Hlast. done. }
    cbn [mbind outcome_bind]. rewrite Hsc, Htable. cbn [mbind outcome_bind]. unfold update_leader_swap_table.
    pose proof (wi_table _ _ _ Hw) as Ht1. pose proof (wi_table _ _ _ Hw') as Ht2. cbn [core_progress pg_table] in Ht1, Ht2.
    rewrite Ht1, Ht2. rewrite (ranges_follow ctx n Hse k) by lia. done.
  - pose proof (full_progress _ _ _ _ k Hok Hw Hfull) as Hp. destruct Hok as [Hcore Hprog Hsch Hdec Hlen' Hhigh Hobs Hsent Hvoted Hca]. split; try done.
    + destruct (pw_lead _ _ _ _ Hwf') as (lead & He & Hv).
      apply (core_ok_reschedule ctx byz G HB); [done| |].
      * exists lead. by apply committer_of; [apply Hbase|..].
      * destruct (ok_states _ _ _ _ Hbase) as ([? ? ?] & ? & _). split; [by split|]. split; [done|]. apply (pw_scores _ _ _ _ Hwf').
    + exists (core_progress log core). split; [done|left].
      unfold renew. rewrite (window_count ctx n k _ Hw) by (cbn; lia). cbn [mbind outcome_bind core_progress pg_log pg_scoring].
      rewrite (proj2 (N.eqb_eq _ _)) by lia. rewrite Hscores. cbn [mbind outcome_bind]. rewrite Hrange.
      cbn [expect mbind outcome_bind]. by rewrite Hend, Htable.
  - done.
Qed.

(** The schedule is renewed when its window is full; afterwards the window has room. *)
Lemma maybe_update_spec hist sds log core :
  commit_ok G hist sds log core →
  ∃ core' until k, maybe_update_schedule core = Ret (core', until) ∧ commit_ok G hist sds log core' ∧
    window n k (core_progress log core') ∧ log_index log + until = k * n + n ∧ 0 < until ∧
    follows core core' ∧ block_manager core' = block_manager core ∧
    ds_recent_blocks (dag_state core') = ds_recent_blocks (dag_state core).
Proof.
  intros Hok. pose proof (progress_ok _ _ _ _ Hok) as Hwf. pose proof (cm_rounds _ _ _ _ _ Hok) as Hlen.
  pose proof (pw_round _ _ _ _ Hwf) as Hr. pose proof (pw_index _ _ _ _ Hwf) as Hi. cbn [core_progress pg_log] in Hr, Hi.
  destruct (pw_window _ _ _ _ Hwf) as [k Hw]. pose proof (wi_low _ _ _ Hw) as Hlo. pose proof (wi_high _ _ _ Hw) as Hhi.
  cbn [core_progress pg_log] in Hlo, Hhi. destruct (cm_schedule _ _ _ _ _ Hok) as [Hsc Hsn].
  assert (scoring_subdags_count (dag_state core) = Ret (log_index log - k * n)) as Hcount
    by (apply (window_count ctx n k _ Hw); cbn; lia).
  unfold maybe_update_schedule, commits_until_leader_schedule_update. rewrite Hcount, Hsn. cbn [mbind outcome_bind].
  rewrite (proj2 (N.leb_le _ _)) by lia. cbn [assert_that mbind outcome_bind].
  destruct (N.eqb_spec (n - (log_index log - k * n)) 0) as [Hfull|Hroom].
  2:{ cbn [mbind outcome_bind]. rewrite (proj2 (N.ltb_lt _ _)) by lia. eexists core, _, k. split_and!; try done; lia. }
  destruct (update_schedule_spec hist sds log core k Hok Hw) as (table & info & -> & Hok' & Hw'); [lia|].
  cbn [mbind outcome_bind]. cbv zeta.
  exists (reschedule core table info), n, (k + 1).
  pose proof (se_positive _ _ Hse). split; [|split_and!; try done; nia].
  change (('(core0, u) ← (u ← (_ ← assert_that (0 <=? num_commits_per_schedule (leader_schedule core));
                               Ret (num_commits_per_schedule (leader_schedule core) - 0));
                          Ret (reschedule core table info, u));
           _ ← assert_that (0 <? u); Ret (core0, u)) = Ret (reschedule core table info, n)).
  rewrite Hsn, N.sub_0_r, (proj2 (N.leb_le _ _)) by lia. cbn [assert_that mbind outcome_bind].
  by rewrite (proj2 (N.ltb_lt _ _)) by lia.
Qed.
(** ** Commits *)

Lemma sound_run_round log leaders new log' :
  sound_run ctx G log leaders new log' →
  log_round log ≤ log_round log' ∧ (∀ L, last leaders = Some L → log_round log' = vb_round L) ∧
  (leaders = [] → log' = log).
Proof.
  induction 1 as [|log L leaders sd new log1 log2 Hco Hf Hv Hrun (IH1 & IH2 & IH3)]; [done|].
  destruct (cf_round _ _ _ _ _ _ Hf) as [Hr1 Hr2]. split; [lia|]. split; [|done].
  destruct leaders as [|L' leaders]; [intros L0 [= <-]; by rewrite (IH3 eq_refl)|]. done.
Qed.

Lemma sound_run_committed log leaders new log' :
  sound_run ctx G log leaders new log' →
  (∀ r, r ∈ log_committed log → r ∈ log_committed log') ∧
  (∀ L, L ∈ leaders → reference L ∈ log_committed log' ∧ reference L ∉ log_committed log).
Proof.
  induction 1 as [|log L leaders sd new log1 log2 Hco Hf Hv Hrun [IH1 IH2]].
  { split; [done|]. intros L HL. by apply elem_of_nil in HL. }
  pose proof (cf_committed _ _ _ _ _ _ Hf) as Hcom.
  assert (∀ r, r ∈ log_committed log → r ∈ log_committed log1) as Hmono by (intros r Hr; apply Hcom; by left).
  split; [auto|]. intros L0 [-> |HL]%elem_of_cons.
  - pose proof (list_elem_of_fmap_2 reference _ _ (cf_root _ _ _ _ _ _ Hf)) as Hin.
    split; [apply IH1, Hcom; by right|]. by apply (cf_new _ _ _ _ _ _ Hf).
  - destruct (IH2 L0 HL). auto.
Qed.

Lemma sound_run_plain log leaders new log' : sound_run ctx G log leaders new log' → plain <$> new = new.
Proof.
  induction 1 as [|log L leaders sd new log1 log2 Hco _ _ _ IH]; [done|]. csimpl. f_equal; [|done].
  by destruct Hco as (C' & out & ts & ser & _ & _ & _ & -> & _).
Qed.

Lemma sound_run_length log leaders new log' : sound_run ctx G log leaders new log' → length new = length leaders.
Proof. induction 1; cbn; lia. Qed.

(** The sub-DAGs of cached blocks: their authors belong to the committee. *)
Lemma node_valid_author (d : DagState S) log b :
  node_ok ctx G d log → block_in (dag_lookup d) b → dag_gc_round d < vb_round b → is_valid_index c (vb_author b) = true.
Proof.
  intros Hd Hb Hr. pose proof (no_view _ _ _ _ Hd) as Hv. pose proof (vo_wf _ (v_ok _ _ _ Hv)) as Hwf.
  destruct (dag_lookup_cached d (reference b) b Hwf Hb) as (i & Hi & _); [by rewrite reference_round|].
  destruct (dwf_recent d Hwf _ _ Hi) as (_ & _ & _ & Ha). by rewrite (v_committee _ _ _ Hv), reference_author in Ha.
Qed.

Lemma handle_commit_sound leaders d log sds0 :
  node_ok ctx G d log → (∀ L, L ∈ leaders → block_in (dag_lookup d) L) → ascending (log_round log) leaders →
  log_index log + N.of_nat (length leaders) < 2 ^ 32 →
  ∃ d' new log', foldM (handle_leader ctx) (d, sds0) leaders = Ret (d', sds0 ++ new) ∧
    sound_run ctx G log leaders new log' ∧ node_ok ctx G d' log' ∧ ∀ r, dag_lookup d' r = dag_lookup d r.
Proof.
  revert d log sds0. induction leaders as [|L leaders IH]; intros d log sds0 Hd HL Hasc Hidx.
  { exists d, [], log. rewrite app_nil_r. split; [done|]. split; [constructor|done]. }
  destruct Hasc as [Hr Hasc]. cbn [length] in Hidx.
  destruct (handle_leader_spec ctx byz G HB (hu_unique _ _ _ HG) (ch_codec Henv) d log sds0 L) as
    (d1 & sd & log1 & out & Hstep & Hcom & Hd1 & Hlk1 & Hr1 & Hi1 & Hbl & Hinv); [done|apply HL; left|done|lia|].
  destruct (IH d1 log1 (sds0 ++ [sd])) as (d' & new & log' & Hrun & Hrel & Hd' & Hlk); [done| |by rewrite Hr1|lia|].
  { intros L' HL'. unfold block_in. rewrite Hlk1. apply HL. by right. }
  exists d', (sd :: new), log'. cbn [foldM]. rewrite Hstep. cbn [mbind outcome_bind].
  rewrite Hrun, <- (assoc_L (++)). split; [done|]. split; [|split; [done|intros r; by rewrite Hlk, Hlk1]].
  econstructor; [done| | |done].
  - exact (commit_facts_of ctx G _ log L sd log1 out (v_sub c G d (no_view _ _ _ _ Hd)) Hcom Hr Hr1 Hi1 Hbl Hinv).
  - intros b Hb. rewrite Hbl, sort_sub_dag_blocks_perm in Hb.
    destruct (ln_blocks _ _ _ _ _ _ _ Hinv b) as (Hin & Hgc & _); [by rewrite app_nil_r|].
    apply (node_valid_author d log); [done|done|]. by rewrite (node_gc ctx G d log Hd).
Qed.

Lemma send_all_open o l :
  obs_finalizer_open o = true → send_all o l = (o <| obs_sent := obs_sent o ++ l |>, Ok tt).
Proof.
  revert o. induction l as [|sd l IH]; intros o Ho; cbn [send_all].
  { rewrite app_nil_r. by destruct o. }
  unfold finalizer_send. rewrite Ho, IH by done. cbn. by rewrite <- (assoc_L (++)).
Qed.

Lemma add_subdags_plain s l : add_subdags c s (plain <$> l) = add_subdags c s l.
Proof.
  unfold add_subdags. revert s. induction l as [|sd l IH]; intros s; [done|]. cbn [fmap list_fmap foldM].
  change (add_subdag c s (plain sd)) with (add_subdag c s sd). destruct (add_subdag c s sd); [|done]. cbn. apply IH.
Qed.

(** What the observer hands on: the sub-DAGs with the origin of the decision and the scores. *)
Lemma observer_sends (d : DagState S) (schedule : LeaderSchedule) new local :
  new ≠ [] →
  ∃ sent, (if leader_schedule_updated d
           then set_first_scores (reputation_scores_desc (leader_swap_table schedule))
                  ((λ sd, sd <| sd_decided_with_local_blocks := local |>) <$> new)
           else Ret ((λ sd, sd <| sd_decided_with_local_blocks := local |>) <$> new)) = Ret sent ∧
    plain <$> sent = plain <$> new.
Proof.
  intros Hne. destruct (leader_schedule_updated d).
  - destruct new as [|sd new]; [done|]. cbn. eexists. split; [done|]. csimpl. f_equal. by rewrite <- list_fmap_compose.
  - eexists. split; [done|]. by rewrite <- list_fmap_compose.
Qed.
Lemma core_ok_decided log core slot o :
  core_ok ctx G log core → core_ok ctx G log (core <| last_decided_leader := slot |> <| commit_observer := o |>).
Proof. intros [Hb Hf Hi]. split; [|done|done]. by destruct Hb; split. Qed.

(** Committing leaders that the progress of consensus decided. *)
Lemma core_apply hist statuses sds log core leaders local slot :
  commit_ok G hist sds log core → leaders ≠ [] →
  (∀ L, L ∈ leaders → block_in (dag_lookup (dag_state core)) L) → ascending (log_round log) leaders →
  log_index log + N.of_nat (length leaders) < 2 ^ 32 →
  (∀ new log', sound_run ctx G log leaders new log' →
     ∃ scoring, add_subdags c (ds_scoring_subdag (dag_state core)) new = Ret scoring ∧
       reaches ctx n G (hist ++ statuses) (sds ++ new)
         (mkProgress log' (leader_swap_table (leader_schedule core)) scoring)) →
  slot_round slot = N.of_nat (length (hist ++ statuses)) → N.of_nat (length (hist ++ statuses)) + 4 < u32_max →
  ∃ o' d' sent log',
    observer_handle_commit (commit_observer core) (dag_state core) (leader_schedule core) leaders local =
      Ret (o', d', Ok sent) ∧
    commit_ok G (hist ++ statuses) (sds ++ (plain <$> sent)) log'
      (core <| last_decided_leader := slot |> <| commit_observer := o' |> <| dag_state := d' |>) ∧
    sound_run ctx G log leaders (plain <$> sent) log' ∧
    follows core (core <| last_decided_leader := slot |> <| commit_observer := o' |> <| dag_state := d' |>) ∧
    ∀ r, is_Some (ds_recent_blocks d' !! r) ↔ is_Some (ds_recent_blocks (dag_state core) !! r).
Proof.
  intros Hok Hne HL Hasc Hidx Hreach Hslot Hlen. pose proof (ok_base _ _ _ _ Hok) as Hbase.
  pose proof (ok_node _ _ _ _ Hbase) as Hn. destruct (cm_observer _ _ _ _ _ Hok) as [Hoc Hoo].
  destruct (handle_commit_sound leaders (dag_state core) log [] Hn HL Hasc Hidx) as (d1 & new & log' & Hrun & Hsound & Hn1 & Hlk).
  destruct (Hreach new log' Hsound) as (scoring & Hadd & Hre).
  destruct (handle_commit_frame ctx (dag_state core) leaders d1 new Hrun) as [Hrc Hcast].
  assert (new ≠ []) as Hne'.
  { intros ->. apply Hne. apply sound_run_length in Hsound. cbn in Hsound. by apply nil_length_inv. }
  destruct (observer_sends d1 (leader_schedule core) new local Hne') as (sent & Hsent & Hplain).
  rewrite (sound_run_plain _ _ _ _ Hsound) in Hplain.
  assert (log_round log ≤ log_round log' ∧ log_round log' ≤ clock_of (dag_state core)) as [Hlo Hhi].
  { destruct (sound_run_round _ _ _ _ Hsound) as (Hlo & Hlast & _). split; [done|].
    destruct (last leaders) as [L|] eqn:HlastL; [|by apply last_None in HlastL].
    rewrite (Hlast L eq_refl). apply last_Some in HlastL as [l' ->].
    apply (leader_below_clock ctx G _ log); [done|apply Hbase|apply HL; set_solver|].
    clear -Hasc. revert Hasc. generalize (log_round log). induction l' as [|x l' IH]; intros lo; cbn; [lia|].
    intros [? Ha]. apply IH in Ha. lia. }
  assert (core_ok ctx G log' (core <| dag_state := d1 |>)) as Hcore1
    by (apply (core_ok_commit ctx byz G HB log log'); [apply Hok|done..]).
  assert (ds_scoring_subdag d1 = ds_scoring_subdag (dag_state core)) as Hsc by by rewrite (rc_eq _ _ Hrc).
  set (d2 := rescored d1 scoring (ds_commit_info_to_write d1)).
  exists ((commit_observer core) <| obs_sent := obs_sent (commit_observer core) ++ sent |>), d2, sent, log'.
  rewrite Hplain. split; [|split; [|split; [done|split]]].
  - unfold observer_handle_commit. rewrite Hoc. unfold handle_commit. rewrite Hrun. cbn [mbind outcome_bind app].
    rewrite Hsent. cbn [mbind outcome_bind]. rewrite (send_all_open _ _ Hoo).
    unfold add_scoring_subdags. rewrite Hsc. unfold dag_committee. rewrite (no_context _ _ _ _ Hn1).
    fold c. rewrite <- (add_subdags_plain _ sent), Hplain, Hadd. by destruct d1.
  - destruct Hok as [Hcore Hprog Hsch Hdec Hlen' Hhigh Hobs Hold Hvoted Hca]. split; try done.
    + refine (core_ok_decided log' (core <| dag_state := d2 |>) slot
        ((commit_observer core) <| obs_sent := obs_sent (commit_observer core) ++ sent |>) _).
      exact (core_ok_reschedule ctx byz G HB log' (core <| dag_state := d1 |>) scoring (ds_commit_info_to_write d1)
        (leader_schedule core) (ancestor_state_manager core) Hcore1 (ok_leaders _ _ _ _ Hbase) (ok_states _ _ _ _ Hbase)).
    + cbn. by rewrite (rc_eq _ _ Hrc).
    + cbn. rewrite fmap_app, Hplain, Hold. done.
    + intros Hfp r Hs Hr. apply Hvoted; [done|done|]. cbn in Hr. 
      change (dag_gc_round d2) with (dag_gc_round d1) in Hr. rewrite (node_gc ctx G d1 log' Hn1) in Hr.
      rewrite (node_gc ctx G _ log Hn). pose proof (log_gc_mono ctx log log' Hlo). lia.
    + destruct Hca as [Hc1 Hc2]. split.
      * intros v Hv. rewrite fmap_app, elem_of_app. destruct (Hcast v Hv); auto.
      * intros b v Hb Ha Hv. rewrite fmap_app, elem_of_app. left. by apply (Hc2 b).
  - split; try done; cbn.
    + change (ds_genesis d2) with (ds_genesis d1). by rewrite (rc_eq _ _ Hrc).
    + change (dag_gc_round d2) with (dag_gc_round d1).
      rewrite (node_gc ctx G d1 log' Hn1), (node_gc ctx G _ log Hn). by apply log_gc_mono.
    + intros r. unfold known. change (dag_lookup d2 r) with (dag_lookup d1 r). by rewrite Hlk.
  - intros r. apply (recommitted_cached _ _ r Hrc).
Qed.

(** ** Accepted blocks *)

Lemma accept_block_keeps (d : DagState S) b d' :
  accept_block d b = Ret d' →
  ds_scoring_subdag d' = ds_scoring_subdag d ∧ ds_pending_commit_votes d' = ds_pending_commit_votes d.
Proof.
  unfold accept_block, update_block_metadata. intros Ha.
  apply bind_Ret in Ha as (_ & _ & Ha). apply bind_Ret in Ha as ([] & _ & Ha); [by injection Ha as <-|].
  apply bind_Ret in Ha as (_ & _ & Ha). apply bind_Ret in Ha as (_ & _ & Ha).
  apply bind_Ret in Ha as (d1 & Hd1 & Ha). injection Ha as <-.
  apply bind_Ret in Hd1 as (? & _ & Hd1). apply bind_Ret in Hd1 as (? & _ & Hd1).
  apply bind_Ret in Hd1 as ([] & _ & Hd1). apply bind_Ret in Hd1 as (? & _ & Hd1).
  apply bind_Ret in Hd1 as (? & _ & Hd1). by injection Hd1 as <-.
Qed.

Lemma node_steps_frame (d d' : DagState S) :
  rtc (node_step ctx G) d d' →
  ds_scoring_subdag d' = ds_scoring_subdag d ∧ ds_pending_commit_votes d' = ds_pending_commit_votes d ∧
  (ds_highest_accepted_round d + 4 < u32_max → ds_highest_accepted_round d' + 4 < u32_max).
Proof.
  induction 1 as [d|d d1 d' Hstep _ (IH1 & IH3 & IH2)]; [done|]. rewrite IH1, IH3. destruct Hstep as [b Hb _ _ Ha|Hf].
  - destruct (accept_block_keeps d b d1 Ha) as [-> ->]. split; [done|]. split; [done|]. intros Hh. apply IH2.
    destruct (accept_block_clock d b d1 Ha) as [-> |(t & adv & _ & _ & _ & _ & _ & _ & ->)]; [done|].
    specialize (Hrounds b Hb). lia.
  - destruct (flush_clock d d1 Hf) as (_ & _ & _ & Hh & _). rewrite Hh in IH2.
    split; [by apply (flush_keeps ds_scoring_subdag)|]. split; [by apply (flush_keeps ds_pending_commit_votes)|done].
Qed.

Lemma commit_ok_accept hist sds log core m' d' new :
  commit_ok G hist sds log core → accept_effect ctx G log (block_manager core) (dag_state core) m' d' new →
  (mysticeti_fastpath (protocol_config ctx) = true → held (source G core) m' ∧ cached_in (source G core) d') →
  commit_ok G hist sds log (core <| block_manager := m' |> <| dag_state := d' |>).
Proof.
  intros Hok Heff Hsrc. destruct (node_steps_frame _ _ (ae_steps _ _ _ _ _ _ _ _ Heff)) as (Hsc & Hpv & Hh).
  destruct (core_ok_accept ctx byz G HB (ch_dominant Henv) Hrounds log core m' d' new) as [Hcore Hv]; [apply Hok|done|done|].
  destruct Hok as [_ Hprog Hsch Hdec Hlen' Hhigh Hobs Hold _ Hca]. split; try done; [|by apply Hh|].
  - unfold core_progress. cbn. by rewrite Hsc.
  - cbn. by rewrite Hpv.
Qed.

(** What is cached or held back afterwards was before. *)
Definition stored core : gset BlockRef :=
  dom (ds_recent_blocks (dag_state core)) ∪ dom (bm_suspended_blocks (block_manager core)).

Lemma stored_start (T : BlockRef → Prop) log core :
  core_base ctx G log core → (∀ r, r ∈ stored core → T r) → held T (block_manager core) ∧ cached_in T (dag_state core).
Proof.
  intros Hb HT. split.
  - intros r s Hs. split; [apply (gi_susp _ _ _ _ _ _ _ _ (bi_graph _ _ _ _ (ok_manager _ _ _ _ Hb)) r s Hs)|].
    apply HT, elem_of_union. right. apply elem_of_dom. by exists s.
  - intros r Hr. apply HT, elem_of_union. left. by apply elem_of_dom.
Qed.

Lemma stored_end (T : BlockRef → Prop) core :
  held T (block_manager core) → cached_in T (dag_state core) → ∀ r, r ∈ stored core → T r.
Proof.
  intros Hm Hd r [Hr|Hr]%elem_of_union; apply elem_of_dom in Hr; [by apply Hd|]. destruct Hr as [s Hs]. by apply (Hm r s).
Qed.

Lemma core_unsuspend hist sds log core :
  commit_ok G hist sds log core →
  ∃ m' d', try_unsuspend_blocks_for_latest_gc_round (block_manager core) (dag_state core) = Ret (m', d') ∧
    commit_ok G hist sds log (core <| block_manager := m' |> <| dag_state := d' |>) ∧
    follows core (core <| block_manager := m' |> <| dag_state := d' |>) ∧
    stored (core <| block_manager := m' |> <| dag_state := d' |>) ⊆ stored core.
Proof.
  intros Hok. pose proof (ok_base _ _ _ _ Hok) as Hbase.
  destruct (gc_loop_spec ctx byz G HB (ch_own Henv) log (size (bm_missing_ancestors (block_manager core)))
    (block_manager core) (dag_state core)) as (m' & d' & new & Hrun & Heff & _); [apply Hbase|apply Hbase|done|].
  exists m', d'. split; [done|]. split; [|split].
  - apply (commit_ok_accept hist sds log core m' d' new); [done|done|]. intros Hfp.
    destruct (source_start ctx G log core Hbase) as [Hm Hd]; [apply Hok|done|].
    by apply (gc_loop_origin _ _ _ _ _ _ _ Hrun).
  - split; try done; [apply Heff|cbn; by rewrite (ae_gc _ _ _ _ _ _ _ _ Heff)|].
    intros r Hr. apply (ae_known _ _ _ _ _ _ _ _ Heff). by left.
  - intros r. destruct (stored_start (λ r, r ∈ stored core) log core Hbase) as [Hm Hd]; [done|].
    destruct (gc_loop_origin _ _ _ _ _ _ _ Hrun Hm Hd).
    by apply (stored_end (λ r, r ∈ stored core) (core <| block_manager := m' |> <| dag_state := d' |>)).
Qed.

(** ** The leaders of one iteration *)

(** A commit that was certified by a quorum of votes stands for the sub-DAG of some honest
    validator. *)
Definition matches (cc : CertifiedCommit) (sd : CommittedSubDag) : Prop :=
  tc_reference (cc_commit cc) = sd_commit_ref sd ∧ tc_leader (cc_commit cc) = sd_leader sd ∧
  cc_blocks cc = sd_blocks sd.

(** Certified commits that continue those of the core: another validator of the epoch made
    them, their blocks are verified and voted on, and the history of each above the garbage
    collection round is known or comes with it. *)
Record cert_ok (sds : list CommittedSubDag) core (ccs : list CertifiedCommit) : Prop := {
  ct_elsewhere : ∃ ctx' hist' st' sds', same_rules ctx ctx' ∧ progress ctx' n G hist' st' sds' ∧
    N.of_nat (length hist') + 4 < u32_max ∧
    ∀ i cc, ccs !! i = Some cc → ∃ sd, sds' !! (length sds + i)%nat = Some sd ∧ matches cc sd;
  ct_good : ∀ cc b, cc ∈ ccs → b ∈ cc_blocks cc → good ctx G (ds_genesis (dag_state core)) b;
  ct_voted : mysticeti_fastpath (protocol_config ctx) = true → ∀ cc b, cc ∈ ccs → b ∈ cc_blocks cc →
    dag_gc_round (dag_state core) < vb_round b → voted_ref G (transaction_certifier core) (reference b);
  ct_connected : ∀ i cc b a, ccs !! i = Some cc → b ∈ cc_blocks cc → a ∈ vb_ancestors b →
    needed (dag_state core) a → known (dag_state core) a ∨ a ∈ reference <$> (take (Datatypes.S i) ccs ≫= cc_blocks);
}.

Lemma cert_ok_nil sds core : cert_ok sds core [].
Proof.
  split.
  - eexists ctx, [], _, []. split; [done|]. split; [constructor|]. split; [cbn; unfold u32_max; lia|]. done.
  - intros cc b Hcc. by apply elem_of_nil in Hcc.
  - intros _ cc b Hcc. by apply elem_of_nil in Hcc.
  - done.
Qed.

(** The leaders that an iteration of the loop decided, and the progress they stand for. *)
Record batch (hist : list LeaderStatus) (sds : list CommittedSubDag) (log : commit_log) core
    (dls : list DecidedLeader) (statuses : list LeaderStatus) : Prop := {
  bt_leaders : omap into_committed_block dls = omap committed_leader statuses;
  bt_known : ∀ L, L ∈ omap committed_leader statuses → block_in (dag_lookup (dag_state core)) L;
  bt_asc : ascending (log_round log) (omap committed_leader statuses);
  bt_run : ∀ new log', sound_run ctx G log (omap committed_leader statuses) new log' →
    ∃ scoring, add_subdags c (ds_scoring_subdag (dag_state core)) new = Ret scoring ∧
      reaches ctx n G (hist ++ statuses) (sds ++ new)
        (mkProgress log' (leader_swap_table (leader_schedule core)) scoring);
  bt_slot : ∀ x, last dls = Some x → slot_round (DecidedLeader_slot x) = N.of_nat (length (hist ++ statuses));
  bt_length : N.of_nat (length (hist ++ statuses)) + 4 < u32_max;
}.

(** Leaders at consecutive positions of a history have ascending rounds. *)
Lemma ascending_statuses statuses lo m :
  (∀ i s, statuses !! i = Some s → slot_round (status_slot s) = m + N.of_nat i + 1) → lo ≤ m →
  ascending lo (omap committed_leader statuses).
Proof.
  revert lo m. induction statuses as [|s statuses IH]; intros lo m Hs Hlo; [done|].
  assert (∀ i x, statuses !! i = Some x → slot_round (status_slot x) = (m + 1) + N.of_nat i + 1) as Hs'
    by (intros i x Hx; rewrite (Hs (Datatypes.S i) x Hx); lia).
  pose proof (Hs 0%nat s eq_refl) as H0'. cbn.
  destruct s as [L|s|s]; cbn in H0' |- *; [split; [lia|]|..]; apply (IH _ (m + 1)); done || lia.
Qed.

Lemma run_nil_batch hist sds log core dls statuses :
  commit_ok G hist sds log core → batch hist sds log core dls statuses → omap committed_leader statuses = [] →
  ∀ x, last dls = Some x →
  commit_ok G (hist ++ statuses) sds log (core <| last_decided_leader := DecidedLeader_slot x |>).
Proof.
  intros Hok Hb Hnil x Hx. pose proof (bt_run _ _ _ _ _ _ Hb [] log) as Hrun. rewrite Hnil in Hrun.
  destruct Hrun as (scoring & Hadd & Hre); [constructor|]. cbn in Hadd. injection Hadd as <-. rewrite app_nil_r in Hre.
  destruct Hok as [Hcore Hprog Hsch Hdec Hlen Hhigh Hobs Hold Hv]. split; try done.
  - exact (core_ok_decided log core (DecidedLeader_slot x) (commit_observer core) Hcore).
  - cbn. by apply (bt_slot _ _ _ _ _ _ Hb).
  - apply Hb.
Qed.

(** *** Decided from the local DAG *)

Lemma decisions_leaders (dls : list DecidedLeader) : omap into_committed_block dls = omap committed_leader (decision_of <$> dls).
Proof. induction dls as [|[b|s] dls IH]; cbn; rewrite ?IH; done. Qed.

Lemma omap_length {A B} (f : A → option B) (l : list A) : (length (omap f l) ≤ length l)%nat.
Proof. induction l as [|x l IH]; cbn; [lia|]. destruct (f x); cbn; lia. Qed.

Lemma room_prefix limit index (statuses : list LeaderStatus) :
  index + N.of_nat (length statuses) ≤ limit → room limit index statuses.
Proof.
  intros Hle pre s post ->. rewrite length_app in Hle. cbn in Hle. pose proof (omap_length committed_leader pre). lia.
Qed.

Lemma decide_local hist sds log core until k :
  commit_ok G hist sds log core → window n k (core_progress log core) → log_index log + until = k * n + n →
  0 < until →
  ∃ dls statuses, decide_leaders core [] until = Ret (core, dls, true, []) ∧ batch hist sds log core dls statuses.
Proof.
  intros Hok Hw Hidx Hpos. pose proof (progress_ok _ _ _ _ Hok) as Hwf. pose proof (ok_base _ _ _ _ Hok) as Hbase.
  pose proof (ok_node _ _ _ _ Hbase) as Hn. pose proof (pw_round _ _ _ _ Hwf) as Hround. cbn in Hround.
  pose proof (cm_rounds _ _ _ _ _ Hok) as Hlen. pose proof (cm_highest _ _ _ _ _ Hok) as Hhigh.
  destruct (pw_lead _ _ _ _ Hwf) as (lead & He & Hv). cbn [core_progress pg_table] in He.
  pose proof (committer_of core lead (ok_context _ _ _ _ Hbase) (cm_schedule _ _ _ _ _ Hok) He Hv) as Huc.
  pose proof (cm_decided _ _ _ _ _ Hok) as Hdec.
  destruct (try_decide_run c byz G HB (dag_state core) (no_view _ _ _ _ Hn) lead (core_committer core) Huc
    (last_decided_leader core)) as (sts & out & rest & Hrun & Hsts & _ & Hseq & Hloc).
  { rewrite (node_last ctx G _ log Hn), Hdec. done. }
  { rewrite Hdec. lia. }
  { lia. }
  rewrite Hdec in Hseq.
  set (dls := if until <=? N.of_nat (length out) then take (N.to_nat until) out else out).
  assert (∃ out', out = dls ++ out' ∧ N.of_nat (length dls) ≤ until) as (out' & Hout & Hle).
  { unfold dls. destruct (N.leb_spec until (N.of_nat (length out))) as [Hl|Hl].
    - exists (drop (N.to_nat until) out). rewrite take_drop, length_take. split; [done|lia].
    - exists []. rewrite app_nil_r. split; [done|lia]. }
  exists dls, (decision_of <$> dls). split.
  { unfold decide_leaders, try_select_certified_leaders. rewrite (proj2 (N.ltb_lt _ _) Hpos).
    cbn [assert_that mbind outcome_bind].
    change (try_accept_committed_blocks (block_manager core) (dag_state core) _)
      with (Ret (block_manager core, dag_state core, [] : list VerifiedBlock)).
    assert (core <| block_manager := block_manager core |> <| dag_state := dag_state core |> = core) as Heta by by destruct core.
    cbn [mbind outcome_bind fmap list_fmap]. rewrite Heta, Hrun. done. }
  rewrite Hout, fmap_app, <- (assoc_L (++)) in Hsts. subst sts.
  assert (∀ i s, (decision_of <$> dls) !! i = Some s → slot_round (status_slot s) = N.of_nat (length hist) + N.of_nat i + 1 ∧
    N.of_nat (length hist) + N.of_nat i + 1 ≤ ds_highest_accepted_round (dag_state core) - 2) as Hslots.
  { intros i s Hs. apply decided_seq_slots in Hseq. apply (f_equal (λ l, l !! i)) in Hseq.
    rewrite list_lookup_fmap, (lookup_app_l_Some _ _ _ _ Hs) in Hseq. cbn in Hseq. symmetry in Hseq.
    apply lead_slots_lookup in Hseq as [-> ?]. cbn. lia. }
  assert (N.of_nat (length (hist ++ (decision_of <$> dls))) + 4 < u32_max) as Hlength.
  { rewrite length_app, length_fmap. destruct (decide (length dls = 0%nat)) as [Hz|Hz]; [lia|].
    destruct (lookup_lt_is_Some_2 (decision_of <$> dls) (pred (length dls))) as [s Hs]; [rewrite length_fmap; lia|].
    apply Hslots in Hs as [_ Hs]. lia. }
  split.
  - apply decisions_leaders.
  - intros L (s & Hs & HL)%list_elem_of_omap. apply Hloc, elem_of_app. left. by destruct s; simplify_eq/=.
  - apply (ascending_statuses _ _ (N.of_nat (length hist))); [|done]. intros i s Hs. by apply Hslots.
  - intros new log' Hsound. apply (progress_batch ctx n G Hse (hu_unique c byz G HG) k _ _ (core_progress log core)); try done.
    + apply Hok.
    + apply room_prefix. rewrite length_fmap. cbn. lia.
    + rewrite length_app in Hlength. lia.
    + eapply (decided_locally ctx n G Hse (hu_unique c byz G HG) (dag_state core) lead); [apply Hn|done|done| |done|].
      * intros s (x & -> & _)%list_elem_of_fmap. apply decision_of_decided.
      * rewrite (node_last ctx G _ log Hn). done.
  - intros x Hx. rewrite last_lookup in Hx. rewrite length_app, length_fmap.
    destruct (Hslots (pred (length dls)) (decision_of x)) as [Hr _]; [by rewrite list_lookup_fmap, Hx|].
    apply lookup_lt_Some in Hx. destruct x; cbn in Hr |- *; lia.
  - done.
Qed.
(** *** Certified by other validators *)

Definition selects (cc : CertifiedCommit) (L : VerifiedBlock) : Prop :=
  last (cc_blocks cc) = Some L ∧ reference L = tc_leader (cc_commit cc) ∧ is_valid_index c (vb_author L) = true.

Lemma select_all_certified ccs leaders :
  Forall2 selects ccs leaders →
  mapM (select_certified c) ccs = Ret (zip ((λ L, DlCommit L false) <$> leaders) ccs).
Proof.
  induction 1 as [|cc L ccs leaders (Hl & Hr & Hv) _ IH]; [done|]. cbn [mapM].
  assert (select_certified c cc = Ret (DlCommit L false, cc)) as ->.
  { unfold select_certified. rewrite Hl. cbn [expect mbind outcome_bind]. rewrite bool_decide_true by done.
    by destruct (valid_authority c _ Hv) as [a ->]. }
  cbn [mbind outcome_bind]. by rewrite IH.
Qed.

Lemma room_cut limit index (pre : list LeaderStatus) x j :
  (length (omap committed_leader pre) < j)%nat → index + N.of_nat j ≤ limit → room limit index (pre ++ [x]).
Proof.
  intros Hj Hlim pre' s post Heq.
  assert (length (omap committed_leader pre') ≤ length (omap committed_leader pre))%nat; [|lia].
  destruct (exists_last (l := s :: post)) as (post' & y & Hpost); [done|]. rewrite Hpost, (assoc_L (++)) in Heq.
  apply app_inj_tail in Heq as [-> _]. rewrite omap_app, length_app. lia.
Qed.

(** The decisions that lead to the certified commits. *)
Lemma certified_statuses hist sds log core ccs j limit :
  commit_ok G hist sds log core → cert_ok sds core ccs → (0 < j ≤ length ccs)%nat →
  log_index log + N.of_nat j ≤ limit →
  ∃ statuses L, decided_along ctx n G (leader_swap_table (leader_schedule core)) hist statuses ∧
    room limit (log_index log) statuses ∧ Forall2 selects (take j ccs) (omap committed_leader statuses) ∧
    (∀ i s, statuses !! i = Some s → slot_round (status_slot s) = N.of_nat (length hist) + N.of_nat i + 1) ∧
    last statuses = Some (LsCommit L) ∧ last (omap committed_leader statuses) = Some L ∧
    N.of_nat (length (hist ++ statuses)) + 4 < u32_max.
Proof.
  intros Hok Hcert Hj Hlim. destruct (ct_elsewhere _ _ _ Hcert) as (ctx' & hist' & st' & sds' & Hsame & Hp' & Hlen' & Hmatch).
  destruct (cm_progress _ _ _ _ _ Hok) as (st0 & Hp & _). destruct Hsame as [Hsc Hsp].
  assert (same_rules ctx ctx') as Hsame by done.
  assert (same_rules ctx' ctx) as Hsame' by (split; congruence).
  assert (bft (committee ctx') byz G) as HB' by (rewrite Hsc; exact HB).
  assert (∃ more, hist' = hist ++ more) as [more ->].
  { destruct (Nat.le_ge_cases (length hist) (length hist')) as [Hle|Hge].
    - by destruct (progress_comparable ctx ctx' n byz G _ _ _ _ _ _ Hsame HB Hp Hp' Hle) as [[more ->] _]; eexists.
    - destruct (progress_comparable ctx' ctx n byz G _ _ _ _ _ _ Hsame' HB' Hp' Hp Hge) as [_ [tail ->]]. exfalso.
      destruct (lookup_lt_is_Some_2 ccs 0) as [cc Hcc]; [lia|]. destruct (Hmatch _ _ Hcc) as (sd & Hsd & _).
      apply lookup_lt_Some in Hsd. rewrite length_app in Hsd. lia. }
  destruct (progress_history ctx ctx n byz G HB (conj eq_refl eq_refl) hist st0 sds Hp) as (_ & Hby & _).
  destruct (progress_history ctx' ctx' n byz G HB' (conj eq_refl eq_refl) _ st' sds' Hp') as (Hslots & Hby' & _).
  rewrite omap_app in Hby'. pose proof (Forall2_length _ _ _ Hby) as Hl. 
  assert (∀ i cc, ccs !! i = Some cc → ∃ L, omap committed_leader more !! i = Some L ∧ selects cc L) as Hsel.
  { intros i cc Hcc. destruct (Hmatch i cc Hcc) as (sd & Hsd & (_ & Hm1 & Hm2)).
    destruct (Forall2_lookup_r _ _ _ _ _ Hby' Hsd) as (L & HL & [Hlast Hlead Hval _]).
    exists L. rewrite lookup_app_r in HL by lia. replace (length sds + i - _)%nat with i in HL by lia.
    split; [done|]. unfold selects. rewrite Hm2, Hm1, Hlead. by rewrite Hsc in Hval. }
  assert (j ≤ length (omap committed_leader more))%nat as Hmore.
  { destruct (lookup_lt_is_Some_2 ccs (pred j)) as [cc Hcc]; [lia|]. destruct (Hsel _ _ Hcc) as (L & HL & _).
    apply lookup_lt_Some in HL. lia. }
  destruct (omap_cut committed_leader more j) as (pre & x & L & post & -> & Hx & Hom & Hpre); [lia|].
  exists (pre ++ [x]), L. split_and!.
  - apply (decided_elsewhere ctx ctx' n byz G HB Hsame hist (pre ++ [x]) post st' sds').
    by rewrite <- (assoc_L (++)).
  - by apply (room_cut limit (log_index log) pre x j).
  - rewrite Hom. apply Forall2_same_length_lookup_2; [rewrite !length_take; lia|].
    intros i cc L' Hcc HL'. apply lookup_take_Some in Hcc as [Hcc _]. apply lookup_take_Some in HL' as [HL' _].
    destruct (Hsel i cc Hcc) as (L2 & HL2 & Hs). congruence.
  - intros i s Hs. rewrite (Hslots (length hist + i)%nat s); [lia|].
    rewrite lookup_app_r, Nat.add_comm, Nat.add_sub by lia.
    change (x :: post) with ([x] ++ post). rewrite (assoc_L (++)). by apply lookup_app_l_Some.
  - rewrite last_snoc. destruct x; by simplify_eq/=.
  - rewrite omap_app. cbn. rewrite Hx. by rewrite last_snoc.
  - rewrite !length_app in Hlen' |- *. cbn in Hlen' |- *. lia.
Qed.

(** The core after it accepted the blocks of certified commits. *)
Lemma accept_certified hist sds log core ccs j :
  commit_ok G hist sds log core → cert_ok sds core ccs →
  let blocks := take j ccs ≫= cc_blocks in
  ∃ m' d' acc, try_accept_committed_blocks (block_manager core) (dag_state core) blocks = Ret (m', d', acc) ∧
    commit_ok G hist sds log (core <| block_manager := m' |> <| dag_state := d' |>) ∧
    (∀ b, b ∈ blocks → dag_lookup d' (reference b) = Some b) ∧ (∀ r, known (dag_state core) r → known d' r) ∧
    ds_genesis d' = ds_genesis (dag_state core) ∧ dag_gc_round d' = dag_gc_round (dag_state core) ∧
    ds_scoring_subdag d' = ds_scoring_subdag (dag_state core) ∧
    stored (core <| block_manager := m' |> <| dag_state := d' |>) ⊆
      stored core ∪ list_to_set (reference <$> blocks).
Proof.
  intros Hok Hcert blocks. pose proof (ok_base _ _ _ _ Hok) as Hbase.
  assert (∀ b, b ∈ blocks → ∃ i cc, ccs !! i = Some cc ∧ (i < j)%nat ∧ b ∈ cc_blocks cc) as Hin.
  { intros b (cc & Hb & Hcc)%list_elem_of_bind. apply list_elem_of_lookup in Hcc as [i Hi].
    apply lookup_take_Some in Hi as [Hi ?]. by exists i, cc. }
  assert (∀ b, b ∈ blocks → good ctx G (ds_genesis (dag_state core)) b) as Hgood.
  { intros b (i & cc & Hi & _ & Hb)%Hin. apply (ct_good _ _ _ Hcert cc); [|done]. by eapply list_elem_of_lookup_2. }
  destruct (try_accept_committed_blocks_exact ctx byz G (block_manager core) (dag_state core) log blocks HB (ch_own Henv))
    as (m' & d' & acc & Hrun & Heff & Hknown); [apply Hbase|apply Hbase|done| |].
  { intros b a Hb Ha Hn. destruct (Hin b Hb) as (i & cc & Hi & Hij & Hbc).
    destruct (ct_connected _ _ _ Hcert i cc b a Hi Hbc Ha Hn) as [?|Hr]; [by left|right].
    apply list_elem_of_fmap in Hr as (x & -> & (cc' & Hx & Hcc')%list_elem_of_bind). apply list_elem_of_fmap_2.
    apply list_elem_of_bind. exists cc'. split; [done|].
    apply list_elem_of_lookup in Hcc' as [i' Hi']. apply lookup_take_Some in Hi' as [Hi' ?].
    apply (list_elem_of_lookup_2 _ i'), lookup_take_Some. split; [done|lia]. }
  exists m', d', acc. split; [done|].
  apply bind_Ret in Hrun as ([[[m1 d1] acc1] miss] & Hrun & Hret). apply bind_Ret in Hret as (? & _ & Hret).
  injection Hret as -> -> ->. split_and!.
  - apply (commit_ok_accept hist sds log core m' d' acc); [done|done|]. intros Hfp.
    destruct (source_start ctx G log core Hbase (cm_voted _ _ _ _ _ Hok) Hfp) as [Hm Hd].
    apply (accept_origin _ _ _ _ _ _ _ _ _ Hrun); [done|done|].
    intros b (i & cc & Hi & _ & Hb)%Hin Hr. right. apply (ct_voted _ _ _ Hcert Hfp cc); [by eapply list_elem_of_lookup_2|done|].
    by rewrite reference_round in Hr.
  - intros b Hb. destruct (Hknown b Hb) as [b' Hx]. rewrite Hx. f_equal.
    pose proof (v_sub _ _ _ (no_view _ _ _ _ (ae_node _ _ _ _ _ _ _ _ Heff)) _ _ Hx) as HG'.
    destruct (Hgood b Hb) as [HGb _]. congruence.
  - intros r Hr. apply (ae_known _ _ _ _ _ _ _ _ Heff). by left.
  - apply Heff.
  - apply Heff.
  - apply (node_steps_frame _ _ (ae_steps _ _ _ _ _ _ _ _ Heff)).
  - set (T := λ r, r ∈ stored core ∪ list_to_set (reference <$> blocks)).
    destruct (stored_start T log core Hbase) as [Hm Hd]; [unfold T; set_solver|].
    destruct (accept_origin T _ _ _ _ _ _ _ _ Hrun Hm Hd) as [Hm' Hd'].
    { intros b Hb. unfold T. apply elem_of_union. right. apply elem_of_list_to_set. by apply list_elem_of_fmap_2. }
    intros r. by apply (stored_end T (core <| block_manager := m' |> <| dag_state := d' |>)).
Qed.

Lemma decide_certified hist sds log core ccs until k :
  commit_ok G hist sds log core → cert_ok sds core ccs → ccs ≠ [] → window n k (core_progress log core) →
  log_index log + until = k * n + n → 0 < until →
  ∃ m' d' dls statuses j,
    let core1 := core <| block_manager := m' |> <| dag_state := d' |> in
    decide_leaders core ccs until = Ret (core1, dls, false, drop j ccs) ∧ (0 < j ≤ length ccs)%nat ∧
    commit_ok G hist sds log core1 ∧ batch hist sds log core1 dls statuses ∧ dls ≠ [] ∧
    length (omap committed_leader statuses) = j ∧
    (∀ b, b ∈ take j ccs ≫= cc_blocks → known d' (reference b)) ∧ (∀ r, known (dag_state core) r → known d' r) ∧
    ds_genesis d' = ds_genesis (dag_state core) ∧ dag_gc_round d' = dag_gc_round (dag_state core) ∧
    stored core1 ⊆ stored core ∪ list_to_set (reference <$> (take j ccs ≫= cc_blocks)).
Proof.
  intros Hok Hcert Hne Hw Hidx Hpos.
  set (j := if until <=? N.of_nat (length ccs) then N.to_nat until else length ccs).
  assert (0 < j ≤ length ccs)%nat as Hj.
  { unfold j. destruct (N.leb_spec until (N.of_nat (length ccs))); [lia|]. destruct ccs; [done|cbn; lia]. }
  assert ((if until <=? N.of_nat (length ccs) then (take (N.to_nat until) ccs, drop (N.to_nat until) ccs) else (ccs, []))
    = (take j ccs, drop j ccs)) as Hcut.
  { unfold j. destruct (until <=? _); [done|]. by rewrite take_ge, drop_ge. }
  destruct (certified_statuses hist sds log core ccs j (k * n + n) Hok Hcert Hj) as
    (statuses & L & Halong & Hroom & Hsel & Hslots & Hlast & HlastL & Hlen).
  { unfold j. destruct (N.leb_spec until (N.of_nat (length ccs))); lia. }
  destruct (accept_certified hist sds log core ccs j Hok Hcert) as 
    (m' & d' & acc & Hacc & Hok1 & Hknown & Hmono & Hgen & Hgc & Hsco & Hst).
  pose proof (select_all_certified _ _ Hsel) as Hmap. pose proof (Forall2_length _ _ _ Hsel) as Hlsel. rewrite length_take in Hlsel.
  set (leaders := omap committed_leader statuses) in *.
  set (dls := (λ L, DlCommit L false) <$> leaders).
  assert (dls ≠ []) as Hdls.
  { unfold dls. destruct leaders; [cbn in HlastL; done|done]. }
  exists m', d', dls, statuses, j. cbv zeta. split; [|split; [done|]; split; [done|]; split; [|split; [done|]; split; [fold leaders; lia|]]].
  - unfold decide_leaders, try_select_certified_leaders. rewrite (proj2 (N.ltb_lt _ _) Hpos).
    cbn [assert_that mbind outcome_bind]. destruct ccs as [|cc0 ccs0] eqn:Hccs; [done|]. rewrite <- Hccs in *.
    rewrite Hcut. unfold core_committee. rewrite (ok_context _ _ _ _ Hok). fold c. rewrite Hmap. cbn [mbind outcome_bind].
    rewrite fst_zip, snd_zip by (rewrite length_fmap, length_take; lia). rewrite Hacc. cbn [mbind outcome_bind].
    fold dls. by destruct dls.
  - pose proof (progress_ok _ _ _ _ Hok1) as Hwf. pose proof (pw_round _ _ _ _ Hwf) as Hround. cbn in Hround.
    assert (∀ L', L' ∈ leaders → ∃ b, b ∈ take j ccs ≫= cc_blocks ∧ b = L') as Hin.
    { intros L' [i Hi]%list_elem_of_lookup. destruct (Forall2_lookup_r _ _ _ _ _ Hsel Hi) as (cc & Hcc & Hl & _).
      exists L'. split; [|done]. apply list_elem_of_bind. exists cc. split; [|by eapply list_elem_of_lookup_2].
      apply last_Some in Hl as [l' ->]. set_solver. }
    split.
    + unfold dls. fold leaders. clear. induction leaders as [|x l IH]; [done|]. cbn. by rewrite IH.
    + intros L' (b & Hb & ->)%Hin. by apply Hknown.
    + by apply (ascending_statuses _ _ (N.of_nat (length hist))).
    + intros new log' Hsound. 
      apply (progress_batch ctx n G Hse (hu_unique c byz G HG) k _ _
        (core_progress log (core <| block_manager := m' |> <| dag_state := d' |>))); try done.
      * apply Hok1.
      * unfold core_progress. cbn. by rewrite Hsco.
      * rewrite length_app in Hlen. lia.
    + intros x Hx. unfold dls in Hx. rewrite fmap_last, HlastL in Hx. injection Hx as <-.
      rewrite last_lookup in Hlast. apply lookup_lt_Some in Hlast as Hlt. apply Hslots in Hlast. cbn in Hlast |- *.
      rewrite length_app. lia.
    + done.
  - split_and!; try done. intros b Hb. exists b. by apply Hknown.
Qed.

(** ** The loop *)

(** The certified commits that are left continue those of the core. *)
Lemma cert_ok_rest sds core core1 core3 ccs j (new : list CommittedSubDag) :
  cert_ok sds core ccs → length new = j →
  ds_genesis (dag_state core3) = ds_genesis (dag_state core) →
  dag_gc_round (dag_state core) ≤ dag_gc_round (dag_state core3) →
  transaction_certifier core3 = transaction_certifier core →
  (∀ r, known (dag_state core) r → known (dag_state core1) r) →
  (∀ b, b ∈ take j ccs ≫= cc_blocks → known (dag_state core1) (reference b)) →
  (∀ r, known (dag_state core1) r → known (dag_state core3) r) →
  cert_ok (sds ++ new) core3 (drop j ccs).
Proof.
  intros [(ctx' & hist' & st' & sds' & Hsame & Hp & Hlen & Hmatch) Hgood Hvoted Hconn] Hj Hgen Hgc Hcert Hk1 Hkb Hk3.
  assert (∀ cc, cc ∈ drop j ccs → cc ∈ ccs) as Hdrop by (intros cc; apply subseteq_drop).
  split.
  - exists ctx', hist', st', sds'. split_and!; try done. intros i cc Hcc. rewrite lookup_drop in Hcc.
    destruct (Hmatch _ _ Hcc) as (sd & Hsd & ?). exists sd. split; [|done]. rewrite <- Hsd. f_equal. rewrite length_app. lia.
  - intros cc b Hcc Hb. rewrite Hgen. by apply (Hgood cc); [apply Hdrop|].
  - intros Hfp cc b Hcc Hb Hr. rewrite Hcert. apply (Hvoted Hfp cc); [by apply Hdrop|done|lia].
  - intros i cc b a Hcc Hb Ha Hn. rewrite lookup_drop in Hcc.
    destruct (Hconn (j + i)%nat cc b a Hcc Hb Ha) as [Hk|Hr]; [unfold needed in *; lia|left; by apply Hk3, Hk1|].
    apply list_elem_of_fmap in Hr as (x & -> & (cc' & Hx & Hcc')%list_elem_of_bind).
    apply list_elem_of_lookup in Hcc' as [i' Hi']. apply lookup_take_Some in Hi' as [Hi' Hlt].
    destruct (decide (i' < j)%nat) as [Hij|Hij].
    + left. apply Hk3, Hkb, list_elem_of_bind. exists cc'. split; [done|].
      apply (list_elem_of_lookup_2 _ i'), lookup_take_Some. done.
    + right. apply list_elem_of_fmap_2, list_elem_of_bind. exists cc'. split; [done|].
      apply (list_elem_of_lookup_2 _ (i' - j)%nat), lookup_take_Some. rewrite lookup_drop.
      split; [by replace (j + (i' - j))%nat with i' by lia|lia].
Qed.

(** The references that can still be committed. *)
Definition pending_refs (log : commit_log) core (ccs : list CertifiedCommit) : gset BlockRef :=
  (stored core ∪ list_to_set (reference <$> (ccs ≫= cc_blocks))) ∖ log_committed log.

(** One iteration: the leaders, and the certified commits that remain for the next. *)
Lemma decide_spec hist sds log core ccs until k :
  commit_ok G hist sds log core → cert_ok sds core ccs → window n k (core_progress log core) →
  log_index log + until = k * n + n → 0 < until →
  ∃ core1 dls local rest statuses, decide_leaders core ccs until = Ret (core1, dls, local, rest) ∧
    commit_ok G hist sds log core1 ∧ batch hist sds log core1 dls statuses ∧ follows core core1 ∧
    stored core1 ⊆ stored core ∪ list_to_set (reference <$> (ccs ≫= cc_blocks)) ∧
    (∀ cc, cc ∈ rest → cc ∈ ccs) ∧
    (∀ core3 new, length new = length (omap committed_leader statuses) → follows core1 core3 →
      cert_ok (sds ++ new) core3 rest) ∧
    (ccs ≠ [] → dls ≠ [] ∧ omap committed_leader statuses ≠ []) ∧
    (length ccs ≤ length (omap committed_leader statuses) + length rest)%nat.
Proof.
  intros Hok Hcert Hw Hidx Hpos. destruct (decide (ccs = [])) as [-> |Hne].
  - destruct (decide_local hist sds log core until k Hok Hw Hidx Hpos) as (dls & statuses & Hrun & Hb).
    exists core, dls, true, [], statuses. split_and!; try done; [set_solver|intros; apply cert_ok_nil|cbn; lia].
  - destruct (decide_certified hist sds log core ccs until k Hok Hcert Hne Hw Hidx Hpos) as
      (m' & d' & dls & statuses & j & Hrun & Hj & Hok1 & Hb & Hdls & Hlen & Hkb & Hk & Hgen & Hgc & Hst).
    set (core1 := core <| block_manager := m' |> <| dag_state := d' |>) in *.
    exists core1, dls, false, (drop j ccs), statuses. split_and!; try done.
    + split; try done. cbn. by rewrite Hgc.
    + intros r Hr. apply Hst in Hr. apply elem_of_union in Hr as [Hr|Hr]; apply elem_of_union; [by left|right].
      apply elem_of_list_to_set in Hr. apply elem_of_list_to_set.
      apply list_elem_of_fmap in Hr as (b & -> & (cc & Hb' & Hcc)%list_elem_of_bind). apply list_elem_of_fmap_2.
      apply list_elem_of_bind. exists cc. split; [done|]. by eapply subseteq_take.
    + intros cc. apply subseteq_drop.
    + intros core3 new Hnew [Hf1 Hf2 Hf3 Hf4 Hf5 _]. apply (cert_ok_rest sds core core1 core3); try done.
      * by rewrite Hnew.
      * by rewrite Hf3.
      * cbn in Hf4. rewrite Hgc in Hf4. done.
    + intros _. split; [done|]. intros Hn. rewrite Hn in Hlen. cbn in Hlen. lia.
    + rewrite Hlen, length_drop. lia.
Qed.

Lemma pending_shrinks log log' core core3 ccs rest r :
  stored core3 ⊆ stored core ∪ list_to_set (reference <$> (ccs ≫= cc_blocks)) → (∀ cc, cc ∈ rest → cc ∈ ccs) →
  (∀ x, x ∈ log_committed log → x ∈ log_committed log') →
  r ∈ stored core ∪ list_to_set (reference <$> (ccs ≫= cc_blocks)) → r ∉ log_committed log → r ∈ log_committed log' →
  (size (pending_refs log' core3 rest) < size (pending_refs log core ccs))%nat.
Proof.
  intros Hst Hrest Hmono Hr Hnew Hold. unfold pending_refs. apply subset_size. split.
  - intros x [Hx Hn]%elem_of_difference. apply elem_of_difference. split; [|auto].
    apply elem_of_union in Hx as [Hx|Hx]; [by apply Hst|]. apply elem_of_union. right.
    apply elem_of_list_to_set in Hx. apply elem_of_list_to_set.
    apply list_elem_of_fmap in Hx as (b & -> & (cc & Hb & Hcc)%list_elem_of_bind). apply list_elem_of_fmap_2.
    apply list_elem_of_bind. exists cc. auto.
  - intros Hsub. pose proof (Hsub r) as Hin. rewrite !elem_of_difference in Hin. by destruct Hin.
Qed.

Lemma commit_loop_spec fuel hist sds log core ccs acc :
  commit_ok G hist sds log core → cert_ok sds core ccs → (size (pending_refs log core ccs) < fuel)%nat →
  ∃ core' sent hist' log', commit_loop fuel core ccs acc = Ret (core', Ok (acc ++ sent)) ∧
    commit_ok G hist' (sds ++ (plain <$> sent)) log' core' ∧ follows core core' ∧ (length ccs ≤ length sent)%nat.
Proof.
  revert hist sds log core ccs acc. induction fuel as [|fuel IH]; intros hist sds log core ccs acc Hok Hcert Hfuel; [lia|].
  destruct (maybe_update_spec hist sds log core Hok) as (core0 & until & k & Hrun0 & Hok0 & Hw & Hidx & Hpos & Hf0 & Hm0 & Hr0).
  assert (stored core0 = stored core) as Hst0 by (unfold stored; by rewrite Hm0, Hr0).
  assert (cert_ok sds core0 ccs) as Hcert0.
  { replace sds with (sds ++ []) by apply app_nil_r. destruct Hf0 as [? ? ? ? ? _].
    apply (cert_ok_rest sds core core core0 ccs 0); try done. intros b Hb. by apply elem_of_nil in Hb. }
  destruct (decide_spec hist sds log core0 ccs until k Hok0 Hcert0 Hw Hidx Hpos) as
    (core1 & dls & local & rest & statuses & Hrun1 & Hok1 & Hb & Hf1 & Hst1 & Hrest & Hnext & Hall & Hmore).
  cbn [commit_loop]. rewrite Hrun0. cbn [mbind outcome_bind]. rewrite Hrun1. cbn [mbind outcome_bind].
  destruct (last dls) as [x|] eqn:Hlast.
  2:{ exists core1, [], hist, log. rewrite !app_nil_r. split; [done|]. split; [done|]. split; [by eapply follows_trans|].
      destruct ccs as [|cc ccs]; [done|]. destruct Hall as [[] _]; [done|by apply last_None]. }
  rewrite (bt_leaders _ _ _ _ _ _ Hb). destruct (omap committed_leader statuses) as [|L leaders] eqn:Hleaders.
  { exists (core1 <| last_decided_leader := DecidedLeader_slot x |>), [], (hist ++ statuses), log. rewrite !app_nil_r.
    split; [done|]. split; [by apply (run_nil_batch hist sds log core1 dls)|].
    split; [eapply follows_trans; [exact Hf0|]; eapply follows_trans; [exact Hf1|]; by split|].
    destruct ccs as [|cc ccs]; [done|]. destruct Hall as [_ []]; done. }
  rewrite <- Hleaders.
  pose proof (progress_ok _ _ _ _ Hok1) as Hwf. pose proof (pw_round _ _ _ _ Hwf) as Hround.
  pose proof (pw_index _ _ _ _ Hwf) as Hindex. cbn [core_progress pg_log] in Hround, Hindex.
  pose proof (bt_length _ _ _ _ _ _ Hb) as Hlen. pose proof (bt_asc _ _ _ _ _ _ Hb) as Hasc.
  pose proof (omap_length committed_leader statuses) as Homap. rewrite length_app in Hlen.
  destruct (core_apply hist statuses sds log core1 (omap committed_leader statuses) local (DecidedLeader_slot x))
    as (o' & d2 & sent & log2 & Hobs & Hok2 & Hsound & Hf2 & Hr2);
    [done|by rewrite Hleaders|apply Hb|done|unfold u32_max in Hlen; lia|apply Hb|by apply (bt_slot _ _ _ _ _ _ Hb)|rewrite length_app; lia|].
  set (core2 := core1 <| last_decided_leader := DecidedLeader_slot x |> <| commit_observer := o' |> <| dag_state := d2 |>) in *.
  destruct (core_unsuspend _ _ _ core2 Hok2) as (m3 & d3 & Hun & Hok3 & Hf3 & Hst3).
  set (core3 := core2 <| block_manager := m3 |> <| dag_state := d3 |>) in *.
  assert (stored core2 = stored core1) as Hst2.
  { unfold stored. cbn. f_equal. apply set_eq. intros r. rewrite !elem_of_dom. apply Hr2. }
  destruct (IH (hist ++ statuses) (sds ++ (plain <$> sent)) log2 core3 rest (acc ++ sent)) as
    (core' & sent' & hist' & log' & Hloop & Hok' & Hf' & Hl').
  - done.
  - apply Hnext; [by rewrite (sound_run_length _ _ _ _ Hsound), Hleaders|by eapply follows_trans].
  - destruct (sound_run_committed _ _ _ _ Hsound) as [Hmono Hnew]. destruct (Hnew L) as [Hin Hout]; [rewrite Hleaders; left|].
    eapply Nat.lt_le_trans; [|apply Nat.lt_succ_r, Hfuel].
    apply (pending_shrinks log log2 core core3 ccs rest (reference L)); try done; rewrite <- Hst0.
    + etrans; [exact Hst3|]. by rewrite Hst2.
    + apply Hst1, elem_of_union. left. apply elem_of_dom.
      destruct (dag_lookup_cached (dag_state core1) (reference L) L) as (i & Hi & _); [|apply Hb; rewrite Hleaders; left| |by exists i].
      * apply (no_view _ _ _ _ (ok_node _ _ _ _ Hok1)).
      * rewrite Hleaders in Hasc. destruct Hasc as [Hlt _].
        rewrite (node_gc ctx G _ log (ok_node _ _ _ _ Hok1)), reference_round. unfold log_gc. lia.
  - exists core', (sent ++ sent'), hist', log'. split; [|split; [|split]].
    + change (commit_observer (core1 <| last_decided_leader := DecidedLeader_slot x |>)) with (commit_observer core1).
      change (dag_state (core1 <| last_decided_leader := DecidedLeader_slot x |>)) with (dag_state core1).
      change (leader_schedule (core1 <| last_decided_leader := DecidedLeader_slot x |>)) with (leader_schedule core1).
      rewrite Hobs. cbn [mbind outcome_bind]. fold core2. rewrite Hun. cbn [mbind outcome_bind]. fold core3.
      by rewrite Hloop, <- (assoc_L (++)).
    + by rewrite fmap_app, (assoc_L (++)).
    + do 4 (eapply follows_trans; [eassumption|]). done.
    + pose proof (sound_run_length _ _ _ _ Hsound) as Hsl. rewrite length_fmap, Hleaders in Hsl. rewrite length_app. lia.
Qed.

End Run.
End CoreCommit.
