(* ===== verification/CoreRun.v ===== *)
(** The operations of the core thread: every one of them returns, keeps the invariant of the
    core with its commits, and leaves the universe of blocks honest. *)

From stdpp Require Import base tactics numbers list gmap sorting strings.
From coqutil Require Import Datatypes.RecordSettersUsingExistingGetters.
From S2P Require Import Prelude.
From S2P Require Import Committee.
From S2P Require Import Block.
From S2P Require Import StakeAggregator.
From S2P Require Import ThresholdClock.
From S2P Require Import Commit.
From S2P Require Import Store.
From S2P Require Import LeaderScoring.
From S2P Require Import DagState.
From S2P Require Import DagInvariant.
From S2P Require Import LeaderSchedule.
From S2P Require Import BaseCommitter.
From S2P Require Import CommitSafety.
From S2P Require Import UniversalCommitter.
From S2P Require Import Linearizer.
From S2P Require Import BlockVerifier.
From S2P Require Import BlockManager.
From S2P Require Import BlockOrigin.
From S2P Require Import TransactionConsumer.
From S2P Require Import CommitObserver.
From S2P Require Import QuorumScan.
From S2P Require Import RoundTracker.
From S2P Require Import Ancestor.
From S2P Require Import TransactionCertifier.
From S2P Require Import Core.
From S2P Require Import ProposalState.
From S2P Require Import Proposal.
From S2P Require Import CommitFinalizer.
From S2P Require Import FinalizerSafety.
From S2P Require Import Growth.
From S2P Require Import CoreInvariant.
From S2P Require Import ProposedBlock.
From S2P Require Import CommitProgress.
From S2P Require Import ScheduleProgress.
From S2P Require Import CommitFrame.
From S2P Require Import CoreCommit.

Open Scope N_scope.

(** * Positions of commits *)

Section Positions.
Context `{LeaderRngSpec} `{Crypto} `{CommitCodec}.
Context (ctx : Context) (n : N) (G : universe).

(** The n-th commit of the progress has index n. *)
Lemma progress_indices hist st sds :
  progress ctx n G hist st sds →
  (∀ p sd, sds !! p = Some sd → cr_index (sd_commit_ref sd) = N.of_nat p + 1) ∧
  log_index (pg_log st) = N.of_nat (length sds).
Proof.
  induction 1 as [|hist st sds st1 lead status st2 new Hp [IH1 IH2] Hr He Hd Ha]; [done|].
  pose proof (renew_log ctx n st st1 Hr) as Hlog.
  destruct Ha as [s|L sd log scoring Hco Hf Hv Hadd].
  - rewrite app_nil_r. by rewrite Hlog.
  - destruct (cf_index _ _ _ _ _ _ Hf) as [Hi1 Hi2]. rewrite Hlog in Hi1, Hi2. split.
    + intros p x [Hx|[Hge Hx]]%lookup_app_Some; [by apply IH1|].
      apply list_lookup_singleton_Some in Hx as [Hz <-]. rewrite Hi1, IH2. lia.
    + cbn. rewrite Hi2, IH2, length_app. cbn. lia.
Qed.

(** What is committed is in the universe. *)
Lemma progress_committed hist st sds :
  progress ctx n G hist st sds → ∀ r, r ∈ log_committed (pg_log st) → is_Some (G r).
Proof.
  induction 1 as [|hist st sds st1 lead status st2 new Hp IH Hr He Hd Ha]; [set_solver|].
  pose proof (renew_log ctx n st st1 Hr) as Hlog.
  destruct Ha as [s|L sd log scoring Hco Hf Hv Hadd]; cbn; [by rewrite Hlog|].
  intros r [Hr'|(b & -> & Hb)%list_elem_of_fmap]%(cf_committed _ _ _ _ _ _ Hf).
  - apply IH. by rewrite <- Hlog.
  - destruct (cf_blocks_in _ _ _ _ _ _ Hf b Hb) as [? _]. by exists b.
Qed.
End Positions.

Section Agreement.
Context `{LeaderRngSpec} `{Crypto} `{CommitCodec}.
Context (ctx ctx' : Context) (byz : gset N) (n : N) (G : universe).
Context (Hsame : same_rules ctx ctx') (HB : bft (committee ctx) byz G).

(** Of the commits of two validators one list starts the other. *)
Lemma progress_prefix hist st sds hist' st' sds' :
  progress ctx n G hist st sds → progress ctx' n G hist' st' sds' → sds `prefix_of` sds' ∨ sds' `prefix_of` sds.
Proof.
  intros Hp Hp'. destruct (decide (length hist ≤ length hist')%nat) as [Hl|Hl].
  - left. by apply (progress_comparable ctx ctx' n byz G hist st sds hist' st' sds').
  - right. apply (progress_comparable ctx' ctx n byz G hist' st' sds' hist st sds); try done; [by destruct Hsame|by rewrite (proj1 Hsame)|lia].
Qed.

(** Commits with the same index are the same, whoever made them. *)
Lemma commits_agree hist st sds hist' st' sds' sd sd' :
  progress ctx n G hist st sds → progress ctx' n G hist' st' sds' → sd ∈ sds → sd' ∈ sds' →
  cr_index (sd_commit_ref sd) = cr_index (sd_commit_ref sd') → sd = sd'.
Proof.
  intros Hp Hp' [i Hi]%list_elem_of_lookup [j Hj]%list_elem_of_lookup Heq.
  pose proof (proj1 (progress_indices ctx n G _ _ _ Hp) i sd Hi) as Hx.
  pose proof (proj1 (progress_indices ctx' n G _ _ _ Hp') j sd' Hj) as Hy. assert (j = i) as -> by lia.
  destruct (progress_prefix _ _ _ _ _ _ Hp Hp') as [Hpre|Hpre].
  - pose proof (prefix_lookup_Some _ _ _ _ Hi Hpre). congruence.
  - pose proof (prefix_lookup_Some _ _ _ _ Hj Hpre). congruence.
Qed.
End Agreement.

(** * Committing *)

Lemma notify_consumer_ok ctx c committed gc_round :
  consumer_ok ctx c → consumer_ok ctx (notify_own_blocks_status c committed gc_round).
Proof.
  intros Hc. unfold notify_own_blocks_status.
  assert (consumer_ok ctx (foldl notify_sequenced c committed)) as Hc1.
  { revert c Hc. induction committed as [|r committed IH]; intros c Hc; [done|]. cbn [foldl]. apply IH.
    unfold notify_sequenced. by destruct (block_status_subscribers c !! r). }
  set (c1 := foldl _ _ _) in *. clearbody c1. generalize (size (block_status_subscribers c1)). clear Hc.
  intros fuel. revert c1 Hc1. induction fuel as [|fuel IH]; intros c1 Hc1; [done|]. cbn [notify_collected].
  destruct (head _) as [[r subs]|]; [|done]. destruct (br_round r <=? gc_round); [|done]. by apply IH.
Qed.

Section Ops.
Context {S : Type} `{StoreSpec S} `{LeaderRngSpec} `{Crypto} `{CommitCodec}.
Implicit Types core : Core S.
Context (ctx : Context) (byz : gset N) (n : N).
Let c := committee ctx.

Lemma commit_ok_consumer G hist sds log core consumer :
  commit_ok ctx n G hist sds log core → consumer_ok ctx consumer →
  commit_ok ctx n G hist sds log (core <| transaction_consumer := consumer |>).
Proof.
  intros Hok Hc. destruct (ok_tracker _ _ _ _ (ok_base _ _ _ _ (cm_core _ _ _ _ _ _ _ Hok))) as [Ht Htc].
  pose proof (core_ok_update ctx G log core consumer (round_tracker core) (cm_core _ _ _ _ _ _ _ Hok) Hc Ht Htc) as Hcore.
  destruct core. destruct Hok. by split.
Qed.

Section Commit.
Context (G : universe) (HG : honest_universe c byz G) (Hrounds : rounds_bounded G) (Henv : chain_env ctx byz n).

Lemma fuel_enough log core ccs : (size (pending_refs log core ccs) < commit_fuel core ccs)%nat.
Proof.
  unfold pending_refs, commit_fuel, stored.
  assert (∀ X Y : gset BlockRef, (size (X ∪ Y) ≤ size X + size Y)%nat) as Hu.
  { intros X Y. rewrite size_union_alt. assert (size (Y ∖ X) ≤ size Y)%nat by (apply subseteq_size; set_solver). lia. }
  pose proof (Hu (dom (ds_recent_blocks (dag_state core))) (dom (bm_suspended_blocks (block_manager core)))) as H1'.
  rewrite !size_dom in H1'.
  set (A := dom _ ∪ dom _) in *. set (B := list_to_set _). pose proof (Hu A B) as H2'.
  assert (size B ≤ length (ccs ≫= cc_blocks))%nat as HB.
  { unfold B. rewrite <- (length_fmap reference). generalize (reference <$> (ccs ≫= cc_blocks)). clear.
    induction l as [|r l IH]; [done|]. cbn [list_to_set length]. rewrite size_union_alt, size_singleton.
    assert (size (list_to_set l ∖ {[r]} : gset BlockRef) ≤ size (list_to_set l : gset BlockRef))%nat
      by (apply subseteq_size; set_solver). lia. }
  assert (size ((A ∪ B) ∖ log_committed log) ≤ size (A ∪ B))%nat by (apply subseteq_size; set_solver). lia.
Qed.

(** The sub-DAGs pass the comparison with the certified commits. *)
Lemma check_certified_ok (m : gmap N CommitRef) (sent : list CommittedSubDag) :
  (∀ sd r, sd ∈ sent → m !! cr_index (sd_commit_ref sd) = Some r → r = sd_commit_ref sd) →
  ∃ m', foldM check_certified m sent = Ret m'.
Proof.
  revert m. induction sent as [|sd sent IH]; intros m Hm; [by eexists|]. cbn [foldM].
  destruct (m !! cr_index (sd_commit_ref sd)) as [r|] eqn:Hr.
  - assert (check_certified m sd = Ret (delete (cr_index (sd_commit_ref sd)) m)) as ->.
    { unfold check_certified. rewrite Hr, bool_decide_true by (apply Hm; [left|done]). done. }
    cbn [mbind outcome_bind].
    apply IH. intros x y Hx [_ Hy]%lookup_delete_Some. apply Hm; [by apply list_elem_of_further|done].
  - assert (check_certified m sd = Ret m) as -> by (unfold check_certified; by rewrite Hr).
    cbn [mbind outcome_bind]. apply IH. intros x y Hx. apply Hm. by apply list_elem_of_further.
Qed.

Lemma certified_lookup ccs (m : gmap N CommitRef) i r :
  foldl (λ m c, <[tc_index (cc_commit c) := tc_reference (cc_commit c)]> m) m ccs !! i = Some r →
  m !! i = Some r ∨ ∃ cc, cc ∈ ccs ∧ tc_index (cc_commit cc) = i ∧ tc_reference (cc_commit cc) = r.
Proof.
  revert m. induction ccs as [|cc ccs IH]; intros m; [by left|]. cbn [foldl]. intros [Hm|(x & Hx & ?)]%IH.
  - apply lookup_insert_Some in Hm as [[<- <-]|[_ Hm]]; [|by left]. right. exists cc. split; [left|done].
  - right. exists x. split; [by right|done].
Qed.

Lemma try_commit_spec hist sds log core ccs :
  commit_ok ctx n G hist sds log core → cert_ok ctx n G sds core ccs →
  ∃ core' sent hist' log', try_commit core ccs = Ret (core', Ok sent) ∧
    commit_ok ctx n G hist' (sds ++ (plain <$> sent)) log' core' ∧ follows core core' ∧ (length ccs ≤ length sent)%nat.
Proof.
  intros Hok Hcert. unfold try_commit.
  destruct (commit_loop_spec ctx byz n G HG Hrounds Henv (commit_fuel core ccs) hist sds log core ccs [] Hok Hcert)
    as (core' & sent & hist' & log' & Hloop & Hok' & Hf & Hl); [apply fuel_enough|].
  unfold and_then. rewrite Hloop. cbn [mbind outcome_bind app].
  destruct (check_certified_ok (foldl (λ m c, <[tc_index (cc_commit c) := tc_reference (cc_commit c)]> m) ∅ ccs) sent)
    as [m' Hm'].
  { intros sd r Hsd [Hr|(cc & Hcc & Hi & <-)]%certified_lookup; [done|].
    apply list_elem_of_lookup in Hcc as [i Hcc]. destruct (ct_elsewhere _ _ _ _ _ _ Hcert) as
      (ctx' & hist2 & st2 & sds2 & Hsame & Hp2 & _ & Hm). destruct (Hm i cc Hcc) as (sd2 & Hsd2 & Href & _).
    destruct (cm_progress _ _ _ _ _ _ _ Hok') as (st & Hp & _).
    rewrite Href. change (sd_commit_ref sd2 = sd_commit_ref (plain sd)). f_equal. symmetry.
    apply (commits_agree ctx ctx' byz n G Hsame (hu_bft _ _ _ HG) _ _ _ _ _ _ _ _ Hp Hp2).
    - apply elem_of_app. right. by apply list_elem_of_fmap_2.
    - by apply list_elem_of_lookup_2 in Hsd2.
    - rewrite <- Href. symmetry. exact Hi. }
  rewrite Hm'. cbn [mbind outcome_bind]. eexists _, sent, hist', log'. split; [reflexivity|]. split.
  - apply commit_ok_consumer; [done|]. apply notify_consumer_ok. apply Hok'.
  - split; [|done]. destruct Hf. by split.
Qed.
End Commit.

(** * Growth of the universe *)

Section Extend.
Context (G : universe) (b : VerifiedBlock) (HG : honest_universe c byz G) (Hfresh : unreferenced G (reference b)).
Let G' := extend G b.

Lemma reaches_extend hist sds st : reaches ctx n G hist sds st → reaches ctx n G' hist sds st.
Proof. intros (st0 & Hp & Hst). exists st0. split; [|done]. by apply (progress_mono c byz G b HG Hfresh). Qed.

Lemma reaches_uncommitted hist sds st : reaches ctx n G hist sds st → reference b ∉ log_committed (pg_log st).
Proof.
  intros (st0 & Hp & Hst) Hin. assert (pg_log st = pg_log st0) as Hlog.
  { destruct Hst as [Hr| ->]; [by apply (renew_log ctx n)|done]. }
  rewrite Hlog in Hin. destruct (progress_committed ctx n G _ _ _ Hp _ Hin) as [x Hx]. destruct Hfresh. congruence.
Qed.

Lemma votes_cover_extend (d : DagState S) t : votes_cover ctx G d t → votes_cover ctx G' d t.
Proof.
  intros (added & outs & ? & ? & Hin & ?). exists added, outs. split_and!; try done.
  intros x Hx. by apply (extend_mono G b Hfresh), Hin.
Qed.

Lemma cast_ok_extend sds pending : vb_author b ≠ own_index ctx → cast_ok ctx G sds pending → cast_ok ctx G' sds pending.
Proof. intros Ha [Hp Hb]. split; [done|]. intros x v [Hx| ->]%(extend_in G b Hfresh) Hxa Hv; [eauto|done]. Qed.

Lemma voted_ref_extend t r : voted_ref G t r → voted_ref G' t r.
Proof. intros (x & Hx & ?). exists x. split; [by apply (extend_mono G b Hfresh)|done]. Qed.

(** The block of another authority changes nothing for the core. *)
Lemma commit_ok_extend hist sds log core :
  commit_ok ctx n G hist sds log core → vb_author b ≠ own_index ctx → commit_ok ctx n G' hist sds log core.
Proof.
  intros Hok Ha. destruct (cm_core _ _ _ _ _ _ _ Hok) as [Hbase Hfast Hinc].
  destruct Hok as [_ Hprog Hsch Hdec Hlen Hhigh Hobs Hsent Hvoted Hcast].
  pose proof (reaches_uncommitted _ _ _ Hprog) as Hun. split; try done.
  - split; [|intros Hf; destruct (Hfast Hf) as (? & ? & ?); split_and!; try done; by apply votes_cover_extend|done].
    destruct Hbase. split; try done.
    + by apply (node_ok_extend ctx byz G b HG Hfresh).
    + intros x [Hx| ->]%(extend_in G b Hfresh) Hxa; [auto|done].
    + by apply bm_inv_extend.
  - by apply reaches_extend.
  - intros Hf r Hr Hgc. apply voted_ref_extend. by apply Hvoted.
  - by apply cast_ok_extend.
Qed.
End Extend.

(** * Proposing *)

(** Rounds are far enough from the end of their type for the next proposal. *)
Definition rounds_safe (G : universe) : Prop :=
  ∀ b, block_in G b → vb_round b + STATE_LOCK_CLOCK_ROUNDS + 4 < u32_max.

(** Digests cannot be guessed: no block links a proposal of this authority that is not made yet. *)
Definition unguessed (G : universe) : Prop :=
  ∀ hist sds log core core1 now eb, commit_ok ctx n G hist sds log core → proposal ctx core core1 now eb →
    ∀ x, block_in G x → reference (eb_block eb) ∉ vb_ancestors x.

Section Propose.
Context (G : universe) (HG : honest_universe c byz G) (Hrounds : rounds_safe G).

Lemma safe_bounded : rounds_bounded G.
Proof. intros b Hb. specialize (Hrounds b Hb). lia. Qed.

(** The clock is one round above blocks of the universe. *)
Lemma clock_bound log core : core_base ctx G log core → clock_of (dag_state core) + STATE_LOCK_CLOCK_ROUNDS + 4 ≤ u32_max.
Proof.
  intros Hcore. pose proof (no_view _ _ _ _ (ok_node _ _ _ _ Hcore)) as Hv.
  destruct (ck_quorum _ (ok_clock _ _ _ _ Hcore)) as [-> |Hq]; [done|].
  rewrite (v_committee _ _ _ Hv) in Hq. destruct (quorum_nonempty c byz G (hu_bft _ _ _ HG) _ Hq) as [a Ha].
  apply elem_of_authors_cached in Ha as (r & [i Hi] & Hr & _).
  pose proof (dag_lookup_recent _ r i (dwf_cache _ (base_dag_wf _ _ _ _ Hcore)) Hi) as Hlk.
  apply (v_sub _ _ _ Hv) in Hlk. pose proof (bft_ref _ _ _ (hu_bft _ _ _ HG) _ _ Hlk) as Href.
  specialize (Hrounds (bi_block i)). unfold block_in in Hrounds. rewrite Href in Hrounds.
  rewrite <- reference_round, Href, Hr in Hrounds. specialize (Hrounds Hlk).
  pose proof (ck_pos _ (ok_clock _ _ _ _ Hcore)). lia.
Qed.

(** The last proposal is the highest own block of the universe. *)
Lemma last_own log core b :
  core_base ctx G log core → get_last_proposed_block (dag_state core) = Ret b →
  block_in G b ∧ vb_author b = own_index ctx ∧ ∀ x, block_in G x → vb_author x = own_index ctx → vb_round x ≤ vb_round b.
Proof.
  intros Hcore Hb. pose proof (ok_node _ _ _ _ Hcore) as Hd.
  destruct (last_proposed_spec _ (base_dag_wf _ _ _ _ Hcore)) as (x & Hx & Ha & Hk & Hmax).
  rewrite Hb in Hx. injection Hx as <-. rewrite (no_context _ _ _ _ Hd) in Ha, Hmax.
  split; [by apply (v_sub _ _ _ (no_view _ _ _ _ Hd))|]. split; [done|]. intros y Hy Hya.
  rewrite <- (reference_round y). apply Hmax; [|by rewrite reference_author].
  exists y. by apply (ok_own _ _ _ _ Hcore).
Qed.

Lemma proposal_fresh hist sds log core core1 now eb :
  commit_ok ctx n G hist sds log core → proposal ctx core core1 now eb → unguessed G →
  unreferenced G (reference (eb_block eb)).
Proof.
  intros Hok Hp Hun. split; [|intros x; by apply (Hun _ _ _ _ _ _ _ Hok Hp)].
  destruct (pp_state _ _ _ _ _ Hp) as (m & li & consumer & d' & -> & _ & _ & _ & _ & ancestors & last & Hlast & Hlt & Han & Hpr).
  destruct (proposed_fields ctx core now ancestors _ d' Hpr) as (Ha & Hr & _).
  destruct (G (reference (eb_block eb))) as [x|] eqn:Hx; [|done].
  pose proof (bft_ref _ _ _ (hu_bft _ _ _ HG) _ _ Hx) as Href.
  destruct (last_own log core last (ok_base _ _ _ _ (cm_core _ _ _ _ _ _ _ Hok)) Hlast) as (_ & _ & Hmax).
  assert (vb_round x = vb_round (eb_block eb)) as Hxr by by rewrite <- !reference_round, Href.
  assert (vb_author x = vb_author (eb_block eb)) as Hxa by by rewrite <- !reference_author, Href.
  specialize (Hmax x). unfold block_in in Hmax. rewrite Href, Hxa in Hmax. specialize (Hmax Hx Ha). lia.
Qed.

(** What is held back after the own block was held back before. *)
Lemma own_suspended log core b core' r :
  core_base ctx G log core → own_step ctx G log b core core' →
  is_Some (bm_suspended_blocks (block_manager core') !! r) → is_Some (bm_suspended_blocks (block_manager core) !! r).
Proof.
  intros Hcore [_ (d & d1 & Hrun & Heff & _) _] [s Hs].
  set (T r := is_Some (bm_suspended_blocks (block_manager core) !! r) ∨ known d r).
  assert (∀ x, is_Some (ds_recent_blocks (dag_state core) !! x) → known d x) as Hcached.
  { intros x [i Hi]. apply (ae_known _ _ _ _ _ _ _ _ Heff). left. exists (bi_block i).
    by apply dag_lookup_recent; [apply (base_dag_wf _ _ _ _ Hcore)|]. }
  destruct (accept_origin T false _ _ _ _ _ _ _ Hrun) as [Hheld _].
  - intros x y Hy. split; [|left; by exists y].
    apply (gi_susp _ _ _ _ _ _ _ _ (bi_graph _ _ _ _ (ok_manager _ _ _ _ Hcore)) x y Hy).
  - intros x Hx. right. by apply Hcached.
  - intros x ->%list_elem_of_singleton. right. apply (ae_known _ _ _ _ _ _ _ _ Heff). right. apply list_elem_of_fmap_2. left.
  - destruct (Hheld r s Hs) as [_ [?|Hk]]; [done|exfalso].
    destruct (gi_susp _ _ _ _ _ _ _ _ (bi_graph _ _ _ _ (ae_inv _ _ _ _ _ _ _ _ Heff)) r s Hs) as (_ & _ & Hno & _).
    apply Hno. by left.
Qed.

Lemma relinked_rest (d d' : DagState S) :
  relinked d d' → ds_scoring_subdag d' = ds_scoring_subdag d ∧ ds_highest_accepted_round d' = ds_highest_accepted_round d ∧
    dag_gc_round d' = dag_gc_round d.
Proof. intros Hr. rewrite (relinked_gc d d' Hr). destruct Hr as [-> _]. done. Qed.

(** The DAG state after the own block. *)
Lemma own_dag log core b core' :
  rounds_bounded (extend G b) → own_step ctx G log b core core' →
  ds_scoring_subdag (dag_state core') = ds_scoring_subdag (dag_state core) ∧
  dag_gc_round (dag_state core') = dag_gc_round (dag_state core) ∧
  (∀ v, v ∈ ds_pending_commit_votes (dag_state core') → v ∈ ds_pending_commit_votes (dag_state core)) ∧
  (ds_highest_accepted_round (dag_state core) + 4 < u32_max → ds_highest_accepted_round (dag_state core') + 4 < u32_max).
Proof.
  intros Hb [_ (d & d1 & _ & Heff & Hrl & Hf) _].
  destruct (node_steps_frame ctx _ Hb _ _ (ae_steps _ _ _ _ _ _ _ _ Heff)) as (Hs & Hp & Hh).
  destruct (relinked_rest d d1 Hrl) as (Hs1 & Hh1 & Hg1). destruct (flush_clock d1 _ Hf) as (_ & Hctx & Hlc & Hh2 & _).
  assert (dag_gc_round (dag_state core') = dag_gc_round d1) as Hg2.
  { unfold dag_gc_round, calculate_gc_round, last_commit_round. by rewrite Hlc, Hctx. }
  split_and!.
  - rewrite (flush_keeps ds_scoring_subdag d1 _) by done. congruence.
  - rewrite Hg2, Hg1. apply Heff.
  - intros v Hv. rewrite (flush_keeps ds_pending_commit_votes d1 _) in Hv by done. rewrite <- Hp. by apply (rl_votes _ _ Hrl).
  - rewrite Hh2, Hh1. done.
Qed.

(** A new block of this authority: it is fresh, above the other own blocks, valid to every
    verifier of the epoch, and the universe with it is honest. *)
Record made (b : VerifiedBlock) : Prop := {
  md_fresh : unreferenced G (reference b);
  md_author : vb_author b = own_index ctx;
  md_above : ∀ x, block_in G x → vb_author x = own_index ctx → vb_round x < vb_round b;
  md_verifies : ∀ ctx' v, same_config ctx ctx' → SignedBlockVerifier_new ctx' = Ret v →
    verify_block v (vb_block b) = Ret (Ok tt);
  md_valid : ∀ ctx' v, same_config ctx ctx' → SignedBlockVerifier_new ctx' = Ret v → valid_block v (vb_block b);
  md_encoded : encoded b;
  md_honest : honest_universe c byz (extend G b);
  md_bounded : rounds_bounded (extend G b);
}.

Lemma proposal_made hist sds log core core1 now eb :
  commit_ok ctx n G hist sds log core → core_env ctx byz (block_signer core) → unguessed G →
  proposal ctx core core1 now eb → made (eb_block eb).
Proof.
  intros Hok Henv Hun Hp. pose proof (cm_core _ _ _ _ _ _ _ Hok) as Hcore.
  pose proof (clock_bound log core Hcore) as Hclock. pose proof (proposal_fresh _ _ _ _ _ _ _ Hok Hp Hun) as Hfresh.
  assert (clock_of (dag_state core) + STATE_LOCK_CLOCK_ROUNDS < 2 ^ 32) as Hck by (unfold u32_max in Hclock; lia).
  destruct (pp_state _ _ _ _ _ Hp) as (m & li & consumer & d' & _ & _ & _ & _ & _ & ancestors & last & Hlast & Hlt & Han & Hpr).
  destruct (proposed_fields ctx core now ancestors _ d' Hpr) as (Ha & Hr & _).
  split; [done|done| | | |apply (pr_encoded _ _ _ _ _ _ _ Hpr)| |].
  - intros x Hx Hxa. destruct (last_own log core last Hcore Hlast) as (_ & _ & Hmax). specialize (Hmax x Hx Hxa). lia.
  - intros ctx' v. by apply (proposal_verifies ctx byz G log core HG Henv Hcore Hck core1 now eb).
  - intros ctx' v. by apply (proposed_valid ctx G log core now ancestors last _ d').
  - by destruct (proposal_joins ctx byz G log core HG safe_bounded Henv Hcore Hck core1 now eb [] Hp Hfresh).
  - intros x [Hx| ->]%(extend_in G _ Hfresh); [by apply safe_bounded|]. unfold STATE_LOCK_CLOCK_ROUNDS in Hclock. lia.
Qed.

(** A block for the round of the clock was proposed. *)
Definition proposed_for_clock core : Prop :=
  ∃ last, last_proposed_block core = Ret last ∧ clock_of (dag_state core) ≤ vb_round last.

Lemma try_new_block_spec hist sds log core force nows :
  commit_ok ctx n G hist sds log core → core_env ctx byz (block_signer core) → unguessed G →
  ∃ core' p, try_new_block core force nows = Ret (core', p) ∧
    block_signer core' = block_signer core ∧ signals core' = signals core ∧
    match p with
    | None => commit_ok ctx n G hist sds log core' ∧ (force = true → proposed_for_clock core')
    | Some eb => made (eb_block eb) ∧ commit_ok ctx n (extend G (eb_block eb)) hist sds log core'
    end.
Proof.
  intros Hok Henv Hun. pose proof (cm_core _ _ _ _ _ _ _ Hok) as Hcore.
  pose proof (clock_bound log core Hcore) as Hclock.
  assert (clock_of (dag_state core) + STATE_LOCK_CLOCK_ROUNDS < 2 ^ 32) as Hck by (unfold u32_max in Hclock; lia).
  destruct (build_proposal_spec ctx byz G log HG core force nows Hcore Henv Hck) as (core1 & p & Hbuild & Hp).
  unfold try_new_block. rewrite Hbuild. cbn [mbind outcome_bind]. destruct p as [[eb acks]|].
  - pose proof (proposal_made _ _ _ _ _ _ _ Hok Henv Hun Hp) as Hmade. pose proof (md_fresh _ Hmade) as Hfresh.
    destruct (proposal_joins ctx byz G log core HG safe_bounded Henv Hcore Hck core1 nows.2 eb acks Hp Hfresh)
      as (_ & core' & Hrun & Hcore' & Hin & Hstep).
    rewrite Hrun. cbn [mbind outcome_bind]. exists core', (Some eb). split; [done|].
    destruct (pp_state _ _ _ _ _ Hp) as (m & li & consumer & d' & -> & Hm & Hli & Hcons & _ & ancestors & last & _ & _ & _ & Hpr).
    destruct (pr_inner _ _ _ _ _ _ _ Hpr) as (txs & cv & tv & _ & _ & _ & Hv). pose proof (vt_relinked _ _ _ _ _ Hv) as Hrl.
    destruct (relinked_rest _ d' Hrl) as (Hs0 & Hh0 & Hg0).
    destruct (own_dag log _ _ core' (md_bounded _ Hmade) Hstep) as (Hs & Hg & Hpv & Hh). cbn in Hs, Hg, Hpv, Hh.
    assert (core_base ctx G log (built core m li consumer d')) as Hbase1
      by (apply (base_built ctx byz G log HG); [apply Hcore|done|done|done|done]).
    pose proof (λ r, own_suspended log _ _ core' r Hbase1 Hstep) as Hsus. pose proof (os_frame _ _ _ _ _ _ Hstep) as Hfr.
    pose proof (f_equal leader_schedule Hfr) as Hf1. pose proof (f_equal last_decided_leader Hfr) as Hf2.
    pose proof (f_equal commit_observer Hfr) as Hf3. pose proof (f_equal block_signer Hfr) as Hf4.
    pose proof (f_equal signals Hfr) as Hf5. cbn in Hf1, Hf2, Hf3, Hf4, Hf5.
    clear Hfr. split; [done|]. split; [done|]. split; [done|].
    destruct Hok as [_ Hprog Hsch Hdec Hlen Hhigh Hobs Hsent Hvoted [Hcp Hcb]].
    split; [done| |by rewrite Hf1|by rewrite Hf2|done|apply Hh; by rewrite Hh0|by rewrite Hf3|by rewrite Hf3| |].
    + apply reaches_extend; [done|done|]. unfold core_progress. by rewrite Hf1, Hs, Hs0.
    + intros Hf r Hr Hgc. destruct (Hvoted Hf r) as (x & Hx & Hxr & Hxv); [by apply Hsus|by rewrite <- Hg0, <- Hg|].
      exists x. split; [by apply (extend_mono G _ Hfresh)|]. split; [done|]. by apply (os_voted _ _ _ _ _ _ Hstep).
    + split; [intros v Hin_; by apply Hcp, (rl_votes _ _ Hrl), Hpv|].
      intros x v [Hx| ->]%(extend_in G _ Hfresh) Hxa Hxv; [by eapply Hcb|]. apply Hcp. by apply (pr_votes _ _ _ _ _ _ _ Hpr).
  - destruct Hp as (Hcore1 & Heq & Hforce). exists core1, None. split; [done|]. rewrite Heq in Hcore1 |- *.
    split; [done|]. split; [done|]. split; [|exact Hforce]. destruct Hok. by split.
Qed.
End Propose.

(** * The operations of the core thread *)

(** The switches and the signals of the core. *)
Record idle core core' : Prop := {
  id_frame : core' = core <| signals := signals core' |> <| last_signaled_round := last_signaled_round core' |>
                          <| subscriber_exists := subscriber_exists core' |>
                          <| propagation_delay := propagation_delay core' |>
                          <| last_known_proposed_round := last_known_proposed_round core' |>;
}.

Lemma commit_ok_idle G hist sds log core core' :
  commit_ok ctx n G hist sds log core → idle core core' → commit_ok ctx n G hist sds log core'.
Proof.
  intros Hok [->]. destruct Hok as [Hcore ? ? ? ? ? ? ? ? ?]. split; try done. destruct Hcore as [Hbase ? ?].
  split; [|done|done]. by eapply (base_frame ctx G log core).
Qed.

Lemma signal_idle core : idle core (try_signal_new_round core).
Proof. split. unfold try_signal_new_round. destruct (_ <=? _); by destruct core. Qed.

(** The universe after an operation: as before, or with one new block of this authority. *)
Inductive grows (G : universe) : universe → Prop :=
| grows_same : grows G G
| grows_own b : made G b → grows G (extend G b).

Lemma grows_honest G G' : honest_universe c byz G → grows G G' → honest_universe c byz G'.
Proof. intros HG [|b Hb]; [done|apply (md_honest _ _ Hb)]. Qed.

(** The core goes on from its commits in the universe after the operation. *)
Definition continues (G : universe) (sds : list CommittedSubDag) core core' : Prop :=
  ∃ G' hist' sds' log', grows G G' ∧ commit_ok ctx n G' hist' sds' log' core' ∧ sds `prefix_of` sds' ∧
    block_signer core' = block_signer core.

Lemma continues_idle G sds core core1 core2 : continues G sds core core1 → idle core1 core2 → continues G sds core core2.
Proof.
  intros (G' & hist & sds' & log & Hg & Hok & Hpre & Hs) Hi. exists G', hist, sds', log. split; [done|].
  split; [by eapply commit_ok_idle|]. split; [done|]. destruct Hi as [Hi]. rewrite Hi. done.
Qed.

(** The only error of an operation is the end of the receivers of blocks. *)
Definition only_shutdown {A} (res : ConsensusResult A) : Prop := ∀ e, res = Err e → e = Shutdown.

Section Run.
Context (G : universe) (HG : honest_universe c byz G) (Hrounds : rounds_safe G) (Henv : chain_env ctx byz n).

(** Committing after the universe has grown. *)
Lemma commit_grown G' hist sds log core :
  grows G G' → commit_ok ctx n G' hist sds log core →
  ∃ core' sent, try_commit core [] = Ret (core', Ok sent) ∧ continues G sds core core' ∧ signals core' = signals core.
Proof.
  intros Hg Hok.
  destruct (try_commit_spec G' (grows_honest _ _ HG Hg)) with hist sds log core (@nil CertifiedCommit)
    as (core' & sent & hist' & log' & Hrun & Hok' & Hf & _); [|done|done|apply cert_ok_nil|].
  { destruct Hg; [by apply safe_bounded|by apply (md_bounded _ _)]. }
  exists core', sent. split; [done|]. split; [|apply Hf]. exists G', hist', (sds ++ (plain <$> sent)), log'. split; [done|]. split; [done|].
  split; [by apply prefix_app_r|apply Hf].
Qed.

Lemma signal_open context s eb :
  sig_receivers s = true → ∃ s', signal_new_block context s eb = Ok s' ∧ sig_receivers s' = true.
Proof.
  intros Hs. unfold signal_new_block. rewrite Hs. destruct (1 <? _); [|by exists s].
  destruct (vb_round (eb_block eb) =? _); by eexists.
Qed.

Lemma signal_error context s eb e : signal_new_block context s eb = Err e → e = Shutdown.
Proof.
  unfold signal_new_block. destruct (1 <? _); [|done]. destruct (vb_round (eb_block eb) =? _); [done|].
  destruct (sig_receivers s); [done|]. by intros [= <-].
Qed.

(** With a receiver for the blocks there is no error, and a forced proposal that makes no block
    is not allowed to or was made before. *)
Lemma try_propose_spec hist sds log core force nows :
  commit_ok ctx n G hist sds log core → core_env ctx byz (block_signer core) → unguessed G →
  ∃ core' res, try_propose core force nows = Ret (core', res) ∧ continues G sds core core' ∧ only_shutdown res ∧
    (sig_receivers (signals core) = true → sig_receivers (signals core') = true ∧
       ∃ p, res = Ok p ∧ (force = true → p = None → should_propose core' = true → proposed_for_clock core')).
Proof.
  intros Hok Hce Hun. unfold try_propose. destruct (should_propose core) eqn:Hsp; cbn [negb].
  2:{ exists core, (Ok None). split; [done|]. split; [exists G, hist, sds, log; split; [constructor|done]|]. split; [done|].
      intros Hs. split; [done|]. exists None. split; [done|]. congruence. }
  destruct (try_new_block_spec G HG Hrounds hist sds log core force nows Hok Hce Hun) as (core1 & p & Hrun & Hs & Hsig & Hp).
  rewrite Hrun. cbn [mbind outcome_bind]. destruct p as [eb|].
  2:{ destruct Hp as [Hok1 Hforce]. exists core1, (Ok None). split; [done|].
      split; [exists G, hist, sds, log; split; [constructor|done]|]. split; [done|].
      intros Hr. rewrite Hsig. split; [done|]. exists None. split; [done|]. auto. }
  destruct Hp as [Hmade Hok1].
  destruct (signal_new_block _ _ _) as [signals_|e] eqn:Hsignal.
  2:{ exists core1, (Err e). split; [done|].
      split; [exists (extend G (eb_block eb)), hist, sds, log; split; [by constructor|done]|].
      split; [intros e' [= <-]; by eapply signal_error|]. intros Hr. rewrite <- Hsig in Hr. destruct (signal_open (core_context core1) _ eb Hr) as (s' & Hs' & _). congruence. }
  set (core2 := core1 <| signals := signals_ |>).
  destruct (commit_grown (extend G (eb_block eb)) hist sds log core2) as (core' & sent & Hcommit & Hcont & Hsig').
  { by constructor. }
  { apply (commit_ok_idle _ _ _ _ core1); [done|]. split. by destruct core1. }
  unfold and_then. rewrite Hcommit. cbn [mbind outcome_bind]. exists core', (Ok (Some (eb_block eb))). split; [done|]. split; [|split; [done|]].
  - destruct Hcont as (G' & ? & ? & ? & ? & ? & ? & Hs'). eexists G', _, _, _. split_and!; [done..|]. rewrite Hs'. exact Hs.
  - intros Hr. split; [|by eexists]. rewrite Hsig'. rewrite <- Hsig in Hr.
    destruct (signal_open (core_context core1) _ eb Hr) as (s' & Hs' & ?). cbn. congruence.
Qed.

Lemma new_block_spec hist sds log core round force nows :
  commit_ok ctx n G hist sds log core → core_env ctx byz (block_signer core) → unguessed G →
  ∃ core' res, new_block core round force nows = Ret (core', res) ∧ continues G sds core core' ∧ only_shutdown res.
Proof.
  intros Hok Hce Hun. unfold new_block, last_proposed_round, last_proposed_block.
  destruct (last_proposed_spec _ (base_dag_wf ctx G log core (cm_core _ _ _ _ _ _ _ Hok))) as (last & -> & _).
  cbn [mbind outcome_bind]. destruct (_ <? _).
  - destruct (try_propose_spec hist sds log core force nows Hok Hce Hun) as (core' & res & -> & Hcont & Hres & _).
    cbn [mbind outcome_bind]. eexists _, res. split; [reflexivity|]. split; [|done].
    eapply continues_idle; [done|apply signal_idle].
  - exists core, (Ok None). split; [done|]. split; [|done]. exists G, hist, sds, log. split; [constructor|done].
Qed.

(** A block that may be given to the core: it is in the universe, verified, and voted on. *)
Definition received core (b : VerifiedBlock) : Prop :=
  good ctx G (ds_genesis (dag_state core)) b ∧
  (mysticeti_fastpath (protocol_config ctx) = true → dag_gc_round (dag_state core) < vb_round b →
   voted_ref G (transaction_certifier core) (reference b)).

Lemma core_accept hist sds log core blocks :
  commit_ok ctx n G hist sds log core → (∀ b, b ∈ blocks → received core b) →
  ∃ m d accepted missing, try_accept_blocks (block_manager core) (dag_state core) blocks = Ret (m, d, accepted, missing) ∧
    commit_ok ctx n G hist sds log (core <| block_manager := m |> <| dag_state := d |>) ∧
    follows core (core <| block_manager := m |> <| dag_state := d |>).
Proof.
  intros Hok Hin. pose proof (cm_core _ _ _ _ _ _ _ Hok) as Hcore.
  destruct (accept_many_spec ctx byz G (hu_bft _ _ _ HG) (ch_own _ _ _ Henv) log (isort round_leb blocks)
    (block_manager core) (dag_state core) [] ∅) as (m & d & new & fetch & Hrun & Heff & _);
    [apply Hcore|apply Hcore|intros b Hb; apply Hin; by apply elem_of_isort in Hb|].
  exists m, d, new, (∅ ∪ fetch). split; [exact Hrun|]. split.
  - apply (commit_ok_accept ctx byz n G HG (safe_bounded G Hrounds) Henv _ _ _ _ _ _ new); [done|done|].
    intros Hfp. destruct (source_start ctx G log core Hcore (cm_voted _ _ _ _ _ _ _ Hok) Hfp) as [Hm Hd].
    apply (accept_origin _ false _ _ _ _ _ _ _ Hrun Hm Hd). intros b Hb Hgc. right. by apply Hin.
  - split; try done; cbn.
    + apply Heff.
    + by rewrite (ae_gc _ _ _ _ _ _ _ _ Heff).
    + intros r Hr. apply (ae_known _ _ _ _ _ _ _ _ Heff). by left.
Qed.

(** The end of the operations that add blocks: a proposal, and the signal of a new round. *)
Lemma finish_spec {A} hist sds log core (result : A) nows :
  commit_ok ctx n G hist sds log core → core_env ctx byz (block_signer core) → unguessed G →
  ∃ core' res, (let! (core, _proposed) := try_propose core false nows in
                Ret (try_signal_new_round core, Ok result)) = Ret (core', res) ∧ continues G sds core core' ∧ only_shutdown res.
Proof.
  intros Hok Hce Hun. destruct (try_propose_spec hist sds log core false nows Hok Hce Hun) as (core' & res & Hrun & Hcont & Hres & _).
  unfold and_then. rewrite Hrun. cbn [mbind outcome_bind]. destruct res as [p|e].
  - eexists _, _. split; [reflexivity|]. split; [|done]. eapply continues_idle; [done|apply signal_idle].
  - exists core', (Err e). split; [done|]. split; [done|]. intros e' [= <-]. by apply Hres.
Qed.

Lemma continues_from sds sds' core core1 core2 :
  continues G sds' core1 core2 → sds `prefix_of` sds' → block_signer core1 = block_signer core → continues G sds core core2.
Proof.
  intros (G' & hist & sds2 & log & ? & ? & ? & ?) Hpre Hs. exists G', hist, sds2, log. split_and!; [done..| |congruence].
  by etrans.
Qed.

Lemma add_blocks_spec hist sds log core blocks nows :
  commit_ok ctx n G hist sds log core → core_env ctx byz (block_signer core) → unguessed G →
  (∀ b, b ∈ blocks → received core b) →
  ∃ core' res, add_blocks core blocks nows = Ret (core', res) ∧ continues G sds core core' ∧ only_shutdown res.
Proof.
  intros Hok Hce Hun Hin. unfold add_blocks.
  destruct (core_accept hist sds log core blocks Hok Hin) as (m & d & accepted & missing & -> & Hok1 & Hf1).
  cbn [mbind outcome_bind]. set (core1 := core <| block_manager := m |> <| dag_state := d |>) in *.
  destruct accepted as [|x accepted].
  { exists core1, (Ok missing). split; [done|]. split; [|done]. exists G, hist, sds, log. split; [constructor|done]. }
  destruct (try_commit_spec G HG (safe_bounded G Hrounds) Henv hist sds log core1 [] Hok1) as
    (core2 & sent & hist2 & log2 & Hcommit & Hok2 & Hf2 & _); [apply cert_ok_nil|].
  destruct (finish_spec hist2 _ log2 core2 missing nows Hok2) as (core3 & res & Hrun3 & Hcont & Hres); [by rewrite (fo_signer _ _ Hf2)|done|].
  exists core3, res. split; [|split; [eapply continues_from; [done|by apply prefix_app_r|apply Hf2]|done]].
  rewrite <- Hrun3. unfold and_then at 1. rewrite Hcommit. done.
Qed.

(** New certified commits are all committed. *)
Lemma add_certified_commits_spec hist sds log core commits new nows :
  commit_ok ctx n G hist sds log core → core_env ctx byz (block_signer core) → unguessed G →
  filter_new_commits core (certified_commits commits) = Ok new → cert_ok ctx n G sds core new →
  (∀ b, b ∈ certified_votes commits → received core b) →
  ∃ core' res sent, add_certified_commits core commits nows = Ret (core', res) ∧ continues G (sds ++ sent) core core' ∧
    only_shutdown res ∧ (length new ≤ length sent)%nat.
Proof.
  intros Hok Hce Hun Hnew Hcert Hin. unfold add_certified_commits. rewrite Hnew.
  destruct (core_accept hist sds log core _ Hok Hin) as (m & d & accepted & missing & -> & Hok1 & Hf1).
  cbn [mbind outcome_bind]. set (core1 := core <| block_manager := m |> <| dag_state := d |>) in *.
  destruct (try_commit_spec G HG (safe_bounded G Hrounds) Henv hist sds log core1 new Hok1) as
    (core2 & sent & hist2 & log2 & Hcommit & Hok2 & Hf2 & Hl).
  { replace sds with (sds ++ []) by apply app_nil_r. destruct Hf1 as [? ? ? ? ? _].
    apply (cert_ok_rest ctx n G sds core core core1 new 0); try done. intros b Hb. by apply elem_of_nil in Hb. }
  destruct (finish_spec hist2 _ log2 core2 missing nows Hok2) as (core3 & res & Hrun3 & Hcont & Hres); [by rewrite (fo_signer _ _ Hf2)|done|].
  exists core3, res, (plain <$> sent). split; [|split; [eapply continues_from; [done|done|apply Hf2]|by rewrite length_fmap]].
  rewrite <- Hrun3. unfold and_then at 1. rewrite Hcommit. done.
Qed.

Lemma check_block_refs_keeps hist sds log core refs :
  commit_ok ctx n G hist sds log core → (∀ r, r ∈ refs → is_valid_index c (br_author r) = true) →
  ∃ core' missing, check_block_refs core refs = Ret (core', Ok missing) ∧ commit_ok ctx n G hist sds log core' ∧
    block_signer core' = block_signer core.
Proof.
  intros Hok Hval. pose proof (cm_core _ _ _ _ _ _ _ Hok) as Hcore.
  destruct (try_find_blocks_exact ctx G (block_manager core) (dag_state core) log refs) as (m & missing & Hrun & Hm & Hs & _);
    [apply Hcore|apply Hcore|done|].
  unfold check_block_refs. rewrite Hrun. cbn [mbind outcome_bind]. eexists _, missing. split; [reflexivity|]. split; [|done].
  destruct Hok as [_ ? ? ? ? ? ? ? Hv ?]. split; try done.
  - destruct Hcore as [[] ? ?]. split; [by split|done|done].
  - intros Hf r. cbn. rewrite Hs. by apply Hv.
Qed.

Lemma check_block_refs_spec hist sds log core refs :
  commit_ok ctx n G hist sds log core → (∀ r, r ∈ refs → is_valid_index c (br_author r) = true) →
  ∃ core' res, check_block_refs core refs = Ret (core', res) ∧ continues G sds core core' ∧ only_shutdown res.
Proof.
  intros Hok Hval. destruct (check_block_refs_keeps hist sds log core refs Hok Hval) as (core' & missing & Hrun & Hok' & Hs).
  exists core', (Ok missing). split; [done|]. split; [|done]. exists G, hist, sds, log. split; [constructor|done].
Qed.
End Run.
End Ops.
