(* ===== verification/CoreThread.v ===== *)
(** The core thread: the commands and switches that reach the core, one after the other, and
    the dispatcher that sends them. Every event of a sound environment is handled, keeps the
    invariant of the core with its commits, and ends the thread only on shutdown. *)

From stdpp Require Import base tactics numbers list gmap sorting strings.
From coqutil Require Import Datatypes.RecordSettersUsingExistingGetters.
From S2P Require Import Prelude.
From S2P Require Import Committee.
From S2P Require Import Block.
From S2P Require Import StakeAggregator.
From S2P Require Import ThresholdClock.
From S2P Require Import Commit.
From S2P Require Import Store.
From S2P Require Import LeaderScoring.
From S2P Require Import DagState.
From S2P Require Import DagInvariant.
From S2P Require Import LeaderSchedule.
From S2P Require Import BaseCommitter.
From S2P Require Import CommitSafety.
From S2P Require Import UniversalCommitter.
From S2P Require Import Linearizer.
From S2P Require Import BlockVerifier.
From S2P Require Import BlockManager.
From S2P Require Import BlockOrigin.
From S2P Require Import TransactionConsumer.
From S2P Require Import CommitObserver.
From S2P Require Import QuorumScan.
From S2P Require Import RoundTracker.
From S2P Require Import Ancestor.
From S2P Require Import TransactionCertifier.
From S2P Require Import Core.
From S2P Require Import ProposalState.
From S2P Require Import Proposal.
From S2P Require Import CommitFinalizer.
From S2P Require Import FinalizerSafety.
From S2P Require Import Growth.
From S2P Require Import CoreInvariant.
From S2P Require Import ProposedBlock.
From S2P Require Import CommitProgress.
From S2P Require Import ScheduleProgress.
From S2P Require Import CommitFrame.
From S2P Require Import CoreCommit.
From S2P Require Import CoreRun.

Open Scope N_scope.

(** * Commands *)

(** The commands; the sender of the reply is the result of the handler. *)
Inductive CoreThreadCommand :=
| AddBlocks (blocks : list VerifiedBlock)
| CheckBlockRefs (block_refs : list BlockRef)
| AddCertifiedCommits (commits : CertifiedCommits)
| NewBlock (round : N) (force : bool)
| GetMissing.

Inductive Reply :=
| MissingBlockRefs (refs : gset BlockRef)
| NewBlockDone.

(** What wakes up the loop: a command, or a change of one of the watched values. *)
Inductive CoreThreadEvent :=
| CommandReceived (command : CoreThreadCommand)
| LastKnownProposedRoundChanged (round : N)
| SubscriberExistsChanged (exists_ : bool)
| PropagationDelayChanged (propagation_delay : N).

Section Thread.
Context {S : Type} `{Store S} `{LeaderRng} `{Crypto} `{CommitCodec}.
Implicit Types core : Core S.

Definition handle_command core (command : CoreThreadCommand) (nows : N * N) : core_result S Reply :=
  match command with
  | AddBlocks blocks =>
      let! (core, missing_block_refs) := add_blocks core blocks nows in Ret (core, Ok (MissingBlockRefs missing_block_refs))
  | CheckBlockRefs block_refs =>
      let! (core, missing_block_refs) := check_block_refs core block_refs in Ret (core, Ok (MissingBlockRefs missing_block_refs))
  | AddCertifiedCommits commits =>
      let! (core, missing_block_refs) := add_certified_commits core commits nows in
      Ret (core, Ok (MissingBlockRefs missing_block_refs))
  | NewBlock round force =>
      let! (core, _block) := new_block core round force nows in Ret (core, Ok NewBlockDone)
  | GetMissing => Ret (core, Ok (MissingBlockRefs (get_missing_blocks core)))
  end.

(** A block for any round, once the core may propose and could not before. *)
Definition propose_when_enabled (should_propose_before : bool) core (nows : N * N) : core_result S (option Reply) :=
  if negb should_propose_before && should_propose core
  then let! (core, _block) := new_block core u32_max true nows in Ret (core, Ok None)
  else Ret (core, Ok None).

Definition handle_event core (event : CoreThreadEvent) (nows : N * N) : core_result S (option Reply) :=
  match event with
  | CommandReceived command =>
      let! (core, reply) := handle_command core command nows in Ret (core, Ok (Some reply))
  | LastKnownProposedRoundChanged round =>
      core ← set_last_known_proposed_round core round;
      let! (core, _block) := new_block core (u32_add round 1) true nows in Ret (core, Ok None)
  | SubscriberExistsChanged exists_ =>
      let should_propose_before := should_propose core in
      propose_when_enabled should_propose_before (set_subscriber_exists core exists_) nows
  | PropagationDelayChanged propagation_delay =>
      let should_propose_before := should_propose core in
      propose_when_enabled should_propose_before (set_propagation_delay core propagation_delay) nows
  end.

(** The [loop]: the events until the channel of commands is closed, or an error. *)
Fixpoint core_thread_run core (events : list (CoreThreadEvent * (N * N)))
    : outcome (Core S * list Reply * ConsensusResult unit) :=
  match events with
  | [] => Ret (core, [], Ok tt)
  | (event, nows) :: events =>
      '(core, result) ← handle_event core event nows;
      match result with
      | Err e => Ret (core, [], Err e)
      | Ok reply =>
          '(core, replies, result) ← core_thread_run core events;
          Ret (core, option_list reply ++ replies, result)
      end
  end.

(** The task around the loop: any error but a shutdown is fatal. *)
Definition core_thread_task core (events : list (CoreThreadEvent * (N * N))) : outcome (Core S * list Reply) :=
  '(core, replies, result) ← core_thread_run core events;
  match result with
  | Ok _ | Err Shutdown => Ret (core, replies)
  | Err _ => Panic
  end.
End Thread.

(** * The dispatcher *)

(** The rounds it has received, by authority; what it sends are the events above. *)
Record ChannelCoreThreadDispatcher := mkChannelCoreThreadDispatcher {
  highest_received_rounds : list N;
}.

Section Dispatcher.
Context {S : Type} `{Store S}.

Definition dispatcher_start (context : Context) (d : DagState S) : outcome ChannelCoreThreadDispatcher :=
  rounds ← mapM (λ e : N * Authority, b ← get_last_block_for_authority d e.1; Ret (vb_round b))
             (Committee_enumerate (committee context));
  Ret (mkChannelCoreThreadDispatcher rounds).

(** [fetch_max] of the round of each block. *)
Definition receive_rounds (dispatcher : ChannelCoreThreadDispatcher) (blocks : list VerifiedBlock)
    : outcome ChannelCoreThreadDispatcher :=
  rounds ← foldM (λ rounds b, vec_max rounds (vb_author b) (vb_round b)) (highest_received_rounds dispatcher) blocks;
  Ret (mkChannelCoreThreadDispatcher rounds).

Definition dispatch_add_blocks (dispatcher : ChannelCoreThreadDispatcher) (blocks : list VerifiedBlock)
    : outcome (ChannelCoreThreadDispatcher * CoreThreadCommand) :=
  dispatcher ← receive_rounds dispatcher blocks;
  Ret (dispatcher, AddBlocks blocks).

Definition dispatch_add_certified_commits (dispatcher : ChannelCoreThreadDispatcher) (commits : CertifiedCommits)
    : outcome (ChannelCoreThreadDispatcher * CoreThreadCommand) :=
  dispatcher ← receive_rounds dispatcher (certified_commits commits ≫= cc_blocks);
  Ret (dispatcher, AddCertifiedCommits commits).
End Dispatcher.

(** Every authority keeps its highest round. *)
Lemma receive_rounds_spec dispatcher blocks :
  (∀ b, b ∈ blocks → (N.to_nat (vb_author b) < length (highest_received_rounds dispatcher))%nat) →
  ∃ rounds, receive_rounds dispatcher blocks = Ret (mkChannelCoreThreadDispatcher rounds) ∧
    length rounds = length (highest_received_rounds dispatcher) ∧
    ∀ i r, highest_received_rounds dispatcher !! i = Some r →
      rounds !! i = Some (foldr N.max r (vb_round <$> filter (λ b, N.to_nat (vb_author b) = i) blocks)).
Proof.
  unfold receive_rounds. generalize (highest_received_rounds dispatcher). clear dispatcher.
  induction blocks as [|b blocks IH]; intros rounds Hb.
  { exists rounds. split; [done|]. split; [done|]. intros i r Hr. done. }
  destruct (lookup_lt_is_Some_2 rounds (N.to_nat (vb_author b))) as [old Hold]; [apply Hb; left|].
  assert (vec_max rounds (vb_author b) (vb_round b) = Ret (<[N.to_nat (vb_author b) := N.max old (vb_round b)]> rounds)) as Hmax.
  { unfold vec_max. rewrite (proj2 (vec_get_Ret _ _ _) Hold). cbn [mbind outcome_bind]. unfold vec_set.
    rewrite decide_True; [done|]. by apply lookup_lt_Some in Hold. }
  cbn [foldM]. rewrite Hmax. cbn [mbind outcome_bind].
  destruct (IH (<[N.to_nat (vb_author b) := N.max old (vb_round b)]> rounds)) as (rounds' & Hrun & Hlen & Hr).
  { intros x Hx. rewrite length_insert. apply Hb. by right. }
  exists rounds'. split; [done|]. split; [by rewrite Hlen, length_insert|]. intros i r Hi.
  destruct (decide (N.to_nat (vb_author b) = i)) as [<-|Hne].
  - rewrite Hold in Hi. injection Hi as <-.
    rewrite (Hr _ (N.max old (vb_round b))) by (apply list_lookup_insert_eq; by apply lookup_lt_Some in Hold).
    rewrite filter_cons_True by done. f_equal. csimpl.
    induction (vb_round <$> filter _ blocks) as [|x l IHl]; cbn [foldr]; lia.
  - rewrite filter_cons_False by done. apply Hr. by rewrite list_lookup_insert_ne.
Qed.

(** * The events of a sound environment *)

Section Events.
Context {S : Type} `{StoreSpec S} `{LeaderRngSpec} `{Crypto} `{CommitCodec}.
Implicit Types core : Core S.
Context (ctx : Context) (byz : gset N) (n : N) (G : universe).
Let c := committee ctx.

(** What the rest of the validator guarantees of the events: blocks are verified and voted on,
    references are of the committee, certified commits continue those of the core, and the last
    proposed round is found out once. *)
Definition event_ok core (event : CoreThreadEvent) : Prop :=
  match event with
  | CommandReceived (AddBlocks blocks) => ∀ b, b ∈ blocks → received ctx G core b
  | CommandReceived (CheckBlockRefs refs) => ∀ r, r ∈ refs → is_valid_index c (br_author r) = true
  | CommandReceived (AddCertifiedCommits commits) =>
      ∃ new, filter_new_commits core (certified_commits commits) = Ok new ∧
        cert_ok ctx n G (plain <$> obs_sent (commit_observer core)) core new ∧
        ∀ b, b ∈ certified_votes commits → received ctx G core b
  | LastKnownProposedRoundChanged _ => last_known_proposed_round core = None
  | _ => True
  end.

Context (HG : honest_universe c byz G) (Hrounds : rounds_safe G) (Henv : chain_env ctx byz n) (Hun : unguessed ctx n G).

Lemma and_then_reply {A B} (m : core_result S A) (f : A → B) sds core core' res :
  m = Ret (core', res) → continues ctx byz n G sds core core' ∧ only_shutdown res →
  ∃ core' res, (let! (core, a) := m in Ret (core, Ok (f a))) = Ret (core', res) ∧
    continues ctx byz n G sds core core' ∧ only_shutdown res.
Proof.
  intros -> [Hc Hr]. unfold and_then. cbn [mbind outcome_bind]. destruct res as [a|e].
  - by exists core', (Ok (f a)).
  - exists core', (Err e). split; [done|]. split; [done|]. intros e' [= <-]. by apply Hr.
Qed.

Lemma continues_idle_l sds core core1 core2 :
  idle core core1 → continues ctx byz n G sds core1 core2 → continues ctx byz n G sds core core2.
Proof. intros [Hi] Hc. eapply continues_from; [done|done|]. by rewrite Hi. Qed.

Lemma enabled_spec hist sds log core core1 before nows :
  commit_ok ctx n G hist sds log core → core_env ctx byz (block_signer core) → idle core core1 →
  ∃ core' res, propose_when_enabled before core1 nows = Ret (core', res) ∧ continues ctx byz n G sds core core' ∧ only_shutdown res.
Proof.
  intros Hok Hce Hi. pose proof (commit_ok_idle _ _ _ _ _ _ _ _ Hok Hi) as Hok1.
  assert (block_signer core1 = block_signer core) as Hs by (destruct Hi as [->]; done).
  unfold propose_when_enabled. destruct (_ && _).
  - destruct (new_block_spec ctx byz n G HG Hrounds Henv hist sds log core1 u32_max true nows Hok1) as (core' & res & Hrun & Hres);
      [by rewrite Hs|done|].
    apply (and_then_reply _ (λ _, None) sds core core' res Hrun). destruct Hres. split; [|done]. by eapply continues_idle_l.
  - exists core1, (Ok None). split; [done|]. split; [|done]. exists G, hist, sds, log. split; [constructor|done].
Qed.

Lemma handle_command_spec hist sds log core command nows :
  commit_ok ctx n G hist sds log core → core_env ctx byz (block_signer core) → event_ok core (CommandReceived command) →
  ∃ core' res, handle_command core command nows = Ret (core', res) ∧ continues ctx byz n G sds core core' ∧ only_shutdown res.
Proof.
  intros Hok Hce Hev. destruct command as [blocks|refs|commits|round force|]; cbn [handle_command].
  - destruct (add_blocks_spec ctx byz n G HG Hrounds Henv hist sds log core blocks nows Hok Hce Hun Hev) as (core' & res & Hrun & Hres).
    by apply (and_then_reply _ MissingBlockRefs sds core core' res).
  - destruct (check_block_refs_spec ctx byz n G hist sds log core refs Hok Hev) as (core' & res & Hrun & Hres).
    by apply (and_then_reply _ MissingBlockRefs sds core core' res).
  - destruct Hev as (new & Hnew & Hcert & Hv). rewrite (cm_sent _ _ _ _ _ _ _ Hok) in Hcert.
    destruct (add_certified_commits_spec ctx byz n G HG Hrounds Henv hist sds log core commits new nows Hok Hce Hun Hnew Hcert Hv)
      as (core' & res & sent & Hrun & Hcont & Hres & _).
    apply (and_then_reply _ MissingBlockRefs sds core core' res); [done|]. split; [|done].
    eapply continues_from; [done|by apply prefix_app_r|done].
  - destruct (new_block_spec ctx byz n G HG Hrounds Henv hist sds log core round force nows Hok Hce Hun) as (core' & res & Hrun & Hres).
    by apply (and_then_reply _ (λ _, NewBlockDone) sds core core' res).
  - eexists _, _. split; [reflexivity|]. split; [|done]. exists G, hist, sds, log. split; [constructor|done].
Qed.

Lemma handle_event_spec hist sds log core event nows :
  commit_ok ctx n G hist sds log core → core_env ctx byz (block_signer core) → event_ok core event →
  ∃ core' res, handle_event core event nows = Ret (core', res) ∧ continues ctx byz n G sds core core' ∧ only_shutdown res.
Proof.
  intros Hok Hce Hev. destruct event as [command|round|exists_|delay]; cbn [handle_event].
  - destruct (handle_command_spec hist sds log core command nows Hok Hce Hev) as (core' & res & Hrun & Hres).
    by apply (and_then_reply _ Some sds core core' res).
  - unfold set_last_known_proposed_round. cbn in Hev. rewrite Hev. cbn [mbind outcome_bind].
    set (core1 := core <| last_known_proposed_round := Some round |>).
    assert (idle core core1) as Hi by (split; by destruct core).
    destruct (new_block_spec ctx byz n G HG Hrounds Henv hist sds log core1 (u32_add round 1) true nows) as (core' & res & Hrun & Hres);
      [by eapply commit_ok_idle|done|done|].
    apply (and_then_reply _ (λ _, None) sds core core' res Hrun). destruct Hres. split; [|done]. by eapply continues_idle_l.
  - eapply enabled_spec; [done|done|]. split. by destruct core.
  - eapply enabled_spec; [done|done|]. split. by destruct core.
Qed.
End Events.
