(* ===== verification/AuthorityService.v ===== *)
(** The network service of a validator (consensus/core/src/authority_service.rs): what it does
    with a block that a peer sends, and what it answers to requests for blocks, for commits and
    for its latest rounds, and the count of its subscribers. *)

From stdpp Require Import base tactics numbers list gmap sorting strings.
From coqutil Require Import Datatypes.RecordSettersUsingExistingGetters.
From S2P Require Import Prelude.
From S2P Require Import Committee.
From S2P Require Import Block.
From S2P Require Import StakeAggregator.
From S2P Require Import Commit.
From S2P Require Import Store.
From S2P Require Import DagState.
From S2P Require Import DagInvariant.
From S2P Require Import LeaderSchedule.
From S2P Require Import BaseCommitter.
From S2P Require Import CommitSafety.
From S2P Require Import BlockVerifier.
From S2P Require Import CommitVoteMonitor.
From S2P Require Import RoundTracker.
From S2P Require Import TransactionCertifier.
From S2P Require Import CommitSyncer.
From S2P Require Import Core.
From S2P Require Import CoreThread.

Open Scope N_scope.

(** * Data *)

Definition COMMIT_LAG_MULTIPLIER : N := 5.
Definition MAX_ADDITIONAL_BLOCKS : nat := 10.

(** The service; the core stands for the objects it shares with the core thread. What it asks
    the synchronizer to fetch is kept with the peer. *)
Record AuthorityService (S : Type) := mkAuthorityService {
  svc_core : Core S;
  svc_monitor : CommitVoteMonitor;
  svc_verifier : SignedBlockVerifier;
  svc_dispatcher : ChannelCoreThreadDispatcher;
  svc_fetch_requests : list (gset BlockRef * N);
}.
Arguments mkAuthorityService {S}.
Arguments svc_core {S}.
Arguments svc_monitor {S}.
Arguments svc_verifier {S}.
Arguments svc_dispatcher {S}.
Arguments svc_fetch_requests {S}.

Record ExtendedSerializedBlock := mkExtendedSerializedBlock {
  esb_block : list Byte.byte;
  esb_excluded_ancestors : list (list Byte.byte);
}.

(** * Blocks that peers send *)

Section Send.
Context {S : Type} `{Store S} `{LeaderRng} `{Crypto} `{CommitCodec} `{TransactionVerifier} `{Decoder}.
Implicit Types svc : AuthorityService S.

Definition svc_context svc : Context := core_context (svc_core svc).

(** A fetch in the background, unless nothing is missing. *)
Definition request_blocks svc (missing : gset BlockRef) (peer : N) : AuthorityService S :=
  if bool_decide (missing = ∅) then svc
  else svc <| svc_fetch_requests := svc_fetch_requests svc ++ [(missing, peer)] |>.

(** A command to the core thread and its reply; the error that ends the thread reaches the
    handler as a shutdown. *)
Definition dispatch svc (command : CoreThreadCommand) (nows : N * N) (peer : N)
    : outcome (AuthorityService S * ConsensusResult unit) :=
  '(core, reply) ← handle_command (svc_core svc) command nows;
  let svc := svc <| svc_core := core |> in
  match reply with
  | Ok (MissingBlockRefs missing) => Ret (request_blocks svc missing peer, Ok tt)
  | Ok NewBlockDone => Ret (svc, Ok tt)
  | Err _ => Ret (svc, Err Shutdown)
  end.

(** The references of excluded ancestors, or an error at the first that is malformed. *)
Definition decode_excluded (excluded : list (list Byte.byte)) : option (list BlockRef) := mapM decode_block_ref excluded.

(** The end of [handle_send_block]: the excluded ancestors. *)
Definition process_excluded (context : Context) svc (peer : N) (verified_block : VerifiedBlock) (excluded : list (list Byte.byte))
    (nows : N * N) : outcome (AuthorityService S * ConsensusResult unit) :=
  match decode_excluded excluded with
  | None => Ret (svc, Err MalformedBlock)
  | Some excluded_ancestors =>
      let c := committee context in
      let excluded_ancestors := take (N.to_nat (u64_mul (Committee_size c) 2)) excluded_ancestors in
      tracker ← update_from_accepted_block (round_tracker (svc_core svc)) (mkExtendedBlock verified_block excluded_ancestors);
      let svc := svc <| svc_core := (svc_core svc) <| round_tracker := tracker |> |> in
      _ ← foldM (λ _ r, _ ← Committee_authority c (br_author r); Ret tt) tt excluded_ancestors;
      dispatch svc (CheckBlockRefs excluded_ancestors) nows peer
  end.

Definition handle_send_block svc (peer : N) (serialized_block : ExtendedSerializedBlock) (nows : N * N)
    : outcome (AuthorityService S * ConsensusResult unit) :=
  let context := svc_context svc in
  _ ← Committee_authority (committee context) peer;
  match decode_signed_block (esb_block serialized_block) with
  | None => Ret (svc, Err MalformedBlock)
  | Some signed_block =>
      if negb (peer =? block_author (sb_inner signed_block))
      then Ret (svc, Err (UnexpectedAuthority (block_author (sb_inner signed_block)) peer))
      else
        verified ← verify_and_vote (svc_verifier svc) signed_block (esb_block serialized_block);
        match verified with
        | Err e => Ret (svc, Err e)
        | Ok (verified_block, reject_txn_votes) =>
            monitor ← observe_block (svc_monitor svc) verified_block;
            let svc := svc <| svc_monitor := monitor |> in
            let last_commit_index := last_commit_index (dag_state (svc_core svc)) in
            if u32_add last_commit_index (u32_mul (commit_sync_batch_size (parameters context)) COMMIT_LAG_MULTIPLIER)
               <? quorum_commit_index monitor
            then Ret (svc, Err (BlockRejected (reference verified_block)))
            else
              t ← (if mysticeti_fastpath (protocol_config context)
                   then certifier_add_voted_blocks (transaction_certifier (svc_core svc)) [(verified_block, reject_txn_votes)]
                   else Ret (transaction_certifier (svc_core svc)));
              let svc := svc <| svc_core := (svc_core svc) <| transaction_certifier := t |> |> in
              '(dispatcher, command) ← dispatch_add_blocks (svc_dispatcher svc) [verified_block];
              let svc := svc <| svc_dispatcher := dispatcher |> in
              '(svc, added) ← dispatch svc command nows peer;
              match added with
              | Err e => Ret (svc, Err e)
              | Ok _ => process_excluded context svc peer verified_block (esb_excluded_ancestors serialized_block) nows
              end
        end
  end.

Lemma unknown_hostname c refs r :
  r ∈ refs → is_valid_index c (br_author r) = false →
  foldM (λ _ r, _ ← Committee_authority c (br_author r); Ret tt) tt refs = Panic.
Proof.
  intros Hr Hv. induction refs as [|x refs IH]; [by apply elem_of_nil in Hr|]. cbn [foldM].
  apply elem_of_cons in Hr as [<-|Hr].
  - destruct (Committee_authority c (br_author r)) as [a|] eqn:Ha; [|done]. unfold Committee_authority in Ha.
    apply vec_get_Ret, lookup_lt_Some in Ha. unfold is_valid_index, Committee_size in Hv.
    apply bool_decide_eq_false in Hv. lia.
  - destruct (Committee_authority c (br_author x)); [|done]. by apply IH.
Qed.

(** C31. A peer can stop the handler of its blocks: when a block is processed, the same block sent
    with an excluded ancestor whose author is no authority of the committee makes the handler
    panic, since the authors of excluded ancestors are used as indices but not checked. *)
Theorem excluded_ancestor_panics svc peer block excluded refs r nows svc' :
  handle_send_block svc peer (mkExtendedSerializedBlock block []) nows = Ret (svc', Ok tt) →
  decode_excluded excluded = Some refs →
  r ∈ take (N.to_nat (u64_mul (Committee_size (committee (svc_context svc))) 2)) refs →
  is_valid_index (committee (svc_context svc)) (br_author r) = false →
  handle_send_block svc peer (mkExtendedSerializedBlock block excluded) nows = Panic.
Proof.
  intros Hok Hdec Hr Hv. unfold handle_send_block in *. cbn [esb_block esb_excluded_ancestors] in *.
  destruct (Committee_authority _ peer); [|done]. cbn [mbind outcome_bind] in *.
  destruct (decode_signed_block block) as [signed|]; [|done]. destruct (negb _); [done|].
  destruct (verify_and_vote _ _ _) as [verified|]; [|done]. cbn [mbind outcome_bind] in *.
  destruct verified as [[b rejects]|]; [|done]. destruct (observe_block _ _) as [monitor|]; [|done]. cbn [mbind outcome_bind] in *.
  destruct (_ <? _); [done|].
  destruct (if mysticeti_fastpath _ then _ else _) as [t|]; [|done]. cbn [mbind outcome_bind] in *.
  destruct (dispatch_add_blocks _ _) as [[dispatcher command]|]; [|done]. cbn [mbind outcome_bind] in *.
  destruct (dispatch _ command nows peer) as [[svc1 added]|]; [|done]. cbn [mbind outcome_bind] in *.
  destruct added as [u|]; [|done]. unfold process_excluded. rewrite Hdec.
  destruct (update_from_accepted_block _ _) as [tracker|]; [|done]. cbn [mbind outcome_bind].
  by rewrite (unknown_hostname _ _ r Hr Hv).
Qed.
End Send.

(** * Requests of peers *)

Definition flatten {A} (l : list (option A)) : list A := omap (λ o, o) l.
Definition serialize (blocks : list VerifiedBlock) : list (list Byte.byte) := vb_serialized <$> blocks.

(** The first [limit] references that are above what the peer has accepted; the iterator goes no
    further than the last of them. *)
Fixpoint take_unseen (highest_accepted_rounds : list N) (limit : nat) (refs : list BlockRef) : outcome (list BlockRef) :=
  match limit, refs with
  | O, _ | _, [] => Ret []
  | S n, r :: refs =>
      highest ← vec_get highest_accepted_rounds (br_author r);
      if highest <? br_round r
      then rest ← take_unseen highest_accepted_rounds n refs; Ret (r :: rest)
      else take_unseen highest_accepted_rounds limit refs
  end.

Section Serve.
Context {S : Type} `{Store S}.
Implicit Types d : DagState S.

(** The checks on the requested references, in order. *)
Definition check_requested (c : Committee) (block_refs : list BlockRef) : ConsensusResult unit :=
  match for_loop (λ (_ : unit) r,
          if negb (is_valid_index c (br_author r)) then inr (InvalidAuthorityIndex (br_author r) (Committee_size c))
          else if br_round r =? GENESIS_ROUND then inr UnexpectedGenesisBlockRequested else inl tt) tt block_refs with
  | inl _ => Ok tt
  | inr e => Err e
  end.

Definition check_rounds (c : Committee) (highest_accepted_rounds : list N) : ConsensusResult unit :=
  let provided := N.of_nat (length highest_accepted_rounds) in
  if negb (provided =? 0) && negb (provided =? Committee_size c)
  then Err (InvalidSizeOfHighestAcceptedRounds provided (Committee_size c)) else Ok tt.

Definition get_known d (block_refs : list BlockRef) : outcome (list VerifiedBlock) :=
  blocks ← DagState.get_blocks d block_refs; Ret (flatten blocks).

(** The ancestors of the blocks that are above what the peer has accepted. *)
Definition unseen_ancestors (highest_accepted_rounds : list N) (blocks : list VerifiedBlock) : outcome (list BlockRef) :=
  refs ← mapM (λ r : BlockRef, highest ← vec_get highest_accepted_rounds (br_author r); Ret (highest <? br_round r, r))
           (blocks ≫= vb_ancestors);
  Ret (snd <$> filter (λ x : bool * BlockRef, x.1 = true) refs).

Definition handle_fetch_blocks_old d (context : Context) (block_refs : list BlockRef) (highest_accepted_rounds : list N)
    : outcome (ConsensusResult (list (list Byte.byte))) :=
  let block_refs := take (N.to_nat (max_blocks_per_fetch (parameters context))) block_refs in
  let? _ := Ret (check_rounds (committee context) highest_accepted_rounds) in
  let? _ := Ret (check_requested (committee context) block_refs) in
  blocks ← get_known d block_refs;
  ancestor_blocks ←
    (match highest_accepted_rounds with
     | [] => Ret []
     | _ => all_ancestors ← take_unseen highest_accepted_rounds MAX_ADDITIONAL_BLOCKS (blocks ≫= vb_ancestors);
            get_known d all_ancestors
     end);
  Ret (Ok (serialize (blocks ++ ancestor_blocks))).

(** [sort] and [dedup]. *)
Definition sorted_refs (block_refs : list BlockRef) : list BlockRef :=
  set_iter BlockRef_leb (list_to_set block_refs).

(** The lowest round of each author. *)
Definition lowest_rounds (blocks : list VerifiedBlock) : gmap N N :=
  foldl (λ m b, <[vb_author b := match m !! vb_author b with Some r => N.min r (vb_round b) | None => vb_round b end]> m) ∅ blocks.

(** The loop that adds cached blocks below the requested ones; the response stops at [limit]. *)
Fixpoint add_earlier d (highest_accepted_rounds : list N) (limit : N) (blocks : list VerifiedBlock)
    (lowest_missing_rounds : list (N * N)) : outcome (list VerifiedBlock) :=
  match lowest_missing_rounds with
  | [] => Ret blocks
  | (authority, lowest_missing_round) :: rest =>
      highest_accepted_round ← vec_get highest_accepted_rounds authority;
      if lowest_missing_round <=? highest_accepted_round then add_earlier d highest_accepted_rounds limit blocks rest
      else
        missing_blocks ← get_cached_blocks_in_range d authority (u32_add highest_accepted_round 1) lowest_missing_round
                           (saturating_sub limit (N.of_nat (length blocks)));
        let blocks := blocks ++ missing_blocks in
        if limit <=? N.of_nat (length blocks) then Ret (take (N.to_nat limit) blocks)
        else add_earlier d highest_accepted_rounds limit blocks rest
  end.

(** The blocks of a batched response of at most [limit] blocks; [choose] is the random choice of
    some of the references. *)
Definition blocks_to_serve d (context : Context) (choose : list BlockRef → N → list BlockRef) (limit : N)
    (block_refs : list BlockRef) (highest_accepted_rounds : list N) (breadth_first : bool) : outcome (list VerifiedBlock) :=
  match highest_accepted_rounds with
  | [] => get_known d block_refs
  | _ =>
      blocks ← get_known d (sorted_refs block_refs);
      if breadth_first then
        unseen ← unseen_ancestors highest_accepted_rounds blocks;
        let missing_ancestors := sorted_refs unseen in
        let selected_num_blocks := saturating_sub limit (N.of_nat (length blocks)) in
        let missing_ancestors :=
          if selected_num_blocks <? N.of_nat (length missing_ancestors)
          then choose missing_ancestors selected_num_blocks else missing_ancestors in
        ancestor_blocks ← get_known d missing_ancestors;
        Ret (blocks ++ ancestor_blocks)
      else
        add_earlier d highest_accepted_rounds (max_blocks_per_sync (parameters context)) blocks
          (map_iter N.leb (lowest_rounds blocks))
  end.

Definition max_response_num_blocks (context : Context) (highest_accepted_rounds : list N) : N :=
  match highest_accepted_rounds with
  | [] => max_blocks_per_fetch (parameters context)
  | _ => max_blocks_per_sync (parameters context)
  end.

(** [batched] is the protocol flag [consensus_batched_block_sync]. *)
Definition handle_fetch_blocks d (context : Context) (batched : bool) (choose : list BlockRef → N → list BlockRef)
    (block_refs : list BlockRef) (highest_accepted_rounds : list N) (breadth_first : bool)
    : outcome (ConsensusResult (list (list Byte.byte))) :=
  if negb batched then handle_fetch_blocks_old d context block_refs highest_accepted_rounds
  else
    let? _ := Ret (check_rounds (committee context) highest_accepted_rounds) in
    let limit := max_response_num_blocks context highest_accepted_rounds in
    let block_refs := take (N.to_nat limit) block_refs in
    let? _ := Ret (check_requested (committee context) block_refs) in
    blocks ← blocks_to_serve d context choose limit block_refs highest_accepted_rounds breadth_first;
    Ret (Ok (serialize blocks)).

(** The loop over the commits from the last one down, until one has a quorum of votes. *)
Fixpoint certified_commits_of (c : Committee) (store : S) (reversed : list TrustedCommit)
    : outcome (list TrustedCommit * list BlockRef) :=
  match reversed with
  | [] => Ret ([], [])
  | commit :: rest =>
      votes ← store_read_commit_votes store (tc_index commit);
      agg ← foldM (λ agg v, '(agg, _) ← agg_add QuorumThreshold agg (br_author v) c; Ret agg) StakeAggregator_new votes;
      if reached_threshold QuorumThreshold agg c then Ret (reverse reversed, votes)
      else certified_commits_of c store rest
  end.

Definition handle_fetch_commits (context : Context) (store : S) (commit_range : CommitRange)
    : outcome (list TrustedCommit * list VerifiedBlock) :=
  let inclusive_end :=
    N.min (CommitRange_end commit_range)
      (u32_sub (u32_add (CommitRange_start commit_range) (commit_sync_batch_size (parameters context))) 1) in
  commits ← store_scan_commits store (CommitRange_new (CommitRange_start commit_range) inclusive_end);
  '(commits, certifier_block_refs) ← certified_commits_of (committee context) store (reverse commits);
  certifier_blocks ← store_read_blocks store certifier_block_refs;
  Ret (commits, flatten certifier_blocks).

Definition handle_fetch_latest_blocks d (context : Context) (peer : N) (authorities : list N)
    : outcome (ConsensusResult (list (list Byte.byte))) :=
  let c := committee context in
  if Committee_size c <? N.of_nat (length authorities) then Ret (Err (TooManyAuthoritiesProvided peer))
  else
    match for_loop (λ (_ : unit) a,
            if negb (is_valid_index c a) then inr (InvalidAuthorityIndex a (Committee_size c)) else inl tt) tt authorities with
    | inr e => Ret (Err e)
    | inl _ =>
        blocks ← mapM (get_last_block_for_authority d) authorities;
        Ret (Ok (serialize (filter (λ b, vb_round b ≠ GENESIS_ROUND) blocks)))
    end.

(** The rounds received and accepted, by authority. *)
Definition handle_get_latest_rounds d (context : Context) (dispatcher : ChannelCoreThreadDispatcher)
    : outcome (list N * list N) :=
  blocks ← get_last_cached_block_per_authority d u32_max;
  let highest_accepted_rounds := (λ x : VerifiedBlock * list BlockRef, vb_round x.1) <$> blocks in
  own ← vec_get highest_accepted_rounds (own_index context);
  highest_received_rounds ← vec_set (highest_received_rounds dispatcher) (own_index context) own;
  Ret (highest_received_rounds, highest_accepted_rounds).

(** The blocks that a new subscriber has missed; those that are broadcast later follow. *)
Definition missed_blocks d (context : Context) (last_received : N) : outcome (list ExtendedSerializedBlock) :=
  blocks ← get_cached_blocks d (own_index context) (u32_add last_received 1);
  Ret ((λ s, mkExtendedSerializedBlock s []) <$> serialize blocks).
End Serve.

(** * Subscriptions *)

Record SubscriptionCounter := mkSubscriptionCounter {
  sub_count : N;
  subscriptions_by_authority : list N;
}.

Definition SubscriptionCounter_new (context : Context) : SubscriptionCounter :=
  mkSubscriptionCounter 0 (replicate (N.to_nat (Committee_size (committee context))) 0).

(** The counter after a subscription starts or ends, and what is sent to the core. *)
Definition increment (context : Context) (s : SubscriptionCounter) (peer : N) : outcome (SubscriptionCounter * option bool) :=
  let count := u64_add (sub_count s) 1 in
  n ← vec_get (subscriptions_by_authority s) peer;
  by_authority ← vec_set (subscriptions_by_authority s) peer (u64_add n 1);
  _ ← Committee_authority (committee context) peer;
  Ret (mkSubscriptionCounter count by_authority, if count =? 1 then Some true else None).

Definition decrement (context : Context) (s : SubscriptionCounter) (peer : N) : outcome (SubscriptionCounter * option bool) :=
  let count := u64_sub (sub_count s) 1 in
  n ← vec_get (subscriptions_by_authority s) peer;
  by_authority ← vec_set (subscriptions_by_authority s) peer (u64_sub n 1);
  _ ← (if u64_sub n 1 =? 0 then _ ← Committee_authority (committee context) peer; Ret tt else Ret tt);
  Ret (mkSubscriptionCounter count by_authority, if count =? 0 then Some false else None).

(** * What is served *)

Section Served.
Context {S : Type} `{StoreSpec S} (context : Context) (d : DagState S).
Context (Hd : view_ok d) (Hctx : dag_committee d = committee context).
Let c := committee context.

(** Blocks that the validator has. *)
Definition all_known (blocks : list VerifiedBlock) : Prop := ∀ b, b ∈ blocks → block_in (dag_lookup d) b.

Lemma all_known_app l k : all_known (l ++ k) ↔ all_known l ∧ all_known k.
Proof. unfold all_known. setoid_rewrite elem_of_app. naive_solver. Qed.

Lemma known_author r b : dag_lookup d r = Some b → br_round r ≠ 0 → is_valid_index c (br_author r) = true.
Proof.
  intros Hb Hr. pose proof (vo_wf _ Hd) as Hwf. unfold c. rewrite <- Hctx. unfold dag_lookup in Hb.
  destruct (N.eqb_spec (br_round r) GENESIS_ROUND) as [|_]; [done|].
  destruct (ds_recent_blocks d !! r) as [i|] eqn:Hi; [by apply (dwf_recent d Hwf r i)|by apply (dwf_store d Hwf r b)].
Qed.

Lemma known_ref r b : dag_lookup d r = Some b → reference b = r.
Proof. apply (u_ref _ _ (vo_universe _ Hd)). Qed.

Lemma get_known_spec refs : get_known d refs = Ret (omap (dag_lookup d) refs).
Proof.
  unfold get_known. rewrite get_blocks_lookup. cbn [mbind outcome_bind]. f_equal. unfold flatten.
  induction refs as [|r refs IH]; [done|]. csimpl. destruct (dag_lookup d r); cbn; by rewrite IH.
Qed.

Lemma omap_known refs : all_known (omap (dag_lookup d) refs).
Proof. intros b (r & _ & Hr)%list_elem_of_omap. unfold block_in. by rewrite (known_ref r b Hr). Qed.

Lemma cached_range_spec a lo hi limit :
  is_valid_index c a = true →
  ∃ blocks, get_cached_blocks_in_range d a lo hi limit = Ret blocks ∧ all_known blocks ∧ N.of_nat (length blocks) ≤ limit.
Proof.
  intros Ha. pose proof (vo_wf _ Hd) as Hwf. unfold get_cached_blocks_in_range.
  destruct (_ || _); [exists []; split; [done|]; split; [by intros b ?%elem_of_nil|cbn; lia]|].
  unfold c in Ha. rewrite <- Hctx in Ha. destruct (recent_refs_at d a Hwf Ha) as (refs & -> & _ & Hrefs). cbn [mbind outcome_bind].
  set (range := filter _ _). assert (∀ r, r ∈ take_limit limit range → is_Some (ds_recent_blocks d !! r)) as Hin.
  { intros r Hr. unfold take_limit in Hr. apply elem_of_take in Hr as (i & Hi & _). apply list_elem_of_lookup_2 in Hi.
    apply list_elem_of_filter in Hi as [_ Hi%elem_of_set_iter]. by apply Hrefs. }
  assert (∃ blocks, mapM (λ r, info ← expect (ds_recent_blocks d !! r); Ret (bi_block info)) (take_limit limit range) = Ret blocks ∧
    all_known blocks ∧ length blocks = length (take_limit limit range)) as (blocks & -> & Hk & Hl).
  { revert Hin. induction (take_limit limit range) as [|r l IH]; intros Hin; [exists []; split; [done|]; split; [by intros b ?%elem_of_nil|done]|].
    destruct (Hin r (list_elem_of_here _ _)) as [i Hi]. destruct IH as (bs & Hbs & Hk & Hl); [intros x Hx; apply Hin; by right|].
    exists (bi_block i :: bs). cbn [mapM]. rewrite Hi. cbn [expect mbind outcome_bind]. rewrite Hbs. split; [done|]. cbn. split; [|lia].
    intros b [-> |Hb]%elem_of_cons; [|by apply Hk]. unfold block_in.
    destruct (dwf_recent d Hwf r i Hi) as [-> _]. apply dag_lookup_recent; [apply Hwf|done]. }
  exists blocks. split; [done|]. split; [done|]. rewrite Hl. unfold take_limit. rewrite length_take. lia.
Qed.

Lemma known_round (rounds : list N) blocks r :
  N.of_nat (length rounds) = Committee_size c → all_known blocks → r ∈ (blocks ≫= vb_ancestors) →
  ∃ x, vec_get rounds (br_author r) = Ret x.
Proof.
  intros Hlen Hk (b & Hr & Hb)%list_elem_of_bind. pose proof (vo_authors _ Hd b r (Hk b Hb) Hr) as Hv.
  rewrite Hctx in Hv. unfold is_valid_index in Hv. apply bool_decide_eq_true in Hv. fold c in Hv.
  destruct (lookup_lt_is_Some_2 rounds (N.to_nat (br_author r))) as [x Hx]; [lia|]. exists x. unfold vec_get. by rewrite Hx.
Qed.

Lemma unseen_ancestors_spec rounds blocks :
  N.of_nat (length rounds) = Committee_size c → all_known blocks →
  ∃ refs, unseen_ancestors rounds blocks = Ret refs.
Proof.
  intros Hlen Hk. unfold unseen_ancestors.
  rewrite (mapM_Ret _ (λ r, (default 0 (rounds !! N.to_nat (br_author r)) <? br_round r, r))); [by eexists|].
  intros r Hr. destruct (known_round rounds blocks r Hlen Hk Hr) as [x Hx]. rewrite Hx.
  unfold vec_get in Hx. by destruct (rounds !! _); simplify_eq/=.
Qed.

Lemma take_unseen_spec (rounds : list N) limit refs :
  (∀ r, r ∈ refs → ∃ x, vec_get rounds (br_author r) = Ret x) →
  ∃ unseen, take_unseen rounds limit refs = Ret unseen ∧ (length unseen ≤ limit)%nat.
Proof.
  revert limit. induction refs as [|r refs IH]; intros [|limit] Hr; cbn [take_unseen]; try (exists []; split; [done|cbn; lia]).
  destruct (Hr r (list_elem_of_here _ _)) as [x ->]. cbn [mbind outcome_bind].
  assert (∀ r, r ∈ refs → ∃ x, vec_get rounds (br_author r) = Ret x) as Hrest by (intros y Hy; apply Hr; by right).
  destruct (x <? br_round r); [|by apply IH].
  destruct (IH limit Hrest) as (l & -> & Hl). cbn [mbind outcome_bind]. eexists. split; [done|]. cbn. lia.
Qed.

Lemma add_earlier_spec rounds limit blocks lowest :
  N.of_nat (length rounds) = Committee_size c → all_known blocks → N.of_nat (length blocks) ≤ limit →
  (∀ a r, (a, r) ∈ lowest → is_valid_index c a = true) →
  ∃ blocks', add_earlier d rounds limit blocks lowest = Ret blocks' ∧ all_known blocks' ∧ blocks `prefix_of` blocks' ∧
    N.of_nat (length blocks') ≤ limit.
Proof.
  intros Hlen. revert blocks. induction lowest as [|[a low] lowest IH]; intros blocks Hk Hl Hv; cbn [add_earlier].
  { by exists blocks. }
  pose proof (Hv a low (list_elem_of_here _ _)) as Ha. pose proof Ha as Hlt. unfold is_valid_index in Hlt.
  apply bool_decide_eq_true in Hlt. destruct (lookup_lt_is_Some_2 rounds (N.to_nat a)) as [x Hx]; [lia|].
  unfold vec_get. rewrite Hx. cbn [expect mbind outcome_bind].
  assert (∀ a r, (a, r) ∈ lowest → is_valid_index c a = true) as Hv' by (intros y r Hy; apply (Hv y r); by right).
  destruct (low <=? x); [by apply IH|].
  destruct (cached_range_spec a (u32_add x 1) low (saturating_sub limit (N.of_nat (length blocks))) Ha) as (new & -> & Hnew & Hln).
  cbn [mbind outcome_bind]. assert (all_known (blocks ++ new)) as Hk' by by apply all_known_app.
  destruct (N.leb_spec limit (N.of_nat (length (blocks ++ new)))) as [Hfull|Hroom].
  - exists (take (N.to_nat limit) (blocks ++ new)). split; [done|]. split; [|split].
    + intros b (i & Hi & _)%elem_of_take. by eapply Hk', list_elem_of_lookup_2.
    + rewrite take_app_ge by lia. by apply prefix_app_r.
    + rewrite length_take. lia.
  - destruct (IH (blocks ++ new)) as (bs & Hrun & Hbs & Hpre & Hlb); [done|lia|done|]. exists bs. split; [done|]. split; [done|].
    split; [|done]. etrans; [by apply prefix_app_r|done].
Qed.

Lemma check_requested_spec refs :
  check_requested c refs = Ok tt ↔ ∀ r, r ∈ refs → is_valid_index c (br_author r) = true ∧ br_round r ≠ 0.
Proof.
  unfold check_requested. induction refs as [|r refs IH]; cbn [for_loop].
  { split; [intros _ r ?%elem_of_nil; done|done]. }
  setoid_rewrite elem_of_cons. destruct (is_valid_index c (br_author r)) eqn:Hv; cbn [negb].
  - destruct (N.eqb_spec (br_round r) GENESIS_ROUND) as [Hr|Hr]; [split; [done|intros Hall; destruct (Hall r) as [_ ?]; [by left|done]]|].
    rewrite IH. split; [intros Hall x [-> |Hx]; [done|by apply Hall]|naive_solver].
  - split; [done|]. intros Hall. destruct (Hall r); [by left|congruence].
Qed.

Lemma elem_of_sorted_refs r l : r ∈ sorted_refs l ↔ r ∈ l.
Proof. unfold sorted_refs. by rewrite elem_of_set_iter, elem_of_list_to_set. Qed.

Lemma sorted_refs_length l : (length (sorted_refs l) ≤ length l)%nat.
Proof.
  apply submseteq_length, NoDup_submseteq; [apply NoDup_set_iter|]. intros r. by rewrite elem_of_sorted_refs.
Qed.

Lemma omap_length_le {A B} (f : A → option B) (l : list A) : (length (omap f l) ≤ length l)%nat.
Proof. induction l as [|x l IH]; csimpl; [done|]. destruct (f x); cbn; lia. Qed.

(** A response of at most [limit] blocks that the validator has, with those of the requested ones
    that it has. *)
Record response_ok (limit : N) (refs : list BlockRef) (bytes : list (list Byte.byte)) : Prop := {
  rs_length : N.of_nat (length bytes) ≤ limit;
  rs_known : ∀ s, s ∈ bytes → ∃ b, block_in (dag_lookup d) b ∧ vb_serialized b = s;
  rs_requested : ∀ r b, r ∈ refs → dag_lookup d r = Some b → vb_serialized b ∈ bytes;
}.

Lemma serialize_ok limit refs blocks :
  N.of_nat (length blocks) ≤ limit → all_known blocks → (∀ r b, r ∈ refs → dag_lookup d r = Some b → b ∈ blocks) →
  response_ok limit refs (serialize blocks).
Proof.
  intros Hl Hk Hr. unfold serialize. split.
  - by rewrite length_fmap.
  - intros x (b & -> & Hb)%list_elem_of_fmap. exists b. split; [by apply Hk|done].
  - intros r b Hin Hb. apply list_elem_of_fmap_2. by eapply Hr.
Qed.

Lemma lowest_rounds_author blocks a r : lowest_rounds blocks !! a = Some r → ∃ b, b ∈ blocks ∧ vb_author b = a.
Proof.
  unfold lowest_rounds. revert r. induction blocks as [|b blocks IH] using rev_ind; intros r; [done|].
  rewrite foldl_snoc. set (m := foldl _ _ _) in *. intros [[<- _]|[_ Hm]]%lookup_insert_Some.
  - exists b. split; [set_solver|done].
  - destruct (IH r Hm) as (x & Hx & ?). exists x. split; [set_solver|done].
Qed.

Lemma blocks_to_serve_spec choose limit refs rounds breadth_first :
  (∀ l k, N.of_nat (length (choose l k)) ≤ k) → (rounds = [] ∨ N.of_nat (length rounds) = Committee_size c) →
  (rounds ≠ [] → limit = max_blocks_per_sync (parameters context)) → N.of_nat (length refs) ≤ limit →
  (∀ r, r ∈ refs → is_valid_index c (br_author r) = true ∧ br_round r ≠ 0) →
  ∃ blocks, blocks_to_serve d context choose limit refs rounds breadth_first = Ret blocks ∧ response_ok limit refs (serialize blocks) ∧
    (rounds = [] → blocks = omap (dag_lookup d) refs).
Proof.
  intros Hchoose Hrounds Hlimit Hlen Hval. unfold blocks_to_serve.
  assert (∀ refs' : list BlockRef, (∀ r, r ∈ refs → r ∈ refs') → (length refs' ≤ length refs)%nat →
    N.of_nat (length (omap (dag_lookup d) refs')) ≤ limit ∧
    ∀ r b, r ∈ refs → dag_lookup d r = Some b → b ∈ omap (dag_lookup d) refs') as Hfound.
  { intros refs' Hsub Hl. pose proof (omap_length_le (dag_lookup d) refs'). split; [lia|].
    intros r b Hr Hb. apply list_elem_of_omap. exists r. by split; [apply Hsub|]. }
  destruct rounds as [|r0 rounds].
  { rewrite get_known_spec. eexists. split; [done|]. destruct (Hfound refs) as [H1 H2]; [done..|].
    split; [|done]. apply serialize_ok; [done|apply omap_known|done]. }
  destruct Hrounds as [|Hrounds]; [done|]. rewrite get_known_spec. cbn [mbind outcome_bind].
  destruct (Hfound (sorted_refs refs)) as [H1 H2]; [intros r; by rewrite elem_of_sorted_refs|apply sorted_refs_length|].
  pose proof (omap_known (sorted_refs refs)) as Hk. set (blocks := omap _ _) in *. destruct breadth_first.
  - destruct (unseen_ancestors_spec (r0 :: rounds) blocks Hrounds Hk) as (unseen & ->). cbn [mbind outcome_bind].
    match goal with |- context [get_known d ?x] => set (chosen := x) end. rewrite get_known_spec. eexists. split; [done|].
    split; [|done]. apply serialize_ok; [|apply all_known_app; split; [done|apply omap_known]|intros r b Hr Hb; apply elem_of_app; left; by eapply H2].
    assert (N.of_nat (length chosen) ≤ limit - N.of_nat (length blocks)) as Hch.
    { unfold chosen, saturating_sub. destruct (N.ltb_spec (limit - N.of_nat (length blocks)) (N.of_nat (length (sorted_refs unseen)))); [apply Hchoose|done]. }
    rewrite length_app. pose proof (omap_length_le (dag_lookup d) chosen). lia.
  - rewrite <- (Hlimit ltac:(done)).
    destruct (add_earlier_spec (r0 :: rounds) limit blocks (map_iter N.leb (lowest_rounds blocks)) Hrounds Hk H1) as
      (bs & -> & Hbs & [k ->] & Hlb).
    { intros a r Ha%elem_of_map_iter. destruct (lowest_rounds_author blocks a r Ha) as (b & Hb & <-).
      apply list_elem_of_omap in Hb as (x & Hx & Hxb). rewrite elem_of_sorted_refs in Hx.
      rewrite <- reference_author, (known_ref x b Hxb). apply (Hval x Hx). }
    eexists. split; [done|]. split; [|done]. apply serialize_ok; [done|done|]. intros r b Hr Hb. apply elem_of_app. left. by eapply H2.
Qed.

Lemma check_rounds_spec rounds : check_rounds c rounds = Ok tt ↔ rounds = [] ∨ N.of_nat (length rounds) = Committee_size c.
Proof.
  unfold check_rounds. destruct rounds as [|r rounds]; [split; [by left|done]|].
  destruct (N.eqb_spec (N.of_nat (length (r :: rounds))) 0) as [|_]; [done|]. cbn [negb andb].
  destruct (N.eqb_spec (N.of_nat (length (r :: rounds))) (Committee_size c)); cbn [negb]; naive_solver.
Qed.

Lemma handle_fetch_blocks_old_spec refs rounds :
  let limit := max_blocks_per_fetch (parameters context) in
  ∃ res, handle_fetch_blocks_old d context refs rounds = Ret res ∧
    match res with
    | Ok bytes => response_ok (limit + 10) (take (N.to_nat limit) refs) bytes ∧
        (rounds = [] → bytes = serialize (omap (dag_lookup d) (take (N.to_nat limit) refs)))
    | Err _ => ¬ (rounds = [] ∨ N.of_nat (length rounds) = Committee_size c) ∨
        ¬ ∀ r, r ∈ take (N.to_nat limit) refs → is_valid_index c (br_author r) = true ∧ br_round r ≠ 0
    end.
Proof.
  intros limit. unfold handle_fetch_blocks_old. fold limit. set (refs' := take (N.to_nat limit) refs). fold c.
  pose proof (check_rounds_spec rounds) as Hrounds. destruct (check_rounds c rounds) as [[]|e]; cbn [try_bind mbind outcome_bind].
  2: { eexists. split; [done|]. left. by intros Hr%Hrounds. }
  pose proof (check_requested_spec refs') as Hval. destruct (check_requested c refs') as [[]|e]; cbn [mbind outcome_bind].
  2: { eexists. split; [done|]. right. by intros Hr%Hval. }
  destruct Hrounds as [Hrounds _]. specialize (Hrounds eq_refl). rewrite get_known_spec. cbn [mbind outcome_bind].
  pose proof (omap_known refs') as Hk. set (blocks := omap _ refs') in *.
  assert (N.of_nat (length blocks) ≤ limit) as Hl.
  { pose proof (omap_length_le (dag_lookup d) refs') as Hle. unfold refs' in Hle at 2. rewrite length_take in Hle. fold blocks in Hle. lia. }
  assert (∀ r b, r ∈ refs' → dag_lookup d r = Some b → b ∈ blocks) as Hfound.
  { intros r b Hr Hb. apply list_elem_of_omap. by exists r. }
  destruct rounds as [|r0 rounds].
  - cbn [mbind outcome_bind]. eexists. split; [done|]. rewrite app_nil_r. split; [|done]. apply serialize_ok; [lia|done|done].
  - destruct Hrounds as [|Hrounds]; [done|].
    destruct (take_unseen_spec (r0 :: rounds) MAX_ADDITIONAL_BLOCKS (blocks ≫= vb_ancestors)) as (unseen & -> & Hun).
    { intros r. by apply known_round. }
    cbn [mbind outcome_bind].
    rewrite get_known_spec. cbn [mbind outcome_bind]. eexists. split; [done|]. split; [|done]. apply serialize_ok.
    + rewrite length_app. pose proof (omap_length_le (dag_lookup d) unseen) as Hle. unfold MAX_ADDITIONAL_BLOCKS in *. lia.
    + apply all_known_app. split; [done|apply omap_known].
    + intros r b Hr Hb. apply elem_of_app. left. by eapply Hfound.
Qed.

(** C20. No request for blocks harms the validator that serves it: whatever references, rounds
    and mode a peer sends, the handler returns without a panic, and an error means that the request
    is malformed. Only the first references are served, up to the configured number of blocks. A
    response holds at most that number of blocks, in the older protocol without batches at most ten
    more; each is one that the validator has, and all served references that it has are among them.
    Without rounds, as the commit syncer asks, the response is exactly these, in the order of the
    request. *)
Theorem fetch_blocks_response (batched : bool) (choose : list BlockRef → N → list BlockRef) refs rounds breadth_first :
  (∀ l k, N.of_nat (length (choose l k)) ≤ k) →
  let limit := if batched then max_response_num_blocks context rounds else max_blocks_per_fetch (parameters context) in
  ∃ res, handle_fetch_blocks d context batched choose refs rounds breadth_first = Ret res ∧
    match res with
    | Ok bytes => response_ok (if batched then limit else limit + 10) (take (N.to_nat limit) refs) bytes ∧
        (rounds = [] → bytes = serialize (omap (dag_lookup d) (take (N.to_nat limit) refs)))
    | Err _ => ¬ (rounds = [] ∨ N.of_nat (length rounds) = Committee_size c) ∨
        ¬ ∀ r, r ∈ take (N.to_nat limit) refs → is_valid_index c (br_author r) = true ∧ br_round r ≠ 0
    end.
Proof.
  intros Hchoose limit. unfold handle_fetch_blocks. destruct batched; cbn [negb]; [|by apply handle_fetch_blocks_old_spec].
  fold c limit. set (refs' := take (N.to_nat limit) refs).
  pose proof (check_rounds_spec rounds) as Hrounds. destruct (check_rounds c rounds) as [[]|e]; cbn [try_bind mbind outcome_bind].
  2: { eexists. split; [done|]. left. by intros Hr%Hrounds. }
  pose proof (check_requested_spec refs') as Hval. destruct (check_requested c refs') as [[]|e]; cbn [mbind outcome_bind].
  2: { eexists. split; [done|]. right. by intros Hr%Hval. }
  destruct (blocks_to_serve_spec choose limit refs' rounds breadth_first Hchoose) as (blocks & -> & Hok & Hexact); [by apply Hrounds|..].
  - unfold limit, max_response_num_blocks. by destruct rounds.
  - unfold refs'. rewrite length_take. lia.
  - by apply Hval.
  - cbn [mbind outcome_bind]. eexists. split; [done|]. split; [done|]. intros Hr. by rewrite Hexact.
Qed.
End Served.

(** The states of the counter, with the last value that was sent to the core and the peers of
    the open streams. *)
Inductive subscriptions (context : Context) : SubscriptionCounter → bool → list N → Prop :=
| subs_new : subscriptions context (SubscriptionCounter_new context) false []
| subs_start s exists_ streams peer s' message :
    subscriptions context s exists_ streams → is_valid_index (committee context) peer = true →
    N.of_nat (length streams) + 1 < 2 ^ 32 → increment context s peer = Ret (s', message) →
    subscriptions context s' (default exists_ message) (streams ++ [peer])
| subs_end s exists_ streams1 peer streams2 s' message :
    subscriptions context s exists_ (streams1 ++ peer :: streams2) → decrement context s peer = Ret (s', message) →
    subscriptions context s' (default exists_ message) (streams1 ++ streams2).

Definition streams_of (peer : N) (streams : list N) : N := N.of_nat (length (filter (λ p, p = peer) streams)).

Record counter_ok (context : Context) (s : SubscriptionCounter) (exists_ : bool) (streams : list N) : Prop := {
  cu_count : sub_count s = N.of_nat (length streams);
  cu_length : N.of_nat (length (subscriptions_by_authority s)) = Committee_size (committee context);
  cu_peers : ∀ peer n, subscriptions_by_authority s !! N.to_nat peer = Some n → n = streams_of peer streams;
  cu_exists : exists_ = bool_decide (streams ≠ []);
}.

Lemma streams_of_perm peer l k : l ≡ₚ k → streams_of peer l = streams_of peer k.
Proof. intros Hp. unfold streams_of. by rewrite Hp. Qed.

Lemma streams_of_cons peer p l : streams_of peer (p :: l) = (if decide (p = peer) then 1 else 0) + streams_of peer l.
Proof. unfold streams_of. rewrite filter_cons. destruct (decide (p = peer)); cbn [length]; lia. Qed.

Lemma increment_ok context s exists_ streams peer :
  counter_ok context s exists_ streams → N.of_nat (length streams) < 2 ^ 32 → is_valid_index (committee context) peer = true →
  ∃ s' message, increment context s peer = Ret (s', message) ∧ counter_ok context s' (default exists_ message) (streams ++ [peer]).
Proof.
  intros [Hc Hl Hp He] Hb Hv. destruct (valid_authority _ _ Hv) as [auth Hauth].
  pose proof Hv as Hlt. unfold is_valid_index in Hlt. apply bool_decide_eq_true in Hlt.
  destruct (lookup_lt_is_Some_2 (subscriptions_by_authority s) (N.to_nat peer)) as [n Hn]; [lia|].
  assert (n ≤ N.of_nat (length streams)) as Hle.
  { rewrite (Hp _ _ Hn). unfold streams_of. pose proof (length_filter (λ p, p = peer) streams). lia. }
  unfold increment, vec_get. rewrite Hn, Hauth. cbn [expect mbind outcome_bind]. rewrite (vec_set_lookup _ _ _ _ Hn).
  cbn [mbind outcome_bind]. eexists _, _. split; [done|]. rewrite Hc, !u64_add_small by lia. split; cbn.
  - rewrite length_app. cbn. lia.
  - by rewrite length_insert.
  - intros p m Hm. rewrite (streams_of_perm p _ (peer :: streams)) by (rewrite (comm (++)); done). rewrite streams_of_cons.
    apply list_lookup_insert_Some in Hm as [(E & <- & _)|[Hne Hm]].
    + apply N2Nat.inj in E as ->. rewrite decide_True by done. rewrite (Hp _ _ Hn). lia.
    + rewrite decide_False by (intros ->; done). rewrite (Hp _ _ Hm). lia.
  - rewrite bool_decide_true by by destruct streams. rewrite He. destruct streams as [|x l]; [done|].
    rewrite (proj2 (N.eqb_neq _ _)) by (cbn [length]; lia).
    change (bool_decide (x :: l ≠ []) = true). by apply bool_decide_eq_true.
Qed.

Lemma decrement_ok context s exists_ streams1 peer streams2 :
  counter_ok context s exists_ (streams1 ++ peer :: streams2) → N.of_nat (length (streams1 ++ peer :: streams2)) < 2 ^ 32 →
  is_valid_index (committee context) peer = true →
  ∃ s' message, decrement context s peer = Ret (s', message) ∧ counter_ok context s' (default exists_ message) (streams1 ++ streams2).
Proof.
  intros [Hc Hl Hp He] Hb Hv. destruct (valid_authority _ _ Hv) as [auth Hauth].
  pose proof Hv as Hlt. unfold is_valid_index in Hlt. apply bool_decide_eq_true in Hlt.
  assert (∀ p, streams_of p (streams1 ++ peer :: streams2) = (if decide (peer = p) then 1 else 0) + streams_of p (streams1 ++ streams2)) as Hs.
  { intros p. rewrite (streams_of_perm p _ (peer :: (streams1 ++ streams2))) by (symmetry; apply Permutation_middle). apply streams_of_cons. }
  destruct (lookup_lt_is_Some_2 (subscriptions_by_authority s) (N.to_nat peer)) as [n Hn]; [lia|].
  pose proof (Hp _ _ Hn) as Hn'. rewrite Hs, decide_True in Hn' by done.
  assert (n ≤ N.of_nat (length (streams1 ++ peer :: streams2))) as Hle.
  { rewrite (Hp _ _ Hn). unfold streams_of. pose proof (length_filter (λ p, p = peer) (streams1 ++ peer :: streams2)). lia. }
  assert (∀ x, 0 < x → x < 2 ^ 64 → u64_sub x 1 = x - 1) as Hsub.
  { intros x H1 H2. unfold u64_sub. replace (2 ^ 64 + x - 1) with (x - 1 + 1 * 2 ^ 64) by lia.
    rewrite N.Div0.mod_add. apply N.mod_small. lia. }
  unfold decrement, vec_get. rewrite Hn. cbn [expect mbind outcome_bind]. rewrite (vec_set_lookup _ _ _ _ Hn). cbn [mbind outcome_bind].
  rewrite length_app in Hc, Hb, Hle. cbn [length] in Hc, Hb, Hle. rewrite Hauth, Hc, !Hsub by lia.
  replace (if n - 1 =? 0 then _ else _) with (Ret tt : outcome unit) by by destruct (n - 1 =? 0). cbn [mbind outcome_bind].
  eexists _, _. split; [done|]. split; cbn.
  - rewrite length_app. lia.
  - by rewrite length_insert.
  - intros p m Hm. apply list_lookup_insert_Some in Hm as [(E & <- & _)|[Hne Hm]].
    + apply N2Nat.inj in E as ->. lia.
    + rewrite (Hp _ _ Hm), Hs, decide_False by (intros ->; done). lia.
  - rewrite He. destruct (N.eqb_spec (N.of_nat (length streams1 + S (length streams2)) - 1) 0) as [Hz|Hz]; cbn.
    + rewrite bool_decide_false; [done|]. destruct streams1, streams2; cbn in Hz; naive_solver lia.
    + rewrite !bool_decide_true; [done|destruct streams1, streams2; cbn in *; naive_solver lia|by destruct streams1].
Qed.

(** The core knows whether anybody subscribes: after any subscriptions and ends of them, the last
    value that the counter sent tells whether a stream is open, its counts are the numbers of
    open streams, and no peer of the committee makes it panic. *)
Theorem subscriptions_exact context s exists_ streams :
  subscriptions context s exists_ streams →
  counter_ok context s exists_ streams ∧ N.of_nat (length streams) < 2 ^ 32 ∧
  (∀ peer, peer ∈ streams → is_valid_index (committee context) peer = true).
Proof.
  induction 1 as [|s exists_ streams peer s' message _ (IH & Hb & Hin) Hv Hlen Hrun
    |s exists_ streams1 peer streams2 s' message _ (IH & Hb & Hin) Hrun].
  - split; [|split; [done|by intros p ?%elem_of_nil]]. split; cbn; try done.
    + rewrite length_replicate. lia.
    + intros p n [-> _]%lookup_replicate. done.
  - destruct (increment_ok context s exists_ streams peer IH Hb Hv) as (s1 & m1 & Hrun1 & Hok). rewrite Hrun in Hrun1.
    injection Hrun1 as <- <-. split; [done|]. split; [rewrite length_app; cbn; lia|].
    intros p [Hp|Hp]%elem_of_app; [by apply Hin|]. by apply list_elem_of_singleton in Hp as ->.
  - assert (is_valid_index (committee context) peer = true) as Hv by (apply Hin; set_solver).
    destruct (decrement_ok context s exists_ streams1 peer streams2 IH Hb Hv) as (s1 & m1 & Hrun1 & Hok). rewrite Hrun in Hrun1.
    injection Hrun1 as <- <-. split; [done|]. rewrite length_app in *. cbn [length] in Hb. split; [lia|].
    intros p Hp. apply Hin. set_solver.
Qed.
