(* ===== verification/AuthorityNode.v ===== *)
(** Starting a validator: [AuthorityNode::start] builds the parts of the core and recovers it.
    On an empty store it returns a core that satisfies the invariant of the core with its
    commits, in every honest universe without blocks of this authority above genesis. *)

From stdpp Require Import base tactics numbers list gmap sorting strings.
From coqutil Require Import Datatypes.RecordSettersUsingExistingGetters.
From S2P Require Import Prelude.
From S2P Require Import Committee.
From S2P Require Import Block.
From S2P Require Import StakeAggregator.
From S2P Require Import ThresholdClock.
From S2P Require Import Commit.
From S2P Require Import Store.
From S2P Require Import LeaderScoring.
From S2P Require Import DagState.
From S2P Require Import DagInvariant.
From S2P Require Import LeaderSchedule.
From S2P Require Import BaseCommitter.
From S2P Require Import CommitSafety.
From S2P Require Import UniversalCommitter.
From S2P Require Import Linearizer.
From S2P Require Import BlockVerifier.
From S2P Require Import BlockManager.
From S2P Require Import BlockOrigin.
From S2P Require Import TransactionConsumer.
From S2P Require Import CommitObserver.
From S2P Require Import QuorumScan.
From S2P Require Import RoundTracker.
From S2P Require Import Ancestor.
From S2P Require Import TransactionCertifier.
From S2P Require Import Core.
From S2P Require Import ProposalState.
From S2P Require Import Proposal.
From S2P Require Import CommitFinalizer.
From S2P Require Import FinalizerSafety.
From S2P Require Import Growth.
From S2P Require Import CoreInvariant.
From S2P Require Import ProposedBlock.
From S2P Require Import CommitProgress.
From S2P Require Import ScheduleProgress.
From S2P Require Import CommitFrame.
From S2P Require Import CoreCommit.
From S2P Require Import CoreRun.

Open Scope N_scope.

(** * Starting the core *)

(** The first half of [start], up to [Core::new]; [streaming] is the client's
    [SUPPORT_STREAMING] and [sync_timeout] the parameter [sync_last_known_own_block_timeout]. *)
Definition start_core {S} `{Store S} `{LeaderRng} `{Crypto} `{CommitCodec} `{TransactionVerifier}
    (context : Context) (protocol_keypair : list Byte.byte) (store : S) (streaming : bool)
    (sync_timeout boot_counter replay_after_commit_index : N) (nows : N * N) : outcome (Core S) :=
  _ ← assert_that (is_valid_index (committee context) (own_index context));
  _ ← Committee_authority (committee context) (own_index context);
  let tx_consumer := TransactionConsumer_new context in
  let core_signals := CoreSignals_new in
  dag_state ← DagState_new context store;
  _ ← SignedBlockVerifier_new context;
  transaction_certifier ← certifier_recover (TransactionCertifier_new context) dag_state replay_after_commit_index;
  let sync_last_known_own_block :=
    (boot_counter =? 0) && (ds_highest_accepted_round dag_state =? 0) && negb (sync_timeout =? 0) in
  let block_manager := BlockManager_new context in
  leader_schedule ← LeaderSchedule_from_store context dag_state;
  '(commit_observer, dag_state) ←
    CommitObserver_new context dag_state leader_schedule true replay_after_commit_index;
  let round_tracker := PeerRoundTracker_new context in
  Core_new context leader_schedule tx_consumer transaction_certifier block_manager
    (negb streaming || (Committee_size (committee context) =? 1)) commit_observer core_signals
    protocol_keypair dag_state sync_last_known_own_block round_tracker nows.

(** * Recovering the core *)

Section Recover.
Context {S : Type} `{StoreSpec S} `{LeaderRngSpec} `{Crypto} `{CommitCodec}.
Context (ctx : Context) (byz : gset N) (n : N).
Let c := committee ctx.
Context (G : universe) (HG : honest_universe c byz G) (Hrounds : rounds_safe G) (Henv : chain_env ctx byz n).

Lemma core_recover_spec hist sds log (core : Core S) nows :
  commit_ok ctx n G hist sds log core → core_env ctx byz (block_signer core) → unguessed ctx n G →
  sig_receivers (signals core) = true →
  ∃ core', core_recover core nows = Ret core' ∧ continues ctx byz n G sds core core'.
Proof.
  intros Hok Hce Hun Hopen. unfold core_recover, unwrap_result.
  destruct (try_commit_spec ctx byz n G HG (safe_bounded G Hrounds) Henv hist sds log core [] Hok) as
    (core1 & sent & hist1 & log1 & Hcommit & Hok1 & Hf1 & _); [apply cert_ok_nil|].
  rewrite Hcommit. cbn [mbind outcome_bind].
  destruct (try_propose_spec ctx byz n G HG Hrounds Henv hist1 _ log1 core1 true nows Hok1) as
    (core2 & res & Hpropose & Hcont & _ & Hres); [by rewrite (fo_signer _ _ Hf1)|done|].
  rewrite Hpropose. cbn [mbind outcome_bind]. destruct Hres as (Hopen2 & p & -> & Hforce); [by rewrite (fo_signals _ _ Hf1)|].
  assert (continues ctx byz n G sds core core2) as Hcont2.
  { eapply continues_from; [done|by apply prefix_app_r|apply Hf1]. }
  cbn [mbind outcome_bind]. destruct p as [b|].
  { cbn [mbind outcome_bind]. eexists. split; [reflexivity|]. eapply continues_idle; [done|apply signal_idle]. }
  assert (∃ last, last_proposed_block core2 = Ret last) as [last Hlast].
  { destruct Hcont as (G' & hist2 & sds2 & log2 & _ & Hok2 & _).
    destruct (last_proposed_spec _ (base_dag_wf ctx G' log2 core2 (cm_core _ _ _ _ _ _ _ Hok2))) as (last & Hl & _). by exists last. }
  rewrite Hlast. cbn [mbind outcome_bind].
  destruct (signal_open (core_context core2) (signals core2) (mkExtendedBlock last []) Hopen2) as (s' & Hs' & _).
  assert (implb (should_propose core2) (GENESIS_ROUND <? vb_round last) = true) as ->.
  { destruct (should_propose core2) eqn:Hsp; [|done]. destruct (Hforce eq_refl eq_refl eq_refl) as (x & Hx & Hck).
    rewrite Hlast in Hx. injection Hx as <-. cbn [implb]. apply N.ltb_lt.
    destruct Hcont as (G' & hist2 & sds2 & log2 & _ & Hok2 & _).
    pose proof (ck_pos _ (ok_clock _ _ _ _ (ok_base _ _ _ _ (cm_core _ _ _ _ _ _ _ Hok2)))). unfold GENESIS_ROUND. lia. }
  cbn [assert_that mbind outcome_bind]. rewrite Hs'. cbn [mbind outcome_bind]. eexists. split; [reflexivity|].
  eapply continues_idle; [|apply signal_idle]. eapply continues_idle; [done|]. split. by destruct core2.
Qed.
End Recover.

(** * A fresh validator *)

Section Start.
Context `{LeaderRngSpec} `{Crypto} `{CommitCodec} `{TransactionVerifier}.
Context (ctx : Context) (byz : gset N).
Let c := committee ctx.
Let n := CONSENSUS_COMMITS_PER_SCHEDULE.
Let log0 : commit_log := mkCommitLog ∅ None.

(** What a start needs of its configuration, besides the assumptions on the epoch. *)
Record start_env (keypair : list Byte.byte) : Prop := {
  sn_core : core_env ctx byz keypair;
  sn_chain : chain_env ctx byz n;
  sn_own : is_valid_index c (own_index ctx) = true;
  sn_cached : 0 < dag_state_cached_rounds ctx;
  sn_depth : 2 ≤ gc_depth (protocol_config ctx);
}.

(** The universe holds the genesis blocks, and this authority made no other. *)
Record awaits (G : universe) : Prop := {
  aw_genesis : ∀ l b, genesis_blocks ctx = Ret l → b ∈ l → block_in G b;
  aw_own : ∀ b, block_in G b → vb_author b = own_index ctx → vb_round b = 0;
}.

Context (keypair : list Byte.byte) (Henv : start_env keypair).
Let Hbcs : ∀ b, is_Some (bcs_signed_block b) := cr_signed _ _ (ce_crypto _ _ _ (sn_core _ Henv)).

Lemma genesis_no_ancestors l b : genesis_blocks ctx = Ret l → b ∈ l → vb_ancestors b = [].
Proof.
  intros Hl Hb. destruct (mapM_elem _ _ _ _ Hl Hb) as ([i a] & _ & Hg). unfold genesis_block in Hg.
  apply bind_Ret in Hg as (s & _ & Hg). injection Hg as <-. unfold vb_ancestors, vb_inner, SignedBlock_new_genesis. simpl.
  by destruct (mysticeti_fastpath _).
Qed.

Lemma genesis_no_votes l b : genesis_blocks ctx = Ret l → b ∈ l → vb_commit_votes b = [].
Proof.
  intros Hl Hb. destruct (mapM_elem _ _ _ _ Hl Hb) as ([i a] & _ & Hg). unfold genesis_block in Hg.
  apply bind_Ret in Hg as (s & _ & Hg). injection Hg as <-. unfold vb_commit_votes, vb_inner, SignedBlock_new_genesis. simpl.
  by destruct (mysticeti_fastpath _).
Qed.

Context (G : universe) (HG : honest_universe c byz G) (Hrounds : rounds_safe G) (Hwait : awaits G).
Let Hc : committee_wf c := bft_committee c byz G (hu_bft _ _ _ HG).

Section Fresh.
Context (d : DagState MemStore) (Hfresh : fresh ctx d).

Lemma fresh_dag_wf : dag_wf d ∧ ∀ r, dag_lookup d r = (if br_round r =? 0 then ds_genesis d !! r else None).
Proof. apply (fresh_wf ctx Hbcs Hc (sn_own _ Henv) (sn_cached _ Henv) d Hfresh). Qed.

(** The blocks of the state are the genesis blocks. *)
Lemma fresh_block r b :
  dag_lookup d r = Some b → reference b = r ∧ vb_round b = 0 ∧ vb_ancestors b = [] ∧ block_in G b.
Proof.
  destruct fresh_dag_wf as [Hwf Hlk]. rewrite Hlk. destruct (br_round r =? 0) eqn:Hr; [|done]. intros Hb.
  destruct (dwf_genesis _ (dwf_cache _ Hwf) r b Hb) as [Href Hz].
  destruct (fr_genesis _ _ Hfresh) as (l & Hl & Hg). rewrite Hg in Hb. apply elem_of_list_to_map_2 in Hb.
  apply list_elem_of_fmap in Hb as (x & [= -> <-] & Hx). split; [done|]. split; [by rewrite <- reference_round, Hz|].
  split; [by eapply genesis_no_ancestors|by eapply (aw_genesis _ Hwait)].
Qed.

Lemma fresh_gc : dag_gc_round d = 0.
Proof. unfold dag_gc_round, calculate_gc_round, last_commit_round. by rewrite (fr_last_commit _ _ Hfresh). Qed.

Lemma fresh_genesis_ok : genesis_ok d.
Proof.
  destruct (genesis_blocks_spec ctx Hbcs) as (l & Hl & Hround & Hauth). destruct (fr_genesis _ _ Hfresh) as (l' & Hl' & Hg).
  rewrite Hl in Hl'. injection Hl' as <-. rewrite enumerate_fst in Hauth.
  assert (NoDup ((λ b, (reference b, b)) <$> l).*1) as Hnd.
  { rewrite <- list_fmap_compose. apply (NoDup_fmap_1 br_author). rewrite <- list_fmap_compose.
    change (NoDup (vb_author <$> l)). rewrite Hauth. apply NoDup_fmap_2; [apply _|apply NoDup_seq]. }
  unfold genesis_ok, dag_committee. rewrite (fr_context _ _ Hfresh), Hg.
  set (m := list_to_map _). assert (map_iter BlockRef_leb m ≡ₚ (λ b, (reference b, b)) <$> l) as Hp.
  { unfold map_iter. rewrite isort_perm. by apply map_to_list_to_map. }
  apply (StronglySorted_unique N.le).
  - apply (StronglySorted_map (λ a b, BlockRef_leb a b)); [apply map_iter_sorted|].
    assert (∀ r, r ∈ (map_iter BlockRef_leb m).*1 → br_round r = 0) as Hz.
    { intros r Hr. rewrite Hp, <- list_fmap_compose in Hr. apply list_elem_of_fmap in Hr as (b & -> & Hb).
      rewrite Forall_forall in Hround. by apply Hround. }
    intros x y Hx Hy Hle%Is_true_true%BlockRef_leb_iff. pose proof (Hz x Hx). pose proof (Hz y Hy). lia.
  - apply seq_sorted.
  - rewrite Hp, <- Hauth, <- !list_fmap_compose. done.
Qed.

Lemma fresh_node : node_ok ctx G d log0.
Proof.
  destruct fresh_dag_wf as [Hwf Hlk]. split.
  - split; [split; [done|split|]| |].
    + intros r b Hb. by apply fresh_block.
    + intros r r' (b & Hb & Ha). apply fresh_block in Hb as (_ & _ & Hn & _). rewrite Hn in Ha. by apply elem_of_nil in Ha.
    + intros r r' (b & Hb & Ha). apply fresh_block in Hb as (_ & _ & Hn & _). rewrite Hn in Ha. by apply elem_of_nil in Ha.
    + intros b a Hb Ha. apply fresh_block in Hb as (_ & _ & Hn & _). rewrite Hn in Ha. by apply elem_of_nil in Ha.
    + unfold dag_committee. by rewrite (fr_context _ _ Hfresh).
    + intros r b Hb. destruct (fresh_block r b Hb) as (<- & _ & _ & ?). done.
  - apply Hfresh.
  - pose proof (sn_depth _ Henv). lia.
  - intros b a Hb Ha. apply fresh_block in Hb as (_ & _ & Hn & _). rewrite Hn in Ha. by apply elem_of_nil in Ha.
  - apply Hfresh.
  - intros r i. by rewrite (fr_recent _ _ Hfresh).
  - intros r Hr. by apply not_elem_of_empty in Hr.
  - rewrite (fr_committed _ _ Hfresh), length_replicate. unfold Committee_size. lia.
  - split; [intros r Hr|intros r r' Hr]; by apply not_elem_of_empty in Hr.
Qed.

Lemma fresh_clock : clock_ok d.
Proof.
  assert (clock_of d = 1) as Hck by (unfold clock_of; by rewrite (fr_clock _ _ Hfresh)).
  split; rewrite ?Hck.
  - lia.
  - intros r. rewrite (fr_recent _ _ Hfresh). by intros [? ?].
  - by left.
  - exists ∅. rewrite (fr_clock _ _ Hfresh). split; [apply agg_repr_new|set_solver].
  - unfold last_commit_round. rewrite (fr_last_commit _ _ Hfresh). unfold GENESIS_ROUND. cbn. lia.
  - rewrite (fr_context _ _ Hfresh). apply Henv.
  - intros a e He. rewrite (fr_evicted_rounds _ _ Hfresh a e He). lia.
Qed.

(** The certifier of a fresh validator knows nothing. *)
Definition blank (t : TransactionCertifier) : Prop :=
  mysticeti_fastpath (protocol_config ctx) = true →
  ∃ outs, cert_run ctx [] (certifier_state t) outs ∧ cs_gc_round (certifier_state t) = 0.

Lemma own_genesis : own_known ctx G d.
Proof.
  intros b Hb Ha. pose proof (aw_own _ Hwait b Hb Ha) as Hr. destruct fresh_dag_wf as [Hwf Hlk].
  destruct (dwf_genesis_all _ (dwf_cache _ Hwf) (own_index ctx)) as (r & [x Hx] & Hra).
  { unfold dag_committee. rewrite (fr_context _ _ Hfresh). apply Henv. }
  destruct (dwf_genesis _ (dwf_cache _ Hwf) r x Hx) as [Href Hz].
  assert (dag_lookup d r = Some x) as Hxl by by rewrite Hlk, Hz.
  destruct (fresh_block r x Hxl) as (_ & Hxr & _ & HxG).
  assert (x = b) as <-; [|unfold block_in; by rewrite Href].
  apply (bft_honest _ _ _ (hu_bft _ _ _ HG)); [done|done| |].
  - unfold Slot_from. rewrite !reference_round, !reference_author. f_equal; [congruence|]. rewrite Ha, <- Hra, <- Href. apply reference_author.
  - rewrite <- reference_author, Href, Hra. apply (ce_own _ _ _ (sn_core _ Henv)).
Qed.

Lemma fresh_votes : cast_ok ctx G [] (ds_pending_commit_votes d).
Proof.
  rewrite (fr_votes _ _ Hfresh). split; [by intros v Hv%elem_of_nil|]. intros b v Hb Ha Hv.
  destruct (fr_genesis _ _ Hfresh) as (l & Hl & Hg). destruct fresh_dag_wf as [Hwf Hlk].
  assert (b ∈ l) as Hbl; [|rewrite (genesis_no_votes l b Hl Hbl) in Hv; by apply elem_of_nil in Hv].
  pose proof (own_genesis b Hb Ha) as Hk. unfold block_in in Hk. rewrite Hlk, reference_round, (aw_own _ Hwait b Hb Ha) in Hk. cbn in Hk.
  rewrite Hg in Hk. apply elem_of_list_to_map_2 in Hk. apply list_elem_of_fmap in Hk as (x & Heq & Hx). apply (f_equal snd) in Heq. cbn in Heq. by subst x.
Qed.

Lemma fresh_fastpath t : blank t → mysticeti_fastpath (protocol_config ctx) = true →
  links_closed d ∧ own_linked ctx d ∧ votes_cover ctx G d t.
Proof.
  intros Ht Hf. destruct (Ht Hf) as (outs & Hrun & Hg). split; [|split].
  - intros r r' (i & Hi & _). by rewrite (fr_recent _ _ Hfresh) in Hi.
  - intros b r Hb _ Hp Hr. rewrite fresh_gc in Hr. exfalso. apply fresh_block in Hb as (_ & Hz & Hn & Hb').
    apply rtc_inv in Hp as [<-|(y & (x & Hx & Ha) & _)]; [rewrite reference_round in Hr; lia|].
    apply fresh_block in Hx as (_ & _ & Hn' & _). rewrite Hn' in Ha. by apply elem_of_nil in Ha.
  - exists [], outs. split; [done|]. rewrite fresh_gc, Hg. split; [done|]. split; [intros b Hb; by apply elem_of_nil in Hb|].
    intros r b Hb Hr. destruct (fresh_block r b Hb) as (<- & Hz & _). rewrite reference_round in Hr. lia.
Qed.

Lemma new_states_wf scores : asm_wf (set_propagation_scores (AncestorStateManager_new ctx) scores).
Proof.
  split; [cbn [state_map set_propagation_scores AncestorStateManager_new]|..].
  - simpl. rewrite length_replicate. unfold Committee_size. lia.
  - symmetry. change (weight c (excluded (set_propagation_scores (AncestorStateManager_new ctx) scores)) = 0).
    replace (excluded _) with (∅ : gset N); [apply weight_empty|]. symmetry. apply set_eq. intros i.
    split; [|by intros ?%not_elem_of_empty]. unfold excluded. intros [Hi _]%elem_of_filter. exfalso.
    unfold info_at in Hi. simpl in Hi.
    destruct (replicate _ AncestorInfo_new !! N.to_nat i) as [a|] eqn:Ha; [|done].
    apply lookup_replicate in Ha as [-> _]. done.
  - apply N.le_0_l.
Qed.

(** The core before its recovery. *)
Lemma fresh_commit_ok t subscriber round slot min_round :
  blank t → slot_round slot = 0 →
  let schedule := LeaderSchedule_new ctx LeaderSwapTable_default in
  commit_ok ctx n G [] [] log0
    (mkCore ctx (TransactionConsumer_new ctx) t (BlockManager_new ctx) subscriber 0 round
       (replicate (N.to_nat (Committee_size c)) None) slot schedule (mkCommitObserver ctx true []) CoreSignals_new keypair d
       min_round (set_propagation_scores (AncestorStateManager_new ctx) (swap_reputation_scores (leader_swap_table schedule)))
       (PeerRoundTracker_new ctx)).
Proof.
  intros Ht Hslot schedule. set (core := mkCore _ _ _ _ _ _ _ _ _ _ _ _ _ _ _ _ _).
  assert (reaches ctx n G [] [] (core_progress log0 core)) as Hreach.
  { exists (core_progress log0 core). split; [|by right]. unfold core_progress. cbn. rewrite (fr_scoring _ _ Hfresh). constructor. }
  pose proof (sn_chain _ Henv) as Hch.
  assert (progress_wf ctx n [] (core_progress log0 core)) as Hwf.
  { apply (reaches_wf ctx n G (ch_schedule _ _ _ Hch) (hu_unique _ _ _ HG) [] []); [done|]. by vm_compute. }
  destruct (pw_lead _ _ _ _ Hwf) as (lead & He & Hv).
  split; try done.
  - split; [split; try done|intros Hf; by apply fresh_fastpath|].
    + apply fresh_node.
    + apply fresh_clock.
    + apply fresh_genesis_ok.
    + destruct (fr_genesis _ _ Hfresh) as (l & Hl & Hg). exists l. by rewrite Hl.
    + apply own_genesis.
    + unfold core. cbn [last_included_ancestors]. rewrite length_replicate. unfold Committee_size. fold c. lia.
    + split; [|done]. split; apply square_zero.
    + split; [apply new_states_wf|split; [done|apply (pw_scores _ _ _ _ Hwf)]].
    + exists lead. by apply (committer_of ctx byz n Hch).
    + split; [done|]. intros g Hg. by apply elem_of_nil in Hg.
    + apply bm_inv_new.
    + intros i r last Hi. cbn in Hi. by apply lookup_replicate in Hi as [[=] _].
  - cbn. rewrite (fr_highest _ _ Hfresh). unfold u32_max. lia.
  - intros _ r [s Hs]. cbn in Hs. by rewrite lookup_empty in Hs.
  - apply fresh_votes.
Qed.
End Fresh.

Lemma certifier_starts d :
  fresh ctx d → ∃ t, certifier_recover (TransactionCertifier_new ctx) d 0 = Ret t ∧ blank t.
Proof.
  intros Hf. unfold certifier_recover. change (cs_context _) with ctx.
  destruct (mysticeti_fastpath (protocol_config ctx)) eqn:Hfp; cbn [negb].
  2:{ eexists. split; [done|]. intros Hf'. congruence. }
  rewrite (fr_store _ _ Hf). change (store_scan_commits MemStore_new _) with (Ret (@nil TrustedCommit)).
  cbn [mbind outcome_bind last]. unfold GENESIS_ROUND. 
  replace (0 <=? dag_gc_round d) with true by (symmetry; apply N.leb_le, N.le_0_l). cbn [assert_that mbind outcome_bind].
  set (t0 := _ <| certifier_state := _ |>). exists t0. split.
  - pose proof (Committee_enumerate_valid (committee ctx)) as Hval. revert Hval.
    generalize (Committee_enumerate (committee ctx)). induction l as [|e l IH]; intros Hval; [done|].
    apply Forall_cons in Hval as [He Hval]. rewrite fmap_cons. cbn [foldM].
    assert (recover_votes_of d (u32_add 0 1) t0 e.1 = Ret t0) as ->; [|by apply IH].
    unfold recover_votes_of. rewrite (fr_store _ _ Hf).
    change (store_scan_blocks_by_author MemStore_new e.1 _) with (Ret (@nil VerifiedBlock)). cbn [mbind outcome_bind].
    change (cs_context (certifier_state t0)) with ctx. destruct (valid_authority _ _ He) as [auth ->]. done.
  - intros _. exists []. split; [|done]. unfold t0. cbn. apply run_update_gc; [constructor|done].
Qed.

Lemma fresh_leader d : fresh ctx d → ∃ slot, last_commit_leader d = Ret slot ∧ slot_round slot = 0.
Proof.
  intros Hf. destruct (fresh_dag_wf d Hf) as [Hwf _]. unfold last_commit_leader. rewrite (fr_last_commit _ _ Hf).
  destruct (map_iter BlockRef_leb (ds_genesis d)) as [|[r b] l] eqn:Hm.
  - destruct (dwf_genesis_all _ (dwf_cache _ Hwf) (own_index ctx)) as (r & [x Hx] & _).
    { unfold dag_committee. rewrite (fr_context _ _ Hf). apply Henv. }
    apply (elem_of_map_iter BlockRef_leb) in Hx. rewrite Hm in Hx. by apply elem_of_nil in Hx.
  - exists (Slot_from r). split; [done|]. assert ((r, b) ∈ map_iter BlockRef_leb (ds_genesis d)) as Hin by (rewrite Hm; left).
    apply elem_of_map_iter in Hin. by destruct (dwf_genesis _ (dwf_cache _ Hwf) r b Hin).
Qed.

Theorem start_core_spec streaming sync_timeout boot_counter nows :
  unguessed ctx n G →
  ∃ core, start_core ctx keypair MemStore_new streaming sync_timeout boot_counter 0 nows = Ret core ∧
    ∃ G' hist sds log, grows ctx byz G G' ∧ commit_ok ctx n G' hist sds log core ∧ block_signer core = keypair.
Proof.
  intros Hun. unfold start_core. fold c. rewrite (sn_own _ Henv). cbn [assert_that mbind outcome_bind].
  destruct (valid_authority _ _ (sn_own _ Henv)) as [auth ->]. cbn [mbind outcome_bind].
  destruct (DagState_new_fresh ctx Hbcs (sn_own _ Henv) (sn_cached _ Henv)) as (d & -> & Hf). cbn [mbind outcome_bind].
  destruct (genesis_blocks_spec ctx Hbcs) as (l & Hl & _ & _). unfold SignedBlockVerifier_new. rewrite Hl. cbn [mbind outcome_bind].
  destruct (certifier_starts d Hf) as (t & -> & Ht). cbn [mbind outcome_bind].
  assert (LeaderSchedule_from_store ctx d = Ret (LeaderSchedule_new ctx LeaderSwapTable_default)) as ->.
  { unfold LeaderSchedule_from_store, recover_last_commit_info, scoring_subdags_count. rewrite (fr_store _ _ Hf), (fr_scoring _ _ Hf). done. }
  cbn [mbind outcome_bind]. unfold CommitObserver_new, recover_and_send_commits.
  rewrite (fr_store _ _ Hf). change (store_read_last_commit MemStore_new) with (Ret (@None TrustedCommit)).
  cbn [mbind outcome_bind assert_that N.eqb]. unfold Core_new.
  destruct (fresh_leader d Hf) as (slot & -> & Hslot). cbn [mbind outcome_bind].
  destruct (last_proposed_spec d (proj1 (fresh_dag_wf d Hf))) as (last & -> & _ & Hlast & _). cbn [mbind outcome_bind].
  destruct (fresh_block d Hf _ _ Hlast) as (_ & _ & -> & _). cbn [foldM mbind outcome_bind].
  match goal with |- context [core_recover ?x _] => set (core := x) end.
  destruct (core_recover_spec ctx byz n G HG Hrounds (sn_chain _ Henv) [] [] log0 core nows) as
    (core' & Hrun & G' & hist' & sds' & log' & Hg & Hok & _ & Hs).
  - by apply fresh_commit_ok.
  - apply Henv.
  - done.
  - done.
  - exists core'. split; [done|]. by exists G', hist', sds', log'.
Qed.
End Start.
