(* ===== verification/Network.v ===== *)
(** The validators of an epoch together: honest ones that start, handle the events of their core
    thread, vote on blocks, record finalized commits, probe their peers and collect garbage in any
    order, and Byzantine ones that make any block the verifiers accept. In every state that they reach the invariant of every core holds, the
    blocks of honest validators are valid, and the commits that two honest validators have sent
    to execution agree: one sequence starts the other. *)

From stdpp Require Import base tactics numbers list gmap sorting strings.
From coqutil Require Import Datatypes.RecordSettersUsingExistingGetters.
From S2P Require Import Prelude.
From S2P Require Import Committee.
From S2P Require Import Block.
From S2P Require Import StakeAggregator.
From S2P Require Import ThresholdClock.
From S2P Require Import Commit.
From S2P Require Import Store.
From S2P Require Import LeaderScoring.
From S2P Require Import DagState.
From S2P Require Import DagInvariant.
From S2P Require Import LeaderSchedule.
From S2P Require Import BaseCommitter.
From S2P Require Import CommitSafety.
From S2P Require Import UniversalCommitter.
From S2P Require Import Linearizer.
From S2P Require Import BlockVerifier.
From S2P Require Import BlockManager.
From S2P Require Import BlockOrigin.
From S2P Require Import TransactionConsumer.
From S2P Require Import CommitObserver.
From S2P Require Import QuorumScan.
From S2P Require Import RoundTracker.
From S2P Require Import Ancestor.
From S2P Require Import TransactionCertifier.
From S2P Require Import Core.
From S2P Require Import ProposalState.
From S2P Require Import Proposal.
From S2P Require Import CommitFinalizer.
From S2P Require Import FinalizerSafety.
From S2P Require Import Growth.
From S2P Require Import CoreInvariant.
From S2P Require Import ProposedBlock.
From S2P Require Import CommitProgress.
From S2P Require Import ScheduleProgress.
From S2P Require Import CommitFrame.
From S2P Require Import CoreCommit.
From S2P Require Import CoreRun.
From S2P Require Import CoreThread.
From S2P Require Import AuthorityNode.

Open Scope N_scope.

(** * Votes, garbage collection and submissions *)

Section Environment.
Context {S : Type} `{StoreSpec S} `{LeaderRngSpec} `{Crypto} `{CommitCodec} `{TransactionVerifier}.
Implicit Types core : Core S.
Context (ctx : Context) (byz : gset N) (n : N) (G : universe).
Let c := committee ctx.

(** What the other parts of the validator do to the state they share with the core: votes on
    verified blocks, the votes of proposed blocks, garbage collection after finalization, finalized
    commits that are recorded and persisted, rounds that received blocks and probed peers report,
    and transactions that a client submits. *)
Inductive shared_step core : Core S → Prop :=
| sh_vote blocks t :
    mysticeti_fastpath (protocol_config ctx) = true →
    (∀ b own, (b, own) ∈ blocks → block_in G b ∧ is_valid_index c (vb_author b) = true) →
    certifier_add_voted_blocks (transaction_certifier core) blocks = Ret t →
    shared_step core (core <| transaction_certifier := t |>)
| sh_proposed b t :
    certifier_add_proposed_block (transaction_certifier core) b = Ret t →
    shared_step core (core <| transaction_certifier := t |>)
| sh_collect g t :
    cs_gc_round (certifier_state (transaction_certifier core)) ≤ g →
    run_gc (transaction_certifier core) (dag_state core) g = Ret t →
    shared_step core (core <| transaction_certifier := t |>)
| sh_finalized finalized d :
    flush (foldl (λ d x, add_finalized_commit d x.1 x.2) (dag_state core) finalized) = Ret d →
    shared_step core (core <| dag_state := d |>)
| sh_received b t :
    (∀ e, e ∈ mentions b → is_valid_index c e.1 = true) →
    update_from_accepted_block (round_tracker core) b = Ret t →
    shared_step core (core <| round_tracker := t |>)
| sh_probe local_accepted local_received answers t delay :
    length local_accepted = length (committee_authorities c) →
    length local_received = length (committee_authorities c) →
    (∀ a, a ∈ answers → is_valid_index c a.1 = true) →
    probe (round_tracker core) local_accepted local_received answers = Ret (t, delay) →
    shared_step core (core <| round_tracker := t |>)
| sh_submit guard :
    batch_ok ctx (tg_transactions guard) →
    shared_step core (core <| transaction_consumer :=
      (transaction_consumer core) <| tx_receiver := tx_receiver (transaction_consumer core) ++ [guard] |> |>).

Context (HG : honest_universe c byz G).
Let Hc : committee_wf c := bft_committee _ _ _ (hu_bft _ _ _ HG).

(** A certifier that runs on, forgets no vote above the garbage collection round. *)
Lemma commit_ok_certifier hist sds log core t :
  commit_ok ctx n G hist sds log core →
  (mysticeti_fastpath (protocol_config ctx) = true → ∃ added outs, cert_run ctx added (certifier_state t) outs ∧
     cs_gc_round (certifier_state t) ≤ dag_gc_round (dag_state core) ∧ (∀ b, b ∈ added → block_in G b) ∧
     ∀ x, voted (transaction_certifier core) x → dag_gc_round (dag_state core) < vb_round x → voted t x) →
  commit_ok ctx n G hist sds log (core <| transaction_certifier := t |>).
Proof.
  intros Hok Ht. destruct Hok as [[Hbase Hfast Hinc] ? ? ? ? ? ? ? Hv ?]. split; try done.
  - split; [by eapply (base_frame ctx G log core)| |done]. intros Hf.
    destruct (Hfast Hf) as (Hl & Ho & added & outs & Hrun & Hg & Hin & Hcov). split; [done|]. split; [done|].
    destruct (Ht Hf) as (added' & outs' & Hrun' & Hg' & Hin' & Hvoted). exists added', outs'. split_and!; try done.
    cbn. intros r b Hb Hr.
    assert (reference b = r) as <- by (apply (bft_ref _ _ _ (hu_bft _ _ _ HG)), (v_sub _ _ _ (no_view _ _ _ _ (ok_node _ _ _ _ Hbase))), Hb).
    rewrite reference_round in Hr. apply (voted_iff ctx t added' outs' b Hc Hrun'), Hvoted; [|done].
    apply (voted_iff ctx _ added outs b Hc Hrun). split; [by apply (Hcov (reference b)); [|rewrite reference_round]|lia].
  - intros Hf r Hr Hgc. cbn in Hr, Hgc. destruct (Hv Hf r Hr Hgc) as (x & Hx & Hxr & Hxv).
    exists x. split; [done|]. split; [done|]. destruct (Ht Hf) as (_ & _ & _ & _ & _ & Hvoted). apply Hvoted; [done|].
    by rewrite <- reference_round, Hxr.
Qed.

Lemma shared_votes_spec blocks cs added outs acc :
  cert_run ctx added cs outs → (∀ b, b ∈ added → block_in G b) →
  (∀ b own, (b, own) ∈ blocks → block_in G b ∧ is_valid_index c (vb_author b) = true) →
  ∃ cs' local added', foldM (λ '(cs, certified_blocks) '(b, own_votes),
      '(cs, blocks) ← add_voted_block cs b own_votes; Ret (cs, certified_blocks ++ blocks)) (cs, acc) blocks
    = Ret (cs', acc ++ local) ∧ cert_run ctx added' cs' (outs ++ local) ∧ cs_gc_round cs' = cs_gc_round cs ∧
    (∀ b, b ∈ added → b ∈ added') ∧ (∀ b, b ∈ added' → block_in G b) ∧
    ∀ b own, (b, own) ∈ blocks → cs_gc_round cs < vb_round b → b ∈ added'.
Proof.
  revert cs added outs acc. induction blocks as [|[b own] blocks IH]; intros cs added outs acc Hrun Hin Hb.
  { exists cs, [], added. rewrite !app_nil_r. split_and!; try done. by intros b own Hx%elem_of_nil. }
  destruct (Hb b own) as [HbG Hval]; [left|]. cbn [foldM].
  assert (∃ cs1 l1 added1, add_voted_block cs b own = Ret (cs1, l1) ∧ cert_run ctx added1 cs1 (outs ++ l1) ∧
    cs_gc_round cs1 = cs_gc_round cs ∧ (∀ x, x ∈ added → x ∈ added1) ∧ (∀ x, x ∈ added1 → block_in G x) ∧
    (cs_gc_round cs < vb_round b → b ∈ added1))
    as (cs1 & l1 & added1 & -> & Hrun1 & Hg1 & Hsub1 & Hin1 & Hnew1).
  { destruct (decide (vb_round b ≤ cs_gc_round cs)) as [Hle|Hgt].
    - exists cs, [], added. rewrite app_nil_r. split; [|split_and!; try done; lia]. unfold add_voted_block.
      by rewrite (proj2 (N.leb_le _ _) Hle).
    - assert (∀ b', b' ∈ added → reference b' = reference b → b' = b) as Huniq.
      { intros x Hx He. specialize (Hin x Hx). unfold block_in in *. congruence. }
      destruct (add_voted_block_inv ctx Hc added cs outs b own (cert_run_inv ctx Hc _ _ _ Hrun)) as (cs1 & l1 & Hadd & Hg & _);
        [done|lia|done|].
      exists cs1, l1, (added ++ [b]). split; [done|]. split; [by eapply run_voted; [done|done|lia|done|done]|].
      split; [done|]. split; [intros x Hx; apply elem_of_app; by left|].
      split; [|intros _; apply elem_of_app; right; left].
      intros x [Hx|Hx]%elem_of_app; [by apply Hin|]. by apply list_elem_of_singleton in Hx as ->. }
  cbn [mbind outcome_bind].
  destruct (IH cs1 added1 (outs ++ l1) (acc ++ l1) Hrun1 Hin1) as (cs2 & l2 & added2 & Hrun2 & Hc2 & Hg2 & Hsub2 & Hin2 & Hnew2).
  { intros x o Hx. by apply (Hb x o); right. }
  exists cs2, (l1 ++ l2), added2. rewrite !app_assoc. split; [done|]. split; [done|]. split; [congruence|].
  split; [auto|]. split; [done|]. intros x o [[= -> ->]|Hx]%elem_of_cons Hr; [auto|]. eapply Hnew2; [done|by rewrite Hg1].
Qed.

Lemma sent_state cs sent out : certifier_state (send_certified_blocks (mkTransactionCertifier cs sent) out) = cs.
Proof. by destruct out. Qed.

(** A finalized commit waits to be written: nothing else of the state changes. *)
Lemma commit_ok_recorded hist sds log core r rejected :
  commit_ok ctx n G hist sds log core →
  commit_ok ctx n G hist sds log (core <| dag_state := add_finalized_commit (dag_state core) r rejected |>).
Proof.
  intros [[Hbase Hfast Hinc] ? ? ? ? ? ? ? ? ?]. pose proof (base_dag_wf ctx G log core Hbase) as Hwf. split; try done.
  split; [|done|done]. destruct Hbase as [? Hnode Hclock ? ? ? ? ? ? ? ? [? ? ?]]. split; try done.
  - apply (node_ok_grow ctx byz G (hu_bft _ _ _ HG) (dag_state core) log); try done.
    + destruct Hwf as [[] ? ? ? ? ? ? ?]. split; [split|..]; done.
    + intros x b. by left.
    + exact (no_marks ctx G _ log Hnode).
  - apply (clock_ok_frame (dag_state core)); try done; apply Hclock.
Qed.

Lemma commit_ok_flushed hist sds log core d :
  no_dominant c → rounds_bounded G → commit_ok ctx n G hist sds log core → flush (dag_state core) = Ret d →
  commit_ok ctx n G hist sds log (core <| dag_state := d |>).
Proof.
  intros Hdom Hr Hok Hf. destruct (core_ok_flush ctx byz G (hu_bft _ _ _ HG) Hdom Hr log core) as (d' & Hf' & Hcore & _); [apply Hok|].
  rewrite Hf in Hf'. injection Hf' as <-. destruct (flush_clock _ _ Hf) as (_ & _ & _ & Hh & _).
  assert (dag_gc_round d = dag_gc_round (dag_state core)) as Hgc.
  { destruct (flush_spec _ (base_dag_wf ctx G log core (ok_base _ _ _ _ (cm_core _ _ _ _ _ _ _ Hok)))) as (d1 & Hf1 & _ & _ & Hg & _).
    rewrite Hf in Hf1. by injection Hf1 as <-. }
  destruct Hok as [_ Hprog ? ? ? Hhigh ? ? Hv Hca]. split; try done.
  - unfold core_progress. cbn. by rewrite (flush_keeps ds_scoring_subdag (dag_state core) d).
  - cbn. by rewrite Hh.
  - intros Hfp r Hs Hlt. apply (Hv Hfp r Hs). by rewrite <- Hgc.
  - cbn. by rewrite (flush_keeps ds_pending_commit_votes (dag_state core) d).
Qed.

Lemma commit_ok_finalized hist sds log core finalized d :
  no_dominant c → rounds_bounded G → commit_ok ctx n G hist sds log core →
  flush (foldl (λ d x, add_finalized_commit d x.1 x.2) (dag_state core) finalized) = Ret d →
  commit_ok ctx n G hist sds log (core <| dag_state := d |>).
Proof.
  intros Hdom Hr. revert core. induction finalized as [|[r rejected] finalized IH]; intros core Hok Hf; [by apply commit_ok_flushed|].
  by apply (IH _ (commit_ok_recorded hist sds log core r rejected Hok)).
Qed.

(** The update of the round tracker is invisible to the rest of the core. *)
Lemma commit_ok_tracker hist sds log core tracker :
  commit_ok ctx n G hist sds log core → tracker_wf tracker → committee (rt_context tracker) = committee ctx →
  commit_ok ctx n G hist sds log (core <| round_tracker := tracker |>).
Proof.
  intros Hok Ht Htc.
  pose proof (core_ok_update ctx G log core (transaction_consumer core) tracker (cm_core _ _ _ _ _ _ _ Hok)
    (ok_consumer _ _ _ _ (ok_base _ _ _ _ (cm_core _ _ _ _ _ _ _ Hok))) Ht Htc) as Hcore.
  destruct core. destruct Hok. by split.
Qed.

Lemma shared_step_ok hist sds log core core' :
  no_dominant c → rounds_bounded G → commit_ok ctx n G hist sds log core → shared_step core core' →
  commit_ok ctx n G hist sds log core' ∧ block_signer core' = block_signer core.
Proof.
  intros Hdom Hbound Hok Hstep. pose proof (ok_fastpath _ _ _ _ (cm_core _ _ _ _ _ _ _ Hok)) as Hfast.
  destruct (ok_tracker _ _ _ _ (ok_base _ _ _ _ (cm_core _ _ _ _ _ _ _ Hok))) as [Ht Htc].
  destruct Hstep as [blocks t Hfp Hb Hrun|b t Hrun|g t Hg Hrun|finalized d Hrun|b t Hval Hrun
    |la lr answers t delay Hla Hlr Hans Hrun|guard Hbatch]; (split; [|done]).
  - apply commit_ok_certifier; [done|]. intros _. destruct (Hfast Hfp) as (_ & _ & added & outs & Hr & Hgc & Hin & _).
    destruct (shared_votes_spec blocks _ added outs [] Hr Hin Hb) as (cs' & local & added' & Hadd & Hr' & Hg' & Hsub & Hin' & _).
    unfold certifier_add_voted_blocks, add_voted_blocks in Hrun. rewrite Hadd in Hrun. cbn [mbind outcome_bind] in Hrun.
    injection Hrun as <-. exists added', (outs ++ local).
    rewrite sent_state. split_and!; try done; [by rewrite Hg'|]. intros x Hx Hxr.
    apply (voted_iff ctx _ added outs x Hc Hr) in Hx as [Hx1 Hx2].
    apply (voted_iff ctx _ added' (outs ++ local) x Hc); rewrite sent_state; [done|]. split; [auto|by rewrite Hg'].
  - apply commit_ok_certifier; [done|]. intros Hfp. destruct (Hfast Hfp) as (_ & _ & added & outs & Hr & Hgc & Hin & _).
    unfold certifier_add_proposed_block in Hrun. apply bind_Ret in Hrun as ([cs' out] & Hadd & Hrun). injection Hrun as <-.
    assert (cert_run ctx added cs' (outs ++ out)) as Hr' by by eapply run_proposed.
    assert (cs_gc_round cs' = cs_gc_round (certifier_state (transaction_certifier core))) as Hg'.
    { assert (vb_round b ≤ u32_add (cs_gc_round (certifier_state (transaction_certifier core))) 2 ∨
        is_Some (cs_votes (certifier_state (transaction_certifier core)) !! reference b)) as Hp.
      { unfold add_proposed_block in Hadd. destruct (N.leb_spec (vb_round b) (u32_add (cs_gc_round (certifier_state (transaction_certifier core))) 2)); [by left|].
        right. apply bind_Ret in Hadd as ([] & Ha%assert_that_Ret & _). by apply bool_decide_eq_true in Ha. }
      destruct (add_proposed_block_inv ctx Hc _ added _ outs b (cert_run_inv ctx Hc _ _ _ Hr) Hp) as (cs1 & local & Hrun1 & Hgc1 & _).
      rewrite Hrun1 in Hadd. by injection Hadd as <- _. }
    exists added, (outs ++ out). rewrite sent_state. split_and!; try done; [by rewrite Hg'|]. intros x Hx Hxr.
    apply (voted_iff ctx _ added outs x Hc Hr) in Hx as [Hx1 Hx2].
    apply (voted_iff ctx _ added (outs ++ out) x Hc); rewrite sent_state; [done|]. split; [auto|by rewrite Hg'].
  - apply commit_ok_certifier; [done|]. intros Hfp. destruct (Hfast Hfp) as (_ & _ & added & outs & Hr & Hgc & Hin & _).
    unfold run_gc in Hrun. apply bind_Ret in Hrun as ([] & Hle%assert_that_Ret%N.leb_le & Hrun). injection Hrun as <-.
    assert (cert_run ctx added (update_gc_round (certifier_state (transaction_certifier core)) g) outs) as Hr' by by apply run_update_gc.
    exists added, outs. split_and!; try done. intros x Hx Hxr.
    apply (voted_iff ctx _ added outs x Hc Hr) in Hx as [Hx1 Hx2].
    eapply (voted_iff ctx); [done|exact Hr'|]. split; [done|]. cbn. lia.
  - by eapply commit_ok_finalized.
  - destruct (update_from_accepted_block_spec (round_tracker core) b Ht) as (t' & Hrun' & Hwf & Hctx & _); [by rewrite Htc|].
    rewrite Hrun in Hrun'. injection Hrun' as <-. apply commit_ok_tracker; [done|done|congruence].
  - assert (is_valid_index (committee (rt_context (round_tracker core))) (own_index (rt_context (round_tracker core))) = true) as Hown.
    { apply valid_index_lt. rewrite Htc. fold c. rewrite <- Hla. apply bind_Ret in Hrun as (x & Hx%vec_get_Ret & _).
      by eapply lookup_lt_Some. }
    destruct (probe_wf (round_tracker core) la lr answers) as (t' & delay' & Hrun' & Hwf & Hctx & _); rewrite ?Htc; try done.
    { by rewrite Htc in Hown. }
    rewrite Hrun in Hrun'. injection Hrun' as <- <-. apply commit_ok_tracker; [done|done|congruence].
  - apply commit_ok_consumer; [done|]. pose proof (ok_consumer _ _ _ _ (ok_base _ _ _ _ (cm_core _ _ _ _ _ _ _ Hok))) as [Hl Hw].
    split; [done|]. intros g. unfold waiting. cbn. rewrite app_assoc. intros [Hg|Hg]%elem_of_app; [by apply Hw|].
    by apply list_elem_of_singleton in Hg as ->.
Qed.
End Environment.

(** * The network *)

(** The blocks that exist, and the cores of the honest validators that have started. *)
Record network := mkNetwork {
  net_blocks : universe;
  net_cores : gmap N (Core MemStore);
}.

Section Network.
Context `{LeaderRngSpec} `{Crypto} `{CommitCodec} `{TransactionVerifier}.
Context (c : Committee) (byz : gset N) (contexts : N → Context) (keys : N → list Byte.byte).
Let n := CONSENSUS_COMMITS_PER_SCHEDULE.

Definition honest (a : N) : Prop := is_valid_index c a = true ∧ a ∉ byz.

(** The assumptions on the epoch: less than a third of the stake is Byzantine, and the honest
    validators are configured alike. *)
Record epoch_env : Prop := {
  ep_committee : committee_wf c;
  ep_byz : reached_validity c (weight c byz) = false;
  ep_start : ∀ a, honest a → start_env (contexts a) byz (keys a);
  ep_own : ∀ a, honest a → own_index (contexts a) = a;
  ep_context : ∀ a, committee (contexts a) = c;
  ep_same : ∀ a b, same_config (contexts a) (contexts b);
}.

(** The universe once the core has published its last proposal. *)
Inductive published (G : universe) (core : Core MemStore) : universe → Prop :=
| pub_old b : last_proposed_block core = Ret b → block_in G b → published G core G
| pub_new b : last_proposed_block core = Ret b → G (reference b) = None → published G core (extend G b).

(** The verifiers of the epoch accept the block; others are never taken. *)
Definition passes (b : VerifiedBlock) : Prop :=
  ∀ a, ∃ v, SignedBlockVerifier_new (contexts a) = Ret v ∧ valid_block v (vb_block b).

Inductive net_step (s : network) : network → Prop :=
| net_start a streaming sync_timeout boot_counter nows core G' :
    honest a → net_cores s !! a = None → unguessed (S := MemStore) (contexts a) n (net_blocks s) →
    start_core (contexts a) (keys a) MemStore_new streaming sync_timeout boot_counter 0 nows = Ret core →
    published (net_blocks s) core G' → rounds_safe G' →
    net_step s (mkNetwork G' (<[a := core]> (net_cores s)))
| net_event a core event nows core' result G' :
    net_cores s !! a = Some core → unguessed (S := MemStore) (contexts a) n (net_blocks s) →
    event_ok (contexts a) n (net_blocks s) core event → handle_event core event nows = Ret (core', result) →
    published (net_blocks s) core' G' → rounds_safe G' →
    net_step s (mkNetwork G' (<[a := core']> (net_cores s)))
| net_shared a core core' :
    net_cores s !! a = Some core → shared_step (contexts a) (net_blocks s) core core' →
    net_step s (mkNetwork (net_blocks s) (<[a := core']> (net_cores s)))
| net_byzantine b :
    vb_author b ∈ byz → passes b → encoded b → unreferenced (net_blocks s) (reference b) → rounds_safe (extend (net_blocks s) b) →
    net_step s (mkNetwork (extend (net_blocks s) b) (net_cores s)).

(** Only the genesis blocks exist, and nobody has started. *)
Definition net_genesis (l : list VerifiedBlock) : network :=
  mkNetwork (λ r, (list_to_map ((λ b, (reference b, b)) <$> l) : gmap BlockRef VerifiedBlock) !! r) ∅.

(** ** The invariant *)

Definition valid_to_all (b : VerifiedBlock) : Prop :=
  ∀ a v, SignedBlockVerifier_new (contexts a) = Ret v → verify_block v (vb_block b) = Ret (Ok tt).

Record net_ok (s : network) : Prop := {
  nk_universe : honest_universe c byz (net_blocks s);
  nk_rounds : rounds_safe (net_blocks s);
  nk_genesis : ∀ a l b, genesis_blocks (contexts a) = Ret l → b ∈ l → block_in (net_blocks s) b;
  nk_valid : ∀ b, block_in (net_blocks s) b → vb_author b ∉ byz → 0 < vb_round b → valid_to_all b;
  nk_passes : ∀ b, block_in (net_blocks s) b → 0 < vb_round b → passes b;
  nk_encoded : ∀ b, block_in (net_blocks s) b → encoded b;
  nk_cores : ∀ a core, net_cores s !! a = Some core → honest a ∧ block_signer core = keys a ∧
    ∃ hist sds log, commit_ok (contexts a) n (net_blocks s) hist sds log core;
  nk_absent : ∀ a b, honest a → net_cores s !! a = None → block_in (net_blocks s) b → vb_author b = a → vb_round b = 0;
}.

Context (Henv : epoch_env).

Lemma universe_of a G : honest_universe c byz G → honest_universe (committee (contexts a)) byz G.
Proof. by rewrite (ep_context Henv a). Qed.

Lemma own_env a core :
  honest a → block_signer core = keys a →
  chain_env (contexts a) byz n ∧ core_env (contexts a) byz (block_signer (core : Core MemStore)).
Proof. intros Ha ->. split; apply (ep_start Henv a Ha). Qed.

Lemma verifier_starts a a' : honest a → ∃ v, SignedBlockVerifier_new (contexts a') = Ret v.
Proof.
  intros Ha. destruct (genesis_blocks_spec (contexts a) (cr_signed _ _ (ce_crypto _ _ _ (sn_core _ _ _ (ep_start Henv a Ha))))) as (l & Hl & _).
  unfold SignedBlockVerifier_new. rewrite (same_genesis (contexts a) (contexts a') (ep_same Henv a a')), Hl. by eexists.
Qed.

Lemma verifier_fields a v :
  SignedBlockVerifier_new (contexts a) = Ret v → bv_context v = contexts a ∧
    ∃ l, genesis_blocks (contexts a) = Ret l ∧ bv_genesis v = list_to_set (reference <$> l).
Proof. unfold SignedBlockVerifier_new. intros (l & Hl & [= <-])%bind_Ret. split; [done|]. by exists l. Qed.

Lemma passes_formed b : passes b → formed c b.
Proof.
  intros Hb. destruct (Hb 0) as (v & Hv & [_ _ _ _ Han Hu Hq _]). destruct (verifier_fields 0 v Hv) as [Hctx _].
  rewrite Hctx, (ep_context Henv) in Hq. split; [|done|done].
  intros a [i Hi]%list_elem_of_lookup. by apply (Han i).
Qed.

(** The universe that the core goes on in is the one it publishes. *)
Lemma grown_published a G G1 hist sds log core :
  honest_universe c byz G → grows (contexts a) byz G G1 → commit_ok (contexts a) n G1 hist sds log core → published G core G1.
Proof.
  intros HG Hg Hok. apply (universe_of a) in HG.
  pose proof (grows_honest (contexts a) byz G G1 HG Hg) as HG1.
  destruct (last_proposed_spec _ (base_dag_wf _ _ _ core (cm_core _ _ _ _ _ _ _ Hok))) as (b & Hb & _).
  destruct (last_own (contexts a) G1 log core b (ok_base _ _ _ _ (cm_core _ _ _ _ _ _ _ Hok)) Hb) as (Hin & Hau & Hmax).
  destruct Hg as [|b0 Hmade]; [by eapply pub_old|]. pose proof (md_fresh _ _ _ _ Hmade) as Hfresh.
  assert (b = b0) as ->; [|by apply pub_new; [|apply Hfresh]].
  apply (extend_in G b0 Hfresh) in Hin as [Hin| ->]; [exfalso|done].
  pose proof (md_above _ _ _ _ Hmade b Hin Hau). pose proof (Hmax b0 (extend_self G b0) (md_author _ _ _ _ Hmade)). lia.
Qed.

Lemma published_det G core G1 G2 : published G core G1 → published G core G2 → G1 = G2.
Proof.
  unfold block_in. intros [b Hb Hin|b Hb Hn] [b' Hb' Hin'|b' Hb' Hn']; rewrite Hb in Hb'; injection Hb' as <-; congruence.
Qed.

(** A core goes on in the universe as it is, or with its own new block. *)
Lemma net_ok_update s a core G' :
  net_ok s → honest a → (∃ hist sds log, commit_ok (contexts a) n G' hist sds log core) → block_signer core = keys a →
  grows (contexts a) byz (net_blocks s) G' → rounds_safe G' →
  net_ok (mkNetwork G' (<[a := core]> (net_cores s))).
Proof.
  intros [HG _ Hgen Hval Hpass Henc Hcores Habs] Ha Hok Hs Hg Hr. pose proof (universe_of a _ HG) as HGa.
  pose proof (grows_honest (contexts a) byz _ G' HGa Hg) as HG'. rewrite (ep_context Henv a) in HG'.
  destruct Hg as [|b Hmade].
  - split; try done; cbn.
    + intros a' core' [[<- <-]|[Hne Hc']]%lookup_insert_Some; [done|by apply Hcores].
    + intros a' b Ha' [Hn _]%lookup_insert_None. by apply Habs.
  - pose proof (md_fresh _ _ _ _ Hmade) as Hfresh. pose proof (md_author _ _ _ _ Hmade) as Hau. rewrite (ep_own Henv a Ha) in Hau.
    split; try done; cbn.
    + intros a' l x Hl Hx. by apply (extend_mono _ b Hfresh), (Hgen a' l).
    + intros x [Hx| ->]%(extend_in _ b Hfresh); [by apply Hval|]. intros _ _ a' v Hv.
      eapply (md_verifies _ _ _ _ Hmade); [apply (ep_same Henv)|done].
    + intros x [Hx| ->]%(extend_in _ b Hfresh); [by apply Hpass|]. intros _ a'. destruct (verifier_starts a a' Ha) as [v Hv].
      exists v. split; [done|]. eapply (md_valid _ _ _ _ Hmade); [apply (ep_same Henv)|done].
    + intros x [Hx| ->]%(extend_in _ b Hfresh); [by apply Henc|apply (md_encoded _ _ _ _ Hmade)].
    + intros a' core' [[<- <-]|[Hne Hc']]%lookup_insert_Some; [done|].
      destruct (Hcores a' core' Hc') as (Ha' & Hs' & hist & sds & log & Hok'). split; [done|]. split; [done|].
      exists hist, sds, log. apply (commit_ok_extend (contexts a') byz n _ b (universe_of a' _ HG) Hfresh); [done|].
      rewrite (ep_own Henv a' Ha'), Hau. done.
    + intros a' x Ha' [Hn Hne]%lookup_insert_None [Hx| ->]%(extend_in _ b Hfresh) Hxa; [by apply (Habs a')|congruence].
Qed.

Lemma net_step_ok s s' : net_ok s → net_step s s' → net_ok s'.
Proof.
  intros Hs Hstep. pose proof (nk_universe _ Hs) as HG. pose proof (nk_rounds _ Hs) as Hr.
  destruct Hstep as [a st sy bo nows core G' Ha Hnone Hun Hrun Hpub Hr'|a core ev nows core' res G' Hc Hun Hev Hrun Hpub Hr'
    |a core core' Hc Hsh|b Hb Hf He Hfresh Hr'].
  - assert (awaits (contexts a) (net_blocks s)) as Hw.
    { split; [intros l b; apply (nk_genesis _ Hs)|]. rewrite (ep_own Henv a Ha). intros b. by apply (nk_absent _ Hs a). }
    destruct (start_core_spec (contexts a) byz (keys a) (ep_start Henv a Ha) _ (universe_of a _ HG) Hr Hw st sy bo nows Hun)
      as (core1 & Hrun1 & G1 & hist & sds & log & Hg & Hok & Hk).
    rewrite Hrun in Hrun1. injection Hrun1 as <-.
    rewrite (published_det _ _ _ _ Hpub (grown_published a _ _ _ _ _ _ HG Hg Hok)) in Hr' |- *. apply net_ok_update; try done. by exists hist, sds, log.
  - destruct (nk_cores _ Hs a core Hc) as (Ha & Hk & hist & sds & log & Hok). destruct (own_env a core Ha Hk) as [Hch Hce].
    destruct (handle_event_spec (contexts a) byz n _ (universe_of a _ HG) Hr Hch Hun hist sds log core ev nows Hok Hce Hev)
      as (core1 & res1 & Hrun1 & (G1 & hist1 & sds1 & log1 & Hg & Hok1 & _ & Hk1) & _).
    rewrite Hrun in Hrun1. injection Hrun1 as <- <-.
    rewrite (published_det _ _ _ _ Hpub (grown_published a _ _ _ _ _ _ HG Hg Hok1)) in Hr' |- *. apply net_ok_update; try done; [by exists hist1, sds1, log1|congruence].
  - destruct (nk_cores _ Hs a core Hc) as (Ha & Hk & hist & sds & log & Hok).
    destruct (own_env a core Ha Hk) as [Hch _].
    destruct (shared_step_ok (contexts a) byz n _ (universe_of a _ HG) hist sds log core core' (ch_dominant _ _ _ Hch)
      (safe_bounded _ Hr) Hok Hsh) as (Hok' & Hk').
    apply net_ok_update; try done; [by exists hist, sds, log|congruence|constructor].
  - destruct Hs as [_ _ Hgen Hval Hpass Henc Hcores Habs]. split; try done; cbn.
    + apply extend_byzantine; [done|done|done|by apply passes_formed].
    + intros a l x Hl Hx. by apply (extend_mono _ b Hfresh), (Hgen a l).
    + intros x [Hx| ->]%(extend_in _ b Hfresh); [by apply Hval|done].
    + intros x [Hx| ->]%(extend_in _ b Hfresh); [by apply Hpass|done].
    + intros x [Hx| ->]%(extend_in _ b Hfresh); [by apply Henc|done].
    + intros a core Hc. destruct (Hcores a core Hc) as (Ha & Hk & hist & sds & log & Hok). split; [done|]. split; [done|].
      exists hist, sds, log. apply (commit_ok_extend (contexts a) byz n _ b (universe_of a _ HG) Hfresh); [done|].
      rewrite (ep_own Henv a Ha). intros <-. by destruct Ha.
    + intros a x Ha Hn [Hx| ->]%(extend_in _ b Hfresh) Hxa; [by apply (Habs a)|]. subst a. by destruct Ha.
Qed.

(** ** The start *)

Lemma genesis_elem ctx l b :
  genesis_blocks ctx = Ret l → b ∈ l → vb_round b = 0 ∧ vb_ancestors b = [] ∧ vb_transaction_votes b = [].
Proof.
  intros Hl Hb. destruct (mapM_elem _ _ _ _ Hl Hb) as ([i a] & _ & Hg). unfold genesis_block in Hg.
  apply bind_Ret in Hg as (x & _ & Hg). injection Hg as <-.
  unfold vb_round, vb_ancestors, vb_transaction_votes, vb_inner, SignedBlock_new_genesis. simpl.
  by destruct (mysticeti_fastpath _).
Qed.

Lemma genesis_encoded ctx l b : genesis_blocks ctx = Ret l → b ∈ l → encoded b.
Proof.
  intros Hl Hb. destruct (mapM_elem _ _ _ _ Hl Hb) as ([i a] & _ & Hg). unfold genesis_block in Hg.
  apply bind_Ret in Hg as (x & Hx%expect_Ret & Hg). injection Hg as <-. done.
Qed.

Lemma genesis_authors ctx l : genesis_blocks ctx = Ret l → NoDup (vb_author <$> l).
Proof.
  intros Hl. enough (vb_author <$> l = fst <$> Committee_enumerate (committee ctx)) as ->.
  { rewrite enumerate_fst. apply NoDup_fmap_2; [apply _|apply NoDup_seq]. }
  unfold genesis_blocks in Hl. revert l Hl. induction (Committee_enumerate (committee ctx)) as [|[i x] es IH]; intros l Hl; cbn [mapM] in Hl.
  - by injection Hl as <-.
  - apply bind_Ret in Hl as (b & Hb & Hl). apply bind_Ret in Hl as (bs & Hbs & Hl). injection Hl as <-.
    csimpl. rewrite (IH bs Hbs). f_equal. unfold genesis_block in Hb. apply bind_Ret in Hb as (y & _ & Hb). injection Hb as <-.
    unfold vb_author, vb_inner, SignedBlock_new_genesis. simpl. by destruct (mysticeti_fastpath _).
Qed.

Lemma genesis_lookup ctx l r b :
  genesis_blocks ctx = Ret l → net_blocks (net_genesis l) r = Some b ↔ b ∈ l ∧ reference b = r.
Proof.
  intros Hl. cbn. assert (NoDup ((λ b, (reference b, b)) <$> l).*1) as Hnd.
  { rewrite <- list_fmap_compose. apply (NoDup_fmap_1 br_author). rewrite <- list_fmap_compose. by eapply (genesis_authors ctx). }
  rewrite <- (elem_of_list_to_map (M:=gmap BlockRef) _ _ _ Hnd), list_elem_of_fmap.
  split; [intros (? & [= -> ->] & ?); done|]. intros [? <-]. by exists b.
Qed.

Lemma genesis_honest ctx l : genesis_blocks ctx = Ret l → honest_universe c byz (net_blocks (net_genesis l)).
Proof.
  intros Hl. assert (∀ b, block_in (net_blocks (net_genesis l)) b → b ∈ l ∧ vb_round b = 0 ∧ vb_ancestors b = [] ∧ vb_transaction_votes b = []) as Hb.
  { intros b [Hb _]%(genesis_lookup ctx l _ _ Hl). split; [done|]. by apply (genesis_elem ctx l). }
  assert (∀ r r', ¬ parent (net_blocks (net_genesis l)) r r') as Hno.
  { intros r r' (b & Hbr & Ha). apply (genesis_lookup ctx l _ _ Hl) in Hbr as [Hbl _].
    destruct (genesis_elem ctx l b Hl Hbl) as (_ & Hn & _). rewrite Hn in Ha. by apply elem_of_nil in Ha. }
  split; [split|..].
  - apply Henv.
  - apply Henv.
  - intros r b Hbr. by apply (genesis_lookup ctx l _ _ Hl) in Hbr as [_ ?].
  - intros r r' Hp. by destruct (Hno r r').
  - intros b [_ (Hz & _)]%Hb Hr. lia.
  - intros b b' [Hin _]%Hb [Hin' _]%Hb Hs _. apply list_elem_of_lookup in Hin as [i Hi]. apply list_elem_of_lookup in Hin' as [j Hj].
    assert (i = j) as <-; [|congruence]. apply (NoDup_lookup (vb_author <$> l) i j (vb_author b)); [by eapply genesis_authors| |].
    + by rewrite list_lookup_fmap, Hi.
    + rewrite list_lookup_fmap, Hj. cbn. f_equal. symmetry. by apply (f_equal slot_authority) in Hs.
  - intros b (_ & _ & -> & _)%Hb. constructor.
  - intros x y (_ & Hx & _)%Hb (_ & Hy & _)%Hb _ _ Hr. lia.
  - intros b (_ & _ & _ & ->)%Hb _. constructor.
  - intros b r i (_ & _ & _ & Hn)%Hb _ (v & Hv & _). rewrite Hn in Hv. by apply elem_of_nil in Hv.
Qed.

Lemma net_genesis_ok l : genesis_blocks (contexts 0) = Ret l → net_ok (net_genesis l).
Proof.
  intros Hl. assert (∀ b, block_in (net_blocks (net_genesis l)) b → vb_round b = 0) as Hz.
  { intros b [Hb _]%(genesis_lookup _ l _ _ Hl). by apply (genesis_elem (contexts 0) l). }
  split.
  - by apply (genesis_honest (contexts 0)).
  - intros b Hb. rewrite (Hz b Hb). done.
  - intros a l' b Hl' Hb. rewrite <- (same_genesis (contexts a) (contexts 0)) in Hl' by apply (ep_same Henv).
    rewrite Hl in Hl'. injection Hl' as <-. by apply (genesis_lookup (contexts 0) l).
  - intros b Hb _ Hr. rewrite (Hz b Hb) in Hr. lia.
  - intros b Hb Hr. rewrite (Hz b Hb) in Hr. lia.
  - intros b [Hb _]%(genesis_lookup _ l _ _ Hl). by apply (genesis_encoded (contexts 0) l).
  - intros a core Hc. cbn in Hc. by rewrite lookup_empty in Hc.
  - intros a b _ _ Hb _. by apply Hz.
Qed.

Definition reachable (s : network) : Prop :=
  ∃ l, genesis_blocks (contexts 0) = Ret l ∧ rtc net_step (net_genesis l) s.

Lemma reachable_ok s : reachable s → net_ok s.
Proof.
  intros (l & Hl & Hrun). pose proof (net_genesis_ok l Hl) as H0'. clear Hl.
  induction Hrun as [s|s1 s2 s3 Hstep _ IH]; [done|]. apply IH. by eapply net_step_ok.
Qed.

(** What a validator has sent to execution, apart from how it was decided. *)
Definition sent_commits (core : Core MemStore) : list CommittedSubDag := plain <$> obs_sent (commit_observer core).
End Network.
