(* ===== verification/Wire.v ===== *)
(** A concrete encoding of blocks and commits, with its decoder and a digest. It stands for the
    serialization and the hash function of the system in the evaluated executions, and shows that
    what is assumed of them can be had. *)

From stdpp Require Import base tactics numbers list.
From Stdlib Require Strings.Byte.
From S2P Require Import Prelude.
From S2P Require Import Committee.
From S2P Require Import Block.
From S2P Require Import Commit.
From S2P Require Import DagInvariant.
From S2P Require Import CommitSyncer.

Open Scope N_scope.

(** * Encodings that delimit themselves *)

Class Wire (A : Type) := {
  put : A → list Byte.byte;
  get : list Byte.byte → option (A * list Byte.byte);
  get_put : ∀ a l, get (put a ++ l) = Some (a, l);
}.

(** Numbers: their bits from the lowest, and a byte for the highest. *)
Fixpoint put_pos (p : positive) : list Byte.byte :=
  match p with xH => [Byte.x02] | xO p => Byte.x00 :: put_pos p | xI p => Byte.x01 :: put_pos p end.

Fixpoint get_pos (l : list Byte.byte) : option (positive * list Byte.byte) :=
  match l with
  | Byte.x02 :: l => Some (xH, l)
  | Byte.x00 :: l => match get_pos l with Some (p, l) => Some (xO p, l) | None => None end
  | Byte.x01 :: l => match get_pos l with Some (p, l) => Some (xI p, l) | None => None end
  | _ => None
  end.

Lemma get_put_pos p l : get_pos (put_pos p ++ l) = Some (p, l).
Proof. induction p as [p IH|p IH|]; cbn; [by rewrite IH..|done]. Qed.

#[export] Instance wire_N : Wire N.
Proof.
  refine (Build_Wire _
    (λ n, match n with 0 => [Byte.x03] | Npos p => put_pos p end)
    (λ l, match l with
              | Byte.x03 :: l => Some (0, l)
              | _ => match get_pos l with Some (p, l) => Some (Npos p, l) | None => None end
              end) _).
  intros [|p] l; [done|]. rewrite get_put_pos. by destruct p.
Defined.

#[export] Instance wire_byte : Wire Byte.byte.
Proof.
  refine (Build_Wire _
    (λ b, [b])
    (λ l, match l with b :: l => Some (b, l) | [] => None end) _).
  done.
Defined.

#[export] Instance wire_prod {A B} `{Wire A} `{Wire B} : Wire (A * B).
Proof.
  refine (Build_Wire _
    (λ p, put p.1 ++ put p.2)
    (λ l, match get l with
              | Some (a, l) => match get l with Some (b, l) => Some ((a, b), l) | None => None end
              | None => None
              end) _).
  intros [a b] l. cbn. by rewrite <- app_assoc, get_put, get_put.
Defined.

#[export] Instance wire_sum {A B} `{Wire A} `{Wire B} : Wire (A + B).
Proof.
  refine (Build_Wire _
    (λ x, match x with inl a => Byte.x00 :: put a | inr b => Byte.x01 :: put b end)
    (λ l, match l with
              | Byte.x00 :: l => match get l with Some (a, l) => Some (inl a, l) | None => None end
              | Byte.x01 :: l => match get l with Some (b, l) => Some (inr b, l) | None => None end
              | _ => None
              end) _).
  intros [a|b] l; cbn; by rewrite get_put.
Defined.

(** Lists: the length, then the elements. *)
Fixpoint get_many {A} `{Wire A} (n : nat) (l : list Byte.byte) : option (list A * list Byte.byte) :=
  match n with
  | O => Some ([], l)
  | S n => match get l with
           | Some (a, l) => match get_many n l with Some (r, l) => Some (a :: r, l) | None => None end
           | None => None
           end
  end.

#[export] Instance wire_list {A} `{Wire A} : Wire (list A).
Proof.
  refine (Build_Wire _
    (λ l, put (N.of_nat (length l)) ++ (l ≫= put))
    (λ l, match get l with Some (n, l) => get_many (N.to_nat n) l | None => None end) _).
  intros l rest. rewrite <- app_assoc, get_put, Nat2N.id. induction l as [|a l IH]; [done|].
  cbn [length get_many mbind list_bind]. rewrite <- app_assoc, get_put. cbn [mbind list_bind] in IH. by rewrite IH.
Defined.

(** Records, through their fields. *)
Definition wire_via {A B} `{Wire B} (f : A → B) (g : B → A) (Hg : ∀ a, g (f a) = a) : Wire A.
Proof.
  refine (Build_Wire _
    (λ a, put (f a))
    (λ l, match get l with Some (b, l) => Some (g b, l) | None => None end) _).
  intros a l. by rewrite get_put, Hg.
Defined.

#[export] Instance wire_BlockRef : Wire BlockRef.
Proof.
  refine (wire_via (λ r, (br_round r, br_author r, br_digest r)) (λ '(r, a, d), mkBlockRef r a d) _).
  by intros [].
Defined.
#[export] Instance wire_CommitRef : Wire CommitRef.
Proof.
  refine (wire_via (λ r, (cr_index r, cr_digest r)) (λ '(i, d), mkCommitRef i d) _).
  by intros [].
Defined.
#[export] Instance wire_Transaction : Wire Transaction.
Proof.
  refine (wire_via transaction_data mkTransaction _).
  by intros [].
Defined.
#[export] Instance wire_votes : Wire BlockTransactionVotes.
Proof.
  refine (wire_via (λ v, (btv_block_ref v, btv_rejects v)) (λ '(r, l), mkBlockTransactionVotes r l) _).
  by intros [].
Defined.
#[export] Instance wire_report : Wire MisbehaviorReport.
Proof.
  refine (wire_via (λ m, (report_target m, match report_proof m with InvalidBlock r => r end))
           (λ '(t, r), mkMisbehaviorReport t (InvalidBlock r)) _).
  by intros [? []].
Defined.
#[export] Instance wire_BlockV1 : Wire BlockV1.
Proof.
  refine (wire_via (λ b, (v1_epoch b, v1_round b, v1_author b, v1_timestamp_ms b, v1_ancestors b, v1_transactions b,
                  v1_commit_votes b, v1_misbehavior_reports b))
           (λ '(e, r, a, t, an, tx, cv, mr), mkBlockV1 e r a t an tx cv mr) _).
  by intros [].
Defined.
#[export] Instance wire_BlockV2 : Wire BlockV2.
Proof.
  refine (wire_via (λ b, (v2_epoch b, v2_round b, v2_author b, v2_timestamp_ms b, v2_ancestors b, v2_transactions b,
                  v2_transaction_votes b, v2_commit_votes b, v2_misbehavior_reports b))
           (λ '(e, r, a, t, an, tx, tv, cv, mr), mkBlockV2 e r a t an tx tv cv mr) _).
  by intros [].
Defined.
#[export] Instance wire_Block : Wire Block.
Proof.
  refine (wire_via (λ b, match b with V1 b => inl b | V2 b => inr b end) (λ x, match x with inl b => V1 b | inr b => V2 b end) _).
  by intros [].
Defined.
#[export] Instance wire_SignedBlock : Wire SignedBlock.
Proof.
  refine (wire_via (λ b, (sb_inner b, sb_signature b)) (λ '(i, sig), mkSignedBlock i sig) _).
  by intros [].
Defined.
#[export] Instance wire_Commit : Wire Commit.
Proof.
  refine (wire_via (λ c, let c := commit_v1 c in
             (commit_index c, commit_previous_digest c, commit_timestamp_ms c, commit_leader c, commit_blocks c))
           (λ '(i, p, t, l, b), Commit_new i p t l b) _).
  by intros [[]].
Defined.

#[export] Instance wire_IntentMessage : Wire IntentMessage.
Proof.
  refine (wire_via (λ i, (intent_scope i, intent_version i, intent_app_id i, intent_value i))
           (λ '(s, v, a, d), mkIntentMessage s v a d) _).
  by intros [].
Defined.

(** * The instances of the system *)

#[export] Instance Byte_eq_dec : EqDecision Byte.byte := Byte.byte_eq_dec.

(** Only the bytes that encoding gives decode. *)
Definition decode_exactly {A} `{Wire A} (bytes : list Byte.byte) : option A :=
  match get bytes with
  | Some (a, []) => if bool_decide (put a = bytes) then Some a else None
  | _ => None
  end.

Lemma decode_exactly_spec {A} `{Wire A} bytes (a : A) : decode_exactly bytes = Some a ↔ put a = bytes.
Proof.
  unfold decode_exactly. split.
  - destruct (get bytes) as [[x [|]]|]; try done. case_bool_decide; [|done]. by intros [= <-].
  - intros <-. rewrite <- (app_nil_r (put a)) at 1. rewrite get_put. by rewrite bool_decide_true.
Qed.

Lemma put_inj {A} `{Wire A} (a a' : A) : put a = put a' → a = a'.
Proof.
  intros Heq. apply decode_exactly_spec in Heq. pose proof (proj2 (decode_exactly_spec _ a') eq_refl) as Ha'. congruence.
Qed.

(** A small digest: multiply, add, and cut to forty bits. *)
Definition poly_hash (bytes : list Byte.byte) : N :=
  foldl (λ h b, N.land (33 * h + Byte.to_N b + 1) (N.ones 40)) 5381 bytes.

Lemma poly_hash_bound bytes : poly_hash bytes ≤ Digest_MAX.
Proof.
  unfold poly_hash. assert (∀ h, h ≤ Digest_MAX → foldl (λ h b, N.land (33 * h + Byte.to_N b + 1) (N.ones 40)) h bytes ≤ Digest_MAX) as Hf.
  { induction bytes as [|b bytes IH]; intros h Hh; [done|]. cbn [foldl]. apply IH. rewrite N.land_ones.
    pose proof (N.mod_lt (33 * h + Byte.to_N b + 1) (2 ^ 40) ltac:(done)). unfold Digest_MAX. lia. }
  apply Hf. done.
Qed.

Definition wire_crypto : Crypto := {|
  bcs_block := λ b, Some (put b); bcs_signed_block := λ b, Some (put b); bcs_intent := λ i, Some (put i);
  hash := poly_hash; sign := λ keypair message, keypair ++ message; signature_from_bytes := λ s, Some s;
  signature_verify := λ key message sig, bool_decide (sig = key ++ message) |}.

Definition wire_codec : CommitCodec := {| bcs_commit := λ c, Some (put c) |}.

Definition wire_decoder : Decoder := {|
  decode_commit := decode_exactly; decode_signed_block := decode_exactly; decode_block_ref := decode_exactly |}.

Lemma wire_decoder_spec : @DecoderSpec wire_crypto wire_codec wire_decoder.
Proof.
  split; intros s x; cbn [decode_commit decode_signed_block wire_decoder bcs_commit wire_codec bcs_signed_block wire_crypto];
    rewrite decode_exactly_spec; (split; [by intros ->|congruence]).
Qed.
