(* ===== verification/FetchSafety.v ===== *)
(** Fetched commits in the network: what the commit syncer fetches from a peer, honest or not, is
    a part of the history of an honest validator, and the core that takes it catches up. *)

From stdpp Require Import base tactics numbers list gmap sorting.
From coqutil Require Import Datatypes.RecordSettersUsingExistingGetters.
From S2P Require Import Prelude.
From S2P Require Import Committee.
From S2P Require Import Block.
From S2P Require Import StakeAggregator.
From S2P Require Import ThresholdClock.
From S2P Require Import Commit.
From S2P Require Import Store.
From S2P Require Import LeaderScoring.
From S2P Require Import DagState.
From S2P Require Import DagInvariant.
From S2P Require Import LeaderSchedule.
From S2P Require Import BaseCommitter.
From S2P Require Import CommitSafety.
From S2P Require Import UniversalCommitter.
From S2P Require Import Linearizer.
From S2P Require Import BlockVerifier.
From S2P Require Import BlockManager.
From S2P Require Import BlockOrigin.
From S2P Require Import TransactionConsumer.
From S2P Require Import CommitObserver.
From S2P Require Import RoundTracker.
From S2P Require Import Ancestor.
From S2P Require Import TransactionCertifier.
From S2P Require Import CommitSyncer.
From S2P Require Import Core.
From S2P Require Import ProposalState.
From S2P Require Import Proposal.
From S2P Require Import Growth.
From S2P Require Import CommitProgress.
From S2P Require Import ScheduleProgress.
From S2P Require Import CoreInvariant.
From S2P Require Import ProposedBlock.
From S2P Require Import CommitFrame.
From S2P Require Import CoreCommit.
From S2P Require Import CoreRun.
From S2P Require Import CoreThread.
From S2P Require Import AuthorityNode.
From S2P Require Import Network.

Open Scope N_scope.

(** * The history of a validator *)

(** The commit that stands for the sub-DAG at a position of a history. *)
Definition previous_digest (sds : list CommittedSubDag) (i : nat) : N :=
  match i with O => Digest_MIN | S j => from_option (λ sd, cr_digest (sd_commit_ref sd)) Digest_MIN (sds !! j) end.

Definition commit_at (sds : list CommittedSubDag) (i : nat) (sd : CommittedSubDag) : Commit :=
  Commit_new (N.of_nat i + 1) (previous_digest sds i) (sd_timestamp_ms sd) (sd_leader sd) (reference <$> sd_blocks sd).

Section History.
Context `{LeaderRng} `{Crypto} `{CommitCodec}.
Context (ctx : Context) (n : N) (G : universe).

Lemma commit_at_app sds new i sd : sds !! i = Some sd → commit_at (sds ++ new) i sd = commit_at sds i sd.
Proof.
  intros Hi. unfold commit_at. f_equal. destruct i as [|j]; [done|]. cbn. rewrite lookup_app_l; [done|].
  apply lookup_lt_Some in Hi. lia.
Qed.

(** A history is a chain: each commit has the digest of the one before. *)
Lemma progress_chain hist st sds :
  progress ctx n G hist st sds →
  log_digest (pg_log st) = previous_digest sds (length sds) ∧
  ∀ i sd, sds !! i = Some sd →
    ∃ bytes, bcs_commit (commit_at sds i sd) = Some bytes ∧ sd_commit_ref sd = mkCommitRef (N.of_nat i + 1) (hash bytes).
Proof.
  intros Hprog. induction Hprog as [|hist st sds st1 lead status st2 new Hp [IH1 IH2] Hr He Hd Ha]; [done|].
  pose proof (renew_log ctx n st st1 Hr) as Hlog. destruct (progress_indices ctx n G _ _ _ Hp) as [_ Hidx].
  destruct Ha as [x|L sd log scoring Hco Hf Hv Hadd]; [rewrite app_nil_r, Hlog; done|].
  rewrite Hlog in Hco, Hf. destruct (cf_index _ _ _ _ _ _ Hf) as [Hi1 Hi2].
  destruct Hco as (C' & out & ts & bytes & _ & _ & Hser & Hsd & Hlog').
  assert (u32_add (log_index (pg_log st)) 1 = N.of_nat (length sds) + 1) as Hadd1.
  { rewrite Hsd in Hi1. cbn in Hi1. unfold tc_index in Hi1. cbn in Hi1. rewrite Hi1. lia. }
  rewrite Hadd1, IH1 in Hser, Hsd, Hlog'. split.
  - rewrite length_app, Nat.add_1_r. cbn. rewrite list_lookup_middle by done. cbn. rewrite Hlog', Hsd. done.
  - intros i x [Hx|[Hge Hx]]%lookup_app_Some; [rewrite commit_at_app by done; by apply IH2|].
    apply list_lookup_singleton_Some in Hx as [Hz <-]. assert (i = length sds) as -> by lia.
    exists bytes. rewrite Hsd. split; [|done]. rewrite <- Hser. unfold commit_at. cbn. f_equal. f_equal.
    destruct (length sds) as [|k] eqn:Hk; [done|]. cbn. by rewrite lookup_app_l by lia.
Qed.

(** No block is committed twice. *)
Lemma progress_blocks hist st sds :
  progress ctx n G hist st sds →
  NoDup (sds ≫= λ sd, reference <$> sd_blocks sd) ∧
  (∀ r, r ∈ (sds ≫= λ sd, reference <$> sd_blocks sd) → r ∈ log_committed (pg_log st)) ∧
  ∀ sd b, sd ∈ sds → b ∈ sd_blocks sd → block_in G b ∧ 0 < vb_round b.
Proof.
  intros Hprog. induction Hprog as [|hist st sds st1 lead status st2 new Hp (IH1 & IH2 & IH3) Hr He Hd Ha].
  { split; [constructor|]. split; [by intros r Hx%elem_of_nil|by intros sd b Hx%elem_of_nil]. }
  pose proof (renew_log ctx n st st1 Hr) as Hlog. destruct Ha as [x|L sd log scoring Hco Hf Hv Hadd]; [by rewrite app_nil_r, Hlog|].
  rewrite Hlog in Hf. rewrite bind_app. cbn [mbind list_bind]. rewrite app_nil_r. cbn [pg_log]. split; [|split].
  - apply NoDup_app. split; [done|]. split; [|apply (cf_nodup _ _ _ _ _ _ Hf)].
    intros r Hin Hin'. by apply (cf_new _ _ _ _ _ _ Hf r Hin'), IH2.
  - intros r [Hin|Hin]%elem_of_app; apply (cf_committed _ _ _ _ _ _ Hf); auto.
  - intros x b [Hx| ->%list_elem_of_singleton]%elem_of_app Hb; [by eapply IH3|].
    destruct (cf_blocks_in _ _ _ _ _ _ Hf b Hb) as (? & ? & _). split; [done|lia].
Qed.

(** The round of the leader before a position. *)
Definition prior_round (sds : list CommittedSubDag) (p : nat) : N :=
  match p with O => 0 | S q => from_option (λ sd, br_round (sd_leader sd)) 0 (sds !! q) end.

Lemma prior_round_app sds new p : (p ≤ length sds)%nat → prior_round (sds ++ new) p = prior_round sds p.
Proof. intros Hp. destruct p as [|q]; [done|]. cbn. by rewrite lookup_app_l by lia. Qed.

(** The history of a sub-DAG, above the garbage collection round before it, is committed with it
    or before. *)
Lemma progress_closed hist st sds :
  progress ctx n G hist st sds →
  log_round (pg_log st) = prior_round sds (length sds) ∧
  (∀ r, r ∈ log_committed (pg_log st) ↔ r ∈ sds ≫= λ sd, reference <$> sd_blocks sd) ∧
  ∀ p sd b x, sds !! p = Some sd → b ∈ sd_blocks sd → x ∈ vb_ancestors b →
    prior_round sds p - gc_depth (protocol_config ctx) < br_round x → x ∈ take (S p) sds ≫= λ sd, reference <$> sd_blocks sd.
Proof.
  intros Hprog. induction Hprog as [|hist st sds st1 lead status st2 new Hp (IH1 & IH2 & IH3) Hr He Hd Ha].
  { split; [done|]. split; [|done]. intros r. cbn. set_solver. }
  pose proof (renew_log ctx n st st1 Hr) as Hlog. destruct Ha as [x|L sd log scoring Hco Hf Hv Hadd]; [by rewrite app_nil_r, Hlog|].
  rewrite Hlog in Hf. cbn [pg_log].
  assert (∀ r, r ∈ log_committed log ↔ r ∈ (sds ++ [sd]) ≫= λ sd, reference <$> sd_blocks sd) as Hall.
  { intros r. rewrite (cf_committed _ _ _ _ _ _ Hf), IH2, bind_app, elem_of_app. cbn [mbind list_bind]. by rewrite app_nil_r. }
  split; [|split; [done|]].
  - rewrite length_app, Nat.add_1_r. cbn. rewrite list_lookup_middle by done. cbn.
    rewrite (cf_leader _ _ _ _ _ _ Hf), reference_round. apply (cf_round _ _ _ _ _ _ Hf).
  - intros p y b x [Hy|[Hge Hy]]%lookup_app_Some Hb Hx Hgc; pose proof (lookup_lt_Some _ _ _ Hy) as Hlt.
    + rewrite prior_round_app in Hgc by lia. rewrite take_app_le by lia. by eapply IH3.
    + apply list_lookup_singleton_Some in Hy as [Hz <-]. assert (p = length sds) as -> by lia.
      rewrite take_ge by (rewrite length_app; cbn; lia). apply Hall. apply (cf_closed _ _ _ _ _ _ Hf b x Hb Hx).
      rewrite prior_round_app, <- IH1 in Hgc by lia. exact Hgc.
Qed.
End History.

(** * Certified commits *)

Section Certified.
Context `{LeaderRngSpec} `{Crypto} `{CommitCodec} `{TransactionVerifier} `{Decoder} `{!DecoderSpec}.
Context (c : Committee) (byz : gset N) (contexts : N → Context) (keys : N → list Byte.byte).
Context (Henv : epoch_env c byz contexts keys) (s : network) (Hs : net_ok c byz contexts keys s).
Let n := CONSENSUS_COMMITS_PER_SCHEDULE.
Let G := net_blocks s.

(** The bytes that honest validators made: their commits, and the blocks that exist. *)
Definition commit_bytes (y : list Byte.byte) : Prop :=
  ∃ a core i sd, net_cores s !! a = Some core ∧ sent_commits core !! i = Some sd ∧
    bcs_commit (commit_at (sent_commits core) i sd) = Some y.

Definition block_bytes (y : list Byte.byte) : Prop := ∃ b, block_in G b ∧ vb_serialized b = y.

(** Nobody finds other bytes with the same digest. *)
Definition resists (received made : list Byte.byte → Prop) : Prop :=
  ∀ x y, received x → made y → hash x = hash y → x = y.

Lemma sent_history a core :
  net_cores s !! a = Some core → ∃ hist st, progress (contexts a) n G hist st (sent_commits core).
Proof.
  intros Ha. destruct (nk_cores _ _ _ _ _ Hs a core Ha) as (_ & _ & hist & sds & log & Hok).
  unfold sent_commits. rewrite (cm_sent _ _ _ _ _ _ _ Hok). destruct (cm_progress _ _ _ _ _ _ _ Hok) as (st & Hp & _).
  by exists hist, st.
Qed.

(** Bytes of a block that exists verify as that block. *)
Lemma existing_verified v b x : block_bytes x → verified_from v b x → block_in G b.
Proof.
  intros (B & HB & <-) Hfrom. destruct (verified_from_block v b _ Hfrom) as (Hser & Hdig & Hdec & _).
  destruct (nk_encoded _ _ _ _ _ Hs B HB) as [Henc Hd]. apply decode_signed_block_spec in Henc. rewrite Henc in Hdec.
  assert (b = B) as ->; [|done]. destruct b, B. cbn in *. congruence.
Qed.

(** What a validator of the network serves exists. *)
Lemma lookup_exists a core r b :
  net_cores s !! a = Some core → dag_lookup (dag_state core) r = Some b → block_in G b ∧ reference b = r.
Proof.
  intros Ha Hb. destruct (nk_cores _ _ _ _ _ Hs a core Ha) as (_ & _ & hist & sds & log & Hok).
  pose proof (v_sub _ _ _ (no_view _ _ _ _ (ok_node _ _ _ _ (ok_base _ _ _ _ (cm_core _ _ _ _ _ _ _ Hok)))) r b Hb) as HG.
  pose proof (bft_ref _ _ _ (hu_bft _ _ _ (nk_universe _ _ _ _ _ Hs)) _ _ HG) as Href. split; [|done].
  unfold block_in. by rewrite Href.
Qed.

(** A quorum of votes has one of an honest validator, which votes for its own commits only. *)
Lemma voted_commit v range commits vote_blocks :
  (∀ b, b ∈ vote_blocks → block_in G b) → committee (bv_context v) = c →
  certified_chain v range commits vote_blocks →
  ∃ tc a core i sd, last commits = Some tc ∧ net_cores s !! a = Some core ∧
    sent_commits core !! i = Some sd ∧ tc_reference tc = sd_commit_ref sd.
Proof.
  intros Hin Hv [_ _ _ Hblocks (tc & Hlast & Hq)]. rewrite Hv in Hq.
  destruct (honest_pair c byz G (hu_bft _ _ _ (nk_universe _ _ _ _ _ Hs)) _ _ Hq Hq) as (a & Ha & _ & Hb).
  apply elem_of_commit_voters in Ha as (b & Hbv & Hvote & Hau). specialize (Hin b Hbv). destruct (Hblocks b Hbv) as (Hver & _).
  destruct (verify_block_member v (vb_block b) Hver) as [Hr Hval]. rewrite Hv in Hval. change (is_valid_index c (vb_author b) = true) in Hval.
  destruct (net_cores s !! a) as [core|] eqn:Ha.
  2: { assert (vb_round b = 0) as Hz by (apply (nk_absent _ _ _ _ _ Hs a); [by subst a|done|done|done]).
       unfold vb_round, vb_inner in Hz. lia. }
  destruct (nk_cores _ _ _ _ _ Hs a core Ha) as (Hh & _ & hist & sds & log & Hok).
  pose proof (ca_blocks _ _ _ _ (cm_cast _ _ _ _ _ _ _ Hok) b (tc_reference tc) Hin) as Hc. rewrite (ep_own _ _ _ _ Henv a Hh) in Hc.
  specialize (Hc Hau Hvote). apply list_elem_of_fmap in Hc as (sd & Hsd & [i Hi]%list_elem_of_lookup).
  exists tc, a, core, i, sd. unfold sent_commits. by rewrite (cm_sent _ _ _ _ _ _ _ Hok).
Qed.

(** The commit at a position of the history of a validator. *)
Definition made_at (core : Core MemStore) (p : nat) (tc : TrustedCommit) : Prop :=
  ∃ sd, sent_commits core !! p = Some sd ∧ tc_inner tc = commit_at (sent_commits core) p sd ∧
    tc_reference tc = sd_commit_ref sd.

(** A commit with the digest of one of the history is that one. *)
Lemma digest_made a core p sd tc :
  net_cores s !! a = Some core → sent_commits core !! p = Some sd →
  (∀ y, commit_bytes y → hash (tc_serialized tc) = hash y → tc_serialized tc = y) →
  tc_digest tc = hash (tc_serialized tc) → decode_commit (tc_serialized tc) = Some (tc_inner tc) →
  tc_digest tc = cr_digest (sd_commit_ref sd) → made_at core p tc.
Proof.
  intros Ha Hp Hres Hd Hdec Heq. destruct (sent_history a core Ha) as (hist & st & Hprog).
  destruct (progress_chain _ _ _ _ _ _ Hprog) as [_ Hchain]. destruct (Hchain p sd Hp) as (bytes & Hb & Href).
  exists sd. split; [done|]. rewrite Href in Heq. cbn in Heq.
  assert (tc_serialized tc = bytes) as Hser by (apply Hres; [by exists a, core, p, sd|congruence]).
  rewrite Hser in Hdec. apply decode_commit_spec in Hb. assert (tc_inner tc = commit_at (sent_commits core) p sd) as Hinner by congruence.
  split; [done|]. unfold tc_reference, tc_index. rewrite Hinner, Href, Heq. done.
Qed.

(** The whole chain is of that history. *)
Lemma chain_made v range commits vote_blocks :
  (∀ b, b ∈ vote_blocks → block_in G b) → committee (bv_context v) = c → 0 < CommitRange_start range →
  certified_chain v range commits vote_blocks → resists (λ x, x ∈ tc_serialized <$> commits) commit_bytes →
  ∃ a core, net_cores s !! a = Some core ∧
    ∀ i tc, commits !! i = Some tc → made_at core (N.to_nat (CommitRange_start range - 1) + i) tc.
Proof.
  intros Hin Hv Hpos Hch Hres. destruct (voted_commit v range commits vote_blocks Hin Hv Hch) as (last_ & a & core & p & sd & Hlast & Ha & Hp & Href).
  exists a, core. split; [done|]. destruct Hch as [Hidx Hdig Hprev _ _]. set (off := N.to_nat (CommitRange_start range - 1)).
  assert (∀ i tc q sd, commits !! i = Some tc → sent_commits core !! q = Some sd → tc_digest tc = cr_digest (sd_commit_ref sd) →
    made_at core q tc) as Hmade.
  { intros i tc q x Hi Hq Heq. pose proof (list_elem_of_lookup_2 _ _ _ Hi) as Hel. destruct (Hdig tc Hel) as [Hd1 Hd2].
    apply (digest_made a core q x); try done. intros y Hy. apply Hres; [by apply list_elem_of_fmap_2|done]. }
  assert (∀ j i tc, commits !! i = Some tc → (i + j + 1 = length commits)%nat → made_at core (off + i) tc) as Hback.
  2: { intros i tc Hi. apply (Hback (length commits - i - 1)%nat i tc Hi). apply lookup_lt_Some in Hi. lia. }
  intros j. induction j as [|j IH]; intros i tc Hi Hlen.
  - rewrite last_lookup in Hlast. replace (pred (length commits)) with i in Hlast by lia. rewrite Hi in Hlast. injection Hlast as <-.
    destruct (sent_history a core Ha) as (hist & st & Hprog). pose proof (proj1 (progress_indices _ _ _ _ _ _ Hprog) p sd Hp) as Hpi.
    rewrite <- Href in Hpi. cbn in Hpi. rewrite (proj1 (Hidx i tc Hi)) in Hpi. replace (off + i)%nat with p by lia.
    apply (Hmade i tc p sd); [done|done|]. by rewrite <- Href.
  - destruct (lookup_lt_is_Some_2 commits (S i)) as [tc' Hi']; [lia|].
    destruct (IH (S i) tc' Hi') as (sd' & Hsd' & Hinner & _); [lia|].
    destruct (lookup_lt_is_Some_2 (sent_commits core) (off + i)) as [x Hx]; [apply lookup_lt_Some in Hsd'; lia|].
    apply (Hmade i tc _ x Hi Hx). rewrite <- (Hprev i tc tc' Hi Hi'). unfold tc_previous_digest. rewrite Hinner.
    unfold commit_at. cbn. rewrite Nat.add_succ_r. cbn. by rewrite Hx.
Qed.

(** * Votes along the way *)

Section Fetch.
Context (a : N) (core : Core MemStore) (hist : list LeaderStatus) (sds : list CommittedSubDag) (log : commit_log).
Context (Ha : net_cores s !! a = Some core) (v : SignedBlockVerifier) (Hv : SignedBlockVerifier_new (contexts a) = Ret v).
Let ctx := contexts a.
Let gc := dag_gc_round (dag_state core).

(** The core with the certifier that the syncer shares with it. *)
Definition shares (t : TransactionCertifier) : Prop := commit_ok ctx n G hist sds log (core <| transaction_certifier := t |>).

Definition keeps_votes (t t' : TransactionCertifier) : Prop := ∀ x, voted t x → gc < vb_round x → voted t' x.

#[local] Instance keeps_votes_order : PreOrder keeps_votes.
Proof. split; [by intros t x|]. intros t1 t2 t3 H12 H23 x Hx Hr. auto. Qed.

(** The block is counted when its votes matter. *)
Definition counted (t : TransactionCertifier) (b : VerifiedBlock) : Prop :=
  mysticeti_fastpath (protocol_config ctx) = true → gc < vb_round b → voted t b.

Lemma counted_keeps t t' b : counted t b → keeps_votes t t' → counted t' b.
Proof. intros Hc Hk Hf Hr. apply Hk; [by apply Hc|done]. Qed.

Lemma context_of_v : bv_context v = ctx ∧ committee (bv_context v) = c.
Proof. destruct (verifier_fields contexts a v Hv) as [-> _]. split; [done|]. apply (ep_context _ _ _ _ Henv). Qed.

Lemma vote_one t b own :
  shares t → mysticeti_fastpath (protocol_config ctx) = true → block_in G b → is_valid_index c (vb_author b) = true →
  ∃ t', certifier_add_voted_blocks t [(b, own)] = Ret t' ∧ shares t' ∧ keeps_votes t t' ∧ counted t' b.
Proof.
  intros Hok Hfp Hb Hval. pose proof (universe_of c byz contexts keys Henv a _ (nk_universe _ _ _ _ _ Hs)) as HG.
  pose proof (bft_committee _ _ _ (hu_bft _ _ _ HG)) as Hc.
  destruct (ok_fastpath _ _ _ _ (cm_core _ _ _ _ _ _ _ Hok) Hfp) as (_ & _ & added & outs & Hrun & Hg & Hin & _). cbn in Hrun, Hg.
  destruct (shared_votes_spec ctx byz G HG [(b, own)] (certifier_state t) added outs [] Hrun Hin)
    as (cs' & local & added' & Hadd & Hrun' & Hg' & Hsub & Hin' & Hnew).
  { intros x o [= -> ->]%list_elem_of_singleton. split; [done|]. unfold ctx. by rewrite (ep_context _ _ _ _ Henv). }
  unfold certifier_add_voted_blocks, add_voted_blocks. rewrite Hadd. cbn [mbind outcome_bind].
  set (t' := send_certified_blocks _ _). assert (certifier_state t' = cs') as Ht' by apply sent_state.
  assert (keeps_votes t t') as Hkeep.
  { intros x Hx Hr. apply (voted_iff ctx t added outs x Hc Hrun) in Hx as [Hx1 Hx2].
    apply (voted_iff ctx t' added' (outs ++ local) x Hc); rewrite Ht'; [done|]. split; [auto|by rewrite Hg']. }
  exists t'. split; [done|]. split; [|split; [done|]].
  - apply (commit_ok_certifier ctx byz n G HG hist sds log (core <| transaction_certifier := t |>) t' Hok). intros _.
    exists added', (outs ++ local). rewrite Ht', Hg'. done.
  - intros _ Hr. apply (voted_iff ctx t' added' (outs ++ local) b Hc); rewrite Ht'; [done|].
    split; [|unfold gc in Hr; cbn in Hg; rewrite Hg'; lia]. apply (Hnew b own); [left|]. unfold gc in Hr. cbn in Hg. lia.
Qed.

(** [if fastpath] around the votes. *)
Lemma vote_if t b own :
  shares t → block_in G b → is_valid_index c (vb_author b) = true →
  ∃ t', (if mysticeti_fastpath (protocol_config (bv_context v)) then certifier_add_voted_blocks t [(b, own)] else Ret t) = Ret t' ∧
    shares t' ∧ keeps_votes t t' ∧ counted t' b.
Proof.
  intros Hok Hb Hval. destruct context_of_v as [-> _]. destruct (mysticeti_fastpath _) eqn:Hfp; [by apply vote_one|].
  exists t. split; [done|]. split; [done|]. split; [done|]. intros Hf. unfold ctx in *. congruence.
Qed.

(** What is assumed of the bytes of the blocks that vote: their transactions fit in memory, and
    a block that verifies exists. *)
Definition votes_sound (bytes : list (list Byte.byte)) : Prop :=
  ∀ x, x ∈ bytes → (∀ signed, decode_signed_block x = Some signed →
      nsum (data_len <$> block_transactions_data (sb_inner signed)) < 2 ^ 64) ∧
    ∀ b, verified_from v b x → block_in G b.

Lemma verify_and_vote_total signed x :
  nsum (data_len <$> block_transactions_data (sb_inner signed)) < 2 ^ 64 → ∃ res, verify_and_vote v signed x = Ret res.
Proof.
  intros Hsize. unfold verify_and_vote, try_bind. destruct context_of_v as [_ Hc].
  destruct (verify_block_spec v signed) as (res & -> & _); [rewrite Hc; apply (ep_committee _ _ _ _ Henv)|done|].
  cbn [mbind outcome_bind]. destruct res as [[]|e]; [|by eexists]. destruct (mysticeti_fastpath _).
  - cbn [mbind outcome_bind]. destruct (vote _); by eexists.
  - destruct (verify_batch _); by eexists.
Qed.

Lemma vote_blocks_total r bytes t agg pre :
  shares t → votes_sound bytes → (∀ b, b ∈ pre → counted t b) → agg_repr c (commit_voters r pre) agg →
  ∃ t' res, verify_vote_blocks v r t agg pre bytes = Ret (t', res) ∧ shares t' ∧ keeps_votes t t' ∧
    ∀ agg' blocks, res = Ok (agg', blocks) → ∀ b, b ∈ blocks → counted t' b.
Proof.
  revert t agg pre. induction bytes as [|x bytes IH]; intros t agg pre Hok Hvs Hpre Hagg; cbn [verify_vote_blocks].
  { exists t, (Ok (agg, pre)). split; [done|]. split; [done|]. split; [done|]. by intros agg' blocks [= <- <-]. }
  destruct (decode_signed_block x) as [signed|] eqn:Hx; [|by exists t, (Err MalformedBlock)].
  destruct (Hvs x) as [Hsize Hin]; [left|]. destruct (verify_and_vote_total signed x (Hsize signed Hx)) as [res Hres].
  rewrite Hres. cbn [mbind outcome_bind]. destruct res as [[b rejected]|e]; [|by exists t, (Err e)].
  assert (verified_from v b x) as Hfrom by by exists signed, rejected. specialize (Hin b Hfrom).
  destruct (verified_from_block v b x Hfrom) as (_ & _ & _ & _ & Hval). destruct context_of_v as [_ Hc]. rewrite Hc in Hval |- *.
  destruct (vote_if t b rejected Hok Hin Hval) as (t1 & -> & Hok1 & Hk1 & Hb1). cbn [mbind outcome_bind].
  destruct (count_votes_spec c r _ agg b (ep_committee _ _ _ _ Henv) Hagg Hval) as (agg1 & -> & Hagg1). cbn [mbind outcome_bind].
  destruct (IH t1 agg1 (pre ++ [b]) Hok1) as (t' & res & -> & Hok' & Hk' & Hres').
  - intros y Hy. apply Hvs. by right.
  - intros y [Hy| ->%list_elem_of_singleton]%elem_of_app; [by eapply counted_keeps; [apply Hpre|]|done].
  - by rewrite commit_voters_snoc.
  - exists t', res. split; [done|]. split; [done|]. split; [by etrans|done].
Qed.

(** The range of a fetch. *)
Definition range_ok (range : CommitRange) : Prop :=
  0 < range_lo range ∧ range_lo range < range_hi range ∧ range_hi range ≤ u32_max.

Lemma verify_commits_total peer range commits_bytes block_bytes_ t :
  shares t → votes_sound block_bytes_ → range_ok range →
  ∃ t' res, verify_commits v t peer range commits_bytes block_bytes_ = Ret (t', res) ∧ shares t' ∧ keeps_votes t t' ∧
    ∀ commits vote_blocks, res = Ok (commits, vote_blocks) →
      certified_chain v range commits vote_blocks ∧
      tc_serialized <$> commits = take (length commits) commits_bytes ∧
      ∀ b, b ∈ vote_blocks → block_in G b ∧ counted t' b.
Proof.
  intros Hok Hvs (Hr1 & Hr2 & Hr3). destruct context_of_v as [_ Hc].
  assert (∃ t' res, verify_commits v t peer range commits_bytes block_bytes_ = Ret (t', res) ∧ shares t' ∧ keeps_votes t t' ∧
    ∀ commits vote_blocks, res = Ok (commits, vote_blocks) → ∀ b, b ∈ vote_blocks → counted t' b)
    as (t' & res & Hrun & Hok' & Hk & Hcnt).
  { unfold verify_commits. destruct (verify_chain _ _ _ _) as [cs|e]; [|by exists t, (Err e)].
    destruct (last cs) as [[digest commit]|]; [|by exists t, (Err (NoCommitReceived peer))].
    destruct (vote_blocks_total (mkCommitRef (commit_index (commit_v1 commit)) digest) block_bytes_ t StakeAggregator_new [] Hok Hvs)
      as (t' & res & -> & Hok' & Hk & Hres); [by intros b Hb%elem_of_nil|apply agg_repr_new|]. cbn [mbind outcome_bind].
    destruct res as [[agg blocks]|e]; [|by exists t', (Err e)].
    destruct (reached_threshold _ _ _); [|by eexists t', (Err _)]. eexists t', _. split; [done|]. split; [done|]. split; [done|].
    intros x y [= <- <-]. by eapply Hres. }
  exists t', res. split; [done|]. split; [done|]. split; [done|]. intros commits vote_blocks ->.
  destruct (verified_commits_certified v t peer range commits_bytes block_bytes_ t' commits vote_blocks) as (Hch & Hser & Hbl);
    [rewrite Hc; apply (ep_committee _ _ _ _ Henv)|lia|done|unfold CommitRange_start, CommitRange_end, saturating_sub; lia|done|].
  split; [done|]. split; [done|]. intros b Hb. split; [|by eapply Hcnt].
  apply list_elem_of_lookup in Hb as [i Hb]. destruct (Forall2_lookup_l _ _ _ _ _ Hbl Hb) as (x & Hx & Hfrom).
  apply (Hvs x); [by apply list_elem_of_lookup_2 in Hx|done].
Qed.

(** ** The blocks of the commits *)

Lemma passes_author b : block_in G b → 0 < vb_round b → is_valid_index c (vb_author b) = true.
Proof.
  intros Hb Hr. destruct (nk_passes _ _ _ _ _ Hs b Hb Hr a) as (v' & Hv' & Hval). rewrite Hv in Hv'. injection Hv' as <-.
  destruct context_of_v as [_ Hc]. rewrite <- Hc. apply (vk_author _ _ Hval).
Qed.

Lemma vote_all blocks t :
  shares t → (∀ b, b ∈ blocks → block_in G b ∧ 0 < vb_round b) →
  ∃ t', (if mysticeti_fastpath (protocol_config (bv_context v))
         then foldM (λ t b, certifier_add_voted_blocks t [(b, [])]) t blocks else Ret t) = Ret t' ∧
    shares t' ∧ keeps_votes t t' ∧ ∀ b, b ∈ blocks → counted t' b.
Proof.
  intros Hok Hb. destruct context_of_v as [-> _]. destruct (mysticeti_fastpath _) eqn:Hfp.
  2: { exists t. split; [done|]. split; [done|]. split; [done|]. intros b _ Hf. unfold ctx in *. congruence. }
  revert t Hok. induction blocks as [|b blocks IH]; intros t Hok; cbn [foldM].
  { exists t. split; [done|]. split; [done|]. split; [done|]. by intros b Hx%elem_of_nil. }
  destruct (Hb b) as [Hin Hr]; [left|].
  destruct (vote_one t b [] Hok Hfp Hin (passes_author b Hin Hr)) as (t1 & -> & Hok1 & Hk1 & Hc1). cbn [mbind outcome_bind].
  destruct (IH ltac:(intros x Hx; apply Hb; by right) t1 Hok1) as (t' & Hrun & Hok' & Hk' & Hc'). exists t'.
  split; [done|]. split; [done|]. split; [by etrans|]. intros x [-> |Hx]%elem_of_cons; [by eapply counted_keeps|by apply Hc'].
Qed.

(** Bytes with the digest of a block that exists are those of the block. *)
Lemma same_block received b b' :
  resists received block_bytes → block_in G b → arrived b' → received (vb_serialized b') → reference b' = reference b → b' = b.
Proof.
  intros Hres Hb [Hd Hdec] Hrec Href. destruct (nk_encoded _ _ _ _ _ Hs b Hb) as [Henc Hdig].
  assert (vb_digest b' = vb_digest b) as Heq by exact (f_equal br_digest Href).
  assert (vb_serialized b' = vb_serialized b) as Hser by (apply Hres; [done|by exists b|congruence]).
  apply decode_signed_block_spec in Henc. rewrite Hser, Henc in Hdec. injection Hdec as Hblk.
  destruct b, b'. cbn in *. congruence.
Qed.

(** The sub-DAGs that the commits stand for. *)
Definition history (core' : Core MemStore) (off len : nat) : list CommittedSubDag := take len (drop off (sent_commits core')).

Definition stands (tc : TrustedCommit) (sd : CommittedSubDag) : Prop :=
  tc_reference tc = sd_commit_ref sd ∧ tc_leader tc = sd_leader sd ∧ tc_blocks tc = reference <$> sd_blocks sd.

Lemma made_history core' off commits :
  (∀ i tc, commits !! i = Some tc → made_at core' (off + i) tc) → Forall2 stands commits (history core' off (length commits)).
Proof.
  intros Hmade. apply Forall2_same_length_lookup_2.
  - unfold history. rewrite length_take, length_drop. destruct (length commits) as [|k] eqn:Hk; [done|].
    destruct (lookup_lt_is_Some_2 commits k) as [tc Htc]; [lia|]. destruct (Hmade k tc Htc) as (sd & Hsd%lookup_lt_Some & _). lia.
  - intros i tc sd Htc Hsd. unfold history in Hsd. apply lookup_take_Some in Hsd as [Hsd _]. rewrite lookup_drop in Hsd.
    destruct (Hmade i tc Htc) as (x & Hx & Hinner & Href). assert (x = sd) as -> by congruence.
    split; [done|]. unfold tc_leader, tc_blocks. by rewrite Hinner.
Qed.

Lemma history_blocks a' core' off len :
  net_cores s !! a' = Some core' →
  NoDup (history core' off len ≫= λ sd, reference <$> sd_blocks sd) ∧
  ∀ sd b, sd ∈ history core' off len → b ∈ sd_blocks sd → block_in G b ∧ 0 < vb_round b.
Proof.
  intros Ha'. destruct (sent_history a' core' Ha') as (hist' & st & Hp). destruct (progress_blocks _ _ _ _ _ _ Hp) as (Hnd & _ & Hb).
  split.
  - rewrite <- (take_drop off (sent_commits core')), bind_app in Hnd. apply NoDup_app in Hnd as (_ & _ & Hnd).
    rewrite <- (take_drop len (drop off (sent_commits core'))), bind_app in Hnd. by apply NoDup_app in Hnd as (Hnd & _).
  - intros sd b Hsd. apply Hb. unfold history in Hsd. by apply (subseteq_take len), (subseteq_drop off) in Hsd.
Qed.

(** What is assumed of the answers of the peer, which may be any other authority: blocks that
    verify exist, and no bytes collide with those that honest validators made. *)
Record answers_sound (answers : PeerAnswers) (range : CommitRange) : Prop := {
  an_votes : ∀ cs bs, answer_commits answers range = Ok (cs, bs) → votes_sound bs;
  an_commits : resists (λ x, ∃ cs bs, answer_commits answers range = Ok (cs, bs) ∧ x ∈ cs) commit_bytes;
  an_blocks : resists (λ x, ∃ refs bytes, answer_blocks answers refs = Ok bytes ∧ x ∈ bytes) block_bytes;
}.

(** The fetched commits are those of a part of a history, with their blocks. *)
Lemma assign_history answers commits m a' core' off :
  resists (λ x, ∃ refs bytes, answer_blocks answers refs = Ok bytes ∧ x ∈ bytes) block_bytes →
  net_cores s !! a' = Some core' → (∀ i tc, commits !! i = Some tc → made_at core' (off + i) tc) →
  collected (answer_blocks answers) m → (∀ r, r ∈ commits ≫= tc_blocks → is_Some (m !! r)) →
  let ccs := zip_with (λ tc sd, mkCertifiedCommit tc (sd_blocks sd)) commits (history core' off (length commits)) in
  (∃ m', foldM assign_commit (m, []) commits = Ret (m', ccs)) ∧ Forall2 matches ccs (history core' off (length commits)).
Proof.
  intros Hres Ha' Hmade Hcol Hall ccs. pose proof (made_history core' off commits Hmade) as Hst.
  destruct (history_blocks a' core' off (length commits) Ha') as [Hnd Hin].
  assert (commits ≫= tc_blocks = history core' off (length commits) ≫= λ sd, reference <$> sd_blocks sd) as Hbind.
  { clear -Hst. induction Hst as [|tc sd commits sds' (_ & _ & Hb) _ IH]; [done|]. cbn [mbind list_bind]. by rewrite Hb, IH. }
  split.
  - destruct (assign_commits_spec commits (sd_blocks <$> history core' off (length commits)) m []) as [m' Hm'].
    + apply Forall2_fmap_r. eapply Forall2_impl; [exact Hst|]. by intros tc sd (_ & _ & ?).
    + by rewrite Hbind.
    + intros b (bs & (sd & -> & Hsd)%list_elem_of_In%list_elem_of_fmap & Hb%list_elem_of_In)%list_elem_of_In%in_concat. destruct (Hin sd b Hsd Hb) as [HbG Hr].
      destruct (Hall (reference b)) as [b' Hb'].
      { rewrite Hbind. apply list_elem_of_bind. exists sd. split; [by apply list_elem_of_fmap_2|done]. }
      rewrite Hb'. f_equal. destruct (Hcol _ _ Hb') as (Href & Harr & Hans). by eapply same_block.
    + exists m'. rewrite Hm'. unfold ccs. by rewrite zip_with_fmap_r.
  - unfold ccs. clear -Hst. induction Hst as [|tc sd commits sds' (Hr & Hl & _) _ IH]; [constructor|]. by constructor.
Qed.

Lemma fetch_once_total peer answers range t :
  shares t → answers_sound answers range → range_ok range → 0 < max_blocks_per_fetch (parameters ctx) →
  ∃ t' res, fetch_once v t peer answers range = Ret (t', res) ∧ shares t' ∧ keeps_votes t t' ∧
    ∀ fetched, res = Ok fetched → certified_commits fetched ≠ [] ∧
      (∃ a' core' len, net_cores s !! a' = Some core' ∧
         Forall2 matches (certified_commits fetched) (history core' (N.to_nat (CommitRange_start range - 1)) len)) ∧
      (∀ cc b, cc ∈ certified_commits fetched → b ∈ cc_blocks cc → block_in G b ∧ 0 < vb_round b ∧ counted t' b) ∧
      ∀ b, b ∈ certified_votes fetched → block_in G b ∧ 0 < vb_round b ∧ counted t' b.
Proof.
  intros Hok [Hav Hac Hab] Hrange Hmax. unfold fetch_once. destruct (answer_commits answers range) as [[cs bs]|e] eqn:Hans.
  2: { by exists t, (Err e). }
  destruct (verify_commits_total peer range cs bs t Hok (Hav cs bs eq_refl) Hrange) as (t1 & res & -> & Hok1 & Hk1 & Hres).
  cbn [mbind outcome_bind]. destruct res as [[commits vote_blocks]|e]; [|by exists t1, (Err e)].
  destruct (Hres commits vote_blocks eq_refl) as (Hch & Hser & Hvotes). destruct context_of_v as [Hctx Hc].
  rewrite Hctx. destruct (chunks_concat (max_blocks_per_fetch (parameters ctx)) (isort BlockRef_leb (commits ≫= tc_blocks)) Hmax)
    as (requests & -> & Hreq). cbn [mbind outcome_bind].
  destruct (collect_blocks _ _ _ requests) as [m|e] eqn:Hcol; [|by exists t1, (Err e)].
  destruct (collect_blocks_spec peer (answer_blocks answers) requests ∅ m) as [Hm Hsome]; [intros r b; by rewrite lookup_empty|done|].
  destruct (chain_made v range commits vote_blocks) as (a' & core' & Ha' & Hmade); [by intros b Hb; apply Hvotes|done|apply Hrange|done| |].
  { intros x y Hx. apply Hac. exists cs, bs. split; [done|]. rewrite Hser in Hx. by apply subseteq_take in Hx. }
  destruct (assign_history answers commits m a' core' _ Hab Ha' Hmade Hm) as [[m' ->] Hmatch].
  { intros r Hr. apply Hsome. right. rewrite Hreq. by apply elem_of_isort. }
  cbn [mbind outcome_bind]. set (ccs := zip_with _ _ _) in *.
  assert (∀ cc b, cc ∈ ccs → b ∈ cc_blocks cc → block_in G b ∧ 0 < vb_round b) as Hblocks.
  { intros cc b [i Hi]%list_elem_of_lookup Hb. destruct (Forall2_lookup_l _ _ _ _ _ Hmatch Hi) as (sd & Hsd & _ & _ & Heq).
    destruct (history_blocks a' core' (N.to_nat (CommitRange_start range - 1)) (length commits) Ha') as [_ Hin].
    apply (Hin sd); [by apply list_elem_of_lookup_2 in Hsd|]. by rewrite <- Heq. }
  rewrite <- Hctx. destruct (vote_all (ccs ≫= cc_blocks) t1 Hok1) as (t' & -> & Hok' & Hk' & Hcnt).
  { intros b (cc & Hb & Hcc)%list_elem_of_bind. by eapply Hblocks. }
  cbn [mbind outcome_bind]. eexists t', _. split; [done|]. split; [done|]. split; [by etrans|]. intros fetched [= <-]. cbn.
  split; [|split; [|split]].
  - destruct (cn_quorum _ _ _ _ Hch) as (tc & Hlast & _). intros Hnil. apply Forall2_length in Hmatch as Hl. rewrite Hnil in Hl.
    rewrite <- (Forall2_length _ _ _ (made_history core' _ commits Hmade)) in Hl. by destruct commits.
  - by eexists a', core', _.
  - intros cc b Hcc Hb. destruct (Hblocks cc b Hcc Hb). split_and!; try done. apply Hcnt, list_elem_of_bind. by exists cc.
  - intros b Hb. destruct (Hvotes b Hb) as [? ?]. split; [done|]. split; [|by eapply counted_keeps].
    destruct (cn_blocks _ _ _ _ Hch b Hb) as (Hver%verify_block_member & _). apply Hver.
Qed.

(** ** The commits in the core *)

Lemma net_good b : block_in G b → 0 < vb_round b → good ctx G (ds_genesis (dag_state core)) b.
Proof.
  intros Hb Hr. destruct (nk_cores _ _ _ _ _ Hs a core Ha) as (Hh & _ & hist0 & sds0 & log0 & Hok).
  destruct (nk_passes _ _ _ _ _ Hs b Hb Hr a) as (v' & Hv' & Hval). rewrite Hv in Hv'. injection Hv' as <-.
  destruct (verifier_fields contexts a v Hv) as (Hctx & l & Hl & Hg). destruct context_of_v as [_ Hc].
  destruct Hval as [_ _ Hau _ Han _ _ _]. rewrite Hc in Hau.
  assert (committee ctx = c) as Hcc by apply (ep_context _ _ _ _ Henv).
  split; [done|]. split; [split; [|split]|split; [done|split; [by rewrite Hcc|]]].
  - rewrite reference_round. pose proof (nk_rounds _ _ _ _ _ Hs b Hb). lia.
  - rewrite reference_author. apply bool_decide_eq_true in Hau. pose proof (wf_size _ (ep_committee _ _ _ _ Henv)).
    change (block_author (sb_inner (vb_block b))) with (vb_author b) in Hau. unfold AuthorityIndex_MAX. lia.
  - change (vb_digest b ≤ Digest_MAX). destruct (nk_encoded _ _ _ _ _ Hs b Hb) as [_ ->].
    apply (cr_hash _ _ (ce_crypto _ _ _ (sn_core _ _ _ (ep_start _ _ _ _ Henv a Hh)))).
  - intros r [i Hi]%list_elem_of_lookup. destruct (Han i r Hi) as (Hv1 & _ & Hlt & Hgen). rewrite Hc in Hv1. rewrite Hcc.
    split; [done|]. split; [done|]. intros Hz. specialize (Hgen Hz). rewrite Hg in Hgen.
    apply elem_of_list_to_set, list_elem_of_fmap in Hgen as (g & -> & Hin).
    destruct (ok_genesis_blocks _ _ _ _ (ok_base _ _ _ _ (cm_core _ _ _ _ _ _ _ Hok))) as (l' & Hl' & ->).
    rewrite Hl in Hl'. injection Hl' as <-. apply elem_of_dom. rewrite dom_list_to_map_L.
    apply elem_of_list_to_set, list_elem_of_fmap. exists (reference g, g). split; [done|].
    by apply (list_elem_of_fmap_2 (λ b, (reference b, b))).
Qed.

Lemma counted_ref t b : block_in G b → counted t b →
  mysticeti_fastpath (protocol_config ctx) = true → gc < vb_round b → voted_ref G t (reference b).
Proof. intros Hb Hc Hf Hr. exists b. split; [done|]. split; [done|]. by apply Hc. Qed.

(** Between commits of a batch, ancestors that garbage collection leaves out of the later one are
    known or come with the batch. *)
Definition no_gap (ccs : list CertifiedCommit) : Prop :=
  ∀ i prev cc b x, ccs !! i = Some prev → ccs !! S i = Some cc → b ∈ cc_blocks cc → x ∈ vb_ancestors b →
    gc < br_round x → br_round x ≤ tc_round (cc_commit prev) - gc_depth (protocol_config ctx) →
    known (dag_state core) x ∨ x ∈ reference <$> (take (S (S i)) ccs ≫= cc_blocks).

Lemma history_lookup core' off len i sd :
  history core' off len !! i = Some sd → sent_commits core' !! (off + i)%nat = Some sd.
Proof. unfold history. intros [Hsd _]%lookup_take_Some. by rewrite lookup_drop in Hsd. Qed.

(** The history of a batch in the core. *)
Lemma batch_connected t a' core' ccs :
  shares t → net_cores s !! a' = Some core' → sds `prefix_of` sent_commits core' →
  (∀ i cc, ccs !! i = Some cc → ∃ sd, sent_commits core' !! (length sds + i)%nat = Some sd ∧ matches cc sd) →
  no_gap ccs → ∀ i cc b x, ccs !! i = Some cc → b ∈ cc_blocks cc → x ∈ vb_ancestors b →
    needed (dag_state core) x → known (dag_state core) x ∨ x ∈ reference <$> (take (S i) ccs ≫= cc_blocks).
Proof.
  intros Hok Ha' Hpre Hm Hgap i cc b x Hi Hb Hx Hneed. destruct (sent_history a' core' Ha') as (hist' & st' & Hp').
  destruct (progress_closed _ _ _ _ _ _ Hp') as (_ & _ & Hcl). destruct (Hm i cc Hi) as (sd & Hsd & _ & _ & Hbl).
  assert (gc_depth (protocol_config (contexts a')) = gc_depth (protocol_config ctx)) as Hgd.
  { destruct (ep_same _ _ _ _ Henv a a') as (_ & Hpc & _). by rewrite Hpc. }
  rewrite Hbl in Hb. specialize (Hcl _ sd b x Hsd Hb Hx). rewrite Hgd in Hcl.
  pose proof (cm_core _ _ _ _ _ _ _ Hok) as Hcore. destruct (cm_progress _ _ _ _ _ _ _ Hok) as (st & Hp & Hst).
  destruct (progress_closed _ _ _ _ _ _ Hp) as (Hr0 & Hc0 & _).
  assert (pg_log st = log) as Hlog.
  { destruct Hst as [Hre| ->]; [|done]. by apply renew_log in Hre. }
  rewrite Hlog in Hr0, Hc0.
  assert (x ∈ take (S (length sds + i)) (sent_commits core') ≫= (λ sd, reference <$> sd_blocks sd) →
    known (dag_state core) x ∨ x ∈ reference <$> (take (S i) ccs ≫= cc_blocks)) as Hin.
  { destruct Hpre as [rest Hrest]. rewrite Hrest, <- Nat.add_succ_r, take_app_add, bind_app. intros [Hold|Hnew]%elem_of_app.
    - left. apply (no_known _ _ _ _ (ok_node _ _ _ _ Hcore)); [by apply Hc0|done].
    - right. apply list_elem_of_bind in Hnew as (y & (z & -> & Hz)%list_elem_of_fmap & [j Hj]%list_elem_of_lookup).
      apply lookup_take_Some in Hj as [Hj Hlt]. apply list_elem_of_fmap_2, list_elem_of_bind.
      assert (i < length ccs)%nat as Hil by by apply lookup_lt_Some in Hi.
      destruct (lookup_lt_is_Some_2 ccs j) as [cc' Hcc']; [lia|]. exists cc'.
      split; [|apply (list_elem_of_lookup_2 _ j), lookup_take_Some; split; [done|lia]].
      destruct (Hm j cc' Hcc') as (sd' & Hsd' & _ & _ & ->). rewrite Hrest, lookup_app_r in Hsd' by lia.
      replace (length sds + j - length sds)%nat with j in Hsd' by lia. congruence. }
  destruct (N.lt_ge_cases (prior_round (sent_commits core') (length sds + i) - gc_depth (protocol_config ctx)) (br_round x)) as [Hlt|Hge];
    [by apply Hin, Hcl|].
  destruct i as [|i].
  - exfalso. rewrite Nat.add_0_r in Hge. destruct Hpre as [rest Hrest]. rewrite Hrest, prior_round_app, <- Hr0 in Hge by lia.
    pose proof (node_gc _ _ _ _ (ok_node _ _ _ _ Hcore)) as Hgc. cbn in Hgc. unfold needed in Hneed. rewrite Hgc in Hneed.
    unfold log_gc in Hneed. lia.
  - destruct (lookup_lt_is_Some_2 ccs i) as [prev Hprev]; [apply lookup_lt_Some in Hi; lia|].
    destruct (Hm i prev Hprev) as (sd' & Hsd' & _ & Hl & _). rewrite Nat.add_succ_r in Hge. cbn in Hge. rewrite Hsd' in Hge. cbn in Hge.
    rewrite <- Hl in Hge. rewrite <- Hbl in Hb. by eapply Hgap.
Qed.

Lemma filter_drop {A} (P : A → Prop) `{∀ x, base.Decision (P x)} k (l : list A) :
  (∀ i x, l !! i = Some x → P x ↔ (k ≤ i)%nat) → filter P l = drop k l.
Proof.
  revert k. induction l as [|x l IH]; intros k Hl; [by destruct k|]. pose proof (Hl 0%nat x eq_refl) as Hx.
  destruct k as [|k]; cbn [drop].
  - rewrite filter_cons_True by (apply Hx; lia). f_equal. rewrite (IH 0%nat), drop_0; [done|].
    intros i y Hi. specialize (Hl (S i) y Hi). split; [intros _; lia|]. intros _. apply Hl. lia.
  - rewrite filter_cons_False by (rewrite Hx; lia). apply IH. intros i y Hi. rewrite (Hl (S i) y Hi). lia.
Qed.

Lemma last_index t : shares t → last_commit_index (dag_state core) = N.of_nat (length sds) ∧ N.of_nat (length sds) + 4 < u32_max.
Proof.
  intros Hok. pose proof (cm_rounds _ _ _ _ _ _ _ Hok) as Hlen. destruct (cm_progress _ _ _ _ _ _ _ Hok) as (st & Hp & Hst).
  pose proof (no_last _ _ _ _ (ok_node _ _ _ _ (cm_core _ _ _ _ _ _ _ Hok))) as Hlast. cbn in Hlast.
  assert (pg_log st = log) as Hlog by (destruct Hst as [Hre| ->]; [by apply renew_log in Hre|done]).
  destruct (progress_indices _ _ _ _ _ _ Hp) as [_ Hidx]. rewrite Hlog in Hidx.
  assert (last_commit_index (dag_state core) = log_index log) as Heq.
  { unfold last_commit_index, log_index. rewrite Hlast. by destruct (log_last log). }
  split; [by rewrite Heq|]. destruct (nk_cores _ _ _ _ _ Hs a core Ha) as (Hh & _).
  pose proof (universe_of c byz contexts keys Henv a _ (nk_universe _ _ _ _ _ Hs)) as HG.
  pose proof (sn_chain _ _ _ (ep_start _ _ _ _ Henv a Hh)) as Hch.
  pose proof (progress_ok ctx byz n G HG Hch hist sds log _ Hok) as Hwf.
  pose proof (pw_round _ _ _ _ Hwf) as H1'. pose proof (pw_index _ _ _ _ Hwf) as H2'. cbn in H1', H2'. lia.
Qed.

(** The part of the fetched commits that the core has not made. *)
Lemma new_commits t a' core' off len ccs :
  shares t → net_cores s !! a' = Some core' → Forall2 matches ccs (history core' off len) → (off ≤ length sds)%nat →
  filter_new_commits core ccs = Ok (drop (length sds - off) ccs).
Proof.
  intros Hok Ha' Hm Hoff. destruct (last_index t Hok) as [Hidx Hlen]. destruct (sent_history a' core' Ha') as (hist' & st' & Hp').
  assert (∀ i cc, ccs !! i = Some cc → tc_index (cc_commit cc) = N.of_nat (off + i) + 1) as Hi.
  { intros i cc Hcc. destruct (Forall2_lookup_l _ _ _ _ _ Hm Hcc) as (sd & Hsd%history_lookup & Href & _).
    rewrite <- (proj1 (progress_indices _ _ _ _ _ _ Hp') _ _ Hsd), <- Href. done. }
  unfold filter_new_commits. rewrite Hidx.
  rewrite (filter_drop _ (length sds - off)) by (intros i cc Hcc; rewrite (Hi i cc Hcc); lia).
  destruct (drop (length sds - off) ccs) as [|cc rest] eqn:Hd; [done|].
  assert (ccs !! (length sds - off)%nat = Some cc) as Hcc by (rewrite <- (Nat.add_0_r (length sds - off)), <- lookup_drop, Hd; done).
  rewrite (Hi _ _ Hcc), u32_add_small by (unfold u32_max in Hlen; lia).
  rewrite (proj2 (N.eqb_eq _ _)) by lia. done.
Qed.

Lemma fetched_cert_ok t a' core' off len ccs :
  shares t → net_cores s !! a' = Some core' → Forall2 matches ccs (history core' off len) → (off ≤ length sds)%nat →
  (∀ cc b, cc ∈ ccs → b ∈ cc_blocks cc → block_in G b ∧ 0 < vb_round b ∧ counted t b) →
  no_gap (drop (length sds - off) ccs) →
  cert_ok ctx n G sds (core <| transaction_certifier := t |>) (drop (length sds - off) ccs).
Proof.
  intros Hok Ha' Hm Hoff Hblocks Hgap. set (new := drop _ _) in *.
  assert (∀ cc, cc ∈ new → cc ∈ ccs) as Hsub by (intros cc; apply (subseteq_drop (length sds - off))).
  assert (∀ i cc, new !! i = Some cc → ∃ sd, sent_commits core' !! (length sds + i)%nat = Some sd ∧ matches cc sd) as Hnew.
  { intros i cc Hi. unfold new in Hi. rewrite lookup_drop in Hi. destruct (Forall2_lookup_l _ _ _ _ _ Hm Hi) as (sd & Hsd%history_lookup & Hmt).
    exists sd. split; [|done]. by replace (length sds + i)%nat with (off + (length sds - off + i))%nat by lia. }
  destruct (decide (new = [])) as [-> |Hne]; [apply cert_ok_nil|].
  destruct (nk_cores _ _ _ _ _ Hs a' core' Ha') as (_ & _ & hist' & sds' & log' & Hok').
  destruct (cm_progress _ _ _ _ _ _ _ Hok') as (st' & Hp' & _). pose proof (cm_sent _ _ _ _ _ _ _ Hok') as Hsent.
  destruct (cm_progress _ _ _ _ _ _ _ Hok) as (st & Hp & _).
  assert (same_rules ctx (contexts a')) as Hsame by (destruct (ep_same _ _ _ _ Henv a a') as (? & ? & _); by split).
  pose proof (universe_of c byz contexts keys Henv a _ (nk_universe _ _ _ _ _ Hs)) as HG.
  assert (sds `prefix_of` sent_commits core') as Hpre.
  { unfold sent_commits. rewrite Hsent. destruct (progress_prefix ctx (contexts a') byz n G Hsame (hu_bft _ _ _ HG) _ _ _ _ _ _ Hp Hp') as [?|Hpre]; [done|].
    destruct new as [|cc new']; [done|]. destruct (Hnew 0%nat cc eq_refl) as (sd & Hsd & _). unfold sent_commits in Hsd. rewrite Hsent in Hsd.
    apply lookup_lt_Some in Hsd. apply prefix_length in Hpre. lia. }
  split.
  - exists (contexts a'), hist', st', sds'. split; [done|]. split; [done|]. split; [apply (cm_rounds _ _ _ _ _ _ _ Hok')|].
    intros i cc Hi. unfold sent_commits in Hnew. rewrite Hsent in Hnew. by apply Hnew.
  - intros cc b Hcc Hb. destruct (Hblocks cc b (Hsub cc Hcc) Hb) as (? & ? & _). by apply net_good.
  - intros Hf cc b Hcc Hb Hr. destruct (Hblocks cc b (Hsub cc Hcc) Hb) as (? & ? & ?). by apply counted_ref.
  - intros i cc b x. by apply (batch_connected t a' core').
Qed.

(** The core commits all that was fetched. *)
Lemma deliver_fetched t fetched nows a' core' off len :
  shares t → unguessed (S := MemStore) ctx n G → net_cores s !! a' = Some core' →
  Forall2 matches (certified_commits fetched) (history core' off len) → (off ≤ length sds)%nat →
  (∀ cc b, cc ∈ certified_commits fetched → b ∈ cc_blocks cc → block_in G b ∧ 0 < vb_round b ∧ counted t b) →
  (∀ b, b ∈ certified_votes fetched → block_in G b ∧ 0 < vb_round b ∧ counted t b) →
  no_gap (drop (length sds - off) (certified_commits fetched)) →
  ∃ core1 result, handle_event (core <| transaction_certifier := t |>) (CommandReceived (AddCertifiedCommits fetched)) nows =
      Ret (core1, result) ∧ only_shutdown result ∧
    ∃ sent, sds ++ sent `prefix_of` sent_commits core1 ∧ (off + length (certified_commits fetched) ≤ length (sds ++ sent))%nat.
Proof.
  intros Hok Hun Ha' Hm Hoff Hblocks Hvotes Hgap. destruct (nk_cores _ _ _ _ _ Hs a core Ha) as (Hh & Hk & _).
  destruct (own_env c byz contexts keys Henv a core Hh Hk) as [Hch Hce].
  pose proof (universe_of c byz contexts keys Henv a _ (nk_universe _ _ _ _ _ Hs)) as HG.
  pose proof (new_commits t a' core' off len _ Hok Ha' Hm Hoff) as Hnew.
  destruct (add_certified_commits_spec ctx byz n G HG (nk_rounds _ _ _ _ _ Hs) Hch hist sds log (core <| transaction_certifier := t |>)
    fetched (drop (length sds - off) (certified_commits fetched)) nows Hok Hce Hun Hnew)
    as (core1 & res & sent & Hrun & (G' & hist' & sds' & log' & _ & Hok' & Hpre & _) & Hres & Hl).
  { by apply (fetched_cert_ok t a' core' off len). }
  { intros b Hb. destruct (Hvotes b Hb) as (? & ? & ?). split; [by apply net_good|]. by apply counted_ref. }
  assert (∃ result, handle_event (core <| transaction_certifier := t |>) (CommandReceived (AddCertifiedCommits fetched)) nows =
    Ret (core1, result) ∧ only_shutdown result) as (result & Hev & Hres').
  { cbn [handle_event handle_command]. unfold and_then. rewrite Hrun. cbn [mbind outcome_bind].
    destruct res as [x|e]; (eexists; split; [reflexivity|]); [done|]. intros e' [= <-]. by apply Hres. }
  exists core1, result. split; [done|]. split; [done|]. exists sent. unfold sent_commits. rewrite (cm_sent _ _ _ _ _ _ _ Hok').
  split; [done|]. rewrite length_app. rewrite length_drop in Hl. lia.
Qed.
End Fetch.
End Certified.
