(* ===== verification/ServiceSafety.v ===== *)
(** The network service in the network: a block that a peer sends is processed without a panic, and
    the core that takes it goes on from its commits. *)

From stdpp Require Import base tactics numbers list gmap sorting.
From coqutil Require Import Datatypes.RecordSettersUsingExistingGetters.
From S2P Require Import Prelude.
From S2P Require Import Committee.
From S2P Require Import Block.
From S2P Require Import StakeAggregator.
From S2P Require Import ThresholdClock.
From S2P Require Import Commit.
From S2P Require Import Store.
From S2P Require Import LeaderScoring.
From S2P Require Import DagState.
From S2P Require Import DagInvariant.
From S2P Require Import LeaderSchedule.
From S2P Require Import BaseCommitter.
From S2P Require Import CommitSafety.
From S2P Require Import UniversalCommitter.
From S2P Require Import Linearizer.
From S2P Require Import BlockVerifier.
From S2P Require Import BlockManager.
From S2P Require Import CommitVoteMonitor.
From S2P Require Import CommitObserver.
From S2P Require Import RoundTracker.
From S2P Require Import TransactionCertifier.
From S2P Require Import CommitSyncer.
From S2P Require Import Core.
From S2P Require Import ProposalState.
From S2P Require Import Proposal.
From S2P Require Import Growth.
From S2P Require Import CommitProgress.
From S2P Require Import ScheduleProgress.
From S2P Require Import CoreInvariant.
From S2P Require Import ProposedBlock.
From S2P Require Import CommitFrame.
From S2P Require Import CoreCommit.
From S2P Require Import CoreRun.
From S2P Require Import CoreThread.
From S2P Require Import AuthorityService.
From S2P Require Import AuthorityNode.
From S2P Require Import Network.
From S2P Require Import FetchSafety.

Open Scope N_scope.

Section Service.
Context `{LeaderRngSpec} `{Crypto} `{CommitCodec} `{TransactionVerifier} `{Decoder}.
Context (c : Committee) (byz : gset N) (contexts : N → Context) (keys : N → list Byte.byte).
Context (Henv : epoch_env c byz contexts keys) (s : network) (Hs : net_ok c byz contexts keys s).
Let n := CONSENSUS_COMMITS_PER_SCHEDULE.
Let G := net_blocks s.

(** The service of a validator of the network. *)
Record service_ok (a : N) (svc : AuthorityService MemStore) : Prop := {
  sv_core : net_cores s !! a = Some (svc_core svc);
  sv_verifier : SignedBlockVerifier_new (contexts a) = Ret (svc_verifier svc);
  sv_monitor : monitor_wf (svc_monitor svc) ∧ committee (cvm_context (svc_monitor svc)) = c;
  sv_dispatcher : length (highest_received_rounds (svc_dispatcher svc)) = length (committee_authorities c);
}.

(** The core of the service goes on, in the universe that it publishes to. *)
Definition serves_on (a : N) (sds : list CommittedSubDag) (svc : AuthorityService MemStore) : Prop :=
  ∃ G' hist sds' log, grows (contexts a) byz G G' ∧ commit_ok (contexts a) n G' hist sds' log (svc_core svc) ∧
    sds `prefix_of` sds' ∧ block_signer (svc_core svc) = keys a.

Lemma known_hostnames refs :
  (∀ r, r ∈ refs → is_valid_index c (br_author r) = true) →
  foldM (λ _ r, _ ← Committee_authority c (br_author r); Ret tt) tt refs = Ret tt.
Proof.
  induction refs as [|r refs IH]; intros Hr; [done|]. cbn [foldM].
  destruct (valid_authority c (br_author r) (Hr r (list_elem_of_here _ _))) as [x ->]. cbn [mbind outcome_bind].
  apply IH. intros y Hy. apply Hr. by right.
Qed.

(** The parts of the service that a command leaves alone. *)
Record same_service (svc svc' : AuthorityService MemStore) : Prop := {
  ss_monitor : svc_monitor svc' = svc_monitor svc;
  ss_verifier : svc_verifier svc' = svc_verifier svc;
  ss_dispatcher : svc_dispatcher svc' = svc_dispatcher svc;
}.

Lemma dispatch_spec svc command nows peer core' res :
  handle_command (svc_core svc) command nows = Ret (core', res) →
  ∃ svc' r, dispatch svc command nows peer = Ret (svc', r) ∧ svc_core svc' = core' ∧ same_service svc svc'.
Proof.
  intros Hrun. unfold dispatch. rewrite Hrun. cbn [mbind outcome_bind].
  destruct res as [[missing|]|e]; eexists _, _; (split; [reflexivity|]); [|by split..].
  unfold request_blocks. case_bool_decide; by split.
Qed.

Section Send.
Context (a : N) (svc : AuthorityService MemStore) (Hsvc : service_ok a svc).
Let core := svc_core svc.
Let ctx := contexts a.

(** The excluded ancestors, in any universe that the core went on to. *)
Lemma excluded_spec G' hist sds log svc1 peer b excluded nows :
  commit_ok ctx n G' hist sds log (svc_core svc1) → is_valid_index c (vb_author b) = true →
  (∀ r, r ∈ vb_ancestors b → is_valid_index c (br_author r) = true) →
  (∀ refs r, decode_excluded excluded = Some refs → r ∈ refs → is_valid_index c (br_author r) = true) →
  ∃ svc' r, process_excluded ctx svc1 peer b excluded nows = Ret (svc', r) ∧ same_service svc1 svc' ∧
    commit_ok ctx n G' hist sds log (svc_core svc') ∧ block_signer (svc_core svc') = block_signer (svc_core svc1).
Proof.
  intros Hok Hau Han Hex. assert (committee ctx = c) as Hc by apply (ep_context _ _ _ _ Henv).
  unfold process_excluded. destruct (decode_excluded excluded) as [refs|] eqn:Hdec.
  2: { exists svc1, (Err MalformedBlock). split; [done|]. split; [by split|done]. }
  rewrite Hc. set (taken := take _ refs). assert (∀ r, r ∈ taken → is_valid_index c (br_author r) = true) as Hval.
  { intros r Hr. by eapply Hex, (subseteq_take _). }
  destruct (ok_tracker _ _ _ _ (ok_base _ _ _ _ (cm_core _ _ _ _ _ _ _ Hok))) as [Htw Htc].
  destruct (update_from_accepted_block_spec (round_tracker (svc_core svc1)) (mkExtendedBlock b taken) Htw) as (tracker & -> & Htw' & Htc' & _).
  { rewrite Htc. change (committee ctx) with (committee (contexts a)). rewrite (ep_context _ _ _ _ Henv). unfold mentions. cbn.
    intros e [->|[Hin|Hin]%elem_of_app]%elem_of_cons; [done|..]; apply list_elem_of_fmap in Hin as (r & -> & Hr); cbn; auto. }
  cbn [mbind outcome_bind]. rewrite (known_hostnames taken Hval). cbn [mbind outcome_bind].
  set (svc2 := svc1 <| svc_core := _ |>).
  assert (commit_ok ctx n G' hist sds log (svc_core svc2)) as Hok2.
  { apply commit_ok_tracker; [done|done|]. by rewrite Htc'. }
  destruct (check_block_refs_keeps ctx n G' hist sds log (svc_core svc2) taken Hok2) as (core' & missing & Hrun & Hok' & Hsig); [by rewrite Hc|].
  destruct (dispatch_spec svc2 (CheckBlockRefs taken) nows peer core' (Ok (MissingBlockRefs missing))) as (svc' & r & Hd & <- & [? ? ?]).
  { cbn [handle_command]. unfold and_then. by rewrite Hrun. }
  exists svc', r. split; [done|]. split; [by split|]. split; [done|]. by rewrite Hsig.
Qed.


(** What is assumed of the bytes of the block: its transactions fit in memory, and it exists when
    it verifies. *)
Definition block_sound (bytes : list Byte.byte) : Prop := votes_sound s (svc_verifier svc) [bytes].

(** The block in the core. *)
Lemma add_block_spec hist sds log t b nows :
  shares contexts s a core hist sds log t → unguessed (S := MemStore) ctx n G → block_in G b → 0 < vb_round b →
  counted contexts a core t b →
  ∃ core' res, handle_command (core <| transaction_certifier := t |>) (AddBlocks [b]) nows = Ret (core', res) ∧
    continues ctx byz n G sds (core <| transaction_certifier := t |>) core'.
Proof.
  intros Hsh Hun Hb Hr Hcnt. pose proof (sv_core _ _ Hsvc) as Ha. fold core in Ha.
  destruct (nk_cores _ _ _ _ _ Hs a core Ha) as (Hh & Hk & _). destruct (own_env c byz contexts keys Henv a core Hh Hk) as [Hch Hce].
  pose proof (universe_of c byz contexts keys Henv a _ (nk_universe _ _ _ _ _ Hs)) as HG.
  destruct (handle_command_spec ctx byz n G HG (nk_rounds _ _ _ _ _ Hs) Hch Hun hist sds log (core <| transaction_certifier := t |>)
    (AddBlocks [b]) nows Hsh Hce) as (core' & res & Hrun & Hcont & _).
  { intros x ->%list_elem_of_singleton. split.
    - exact (net_good c byz contexts keys Henv s Hs a core Ha (svc_verifier svc) (sv_verifier _ _ Hsvc) b Hb Hr).
    - by apply (counted_ref contexts s a core). }
  by exists core', res.
Qed.

Lemma send_block_total peer sb nows :
  is_valid_index c peer = true → unguessed (S := MemStore) ctx n G → block_sound (esb_block sb) →
  (∀ refs r, decode_excluded (esb_excluded_ancestors sb) = Some refs → r ∈ refs → is_valid_index c (br_author r) = true) →
  ∃ svc' res, handle_send_block svc peer sb nows = Ret (svc', res) ∧ serves_on a (sent_commits core) svc' ∧
    svc_verifier svc' = svc_verifier svc ∧ (monitor_wf (svc_monitor svc') ∧ committee (cvm_context (svc_monitor svc')) = c) ∧
    length (highest_received_rounds (svc_dispatcher svc')) = length (committee_authorities c).
Proof.
  intros Hpeer Hun Hsound Hex. destruct Hsvc as [Ha Hv [Hm Hmc] Hdl]. fold core in Ha.
  destruct (nk_cores _ _ _ _ _ Hs a core Ha) as (Hh & Hk & hist & sds & log & Hok).
  assert (committee ctx = c) as Hc by apply (ep_context _ _ _ _ Henv).
  assert (svc_context svc = ctx) as Hsc by apply (ok_context _ _ _ _ (ok_base _ _ _ _ (cm_core _ _ _ _ _ _ _ Hok))).
  assert (sent_commits core = sds) as Hsent by apply (cm_sent _ _ _ _ _ _ _ Hok).
  assert (serves_on a (sent_commits core) svc) as Hon by (exists G, hist, sds, log; rewrite Hsent; split; [constructor|done]).
  destruct (Hsound (esb_block sb)) as [Hsize Hin]; [left|].
  unfold handle_send_block. rewrite Hsc, Hc. destruct (valid_authority c peer Hpeer) as [auth ->]. cbn [mbind outcome_bind].
  destruct (decode_signed_block (esb_block sb)) as [signed|] eqn:Hdec; [|by exists svc, (Err MalformedBlock)].
  destruct (negb _); [by eexists svc, (Err _)|].
  destruct (verify_and_vote_total c byz contexts keys Henv a (svc_verifier svc) Hv signed (esb_block sb) (Hsize _ eq_refl)) as [res Hres].
  rewrite Hres. cbn [mbind outcome_bind]. destruct res as [[b rejected]|e]; [|by exists svc, (Err e)].
  assert (verified_from (svc_verifier svc) b (esb_block sb)) as Hfrom by by exists signed, rejected.
  destruct (verified_from_block _ _ _ Hfrom) as (_ & _ & _ & Hver & _). specialize (Hin b Hfrom).
  apply verify_block_member in Hver as [Hr _].
  pose proof (passes_author c byz contexts keys Henv s Hs a (svc_verifier svc) Hv b Hin Hr) as Hau.
  destruct (observe_block_spec (svc_monitor svc) b Hm) as (monitor & -> & Hm' & Hmc' & _); [by rewrite Hmc|].
  cbn [mbind outcome_bind]. rewrite <- Hmc' in Hmc. destruct (_ <? _); [by eexists _, (Err _)|].
  assert (shares contexts s a core hist sds log (transaction_certifier core)) as Hsh by (unfold shares; by destruct core).
  destruct (vote_if c byz contexts keys Henv s Hs a core hist sds log (svc_verifier svc) Hv _ b rejected Hsh Hin Hau)
    as (t & Hvote & Hsh' & _ & Hcnt).
  destruct (context_of_v c byz contexts keys Henv a (svc_verifier svc) Hv) as [Hvc _]. rewrite Hvc in Hvote.
  change (transaction_certifier (svc_core (svc <| svc_monitor := monitor |>))) with (transaction_certifier core).
  fold ctx in Hvote. rewrite Hvote. cbn [mbind outcome_bind].
  destruct (receive_rounds_spec (svc_dispatcher svc) [b]) as (rounds & Hrec & Hrl & _).
  { intros x ->%list_elem_of_singleton. rewrite Hdl. apply bool_decide_eq_true in Hau. unfold Committee_size in Hau. lia. }
  unfold dispatch_add_blocks. cbn [svc_dispatcher]. match goal with |- context [receive_rounds ?x _] => change x with (svc_dispatcher svc) end.
  rewrite Hrec. cbn [mbind outcome_bind]. set (svc1 := _ <| svc_dispatcher := _ |>).
  destruct (add_block_spec hist sds log t b nows Hsh' Hun Hin Hr Hcnt) as (core1 & res & Hrun & (G' & hist' & sds' & log' & Hg & Hok' & Hpre & Hsig)).
  destruct (dispatch_spec svc1 (AddBlocks [b]) nows peer core1 res Hrun) as (svc2 & r & -> & Hcore2 & [S1 S2 S3]).
  cbn [mbind outcome_bind]. rewrite <- Hcore2 in Hok', Hsig.
  assert (serves_on a (sent_commits core) svc2 ∧ svc_verifier svc2 = svc_verifier svc ∧
    (monitor_wf (svc_monitor svc2) ∧ committee (cvm_context (svc_monitor svc2)) = c) ∧
    length (highest_received_rounds (svc_dispatcher svc2)) = length (committee_authorities c)) as Hdone.
  { split; [exists G', hist', sds', log'; rewrite Hsent; split; [done|]; split; [done|]; split; [done|by rewrite Hsig]|].
    rewrite S1, S2, S3. split; [done|]. split; [done|]. cbn. by rewrite Hrl. }
  destruct r as [[]|e]; [|by exists svc2, (Err e)].
  destruct (excluded_spec G' hist' sds' log' svc2 peer b (esb_excluded_ancestors sb) nows Hok' Hau) as (svc3 & r & -> & [T1 T2 T3] & Hok3 & Hsig3).
  { intros x Hx. destruct (net_good c byz contexts keys Henv s Hs a core Ha (svc_verifier svc) Hv b Hin Hr) as (_ & _ & _ & _ & Han).
    fold ctx in Han. rewrite Hc in Han. by apply Han. }
  { done. }
  exists svc3, r. split; [done|]. rewrite T1, T2, T3. destruct Hdone as [_ Hdone]. split; [|done].
  exists G', hist', sds', log'. rewrite Hsent. split; [done|]. split; [done|]. split; [done|]. by rewrite Hsig3, Hsig.
Qed.
End Send.
End Service.
