(* ===== verification/NetworkSafety.v ===== *)
(** Properties of the network, and an execution of it: three honest validators of four exchange
    their blocks for some rounds and commit. The execution is evaluated, and each of its steps
    is a step of the network. *)

From stdpp Require Import base tactics numbers list gmap sorting strings.
From coqutil Require Import Datatypes.RecordSettersUsingExistingGetters.
From S2P Require Import Prelude.
From S2P Require Import Committee.
From S2P Require Import Block.
From S2P Require Import StakeAggregator.
From S2P Require Import ThresholdClock.
From S2P Require Import Commit.
From S2P Require Import Store.
From S2P Require Import LeaderScoring.
From S2P Require Import DagState.
From S2P Require Import DagInvariant.
From S2P Require Import LeaderSchedule.
From S2P Require Import BaseCommitter.
From S2P Require Import CommitSafety.
From S2P Require Import UniversalCommitter.
From S2P Require Import Linearizer.
From S2P Require Import BlockVerifier.
From S2P Require Import BlockManager.
From S2P Require Import BlockOrigin.
From S2P Require Import TransactionConsumer.
From S2P Require Import CommitObserver.
From S2P Require Import QuorumScan.
From S2P Require Import RoundTracker.
From S2P Require Import CommitVoteMonitor.
From S2P Require Import Ancestor.
From S2P Require Import TransactionCertifier.
From S2P Require Import CommitSyncer.
From S2P Require Import Wire.
From S2P Require Import Core.
From S2P Require Import ProposalState.
From S2P Require Import Proposal.
From S2P Require Import CommitFinalizer.
From S2P Require Import FinalizerSafety.
From S2P Require Import Growth.
From S2P Require Import CoreInvariant.
From S2P Require Import ProposedBlock.
From S2P Require Import CommitProgress.
From S2P Require Import ScheduleProgress.
From S2P Require Import CommitFrame.
From S2P Require Import CoreCommit.
From S2P Require Import CoreRun.
From S2P Require Import CoreThread.
From S2P Require Import AuthorityService.
From S2P Require Import AuthorityNode.
From S2P Require Import Network.
From S2P Require Import FetchSafety.
From S2P Require Import ServiceSafety.

Open Scope N_scope.

(** * Executions *)

#[export] Instance BlockTransactionVotes_eq_dec : EqDecision BlockTransactionVotes.
Proof. solve_decision. Defined.
#[export] Instance Transaction_eq_dec : EqDecision Transaction.
Proof. solve_decision. Defined.
#[export] Instance MisbehaviorProof_eq_dec : EqDecision MisbehaviorProof.
Proof. solve_decision. Defined.
#[export] Instance MisbehaviorReport_eq_dec : EqDecision MisbehaviorReport.
Proof. solve_decision. Defined.
#[export] Instance BlockV1_eq_dec : EqDecision BlockV1.
Proof. solve_decision. Defined.
#[export] Instance BlockV2_eq_dec : EqDecision BlockV2.
Proof. solve_decision. Defined.
#[export] Instance Block_eq_dec : EqDecision Block.
Proof. solve_decision. Defined.
#[export] Instance SignedBlock_eq_dec : EqDecision SignedBlock.
Proof. solve_decision. Defined.
#[export] Instance VerifiedBlock_eq_dec : EqDecision VerifiedBlock.
Proof. solve_decision. Defined.

Section Execution.
Context `{LeaderRngSpec} `{Crypto} `{CommitCodec} `{TransactionVerifier}.
Context (c : Committee) (byz : gset N) (contexts : N → Context) (keys : N → list Byte.byte) (genesis : list VerifiedBlock).
Let n := CONSENSUS_COMMITS_PER_SCHEDULE.

(** The blocks in the order of their publication, and the cores. *)
Record execution := mkExecution {
  ex_blocks : list VerifiedBlock;
  ex_cores : gmap N (Core MemStore);
}.

Definition ex_universe (blocks : list VerifiedBlock) : universe := foldl extend (net_blocks (net_genesis genesis)) blocks.

Definition ex_network (e : execution) : network := mkNetwork (ex_universe (ex_blocks e)) (ex_cores e).

Definition ex_publish (e : execution) (a : N) (core : Core MemStore) : option execution :=
  match last_proposed_block core with
  | Ret b =>
      let known := genesis ++ ex_blocks e in
      if bool_decide (b ∈ known) then Some (mkExecution (ex_blocks e) (<[a := core]> (ex_cores e)))
      else if bool_decide (reference b ∈ reference <$> known) || (1000 <? vb_round b) then None
      else Some (mkExecution (ex_blocks e ++ [b]) (<[a := core]> (ex_cores e)))
  | Panic => None
  end.

(** Every link is to a round that its authority has reached. *)
Definition links_reached (blocks : list VerifiedBlock) : bool :=
  forallb (λ x, forallb (λ r, existsb (λ y, (vb_author y =? br_author r) && (br_round r <=? vb_round y)) blocks)
    (vb_ancestors x)) blocks.

(** What verification establishes of a block, for the genesis blocks of a core. *)
Definition ancestor_good (core : Core MemStore) (b : VerifiedBlock) (r : BlockRef) : bool :=
  is_valid_index c (br_author r) && (br_round r <? vb_round b) &&
  (negb (br_round r =? 0) || bool_decide (is_Some (ds_genesis (dag_state core) !! r))).

Definition block_good (core : Core MemStore) (b : VerifiedBlock) : bool :=
  bool_decide (ref_bounded (reference b)) && (0 <? vb_round b) && is_valid_index c (vb_author b) &&
  forallb (ancestor_good core b) (vb_ancestors b).

Inductive action :=
| ActStart (a now : N)
| ActDeliver (a : N) (blocks : list nat) (now : N).

Definition ex_step (e : execution) (act : action) : option execution :=
  if negb (links_reached (genesis ++ ex_blocks e)) then None
  else
    match act with
    | ActStart a now =>
        if is_valid_index c a && bool_decide (a ∉ byz) && bool_decide (ex_cores e !! a = None) then
          match start_core (contexts a) (keys a) MemStore_new false 0 0 0 (now, now) with
          | Ret core => ex_publish e a core
          | Panic => None
          end
        else None
    | ActDeliver a blocks now =>
        match ex_cores e !! a with
        | Some core =>
            let blocks := omap (λ i, ex_blocks e !! i) blocks in
            if forallb (block_good core) blocks then
              match handle_event core (CommandReceived (AddBlocks blocks)) (now, now) with
              | Ret (core', _) => ex_publish e a core'
              | Panic => None
              end
            else None
        | None => None
        end
    end.

Definition ex_run (acts : list action) : option execution :=
  foldl (λ e act, e ≫= λ e, ex_step e act) (Some (mkExecution [] ∅)) acts.

(** ** Executions are runs of the network *)

Context (Henv : epoch_env c byz contexts keys) (Hgenesis : genesis_blocks (contexts 0) = Ret genesis).
Context (Hslow : ∀ a, mysticeti_fastpath (protocol_config (contexts a)) = false).

Record ex_ok (e : execution) : Prop := {
  xo_nodup : NoDup (reference <$> genesis ++ ex_blocks e);
  xo_rounds : ∀ b, b ∈ genesis ++ ex_blocks e → vb_round b ≤ 1000;
}.

Lemma ex_universe_snoc blocks b : ex_universe (blocks ++ [b]) = extend (ex_universe blocks) b.
Proof. unfold ex_universe. by rewrite foldl_app. Qed.

Lemma ex_lookup blocks r b :
  NoDup (reference <$> genesis ++ blocks) → ex_universe blocks r = Some b ↔ b ∈ genesis ++ blocks ∧ reference b = r.
Proof.
  revert r b. induction blocks as [|x blocks IH] using rev_ind; intros r b Hnd.
  { rewrite app_nil_r. by apply (genesis_lookup (contexts 0)). }
  rewrite ex_universe_snoc. rewrite app_assoc, fmap_app in Hnd. apply NoDup_app in Hnd as (Hnd & Hx & _).
  rewrite app_assoc, elem_of_app, list_elem_of_singleton. unfold extend. case_decide as Hr.
  - split; [intros [= <-]; by split; [right|]|]. intros [[Hb| ->] Hbr]; [|done]. exfalso.
    apply (Hx r); [rewrite <- Hbr; by apply list_elem_of_fmap_2|]. rewrite Hr. left.
  - rewrite (IH r b Hnd). split; [intros [? ?]; by split; [left|]|]. intros [[Hb| ->] Hbr]; [done|congruence].
Qed.

Lemma ex_block e b : ex_ok e → block_in (ex_universe (ex_blocks e)) b ↔ b ∈ genesis ++ ex_blocks e.
Proof. intros He. unfold block_in. rewrite (ex_lookup _ _ _ (xo_nodup e He)). naive_solver. Qed.

Lemma ex_rounds_safe e : ex_ok e → rounds_safe (ex_universe (ex_blocks e)).
Proof.
  intros He b Hb%(ex_block e b He). pose proof (xo_rounds e He b Hb). unfold STATE_LOCK_CLOCK_ROUNDS, u32_max. lia.
Qed.

Lemma reached_unguessed e a :
  ex_ok e → links_reached (genesis ++ ex_blocks e) = true →
  unguessed (S := MemStore) (contexts a) n (ex_universe (ex_blocks e)).
Proof.
  intros He Hl hist sds log core core1 now eb Hok Hp x Hx Hin.
  destruct (pp_state _ _ _ _ _ Hp) as (m & li & consumer & d' & _ & _ & _ & _ & _ & ancestors & last & Hlast & Hlt & _ & Hpr).
  destruct (proposed_fields (contexts a) core now ancestors _ d' Hpr) as (Hau & Hr & _).
  destruct (last_own (contexts a) _ log core last (ok_base _ _ _ _ (cm_core _ _ _ _ _ _ _ Hok)) Hlast) as (_ & _ & Hmax).
  apply (ex_block e x He) in Hx. unfold links_reached in Hl. rewrite forallb_forall in Hl.
  specialize (Hl x (proj1 (list_elem_of_In _ _) Hx)). rewrite forallb_forall in Hl.
  specialize (Hl _ (proj1 (list_elem_of_In _ _) Hin)). apply existsb_exists in Hl as (y & Hy & Hyr).
  apply list_elem_of_In, (ex_block e y He) in Hy. apply andb_true_iff in Hyr as [Hya%N.eqb_eq Hyr%N.leb_le].
  rewrite reference_author in Hya. rewrite reference_round in Hyr. specialize (Hmax y Hy). rewrite Hya in Hmax. specialize (Hmax Hau). lia.
Qed.

Lemma ex_publish_sound e a core e' :
  ex_ok e → ex_publish e a core = Some e' →
  ex_ok e' ∧ published (ex_universe (ex_blocks e)) core (ex_universe (ex_blocks e')) ∧ ex_cores e' = <[a := core]> (ex_cores e).
Proof.
  intros He. unfold ex_publish. destruct (last_proposed_block core) as [b|] eqn:Hb; [|done].
  case_bool_decide as Hk.
  { intros [= <-]. split; [by destruct He|]. split; [|done]. eapply pub_old; [done|]. by apply (ex_block e). }
  case_bool_decide as Href; [done|]. cbn [orb]. destruct (1000 <? vb_round b) eqn:Hr; [done|]. apply N.ltb_ge in Hr.
  intros [= <-]. cbn [ex_blocks ex_cores]. split; [|split; [|done]].
  - destruct He as [Hnd Hrounds]. split; cbn [ex_blocks]; rewrite app_assoc.
    + rewrite fmap_app. apply NoDup_app. split; [done|]. split; [|apply NoDup_singleton].
      intros r Hin ->%list_elem_of_singleton. done.
    + intros x [Hx| ->%list_elem_of_singleton]%elem_of_app; [by apply Hrounds|done].
  - rewrite ex_universe_snoc. apply pub_new; [done|].
    destruct (ex_universe (ex_blocks e) (reference b)) as [x|] eqn:Hx; [|done]. exfalso. apply Href.
    apply (ex_lookup _ _ _ (xo_nodup e He)) in Hx as [Hx <-]. by apply list_elem_of_fmap_2.
Qed.

Lemma block_good_received e a core b :
  ex_ok e → b ∈ ex_blocks e → block_good core b = true → received (contexts a) (ex_universe (ex_blocks e)) core b.
Proof.
  intros He Hb Hg. unfold block_good in Hg. rewrite !andb_true_iff in Hg. destruct Hg as [[[Hbd Hr] Hv] Ha].
  split; [|by rewrite Hslow]. rewrite forallb_forall in Ha.
  split; [apply (ex_block e b He), elem_of_app; by right|]. split; [by apply bool_decide_eq_true in Hbd|].
  split; [by apply N.ltb_lt|]. rewrite (ep_context _ _ _ _ Henv). split; [done|]. intros r Hin.
  specialize (Ha r (proj1 (list_elem_of_In _ _) Hin)). unfold ancestor_good in Ha. rewrite !andb_true_iff in Ha.
  destruct Ha as [[Hva Hlt] Hgen]. split; [done|]. split; [by apply N.ltb_lt|]. intros Hz. rewrite Hz in Hgen.
  by apply bool_decide_eq_true in Hgen.
Qed.

Lemma ex_step_sound e act e' :
  ex_ok e → ex_step e act = Some e' → ex_ok e' ∧ net_step c byz contexts keys (ex_network e) (ex_network e').
Proof.
  intros He. unfold ex_step. destruct (links_reached _) eqn:Hl; cbn [negb]; [|done]. destruct act as [a now|a idx now].
  - destruct (is_valid_index c a) eqn:Hv; [|done]. case_bool_decide as Hb; [|done]. case_bool_decide as Hnone; [|done]. cbn [andb].
    destruct (start_core _ _ _ _ _ _ _ _) as [core|] eqn:Hrun; [|done]. intros Hpub.
    destruct (ex_publish_sound e a core e' He Hpub) as (He' & Hp & Hc). split; [done|].
    unfold ex_network at 2. rewrite Hc.
    eapply (net_start c byz contexts keys (ex_network e)); [done|done| |done|done|by apply ex_rounds_safe].
    by apply reached_unguessed.
  - destruct (ex_cores e !! a) as [core|] eqn:Hcore; [|done]. destruct (forallb _ _) eqn:Hgood; [|done].
    set (blocks := omap (λ i, ex_blocks e !! i) idx) in *.
    destruct (handle_event _ _ _) as [[core' res]|] eqn:Hrun; [|done]. intros Hpub.
    destruct (ex_publish_sound e a core' e' He Hpub) as (He' & Hp & Hc). split; [done|].
    unfold ex_network at 2. rewrite Hc.
    eapply (net_event c byz contexts keys (ex_network e)); [done| | |done|done|by apply ex_rounds_safe].
    + by apply reached_unguessed.
    + intros b Hb. rewrite forallb_forall in Hgood. apply block_good_received; [done| |by apply Hgood, list_elem_of_In].
      apply list_elem_of_omap in Hb as (i & _ & Hi). by apply list_elem_of_lookup_2 in Hi.
Qed.

Lemma ex_run_sound acts e : ex_run acts = Some e → ex_ok e ∧ reachable c byz contexts keys (ex_network e).
Proof.
  intros Hrun. unfold ex_run in Hrun.
  enough (ex_ok e ∧ rtc (net_step c byz contexts keys) (net_genesis genesis) (ex_network e)) as [? ?] by (split; [done|by exists genesis]).
  assert (ex_ok (mkExecution [] ∅)) as H0'.
  { split; cbn [ex_blocks]; rewrite app_nil_r.
    - apply (NoDup_fmap_1 br_author). rewrite <- list_fmap_compose. by eapply (genesis_authors (contexts 0)).
    - intros b Hb. destruct (genesis_elem (contexts 0) genesis b Hgenesis Hb) as (-> & _). lia. }
  change (net_genesis genesis) with (ex_network (mkExecution [] ∅)). revert H0' Hrun. generalize (mkExecution [] ∅).
  induction acts as [|act acts IH]; intros e0 He0 Hrun; cbn [foldl] in Hrun; [by injection Hrun as ->|].
  cbn [mbind option_bind] in Hrun. destruct (ex_step e0 act) as [e1|] eqn:Hstep.
  - destruct (ex_step_sound e0 act e1 He0 Hstep) as [He1 Hn]. destruct (IH e1 He1 Hrun) as [? ?].
    split; [done|]. by eapply rtc_l.
  - exfalso. clear -Hrun. induction acts as [|x acts IH]; [done|]. by apply IH.
Qed.
End Execution.

(** * Properties *)

Section Properties.
Context `{LeaderRngSpec} `{Crypto} `{CommitCodec} `{TransactionVerifier}.

(** C1. Agreement of the validators: in every state that the network reaches from the genesis
    blocks, of the commits that two honest validators have sent to execution one sequence
    starts the other, whatever the Byzantine validators do, in whatever order blocks arrive,
    and through every change of the leader schedule; and each is numbered from one without a
    gap. *)
Theorem honest_commits_agree c byz contexts keys s a a' core core' :
  epoch_env c byz contexts keys → reachable c byz contexts keys s →
  net_cores s !! a = Some core → net_cores s !! a' = Some core' →
  (sent_commits core `prefix_of` sent_commits core' ∨ sent_commits core' `prefix_of` sent_commits core) ∧
  ∀ i sd, sent_commits core !! i = Some sd → cr_index (sd_commit_ref sd) = N.of_nat i + 1.
Proof.
  intros Henv Hr Ha Ha'. pose proof (reachable_ok c byz contexts keys Henv s Hr) as Hs.
  destruct (nk_cores _ _ _ _ _ Hs a core Ha) as (_ & _ & hist & sds & log & Hok).
  destruct (nk_cores _ _ _ _ _ Hs a' core' Ha') as (_ & _ & hist' & sds' & log' & Hok').
  unfold sent_commits. rewrite (cm_sent _ _ _ _ _ _ _ Hok), (cm_sent _ _ _ _ _ _ _ Hok').
  destruct (cm_progress _ _ _ _ _ _ _ Hok) as (st & Hp & _). destruct (cm_progress _ _ _ _ _ _ _ Hok') as (st' & Hp' & _).
  split; [|apply (progress_indices _ _ _ _ _ _ Hp)].
  apply (progress_prefix (contexts a) (contexts a') byz CONSENSUS_COMMITS_PER_SCHEDULE (net_blocks s)) with hist st hist' st'; [| |done|done].
  - destruct (ep_same _ _ _ _ Henv a a') as (? & ? & _). by split.
  - apply (universe_of c byz contexts keys Henv a). apply (nk_universe _ _ _ _ _ Hs).
Qed.

(** C2. No event stops an honest validator: in every state that the network reaches, the core
    thread handles every event of a sound environment without a panic, and its only error is
    the shutdown of the receivers of its blocks; the commits that it has sent stay. *)
Theorem core_thread_never_panics c byz contexts keys s a core event nows :
  epoch_env c byz contexts keys → reachable c byz contexts keys s → net_cores s !! a = Some core →
  unguessed (S := MemStore) (contexts a) CONSENSUS_COMMITS_PER_SCHEDULE (net_blocks s) →
  event_ok (contexts a) CONSENSUS_COMMITS_PER_SCHEDULE (net_blocks s) core event →
  ∃ core' result, handle_event core event nows = Ret (core', result) ∧ only_shutdown result ∧
    (∃ G', published (net_blocks s) core' G') ∧ sent_commits core `prefix_of` sent_commits core'.
Proof.
  intros Henv Hr Ha Hun Hev. pose proof (reachable_ok c byz contexts keys Henv s Hr) as Hs.
  destruct (nk_cores _ _ _ _ _ Hs a core Ha) as (Hh & Hk & hist & sds & log & Hok).
  destruct (own_env c byz contexts keys Henv a core Hh Hk) as [Hch Hce].
  destruct (handle_event_spec (contexts a) byz _ _ (universe_of c byz contexts keys Henv a _ (nk_universe _ _ _ _ _ Hs))
    (nk_rounds _ _ _ _ _ Hs) Hch Hun hist sds log core event nows Hok Hce Hev)
    as (core' & res & Hrun & (G1 & hist1 & sds1 & log1 & Hg & Hok1 & Hpre & _) & Hres).
  exists core', res. split; [done|]. split; [done|]. split.
  - exists G1. by eapply (grown_published c byz contexts keys Henv a); [apply (nk_universe _ _ _ _ _ Hs)|done|done].
  - unfold sent_commits. by rewrite (cm_sent _ _ _ _ _ _ _ Hok), (cm_sent _ _ _ _ _ _ _ Hok1).
Qed.

(** C3. Every block of an honest validator is valid: whatever the network went through, each
    verifier of the epoch accepts it. *)
Theorem honest_blocks_verify c byz contexts keys s b a v :
  epoch_env c byz contexts keys → reachable c byz contexts keys s →
  block_in (net_blocks s) b → vb_author b ∉ byz → 0 < vb_round b →
  SignedBlockVerifier_new (contexts a) = Ret v → verify_block v (vb_block b) = Ret (Ok tt).
Proof.
  intros Henv Hr Hb Ha Hp Hv. pose proof (reachable_ok c byz contexts keys Henv s Hr) as Hs.
  by apply (nk_valid _ _ _ _ _ Hs b Hb Ha Hp a v).
Qed.

(** ** Fetched commits *)

Context `{Decoder} `{!DecoderSpec}.

(** C4. A validator fetches only honest history: whatever a peer answers to the commit syncer of a
    validator in the network, short of forging blocks or colliding with a digest, the fetch does
    not panic, and the commits that it accepts are, with the leaders and the blocks that come
    along, consecutive commits of one honest validator, from the start of the requested range. *)
Theorem fetched_commits_honest c byz contexts keys s a core v peer answers range :
  epoch_env c byz contexts keys → reachable c byz contexts keys s →
  net_cores s !! a = Some core → SignedBlockVerifier_new (contexts a) = Ret v →
  answers_sound s v answers range → range_ok range → 0 < max_blocks_per_fetch (parameters (contexts a)) →
  ∃ t res, fetch_once v (transaction_certifier core) peer answers range = Ret (t, res) ∧
    ∀ fetched, res = Ok fetched → certified_commits fetched ≠ [] ∧
      ∃ a' core', net_cores s !! a' = Some core' ∧ (a' ∉ byz) ∧
        ∀ i cc, certified_commits fetched !! i = Some cc →
          ∃ sd, sent_commits core' !! (N.to_nat (CommitRange_start range - 1) + i)%nat = Some sd ∧
            tc_reference (cc_commit cc) = sd_commit_ref sd ∧ tc_leader (cc_commit cc) = sd_leader sd ∧
            cc_blocks cc = sd_blocks sd.
Proof.
  intros Henv Hr Ha Hv Hans Hrange Hmax. pose proof (reachable_ok c byz contexts keys Henv s Hr) as Hs.
  destruct (nk_cores _ _ _ _ _ Hs a core Ha) as (_ & _ & hist & sds & log & Hok).
  destruct (fetch_once_total c byz contexts keys Henv s Hs a core hist sds log v Hv peer answers range (transaction_certifier core))
    as (t & res & Hrun & _ & _ & Hres); [by destruct core|done|done|done|].
  exists t, res. split; [done|]. intros fetched Hf. destruct (Hres fetched Hf) as (Hne & (a' & core' & len & Ha' & Hm) & _).
  split; [done|]. exists a', core'. split; [done|]. split; [by destruct (nk_cores _ _ _ _ _ Hs a' core' Ha') as ([] & _)|].
  intros i cc Hi. destruct (Forall2_lookup_l _ _ _ _ _ Hm Hi) as (sd & Hsd & Hmt). exists sd.
  split; [by eapply history_lookup|exact Hmt].
Qed.

(** C5. A validator that is behind catches up: given commits that were fetched, from any peer as
    above, for a range that goes on from its own, the core thread commits all of them, and only
    adds to what it has committed. The batch is to come with the ancestors that garbage
    collection left out of its later commits and that the validator does not have. *)
Theorem fetched_commits_catch_up c byz contexts keys s a core v peer answers range nows :
  epoch_env c byz contexts keys → reachable c byz contexts keys s →
  net_cores s !! a = Some core → SignedBlockVerifier_new (contexts a) = Ret v →
  answers_sound s v answers range → range_ok range → 0 < max_blocks_per_fetch (parameters (contexts a)) →
  unguessed (S := MemStore) (contexts a) CONSENSUS_COMMITS_PER_SCHEDULE (net_blocks s) →
  CommitRange_start range ≤ last_commit_index (dag_state core) + 1 →
  ∃ t res, fetch_once v (transaction_certifier core) peer answers range = Ret (t, res) ∧
    ∀ fetched, res = Ok fetched →
      no_gap contexts a core (drop (N.to_nat (last_commit_index (dag_state core) + 1 - CommitRange_start range)) (certified_commits fetched)) →
      ∃ core' result, handle_event (core <| transaction_certifier := t |>) (CommandReceived (AddCertifiedCommits fetched)) nows =
          Ret (core', result) ∧ only_shutdown result ∧ sent_commits core `prefix_of` sent_commits core' ∧
        CommitRange_start range + N.of_nat (length (certified_commits fetched)) ≤ N.of_nat (length (sent_commits core')) + 1.
Proof.
  intros Henv Hr Ha Hv Hans Hrange Hmax Hun Hstart. pose proof (reachable_ok c byz contexts keys Henv s Hr) as Hs.
  destruct (nk_cores _ _ _ _ _ Hs a core Ha) as (_ & _ & hist & sds & log & Hok).
  assert (shares contexts s a core hist sds log (transaction_certifier core)) as Hsh by by destruct core.
  destruct (fetch_once_total c byz contexts keys Henv s Hs a core hist sds log v Hv peer answers range _ Hsh Hans Hrange Hmax)
    as (t & res & Hrun & Hsh' & _ & Hres).
  exists t, res. split; [done|]. intros fetched Hf Hgap.
  destruct (Hres fetched Hf) as (_ & (a' & core' & len & Ha' & Hm) & Hblocks & Hvotes).
  destruct (last_index c byz contexts keys Henv s Hs a core hist sds log Ha t Hsh') as [Hidx _]. destruct Hrange as (Hpos & _).
  rewrite Hidx in Hstart, Hgap. unfold CommitRange_start in *.
  destruct (deliver_fetched c byz contexts keys Henv s Hs a core hist sds log Ha v Hv t fetched nows a' core'
    (N.to_nat (range_lo range - 1)) len Hsh' Hun Ha' Hm) as (core1 & result & Hev & Hsd & sent & Hpre & Hlen); [lia|done|done| |].
  { by replace (length sds - N.to_nat (range_lo range - 1))%nat with (N.to_nat (N.of_nat (length sds) + 1 - range_lo range)) by lia. }
  exists core1, result. split; [done|]. split; [done|]. split.
  - unfold sent_commits at 1. rewrite (cm_sent _ _ _ _ _ _ _ Hok). etrans; [by apply prefix_app_r|done].
  - apply prefix_length in Hpre. lia.
Qed.

(** C6. A block from the network never harms a validator: when a peer of the committee sends a
    block whose excluded ancestors are by authorities of the committee, the service handles it
    without a panic, whether it accepts the block or not, only adds to the commits of the core,
    and is ready for the next one. *)
Theorem sent_block_never_panics c byz contexts keys s a svc peer sb nows :
  epoch_env c byz contexts keys → reachable c byz contexts keys s → service_ok c contexts s a svc →
  is_valid_index c peer = true →
  unguessed (S := MemStore) (contexts a) CONSENSUS_COMMITS_PER_SCHEDULE (net_blocks s) →
  votes_sound s (svc_verifier svc) [esb_block sb] →
  (∀ refs r, decode_excluded (esb_excluded_ancestors sb) = Some refs → r ∈ refs → is_valid_index c (br_author r) = true) →
  ∃ svc' res G', handle_send_block svc peer sb nows = Ret (svc', res) ∧
    published (net_blocks s) (svc_core svc') G' ∧ sent_commits (svc_core svc) `prefix_of` sent_commits (svc_core svc') ∧
    (rounds_safe G' → net_ok c byz contexts keys (mkNetwork G' (<[a := svc_core svc']> (net_cores s))) ∧
     service_ok c contexts (mkNetwork G' (<[a := svc_core svc']> (net_cores s))) a svc').
Proof.
  intros Henv Hr Hsvc Hpeer Hun Hsound Hex. pose proof (reachable_ok c byz contexts keys Henv s Hr) as Hs.
  destruct (send_block_total c byz contexts keys Henv s Hs a svc Hsvc peer sb nows Hpeer Hun Hsound Hex)
    as (svc' & res & Hrun & (G' & hist & sds & log & Hg & Hok & Hpre & Hk) & Hver & Hmon & Hdis).
  exists svc', res, G'. split; [done|]. split; [by apply (grown_published c byz contexts keys Henv a _ _ hist sds log);
    [apply (nk_universe _ _ _ _ _ Hs)|..]|]. split; [unfold sent_commits at 2; by rewrite (cm_sent _ _ _ _ _ _ _ Hok)|].
  intros Hsafe. destruct (nk_cores _ _ _ _ _ Hs a _ (sv_core _ _ _ _ _ Hsvc)) as (Hh & _). split.
  - apply net_ok_update; try done. by exists hist, sds, log.
  - split; [apply lookup_insert_eq|rewrite Hver; apply Hsvc|done|done].
Qed.
End Properties.

(** * An epoch of four validators *)

Section Sample.
#[local] Existing Instance sample_rng.
#[local] Existing Instance sample_rng_spec.
#[local] Existing Instance wire_crypto.
#[local] Existing Instance wire_codec.
#[local] Existing Instance accept_all.

Definition four_contexts (a : N) : Context :=
  mkContext 0 a (sample_committee 4) Parameters_default (mkProtocolConfig false false (Some 1) 60 25 1000 10 10000).

Definition four_keys (a : N) : list Byte.byte := [].

Lemma four_stakes i : stake_of (sample_committee 4) i ≤ 1.
Proof.
  unfold stake_of. destruct (committee_authorities (sample_committee 4) !! N.to_nat i) as [x|] eqn:Hx; [|done].
  unfold sample_committee in Hx. cbn [committee_authorities] in Hx. by apply lookup_replicate in Hx as [-> _].
Qed.

Lemma four_start byz a : honest (sample_committee 4) byz a → start_env (four_contexts a) byz (four_keys a).
Proof.
  intros [Hv Hb]. assert (committee_wf (sample_committee 4)) as Hc by (apply sample_committee_wf; lia).
  assert (no_dominant (sample_committee 4)) as Hdom.
  { intros i. apply bool_decide_eq_false. pose proof (four_stakes i). change (committee_quorum_threshold (sample_committee 4)) with 3. lia. }
  split; [split; try done|split; try done|done|done|done].
  - split; [by eexists..|exact poly_hash_bound|]. destruct (valid_authority _ _ Hv) as [x Hx]. exists x. split; [exact Hx|].
    intros message. exists message. split; [done|]. apply bool_decide_eq_true.
    apply expect_Ret, lookup_replicate in Hx as [-> _]. reflexivity.
  - split; [done|done|done|done|exact four_stakes].
Qed.

Lemma four_epoch byz :
  reached_validity (sample_committee 4) (weight (sample_committee 4) byz) = false →
  epoch_env (sample_committee 4) byz four_contexts four_keys.
Proof. intros Hbyz. split; [apply sample_committee_wf; lia|exact Hbyz|apply four_start|done|done|done]. Qed.

Lemma four_env : epoch_env (sample_committee 4) {[3]} four_contexts four_keys.
Proof. apply four_epoch. by vm_compute. Qed.

Definition four_genesis : list VerifiedBlock := match genesis_blocks (four_contexts 0) with Ret l => l | Panic => [] end.

(** The three honest validators start and exchange the blocks of four rounds; then the first
    gets the blocks of the fifth. *)
Definition four_actions : list action :=
  [ActStart 0 5; ActStart 1 6; ActStart 2 7] ++
  (seq 0 4 ≫= λ r, (λ a, ActDeliver a [3 * r; 3 * r + 1; 3 * r + 2]%nat (1000 * (1 + N.of_nat r))) <$> [0; 1; 2]) ++
  [ActDeliver 0 [12; 13; 14]%nat 9000].

Definition four_run : option execution := ex_run (sample_committee 4) {[3]} four_contexts four_keys four_genesis four_actions.

Definition four_check (e : execution) : bool :=
  links_reached (four_genesis ++ ex_blocks e) &&
  match ex_cores e !! 0, ex_cores e !! 2, head (ex_blocks e) with
  | Some core, Some core', Some b =>
      (length (sent_commits core) =? 3)%nat && (length (sent_commits core') =? 2)%nat && (vb_author b =? 0) && (vb_round b =? 1)
  | _, _, _ => false
  end.

Lemma four_run_check : option_map four_check four_run = Some true.
Proof. vm_compute. reflexivity. Qed.

(** The state after the exchange: the first validator has sent three commits, the third two. *)
Lemma four_state : ∃ e core core' b,
  reachable (sample_committee 4) {[3]} four_contexts four_keys (ex_network four_genesis e) ∧
  ex_cores e !! 0 = Some core ∧ ex_cores e !! 2 = Some core' ∧
  length (sent_commits core) = 3%nat ∧ length (sent_commits core') = 2%nat ∧
  block_in (ex_universe four_genesis (ex_blocks e)) b ∧ vb_author b = 0 ∧ vb_round b = 1 ∧
  unguessed (S := MemStore) (four_contexts 0) CONSENSUS_COMMITS_PER_SCHEDULE (ex_universe four_genesis (ex_blocks e)).
Proof.
  pose proof four_run_check as Hc. destruct four_run as [e|] eqn:He; [|done]. injection Hc as Hc. unfold four_check in Hc.
  apply andb_true_iff in Hc as [Hl Hc]. destruct (ex_cores e !! 0) as [core|] eqn:H0; [|done].
  destruct (ex_cores e !! 2) as [core'|] eqn:H2; [|done]. destruct (head (ex_blocks e)) as [b|] eqn:Hb; [|done].
  rewrite !andb_true_iff in Hc. destruct Hc as [[[H3%Nat.eqb_eq H4%Nat.eqb_eq] H5%N.eqb_eq] H6%N.eqb_eq].
  assert (genesis_blocks (four_contexts 0) = Ret four_genesis) as Hg by (vm_compute; reflexivity).
  destruct (ex_run_sound (sample_committee 4) {[3]} four_contexts four_keys four_genesis four_env Hg (λ _, eq_refl) four_actions e He)
    as [Hok Hreach].
  exists e, core, core', b. do 5 (split; [eassumption|]). split; [|do 2 (split; [eassumption|])].
  - apply (ex_block four_contexts four_genesis Hg e b Hok), elem_of_app. right. destruct (ex_blocks e) as [|x l]; [discriminate Hb|]. injection Hb as ->. left.
  - exact (reached_unguessed four_contexts four_genesis Hg e 0 Hok Hl).
Qed.

Lemma honest_commits_agree_witness : ∃ e core core',
  reachable (sample_committee 4) {[3]} four_contexts four_keys (ex_network four_genesis e) ∧
  ex_cores e !! 0 = Some core ∧ ex_cores e !! 2 = Some core' ∧ sent_commits core' `prefix_of` sent_commits core ∧
  length (sent_commits core) = 3%nat ∧ length (sent_commits core') = 2%nat.
Proof.
  destruct four_state as (e & core & core' & b & Hr & H0 & H2 & H3 & H4 & _). exists e, core, core'.
  destruct (honest_commits_agree (sample_committee 4) {[3]} four_contexts four_keys (ex_network four_genesis e) 0 2 core core'
    four_env Hr H0 H2) as [[Hp|Hp] _].
  - apply prefix_length in Hp. lia.
  - do 3 (split; [assumption|]). split; [exact Hp|]. split; assumption.
Defined.

Lemma core_thread_never_panics_witness : ∃ e core core' result,
  ex_cores e !! 0 = Some core ∧ handle_event core (CommandReceived (NewBlock 9 true)) (0, 0) = Ret (core', result) ∧
  only_shutdown result.
Proof.
  destruct four_state as (e & core & _ & b & Hr & H0 & _ & _ & _ & _ & _ & _ & Hun).
  destruct (core_thread_never_panics (sample_committee 4) {[3]} four_contexts four_keys (ex_network four_genesis e) 0 core
    (CommandReceived (NewBlock 9 true)) (0, 0) four_env Hr H0 Hun I) as (core' & result & Hrun & Hres & _).
  exists e, core, core', result. split; [exact H0|]. split; [exact Hrun|exact Hres].
Defined.

Lemma honest_blocks_verify_witness : ∃ b v,
  vb_author b = 0 ∧ vb_round b = 1 ∧ SignedBlockVerifier_new (four_contexts 1) = Ret v ∧ verify_block v (vb_block b) = Ret (Ok tt).
Proof.
  destruct four_state as (e & _ & _ & b & Hr & _ & _ & _ & _ & Hb & Ha & Hround & _).
  destruct (SignedBlockVerifier_new (four_contexts 1)) as [v|] eqn:Hv; [|vm_compute in Hv; discriminate].
  exists b, v. do 3 (split; [first [assumption|reflexivity]|]).
  apply (honest_blocks_verify (sample_committee 4) {[3]} four_contexts four_keys (ex_network four_genesis e) b 1 v four_env Hr Hb);
    [rewrite Ha; set_solver|lia|exact Hv].
Defined.

(** ** A validator that is behind *)

#[local] Existing Instance wire_decoder.
#[local] Existing Instance wire_decoder_spec.

(** All four validators are honest and start; the first three exchange blocks for six rounds, and
    the last one hears nothing. *)
Definition lag_round (r : nat) : list nat :=
  match r with O => [0; 1; 2] | S _ => [3 * r + 1; 3 * r + 2; 3 * r + 3] end%nat.

Definition lag_actions : list action :=
  [ActStart 0 5; ActStart 1 6; ActStart 2 7; ActStart 3 8] ++
  (seq 0 6 ≫= λ r, (λ a, ActDeliver a (lag_round r) (1000 * (1 + N.of_nat r))) <$> [0; 1; 2]).

Definition lag_run : option execution := ex_run (sample_committee 4) ∅ four_contexts four_keys four_genesis lag_actions.

(** The services of the peer that is asked, and the range of the request. *)
Definition lag_answers (server : Core MemStore) : PeerAnswers :=
  mkPeerAnswers
    (λ range, match handle_fetch_commits (four_contexts 0) (ds_store (dag_state server)) range with
              | Ret (commits, blocks) => Ok (tc_serialized <$> commits, serialize blocks)
              | Panic => Err Shutdown
              end)
    (λ refs, match handle_fetch_blocks (dag_state server) (four_contexts 0) true (λ l k, take (N.to_nat k) l) refs [] false with
             | Ret res => res
             | Panic => Err Shutdown
             end).

Definition lag_range : CommitRange := mkCommitRange 1 4.

Definition no_collision (xs ys : list (list Byte.byte)) : bool :=
  let ys := (λ y, (hash y, y)) <$> ys in
  forallb (λ x, let h := hash x in forallb (λ y : N * list Byte.byte, negb (h =? y.1) || bool_decide (x = y.2)) ys) xs.

Definition core_commits (core : Core MemStore) : list (list Byte.byte) :=
  omap (λ p, bcs_commit (commit_at (sent_commits core) p.1 p.2)) (imap (λ i sd, (i, sd)) (sent_commits core)).

Definition small_block (b : VerifiedBlock) : bool := nsum (data_len <$> block_transactions_data (vb_inner b)) <? 2 ^ 64.

(** The service of the validator that is behind, and the first block of the first validator. *)
Definition lag_service (client : Core MemStore) (v : SignedBlockVerifier) : AuthorityService MemStore :=
  mkAuthorityService client (CommitVoteMonitor_new (four_contexts 3)) v (mkChannelCoreThreadDispatcher (replicate 4 0)) [].

Definition lag_send (e : execution) (client : Core MemStore) (v : SignedBlockVerifier) : bool :=
  match head (ex_blocks e) with
  | Some b => match handle_send_block (lag_service client v) 0 (mkExtendedSerializedBlock (vb_serialized b) []) (0, 0) with
              | Ret (_, Ok _) => true
              | _ => false
              end
  | None => false
  end.

(** What the first validator answers to a request for its first block. *)
Definition lag_serve (e : execution) (server : Core MemStore) : bool :=
  match head (ex_blocks e) with
  | Some b => match handle_fetch_blocks (dag_state server) (four_contexts 0) true (λ l k, take (N.to_nat k) l) [reference b] [] false with
              | Ret (Ok bytes) => bool_decide (bytes = [vb_serialized b])
              | _ => false
              end
  | None => false
  end.

Definition lag_check (e : execution) (server client : Core MemStore) (v : SignedBlockVerifier) : bool :=
  let blocks := vb_serialized <$> four_genesis ++ ex_blocks e in
  links_reached (four_genesis ++ ex_blocks e) && forallb small_block (four_genesis ++ ex_blocks e) &&
  no_collision blocks blocks &&
  match answer_commits (lag_answers server) lag_range with
  | Ok (cs, bs) => forallb (λ x, bool_decide (x ∈ blocks)) bs && no_collision cs ((map_to_list (ex_cores e)).*2 ≫= core_commits)
  | Err _ => false
  end &&
  match fetch_once v (transaction_certifier client) 0 (lag_answers server) lag_range with
  | Ret (_, Ok fetched) => (length (certified_commits fetched) =? 3)%nat && forallb (λ cc, tc_round (cc_commit cc) <=? 60) (certified_commits fetched)
  | _ => false
  end &&
  (length (sent_commits client) =? 0)%nat && ((last_commit_index (dag_state client) =? 0) && (lag_send e client v && lag_serve e server)).

Definition lag_checked : bool :=
  match lag_run, SignedBlockVerifier_new (four_contexts 3) with
  | Some e, Ret v => match ex_cores e !! 0, ex_cores e !! 3 with Some server, Some client => lag_check e server client v | _, _ => false end
  | _, _ => false
  end.

Lemma lag_run_check : lag_checked = true.
Proof. vm_compute. reflexivity. Qed.

Lemma lag_env : epoch_env (sample_committee 4) ∅ four_contexts four_keys.
Proof. apply four_epoch. by vm_compute. Qed.

(** The state after the exchange. *)
Record lag_state (e : execution) (server client : Core MemStore) (v : SignedBlockVerifier) : Prop := {
  lg_reachable : reachable (sample_committee 4) ∅ four_contexts four_keys (ex_network four_genesis e);
  lg_blocks : ∀ b, block_in (ex_universe four_genesis (ex_blocks e)) b ↔ b ∈ four_genesis ++ ex_blocks e;
  lg_unguessed : unguessed (S := MemStore) (four_contexts 3) CONSENSUS_COMMITS_PER_SCHEDULE (ex_universe four_genesis (ex_blocks e));
  lg_server : ex_cores e !! 0 = Some server;
  lg_client : ex_cores e !! 3 = Some client;
  lg_verifier : SignedBlockVerifier_new (four_contexts 3) = Ret v;
  lg_check : lag_check e server client v = true;
}.

Lemma lag_reached : ∃ e server client v, lag_state e server client v.
Proof.
  pose proof lag_run_check as Hc. unfold lag_checked in Hc. destruct lag_run as [e|] eqn:He; [|done].
  destruct (SignedBlockVerifier_new (four_contexts 3)) as [v|] eqn:Hv; [|done].
  destruct (ex_cores e !! 0) as [server|] eqn:H0; [|done]. destruct (ex_cores e !! 3) as [client|] eqn:H3; [|done].
  assert (genesis_blocks (four_contexts 0) = Ret four_genesis) as Hg by (vm_compute; reflexivity).
  destruct (ex_run_sound (sample_committee 4) ∅ four_contexts four_keys four_genesis lag_env Hg (λ _, eq_refl) lag_actions e He)
    as [Hok Hreach].
  exists e, server, client, v. split; [exact Hreach| | |exact H0|exact H3|exact Hv|exact Hc].
  - intros b. exact (ex_block four_contexts four_genesis Hg e b Hok).
  - refine (reached_unguessed four_contexts four_genesis Hg e 3 Hok _). unfold lag_check in Hc. rewrite !andb_true_iff in Hc. apply Hc.
Qed.

Lemma no_collision_spec xs ys x y : no_collision xs ys = true → x ∈ xs → y ∈ ys → hash x = hash y → x = y.
Proof.
  intros Hn Hx Hy Heq. unfold no_collision in Hn. rewrite forallb_forall in Hn. specialize (Hn x (proj1 (list_elem_of_In _ _) Hx)).
  cbv zeta in Hn. rewrite forallb_forall in Hn.
  specialize (Hn (hash y, y) (proj1 (list_elem_of_In _ _) (list_elem_of_fmap_2 (λ y, (hash y, y)) _ _ Hy))). cbn [fst snd] in Hn.
  rewrite (proj2 (N.eqb_eq _ _) Heq) in Hn. cbn [negb orb] in Hn. by apply bool_decide_eq_true in Hn.
Qed.

Section Lag.
Context (e : execution) (server client : Core MemStore) (v : SignedBlockVerifier) (Hlag : lag_state e server client v).
Let s := ex_network four_genesis e.

Lemma lag_ok : net_ok (sample_committee 4) ∅ four_contexts four_keys s.
Proof. apply (reachable_ok _ _ _ _ lag_env), Hlag. Qed.

(** The bytes of blocks that exist are sound. *)
Lemma lag_votes bs : (∀ x, x ∈ bs → x ∈ vb_serialized <$> four_genesis ++ ex_blocks e) → votes_sound s v bs.
Proof.
  intros Hbs x Hx. apply Hbs, list_elem_of_fmap in Hx as (B & -> & HB). apply (lg_blocks _ _ _ _ Hlag) in HB as HBG.
  pose proof (lg_check _ _ _ _ Hlag) as Hc. unfold lag_check in Hc. rewrite !andb_true_iff in Hc. split.
  - intros signed Hd. destruct (nk_encoded _ _ _ _ _ lag_ok B HBG) as [Henc _]. apply (decode_signed_block_spec (DecoderSpec := wire_decoder_spec)) in Henc.
    rewrite Henc in Hd. injection Hd as <-. destruct Hc as [[[[[[_ Hsm] _] _] _] _] _]. rewrite forallb_forall in Hsm.
    apply N.ltb_lt. by apply (Hsm B), list_elem_of_In.
  - intros b. apply (existing_verified (sample_committee 4) ∅ four_contexts four_keys s lag_ok). by exists B.
Qed.

Lemma lag_served refs bytes x :
  answer_blocks (lag_answers server) refs = Ok bytes → x ∈ bytes → x ∈ vb_serialized <$> four_genesis ++ ex_blocks e.
Proof.
  cbn [answer_blocks lag_answers]. unfold handle_fetch_blocks. cbn [negb].
  destruct (check_rounds _ _) as [[]|]; [|discriminate]. cbn [try_bind mbind outcome_bind].
  destruct (check_requested _ _) as [[]|]; [|discriminate]. cbn [mbind outcome_bind blocks_to_serve].
  rewrite get_known_spec. cbn [mbind outcome_bind]. intros [= <-] (b & -> & (r & _ & Hr)%list_elem_of_omap)%list_elem_of_fmap.
  apply list_elem_of_fmap_2, (lg_blocks _ _ _ _ Hlag).
  apply (lookup_exists (sample_committee 4) ∅ four_contexts four_keys s lag_ok 0 server r b (lg_server _ _ _ _ Hlag) Hr).
Qed.

Lemma core_commits_elem a core i sd y :
  ex_cores e !! a = Some core → sent_commits core !! i = Some sd → bcs_commit (commit_at (sent_commits core) i sd) = Some y →
  y ∈ (map_to_list (ex_cores e)).*2 ≫= core_commits.
Proof.
  intros Ha Hi Hy. apply list_elem_of_bind. exists core. split.
  - unfold core_commits. apply list_elem_of_omap. exists (i, sd). split; [|exact Hy].
    apply list_elem_of_lookup. exists i. rewrite list_lookup_imap, Hi. done.
  - apply list_elem_of_fmap. exists (a, core). split; [done|]. by apply elem_of_map_to_list.
Qed.

Lemma lag_sound : answers_sound s v (lag_answers server) lag_range.
Proof.
  pose proof (lg_check _ _ _ _ Hlag) as Hc. unfold lag_check in Hc. rewrite !andb_true_iff in Hc.
  destruct Hc as [[[[[_ Hblk] Hcom] _] _] _]. split.
  - intros cs bs Heq. rewrite Heq in Hcom. apply andb_true_iff in Hcom as [Hb _]. rewrite forallb_forall in Hb.
    apply lag_votes. intros x Hx. by apply list_elem_of_In, Hb, bool_decide_eq_true in Hx.
  - intros x y (cs & bs & Heq & Hx) (a & core & i & sd & Ha & Hi & Hy). rewrite Heq in Hcom. apply andb_true_iff in Hcom as [_ Hcol].
    apply (no_collision_spec _ _ _ _ Hcol Hx). by eapply core_commits_elem.
  - intros x y (refs & bytes & Hans & Hx) (B & HB & <-). apply (no_collision_spec _ _ _ _ Hblk); [by eapply lag_served|].
    apply list_elem_of_fmap_2. by apply (lg_blocks _ _ _ _ Hlag).
Qed.

(** The fetch, as it was evaluated. *)
Lemma lag_fetch t res :
  fetch_once v (transaction_certifier client) 0 (lag_answers server) lag_range = Ret (t, res) →
  ∃ fetched, res = Ok fetched ∧ length (certified_commits fetched) = 3%nat ∧
    ∀ cc, cc ∈ certified_commits fetched → tc_round (cc_commit cc) ≤ 60.
Proof.
  intros Hrun. pose proof (lg_check _ _ _ _ Hlag) as Hc. unfold lag_check in Hc. rewrite !andb_true_iff, Hrun in Hc.
  destruct Hc as [[[_ Hf] _] _]. destruct res as [fetched|]; [|discriminate]. apply andb_true_iff in Hf as [Hl Hr].
  exists fetched. split; [done|]. split; [by apply Nat.eqb_eq|]. intros cc Hcc. rewrite forallb_forall in Hr.
  apply N.leb_le, Hr. by apply list_elem_of_In.
Qed.

Lemma lag_sent : ∃ b svc', head (ex_blocks e) = Some b ∧
  handle_send_block (lag_service client v) 0 (mkExtendedSerializedBlock (vb_serialized b) []) (0, 0) = Ret (svc', Ok tt).
Proof.
  pose proof (lg_check _ _ _ _ Hlag) as Hc. unfold lag_check in Hc. rewrite !andb_true_iff in Hc. destruct Hc as [_ [_ [Hsend _]]].
  unfold lag_send in Hsend. destruct (head (ex_blocks e)) as [b|]; [|discriminate]. exists b.
  destruct (handle_send_block _ _ _ _) as [[svc' [[]|]]|]; try discriminate. exists svc'. split; reflexivity.
Qed.

Lemma lag_service_ok : service_ok (sample_committee 4) four_contexts s 3 (lag_service client v).
Proof. split; [apply Hlag|apply Hlag|split; reflexivity|reflexivity]. Qed.

Lemma lag_view : view_ok (dag_state server) ∧ dag_committee (dag_state server) = sample_committee 4.
Proof.
  destruct (nk_cores _ _ _ _ _ lag_ok 0 server (lg_server _ _ _ _ Hlag)) as (_ & _ & hist & sds & log & Hok).
  pose proof (no_view _ _ _ _ (ok_node _ _ _ _ (ok_base _ _ _ _ (cm_core _ _ _ _ _ _ _ Hok)))) as Hv.
  split; [apply (v_ok _ _ _ Hv)|apply (v_committee _ _ _ Hv)].
Qed.
End Lag.

Lemma fetched_commits_honest_witness : ∃ e server client v t fetched,
  lag_state e server client v ∧
  fetch_once v (transaction_certifier client) 0 (lag_answers server) lag_range = Ret (t, Ok fetched) ∧
  length (certified_commits fetched) = 3%nat ∧
  ∃ a core, ex_cores e !! a = Some core ∧ ∀ i cc, certified_commits fetched !! i = Some cc →
    ∃ sd, sent_commits core !! i = Some sd ∧ tc_leader (cc_commit cc) = sd_leader sd ∧ cc_blocks cc = sd_blocks sd.
Proof.
  destruct lag_reached as (e & server & client & v & Hlag).
  destruct (fetched_commits_honest (sample_committee 4) ∅ four_contexts four_keys (ex_network four_genesis e) 3 client v 0
    (lag_answers server) lag_range lag_env (lg_reachable _ _ _ _ Hlag) (lg_client _ _ _ _ Hlag) (lg_verifier _ _ _ _ Hlag)
    (lag_sound e server client v Hlag)) as (t & res & Hrun & Hres); [unfold range_ok; cbn; unfold u32_max; lia|cbn; lia|].
  destruct (lag_fetch e server client v Hlag t res Hrun) as (fetched & Heq & Hlen & _). subst res.
  destruct (Hres fetched eq_refl) as (_ & a & core & Ha & _ & Hall).
  exists e, server, client, v, t, fetched. split; [exact Hlag|]. split; [exact Hrun|]. split; [exact Hlen|].
  exists a, core. split; [exact Ha|]. intros i cc Hi. destruct (Hall i cc Hi) as (sd & Hsd & _ & Hl & Hb). exists sd. auto.
Defined.

(** The validator that heard nothing commits what it fetched. *)
Lemma fetched_commits_catch_up_witness : ∃ e server client v t fetched core' result,
  lag_state e server client v ∧ length (sent_commits client) = 0%nat ∧
  fetch_once v (transaction_certifier client) 0 (lag_answers server) lag_range = Ret (t, Ok fetched) ∧
  handle_event (client <| transaction_certifier := t |>) (CommandReceived (AddCertifiedCommits fetched)) (0, 0) = Ret (core', result) ∧
  (3 ≤ length (sent_commits core'))%nat.
Proof.
  destruct lag_reached as (e & server & client & v & Hlag).
  pose proof (lg_check _ _ _ _ Hlag) as Hc. unfold lag_check in Hc. rewrite !andb_true_iff in Hc. destruct Hc as [[_ Hzero] Hidx].
  apply Nat.eqb_eq in Hzero. destruct Hidx as [Hidx _]. apply N.eqb_eq in Hidx.
  destruct (fetched_commits_catch_up (sample_committee 4) ∅ four_contexts four_keys (ex_network four_genesis e) 3 client v 0
    (lag_answers server) lag_range (0, 0) lag_env (lg_reachable _ _ _ _ Hlag) (lg_client _ _ _ _ Hlag) (lg_verifier _ _ _ _ Hlag)
    (lag_sound e server client v Hlag)) as (t & res & Hrun & Hres);
    [unfold range_ok; cbn; unfold u32_max; lia|cbn; lia|exact (lg_unguessed _ _ _ _ Hlag)|cbn; lia|].
  destruct (lag_fetch e server client v Hlag t res Hrun) as (fetched & Heq & Hlen & Hround). subst res.
  destruct (Hres fetched eq_refl) as (core' & result & Hev & _ & _ & Hl).
  - intros i prev cc b x Hi _ _ _ Hgc Hle. exfalso. rewrite lookup_drop in Hi. apply list_elem_of_lookup_2, Hround in Hi.
    cbn in Hle. lia.
  - exists e, server, client, v, t, fetched, core', result. split; [exact Hlag|]. split; [exact Hzero|]. split; [exact Hrun|].
    split; [exact Hev|]. cbn in Hl. lia.
Defined.

Lemma sent_block_never_panics_witness : ∃ e server client v b svc' res,
  lag_state e server client v ∧ head (ex_blocks e) = Some b ∧
  handle_send_block (lag_service client v) 0 (mkExtendedSerializedBlock (vb_serialized b) []) (0, 0) = Ret (svc', res) ∧
  sent_commits client `prefix_of` sent_commits (svc_core svc').
Proof.
  destruct lag_reached as (e & server & client & v & Hlag). destruct (lag_sent e server client v Hlag) as (b & svc1 & Hb & _).
  destruct (sent_block_never_panics (sample_committee 4) ∅ four_contexts four_keys (ex_network four_genesis e) 3 (lag_service client v) 0
    (mkExtendedSerializedBlock (vb_serialized b) []) (0, 0) lag_env (lg_reachable _ _ _ _ Hlag) (lag_service_ok e server client v Hlag))
    as (svc' & res & G' & Hrun & _ & Hpre & _).
  - reflexivity.
  - exact (lg_unguessed _ _ _ _ Hlag).
  - apply (lag_votes e server client v Hlag). intros x Hx. apply list_elem_of_singleton in Hx as ->.
    apply (list_elem_of_fmap_2 vb_serialized _ b), elem_of_app. right.
    destruct (ex_blocks e) as [|y l]; [discriminate Hb|]. injection Hb as ->. left.
  - intros refs r Hr Hin. injection Hr as <-. by apply elem_of_nil in Hin.
  - exists e, server, client, v, b, svc', res. split; [exact Hlag|]. split; [exact Hb|]. split; [exact Hrun|exact Hpre].
Defined.

(** One excluded ancestor by an unknown authority. *)
Lemma excluded_ancestor_panics_witness : ∃ e server client v b,
  lag_state e server client v ∧ head (ex_blocks e) = Some b ∧
  handle_send_block (lag_service client v) 0
    (mkExtendedSerializedBlock (vb_serialized b) [put (mkBlockRef 1 9 0)]) (0, 0) = Panic.
Proof.
  destruct lag_reached as (e & server & client & v & Hlag). destruct (lag_sent e server client v Hlag) as (b & svc' & Hb & Hrun).
  assert (svc_context (lag_service client v) = four_contexts 3) as Hctx.
  { destruct (nk_cores _ _ _ _ _ (lag_ok e server client v Hlag) 3 client (lg_client _ _ _ _ Hlag)) as (_ & _ & hist & sds & log & Hok).
    exact (ok_context _ _ _ _ (ok_base _ _ _ _ (cm_core _ _ _ _ _ _ _ Hok))). }
  exists e, server, client, v, b. split; [exact Hlag|]. split; [exact Hb|].
  apply (excluded_ancestor_panics (lag_service client v) 0 (vb_serialized b) [put (mkBlockRef 1 9 0)] [mkBlockRef 1 9 0]
    (mkBlockRef 1 9 0) (0, 0) svc' Hrun).
  - vm_compute. reflexivity.
  - rewrite Hctx. left.
  - rewrite Hctx. reflexivity.
Defined.

(** A block of the first validator, signed and verified by the last. *)
Lemma signature_binds_block_witness :
  let block := V1 (mkBlockV1 0 1 0 7 (reference <$> four_genesis) [] [] []) in
  ∃ v signed, SignedBlockVerifier_new (four_contexts 3) = Ret v ∧ SignedBlock_new block (four_keys 0) = Ok signed ∧
    verify_block v signed = Ret (Ok tt) ∧ valid_content v block ∧
    unforged [] (λ b, b = block) (sb_signature signed) ∧ collision_free (λ b, b = block) block ∧ sb_inner signed = block.
Proof.
  intros block. destruct (SignedBlockVerifier_new (four_contexts 3)) as [v|] eqn:Hv; [|discriminate].
  destruct (SignedBlock_new block (four_keys 0)) as [signed|] eqn:Hs; [|discriminate].
  assert (collision_free (λ b, b = block) block) as Hfree.
  { split.
    - intros i i' m Hx Hy. change (Some (put i) = Some m) in Hx. change (Some (put i') = Some m) in Hy. apply put_inj. congruence.
    - intros b b' bytes Hx Hy. change (Some (put b) = Some bytes) in Hx. change (Some (put b') = Some bytes) in Hy. apply put_inj. congruence.
    - intros b bytes bytes' -> Hb Hb' _. rewrite Hb in Hb'. by injection Hb'. }
  assert (verifies_own [] (four_keys 0)) as Hown.
  { intros m. eexists. split; [reflexivity|]. cbn [signature_verify wire_crypto]. apply bool_decide_eq_true. reflexivity. }
  assert (verify_block v signed = Ret (Ok tt)) as Hver by (vm_compute in Hv, Hs; injection Hv as <-; injection Hs as <-; vm_compute; reflexivity).
  assert (bv_context v = four_contexts 3) as Hctx by (vm_compute in Hv; injection Hv as <-; reflexivity).
  assert (sb_inner signed = block) as Hin by (unfold SignedBlock_new in Hs; destruct (compute_block_signature _ _); [by injection Hs as <-|discriminate]).
  assert (unforged [] (λ b, b = block) (sb_signature signed)) as Hforge.
  { unfold SignedBlock_new in Hs. destruct (compute_block_signature block (four_keys 0)) as [sig|] eqn:Hc; [|discriminate]. injection Hs as <-.
    apply compute_block_signature_spec in Hc as (m0 & Hm0 & ->). intros m sg [= <-] Heq. exists block. split; [reflexivity|].
    cbn [signature_verify wire_crypto] in Heq. apply bool_decide_eq_true in Heq. cbn [sign wire_crypto four_keys app] in Heq. by subst m. }
  destruct (signature_binds_block v block (four_keys 0) (mkAuthority 1 "host" []) (λ b, b = block)) as [Hsign Hbind];
    [rewrite Hctx; apply sample_committee_wf; lia|reflexivity|rewrite Hctx; reflexivity|exact Hown|exact Hfree|].
  destruct (Hsign signed Hs) as (res & Hrun & Hiff). rewrite Hver in Hrun. injection Hrun as <-.
  exists v, signed. split; [reflexivity|]. split; [reflexivity|]. split; [exact Hver|]. split; [by apply Hiff|].
  split; [exact Hforge|]. split; [exact Hfree|exact Hin].
Defined.

(** The first block of the first validator, served to a peer. *)
Lemma fetch_blocks_response_witness : ∃ e server client v b bytes,
  lag_state e server client v ∧ head (ex_blocks e) = Some b ∧
  handle_fetch_blocks (dag_state server) (four_contexts 0) true (λ l k, take (N.to_nat k) l) [reference b] [] false = Ret (Ok bytes) ∧
  bytes = [vb_serialized b] ∧ response_ok (dag_state server) (max_response_num_blocks (four_contexts 0) []) [reference b] bytes.
Proof.
  destruct lag_reached as (e & server & client & v & Hlag). destruct (lag_view e server client v Hlag) as [Hv Hc].
  pose proof (lg_check _ _ _ _ Hlag) as Hchk. unfold lag_check in Hchk. rewrite !andb_true_iff in Hchk. destruct Hchk as [_ [_ [_ Hserve]]].
  unfold lag_serve in Hserve. destruct (head (ex_blocks e)) as [b|] eqn:Hb; [|discriminate].
  destruct (fetch_blocks_response (four_contexts 0) (dag_state server) Hv Hc true (λ l k, take (N.to_nat k) l) [reference b] [] false)
    as (res & Hrun & Hres); [intros l k; rewrite length_take; lia|].
  rewrite Hrun in Hserve. destruct res as [bytes|]; [|discriminate]. apply bool_decide_eq_true in Hserve. destruct Hres as [Hok _].
  exists e, server, client, v, b, bytes. split; [exact Hlag|]. split; [exact Hb|]. split; [exact Hrun|].
  split; [exact Hserve|exact Hok].
Defined.
End Sample.
